(* ===== verification/_CoqProject ===== *)
-Q . S2P
Prelude.v
Json.v
LRUCache.v
SortKey.v
SearchSet.v
StringView.v
SearchTerms.v
SearchFetch.v
SearchQuery.v
Bytes.v
PtrEvents.v
PtrChunk.v
PtrStore.v
PtrPool.v
PtrCollapse.v
PtrParse.v
PtrScan.v
PtrManifest.v
PtrRun.v
LanePolicy.v
Lane.v
Drain.v
HttpParams.v
Cookies.v
LanePool.v
HttpRoutes.v
HttpServer.v
HttpEvents.v
HttpStream.v
HttpRange.v
JobEvents.v
JobRuntime.v
ScanFiles.v
ClusterScan.v
Mime.v
DbReactor.v
DbCodec.v
DbConnection.v
DbPool.v
