(* ===== verification/Prelude.v ===== *)
(** * IDHAN: a verification library

    IDHAN is an image-tagging server: records (files known by their SHA-256)
    carry tags in domains, and clients search them.  A second program, the
    Hydrus importer, flattens the public tag repository (PTR), billions of
    add and delete events, into files the server imports.  A third, the
    downloader, fetches from web sites at the pace each site allows.  This
    library models the core logic of the three in C++ order and under C++
    names, and proves what makes it correct.

    ** Files, and the code they model (all paths under [src/])

    - [Prelude.v]: exceptions and the [result] monad, machine integers, the
      sort/unique/erase idiom, lemmas on lists, the hint database [idhan].
    - [StringView.v]: [std::string_view] searches, [stoull]/[stoll],
      [std::to_string], the hexadecimal form of [SHA256]
      ([IDHAN/src/SHA256.cpp]) and [splitTag] ([IDHAN/src/splitTag.cpp]).
    - [Bytes.v]: little-endian integers and byte vectors, what packed structs
      and [std::memcpy] give.
    - [LRUCache.v]: [IDHANServer/src/caching/LRUCache.hpp], the cache of
      values and the cache of valid keys, as a list of addressed nodes with an
      index, refined to a list in order of use.
    - [SortKey.v]: [core/search/SearchTypes.hpp], [SortKey.cpp] and
      [httpapi/search/parseSortType.hpp] in [IDHANServer/src]: the sort types,
      their SQL and their typed key columns.
    - [SearchSet.v]: [core/search/Set.cpp], the sorted result sets with a
      complement flag, their operators and page passes.
    - [SearchTerms.v]: the term functions of [httpapi/search/SearchQuery.cpp]:
      ranges, MIME predicates, nearby, hashes and wildcards.
    - [SearchFetch.v]: [core/search/SearchStats.cpp] and
      [httpapi/search/SearchFetch.cpp]: statistics, the SQL sent, and the rows
      read back.  The database is the record [Database]; its contract is the
      predicate [answers] on the queries the code sends.
    - [SearchQuery.v]: the builder's state with every setter, planning,
      evaluation and the query itself.
    - [Json.v]: the interface of jsoncpp the code uses, as a class with laws up
      to an equivalence, and a small document model that satisfies them.
    - [PtrEvents.v]: [tools/HydrusImporter/ptr-core]: [MappingEvent.hpp],
      [BucketSpill.cpp], [CollapseChain.cpp], one bucket of
      [FlattenCollapse.cpp], [collapseRelations] and [TagUsageSet.cpp].
    - [PtrChunk.v]: [ChunkFormat.cpp] and the file half of
      [RelationsFile.cpp]; zlib is the class [Zlib] with [ZlibLaws].
    - [PtrStore.v]: [DefinitionStore.cpp] and [HexEncode.cpp]; concurrent
      writers are the step relation [step].
    - [PtrPool.v]: [ParallelFor.cpp], the pool of workers that share a counter
      and stop on the first exception or on cancellation; its interleavings
      are schedules, and [run_all] is their invariant principle.
    - [PtrCollapse.v]: the rest of [FlattenCollapse.cpp]: the chunk sink, the
      usage bits and counters shared by the bucket workers, and
      [collapseBuckets] as a body of that pool.
    - [PtrParse.v]: [PTRFileParser.cpp]: inflating an update file and reading
      its three kinds; the streaming half of zlib is the class [Inflate].
    - [PtrScan.v]: [FlattenScan.cpp]: the scan of the update files as a body of
      the pool, one file, definition or event to a move.
    - [PtrManifest.v]: [Manifest.cpp], the manifest and its JSON form.
    - [PtrRun.v]: [RunFlatten.cpp]: the stages in order, publication with its
      rollback, and the run from the metadata to the manifest.
    - [LanePolicy.v]: [IDHANDownloader/src/http/LanePolicy.cpp]: the pace of a
      lane, its growth on failures, [Retry-After], and the claims of slots.
    - [Lane.v]: [Lane.cpp] and the part of [LaneShard.cpp] it drives: a lane's
      queue, its transfers and its timers, as the step relation of a world.
    - [Drain.v]: [IDHAN/src/runtime/DrainRegistry.cpp]: the work a shutdown waits
      for, as a step relation.  The files [Http*.v] model [IDHANHttp]:
    - [HttpParams.v]: the query string, the typed parameters and the check for
      undeclared names.
    - [HttpRoutes.v]: the registration of path patterns and the choice of one.
    - [HttpServer.v]: receiving an upload, permissions, the handling of a request,
      the response with its headers.
    - [HttpEvents.v]: [SSEEventHub.cpp]: subscriptions, queues, retained snapshots.
    - [HttpStream.v]: the body of an event stream, and the reader the web client
      has for it ([client.ts]).
    - [HttpRange.v]: [FileResponse] with its validators and ranges, and the body
      that streams a slice of a file.
    - [Cookies.v]: [HttpMessage.cpp], [cookies/CookieStore.cpp] and [URLUtils.hpp]
      in [IDHANDownloader/src]: headers, [Set-Cookie], the two cookie jars, and
      what a request is sent.
    - [LanePool.v]: [http/LanePool.cpp]: exchanges with their redirects and
      retries, the choice of a lane, the sweep and the shutdown.
    - [JobEvents.v]: [IDHANServer/src/jobs]: [JobTaskStatus.cpp] and
      [JobEventHub.cpp], the states of jobs and the thread that publishes them.
    - [JobRuntime.v]: [JobContext.cpp], [BackgroundJob.cpp] and the status part of
      [httpapi/jobs.cpp]: the queue, its runners, cleanup and stops.
    - [ScanFiles.v]: [scanning/ScanDirectory.cpp], [scanning/clusterScan.cpp] (one
      file and the records) and [filesystem/PathHelpers.cpp].
    - [ClusterScan.v]: the coordinator of a scan with its workers, its progress
      ([ScanProgress.cpp]) and its job ([httpapi/clusterScan.cpp]).
    - [Mime.v]: [mime/*.cpp]: the reader, the signatures, the choice of a type.
    - [DbReactor.v]: [IDHANDb/src/DBReactor.cpp]: watches, the kernel's
      registrations and the tasks of the executor.
    - [DbCodec.v]: [DBBindings.cpp], [DBResult-inl.hpp], [Network.hpp] and the
      configuration: parameters and rows in binary form.
    - [DbConnection.v]: [DBOperation.cpp], [DBConnection.cpp], [DBTask.cpp]: an
      operation, its consumer, the pipeline of a connection and its pump.
    - [DbPool.v]: [DBPool.cpp], [DBTransaction.cpp]: leases and transactions.

    ** How the parts interact

    A request fills the builder (setters of [SearchQuery.v], whose terms are
    parsed by [SearchTerms.v]); [query] resolves names, [evaluate] fetches one
    [Set_] per term through [SearchFetch.v], in the order [SortKey.v] gives,
    and folds them with the operators of [SearchSet.v].  In the importer, scan
    threads write events to buckets and definitions to the store; each bucket
    is collapsed with [def_hash] of the store ([Definitions] is the interface,
    [definitions_of] the implementation), and the records go to chunks, which
    look up tag texts through [def_tag].  The update files and the buckets
    run on the pool of [PtrPool.v], so scan and collapse are proved for every
    schedule; [runFlatten] composes them: what [scanCorpus] leaves in buckets
    and store is what [collapseBuckets] is given, its chunks and the relations
    file are staged, moved into place, and described by the manifest.  A lane asks its
    policy when the next request may start and tells it how each one ended.
    An HTTP request chooses its route, has its parameters checked and its body
    collected within the limits, registers with the drain registry, and runs its
    handler, whose response may stream a file or the events of the hub; the
    client's reader is the other end of such a stream.  The lane pool gives each
    hop of an exchange to a lane, with the cookies of [Cookies.v], and tells the
    policy of the lane's host how it ended.  A cluster scan is a job: the runner
    of [JobRuntime.v] starts it, its progress reaches clients through
    [JobEvents.v] and the hub of [HttpEvents.v]; each file it meets is read
    through [Mime.v] and stored under the path of [ScanFiles.v].  A query takes a
    connection of [DbPool.v], whose pump ([DbConnection.v]) runs when the reactor
    ([DbReactor.v]) says so; its parameters and rows are those of [DbCodec.v].

    ** What the theorems show

    - Search: a run selects exactly the records matching the query, returns
      the requested page of them in the requested order, and never asks the
      database for an impossible range; the set operators are a Boolean
      algebra on the denoted records and keep the columns parallel.
    - Terms: rendered SQL means what the terms say, accepted MIME names cannot
      leave their literals, wildcards match what their patterns match, numbers
      do not wrap.
    - Caches: both caches refine a list in order of use.
    - PTR: a bucket collapses to a function of the set of its events, whatever
      their order and the buffering; spilled events and chunks and relations
      read back; readers stay inside their buffers on any input; the
      definition store linearises over every interleaving; the usage set
      counts distinct ids.  The pool runs each index once; the collapse of all
      buckets writes exactly their outcomes, in every interleaving, and ends;
      so does the scan.  An update file reads back as the update it encodes,
      a manifest as it was written.  A run over an empty work directory that
      succeeds leaves a directory that holds exactly the corpus; one that fails
      before publishing, or is cancelled, leaves it untouched; publishing moves
      all or rolls back.
    - Downloads: claims keep the configured distance in every history, a limit
      holds the whole lane, failures widen the distance exponentially up to a
      bound and without overflow; each request is answered exactly once, and a
      lane with queued work always has a transfer, a timer or a wake coming.
    - HTTP: parameters and path segments read back what a client encodes; the
      most literal route wins and no registered one is hidden; handlers run only
      after the checks, on the body that was sent, within the memory limit, and
      every request releases its registration.  A subscriber's queue refines the
      list of events it was promised, with stale ones of a key replaced; a stream
      is read back by the client event by event; a range or a conditional request
      gets the slice the headers name.
    - Exchanges: every request sent is answered once; a redirect to another
      origin carries no credentials; redirects are bounded.  A cookie goes back
      only where the text of the Set-Cookie header that made it allows: to its
      host or domain, path and scheme, and in time; the store refines a map from
      identities.
    - Jobs: what clients hold converges to the state of the jobs; a job is
      kept until it has finished and its result was read, or is old.  A scan accounts for every file, in
      every interleaving of its workers, always returns, and changes only what it
      checked; its walk is the walk over the tree.
    - Types: the scan for signatures finds the type the contents name where the kernel
      reads in full, and never one they do not name.
    - Database: a watch is pumped by one task at a time; an answer goes to the
      query it belongs to and none is lost, each consumer is resumed once, every pump ends; a lease
      is in one place at a time and transactions do not overlap on a connection;
      parameters read back as rows, and no reply of a server is read out of
      bounds.

    ** Conventions

    Fallible code returns [result]; an access the C++ standard leaves undefined
    throws [undefined_behaviour], so a theorem that a function returns [Ok]
    excludes it.  A vector is a list, an [unordered_map] a [gmap]; integers are
    [Z] with [wrapu]/[wraps] where the code can wrap.  Loops that advance an
    index take fuel: [merge_both] and [drain] the total length of the sets,
    [record_loop] and [chain_loop] the number of events, [relation_loop] the
    number of relation events, [inflate_loop] one more than the bytes the stream
    can still produce or consume; each consumes at least one element per step, and
    the theorems state the [Ok] results, so running out is excluded.  The pump
    of a lane takes its queue's length plus one: each round starts one request
    or stops.  The loops that cut a query, a path, a list of entity tags or
    a stream into pieces take one more than the length of the text, since each
    step removes a separator.  Times of a lane are 64-bit nanoseconds; its theorems hold up to
    the horizon 2^61 (73 years after the clock's epoch).  The walk over a
    directory ([next]) takes two more than the entries left, the pages of the
    preflight the highest record number, the search for a signature ([find_loop])
    the bytes of the window, the start-up of a connection one more than the
    results on the wire, a pump its 644 moves (64 results, and the bounded work
    of each), the attributes of a [Set-Cookie] the length of the text.  A
    counter that cannot exceed the number of elements it counts is a plain [Z].

    ** Not modelled

    Execution of SQL (PostgreSQL), zlib, jsoncpp, libpq, libcurl, ada, files that
    fail to open or write (but for the renames and the manifest of a run), what
    progress callbacks do, Qt, the web interface (but for its reader of event
    streams), the transport of the HTTP library (sockets, TLS, start and stop), the
    migrations and the wrappers of media libraries are outside: they are code of
    others, or calls of it with no state of their own.  The handlers of
    [httpapi] other than those named above turn JSON into SQL and back; their logic
    is in the statements, which are text here.  The downloader's script runtime is
    a binding of QuickJS. *)
From stdpp Require Export base tactics list sorting gmap strings pretty.
From Stdlib Require Export ZArith.

Declare Scope idhan_scope.
Delimit Scope idhan_scope with idhan.
Open Scope Z_scope.

(** ** Exceptions and fallible code *)

(** The exceptions the modelled code throws, with the message it gives them.
    [undefined_behaviour] marks an access the C++ standard leaves undefined
    (an index past the end of a vector); a theorem that a function returns
    [Ok] therefore also shows that it never takes such an access. *)
Inductive exn : Type :=
| invalid_argument (what : string)
| runtime_error (what : string)
| logic_error (what : string)
| out_of_range (what : string)
| undefined_behaviour (what : string).

Inductive result (A : Type) : Type :=
| Ok (a : A)
| Throw (e : exn).
Arguments Ok {A} a.
Arguments Throw {A} e.

#[export] Instance result_ret : MRet result := @Ok.
#[export] Instance result_bind : MBind result := fun A B f m =>
  match m with Ok a => f a | Throw e => Throw e end.
#[export] Instance result_fmap : FMap result := fun A B f m =>
  match m with Ok a => Ok (f a) | Throw e => Throw e end.

Lemma Ok_inj {A} (a b : A) : Ok a = Ok b -> a = b.
Proof. congruence. Qed.

(** [m] or, when the optional value is missing, the exception [e]. *)
Definition or_throw {A} (e : exn) (m : option A) : result A :=
  match m with Some a => Ok a | None => Throw e end.

(** A vector access [v[i]]: undefined past the end. *)
Definition at_index {A} (l : list A) (i : nat) : result A :=
  or_throw (undefined_behaviour "index past the end of a vector") (l !! i).

(** A loop over a container that updates a state and may throw. *)
Fixpoint foldM {A B} (f : B -> A -> result B) (b : B) (l : list A) : result B :=
  match l with
  | [] => Ok b
  | x :: l => b ← f b x; foldM f b l
  end.

(** What [what()] gives. *)
Definition exn_what (e : exn) : string :=
  match e with
  | invalid_argument what | runtime_error what | logic_error what | out_of_range what | undefined_behaviour what => what
  end.

Definition is_ok {A} (m : result A) : bool :=
  match m with Ok _ => true | Throw _ => false end.

#[export] Instance exn_eq_dec : EqDecision exn.
Proof. solve_decision. Defined.
#[export] Instance result_eq_dec {A} `{EqDecision A} : EqDecision (result A).
Proof. solve_decision. Defined.

(** ** Machine integers *)

(** Unsigned and two's complement wrap-around at width [w]. *)
Definition wrapu (w z : Z) : Z := z mod 2 ^ w.
Definition wraps (w z : Z) : Z := (z + 2 ^ (w - 1)) mod 2 ^ w - 2 ^ (w - 1).

Definition size_max : Z := 2 ^ 64 - 1.
Definition int64_max : Z := 2 ^ 63 - 1.
Definition int32_max : Z := 2 ^ 31 - 1.
Definition int16_max : Z := 2 ^ 15 - 1.
Definition uint32_max : Z := 2 ^ 32 - 1.

(** ** Algorithms of the standard library that several components use *)

(** [std::ranges::unique] followed by [erase]: drops every element equal to
    the one kept just before it. *)
Fixpoint unique_from {A} `{EqDecision A} (x : A) (l : list A) : list A :=
  match l with
  | [] => []
  | y :: l => if decide (x = y) then unique_from x l else y :: unique_from y l
  end.

Definition unique_adjacent {A} `{EqDecision A} (l : list A) : list A :=
  match l with [] => [] | x :: l => x :: unique_from x l end.

(** [std::ranges::sort] on integers, and the sort/unique/erase idiom. *)
Definition sort_ints (l : list Z) : list Z := merge_sort Z.le l.
Definition sort_unique (l : list Z) : list Z := unique_adjacent (sort_ints l).

(** ** Automation *)

Create HintDb idhan.
#[export] Hint Resolve NoDup_nil_2 : idhan.

(** Splits the [if]s and [match]es of the goal and the hypotheses, closing
    the cases that contradict each other. *)
Ltac split_cases :=
  repeat (case_match || case_decide); simplify_eq/=; try done.

(** Case analysis on the subcomputations of a [result] bind in [H]. *)
Ltac bind_inv H :=
  repeat match type of H with
  | context [ mbind ?f ?m ] =>
      let E := fresh "E" in
      destruct m eqn:E; simpl in H; [|discriminate H]
  | context [ or_throw ?e ?m ] =>
      let E := fresh "E" in
      destruct m eqn:E; simpl in H; [|discriminate H]
  end.

(** ** Lemmas on lists and integers *)

Lemma foldM_app {A B} (f : B -> A -> result B) b l1 l2 :
  foldM f b (l1 ++ l2) = (b ← foldM f b l1; foldM f b l2).
Proof. revert b. induction l1 as [|x l1 IH]; intros b; [done|]. cbn. destruct (f b x); [apply IH|done]. Qed.

Lemma foldM_fmap {A A' B} (f : B -> A -> result B) (g : A' -> A) b l : foldM f b (g <$> l) = foldM (fun b x => f b (g x)) b l.
Proof. revert b. induction l as [|x l IH]; intros b; [done|]. cbn. destruct (f b (g x)); [apply IH|done]. Qed.

Lemma foldl_collect {A} (u l : list A) : foldl (fun u x => u ++ [x]) u l = u ++ l.
Proof. revert u. induction l as [|x l IH]; intros u; cbn; [by rewrite app_nil_r|]. by rewrite IH, <- app_assoc. Qed.

(** A loop whose body is [g] whenever it runs on the elements it is given. *)
Lemma foldM_pure {A B} (f : B -> A -> result B) (g : B -> A -> B) b l :
  (forall b x, x ∈ l -> f b x = Ok (g b x)) -> foldM f b l = Ok (foldl g b l).
Proof.
  revert b. induction l as [|x l IH]; intros b Hf; [done|]. cbn. rewrite Hf by constructor. cbn.
  apply IH. intros b' y Hy. apply Hf. by constructor.
Qed.

Section lists.
Context {A : Type}.
Implicit Types l : list A.

Lemma at_index_lookup l i x : l !! i = Some x -> at_index l i = Ok x.
Proof. intros H. unfold at_index. by rewrite H. Qed.

Lemma lookup_lt_ex l i : (i < length l)%nat -> exists x, l !! i = Some x.
Proof. intros H. apply lookup_lt_is_Some in H as [x Hx]. eauto. Qed.

Lemma omap_Some_map {B} (f : A -> B) l : omap (fun x => Some (f x)) l = f <$> l.
Proof. induction l as [|x l IH]; [done|]. cbn. by f_equal. Qed.

Lemma StronglySorted_snoc (R : relation A) l x :
  StronglySorted R l -> Forall (fun y => R y x) l -> StronglySorted R (l ++ [x]).
Proof.
  intros Hs Hf. apply StronglySorted_app_2; [|done|repeat constructor].
  intros y z Hy Hz. apply list_elem_of_singleton in Hz as ->.
  rewrite Forall_forall in Hf. by apply Hf.
Qed.

(** A list sorted by a strict order has no duplicates, and is determined by
    its set of elements. *)
Lemma StronglySorted_strict_NoDup (R : relation A) `{!Irreflexive R} l :
  StronglySorted R l -> NoDup l.
Proof.
  induction 1 as [|x l Hs IH Hx]; constructor; [|done].
  intros Hin. rewrite Forall_forall in Hx. by apply Hx, irreflexivity in Hin.
Qed.

Lemma StronglySorted_strict_ext (R : relation A) `{!Irreflexive R, !Transitive R} l1 l2 :
  StronglySorted R l1 -> StronglySorted R l2 ->
  (forall x, x ∈ l1 <-> x ∈ l2) -> l1 = l2.
Proof.
  intros H1 H2 Heq. apply (StronglySorted_unique_strong R); [|done..|].
  - intros x y _ _ Hxy Hyx. destruct (irreflexivity R x). by trans y.
  - apply NoDup_Permutation; eauto using StronglySorted_strict_NoDup.
Qed.

Lemma omap_lookup_total {B} (f : A -> option B) l i x :
  Forall (fun y => is_Some (f y)) l -> l !! i = Some x -> omap f l !! i = f x.
Proof.
  intros Hl. revert i. induction Hl as [|y l [b Hb] Hl IH]; intros i Hi; [done|].
  cbn. rewrite Hb. destruct i as [|i]; simpl in *; [congruence|]. by apply IH.
Qed.

(** [filter] only looks at the members of the list. *)
Lemma list_filter_ext_in (P Q : A -> Prop) `{!forall x, Decision (P x), !forall x, Decision (Q x)} l :
  (forall x, x ∈ l -> P x <-> Q x) -> filter P l = filter Q l.
Proof.
  induction l as [|x l IH]; intros Heq; [done|].
  assert (Hx : P x <-> Q x) by (apply Heq; constructor).
  assert (Hl : filter P l = filter Q l) by (apply IH; intros; apply Heq; by constructor).
  destruct (decide (P x)).
  - rewrite !filter_cons_True by tauto. by rewrite Hl.
  - rewrite !filter_cons_False by tauto. done.
Qed.

Lemma list_filter_all (P : A -> Prop) `{!forall x, Decision (P x)} l :
  (forall x, x ∈ l -> P x) -> filter P l = l.
Proof.
  induction l as [|x l IH]; intros Hall; [done|].
  rewrite filter_cons_True by (apply Hall; constructor).
  f_equal. apply IH. intros y Hy. apply Hall. by constructor.
Qed.

Lemma list_filter_none (P : A -> Prop) `{!forall x, Decision (P x)} l :
  (forall x, x ∈ l -> ~ P x) -> filter P l = [].
Proof.
  induction l as [|x l IH]; intros Hall; [done|].
  rewrite filter_cons_False by (apply Hall; constructor).
  apply IH. intros y Hy. apply Hall. by constructor.
Qed.

Lemma list_filter_fmap {B} (f : B -> A) (P : A -> Prop) `{!forall x, Decision (P x)} (l : list B) :
  filter P (f <$> l) = f <$> filter (fun x => P (f x)) l.
Proof.
  induction l as [|x l IH]; [done|]. simpl. destruct (decide (P (f x))).
  - rewrite !filter_cons_True by done. simpl. by f_equal.
  - rewrite !filter_cons_False by done. done.
Qed.

(** Filtering on a projection without duplicates keeps one element. *)
Lemma list_filter_unique {B} `{EqDecision B} (f : A -> B) l x :
  NoDup (f <$> l) -> x ∈ l -> filter (fun y => f y = f x) l = [x].
Proof.
  induction l as [|y l IH]; simpl; intros Hnd Hx; [by apply not_elem_of_nil in Hx|].
  apply NoDup_cons in Hnd as [Hy Hnd].
  apply elem_of_cons in Hx as [->|Hx].
  - rewrite filter_cons_True by done. f_equal. apply list_filter_none.
    intros z Hz Heq. apply Hy. rewrite <- Heq. by apply list_elem_of_fmap_2.
  - rewrite filter_cons_False; [by apply IH|].
    intros Heq. apply Hy. rewrite Heq. by apply list_elem_of_fmap_2.
Qed.
End lists.

Section unique.
Context {A : Type} `{EqDecision A}.
Implicit Types l : list A.

Lemma elem_of_unique_from x y l :
  y ∈ x :: unique_from x l <-> y ∈ x :: l.
Proof.
  revert x. induction l as [|z l IH]; intros x; simpl; [done|].
  case_decide as Hxz; subst.
  - rewrite IH. set_solver.
  - specialize (IH z). set_solver.
Qed.

Lemma elem_of_unique_adjacent y l : y ∈ unique_adjacent l <-> y ∈ l.
Proof. destruct l; [done|]. apply elem_of_unique_from. Qed.
End unique.

(** Dropping adjacent duplicates makes a sorted list strictly sorted. *)
Lemma unique_from_strict {A} `{EqDecision A} (R : relation A) `{!Transitive R} x l :
  StronglySorted (fun a b => a = b \/ R a b) (x :: l) -> StronglySorted R (x :: unique_from x l).
Proof.
  revert x. induction l as [|y l IH]; intros x Hs; simpl.
  { repeat constructor. }
  apply StronglySorted_inv in Hs as [Hs' Hx]. apply Forall_cons in Hx as [Hxy Hx'].
  case_decide as Heq; subst; [by apply IH|].
  destruct Hxy as [Hxy|Hxy]; [done|]. specialize (IH y Hs'). constructor; [done|].
  constructor; [done|]. apply StronglySorted_inv in IH as [_ Hgt].
  eapply Forall_impl; [exact Hgt|]. intros z Hz. by trans y.
Qed.

Lemma unique_adjacent_strict {A} `{EqDecision A} (R : relation A) `{!Transitive R} l :
  StronglySorted (fun a b => a = b \/ R a b) l -> StronglySorted R (unique_adjacent l).
Proof. destruct l; [constructor|]. by apply unique_from_strict. Qed.

Lemma StronglySorted_impl {A} (R S : relation A) l :
  (forall x y, R x y -> S x y) -> StronglySorted R l -> StronglySorted S l.
Proof.
  intros HRS. induction 1 as [|x l Hs IH Hx]; constructor; [done|].
  eapply Forall_impl; [exact Hx|]. auto.
Qed.

Lemma unique_adjacent_sorted l :
  StronglySorted Z.le l -> StronglySorted Z.lt (unique_adjacent l).
Proof.
  intros Hs. apply (unique_adjacent_strict Z.lt). eapply StronglySorted_impl; [|exact Hs].
  intros x y. lia.
Qed.

Lemma sort_ints_sorted l : StronglySorted Z.le (sort_ints l).
Proof. apply (StronglySorted_merge_sort Z.le); apply _. Qed.

Lemma elem_of_sort_ints x l : x ∈ sort_ints l <-> x ∈ l.
Proof. unfold sort_ints. by rewrite merge_sort_Permutation. Qed.

Lemma elem_of_sort_unique x l : x ∈ sort_unique l <-> x ∈ l.
Proof. unfold sort_unique. by rewrite elem_of_unique_adjacent, elem_of_sort_ints. Qed.

Lemma sort_unique_sorted l : StronglySorted Z.lt (sort_unique l).
Proof. apply unique_adjacent_sorted, sort_ints_sorted. Qed.

#[export] Instance Z_lt_irreflexive : Irreflexive Z.lt.
Proof. intros x H. lia. Qed.

#[export] Hint Resolve sort_unique_sorted sort_ints_sorted : idhan.
