(* ===== verification/Json.v ===== *)
(** * JSON values as the program uses them

    The program reads and writes JSON through JsonCpp, which is not part of the
    repository.  [Json] is the interface: the operations of [Json::Value] the
    code calls, its text reader and its text writer; [JsonLaws] is their
    documented behaviour.  Text only keeps a value up to [same] (an integer
    written unsigned is read back signed), so the laws are stated up to it and
    each observation is [Proper] for it. *)
From S2P Require Import Prelude.

Definition int32_min : Z := - 2 ^ 31.
Definition int64_min : Z := - 2 ^ 63.

Class Json := {
  Value : Type;
  null : Value;
  isArray : Value -> bool;
  isObject : Value -> bool;
  (* what a range-based loop visits; [size()] is its length *)
  elements : Value -> list Value;
  (* [operator[]] with an index, on an array *)
  element : Value -> nat -> Value;
  (* [operator[]] with a key, on a constant value *)
  member : Value -> string -> result Value;
  isMember : Value -> string -> bool;
  (* [get(key, default)] *)
  get : Value -> string -> Value -> result Value;
  asInt : Value -> result Z;
  asInt64 : Value -> result Z;
  asUInt : Value -> result Z;
  asUInt64 : Value -> result Z;
  asBool : Value -> result bool;
  asString : Value -> result string;
  of_int : Z -> Value;
  of_uint : Z -> Value;
  of_bool : bool -> Value;
  of_string : string -> Value;
  empty_array : Value;
  empty_object : Value;
  append : Value -> Value -> Value;
  (* [value[key] = member] *)
  set_member : string -> Value -> Value -> Value;
  (* [CharReader]: the errors or the value; [writeString] *)
  parse : list Z -> string + Value;
  write : Value -> list Z;
  (* values no observation tells apart, and those the writer keeps *)
  same : relation Value;
  printable : Value -> Prop
}.

Definition array_size `{Json} (v : Value) : nat := length (elements v).

(** The same outcome of an accessor, up to a relation on what it returns. *)
Definition same_result {A} (R : relation A) (x y : result A) : Prop :=
  match x, y with Ok a, Ok b => R a b | Throw e, Throw e' => e = e' | _, _ => False end.

(** Text the writer does not have to escape. *)
Definition plain_ascii (s : string) : Prop :=
  Forall (fun c => (32 <= Ascii.nat_of_ascii c < 127)%nat) (String.list_ascii_of_string s).

#[export] Instance plain_ascii_dec s : Decision (plain_ascii s).
Proof. unfold plain_ascii. apply _. Defined.

Class JsonLaws (J : Json) := {
  isArray_append v x : isArray v = true -> isArray (append v x) = true;
  isArray_empty : isArray empty_array = true;
  elements_empty : elements empty_array = [];
  elements_append v x : isArray v = true -> elements (append v x) = elements v ++ [x];
  element_nth v i : isArray v = true -> element v i = nth i (elements v) null;
  isObject_empty : isObject empty_object = true;
  isMember_empty k : isMember empty_object k = false;
  member_absent v k : isObject v = true -> isMember v k = false -> member v k = Ok null;
  isObject_set v k x : isObject v = true -> isObject (set_member k x v) = true;
  isMember_set v k x k' : isObject v = true -> isMember (set_member k x v) k' = bool_decide (k = k') || isMember v k';
  member_set v k x k' : isObject v = true ->
    member (set_member k x v) k' = if decide (k = k') then Ok x else member v k';
  get_member v k d : isObject v = true -> get v k d = if isMember v k then member v k else Ok d;
  asInt_of n : int32_min <= n <= int32_max -> asInt (of_int n) = Ok n;
  asInt64_of n : int64_min <= n <= int64_max -> asInt64 (of_int n) = Ok n;
  asUInt_of n : 0 <= n <= uint32_max -> asUInt (of_uint n) = Ok n;
  asUInt64_of n : 0 <= n <= size_max -> asUInt64 (of_uint n) = Ok n;
  asBool_of b : asBool (of_bool b) = Ok b;
  asString_of s : asString (of_string s) = Ok s;
  isArray_of_int n : isArray (of_int n) = false;
  isArray_of_string s : isArray (of_string s) = false;
  (* exceptions carry a message *)
  asInt_message v e : asInt v = Throw e -> exn_what e <> EmptyString;
  asInt64_message v e : asInt64 v = Throw e -> exn_what e <> EmptyString;
  asString_message v e : asString v = Throw e -> exn_what e <> EmptyString;
  (* text *)
  same_equivalence :: Equivalence same;
  same_isArray :: Proper (same ==> eq) isArray;
  same_isObject :: Proper (same ==> eq) isObject;
  same_elements :: Proper (same ==> Forall2 same) elements;
  same_isMember :: Proper (same ==> eq ==> eq) isMember;
  same_member :: Proper (same ==> eq ==> same_result same) member;
  same_get :: Proper (same ==> eq ==> eq ==> same_result same) get;
  same_asInt :: Proper (same ==> eq) asInt;
  same_asInt64 :: Proper (same ==> eq) asInt64;
  same_asUInt :: Proper (same ==> eq) asUInt;
  same_asUInt64 :: Proper (same ==> eq) asUInt64;
  same_asBool :: Proper (same ==> eq) asBool;
  same_asString :: Proper (same ==> eq) asString;
  printable_int n : printable (of_int n);
  printable_uint n : printable (of_uint n);
  printable_bool b : printable (of_bool b);
  printable_string s : plain_ascii s -> printable (of_string s);
  printable_empty_array : printable empty_array;
  printable_append v x : printable v -> printable x -> printable (append v x);
  printable_empty_object : printable empty_object;
  printable_set v k x : plain_ascii k -> printable v -> printable x -> printable (set_member k x v);
  parse_write v : printable v -> exists v', parse (write v) = inr v' /\ same v v'
}.

(** ** Arrays and objects built from lists *)

Section built.
Context {J : Json} {L : JsonLaws J}.

Definition array_of (l : list Value) : Value := foldl append empty_array l.
Definition object_of (l : list (string * Value)) : Value := foldl (fun v kx => set_member (fst kx) (snd kx) v) empty_object l.

Lemma appends l v : isArray v = true ->
  isArray (foldl append v l) = true /\ elements (foldl append v l) = elements v ++ l.
Proof.
  revert v. induction l as [|x l IH]; intros v Hv; [by rewrite app_nil_r|]. cbn.
  destruct (IH (append v x)) as [Ha He]; [by apply isArray_append|]. split; [done|].
  by rewrite He, elements_append, <- app_assoc by done.
Qed.

Lemma isArray_array_of l : isArray (array_of l) = true.
Proof. apply appends, isArray_empty. Qed.

Lemma elements_array_of l : elements (array_of l) = l.
Proof. unfold array_of. destruct (appends l empty_array isArray_empty) as [_ ->]. by rewrite elements_empty. Qed.

Lemma element_array_of l i : element (array_of l) i = nth i l null.
Proof. by rewrite element_nth, elements_array_of by apply isArray_array_of. Qed.

Lemma size_array_of l : array_size (array_of l) = length l.
Proof. unfold array_size. by rewrite elements_array_of. Qed.

(** Reading one member of an object after the others were set. *)
Lemma members_set l v k x :
  isObject v = true -> k ∉ fst <$> l -> member (foldl (fun v kx => set_member (fst kx) (snd kx) v) (set_member k x v) l) k = Ok x
  /\ isMember (foldl (fun v kx => set_member (fst kx) (snd kx) v) (set_member k x v) l) k = true.
Proof.
  intros Hv. assert (H : isObject (set_member k x v) = true) by by apply isObject_set.
  assert (Hm : member (set_member k x v) k = Ok x) by (rewrite member_set, decide_True; done).
  assert (Hi : isMember (set_member k x v) k = true) by (by rewrite isMember_set, bool_decide_eq_true_2).
  revert H Hm Hi. generalize (set_member k x v). clear v Hv. intros v. revert v.
  induction l as [|[k' x'] l IH]; intros v H Hm Hi Hk; [done|]. cbn [foldl fst snd]. cbn [fmap list_fmap fst] in Hk.
  apply not_elem_of_cons in Hk as [Hne Hk]. apply IH; [by apply isObject_set| | |done].
  - by rewrite member_set, decide_False.
  - rewrite isMember_set by done. by rewrite Hi, orb_true_r.
Qed.

Lemma object_member l k x : NoDup (fst <$> l) -> (k, x) ∈ l -> member (object_of l) k = Ok x /\ isMember (object_of l) k = true.
Proof.
  intros Hnd Hin. apply list_elem_of_split in Hin as (a & b & ->). unfold object_of. rewrite foldl_app. cbn [foldl fst snd].
  apply members_set.
  - clear Hnd. induction a as [|y a IH] using rev_ind; [apply isObject_empty|]. rewrite foldl_app. cbn. by apply isObject_set.
  - rewrite fmap_app in Hnd. apply NoDup_app in Hnd as (_ & _ & Hnd). cbn [fmap list_fmap fst] in Hnd.
    by apply NoDup_cons in Hnd as [Hk _].
Qed.

Lemma isObject_object_of l : isObject (object_of l) = true.
Proof.
  unfold object_of. induction l as [|y l IH] using rev_ind; [apply isObject_empty|]. rewrite foldl_app. cbn. by apply isObject_set.
Qed.

Lemma printable_object_of l :
  Forall plain_ascii (fst <$> l) -> Forall printable (snd <$> l) -> printable (object_of l).
Proof.
  unfold object_of. intros Hk Hx. assert (H : printable empty_object) by apply printable_empty_object.
  revert H. generalize empty_object. induction l as [|[k x] l IH]; intros v Hv; [done|]. cbn.
  apply Forall_cons in Hk as [Hk Hks]. apply Forall_cons in Hx as [Hx Hxs]. by apply IH, printable_set.
Qed.

Lemma printable_array_of l : Forall printable l -> printable (array_of l).
Proof.
  unfold array_of. intros Hl. assert (H : printable empty_array) by apply printable_empty_array.
  revert H. generalize empty_array. induction Hl as [|x l Hx Hl IH]; intros v Hv; [done|]. cbn.
  by apply IH, printable_append.
Qed.
End built.

#[export] Hint Rewrite @isArray_array_of @elements_array_of @element_array_of @size_array_of using (typeclasses eauto) : json.

(** ** The laws can hold

    Documents as trees with scalars at the leaves: [GenNode 0] is an array and
    [GenNode 1] an object, its keys and values in turn.  The text is the number
    of the tree. *)
Module Example_json.
Abbreviation scalar := (Z + bool + string + unit)%type.
Abbreviation doc := (gen_tree scalar).

Definition JInt (n : Z) : doc := GenLeaf (inl (inl (inl n))).
Definition JBool (b : bool) : doc := GenLeaf (inl (inl (inr b))).
Definition JString (s : string) : doc := GenLeaf (inl (inr s)).
Definition JNull : doc := GenLeaf (inr tt).

Definition children (k : nat) (v : doc) : list doc := match v with GenNode n l => if decide (n = k) then l else [] | _ => [] end.
Definition is_node (k : nat) (v : doc) : bool := match v with GenNode n _ => bool_decide (n = k) | _ => false end.

Fixpoint find_key (k : string) (l : list doc) : option doc :=
  match l with
  | GenLeaf (inl (inr k')) :: x :: l => if decide (k = k') then Some x else find_key k l
  | _ => None
  end.

Fixpoint set_key (k : string) (x : doc) (l : list doc) : list doc :=
  match l with
  | GenLeaf (inl (inr k')) :: y :: l =>
      if decide (k = k') then JString k' :: x :: l else JString k' :: y :: set_key k x l
  | _ => [JString k; x]
  end.

Definition integer (lo hi : Z) (v : doc) : result Z :=
  match v with
  | GenLeaf (inl (inl (inl n))) => if decide (lo <= n <= hi) then Ok n else Throw (runtime_error "out of range")
  | _ => Throw (runtime_error "Value is not convertible")
  end.

Definition document : Json := {|
  Value := doc;
  null := JNull;
  isArray := is_node 0;
  isObject := is_node 1;
  elements := children 0;
  element v i := nth i (children 0 v) JNull;
  member v k := if is_node 1 v then Ok (default JNull (find_key k (children 1 v))) else Throw (logic_error "requires objectValue");
  isMember v k := bool_decide (is_Some (find_key k (children 1 v)));
  get v k d := if is_node 1 v then Ok (default d (find_key k (children 1 v))) else Throw (logic_error "requires objectValue");
  asInt := integer int32_min int32_max;
  asInt64 := integer int64_min int64_max;
  asUInt := integer 0 uint32_max;
  asUInt64 := integer 0 size_max;
  asBool v := match v with GenLeaf (inl (inl (inr b))) => Ok b | _ => Throw (runtime_error "Value is not convertible to bool.") end;
  asString v := match v with GenLeaf (inl (inr s)) => Ok s | _ => Throw (runtime_error "Type is not convertible to string") end;
  of_int := JInt;
  of_uint := JInt;
  of_bool := JBool;
  of_string := JString;
  empty_array := GenNode 0 [];
  empty_object := GenNode 1 [];
  append v x := GenNode 0 (children 0 v ++ [x]);
  set_member k x v := GenNode 1 (set_key k x (children 1 v));
  parse text := match text with
    | [Zpos p] => match decode p with Some v => inr v | None => inl "Syntax error" end
    | _ => inl "Syntax error"
    end;
  write v := [Zpos (encode v)];
  same := eq;
  printable _ := True
|}.

Lemma find_set_key k x l k' : find_key k' (set_key k x l) = if decide (k = k') then Some x else find_key k' l.
Proof.
  remember (length l) as n eqn:Hn. revert l Hn. induction (lt_wf n) as [n _ IH]. intros l ->.
  destruct l as [|[[[s|s]|[]]|m c] [|y l]]; cbn [set_key find_key JString];
    repeat (case_decide; cbn [find_key JString]; simplify_eq; try done).
  all: apply (IH (length l)); [cbn; lia|done].
Qed.

Lemma integer_JInt lo hi n : lo <= n <= hi -> integer lo hi (JInt n) = Ok n.
Proof. intros Hn. cbn. by rewrite decide_True. Qed.

Lemma integer_message lo hi v e : integer lo hi v = Throw e -> exn_what e <> EmptyString.
Proof. intros H. unfold integer in H. by repeat case_match; simplify_eq. Qed.

Lemma document_laws : JsonLaws document.
Proof.
  split; cbn [isArray isObject elements element member isMember get asInt asInt64 asUInt asUInt64 asBool asString of_int
    of_uint of_bool of_string empty_array empty_object append set_member parse write same printable document null];
    try done; try (intros; by apply _).
  - intros v k Hv Hk. rewrite Hv. apply bool_decide_eq_false in Hk. by rewrite <- eq_None_not_Some in Hk; rewrite Hk.
  - intros v k x k' Hv. cbn [children]. rewrite decide_True, find_set_key by done.
    case_decide; [by rewrite !bool_decide_eq_true_2 by done|by rewrite (bool_decide_eq_false_2 (k = k'))].
  - intros v k x k' Hv. rewrite Hv. cbn [children is_node]. rewrite bool_decide_eq_true_2, decide_True, find_set_key by done.
    by case_decide.
  - intros v k d Hv. rewrite Hv. by destruct (find_key k (children 1 v)).
  - apply integer_JInt.
  - apply integer_JInt.
  - apply integer_JInt.
  - apply integer_JInt.
  - apply integer_message.
  - apply integer_message.
  - intros v e H. by repeat case_match; simplify_eq.
  - intros v ? <- k ? <-. by destruct (is_node 1 v).
  - intros v ? <- k ? <- d ? <-. by destruct (is_node 1 v).
  - intros v _. exists v. by rewrite decode_encode.
Qed.
End Example_json.
