(* ===== verification/LRUCache.v ===== *)
(** * The LRU caches of [IDHANServer/src/caching/LRUCache.hpp]

    Both class templates keep a [std::list] in recency order and an
    [unordered_map] from keys to iterators into that list.  The model keeps
    the aliasing: a list element is a heap node with an address, and the index
    maps a key to an address.  [Core] holds the list and index manipulation
    the two classes share, [Spec] is the abstract cache they implement, and
    the refinement theorems relate the two. *)
From S2P Require Import Prelude.

Module Core.
Section core.
Context {K : Type} `{Countable K} {Node : Type} (key : Node -> K).

(** The two data members [order] and [index] with [max_entries]; [next_addr]
    is the allocator's next fresh node address. *)
Record state := mkState {
  max_entries : nat;
  order : list (nat * Node);
  index : gmap K nat;
  next_addr : nat
}.

Definition empty_cache (cap : nat) : state := mkState cap [] ∅ 0.

(** [order.splice( order.begin(), order, it )]: the node at the iterator's
    address moves to the front, the others keep their order. *)
Definition splice_front (it : nat) (o : list (nat * Node)) : list (nat * Node) :=
  filter (fun p => p.1 = it) o ++ filter (fun p => p.1 <> it) o.

(** The node an iterator points at, and a write through an iterator. *)
Definition deref (it : nat) (o : list (nat * Node)) : option Node :=
  snd <$> head (filter (fun p => p.1 = it) o).

Definition write_node (it : nat) (n : Node) (o : list (nat * Node)) : list (nat * Node) :=
  (fun p => if decide (p.1 = it) then (it, n) else p) <$> o.

Definition touch (it : nat) (c : state) : state :=
  mkState (max_entries c) (splice_front it (order c)) (index c) (next_addr c).

(** [push_front] of a new node and [index.emplace]. *)
Definition push_node (n : Node) (c : state) : state :=
  mkState (max_entries c) ((next_addr c, n) :: order c)
    (<[key n := next_addr c]> (index c)) (S (next_addr c)).

(** [if ( order.size() > max_entries ) { index.erase( key of back ); pop_back }] *)
Definition evict (c : state) : state :=
  if decide (max_entries c < length (order c))%nat then
    match last (order c) with
    | Some (_, n) =>
        mkState (max_entries c) (take (length (order c) - 1) (order c))
          (delete (key n) (index c)) (next_addr c)
    | None => c
    end
  else c.

Definition clear (c : state) : state := mkState (max_entries c) [] ∅ (next_addr c).

Definition size (c : state) : nat := length (order c).
Definition capacity (c : state) : nat := max_entries c.

(** What the index and the list promise each other, and the size bound. *)
Record links (c : state) : Prop := {
  links_index : forall k a, index c !! k = Some a <-> exists n, (a, n) ∈ order c /\ key n = k;
  links_addrs : NoDup (order c).*1;
  links_keys : NoDup (key <$> (order c).*2);
  links_fresh : forall p, p ∈ order c -> (p.1 < next_addr c)%nat
}.

Definition inv (c : state) : Prop :=
  links c /\ (length (order c) <= max_entries c)%nat.

(** The abstract cache a state stands for. *)
Definition contents (c : state) : list Node := (order c).*2.
End core.
Arguments state K {_ _} Node.
End Core.

(** The abstract cache: the nodes in recency order, most recent first. *)
Module Spec.
Section spec.
Context {K : Type} `{EqDecision K} {Node : Type} (key : Node -> K).

Definition get (k : K) (l : list Node) : option Node := head (filter (fun n => key n = k) l).
Definition promote (n : Node) (l : list Node) : list Node :=
  n :: filter (fun m => key m <> key n) l.
Definition use (k : K) (l : list Node) : list Node :=
  match get k l with Some n => promote n l | None => l end.
Definition insert (cap : nat) (n : Node) (l : list Node) : list Node := take cap (promote n l).
End spec.
End Spec.

(** [template < typename T > class ValidLRUCache]: the node is the key. *)
Module ValidLRUCache.
Section valid.
Context {T : Type} `{Countable T}.
Abbreviation cache := (Core.state T T).

(** Bytes per entry for a [T] of [sizeof_T] bytes, with 8-byte pointers. *)
Definition valid_bytesPerEntry (sizeof_T : nat) : nat :=
  let kPtr := 8%nat in
  let kAllocOverhead := 16%nat in
  let kListNode := (2 * kPtr + sizeof_T + kAllocOverhead)%nat in
  let kMapNode := (kPtr + sizeof_T + kPtr + kAllocOverhead)%nat in
  let kMapBucket := kPtr in
  (kListNode + kMapNode + kMapBucket)%nat.

Definition valid_make (sizeof_T byte_capacity : nat) : cache :=
  Core.empty_cache (byte_capacity / valid_bytesPerEntry sizeof_T)%nat.

Definition valid_exists (k : T) (c : cache) : bool * cache :=
  match Core.index c !! k with
  | None => (false, c)
  | Some it => (true, Core.touch it c)
  end.

Definition valid_add (k : T) (c : cache) : cache :=
  if decide (Core.max_entries c = 0%nat) then c else
  match Core.index c !! k with
  | Some it => Core.touch it c
  | None => Core.evict id (Core.push_node id k c)
  end.

Inductive valid_call : Type :=
| CallExists (k : T)
| CallInsert (k : T).

Fixpoint valid_run (ops : list valid_call) (c : cache) : list bool * cache :=
  match ops with
  | [] => ([], c)
  | CallExists k :: ops => let '(b, c1) := valid_exists k c in
                           let '(bl, c2) := valid_run ops c1 in (b :: bl, c2)
  | CallInsert k :: ops => valid_run ops (valid_add k c)
  end.

Fixpoint valid_spec_run (cap : nat) (ops : list valid_call) (l : list T) : list bool * list T :=
  match ops with
  | [] => ([], l)
  | CallExists k :: ops =>
      let '(bl, l2) := valid_spec_run cap ops (Spec.use id k l) in (bool_decide (k ∈ l) :: bl, l2)
  | CallInsert k :: ops => valid_spec_run cap ops (Spec.insert id cap k l)
  end.
End valid.
End ValidLRUCache.

(** [template < typename TKey, typename T > class LRUCache]. *)
Module LRUCache.
Section lru.
Context {TKey T : Type} `{Countable TKey}.
Abbreviation cache := (Core.state TKey (TKey * T)).

Definition bytesPerEntry (sizeof_TKey sizeof_Node : nat) : nat :=
  let kPtr := 8%nat in
  let kAllocOverhead := 16%nat in
  let kListNode := (2 * kPtr + sizeof_Node + kAllocOverhead)%nat in
  let kMapNode := (kPtr + sizeof_TKey + kPtr + kAllocOverhead)%nat in
  let kMapBucket := kPtr in
  (kListNode + kMapNode + kMapBucket)%nat.

Definition make (sizeof_TKey sizeof_Node byte_capacity : nat) : cache :=
  Core.empty_cache (byte_capacity / bytesPerEntry sizeof_TKey sizeof_Node)%nat.

Definition value (k : TKey) (c : cache) : option T * cache :=
  match Core.index c !! k with
  | None => (None, c)
  | Some it =>
      let c' := Core.touch it c in
      (snd <$> Core.deref it (Core.order c'), c')
  end.

Definition add (k : TKey) (v : T) (c : cache) : cache :=
  if decide (Core.max_entries c = 0%nat) then c else
  match Core.index c !! k with
  | Some it =>
      Core.touch it
        (Core.mkState (Core.max_entries c) (Core.write_node it (k, v) (Core.order c))
           (Core.index c) (Core.next_addr c))
  | None => Core.evict fst (Core.push_node fst (k, v) c)
  end.

(** A client's calls, their answers, and a run of a sequence of calls. *)
Inductive call : Type :=
| CallValue (k : TKey)
| CallAdd (k : TKey) (v : T)
| CallSize
| CallClear.

Inductive answer : Type :=
| Answered (v : option T)
| Sized (n : nat)
| Done.

Definition perform (op : call) (c : cache) : answer * cache :=
  match op with
  | CallValue k => let '(r, c') := value k c in (Answered r, c')
  | CallAdd k v => (Done, add k v c)
  | CallSize => (Sized (Core.size c), c)
  | CallClear => (Done, Core.clear c)
  end.

Fixpoint run (ops : list call) (c : cache) : list answer * cache :=
  match ops with
  | [] => ([], c)
  | op :: ops => let '(a, c1) := perform op c in
                 let '(al, c2) := run ops c1 in (a :: al, c2)
  end.

(** The same calls on the abstract cache. *)
Definition spec_perform (cap : nat) (op : call) (l : list (TKey * T)) : answer * list (TKey * T) :=
  match op with
  | CallValue k => (Answered (snd <$> Spec.get fst k l), Spec.use fst k l)
  | CallAdd k v => (Done, Spec.insert fst cap (k, v) l)
  | CallSize => (Sized (length l), l)
  | CallClear => (Done, [])
  end.

Fixpoint spec_run (cap : nat) (ops : list call) (l : list (TKey * T))
    : list answer * list (TKey * T) :=
  match ops with
  | [] => ([], l)
  | op :: ops => let '(a, l1) := spec_perform cap op l in
                 let '(al, l2) := spec_run cap ops l1 in (a :: al, l2)
  end.

(** The keys a call uses. *)
Definition call_key (op : call) : option TKey :=
  match op with CallValue k | CallAdd k _ => Some k | _ => None end.
End lru.
End LRUCache.

(** ** The list/index pair implements the abstract cache *)

Module CoreFacts.
Import Core.
Section facts.
Context {K : Type} `{Countable K} {Node : Type} (key : Node -> K).
Implicit Types c : state K Node.

Lemma links_perm c o :
  o ≡ₚ order c -> links key c ->
  links key (mkState (max_entries c) o (index c) (next_addr c)).
Proof.
  intros Hp [Hi Ha Hk Hf]. split; simpl.
  - intros k a. rewrite Hi. by setoid_rewrite Hp.
  - by rewrite Hp.
  - by rewrite Hp.
  - intros p. rewrite Hp. apply Hf.
Qed.

(** [links] only depends on the addresses and the keys of the nodes. *)
Lemma links_same_keys c o :
  (fun p => (p.1, key p.2)) <$> o = (fun p => (p.1, key p.2)) <$> order c ->
  links key c -> links key (mkState (max_entries c) o (index c) (next_addr c)).
Proof.
  intros Ho [Hi Ha Hk Hf].
  assert (H1 : o.*1 = (order c).*1)
    by (apply (f_equal (fmap fst)) in Ho; by rewrite <- !list_fmap_compose in Ho).
  assert (H2 : key <$> o.*2 = key <$> (order c).*2)
    by (apply (f_equal (fmap snd)) in Ho; rewrite <- !list_fmap_compose in Ho;
        by rewrite <- !list_fmap_compose).
  assert (Hp : forall k a (o : list (nat * Node)), (exists n, (a, n) ∈ o /\ key n = k)
      <-> (a, k) ∈ (fun p => (p.1, key p.2)) <$> o).
  { intros k a o'. rewrite list_elem_of_fmap. split.
    - intros (n & Hn & <-). by exists (a, n).
    - intros ([a' n] & [= -> ->] & Hn). eauto. }
  split; simpl.
  - intros k a. by rewrite Hi, !Hp, Ho.
  - by rewrite H1.
  - by rewrite H2.
  - intros p Hin. assert (Hfst : p.1 ∈ o.*1) by by apply list_elem_of_fmap_2.
    rewrite H1 in Hfst. apply list_elem_of_fmap in Hfst as (q & -> & Hq). by apply Hf.
Qed.

Lemma splice_front_perm it (o : list (nat * Node)) : splice_front it o ≡ₚ o.
Proof. apply filter_app_complement. Qed.

Lemma touch_links c it : links key c -> links key (touch it c).
Proof. apply links_perm, splice_front_perm. Qed.

Lemma touch_inv c it : inv key c -> inv key (touch it c).
Proof.
  intros [Hl Hs]. split; [by apply touch_links|].
  simpl. by rewrite splice_front_perm.
Qed.

(** A key found in the index names exactly one node of the list. *)
Lemma indexed_node c k it :
  links key c -> index c !! k = Some it ->
  exists n, key n = k /\ (it, n) ∈ order c
    /\ filter (fun p => p.1 = it) (order c) = [(it, n)]
    /\ (filter (fun p => p.1 <> it) (order c)).*2
       = filter (fun m => key m <> k) (contents c).
Proof.
  intros Hl Hit. destruct (proj1 (links_index _ _ Hl k it) Hit) as (n & Hin & Hk).
  assert (Hf : filter (fun p => p.1 = it) (order c) = [(it, n)])
    by (apply (list_filter_unique fst _ (it, n)); [apply Hl|done]).
  exists n. split_and!; [done..|].
  unfold contents. rewrite list_filter_fmap. f_equal.
  apply list_filter_ext_in. intros [a m] Hp. simpl.
  assert (Hpm : index c !! key m = Some a) by (apply (links_index _ _ Hl); eauto).
  split; intros Hne Heq; apply Hne; [congruence|].
  assert (Hin' : (a, m) ∈ filter (fun p => p.1 = it) (order c)) by by apply list_elem_of_filter.
  rewrite Hf in Hin'. apply list_elem_of_singleton in Hin'. congruence.
Qed.

Lemma get_indexed c k it n :
  links key c -> index c !! k = Some it -> (it, n) ∈ order c -> key n = k ->
  Spec.get key k (contents c) = Some n.
Proof.
  intros Hl Hit Hin <-. unfold Spec.get, contents.
  rewrite (list_filter_unique key); [done|apply Hl|].
  by apply (list_elem_of_fmap_2 snd _ (it, n)).
Qed.

Lemma unindexed c k :
  links key c -> index c !! k = None -> forall m, m ∈ contents c -> key m <> k.
Proof.
  intros Hl Hk m Hm <-. apply list_elem_of_fmap in Hm as ([a m'] & -> & Hm').
  assert (index c !! key m' = Some a) by (apply (links_index _ _ Hl); eauto).
  simpl in *. congruence.
Qed.

Lemma get_unindexed c k :
  links key c -> index c !! k = None -> Spec.get key k (contents c) = None.
Proof. intros Hl Hk. unfold Spec.get. by rewrite list_filter_none by eauto using unindexed. Qed.

Lemma empty_inv c : order c = [] -> index c = ∅ -> inv key c.
Proof.
  intros Ho Hx. unfold inv. split; [split|]; rewrite Ho, ?Hx; simpl; try constructor; try lia.
  - intros Hk. by rewrite lookup_empty in Hk.
  - intros (n & Hn & _). by apply not_elem_of_nil in Hn.
  - intros p Hp. by apply not_elem_of_nil in Hp.
Qed.

(** [splice] to the front is the specification's [use]. *)
Lemma touch_contents c k it :
  links key c -> index c !! k = Some it ->
  contents (touch it c) = Spec.use key k (contents c).
Proof.
  intros Hl Hit. destruct (indexed_node c k it Hl Hit) as (n & Hk & Hin & Hf & Hnf).
  unfold Spec.use. rewrite (get_indexed c k it n) by done.
  unfold contents at 1, touch, splice_front. simpl.
  rewrite fmap_app, Hf, Hnf. unfold Spec.promote. by rewrite Hk.
Qed.

Lemma push_links c n :
  links key c -> index c !! key n = None -> links key (push_node key n c).
Proof.
  intros Hl Hn. pose proof Hl as [Hi Ha Hk Hf]. split; simpl.
  - intros k a. destruct (decide (key n = k)) as [<-|Hne].
    + rewrite lookup_insert_eq. split.
      * intros [= <-]. exists n. split; [constructor|done].
      * intros (m & Hm & Heq). apply elem_of_cons in Hm as [[= -> ->]|Hm]; [done|].
        rewrite (proj2 (Hi (key n) a)) in Hn by eauto. done.
    + rewrite lookup_insert_ne, Hi by done. split; intros (m & Hm & Heq).
      * exists m. split; [by constructor|done].
      * apply elem_of_cons in Hm as [[= -> ->]|Hm]; [done|eauto].
  - constructor; [|done]. intros (p & Heq & Hp)%list_elem_of_fmap.
    apply Hf in Hp. lia.
  - constructor; [|done]. intros (m & Heq & Hm)%list_elem_of_fmap.
    by apply (unindexed c (key n) Hl Hn m).
  - intros p [->|Hp]%elem_of_cons; simpl; [lia|]. apply Hf in Hp. lia.
Qed.

(** Dropping the back of the list together with its index entry. *)
Lemma pop_back_links c o a n :
  links key c -> order c = o ++ [(a, n)] ->
  links key (mkState (max_entries c) o (delete (key n) (index c)) (next_addr c)).
Proof.
  intros [Hi Ha Hk Hf] Ho. rewrite Ho in *. rewrite !fmap_app in *. simpl in *.
  apply NoDup_app in Ha as (Ha & Ha' & _). apply NoDup_app in Hk as (Hk & Hk' & _).
  split; simpl; [|done|done|].
  - intros k b. rewrite lookup_delete_Some, Hi. split.
    + intros (Hne & m & Hm & Heq). exists m. split; [|done].
      apply elem_of_app in Hm as [Hm|Hm]; [done|].
      apply list_elem_of_singleton in Hm as [= -> ->]. congruence.
    + intros (m & Hm & <-). split; [|exists m; split; [by apply elem_of_app; left|done]].
      intros Heq. apply (Hk' (key m)); [|rewrite <- Heq; constructor].
      apply list_elem_of_fmap_2. by apply (list_elem_of_fmap_2 snd o (b, m)).
  - intros p Hp. apply Hf. by apply elem_of_app; left.
Qed.

Lemma evict_spec c :
  links key c -> (length (order c) <= S (max_entries c))%nat ->
  inv key (evict key c) /\ contents (evict key c) = take (max_entries c) (contents c)
  /\ max_entries (evict key c) = max_entries c.
Proof.
  intros Hl Hs. unfold evict. case_decide as Hbig.
  - destruct (order c) as [|p o] eqn:Eo using rev_ind; [simpl in Hbig; lia|clear IHo].
    rewrite last_snoc. destruct p as [a n]. rewrite length_app in *. simpl in *.
    replace (length o + 1 - 1)%nat with (length o) by lia.
    rewrite take_app_length. split_and!; [|unfold contents; rewrite Eo; simpl|done].
    + split; [by apply pop_back_links with a|]. simpl. lia.
    + rewrite fmap_app, take_app_le by (rewrite length_fmap; lia).
      rewrite take_ge by (rewrite length_fmap; lia). done.
  - split_and!; [by split; [|lia]| |done].
    unfold contents. rewrite take_ge by (rewrite length_fmap; lia). done.
Qed.

Lemma push_evict_spec c n :
  inv key c -> index c !! key n = None -> max_entries c <> 0%nat ->
  inv key (evict key (push_node key n c))
  /\ contents (evict key (push_node key n c)) = Spec.insert key (max_entries c) n (contents c).
Proof.
  intros [Hl Hs] Hn Hcap.
  destruct (evict_spec (push_node key n c)) as (Hi & Hc & _);
    [by apply push_links|simpl; lia|].
  split; [done|]. rewrite Hc. unfold Spec.insert, Spec.promote. simpl.
  f_equal. unfold contents at 1. simpl. f_equal. symmetry.
  apply list_filter_all. eauto using unindexed.
Qed.

(** Promoting a key the cache holds never drops an entry. *)
Lemma insert_indexed c k it n :
  inv key c -> index c !! k = Some it -> key n = k -> max_entries c <> 0%nat ->
  Spec.insert key (max_entries c) n (contents c) = Spec.promote key n (contents c).
Proof.
  intros [Hl Hs] Hit Hk Hcap. unfold Spec.insert. apply take_ge.
  destruct (indexed_node c k it Hl Hit) as (m & Hm & Hin & Hf & Hnf).
  pose proof (splice_front_perm it (order c)) as Hp. apply Permutation_length in Hp.
  unfold splice_front in Hp. rewrite length_app, Hf in Hp. simpl in Hp.
  unfold Spec.promote. rewrite Hk, <- Hnf. simpl. rewrite length_fmap. lia.
Qed.
End facts.
End CoreFacts.

Module LRUFacts.
Import Core CoreFacts LRUCache.
Section lru_facts.
Context {TKey T : Type} `{Countable TKey}.
Implicit Types c : state TKey (TKey * T).

Lemma value_spec k c :
  inv fst c ->
  inv fst (value k c).2 /\ max_entries (value k c).2 = max_entries c
  /\ (value k c).1 = snd <$> Spec.get fst k (contents c)
  /\ contents (value k c).2 = Spec.use fst k (contents c).
Proof.
  intros Hi. unfold value. destruct (index c !! k) as [it|] eqn:Hit; simpl.
  - split_and!; [by apply touch_inv|done| |by apply touch_contents, Hit; apply Hi].
    destruct (indexed_node fst c k it) as (n & Hk & Hin & Hf & _); [apply Hi|done|].
    rewrite (get_indexed fst c k it n) by (done || apply Hi).
    unfold deref, splice_front. rewrite filter_app, list_filter_filter_l by (intros; done).
    by rewrite Hf.
  - unfold Spec.use. rewrite !get_unindexed by (done || apply Hi). done.
Qed.

Lemma write_node_others it (n : TKey * T) o :
  filter (fun p => p.1 <> it) (write_node it n o) = filter (fun p => p.1 <> it) o.
Proof.
  induction o as [|p o IH]; [done|].
  change (write_node it n (p :: o))
    with ((if decide (p.1 = it) then (it, n) else p) :: write_node it n o).
  case_decide as Hp.
  - rewrite !filter_cons_False by (simpl; tauto). done.
  - rewrite !filter_cons_True by done. by f_equal.
Qed.

(** Overwriting the value behind a key's iterator and splicing it forward. *)
Lemma write_touch_spec c k v it :
  inv fst c -> index c !! k = Some it ->
  let c' := mkState (max_entries c) (write_node it (k, v) (order c)) (index c) (next_addr c) in
  inv fst (touch it c') /\ contents (touch it c') = Spec.promote fst (k, v) (contents c).
Proof.
  intros [Hl Hs] Hit c'.
  destruct (indexed_node fst c k it Hl Hit) as (n & Hk & Hin & Hf & Hnf).
  assert (Hl' : links fst c').
  { apply (links_same_keys fst c); [|done]. unfold c', write_node. simpl.
    rewrite <- list_fmap_compose. apply list_fmap_ext. intros i p Hp. simpl.
    case_decide as Hpi; [|done]. simpl. f_equal; [done|].
    apply list_elem_of_lookup_2 in Hp.
    assert (Hp' : p ∈ filter (fun p => p.1 = it) (order c)) by by apply list_elem_of_filter.
    rewrite Hf in Hp'. apply list_elem_of_singleton in Hp' as ->. done. }
  assert (Hin' : (it, (k, v)) ∈ order c').
  { unfold c', write_node. simpl. apply list_elem_of_fmap.
    exists (it, n). split; [|done]. by case_decide. }
  split.
  - apply touch_inv. split; [done|]. unfold c', write_node. simpl. by rewrite length_fmap.
  - rewrite (touch_contents fst c' k) by done. unfold Spec.use.
    rewrite (get_indexed fst c' k it (k, v)) by done.
    destruct (indexed_node fst c' k it Hl' Hit) as (? & ? & ? & ? & Hnf').
    unfold Spec.promote. simpl. f_equal. rewrite <- Hnf', <- Hnf.
    unfold c'. simpl. by rewrite write_node_others.
Qed.

Lemma add_spec k v c :
  inv fst c ->
  inv fst (add k v c) /\ max_entries (add k v c) = max_entries c
  /\ contents (add k v c) = Spec.insert fst (max_entries c) (k, v) (contents c).
Proof.
  intros Hi. unfold add. case_decide as Hcap.
  - destruct Hi as [Hl Hs]. split_and!; [done..|].
    unfold Spec.insert. rewrite Hcap in *. simpl. unfold contents.
    by destruct (order c); [|simpl in Hs; lia].
  - destruct (index c !! k) as [it|] eqn:Hit.
    + destruct (write_touch_spec c k v it Hi Hit) as [Hi' Hc]. split_and!; [done..|].
      by rewrite Hc, (insert_indexed fst c k it).
    + destruct (push_evict_spec fst c (k, v) Hi) as [Hi' Hc]; [done..|].
      split_and!; [done| |done]. unfold evict. by repeat case_match.
Qed.

Lemma perform_refines cap op c :
  inv fst c -> max_entries c = cap ->
  inv fst (perform op c).2 /\ max_entries (perform op c).2 = cap
  /\ (perform op c).1 = (spec_perform cap op (contents c)).1
  /\ contents (perform op c).2 = (spec_perform cap op (contents c)).2.
Proof.
  intros Hi <-. destruct op as [k|k v| |]; simpl.
  - pose proof (value_spec k c Hi) as (? & ? & Hr & Hc). destruct (value k c) as [r c'].
    simpl in *. by rewrite Hr, Hc.
  - pose proof (add_spec k v c Hi) as (? & ? & Hc). done.
  - split_and!; try done. unfold size, contents. by rewrite length_fmap.
  - by split_and!; [apply empty_inv|..].
Qed.

Lemma run_refines cap ops c :
  inv fst c -> max_entries c = cap ->
  inv fst (run ops c).2 /\ max_entries (run ops c).2 = cap
  /\ (run ops c).1 = (spec_run cap ops (contents c)).1
  /\ contents (run ops c).2 = (spec_run cap ops (contents c)).2.
Proof.
  revert c. induction ops as [|op ops IH]; intros c Hi Hm; [done|].
  destruct (perform_refines cap op c Hi Hm) as (Hi1 & Hm1 & Ha & Hc).
  simpl. destruct (perform op c) as [a c1]. destruct (spec_perform cap op (contents c)) as [b l1].
  simpl in *. subst b l1. destruct (IH c1 Hi1 Hm1) as (Hi2 & Hm2 & Ha2 & Hc2).
  destruct (run ops c1) as [al c2]. destruct (spec_run cap ops (contents c1)) as [bl l2].
  simpl in *. by subst.
Qed.

(** While fewer than [cap] other keys are used, an entry keeps its place in
    the first [cap] positions: the ones before it are keys used since. *)
Definition held (S : list TKey) (k : TKey) (v : T) (l : list (TKey * T)) : Prop :=
  exists l1 l2, l = l1 ++ (k, v) :: l2 /\ NoDup (l1.*1) /\ l1.*1 ⊆ S /\ k ∉ l1.*1.

Lemma keys_length (S : list TKey) (l1 : list (TKey * T)) :
  NoDup (l1.*1) -> l1.*1 ⊆ S -> (length l1 <= length S)%nat.
Proof.
  intros Hnd Hsub. rewrite <- (length_fmap fst). by apply submseteq_length, NoDup_submseteq.
Qed.

Lemma held_promote S k v (n : TKey * T) l :
  held S k v l -> n.1 ∈ S -> n.1 <> k -> held S k v (Spec.promote fst n l).
Proof.
  intros (l1 & l2 & -> & Hnd & Hsub & Hk) Hn Hne.
  exists (n :: filter (fun m => m.1 <> n.1) l1), (filter (fun m => m.1 <> n.1) l2).
  unfold Spec.promote. rewrite filter_app, filter_cons_True by (simpl; congruence).
  assert (Hin : forall x, x ∈ (filter (fun m => m.1 <> n.1) l1).*1 -> x ∈ l1.*1 /\ x <> n.1).
  { intros x (m & -> & [Hm1 Hm2]%list_elem_of_filter)%list_elem_of_fmap.
    split; [by apply list_elem_of_fmap_2|done]. }
  split_and!; [done| | |].
  - constructor; [by intros [_ Hbad]%Hin|].
    pose proof (NoDup_filter (fun x => x <> n.1) _ Hnd) as Hnd'.
    by rewrite list_filter_fmap in Hnd'.
  - intros x [->|Hx]%elem_of_cons; [done|]. by apply Hsub, Hin.
  - intros [->|Hx]%elem_of_cons; [done|]. by apply Hk, Hin.
Qed.

Lemma held_take S cap k v l :
  held S k v l -> (length S < cap)%nat -> held S k v (take cap l).
Proof.
  intros (l1 & l2 & -> & Hnd & Hsub & Hk) Hcap.
  assert (Hlen : (length l1 <= length S)%nat) by by apply keys_length.
  exists l1, (take (cap - (length l1 + 1)) l2). split_and!; [|done..].
  rewrite take_app_ge by lia. replace (cap - length l1)%nat with (1 + (cap - (length l1 + 1)))%nat by lia.
  done.
Qed.

Lemma held_get (S : list TKey) (k : TKey) (v : T) l : held S k v l -> Spec.get fst k l = Some (k, v).
Proof.
  intros (l1 & l2 & -> & Hnd & Hsub & Hk). unfold Spec.get.
  rewrite filter_app, (list_filter_none _ l1), filter_cons_True by
    (done || (intros x Hx Heq; apply Hk; rewrite <- Heq; by apply list_elem_of_fmap_2)).
  done.
Qed.

Lemma held_perform S cap k v op l :
  held S k v l -> (length S < cap)%nat -> op <> CallClear ->
  (forall k', call_key op = Some k' -> k' ∈ S /\ k' <> k) ->
  held S k v (spec_perform cap op l).2.
Proof.
  intros Hh Hcap Hclr Hkeys. destruct op as [k'|k' v'| |]; simpl; [| |done..].
  - destruct (Hkeys k' eq_refl) as [Hin Hne]. unfold Spec.use.
    destruct (Spec.get fst k' l) as [n|] eqn:Hget; [|done].
    assert (n.1 = k') as <-; [|by apply held_promote].
    unfold Spec.get in Hget. apply head_Some_elem_of, list_elem_of_filter in Hget. tauto.
  - destruct (Hkeys k' eq_refl) as [Hin Hne].
    apply held_take; [by apply held_promote|done].
Qed.

Lemma held_run S cap k v ops l :
  held S k v l -> (length S < cap)%nat ->
  Forall (fun op => op <> CallClear /\ forall k', call_key op = Some k' -> k' ∈ S /\ k' <> k) ops ->
  held S k v (spec_run cap ops l).2.
Proof.
  intros Hh Hcap Hops. revert l Hh. induction Hops as [|op ops [Hclr Hkeys] Hops IH]; intros l Hh; [done|].
  simpl. pose proof (held_perform S cap k v op l Hh Hcap Hclr Hkeys) as Hp.
  destruct (spec_perform cap op l) as [a l1]. simpl in Hp. specialize (IH l1 Hp).
  by destruct (spec_run cap ops l1) as [al l2].
Qed.
End lru_facts.
End LRUFacts.

Module ValidFacts.
Import Core CoreFacts ValidLRUCache.
Section valid_facts.
Context {T : Type} `{Countable T}.
Implicit Types c : state T T.

Lemma valid_exists_spec k c :
  inv id c ->
  inv id (valid_exists k c).2 /\ max_entries (valid_exists k c).2 = max_entries c
  /\ (valid_exists k c).1 = bool_decide (k ∈ contents c)
  /\ contents (valid_exists k c).2 = Spec.use id k (contents c).
Proof.
  intros Hi. unfold valid_exists. destruct (index c !! k) as [it|] eqn:Hit; simpl.
  - split_and!; [by apply touch_inv|done| |by apply touch_contents, Hit; apply Hi].
    destruct (indexed_node id c k it) as (n & Hk & Hin & _); [apply Hi|done|].
    symmetry. apply bool_decide_eq_true. rewrite <- Hk.
    by apply (list_elem_of_fmap_2 snd _ (it, n)).
  - unfold Spec.use. rewrite get_unindexed by (done || apply Hi). split_and!; try done.
    symmetry. apply bool_decide_eq_false. intros Hk.
    by apply (unindexed id c k (proj1 Hi) Hit k).
Qed.

Lemma valid_add_spec k c :
  inv id c ->
  inv id (valid_add k c) /\ max_entries (valid_add k c) = max_entries c
  /\ contents (valid_add k c) = Spec.insert id (max_entries c) k (contents c).
Proof.
  intros Hi. unfold valid_add. case_decide as Hcap.
  - destruct Hi as [Hl Hs]. split_and!; [done..|].
    unfold Spec.insert. rewrite Hcap in *. simpl. unfold contents.
    by destruct (order c); [|simpl in Hs; lia].
  - destruct (index c !! k) as [it|] eqn:Hit.
    + split_and!; [by apply touch_inv|done|].
      rewrite (touch_contents id c k) by (done || apply Hi).
      rewrite (insert_indexed id c k it k) by done. unfold Spec.use.
      destruct (indexed_node id c k it) as (n & Hk & Hin & _); [apply Hi|done|].
      unfold id in Hk. subst n. by rewrite (get_indexed id c k it k) by (done || apply Hi).
    + destruct (push_evict_spec id c k Hi) as [Hi' Hc]; [done..|].
      split_and!; [done| |done]. unfold evict. by repeat case_match.
Qed.

Lemma valid_run_refines cap ops c :
  inv id c -> max_entries c = cap ->
  inv id (valid_run ops c).2 /\ (valid_run ops c).1 = (valid_spec_run cap ops (contents c)).1.
Proof.
  intros Hi <-. revert c Hi. induction ops as [|[k|k] ops IH]; intros c Hi; [done|..]; simpl.
  - destruct (valid_exists_spec k c Hi) as (Hi1 & Hm & Hb & Hc).
    destruct (valid_exists k c) as [b c1]. simpl in *. rewrite <- Hc, <- Hm.
    destruct (IH c1 Hi1) as [Hi2 Hr]. destruct (valid_run ops c1) as [bl c2].
    destruct (valid_spec_run (max_entries c1) ops (contents c1)) as [bl' l2].
    simpl in *. by subst.
  - destruct (valid_add_spec k c Hi) as (Hi1 & Hm & Hc). rewrite <- Hc, <- Hm. by apply IH.
Qed.
End valid_facts.
End ValidFacts.

(** ** The caches' guarantees *)

Section guarantees.
Import Core LRUCache ValidLRUCache.
Context {TKey T : Type} `{Countable TKey}.

(** C4: from construction on, every sequence of [value], [add], [size] and
    [clear] calls gets the answers of the abstract cache that keeps its
    entries in recency order and truncates to [byte_capacity / bytesPerEntry]. *)
Theorem lru_cache_refines_recency_list (sizeof_TKey sizeof_Node byte_capacity : nat) (ops : list call) :
  (run ops (make sizeof_TKey sizeof_Node byte_capacity : state TKey (TKey * T))).1
  = (spec_run (byte_capacity / bytesPerEntry sizeof_TKey sizeof_Node)%nat ops []).1.
Proof. apply (LRUFacts.run_refines _ ops (make _ _ _)); [by apply CoreFacts.empty_inv|done]. Qed.

(** Every state the calls reach keeps the list and the index consistent
    (each key indexed once, at the node that carries it) and never holds more
    entries than its capacity. *)
Theorem lru_cache_invariant (sizeof_TKey sizeof_Node byte_capacity : nat) (ops : list call) :
  let c := (run ops (make sizeof_TKey sizeof_Node byte_capacity : state TKey (TKey * T))).2 in
  links fst c /\ (size c <= capacity c)%nat
  /\ capacity c = (byte_capacity / bytesPerEntry sizeof_TKey sizeof_Node)%nat.
Proof.
  intros c. destruct (LRUFacts.run_refines _ ops (make sizeof_TKey sizeof_Node byte_capacity)
    (CoreFacts.empty_inv fst (make sizeof_TKey sizeof_Node byte_capacity) eq_refl eq_refl) eq_refl)
    as ([Hl Hs] & Hm & _).
  split_and!; done.
Qed.

(** An entry just added survives any further calls that use fewer
    distinct other keys than the capacity: only the least recently used entry
    is ever evicted. *)
Theorem lru_cache_retains_recent (k : TKey) (v : T) (S : list TKey) (ops : list call)
    (c : state TKey (TKey * T)) :
  inv fst c -> (length S < max_entries c)%nat ->
  Forall (fun op => op <> CallClear /\ forall k', call_key op = Some k' -> k' ∈ S /\ k' <> k) ops ->
  (value k (run ops (add k v c)).2).1 = Some v.
Proof.
  intros Hi HS Hops.
  destruct (LRUFacts.add_spec k v c Hi) as (Hi1 & Hm1 & Hc1).
  destruct (LRUFacts.run_refines (max_entries c) ops _ Hi1 Hm1) as (Hi2 & _ & _ & Hc2).
  destruct (LRUFacts.value_spec k _ Hi2) as (_ & _ & -> & _).
  rewrite Hc2, Hc1, (LRUFacts.held_get S k v); [done|].
  apply LRUFacts.held_run; [|done..]. apply LRUFacts.held_take; [|done].
  exists [], (filter (fun m => m.1 <> k) (contents c)).
  split_and!; [done|constructor|apply list_subseteq_nil|apply not_elem_of_nil].
Qed.

(** [ValidLRUCache] answers [exists] exactly for the keys the recency
    list of its capacity holds. *)
Theorem valid_lru_cache_refines (sizeof_T byte_capacity : nat) (ops : list valid_call) :
  (valid_run ops (valid_make sizeof_T byte_capacity : state TKey TKey)).1
  = (valid_spec_run (byte_capacity / valid_bytesPerEntry sizeof_T)%nat ops []).1.
Proof. apply (ValidFacts.valid_run_refines _ ops (valid_make _ _)); [by apply CoreFacts.empty_inv|done]. Qed.
End guarantees.

(** A cache of two entries keeps entry 1 while only key 2 is used. *)
Lemma lru_cache_retains_recent_witness :
  (LRUCache.value 1%nat (LRUCache.run [LRUCache.CallAdd 2%nat true; LRUCache.CallValue 2%nat]
     (LRUCache.add 1%nat false (Core.empty_cache 2))).2).1 = Some false.
Proof.
  apply (lru_cache_retains_recent 1%nat false [2%nat]); [by apply CoreFacts.empty_inv|simpl; lia|].
  constructor; [|constructor; [|constructor]];
    (split; [discriminate|]; intros k' [= <-]; split; [constructor|lia]).
Defined.
