(* ===== verification/SortKey.v ===== *)
(** * Sort keys of a search: [core/search/SearchTypes.hpp], [SortKey.hpp] and
    [SortKey.cpp] of [IDHANServer/src]

    The enumerations a search is ordered by, the SQL each sort type is
    computed with, the key columns a result set carries, and the proof that
    the C++ comparison of two keys is a strict weak order (which the merge of
    two sets relies on).  The SQL fragments are kept as the literal strings of
    the source. *)
From S2P Require Import Prelude.
From Stdlib Require Import SpecFloat.

(** ** Enumerations *)

Inductive SortOrder : Type := ASC | DESC.
Definition SortOrder_DEFAULT : SortOrder := ASC.

Inductive SortType : Type :=
| FILESIZE | IMPORT_TIME | RECORD_CREATION_TIME | FILE_MODIFIED_TIME | FILE_CREATED_TIME
| MIME | HASH | RANDOM | DURATION | FRAMERATE | HAS_AUDIO | WIDTH | HEIGHT | RATIO
| NUM_PIXELS | NUM_TAGS.
Definition SortType_DEFAULT : SortType := FILESIZE.
Definition SortType_UNSUPPORTED : SortType := SortType_DEFAULT.

Inductive HydrusDisplayType : Type := STORED | DISPLAY.
Definition HydrusDisplayType_DEFAULT : HydrusDisplayType := DISPLAY.

(** The constants themselves are generated; only their identity matters.
    [HY_unknown] is a value outside the enumeration. *)
Inductive HydrusSortType : Type :=
| HY_FILESIZE | HY_DURATION | HY_IMPORT_TIME | HY_MIME | HY_RANDOM | HY_WIDTH | HY_HEIGHT
| HY_RATIO | HY_NUM_PIXELS | HY_NUM_TAGS | HY_MEDIA_VIEWS | HY_MEDIA_VIEWTIME
| HY_APPROX_BITRATE | HY_HAS_AUDIO | HY_FILE_MODIFIED_TIMESTAMP | HY_FRAMERATE
| HY_NUM_FRAMES | HY_NUM_COLLECTION_FILES | HY_LAST_VIEWED_TIME | HY_ARCHIVED_TIMESTAMP
| HY_HASH | HY_PIXEL_HASH | HY_BLURHASH | HY_unknown (value : Z).

Definition hyToIDHANSortType (hy_sort : HydrusSortType) : SortType :=
  match hy_sort with
  | HY_FILESIZE => FILESIZE
  | HY_DURATION => DURATION
  | HY_IMPORT_TIME => IMPORT_TIME
  | HY_MIME => MIME
  | HY_RANDOM => RANDOM
  | HY_WIDTH => WIDTH
  | HY_HEIGHT => HEIGHT
  | HY_RATIO => RATIO
  | HY_NUM_PIXELS => NUM_PIXELS
  | HY_NUM_TAGS => NUM_TAGS
  | HY_MEDIA_VIEWS => SortType_UNSUPPORTED
  | HY_MEDIA_VIEWTIME => SortType_UNSUPPORTED
  | HY_APPROX_BITRATE => SortType_UNSUPPORTED
  | HY_HAS_AUDIO => HAS_AUDIO
  | HY_FILE_MODIFIED_TIMESTAMP => FILE_MODIFIED_TIME
  | HY_FRAMERATE => FRAMERATE
  | HY_NUM_FRAMES => SortType_UNSUPPORTED
  | HY_NUM_COLLECTION_FILES => SortType_UNSUPPORTED
  | HY_LAST_VIEWED_TIME => SortType_UNSUPPORTED
  | HY_ARCHIVED_TIMESTAMP => SortType_UNSUPPORTED
  | HY_HASH => HASH
  | HY_PIXEL_HASH => SortType_UNSUPPORTED
  | HY_BLURHASH => SortType_UNSUPPORTED
  | HY_unknown _ => SortType_DEFAULT
  end.

(** [parseSortType]: the names a request may order by. *)
Definition parseSortType (by_ : string) : option SortType :=
  let named name := bool_decide (by_ = name) in
  if named "filesize" || named "size" then Some FILESIZE
  else if named "record_creation_time" || named "record_time" || named "creation_time"
    then Some RECORD_CREATION_TIME
  else if named "file_modified_time" || named "file_mtime" || named "modified_time"
    then Some FILE_MODIFIED_TIME
  else if named "file_created_time" || named "file_ctime" then Some FILE_CREATED_TIME
  else if named "mime" || named "filetype" then Some MIME
  else if named "import_time" then Some IMPORT_TIME
  else if named "hash" then Some HASH
  else if named "random" then Some RANDOM
  else if named "duration" then Some DURATION
  else if named "framerate" then Some FRAMERATE
  else if named "has_audio" then Some HAS_AUDIO
  else if named "width" then Some WIDTH
  else if named "height" then Some HEIGHT
  else if named "ratio" then Some RATIO
  else if named "num_pixels" then Some NUM_PIXELS
  else if named "num_tags" then Some NUM_TAGS
  else None.

(** ** The SQL of a sort key *)

Inductive SortKeyType : Type := KeyNone | KeyInteger | KeyReal | KeyHash.

Record SortKeySpec := mkSortKeySpec {
  spec_joins : string;
  spec_expression : string;
  spec_type : SortKeyType;
  spec_exclude_null : bool
}.

Definition resolution_joins : string :=
  " LEFT JOIN image_metadata im USING (record_id)" +:+
  " LEFT JOIN video_metadata vm USING (record_id)" +:+
  " LEFT JOIN image_project_metadata ipm USING (record_id)".
Definition width_expr : string := "COALESCE(im.width, vm.width, ipm.width)::BIGINT".
Definition height_expr : string := "COALESCE(im.height, vm.height, ipm.height)::BIGINT".
Definition num_pixels_expr : string :=
  "(COALESCE(im.width, vm.width, ipm.width)::BIGINT" +:+
  " * COALESCE(im.height, vm.height, ipm.height)::BIGINT)".
Definition ratio_expr : string :=
  "(COALESCE(im.width, vm.width, ipm.width)::FLOAT" +:+
  " / NULLIF(COALESCE(im.height, vm.height, ipm.height), 0))".
Definition store_time_expr : string := "(EXTRACT(EPOCH FROM fi.cluster_store_time) * 1000000)::BIGINT".
Definition file_mtime_expr : string := "(EXTRACT(EPOCH FROM fi.file_mtime) * 1000000)::BIGINT".
Definition file_ctime_expr : string := "(EXTRACT(EPOCH FROM fi.file_ctime) * 1000000)::BIGINT".
Definition record_creation_time_expr : string := "(EXTRACT(EPOCH FROM rc.creation_time) * 1000000)::BIGINT".
Definition records_join : string := " JOIN records rc USING (record_id)".
Definition video_join : string := " LEFT JOIN video_metadata vm USING (record_id)".
Definition duration_joins : string :=
  " LEFT JOIN video_metadata vm USING (record_id)" +:+
  " LEFT JOIN audio_metadata am USING (record_id)" +:+
  " LEFT JOIN animation_metadata anm USING (record_id)".
Definition num_tags_join : string :=
  " LEFT JOIN (SELECT record_id, COUNT(DISTINCT tag_id) AS tag_count FROM (" +:+
  " SELECT record_id, COALESCE(ideal_tag_id, tag_id) AS tag_id FROM active_tag_mappings" +:+
  " UNION ALL SELECT record_id, tag_id FROM active_tag_mappings_parents" +:+
  " ) atm GROUP BY record_id) ntc USING (record_id)".
Definition stored_num_tags_join : string :=
  " LEFT JOIN (SELECT record_id, COUNT(DISTINCT tag_id) AS tag_count" +:+
  " FROM tag_mappings GROUP BY record_id) ntc USING (record_id)".

Definition sortKeySpec (type : SortType) (display : HydrusDisplayType) : SortKeySpec :=
  match type with
  | FILESIZE => mkSortKeySpec "" "fi.size" KeyInteger false
  | IMPORT_TIME => mkSortKeySpec "" store_time_expr KeyInteger false
  | FILE_MODIFIED_TIME => mkSortKeySpec "" file_mtime_expr KeyInteger true
  | FILE_CREATED_TIME => mkSortKeySpec "" file_ctime_expr KeyInteger true
  | MIME => mkSortKeySpec "" "fi.mime_id::BIGINT" KeyInteger false
  | RECORD_CREATION_TIME => mkSortKeySpec records_join record_creation_time_expr KeyInteger false
  | HASH => mkSortKeySpec records_join "rc.sha256" KeyHash false
  | DURATION =>
      mkSortKeySpec duration_joins "COALESCE(vm.duration, am.duration, anm.duration)" KeyReal true
  | FRAMERATE => mkSortKeySpec video_join "COALESCE(vm.framerate, 0)" KeyReal false
  | HAS_AUDIO => mkSortKeySpec video_join "COALESCE(vm.has_audio::INT, 0)::BIGINT" KeyInteger false
  | WIDTH => mkSortKeySpec resolution_joins width_expr KeyInteger true
  | HEIGHT => mkSortKeySpec resolution_joins height_expr KeyInteger true
  | NUM_PIXELS => mkSortKeySpec resolution_joins num_pixels_expr KeyInteger true
  | RATIO => mkSortKeySpec resolution_joins ratio_expr KeyReal true
  | NUM_TAGS =>
      mkSortKeySpec (match display with STORED => stored_num_tags_join | DISPLAY => num_tags_join end)
        "COALESCE(ntc.tag_count, 0)" KeyInteger false
  | RANDOM => mkSortKeySpec "" "" KeyNone false
  end.

Definition sortTypeName (type : SortType) : string :=
  match type with
  | FILESIZE => "filesize"
  | IMPORT_TIME => "import time"
  | FILE_MODIFIED_TIME => "file modified time"
  | FILE_CREATED_TIME => "file created time"
  | MIME => "mime"
  | RECORD_CREATION_TIME => "record creation time"
  | HASH => "hash"
  | DURATION => "duration"
  | FRAMERATE => "framerate"
  | HAS_AUDIO => "has audio"
  | WIDTH => "width"
  | HEIGHT => "height"
  | NUM_PIXELS => "num pixels"
  | RATIO => "ratio"
  | NUM_TAGS => "num tags"
  | RANDOM => "random"
  end.

Definition describeSortKey (type : SortType) (display : HydrusDisplayType) : string :=
  let spec := sortKeySpec type display in
  let none_or s := if bool_decide (s = ""%string) then "<none>"%string else s in
  "sort '" +:+ sortTypeName type +:+ "' key=" +:+ none_or (spec_expression spec) +:+
  " joins=" +:+ none_or (spec_joins spec) +:+
  " excludes_null_keys=" +:+ (if spec_exclude_null spec then "true" else "false").

(** ** Key columns *)

(** A SHA-256 is an array of 32 bytes; a double is an IEEE 754 binary64
    datum, of which the code only uses [<]. *)
Abbreviation SHA256 := (list Z) (only parsing).
Abbreviation double := spec_float (only parsing).

(** [std::variant< monostate, vector< int64 >, vector< double >, vector< SHA256 > >] *)
Inductive SortKeyColumn : Type :=
| ColNone
| ColInteger (held : list Z)
| ColReal (held : list double)
| ColHash (held : list SHA256).

Definition emptyColumn (type : SortKeyType) : SortKeyColumn :=
  match type with
  | KeyNone => ColNone
  | KeyInteger => ColInteger []
  | KeyReal => ColReal []
  | KeyHash => ColHash []
  end.

Definition emptyColumnLike (like : SortKeyColumn) : SortKeyColumn :=
  match like with
  | ColNone => ColNone
  | ColInteger _ => ColInteger []
  | ColReal _ => ColReal []
  | ColHash _ => ColHash []
  end.

Definition columnType (column : SortKeyColumn) : SortKeyType :=
  match column with
  | ColInteger _ => KeyInteger
  | ColReal _ => KeyReal
  | ColHash _ => KeyHash
  | ColNone => KeyNone
  end.

(** ** Key comparison *)

(** [operator<] of [std::array< std::byte, N >]: lexicographic. *)
Fixpoint lex_less (a b : list Z) : bool :=
  match a, b with
  | _, [] => false
  | [], _ :: _ => true
  | x :: a, y :: b => if x <? y then true else if y <? x then false else lex_less a b
  end.

(** [operator<] of [double]: false as soon as an operand is a NaN. *)
Definition double_less (x y : double) : bool := SFltb x y.

(** One key of a column, whatever the column's type. *)
Inductive SortKey : Type :=
| NoKey
| IntegerKey (k : Z)
| RealKey (k : double)
| HashKey (k : SHA256).

Definition key_less (a b : SortKey) : bool :=
  match a, b with
  | IntegerKey x, IntegerKey y => x <? y
  | RealKey x, RealKey y => double_less x y
  | HashKey x, HashKey y => lex_less x y
  | _, _ => false
  end.

Definition key_type (k : SortKey) : SortKeyType :=
  match k with
  | NoKey => KeyNone | IntegerKey _ => KeyInteger | RealKey _ => KeyReal | HashKey _ => KeyHash
  end.

(** A key that is comparable: a double must not be a NaN. *)
Definition key_ok (type : SortKeyType) (k : SortKey) : bool :=
  match type, k with
  | KeyNone, NoKey | KeyInteger, IntegerKey _ | KeyHash, HashKey _ => true
  | KeyReal, RealKey x => match x with S754_nan => false | _ => true end
  | _, _ => false
  end.

#[export] Instance SortKeyType_eq_dec : EqDecision SortKeyType.
Proof. solve_decision. Defined.
#[export] Instance SortType_eq_dec : EqDecision SortType.
Proof. solve_decision. Defined.
#[export] Instance SortOrder_eq_dec : EqDecision SortOrder.
Proof. solve_decision. Defined.
#[export] Instance HydrusDisplayType_eq_dec : EqDecision HydrusDisplayType.
Proof. solve_decision. Defined.

(** ** The comparison is a strict weak order on comparable keys *)

(** What a sorted merge needs of a boolean comparison. *)
Class StrictWeakOrder {K} (ok : K -> Prop) (less : K -> K -> bool) : Prop := {
  swo_irrefl x : ok x -> less x x = false;
  swo_trans x y z : ok x -> ok y -> ok z -> less x y = true -> less y z = true -> less x z = true;
  swo_cotrans x y z : ok x -> ok y -> ok z -> less x z = true -> less x y = true \/ less y z = true
}.

Ltac ltb_cases := repeat match goal with
  | H : context [?x <? ?y] |- _ => destruct (Z.ltb_spec x y)
  | |- context [?x <? ?y] => destruct (Z.ltb_spec x y)
  end; try done; try lia.

#[export] Instance lex_less_order : StrictWeakOrder (fun _ => True) lex_less.
Proof.
  split.
  - intros x _. induction x as [|a x IH]; [done|]. simpl. by rewrite Z.ltb_irrefl.
  - intros x y z _ _ _. revert y z.
    induction x as [|a x IH]; intros [|b y] [|c z]; simpl; try done.
    intros H1 H2. ltb_cases. by apply IH with y.
  - intros x y z _ _ _. revert y z.
    induction x as [|a x IH]; intros [|b y] [|c z]; simpl; try (by auto).
    intros H1. ltb_cases; auto.
Qed.

(** A double's place in the order of the non-NaN doubles: class, exponent
    and mantissa, compared lexicographically. *)
Definition double_rank (x : double) : list Z :=
  match x with
  | S754_nan => []
  | S754_infinity s => if s then [-2] else [2]
  | S754_zero _ => [0]
  | S754_finite s m e => if s then [-1; - e; - Zpos m] else [1; e; Zpos m]
  end.

Lemma double_less_rank x y :
  x <> S754_nan -> y <> S754_nan -> double_less x y = lex_less (double_rank x) (double_rank y).
Proof.
  intros Hx Hy. unfold double_less, SFltb.
  destruct x as [sx|sx| |sx mx ex], y as [sy|sy| |sy my ey]; try done;
    try (destruct sx); try (destruct sy); try done; unfold SFcompare, double_rank, lex_less;
    change (PosDef.Pos.compare_cont Eq mx my) with (Pos.compare mx my);
    destruct (Z.compare_spec ex ey), (Pos.compare_spec mx my); simpl; ltb_cases.
Qed.

Definition key_rank (k : SortKey) : list Z :=
  match k with
  | NoKey => []
  | IntegerKey x => [x]
  | RealKey x => double_rank x
  | HashKey x => x
  end.

Lemma key_less_rank type a b :
  key_ok type a = true -> key_ok type b = true -> key_less a b = lex_less (key_rank a) (key_rank b).
Proof.
  intros Ha Hb. destruct type, a as [|x|x|x], b as [|y|y|y]; try done; simpl.
  - by destruct (x <? y), (y <? x).
  - apply double_less_rank; by intros ->.
Qed.

#[export] Instance key_less_order type : StrictWeakOrder (fun k => key_ok type k = true) key_less.
Proof.
  split.
  - intros x Hx. rewrite (key_less_rank type) by done. by apply swo_irrefl.
  - intros x y z Hx Hy Hz. rewrite !(key_less_rank type) by done. by apply swo_trans.
  - intros x y z Hx Hy Hz. rewrite !(key_less_rank type) by done. by apply swo_cotrans.
Qed.

Lemma columnType_emptyColumn type : columnType (emptyColumn type) = type.
Proof. by destruct type. Qed.

Lemma columnType_emptyColumnLike col : columnType (emptyColumnLike col) = columnType col.
Proof. by destruct col. Qed.

Lemma emptyColumnLike_emptyColumn col : emptyColumnLike col = emptyColumn (columnType col).
Proof. by destruct col. Qed.
