(* ===== verification/SearchSet.v ===== *)
(** * Result sets: [core/search/Set.hpp] and [Set.cpp] of [IDHANServer/src]

    A set keeps its record ids, their sort keys and optionally their hashes in
    parallel vectors, ascending by (key, id), plus an [inverted] flag that
    makes it stand for its complement.  [merge] walks two sets by index and is
    modelled that way, with every vector access checked; the theorems show
    that on well-formed sets no access is out of range, that the operators are
    the boolean algebra of the sets' denotations, and that the columns stay
    parallel and sorted. *)
From S2P Require Import Prelude SortKey.

Abbreviation RecordID := Z (only parsing).

Record Set_ := mkSet {
  m_ids : list RecordID;
  m_keys : SortKeyColumn;
  m_hashes : option (list SHA256);
  m_inverted : bool
}.

Inductive MergeOp : Type := Intersect | Union | Difference | SymmetricDifference.

(** The default member initialisers: no ids, the variant's first alternative. *)
Definition Set_default : Set_ := mkSet [] ColNone None false.

Definition emptyOf (type : SortKeyType) : Set_ := mkSet [] (emptyColumn type) None false.

(** [keys[ index ]] of the held alternative; a monostate has no keys. *)
Definition column_at (col : SortKeyColumn) (index : nat) : result SortKey :=
  match col with
  | ColNone => Ok NoKey
  | ColInteger l => IntegerKey <$> at_index l index
  | ColReal l => RealKey <$> at_index l index
  | ColHash l => HashKey <$> at_index l index
  end.

(** [out_keys.push_back( key )] when the alternatives agree. *)
Definition column_push (col : SortKeyColumn) (k : SortKey) : SortKeyColumn :=
  match col, k with
  | ColInteger l, IntegerKey x => ColInteger (l ++ [x])
  | ColReal l, RealKey x => ColReal (l ++ [x])
  | ColHash l, HashKey x => ColHash (l ++ [x])
  | _, _ => col
  end.

Definition compositeLess (lhs : Set_) (lhs_index : nat) (rhs : Set_) (rhs_index : nat) : result bool :=
  kl ← column_at (m_keys lhs) lhs_index;
  kr ← column_at (m_keys rhs) rhs_index;
  if key_less kl kr then Ok true
  else if key_less kr kl then Ok false
  else
    a ← at_index (m_ids lhs) lhs_index;
    b ← at_index (m_ids rhs) rhs_index;
    Ok (a <? b).

(** The [emit] lambda of [merge]. *)
Definition emit (from : Set_) (index : nat) (out : Set_) : result Set_ :=
  id ← at_index (m_ids from) index;
  key ← column_at (m_keys from) index;
  let ids := m_ids out ++ [id] in
  let keys := column_push (m_keys out) key in
  match m_hashes out, m_hashes from with
  | Some oh, Some fh =>
      h ← at_index fh index;
      Ok (mkSet ids keys (Some (oh ++ [h])) (m_inverted out))
  | oh, _ => Ok (mkSet ids keys oh (m_inverted out))
  end.

Definition keeps_left (op : MergeOp) : bool :=
  match op with Intersect => false | _ => true end.
Definition keeps_right (op : MergeOp) : bool :=
  match op with Union | SymmetricDifference => true | _ => false end.
Definition keeps_both (op : MergeOp) : bool :=
  match op with Intersect | Union => true | _ => false end.

Definition emit_if (keep : bool) (from : Set_) (index : nat) (out : Set_) : result Set_ :=
  if keep then emit from index out else Ok out.

(** The three [while] loops of [merge]; [fuel] bounds the steps and is chosen
    as the sum of the sizes, one step consuming at least one element. *)
Fixpoint merge_both (fuel : nat) (op : MergeOp) (lhs rhs : Set_) (i j : nat) (out : Set_)
    : result (nat * nat * Set_) :=
  if decide (i < length (m_ids lhs) /\ j < length (m_ids rhs))%nat then
    match fuel with
    | O => Throw (logic_error "merge ran out of fuel")
    | S fuel =>
        lt ← compositeLess lhs i rhs j;
        if (lt : bool) then
          out ← emit_if (keeps_left op) lhs i out;
          merge_both fuel op lhs rhs (S i) j out
        else
          gt ← compositeLess rhs j lhs i;
          if (gt : bool) then
            out ← emit_if (keeps_right op) rhs j out;
            merge_both fuel op lhs rhs i (S j) out
          else
            out ← emit_if (keeps_both op) lhs i out;
            merge_both fuel op lhs rhs (S i) (S j) out
    end
  else Ok (i, j, out).

Fixpoint drain (fuel : nat) (keep : bool) (from : Set_) (i : nat) (out : Set_) : result Set_ :=
  if decide (i < length (m_ids from))%nat then
    match fuel with
    | O => Throw (logic_error "merge ran out of fuel")
    | S fuel => out ← emit_if keep from i out; drain fuel keep from (S i) out
    end
  else Ok out.

Definition merge (lhs rhs : Set_) (op : MergeOp) (inverted : bool) : result Set_ :=
  let out := mkSet [] (emptyColumnLike (m_keys lhs))
    (match m_hashes lhs, m_hashes rhs with None, None => None | _, _ => Some [] end) inverted in
  if decide (columnType (m_keys lhs) <> columnType (m_keys rhs)) then
    Throw (logic_error "SearchBuilder: combined two Sets built for different sort types")
  else
    let fuel := (length (m_ids lhs) + length (m_ids rhs))%nat in
    '(i, j, out) ← merge_both fuel op lhs rhs 0 0 out;
    out ← drain fuel (keeps_left op) lhs i out;
    drain fuel (keeps_right op) rhs j out.

(** The operators.  [~] exists for lvalues and rvalues with the same effect. *)
Definition set_and (a b : Set_) : result Set_ :=
  match m_inverted a, m_inverted b with
  | false, false => merge a b Intersect false
  | false, true => merge a b Difference false
  | true, false => merge b a Difference false
  | true, true => merge a b Union true
  end.

Definition set_or (a b : Set_) : result Set_ :=
  match m_inverted a, m_inverted b with
  | false, false => merge a b Union false
  | false, true => merge b a Difference true
  | true, false => merge a b Difference true
  | true, true => merge a b Intersect true
  end.

Definition set_xor (a b : Set_) : result Set_ :=
  merge a b SymmetricDifference (negb (Bool.eqb (m_inverted a) (m_inverted b))).

Definition set_not (a : Set_) : Set_ :=
  mkSet (m_ids a) (m_keys a) (m_hashes a) (negb (m_inverted a)).

(** A pass over whichever vector the column holds. *)
Definition column_apply (f : forall A : Type, list A -> result (list A)) (col : SortKeyColumn)
    : result SortKeyColumn :=
  match col with
  | ColNone => Ok ColNone
  | ColInteger l => ColInteger <$> f Z l
  | ColReal l => ColReal <$> f double l
  | ColHash l => ColHash <$> f SHA256 l
  end.

Definition hashes_apply (f : forall A : Type, list A -> result (list A)) (hs : option (list SHA256))
    : result (option (list SHA256)) :=
  match hs with None => Ok None | Some l => Some <$> f SHA256 l end.

Definition columns_apply (f : forall A : Type, list A -> result (list A)) (s : Set_) : result Set_ :=
  ids ← f Z (m_ids s);
  hs ← hashes_apply f (m_hashes s);
  keys ← column_apply f (m_keys s);
  Ok (mkSet ids keys hs (m_inverted s)).

Definition set_reverse (s : Set_) : result Set_ := columns_apply (fun A l => Ok (reverse l)) s.

Fixpoint applyPermutation {A} (values : list A) (order : list nat) : result (list A) :=
  match order with
  | [] => Ok []
  | i :: order => x ← at_index values i; xs ← applyPermutation values order; Ok (x :: xs)
  end.

(** [shuffle]: [order] is the permutation [std::ranges::shuffle] drew. *)
Definition set_shuffle (order : list nat) (s : Set_) : result Set_ :=
  if decide (length (m_ids s) < 2)%nat then Ok s
  else columns_apply (fun A l => applyPermutation l order) s.

(** The [trim] lambda of [slice]: two [erase] calls, undefined past the end. *)
Definition trim (offset end_ : nat) {A} (values : list A) : result (list A) :=
  if decide (end_ <= length values)%nat then Ok (drop offset (take end_ values))
  else Throw (undefined_behaviour "erase past the end of a vector").

Definition set_slice (offset : nat) (limit : option nat) (s : Set_) : result Set_ :=
  if decide (length (m_ids s) <= offset)%nat then
    Ok (mkSet [] (emptyColumnLike (m_keys s)) ((fun _ => []) <$> m_hashes s) (m_inverted s))
  else
    let remaining := (length (m_ids s) - offset)%nat in
    let kept := match limit with Some l => Nat.min remaining l | None => remaining end in
    columns_apply (fun A => trim offset (offset + kept)) s.

(** ** What a set stands for, and when it is well formed *)

(** The records a set denotes, taking [inverted] into account. *)
Definition denotes (s : Set_) (id : RecordID) : bool :=
  xorb (m_inverted s) (bool_decide (id ∈ m_ids s)).

(** The column of a given type holding given keys. *)
Definition column_of (type : SortKeyType) (ks : list SortKey) : SortKeyColumn :=
  match type with
  | KeyNone => ColNone
  | KeyInteger => ColInteger (omap (fun k => match k with IntegerKey x => Some x | _ => None end) ks)
  | KeyReal => ColReal (omap (fun k => match k with RealKey x => Some x | _ => None end) ks)
  | KeyHash => ColHash (omap (fun k => match k with HashKey x => Some x | _ => None end) ks)
  end.

(** A search fixes one sort key and one hash per record, and whether hashes
    were asked for. *)
Record frame := mkFrame {
  f_type : SortKeyType;
  f_key : RecordID -> SortKey;
  f_hash : RecordID -> SHA256;
  f_want : bool
}.

Definition frame_ok (F : frame) : Prop := forall id, key_ok (f_type F) (f_key F id) = true.

(** The order of a set's rows: by key, then by id. *)
Definition row_less (F : frame) (a b : RecordID) : bool :=
  if key_less (f_key F a) (f_key F b) then true
  else if key_less (f_key F b) (f_key F a) then false
  else a <? b.

Definition row_lt (F : frame) : relation RecordID := fun a b => row_less F a b = true.

Definition hashes_ok (F : frame) (s : Set_) : Prop :=
  if f_want F then m_hashes s = Some (f_hash F <$> m_ids s) \/ (m_hashes s = None /\ m_ids s = [])
  else m_hashes s = None.

(** The columns are parallel and hold the frame's keys and hashes. *)
Record aligned (F : frame) (s : Set_) : Prop := {
  aligned_keys : m_keys s = column_of (f_type F) (f_key F <$> m_ids s);
  aligned_hashes : hashes_ok F s
}.

Definition set_ok (F : frame) (s : Set_) : Prop :=
  aligned F s /\ StronglySorted (row_lt F) (m_ids s).

(** The merge over the id lists alone, which the index loops implement. *)
Fixpoint merge_ids (less : RecordID -> RecordID -> bool) (op : MergeOp) (l1 : list RecordID)
    : list RecordID -> list RecordID :=
  fix go (l2 : list RecordID) : list RecordID :=
    match l1, l2 with
    | [], _ => if keeps_right op then l2 else []
    | _, [] => if keeps_left op then l1 else []
    | x :: l1', y :: l2' =>
        if less x y then (if keeps_left op then [x] else []) ++ merge_ids less op l1' l2
        else if less y x then (if keeps_right op then [y] else []) ++ go l2'
        else (if keeps_both op then [x] else []) ++ merge_ids less op l1' l2'
    end.

(** A set with the frame's columns for [ids]; [hs] tells whether it has hashes. *)
Definition built (F : frame) (hs inverted : bool) (ids : list RecordID) : Set_ :=
  mkSet ids (column_of (f_type F) (f_key F <$> ids))
    (if hs then Some (f_hash F <$> ids) else None) inverted.

Definition has_hashes (s : Set_) : bool := match m_hashes s with Some _ => true | None => false end.

(** ** Facts *)

Section rows.
Context (F : frame) (HF : frame_ok F).

Lemma row_less_irrefl a : row_less F a a = false.
Proof. unfold row_less. rewrite (swo_irrefl (ok := fun k => key_ok (f_type F) k = true)) by apply HF. apply Z.ltb_irrefl. Qed.

Lemma row_less_eq a b : row_less F a b = false -> row_less F b a = false -> a = b.
Proof. unfold row_less. repeat case_match; try done. rewrite !Z.ltb_ge. lia. Qed.

Lemma key_cotrans a b c :
  key_less (f_key F a) (f_key F c) = true ->
  key_less (f_key F a) (f_key F b) = true \/ key_less (f_key F b) (f_key F c) = true.
Proof. apply (swo_cotrans (ok := fun k => key_ok (f_type F) k = true)); apply HF. Qed.

Lemma row_less_trans a b c : row_less F a b = true -> row_less F b c = true -> row_less F a c = true.
Proof.
  unfold row_less.
  pose proof (swo_trans (ok := fun k => key_ok (f_type F) k = true) (less := key_less)
    (f_key F a) (f_key F b) (f_key F c) (HF a) (HF b) (HF c)) as T.
  pose proof (key_cotrans a b c). pose proof (key_cotrans a c b). pose proof (key_cotrans b a c).
  pose proof (key_cotrans c b a).
  destruct (key_less (f_key F a) (f_key F b)) eqn:Hab.
  - intros _ Hbc. destruct (key_less (f_key F b) (f_key F c)) eqn:Hbc'; [by rewrite T|].
    destruct (key_less (f_key F c) (f_key F b)) eqn:Hcb; [done|].
    destruct (key_less (f_key F a) (f_key F c)); naive_solver.
  - destruct (key_less (f_key F b) (f_key F a)) eqn:Hba; [done|]. intros Hlt Hbc.
    destruct (key_less (f_key F b) (f_key F c)) eqn:Hbc'.
    + destruct (key_less (f_key F a) (f_key F c)); naive_solver.
    + destruct (key_less (f_key F c) (f_key F b)) eqn:Hcb; [done|].
      destruct (key_less (f_key F a) (f_key F c)); [done|].
      destruct (key_less (f_key F c) (f_key F a)); [naive_solver|].
      rewrite Z.ltb_lt in *. lia.
Qed.

#[export] Instance row_lt_irreflexive : Irreflexive (row_lt F).
Proof. intros a Ha. unfold row_lt in Ha. by rewrite row_less_irrefl in Ha. Qed.
#[export] Instance row_lt_transitive : Transitive (row_lt F).
Proof. intros a b c. apply row_less_trans. Qed.

(** *** The abstract merge *)

Lemma merge_ids_nil_l op l2 : merge_ids (row_less F) op [] l2 = if keeps_right op then l2 else [].
Proof. by destruct l2. Qed.

Lemma merge_ids_nil_r op l1 : merge_ids (row_less F) op l1 [] = if keeps_left op then l1 else [].
Proof. destruct l1; simpl; by destruct (keeps_left op), (keeps_right op). Qed.

Lemma merge_ids_cons op x l1 y l2 :
  merge_ids (row_less F) op (x :: l1) (y :: l2) =
  if row_less F x y then (if keeps_left op then [x] else []) ++ merge_ids (row_less F) op l1 (y :: l2)
  else if row_less F y x then (if keeps_right op then [y] else []) ++ merge_ids (row_less F) op (x :: l1) l2
  else (if keeps_both op then [x] else []) ++ merge_ids (row_less F) op l1 l2.
Proof. done. Qed.

(** Membership in the merge, for each way an id can be in the operands. *)
Definition kept (op : MergeOp) (in1 in2 : Prop) : Prop :=
  (in1 /\ ~ in2 /\ keeps_left op = true) \/ (~ in1 /\ in2 /\ keeps_right op = true)
  \/ (in1 /\ in2 /\ keeps_both op = true).

Lemma sorted_head_notin x l : StronglySorted (row_lt F) (x :: l) -> x ∉ l.
Proof.
  intros Hs Hin. inversion_clear Hs as [|? ? _ Hx]. rewrite Forall_forall in Hx.
  by apply Hx, (irreflexivity (row_lt F)) in Hin.
Qed.

Lemma sorted_below_notin y x l :
  row_less F y x = true -> StronglySorted (row_lt F) (x :: l) -> y ∉ x :: l.
Proof.
  intros Hyx Hs. apply sorted_head_notin. constructor; [done|].
  apply StronglySorted_inv in Hs as [_ Hx]. constructor; [done|].
  eapply Forall_impl; [exact Hx|]. intros z Hz. by trans x.
Qed.

(** Decides membership goals over conses once the head is compared. *)
Ltac kept_solver z x b :=
  unfold kept; rewrite !elem_of_cons in *; pose proof (eq_refl x);
  destruct (decide (z = x)) as [->|]; destruct b;
  rewrite ?list_elem_of_singleton, ?elem_of_nil in *; intuition congruence.

Lemma merge_ids_elem op l1 l2 z :
  StronglySorted (row_lt F) l1 -> StronglySorted (row_lt F) l2 ->
  z ∈ merge_ids (row_less F) op l1 l2 <-> kept op (z ∈ l1) (z ∈ l2).
Proof.
  revert l2. induction l1 as [|x l1 IH1]; intros l2 Hs1 Hs2.
  { rewrite merge_ids_nil_l. unfold kept.
    destruct (keeps_right op); rewrite ?elem_of_nil; intuition congruence. }
  induction l2 as [|y l2 IH2].
  { rewrite merge_ids_nil_r. unfold kept.
    destruct (keeps_left op); rewrite ?elem_of_nil; intuition congruence. }
  pose proof (StronglySorted_inv Hs1) as [Hs1' _]. pose proof (StronglySorted_inv Hs2) as [Hs2' _].
  pose proof (sorted_head_notin _ _ Hs1). pose proof (sorted_head_notin _ _ Hs2).
  rewrite merge_ids_cons. destruct (row_less F x y) eqn:Hxy; [|destruct (row_less F y x) eqn:Hyx].
  - pose proof (sorted_below_notin _ _ _ Hxy Hs2). rewrite elem_of_app, IH1 by done.
    kept_solver z x (keeps_left op).
  - pose proof (sorted_below_notin _ _ _ Hyx Hs1). rewrite elem_of_app, IH2 by done.
    kept_solver z y (keeps_right op).
  - pose proof (row_less_eq _ _ Hxy Hyx) as <-. rewrite elem_of_app, IH1 by done.
    kept_solver z x (keeps_both op).
Qed.

Lemma kept_or op (P Q : Prop) : kept op P Q -> P \/ Q.
Proof. unfold kept. tauto. Qed.

Lemma merge_ids_sorted op l1 l2 :
  StronglySorted (row_lt F) l1 -> StronglySorted (row_lt F) l2 ->
  StronglySorted (row_lt F) (merge_ids (row_less F) op l1 l2).
Proof.
  assert (Hcons : forall (b : bool) x l, StronglySorted (row_lt F) l -> (forall z, z ∈ l -> row_lt F x z) ->
      StronglySorted (row_lt F) ((if b then [x] else []) ++ l)).
  { intros [] x l Hl Hx; [|done]. constructor; [done|]. by apply Forall_forall. }
  assert (Hhd : forall x l, StronglySorted (row_lt F) (x :: l) -> forall z, z ∈ l -> row_lt F x z).
  { intros x l Hs. apply StronglySorted_inv in Hs as [_ Hx]. by rewrite Forall_forall in Hx. }
  assert (Hlt : forall x y l, row_lt F x y -> StronglySorted (row_lt F) (y :: l) ->
      forall z, z ∈ y :: l -> row_lt F x z).
  { intros x y l Hxy Hs z [->|Hz]%elem_of_cons; [done|]. trans y; [done|]. by apply (Hhd y l). }
  revert l2. induction l1 as [|x l1 IH1]; intros l2 Hs1 Hs2.
  { rewrite merge_ids_nil_l. destruct (keeps_right op); [done|constructor]. }
  induction l2 as [|y l2 IH2].
  { rewrite merge_ids_nil_r. destruct (keeps_left op); [done|constructor]. }
  pose proof (StronglySorted_inv Hs1) as [Hs1' _]. pose proof (StronglySorted_inv Hs2) as [Hs2' _].
  rewrite merge_ids_cons. destruct (row_less F x y) eqn:Hxy; [|destruct (row_less F y x) eqn:Hyx];
    apply Hcons; eauto; intros z [Hz|Hz]%merge_ids_elem%kept_or; eauto.
  apply row_less_eq in Hxy as <-; eauto.
Qed.
End rows.

Section columns.
Context (F : frame) (HF : frame_ok F).

Lemma column_at_of ids i x :
  ids !! i = Some x -> column_at (column_of (f_type F) (f_key F <$> ids)) i = Ok (f_key F x).
Proof.
  intros Hi. pose proof (HF x) as Hx.
  assert (Hk : (f_key F <$> ids) !! i = Some (f_key F x)) by by rewrite list_lookup_fmap, Hi.
  unfold column_of, column_at, at_index. destruct (f_type F) eqn:Ht;
    [by destruct (f_key F x)|..];
    (erewrite omap_lookup_total; [|apply Forall_fmap, Forall_true; intros y; pose proof (HF y) as Hy;
      rewrite Ht in Hy; simpl; by destruct (f_key F y)|done]); by destruct (f_key F x).
Qed.

Lemma column_push_of ids x :
  column_push (column_of (f_type F) (f_key F <$> ids)) (f_key F x)
  = column_of (f_type F) (f_key F <$> ids ++ [x]).
Proof.
  pose proof (HF x) as Hx. rewrite fmap_app. unfold column_of, column_push.
  destruct (f_type F), (f_key F x) eqn:Ek; try done; rewrite omap_app; cbn; by rewrite Ek.
Qed.

Lemma columnType_of ks : columnType (column_of (f_type F) ks) = f_type F.
Proof. by destruct (f_type F). Qed.

(** A set may emit into an output that collects hashes only if it has them. *)
Definition can_emit (hs : bool) (from : Set_) : Prop :=
  hs = true -> m_ids from <> [] -> m_hashes from = Some (f_hash F <$> m_ids from).

Lemma emit_built hs inverted ids from i x :
  aligned F from -> can_emit hs from -> m_ids from !! i = Some x ->
  emit from i (built F hs inverted ids) = Ok (built F hs inverted (ids ++ [x])).
Proof.
  intros [Hk _] Hh Hi. unfold emit. rewrite (at_index_lookup _ _ _ Hi). simpl.
  rewrite Hk, (column_at_of _ _ _ Hi). simpl. rewrite column_push_of.
  unfold built. destruct hs; [|done].
  rewrite Hh by (done || by intros Hnil; rewrite Hnil in Hi). simpl.
  rewrite (at_index_lookup _ _ (f_hash F x)) by by rewrite list_lookup_fmap, Hi.
  simpl. by rewrite !fmap_app.
Qed.

Lemma emit_if_built keep hs inverted ids from i x :
  aligned F from -> can_emit hs from -> m_ids from !! i = Some x ->
  emit_if keep from i (built F hs inverted ids)
  = Ok (built F hs inverted (ids ++ if (keep : bool) then [x] else [])).
Proof.
  intros. unfold emit_if. destruct keep; [by apply emit_built|]. by rewrite app_nil_r.
Qed.

Lemma compositeLess_aligned a b i j x y :
  aligned F a -> aligned F b -> m_ids a !! i = Some x -> m_ids b !! j = Some y ->
  compositeLess a i b j = Ok (row_less F x y).
Proof.
  intros [Ha _] [Hb _] Hi Hj. unfold compositeLess, row_less.
  rewrite Ha, Hb, (column_at_of _ _ _ Hi), (column_at_of _ _ _ Hj). simpl.
  rewrite (at_index_lookup _ _ _ Hi), (at_index_lookup _ _ _ Hj). simpl. by repeat case_match.
Qed.

Lemma drain_built fuel keep hs inverted ids from i :
  aligned F from -> can_emit hs from -> (length (m_ids from) - i <= fuel)%nat ->
  drain fuel keep from i (built F hs inverted ids)
  = Ok (built F hs inverted (ids ++ if (keep : bool) then drop i (m_ids from) else [])).
Proof.
  intros Hal Hh. revert ids i. induction fuel as [|fuel IH]; intros ids i Hf; simpl; case_decide as Hi.
  - lia.
  - rewrite drop_ge by lia. destruct keep; by rewrite app_nil_r.
  - destruct (lookup_lt_ex _ _ Hi) as [x Hx]. rewrite (emit_if_built _ _ _ _ _ _ x) by done.
    simpl. rewrite IH by lia. rewrite <- app_assoc. do 3 f_equal.
    destruct keep; [|done]. by rewrite (drop_S (m_ids from) x i) by done.
  - rewrite drop_ge by lia. destruct keep; by rewrite app_nil_r.
Qed.

Lemma merge_both_built fuel op hs inverted a b ids i j :
  aligned F a -> aligned F b -> can_emit hs a -> can_emit hs b ->
  (length (m_ids a) - i + (length (m_ids b) - j) <= fuel)%nat ->
  exists i' j' ids',
    merge_both fuel op a b i j (built F hs inverted ids) = Ok (i', j', built F hs inverted (ids ++ ids'))
    /\ ids' ++ (if keeps_left op then drop i' (m_ids a) else [])
            ++ (if keeps_right op then drop j' (m_ids b) else [])
       = merge_ids (row_less F) op (drop i (m_ids a)) (drop j (m_ids b)).
Proof.
  intros Ha Hb Hha Hhb. revert ids i j. induction fuel as [|fuel IH]; intros ids i j Hf;
    simpl; case_decide as Hij; try lia.
  - exists i, j, []. split; [by rewrite app_nil_r|]. apply not_and_l in Hij as [Hi|Hj].
    + rewrite (drop_ge _ i), merge_ids_nil_l by lia. by destruct (keeps_left op).
    + rewrite (drop_ge _ j), merge_ids_nil_r by lia. destruct (keeps_right op); by rewrite app_nil_r.
  - destruct Hij as [Hi Hj].
    destruct (lookup_lt_ex _ _ Hi) as [x Hx]. destruct (lookup_lt_ex _ _ Hj) as [y Hy].
    rewrite (compositeLess_aligned a b i j x y), (compositeLess_aligned b a j i y x) by done. simpl.
    rewrite (drop_S (m_ids a) x i), (drop_S (m_ids b) y j), merge_ids_cons by done.
    destruct (row_less F x y) eqn:Hxy; [|destruct (row_less F y x) eqn:Hyx].
    + rewrite (emit_if_built _ _ _ _ _ _ x) by done. simpl.
      destruct (IH (ids ++ if keeps_left op then [x] else []) (S i) j) as (i' & j' & ids' & -> & Heq); [lia|].
      exists i', j', ((if keeps_left op then [x] else []) ++ ids').
      rewrite <- !app_assoc. split; [done|]. by rewrite Heq, (drop_S (m_ids b) y j).
    + rewrite (emit_if_built _ _ _ _ _ _ y) by done. simpl.
      destruct (IH (ids ++ if keeps_right op then [y] else []) i (S j)) as (i' & j' & ids' & -> & Heq); [lia|].
      exists i', j', ((if keeps_right op then [y] else []) ++ ids').
      rewrite <- !app_assoc. split; [done|]. by rewrite Heq, (drop_S (m_ids a) x i).
    + rewrite (emit_if_built _ _ _ _ _ _ x) by done. simpl.
      destruct (IH (ids ++ if keeps_both op then [x] else []) (S i) (S j)) as (i' & j' & ids' & -> & Heq); [lia|].
      exists i', j', ((if keeps_both op then [x] else []) ++ ids').
      rewrite <- !app_assoc. split; [done|]. by rewrite Heq.
  - exists i, j, []. split; [by rewrite app_nil_r|]. apply not_and_l in Hij as [Hi|Hj].
    + rewrite (drop_ge _ i), merge_ids_nil_l by lia. by destruct (keeps_left op).
    + rewrite (drop_ge _ j), merge_ids_nil_r by lia. destruct (keeps_right op); by rewrite app_nil_r.
Qed.

Lemma can_emit_ok a b :
  aligned F a -> aligned F b -> can_emit (has_hashes a || has_hashes b) a.
Proof.
  intros [_ Ha] [_ Hb] Hs Hne. unfold hashes_ok, has_hashes in *.
  destruct (f_want F); [|by rewrite Ha, Hb in Hs].
  destruct Ha as [Ha|[_ Ha]]; done.
Qed.

(** [merge] on aligned sets runs to completion, without an access out of
    range, and computes the merge of the id lists with the right columns. *)
Lemma merge_aligned a b op inverted :
  aligned F a -> aligned F b ->
  merge a b op inverted
  = Ok (built F (has_hashes a || has_hashes b) inverted
          (merge_ids (row_less F) op (m_ids a) (m_ids b))).
Proof.
  intros Ha Hb. unfold merge.
  rewrite decide_False by (rewrite (aligned_keys _ _ Ha), (aligned_keys _ _ Hb), !columnType_of; tauto).
  assert (Hout : forall oh, mkSet [] (emptyColumnLike (m_keys a)) oh inverted
    = mkSet [] (column_of (f_type F) (f_key F <$> [])) oh inverted).
  { intros. f_equal. rewrite (aligned_keys _ _ Ha). by destruct (f_type F). }
  rewrite Hout.
  assert (Hb0 : mkSet [] (column_of (f_type F) (f_key F <$> []))
      (match m_hashes a, m_hashes b with None, None => None | _, _ => Some [] end) inverted
      = built F (has_hashes a || has_hashes b) inverted []).
  { unfold built, has_hashes. f_equal. by destruct (m_hashes a), (m_hashes b). }
  rewrite Hb0.
  assert (Hea : can_emit (has_hashes a || has_hashes b) a) by by apply can_emit_ok.
  assert (Heb : can_emit (has_hashes a || has_hashes b) b)
    by (rewrite Bool.orb_comm; by apply can_emit_ok).
  destruct (merge_both_built (length (m_ids a) + length (m_ids b)) op
    (has_hashes a || has_hashes b) inverted a b [] 0 0 Ha Hb Hea Heb ltac:(lia)) as (i & j & ids & -> & Heq).
  simpl. rewrite drain_built by (done || lia). simpl. rewrite drain_built by (done || lia).
  do 2 f_equal. rewrite <- app_assoc. exact Heq.
Qed.

Lemma built_aligned a b op inverted :
  aligned F a -> aligned F b ->
  aligned F (built F (has_hashes a || has_hashes b) inverted
    (merge_ids (row_less F) op (m_ids a) (m_ids b))).
Proof.
  intros [_ Ha] [_ Hb]. split; [done|]. unfold hashes_ok, has_hashes in *. simpl.
  destruct (f_want F).
  - destruct Ha as [->|[-> ->]]; [by left|]. destruct Hb as [->|[-> ->]]; [by left|].
    right. split; [done|]. simpl. by destruct (keeps_right op).
  - by rewrite Ha, Hb.
Qed.

Lemma merge_ok a b op inverted :
  set_ok F a -> set_ok F b ->
  exists s, merge a b op inverted = Ok s /\ set_ok F s /\ m_inverted s = inverted
    /\ forall z, z ∈ m_ids s <-> kept op (z ∈ m_ids a) (z ∈ m_ids b).
Proof.
  intros [Ha Hsa] [Hb Hsb]. eexists. split; [by apply merge_aligned|].
  split_and!; [split|done|].
  - by apply built_aligned.
  - by apply (merge_ids_sorted F HF).
  - intros z. by apply (merge_ids_elem F HF).
Qed.
End columns.

(** *** Whole-set passes: reverse, shuffle, slice *)

(** A pass over a vector that does not look at the elements. *)
Definition natural (f : forall A : Type, list A -> result (list A)) : Prop :=
  forall (A B : Type) (g : A -> B) (l : list A), f B (fmap (M := list) g l) = fmap (M := result) (fmap (M := list) g) (f A l).

Lemma natural_reverse : natural (fun A l => Ok (reverse l)).
Proof. intros A B g l. cbn. by rewrite fmap_reverse. Qed.

Lemma natural_trim offset end_ : natural (fun A => trim offset end_).
Proof.
  intros A B g l. unfold trim. rewrite length_fmap. case_decide; [|done].
  cbn. by rewrite fmap_drop, fmap_take.
Qed.

Lemma natural_permutation order : natural (fun A l => applyPermutation l order).
Proof.
  intros A B g l. induction order as [|i order IH]; [done|]. simpl. unfold at_index.
  rewrite list_lookup_fmap. destruct (l !! i); [|done]. simpl. rewrite IH.
  by destruct (applyPermutation l order).
Qed.

Section passes.
Context (F : frame) (HF : frame_ok F).

Lemma column_apply_of f ids ids' :
  natural f -> f Z ids = Ok ids' ->
  column_apply f (column_of (f_type F) (f_key F <$> ids))
  = Ok (column_of (f_type F) (f_key F <$> ids')).
Proof.
  intros Hn Hf.
  assert (Hstep : forall B (g : SortKey -> option B) (d : SortKey -> B),
      (forall id, g (f_key F id) = Some (d (f_key F id))) ->
      forall l : list RecordID, omap g (f_key F <$> l) = (fun id => d (f_key F id)) <$> l).
  { intros B g d Hg l. induction l as [|x l IH]; [done|]. cbn. rewrite Hg. by f_equal. }
  unfold column_of. destruct (f_type F) eqn:Ht; [done|..]; simpl.
  1: rewrite !(Hstep _ _ (fun k => match k with IntegerKey x => x | _ => 0 end)).
  4: rewrite !(Hstep _ _ (fun k => match k with RealKey x => x | _ => SpecFloat.S754_nan end)).
  7: rewrite !(Hstep _ _ (fun k => match k with HashKey x => x | _ => [] end)).
  all: try (rewrite Hn, Hf; done).
  all: intros id; specialize (HF id); rewrite Ht in HF; by destruct (f_key F id).
Qed.

Lemma columns_apply_aligned f s ids' :
  natural f -> aligned F s -> f Z (m_ids s) = Ok ids' -> (m_ids s = [] -> ids' = []) ->
  exists s', columns_apply f s = Ok s' /\ aligned F s' /\ m_ids s' = ids'
    /\ m_inverted s' = m_inverted s.
Proof.
  intros Hn [Hk Hh] Hf Hnil. unfold columns_apply. rewrite Hf. simpl. rewrite Hk.
  unfold hashes_ok in Hh.
  assert (Hhs : exists hs, hashes_apply f (m_hashes s) = Ok hs
      /\ hashes_ok F (mkSet ids' (column_of (f_type F) (f_key F <$> ids')) hs (m_inverted s))).
  { unfold hashes_ok. simpl. destruct (f_want F).
    - destruct Hh as [->|[-> Hids]]; simpl; [rewrite Hn, Hf; simpl; eauto|].
      eexists. split; [done|]. right. auto.
    - rewrite Hh. eauto. }
  destruct Hhs as (hs & -> & Hhs). simpl. rewrite (column_apply_of f _ ids') by done. simpl.
  eexists. split; [done|]. split_and!; done.
Qed.

Lemma set_reverse_aligned s :
  aligned F s ->
  exists s', set_reverse s = Ok s' /\ aligned F s' /\ m_ids s' = reverse (m_ids s)
    /\ m_inverted s' = m_inverted s.
Proof. intros Hs. apply columns_apply_aligned; [apply natural_reverse|done..|by intros ->]. Qed.

Lemma applyPermutation_ok {A} (l : list A) order :
  (forall i, i ∈ order -> (i < length l)%nat) ->
  exists l', applyPermutation l order = Ok l' /\ omap (fun i => l !! i) order = l'.
Proof.
  induction order as [|i order IH]; intros Hin; [by exists []|].
  destruct IH as (l' & IH & Hl'); [intros; apply Hin; by constructor|].
  destruct (lookup_lt_ex l i) as [x Hx]; [apply Hin; constructor|].
  exists (x :: l'). cbn. rewrite (at_index_lookup _ _ _ Hx), Hx. simpl. rewrite IH, Hl'. done.
Qed.

Lemma omap_lookup_seq {A} (l : list A) : omap (fun i => l !! i) (seq 0 (length l)) = l.
Proof.
  induction l as [|x l IH] using rev_ind; [done|].
  rewrite length_app, Nat.add_1_r, seq_S, omap_app. simpl. cbn.
  rewrite list_lookup_middle by done. f_equal. rewrite <- IH at 2.
  apply list_omap_ext, Forall2_same_length_lookup_2; [done|].
  intros k i j Hi Hj. simplify_eq. apply lookup_seq in Hi. rewrite lookup_app_l by lia. done.
Qed.

Lemma set_shuffle_aligned order s :
  aligned F s -> order ≡ₚ seq 0 (length (m_ids s)) ->
  exists s', set_shuffle order s = Ok s' /\ aligned F s' /\ m_ids s' ≡ₚ m_ids s
    /\ m_inverted s' = m_inverted s.
Proof.
  intros Hs Ho. unfold set_shuffle. case_decide as Hlen; [by exists s|].
  destruct (applyPermutation_ok (m_ids s) order) as (ids' & Hok & Hids).
  { intros i. rewrite Ho, elem_of_seq. lia. }
  destruct (columns_apply_aligned (fun A l => applyPermutation l order) s ids') as (s' & H1 & H2 & H3 & H4);
    [apply natural_permutation|done..|by intros Hnil; rewrite Hnil in Hlen; simpl in Hlen; lia|].
  exists s'. split_and!; [done..| |done]. rewrite H3, <- Hids, Ho. by rewrite omap_lookup_seq.
Qed.

(** The ids a page keeps. *)
Definition page (offset : nat) (limit : option nat) (ids : list RecordID) : list RecordID :=
  match limit with Some l => take l (drop offset ids) | None => drop offset ids end.

Lemma set_slice_aligned offset limit s :
  aligned F s ->
  exists s', set_slice offset limit s = Ok s' /\ aligned F s' /\ m_ids s' = page offset limit (m_ids s)
    /\ m_inverted s' = m_inverted s.
Proof.
  intros Hs. unfold set_slice. case_decide as Hoff.
  - eexists. split; [done|]. unfold page. rewrite (drop_ge (m_ids s)) by done.
    split_and!; [split| |done]; simpl; [| |by destruct limit; rewrite ?take_nil].
    + rewrite (aligned_keys _ _ Hs). by destruct (f_type F).
    + pose proof (aligned_hashes _ _ Hs) as Hh. unfold hashes_ok in *. simpl.
      destruct (f_want F); [|by rewrite Hh]. destruct Hh as [->|[-> _]]; [by left|by right].
  - set (kept := match limit with Some l => _ | None => _ end).
    assert (Hk : (offset + kept <= length (m_ids s))%nat) by (unfold kept; destruct limit; lia).
    destruct (columns_apply_aligned (fun A => trim offset (offset + kept)) s
      (drop offset (take (offset + kept) (m_ids s)))) as (s' & H1 & H2 & H3 & H4);
      [apply natural_trim|done|by unfold trim; rewrite decide_True by done|
       by intros ->; rewrite take_nil, drop_nil|].
    exists s'. split_and!; [done..| |done]. rewrite H3.
    replace (take (offset + kept) (m_ids s)) with (take offset (m_ids s) ++ take kept (drop offset (m_ids s)))
      by apply take_take_drop.
    rewrite drop_app_length' by (rewrite length_take; lia). unfold page, kept.
    destruct limit as [l|]; [|by rewrite take_ge by (rewrite length_drop; lia)].
    destruct (Nat.min_spec (length (m_ids s) - offset) l) as [[Hl ->]|[Hl ->]]; [|done].
    rewrite !take_ge by (rewrite length_drop; lia). done.
Qed.
End passes.

(** ** The set algebra *)

(** What the records of a merge are, as a boolean function of the operands'
    stored ids. *)
Definition op_table (op : MergeOp) (p q : bool) : bool :=
  match op with
  | Intersect => p && q
  | Union => p || q
  | Difference => p && negb q
  | SymmetricDifference => xorb p q
  end.

Lemma merge_denotes F x y op inverted :
  frame_ok F -> set_ok F x -> set_ok F y ->
  exists s, merge x y op inverted = Ok s /\ (set_ok F s /\ m_inverted s = inverted) /\ forall id,
    denotes s id = xorb inverted
      (op_table op (bool_decide (id ∈ m_ids x)) (bool_decide (id ∈ m_ids y))).
Proof.
  intros HF Hx Hy. destruct (merge_ok F HF x y op inverted Hx Hy) as (s & H1 & H2 & H3 & H4).
  exists s. split_and!; [done..|]. intros id. unfold denotes. rewrite H3. f_equal.
  rewrite (bool_decide_ext _ _ (H4 id)). unfold kept.
  destruct op; simpl; repeat case_bool_decide; try done; exfalso; intuition congruence.
Qed.

(** Closes the goal of one operator on one pair of [inverted] flags. *)
Ltac merge_case HF Ha Hb :=
  edestruct merge_denotes as (s & H1 & [H2 H3] & H4);
    [exact HF| | |exists s; split; [exact H1|split; [exact H2|split; [exact H3|]]]];
    [first [exact Ha|exact Hb]|first [exact Hb|exact Ha]|];
    intros id; rewrite H4; unfold denotes;
    repeat match goal with H : m_inverted _ = _ |- _ => rewrite H end; simpl;
    by repeat case_bool_decide.

Section operators.
Context (F : frame) (HF : frame_ok F).

Lemma set_and_ok a b : set_ok F a -> set_ok F b ->
  exists s, set_and a b = Ok s /\ set_ok F s /\ m_inverted s = m_inverted a && m_inverted b
    /\ forall id, denotes s id = denotes a id && denotes b id.
Proof.
  intros Ha Hb. unfold set_and.
  destruct (m_inverted a) eqn:Ia, (m_inverted b) eqn:Ib; merge_case HF Ha Hb.
Qed.

Lemma set_or_ok a b : set_ok F a -> set_ok F b ->
  exists s, set_or a b = Ok s /\ set_ok F s /\ m_inverted s = m_inverted a || m_inverted b
    /\ forall id, denotes s id = denotes a id || denotes b id.
Proof.
  intros Ha Hb. unfold set_or.
  destruct (m_inverted a) eqn:Ia, (m_inverted b) eqn:Ib; merge_case HF Ha Hb.
Qed.

Lemma set_xor_ok a b : set_ok F a -> set_ok F b ->
  exists s, set_xor a b = Ok s /\ set_ok F s /\ m_inverted s = negb (Bool.eqb (m_inverted a) (m_inverted b))
    /\ forall id, denotes s id = xorb (denotes a id) (denotes b id).
Proof.
  intros Ha Hb. unfold set_xor.
  destruct (m_inverted a) eqn:Ia, (m_inverted b) eqn:Ib; merge_case HF Ha Hb.
Qed.

Lemma set_ok_NoDup a : set_ok F a -> NoDup (m_ids a).
Proof.
  intros [_ Hs]. pose proof (row_lt_irreflexive F HF). by apply (StronglySorted_strict_NoDup (row_lt F)).
Qed.

Lemma set_not_ok a : set_ok F a -> set_ok F (set_not a).
Proof. intros [[Hk Hs] Ho]. split; [split|]; done. Qed.

Lemma set_not_denotes a id : denotes (set_not a) id = negb (denotes a id).
Proof. unfold denotes. cbn. by destruct (m_inverted a); repeat case_bool_decide. Qed.
End operators.

(** C3: on sets of one search (well formed, same sort type), [&], [|], [^]
    and [~] return a well-formed set of that search, and the records it
    denotes are the intersection, union, symmetric difference and complement
    of the operands' records, whatever their [inverted] flags. *)
Theorem set_operators_are_boolean_algebra (F : frame) (a b : Set_) :
  frame_ok F -> set_ok F a -> set_ok F b ->
  (exists s, set_and a b = Ok s /\ set_ok F s /\ forall id, denotes s id = denotes a id && denotes b id)
  /\ (exists s, set_or a b = Ok s /\ set_ok F s /\ forall id, denotes s id = denotes a id || denotes b id)
  /\ (exists s, set_xor a b = Ok s /\ set_ok F s /\ forall id, denotes s id = xorb (denotes a id) (denotes b id))
  /\ set_ok F (set_not a) /\ (forall id, denotes (set_not a) id = negb (denotes a id)).
Proof.
  intros HF Ha Hb.
  destruct (set_and_ok F HF a b Ha Hb) as (s1 & ? & ? & _ & ?).
  destruct (set_or_ok F HF a b Ha Hb) as (s2 & ? & ? & _ & ?).
  destruct (set_xor_ok F HF a b Ha Hb) as (s3 & ? & ? & _ & ?).
  split; [by exists s1|]. split; [by exists s2|]. split; [by exists s3|].
  split; [by apply set_not_ok|apply set_not_denotes].
Qed.

(** A small search, for the witnesses: records 1 to 9 keyed by [id mod 3]. *)
Definition demo_frame : frame := mkFrame KeyInteger (fun id => IntegerKey (id mod 3)) (fun id => [id]) true.
Definition demo_a : Set_ := mkSet [3; 6; 1; 2] (ColInteger [0; 0; 1; 2]) (Some [[3]; [6]; [1]; [2]]) false.
Definition demo_b : Set_ := mkSet [6; 4; 2] (ColInteger [0; 1; 2]) (Some [[6]; [4]; [2]]) true.

Lemma demo_frame_ok : frame_ok demo_frame.
Proof. done. Qed.

Lemma demo_a_ok : set_ok demo_frame demo_a.
Proof.
  split; [split; [done|by left]|]. repeat (constructor; [|repeat constructor]). constructor.
Qed.

Lemma demo_b_ok : set_ok demo_frame demo_b.
Proof.
  split; [split; [done|by left]|]. repeat (constructor; [|repeat constructor]). constructor.
Qed.

Lemma set_operators_are_boolean_algebra_witness :
  exists s, set_and demo_a demo_b = Ok s /\ m_ids s = [3; 1]
    /\ forall id, denotes s id = denotes demo_a id && denotes demo_b id.
Proof.
  destruct (set_operators_are_boolean_algebra demo_frame demo_a demo_b demo_frame_ok demo_a_ok demo_b_ok)
    as [(s & Hs & _ & Hd) _].
  exists s. split; [exact Hs|]. split; [|exact Hd].
  assert (Heq : set_and demo_a demo_b = Ok (mkSet [3; 1] (ColInteger [0; 1]) (Some [[3]; [1]]) false))
    by (vm_compute; reflexivity).
  rewrite Heq in Hs. injection Hs as <-. reflexivity.
Defined.

(** Reversing, shuffling (by any permutation of the indices) and slicing a
    well-formed set never access a vector out of range and keep its three
    columns parallel: the ids are reversed, permuted, or the requested page,
    and every id keeps its own sort key and hash. *)
Theorem set_passes_keep_columns_parallel (F : frame) (s : Set_) (order : list nat)
    (offset : nat) (limit : option nat) :
  frame_ok F -> aligned F s -> order ≡ₚ seq 0 (length (m_ids s)) ->
  (exists s', set_reverse s = Ok s' /\ aligned F s' /\ m_ids s' = reverse (m_ids s))
  /\ (exists s', set_shuffle order s = Ok s' /\ aligned F s' /\ m_ids s' ≡ₚ m_ids s)
  /\ (exists s', set_slice offset limit s = Ok s' /\ aligned F s' /\ m_ids s' = page offset limit (m_ids s)).
Proof.
  intros HF Hs Ho. split; [|split].
  - destruct (set_reverse_aligned F HF s Hs) as (s' & H1 & H2 & H3 & _). eauto.
  - destruct (set_shuffle_aligned F HF order s Hs Ho) as (s' & H1 & H2 & H3 & _). eauto.
  - destruct (set_slice_aligned F HF offset limit s Hs) as (s' & H1 & H2 & H3 & _). eauto.
Qed.

Lemma set_passes_keep_columns_parallel_witness :
  exists s', set_slice 1 (Some 2%nat) demo_a = Ok s' /\ m_ids s' = [6; 1].
Proof.
  destruct (set_passes_keep_columns_parallel demo_frame demo_a [2; 0; 3; 1]%nat 1%nat (Some 2%nat)
    demo_frame_ok (proj1 demo_a_ok)) as (_ & _ & s' & H & _ & Hids).
  - apply NoDup_Permutation; [apply (bool_decide_unpack _); vm_compute; reflexivity|
      apply (bool_decide_unpack _); vm_compute; reflexivity|].
    intros x. cbn. rewrite !elem_of_cons, !elem_of_nil. tauto.
  - exists s'. split; [exact H|exact Hids].
Defined.

(** Two sets keyed by different sort types are never combined: every
    operator throws, whatever the sets hold. *)
Theorem set_operators_reject_mixed_sort_types (a b : Set_) :
  columnType (m_keys a) <> columnType (m_keys b) ->
  set_and a b = Throw (logic_error "SearchBuilder: combined two Sets built for different sort types")
  /\ set_or a b = Throw (logic_error "SearchBuilder: combined two Sets built for different sort types")
  /\ set_xor a b = Throw (logic_error "SearchBuilder: combined two Sets built for different sort types").
Proof.
  intros Hne. assert (Hm : forall x y op inverted, columnType (m_keys x) <> columnType (m_keys y) ->
    merge x y op inverted = Throw (logic_error "SearchBuilder: combined two Sets built for different sort types")).
  { intros x y op inverted H. unfold merge. by rewrite decide_True. }
  unfold set_and, set_or, set_xor.
  destruct (m_inverted a), (m_inverted b); rewrite !Hm by congruence; done.
Qed.

Lemma set_operators_reject_mixed_sort_types_witness :
  set_and demo_a (emptyOf KeyReal)
    = Throw (logic_error "SearchBuilder: combined two Sets built for different sort types").
Proof. apply (set_operators_reject_mixed_sort_types demo_a (emptyOf KeyReal)). discriminate. Defined.
