(* ===== verification/StringView.v ===== *)
(** * Text: the string operations the search and parser code is written with

    [std::string_view] members as total functions on byte strings, the
    character classes of [<cctype>] in the "C" locale, [std::to_string],
    [std::stoull] and [std::stoll], the hexadecimal form of a [SHA256]
    ([IDHAN/src/SHA256.cpp], [idhan/SHA256.hpp]) and [splitTag]
    ([IDHAN/src/splitTag.cpp]).  UTF-8 literals of the source are the byte
    strings they denote. *)
From S2P Require Import Prelude.
From Stdlib Require Import Ascii.
From Stdlib Require String.

(** ** Characters *)

Definition code (c : ascii) : Z := Z.of_N (N_of_ascii c).
Definition char_in (set : string) (c : ascii) : bool :=
  (fix go s := match s with EmptyString => false | String d s => Ascii.eqb c d || go s end) set.

Definition is_digit (c : ascii) : bool := (48 <=? code c) && (code c <=? 57).
Definition isalpha (c : ascii) : bool :=
  ((65 <=? code c) && (code c <=? 90)) || ((97 <=? code c) && (code c <=? 122)).
Definition tolower (c : ascii) : ascii :=
  if (65 <=? code c) && (code c <=? 90) then ascii_of_N (N_of_ascii c + 32) else c.
Definition isspace (c : ascii) : bool := (code c =? 32) || ((9 <=? code c) && (code c <=? 13)).

Definition digits : string := "0123456789".

(** ** Views *)

Fixpoint sview_find_if (p : ascii -> bool) (s : string) : option nat :=
  match s with
  | EmptyString => None
  | String c s => if p c then Some O else S <$> sview_find_if p s
  end.

Fixpoint sview_find_last_if (p : ascii -> bool) (s : string) : option nat :=
  match s with
  | EmptyString => None
  | String c s =>
      match sview_find_last_if p s with
      | Some i => Some (S i)
      | None => if p c then Some O else None
      end
  end.

Definition find_char (c : ascii) : string -> option nat := sview_find_if (Ascii.eqb c).
Definition find_first_of (set : string) : string -> option nat := sview_find_if (char_in set).
Definition find_first_not_of (set : string) : string -> option nat :=
  sview_find_if (fun c => negb (char_in set c)).
Definition find_last_of (set : string) : string -> option nat := sview_find_last_if (char_in set).
Definition find_last_not_of (set : string) : string -> option nat :=
  sview_find_last_if (fun c => negb (char_in set c)).

Fixpoint starts_with (pre s : string) : bool :=
  match pre, s with
  | EmptyString, _ => true
  | String a pre, String b s => Ascii.eqb a b && starts_with pre s
  | _, _ => false
  end.

Fixpoint contains (sub s : string) : bool :=
  starts_with sub s || match s with EmptyString => false | String _ s => contains sub s end.

Fixpoint sdrop (n : nat) (s : string) : string :=
  match n, s with
  | S n, String _ s => sdrop n s
  | _, _ => s
  end.

Fixpoint stake (n : nat) (s : string) : string :=
  match n, s with
  | S n, String c s => String c (stake n s)
  | _, _ => EmptyString
  end.

(** [substr( 0, pos )] where [pos] may be [npos]. *)
Definition sprefix (pos : option nat) (s : string) : string :=
  match pos with Some n => stake n s | None => s end.

Definition sempty (s : string) : bool := match s with EmptyString => true | _ => false end.

Fixpoint sfilter (p : ascii -> bool) (s : string) : string :=
  match s with
  | EmptyString => EmptyString
  | String c s => if p c then String c (sfilter p s) else sfilter p s
  end.

Fixpoint smap (f : ascii -> ascii) (s : string) : string :=
  match s with
  | EmptyString => EmptyString
  | String c s => String (f c) (smap f s)
  end.

Fixpoint sforall (p : ascii -> bool) (s : string) : bool :=
  match s with
  | EmptyString => true
  | String c s => p c && sforall p s
  end.

(** [if ( s.ends_with( c ) ) s.pop_back();] *)
Fixpoint drop_trailing (c : ascii) (s : string) : string :=
  match s with
  | EmptyString => EmptyString
  | String d EmptyString => if Ascii.eqb c d then EmptyString else s
  | String d s => String d (drop_trailing c s)
  end.

Definition char (n : N) : string := String (ascii_of_N n) EmptyString.
Definition quote : string := char 39.

Definition sjoin (sep : string) (l : list string) : string :=
  match l with
  | [] => EmptyString
  | s :: l => foldl (fun acc t => acc +:+ sep +:+ t) s l
  end.

(** ** Numbers in text *)

Definition digit_value (c : ascii) : Z := code c - 48.

(** The digits at the front of [s], folded into [acc]: the value, how many
    there were. *)
Fixpoint read_digits (acc : Z) (s : string) : Z * nat :=
  match s with
  | EmptyString => (acc, O)
  | String c s' =>
      if is_digit c then let '(v, n) := read_digits (10 * acc + digit_value c) s' in (v, S n)
      else (acc, O)
  end.

Fixpoint skip_spaces (s : string) : string * nat :=
  match s with
  | String c s' => if isspace c then let '(r, n) := skip_spaces s' in (r, S n) else (s, O)
  | EmptyString => (s, O)
  end.

(** The shared front end of [strtoull] and [strtoll]: an optional sign, then
    digits; [None] when there is no digit. *)
Definition read_number (s : string) : option (bool * Z * nat) :=
  let '(s, spaces) := skip_spaces s in
  let '(neg, s, sign) :=
    match s with
    | String c s' => if Ascii.eqb c "-" then (true, s', 1%nat)
                     else if Ascii.eqb c "+" then (false, s', 1%nat) else (false, s, O)
    | EmptyString => (false, s, O)
    end in
  let '(v, n) := read_digits 0 s in
  match n with O => None | _ => Some (neg, v, (spaces + sign + n)%nat) end.

(** [std::stoull( s, &consumed )] *)
Definition stoull (s : string) : result (Z * nat) :=
  match read_number s with
  | None => Throw (invalid_argument "stoull")
  | Some (neg, v, n) =>
      if size_max <? v then Throw (out_of_range "stoull")
      else Ok (wrapu 64 (if neg then - v else v), n)
  end.

(** [std::stoll( s, &consumed )] *)
Definition stoll (s : string) : result (Z * nat) :=
  match read_number s with
  | None => Throw (invalid_argument "stoll")
  | Some (neg, v, n) =>
      let w := if neg then - v else v in
      if (w <? - 2 ^ 63) || (int64_max <? w) then Throw (out_of_range "stoll") else Ok (w, n)
  end.

(** [std::to_string] of an integer. *)
Definition to_string (z : Z) : string := pretty z.

(** ** Hexadecimal hashes *)

Definition hexDigit (character : ascii) : option Z :=
  let values := [0; 1; 2; 3; 4; 5; 6; 7; 8; 9; 10; 11; 12; 13; 14; 15; 10; 11; 12; 13; 14; 15] in
  match find_char character "0123456789abcdefABCDEF" with
  | Some index => values !! index
  | None => None
  end.

Fixpoint sview_get (s : string) (i : nat) : option ascii :=
  match s, i with
  | EmptyString, _ => None
  | String c _, O => Some c
  | String _ s, S i => sview_get s i
  end.

Definition sha256_size : nat := 32.

(** [SHA256::fromBuffer] *)
Definition fromBuffer (data : list Z) : result (list Z) :=
  if decide (length data = sha256_size) then Ok data
  else Throw (runtime_error "SHA256 requires exactly 32 bytes").

(** The loop of [SHA256::fromHex] from [index], with [n] bytes to go. *)
Fixpoint fromHex_loop (str : string) (index n : nat) : string + list Z :=
  match n with
  | O => inr []
  | S n =>
      match c ← sview_get str (index * 2); hexDigit c with
      | None => inl ("Invalid hex character at position " +:+ pretty (index * 2)%nat)
      | Some high =>
          match c ← sview_get str (index * 2 + 1); hexDigit c with
          | None => inl ("Invalid hex character at position " +:+ pretty (index * 2 + 1)%nat)
          | Some low =>
              match fromHex_loop str (S index) n with
              | inl e => inl e
              | inr bytes => inr (wrapu 8 (Z.lor (Z.shiftl high 4) low) :: bytes)
              end
          end
      end
  end.

(** [std::expected]: [inl] is the unexpected value. *)
Definition fromHex (str : string) : string + list Z :=
  if decide (String.length str <> sha256_size * 2)%nat then
    inl ("Hex string must be exactly 64 characters long, was " +:+ pretty (String.length str))
  else fromHex_loop str 0 sha256_size.

Definition hex_character (n : Z) : string :=
  match sview_get "0123456789abcdef" (Z.to_nat n) with
  | Some c => String c EmptyString
  | None => EmptyString
  end.

(** [SHA256::hex] *)
Fixpoint hex (data : list Z) : string :=
  match data with
  | [] => EmptyString
  | byte :: data => hex_character (Z.shiftr byte 4) +:+ hex_character (Z.land byte 15) +:+ hex data
  end.

(** ** Tags *)

Definition TAG_NAMESPACE_DELIMTER : ascii := ":".

Definition splitTag (str : string) : string * string :=
  match find_char TAG_NAMESPACE_DELIMTER str with
  | None => (EmptyString, str)
  | Some i => (stake i str, sdrop (i + 1) str)
  end.

(** ** Facts about views *)

#[global] Arguments String.append : simpl nomatch.

Section views.
Implicit Types (s t pre : string) (p : ascii -> bool).

Lemma sapp_nil s : s +:+ EmptyString = s.
Proof. induction s as [|c s IH]; [done|]. cbn. by rewrite IH. Qed.

Lemma sapp_assoc s t u : (s +:+ t) +:+ u = s +:+ (t +:+ u).
Proof. induction s as [|c s IH]; [done|]. cbn. by rewrite IH. Qed.

Lemma sapp_cons c s t : String c s +:+ t = String c (s +:+ t).
Proof. done. Qed.

Lemma slength_app s t : String.length (s +:+ t) = (String.length s + String.length t)%nat.
Proof. induction s as [|c s IH]; [done|]. cbn. by rewrite IH. Qed.

Lemma sforall_app p s t : sforall p (s +:+ t) = sforall p s && sforall p t.
Proof. induction s as [|c s IH]; [done|]. cbn. by rewrite IH, andb_assoc. Qed.

Lemma sforall_impl p (q : ascii -> bool) s :
  (forall c, p c = true -> q c = true) -> sforall p s = true -> sforall q s = true.
Proof.
  intros Hpq. induction s as [|c s IH]; [done|]. cbn. intros [Hc Hs]%andb_true_iff.
  by rewrite Hpq, IH.
Qed.

(** Reading one character at a time off a concatenation. *)
Lemma sview_get_app pre s k : sview_get (pre +:+ s) (String.length pre + k) = sview_get s k.
Proof. by induction pre as [|c pre IH]. Qed.

Lemma stake_app s t : stake (String.length s) (s +:+ t) = s.
Proof. induction s as [|c s IH]; [by destruct t|]. cbn. by rewrite IH. Qed.

Lemma sdrop_app s t k : sdrop (String.length s + k) (s +:+ t) = sdrop k t.
Proof. by induction s as [|c s IH]. Qed.

Lemma sdrop_app_exact s t : sdrop (String.length s) (s +:+ t) = t.
Proof. rewrite <- (Nat.add_0_r (String.length s)), sdrop_app. by destruct t. Qed.

Lemma stake_all s : stake (String.length s) s = s.
Proof. rewrite <- (sapp_nil s) at 2. apply stake_app. Qed.

Lemma stake_sdrop k s : stake k s +:+ sdrop k s = s.
Proof. revert s. induction k as [|k IH]; intros [|c s]; try done. cbn. by rewrite IH. Qed.

Lemma find_if_none p s : sforall (fun c => negb (p c)) s = true <-> sview_find_if p s = None.
Proof.
  induction s as [|c s IH]; [done|]. cbn. destruct (p c); cbn; [done|].
  rewrite IH. destruct (sview_find_if p s); done.
Qed.

Lemma find_if_app p s t :
  sforall (fun c => negb (p c)) s = true ->
  sview_find_if p (s +:+ t) = Nat.add (String.length s) <$> sview_find_if p t.
Proof.
  induction s as [|c s IH]; cbn; [by destruct (sview_find_if p t)|].
  intros [Hc Hs]%andb_true_iff. destruct (p c); [done|]. rewrite IH by done.
  by destruct (sview_find_if p t).
Qed.

Lemma find_if_some p s i :
  sview_find_if p s = Some i ->
  exists a c b, s = a +:+ String c b /\ String.length a = i /\ p c = true
    /\ sforall (fun c => negb (p c)) a = true.
Proof.
  revert i. induction s as [|c s IH]; intros i; cbn; [done|].
  destruct (p c) eqn:Hc; intros H; [injection H as <-; by exists EmptyString, c, s|].
  destruct (sview_find_if p s) as [j|]; [|done]. injection H as <-.
  destruct (IH j eq_refl) as (a & d & b & -> & <- & Hd & Ha).
  exists (String c a), d, b. cbn. by rewrite Hc, Ha.
Qed.

Lemma find_last_if_none p s : sforall (fun c => negb (p c)) s = true -> sview_find_last_if p s = None.
Proof.
  induction s as [|c s IH]; [done|]. cbn. intros [Hc Hs]%andb_true_iff.
  rewrite IH by done. by destruct (p c).
Qed.

(** The last match of [s ++ t] is the last character of [s] when [t] has none. *)
Lemma find_last_if_app p s c t :
  p c = true -> sforall (fun c => negb (p c)) t = true ->
  sview_find_last_if p (s +:+ String c t) = Some (String.length s).
Proof.
  intros Hc Ht. induction s as [|d s IH]; cbn.
  - by rewrite find_last_if_none, Hc.
  - by rewrite IH.
Qed.

Lemma contains_app_r sub s t : contains sub t = true -> contains sub (s +:+ t) = true.
Proof. intros H. induction s as [|c s IH]; [done|]. cbn. by rewrite IH, orb_true_r. Qed.

Lemma starts_with_app pre s : starts_with pre (pre +:+ s) = true.
Proof. induction pre as [|c pre IH]; [done|]. cbn. by rewrite Ascii.eqb_refl. Qed.

(** A string without the first character of [sub] does not contain it. *)
Lemma contains_none c sub s :
  sforall (fun d => negb (Ascii.eqb c d)) s = true -> contains (String c sub) s = false.
Proof.
  induction s as [|d s IH]; [done|]. cbn. intros [Hd Hs]%andb_true_iff.
  rewrite IH by done. destruct (Ascii.eqb c d); done.
Qed.

Lemma smap_app f s t : smap f (s +:+ t) = smap f s +:+ smap f t.
Proof. induction s as [|c s IH]; [done|]. cbn. by rewrite IH. Qed.

Lemma char_in_elem set c : char_in set c = true -> exists a b, set = a +:+ String c b.
Proof.
  induction set as [|d set IH]; cbn; [done|]. intros [->%Ascii.eqb_eq|H]%orb_true_iff.
  - by exists EmptyString, set.
  - destruct (IH H) as (a & b & ->). by exists (String d a), b.
Qed.
End views.

(** ** Numbers printed and read back *)

Lemma is_digit_pretty_char x : is_digit (pretty_N_char x) = true.
Proof. unfold pretty_N_char. by repeat case_match. Qed.

Lemma digit_value_pretty_char x : (x < 10)%N -> digit_value (pretty_N_char x) = Z.of_N x.
Proof.
  intros H. assert (x = 0 \/ x = 1 \/ x = 2 \/ x = 3 \/ x = 4 \/ x = 5 \/ x = 6 \/ x = 7 \/ x = 8 \/ x = 9)%N
    as Hx by lia.
  by repeat destruct Hx as [->|Hx]; subst.
Qed.

Lemma read_digits_app acc s t v n :
  sforall is_digit s = true -> read_digits acc s = (v, n) ->
  n = String.length s /\ read_digits acc (s +:+ t) =
    let '(w, m) := read_digits v t in (w, (n + m)%nat).
Proof.
  revert acc v n. induction s as [|c s IH]; cbn; intros acc v n Hs H.
  - injection H as <- <-. by destruct (read_digits acc t).
  - apply andb_true_iff in Hs as [Hc Hs]. rewrite Hc in *.
    destruct (read_digits _ s) as [w m] eqn:E. injection H as <- <-.
    destruct (IH _ _ _ Hs E) as [-> H2]. split; [done|]. rewrite H2.
    by destruct (read_digits w t).
Qed.

Lemma read_digits_nonneg acc s : 0 <= acc -> 0 <= fst (read_digits acc s).
Proof.
  revert acc. induction s as [|c s IH]; intros acc Hacc; [done|]. cbn [read_digits].
  destruct (is_digit c) eqn:Hd; [|done].
  assert (0 <= digit_value c) by (unfold is_digit in Hd; unfold digit_value; lia).
  specialize (IH (10 * acc + digit_value c) ltac:(lia)). destruct (read_digits _ s). exact IH.
Qed.

Lemma sforall_digits_go x s : sforall is_digit s = true -> sforall is_digit (pretty_N_go x s) = true.
Proof.
  revert s. induction (N.lt_wf_0 x) as [x _ IH]; intros s Hs.
  destruct (decide (x = 0)%N) as [->|Hx]; [by rewrite pretty_N_go_0|].
  rewrite pretty_N_go_step by lia. apply IH; [apply N.div_lt; lia|].
  cbn. by rewrite is_digit_pretty_char, Hs.
Qed.

Lemma sforall_digits_pretty (x : N) : sforall is_digit (pretty x) = true.
Proof. unfold pretty, pretty_N. case_decide; [done|]. by apply sforall_digits_go. Qed.

Lemma pretty_N_go_app x s : pretty_N_go x s = pretty_N_go x EmptyString +:+ s.
Proof.
  revert s. induction (N.lt_wf_0 x) as [x _ IH]; intros s.
  destruct (decide (x = 0)%N) as [->|Hx]; [by rewrite !pretty_N_go_0|].
  rewrite !(pretty_N_go_step x) by lia. assert (x `div` 10 < x)%N by (apply N.div_lt; lia).
  rewrite IH by done. rewrite (IH _ H (String _ EmptyString)). by rewrite sapp_assoc.
Qed.

Lemma read_digits_go x : exists n, read_digits 0 (pretty_N_go x EmptyString) = (Z.of_N x, n).
Proof.
  induction (N.lt_wf_0 x) as [x _ IH].
  destruct (decide (x = 0)%N) as [->|Hx]; [by exists O|].
  rewrite pretty_N_go_step by lia. rewrite pretty_N_go_app.
  destruct (IH (x `div` 10)%N) as [n Hn]; [apply N.div_lt; lia|].
  apply (read_digits_app _ _ (String (pretty_N_char (x `mod` 10)) EmptyString)) in Hn as [_ ->];
    [|by apply sforall_digits_go].
  cbn. rewrite is_digit_pretty_char, digit_value_pretty_char by (apply N.mod_lt; lia).
  eexists. f_equal. rewrite N2Z.inj_div, N2Z.inj_mod. pose proof (Z.div_mod (Z.of_N x) 10). lia.
Qed.

Lemma to_string_N z : 0 <= z -> to_string z = pretty (Z.to_N z).
Proof. by destruct z. Qed.

Lemma to_string_digits z : 0 <= z -> sforall is_digit (to_string z) = true.
Proof. intros Hz. rewrite to_string_N by done. apply sforall_digits_pretty. Qed.

Lemma read_digits_to_string z t :
  0 <= z -> sforall (fun c => negb (is_digit c)) (stake 1 t) = true ->
  read_digits 0 (to_string z +:+ t) = (z, String.length (to_string z)).
Proof.
  intros Hz Ht. pose proof (to_string_digits z Hz) as Hd.
  assert (exists n, read_digits 0 (to_string z) = (z, n)) as [n Hn].
  { rewrite to_string_N by done. unfold pretty, pretty_N. case_decide as H0.
    - exists 1%nat. assert (z = 0) as -> by lia. reflexivity.
    - destruct (read_digits_go (Z.to_N z)) as [n Hn]. exists n. rewrite Hn. f_equal. lia. }
  destruct (read_digits_app _ _ t _ _ Hd Hn) as [-> ->].
  destruct t as [|c t]; cbn in *; [f_equal; lia|]. rewrite andb_true_r in Ht.
  destruct (is_digit c); [done|]. f_equal. lia.
Qed.

Lemma to_string_nonempty z : 0 <= z -> exists c s, to_string z = String c s /\ is_digit c = true.
Proof.
  intros Hz. pose proof (to_string_digits z Hz) as Hd.
  pose proof (read_digits_to_string z EmptyString Hz eq_refl) as Hr. rewrite sapp_nil in Hr.
  destruct (to_string z) as [|c s] eqn:E; cbn in *.
  - injection Hr as <-. done.
  - apply andb_true_iff in Hd as [Hc _]. eauto.
Qed.

Lemma digit_not_special c : is_digit c = true -> isspace c = false /\ (c =? "-")%char = false /\ (c =? "+")%char = false.
Proof. destruct c as [[][][][][][][][]]; done. Qed.

(** [std::stoull] reads back what [std::to_string] wrote, whatever follows. *)
Lemma stoull_to_string z t :
  0 <= z <= size_max -> sforall (fun c => negb (is_digit c)) (stake 1 t) = true ->
  stoull (to_string z +:+ t) = Ok (z, String.length (to_string z)).
Proof.
  intros Hz Ht. assert (Hz0 : 0 <= z) by lia.
  pose proof (read_digits_to_string z t Hz0 Ht) as Hr.
  destruct (to_string_nonempty z Hz0) as (c & s & Hs & Hc).
  destruct (digit_not_special c Hc) as (Hsp & Hm & Hp).
  unfold stoull, read_number. rewrite Hs in *. rewrite sapp_cons in *. cbn [skip_spaces].
  rewrite Hsp, Hm, Hp, Hr. cbn [String.length]. rewrite (proj2 (Z.ltb_ge _ _)) by lia.
  unfold wrapu, size_max in *. rewrite Z.mod_small by lia. done.
Qed.

Lemma stoull_overflow z t :
  size_max < z -> sforall (fun c => negb (is_digit c)) (stake 1 t) = true ->
  stoull (to_string z +:+ t) = Throw (out_of_range "stoull").
Proof.
  intros Hz Ht. assert (Hz0 : 0 <= z) by (unfold size_max in *; lia).
  pose proof (read_digits_to_string z t Hz0 Ht) as Hr.
  destruct (to_string_nonempty z Hz0) as (c & s & Hs & Hc).
  destruct (digit_not_special c Hc) as (Hsp & Hm & Hp).
  unfold stoull, read_number. rewrite Hs in *. rewrite sapp_cons in *. cbn [skip_spaces].
  rewrite Hsp, Hm, Hp, Hr. cbn [String.length]. by rewrite (proj2 (Z.ltb_lt _ _)) by lia.
Qed.

(** ** Hashes *)

Definition is_byte (b : Z) : bool := (0 <=? b) && (b <=? 255).

Lemma nibble_cases v : 0 <= v < 16 ->
  v ∈ [0; 1; 2; 3; 4; 5; 6; 7; 8; 9; 10; 11; 12; 13; 14; 15].
Proof. intros H. rewrite !elem_of_cons. lia. Qed.

Lemma hexDigit_hex_character v :
  0 <= v < 16 -> exists c, hex_character v = String c EmptyString /\ hexDigit c = Some v.
Proof.
  intros H%nibble_cases. rewrite !elem_of_cons, elem_of_nil in H.
  repeat destruct H as [->|H]; try done; eexists; split; reflexivity.
Qed.

Lemma hexDigit_some c v :
  hexDigit c = Some v -> 0 <= v < 16 /\ hex_character v = String (tolower c) EmptyString.
Proof.
  destruct c as [[][][][][][][][]]; vm_compute; intros H; try discriminate H;
    injection H as <-; (split; [split; [discriminate|reflexivity]|reflexivity]).
Qed.

Lemma byte_of_nibbles h l :
  0 <= h < 16 -> 0 <= l < 16 ->
  wrapu 8 (Z.lor (Z.shiftl h 4) l) = 16 * h + l /\
  Z.shiftr (16 * h + l) 4 = h /\ Z.land (16 * h + l) 15 = l.
Proof.
  intros Hh Hl.
  assert (H15 : Z.land (16 * h + l) 15 = l).
  { change 15 with (Z.ones 4). rewrite Z.land_ones by lia. change (2 ^ 4) with 16.
    rewrite Z.add_comm, Z.mul_comm, Z.mod_add by lia. by apply Z.mod_small. }
  assert (H4 : Z.shiftr (16 * h + l) 4 = h).
  { rewrite Z.shiftr_div_pow2 by lia. change (2 ^ 4) with 16.
    rewrite Z.add_comm, Z.mul_comm, Z.div_add by lia. rewrite Z.div_small by lia. lia. }
  split; [|done].
  assert (H0 : Z.land (Z.shiftl h 4) l = 0).
  { rewrite <- H15 at 1. rewrite Z.land_assoc, (Z.land_comm _ 15), Z.land_assoc.
    apply Z.bits_inj'. intros n Hn. rewrite !Z.land_spec, Z.bits_0.
    destruct (decide (n < 4)).
    - rewrite Z.shiftl_spec_low by lia. by rewrite andb_false_r.
    - change 15 with (Z.ones 4). rewrite Z.ones_spec_high by lia. done. }
  pose proof (Z.add_lor_land (Z.shiftl h 4) l) as Hadd.
  rewrite H0, Z.shiftl_mul_pow2 in * by lia. replace (Z.lor (h * 2 ^ 4) l) with (16 * h + l) by lia. unfold wrapu.
  rewrite Z.mod_small; lia.
Qed.

Lemma byte_nibbles b : is_byte b = true ->
  0 <= Z.shiftr b 4 < 16 /\ 0 <= Z.land b 15 < 16 /\ b = 16 * Z.shiftr b 4 + Z.land b 15.
Proof.
  unfold is_byte. intros [H1%Z.leb_le H2%Z.leb_le]%andb_true_iff.
  change 15 with (Z.ones 4). rewrite Z.land_ones, Z.shiftr_div_pow2 by lia. change (2 ^ 4) with 16.
  pose proof (Z.div_mod b 16). pose proof (Z.mod_pos_bound b 16).
  assert (b / 16 < 16) by (apply Z.div_lt_upper_bound; lia).
  assert (0 <= b / 16) by (apply Z.div_pos; lia). lia.
Qed.

Lemma hex_length data : Forall (fun b => is_byte b = true) data -> String.length (hex data) = (2 * length data)%nat.
Proof.
  induction 1 as [|b data Hb Hd IH]; [done|]. simpl. rewrite !slength_app, IH.
  destruct (byte_nibbles b Hb) as (Hh & Hl & _).
  destruct (hexDigit_hex_character _ Hh) as (c1 & -> & _).
  destruct (hexDigit_hex_character _ Hl) as (c2 & -> & _). cbn. lia.
Qed.

Lemma fromHex_loop_hex pre data :
  Forall (fun b => is_byte b = true) data ->
  forall index, String.length pre = (index * 2)%nat ->
  fromHex_loop (pre +:+ hex data) index (length data) = inr data.
Proof.
  intros Hd. revert pre. induction Hd as [|b data Hb Hd IH]; intros pre index Hp; [done|].
  destruct (byte_nibbles b Hb) as (Hh & Hl & Heq). simpl hex. simpl length. cbn [fromHex_loop].
  destruct (hexDigit_hex_character _ Hh) as (c1 & E1 & D1).
  destruct (hexDigit_hex_character _ Hl) as (c2 & E2 & D2). rewrite E1, E2.
  replace (index * 2)%nat with (String.length pre + 0)%nat by lia.
  replace (String.length pre + 0 + 1)%nat with (String.length pre + 1)%nat by lia.
  rewrite !sview_get_app. cbn. rewrite D1, D2.
  specialize (IH (pre +:+ String c1 (String c2 EmptyString)) (S index)).
  rewrite sapp_assoc in IH. cbn in IH. rewrite IH by (rewrite slength_app; cbn; lia).
  destruct (byte_of_nibbles _ _ Hh Hl) as (-> & _). by rewrite <- Heq.
Qed.

Lemma fromHex_loop_inr pre rest data n :
  forall index, String.length pre = (index * 2)%nat -> String.length rest = (2 * n)%nat ->
  fromHex_loop (pre +:+ rest) index n = inr data ->
  hex data = smap tolower rest /\ length data = n /\ Forall (fun b => is_byte b = true) data.
Proof.
  revert pre rest data. induction n as [|n IH]; intros pre rest data index Hp Hr H.
  { cbn in H. injection H as <-. by destruct rest. }
  destruct rest as [|c1 [|c2 rest]]; cbn in Hr; try lia. cbn [fromHex_loop] in H.
  replace (index * 2)%nat with (String.length pre + 0)%nat in H by lia.
  replace (String.length pre + 0 + 1)%nat with (String.length pre + 1)%nat in H by lia.
  rewrite !sview_get_app in H. cbn in H.
  destruct (hexDigit c1) as [h|] eqn:D1; [|done]. destruct (hexDigit c2) as [l|] eqn:D2; [|done].
  destruct (fromHex_loop _ _ _) as [e|bytes] eqn:E in H; [done|]. injection H as <-.
  specialize (IH (pre +:+ String c1 (String c2 EmptyString)) rest bytes (S index)).
  rewrite sapp_assoc in IH. cbn in IH. destruct IH as (IH1 & IH2 & IH3); [rewrite slength_app; cbn; lia|lia|done|].
  apply hexDigit_some in D1 as [Hh C1]. apply hexDigit_some in D2 as [Hl C2].
  destruct (byte_of_nibbles h l Hh Hl) as (-> & B1 & B2). simpl. rewrite B1, B2, C1, C2, IH1.
  split; [done|]. split; [by f_equal|]. constructor; [|done].
  unfold is_byte. apply andb_true_iff. rewrite !Z.leb_le. lia.
Qed.

(** The hexadecimal form of a hash reads back as the hash, and whenever a
    text is accepted it is the hash's hexadecimal form up to letter case, with
    32 bytes. *)
Theorem sha256_hex_roundtrip :
  (forall data, length data = sha256_size -> Forall (fun b => is_byte b = true) data ->
     fromHex (hex data) = inr data)
  /\ (forall str data, fromHex str = inr data ->
       hex data = smap tolower str /\ length data = sha256_size /\ Forall (fun b => is_byte b = true) data).
Proof.
  split.
  - intros data Hlen Hd. unfold fromHex. rewrite hex_length by done. rewrite Hlen, decide_False by lia.
    rewrite <- Hlen. by apply (fromHex_loop_hex EmptyString).
  - intros str data. unfold fromHex. case_decide as Hlen; [done|]. intros H.
    apply (fromHex_loop_inr EmptyString str data sha256_size 0 eq_refl); [lia|done].
Qed.

(** A tag splits at its first [:]: the two parts rebuild the tag, the
    namespace never contains a delimiter, and a tag built from a namespace
    without delimiter splits back into its parts. *)
Theorem splitTag_roundtrip :
  (forall str, find_char TAG_NAMESPACE_DELIMTER str = None -> splitTag str = (EmptyString, str))
  /\ (forall str, find_char TAG_NAMESPACE_DELIMTER str <> None ->
        str = fst (splitTag str) +:+ String TAG_NAMESPACE_DELIMTER (snd (splitTag str))
        /\ find_char TAG_NAMESPACE_DELIMTER (fst (splitTag str)) = None)
  /\ (forall ns sub, find_char TAG_NAMESPACE_DELIMTER ns = None ->
        splitTag (ns +:+ String TAG_NAMESPACE_DELIMTER sub) = (ns, sub)).
Proof.
  unfold splitTag. split; [|split].
  - by intros str ->.
  - intros str. destruct (find_char _ str) as [i|] eqn:E; [|done]. intros _.
    apply find_if_some in E as (a & c & b & -> & <- & ->%Ascii.eqb_eq & Ha). cbn.
    rewrite stake_app, sdrop_app. cbn. split; [by destruct b|]. by apply find_if_none.
  - intros ns sub Hns. apply find_if_none in Hns. unfold find_char.
    rewrite find_if_app by done. cbn. rewrite Nat.add_0_r, stake_app, sdrop_app. cbn. by destruct sub.
Qed.
