(* ===== verification/SearchTerms.v ===== *)
(** * The terms of a search: the static functions of
    [httpapi/search/SearchQuery.cpp]

    How the text of a [system:] predicate becomes a typed term (a range, a
    mime list, a nearby record, a hash), how range terms narrow the bounds of
    a predicate, and how terms are rendered to SQL conditions.  Messages and
    SQL are kept as the literal strings of the source; [log::] calls are
    dropped. *)
From S2P Require Import Prelude StringView SortKey.
From Stdlib Require Import Ascii.
From Stdlib Require String.

Abbreviation MimeID := Z (only parsing).
Abbreviation TagID := Z (only parsing).

(** ** Ranges *)

Module Flags.
Definition GreaterThan : Z := 1.
Definition LessThan : Z := 2.
Definition Equal : Z := 4.
Definition Not : Z := 8.
Definition Approximate : Z := 16.
End Flags.

(** [( operation & flag ) != 0] *)
Definition has (operation flag : Z) : bool := negb (Z.land operation flag =? 0).

Record RangeTerm := mkRangeTerm { operation : Z; rvalue : Z }.

Record RangeSearchInfo := mkRange {
  m_active : bool;
  lower : option Z;
  upper : option Z;
  m_unsatisfiable : bool;
  negated : list RangeTerm
}.

Definition RangeSearchInfo_default : RangeSearchInfo := mkRange false None None false [].

Definition impossible (r : RangeSearchInfo) : bool :=
  m_unsatisfiable r ||
  match lower r, upper r with Some l, Some u => u <? l | _, _ => false end.

Definition byteUnitMultiplier (unit_ : string) : result Z :=
  let normalized := drop_trailing "s" (smap tolower (sfilter isalpha unit_)) in
  let named := fun names => bool_decide (normalized ∈ names) in
  let kilo := 1024 in
  if named [""; "b"; "byte"] then Ok 1
  else if named ["k"; "kb"; "kib"; "kilobyte"] then Ok kilo
  else if named ["m"; "mb"; "mib"; "megabyte"] then Ok (kilo * kilo)
  else if named ["g"; "gb"; "gib"; "gigabyte"] then Ok (kilo * kilo * kilo)
  else if named ["t"; "tb"; "tib"; "terabyte"] then Ok (kilo * kilo * kilo * kilo)
  else Throw (invalid_argument ("Unknown filesize unit: '" +:+ unit_ +:+ "'")).

Definition approximate_percent : Z := 15.

(** [std::size_t] arithmetic, every operation wrapped to 64 bits. *)
Definition approximateBand (value : Z) : Z * Z :=
  let delta := wrapu 64 (wrapu 64 (value / 100 * approximate_percent)
                         + wrapu 64 (value mod 100 * approximate_percent) / 100) in
  let ceiling := int64_max in
  (wrapu 64 (value - delta),
   if wrapu 64 (ceiling - delta) <? value then ceiling else wrapu 64 (value + delta)).

Definition whitespace : string := String " " (String (ascii_of_N 9) EmptyString).

Definition trimmed (text : string) : string :=
  match find_first_not_of whitespace text with
  | None => EmptyString
  | Some first =>
      let text := sdrop first text in
      match find_last_not_of whitespace text with
      | Some last => stake (last + 1) text
      | None => text
      end
  end.

Definition set_flag (cond : bool) (flag op : Z) : Z := if cond then Z.lor op flag else op.

Definition parseRangeTerm (tag : string) : result RangeTerm :=
  let is_greater_than := contains ">" tag in
  let is_less_than := contains "<" tag in
  let is_equal_to := contains "=" tag in
  let is_not := contains "!" tag || contains "≠" tag in
  let is_approximate := contains "~" tag || contains "≈" tag in
  let op := set_flag is_approximate Flags.Approximate
    (set_flag is_not Flags.Not
    (set_flag is_equal_to Flags.Equal
    (set_flag is_less_than Flags.LessThan
    (set_flag is_greater_than Flags.GreaterThan 0)))) in
  match find_first_of digits tag, find_last_of digits tag with
  | Some number_start, Some number_end =>
      let number_substr := stake (number_end - number_start + 1) (sdrop number_start tag) in
      match stoull number_substr with
      | Ok (value, _) => Ok (mkRangeTerm op value)
      | Throw (invalid_argument what | out_of_range what | runtime_error what | logic_error what
              | undefined_behaviour what) =>
          Throw (invalid_argument ("Failed to parse number using stoull: " +:+ tag +:+ ": " +:+ what))
      end
  | _, _ => Throw (invalid_argument ("No number found in range search tag: " +:+ tag))
  end.

(** The [raiseLower] and [lowerUpper] lambdas of [narrowRange]. *)
Definition raiseLower (value : Z) (target : RangeSearchInfo) : RangeSearchInfo :=
  mkRange (m_active target)
    (Some (match lower target with Some l => Z.max l value | None => value end))
    (upper target) (m_unsatisfiable target) (negated target).

Definition lowerUpper (value : Z) (target : RangeSearchInfo) : RangeSearchInfo :=
  mkRange (m_active target) (lower target)
    (Some (match upper target with Some u => Z.min u value | None => value end))
    (m_unsatisfiable target) (negated target).

Definition mark_unsatisfiable (target : RangeSearchInfo) : RangeSearchInfo :=
  mkRange (m_active target) (lower target) (upper target) true (negated target).

Definition narrowRange (target : RangeSearchInfo) (term : RangeTerm) : RangeSearchInfo :=
  let target := mkRange true (lower target) (upper target) (m_unsatisfiable target) (negated target) in
  if has (operation term) Flags.Not then
    mkRange true (lower target) (upper target) (m_unsatisfiable target) (negated target ++ [term])
  else
  let is_greater_than := has (operation term) Flags.GreaterThan in
  let is_less_than := has (operation term) Flags.LessThan in
  if has (operation term) Flags.Approximate then
    let '(low, high) := approximateBand (rvalue term) in
    if is_greater_than && negb is_less_than then raiseLower low target
    else if is_less_than && negb is_greater_than then lowerUpper high target
    else lowerUpper high (raiseLower low target)
  else
  let is_inclusive := has (operation term) Flags.Equal || negb (is_greater_than || is_less_than) in
  if is_greater_than then
    if is_inclusive then raiseLower (rvalue term) target
    else if rvalue term =? size_max then mark_unsatisfiable target
    else raiseLower (wrapu 64 (rvalue term + 1)) target
  else if is_less_than then
    if is_inclusive then lowerUpper (rvalue term) target
    else if rvalue term =? 0 then mark_unsatisfiable target
    else lowerUpper (wrapu 64 (rvalue term - 1)) target
  else lowerUpper (rvalue term) (raiseLower (rvalue term) target).

Definition parseRangeSearch (target : RangeSearchInfo) (tag : string) : result RangeSearchInfo :=
  term ← parseRangeTerm tag; Ok (narrowRange target term).

Definition parseFilesizeSearch (target : RangeSearchInfo) (tag : string) : result RangeSearchInfo :=
  term ← parseRangeTerm tag;
  (* parseRangeTerm has found a digit, so this search does too *)
  let unit_start := match find_last_of digits tag with Some n => (n + 1)%nat | None => O end in
  multiplier ← byteUnitMultiplier (sdrop unit_start tag);
  if int64_max / multiplier <? rvalue term then
    Throw (invalid_argument ("Filesize out of range: " +:+ tag))
  else Ok (narrowRange target (mkRangeTerm (operation term) (wrapu 64 (rvalue term * multiplier)))).

Definition renderComparison (expression : string) (op value : Z) : string :=
  let is_greater_than := has op Flags.GreaterThan in
  let is_less_than := has op Flags.LessThan in
  let comparison :=
    if has op Flags.Approximate then
      let '(low, high) := approximateBand value in
      if is_greater_than && negb is_less_than then expression +:+ " >= " +:+ to_string low
      else if is_less_than && negb is_greater_than then expression +:+ " <= " +:+ to_string high
      else expression +:+ " BETWEEN " +:+ to_string low +:+ " AND " +:+ to_string high
    else
      expression +:+ " " +:+ (if is_greater_than then ">" else if is_less_than then "<" else "")
      +:+ (if has op Flags.Equal || negb (is_greater_than || is_less_than) then "=" else "")
      +:+ " " +:+ to_string value in
  if has op Flags.Not then "NOT (" +:+ comparison +:+ ")" else comparison.

(** [for ( item : items ) { if ( !out.empty() ) out += sep; out += item; }] *)
Definition append_separated (sep : string) (items : list string) (out : string) : string :=
  foldl (fun out item => (if sempty out then out else out +:+ sep) +:+ item) out items.

Definition renderBounds (expression : string) (bounds : RangeSearchInfo) : string :=
  if impossible bounds then "FALSE"
  else
    let conjuncts :=
      match lower bounds, upper bounds with
      | Some l, Some u =>
          if l =? u then [expression +:+ " = " +:+ to_string l]
          else [expression +:+ " BETWEEN " +:+ to_string l +:+ " AND " +:+ to_string u]
      | Some l, None => [expression +:+ " >= " +:+ to_string l]
      | None, Some u => [expression +:+ " <= " +:+ to_string u]
      | None, None => []
      end ++ ((fun t => renderComparison expression (operation t) (rvalue t)) <$> negated bounds) in
    match conjuncts with
    | [] => expression +:+ " IS NOT NULL"
    | _ => append_separated " AND " conjuncts EmptyString
    end.

(** ** Mime predicates *)

Record MimeTerm := mkMimeTerm { names : list string; ids : list MimeID; mnegated : bool }.

Definition mime_allowed : string := "abcdefghijklmnopqrstuvwxyz0123456789!#$&^_.+-/".

Definition validateMimeName (name : string) : result () :=
  if decide (255 < String.length name)%nat then
    Throw (invalid_argument "Mime name is longer than 255 characters")
  else match find_first_not_of mime_allowed name with
  | Some _ => Throw (invalid_argument ("Not a mime name: '" +:+ name +:+ "'"))
  | None => Ok tt
  end.

(** One comma-separated value of a mime predicate. *)
Definition mime_value (by_id : bool) (value : string) (term : MimeTerm) : result MimeTerm :=
  if sempty value then Ok term
  else if by_id then
    match stoll value with
    | Ok (id, consumed) =>
        if bool_decide (consumed <> String.length value) || (id <? 0) || (int16_max <? id)
        then Throw (invalid_argument ("Not a mime id: '" +:+ value +:+ "'"))
        else Ok (mkMimeTerm (names term) (ids term ++ [id]) (mnegated term))
    | Throw _ => Throw (invalid_argument ("Not a mime id: '" +:+ value +:+ "'"))
    end
  else
    let name := smap tolower value in
    validateMimeName name ≫= fun _ =>
    Ok (mkMimeTerm (names term ++ [name]) (ids term) (mnegated term)).

(** The [while ( true )] loop; each round drops at least the comma, so the
    length of the text bounds the rounds. *)
Fixpoint mime_loop (fuel : nat) (by_id : bool) (remaining : string) (term : MimeTerm) : result MimeTerm :=
  match fuel with
  | O => Throw (logic_error "mime_loop ran out of fuel")
  | S fuel =>
      let comma := find_char "," remaining in
      term ← mime_value by_id (trimmed (sprefix comma remaining)) term;
      match comma with
      | None => Ok term
      | Some comma => mime_loop fuel by_id (sdrop (comma + 1) remaining) term
      end
  end.

Definition parseMimeSearch (m_mime_terms : list MimeTerm) (arguments : string) (by_id : bool)
    : result (list MimeTerm) :=
  let field := if by_id then "mime_id" else "mime" in
  match find_char "=" arguments with
  | None => Throw (invalid_argument
      ("A " +:+ field +:+ " predicate needs '= <value>', got '" +:+ arguments +:+ "'"))
  | Some equals =>
      let op := stake equals arguments in
      if bool_decide (find_first_of "<>~" op <> None) || contains "≈" op then
        Throw (invalid_argument
          ("A " +:+ field +:+ " predicate supports '=' and '!=' only, got '" +:+ arguments +:+ "'"))
      else
        let remaining := sdrop (equals + 1) arguments in
        term ← mime_loop (S (String.length remaining)) by_id remaining
          (mkMimeTerm [] [] (contains "!" op || contains "≠" op));
        match names term, ids term with
        | [], [] => Throw (invalid_argument ("A " +:+ field +:+ " predicate named no value"))
        | _, _ => Ok (m_mime_terms ++ [term])
        end
  end.

Definition renderMimeTerm (term : MimeTerm) : string :=
  let rendered :=
    match names term with
    | [] => EmptyString
    | ns => "fi.mime_id IN (SELECT pmn.mime_id FROM mime pmn WHERE pmn.name IN ("
        +:+ append_separated "," ((fun n => quote +:+ n +:+ quote) <$> ns) EmptyString +:+ "))"
    end in
  let rendered :=
    match ids term with
    | [] => rendered
    | mime_ids =>
        let by_id := "fi.mime_id IN (" +:+ append_separated "," (to_string <$> mime_ids) EmptyString +:+ ")" in
        if sempty rendered then by_id else rendered +:+ " OR " +:+ by_id
    end in
  if mnegated term then "NOT (" +:+ rendered +:+ ")" else rendered.

Definition describeMimeTerm (term : MimeTerm) : string :=
  let values := append_separated ", " (to_string <$> ids term)
    (append_separated ", " (names term) EmptyString) in
  "system:" +:+ (match names term with [] => "mime_id" | _ => "mime" end) +:+ " "
  +:+ (if mnegated term then "!=" else "=") +:+ " " +:+ values.

(** ** Nearby records *)

Record NearbyTerm := mkNearbyTerm { record_id : Z; distance : Z }.

(** The [readNumber] lambda: the number, and the text after it. *)
Definition readNumber (arguments text what : string) : result (Z * string) :=
  let end_ := find_first_not_of digits text in
  let number := sprefix end_ text in
  if sempty number then
    Throw (invalid_argument ("A nearby predicate needs a " +:+ what +:+ ", got '" +:+ arguments +:+ "'"))
  else
    let text := trimmed (match end_ with None => EmptyString | Some e => sdrop e text end) in
    match stoull number with
    | Ok (v, _) => Ok (v, text)
    | Throw _ =>
        Throw (invalid_argument ("Nearby " +:+ what +:+ " is out of range: '" +:+ number +:+ "'"))
    end.

Definition skip_equals (text : string) : string :=
  if starts_with "=" text then trimmed (sdrop 1 text) else text.

Definition max_distance : Z := 64.

Definition parseNearbySearch (arguments : string) : result NearbyTerm :=
  let remaining := skip_equals (trimmed arguments) in
  '(record, remaining) ← readNumber arguments remaining "record id";
  if (record =? 0) || (int32_max <? record) then
    Throw (invalid_argument ("Not a record id: '" +:+ to_string record +:+ "'"))
  else if sempty remaining then Ok (mkNearbyTerm record 0)
  else if negb (starts_with "distance" remaining) then
    Throw (invalid_argument
      ("A nearby predicate reads '<record id> distance <bits>', got '" +:+ arguments +:+ "'"))
  else
    let remaining := skip_equals (trimmed (sdrop 8 remaining)) in
    '(dist, remaining) ← readNumber arguments remaining "distance";
    if negb (sempty remaining) then
      Throw (invalid_argument ("Trailing text in a nearby predicate: '" +:+ remaining +:+ "'"))
    else if max_distance <? dist then
      Throw (invalid_argument ("A nearby distance is at most 64 bits, got " +:+ to_string dist))
    else Ok (mkNearbyTerm record dist).

Definition renderNearbyTerm (term : NearbyTerm) : string :=
  "EXISTS (SELECT 1 FROM image_metadata pnc, image_metadata pnp"
  +:+ " WHERE pnc.record_id = fi.record_id AND pnp.record_id = " +:+ to_string (record_id term)
  +:+ " AND pnc.phash IS NOT NULL AND pnp.phash IS NOT NULL"
  +:+ " AND (pnc.phash <~> pnp.phash) <= " +:+ to_string (distance term) +:+ ")".

Definition describeNearbyTerm (term : NearbyTerm) : string :=
  "system:nearby " +:+ to_string (record_id term) +:+ " distance " +:+ to_string (distance term).

(** ** Hash predicates *)

Definition parseHashSearch (arguments : string) : result SHA256 :=
  if bool_decide (find_first_of "<>!~" arguments <> None) || contains "≠" arguments || contains "≈" arguments
  then Throw (invalid_argument ("A hash predicate only supports '=', got '" +:+ arguments +:+ "'"))
  else match find_char "=" arguments with
  | None => Throw (invalid_argument ("A hash predicate needs '= <hash>', got '" +:+ arguments +:+ "'"))
  | Some equals =>
      let value := trimmed (sdrop (equals + 1) arguments) in
      if sempty value then Throw (invalid_argument "A hash predicate named no hash")
      else match find_first_of (whitespace +:+ ",") value with
      | Some separator =>
          let tail := sdrop (separator + 1) value in
          match head (filter (fun algorithm => contains algorithm tail = true) ["md5"; "sha1"; "sha512"]) with
          | Some algorithm => Throw (invalid_argument
              ("Only sha256 is stored, so a " +:+ algorithm +:+ " hash cannot be searched"))
          | None => Throw (invalid_argument "Only one hash at a time is supported for now")
          end
      | None =>
          if decide (String.length value <> 64)%nat then
            Throw (invalid_argument ("A sha256 is 64 hex characters, '" +:+ value +:+ "' is "
              +:+ pretty (String.length value)))
          else match fromHex value with
          | inl e => Throw (invalid_argument e)
          | inr hash => Ok hash
          end
      end
  end.

(** ** Wildcards *)

Definition like_escape (c : ascii) : string :=
  if Ascii.eqb c "*" then "%"
  else if char_in "%_\" c then String "\" (String c EmptyString)
  else String c EmptyString.

Fixpoint wildcardToLikePattern (wildcard : string) : string :=
  match wildcard with
  | EmptyString => EmptyString
  | String c wildcard => like_escape c +:+ wildcardToLikePattern wildcard
  end.

Record WildcardGroup := mkWildcardGroup { tag_ids : list TagID; pattern : string }.

Definition appendWildcardGroup (groups : list WildcardGroup) (tags : list TagID) (pat : string)
    : list WildcardGroup := groups ++ [mkWildcardGroup (sort_unique tags) pat].

Definition wildcardLabel (sign : ascii) (group : WildcardGroup) (index : nat) : string :=
  let count := pretty (length (tag_ids group)) in
  if sempty (pattern group) then
    String sign ("wildcard[" +:+ pretty index +:+ "] (" +:+ count +:+ " tags)")
  else String sign ("wildcard:'" +:+ pattern group +:+ "' (" +:+ count +:+ " tags)").

(** [std::ranges::merge] of two sorted vectors. *)
Definition merge_sorted : list Z -> list Z -> list Z := list_merge Z.le.

Definition mergeUnique (target incoming : list Z) : list Z :=
  match target with
  | [] => sort_unique incoming
  | _ => unique_adjacent (merge_sorted (sort_ints target) (sort_ints incoming))
  end.

(** ** What a range term and a set of bounds accept *)

Module RangeSpec.

(** The fifteen per cent either side of [v], rounded down. *)
Definition slack (v : Z) : Z := 15 * v / 100.

(** The values a term accepts, read off its operator flags. *)
Definition base_holds (t : RangeTerm) (x : Z) : bool :=
  let v := rvalue t in
  let gt := has (operation t) Flags.GreaterThan in
  let lt := has (operation t) Flags.LessThan in
  let eq := has (operation t) Flags.Equal in
  if has (operation t) Flags.Approximate then
    let above := v - slack v <=? x in
    let below := x <=? Z.min int64_max (v + slack v) in
    if gt && negb lt then above else if lt && negb gt then below else above && below
  else if gt then (if eq then v <=? x else v <? x)
  else if lt then (if eq then x <=? v else x <? v)
  else x =? v.

Definition holds (x : Z) (t : RangeTerm) : bool :=
  if has (operation t) Flags.Not then negb (base_holds t x) else base_holds t x.

Definition within (r : RangeSearchInfo) (x : Z) : bool :=
  negb (m_unsatisfiable r)
  && match lower r with Some l => l <=? x | None => true end
  && match upper r with Some u => x <=? u | None => true end.

Definition accepts (r : RangeSearchInfo) (x : Z) : bool :=
  within r x && forallb (holds x) (negated r).

Definition is_size (v : Z) : Prop := 0 <= v <= size_max.

Lemma slack_split v : 0 <= v -> v / 100 * 15 + v mod 100 * 15 / 100 = slack v.
Proof.
  intros Hv. unfold slack. rewrite (Z.div_mod v 100) at 3 by lia.
  replace (15 * (100 * (v / 100) + v mod 100)) with (v mod 100 * 15 + v / 100 * 15 * 100) by ring.
  rewrite Z.div_add by lia. ring.
Qed.

Lemma slack_bounds v : 0 <= v -> 0 <= slack v <= v /\ 100 * slack v <= 15 * v.
Proof.
  intros Hv. unfold slack. pose proof (Z.div_mod (15 * v) 100 ltac:(lia)).
  pose proof (Z.mod_pos_bound (15 * v) 100 ltac:(lia)). lia.
Qed.

Lemma approximateBand_exact v :
  is_size v -> approximateBand v = (v - slack v, Z.min int64_max (v + slack v)).
Proof.
  unfold is_size. intros Hv. pose proof (slack_bounds v ltac:(lia)) as Hs.
  pose proof (slack_split v ltac:(lia)) as Heq.
  assert (0 <= v / 100 * 15) by (apply Z.mul_nonneg_nonneg; [apply Z.div_pos|]; lia).
  assert (Hm : 0 <= v mod 100 < 100) by (apply Z.mod_pos_bound; lia).
  assert (0 <= v mod 100 * 15 / 100) by (apply Z.div_pos; lia).
  assert (Hd : wrapu 64 (wrapu 64 (v / 100 * approximate_percent)
      + wrapu 64 (v mod 100 * approximate_percent) / 100) = slack v).
  { unfold wrapu, approximate_percent, size_max in *.
    rewrite (Z.mod_small (v / 100 * 15)), (Z.mod_small (v mod 100 * 15)), Heq by lia.
    apply Z.mod_small. lia. }
  unfold approximateBand. rewrite Hd. unfold wrapu, int64_max, size_max in *.
  rewrite (Z.mod_small (v - slack v)), (Z.mod_small (2 ^ 63 - 1 - slack v)) by lia.
  f_equal. destruct (Z.ltb_spec (2 ^ 63 - 1 - slack v) v); [lia|].
  rewrite Z.mod_small by lia. lia.
Qed.

Lemma within_raiseLower v r x : within (raiseLower v r) x = within r x && (v <=? x).
Proof.
  unfold within, raiseLower. cbn. destruct (m_unsatisfiable r), (lower r) as [l|]; cbn; try done.
  - replace (Z.max l v <=? x) with ((l <=? x) && (v <=? x)) by lia.
    destruct (l <=? x), (v <=? x), (upper r); cbn; by rewrite ?andb_true_r, ?andb_false_r.
  - by destruct (v <=? x), (upper r); rewrite ?andb_true_r, ?andb_false_r.
Qed.

Lemma within_lowerUpper v r x : within (lowerUpper v r) x = within r x && (x <=? v).
Proof.
  unfold within, lowerUpper. cbn. destruct (m_unsatisfiable r), (upper r) as [u|]; cbn; try done.
  - replace (x <=? Z.min u v) with ((x <=? u) && (x <=? v)) by lia. by rewrite !andb_assoc.
  - by rewrite andb_true_r.
Qed.

Lemma within_unsatisfiable r x : within (mark_unsatisfiable r) x = false.
Proof. done. Qed.

Lemma negated_narrowRange r t :
  negated (narrowRange r t) = negated r ++ (if has (operation t) Flags.Not then [t] else []).
Proof.
  unfold narrowRange, raiseLower, lowerUpper, mark_unsatisfiable.
  destruct (approximateBand (rvalue t)).
  repeat case_match; cbn; by rewrite ?app_nil_r.
Qed.

Lemma within_narrowRange r t x :
  is_size (rvalue t) -> is_size x -> has (operation t) Flags.Not = false ->
  within (narrowRange r t) x = within r x && base_holds t x.
Proof.
  intros Hv Hx Hnot. unfold narrowRange, base_holds. rewrite Hnot, approximateBand_exact by done.
  set (r' := mkRange true _ _ _ _).
  assert (Hr : within r x = within r' x) by done. rewrite Hr. clearbody r'.
  unfold is_size, wrapu, size_max in *.
  destruct (has (operation t) Flags.Approximate); [|destruct (has (operation t) Flags.Equal)];
    destruct (has (operation t) Flags.GreaterThan), (has (operation t) Flags.LessThan); cbn;
    rewrite ?within_lowerUpper, ?within_raiseLower, <- ?andb_assoc; try done;
    try (f_equal; lia).
  all: case_match; rewrite ?within_unsatisfiable, ?within_lowerUpper, ?within_raiseLower;
    try (rewrite Z.mod_small by lia); try (f_equal; lia).
  all: symmetry; apply andb_false_iff; right; lia.
Qed.

Lemma within_narrowRange_not r t x :
  has (operation t) Flags.Not = true -> within (narrowRange r t) x = within r x.
Proof. intros Hnot. unfold narrowRange. by rewrite Hnot. Qed.

(** Narrowing by a term keeps exactly the values that satisfied the bounds
    and satisfy the term. *)
Lemma accepts_narrowRange r t x :
  is_size (rvalue t) -> is_size x ->
  accepts (narrowRange r t) x = accepts r x && holds x t.
Proof.
  intros Hv Hx. unfold accepts. rewrite negated_narrowRange, forallb_app.
  destruct (has (operation t) Flags.Not) eqn:Hnot.
  - rewrite within_narrowRange_not by done. cbn. by rewrite andb_true_r, andb_assoc.
  - rewrite within_narrowRange by done.
    replace (holds x t) with (base_holds t x) by (unfold holds; by rewrite Hnot).
    cbn. rewrite ?andb_true_r.
    by destruct (within r x), (base_holds t x), (forallb (holds x) (negated r)).
Qed.

Lemma accepts_foldl r ts x :
  Forall (fun t => is_size (rvalue t)) ts -> is_size x ->
  accepts (foldl narrowRange r ts) x = accepts r x && forallb (holds x) ts.
Proof.
  intros Hts Hx. revert r. induction Hts as [|t ts Ht Hts IH]; intros r; cbn; [by rewrite andb_true_r|].
  by rewrite IH, accepts_narrowRange, andb_assoc.
Qed.

Lemma impossible_accepts r x : impossible r = true -> accepts r x = false.
Proof.
  unfold impossible, accepts, within. destruct (m_unsatisfiable r); [done|].
  destruct (lower r) as [l|]; [|done]. destruct (upper r) as [u|]; [|done]. cbn. intros H.
  destruct (l <=? x) eqn:E1; [|done]. destruct (x <=? u) eqn:E2; [|done]. lia.
Qed.

(** *** The rendered condition, as a tree with its SQL meaning *)

Inductive Atom : Type :=
| AEq (v : Z) | ABetween (l u : Z) | AGe (v : Z) | ALe (v : Z)
| ACmp (gt lt eq : bool) (v : Z)
| ANot (a : Atom).

Inductive Cond : Type :=
| CFalse
| CNotNull
| CAnd (atoms : list Atom).

Fixpoint atom_text (e : string) (a : Atom) : string :=
  match a with
  | AEq v => e +:+ " = " +:+ to_string v
  | ABetween l u => e +:+ " BETWEEN " +:+ to_string l +:+ " AND " +:+ to_string u
  | AGe v => e +:+ " >= " +:+ to_string v
  | ALe v => e +:+ " <= " +:+ to_string v
  | ACmp gt lt eq v =>
      e +:+ " " +:+ (if gt then ">" else if lt then "<" else "")
      +:+ (if eq then "=" else "") +:+ " " +:+ to_string v
  | ANot a => "NOT (" +:+ atom_text e a +:+ ")"
  end.

Definition cond_text (e : string) (c : Cond) : string :=
  match c with
  | CFalse => "FALSE"
  | CNotNull => e +:+ " IS NOT NULL"
  | CAnd atoms => append_separated " AND " (atom_text e <$> atoms) EmptyString
  end.

(** Three-valued SQL: [None] is NULL, for the column and for the verdict. *)
Fixpoint atom_eval (a : Atom) (column : option Z) : option bool :=
  match a with
  | ANot a => negb <$> atom_eval a column
  | AEq v => (fun x => x =? v) <$> column
  | ABetween l u => (fun x => (l <=? x) && (x <=? u)) <$> column
  | AGe v => (fun x => v <=? x) <$> column
  | ALe v => (fun x => x <=? v) <$> column
  | ACmp gt lt eq v => (fun x =>
      if gt then (if eq then v <=? x else v <? x)
      else if lt then (if eq then x <=? v else x <? v)
      else x =? v) <$> column
  end.

Definition sql_and (a b : option bool) : option bool :=
  match a, b with
  | Some false, _ | _, Some false => Some false
  | Some true, Some true => Some true
  | _, _ => None
  end.

Definition cond_eval (c : Cond) (column : option Z) : option bool :=
  match c with
  | CFalse => Some false
  | CNotNull => Some (match column with Some _ => true | None => false end)
  | CAnd atoms => foldr (fun a acc => sql_and (atom_eval a column) acc) (Some true) atoms
  end.

(** A WHERE clause keeps a row when its condition is true. *)
Definition selects (c : Cond) (column : option Z) : bool :=
  match cond_eval c column with Some true => true | _ => false end.

Definition comparison_atom (t : RangeTerm) : Atom :=
  let gt := has (operation t) Flags.GreaterThan in
  let lt := has (operation t) Flags.LessThan in
  let base :=
    if has (operation t) Flags.Approximate then
      let '(low, high) := approximateBand (rvalue t) in
      if gt && negb lt then AGe low else if lt && negb gt then ALe high else ABetween low high
    else ACmp gt lt (has (operation t) Flags.Equal || negb (gt || lt)) (rvalue t) in
  if has (operation t) Flags.Not then ANot base else base.

Definition bounds_atoms (r : RangeSearchInfo) : list Atom :=
  match lower r, upper r with
  | Some l, Some u => if l =? u then [AEq l] else [ABetween l u]
  | Some l, None => [AGe l]
  | None, Some u => [ALe u]
  | None, None => []
  end ++ (comparison_atom <$> negated r).

Definition bounds_cond (r : RangeSearchInfo) : Cond :=
  if impossible r then CFalse
  else match bounds_atoms r with [] => CNotNull | atoms => CAnd atoms end.

Lemma renderComparison_text e t :
  renderComparison e (operation t) (rvalue t) = atom_text e (comparison_atom t).
Proof.
  unfold renderComparison, comparison_atom. destruct (approximateBand (rvalue t)) as [low high].
  destruct (has (operation t) Flags.Approximate), (has (operation t) Flags.GreaterThan), (has (operation t) Flags.LessThan),
    (has (operation t) Flags.Not); done.
Qed.

Lemma renderComparison_texts e (ts : list RangeTerm) :
  (fun t => renderComparison e (operation t) (rvalue t)) <$> ts = atom_text e <$> (comparison_atom <$> ts).
Proof. induction ts as [|t ts IH]; [done|]. cbn. by rewrite renderComparison_text, IH. Qed.

Lemma renderBounds_text e r : renderBounds e r = cond_text e (bounds_cond r).
Proof.
  unfold renderBounds, bounds_cond. destruct (impossible r); [done|].
  unfold bounds_atoms. rewrite renderComparison_texts.
  destruct (lower r) as [l|], (upper r) as [u|]; [destruct (l =? u)|..]; try done.
  by destruct (negated r).
Qed.

Lemma comparison_atom_eval t x :
  is_size (rvalue t) -> atom_eval (comparison_atom t) (Some x) = Some (holds x t).
Proof.
  intros Hv. unfold comparison_atom, holds, base_holds. rewrite approximateBand_exact by done.
  destruct (has (operation t) Flags.Approximate), (has (operation t) Flags.GreaterThan), (has (operation t) Flags.LessThan),
    (has (operation t) Flags.Not), (has (operation t) Flags.Equal); done.
Qed.

Lemma comparison_atom_null t : atom_eval (comparison_atom t) None = None.
Proof.
  unfold comparison_atom. destruct (approximateBand (rvalue t)) as [low high].
  destruct (has (operation t) Flags.Approximate), (has (operation t) Flags.GreaterThan), (has (operation t) Flags.LessThan),
    (has (operation t) Flags.Not); done.
Qed.

Lemma atoms_eval_some atoms x (f : Atom -> bool) :
  (forall a, a ∈ atoms -> atom_eval a (Some x) = Some (f a)) ->
  cond_eval (CAnd atoms) (Some x) = Some (forallb f atoms).
Proof.
  induction atoms as [|a atoms IH]; intros H; [done|]. cbn in *.
  rewrite H by constructor. rewrite IH by (intros; apply H; by constructor).
  by destruct (f a), (forallb f atoms).
Qed.

Lemma bounds_cond_selects r x :
  Forall (fun t => is_size (rvalue t)) (negated r) -> selects (bounds_cond r) (Some x) = accepts r x.
Proof.
  intros Hn. unfold bounds_cond. destruct (impossible r) eqn:Himp.
  { by rewrite (impossible_accepts _ _ Himp). }
  assert (Hc : cond_eval (CAnd (bounds_atoms r)) (Some x) = Some (accepts r x)).
  { rewrite (atoms_eval_some _ _ (fun a => default false (atom_eval a (Some x)))).
    - f_equal. unfold bounds_atoms, accepts. rewrite forallb_app.
      unfold impossible in Himp. apply orb_false_iff in Himp as [Hu Hlu]. f_equal.
      + unfold within. rewrite Hu. destruct (lower r) as [l|], (upper r) as [u|]; cbn; rewrite ?andb_true_r; try done.
        destruct (Z.eqb_spec l u); cbn; rewrite andb_true_r; lia.
      + induction Hn as [|t ts Ht Hts IH]; [done|]. cbn. by rewrite comparison_atom_eval, IH.
    - intros a Ha. unfold bounds_atoms in Ha. apply elem_of_app in Ha as [Ha|Ha].
      + destruct (lower r), (upper r); [case_match|..]; apply list_elem_of_singleton in Ha as -> || (by apply elem_of_nil in Ha); done.
      + apply list_elem_of_fmap in Ha as (t & -> & Ht). rewrite Forall_forall in Hn.
        by rewrite comparison_atom_eval by (by apply Hn). }
  unfold selects. destruct (bounds_atoms r) as [|a atoms] eqn:E.
  - cbn in Hc. injection Hc as <-. done.
  - rewrite Hc. by destruct (accepts r x).
Qed.

Lemma atoms_null atoms : atoms <> [] -> Forall (fun a => atom_eval a None = None) atoms ->
  cond_eval (CAnd atoms) None = None.
Proof.
  intros Hne Hf. induction Hf as [|a atoms Ha Hf IH]; [done|]. cbn. rewrite Ha.
  destruct atoms; [done|]. cbn in *. by rewrite IH.
Qed.

Lemma bounds_cond_null r : selects (bounds_cond r) None = false.
Proof.
  unfold bounds_cond. destruct (impossible r); [done|]. unfold selects.
  destruct (bounds_atoms r) as [|a atoms] eqn:E; [done|]. rewrite <- E.
  rewrite atoms_null; [done|by rewrite E|].
  unfold bounds_atoms. apply Forall_app. split.
  - destruct (lower r), (upper r); [case_match|..]; repeat constructor.
  - apply Forall_fmap, Forall_true, comparison_atom_null.
Qed.

Lemma negated_foldl_size r ts :
  Forall (fun t => is_size (rvalue t)) (negated r) -> Forall (fun t => is_size (rvalue t)) ts ->
  Forall (fun t => is_size (rvalue t)) (negated (foldl narrowRange r ts)).
Proof.
  intros Hr Hts. revert r Hr. induction Hts as [|t ts Ht Hts IH]; intros r Hr; [done|]. cbn.
  apply IH. rewrite negated_narrowRange. apply Forall_app. split; [done|].
  destruct (has _ _); auto.
Qed.
End RangeSpec.

(** For every 64-bit value the approximate band is exactly fifteen per
    cent (rounded down) either side, the upper end capped at the largest
    database integer; no step of the computation wraps. *)
Theorem approximateBand_fifteen_percent (v : Z) :
  0 <= v <= size_max ->
  approximateBand v = (v - 15 * v / 100, Z.min int64_max (v + 15 * v / 100)).
Proof. apply RangeSpec.approximateBand_exact. Qed.

Lemma approximateBand_fifteen_percent_witness : approximateBand size_max = (15679732462653118873, 2 ^ 63 - 1).
Proof. rewrite (approximateBand_fifteen_percent size_max); [vm_compute; reflexivity|vm_compute; split; discriminate]. Defined.

(** C5: the SQL condition built from a list of range terms (narrowed one after
    the other, then rendered) is the text of a condition that selects a
    non-NULL column value exactly when every term holds of it, and never
    selects a NULL. *)
Theorem range_terms_render_their_conjunction (expression : string) (ts : list RangeTerm) :
  Forall (fun t => RangeSpec.is_size (rvalue t)) ts ->
  exists c,
    renderBounds expression (foldl narrowRange RangeSearchInfo_default ts) = RangeSpec.cond_text expression c
    /\ (forall x, RangeSpec.is_size x -> RangeSpec.selects c (Some x) = forallb (RangeSpec.holds x) ts)
    /\ RangeSpec.selects c None = false.
Proof.
  intros Hts. exists (RangeSpec.bounds_cond (foldl narrowRange RangeSearchInfo_default ts)).
  split; [apply RangeSpec.renderBounds_text|]. split; [|apply RangeSpec.bounds_cond_null].
  intros x Hx. rewrite RangeSpec.bounds_cond_selects by (by apply RangeSpec.negated_foldl_size).
  by rewrite RangeSpec.accepts_foldl.
Qed.

(** [width >= 10], [width < 20] and [width != 15]. *)
Lemma range_terms_render_their_conjunction_witness :
  exists c, renderBounds "w" (foldl narrowRange RangeSearchInfo_default
      [mkRangeTerm 5 10; mkRangeTerm 2 20; mkRangeTerm 12 15]) = RangeSpec.cond_text "w" c
    /\ RangeSpec.selects c (Some 14) = true /\ RangeSpec.selects c (Some 15) = false.
Proof.
  destruct (range_terms_render_their_conjunction "w" [mkRangeTerm 5 10; mkRangeTerm 2 20; mkRangeTerm 12 15])
    as (c & H1 & H2 & _).
  - repeat constructor; vm_compute; discriminate.
  - exists c. split; [exact H1|].
    split; rewrite H2; first [reflexivity | (split; vm_compute; discriminate)].
Defined.

(** *** Reading a range term *)

Module RangeText.

(** The operators as they are typed, with the flags they stand for. *)
Definition symbols : list (string * Z) :=
  [("=", 4); (">", 1); (">=", 5); ("<", 2); ("<=", 6); ("!=", 12); ("≠", 8); ("≈", 16); ("~=", 20)].

(** A character a predicate's name is made of: no digit, no operator. *)
Definition plain (c : ascii) : bool :=
  negb (is_digit c) && negb (char_in "><=!~≠≈" c).

Lemma digit_char_in c : char_in digits c = is_digit c.
Proof. by destruct c as [[][][][][][][][]]. Qed.

Lemma contains_app_none c sub s t :
  sforall (fun d => negb (Ascii.eqb c d)) s = true ->
  contains (String c sub) (s +:+ t) = contains (String c sub) t.
Proof.
  induction s as [|d s IH]; [done|]. cbn. intros [Hd Hs]%andb_true_iff.
  rewrite IH by done. by destruct (Ascii.eqb c d).
Qed.

Lemma plain_lacks d s : char_in "><=!~≠≈" d = true -> sforall plain s = true ->
  sforall (fun c => negb (Ascii.eqb d c)) s = true.
Proof.
  intros Hd. apply sforall_impl. intros c [_ Hc]%andb_true_iff.
  destruct (Ascii.eqb_spec d c) as [->|]; [|done]. by rewrite Hd in Hc.
Qed.

Lemma digits_lack d s : is_digit d = false -> sforall is_digit s = true ->
  sforall (fun c => negb (Ascii.eqb d c)) s = true.
Proof.
  intros Hd. apply sforall_impl. intros c Hc.
  destruct (Ascii.eqb_spec d c) as [->|]; [|done]. congruence.
Qed.

Lemma find_first_digit a c b :
  sforall (fun c => negb (is_digit c)) a = true -> is_digit c = true ->
  find_first_of digits (a +:+ String c b) = Some (String.length a).
Proof.
  intros Ha Hc. unfold find_first_of. rewrite find_if_app.
  - cbn [sview_find_if]. rewrite digit_char_in, Hc. cbn. f_equal. lia.
  - revert Ha. apply sforall_impl. intros d. by rewrite digit_char_in.
Qed.

Lemma split_last s c : exists t d, String c s = t +:+ String d EmptyString.
Proof.
  revert c. induction s as [|e s IH]; intros c; [by exists EmptyString, c|].
  destruct (IH e) as (t & d & ->). by exists (String c t), d.
Qed.

(** The number [parseRangeTerm] cuts out of text whose only digits are those
    of a number. *)
Lemma number_cut a z b :
  0 <= z -> sforall (fun c => negb (is_digit c)) a = true -> sforall (fun c => negb (is_digit c)) b = true ->
  exists first last, find_first_of digits (a +:+ to_string z +:+ b) = Some first
    /\ find_last_of digits (a +:+ to_string z +:+ b) = Some last
    /\ stake (last - first + 1) (sdrop first (a +:+ to_string z +:+ b)) = to_string z
    /\ sdrop (last + 1) (a +:+ to_string z +:+ b) = b.
Proof.
  intros Hz Ha Hb. destruct (to_string_nonempty z Hz) as (c & s & Hs & Hc).
  destruct (split_last s c) as (t & d & Ht).
  pose proof (to_string_digits z Hz) as Hd. rewrite Hs in *.
  exists (String.length a), (String.length (a +:+ t)). split_and!.
  - by apply find_first_digit.
  - rewrite Ht, sapp_assoc, <- (sapp_assoc a). unfold find_last_of. cbn. apply find_last_if_app.
    + rewrite digit_char_in. rewrite Ht, sforall_app in Hd. apply andb_true_iff in Hd as [_ Hd].
      cbn in Hd. by rewrite andb_true_r in Hd.
    + revert Hb. apply sforall_impl. intros e. by rewrite digit_char_in.
  - rewrite sdrop_app_exact.
    replace (String.length (a +:+ t) - String.length a + 1)%nat with (String.length (String c s)).
    { apply stake_app. }
    rewrite Ht, !slength_app. cbn. lia.
  - replace (String.length (a +:+ t) + 1)%nat with (String.length (a +:+ String c s)).
    { by rewrite <- sapp_assoc, sdrop_app_exact. }
    rewrite Ht, !slength_app. cbn. lia.
Qed.
End RangeText.

(** Decides [contains] on text that is plain, then an operator, then digits. *)
Ltac contains_cbn :=
  repeat first
    [ rewrite RangeText.contains_app_none by (apply RangeText.plain_lacks; [reflexivity|assumption])
    | rewrite contains_none by (apply RangeText.digits_lack; [reflexivity|by apply to_string_digits])
    | progress cbn [contains starts_with Ascii.eqb Bool.eqb andb orb String.append] ].

(** A range predicate reads back as written: for a name without digits or
    operator characters, one of the typed operators and a number, the parsed
    term has the operator's flags and the number when it fits 64 bits, and
    parsing throws when it does not. *)
Theorem parseRangeTerm_reads_text (name sym : string) (flags v : Z) :
  sforall RangeText.plain name = true -> (sym, flags) ∈ RangeText.symbols -> 0 <= v ->
  let tag := name +:+ " " +:+ sym +:+ " " +:+ to_string v in
  parseRangeTerm tag =
    if v <=? size_max then Ok (mkRangeTerm flags v)
    else Throw (invalid_argument ("Failed to parse number using stoull: " +:+ tag +:+ ": stoull")).
Proof.
  intros Hname Hsym Hv tag.
  assert (Hnd : sforall (fun c => negb (is_digit c)) name = true).
  { revert Hname. apply sforall_impl. intros c [H _]%andb_true_iff. done. }
  destruct (RangeText.number_cut (name +:+ " " +:+ sym +:+ " ") v EmptyString) as (first & last & H1 & H2 & H3 & _);
    [done| |done|].
  { rewrite !sforall_app, Hnd. unfold RangeText.symbols in Hsym. rewrite !elem_of_cons, elem_of_nil in Hsym.
    by repeat destruct Hsym as [[= -> ->]|Hsym]. }
  rewrite sapp_nil, !sapp_assoc in *. fold tag in H1, H2, H3.
  assert (Hst : stoull (to_string v) = if v <=? size_max then Ok (v, String.length (to_string v))
      else Throw (out_of_range "stoull")).
  { rewrite <- (sapp_nil (to_string v)) at 1. destruct (Z.leb_spec v size_max).
    - by apply stoull_to_string.
    - by apply stoull_overflow. }
  unfold parseRangeTerm. rewrite H1, H2, H3, Hst. destruct (v <=? size_max); [|done].
  f_equal. f_equal. subst tag. clear H1 H2 H3 Hst.
  unfold RangeText.symbols in Hsym. rewrite !elem_of_cons, elem_of_nil in Hsym.
  repeat destruct Hsym as [[= -> ->]|Hsym]; try done; contains_cbn; reflexivity.
Qed.

Lemma parseRangeTerm_reads_text_witness :
  parseRangeTerm "number of tags ≠ 12" = Ok (mkRangeTerm 8 12).
Proof.
  apply (parseRangeTerm_reads_text "number of tags" "≠" 8 12); [reflexivity| |lia].
  apply (bool_decide_unpack _). vm_compute. reflexivity.
Defined.

(** A filesize term that was accepted: its multiplication did not wrap. *)
Lemma byteUnitMultiplier_positive unit_ m : byteUnitMultiplier unit_ = Ok m -> 0 < m <= 2 ^ 40.
Proof. unfold byteUnitMultiplier. intros H. repeat case_match; simplify_eq; lia. Qed.

Lemma stoull_range s v n : stoull s = Ok (v, n) -> 0 <= v <= size_max.
Proof.
  unfold stoull. destruct (read_number s) as [[[neg w] m]|]; [|done].
  destruct (size_max <? w); [done|]. intros [= <- _]. unfold wrapu, size_max.
  pose proof (Z.mod_pos_bound (if neg then - w else w) (2 ^ 64) ltac:(lia)). lia.
Qed.

Lemma parseRangeTerm_range tag t : parseRangeTerm tag = Ok t -> 0 <= rvalue t <= size_max.
Proof.
  unfold parseRangeTerm. intros H. repeat case_match; simplify_eq/=. eapply stoull_range; eassumption.
Qed.

(** A filesize predicate multiplies its number by its unit without ever
    wrapping: it narrows the bounds by the exact product when the product is
    a database integer, and throws otherwise. *)
Theorem parseFilesizeSearch_exact (target : RangeSearchInfo) (tag : string) (t : RangeTerm) (m : Z) :
  parseRangeTerm tag = Ok t ->
  byteUnitMultiplier (sdrop (match find_last_of digits tag with Some n => n + 1 | None => 0 end)%nat tag) = Ok m ->
  parseFilesizeSearch target tag =
    if rvalue t * m <=? int64_max
    then Ok (narrowRange target (mkRangeTerm (operation t) (rvalue t * m)))
    else Throw (invalid_argument ("Filesize out of range: " +:+ tag)).
Proof.
  intros Ht Hm. unfold parseFilesizeSearch. rewrite Ht. cbn. rewrite Hm. cbn.
  apply byteUnitMultiplier_positive in Hm. apply parseRangeTerm_range in Ht.
  assert (Hiff : (int64_max / m <? rvalue t) = negb (rvalue t * m <=? int64_max)).
  { destruct (Z.leb_spec (rvalue t * m) int64_max) as [H|H]; cbn.
    - apply Z.ltb_ge. apply Z.div_le_lower_bound; lia.
    - apply Z.ltb_lt. apply Z.div_lt_upper_bound; lia. }
  rewrite Hiff. destruct (Z.leb_spec (rvalue t * m) int64_max) as [H|H]; cbn; [|done].
  unfold wrapu, int64_max in *. rewrite Z.mod_small; [done|]. split; [apply Z.mul_nonneg_nonneg|]; lia.
Qed.

Lemma parseFilesizeSearch_exact_witness :
  parseFilesizeSearch RangeSearchInfo_default "filesize <= 2 MiB"
    = Ok (mkRange true None (Some 2097152) false []).
Proof.
  rewrite (parseFilesizeSearch_exact _ "filesize <= 2 MiB" (mkRangeTerm 6 2) 1048576);
    vm_compute; reflexivity.
Defined.

(** A decimal fraction in a filesize is
    read only up to its point, because the position [std::stoull] stopped at
    is not checked. *)
Lemma filesize_fraction_truncated :
  parseFilesizeSearch RangeSearchInfo_default "filesize = 1.5 mb"
  = parseFilesizeSearch RangeSearchInfo_default "filesize = 1 mb".
Proof. vm_compute. reflexivity. Qed.

(** *** Mime predicates never break out of their quotes *)

Module MimeSpec.

(** The single-quoted literals of an SQL text, in order; [None] when a quote
    is left open.  A doubled quote inside a literal is an escaped quote. *)
Fixpoint literals (open : option string) (s : string) : option (list string) :=
  match s with
  | EmptyString => match open with None => Some [] | Some _ => None end
  | String c s' =>
      match open with
      | None => if Ascii.eqb c (ascii_of_N 39) then literals (Some EmptyString) s' else literals None s'
      | Some acc =>
          if Ascii.eqb c (ascii_of_N 39) then
            match s' with
            | String d s'' =>
                if Ascii.eqb d (ascii_of_N 39)
                then literals (Some (acc +:+ String (ascii_of_N 39) EmptyString)) s''
                else cons acc <$> literals None s'
            | EmptyString => Some [acc]
            end
          else literals (Some (acc +:+ String c EmptyString)) s'
      end
  end.

Definition no_quote (c : ascii) : bool := negb (Ascii.eqb c (ascii_of_N 39)).

Lemma literals_plain s t :
  sforall no_quote s = true -> literals None (s +:+ t) = literals None t.
Proof.
  induction s as [|c s IH]; [done|]. cbn. unfold no_quote at 1. intros [Hc Hs]%andb_true_iff.
  destruct (Ascii.eqb c _); [done|]. by apply IH.
Qed.

Lemma literals_open acc s t :
  sforall no_quote s = true -> literals (Some acc) (s +:+ t) = literals (Some (acc +:+ s)) t.
Proof.
  revert acc. induction s as [|c s IH]; intros acc; [by rewrite sapp_nil|]. cbn. unfold no_quote at 1.
  intros [Hc Hs]%andb_true_iff. destruct (Ascii.eqb c _); [done|]. rewrite IH by done.
  by rewrite sapp_assoc.
Qed.

(** A quoted word, followed by something that is not a quote. *)
Lemma literals_quoted n t :
  sforall no_quote n = true -> sforall no_quote (stake 1 t) = true ->
  literals None (quote +:+ n +:+ quote +:+ t) = cons n <$> literals None t.
Proof.
  intros Hn Ht. cbn. rewrite literals_open by done. cbn.
  destruct t as [|d t]; [done|]. cbn in Ht. rewrite andb_true_r in Ht.
  unfold no_quote in Ht. by destruct (Ascii.eqb d _).
Qed.

Lemma append_separated_cons sep items x out :
  out <> EmptyString -> append_separated sep (x :: items) out = append_separated sep items (out +:+ sep +:+ x).
Proof. intros H. unfold append_separated. cbn. destruct out; [done|]. cbn. by rewrite sapp_assoc. Qed.

Lemma append_separated_out sep items out :
  out <> EmptyString ->
  append_separated sep items out = out +:+ foldr (fun x acc => sep +:+ x +:+ acc) EmptyString items.
Proof.
  revert out. induction items as [|x items IH]; intros out Hout; [by rewrite sapp_nil|].
  rewrite append_separated_cons by done. rewrite IH.
  - cbn. by rewrite !sapp_assoc.
  - destruct out; done.
Qed.

Lemma literals_names ns t :
  Forall (fun n => sforall no_quote n = true) ns -> sforall no_quote (stake 1 t) = true ->
  literals None (foldr (fun x acc => "," +:+ (quote +:+ x +:+ quote) +:+ acc) EmptyString ns +:+ t)
  = (fun l => ns ++ l) <$> literals None t.
Proof.
  intros Hns Ht. induction Hns as [|n ns Hn Hns IH]; cbn [foldr].
  - change (EmptyString +:+ t) with t. by destruct (literals None t).
  - rewrite !sapp_assoc. rewrite (literals_plain ",") by done.
    rewrite literals_quoted; [|done|].
    + rewrite IH. by destruct (literals None t).
    + destruct ns; [done|]. done.
Qed.

Lemma digits_no_quote z : sforall no_quote (to_string z) = true.
Proof.
  assert (Hd : forall z, 0 <= z -> sforall no_quote (to_string z) = true).
  { intros y Hy. generalize (to_string_digits y Hy). apply sforall_impl. by intros [[][][][][][][][]]. }
  destruct z as [|p|p]; [by apply Hd|by apply Hd|].
  change (to_string (Z.neg p)) with ("-" +:+ to_string (Z.pos p)). rewrite sforall_app. by rewrite Hd.
Qed.

Lemma ids_no_quote (l : list Z) : sforall no_quote (append_separated "," (to_string <$> l) EmptyString) = true.
Proof.
  assert (Hg : forall out, sforall no_quote out = true ->
    sforall no_quote (append_separated "," (to_string <$> l) out) = true).
  { induction l as [|i l IH]; intros out Hout; [done|]. unfold append_separated in *. cbn.
    apply IH. rewrite sforall_app. destruct (sempty out); rewrite ?sforall_app, ?Hout; cbn; apply digits_no_quote. }
  by apply Hg.
Qed.

Lemma literals_done s : sforall no_quote s = true -> literals None s = Some [].
Proof. intros H. rewrite <- (sapp_nil s). by rewrite literals_plain. Qed.

(** The rendered text before the optional negation. *)
Definition body (term : MimeTerm) : string :=
  let by_name := "fi.mime_id IN (SELECT pmn.mime_id FROM mime pmn WHERE pmn.name IN ("
        +:+ append_separated "," ((fun n => quote +:+ n +:+ quote) <$> names term) EmptyString +:+ "))" in
  let by_id := "fi.mime_id IN (" +:+ append_separated "," (to_string <$> ids term) EmptyString +:+ ")" in
  match names term, ids term with
  | [], [] => EmptyString
  | [], _ => by_id
  | _, [] => by_name
  | _, _ => by_name +:+ " OR " +:+ by_id
  end.

Lemma renderMimeTerm_body term :
  renderMimeTerm term = if mnegated term then "NOT (" +:+ body term +:+ ")" else body term.
Proof. unfold renderMimeTerm, body. by destruct (names term), (ids term). Qed.

Lemma literals_by_name ns t :
  ns <> [] -> Forall (fun n => sforall no_quote n = true) ns -> sforall no_quote t = true ->
  literals None (append_separated "," ((fun n => quote +:+ n +:+ quote) <$> ns) EmptyString +:+ String ")" t)
  = Some ns.
Proof.
  intros Hne Hns Ht. destruct ns as [|n ns]; [done|]. apply Forall_cons in Hns as [Hn Hns].
  change (append_separated "," ((fun n => quote +:+ n +:+ quote) <$> n :: ns) EmptyString)
    with (append_separated "," ((fun n => quote +:+ n +:+ quote) <$> ns) (quote +:+ n +:+ quote)).
  rewrite append_separated_out by done. rewrite !sapp_assoc.
  rewrite literals_quoted; [|done|by destruct ns].
  assert (Hfold : foldr (fun x acc => "," +:+ x +:+ acc) EmptyString ((fun n => quote +:+ n +:+ quote) <$> ns)
    = foldr (fun x acc => "," +:+ (quote +:+ x +:+ quote) +:+ acc) EmptyString ns).
  { clear. induction ns as [|m ns IH]; [done|]. cbn [fmap list_fmap foldr]. by rewrite IH. }
  rewrite Hfold, literals_names by done. rewrite literals_done by done. cbn. by rewrite app_nil_r.
Qed.

Lemma literals_body term t :
  Forall (fun n => sforall no_quote n = true) (names term) -> sforall no_quote t = true ->
  literals None (body term +:+ t) = Some (names term).
Proof.
  intros Hn Ht. unfold body. destruct (names term) as [|n ns] eqn:En; [|destruct (ids term) as [|i is'] eqn:Ei].
  - apply literals_done. rewrite sforall_app, Ht, andb_true_r.
    destruct (ids term) as [|i l]; [done|]. by rewrite !sforall_app, ids_no_quote.
  - rewrite !sapp_assoc, literals_plain by done. apply literals_by_name; [done..|]. done.
  - rewrite !sapp_assoc, literals_plain by done. apply literals_by_name; [done..|].
    cbn [sforall]. rewrite !sforall_app, ids_no_quote, Ht. done.
Qed.

Lemma allowed_no_quote s : find_first_not_of mime_allowed s = None -> sforall no_quote s = true.
Proof.
  intros H%find_if_none. revert H. apply sforall_impl. intros c. rewrite negb_involutive.
  unfold no_quote. destruct (Ascii.eqb_spec c (ascii_of_N 39)) as [->|]; done.
Qed.

Definition names_ok (term : MimeTerm) : Prop :=
  Forall (fun n => find_first_not_of mime_allowed n = None) (names term)
  /\ Forall (fun i => 0 <= i <= int16_max) (ids term).

Lemma mime_value_ok by_id value term term' :
  mime_value by_id value term = Ok term' -> names_ok term -> names_ok term'.
Proof.
  unfold mime_value, validateMimeName. intros H [Hn Hi].
  repeat case_match; simplify_eq/=; split; cbn; rewrite ?Forall_app, ?Forall_singleton; auto.
  split; [done|]. repeat match goal with H : _ || _ = false |- _ => apply orb_false_iff in H as [? ?] end. lia.
Qed.

Lemma mime_loop_ok fuel by_id remaining term term' :
  mime_loop fuel by_id remaining term = Ok term' -> names_ok term -> names_ok term'.
Proof.
  revert remaining term. induction fuel as [|fuel IH]; intros remaining term H Hok; [done|]. cbn in H.
  destruct (mime_value _ _ _) as [t|] eqn:E; [|done]. cbn in H.
  apply mime_value_ok in E; [|done]. case_match; simplify_eq; eauto.
Qed.

Lemma sdrop_length n s : String.length (sdrop n s) = (String.length s - n)%nat.
Proof. revert s. induction n as [|n IH]; intros [|c s]; cbn; rewrite ?IH; lia. Qed.

(** The loop has enough fuel for every text. *)
Lemma mime_loop_fuel fuel by_id remaining term :
  (String.length remaining < fuel)%nat ->
  mime_loop fuel by_id remaining term <> Throw (logic_error "mime_loop ran out of fuel").
Proof.
  revert remaining term. induction fuel as [|fuel IH]; intros remaining term Hf; [lia|]. cbn.
  destruct (mime_value _ _ _) as [t|e] eqn:E; cbn.
  - destruct (find_char "," remaining) as [i|] eqn:Ef; [|done]. apply IH. rewrite sdrop_length.
    apply find_if_some in Ef as (a & c & b & -> & <- & _). rewrite slength_app in *. cbn in *. lia.
  - unfold mime_value, validateMimeName in E. intros [= ->]. repeat case_match; simplify_eq/=.
Qed.
End MimeSpec.

(** C6: whatever text a mime predicate is given, a term that is accepted only
    holds names from the allowed alphabet and 16-bit ids, and the SQL rendered
    for it has exactly the term's names as its string literals: no name can
    close its quotes. *)
Theorem mime_predicate_cannot_inject (terms terms' : list MimeTerm) (arguments : string) (by_id : bool) :
  parseMimeSearch terms arguments by_id = Ok terms' ->
  exists term, terms' = terms ++ [term] /\ MimeSpec.names_ok term
    /\ MimeSpec.literals None (renderMimeTerm term) = Some (names term).
Proof.
  unfold parseMimeSearch. destruct (find_char "=" arguments) as [equals|]; [|done].
  case_match; [done|]. destruct (mime_loop _ _ _ _) as [term|] eqn:E; [|done]. cbn. intros Hterms.
  apply MimeSpec.mime_loop_ok in E; [|by split].
  assert (Hl : MimeSpec.literals None (renderMimeTerm term) = Some (names term)).
  { assert (Hq : Forall (fun n => sforall MimeSpec.no_quote n = true) (names term)).
    { eapply Forall_impl; [apply E|]. intros n. apply MimeSpec.allowed_no_quote. }
    rewrite MimeSpec.renderMimeTerm_body. destruct (mnegated term).
    - rewrite MimeSpec.literals_plain by done. by apply MimeSpec.literals_body.
    - rewrite <- (sapp_nil (MimeSpec.body term)). by apply MimeSpec.literals_body. }
  exists term. split; [|done]. by destruct (names term), (ids term); simplify_eq.
Qed.

Lemma mime_predicate_cannot_inject_witness :
  exists term, parseMimeSearch [] " != image/PNG, video/mp4" false = Ok [term]
    /\ MimeSpec.literals None (renderMimeTerm term) = Some ["image/png"; "video/mp4"].
Proof.
  destruct (mime_predicate_cannot_inject [] [mkMimeTerm ["image/png"; "video/mp4"] [] true]
    " != image/PNG, video/mp4" false) as (term & Heq & _ & Hl); [vm_compute; reflexivity|].
  injection Heq as <-. exists (mkMimeTerm ["image/png"; "video/mp4"] [] true).
  split; [vm_compute; reflexivity|exact Hl].
Defined.

(** *** Wildcards and LIKE *)

(** What the PostgreSQL manual says of LIKE with the default escape: [%]
    matches any sequence, a backslash makes the next character literal, any
    other character but [_] matches itself. *)
Class LikeOperator (like : string -> string -> bool) : Prop := {
  like_empty s : like EmptyString s = sempty s;
  like_percent p s : like (String "%" p) s = true <-> exists a b, s = a +:+ b /\ like p b = true;
  like_escaped c p s : like (String "\" (String c p)) s =
    match s with String d s => Ascii.eqb c d && like p s | EmptyString => false end;
  like_literal c p s : char_in "%_\" c = false -> like (String c p) s =
    match s with String d s => Ascii.eqb c d && like p s | EmptyString => false end
}.

Fixpoint any_suffix (f : string -> bool) (s : string) : bool :=
  f s || match s with String _ s => any_suffix f s | EmptyString => false end.

Lemma any_suffix_spec f s : any_suffix f s = true <-> exists a b, s = a +:+ b /\ f b = true.
Proof.
  induction s as [|c s IH]; cbn.
  - rewrite orb_false_r. split; [by exists EmptyString, EmptyString|].
    intros ([|] & b & Heq & H); [|done]. by destruct b.
  - rewrite orb_true_iff, IH. split.
    + intros [H|(a & b & -> & H)]; [by exists EmptyString, (String c s)|by exists (String c a), b].
    + intros ([|d a] & b & Heq & H); cbn in Heq; [subst b; by left|]. injection Heq as -> ->. right. eauto.
Qed.

(** A user's wildcard: [*] stands for any sequence, nothing else is special. *)
Fixpoint glob (wildcard s : string) : bool :=
  match wildcard with
  | EmptyString => sempty s
  | String c wildcard =>
      if Ascii.eqb c "*" then any_suffix (glob wildcard) s
      else match s with String d s => Ascii.eqb c d && glob wildcard s | EmptyString => false end
  end.

(** The LIKE pattern a wildcard is translated to matches a text exactly
    when the wildcard does: [*] is any sequence, and the characters that are
    special to LIKE stand for themselves. *)
Theorem wildcardToLikePattern_matches (like : string -> string -> bool) :
  LikeOperator like -> forall wildcard s, like (wildcardToLikePattern wildcard) s = glob wildcard s.
Proof.
  intros Hlike wildcard. induction wildcard as [|c wildcard IH]; intros s; [apply like_empty|].
  cbn [wildcardToLikePattern]. unfold like_escape. destruct (Ascii.eqb_spec c "*") as [->|Hstar].
  - apply eq_bool_prop_intro. rewrite !Is_true_true. cbn [String.append].
    change (glob (String "*" wildcard) s) with (any_suffix (glob wildcard) s).
    rewrite like_percent, any_suffix_spec. by setoid_rewrite IH.
  - cbn [glob]. rewrite (proj2 (Ascii.eqb_neq c "*")) by done.
    destruct (char_in "%_\" c) eqn:Hc; cbn [String.append].
    + rewrite like_escaped. destruct s; [done|]. by rewrite IH.
    + rewrite like_literal by done. destruct s; [done|]. by rewrite IH.
Qed.

(** A LIKE that has the documented behaviour. *)
Fixpoint sql_like (p s : string) : bool :=
  match p with
  | EmptyString => sempty s
  | String c p =>
      if Ascii.eqb c "%" then any_suffix (sql_like p) s
      else if Ascii.eqb c "_" then match s with String _ s => sql_like p s | EmptyString => false end
      else if Ascii.eqb c "\" then
        match p, s with
        | String c p, String d s => Ascii.eqb c d && sql_like p s
        | _, _ => false
        end
      else match s with String d s => Ascii.eqb c d && sql_like p s | EmptyString => false end
  end.

#[export] Instance sql_like_operator : LikeOperator sql_like.
Proof.
  split.
  - done.
  - intros p s. apply any_suffix_spec.
  - intros c p [|d s]; done.
  - intros c p s Hc. cbn [sql_like].
    destruct (Ascii.eqb_spec c "%") as [->|]; [done|]. destruct (Ascii.eqb_spec c "_") as [->|]; [done|].
    destruct (Ascii.eqb_spec c "\") as [->|]; [done|]. done.
Qed.

Lemma wildcardToLikePattern_matches_witness :
  sql_like (wildcardToLikePattern "a*_b") "axxx_b" = true
  /\ sql_like (wildcardToLikePattern "a*_b") "axxxxb" = false.
Proof.
  split; rewrite (wildcardToLikePattern_matches sql_like sql_like_operator); vm_compute; reflexivity.
Defined.

(** *** Tag lists *)

(** Merging tag ids into a query's list keeps it strictly ascending, so
    without duplicates, and its members are those of both lists. *)
Theorem mergeUnique_union (target incoming : list TagID) :
  StronglySorted Z.lt (mergeUnique target incoming)
  /\ forall x, x ∈ mergeUnique target incoming <-> x ∈ target \/ x ∈ incoming.
Proof.
  unfold mergeUnique. destruct target as [|t target].
  - split; [apply sort_unique_sorted|]. intros x. rewrite elem_of_sort_unique, elem_of_nil. tauto.
  - split.
    + apply unique_adjacent_sorted. apply Sorted_StronglySorted; [apply _|].
      apply Sorted_list_merge; [apply _|..]; apply StronglySorted_Sorted, sort_ints_sorted.
    + intros x. unfold merge_sorted.
      by rewrite elem_of_unique_adjacent, merge_Permutation, elem_of_app, !elem_of_sort_ints.
Qed.

(** *** Nearby and hash predicates *)

Lemma trimmed_none s : sforall (fun c => negb (char_in whitespace c)) s = true -> trimmed s = s.
Proof.
  intros Hs. destruct s as [|c s]; [done|]. unfold trimmed, find_first_not_of, find_last_not_of.
  pose proof Hs as [Hc _]%andb_true_iff.
  assert (Hf : sview_find_if (fun c => negb (char_in whitespace c)) (String c s) = Some O).
  { cbn [sview_find_if]. by rewrite Hc. }
  rewrite Hf. cbn [sdrop]. destruct (RangeText.split_last s c) as (t & d & Ht). rewrite Ht in *.
  rewrite find_last_if_app; [|rewrite sforall_app in Hs; apply andb_true_iff in Hs as [_ Hs];
    cbn [sforall] in Hs; by rewrite andb_true_r in Hs|done].
  replace (String.length t + 1)%nat with (String.length (t +:+ String d EmptyString)); [apply stake_all|].
  by rewrite slength_app.
Qed.

(** Text whose ends are not blank trims to itself, blanks in front go away. *)
Lemma trimmed_word c s d :
  char_in whitespace c = false -> char_in whitespace d = false ->
  trimmed (String c (s +:+ String d EmptyString)) = String c (s +:+ String d EmptyString).
Proof.
  intros Hc Hd. unfold trimmed, find_first_not_of, find_last_not_of. cbn [sview_find_if]. rewrite Hc.
  cbn [negb sdrop]. change (String c (s +:+ String d EmptyString)) with (String c s +:+ String d EmptyString).
  rewrite find_last_if_app by (by rewrite ?Hd).
  replace (String.length (String c s) + 1)%nat with (String.length (String c s +:+ String d EmptyString));
    [apply stake_all|]. by rewrite slength_app.
Qed.

Lemma trimmed_blank s : trimmed (String " " s) = trimmed s.
Proof.
  unfold trimmed, find_first_not_of. cbn [sview_find_if].
  change (negb (char_in whitespace " ")) with false. cbn iota.
  by destruct (sview_find_if _ s).
Qed.

Lemma digit_not_blank c : is_digit c = true -> char_in whitespace c = false.
Proof. by destruct c as [[][][][][][][][]]. Qed.

Lemma to_string_ends z : 0 <= z ->
  (exists c s, to_string z = String c s /\ is_digit c = true)
  /\ (exists s d, to_string z = s +:+ String d EmptyString /\ is_digit d = true).
Proof.
  intros Hz. split; [by apply to_string_nonempty|].
  destruct (to_string_nonempty z Hz) as (c & s & Hs & Hc).
  destruct (RangeText.split_last s c) as (t & d & Ht). rewrite Hs, Ht. exists t, d. split; [done|].
  pose proof (to_string_digits z Hz) as Hd. rewrite Hs, Ht, sforall_app in Hd.
  apply andb_true_iff in Hd as [_ Hd]. cbn in Hd. by rewrite andb_true_r in Hd.
Qed.

(** Text that starts with a visible character and ends with a number. *)
Lemma trimmed_number c mid z :
  char_in whitespace c = false -> 0 <= z ->
  trimmed (String c mid +:+ to_string z) = String c mid +:+ to_string z.
Proof.
  intros Hc Hz. destruct (to_string_ends z Hz) as [_ (s & d & -> & Hd)].
  pose proof (trimmed_word c (mid +:+ s) d Hc (digit_not_blank d Hd)) as H.
  by rewrite sapp_assoc in H.
Qed.

Lemma skip_equals_number z t : 0 <= z -> skip_equals (to_string z +:+ t) = to_string z +:+ t.
Proof.
  intros Hz. destruct (to_string_nonempty z Hz) as (c & s & -> & Hc). unfold skip_equals.
  by destruct c as [[][][][][][][][]].
Qed.

Lemma readNumber_reads args z t what :
  0 <= z <= size_max -> sforall (fun c => negb (is_digit c)) (stake 1 t) = true ->
  readNumber args (to_string z +:+ t) what = Ok (z, trimmed t).
Proof.
  intros Hz Ht. assert (Hz0 : 0 <= z) by lia. pose proof (to_string_digits z Hz0) as Hd.
  unfold readNumber, find_first_not_of.
  assert (Hdd : sforall (fun c => negb (negb (char_in digits c))) (to_string z) = true).
  { revert Hd. apply sforall_impl. intros c Hc. by rewrite RangeText.digit_char_in, Hc. }
  rewrite find_if_app by done.
  destruct (to_string_nonempty z Hz0) as (c & s & Hs & Hc).
  assert (Hne : sempty (to_string z) = false) by (by rewrite Hs).
  pose proof (stoull_to_string z EmptyString Hz eq_refl) as Hst. rewrite sapp_nil in Hst.
  destruct t as [|d t].
  - cbn [sview_find_if fmap option_fmap option_map sprefix]. by rewrite sapp_nil, Hne, Hst.
  - cbn [stake sforall] in Ht. rewrite andb_true_r in Ht. cbn [sview_find_if].
    rewrite RangeText.digit_char_in, Ht. cbn [fmap option_fmap option_map sprefix].
    rewrite Nat.add_0_r, stake_app, Hne, Hst, sdrop_app_exact. done.
Qed.

Lemma readNumber_range args t what v r : readNumber args t what = Ok (v, r) -> 0 <= v <= size_max.
Proof.
  unfold readNumber. destruct (sempty _); [done|]. destruct (stoull _) as [[w n]|] eqn:E; [|done].
  intros [= <- _]. eapply stoull_range. exact E.
Qed.

(** A nearby term reads back from its own description (the text after
    [system:nearby]), and every term the parser accepts names a positive
    32-bit record and a distance of at most 64 bits. *)
Theorem nearby_describe_roundtrip :
  (forall t, 0 < record_id t <= int32_max -> 0 <= distance t <= max_distance ->
     parseNearbySearch (sdrop 13 (describeNearbyTerm t)) = Ok t)
  /\ (forall arguments t, parseNearbySearch arguments = Ok t ->
        0 < record_id t <= int32_max /\ 0 <= distance t <= max_distance).
Proof.
  split.
  - intros [rid dist] Hr Hd. cbn in Hr, Hd. unfold int32_max, max_distance in *.
    assert (Hsize : 0 <= rid <= size_max /\ 0 <= dist <= size_max) by (unfold size_max; lia).
    destruct (to_string_ends rid) as [(c & s & Hs & Hc) _]; [lia|].
    assert (Hw : trimmed (to_string rid +:+ " distance " +:+ to_string dist)
      = to_string rid +:+ " distance " +:+ to_string dist).
    { rewrite Hs, <- sapp_assoc. apply trimmed_number; [by apply digit_not_blank|lia]. }
    assert (Hw2 : trimmed (to_string dist) = to_string dist).
    { apply trimmed_none. generalize (to_string_digits dist ltac:(lia)). apply sforall_impl.
      intros e He. by rewrite digit_not_blank. }
    assert (Hskip2 : skip_equals (to_string dist) = to_string dist).
    { rewrite <- (sapp_nil (to_string dist)). apply skip_equals_number. lia. }
    unfold describeNearbyTerm. cbn [record_id distance].
    change (sdrop 13 ("system:nearby " +:+ to_string rid +:+ " distance " +:+ to_string dist))
      with (String " " (to_string rid +:+ " distance " +:+ to_string dist)).
    unfold parseNearbySearch. rewrite trimmed_blank, Hw, skip_equals_number, readNumber_reads by (done || lia).
    cbn [mbind result_bind].
    rewrite (proj2 (Z.eqb_neq rid 0)), (proj2 (Z.ltb_ge _ _)) by (unfold int32_max; lia). cbn [orb].
    change (" distance " +:+ to_string dist) with (String " " ("distance " +:+ to_string dist)).
    rewrite trimmed_blank, (trimmed_number "d" "istance ") by (done || lia).
    cbn [sempty starts_with Ascii.eqb Bool.eqb andb negb String.append sdrop].
    rewrite trimmed_blank, Hw2, Hskip2. rewrite <- (sapp_nil (to_string dist)).
    rewrite readNumber_reads by (done || lia). cbn.
    unfold max_distance. by rewrite (proj2 (Z.ltb_ge _ _)) by lia.
  - intros arguments t. unfold parseNearbySearch, int32_max, max_distance.
    destruct (readNumber _ _ _) as [[rid rest]|] eqn:E1; [|done]. apply readNumber_range in E1.
    cbn [mbind result_bind]. destruct (_ || _) eqn:Hrid; [done|]. apply orb_false_iff in Hrid as [? ?].
    destruct (sempty rest); [intros [= <-]; cbn; lia|]. destruct (negb _); [done|].
    destruct (readNumber _ _ _) as [[dist rest2]|] eqn:E2; [|done]. apply readNumber_range in E2.
    cbn [mbind result_bind]. destruct (negb _); [done|]. destruct (64 <? dist) eqn:Hd; [done|].
    intros [= <-]. cbn. lia.
Qed.
