(* ===== verification/SearchFetch.v ===== *)
(** * Fetching a search term: [core/search/SearchStats.cpp] and
    [httpapi/search/SearchFetch.cpp]

    Each term of a search becomes one SQL query whose rows are read into a
    result set.  The database (PostgreSQL behind [db::DBContext]) is a record
    of operations; what the code relies on is that a query answers with rows
    in its ORDER BY order, each carrying the record's own key and hash.
    Coroutines run to completion, so [co_await] is the monad's bind, and the
    statistics a shared pointer collects are threaded through explicitly. *)
From S2P Require Import Prelude StringView SortKey SearchSet SearchTerms.
From Stdlib Require Import Ascii SpecFloat.
From Stdlib Require String.

Abbreviation TagDomainID := Z (only parsing).
Abbreviation NamespaceID := Z (only parsing).

(** ** Statistics *)

Inductive StepKind : Type := Fetch | Fold | Page.

Record SearchStep := mkStep {
  step_label : string;
  step_rows : nat;
  step_kind : StepKind;
  step_micros : Z;
  step_inverted : bool
}.

(** [SearchStats::m_steps] *)
Abbreviation SearchStats := (list SearchStep) (only parsing).

Definition record (label : string) (rows : nat) (kind : StepKind) (micros : Z) (inverted : bool)
    (stats : SearchStats) : SearchStats := stats ++ [mkStep label rows kind micros inverted].

Definition prefixFor (kind : StepKind) : string :=
  match kind with Fold => "    after " | _ => "  " end.

(** [static_cast< double >( z )] *)
Definition double_of_Z (z : Z) : double := binary_normalize 53 1024 z 0 false.

(** Round half to even of [num / den]. *)
Definition round_div (num den : Z) : Z :=
  let q := num / den in
  let r := num mod den in
  if (2 * r <? den) || ((2 * r =? den) && Z.even q) then q else q + 1.

Fixpoint pad_left (c : ascii) (n : nat) (s : string) : string :=
  match n with O => s | S n => String c (pad_left c n s) end.

Definition padded (c : ascii) (width : nat) (s : string) : string :=
  pad_left c (width - String.length s) s.

(** [format( "{:.kf}", x )] for a finite non-negative double. *)
Definition format_fixed (k : nat) (x : double) : string :=
  let scaled := match x with
    | S754_finite false m e =>
        if e <? 0 then round_div (Zpos m * 10 ^ Z.of_nat k) (2 ^ (- e)) else Zpos m * 2 ^ e * 10 ^ Z.of_nat k
    | _ => 0
    end in
  match k with
  | O => to_string scaled
  | _ => to_string (scaled / 10 ^ Z.of_nat k) +:+ "." +:+ padded "0" k (to_string (scaled mod 10 ^ Z.of_nat k))
  end.

Definition formatMillis (micros : Z) : string :=
  let ms := SFdiv 53 1024 (double_of_Z micros) (double_of_Z 1000) in
  if double_less ms (double_of_Z 1) then format_fixed 3 ms +:+ "ms"
  else if double_less ms (double_of_Z 100) then format_fixed 1 ms +:+ "ms"
  else format_fixed 0 ms +:+ "ms".

(** The width of the widest "prefix + label". *)
Definition summary_column (steps : SearchStats) : nat :=
  foldl (fun column s => Nat.max column (String.length (prefixFor (step_kind s)) + String.length (step_label s)))%nat
    O steps.

(** [column - prefix.size() - step.label.size()] on [std::size_t]. *)
Definition summary_padding (column : nat) (s : SearchStep) : Z :=
  wrapu 64 (wrapu 64 (Z.of_nat column - Z.of_nat (String.length (prefixFor (step_kind s))))
            - Z.of_nat (String.length (step_label s))).

Definition summary_line (column : nat) (s : SearchStep) : string :=
  char 10 +:+ prefixFor (step_kind s) +:+ step_label s
  +:+ pad_left " " (Z.to_nat (summary_padding column s)) EmptyString
  +:+ "  " +:+ padded " " 10 (pretty (step_rows s)) +:+ " rows"
  +:+ (if step_inverted s then " (excluded)" else "")
  +:+ (if 0 <? step_micros s then "  " +:+ formatMillis (step_micros s) else "").

Definition summary (steps : SearchStats) : string :=
  match steps with
  | [] => "search: no steps recorded"
  | _ => foldl (fun out s => out +:+ summary_line (summary_column steps) s) "search steps:" steps
  end.

(** ** The database *)

Inductive Binding : Type :=
| BInts (l : list Z)
| BText (s : string)
| BTexts (l : list string).

(** A row of a search query: the record id, and the sort key and hash columns
    when the query selects them. *)
Record Row := mkRow { row_id : RecordID; row_key : SortKey; row_hash : list Z }.

Record Database := mkDatabase {
  (** [rows< RecordID, Key, span< byte > >()] of a search query; the key type
      and whether hashes are read say which columns are decoded *)
  search_rows : string -> list Binding -> SortKeyType -> bool -> result (list Row);
  (** [rows< TagID, std::string >()] *)
  name_rows : string -> list Binding -> result (list (Z * string));
  (** [rows< TagID, std::int64_t >()] *)
  ordinal_rows : string -> list Binding -> result (list (Z * Z));
  (** [rows< TagID >()] *)
  id_rows : string -> list Binding -> result (list Z);
  (** how long a query took, in microseconds *)
  elapsed : string -> Z
}.

(** ** Building the query of a term *)

Definition arrayLiteral (l : list Z) : string :=
  "ARRAY[" +:+ sjoin "," (to_string <$> l) +:+ "]::INTEGER[]".

Definition when (b : bool) (s : string) : string := if b then s else EmptyString.

Definition buildTermQuery (sort_type : SortType) (want_hashes : bool) (from_clause driver_alias : string)
    (joins_file_info : bool) (extra_joins where_core : string) (order : SortOrder)
    (random_order distinct_rows : bool) (display : HydrusDisplayType) (include_deleted : bool) : string :=
  let spec := sortKeySpec sort_type display in
  let records_already_joined := contains "records rc" (spec_joins spec) in
  let join_records_for_hashes := want_hashes && negb records_already_joined in
  let query :=
    (if distinct_rows then "SELECT DISTINCT " else "SELECT ")
    +:+ driver_alias +:+ ".record_id AS record_id"
    +:+ when (negb (sempty (spec_expression spec))) (", " +:+ spec_expression spec +:+ " AS sort_key")
    +:+ when want_hashes ", rc.sha256 AS sha256"
    +:+ " FROM " +:+ from_clause
    +:+ when joins_file_info " JOIN file_info fi USING (record_id)"
    +:+ when join_records_for_hashes " JOIN records rc USING (record_id)"
    +:+ spec_joins spec +:+ extra_joins
    +:+ " WHERE fi.mime_id IS NOT NULL"
    +:+ when (negb include_deleted) " AND fi.cluster_delete_time IS NULL"
    +:+ when (negb (sempty where_core)) (" AND (" +:+ where_core +:+ ")")
    +:+ when (spec_exclude_null spec) (" AND " +:+ spec_expression spec +:+ " IS NOT NULL") in
  if random_order then query +:+ " ORDER BY random()"
  else
    let direction := match order with ASC => "" | DESC => " DESC" end in
    query +:+ " ORDER BY "
    +:+ when (negb (sempty (spec_expression spec))) (spec_expression spec +:+ direction +:+ ", ")
    +:+ driver_alias +:+ ".record_id" +:+ direction.

(** ** Reading rows *)

Record RawFetch := mkRawFetch {
  raw_ids : list RecordID;
  raw_keys : SortKeyColumn;
  raw_hashes : option (list SHA256)
}.

Definition sha256FromBytes (bytes : list Z) : result SHA256 := fromBuffer bytes.

(** A hash key is built from its bytes before the row is appended. *)
Definition read_key (key : SortKey) : result SortKey :=
  match key with HashKey bytes => HashKey <$> sha256FromBytes bytes | _ => Ok key end.

(** [key] is absent for a key column of type [None], [hash_bytes] when hashes
    are not read. *)
Definition appendRow (out : RawFetch) (id : RecordID) (key : option SortKey) (hash_bytes : option (list Z))
    : result RawFetch :=
  if decide (last (raw_ids out) = Some id) then Ok out
  else
    let keys := match key with Some k => column_push (raw_keys out) k | None => raw_keys out end in
    match hash_bytes with
    | None => Ok (mkRawFetch (raw_ids out ++ [id]) keys (raw_hashes out))
    | Some bytes =>
        hash ← sha256FromBytes bytes;
        match raw_hashes out with
        | Some hs => Ok (mkRawFetch (raw_ids out ++ [id]) keys (Some (hs ++ [hash])))
        | None => Throw (undefined_behaviour "dereference of an empty optional")
        end
    end.

Fixpoint appendRows (key_type : SortKeyType) (want_hashes : bool) (rows : list Row) (out : RawFetch)
    : result RawFetch :=
  match rows with
  | [] => Ok out
  | r :: rows =>
      key ← match key_type with KeyNone => Ok None | _ => Some <$> read_key (row_key r) end;
      out ← appendRow out (row_id r) key (if want_hashes then Some (row_hash r) else None);
      appendRows key_type want_hashes rows out
  end.

Section fetch.
Variable db : Database.

Definition runTypedFetch (sql : string) (bindings : list Binding) (key_type : SortKeyType) (want_hashes : bool)
    : result RawFetch :=
  let out := mkRawFetch [] (emptyColumn key_type) (if want_hashes then Some [] else None) in
  rows ← search_rows db sql bindings key_type want_hashes;
  appendRows key_type want_hashes rows out.

Record FetchContext := mkContext {
  sort_type : SortType;
  want_hashes : bool;
  tag_domains : list TagDomainID;
  display : HydrusDisplayType;
  include_deleted : bool
}.

Definition runFetch (ctx : FetchContext) (query label : string) (stats : SearchStats) : result (Set_ * SearchStats) :=
  let type := spec_type (sortKeySpec (sort_type ctx) HydrusDisplayType_DEFAULT) in
  let bindings := match tag_domains ctx with [] => [] | l => [BInts l] end in
  raw ← runTypedFetch query bindings type (want_hashes ctx);
  let set := mkSet (raw_ids raw) (raw_keys raw) (raw_hashes raw) false in
  Ok (set, record label (length (m_ids set)) Fetch (elapsed db query) false stats).

Definition domainFilter (ctx : FetchContext) : string :=
  match tag_domains ctx with [] => EmptyString | _ => " AND f.tag_domain_id = ANY($1)" end.

Definition tagMappingTable (display : HydrusDisplayType) : string :=
  match display with STORED => "tag_mappings" | DISPLAY => "active_tag_mappings_final" end.

(** The query of a term that reads the mapping table as [f]. *)
Definition mapping_query (ctx : FetchContext) (extra_joins where_core : string) : string :=
  buildTermQuery (sort_type ctx) (want_hashes ctx) (tagMappingTable (display ctx) +:+ " f") "f" true
    extra_joins where_core ASC false true (display ctx) (include_deleted ctx).

Definition fetchTag (ctx : FetchContext) (tag : TagID) (label : string) (stats : SearchStats)
    : result (Set_ * SearchStats) :=
  let where_ := "f.tag_id = " +:+ to_string tag +:+ domainFilter ctx in
  runFetch ctx (mapping_query ctx EmptyString where_) label stats.

Definition fetchAnyTag (ctx : FetchContext) (tags : list TagID) (label : string) (stats : SearchStats)
    : result (Set_ * SearchStats) :=
  let where_ := "f.tag_id = ANY(" +:+ arrayLiteral tags +:+ ")" +:+ domainFilter ctx in
  runFetch ctx (mapping_query ctx EmptyString where_) label stats.

Definition fetchNamespace (ctx : FetchContext) (tag_namespace : NamespaceID) (label : string) (stats : SearchStats)
    : result (Set_ * SearchStats) :=
  let where_ := "t.namespace_id = " +:+ to_string tag_namespace +:+ domainFilter ctx in
  runFetch ctx (mapping_query ctx " JOIN tags t USING (tag_id)" where_) label stats.

Record PredicateSource := mkPredicate { pred_joins : string; pred_where : string; description : string }.

Definition clear_domains (ctx : FetchContext) : FetchContext :=
  mkContext (sort_type ctx) (want_hashes ctx) [] (display ctx) (include_deleted ctx).

Definition predicate_query (ctx : FetchContext) (p : PredicateSource) : string :=
  buildTermQuery (sort_type ctx) (want_hashes ctx) "file_info fi" "fi" false (pred_joins p) (pred_where p)
    ASC false false (display ctx) (include_deleted ctx).

Definition fetchPredicate (ctx : FetchContext) (p : PredicateSource) (label : string) (stats : SearchStats)
    : result (Set_ * SearchStats) :=
  let ctx := clear_domains ctx in
  runFetch ctx (predicate_query ctx p) label stats.

Definition buildPageQuery (sort_type : SortType) (want_hashes has_exclusions : bool) (order : SortOrder)
    (offset : Z) (limit : option Z) (display : HydrusDisplayType) (include_deleted : bool) : string :=
  buildTermQuery sort_type want_hashes "file_info fi" "fi" false EmptyString
    (when has_exclusions "fi.record_id != ALL($1)") order
    (bool_decide (sort_type = RANDOM)) false display include_deleted
  +:+ match limit with Some l => " LIMIT " +:+ to_string l | None => EmptyString end
  +:+ when (0 <? offset) (" OFFSET " +:+ to_string offset).

Definition fetchPage (ctx : FetchContext) (excluded : list RecordID) (order : SortOrder)
    (offset : Z) (limit : option Z) (stats : SearchStats) : result (Set_ * SearchStats) :=
  let type := spec_type (sortKeySpec (sort_type ctx) HydrusDisplayType_DEFAULT) in
  let has_exclusions := match excluded with [] => false | _ => true end in
  let query := buildPageQuery (sort_type ctx) (want_hashes ctx) has_exclusions order offset limit
    (display ctx) (include_deleted ctx) in
  let bindings := match excluded with [] => [] | l => [BInts l] end in
  raw ← runTypedFetch query bindings type (want_hashes ctx);
  let set := mkSet (raw_ids raw) (raw_keys raw) (raw_hashes raw) false in
  Ok (set, record ("page (excluding " +:+ pretty (length excluded) +:+ ")") (length (m_ids set)) Page
    (elapsed db query) false stats).
End fetch.

(** ** What a fetch returns *)

(** The row a query selects for a record of the search. *)
Definition row_of (F : frame) (id : RecordID) : Row := mkRow id (f_key F id) (f_hash F id).

Definition row_le (F : frame) : relation RecordID := fun a b => a = b \/ row_lt F a b.

(** The hashes of a search are 32 bytes long. *)
Definition hashed (F : frame) : Prop :=
  (forall id, length (f_hash F id) = sha256_size)
  /\ (forall id bytes, f_key F id = HashKey bytes -> length bytes = sha256_size).

(** What the code relies on: the query is answered by the rows of some
    records, in the order of its ORDER BY clause. *)
Definition answers (db : Database) (F : frame) (sql : string) (bindings : list Binding) (ids : list RecordID)
    : Prop :=
  search_rows db sql bindings (f_type F) (f_want F) = Ok (row_of F <$> ids).

Definition ordered (F : frame) (ids : list RecordID) : Prop := StronglySorted (row_le F) ids.

Definition raw_of (F : frame) (ids : list RecordID) : RawFetch :=
  mkRawFetch ids (column_of (f_type F) (f_key F <$> ids)) (if f_want F then Some (f_hash F <$> ids) else None).

Section rows.
Context (F : frame) (HF : frame_ok F) (Hh : hashed F).

Lemma fromBuffer_ok bytes : length bytes = sha256_size -> fromBuffer bytes = Ok bytes.
Proof. intros H. unfold fromBuffer. by rewrite decide_True. Qed.

Lemma read_key_of id :
  match f_type F with KeyNone => Ok None | _ => Some <$> read_key (f_key F id) end
  = Ok (match f_type F with KeyNone => None | _ => Some (f_key F id) end).
Proof.
  specialize (HF id). destruct (f_type F), (f_key F id) as [| | |bytes] eqn:E; try done.
  cbn. unfold sha256FromBytes. by rewrite fromBuffer_ok by (by eapply Hh).
Qed.

Lemma appendRow_of acc id :
  appendRow (raw_of F acc) id (match f_type F with KeyNone => None | _ => Some (f_key F id) end)
    (if f_want F then Some (f_hash F id) else None)
  = Ok (raw_of F (if decide (last acc = Some id) then acc else acc ++ [id])).
Proof.
  unfold appendRow, raw_of. cbn [raw_ids raw_keys raw_hashes]. case_decide; [done|].
  assert (Hk : match match f_type F with KeyNone => None | _ => Some (f_key F id) end with
    | Some k => column_push (column_of (f_type F) (f_key F <$> acc)) k
    | None => column_of (f_type F) (f_key F <$> acc) end = column_of (f_type F) (f_key F <$> acc ++ [id])).
  { pose proof (column_push_of F HF acc id) as Hp. destruct (f_type F) eqn:E; try exact Hp. }
  rewrite Hk. destruct (f_want F); [|done].
  unfold sha256FromBytes. rewrite fromBuffer_ok by apply Hh. cbn [mbind result_bind]. by rewrite (fmap_app (f_hash F)).
Qed.

(** Appending the rows of [ids] drops the adjacent duplicates. *)
Lemma appendRows_of ids acc :
  appendRows (f_type F) (f_want F) (row_of F <$> ids) (raw_of F acc)
  = Ok (raw_of F (match last acc with Some x => acc ++ unique_from x ids | None => unique_adjacent ids end)).
Proof.
  assert (Hgen : forall ids acc x, last acc = Some x ->
    appendRows (f_type F) (f_want F) (row_of F <$> ids) (raw_of F acc) = Ok (raw_of F (acc ++ unique_from x ids))).
  { clear ids acc. induction ids as [|id ids IH]; intros acc x Hx; cbn [appendRows fmap list_fmap].
    { cbn. by rewrite app_nil_r. }
    cbn [row_of row_key row_id row_hash]. rewrite read_key_of. cbn [mbind result_bind].
    rewrite appendRow_of. cbn [unique_from]. rewrite Hx. case_decide as Heq; simplify_eq.
    - rewrite decide_True by done. by apply IH.
    - rewrite decide_False by congruence. cbn [mbind result_bind]. rewrite (IH _ id) by apply last_snoc.
      by rewrite <- app_assoc. }
  destruct (last acc) as [x|] eqn:Hx; [by apply Hgen|].
  apply last_None in Hx as ->. destruct ids as [|id ids]; [done|]. cbn [appendRows fmap list_fmap].
  cbn [row_of row_key row_id row_hash]. rewrite read_key_of. cbn [mbind result_bind].
  rewrite appendRow_of. rewrite decide_False by done. cbn [mbind result_bind app]. by rewrite (Hgen ids [id] id).
Qed.

Lemma runTypedFetch_of db sql bindings ids :
  answers db F sql bindings ids ->
  runTypedFetch db sql bindings (f_type F) (f_want F) = Ok (raw_of F (unique_adjacent ids)).
Proof.
  unfold answers, runTypedFetch. intros ->. cbn [mbind result_bind].
  pose proof (appendRows_of ids []) as H. cbn in H. rewrite <- H.
  unfold raw_of. cbn. by destruct (f_type F), (f_want F).
Qed.

(** The set the rows of a query are read into. *)
Definition set_of (ids : list RecordID) : Set_ :=
  mkSet ids (column_of (f_type F) (f_key F <$> ids)) (if f_want F then Some (f_hash F <$> ids) else None) false.

Lemma set_of_aligned ids : aligned F (set_of ids).
Proof. split; [done|]. unfold hashes_ok. destruct (f_want F) eqn:E; cbn; rewrite E; auto. Qed.

Lemma set_of_ok ids : ordered F ids -> set_ok F (set_of (unique_adjacent ids)).
Proof.
  intros Ho. split; [apply set_of_aligned|]. cbn.
  pose proof (row_lt_transitive F HF). by apply (unique_adjacent_strict (row_lt F)).
Qed.

(** A context that asks for the keys and hashes of the frame. *)
Definition fits (ctx : FetchContext) : Prop :=
  spec_type (sortKeySpec (sort_type ctx) HydrusDisplayType_DEFAULT) = f_type F /\ want_hashes ctx = f_want F.

Definition domain_bindings (ctx : FetchContext) : list Binding :=
  match tag_domains ctx with [] => [] | l => [BInts l] end.

Lemma runFetch_of db ctx sql label stats ids :
  fits ctx -> answers db F sql (domain_bindings ctx) ids ->
  runFetch db ctx sql label stats = Ok (set_of (unique_adjacent ids),
    record label (length (unique_adjacent ids)) Fetch (elapsed db sql) false stats).
Proof.
  intros [Ht Hw] Ha. unfold runFetch. rewrite Ht, Hw.
  change (match tag_domains ctx with [] => [] | _ => _ end) with (domain_bindings ctx).
  by rewrite (runTypedFetch_of _ _ _ _ Ha).
Qed.
End rows.
