(* ===== verification/SearchQuery.v ===== *)
(** * The search query: [httpapi/search/SearchQuery.hpp] and [SearchQuery.cpp]

    The object a request fills with tags, wildcards and [system:] predicates
    and then runs: one SQL fetch per term, the positive terms intersected, the
    negative ones subtracted, and a page cut out of the ordered result.  The
    theorems state which records a run returns, in terms of the answers of the
    database to the queries it sends. *)
From S2P Require Import Prelude StringView SortKey SearchSet SearchTerms SearchFetch.
From Stdlib Require Import Ascii.
From Stdlib Require String.

(** ** State *)

Inductive DurationSearchType : Type := DurationDontCare | HasDuration | NoDuration.
Inductive AudioSearchType : Type := AudioDontCare | HasAudio | NoAudio.
Inductive EmbeddedSearchType : Type := EmbeddedDontCare | EmbeddedHas | EmbeddedNo.
Inductive TagCountSearchType : Type := TagCountDontCare | HasTags | NoTags | HasCount.
Inductive ArchiveSearchType : Type := ArchiveDontCare | InArchive | NoArchive.
Inductive IsArchiveSearchType : Type := IsArchiveDontCare | IsArchive | NotArchive.

Record SearchQuery := mkQuery {
  m_duration_search : DurationSearchType;
  m_audio_search : AudioSearchType;
  m_exif_search : EmbeddedSearchType;
  m_icc_profile_search : EmbeddedSearchType;
  m_embedded_metadata_search : EmbeddedSearchType;
  m_has_tags_search : TagCountSearchType;
  m_in_archive_search : ArchiveSearchType;
  m_is_archive_search : IsArchiveSearchType;
  m_search_everything : bool;
  m_tag_count_search : RangeSearchInfo;
  m_width_search : RangeSearchInfo;
  m_height_search : RangeSearchInfo;
  m_limit_search : RangeSearchInfo;
  m_archive_search : RangeSearchInfo;
  m_filesize_search : RangeSearchInfo;
  m_hash_search : option SHA256;
  m_mime_terms : list MimeTerm;
  m_nearby_terms : list NearbyTerm;
  m_record_search : RangeSearchInfo;
  m_sort_type : SortType;
  m_order : SortOrder;
  m_limit : option Z;
  m_offset : option Z;
  m_positive_tags : list TagID;
  m_negative_tags : list TagID;
  m_namespace_ids : list NamespaceID;
  m_tag_names : gmap Z string;
  m_namespace_names : gmap Z string;
  m_positive_wildcards : list WildcardGroup;
  m_negative_wildcards : list WildcardGroup;
  m_display_mode : HydrusDisplayType;
  m_include_deleted : bool
}.

Definition SearchQuery_default : SearchQuery :=
  mkQuery DurationDontCare AudioDontCare EmbeddedDontCare EmbeddedDontCare EmbeddedDontCare TagCountDontCare ArchiveDontCare IsArchiveDontCare false RangeSearchInfo_default RangeSearchInfo_default RangeSearchInfo_default RangeSearchInfo_default RangeSearchInfo_default RangeSearchInfo_default None [] [] RangeSearchInfo_default SortType_DEFAULT SortOrder_DEFAULT None None [] [] [] ∅ ∅ [] [] HydrusDisplayType_DEFAULT false.

(** Assignment to one member. *)
Definition set_duration_search (v : DurationSearchType) (q : SearchQuery) : SearchQuery :=
  mkQuery v (m_audio_search q) (m_exif_search q) (m_icc_profile_search q) (m_embedded_metadata_search q)
    (m_has_tags_search q) (m_in_archive_search q) (m_is_archive_search q) (m_search_everything q)
    (m_tag_count_search q) (m_width_search q) (m_height_search q) (m_limit_search q) (m_archive_search q)
    (m_filesize_search q) (m_hash_search q) (m_mime_terms q) (m_nearby_terms q) (m_record_search q)
    (m_sort_type q) (m_order q) (m_limit q) (m_offset q) (m_positive_tags q) (m_negative_tags q)
    (m_namespace_ids q) (m_tag_names q) (m_namespace_names q) (m_positive_wildcards q) (m_negative_wildcards
    q) (m_display_mode q) (m_include_deleted q).
Definition set_audio_search (v : AudioSearchType) (q : SearchQuery) : SearchQuery :=
  mkQuery (m_duration_search q) v (m_exif_search q) (m_icc_profile_search q) (m_embedded_metadata_search q)
    (m_has_tags_search q) (m_in_archive_search q) (m_is_archive_search q) (m_search_everything q)
    (m_tag_count_search q) (m_width_search q) (m_height_search q) (m_limit_search q) (m_archive_search q)
    (m_filesize_search q) (m_hash_search q) (m_mime_terms q) (m_nearby_terms q) (m_record_search q)
    (m_sort_type q) (m_order q) (m_limit q) (m_offset q) (m_positive_tags q) (m_negative_tags q)
    (m_namespace_ids q) (m_tag_names q) (m_namespace_names q) (m_positive_wildcards q) (m_negative_wildcards
    q) (m_display_mode q) (m_include_deleted q).
Definition set_exif_search (v : EmbeddedSearchType) (q : SearchQuery) : SearchQuery :=
  mkQuery (m_duration_search q) (m_audio_search q) v (m_icc_profile_search q) (m_embedded_metadata_search q)
    (m_has_tags_search q) (m_in_archive_search q) (m_is_archive_search q) (m_search_everything q)
    (m_tag_count_search q) (m_width_search q) (m_height_search q) (m_limit_search q) (m_archive_search q)
    (m_filesize_search q) (m_hash_search q) (m_mime_terms q) (m_nearby_terms q) (m_record_search q)
    (m_sort_type q) (m_order q) (m_limit q) (m_offset q) (m_positive_tags q) (m_negative_tags q)
    (m_namespace_ids q) (m_tag_names q) (m_namespace_names q) (m_positive_wildcards q) (m_negative_wildcards
    q) (m_display_mode q) (m_include_deleted q).
Definition set_icc_profile_search (v : EmbeddedSearchType) (q : SearchQuery) : SearchQuery :=
  mkQuery (m_duration_search q) (m_audio_search q) (m_exif_search q) v (m_embedded_metadata_search q)
    (m_has_tags_search q) (m_in_archive_search q) (m_is_archive_search q) (m_search_everything q)
    (m_tag_count_search q) (m_width_search q) (m_height_search q) (m_limit_search q) (m_archive_search q)
    (m_filesize_search q) (m_hash_search q) (m_mime_terms q) (m_nearby_terms q) (m_record_search q)
    (m_sort_type q) (m_order q) (m_limit q) (m_offset q) (m_positive_tags q) (m_negative_tags q)
    (m_namespace_ids q) (m_tag_names q) (m_namespace_names q) (m_positive_wildcards q) (m_negative_wildcards
    q) (m_display_mode q) (m_include_deleted q).
Definition set_embedded_metadata_search (v : EmbeddedSearchType) (q : SearchQuery) : SearchQuery :=
  mkQuery (m_duration_search q) (m_audio_search q) (m_exif_search q) (m_icc_profile_search q) v (m_has_tags_search
    q) (m_in_archive_search q) (m_is_archive_search q) (m_search_everything q) (m_tag_count_search q)
    (m_width_search q) (m_height_search q) (m_limit_search q) (m_archive_search q) (m_filesize_search q)
    (m_hash_search q) (m_mime_terms q) (m_nearby_terms q) (m_record_search q) (m_sort_type q) (m_order q)
    (m_limit q) (m_offset q) (m_positive_tags q) (m_negative_tags q) (m_namespace_ids q) (m_tag_names q)
    (m_namespace_names q) (m_positive_wildcards q) (m_negative_wildcards q) (m_display_mode q)
    (m_include_deleted q).
Definition set_has_tags_search (v : TagCountSearchType) (q : SearchQuery) : SearchQuery :=
  mkQuery (m_duration_search q) (m_audio_search q) (m_exif_search q) (m_icc_profile_search q)
    (m_embedded_metadata_search q) v (m_in_archive_search q) (m_is_archive_search q) (m_search_everything q)
    (m_tag_count_search q) (m_width_search q) (m_height_search q) (m_limit_search q) (m_archive_search q)
    (m_filesize_search q) (m_hash_search q) (m_mime_terms q) (m_nearby_terms q) (m_record_search q)
    (m_sort_type q) (m_order q) (m_limit q) (m_offset q) (m_positive_tags q) (m_negative_tags q)
    (m_namespace_ids q) (m_tag_names q) (m_namespace_names q) (m_positive_wildcards q) (m_negative_wildcards
    q) (m_display_mode q) (m_include_deleted q).
Definition set_in_archive_search (v : ArchiveSearchType) (q : SearchQuery) : SearchQuery :=
  mkQuery (m_duration_search q) (m_audio_search q) (m_exif_search q) (m_icc_profile_search q)
    (m_embedded_metadata_search q) (m_has_tags_search q) v (m_is_archive_search q) (m_search_everything q)
    (m_tag_count_search q) (m_width_search q) (m_height_search q) (m_limit_search q) (m_archive_search q)
    (m_filesize_search q) (m_hash_search q) (m_mime_terms q) (m_nearby_terms q) (m_record_search q)
    (m_sort_type q) (m_order q) (m_limit q) (m_offset q) (m_positive_tags q) (m_negative_tags q)
    (m_namespace_ids q) (m_tag_names q) (m_namespace_names q) (m_positive_wildcards q) (m_negative_wildcards
    q) (m_display_mode q) (m_include_deleted q).
Definition set_is_archive_search (v : IsArchiveSearchType) (q : SearchQuery) : SearchQuery :=
  mkQuery (m_duration_search q) (m_audio_search q) (m_exif_search q) (m_icc_profile_search q)
    (m_embedded_metadata_search q) (m_has_tags_search q) (m_in_archive_search q) v (m_search_everything q)
    (m_tag_count_search q) (m_width_search q) (m_height_search q) (m_limit_search q) (m_archive_search q)
    (m_filesize_search q) (m_hash_search q) (m_mime_terms q) (m_nearby_terms q) (m_record_search q)
    (m_sort_type q) (m_order q) (m_limit q) (m_offset q) (m_positive_tags q) (m_negative_tags q)
    (m_namespace_ids q) (m_tag_names q) (m_namespace_names q) (m_positive_wildcards q) (m_negative_wildcards
    q) (m_display_mode q) (m_include_deleted q).
Definition set_search_everything (v : bool) (q : SearchQuery) : SearchQuery :=
  mkQuery (m_duration_search q) (m_audio_search q) (m_exif_search q) (m_icc_profile_search q)
    (m_embedded_metadata_search q) (m_has_tags_search q) (m_in_archive_search q) (m_is_archive_search q) v
    (m_tag_count_search q) (m_width_search q) (m_height_search q) (m_limit_search q) (m_archive_search q)
    (m_filesize_search q) (m_hash_search q) (m_mime_terms q) (m_nearby_terms q) (m_record_search q)
    (m_sort_type q) (m_order q) (m_limit q) (m_offset q) (m_positive_tags q) (m_negative_tags q)
    (m_namespace_ids q) (m_tag_names q) (m_namespace_names q) (m_positive_wildcards q) (m_negative_wildcards
    q) (m_display_mode q) (m_include_deleted q).
Definition set_tag_count_search (v : RangeSearchInfo) (q : SearchQuery) : SearchQuery :=
  mkQuery (m_duration_search q) (m_audio_search q) (m_exif_search q) (m_icc_profile_search q)
    (m_embedded_metadata_search q) (m_has_tags_search q) (m_in_archive_search q) (m_is_archive_search q)
    (m_search_everything q) v (m_width_search q) (m_height_search q) (m_limit_search q) (m_archive_search q)
    (m_filesize_search q) (m_hash_search q) (m_mime_terms q) (m_nearby_terms q) (m_record_search q)
    (m_sort_type q) (m_order q) (m_limit q) (m_offset q) (m_positive_tags q) (m_negative_tags q)
    (m_namespace_ids q) (m_tag_names q) (m_namespace_names q) (m_positive_wildcards q) (m_negative_wildcards
    q) (m_display_mode q) (m_include_deleted q).
Definition set_width_search (v : RangeSearchInfo) (q : SearchQuery) : SearchQuery :=
  mkQuery (m_duration_search q) (m_audio_search q) (m_exif_search q) (m_icc_profile_search q)
    (m_embedded_metadata_search q) (m_has_tags_search q) (m_in_archive_search q) (m_is_archive_search q)
    (m_search_everything q) (m_tag_count_search q) v (m_height_search q) (m_limit_search q)
    (m_archive_search q) (m_filesize_search q) (m_hash_search q) (m_mime_terms q) (m_nearby_terms q)
    (m_record_search q) (m_sort_type q) (m_order q) (m_limit q) (m_offset q) (m_positive_tags q)
    (m_negative_tags q) (m_namespace_ids q) (m_tag_names q) (m_namespace_names q) (m_positive_wildcards q)
    (m_negative_wildcards q) (m_display_mode q) (m_include_deleted q).
Definition set_height_search (v : RangeSearchInfo) (q : SearchQuery) : SearchQuery :=
  mkQuery (m_duration_search q) (m_audio_search q) (m_exif_search q) (m_icc_profile_search q)
    (m_embedded_metadata_search q) (m_has_tags_search q) (m_in_archive_search q) (m_is_archive_search q)
    (m_search_everything q) (m_tag_count_search q) (m_width_search q) v (m_limit_search q) (m_archive_search
    q) (m_filesize_search q) (m_hash_search q) (m_mime_terms q) (m_nearby_terms q) (m_record_search q)
    (m_sort_type q) (m_order q) (m_limit q) (m_offset q) (m_positive_tags q) (m_negative_tags q)
    (m_namespace_ids q) (m_tag_names q) (m_namespace_names q) (m_positive_wildcards q) (m_negative_wildcards
    q) (m_display_mode q) (m_include_deleted q).
Definition set_limit_search (v : RangeSearchInfo) (q : SearchQuery) : SearchQuery :=
  mkQuery (m_duration_search q) (m_audio_search q) (m_exif_search q) (m_icc_profile_search q)
    (m_embedded_metadata_search q) (m_has_tags_search q) (m_in_archive_search q) (m_is_archive_search q)
    (m_search_everything q) (m_tag_count_search q) (m_width_search q) (m_height_search q) v
    (m_archive_search q) (m_filesize_search q) (m_hash_search q) (m_mime_terms q) (m_nearby_terms q)
    (m_record_search q) (m_sort_type q) (m_order q) (m_limit q) (m_offset q) (m_positive_tags q)
    (m_negative_tags q) (m_namespace_ids q) (m_tag_names q) (m_namespace_names q) (m_positive_wildcards q)
    (m_negative_wildcards q) (m_display_mode q) (m_include_deleted q).
Definition set_archive_search (v : RangeSearchInfo) (q : SearchQuery) : SearchQuery :=
  mkQuery (m_duration_search q) (m_audio_search q) (m_exif_search q) (m_icc_profile_search q)
    (m_embedded_metadata_search q) (m_has_tags_search q) (m_in_archive_search q) (m_is_archive_search q)
    (m_search_everything q) (m_tag_count_search q) (m_width_search q) (m_height_search q) (m_limit_search q)
    v (m_filesize_search q) (m_hash_search q) (m_mime_terms q) (m_nearby_terms q) (m_record_search q)
    (m_sort_type q) (m_order q) (m_limit q) (m_offset q) (m_positive_tags q) (m_negative_tags q)
    (m_namespace_ids q) (m_tag_names q) (m_namespace_names q) (m_positive_wildcards q) (m_negative_wildcards
    q) (m_display_mode q) (m_include_deleted q).
Definition set_filesize_search (v : RangeSearchInfo) (q : SearchQuery) : SearchQuery :=
  mkQuery (m_duration_search q) (m_audio_search q) (m_exif_search q) (m_icc_profile_search q)
    (m_embedded_metadata_search q) (m_has_tags_search q) (m_in_archive_search q) (m_is_archive_search q)
    (m_search_everything q) (m_tag_count_search q) (m_width_search q) (m_height_search q) (m_limit_search q)
    (m_archive_search q) v (m_hash_search q) (m_mime_terms q) (m_nearby_terms q) (m_record_search q)
    (m_sort_type q) (m_order q) (m_limit q) (m_offset q) (m_positive_tags q) (m_negative_tags q)
    (m_namespace_ids q) (m_tag_names q) (m_namespace_names q) (m_positive_wildcards q) (m_negative_wildcards
    q) (m_display_mode q) (m_include_deleted q).
Definition set_hash_search (v : option SHA256) (q : SearchQuery) : SearchQuery :=
  mkQuery (m_duration_search q) (m_audio_search q) (m_exif_search q) (m_icc_profile_search q)
    (m_embedded_metadata_search q) (m_has_tags_search q) (m_in_archive_search q) (m_is_archive_search q)
    (m_search_everything q) (m_tag_count_search q) (m_width_search q) (m_height_search q) (m_limit_search q)
    (m_archive_search q) (m_filesize_search q) v (m_mime_terms q) (m_nearby_terms q) (m_record_search q)
    (m_sort_type q) (m_order q) (m_limit q) (m_offset q) (m_positive_tags q) (m_negative_tags q)
    (m_namespace_ids q) (m_tag_names q) (m_namespace_names q) (m_positive_wildcards q) (m_negative_wildcards
    q) (m_display_mode q) (m_include_deleted q).
Definition set_mime_terms (v : list MimeTerm) (q : SearchQuery) : SearchQuery :=
  mkQuery (m_duration_search q) (m_audio_search q) (m_exif_search q) (m_icc_profile_search q)
    (m_embedded_metadata_search q) (m_has_tags_search q) (m_in_archive_search q) (m_is_archive_search q)
    (m_search_everything q) (m_tag_count_search q) (m_width_search q) (m_height_search q) (m_limit_search q)
    (m_archive_search q) (m_filesize_search q) (m_hash_search q) v (m_nearby_terms q) (m_record_search q)
    (m_sort_type q) (m_order q) (m_limit q) (m_offset q) (m_positive_tags q) (m_negative_tags q)
    (m_namespace_ids q) (m_tag_names q) (m_namespace_names q) (m_positive_wildcards q) (m_negative_wildcards
    q) (m_display_mode q) (m_include_deleted q).
Definition set_nearby_terms (v : list NearbyTerm) (q : SearchQuery) : SearchQuery :=
  mkQuery (m_duration_search q) (m_audio_search q) (m_exif_search q) (m_icc_profile_search q)
    (m_embedded_metadata_search q) (m_has_tags_search q) (m_in_archive_search q) (m_is_archive_search q)
    (m_search_everything q) (m_tag_count_search q) (m_width_search q) (m_height_search q) (m_limit_search q)
    (m_archive_search q) (m_filesize_search q) (m_hash_search q) (m_mime_terms q) v (m_record_search q)
    (m_sort_type q) (m_order q) (m_limit q) (m_offset q) (m_positive_tags q) (m_negative_tags q)
    (m_namespace_ids q) (m_tag_names q) (m_namespace_names q) (m_positive_wildcards q) (m_negative_wildcards
    q) (m_display_mode q) (m_include_deleted q).
Definition set_record_search (v : RangeSearchInfo) (q : SearchQuery) : SearchQuery :=
  mkQuery (m_duration_search q) (m_audio_search q) (m_exif_search q) (m_icc_profile_search q)
    (m_embedded_metadata_search q) (m_has_tags_search q) (m_in_archive_search q) (m_is_archive_search q)
    (m_search_everything q) (m_tag_count_search q) (m_width_search q) (m_height_search q) (m_limit_search q)
    (m_archive_search q) (m_filesize_search q) (m_hash_search q) (m_mime_terms q) (m_nearby_terms q) v
    (m_sort_type q) (m_order q) (m_limit q) (m_offset q) (m_positive_tags q) (m_negative_tags q)
    (m_namespace_ids q) (m_tag_names q) (m_namespace_names q) (m_positive_wildcards q) (m_negative_wildcards
    q) (m_display_mode q) (m_include_deleted q).
Definition set_sort_type (v : SortType) (q : SearchQuery) : SearchQuery :=
  mkQuery (m_duration_search q) (m_audio_search q) (m_exif_search q) (m_icc_profile_search q)
    (m_embedded_metadata_search q) (m_has_tags_search q) (m_in_archive_search q) (m_is_archive_search q)
    (m_search_everything q) (m_tag_count_search q) (m_width_search q) (m_height_search q) (m_limit_search q)
    (m_archive_search q) (m_filesize_search q) (m_hash_search q) (m_mime_terms q) (m_nearby_terms q)
    (m_record_search q) v (m_order q) (m_limit q) (m_offset q) (m_positive_tags q) (m_negative_tags q)
    (m_namespace_ids q) (m_tag_names q) (m_namespace_names q) (m_positive_wildcards q) (m_negative_wildcards
    q) (m_display_mode q) (m_include_deleted q).
Definition set_order (v : SortOrder) (q : SearchQuery) : SearchQuery :=
  mkQuery (m_duration_search q) (m_audio_search q) (m_exif_search q) (m_icc_profile_search q)
    (m_embedded_metadata_search q) (m_has_tags_search q) (m_in_archive_search q) (m_is_archive_search q)
    (m_search_everything q) (m_tag_count_search q) (m_width_search q) (m_height_search q) (m_limit_search q)
    (m_archive_search q) (m_filesize_search q) (m_hash_search q) (m_mime_terms q) (m_nearby_terms q)
    (m_record_search q) (m_sort_type q) v (m_limit q) (m_offset q) (m_positive_tags q) (m_negative_tags q)
    (m_namespace_ids q) (m_tag_names q) (m_namespace_names q) (m_positive_wildcards q) (m_negative_wildcards
    q) (m_display_mode q) (m_include_deleted q).
Definition set_limit (v : option Z) (q : SearchQuery) : SearchQuery :=
  mkQuery (m_duration_search q) (m_audio_search q) (m_exif_search q) (m_icc_profile_search q)
    (m_embedded_metadata_search q) (m_has_tags_search q) (m_in_archive_search q) (m_is_archive_search q)
    (m_search_everything q) (m_tag_count_search q) (m_width_search q) (m_height_search q) (m_limit_search q)
    (m_archive_search q) (m_filesize_search q) (m_hash_search q) (m_mime_terms q) (m_nearby_terms q)
    (m_record_search q) (m_sort_type q) (m_order q) v (m_offset q) (m_positive_tags q) (m_negative_tags q)
    (m_namespace_ids q) (m_tag_names q) (m_namespace_names q) (m_positive_wildcards q) (m_negative_wildcards
    q) (m_display_mode q) (m_include_deleted q).
Definition set_offset (v : option Z) (q : SearchQuery) : SearchQuery :=
  mkQuery (m_duration_search q) (m_audio_search q) (m_exif_search q) (m_icc_profile_search q)
    (m_embedded_metadata_search q) (m_has_tags_search q) (m_in_archive_search q) (m_is_archive_search q)
    (m_search_everything q) (m_tag_count_search q) (m_width_search q) (m_height_search q) (m_limit_search q)
    (m_archive_search q) (m_filesize_search q) (m_hash_search q) (m_mime_terms q) (m_nearby_terms q)
    (m_record_search q) (m_sort_type q) (m_order q) (m_limit q) v (m_positive_tags q) (m_negative_tags q)
    (m_namespace_ids q) (m_tag_names q) (m_namespace_names q) (m_positive_wildcards q) (m_negative_wildcards
    q) (m_display_mode q) (m_include_deleted q).
Definition set_positive_tags (v : list TagID) (q : SearchQuery) : SearchQuery :=
  mkQuery (m_duration_search q) (m_audio_search q) (m_exif_search q) (m_icc_profile_search q)
    (m_embedded_metadata_search q) (m_has_tags_search q) (m_in_archive_search q) (m_is_archive_search q)
    (m_search_everything q) (m_tag_count_search q) (m_width_search q) (m_height_search q) (m_limit_search q)
    (m_archive_search q) (m_filesize_search q) (m_hash_search q) (m_mime_terms q) (m_nearby_terms q)
    (m_record_search q) (m_sort_type q) (m_order q) (m_limit q) (m_offset q) v (m_negative_tags q)
    (m_namespace_ids q) (m_tag_names q) (m_namespace_names q) (m_positive_wildcards q) (m_negative_wildcards
    q) (m_display_mode q) (m_include_deleted q).
Definition set_negative_tags (v : list TagID) (q : SearchQuery) : SearchQuery :=
  mkQuery (m_duration_search q) (m_audio_search q) (m_exif_search q) (m_icc_profile_search q)
    (m_embedded_metadata_search q) (m_has_tags_search q) (m_in_archive_search q) (m_is_archive_search q)
    (m_search_everything q) (m_tag_count_search q) (m_width_search q) (m_height_search q) (m_limit_search q)
    (m_archive_search q) (m_filesize_search q) (m_hash_search q) (m_mime_terms q) (m_nearby_terms q)
    (m_record_search q) (m_sort_type q) (m_order q) (m_limit q) (m_offset q) (m_positive_tags q) v
    (m_namespace_ids q) (m_tag_names q) (m_namespace_names q) (m_positive_wildcards q) (m_negative_wildcards
    q) (m_display_mode q) (m_include_deleted q).
Definition set_namespace_ids (v : list NamespaceID) (q : SearchQuery) : SearchQuery :=
  mkQuery (m_duration_search q) (m_audio_search q) (m_exif_search q) (m_icc_profile_search q)
    (m_embedded_metadata_search q) (m_has_tags_search q) (m_in_archive_search q) (m_is_archive_search q)
    (m_search_everything q) (m_tag_count_search q) (m_width_search q) (m_height_search q) (m_limit_search q)
    (m_archive_search q) (m_filesize_search q) (m_hash_search q) (m_mime_terms q) (m_nearby_terms q)
    (m_record_search q) (m_sort_type q) (m_order q) (m_limit q) (m_offset q) (m_positive_tags q)
    (m_negative_tags q) v (m_tag_names q) (m_namespace_names q) (m_positive_wildcards q)
    (m_negative_wildcards q) (m_display_mode q) (m_include_deleted q).
Definition set_tag_names (v : gmap Z string) (q : SearchQuery) : SearchQuery :=
  mkQuery (m_duration_search q) (m_audio_search q) (m_exif_search q) (m_icc_profile_search q)
    (m_embedded_metadata_search q) (m_has_tags_search q) (m_in_archive_search q) (m_is_archive_search q)
    (m_search_everything q) (m_tag_count_search q) (m_width_search q) (m_height_search q) (m_limit_search q)
    (m_archive_search q) (m_filesize_search q) (m_hash_search q) (m_mime_terms q) (m_nearby_terms q)
    (m_record_search q) (m_sort_type q) (m_order q) (m_limit q) (m_offset q) (m_positive_tags q)
    (m_negative_tags q) (m_namespace_ids q) v (m_namespace_names q) (m_positive_wildcards q)
    (m_negative_wildcards q) (m_display_mode q) (m_include_deleted q).
Definition set_namespace_names (v : gmap Z string) (q : SearchQuery) : SearchQuery :=
  mkQuery (m_duration_search q) (m_audio_search q) (m_exif_search q) (m_icc_profile_search q)
    (m_embedded_metadata_search q) (m_has_tags_search q) (m_in_archive_search q) (m_is_archive_search q)
    (m_search_everything q) (m_tag_count_search q) (m_width_search q) (m_height_search q) (m_limit_search q)
    (m_archive_search q) (m_filesize_search q) (m_hash_search q) (m_mime_terms q) (m_nearby_terms q)
    (m_record_search q) (m_sort_type q) (m_order q) (m_limit q) (m_offset q) (m_positive_tags q)
    (m_negative_tags q) (m_namespace_ids q) (m_tag_names q) v (m_positive_wildcards q) (m_negative_wildcards
    q) (m_display_mode q) (m_include_deleted q).
Definition set_positive_wildcards (v : list WildcardGroup) (q : SearchQuery) : SearchQuery :=
  mkQuery (m_duration_search q) (m_audio_search q) (m_exif_search q) (m_icc_profile_search q)
    (m_embedded_metadata_search q) (m_has_tags_search q) (m_in_archive_search q) (m_is_archive_search q)
    (m_search_everything q) (m_tag_count_search q) (m_width_search q) (m_height_search q) (m_limit_search q)
    (m_archive_search q) (m_filesize_search q) (m_hash_search q) (m_mime_terms q) (m_nearby_terms q)
    (m_record_search q) (m_sort_type q) (m_order q) (m_limit q) (m_offset q) (m_positive_tags q)
    (m_negative_tags q) (m_namespace_ids q) (m_tag_names q) (m_namespace_names q) v (m_negative_wildcards q)
    (m_display_mode q) (m_include_deleted q).
Definition set_negative_wildcards (v : list WildcardGroup) (q : SearchQuery) : SearchQuery :=
  mkQuery (m_duration_search q) (m_audio_search q) (m_exif_search q) (m_icc_profile_search q)
    (m_embedded_metadata_search q) (m_has_tags_search q) (m_in_archive_search q) (m_is_archive_search q)
    (m_search_everything q) (m_tag_count_search q) (m_width_search q) (m_height_search q) (m_limit_search q)
    (m_archive_search q) (m_filesize_search q) (m_hash_search q) (m_mime_terms q) (m_nearby_terms q)
    (m_record_search q) (m_sort_type q) (m_order q) (m_limit q) (m_offset q) (m_positive_tags q)
    (m_negative_tags q) (m_namespace_ids q) (m_tag_names q) (m_namespace_names q) (m_positive_wildcards q) v
    (m_display_mode q) (m_include_deleted q).
Definition set_display_mode (v : HydrusDisplayType) (q : SearchQuery) : SearchQuery :=
  mkQuery (m_duration_search q) (m_audio_search q) (m_exif_search q) (m_icc_profile_search q)
    (m_embedded_metadata_search q) (m_has_tags_search q) (m_in_archive_search q) (m_is_archive_search q)
    (m_search_everything q) (m_tag_count_search q) (m_width_search q) (m_height_search q) (m_limit_search q)
    (m_archive_search q) (m_filesize_search q) (m_hash_search q) (m_mime_terms q) (m_nearby_terms q)
    (m_record_search q) (m_sort_type q) (m_order q) (m_limit q) (m_offset q) (m_positive_tags q)
    (m_negative_tags q) (m_namespace_ids q) (m_tag_names q) (m_namespace_names q) (m_positive_wildcards q)
    (m_negative_wildcards q) v (m_include_deleted q).
Definition set_include_deleted (v : bool) (q : SearchQuery) : SearchQuery :=
  mkQuery (m_duration_search q) (m_audio_search q) (m_exif_search q) (m_icc_profile_search q)
    (m_embedded_metadata_search q) (m_has_tags_search q) (m_in_archive_search q) (m_is_archive_search q)
    (m_search_everything q) (m_tag_count_search q) (m_width_search q) (m_height_search q) (m_limit_search q)
    (m_archive_search q) (m_filesize_search q) (m_hash_search q) (m_mime_terms q) (m_nearby_terms q)
    (m_record_search q) (m_sort_type q) (m_order q) (m_limit q) (m_offset q) (m_positive_tags q)
    (m_negative_tags q) (m_namespace_ids q) (m_tag_names q) (m_namespace_names q) (m_positive_wildcards q)
    (m_negative_wildcards q) (m_display_mode q) v.

(** [http::Response::error( status, message )] *)
Record Response := mkResponse { status : Z; message : string }.

Definition badRequest (message : string) : Response := mkResponse 400 message.
Definition notFound (message : string) : Response := mkResponse 404 message.

Record SearchResults := mkResults { record_ids : list RecordID; hashes : list SHA256 }.

Definition toResults (set : Set_) (want_hashes : bool) : SearchResults :=
  mkResults (m_ids set) (if want_hashes then default [] (m_hashes set) else []).

(** ** Filling the query *)

Definition setHashSearch (arguments : string) (q : SearchQuery) : result SearchQuery :=
  hash ← parseHashSearch arguments;
  match m_hash_search q with
  | Some _ => Throw (invalid_argument "Only one hash predicate is supported for now")
  | None => Ok (set_hash_search (Some hash) q)
  end.

Definition impossiblePredicate (q : SearchQuery) : option string :=
  if impossible (m_filesize_search q) then Some "filesize"
  else if impossible (m_width_search q) then Some "width"
  else if impossible (m_height_search q) then Some "height"
  else if impossible (m_archive_search q) then Some "archive"
  else if impossible (m_record_search q) then Some "record"
  else if impossible (m_tag_count_search q) then Some "number of tags"
  else None.

Definition is_subtag (s t : string) : bool := bool_decide (s = t).

(** [None] is the [false] the function returns for a subtag it does not know. *)
Definition setHydrusSystemTags (system_subtag : string) (q : SearchQuery) : result (option SearchQuery) :=
  let is_ := is_subtag system_subtag in
  let range (get : SearchQuery -> RangeSearchInfo) (set : RangeSearchInfo -> SearchQuery -> SearchQuery) :=
    r ← parseRangeSearch (get q) system_subtag; Ok (Some (set r q)) in
  if is_ "everything" then Ok (Some (set_search_everything true q))
  else if is_ "has duration" then Ok (Some (set_duration_search HasDuration q))
  else if is_ "no duration" then Ok (Some (set_duration_search NoDuration q))
  else if is_ "has audio" then Ok (Some (set_audio_search HasAudio q))
  else if is_ "no audio" then Ok (Some (set_audio_search NoAudio q))
  else if is_ "has exif" then Ok (Some (set_exif_search EmbeddedHas q))
  else if is_ "no exif" then Ok (Some (set_exif_search EmbeddedNo q))
  else if is_ "has embedded metadata" then Ok (Some (set_embedded_metadata_search EmbeddedHas q))
  else if is_ "no embedded metadata" then Ok (Some (set_embedded_metadata_search EmbeddedNo q))
  else if is_ "has icc profile" then Ok (Some (set_icc_profile_search EmbeddedHas q))
  else if is_ "no icc profile" then Ok (Some (set_icc_profile_search EmbeddedNo q))
  else if is_ "has tags" then Ok (Some (set_has_tags_search HasTags q))
  else if is_ "no tags" || is_ "untagged" then Ok (Some (set_has_tags_search NoTags q))
  else if starts_with "number of tags" system_subtag then range m_tag_count_search set_tag_count_search
  else if starts_with "height" system_subtag then range m_height_search set_height_search
  else if starts_with "width" system_subtag then range m_width_search set_width_search
  else if starts_with "filesize" system_subtag || starts_with "size" system_subtag then
    r ← parseFilesizeSearch (m_filesize_search q) system_subtag; Ok (Some (set_filesize_search r q))
  else if starts_with "limit" system_subtag then range m_limit_search set_limit_search
  else if starts_with "hash" system_subtag then Some <$> setHashSearch (sdrop 4 system_subtag) q
  else Ok None.

(** One round of the loop of [setSystemTags]. *)
Definition setSystemTag (tag : string) (q : SearchQuery) : result SearchQuery :=
  if negb (starts_with "system:" tag) then
    Throw (invalid_argument ("Invalid system namespace: " +:+ tag))
  else
    let system_subtag := sdrop 7 tag in
    handled ← setHydrusSystemTags system_subtag q;
    match handled with
    | Some q => Ok q
    | None =>
        if starts_with "archive" system_subtag && bool_decide (find_first_of digits system_subtag <> None) then
          r ← parseRangeSearch (m_archive_search q) system_subtag; Ok (set_archive_search r q)
        else if is_subtag system_subtag "is archive" then Ok (set_is_archive_search IsArchive q)
        else if is_subtag system_subtag "is not archive" || is_subtag system_subtag "not archive" then
          Ok (set_is_archive_search NotArchive q)
        else if starts_with "in archive" system_subtag then Ok (set_in_archive_search InArchive q)
        else if starts_with "not in archive" system_subtag then Ok (set_in_archive_search NoArchive q)
        else if starts_with "mime_id" system_subtag then
          ts ← parseMimeSearch (m_mime_terms q) (sdrop 7 system_subtag) true; Ok (set_mime_terms ts q)
        else if starts_with "mime" system_subtag then
          ts ← parseMimeSearch (m_mime_terms q) (sdrop 4 system_subtag) false; Ok (set_mime_terms ts q)
        else if starts_with "sha256" system_subtag then setHashSearch (sdrop 6 system_subtag) q
        else if starts_with "nearby" system_subtag then
          t ← parseNearbySearch (sdrop 6 system_subtag); Ok (set_nearby_terms (m_nearby_terms q ++ [t]) q)
        else if starts_with "record" system_subtag then
          r ← parseRangeSearch (m_record_search q) system_subtag; Ok (set_record_search r q)
        else Throw (invalid_argument ("Unsupported system tag: '" +:+ system_subtag +:+ "'"))
    end.

Fixpoint setSystemTags (tags : list string) (q : SearchQuery) : result SearchQuery :=
  match tags with
  | [] => Ok q
  | tag :: tags => q ← setSystemTag tag q; setSystemTags tags q
  end.

Definition addPositiveTags (ids : list TagID) (q : SearchQuery) : SearchQuery :=
  set_positive_tags (mergeUnique (m_positive_tags q) ids) q.
Definition addNegativeTags (ids : list TagID) (q : SearchQuery) : SearchQuery :=
  set_negative_tags (mergeUnique (m_negative_tags q) ids) q.
Definition addNamespaces (ids : list NamespaceID) (q : SearchQuery) : SearchQuery :=
  set_namespace_ids (mergeUnique (m_namespace_ids q) ids) q.
Definition addPositiveWildcard (ids : list TagID) (pat : string) (q : SearchQuery) : SearchQuery :=
  set_positive_wildcards (appendWildcardGroup (m_positive_wildcards q) ids pat) q.
Definition addNegativeWildcard (ids : list TagID) (pat : string) (q : SearchQuery) : SearchQuery :=
  set_negative_wildcards (appendWildcardGroup (m_negative_wildcards q) ids pat) q.

Definition effectiveLimit (q : SearchQuery) : option Z :=
  match m_limit q with
  | Some l => Some l
  | None => if m_active (m_limit_search q) then upper (m_limit_search q) else None
  end.

(** ** The predicates of a query *)

Definition predicate_resolution_joins : string :=
  " LEFT JOIN image_metadata pim USING (record_id)" +:+ " LEFT JOIN video_metadata pvm USING (record_id)".

Definition range_predicate (joins : string) (expression name : string) (r : RangeSearchInfo) : list PredicateSource :=
  if m_active r then [mkPredicate joins (renderBounds expression r) ("system:" +:+ renderBounds name r)] else [].

(** The [addEmbedded] lambda. *)
Definition embedded_predicate (search : EmbeddedSearchType) (condition name : string) : list PredicateSource :=
  match search with
  | EmbeddedDontCare => []
  | _ =>
      let has_ := match search with EmbeddedHas => true | _ => false end in
      let test := if has_ then "(" +:+ condition +:+ ")" else "(" +:+ condition +:+ ") IS FALSE" in
      [mkPredicate ""
        ("EXISTS (SELECT 1 FROM image_metadata pimd WHERE pimd.record_id = fi.record_id AND " +:+ test +:+ ")")
        ("system:" +:+ (if has_ then "has" else "no") +:+ " " +:+ name)]
  end.

Definition buildPredicates (q : SearchQuery) : list PredicateSource :=
  let mapping := tagMappingTable (m_display_mode q) in
  match m_has_tags_search q with
  | TagCountDontCare => []
  | s =>
      let has_tags := match s with HasTags => true | _ => false end in
      [mkPredicate ""
        ((if has_tags then "EXISTS" else "NOT EXISTS") +:+ " (SELECT 1 FROM " +:+ mapping
         +:+ " ptm WHERE ptm.record_id = fi.record_id)")
        (if has_tags then "system:has tags" else "system:no tags")]
  end
  ++ range_predicate ""
       ("(SELECT COUNT(DISTINCT ptm.tag_id) FROM " +:+ mapping +:+ " ptm WHERE ptm.record_id = fi.record_id)")
       "number of tags" (m_tag_count_search q)
  ++ match m_duration_search q with
     | DurationDontCare => []
     | HasDuration => [mkPredicate ""
         "EXISTS (SELECT 1 FROM video_metadata pvmd WHERE pvmd.record_id = fi.record_id)" "system:has duration"]
     | NoDuration => [mkPredicate ""
         "NOT EXISTS (SELECT 1 FROM video_metadata pvmd WHERE pvmd.record_id = fi.record_id)" "system:no duration"]
     end
  ++ embedded_predicate (m_exif_search q) "pimd.has_exif" "exif"
  ++ embedded_predicate (m_icc_profile_search q) "pimd.has_icc_profile" "icc profile"
  ++ embedded_predicate (m_embedded_metadata_search q)
       "pimd.has_exif OR pimd.has_xmp OR pimd.has_iptc" "embedded metadata"
  ++ match m_in_archive_search q with
     | ArchiveDontCare => []
     | InArchive => [mkPredicate ""
         "EXISTS (SELECT 1 FROM archive_map pam WHERE pam.record_id = fi.record_id)" "system:in archive"]
     | NoArchive => [mkPredicate ""
         "NOT EXISTS (SELECT 1 FROM archive_map pam WHERE pam.record_id = fi.record_id)" "system:not in archive"]
     end
  ++ match m_is_archive_search q with
     | IsArchiveDontCare => []
     | IsArchive => [mkPredicate ""
         "EXISTS (SELECT 1 FROM archive_metadata pamd WHERE pamd.record_id = fi.record_id)" "system:is archive"]
     | NotArchive => [mkPredicate ""
         "NOT EXISTS (SELECT 1 FROM archive_metadata pamd WHERE pamd.record_id = fi.record_id)"
         "system:is not archive"]
     end
  ++ (if m_active (m_archive_search q) then [mkPredicate ""
        ("EXISTS (SELECT 1 FROM archive_map pam WHERE pam.record_id = fi.record_id AND "
         +:+ renderBounds "pam.archive_id" (m_archive_search q) +:+ ")")
        ("system:" +:+ renderBounds "archive" (m_archive_search q))] else [])
  ++ range_predicate predicate_resolution_joins "COALESCE(pim.width, pvm.width)" "width" (m_width_search q)
  ++ range_predicate predicate_resolution_joins "COALESCE(pim.height, pvm.height)" "height" (m_height_search q)
  ++ range_predicate "" "fi.size" "filesize" (m_filesize_search q)
  ++ match m_hash_search q with
     | Some hash => [mkPredicate ""
         ("fi.record_id IN (SELECT phr.record_id FROM records phr WHERE phr.sha256 = '\x" +:+ hex hash +:+ "'::bytea)")
         ("system:sha256 = " +:+ hex hash)]
     | None => []
     end
  ++ range_predicate "" "fi.record_id" "record" (m_record_search q)
  ++ ((fun t => mkPredicate "" (renderNearbyTerm t) (describeNearbyTerm t)) <$> m_nearby_terms q)
  ++ ((fun t => mkPredicate "" (renderMimeTerm t) (describeMimeTerm t)) <$> m_mime_terms q).

(** ** Names for the statistics *)

Definition tag_name_query : string :=
  "SELECT tag_id AS id, tag_text AS name FROM tags" +:+ " WHERE tag_id = ANY($1)".
Definition namespace_name_query : string :=
  "SELECT namespace_id AS id, namespace_text AS name FROM tag_namespaces WHERE namespace_id = ANY($1)".

Abbreviation NameMap := (gmap Z string) (only parsing).

Definition completeNames (db : Database) (query : string) (ids : list Z) (names : NameMap) : result NameMap :=
  match filter (fun id => names !! id = None) ids with
  | [] => Ok names
  | missing =>
      rows ← name_rows db query [BInts missing];
      Ok (foldl (fun names row => <[fst row := snd row]> names) names rows)
  end.

Definition nameOf (names : NameMap) (id : Z) : string :=
  match names !! id with
  | None => to_string id
  | Some name => "'" +:+ name +:+ "'"
  end.

(** ** Resolving tag text *)

Definition resolve_query : string :=
  "SELECT tags.tag_id AS tag_id, input.ord AS ord "
  +:+ "FROM UNNEST($1::TEXT[], $2::TEXT[]) WITH ORDINALITY AS input(namespace_text, subtag_text, ord) "
  +:+ "JOIN tag_namespaces ON tag_namespaces.namespace_text = input.namespace_text "
  +:+ "JOIN tags ON tags.namespace_id = tag_namespaces.namespace_id AND tags.subtag_text = input.subtag_text".

(** [result.emplace( tags[ ord - 1 ], tag_id )] for every row: the first wins. *)
Fixpoint emplace_rows (tags : list string) (rows : list (Z * Z)) (m : gmap string Z) : result (gmap string Z) :=
  match rows with
  | [] => Ok m
  | (tag_id, ord) :: rows =>
      tag ← at_index tags (Z.to_nat (wrapu 64 (ord - 1)));
      emplace_rows tags rows (match m !! tag with Some _ => m | None => <[tag := tag_id]> m end)
  end.

Definition resolveTags (db : Database) (tags : list string) : result (Response + gmap string Z) :=
  let namespaces := (fun t => fst (splitTag t)) <$> tags in
  let subtags := (fun t => snd (splitTag t)) <$> tags in
  rows ← ordinal_rows db resolve_query [BTexts namespaces; BTexts subtags];
  m ← emplace_rows tags rows ∅;
  match head (filter (fun tag => m !! tag = None) tags) with
  | Some tag => Ok (inl (notFound ("Was unable to get ID for tag " +:+ tag +:+ ", Tag does not exist")))
  | None => Ok (inr m)
  end.

(** The iteration order of an [std::unordered_map] is unspecified; here it is
    that of [map_to_list].  It only decides which of two texts of one tag
    labels the statistics. *)
Definition map_values (m : gmap string Z) : list Z := snd <$> map_to_list m.
Definition assign_names (m : gmap string Z) (names : NameMap) : NameMap :=
  foldl (fun names row => <[snd row := fst row]> names) names (map_to_list m).

Definition setTags (db : Database) (tags : list string) (q : SearchQuery) : result (Response + SearchQuery) :=
  let negative_tags := sdrop 1 <$> filter (fun t => starts_with "-" t = true) tags in
  let positive_tags := filter (fun t => starts_with "-" t = false) tags in
  positive ← resolveTags db positive_tags;
  match positive with
  | inl error => Ok (inl error)
  | inr positive_map =>
      negative ← resolveTags db negative_tags;
      match negative with
      | inl error => Ok (inl error)
      | inr negative_map =>
          let q := set_tag_names (assign_names negative_map (assign_names positive_map (m_tag_names q))) q in
          Ok (inr (addNegativeTags (map_values negative_map) (addPositiveTags (map_values positive_map) q)))
      end
  end.

(** [std::ranges::sort] and [unique] on strings, compared byte by byte. *)
Definition string_le (a b : string) : Prop := String.leb a b = true.
#[export] Instance string_le_dec a b : Decision (string_le a b).
Proof. unfold string_le. apply _. Defined.
Definition sort_unique_strings (l : list string) : list string := unique_adjacent (merge_sort string_le l).

(** The namespaces of the wildcards, or the first refusal. *)
Fixpoint wildcard_namespaces (vector : list string) : Response + list string :=
  match vector with
  | [] => inr []
  | tag :: vector =>
      if starts_with "-" tag then
        inl (badRequest ("Negated namespace wildcards are not supported yet: '" +:+ tag +:+ "'"))
      else match find_char ":" tag with
      | None | Some O => inl (badRequest ("Invalid namespace wildcard: '" +:+ tag +:+ "'"))
      | Some namespace_end =>
          match wildcard_namespaces vector with
          | inl error => inl error
          | inr rest => inr (stake namespace_end tag :: rest)
          end
      end
  end.

Definition namespace_query : string :=
  "SELECT namespace_id, namespace_text FROM tag_namespaces WHERE namespace_text = ANY($1)".

Definition setWildcardNamespaces (db : Database) (vector : list string) (q : SearchQuery)
    : result (Response + SearchQuery) :=
  match vector with
  | [] => Ok (inr q)
  | _ =>
      match wildcard_namespaces vector with
      | inl error => Ok (inl error)
      | inr texts =>
          let namespaces := sort_unique_strings texts in
          rows ← name_rows db namespace_query [BTexts namespaces];
          if decide (length rows <> length namespaces) then
            Ok (inl (notFound "One or more namespaces in the search do not exist"))
          else
            let q := set_namespace_names
              (foldl (fun names row => <[fst row := snd row]> names) (m_namespace_names q) rows) q in
            Ok (inr (addNamespaces rows.*1 q))
      end
  end.

Definition wildcard_tag_query : string :=
  "SELECT tag_id FROM tags WHERE tag_text LIKE CASEFOLD(normalize($1, NFC))".

Fixpoint setWildcardTags (db : Database) (vector : list string) (q : SearchQuery)
    : result (Response + SearchQuery) :=
  match vector with
  | [] => Ok (inr q)
  | tag :: vector =>
      let negated_ := starts_with "-" tag in
      let wildcard := if negated_ then sdrop 1 tag else tag in
      if sempty wildcard then Ok (inl (badRequest ("Empty tag wildcard: '" +:+ tag +:+ "'")))
      else
        matched ← id_rows db wildcard_tag_query [BText (wildcardToLikePattern wildcard)];
        match matched with
        | [] => Ok (inl (notFound ("No tags match wildcard '" +:+ wildcard +:+ "'")))
        | _ =>
            setWildcardTags db vector
              (if negated_ then addNegativeWildcard matched wildcard q else addPositiveWildcard matched wildcard q)
        end
  end.

(** ** Running the query *)

(** The fetches [evaluate] queues. *)
Inductive Term : Type :=
| TermTag (tag : TagID)
| TermAny (tags : list TagID)
| TermNamespace (tag_namespace : NamespaceID)
| TermPredicate (p : PredicateSource).

Definition fetchTerm (db : Database) (ctx : FetchContext) (term : Term) (label : string) (stats : SearchStats)
    : result (Set_ * SearchStats) :=
  match term with
  | TermTag tag => fetchTag db ctx tag label stats
  | TermAny tags => fetchAnyTag db ctx tags label stats
  | TermNamespace ns => fetchNamespace db ctx ns label stats
  | TermPredicate p => fetchPredicate db ctx p label stats
  end.

Definition wildcard_terms (sign : ascii) (groups : list WildcardGroup) : list (Term * string) :=
  imap (fun i g => (TermAny (tag_ids g), wildcardLabel sign g i)) groups.

Definition positive_terms (q : SearchQuery) : list (Term * string) :=
  ((fun tag => (TermTag tag, "+tag:" +:+ nameOf (m_tag_names q) tag)) <$> m_positive_tags q)
  ++ wildcard_terms "+" (m_positive_wildcards q)
  ++ ((fun ns => (TermNamespace ns, "+namespace:" +:+ nameOf (m_namespace_names q) ns)) <$> m_namespace_ids q)
  ++ ((fun p => (TermPredicate p, "+" +:+ description p)) <$> buildPredicates q).

Definition negative_terms (q : SearchQuery) : list (Term * string) :=
  ((fun tag => (TermTag tag, "-tag:" +:+ nameOf (m_tag_names q) tag)) <$> m_negative_tags q)
  ++ wildcard_terms "-" (m_negative_wildcards q).

(** [collectAllRange]: the sets in the order of the tasks.  The fetches run
    concurrently, and record their statistics in the order they finish; here
    in the order of the tasks. *)
Fixpoint collectAll (db : Database) (ctx : FetchContext) (tasks : list (Term * string)) (stats : SearchStats)
    : result (list Set_ * SearchStats) :=
  match tasks with
  | [] => Ok ([], stats)
  | (term, label) :: tasks =>
      '(set, stats) ← fetchTerm db ctx term label stats;
      '(sets, stats) ← collectAll db ctx tasks stats;
      Ok (set :: sets, stats)
  end.

Definition record_fold (label : string) (s : Set_) (stats : SearchStats) : SearchStats :=
  record label (length (m_ids s)) Fold 0 (m_inverted s) stats.

(** The loop over the positive sets; [None] while nothing has narrowed. *)
Fixpoint fold_positive (sets : list (Set_ * string)) (acc : option Set_) (stats : SearchStats)
    : result (option Set_ * SearchStats) :=
  match sets with
  | [] => Ok (acc, stats)
  | (s, label) :: sets =>
      r ← match acc with Some a => set_and a s | None => Ok s end;
      fold_positive sets (Some r) (record_fold label r stats)
  end.

Fixpoint fold_negative (sets : list (Set_ * string)) (acc : Set_) (stats : SearchStats)
    : result (Set_ * SearchStats) :=
  match sets with
  | [] => Ok (acc, stats)
  | (s, label) :: sets =>
      r ← set_and acc (set_not s);
      fold_negative sets r (record_fold label r stats)
  end.

Definition query_context (q : SearchQuery) (tag_domain_ids : list TagDomainID) (want_hashes : bool) : FetchContext :=
  mkContext (m_sort_type q) want_hashes tag_domain_ids (m_display_mode q) (m_include_deleted q).

(** The names are only completed for the labels. *)
Definition complete_query (db : Database) (q : SearchQuery) : result SearchQuery :=
  tag_names ← completeNames db tag_name_query (m_positive_tags q ++ m_negative_tags q) (m_tag_names q);
  namespace_names ← completeNames db namespace_name_query (m_namespace_ids q) (m_namespace_names q);
  Ok (set_namespace_names namespace_names (set_tag_names tag_names q)).

Definition evaluate (db : Database) (tag_domain_ids : list TagDomainID) (want_hashes : bool) (q : SearchQuery)
    : result (Set_ * SearchQuery * SearchStats) :=
  let type := spec_type (sortKeySpec (m_sort_type q) HydrusDisplayType_DEFAULT) in
  match impossiblePredicate q with
  | Some name =>
      Ok (emptyOf type, q, record ("system:" +:+ name +:+ " (impossible range)") 0 Fold 0 false [])
  | None =>
      q ← complete_query db q;
      let ctx := query_context q tag_domain_ids want_hashes in
      let tasks := positive_terms q ++ negative_terms q in
      '(sets, stats) ← collectAll db ctx tasks [];
      let labelled := zip sets tasks.*2 in
      let positive_count := length (positive_terms q) in
      '(narrowed, stats) ← fold_positive (take positive_count labelled) None stats;
      let result := match narrowed with Some s => s | None => set_not (emptyOf type) end in
      '(result, stats) ← fold_negative (drop positive_count labelled) result stats;
      Ok (result, q, stats)
  end.

(** [shuffle_order n]: the permutation of [n] indices the random device
    draws. *)
Definition query (db : Database) (shuffle_order : nat -> list nat) (tag_domain_ids : list TagDomainID)
    (return_hashes : bool) (q : SearchQuery) : result (SearchResults * SearchQuery * SearchStats) :=
  let limit := effectiveLimit q in
  let offset := default 0 (m_offset q) in
  '(set, q, stats) ← evaluate db tag_domain_ids return_hashes q;
  if m_inverted set then
    '(page, stats) ← fetchPage db (query_context q [] return_hashes) (m_ids set) (m_order q) offset limit stats;
    Ok (toResults page return_hashes, q, stats)
  else
    set ← if decide (m_sort_type q = RANDOM) then set_shuffle (shuffle_order (length (m_ids set))) set
          else match m_order q with DESC => set_reverse set | ASC => Ok set end;
    set ← set_slice (Z.to_nat offset) (Z.to_nat <$> limit) set;
    let label := "page (offset " +:+ to_string offset +:+ ", limit "
      +:+ (match limit with Some l => to_string l | None => "none" end) +:+ ")" in
    Ok (toResults set return_hashes, q, record label (length (m_ids set)) Page 0 false stats).

(** ** Which records a run returns *)

Definition term_sql (ctx : FetchContext) (term : Term) : string :=
  match term with
  | TermTag tag => mapping_query ctx EmptyString ("f.tag_id = " +:+ to_string tag +:+ domainFilter ctx)
  | TermAny tags =>
      mapping_query ctx EmptyString ("f.tag_id = ANY(" +:+ arrayLiteral tags +:+ ")" +:+ domainFilter ctx)
  | TermNamespace ns => mapping_query ctx " JOIN tags t USING (tag_id)"
      ("t.namespace_id = " +:+ to_string ns +:+ domainFilter ctx)
  | TermPredicate p => predicate_query (clear_domains ctx) p
  end.

Definition term_bindings (ctx : FetchContext) (term : Term) : list Binding :=
  match term with TermPredicate _ => [] | _ => domain_bindings ctx end.

(** The records the database answers a term's query with. *)
Definition answer_ids (db : Database) (F : frame) (ctx : FetchContext) (term : Term) : list RecordID :=
  match search_rows db (term_sql ctx term) (term_bindings ctx term) (f_type F) (f_want F) with
  | Ok rows => row_id <$> rows
  | Throw _ => []
  end.

Definition answered (db : Database) (F : frame) (ctx : FetchContext) (id : RecordID) (task : Term * string) : bool :=
  bool_decide (id ∈ answer_ids db F ctx (fst task)).

(** What a run relies on: the database answers every query of the plan with
    rows of the search, in the order the query asks for. *)
Definition answers_plan (db : Database) (F : frame) (ctx : FetchContext) (tasks : list (Term * string)) : Prop :=
  Forall (fun task => ordered F (answer_ids db F ctx (fst task))
    /\ answers db F (term_sql ctx (fst task)) (term_bindings ctx (fst task)) (answer_ids db F ctx (fst task))) tasks.

(** The records that satisfy a query: in the answer of every positive term
    and of no negative one. *)
Definition matches (db : Database) (F : frame) (ctx : FetchContext) (q : SearchQuery) (id : RecordID) : bool :=
  forallb (answered db F ctx id) (positive_terms q)
  && forallb (fun t => negb (answered db F ctx id t)) (negative_terms q).

Section evaluation.
Context (db : Database) (F : frame) (HF : frame_ok F) (Hh : hashed F).

Lemma fetchTerm_of ctx term label stats :
  fits F ctx -> answers db F (term_sql ctx term) (term_bindings ctx term) (answer_ids db F ctx term) ->
  exists stats', fetchTerm db ctx term label stats
    = Ok (set_of F (unique_adjacent (answer_ids db F ctx term)), stats').
Proof.
  intros Hf Ha. destruct term as [tag|tags|ns|p]; eexists; cbn [fetchTerm];
    unfold fetchTag, fetchAnyTag, fetchNamespace, fetchPredicate;
    (apply (runFetch_of F HF Hh); [done|exact Ha]).
Qed.

Definition task_set (ctx : FetchContext) (task : Term * string) : Set_ :=
  set_of F (unique_adjacent (answer_ids db F ctx (fst task))).

Lemma task_set_ok ctx task : ordered F (answer_ids db F ctx (fst task)) -> set_ok F (task_set ctx task).
Proof. intros H. by apply set_of_ok. Qed.

Lemma task_set_denotes ctx task id : denotes (task_set ctx task) id = answered db F ctx id task.
Proof.
  unfold denotes, answered, task_set, set_of. cbn [m_inverted m_ids]. rewrite xorb_false_l. apply bool_decide_ext. apply elem_of_unique_adjacent.
Qed.

Lemma collectAll_of ctx tasks stats :
  fits F ctx -> answers_plan db F ctx tasks ->
  exists stats', collectAll db ctx tasks stats = Ok (task_set ctx <$> tasks, stats').
Proof.
  intros Hf Hp. revert stats. induction Hp as [|[term label] tasks [Ho Ha] Hp IH]; intros stats; cbn [collectAll].
  { by eexists. }
  destruct (fetchTerm_of ctx term label stats Hf Ha) as [stats1 ->]. cbn [mbind result_bind].
  destruct (IH stats1) as [stats2 ->]. by eexists.
Qed.

Lemma zip_labels ctx tasks : zip (task_set ctx <$> tasks) tasks.*2 = (fun t => (task_set ctx t, snd t)) <$> tasks.
Proof. induction tasks as [|t tasks IH]; [done|]. cbn. by f_equal. Qed.

Lemma fold_positive_some ctx tasks acc stats :
  Forall (fun t => ordered F (answer_ids db F ctx (fst t))) tasks -> set_ok F acc -> m_inverted acc = false ->
  exists s stats', fold_positive ((fun t => (task_set ctx t, snd t)) <$> tasks) (Some acc) stats = Ok (Some s, stats')
    /\ set_ok F s /\ m_inverted s = false
    /\ forall id, denotes s id = denotes acc id && forallb (answered db F ctx id) tasks.
Proof.
  intros Ht. revert acc stats. induction Ht as [|t tasks Ht Hts IH]; intros acc stats Hacc Hinv.
  { exists acc, stats. split_and!; [done..|]. intros id. cbn. by rewrite andb_true_r. }
  cbn [fmap list_fmap fold_positive].
  destruct (set_and_ok F HF acc (task_set ctx t) Hacc) as (s & -> & Hs & Hi & Hd); [by apply task_set_ok|].
  cbn [mbind result_bind]. destruct (IH s (record_fold (snd t) s stats) Hs) as (s' & st' & H1 & H2 & H3 & H4).
  { by rewrite Hi, Hinv. }
  exists s', st'. split_and!; [done..|]. intros id. rewrite H4, Hd, task_set_denotes. cbn. by rewrite andb_assoc.
Qed.

Lemma fold_positive_none ctx tasks stats :
  Forall (fun t => ordered F (answer_ids db F ctx (fst t))) tasks -> tasks <> [] ->
  exists s stats', fold_positive ((fun t => (task_set ctx t, snd t)) <$> tasks) None stats = Ok (Some s, stats')
    /\ set_ok F s /\ m_inverted s = false
    /\ forall id, denotes s id = forallb (answered db F ctx id) tasks.
Proof.
  intros Ht Hne. destruct Ht as [|t tasks Ht Hts]; [done|]. cbn [fmap list_fmap fold_positive mbind result_bind].
  destruct (fold_positive_some ctx tasks (task_set ctx t) (record_fold (snd t) (task_set ctx t) stats) Hts)
    as (s & st & H1 & H2 & H3 & H4); [by apply task_set_ok|done|].
  exists s, st. split_and!; [done..|]. intros id. rewrite H4, task_set_denotes. done.
Qed.

Lemma fold_negative_ok ctx tasks acc stats :
  Forall (fun t => ordered F (answer_ids db F ctx (fst t))) tasks -> set_ok F acc ->
  exists s stats', fold_negative ((fun t => (task_set ctx t, snd t)) <$> tasks) acc stats = Ok (s, stats')
    /\ set_ok F s /\ m_inverted s = m_inverted acc
    /\ forall id, denotes s id = denotes acc id && forallb (fun t => negb (answered db F ctx id t)) tasks.
Proof.
  intros Ht. revert acc stats. induction Ht as [|t tasks Ht Hts IH]; intros acc stats Hacc.
  { exists acc, stats. split_and!; [done..|]. intros id. cbn. by rewrite andb_true_r. }
  cbn [fmap list_fmap fold_negative].
  destruct (set_and_ok F HF acc (set_not (task_set ctx t)) Hacc) as (s & -> & Hs & Hi & Hd);
    [by apply set_not_ok, task_set_ok|].
  cbn [mbind result_bind]. destruct (IH s (record_fold (snd t) s stats) Hs) as (s' & st' & H1 & H2 & H3 & H4).
  exists s', st'. split_and!; [done..| |].
  - rewrite H3, Hi. cbn. by rewrite andb_true_r.
  - intros id. rewrite H4, Hd, set_not_denotes, task_set_denotes. cbn. by rewrite andb_assoc.
Qed.

Lemma emptyOf_ok : set_ok F (emptyOf (f_type F)).
Proof.
  split; [split|].
  - cbn. by destruct (f_type F).
  - unfold hashes_ok. destruct (f_want F); [by right|done].
  - constructor.
Qed.
End evaluation.

(** The members of a query that decide what its context and plan are survive
    the completion of the names. *)
Lemma complete_query_context db q q' dom want :
  complete_query db q = Ok q' -> query_context q' dom want = query_context q dom want
    /\ m_order q' = m_order q /\ effectiveLimit q' = effectiveLimit q /\ m_sort_type q' = m_sort_type q.
Proof.
  unfold complete_query. intros H. bind_inv H. injection H as <-. done.
Qed.

Section runs.
Context (db : Database) (F : frame) (HF : frame_ok F) (Hh : hashed F).

Definition plan_ready (q q' : SearchQuery) (ctx : FetchContext) : Prop :=
  impossiblePredicate q = None /\ complete_query db q = Ok q' /\ fits F ctx
  /\ answers_plan db F ctx (positive_terms q' ++ negative_terms q').

Lemma evaluate_ok q q' dom want :
  plan_ready q q' (query_context q dom want) ->
  exists s stats, evaluate db dom want q = Ok (s, q', stats) /\ set_ok F s
    /\ m_inverted s = bool_decide (positive_terms q' = [])
    /\ forall id, denotes s id = matches db F (query_context q dom want) q' id.
Proof.
  intros (Himp & Hc & Hfits & Hplan). unfold evaluate. rewrite Himp, Hc. cbn [mbind result_bind].
  destruct (complete_query_context _ _ _ dom want Hc) as (Hctx & _ & _ & Hst). rewrite Hctx.
  set (ctx := query_context q dom want) in *.
  destruct (collectAll_of db F HF Hh ctx _ [] Hfits Hplan) as [st1 ->]. cbn [mbind result_bind].
  rewrite zip_labels, <- fmap_take, <- fmap_drop, take_app_length, drop_app_length.
  apply Forall_app in Hplan as [Hp Hn].
  assert (Hpo : Forall (fun t => ordered F (answer_ids db F ctx (fst t))) (positive_terms q'))
    by (eapply Forall_impl; [exact Hp|]; by intros ? [? ?]).
  assert (Hno : Forall (fun t => ordered F (answer_ids db F ctx (fst t))) (negative_terms q'))
    by (eapply Forall_impl; [exact Hn|]; by intros ? [? ?]).
  unfold matches. destruct (decide (positive_terms q' = [])) as [Hnil|Hne].
  - rewrite Hnil. cbn [fmap list_fmap fold_positive mbind result_bind].
    assert (Htype : spec_type (sortKeySpec (m_sort_type q) HydrusDisplayType_DEFAULT) = f_type F) by apply Hfits.
    rewrite Htype.
    destruct (fold_negative_ok db F HF ctx _ (set_not (emptyOf (f_type F))) st1 Hno) as (s & st2 & -> & H2 & H3 & H4).
    { apply set_not_ok, emptyOf_ok. }
    exists s, st2. split_and!; [done..| |].
    + by rewrite H3, bool_decide_true.
    + intros id. rewrite H4. done.
  - destruct (fold_positive_none db F HF ctx _ st1 Hpo Hne) as (s0 & st2 & -> & Hs0 & Hi0 & Hd0).
    cbn [mbind result_bind].
    destruct (fold_negative_ok db F HF ctx _ s0 st2 Hno Hs0) as (s & st3 & -> & H2 & H3 & H4).
    exists s, st3. split_and!; [done..| |].
    + by rewrite H3, bool_decide_false.
    + intros id. by rewrite H4, Hd0.
Qed.
End runs.

(** A page read from an aligned set. *)
Lemma toResults_aligned F s want :
  aligned F s -> f_want F = want ->
  toResults s want = mkResults (m_ids s) (if want then f_hash F <$> m_ids s else []).
Proof.
  intros [_ Hh] Hw. unfold toResults, hashes_ok in *. rewrite Hw in Hh. destruct want; [|done].
  destruct Hh as [->|[-> Hnil]]; [done|]. by rewrite Hnil.
Qed.

(** C1: a run of a query whose predicates are satisfiable evaluates to a
    well-formed set of the search that denotes exactly the records in the
    database's answer to every positive term (tags, wildcard groups,
    namespaces, [system:] predicates) and to no negative term; it is stored
    as a complement exactly when the query has no positive term. *)
Theorem evaluate_selects_matching_records (db : Database) (F : frame) (q q' : SearchQuery)
    (dom : list TagDomainID) (want : bool) :
  frame_ok F -> hashed F -> plan_ready db F q q' (query_context q dom want) ->
  exists s stats, evaluate db dom want q = Ok (s, q', stats) /\ set_ok F s
    /\ m_inverted s = bool_decide (positive_terms q' = [])
    /\ forall id, denotes s id = matches db F (query_context q dom want) q' id.
Proof. intros HF Hh. by apply evaluate_ok. Qed.

(** A query with a positive term and a deterministic sort returns the requested
    page of the matching records in ascending (key, id) order, or descending
    when asked, each with its own hash when hashes are asked for. *)
Theorem positive_query_returns_page (db : Database) (F : frame) (sh : nat -> list nat) (q q' : SearchQuery)
    (dom : list TagDomainID) (want : bool) :
  frame_ok F -> hashed F -> plan_ready db F q q' (query_context q dom want) ->
  positive_terms q' <> [] -> m_sort_type q <> RANDOM ->
  exists ids stats,
    StronglySorted (row_lt F) ids
    /\ (forall id, id ∈ ids <-> matches db F (query_context q dom want) q' id = true)
    /\ let shown := page (Z.to_nat (default 0 (m_offset q))) (Z.to_nat <$> effectiveLimit q)
         (match m_order q with DESC => reverse ids | ASC => ids end) in
       query db sh dom want q
         = Ok (mkResults shown (if want then f_hash F <$> shown else []), q', stats).
Proof.
  intros HF Hh Hready Hpos Hrandom.
  destruct (evaluate_ok db F HF Hh q q' dom want Hready) as (s & st & Hev & [Hal Hso] & Hinv & Hd).
  destruct Hready as (_ & Hc & [_ Hw] & _).
  destruct (complete_query_context _ _ _ dom want Hc) as (_ & Ho & _ & Hst).
  rewrite bool_decide_false in Hinv by done.
  unfold query. rewrite Hev. cbn [mbind result_bind]. rewrite Hinv, Hst, Ho, decide_False by done.
  assert (Hord : exists s1, match m_order q with DESC => set_reverse s | ASC => Ok s end = Ok s1
    /\ aligned F s1 /\ m_ids s1 = match m_order q with DESC => reverse (m_ids s) | ASC => m_ids s end).
  { destruct (m_order q); [by exists s|].
    destruct (set_reverse_aligned F HF s Hal) as (s1 & H1 & H2 & H3 & _). by exists s1. }
  destruct Hord as (s1 & -> & Hal1 & Hids1). cbn [mbind result_bind].
  destruct (set_slice_aligned F HF (Z.to_nat (default 0 (m_offset q))) (Z.to_nat <$> effectiveLimit q) s1 Hal1)
    as (s2 & -> & Hal2 & Hids2 & _). cbn [mbind result_bind].
  exists (m_ids s). eexists. split; [done|]. split.
  - intros id. rewrite <- Hd. unfold denotes. rewrite Hinv, xorb_false_l. by rewrite bool_decide_eq_true.
  - cbn zeta. rewrite (toResults_aligned F s2 want Hal2) by done. rewrite Hids2, Hids1. done.
Qed.

(** A range no value can satisfy makes the whole search answer with no
    record, whatever the database holds and without asking it anything. *)
Theorem impossible_range_returns_nothing (db : Database) (sh : nat -> list nat) (q : SearchQuery)
    (dom : list TagDomainID) (want : bool) (name : string) :
  impossiblePredicate q = Some name ->
  exists stats, query db sh dom want q = Ok (mkResults [] [], q, stats).
Proof.
  intros Himp. unfold query, evaluate. rewrite Himp. cbn [mbind result_bind].
  set (e := emptyOf _). change (m_inverted e) with false. cbn iota.
  assert (Hpass : (if decide (m_sort_type q = RANDOM) then set_shuffle (sh (length (m_ids e))) e
    else match m_order q with DESC => set_reverse e | ASC => Ok e end) = Ok e).
  { case_decide; [done|]. destruct (m_order q); [done|]. unfold e. by destruct (m_sort_type q). }
  rewrite Hpass. cbn [mbind result_bind].
  unfold set_slice. rewrite decide_True by (cbn; lia). cbn [mbind result_bind]. eexists.
  unfold toResults. cbn. by destruct want.
Qed.

(** A database for the witnesses: tag 1 is on records 1, 2 and 4, tag 2 on 2
    and 4, tag 3 on 4; the size of a record is its id. *)
Definition demo_hash (id : RecordID) : SHA256 := replicate 32 (id mod 256).
Definition demo_search : frame := mkFrame KeyInteger IntegerKey demo_hash true.
Definition demo_db : Database := mkDatabase
  (fun sql _ _ _ => Ok (row_of demo_search <$>
    (if contains "f.tag_id = 1" sql then [1; 2; 4] else if contains "f.tag_id = 2" sql then [2; 4; 4]
     else if contains "f.tag_id = 3" sql then [4] else [])))
  (fun _ _ => Ok []) (fun _ _ => Ok []) (fun _ _ => Ok []) (fun _ => 0).
Definition demo_query : SearchQuery := addNegativeTags [3] (addPositiveTags [2; 1] SearchQuery_default).

Lemma demo_search_ok : frame_ok demo_search.
Proof. done. Qed.

Lemma demo_search_hashed : hashed demo_search.
Proof. split; [intros id; apply length_replicate|done]. Qed.

Ltac ordered_list :=
  repeat first [apply SSorted_nil | apply SSorted_cons | apply Forall_nil_2 | apply Forall_cons; split
    | right; reflexivity | left; reflexivity].

Lemma demo_query_ready : plan_ready demo_db demo_search demo_query demo_query (query_context demo_query [] true).
Proof.
  split; [reflexivity|]. split; [vm_compute; reflexivity|]. split; [done|].
  assert (Hone : forall tag l, search_rows demo_db (term_sql (query_context demo_query [] true) (TermTag tag)) []
      KeyInteger true = Ok (row_of demo_search <$> l) -> ordered demo_search l ->
    ordered demo_search (answer_ids demo_db demo_search (query_context demo_query [] true) (TermTag tag))
    /\ answers demo_db demo_search (term_sql (query_context demo_query [] true) (TermTag tag)) []
         (answer_ids demo_db demo_search (query_context demo_query [] true) (TermTag tag))).
  { intros tag l Hl Ho. unfold answers, answer_ids. cbn [term_bindings domain_bindings tag_domains query_context
      demo_search f_type f_want]. rewrite Hl. rewrite <- list_fmap_compose. cbn. rewrite list_fmap_id. done. }
  unfold answers_plan. replace (positive_terms demo_query ++ negative_terms demo_query)
    with [(TermTag 1, "+tag:1"); (TermTag 2, "+tag:2"); (TermTag 3, "-tag:3")] by (vm_compute; reflexivity).
  apply Forall_cons. split; [apply (Hone 1 [1; 2; 4])|]; [vm_compute; reflexivity|ordered_list|].
  apply Forall_cons. split; [apply (Hone 2 [2; 4; 4])|];
    [vm_compute; reflexivity|ordered_list|].
  apply Forall_cons. split; [apply (Hone 3 [4])|apply Forall_nil_2]; [vm_compute; reflexivity|ordered_list].
Qed.

Lemma evaluate_selects_matching_records_witness :
  exists s stats, evaluate demo_db [] true demo_query = Ok (s, demo_query, stats)
    /\ denotes s 2 = true /\ denotes s 4 = false.
Proof.
  destruct (evaluate_selects_matching_records demo_db demo_search demo_query demo_query [] true
    demo_search_ok demo_search_hashed demo_query_ready) as (s & stats & H1 & _ & _ & H2).
  exists s, stats. split; [exact H1|]. rewrite !H2. split; vm_compute; reflexivity.
Defined.

Lemma impossible_range_returns_nothing_witness :
  exists q stats, setSystemTags ["system:width > 10"; "system:width < 5"] SearchQuery_default = Ok q
    /\ query demo_db (fun _ => []) [] true q = Ok (mkResults [] [], q, stats).
Proof.
  eexists.
  destruct (impossible_range_returns_nothing demo_db (fun _ => [])
    (set_width_search (mkRange true (Some 11) (Some 4) false []) SearchQuery_default) [] true "width" eq_refl)
    as [stats H].
  exists stats. split; [vm_compute; reflexivity|exact H].
Defined.

(** The page query of a search without positive terms, and its binding. *)
Definition page_sql (q : SearchQuery) (want : bool) (excluded : list RecordID) : string :=
  buildPageQuery (m_sort_type q) want (match excluded with [] => false | _ => true end) (m_order q)
    (default 0 (m_offset q)) (effectiveLimit q) (m_display_mode q) (m_include_deleted q).
Definition page_bindings (excluded : list RecordID) : list Binding :=
  match excluded with [] => [] | l => [BInts l] end.

(** A query without positive terms pages through the whole library: the
    exclusion list it binds to the page query holds exactly the records that
    do not match, without duplicates, and the results are the rows that query
    answers with, each with its own hash. *)
Theorem negative_query_excludes_non_matching (db : Database) (F : frame) (sh : nat -> list nat)
    (q q' : SearchQuery) (dom : list TagDomainID) (want : bool) :
  frame_ok F -> hashed F -> plan_ready db F q q' (query_context q dom want) -> positive_terms q' = [] ->
  exists excluded,
    NoDup excluded
    /\ (forall id, id ∈ excluded <-> matches db F (query_context q dom want) q' id = false)
    /\ forall ids, answers db F (page_sql q want excluded) (page_bindings excluded) ids ->
       exists stats, let shown := unique_adjacent ids in
       query db sh dom want q = Ok (mkResults shown (if want then f_hash F <$> shown else []), q', stats).
Proof.
  intros HF Hh Hready Hpos.
  destruct (evaluate_ok db F HF Hh q q' dom want Hready) as (s & st & Hev & [Hal Hso] & Hinv & Hd).
  destruct Hready as (_ & Hc & [Ht Hw] & _). cbn in Ht, Hw.
  destruct (complete_query_context _ _ _ [] want Hc) as (Hctx & Ho & Hl & Hst).
  rewrite bool_decide_true in Hinv by done.
  exists (m_ids s). split; [|split].
  - apply (set_ok_NoDup F HF s). by split.
  - intros id. rewrite <- Hd. unfold denotes. rewrite Hinv. cbn. case_bool_decide; done.
  - intros ids Ha. unfold query. rewrite Hev. cbn [mbind result_bind]. rewrite Hinv, Hctx, Ho.
    unfold fetchPage. cbn [sort_type want_hashes query_context display include_deleted].
    rewrite Ht. change (match m_ids s with [] => [] | _ => _ end) with (page_bindings (m_ids s)).
    fold (page_sql q want (m_ids s)).
    pose proof (runTypedFetch_of F HF Hh db _ _ ids Ha) as Hr. rewrite <- Hw in Hr. rewrite Hr.
    cbn [mbind result_bind]. eexists. cbn zeta. unfold toResults. cbn.
    destruct want; [by rewrite <- Hw|done].
Qed.

Definition demo_negative : SearchQuery := addNegativeTags [3] SearchQuery_default.

Lemma demo_negative_ready :
  plan_ready demo_db demo_search demo_negative demo_negative (query_context demo_negative [] true).
Proof.
  split; [reflexivity|]. split; [vm_compute; reflexivity|]. split; [done|].
  unfold answers_plan. replace (positive_terms demo_negative ++ negative_terms demo_negative)
    with [(TermTag 3, "-tag:3")] by (vm_compute; reflexivity).
  apply Forall_cons. split; [|apply Forall_nil_2]. cbn [fst].
  replace (answer_ids demo_db demo_search (query_context demo_negative [] true) (TermTag 3)) with [4]
    by (vm_compute; reflexivity).
  split; [ordered_list|vm_compute; reflexivity].
Qed.

Lemma negative_query_excludes_non_matching_witness :
  exists excluded, NoDup excluded /\ forall id, id ∈ excluded <->
    matches demo_db demo_search (query_context demo_negative [] true) demo_negative id = false.
Proof.
  destruct (negative_query_excludes_non_matching demo_db demo_search (fun _ => []) demo_negative demo_negative
    [] true demo_search_ok demo_search_hashed demo_negative_ready ltac:(reflexivity)) as (excluded & H1 & H2 & _).
  exists excluded. split; [exact H1|exact H2].
Defined.

(** *** Pages of both kinds of query *)

Lemma unique_adjacent_NoDup {A} `{EqDecision A} (l : list A) : NoDup l -> unique_adjacent l = l.
Proof.
  assert (Hf : forall l (x : A), NoDup (x :: l) -> unique_from x l = l).
  { clear l. induction l as [|y l IH]; intros x Hn; [done|]. cbn [unique_from]. apply NoDup_cons in Hn as [Hx Hn].
    rewrite decide_False by (intros ->; apply Hx; by left). by rewrite IH. }
  destruct l as [|x l]; [done|]. intros Hn. cbn [unique_adjacent]. by rewrite Hf.
Qed.

Lemma NoDup_page off lim l : NoDup l -> NoDup (page off lim l).
Proof. intros H. unfold page. assert (Hd : NoDup (drop off l)) by (eapply sublist_NoDup; [exact H|apply sublist_drop]). destruct lim; [|done]. eapply sublist_NoDup; [exact Hd|apply sublist_take]. Qed.

Lemma strongly_sorted_filter {A} (R : relation A) (P : A -> Prop) `{!forall x, Decision (P x)} l : StronglySorted R l -> StronglySorted R (filter P l).
Proof.
  induction 1 as [|x l Hs IH Hx]; [constructor|]. rewrite filter_cons. case_decide; [|done]. constructor; [done|].
  apply Forall_forall. intros y [_ Hy]%list_elem_of_filter. rewrite Forall_forall in Hx. by apply Hx.
Qed.

(** The records a page of the query is cut from, in its order. *)
Definition in_order (q : SearchQuery) (ids : list RecordID) : list RecordID := match m_order q with DESC => reverse ids | ASC => ids end.
Definition requested_page (q : SearchQuery) (ids : list RecordID) : list RecordID :=
  page (Z.to_nat (default 0 (m_offset q))) (Z.to_nat <$> effectiveLimit q) (in_order q ids).

(** The database holds the records [library] and answers the page query of [q] as SQL says: with those that are not excluded, in the order asked for,
    cut to the offset and the limit. *)
Definition answers_pages (db : Database) (F : frame) (q : SearchQuery) (want : bool) (library : list RecordID) : Prop :=
  StronglySorted (row_lt F) library
  /\ forall excluded, answers db F (page_sql q want excluded) (page_bindings excluded) (requested_page q (filter (fun id => id ∉ excluded) library)).

(** C2: a query with a deterministic sort returns the requested page of the
    matching records in ascending (key, id) order, or descending when asked,
    each with its own hash when hashes are asked for.  A query without positive
    terms matches among all records of the library, in a single page query;
    for it, the database is taken to answer page queries as SQL says. *)
Theorem query_returns_page (db : Database) (F : frame) (sh : nat -> list nat) (q q' : SearchQuery)
    (dom : list TagDomainID) (want : bool) (library : list RecordID) :
  frame_ok F -> hashed F -> plan_ready db F q q' (query_context q dom want) -> m_sort_type q <> RANDOM ->
  (positive_terms q' = [] -> answers_pages db F q want library) ->
  exists ids stats,
    StronglySorted (row_lt F) ids
    /\ (forall id, id ∈ ids <-> matches db F (query_context q dom want) q' id = true /\ (positive_terms q' = [] -> id ∈ library))
    /\ query db sh dom want q
         = Ok (mkResults (requested_page q ids) (if want then f_hash F <$> requested_page q ids else []), q', stats).
Proof.
  intros HF Hh Hready Hrandom Hpages. destruct (decide (positive_terms q' = [])) as [Hnil|Hpos].
  - destruct (negative_query_excludes_non_matching db F sh q q' dom want HF Hh Hready Hnil) as (excluded & _ & Hex & Hq).
    destruct (Hpages Hnil) as [Hlib Hans]. specialize (Hq _ (Hans excluded)) as [stats Hq]. cbn zeta in Hq.
    assert (Hsorted : StronglySorted (row_lt F) (filter (fun id => id ∉ excluded) library)) by by apply strongly_sorted_filter.
    exists (filter (fun id => id ∉ excluded) library), stats. split; [done|]. split.
    + intros id. rewrite list_elem_of_filter, Hex. destruct (matches _ _ _ _ id); naive_solver.
    + assert (Hn : NoDup (filter (fun id => id ∉ excluded) library)) by (apply (set_ok_NoDup F HF (set_of F _)); split; [apply set_of_aligned|done]).
      rewrite unique_adjacent_NoDup in Hq; [exact Hq|]. unfold requested_page, in_order. apply NoDup_page. destruct (m_order q); [done|by rewrite reverse_Permutation].
  - destruct (positive_query_returns_page db F sh q q' dom want HF Hh Hready Hpos Hrandom) as (ids & stats & Hs & Hi & Hq).
    exists ids, stats. split; [done|]. split; [|exact Hq]. intros id. rewrite Hi. naive_solver.
Qed.

(** The library of the demo database holds the records 1 to 5; a page query asks for those it does not exclude. *)
Definition demo_library : list RecordID := [1; 2; 3; 4; 5].
Definition demo_page (bindings : list Binding) : list RecordID :=
  requested_page demo_negative (filter (fun id => id ∉ match bindings with [BInts l] => l | _ => [] end) demo_library).
Definition demo_pages_db : Database := mkDatabase
  (fun sql bindings _ _ => Ok (row_of demo_search <$> (if contains "f.tag_id = 3" sql then [4] else demo_page bindings)))
  (fun _ _ => Ok []) (fun _ _ => Ok []) (fun _ _ => Ok []) (fun _ => 0).

Lemma demo_pages_ready :
  plan_ready demo_pages_db demo_search demo_negative demo_negative (query_context demo_negative [] true).
Proof.
  split; [reflexivity|]. split; [vm_compute; reflexivity|]. split; [done|].
  unfold answers_plan. replace (positive_terms demo_negative ++ negative_terms demo_negative)
    with [(TermTag 3, "-tag:3")] by (vm_compute; reflexivity).
  apply Forall_cons. split; [|apply Forall_nil_2]. cbn [fst].
  replace (answer_ids demo_pages_db demo_search (query_context demo_negative [] true) (TermTag 3)) with [4]
    by (vm_compute; reflexivity).
  split; [ordered_list|vm_compute; reflexivity].
Qed.

Lemma demo_pages_answered : answers_pages demo_pages_db demo_search demo_negative true demo_library.
Proof.
  split; [unfold demo_library; repeat (apply SSorted_cons || apply SSorted_nil || apply Forall_nil_2 || (apply Forall_cons; split)); done|]. intros excluded. unfold answers. cbn [search_rows demo_pages_db f_type f_want demo_search].
  assert (Hc : contains "f.tag_id = 3" (page_sql demo_negative true excluded) = false) by (by destruct excluded; vm_compute). rewrite Hc.
  by destruct excluded.
Qed.

Lemma query_returns_page_witness :
  (exists ids stats, (forall id, id ∈ ids <->
      matches demo_db demo_search (query_context demo_query [] true) demo_query id = true /\ (positive_terms demo_query = [] -> id ∈ demo_library))
    /\ query demo_db (fun _ => []) [] true demo_query
       = Ok (mkResults ids (demo_hash <$> ids), demo_query, stats))
  /\ exists ids stats, (forall id, id ∈ ids <-> matches demo_pages_db demo_search (query_context demo_negative [] true) demo_negative id = true
         /\ (positive_terms demo_negative = [] -> id ∈ demo_library))
    /\ query demo_pages_db (fun _ => []) [] true demo_negative = Ok (mkResults ids (demo_hash <$> ids), demo_negative, stats).
Proof.
  split.
  - destruct (query_returns_page demo_db demo_search (fun _ => []) demo_query demo_query [] true demo_library
      demo_search_ok demo_search_hashed demo_query_ready ltac:(discriminate) ltac:(discriminate))
      as (ids & stats & _ & H1 & H2).
    exists ids, stats. split; [exact H1|]. rewrite H2. reflexivity.
  - destruct (query_returns_page demo_pages_db demo_search (fun _ => []) demo_negative demo_negative [] true demo_library
      demo_search_ok demo_search_hashed demo_pages_ready ltac:(discriminate) (fun _ => demo_pages_answered))
      as (ids & stats & _ & H1 & H2).
    exists ids, stats. split; [exact H1|]. rewrite H2. reflexivity.
Defined.

(** A random search returns a page of some permutation of the matching
    records, each with its own hash. *)
Theorem random_query_permutes (db : Database) (F : frame) (sh : nat -> list nat) (q q' : SearchQuery)
    (dom : list TagDomainID) (want : bool) :
  frame_ok F -> hashed F -> plan_ready db F q q' (query_context q dom want) ->
  positive_terms q' <> [] -> m_sort_type q = RANDOM -> (forall n, sh n ≡ₚ seq 0 n) ->
  exists ids stats, NoDup ids
    /\ (forall id, id ∈ ids <-> matches db F (query_context q dom want) q' id = true)
    /\ let shown := page (Z.to_nat (default 0 (m_offset q))) (Z.to_nat <$> effectiveLimit q) ids in
       query db sh dom want q
         = Ok (mkResults shown (if want then f_hash F <$> shown else []), q', stats).
Proof.
  intros HF Hh Hready Hpos Hrandom Hsh.
  destruct (evaluate_ok db F HF Hh q q' dom want Hready) as (s & st & Hev & [Hal Hso] & Hinv & Hd).
  destruct Hready as (_ & Hc & [_ Hw] & _).
  destruct (complete_query_context _ _ _ dom want Hc) as (_ & Ho & _ & Hst).
  rewrite bool_decide_false in Hinv by done.
  unfold query. rewrite Hev. cbn [mbind result_bind]. rewrite Hinv, Hst, decide_True by done.
  destruct (set_shuffle_aligned F HF (sh (length (m_ids s))) s Hal) as (s1 & -> & Hal1 & Hids1 & _); [done|].
  cbn [mbind result_bind].
  destruct (set_slice_aligned F HF (Z.to_nat (default 0 (m_offset q))) (Z.to_nat <$> effectiveLimit q) s1 Hal1)
    as (s2 & -> & Hal2 & Hids2 & _). cbn [mbind result_bind].
  exists (m_ids s1). eexists. split; [|split].
  - rewrite Hids1. apply (set_ok_NoDup F HF s). by split.
  - intros id. rewrite Hids1, <- Hd. unfold denotes. rewrite Hinv, xorb_false_l. by rewrite bool_decide_eq_true.
  - cbn zeta. rewrite (toResults_aligned F s2 want Hal2) by done. rewrite Hids2. done.
Qed.

Definition demo_random : frame := mkFrame KeyNone (fun _ => NoKey) demo_hash false.
Definition demo_random_db : Database := mkDatabase
  (fun _ _ _ _ => Ok (row_of demo_random <$> [1; 2; 4])) (fun _ _ => Ok []) (fun _ _ => Ok []) (fun _ _ => Ok [])
  (fun _ => 0).
Definition demo_random_query : SearchQuery := set_sort_type RANDOM (addPositiveTags [1] SearchQuery_default).

Lemma demo_random_ready :
  plan_ready demo_random_db demo_random demo_random_query demo_random_query (query_context demo_random_query [] false).
Proof.
  split; [reflexivity|]. split; [vm_compute; reflexivity|]. split; [done|].
  unfold answers_plan. replace (positive_terms demo_random_query ++ negative_terms demo_random_query)
    with [(TermTag 1, "+tag:1")] by (vm_compute; reflexivity).
  apply Forall_cons. split; [|apply Forall_nil_2]. cbn [fst].
  replace (answer_ids demo_random_db demo_random (query_context demo_random_query [] false) (TermTag 1))
    with [1; 2; 4] by (vm_compute; reflexivity).
  split; [ordered_list|vm_compute; reflexivity].
Qed.

Lemma demo_random_hashed : hashed demo_random.
Proof. split; [intros id; apply length_replicate|done]. Qed.

Lemma random_query_permutes_witness :
  exists ids stats, NoDup ids /\ query demo_random_db (seq 0) [] false demo_random_query
    = Ok (mkResults ids [], demo_random_query, stats).
Proof.
  destruct (random_query_permutes demo_random_db demo_random (seq 0) demo_random_query demo_random_query [] false)
    as (ids & stats & H1 & _ & H2);
    [done|apply demo_random_hashed|apply demo_random_ready|discriminate|reflexivity|reflexivity|].
  exists ids, stats. split; [exact H1|]. rewrite H2. reflexivity.
Defined.

(** ** Predicates that are accepted and have no effect *)

(** [system:has audio] and [system:no audio] are accepted but never used:
    whatever the query, they change neither the records a run returns nor any
    query it sends. *)
Theorem audio_predicate_has_no_effect (db : Database) (sh : nat -> list nat) (q : SearchQuery)
    (dom : list TagDomainID) (want : bool) (tag : string) (audio : AudioSearchType) :
  (tag, audio) ∈ [("system:has audio", HasAudio); ("system:no audio", NoAudio)] ->
  setSystemTag tag q = Ok (set_audio_search audio q)
  /\ ((fun r => (fst (fst r), snd r)) <$> query db sh dom want (set_audio_search audio q))
     = ((fun r => (fst (fst r), snd r)) <$> query db sh dom want q).
Proof.
  intros Htag. split.
  - rewrite !elem_of_cons, elem_of_nil in Htag. by repeat destruct Htag as [[= -> ->]|Htag].
  - assert (Hc : complete_query db (set_audio_search audio q)
      = set_audio_search audio <$> complete_query db q).
    { unfold complete_query.
      cbn [m_positive_tags m_negative_tags m_tag_names m_namespace_ids m_namespace_names set_audio_search].
      destruct (completeNames db tag_name_query _ _); [|done]. cbn [mbind result_bind].
      by destruct (completeNames db namespace_name_query _ _). }
    unfold query, evaluate. cbn [m_sort_type set_audio_search].
    change (impossiblePredicate (set_audio_search audio q)) with (impossiblePredicate q).
    change (effectiveLimit (set_audio_search audio q)) with (effectiveLimit q). cbn [m_offset set_audio_search].
    destruct (impossiblePredicate q) as [name|].
    { cbn [mbind result_bind emptyOf m_inverted m_sort_type m_order set_audio_search].
      destruct (if decide _ then _ else _); [|done]. cbn [mbind result_bind].
      by destruct (set_slice _ _ _). }
    rewrite Hc. destruct (complete_query db q) as [q'|e]; [|done]. cbn [fmap result_fmap mbind result_bind].
    change (positive_terms (set_audio_search audio q')) with (positive_terms q').
    change (negative_terms (set_audio_search audio q')) with (negative_terms q').
    change (query_context (set_audio_search audio q') dom want) with (query_context q' dom want).
    destruct (collectAll _ _ _ _) as [[sets st]|e]; [|done]. cbn [mbind result_bind].
    destruct (fold_positive _ _ _) as [[narrowed st1]|e]; [|done]. cbn [mbind result_bind].
    destruct (fold_negative _ _ _) as [[s st2]|e]; [|done]. cbn [mbind result_bind].
    change (query_context (set_audio_search audio q') [] want) with (query_context q' [] want).
    cbn [m_order m_sort_type set_audio_search].
    destruct (m_inverted s).
    + by destruct (fetchPage _ _ _ _ _ _ _) as [[p st3]|e].
    + destruct (if decide _ then _ else _); [|done]. cbn [mbind result_bind]. by destruct (set_slice _ _ _).
Qed.

Lemma audio_predicate_has_no_effect_witness :
  setSystemTag "system:has audio" demo_query = Ok (set_audio_search HasAudio demo_query).
Proof.
  apply (audio_predicate_has_no_effect demo_db (fun _ => []) demo_query [] true). constructor.
Defined.
