(* ===== verification/Bytes.v ===== *)
(** * Little-endian integers and byte vectors

    What [reinterpret_cast], [std::memcpy] and [#pragma pack] give on the
    little-endian targets the program is built for: a fixed-width unsigned
    integer as its bytes, lowest first, with the two inverse laws. *)
From S2P Require Import Prelude StringView.
From Stdlib Require Import Ascii.
From Stdlib Require String.

Fixpoint le_encode (n : nat) (v : Z) : list Z :=
  match n with
  | O => []
  | S n => v mod 256 :: le_encode n (v / 256)
  end.

Fixpoint le_decode (bytes : list Z) : Z :=
  match bytes with
  | [] => 0
  | b :: bytes => b + 256 * le_decode bytes
  end.

Definition bytes_ok (l : list Z) : Prop := Forall (fun b => is_byte b = true) l.

(** The bytes of a text, and back. *)
Fixpoint string_bytes (s : string) : list Z :=
  match s with
  | EmptyString => []
  | String c s => code c :: string_bytes s
  end.

Fixpoint bytes_string (l : list Z) : string :=
  match l with
  | [] => EmptyString
  | b :: l => String (ascii_of_N (Z.to_N b)) (bytes_string l)
  end.

(** ** Laws *)

Lemma is_byte_bounds b : is_byte b = true <-> 0 <= b < 256.
Proof. unfold is_byte. rewrite andb_true_iff, !Z.leb_le. lia. Qed.

Lemma le_encode_length n v : length (le_encode n v) = n.
Proof. revert v. induction n as [|n IH]; intros v; [done|]. cbn. by rewrite IH. Qed.

Lemma le_encode_ok n v : bytes_ok (le_encode n v).
Proof.
  revert v. induction n as [|n IH]; intros v; constructor; [|apply IH].
  apply is_byte_bounds. apply Z.mod_pos_bound. lia.
Qed.

Lemma le_decode_encode n v : 0 <= v < 256 ^ Z.of_nat n -> le_decode (le_encode n v) = v.
Proof.
  revert v. induction n as [|n IH]; intros v Hv; cbn; [lia|].
  rewrite IH.
  - pose proof (Z.div_mod v 256). lia.
  - rewrite Nat2Z.inj_succ, Z.pow_succ_r in Hv by lia.
    split; [apply Z.div_pos; lia|apply Z.div_lt_upper_bound; lia].
Qed.

Lemma le_decode_bounds l : bytes_ok l -> 0 <= le_decode l < 256 ^ Z.of_nat (length l).
Proof.
  induction 1 as [|b l Hb Hl IH]; cbn [le_decode length]; [lia|].
  apply is_byte_bounds in Hb. rewrite Nat2Z.inj_succ, Z.pow_succ_r by lia. lia.
Qed.

Lemma le_encode_decode l : bytes_ok l -> le_encode (length l) (le_decode l) = l.
Proof.
  induction 1 as [|b l Hb Hl IH]; [done|]. cbn. apply is_byte_bounds in Hb.
  rewrite (Z.mul_comm 256), Z.mod_add, Z.div_add, Z.mod_small, Z.div_small by lia.
  by rewrite Z.add_0_l, IH.
Qed.

Lemma string_bytes_length s : length (string_bytes s) = String.length s.
Proof. induction s as [|c s IH]; [done|]. cbn. by rewrite IH. Qed.

Lemma code_bounds c : 0 <= code c < 256.
Proof. unfold code. pose proof (N_ascii_bounded c). lia. Qed.

Lemma string_bytes_ok s : bytes_ok (string_bytes s).
Proof.
  induction s as [|c s IH]; constructor; [|done]. apply is_byte_bounds, code_bounds.
Qed.

Lemma bytes_string_bytes s : bytes_string (string_bytes s) = s.
Proof.
  induction s as [|c s IH]; [done|]. cbn. rewrite IH. unfold code. by rewrite N2Z.id, ascii_N_embedding.
Qed.

Lemma string_bytes_string l : bytes_ok l -> string_bytes (bytes_string l) = l.
Proof.
  induction 1 as [|b l Hb Hl IH]; [done|]. apply is_byte_bounds in Hb. cbn. rewrite IH. f_equal.
  unfold code. rewrite N_ascii_embedding by lia. lia.
Qed.

#[export] Hint Resolve le_encode_ok string_bytes_ok : idhan.
