(* ===== verification/PtrEvents.v ===== *)
(** * Collapsing the PTR's mapping history: [ptr-core] of the Hydrus importer

    [MappingEvent.hpp], [BucketSpill.cpp], [CollapseChain.cpp],
    [FlattenCollapse.cpp] (one bucket), [RelationsFile.cpp] (collapsing) and
    [TagUsageSet.cpp].  Billions of add and delete events are spilled to
    bucket files, then every bucket is read back, sorted, and each (file, tag)
    pair reduced to the operation its history ends in.  The theorems give the
    result of a bucket as a function of the set of its events, whatever order
    they were written in. *)
From S2P Require Import Prelude StringView Bytes.
From Stdlib Require Import Ascii.
From Stdlib Require String.

(** ** Events *)

Inductive EventOp : Type := Add | Delete.
Definition EventOp_value (op : EventOp) : Z := match op with Add => 0 | Delete => 1 end.

Record MappingEvent := mkEvent {
  hash_id : Z;
  tag_id : Z;
  update_index : Z;
  op : Z;
  pad : Z
}.

#[export] Instance MappingEvent_eq_dec : EqDecision MappingEvent.
Proof. solve_decision. Defined.
#[export] Instance EventOp_eq_dec : EqDecision EventOp.
Proof. solve_decision. Defined.

Definition sizeof_MappingEvent : nat := 12.
Definition BUCKET_COUNT : Z := 4096.
Definition MAX_UPDATE_INDEX : Z := 65535.

Definition bucketFor (hash_id : Z) : Z := hash_id mod BUCKET_COUNT.

Definition eventLess (a b : MappingEvent) : bool :=
  if negb (hash_id a =? hash_id b) then hash_id a <? hash_id b
  else if negb (tag_id a =? tag_id b) then tag_id a <? tag_id b
  else if negb (update_index a =? update_index b) then update_index a <? update_index b
  else op a <? op b.

(** The packed 12 bytes of an event. *)
Definition event_bytes (e : MappingEvent) : list Z :=
  le_encode 4 (hash_id e) ++ le_encode 4 (tag_id e) ++ le_encode 2 (update_index e) ++ [op e; pad e].

Definition event_of_bytes (l : list Z) : MappingEvent :=
  mkEvent (le_decode (take 4 l)) (le_decode (take 4 (drop 4 l))) (le_decode (take 2 (drop 8 l)))
    (le_decode (take 1 (drop 10 l))) (le_decode (take 1 (drop 11 l))).

(** The integers of an event fit their widths, and the code only ever writes
    the two operations with a zero pad. *)
Record event_ok (e : MappingEvent) : Prop := {
  hash_id_ok : 0 <= hash_id e <= uint32_max;
  tag_id_ok : 0 <= tag_id e <= uint32_max;
  update_index_ok : 0 <= update_index e <= MAX_UPDATE_INDEX;
  op_ok : op e = 0 \/ op e = 1;
  pad_ok : pad e = 0
}.

(** ** Bucket files *)

(** The files of the work directory, by name; writing succeeds. *)
Abbreviation files := (gmap string (list Z)) (only parsing).

Definition pad_zeros (width : nat) (s : string) : string :=
  (fix go n := match n with O => s | S n => String "0" (go n) end) (width - String.length s)%nat.

Definition bucketPath (bucket : Z) : string := pad_zeros 4 (to_string bucket) +:+ ".bucket".

Fixpoint events_of_bytes (n : nat) (l : list Z) : list MappingEvent :=
  match n with
  | O => []
  | S n => event_of_bytes (take 12 l) :: events_of_bytes n (drop 12 l)
  end.

Definition readBucket (fs : files) (path : string) : result (list MappingEvent) :=
  match fs !! path with
  | None => Ok []
  | Some content =>
      let size := length content in
      if decide (size mod sizeof_MappingEvent <> 0)%nat then
        Throw (runtime_error ("Bucket " +:+ path +:+ " is " +:+ pretty size +:+ " bytes, not a whole number of events"))
      else Ok (events_of_bytes (size / sizeof_MappingEvent) content)
  end.

Record BucketWriter := mkBucketWriter {
  m_buffer_events : nat;
  m_buffers : gmap Z (list MappingEvent);
  m_counts : gmap Z Z
}.

(** Buckets without an entry are empty. *)
Definition buffer (w : BucketWriter) (bucket : Z) : list MappingEvent := default [] (m_buffers w !! bucket).
Definition count (w : BucketWriter) (bucket : Z) : Z := default 0 (m_counts w !! bucket).

Definition BucketWriter_make (buffer_events : nat) : BucketWriter :=
  mkBucketWriter (match buffer_events with O => 1%nat | n => n end) ∅ ∅.

(** The file is opened for appending, so what it held stays in front. *)
Definition flushBucket (bucket : Z) (s : BucketWriter * files) : BucketWriter * files :=
  let '(w, fs) := s in
  match buffer w bucket with
  | [] => (w, fs)
  | events =>
      let path := bucketPath bucket in
      (mkBucketWriter (m_buffer_events w) (<[bucket := []]> (m_buffers w)) (m_counts w),
       <[path := default [] (fs !! path) ++ concat (event_bytes <$> events)]> fs)
  end.

Definition write (event : MappingEvent) (s : BucketWriter * files) : BucketWriter * files :=
  let '(w, fs) := s in
  let bucket := bucketFor (hash_id event) in
  let w := mkBucketWriter (m_buffer_events w) (<[bucket := buffer w bucket ++ [event]]> (m_buffers w))
    (<[bucket := wrapu 64 (count w bucket + 1)]> (m_counts w)) in
  if decide (m_buffer_events w <= length (buffer w bucket))%nat then flushBucket bucket (w, fs) else (w, fs).

Definition buckets : list Z := Z.of_nat <$> seq 0 (Z.to_nat BUCKET_COUNT).

Definition flush (s : BucketWriter * files) : BucketWriter * files :=
  foldl (fun s bucket => flushBucket bucket s) s buckets.

Definition written (w : BucketWriter) : Z := foldl (fun total bucket => wrapu 64 (total + count w bucket)) 0 buckets.

(** ** Collapsing a chain *)

Record CollapsedOp := mkCollapsed { collapsed_op : EventOp; collapsed_index : Z }.

Definition collapseChain (events : list MappingEvent) : option CollapsedOp :=
  match last events with
  | None => None
  | Some e =>
      if op e =? 1 then Some (mkCollapsed Delete (update_index e))
      else match head (filter (fun e => op e = 0) events) with
      | Some e => Some (mkCollapsed Add (update_index e))
      | None => None
      end
  end.

(** ** Collapsing a bucket *)

(** [definitions.hash( id )] and [definitions.tag( id )]: what the definition
    store promises its readers. *)
Record Definitions := mkDefinitions {
  def_hash : Z -> option (list Z);
  def_tag : Z -> option string
}.

Record CollapsedRecord := mkCollapsedRecord { sha256 : list Z; adds : list Z; dels : list Z }.

Record BucketCollapseResult := mkBucketResult {
  records : list CollapsedRecord;
  events_scanned : Z;
  mappings_after_collapse : Z;
  terminal_deletes : Z;
  terminal_delete_records : Z
}.

Definition BucketCollapseResult_default : BucketCollapseResult := mkBucketResult [] 0 0 0 0.

(** The longest front part whose members satisfy [p], and the rest: what the
    [while] loops that advance an end index compute. *)
Fixpoint span_while {A} (p : A -> bool) (l : list A) : list A * list A :=
  match l with
  | [] => ([], [])
  | x :: l => if p x then let '(a, b) := span_while p l in (x :: a, b) else ([], x :: l)
  end.

(** The loop over the chains of one record; [chain_start] is the front of
    [events]. *)
Fixpoint chain_loop (fuel : nat) (discard : bool) (events : list MappingEvent) (add_tags del_tags : list Z)
    (out : BucketCollapseResult) : result (list Z * list Z * BucketCollapseResult) :=
  match events with
  | [] => Ok (add_tags, del_tags, out)
  | e :: _ =>
      match fuel with
      | O => Throw (logic_error "chain_loop ran out of fuel")
      | S fuel =>
          let '(chain, rest) := span_while (fun x => tag_id x =? tag_id e) events in
          match collapseChain chain with
          | Some c =>
              match collapsed_op c with
              | Add => chain_loop fuel discard rest (add_tags ++ [tag_id e]) del_tags
                  (mkBucketResult (records out) (events_scanned out) (mappings_after_collapse out + 1)
                     (terminal_deletes out) (terminal_delete_records out))
              | Delete =>
                  if discard then chain_loop fuel discard rest add_tags del_tags
                    (mkBucketResult (records out) (events_scanned out) (mappings_after_collapse out)
                       (terminal_deletes out + 1) (terminal_delete_records out))
                  else chain_loop fuel discard rest add_tags (del_tags ++ [tag_id e])
                    (mkBucketResult (records out) (events_scanned out) (mappings_after_collapse out + 1)
                       (terminal_deletes out + 1) (terminal_delete_records out))
              end
          | None => chain_loop fuel discard rest add_tags del_tags out
          end
      end
  end.

(** The loop over the records of a bucket. *)
Fixpoint record_loop (fuel : nat) (definitions : Definitions) (discard : bool) (events : list MappingEvent)
    (out : BucketCollapseResult) : result BucketCollapseResult :=
  match events with
  | [] => Ok out
  | e :: _ =>
      match fuel with
      | O => Throw (logic_error "record_loop ran out of fuel")
      | S fuel =>
          let '(record, rest) := span_while (fun x => hash_id x =? hash_id e) events in
          match def_hash definitions (hash_id e) with
          | None => record_loop fuel definitions discard rest out
          | Some sha =>
              '(a, d, out') ← chain_loop (length record) discard record [] [] out;
              let delete_records := if terminal_deletes out <? terminal_deletes out'
                then terminal_delete_records out' + 1 else terminal_delete_records out' in
              record_loop fuel definitions discard rest
                (mkBucketResult (records out' ++ [mkCollapsedRecord sha a d]) (events_scanned out')
                   (mappings_after_collapse out') (terminal_deletes out') delete_records)
          end
      end
  end.

Definition event_le (a b : MappingEvent) : Prop := eventLess b a = false.
#[export] Instance event_le_dec a b : Decision (event_le a b).
Proof. unfold event_le. apply _. Defined.

(** [std::ranges::sort( events, eventLess )] *)
Definition sort_events (events : list MappingEvent) : list MappingEvent := merge_sort event_le events.

Definition collapse_events (definitions : Definitions) (discard : bool) (events : list MappingEvent)
    : result BucketCollapseResult :=
  match events with
  | [] => Ok BucketCollapseResult_default
  | _ =>
      record_loop (length events) definitions discard (sort_events events)
        (mkBucketResult [] (Z.of_nat (length events)) 0 0 0)
  end.

Definition collapseOneBucket (fs : files) (bucket : Z) (definitions : Definitions) (discard : bool)
    : result BucketCollapseResult :=
  events ← readBucket fs (bucketPath bucket);
  collapse_events definitions discard events.

(** ** Collapsing relations *)

Record RelationEvent := mkRelationEvent { rel_a : Z; rel_b : Z; rel_index : Z; rel_op : Z; rel_pad : Z }.
Record CollapsedRelation := mkCollapsedRelation { crel_a : Z; crel_b : Z; crel_op : EventOp }.

Definition relationLess (x y : RelationEvent) : bool :=
  if negb (rel_a x =? rel_a y) then rel_a x <? rel_a y
  else if negb (rel_b x =? rel_b y) then rel_b x <? rel_b y
  else if negb (rel_index x =? rel_index y) then rel_index x <? rel_index y
  else rel_op x <? rel_op y.

Definition relation_le (a b : RelationEvent) : Prop := relationLess b a = false.
#[export] Instance relation_le_dec a b : Decision (relation_le a b).
Proof. unfold relation_le. apply _. Defined.

Definition relation_event (e : RelationEvent) : MappingEvent :=
  mkEvent (rel_a e) (rel_b e) (rel_index e) (rel_op e) 0.

Fixpoint relation_loop (fuel : nat) (events : list RelationEvent) : result (list CollapsedRelation) :=
  match events with
  | [] => Ok []
  | e :: _ =>
      match fuel with
      | O => Throw (logic_error "relation_loop ran out of fuel")
      | S fuel =>
          let '(chain, rest) := span_while (fun x => (rel_a x =? rel_a e) && (rel_b x =? rel_b e)) events in
          out ← relation_loop fuel rest;
          match collapseChain (relation_event <$> chain) with
          | Some c => Ok (mkCollapsedRelation (rel_a e) (rel_b e) (collapsed_op c) :: out)
          | None => Ok out
          end
      end
  end.

Definition collapseRelations (events : list RelationEvent) : result (list CollapsedRelation) :=
  relation_loop (length events) (merge_sort relation_le events).

(** ** Tag usage *)

Definition BITS_PER_WORD : Z := 64.

Record TagUsageSet := mkUsage { m_capacity : Z; m_words : list Z }.

Definition TagUsageSet_make (capacity : Z) : TagUsageSet :=
  mkUsage capacity (replicate (Z.to_nat ((capacity + BITS_PER_WORD - 1) / BITS_PER_WORD)) 0).

Definition mark (tag : Z) (u : TagUsageSet) : TagUsageSet :=
  if m_capacity u <=? tag then u
  else
    let word := Z.to_nat (tag / BITS_PER_WORD) in
    let bit := Z.shiftl 1 (tag mod BITS_PER_WORD) in
    mkUsage (m_capacity u) (alter (fun w => Z.lor w bit) word (m_words u)).

(** [std::popcount] of a 64-bit word. *)
Definition popcount (w : Z) : Z :=
  Z.of_nat (length (filter (fun i => Z.testbit w (Z.of_nat i) = true) (seq 0 64))).

Definition usage_count (u : TagUsageSet) : Z := foldl (fun total w => total + popcount w) 0 (m_words u).

(** ** Sorting *)

Lemma event_le_spec a b :
  event_le a b <->
  hash_id a < hash_id b \/ (hash_id a = hash_id b /\ (tag_id a < tag_id b \/ (tag_id a = tag_id b /\
    (update_index a < update_index b \/ (update_index a = update_index b /\ op a <= op b))))).
Proof.
  unfold event_le, eventLess.
  destruct (Z.eqb_spec (hash_id b) (hash_id a)); cbn; [|rewrite Z.ltb_ge; lia].
  destruct (Z.eqb_spec (tag_id b) (tag_id a)); cbn; [|rewrite Z.ltb_ge; lia].
  destruct (Z.eqb_spec (update_index b) (update_index a)); cbn; rewrite Z.ltb_ge; lia.
Qed.

#[export] Instance event_le_total : Total event_le.
Proof. intros a b. rewrite !event_le_spec. lia. Qed.
#[export] Instance event_le_trans : Transitive event_le.
Proof. intros a b c. rewrite !event_le_spec. lia. Qed.

Lemma sort_events_sorted l : StronglySorted event_le (sort_events l).
Proof. apply (StronglySorted_merge_sort event_le). Qed.

Lemma sort_events_perm l : sort_events l ≡ₚ l.
Proof. apply merge_sort_Permutation. Qed.

(** ** Groups of a sorted list *)

Section groups.
Context {A : Type} (key : A -> Z).
Implicit Types l : list A.

Definition by_key : relation A := fun a b => key a <= key b.

(** On a list sorted by a key, the [while] loops cut off exactly the members
    with the first key. *)
Lemma span_while_group k l :
  StronglySorted by_key l -> Forall (fun y => k <= key y) l ->
  span_while (fun y => key y =? k) l = (filter (fun y => key y = k) l, filter (fun y => key y <> k) l).
Proof.
  intros Hs. induction Hs as [|x l Hs IH Hx]; intros Hk; [done|]. apply Forall_cons in Hk as [Hkx Hk].
  cbn [span_while]. destruct (Z.eqb_spec (key x) k) as [Heq|Hne].
  - rewrite IH by done. rewrite filter_cons_True, filter_cons_False by (done || lia). done.
  - rewrite Forall_forall in Hx.
    assert (Hgt : forall y, y ∈ l -> key y <> k) by (intros y Hy; specialize (Hx y Hy); unfold by_key in Hx; lia).
    rewrite filter_cons_False by done. rewrite filter_cons_True by done.
    rewrite list_filter_none by (intros y Hy; specialize (Hgt y Hy); lia).
    rewrite list_filter_all by done. done.
Qed.

Definition keys l : list Z := unique_adjacent (key <$> l).

Lemma unique_from_group k l :
  StronglySorted by_key l -> Forall (fun y => k <= key y) l ->
  unique_from k (key <$> l) = keys (filter (fun y => key y <> k) l).
Proof.
  intros Hs. induction Hs as [|x l Hs IH Hx]; intros Hk; [done|]. apply Forall_cons in Hk as [Hkx Hk].
  cbn [fmap list_fmap unique_from]. case_decide as Heq.
  - rewrite filter_cons_False by lia. by apply IH.
  - rewrite filter_cons_True by lia. unfold keys. cbn [fmap list_fmap unique_adjacent]. f_equal.
    rewrite list_filter_all; [done|]. rewrite Forall_forall in Hx. intros y Hy. specialize (Hx y Hy).
    unfold by_key in Hx. lia.
Qed.

Lemma sorted_head x l : StronglySorted by_key (x :: l) -> Forall (fun y => key x <= key y) (x :: l).
Proof. intros [_ H]%StronglySorted_inv. constructor; [lia|]. exact H. Qed.

Lemma keys_group x l :
  StronglySorted by_key (x :: l) ->
  keys (x :: l) = key x :: keys (filter (fun y => key y <> key x) (x :: l)).
Proof.
  intros Hs. pose proof (sorted_head _ _ Hs) as Hx. unfold keys at 1. cbn [fmap list_fmap unique_adjacent]. f_equal.
  apply StronglySorted_inv in Hs as [Hs _]. apply Forall_cons in Hx as [_ Hx].
  rewrite unique_from_group by done. by rewrite filter_cons_False by lia.
Qed.

Lemma StronglySorted_filter (R : relation A) (P : A -> Prop) `{!forall x, Decision (P x)} l :
  StronglySorted R l -> StronglySorted R (filter P l).
Proof.
  induction 1 as [|x l Hs IH Hx]; [constructor|]. rewrite filter_cons. case_decide; [|done].
  constructor; [done|]. rewrite !Forall_forall in *. intros y [_ Hy]%list_elem_of_filter. auto.
Qed.

Lemma filter_group_other (k k' : Z) l :
  k' <> k -> filter (fun y => key y = k') (filter (fun y => key y <> k) l) = filter (fun y => key y = k') l.
Proof.
  intros Hne. induction l as [|x l IH]; [done|]. rewrite (filter_cons _ x). case_decide as H1.
  - rewrite !(filter_cons _ x). rewrite IH. done.
  - rewrite (filter_cons_False _ x) by lia. done.
Qed.

Lemma elem_of_keys k l : k ∈ keys l <-> exists x, x ∈ l /\ key x = k.
Proof.
  unfold keys. rewrite elem_of_unique_adjacent, list_elem_of_fmap. split; intros (x & H1 & H2); eauto.
Qed.

Lemma keys_sort_unique l l' :
  StronglySorted by_key l -> l ≡ₚ l' -> keys l = sort_unique (key <$> l').
Proof.
  intros Hs Hp. apply (StronglySorted_strict_ext Z.lt).
  - unfold keys. apply unique_adjacent_sorted. clear Hp. induction Hs as [|x l Hs IH Hx]; constructor; [done|].
    apply Forall_fmap. exact Hx.
  - apply sort_unique_sorted.
  - intros k. rewrite elem_of_keys, elem_of_sort_unique, list_elem_of_fmap.
    split; intros (x & H1 & H2); exists x; rewrite Hp in * || rewrite <- Hp in *; eauto.
Qed.

Lemma filter_other_length k l x : x ∈ l -> key x = k -> (length (filter (fun y => key y <> k) l) < length l)%nat.
Proof.
  intros Hx Hk. apply list_elem_of_split in Hx as (a & b & ->).
  rewrite filter_app, filter_cons_False by lia. rewrite !length_app. cbn.
  pose proof (length_filter (fun y => key y <> k) a). pose proof (length_filter (fun y => key y <> k) b). lia.
Qed.
End groups.

(** ** What a bucket collapses to *)

Module CollapseSpec.

(** [e'] is no later than [e]: by update index, and within one update a
    delete comes after an add. *)
Definition no_later (e' e : MappingEvent) : bool :=
  (update_index e' <? update_index e) || ((update_index e' =? update_index e) && (op e' <=? op e)).

Definition about (h t : Z) (e : MappingEvent) : bool := (hash_id e =? h) && (tag_id e =? t).

(** The history of the pair ends in a delete: some delete of it is later than
    every other event of it. *)
Definition ends_in_delete (evs : list MappingEvent) (h t : Z) : bool :=
  existsb (fun e => about h t e && (op e =? 1) && forallb (fun e' => negb (about h t e') || no_later e' e) evs) evs.

Definition tags_of (evs : list MappingEvent) (h : Z) : list Z :=
  sort_unique (tag_id <$> filter (fun e => hash_id e = h) evs).

Definition kept_tags (evs : list MappingEvent) (h : Z) : list Z :=
  filter (fun t => ends_in_delete evs h t = false) (tags_of evs h).
Definition deleted_tags (evs : list MappingEvent) (h : Z) : list Z :=
  filter (fun t => ends_in_delete evs h t = true) (tags_of evs h).

(** The files with a definition, in ascending id order. *)
Definition files_of (d : Definitions) (evs : list MappingEvent) : list (Z * list Z) :=
  omap (fun h => (fun sha => (h, sha)) <$> def_hash d h) (sort_unique (hash_id <$> evs)).

Definition record_of (discard : bool) (evs : list MappingEvent) (f : Z * list Z) : CollapsedRecord :=
  mkCollapsedRecord (snd f) (kept_tags evs (fst f)) (if discard then [] else deleted_tags evs (fst f)).

Definition sum (l : list nat) : Z := Z.of_nat (list_sum l).

Definition outcome (d : Definitions) (discard : bool) (evs : list MappingEvent) : BucketCollapseResult :=
  let fs := files_of d evs in
  mkBucketResult (record_of discard evs <$> fs) (Z.of_nat (length evs))
    (sum ((fun r => length (adds r) + length (dels r))%nat <$> (record_of discard evs <$> fs)))
    (sum ((fun f => length (deleted_tags evs (fst f))) <$> fs))
    (sum ((fun f => match deleted_tags evs (fst f) with [] => O | _ => 1%nat end) <$> fs)).

(** *** One chain *)

Definition chain_deleted (chain : list MappingEvent) : bool :=
  match last chain with Some e => op e =? 1 | None => false end.

Lemma collapseChain_op chain :
  Forall event_ok chain -> chain <> [] ->
  exists i, collapseChain chain = Some (mkCollapsed (if chain_deleted chain then Delete else Add) i).
Proof.
  intros Hok Hne. unfold collapseChain, chain_deleted.
  destruct (last chain) as [e|] eqn:Hl; [|by apply last_None in Hl].
  destruct (op e =? 1) eqn:Hop; [by eexists|].
  assert (He : e ∈ filter (fun e => op e = 0) chain).
  { apply list_elem_of_filter. split; [|by apply last_Some_elem_of].
    rewrite Forall_forall in Hok. destruct (op_ok e) as [?|H1]; [apply Hok; by apply last_Some_elem_of|done|lia]. }
  destruct (filter _ chain) as [|e' l]; [by apply elem_of_nil in He|]. by eexists.
Qed.

(** *** The chains of one record *)

Section chains.
Context (discard : bool) (g : list MappingEvent).
Definition dies (t : Z) : bool := chain_deleted (filter (fun e => tag_id e = t) g).
End chains.

Definition keep_of (g : list MappingEvent) : list Z := filter (fun t => dies g t = false) (keys tag_id g).
Definition drop_of (g : list MappingEvent) : list Z := filter (fun t => dies g t = true) (keys tag_id g).

Lemma dies_rest g t t' : t' <> t -> dies (filter (fun e => tag_id e <> t) g) t' = dies g t'.
Proof. intros Hne. unfold dies. by rewrite filter_group_other. Qed.

Lemma keys_rest_ne {A} (key : A -> Z) k l x : x ∈ keys key (filter (fun y => key y <> k) l) -> x <> k.
Proof. rewrite elem_of_keys. intros (y & [Hy _]%list_elem_of_filter & <-). done. Qed.

(** One chain is taken off the front. *)
Lemma keep_drop_cons e g :
  StronglySorted (by_key tag_id) (e :: g) ->
  let rest := filter (fun x => tag_id x <> tag_id e) (e :: g) in
  (keep_of (e :: g) = if dies (e :: g) (tag_id e) then keep_of rest else tag_id e :: keep_of rest)
  /\ (drop_of (e :: g) = if dies (e :: g) (tag_id e) then tag_id e :: drop_of rest else drop_of rest).
Proof.
  intros Hs rest. unfold keep_of, drop_of. rewrite (keys_group tag_id) by done. fold rest.
  assert (Hext : forall b, filter (fun t => dies (e :: g) t = b) (keys tag_id rest)
    = filter (fun t => dies rest t = b) (keys tag_id rest)).
  { intros b. apply list_filter_ext_in. intros t Ht. apply keys_rest_ne in Ht.
    unfold rest. by rewrite dies_rest. }
  rewrite !filter_cons, !Hext. destruct (dies (e :: g) (tag_id e)); split; repeat case_decide; done.
Qed.

Lemma chain_loop_ok fuel discard g A D out :
  StronglySorted (by_key tag_id) g -> Forall event_ok g -> (length g <= fuel)%nat ->
  chain_loop fuel discard g A D out =
    Ok (A ++ keep_of g, D ++ (if discard then [] else drop_of g),
      mkBucketResult (records out) (events_scanned out)
        (mappings_after_collapse out + Z.of_nat (length (keep_of g) + length (if discard then [] else drop_of g)))
        (terminal_deletes out + Z.of_nat (length (drop_of g))) (terminal_delete_records out)).
Proof.
  revert g A D out. induction fuel as [|fuel IH]; intros g A D out Hs Hok Hlen.
  - destruct g; [|simpl in Hlen; lia]. cbn. destruct discard; rewrite ?app_nil_r, !Z.add_0_r; by destruct out.
  - destruct g as [|e g].
    { cbn. destruct discard; rewrite ?app_nil_r, !Z.add_0_r; by destruct out. }
    cbn [chain_loop]. rewrite (span_while_group tag_id) by (done || by apply sorted_head).
    set (chain := filter (fun y => tag_id y = tag_id e) (e :: g)).
    set (rest := filter (fun y => tag_id y <> tag_id e) (e :: g)).
    destruct (keep_drop_cons e g Hs) as [Hk Hd]. fold rest in Hk, Hd.
    assert (Hc : exists i, collapseChain chain
      = Some (mkCollapsed (if dies (e :: g) (tag_id e) then Delete else Add) i)).
    { apply collapseChain_op.
      - rewrite Forall_forall in *. intros x [_ Hx]%list_elem_of_filter. auto.
      - unfold chain. by rewrite filter_cons_True. }
    destruct Hc as [i ->]. cbn [collapsed_op].
    assert (Hrs : StronglySorted (by_key tag_id) rest) by (by apply StronglySorted_filter).
    assert (Hro : Forall event_ok rest)
      by (rewrite Forall_forall in *; intros x [_ Hx]%list_elem_of_filter; auto).
    assert (Hrl : (length rest <= fuel)%nat).
    { pose proof (filter_other_length tag_id (tag_id e) (e :: g) e) as Hl. fold rest in Hl.
      specialize (Hl ltac:(constructor) eq_refl). lia. }
    rewrite Hk, Hd. destruct (dies (e :: g) (tag_id e)); [destruct discard|];
      rewrite IH by done; cbn [length records events_scanned mappings_after_collapse terminal_deletes
        terminal_delete_records]; rewrite <- ?app_assoc; cbn [app]; do 2 f_equal; f_equal; try lia; try done.
Qed.

(** *** The records of a bucket *)

Definition group (l : list MappingEvent) (h : Z) : list MappingEvent := filter (fun e => hash_id e = h) l.

Definition loop_files (d : Definitions) (l : list MappingEvent) : list (Z * list Z) :=
  omap (fun h => (fun sha => (h, sha)) <$> def_hash d h) (keys hash_id l).

Definition loop_record (discard : bool) (l : list MappingEvent) (f : Z * list Z) : CollapsedRecord :=
  mkCollapsedRecord (snd f) (keep_of (group l (fst f))) (if discard then [] else drop_of (group l (fst f))).

(** What the records of [l] add to the counters. *)
Definition extend (discard : bool) (l : list MappingEvent) (fs : list (Z * list Z)) (out : BucketCollapseResult)
    : BucketCollapseResult :=
  mkBucketResult (records out ++ (loop_record discard l <$> fs)) (events_scanned out)
    (mappings_after_collapse out
      + sum ((fun r => length (adds r) + length (dels r))%nat <$> (loop_record discard l <$> fs)))
    (terminal_deletes out + sum ((fun f => length (drop_of (group l (fst f)))) <$> fs))
    (terminal_delete_records out
      + sum ((fun f => match drop_of (group l (fst f)) with [] => O | _ => 1%nat end) <$> fs)).

Lemma sum_cons n l : sum (n :: l) = Z.of_nat n + sum l.
Proof. unfold sum. change (list_sum (n :: l)) with (n + list_sum l)%nat. lia. Qed.

Lemma extend_cons discard l f fs out :
  extend discard l (f :: fs) out =
  extend discard l fs
    (mkBucketResult (records out ++ [loop_record discard l f]) (events_scanned out)
      (mappings_after_collapse out
        + Z.of_nat (length (adds (loop_record discard l f)) + length (dels (loop_record discard l f))))
      (terminal_deletes out + Z.of_nat (length (drop_of (group l (fst f)))))
      (terminal_delete_records out
        + Z.of_nat (match drop_of (group l (fst f)) with [] => O | _ => 1%nat end))).
Proof.
  unfold extend. cbn [fmap list_fmap]. rewrite !sum_cons.
  cbn [records events_scanned mappings_after_collapse terminal_deletes terminal_delete_records].
  rewrite <- app_assoc, <- !Z.add_assoc. done.
Qed.

(** Removing one file's events does not change the others. *)
Lemma extend_rest discard l h fs out :
  Forall (fun f => fst f <> h) fs -> extend discard (filter (fun e => hash_id e <> h) l) fs out = extend discard l fs out.
Proof.
  intros Hfs. revert out. induction Hfs as [|f fs Hf Hfs IH]; intros out; [done|].
  rewrite !extend_cons, IH.
  assert (Hg : group (filter (fun e => hash_id e <> h) l) (fst f) = group l (fst f)) by (by apply filter_group_other).
  unfold loop_record. by rewrite Hg.
Qed.

Lemma loop_files_ne d l h :
  Forall (fun f => fst f <> h) (loop_files d (filter (fun e => hash_id e <> h) l)).
Proof.
  apply Forall_forall. intros [h' sha] (k & Hk & Hf)%list_elem_of_omap.
  apply keys_rest_ne in Hk. destruct (def_hash d k); simplify_eq/=. done.
Qed.

Lemma sorted_by_hash l : StronglySorted event_le l -> StronglySorted (by_key hash_id) l.
Proof. apply StronglySorted_impl. intros a b. rewrite event_le_spec. unfold by_key. lia. Qed.

Lemma group_by_tag l h : StronglySorted event_le l -> StronglySorted (by_key tag_id) (group l h).
Proof.
  induction 1 as [|x l Hs IH Hx]; [constructor|]. unfold group in *. rewrite filter_cons. case_decide as Hh; [|done].
  constructor; [done|]. rewrite Forall_forall in *. intros y [Hy Hin]%list_elem_of_filter. specialize (Hx y Hin).
  rewrite event_le_spec in Hx. unfold by_key. lia.
Qed.

Lemma Forall_filter_sub {A} (P Q : A -> Prop) `{!forall x, Decision (Q x)} l : Forall P l -> Forall P (filter Q l).
Proof. rewrite !Forall_forall. intros HP x [_ Hx]%list_elem_of_filter. auto. Qed.

Lemma record_loop_ok fuel d discard l out :
  StronglySorted event_le l -> Forall event_ok l -> (length l <= fuel)%nat ->
  record_loop fuel d discard l out = Ok (extend discard l (loop_files d l) out).
Proof.
  assert (Hnil : forall out, extend discard [] [] out = out).
  { intros [? ? ? ? ?]. unfold extend. cbn. by rewrite app_nil_r, !Z.add_0_r. }
  revert l out. induction fuel as [|fuel IH]; intros l out Hs Hok Hlen.
  { destruct l; [|simpl in Hlen; lia]. cbn. by rewrite Hnil. }
  destruct l as [|e l]; [cbn; by rewrite Hnil|].
  pose proof (sorted_by_hash _ Hs) as Hsh.
  cbn [record_loop]. rewrite (span_while_group hash_id) by (done || by apply sorted_head).
  set (g := filter (fun y => hash_id y = hash_id e) (e :: l)).
  set (rest := filter (fun y => hash_id y <> hash_id e) (e :: l)).
  assert (Hrs : StronglySorted event_le rest) by (by apply StronglySorted_filter).
  assert (Hro : Forall event_ok rest) by (by apply Forall_filter_sub).
  assert (Hrl : (length rest <= fuel)%nat).
  { pose proof (filter_other_length hash_id (hash_id e) (e :: l) e ltac:(constructor) eq_refl) as Hl.
    fold rest in Hl. lia. }
  assert (Hfiles : loop_files d (e :: l) = match def_hash d (hash_id e) with
    | Some sha => (hash_id e, sha) :: loop_files d rest | None => loop_files d rest end).
  { unfold loop_files. rewrite (keys_group hash_id) by done. fold rest. cbn. by destruct (def_hash d (hash_id e)). }
  rewrite Hfiles. destruct (def_hash d (hash_id e)) as [sha|].
  2: { rewrite IH by done. f_equal. apply extend_rest, loop_files_ne. }
  assert (Hgt : StronglySorted (by_key tag_id) g) by exact (group_by_tag (e :: l) (hash_id e) Hs).
  assert (Hgo : Forall event_ok g) by (by apply Forall_filter_sub).
  rewrite chain_loop_ok by done. cbn [mbind result_bind]. rewrite IH by done. f_equal.
  unfold rest. rewrite extend_rest by apply loop_files_ne. rewrite extend_cons.
  unfold loop_record. cbn [fst snd adds dels]. change (group (e :: l) (hash_id e)) with g.
  cbn [records events_scanned mappings_after_collapse terminal_deletes terminal_delete_records app].
  f_equal. f_equal. destruct (drop_of g) as [|t ts]; cbn [length].
  - rewrite Z.add_0_r, Z.ltb_irrefl. lia.
  - rewrite (proj2 (Z.ltb_lt _ _)) by lia. lia.
Qed.

(** *** From the sorted bucket to the set of its events *)

Lemma last_of_sorted l e :
  StronglySorted event_le l -> last l = Some e -> e ∈ l /\ forall e', e' ∈ l -> event_le e' e.
Proof.
  intros Hs Hl. split; [by apply last_Some_elem_of|].
  apply last_Some in Hl as [l' ->]. intros e' [He|He]%elem_of_app.
  - by apply (StronglySorted_app_1_elem_of event_le _ _ _ _ Hs); [|apply list_elem_of_singleton].
  - apply list_elem_of_singleton in He as ->. rewrite event_le_spec. lia.
Qed.

Lemma about_spec h t e : about h t e = true <-> hash_id e = h /\ tag_id e = t.
Proof. unfold about. rewrite andb_true_iff, !Z.eqb_eq. done. Qed.

Lemma no_later_spec e' e :
  no_later e' e = true <-> update_index e' < update_index e \/ (update_index e' = update_index e /\ op e' <= op e).
Proof. unfold no_later. rewrite orb_true_iff, andb_true_iff, Z.ltb_lt, Z.eqb_eq, Z.leb_le. done. Qed.

Lemma ends_in_delete_spec evs h t :
  ends_in_delete evs h t = true <->
  exists e, e ∈ evs /\ (hash_id e = h /\ tag_id e = t) /\ op e = 1
    /\ forall e', e' ∈ evs -> hash_id e' = h -> tag_id e' = t -> no_later e' e = true.
Proof.
  unfold ends_in_delete. rewrite existsb_exists. split.
  - intros (e & Hin & H). rewrite !andb_true_iff, about_spec, Z.eqb_eq, forallb_forall in H.
    exists e. rewrite list_elem_of_In. split_and!; try tauto. intros e' He' Hh Ht.
    destruct H as [_ Hall]. specialize (Hall e'). rewrite <- list_elem_of_In in Hall. specialize (Hall He').
    apply orb_true_iff in Hall as [Ha|]; [|done].
    rewrite (proj2 (about_spec h t e') (conj Hh Ht)) in Ha. done.
  - intros (e & Hin & Hab & Hop & Hall). exists e. rewrite <- list_elem_of_In. split; [done|].
    rewrite !andb_true_iff, about_spec, Z.eqb_eq, forallb_forall. split_and!; try tauto.
    intros e' He'. rewrite <- list_elem_of_In in He'. apply orb_true_iff.
    destruct (about h t e') eqn:Ha; [right|by left]. apply about_spec in Ha as [? ?]. auto.
Qed.

(** Whether the last event of a sorted chain is a delete is a fact about the
    set of events. *)
Lemma dies_ends_in_delete l evs h t :
  StronglySorted event_le l -> l ≡ₚ evs -> t ∈ keys tag_id (group l h) ->
  dies (group l h) t = ends_in_delete evs h t.
Proof.
  intros Hs Hp Ht. unfold dies, chain_deleted.
  set (chain := filter (fun e => tag_id e = t) (group l h)).
  assert (Hcs : StronglySorted event_le chain) by (by apply StronglySorted_filter, StronglySorted_filter).
  assert (Hin : forall e, e ∈ chain <-> e ∈ evs /\ hash_id e = h /\ tag_id e = t).
  { intros e. unfold chain, group. rewrite !list_elem_of_filter, Hp. tauto. }
  destruct (last chain) as [e|] eqn:Hl.
  2: { apply last_None in Hl. apply elem_of_keys in Ht as (x & Hx & Hxt).
       assert (Hxc : x ∈ chain) by (by apply list_elem_of_filter). rewrite Hl in Hxc. by apply elem_of_nil in Hxc. }
  destruct (last_of_sorted _ _ Hcs Hl) as [He Hmax].
  apply Hin in He as (Hevs & Hh & Htag). apply eq_bool_prop_intro. rewrite !Is_true_true, Z.eqb_eq, ends_in_delete_spec.
  assert (Hle : forall e', e' ∈ evs -> hash_id e' = h -> tag_id e' = t -> no_later e' e = true).
  { intros e' He' Hh' Ht'. assert (Hc' : event_le e' e) by (apply Hmax, Hin; auto).
    rewrite event_le_spec in Hc'. apply no_later_spec. lia. }
  split.
  - intros Hop. exists e. auto.
  - intros (e0 & H0 & [Hh0 Ht0] & Hop0 & Hall0). pose proof (Hall0 e Hevs Hh Htag) as H1.
    pose proof (Hle e0 H0 Hh0 Ht0) as H2. rewrite no_later_spec in H1, H2. lia.
Qed.

Lemma group_keys l evs h :
  StronglySorted event_le l -> l ≡ₚ evs -> keys tag_id (group l h) = tags_of evs h.
Proof.
  intros Hs Hp. unfold tags_of. apply keys_sort_unique; [by apply group_by_tag|].
  unfold group. by rewrite Hp.
Qed.

Lemma keep_drop_spec l evs h :
  StronglySorted event_le l -> l ≡ₚ evs ->
  keep_of (group l h) = kept_tags evs h /\ drop_of (group l h) = deleted_tags evs h.
Proof.
  intros Hs Hp. unfold keep_of, drop_of, kept_tags, deleted_tags. rewrite <- (group_keys l evs h) by done.
  split; apply list_filter_ext_in; intros t Ht; by rewrite (dies_ends_in_delete l evs).
Qed.

Lemma collapse_events_ok d discard evs :
  Forall event_ok evs -> collapse_events d discard evs = Ok (outcome d discard evs).
Proof.
  intros Hok. destruct evs as [|e evs0] eqn:E; [done|]. rewrite <- E in *. unfold collapse_events.
  assert (Hm : match evs with [] => Ok BucketCollapseResult_default | _ => record_loop (length evs) d discard
      (sort_events evs) (mkBucketResult [] (Z.of_nat (length evs)) 0 0 0) end
    = record_loop (length evs) d discard (sort_events evs) (mkBucketResult [] (Z.of_nat (length evs)) 0 0 0))
    by (by rewrite E).
  rewrite Hm. clear Hm E.
  pose proof (sort_events_sorted evs) as Hs. pose proof (sort_events_perm evs) as Hp.
  rewrite record_loop_ok; [|done|by rewrite Hp|by rewrite Hp]. f_equal.
  assert (Hfiles : loop_files d (sort_events evs) = files_of d evs).
  { unfold loop_files, files_of. by rewrite (keys_sort_unique hash_id _ evs) by (done || by apply sorted_by_hash). }
  assert (Hkd : forall h, keep_of (group (sort_events evs) h) = kept_tags evs h
    /\ drop_of (group (sort_events evs) h) = deleted_tags evs h) by (intros h; by apply keep_drop_spec).
  assert (Hrec : forall f, loop_record discard (sort_events evs) f = record_of discard evs f).
  { intros f. unfold loop_record, record_of. by destruct (Hkd (fst f)) as [-> ->]. }
  unfold extend, outcome. rewrite Hfiles. cbn [records events_scanned mappings_after_collapse terminal_deletes
    terminal_delete_records app]. rewrite !Z.add_0_l.
  rewrite (list_fmap_ext (loop_record discard (sort_events evs)) (record_of discard evs)) by (intros; apply Hrec).
  f_equal; f_equal; apply list_fmap_ext; intros; by rewrite (proj2 (Hkd _)).
Qed.
End CollapseSpec.

(** ** What the bucket writer leaves on disk *)

Lemma event_bytes_length e : length (event_bytes e) = 12%nat.
Proof. unfold event_bytes. by rewrite !length_app, !le_encode_length. Qed.

Lemma event_of_bytes_of e : event_ok e -> event_of_bytes (event_bytes e) = e.
Proof.
  intros [Hh Ht Hu Ho Hp]. unfold event_bytes, event_of_bytes.
  change (le_encode 4 (hash_id e) ++ le_encode 4 (tag_id e) ++ le_encode 2 (update_index e) ++ [op e; pad e])
    with (le_encode 4 (hash_id e) ++ le_encode 4 (tag_id e) ++ le_encode 2 (update_index e) ++ [op e] ++ [pad e]).
  unfold MAX_UPDATE_INDEX, uint32_max in *.
  pose proof (le_decode_encode 4 (hash_id e) ltac:(lia)) as H1.
  pose proof (le_decode_encode 4 (tag_id e) ltac:(lia)) as H2.
  pose proof (le_decode_encode 2 (update_index e) ltac:(lia)) as H3.
  cbn [le_encode] in *. cbn [app take drop]. rewrite H1, H2, H3. cbn [le_decode].
  rewrite !Z.mul_0_r, !Z.add_0_r. by destruct e.
Qed.

Lemma events_of_bytes_app n m a b :
  length a = (12 * n)%nat -> events_of_bytes (n + m) (a ++ b) = events_of_bytes n a ++ events_of_bytes m b.
Proof.
  revert a. induction n as [|n IH]; intros a Ha.
  { destruct a; [done|simpl in Ha; lia]. }
  cbn [plus events_of_bytes app]. rewrite take_app_le, drop_app_le by lia. f_equal.
  apply IH. rewrite length_drop. lia.
Qed.

Lemma concat_event_bytes_length l : length (concat (event_bytes <$> l)) = (12 * length l)%nat.
Proof.
  induction l as [|e l IH]; [done|]. rewrite fmap_cons. cbn [concat length]. rewrite length_app, event_bytes_length, IH. lia.
Qed.

Lemma events_of_bytes_concat l :
  Forall event_ok l -> events_of_bytes (length l) (concat (event_bytes <$> l)) = l.
Proof.
  induction 1 as [|e l He Hl IH]; [done|]. rewrite fmap_cons. cbn [concat length events_of_bytes].
  rewrite take_app_length', drop_app_length' by (by rewrite event_bytes_length).
  rewrite event_of_bytes_of by done. f_equal. exact IH.
Qed.

(** The decimal digits of a bucket's name give the bucket back. *)
Definition path_bucket (s : string) : Z :=
  foldl (fun acc b => acc * 10 + (b - 48)) 0 (take 4 (string_bytes s)).

Lemma path_bucket_of b : b ∈ buckets -> path_bucket (bucketPath b) = b.
Proof.
  assert (H : forallb (fun b => path_bucket (bucketPath b) =? b) buckets = true) by (vm_compute; reflexivity).
  rewrite forallb_forall in H. intros Hb%list_elem_of_In. apply Z.eqb_eq. auto.
Qed.

Lemma bucketPath_inj b b' : b ∈ buckets -> b' ∈ buckets -> bucketPath b = bucketPath b' -> b = b'.
Proof. intros Hb Hb' H. rewrite <- (path_bucket_of b), <- (path_bucket_of b'), H by done. done. Qed.

Lemma elem_of_buckets b : b ∈ buckets <-> 0 <= b < BUCKET_COUNT.
Proof.
  unfold buckets, BUCKET_COUNT. rewrite list_elem_of_fmap. split.
  - intros (n & -> & Hn). apply elem_of_seq in Hn. lia.
  - intros Hb. exists (Z.to_nat b). rewrite elem_of_seq. lia.
Qed.

Lemma bucketFor_range h : bucketFor h ∈ buckets.
Proof. apply elem_of_buckets. unfold bucketFor, BUCKET_COUNT. apply Z.mod_pos_bound. lia. Qed.

(** The bytes of a bucket, on disk and still buffered. *)
Definition on_disk (fs : files) (b : Z) : list Z := default [] (fs !! bucketPath b).
Definition stored (s : BucketWriter * files) (b : Z) : list Z :=
  on_disk (snd s) b ++ concat (event_bytes <$> buffer (fst s) b).

Lemma buffer_insert n m c b b' l :
  buffer (mkBucketWriter n (<[b := l]> m) c) b' = if decide (b' = b) then l else default [] (m !! b').
Proof.
  unfold buffer. cbn. case_decide as H; [subst; by rewrite lookup_insert_eq|by rewrite lookup_insert_ne].
Qed.

Lemma flushBucket_buffer b s b' :
  buffer (fst (flushBucket b s)) b' = if decide (b' = b) then [] else buffer (fst s) b'.
Proof.
  destruct s as [w fs]. unfold flushBucket. destruct (buffer w b) as [|e l] eqn:Hb; cbn [fst].
  - case_decide; [by subst|done].
  - by rewrite buffer_insert.
Qed.

Lemma flushBucket_stored b s b' : b ∈ buckets -> b' ∈ buckets -> stored (flushBucket b s) b' = stored s b'.
Proof.
  intros Hb Hb'. unfold stored. rewrite flushBucket_buffer. destruct s as [w fs]. unfold flushBucket.
  destruct (buffer w b) as [|e l] eqn:Hw; cbn [fst snd].
  - case_decide; [subst; by rewrite Hw|done].
  - unfold on_disk. case_decide as Heq.
    + subst. by rewrite lookup_insert_eq, Hw, app_nil_r.
    + rewrite lookup_insert_ne; [done|]. intros H. apply Heq. by apply bucketPath_inj.
Qed.

Lemma flushBucket_counts b s : m_counts (fst (flushBucket b s)) = m_counts (fst s).
Proof. destruct s as [w fs]. unfold flushBucket. by destruct (buffer w b). Qed.

(** A written event is appended to its own bucket, buffered or flushed. *)
Lemma write_stored e s b : b ∈ buckets ->
  stored (write e s) b = stored s b ++ (if decide (bucketFor (hash_id e) = b) then event_bytes e else []).
Proof.
  intros Hb. destruct s as [w fs]. unfold write. cbn [m_buffer_events].
  set (k := bucketFor (hash_id e)).
  assert (Hk : k ∈ buckets) by apply bucketFor_range.
  set (w1 := mkBucketWriter (m_buffer_events w) (<[k := buffer w k ++ [e]]> (m_buffers w)) _).
  assert (H1 : stored (w1, fs) b = stored (w, fs) b ++ (if decide (k = b) then event_bytes e else [])).
  { unfold stored, w1. cbn [fst snd]. rewrite buffer_insert. rewrite <- app_assoc. f_equal.
    destruct (decide (b = k)) as [->|Hne].
    - rewrite decide_True by done. rewrite fmap_app, concat_app. cbn [fmap list_fmap concat]. by rewrite app_nil_r.
    - rewrite (decide_False (P := k = b)) by congruence. by rewrite app_nil_r. }
  destruct (decide (m_buffer_events w <= length (buffer w1 k))%nat); [rewrite flushBucket_stored|]; done.
Qed.

Lemma write_count e s b :
  count (fst (write e s)) b = if decide (bucketFor (hash_id e) = b) then wrapu 64 (count (fst s) b + 1) else count (fst s) b.
Proof.
  destruct s as [w fs]. unfold write. set (w1 := mkBucketWriter _ _ _).
  assert (H : forall s' : BucketWriter * files, m_counts (fst s') = m_counts w1 ->
    count (fst s') b = if decide (bucketFor (hash_id e) = b) then wrapu 64 (count w b + 1) else count w b).
  { intros s' Hs'. unfold count at 1. rewrite Hs'. unfold w1. cbn [m_counts].
    case_decide as Hd; [subst; by rewrite lookup_insert_eq|by rewrite lookup_insert_ne]. }
  destruct (decide (m_buffer_events w1 <= _)%nat); apply H; [apply flushBucket_counts|done].
Qed.

Definition write_all (evs : list MappingEvent) (s : BucketWriter * files) : BucketWriter * files :=
  foldl (fun s e => write e s) s evs.

Definition of_bucket (b : Z) (evs : list MappingEvent) : list MappingEvent :=
  filter (fun e => bucketFor (hash_id e) = b) evs.

Lemma write_all_stored evs s b : b ∈ buckets ->
  stored (write_all evs s) b = stored s b ++ concat (event_bytes <$> of_bucket b evs).
Proof.
  intros Hb. revert s. induction evs as [|e evs IH]; intros s; [cbn; by rewrite app_nil_r|].
  cbn [write_all foldl]. unfold write_all in IH. rewrite IH, write_stored by done.
  unfold of_bucket. rewrite filter_cons. case_decide; rewrite <- app_assoc; [by rewrite fmap_cons|done].
Qed.

Lemma flush_over l s b : Forall (fun k => k ∈ buckets) l -> b ∈ buckets ->
  let s' := foldl (fun s k => flushBucket k s) s l in
  stored s' b = stored s b /\ buffer (fst s') b = if decide (b ∈ l) then [] else buffer (fst s) b.
Proof.
  intros Hl Hb. revert s. induction Hl as [|k l Hk Hl IH]; intros s; [done|]. cbn [foldl].
  destruct (IH (flushBucket k s)) as [Hs Hbuf]. split.
  - by rewrite Hs, flushBucket_stored.
  - cbn in Hbuf. rewrite Hbuf, flushBucket_buffer. repeat case_decide; set_solver.
Qed.

(** After a flush everything is on disk. *)
Lemma flush_on_disk s b : b ∈ buckets -> on_disk (snd (flush s)) b = stored s b.
Proof.
  intros Hb. destruct (flush_over buckets s b) as [Hs Hbuf]; [by apply Forall_forall|done|].
  rewrite decide_True in Hbuf by done. unfold flush. rewrite <- Hs. unfold stored. rewrite Hbuf. cbn.
  by rewrite app_nil_r.
Qed.

Lemma readBucket_content fs b :
  readBucket fs (bucketPath b) =
    (let content := on_disk fs b in
     if decide (length content mod 12 <> 0)%nat then
       Throw (runtime_error ("Bucket " +:+ bucketPath b +:+ " is " +:+ pretty (length content) +:+
         " bytes, not a whole number of events"))
     else Ok (events_of_bytes (length content / 12) content)).
Proof. unfold readBucket, on_disk. by destruct (fs !! bucketPath b). Qed.

Lemma flush_counts s : m_counts (fst (flush s)) = m_counts (fst s).
Proof.
  unfold flush. generalize buckets. intros l. revert s. induction l as [|k l IH]; intros s; [done|].
  cbn [foldl]. by rewrite IH, flushBucket_counts.
Qed.

Lemma write_all_count evs s b :
  (count (fst (write_all evs s)) b) mod 2 ^ 64 = (count (fst s) b + Z.of_nat (length (of_bucket b evs))) mod 2 ^ 64.
Proof.
  revert s. induction evs as [|e evs IH]; intros s; [cbn; f_equal; lia|].
  cbn [write_all foldl]. unfold write_all in IH. rewrite IH, write_count. unfold of_bucket. rewrite filter_cons.
  case_decide; [|done]. cbn [length]. unfold wrapu. rewrite Zplus_mod_idemp_l. f_equal. lia.
Qed.

(** Every event is in exactly one bucket. *)
Lemma buckets_partition evs :
  list_sum ((fun b => length (of_bucket b evs)) <$> buckets) = length evs.
Proof.
  induction evs as [|e evs IH]; [vm_compute; reflexivity|].
  assert (H : forall l, NoDup l -> list_sum ((fun b => length (of_bucket b (e :: evs))) <$> l)
    = (list_sum ((fun b => length (of_bucket b evs)) <$> l) + if decide (bucketFor (hash_id e) ∈ l) then 1 else 0)%nat).
  { induction 1 as [|b l Hb Hl IHl]; [done|]. rewrite !fmap_cons. cbn [list_sum foldr].
    change (foldr Nat.add 0%nat) with list_sum. rewrite IHl. unfold of_bucket at 1 3. rewrite filter_cons.
    destruct (decide (bucketFor (hash_id e) = b)) as [Heq|Hne].
    - rewrite (decide_True (P := bucketFor (hash_id e) ∈ b :: l)) by (rewrite Heq; constructor).
      rewrite decide_False by (by rewrite Heq). cbn. lia.
    - destruct (decide (bucketFor (hash_id e) ∈ l)).
      + rewrite decide_True by (by constructor). lia.
      + rewrite decide_False by (by intros [?|?]%elem_of_cons). lia. }
  rewrite H, IH.
  - rewrite decide_True by apply bucketFor_range. cbn. lia.
  - apply NoDup_fmap_2; [apply _|apply NoDup_seq].
Qed.

Lemma written_sum w (f : Z -> nat) l a :
  (forall b, count w b mod 2 ^ 64 = Z.of_nat (f b) mod 2 ^ 64) ->
  foldl (fun total bucket => wrapu 64 (total + count w bucket)) (a mod 2 ^ 64) l
    = (a + Z.of_nat (list_sum (f <$> l))) mod 2 ^ 64.
Proof.
  intros Hf. revert a. induction l as [|b l IH]; intros a; [cbn; f_equal; lia|].
  cbn [foldl]. rewrite fmap_cons. cbn [list_sum foldr]. change (foldr Nat.add 0%nat) with list_sum.
  assert (Hb : wrapu 64 (a mod 2 ^ 64 + count w b) = (a + Z.of_nat (f b)) mod 2 ^ 64).
  { unfold wrapu. by rewrite Zplus_mod_idemp_l, Zplus_mod, (Hf b), <- Zplus_mod. }
  rewrite Hb, IH. f_equal. lia.
Qed.

(** ** What relations collapse to *)

Record relation_ok (e : RelationEvent) : Prop := {
  rel_a_ok : 0 <= rel_a e <= uint32_max;
  rel_b_ok : 0 <= rel_b e <= uint32_max;
  rel_op_ok : rel_op e = 0 \/ rel_op e = 1
}.

Module RelationSpec.

(** A pair of tag ids as one number, which orders pairs as the code does. *)
Definition pair_key (a b : Z) : Z := a * 2 ^ 32 + b.
Definition rel_key (e : RelationEvent) : Z := pair_key (rel_a e) (rel_b e).

Definition before (x y : CollapsedRelation) : Prop :=
  crel_a x < crel_a y \/ (crel_a x = crel_a y /\ crel_b x < crel_b y).

Definition final_op (evs : list RelationEvent) (a b : Z) : EventOp :=
  if CollapseSpec.ends_in_delete (relation_event <$> evs) a b then Delete else Add.

Definition stated (evs : list RelationEvent) (r : CollapsedRelation) : Prop :=
  (exists e, e ∈ evs /\ rel_a e = crel_a r /\ rel_b e = crel_b r) /\ crel_op r = final_op evs (crel_a r) (crel_b r).

Lemma relation_le_spec x y :
  relation_le x y <-> event_le (relation_event x) (relation_event y).
Proof. reflexivity. Qed.

#[global] Instance relation_le_total : Total relation_le.
Proof. intros x y. rewrite !relation_le_spec. apply event_le_total. Qed.
#[global] Instance relation_le_trans : Transitive relation_le.
Proof. intros x y z. rewrite !relation_le_spec. apply event_le_trans. Qed.

Lemma pair_key_inj a b a' b' :
  0 <= b <= uint32_max -> 0 <= b' <= uint32_max -> pair_key a b = pair_key a' b' -> a = a' /\ b = b'.
Proof. unfold pair_key, uint32_max. lia. Qed.

Lemma sorted_by_rel_key l :
  Forall relation_ok l -> StronglySorted relation_le l -> StronglySorted (by_key rel_key) l.
Proof.
  intros Hok. induction 1 as [|x l Hs IH Hx]; [constructor|]. apply Forall_cons in Hok as [Hxo Hok].
  constructor; [by apply IH|]. rewrite Forall_forall in *. intros y Hy. specialize (Hx y Hy). specialize (Hok y Hy).
  rewrite relation_le_spec, event_le_spec in Hx. cbn in Hx. destruct Hxo as [Ha Hb _], Hok as [Ha' Hb' _].
  unfold by_key, rel_key, pair_key, uint32_max in *. lia.
Qed.

Lemma span_while_ext {A} (p q : A -> bool) l :
  Forall (fun x => p x = q x) l -> span_while p l = span_while q l.
Proof. induction 1 as [|x l Hx Hl IH]; [done|]. cbn. by rewrite Hx, IH. Qed.

(** The operation a pair ends in, read off its events alone. *)
Lemma final_op_sub evs evs' a b :
  (forall e, rel_a e = a -> rel_b e = b -> e ∈ evs <-> e ∈ evs') -> final_op evs a b = final_op evs' a b.
Proof.
  intros Hsame. unfold final_op.
  assert (Hends : forall l l', (forall e, rel_a e = a -> rel_b e = b -> e ∈ l <-> e ∈ l') ->
    CollapseSpec.ends_in_delete (relation_event <$> l) a b = true ->
    CollapseSpec.ends_in_delete (relation_event <$> l') a b = true).
  { intros l l' Hl. rewrite !CollapseSpec.ends_in_delete_spec.
    intros (e & (x & -> & Hx)%list_elem_of_fmap & (Ha & Hb) & Hop & Hall). exists (relation_event x).
    split_and!; try done.
    - apply list_elem_of_fmap. exists x. split; [done|]. by apply Hl.
    - intros e' (x' & -> & Hx')%list_elem_of_fmap Ha' Hb'. apply Hall; [|done..].
      apply list_elem_of_fmap. exists x'. split; [done|]. by apply Hl. }
  destruct (CollapseSpec.ends_in_delete (relation_event <$> evs) a b) eqn:H1,
    (CollapseSpec.ends_in_delete (relation_event <$> evs') a b) eqn:H2; try done.
  - apply (Hends evs evs') in H1; [congruence|done].
  - apply (Hends evs' evs) in H2; [congruence|intros; by rewrite Hsame].
Qed.

(** A chain of one pair collapses to the pair's final operation. *)
Lemma chain_final_op e l :
  StronglySorted relation_le (e :: l) -> Forall relation_ok (e :: l) ->
  Forall (fun x => rel_a x = rel_a e /\ rel_b x = rel_b e) (e :: l) ->
  exists i, collapseChain (relation_event <$> (e :: l)) = Some (mkCollapsed (final_op (e :: l) (rel_a e) (rel_b e)) i).
Proof.
  intros Hs Hok Hpair.
  set (chain := relation_event <$> (e :: l)).
  assert (Hcs : StronglySorted event_le chain).
  { unfold chain. clear -Hs. induction Hs as [|x l' Hs IH Hx]; constructor; [done|]. by apply Forall_fmap. }
  destruct (last chain) as [z|] eqn:Hl; [|apply last_None in Hl; discriminate].
  destruct (CollapseSpec.last_of_sorted _ _ Hcs Hl) as [Hz Hmax].
  assert (Hpairs : forall x, x ∈ chain -> hash_id x = rel_a e /\ tag_id x = rel_b e /\ (op x = 0 \/ op x = 1)).
  { intros x (r & -> & Hr)%list_elem_of_fmap. rewrite Forall_forall in Hpair, Hok.
    destruct (Hpair r Hr) as [? ?], (Hok r Hr) as [_ _ ?]. done. }
  assert (Hend : CollapseSpec.ends_in_delete chain (rel_a e) (rel_b e) = (op z =? 1)).
  { apply eq_bool_prop_intro. rewrite !Is_true_true, Z.eqb_eq, CollapseSpec.ends_in_delete_spec. split.
    - intros (d & Hd & _ & Hop & Hall). destruct (Hpairs z Hz) as (Hh & Ht & _). specialize (Hall z Hz Hh Ht).
      pose proof (Hmax d Hd) as Hle. destruct (Hpairs d Hd) as (Hh' & Ht' & _).
      rewrite CollapseSpec.no_later_spec in Hall. rewrite event_le_spec in Hle. lia.
    - intros Hop. exists z. destruct (Hpairs z Hz) as (Hh & Ht & _). split_and!; try done.
      intros x Hx Hxh Hxt. pose proof (Hmax x Hx) as Hle. rewrite event_le_spec in Hle.
      apply CollapseSpec.no_later_spec. lia. }
  unfold collapseChain, final_op. fold chain. rewrite Hl, Hend.
  destruct (op z =? 1) eqn:Hop; [by eexists|].
  assert (Hadd : z ∈ filter (fun x => op x = 0) chain).
  { apply list_elem_of_filter. split; [|done]. destruct (Hpairs z Hz) as (_ & _ & [?|?]); [done|lia]. }
  destruct (filter _ chain) as [|x l']; [by apply elem_of_nil in Hadd|]. by eexists.
Qed.

Lemma rel_key_pair x y : relation_ok x -> relation_ok y ->
  rel_key x = rel_key y <-> rel_a x = rel_a y /\ rel_b x = rel_b y.
Proof.
  intros [_ Hx _] [_ Hy _]. split; [by apply pair_key_inj|]. intros [Ha Hb]. unfold rel_key. by rewrite Ha, Hb.
Qed.

(** The front of a sorted list: the chain of its first pair, and the rest. *)
Lemma relation_chain e l :
  StronglySorted relation_le (e :: l) -> Forall relation_ok (e :: l) ->
  span_while (fun x => (rel_a x =? rel_a e) && (rel_b x =? rel_b e)) (e :: l)
    = (filter (fun x => rel_key x = rel_key e) (e :: l), filter (fun x => rel_key x <> rel_key e) (e :: l)).
Proof.
  intros Hs Hok. pose proof (sorted_by_rel_key _ Hok Hs) as Hk.
  rewrite <- (span_while_group rel_key) by (done || by apply sorted_head).
  apply span_while_ext, Forall_forall. intros x Hx. rewrite Forall_forall in Hok.
  apply eq_bool_prop_intro. rewrite !Is_true_true, andb_true_iff, !Z.eqb_eq.
  symmetry. apply rel_key_pair; apply Hok; [done|constructor].
Qed.

(** What is stated of a list is stated of its first pair's chain, or of the rest. *)
Lemma stated_split e l r :
  Forall relation_ok (e :: l) ->
  stated (e :: l) r <->
  r = mkCollapsedRelation (rel_a e) (rel_b e) (final_op (e :: l) (rel_a e) (rel_b e))
  \/ stated (filter (fun x => rel_key x <> rel_key e) (e :: l)) r.
Proof.
  intros Hok. rewrite Forall_forall in Hok.
  assert (He : e ∈ e :: l) by constructor.
  assert (Hkey : forall x, x ∈ e :: l -> rel_key x = rel_key e <-> rel_a x = rel_a e /\ rel_b x = rel_b e).
  { intros x Hx. apply rel_key_pair; auto. }
  split.
  - intros [(x & Hx & Ha & Hb) Hop]. destruct (decide (rel_key x = rel_key e)) as [Heq|Hne].
    + left. apply Hkey in Heq as [Ha' Hb']; [|done]. destruct r as [a b o]. cbn in *. by subst a b o; rewrite Ha', Hb'.
    + right. split; [exists x; rewrite list_elem_of_filter; done|]. rewrite Hop. apply final_op_sub. intros y Hya Hyb.
      rewrite list_elem_of_filter. split; [|tauto]. intros Hy. split; [|done]. rewrite Hkey by done.
      rewrite Hkey in Hne by done. intros [? ?]. apply Hne. split; congruence.
  - intros [->|[(x & [Hne Hx]%list_elem_of_filter & Ha & Hb) Hop]].
    + split; [exists e; done|done].
    + split; [exists x; done|]. rewrite Hop. apply final_op_sub. intros y Hya Hyb.
      rewrite list_elem_of_filter. split; [tauto|]. intros Hy. split; [|done]. rewrite Hkey by done.
      rewrite Hkey in Hne by done. intros [? ?]. apply Hne. split; congruence.
Qed.

Lemma relation_loop_ok fuel l :
  StronglySorted relation_le l -> Forall relation_ok l -> (length l <= fuel)%nat ->
  exists out, relation_loop fuel l = Ok out /\ StronglySorted before out /\ forall r, r ∈ out <-> stated l r.
Proof.
  assert (Hnil : forall r, r ∈ [] <-> stated [] r).
  { intros r. split; [by intros ?%elem_of_nil|]. by intros [(e & ?%elem_of_nil & _) _]. }
  revert l. induction fuel as [|fuel IH]; intros l Hs Hok Hlen.
  { destruct l; [|simpl in Hlen; lia]. exists []. split_and!; [done|constructor|done]. }
  destruct l as [|e l]; [exists []; split_and!; [done|constructor|done]|].
  cbn [relation_loop]. rewrite relation_chain by done.
  set (chain := filter (fun x => rel_key x = rel_key e) (e :: l)).
  set (rest := filter (fun x => rel_key x <> rel_key e) (e :: l)).
  pose proof (proj1 (Forall_forall _ _) Hok) as Hall.
  assert (Hrl : (length rest <= fuel)%nat).
  { pose proof (filter_other_length rel_key (rel_key e) (e :: l) e ltac:(constructor) eq_refl) as Hl.
    fold rest in Hl. lia. }
  destruct (IH rest) as (out & Hout & Hsort & Hspec);
    [by apply StronglySorted_filter|by apply CollapseSpec.Forall_filter_sub|done|].
  rewrite Hout. cbn [mbind result_bind].
  assert (Hchain : chain = e :: filter (fun x => rel_key x = rel_key e) l).
  { unfold chain. by rewrite filter_cons_True. }
  destruct (chain_final_op e (filter (fun x => rel_key x = rel_key e) l)) as [i Hi].
  { rewrite <- Hchain. by apply StronglySorted_filter. }
  { rewrite <- Hchain. by apply CollapseSpec.Forall_filter_sub. }
  { rewrite <- Hchain. apply Forall_forall. intros x [Hk Hx]%list_elem_of_filter.
    apply rel_key_pair in Hk; [done|auto..]. apply Hall. constructor. }
  rewrite Hchain, Hi. cbn [collapsed_op]. rewrite <- Hchain.
  assert (Hfin : final_op chain (rel_a e) (rel_b e) = final_op (e :: l) (rel_a e) (rel_b e)).
  { apply final_op_sub. intros y Ha Hb. unfold chain. rewrite list_elem_of_filter. split; [tauto|].
    intros Hy. split; [|done]. apply rel_key_pair; [auto|apply Hall; constructor|done]. }
  rewrite Hfin. eexists. split; [done|]. split.
  - constructor; [done|]. apply Forall_forall. intros r Hr. apply Hspec in Hr as [(x & Hx & Ha & Hb) _].
    apply list_elem_of_filter in Hx as [Hne Hx].
    pose proof (sorted_head _ _ _ (sorted_by_rel_key _ Hok Hs)) as Hmin. rewrite Forall_forall in Hmin.
    specialize (Hmin x Hx). destruct (Hall x Hx) as [_ Hbx _], (Hall e ltac:(constructor)) as [_ Hbe _].
    unfold before, rel_key, pair_key, uint32_max in *. cbn. lia.
  - intros r. rewrite elem_of_cons, Hspec. rewrite (stated_split e l r Hok). done.
Qed.
End RelationSpec.

(** ** What the usage set counts *)

Module UsageSpec.

(** Bit [i] of a list of words, 64 to a word. *)
Definition bit_of (ws : list Z) (i : nat) : bool := Z.testbit (nth (i / 64) ws 0) (Z.of_nat (i mod 64)).

Lemma bit_of_shift w ws i : bit_of (w :: ws) (64 + i) = bit_of ws i.
Proof.
  unfold bit_of. replace (64 + i)%nat with (i + 1 * 64)%nat by lia.
  rewrite Nat.div_add, Nat.Div0.mod_add, Nat.add_1_r by lia. done.
Qed.

Lemma bit_of_head w ws i : (i < 64)%nat -> bit_of (w :: ws) i = Z.testbit w (Z.of_nat i).
Proof. intros Hi. unfold bit_of. by rewrite Nat.div_small, Nat.mod_small by done. Qed.

(** The sum of the population counts is the number of set bits. *)
Lemma popcount_bits ws a :
  foldl (fun total w => total + popcount w) a ws
    = a + Z.of_nat (length (filter (fun i => bit_of ws i = true) (seq 0 (64 * length ws)))).
Proof.
  revert a. induction ws as [|w ws IH]; intros a; [cbn; lia|].
  cbn [foldl]. rewrite IH. replace (64 * length (w :: ws))%nat with (64 + 64 * length ws)%nat by (cbn [length]; lia).
  rewrite seq_app, filter_app, length_app, Nat.add_0_l.
  rewrite (list_filter_ext_in _ (fun i => Z.testbit w (Z.of_nat i) = true) (seq 0 64)).
  2: { intros i [_ Hi]%elem_of_seq. by rewrite bit_of_head. }
  replace (seq 64 (64 * length ws)) with (Nat.add 64 <$> seq 0 (64 * length ws)) by apply fmap_add_seq.
  rewrite list_filter_fmap, length_fmap.
  rewrite (list_filter_ext_in ((fun i => bit_of (w :: ws) i = true) ∘ Nat.add 64) (fun i => bit_of ws i = true)).
  2: { intros i _. cbn [compose]. by rewrite bit_of_shift. }
  unfold popcount. lia.
Qed.

Lemma bit_of_alter ws k i :
  (i < 64 * length ws)%nat -> (k < 64 * length ws)%nat ->
  bit_of (alter (fun w => Z.lor w (Z.shiftl 1 (Z.of_nat (k mod 64)))) (k / 64)%nat ws) i = bit_of ws i || (i =? k)%nat.
Proof.
  intros Hi Hk. unfold bit_of. rewrite !nth_lookup.
  assert (Hlt : (i / 64 < length ws)%nat) by (apply Nat.Div0.div_lt_upper_bound; lia).
  apply lookup_lt_is_Some in Hlt as [w Hw].
  destruct (decide (k / 64 = i / 64)%nat) as [Heq|Hne].
  - rewrite Heq, list_lookup_alter_eq, Hw. cbn [fmap option_fmap option_map default from_option id].
    rewrite Z.lor_spec, Z.shiftl_1_l, Z.pow2_bits_eqb by lia. f_equal.
    destruct (Nat.eqb_spec i k) as [->|Hik].
    + apply Z.eqb_refl.
    + apply Z.eqb_neq. pose proof (Nat.div_mod i 64). pose proof (Nat.div_mod k 64). lia.
  - rewrite list_lookup_alter_ne, Hw by done. rewrite (proj2 (Nat.eqb_neq i k)); [by rewrite orb_false_r|].
    intros ->. done.
Qed.

(** Marking sets one bit and nothing else. *)
Definition wf (u : TagUsageSet) : Prop := m_capacity u <= 64 * Z.of_nat (length (m_words u)).

Lemma make_wf cap : 0 <= cap -> wf (TagUsageSet_make cap).
Proof.
  intros Hc. unfold wf, TagUsageSet_make, BITS_PER_WORD. cbn [m_words m_capacity]. rewrite length_replicate, Z2Nat.id.
  - pose proof (Z.div_mod (cap + 64 - 1) 64). pose proof (Z.mod_pos_bound (cap + 64 - 1) 64). lia.
  - apply Z.div_pos; lia.
Qed.

Lemma mark_shape t u : length (m_words (mark t u)) = length (m_words u) /\ m_capacity (mark t u) = m_capacity u.
Proof. unfold mark. destruct (_ <=? _); [done|]. cbn. by rewrite length_alter. Qed.

Lemma mark_bit t u i :
  wf u -> 0 <= t -> (i < 64 * length (m_words u))%nat ->
  bit_of (m_words (mark t u)) i = bit_of (m_words u) i || ((Z.of_nat i =? t) && (t <? m_capacity u)).
Proof.
  intros Hwf Ht Hi. unfold mark, wf in *. destruct (Z.leb_spec (m_capacity u) t) as [Hge|Hlt].
  - rewrite (proj2 (Z.ltb_ge _ _)) by lia. by rewrite andb_false_r, orb_false_r.
  - rewrite (proj2 (Z.ltb_lt _ _)), andb_true_r by lia. cbn [m_words]. unfold BITS_PER_WORD.
    replace (Z.to_nat (t / 64)) with (Z.to_nat t / 64)%nat by (rewrite Z2Nat.inj_div by lia; done).
    replace (t mod 64) with (Z.of_nat (Z.to_nat t mod 64)) by (rewrite Nat2Z.inj_mod, Z2Nat.id by lia; done).
    rewrite bit_of_alter by lia. f_equal. destruct (Nat.eqb_spec i (Z.to_nat t)), (Z.eqb_spec (Z.of_nat i) t); lia.
Qed.

Lemma marks_bit ts u i :
  wf u -> Forall (fun t => 0 <= t) ts -> (i < 64 * length (m_words u))%nat ->
  bit_of (m_words (foldl (fun u t => mark t u) u ts)) i = true <->
  bit_of (m_words u) i = true \/ (Z.of_nat i ∈ ts /\ Z.of_nat i < m_capacity u).
Proof.
  intros Hwf Hts. revert u Hwf. induction Hts as [|t ts Ht Hts IH]; intros u Hwf Hi.
  { cbn. split; [tauto|]. intros [?|[?%elem_of_nil _]]; done. }
  cbn [foldl]. destruct (mark_shape t u) as [Hlen Hcap].
  rewrite IH by (unfold wf; rewrite ?Hlen, ?Hcap; done). rewrite mark_bit by done.
  rewrite Hcap, elem_of_cons, orb_true_iff, andb_true_iff, Z.eqb_eq, Z.ltb_lt. intuition (subst; auto).
Qed.

Lemma marks_shape ts u :
  length (m_words (foldl (fun u t => mark t u) u ts)) = length (m_words u).
Proof.
  revert u. induction ts as [|t ts IH]; intros u; [done|]. cbn [foldl]. by rewrite IH, (proj1 (mark_shape t u)).
Qed.
End UsageSpec.

(** ** Theorems *)

Lemma spilled_bucket n fs evs b :
  b ∈ buckets ->
  on_disk (snd (flush (write_all evs (BucketWriter_make n, fs)))) b
    = on_disk fs b ++ concat (event_bytes <$> of_bucket b evs).
Proof.
  intros Hb. rewrite flush_on_disk, write_all_stored by done. unfold stored. cbn. by rewrite app_nil_r.
Qed.

Lemma spill_read (n : nat) (fs : gmap string (list Z)) (evs : list MappingEvent) (b : Z)
    (Hevs : Forall event_ok evs) (Hb : 0 <= b < BUCKET_COUNT) :
  let fs' := snd (flush (write_all evs (BucketWriter_make n, fs))) in
  match readBucket fs (bucketPath b) with
  | Ok stale => readBucket fs' (bucketPath b) = Ok (stale ++ of_bucket b evs)
  | Throw _ => exists what, readBucket fs' (bucketPath b) = Throw (runtime_error what)
  end.
Proof.
  apply elem_of_buckets in Hb. intros fs'. unfold fs'. rewrite !readBucket_content, spilled_bucket by done. cbn zeta.
  rewrite length_app, concat_event_bytes_length, (Nat.mul_comm 12).
  rewrite Nat.Div0.mod_add, Nat.div_add by lia. destruct (decide (_ <> _)) as [Hr|Hr]; [by eexists|]. f_equal.
  rewrite events_of_bytes_app.
  - f_equal. apply events_of_bytes_concat. by apply CollapseSpec.Forall_filter_sub.
  - apply dec_stable in Hr. pose proof (Nat.div_mod (length (on_disk fs b)) 12). lia.
Qed.

(** Whatever the buffer size, writing any sequence of events and flushing
    leaves each bucket file with exactly the events of its bucket, in the order
    they were written, after the events the file already held; and a bucket
    file that was not a whole number of events stays unreadable instead of
    being read out of step. *)
Theorem bucket_spill_roundtrip (n : nat) (fs : gmap string (list Z)) (evs : list MappingEvent) (b : Z)
    (Hevs : Forall event_ok evs) (Hb : 0 <= b < BUCKET_COUNT) :
  let fs' := snd (flush (write_all evs (BucketWriter_make n, fs))) in
  match readBucket fs (bucketPath b) with
  | Ok stale => readBucket fs' (bucketPath b) = Ok (stale ++ of_bucket b evs)
  | Throw _ => exists what, readBucket fs' (bucketPath b) = Throw (runtime_error what)
  end.
Proof. by apply spill_read. Qed.

Lemma written_after n fs evs :
  written (fst (flush (write_all evs (BucketWriter_make n, fs)))) = wrapu 64 (Z.of_nat (length evs)).
Proof.
  unfold written. rewrite <- (buckets_partition evs).
  change (wrapu 64 (Z.of_nat (list_sum ((fun b => length (of_bucket b evs)) <$> buckets))))
    with ((0 + Z.of_nat (list_sum ((fun b => length (of_bucket b evs)) <$> buckets))) mod 2 ^ 64).
  rewrite <- (written_sum (fst (flush (write_all evs (BucketWriter_make n, fs))))); [done|].
  intros b. unfold count. rewrite flush_counts. fold (count (fst (write_all evs (BucketWriter_make n, fs))) b).
  rewrite write_all_count. done.
Qed.

(** [BucketWriter::written] counts every accepted event once, buffered or
    flushed, modulo 2^64. *)
Theorem written_counts_events (n : nat) (fs : gmap string (list Z)) (evs : list MappingEvent) :
  written (fst (write_all evs (BucketWriter_make n, fs))) = wrapu 64 (Z.of_nat (length evs))
  /\ written (fst (flush (write_all evs (BucketWriter_make n, fs)))) = wrapu 64 (Z.of_nat (length evs)).
Proof.
  split; [|apply written_after]. rewrite <- (written_after n fs evs). unfold written, count. by rewrite flush_counts.
Qed.

Lemma collapse_spilled n d discard evs b :
  Forall event_ok evs -> 0 <= b < BUCKET_COUNT ->
  collapseOneBucket (snd (flush (write_all evs (BucketWriter_make n, ∅)))) b d discard
    = Ok (CollapseSpec.outcome d discard (of_bucket b evs)).
Proof.
  intros Hevs Hb. pose proof (spill_read n ∅ evs b Hevs Hb) as H. cbn zeta in H.
  unfold readBucket at 1 in H. rewrite lookup_empty in H. unfold collapseOneBucket. rewrite H.
  cbn [mbind result_bind app]. apply CollapseSpec.collapse_events_ok. by apply CollapseSpec.Forall_filter_sub.
Qed.

(** End to end, writing events into fresh buckets and collapsing one of
    them gives, for every file of the bucket that has a hash definition, in
    ascending file id, the tags whose history does not end in a delete, and
    (unless discarded) those whose history does; events of files without a
    definition are dropped, and the counters are those of this result.  The
    loops never run out of fuel: a result is always returned. *)
Theorem collapseOneBucket_outcome (n : nat) (d : Definitions) (discard : bool) (evs : list MappingEvent) (b : Z)
    (Hevs : Forall event_ok evs) (Hb : 0 <= b < BUCKET_COUNT) :
  collapseOneBucket (snd (flush (write_all evs (BucketWriter_make n, ∅)))) b d discard
    = Ok (CollapseSpec.outcome d discard (of_bucket b evs)).
Proof. by apply collapse_spilled. Qed.

Lemma sort_unique_perm l l' : l ≡ₚ l' -> sort_unique l = sort_unique l'.
Proof.
  intros Hp. apply (StronglySorted_strict_ext Z.lt); try apply sort_unique_sorted.
  intros x. by rewrite !elem_of_sort_unique, Hp.
Qed.

Lemma outcome_perm d discard evs evs' :
  evs ≡ₚ evs' -> CollapseSpec.outcome d discard evs = CollapseSpec.outcome d discard evs'.
Proof.
  intros Hp.
  assert (Hend : forall h t, CollapseSpec.ends_in_delete evs h t = CollapseSpec.ends_in_delete evs' h t).
  { intros h t. apply eq_bool_prop_intro. rewrite !Is_true_true, !CollapseSpec.ends_in_delete_spec.
    by setoid_rewrite Hp. }
  assert (Htags : forall h, CollapseSpec.tags_of evs h = CollapseSpec.tags_of evs' h).
  { intros h. apply sort_unique_perm. by rewrite Hp. }
  assert (Hk : forall h, CollapseSpec.kept_tags evs h = CollapseSpec.kept_tags evs' h).
  { intros h. unfold CollapseSpec.kept_tags. rewrite Htags. apply list_filter_ext_in. intros t _. by rewrite Hend. }
  assert (Hd : forall h, CollapseSpec.deleted_tags evs h = CollapseSpec.deleted_tags evs' h).
  { intros h. unfold CollapseSpec.deleted_tags. rewrite Htags. apply list_filter_ext_in. intros t _. by rewrite Hend. }
  assert (Hf : CollapseSpec.files_of d evs = CollapseSpec.files_of d evs').
  { unfold CollapseSpec.files_of. by rewrite (sort_unique_perm _ (hash_id <$> evs')) by (by rewrite Hp). }
  unfold CollapseSpec.outcome. rewrite Hf, (Permutation_length Hp).
  rewrite (list_fmap_ext (CollapseSpec.record_of discard evs) (CollapseSpec.record_of discard evs'))
    by (intros; unfold CollapseSpec.record_of; by rewrite Hk, Hd).
  f_equal; f_equal; apply list_fmap_ext; intros; by rewrite Hd.
Qed.

(** The collapse does not depend on how the scan's workers interleave: any
    two orders of the same events, written with any buffer sizes, collapse to
    the same result in every bucket. *)
Theorem collapse_order_independent (n n' : nat) (d : Definitions) (discard : bool) (evs evs' : list MappingEvent) (b : Z)
    (Hevs : Forall event_ok evs) (Hperm : evs ≡ₚ evs') (Hb : 0 <= b < BUCKET_COUNT) :
  collapseOneBucket (snd (flush (write_all evs (BucketWriter_make n, ∅)))) b d discard
    = collapseOneBucket (snd (flush (write_all evs' (BucketWriter_make n', ∅)))) b d discard.
Proof.
  rewrite !collapse_spilled; [|by rewrite <- Hperm|done..]. f_equal. apply outcome_perm.
  unfold of_bucket. by rewrite Hperm.
Qed.

Lemma relations_final (evs : list RelationEvent) (Hevs : Forall relation_ok evs) :
  exists out, collapseRelations evs = Ok out /\ StronglySorted RelationSpec.before out
    /\ forall r, r ∈ out <-> RelationSpec.stated evs r.
Proof.
  unfold collapseRelations. pose proof (merge_sort_Permutation relation_le evs) as Hp.
  destruct (RelationSpec.relation_loop_ok (length evs) (merge_sort relation_le evs)) as (out & Hout & Hs & Hspec).
  - apply (StronglySorted_merge_sort relation_le).
  - by rewrite Hp.
  - by rewrite Hp.
  - exists out. split_and!; [done..|]. intros r. rewrite Hspec. unfold RelationSpec.stated.
    rewrite (RelationSpec.final_op_sub _ evs) by (intros; by rewrite Hp). by setoid_rewrite Hp.
Qed.

(** Collapsing relations returns, in ascending order of the pair and so
    each pair once, exactly the pairs that have events, each with the
    operation its history ends in. *)
Theorem collapseRelations_final_ops (evs : list RelationEvent) (Hevs : Forall relation_ok evs) :
  exists out, collapseRelations evs = Ok out /\ StronglySorted RelationSpec.before out
    /\ forall r, r ∈ out <-> RelationSpec.stated evs r.
Proof. by apply relations_final. Qed.

(** In whatever order and however often tags are marked, the usage set
    counts the distinct marked ids below its capacity. *)
Theorem usage_count_distinct (capacity : Z) (ts : list Z)
    (Hcap : 0 <= capacity <= uint32_max) (Hts : Forall (fun t => 0 <= t) ts) :
  usage_count (foldl (fun u t => mark t u) (TagUsageSet_make capacity) ts)
    = Z.of_nat (length (sort_unique (filter (fun t => t < capacity) ts))).
Proof.
  set (u0 := TagUsageSet_make capacity). assert (Hwf : UsageSpec.wf u0) by (apply UsageSpec.make_wf; lia).
  unfold usage_count. rewrite UsageSpec.popcount_bits, UsageSpec.marks_shape, Z.add_0_l. f_equal.
  rewrite <- (length_fmap Z.of_nat). apply Permutation_length, NoDup_Permutation.
  - apply NoDup_fmap_2; [apply _|]. apply NoDup_filter, NoDup_seq.
  - apply (StronglySorted_strict_NoDup Z.lt), sort_unique_sorted.
  - intros x. rewrite elem_of_sort_unique, list_elem_of_filter, list_elem_of_fmap.
    assert (Hzero : forall i, UsageSpec.bit_of (m_words u0) i = false).
    { intros i. unfold UsageSpec.bit_of, u0, TagUsageSet_make. cbn [m_words]. rewrite nth_lookup.
      destruct (_ !! _) as [w|] eqn:Hw; cbn; [|apply Z.testbit_0_l]. apply lookup_replicate in Hw as [-> _].
      apply Z.testbit_0_l. }
    rewrite Forall_forall in Hts. unfold UsageSpec.wf in Hwf. cbn [m_capacity u0 TagUsageSet_make] in Hwf. split.
    + intros (i & -> & [Hbit Hi]%list_elem_of_filter). apply elem_of_seq in Hi.
      apply UsageSpec.marks_bit in Hbit as [Hb|[Hin Hlt]]; try done; [by rewrite Hzero in Hb|by apply Forall_forall|lia].
    + intros [Hlt Hin]. specialize (Hts x Hin) as Hx. exists (Z.to_nat x). rewrite Z2Nat.id by done. split; [done|].
      assert (Hn : (Z.to_nat x < 64 * length (m_words u0))%nat) by lia.
      apply list_elem_of_filter. rewrite elem_of_seq. split; [|lia].
      apply UsageSpec.marks_bit; [done|by apply Forall_forall|done|]. right. rewrite Z2Nat.id by done. done.
Qed.

(** ** Witnesses *)

Module Example_bucket.
Definition sha (h : Z) : list Z := replicate 32 h.
Definition defs : Definitions :=
  mkDefinitions (fun h => if h =? 4097 then Some (sha 7) else None) (fun t => Some "tag").

(** File 4097 (bucket 1) has tag 5 added then deleted, tag 9 deleted then
    added again; file 1 has no definition. *)
Definition evs : list MappingEvent :=
  [mkEvent 4097 5 3 1 0; mkEvent 4097 9 2 0 0; mkEvent 1 5 1 0 0; mkEvent 2 5 1 0 0;
   mkEvent 4097 9 1 1 0; mkEvent 4097 5 1 0 0].

Lemma evs_ok : Forall event_ok evs.
Proof. repeat constructor; cbn; (lia || (unfold uint32_max, MAX_UPDATE_INDEX; lia)). Qed.
End Example_bucket.

Lemma bucket_spill_roundtrip_witness :
  readBucket (snd (flush (write_all Example_bucket.evs (BucketWriter_make 2, ∅)))) (bucketPath 2)
    = Ok [mkEvent 2 5 1 0 0].
Proof.
  exact (bucket_spill_roundtrip 2 ∅ Example_bucket.evs 2 Example_bucket.evs_ok ltac:(unfold BUCKET_COUNT; lia)).
Defined.

Lemma collapseOneBucket_outcome_witness :
  collapseOneBucket (snd (flush (write_all Example_bucket.evs (BucketWriter_make 2, ∅)))) 1 Example_bucket.defs false
    = Ok (mkBucketResult [mkCollapsedRecord (Example_bucket.sha 7) [9] [5]] 5 2 1 1).
Proof.
  rewrite (collapseOneBucket_outcome 2 Example_bucket.defs false Example_bucket.evs 1 Example_bucket.evs_ok
    ltac:(unfold BUCKET_COUNT; lia)). vm_compute. reflexivity.
Defined.

Lemma collapse_order_independent_witness :
  collapseOneBucket (snd (flush (write_all Example_bucket.evs (BucketWriter_make 2, ∅)))) 1 Example_bucket.defs true
    = collapseOneBucket (snd (flush (write_all (reverse Example_bucket.evs) (BucketWriter_make 3, ∅)))) 1
        Example_bucket.defs true.
Proof.
  exact (collapse_order_independent 2 3 Example_bucket.defs true Example_bucket.evs (reverse Example_bucket.evs) 1
    Example_bucket.evs_ok (symmetry (reverse_Permutation _)) ltac:(unfold BUCKET_COUNT; lia)).
Defined.

Lemma collapseRelations_final_ops_witness :
  exists out, collapseRelations [mkRelationEvent 4 2 7 1 0; mkRelationEvent 3 8 1 0 0; mkRelationEvent 4 2 1 0 0] = Ok out
    /\ StronglySorted RelationSpec.before out
    /\ forall r, r ∈ out <-> RelationSpec.stated
         [mkRelationEvent 4 2 7 1 0; mkRelationEvent 3 8 1 0 0; mkRelationEvent 4 2 1 0 0] r.
Proof.
  apply (collapseRelations_final_ops [mkRelationEvent 4 2 7 1 0; mkRelationEvent 3 8 1 0 0; mkRelationEvent 4 2 1 0 0]).
  repeat constructor; cbn; (lia || (unfold uint32_max; lia)).
Defined.

Lemma usage_count_distinct_witness :
  usage_count (foldl (fun u t => mark t u) (TagUsageSet_make 100) [3; 70; 3; 100; 99]) = 3.
Proof.
  rewrite (usage_count_distinct 100 [3; 70; 3; 100; 99]);
    [vm_compute; reflexivity|unfold uint32_max; lia|repeat constructor; lia].
Defined.
