(* ===== verification/PtrChunk.v ===== *)
(** * The compacted files of the PTR: chunks and relations

    [ChunkFormat.cpp] and the file part of [RelationsFile.cpp] in the Hydrus
    importer's [ptr-core].  A chunk is a 28-byte header and a deflated body: a
    string table (PTR tag id, length, text) followed by the records, each a
    hash with two lists of indices into the table.  zlib is a parameter,
    described by the class [Zlib] and its documented laws; the theorems show
    that what the writers produce the readers read back, and that no reader
    leaves its buffer on any input. *)
From S2P Require Import Prelude StringView Bytes PtrEvents.
From Stdlib Require Import Ascii.
From Stdlib Require String.

(** ** zlib *)

(** [::compress2] into a buffer of [compressBound] bytes, and [::uncompress]
    into a buffer of the given size: the bytes produced, or [None] for a
    result other than [Z_OK]. *)
Class Zlib := {
  compress2 : list Z -> option (list Z);
  uncompress : list Z -> Z -> option (list Z)
}.

(** The documented behaviour the code relies on: a buffer as large as the
    original text receives that text, and [uncompress] never produces more
    than the buffer holds. *)
Class ZlibLaws (z : Zlib) : Prop := {
  uncompress_compress2 body c n :
    bytes_ok body -> compress2 body = Some c -> Z.of_nat (length body) <= n -> 0 < n -> uncompress c n = Some body;
  uncompress_fits c n b : uncompress c n = Some b -> Z.of_nat (length b) <= n
}.

(** ** Files *)

Definition SHA256_BYTES : nat := 32.
Definition CHUNK_MAGIC : list Z := string_bytes "IDHANPTC".
Definition RELATIONS_MAGIC : list Z := string_bytes "IDHANPTR".
Definition CHUNK_FORMAT_VERSION : Z := 2.

Record ChunkHeader := mkHeader {
  magic : list Z;
  version : Z;
  body_size : Z;
  record_count : Z;
  string_count : Z
}.

Definition sizeof_ChunkHeader : nat := 28.

Definition header_bytes (h : ChunkHeader) : list Z :=
  magic h ++ le_encode 4 (version h) ++ le_encode 8 (body_size h) ++ le_encode 4 (record_count h)
    ++ le_encode 4 (string_count h).

Definition header_of_bytes (l : list Z) : ChunkHeader :=
  mkHeader (take 8 l) (le_decode (take 4 (drop 8 l))) (le_decode (take 8 (drop 12 l)))
    (le_decode (take 4 (drop 20 l))) (le_decode (take 4 (drop 24 l))).

Record ChunkStats := mkStats { stat_records : Z; mappings : Z; missing_definitions : Z }.
Definition ChunkStats_default : ChunkStats := mkStats 0 0 0.

(** [PendingRecord] carries PTR tag ids, [ChunkRecord] indices. *)
Record PendingRecord := mkPending { pending_sha256 : list Z; add_tag_ids : list Z; del_tag_ids : list Z }.
Record ChunkStringEntry := mkStringEntry { ptr_tag_id : Z; tag : string }.
Record ChunkRecord := mkChunkRecord { record_sha256 : list Z; add_indices : list Z; del_indices : list Z }.
Record Chunk := mkChunk { strings : list ChunkStringEntry; chunk_records : list ChunkRecord }.

Record ChunkWriter := mkChunkWriter { m_path : string; m_records : list PendingRecord; m_finished : bool }.

Definition TagLookup : Type := Z -> option string.

Definition ChunkWriter_make (path : string) : ChunkWriter := mkChunkWriter path [] false.

Definition addRecord (sha256 : list Z) (adds dels : list Z) (w : ChunkWriter) : ChunkWriter :=
  mkChunkWriter (m_path w) (m_records w ++ [mkPending sha256 adds dels]) (m_finished w).

Definition recordCount (w : ChunkWriter) : Z := Z.of_nat (length (m_records w)).

(** ** The string table *)

(** [strings], [id_to_index] and the usage marks, one distinct id at a time. *)
Record Table := mkTable {
  table_strings : list ChunkStringEntry;
  id_to_index : gmap Z Z;
  table_usage : option TagUsageSet
}.

Definition table_step (lookup : TagLookup) (t : Table) (tag_id : Z) : Table :=
  match lookup tag_id with
  | None => t
  | Some text =>
      mkTable (table_strings t ++ [mkStringEntry tag_id text])
        (match id_to_index t !! tag_id with
         | Some _ => id_to_index t
         | None => <[tag_id := wrapu 32 (Z.of_nat (length (table_strings t)))]> (id_to_index t)
         end)
        (mark tag_id <$> table_usage t)
  end.

Definition build_table (lookup : TagLookup) (usage : option TagUsageSet) (distinct : list Z) : Table :=
  foldl (table_step lookup) (mkTable [] ∅ usage) distinct.

Definition entry_bytes (e : ChunkStringEntry) : list Z :=
  le_encode 4 (ptr_tag_id e) ++ le_encode 4 (Z.of_nat (String.length (tag e))) ++ string_bytes (tag e).

(** ** Writing a chunk *)

(** [remap]: the indices of the defined ids, counting both kinds. *)
Fixpoint remap (m : gmap Z Z) (ids : list Z) (stats : ChunkStats) : list Z * ChunkStats :=
  match ids with
  | [] => ([], stats)
  | id :: ids =>
      match m !! id with
      | None => remap m ids (mkStats (stat_records stats) (mappings stats) (missing_definitions stats + 1))
      | Some index =>
          let '(out, stats) := remap m ids (mkStats (stat_records stats) (mappings stats + 1) (missing_definitions stats)) in
          (index :: out, stats)
      end
  end.

Definition record_bytes (sha : list Z) (adds dels : list Z) : list Z :=
  sha ++ le_encode 4 (Z.of_nat (length adds)) ++ le_encode 4 (Z.of_nat (length dels))
    ++ concat (le_encode 4 <$> adds) ++ concat (le_encode 4 <$> dels).

Fixpoint write_records (m : gmap Z Z) (records : list PendingRecord) (stats : ChunkStats) : list Z * ChunkStats :=
  match records with
  | [] => ([], stats)
  | r :: records =>
      let '(adds, stats) := remap m (add_tag_ids r) stats in
      let '(dels, stats) := remap m (del_tag_ids r) stats in
      let '(rest, stats) := write_records m records stats in
      (record_bytes (pending_sha256 r) adds dels ++ rest, stats)
  end.

Definition distinct_ids (records : list PendingRecord) : list Z :=
  sort_unique (concat ((fun r => add_tag_ids r ++ del_tag_ids r) <$> records)).

(** ** Reading *)

(** A function that takes values from a body at an advancing offset. *)
Definition reader (A : Type) : Type := list Z -> nat -> result (A * nat).

#[export] Instance reader_ret : MRet reader := fun A x body offset => Ok (x, offset).
#[export] Instance reader_bind : MBind reader := fun A B f p body offset =>
  match p body offset with Ok (x, offset) => f x body offset | Throw e => Throw e end.

(** [body.data() + offset, n] after the check [offset + n > body.size()]. *)
Definition take_bytes (n : nat) (truncated : string) : reader (list Z) := fun body offset =>
  if decide (length body < offset + n)%nat then Throw (runtime_error truncated)
  else Ok (take n (drop offset body), (offset + n)%nat).

(** [takePod< T >]; each of the two files has its own, with its own message. *)
Definition takePod (file : string) (n : nat) (what : string) : reader Z :=
  bytes ← take_bytes n (file +:+ " truncated while reading " +:+ what);
  mret (le_decode bytes).

(** The loop [for ( i = 0; i < count; ++i ) out.push_back( item )]. *)
Fixpoint read_n {A} (n : nat) (item : reader A) : reader (list A) :=
  match n with
  | O => mret []
  | S n => x ← item; l ← read_n n item; mret (x :: l)
  end.

Definition read_string_entry (file : string) : reader ChunkStringEntry :=
  id ← takePod file 4 "a string table id";
  len ← takePod file 4 "a string table length";
  text ← take_bytes (Z.to_nat len) (file +:+ " truncated inside the string table");
  mret (mkStringEntry id (bytes_string text)).

Definition takeIndices (count : Z) : reader (list Z) := read_n (Z.to_nat count) (takePod "Chunk" 4 "a tag index").

Definition read_record : reader ChunkRecord :=
  sha ← take_bytes SHA256_BYTES "Chunk truncated inside a record hash";
  add_count ← takePod "Chunk" 4 "an add count";
  del_count ← takePod "Chunk" 4 "a delete count";
  adds ← takeIndices add_count;
  dels ← takeIndices del_count;
  mret (mkChunkRecord sha adds dels).

Definition read_chunk_body (h : ChunkHeader) : reader Chunk :=
  ss ← read_n (Z.to_nat (string_count h)) (read_string_entry "Chunk");
  rs ← read_n (Z.to_nat (record_count h)) read_record;
  mret (mkChunk ss rs).

(** *** Relations *)

Record RelationRecord := mkRelationRecord { a_index : Z; b_index : Z; record_op : Z }.
Record RelationsFile := mkRelationsFile {
  relation_strings : list ChunkStringEntry;
  parents : list RelationRecord;
  siblings : list RelationRecord
}.
Record RelationsFileStats := mkRelationsStats { stat_parents : Z; stat_siblings : Z; stat_missing : Z }.

(** [encode]: the pairs both of whose tags are in the table. *)
Fixpoint encode (m : gmap Z Z) (l : list CollapsedRelation) : list RelationRecord * Z :=
  match l with
  | [] => ([], 0)
  | r :: l =>
      let '(out, missing) := encode m l in
      match m !! crel_a r, m !! crel_b r with
      | Some a, Some b => (mkRelationRecord a b (EventOp_value (crel_op r)) :: out, missing)
      | _, _ => (out, missing + 1)
      end
  end.

Definition relation_bytes (r : RelationRecord) : list Z :=
  le_encode 4 (a_index r) ++ le_encode 4 (b_index r) ++ le_encode 1 (record_op r).

Definition relation_ids (ps ss : list CollapsedRelation) : list Z :=
  sort_unique (concat ((fun r => [crel_a r; crel_b r]) <$> (ps ++ ss))).

Definition read_relation : reader RelationRecord :=
  a ← takePod "Relations file" 4 "a relation a index";
  b ← takePod "Relations file" 4 "a relation b index";
  op ← takePod "Relations file" 1 "a relation op";
  mret (mkRelationRecord a b op).

Definition read_relations_body (h : ChunkHeader) : reader RelationsFile :=
  ss ← read_n (Z.to_nat (string_count h)) (read_string_entry "Relations file");
  parent_count ← takePod "Relations file" 4 "the parent count";
  sibling_count ← takePod "Relations file" 4 "the sibling count";
  ps ← read_n (Z.to_nat parent_count) read_relation;
  sibs ← read_n (Z.to_nat sibling_count) read_relation;
  mret (mkRelationsFile ss ps sibs).

Section zlib.
Context `{z : Zlib}.

Definition deflateBuffer (input : list Z) : result (list Z) :=
  or_throw (runtime_error "zlib compress2 failed while writing a chunk") (compress2 input).

Definition inflateBuffer (input : list Z) (expected_size : Z) : result (list Z) :=
  if expected_size =? 0 then Ok []
  else
    out ← or_throw (runtime_error "zlib uncompress failed while reading a chunk") (uncompress input expected_size);
    if negb (Z.of_nat (length out) =? expected_size) then
      Throw (runtime_error ("Chunk body inflated to " +:+ to_string (Z.of_nat (length out)) +:+ " bytes, header said "
        +:+ to_string expected_size))
    else Ok out.

(** The new writer, usage set and files, and the statistics or the exception. *)
Definition finish (lookup : TagLookup) (usage : option TagUsageSet) (w : ChunkWriter) (fs : gmap string (list Z))
    : ChunkWriter * option TagUsageSet * gmap string (list Z) * result ChunkStats :=
  if m_finished w then
    (w, usage, fs, Throw (runtime_error ("ChunkWriter::finish called twice for " +:+ m_path w)))
  else
    let w := mkChunkWriter (m_path w) (m_records w) true in
    let t := build_table lookup usage (distinct_ids (m_records w)) in
    let '(records_body, stats) := write_records (id_to_index t) (m_records w)
      (mkStats (Z.of_nat (length (m_records w))) 0 0) in
    let body := concat (entry_bytes <$> table_strings t) ++ records_body in
    let header := mkHeader CHUNK_MAGIC CHUNK_FORMAT_VERSION (Z.of_nat (length body))
      (Z.of_nat (length (m_records w))) (Z.of_nat (length (table_strings t))) in
    match deflateBuffer body with
    | Throw e => (w, table_usage t, fs, Throw e)
    | Ok compressed => (w, table_usage t, <[m_path w := header_bytes header ++ compressed]> fs, Ok stats)
    end.

Definition readChunk (fs : gmap string (list Z)) (path : string) : result Chunk :=
  content ← or_throw (runtime_error ("Failed to open chunk " +:+ path)) (fs !! path);
  if decide (length content < sizeof_ChunkHeader)%nat then
    Throw (runtime_error ("Chunk " +:+ path +:+ " is too small to hold a header"))
  else
    let h := header_of_bytes (take sizeof_ChunkHeader content) in
    if negb (bool_decide (magic h = CHUNK_MAGIC)) then
      Throw (runtime_error ("Chunk " +:+ path +:+ " has the wrong magic"))
    else if negb (version h =? CHUNK_FORMAT_VERSION) then
      Throw (runtime_error ("Chunk " +:+ path +:+ " is format version " +:+ to_string (version h) +:+ ", expected "
        +:+ to_string CHUNK_FORMAT_VERSION))
    else
      body ← inflateBuffer (drop sizeof_ChunkHeader content) (body_size h);
      '(chunk, _) ← read_chunk_body h body 0%nat;
      Ok chunk.

Definition writeRelationsFile (fs : gmap string (list Z)) (path : string) (ps ss : list CollapsedRelation)
    (lookup : TagLookup) (usage : option TagUsageSet)
    : option TagUsageSet * gmap string (list Z) * result RelationsFileStats :=
  let t := build_table lookup usage (relation_ids ps ss) in
  let '(encoded_parents, missing_parents) := encode (id_to_index t) ps in
  let '(encoded_siblings, missing_siblings) := encode (id_to_index t) ss in
  let body := concat (entry_bytes <$> table_strings t)
    ++ le_encode 4 (Z.of_nat (length encoded_parents)) ++ le_encode 4 (Z.of_nat (length encoded_siblings))
    ++ concat (relation_bytes <$> encoded_parents) ++ concat (relation_bytes <$> encoded_siblings) in
  match compress2 body with
  | None => (table_usage t, fs, Throw (runtime_error "zlib compress2 failed while writing the relations file"))
  | Some compressed =>
      let header := mkHeader RELATIONS_MAGIC CHUNK_FORMAT_VERSION (Z.of_nat (length body))
        (Z.of_nat (length encoded_parents + length encoded_siblings)) (Z.of_nat (length (table_strings t))) in
      (table_usage t, <[path := header_bytes header ++ compressed]> fs,
       Ok (mkRelationsStats (Z.of_nat (length encoded_parents)) (Z.of_nat (length encoded_siblings))
             (missing_parents + missing_siblings)))
  end.

(** The produced size is not compared with the header's: what a short stream
    leaves unwritten stays zero. *)
Definition readRelationsFile (fs : gmap string (list Z)) (path : string) : result RelationsFile :=
  content ← or_throw (runtime_error ("Failed to open " +:+ path)) (fs !! path);
  if decide (length content < sizeof_ChunkHeader)%nat then
    Throw (runtime_error (path +:+ " is too small to hold a header"))
  else
    let h := header_of_bytes (take sizeof_ChunkHeader content) in
    if negb (bool_decide (magic h = RELATIONS_MAGIC)) then
      Throw (runtime_error (path +:+ " is not a relations file"))
    else if negb (version h =? CHUNK_FORMAT_VERSION) then
      Throw (runtime_error (path +:+ " is format version " +:+ to_string (version h) +:+ ", expected "
        +:+ to_string CHUNK_FORMAT_VERSION))
    else
      body ← (if 0 <? body_size h then
          out ← or_throw (runtime_error "zlib uncompress failed while reading the relations file")
            (uncompress (drop sizeof_ChunkHeader content) (body_size h));
          Ok (out ++ replicate (Z.to_nat (body_size h) - length out) 0)
        else Ok []);
      '(file, _) ← read_relations_body h body 0%nat;
      Ok file.

End zlib.

(** ** What a reader takes *)

(** [p] reads [x] from its encoding [enc], wherever that lies in a body. *)
Definition parses {A} (p : reader A) (enc : list Z) (x : A) : Prop :=
  forall pre post, p (pre ++ enc ++ post) (length pre) = Ok (x, (length pre + length enc)%nat).

Lemma parses_ret {A} (x : A) : parses (mret x) [] x.
Proof. intros pre post. unfold mret, reader_ret. by rewrite Nat.add_0_r. Qed.

Lemma parses_bind {A B} (p : reader A) (f : A -> reader B) ea eb x y :
  parses p ea x -> parses (f x) eb y -> parses (mbind f p) (ea ++ eb) y.
Proof.
  intros Hp Hf pre post. unfold mbind, reader_bind. rewrite <- app_assoc, Hp.
  pose proof (Hf (pre ++ ea) post) as H. rewrite length_app, <- app_assoc in H. rewrite H.
  rewrite length_app, Nat.add_assoc. done.
Qed.

(** The last step of a reader encodes nothing more. *)
Lemma parses_last {A B} (p : reader A) (f : A -> B) ea x :
  parses p ea x -> parses (mbind (fun x => mret (f x)) p) ea (f x).
Proof. intros Hp. rewrite <- (app_nil_r ea). eapply parses_bind; [exact Hp|apply parses_ret]. Qed.

Lemma parses_take_bytes n why enc : length enc = n -> parses (take_bytes n why) enc enc.
Proof.
  intros Hn pre post. unfold take_bytes. rewrite decide_False by (rewrite !length_app; lia).
  rewrite drop_app_length, take_app_length' by done. by rewrite Hn.
Qed.

Lemma parses_takePod file n what v :
  0 <= v < 256 ^ Z.of_nat n -> parses (takePod file n what) (le_encode n v) v.
Proof.
  intros Hv. rewrite <- (le_decode_encode n v Hv) at 2. unfold takePod.
  apply (parses_last _ le_decode). apply parses_take_bytes, le_encode_length.
Qed.

Lemma parses_read_n {A B} (item : reader B) (enc : A -> list Z) (f : A -> B) l :
  Forall (fun a => parses item (enc a) (f a)) l ->
  parses (read_n (length l) item) (concat (enc <$> l)) (f <$> l).
Proof.
  induction 1 as [|a l Ha Hl IH]; [apply parses_ret|].
  rewrite !fmap_cons. cbn [length concat read_n]. eapply parses_bind; [exact Ha|]. by apply (parses_last _ (cons (f a))).
Qed.

(** ** What a reader has taken *)

(** On any body, [p] only succeeds having consumed, inside the body, bytes
    that [R] relates to the value it returns. *)
Definition consumes {A} (p : reader A) (R : A -> list Z -> Prop) : Prop :=
  forall body offset x offset', bytes_ok body -> (offset <= length body)%nat -> p body offset = Ok (x, offset') ->
    (offset' <= length body)%nat /\
    exists enc, R x enc /\ drop offset body = enc ++ drop offset' body /\ offset' = (offset + length enc)%nat.

Lemma consumes_ret {A} (x : A) (R : A -> list Z -> Prop) : R x [] -> consumes (mret x) R.
Proof.
  intros HR body o y o' _ Ho H. unfold mret, reader_ret in H. simplify_eq. split; [done|]. exists [].
  split_and!; [done|done|cbn; lia].
Qed.

Lemma consumes_bind {A B} (p : reader A) (f : A -> reader B) R S :
  consumes p R -> (forall x ex, R x ex -> consumes (f x) (fun y ey => S y (ex ++ ey))) -> consumes (mbind f p) S.
Proof.
  intros Hp Hf body o y o' Hb Ho H. unfold mbind, reader_bind in H.
  destruct (p body o) as [[x o1]|e] eqn:E; [|discriminate].
  destruct (Hp _ _ _ _ Hb Ho E) as (Ho1 & ex & HR & Hd & Hl).
  destruct (Hf x ex HR _ _ _ _ Hb Ho1 H) as (Ho' & ey & HS & Hd' & Hl').
  split; [done|]. exists (ex ++ ey). rewrite Hd, Hd', <- app_assoc, length_app. split_and!; [done|done|lia].
Qed.

Lemma consumes_weaken {A} (p : reader A) (R S : A -> list Z -> Prop) :
  consumes p R -> (forall x e, R x e -> S x e) -> consumes p S.
Proof.
  intros Hp HRS body o x o' Hb Ho H. destruct (Hp _ _ _ _ Hb Ho H) as (Ho' & e & HR & Hd). eauto 10.
Qed.

Lemma consumes_take_bytes n why : consumes (take_bytes n why) (fun b e => e = b /\ length b = n /\ bytes_ok b).
Proof.
  intros body o x o' Hb Ho H. unfold take_bytes in H. case_decide as Hn; [done|]. simplify_eq. split; [lia|].
  assert (Hlen : length (take n (drop o body)) = n) by (rewrite length_take, length_drop; lia).
  exists (take n (drop o body)). split_and!; [done|done| | |by rewrite Hlen].
  - by apply Forall_take, Forall_drop.
  - rewrite <- (take_drop n (drop o body)) at 1. by rewrite drop_drop.
Qed.

Lemma consumes_takePod file n what :
  consumes (takePod file n what) (fun v e => e = le_encode n v /\ 0 <= v < 256 ^ Z.of_nat n).
Proof.
  unfold takePod. eapply consumes_bind; [apply consumes_take_bytes|]. intros b e (-> & Hl & Hb).
  apply consumes_ret. rewrite app_nil_r. split; [|rewrite <- Hl; by apply le_decode_bounds].
  rewrite <- Hl. symmetry. by apply le_encode_decode.
Qed.

Lemma consumes_read_n {A} n (item : reader A) (enc : A -> list Z) :
  consumes item (fun x e => e = enc x) ->
  consumes (read_n n item) (fun l e => e = concat (enc <$> l) /\ length l = n).
Proof.
  intros Hi. induction n as [|n IH]; [by apply consumes_ret|]. cbn [read_n].
  eapply consumes_bind; [exact Hi|]. intros x ex ->. eapply consumes_bind; [exact IH|]. intros l el [-> Hl].
  apply consumes_ret. rewrite app_nil_r, fmap_cons. cbn [concat length]. by rewrite Hl.
Qed.

Lemma consumes_string_entry file : consumes (read_string_entry file) (fun x e => e = entry_bytes x).
Proof.
  unfold read_string_entry. eapply consumes_bind; [apply consumes_takePod|]. intros id ei [-> _].
  eapply consumes_bind; [apply consumes_takePod|]. intros len el [-> Hlen].
  eapply consumes_bind; [apply consumes_take_bytes|]. intros text et (-> & Hl & Hb).
  apply consumes_ret. unfold entry_bytes. cbn [ptr_tag_id tag].
  rewrite <- string_bytes_length, string_bytes_string, Hl, Z2Nat.id, app_nil_r by (done || lia). done.
Qed.

Lemma consumes_takeIndices count :
  0 <= count -> consumes (takeIndices count) (fun l e => e = concat (le_encode 4 <$> l) /\ count = Z.of_nat (length l)).
Proof.
  intros Hc. unfold takeIndices. eapply consumes_weaken.
  - apply consumes_read_n. eapply consumes_weaken; [apply consumes_takePod|]. intros v e [-> _]. done.
  - intros l e [-> Hl]. split; [done|lia].
Qed.

Lemma consumes_record :
  consumes read_record (fun r e => e = record_bytes (record_sha256 r) (add_indices r) (del_indices r)).
Proof.
  unfold read_record. eapply consumes_bind; [apply consumes_take_bytes|]. intros sha es (-> & Hs & _).
  eapply consumes_bind; [apply consumes_takePod|]. intros na ea [-> Ha].
  eapply consumes_bind; [apply consumes_takePod|]. intros nd ed [-> Hd].
  eapply consumes_bind; [apply consumes_takeIndices; lia|]. intros adds eadds [-> ->].
  eapply consumes_bind; [apply consumes_takeIndices; lia|]. intros dels edels [-> ->].
  apply consumes_ret. unfold record_bytes. cbn [record_sha256 add_indices del_indices]. by rewrite app_nil_r.
Qed.

Lemma consumes_relation : consumes read_relation (fun r e => e = relation_bytes r).
Proof.
  unfold read_relation. eapply consumes_bind; [apply consumes_takePod|]. intros a ea [-> _].
  eapply consumes_bind; [apply consumes_takePod|]. intros b eb [-> _].
  eapply consumes_bind; [apply consumes_takePod|]. intros op eo [-> _].
  apply consumes_ret. unfold relation_bytes. cbn [a_index b_index record_op]. by rewrite app_nil_r.
Qed.

Lemma consumes_chunk_body h :
  0 <= string_count h -> 0 <= record_count h ->
  consumes (read_chunk_body h) (fun c e =>
    e = concat (entry_bytes <$> strings c)
      ++ concat ((fun r => record_bytes (record_sha256 r) (add_indices r) (del_indices r)) <$> chunk_records c)
    /\ Z.of_nat (length (strings c)) = string_count h /\ Z.of_nat (length (chunk_records c)) = record_count h).
Proof.
  intros Hs Hr. unfold read_chunk_body.
  eapply consumes_bind; [apply consumes_read_n, consumes_string_entry|]. intros ss es [-> Hns].
  eapply consumes_bind; [apply consumes_read_n, consumes_record|]. intros rs er [-> Hnr].
  apply consumes_ret. cbn [strings chunk_records]. rewrite app_nil_r. split; [done|lia].
Qed.

Lemma consumes_relations_body h :
  0 <= string_count h ->
  consumes (read_relations_body h) (fun f e =>
    e = concat (entry_bytes <$> relation_strings f)
      ++ le_encode 4 (Z.of_nat (length (parents f))) ++ le_encode 4 (Z.of_nat (length (siblings f)))
      ++ concat (relation_bytes <$> parents f) ++ concat (relation_bytes <$> siblings f)
    /\ Z.of_nat (length (relation_strings f)) = string_count h).
Proof.
  intros Hs. unfold read_relations_body.
  eapply consumes_bind; [apply consumes_read_n, consumes_string_entry|]. intros ss es [-> Hns].
  eapply consumes_bind; [apply consumes_takePod|]. intros np ep [-> Hp].
  eapply consumes_bind; [apply consumes_takePod|]. intros nq eq [-> Hq].
  eapply consumes_bind; [apply consumes_read_n, consumes_relation|]. intros ps eps [-> Hnp].
  eapply consumes_bind; [apply consumes_read_n, consumes_relation|]. intros sibs esibs [-> Hnq].
  apply consumes_ret. cbn [relation_strings parents siblings].
  rewrite Hnp, Hnq, !Z2Nat.id, app_nil_r by lia. split; [done|lia].
Qed.

(** ** The string table *)

Module TableSpec.

(** The entry of a tag id: what [lookup] knows of it. *)
Definition entry_of (lookup : TagLookup) (id : Z) : option ChunkStringEntry := mkStringEntry id <$> lookup id.
Definition entries (lookup : TagLookup) (ids : list Z) : list ChunkStringEntry := omap (entry_of lookup) ids.

(** The index map points every defined id at its own entry. *)
Definition points (m : gmap Z Z) (strings : list ChunkStringEntry) (lookup : TagLookup) (ids : list Z) : Prop :=
  forall id, match m !! id with
  | Some i => 0 <= i <= uint32_max /\ id ∈ ids /\ (exists e, entry_of lookup id = Some e /\ strings !! Z.to_nat i = Some e)
  | None => id ∈ ids -> lookup id = None
  end.

Lemma entries_length lookup ids : (length (entries lookup ids) <= length ids)%nat.
Proof. unfold entries. induction ids as [|id ids IH]; [done|]. cbn. destruct (entry_of lookup id); cbn; lia. Qed.

Lemma entries_snoc lookup ids id :
  entries lookup (ids ++ [id]) = entries lookup ids ++ match entry_of lookup id with Some e => [e] | None => [] end.
Proof. unfold entries. rewrite omap_app. cbn. by destruct (entry_of lookup id). Qed.

Lemma table_step_ok lookup t ids id :
  table_strings t = entries lookup ids -> points (id_to_index t) (table_strings t) lookup ids ->
  id ∉ ids -> Z.of_nat (length (ids ++ [id])) <= uint32_max ->
  table_strings (table_step lookup t id) = entries lookup (ids ++ [id])
  /\ points (id_to_index (table_step lookup t id)) (table_strings (table_step lookup t id)) lookup (ids ++ [id])
  /\ table_usage (table_step lookup t id) = match lookup id with Some _ => mark id <$> table_usage t | None => table_usage t end.
Proof.
  intros Hs Hp Hnew Hlen. pose proof (entries_length lookup ids) as Hel. rewrite <- Hs in Hel.
  rewrite length_app in Hlen. cbn [length] in Hlen.
  unfold table_step. rewrite entries_snoc. unfold entry_of. destruct (lookup id) as [text|] eqn:Hl; cbn [fmap option_fmap option_map].
  - cbn [table_strings id_to_index table_usage]. rewrite Hs. split_and!; [done| |done].
    pose proof (Hp id) as Hid. destruct (id_to_index t !! id) as [?|] eqn:Hm; [by destruct Hid as (_ & ? & _)|].
    intros id'. destruct (decide (id' = id)) as [->|Hne].
    + rewrite lookup_insert_eq, <- Hs. unfold wrapu, uint32_max in *. rewrite Z.mod_small by lia. split; [lia|].
      split; [by apply elem_of_app; right; apply list_elem_of_singleton|]. exists (mkStringEntry id text).
      unfold entry_of. rewrite Hl. split; [done|]. rewrite Nat2Z.id. by rewrite lookup_app_r, Nat.sub_diag by done.
    + rewrite lookup_insert_ne by done. specialize (Hp id'). destruct (id_to_index t !! id') as [i|].
      * destruct Hp as (Hi & Hin & e & He & Hlk). rewrite <- Hs. split_and!; try tauto.
        { apply elem_of_app. by left. }
        exists e. split; [done|]. by apply lookup_app_l_Some.
      * intros [Hin|Hin]%elem_of_app; [by apply Hp|]. by apply list_elem_of_singleton in Hin.
  - rewrite app_nil_r. split_and!; [done| |done]. intros id'. specialize (Hp id'). destruct (id_to_index t !! id') as [i|].
    + destruct Hp as (Hi & Hin & Hex). split_and!; try tauto. apply elem_of_app. by left.
    + intros [Hin|Hin]%elem_of_app; [by apply Hp|]. by apply list_elem_of_singleton in Hin as ->.
Qed.

Lemma foldl_table lookup usage ids :
  NoDup ids -> Z.of_nat (length ids) <= uint32_max ->
  let t := build_table lookup usage ids in
  table_strings t = entries lookup ids /\ points (id_to_index t) (table_strings t) lookup ids
  /\ table_usage t = (fun u => foldl (fun u id => mark id u) u (ptr_tag_id <$> entries lookup ids)) <$> usage.
Proof.
  induction ids as [|id ids IH] using rev_ind; intros Hnd Hlen t.
  { split_and!; [done| |by destruct usage]. intros id. cbn. rewrite lookup_empty. by intros ?%elem_of_nil. }
  apply NoDup_app in Hnd as (Hnd & Hnew & _).
  assert (Hn : id ∉ ids) by (intros Hin; apply (Hnew id Hin); by apply list_elem_of_singleton).
  destruct IH as (Hs & Hp & Hu); [done|rewrite length_app in Hlen; lia|].
  unfold t, build_table. rewrite foldl_snoc. change (foldl (table_step lookup) _ ids) with (build_table lookup usage ids).
  destruct (table_step_ok lookup (build_table lookup usage ids) ids id) as (H1 & H2 & H3); [done..|].
  split_and!; [done..|]. rewrite H3, Hu, entries_snoc. unfold entry_of.
  destruct (lookup id); cbn; [|by rewrite app_nil_r]. destruct usage; [|done]. cbn.
  by rewrite fmap_app, foldl_app.
Qed.

(** Looking an id up in the map and then in the table gives its entry; every
    index is inside the table. *)
Definition resolve (strings : list ChunkStringEntry) (indices : list Z) : option (list ChunkStringEntry) :=
  mapM (fun i => strings !! Z.to_nat i) indices.

Lemma points_resolve m strings lookup ids l :
  points m strings lookup ids -> Forall (fun id => id ∈ ids) l ->
  resolve strings (omap (fun id => m !! id) l) = Some (entries lookup l)
  /\ Forall (fun i => 0 <= i <= uint32_max) (omap (fun id => m !! id) l).
Proof.
  intros Hp Hl. induction Hl as [|id l Hid Hl [IH1 IH2]]; [done|].
  unfold entries in *. cbn [omap list_omap]. specialize (Hp id). destruct (m !! id) as [i|].
  - destruct Hp as (Hi & _ & e & He & Hlk). split; [|by constructor].
    unfold resolve in *. cbn [mapM]. rewrite Hlk, He. cbn. by rewrite IH1.
  - unfold entry_of at 1. rewrite (Hp Hid). cbn. done.
Qed.
End TableSpec.

(** ** The records of a chunk *)

Module ChunkSpec.

Definition indices (m : gmap Z Z) (ids : list Z) : list Z := omap (fun id => m !! id) ids.

Definition encoded (m : gmap Z Z) (r : PendingRecord) : ChunkRecord :=
  mkChunkRecord (pending_sha256 r) (indices m (add_tag_ids r)) (indices m (del_tag_ids r)).

Definition chunk_record_bytes (r : ChunkRecord) : list Z :=
  record_bytes (record_sha256 r) (add_indices r) (del_indices r).

(** The ids of a list that are defined, and that are not. *)
Definition count_mapped (m : gmap Z Z) (ids : list Z) : Z := Z.of_nat (length (indices m ids)).
Definition count_missing (m : gmap Z Z) (ids : list Z) : Z := Z.of_nat (length ids) - count_mapped m ids.

Definition record_ids (r : PendingRecord) : list Z := add_tag_ids r ++ del_tag_ids r.

Definition plus_stats (m : gmap Z Z) (ids : list Z) (s : ChunkStats) : ChunkStats :=
  mkStats (stat_records s) (mappings s + count_mapped m ids) (missing_definitions s + count_missing m ids).

Lemma plus_stats_nil m s : plus_stats m [] s = s.
Proof. destruct s. unfold plus_stats, count_missing, count_mapped. cbn. by rewrite !Z.add_0_r. Qed.

Lemma plus_stats_app m a b s : plus_stats m (a ++ b) s = plus_stats m b (plus_stats m a s).
Proof.
  unfold plus_stats, count_missing, count_mapped, indices. cbn. rewrite omap_app, !length_app. f_equal; lia.
Qed.

Lemma remap_ok m ids s : remap m ids s = (indices m ids, plus_stats m ids s).
Proof.
  revert s. induction ids as [|id ids IH]; intros s; [by rewrite plus_stats_nil|].
  change (id :: ids) with ([id] ++ ids). rewrite plus_stats_app. cbn [app remap].
  unfold indices in *. cbn [omap list_omap]. destruct (m !! id) as [i|] eqn:Hm; rewrite IH.
  - f_equal. unfold plus_stats, count_missing, count_mapped, indices. cbn. rewrite Hm. cbn. f_equal; lia.
  - f_equal. unfold plus_stats, count_missing, count_mapped, indices. cbn. rewrite Hm. cbn. f_equal; lia.
Qed.

Lemma write_records_ok m rs s :
  write_records m rs s = (concat ((fun r => chunk_record_bytes (encoded m r)) <$> rs), plus_stats m (concat (record_ids <$> rs)) s).
Proof.
  revert s. induction rs as [|r rs IH]; intros s; [cbn; by rewrite plus_stats_nil|].
  cbn [write_records]. rewrite !remap_ok, IH. rewrite !fmap_cons. cbn [concat]. unfold record_ids at 2.
  by rewrite !plus_stats_app.
Qed.

(** *** Reading them back *)

Record chunk_record_ok (r : ChunkRecord) : Prop := {
  sha_ok : length (record_sha256 r) = SHA256_BYTES;
  adds_ok : Forall (fun i => 0 <= i <= uint32_max) (add_indices r);
  dels_ok : Forall (fun i => 0 <= i <= uint32_max) (del_indices r);
  adds_len : Z.of_nat (length (add_indices r)) <= uint32_max;
  dels_len : Z.of_nat (length (del_indices r)) <= uint32_max
}.

Lemma parses_u32 file what v : 0 <= v <= uint32_max -> parses (takePod file 4 what) (le_encode 4 v) v.
Proof. intros Hv. apply parses_takePod. unfold uint32_max in Hv. lia. Qed.

Lemma parses_indices l :
  Forall (fun i => 0 <= i <= uint32_max) l ->
  parses (takeIndices (Z.of_nat (length l))) (concat (le_encode 4 <$> l)) l.
Proof.
  intros Hl. unfold takeIndices. rewrite Nat2Z.id. rewrite <- (list_fmap_id l) at 3.
  apply parses_read_n. eapply Forall_impl; [exact Hl|]. intros i Hi. by apply parses_u32.
Qed.

Lemma parses_record r : chunk_record_ok r -> parses read_record (chunk_record_bytes r) r.
Proof.
  intros [Hs Ha Hd Hal Hdl]. destruct r as [sha adds dels]. unfold read_record, chunk_record_bytes, record_bytes.
  cbn [record_sha256 add_indices del_indices] in *.
  eapply parses_bind; [by apply parses_take_bytes|].
  eapply parses_bind; [apply parses_u32; lia|]. eapply parses_bind; [apply parses_u32; lia|].
  eapply parses_bind; [by apply parses_indices|]. apply (parses_last _ (fun dels => mkChunkRecord sha adds dels)).
  by apply parses_indices.
Qed.

Definition entry_ok (e : ChunkStringEntry) : Prop :=
  0 <= ptr_tag_id e <= uint32_max /\ Z.of_nat (String.length (tag e)) <= uint32_max.

Lemma parses_entry file e : entry_ok e -> parses (read_string_entry file) (entry_bytes e) e.
Proof.
  intros [Hi Hl]. destruct e as [id text]. unfold read_string_entry, entry_bytes. cbn [ptr_tag_id tag] in *.
  eapply parses_bind; [by apply parses_u32|]. eapply parses_bind; [apply parses_u32; lia|].
  rewrite <- (bytes_string_bytes text) at 3.
  apply (parses_last _ (fun b => mkStringEntry id (bytes_string b))). apply parses_take_bytes.
  by rewrite string_bytes_length, Nat2Z.id.
Qed.

Lemma parses_chunk_body h ss rs :
  string_count h = Z.of_nat (length ss) -> record_count h = Z.of_nat (length rs) ->
  Forall entry_ok ss -> Forall chunk_record_ok rs ->
  parses (read_chunk_body h) (concat (entry_bytes <$> ss) ++ concat (chunk_record_bytes <$> rs)) (mkChunk ss rs).
Proof.
  intros Hs Hr Hss Hrs. unfold read_chunk_body. rewrite Hs, Hr, !Nat2Z.id.
  eapply parses_bind.
  - apply parses_read_n with (f := id). eapply Forall_impl; [exact Hss|]. intros e. apply parses_entry.
  - rewrite list_fmap_id. apply (parses_last _ (fun rs => mkChunk ss rs)).
    rewrite <- (list_fmap_id rs) at 3. apply parses_read_n. eapply Forall_impl; [exact Hrs|].
    intros r. apply parses_record.
Qed.
End ChunkSpec.

(** ** Bounds of what is written *)

Module EntrySpec.

Lemma unique_from_length {A} `{EqDecision A} (x : A) l : (length (unique_from x l) <= length l)%nat.
Proof. revert x. induction l as [|y l IH]; intros x; [done|]. cbn. pose proof (IH x). pose proof (IH y). case_decide; cbn; lia. Qed.

Lemma sort_unique_length l : (length (sort_unique l) <= length l)%nat.
Proof.
  unfold sort_unique. pose proof (Permutation_length (merge_sort_Permutation Z.le l)) as Hp. fold (sort_ints l) in Hp.
  destruct (sort_ints l) as [|x l']; cbn in *; [lia|]. pose proof (unique_from_length x l'). lia.
Qed.

Lemma concat_length_le {A} (k : Z) (l : list (list A)) :
  Forall (fun x => Z.of_nat (length x) <= k) l -> Z.of_nat (length (concat l)) <= k * Z.of_nat (length l).
Proof. induction 1 as [|x l Hx Hl IH]; cbn [concat length]; [lia|]. rewrite length_app. lia. Qed.

Lemma bytes_ok_concat l : Forall bytes_ok l -> bytes_ok (concat l).
Proof. induction 1 as [|x l Hx Hl IH]; [constructor|]. cbn. by apply Forall_app. Qed.

Definition ids_ok (ids : list Z) : Prop := Forall (fun id => 0 <= id <= uint32_max) ids.
Definition texts_ok (lookup : TagLookup) : Prop :=
  forall id text, lookup id = Some text -> Z.of_nat (String.length text) <= int32_max.

Lemma elem_of_entries lookup ids e :
  e ∈ TableSpec.entries lookup ids -> ptr_tag_id e ∈ ids /\ lookup (ptr_tag_id e) = Some (tag e).
Proof.
  intros (id & Hid & He)%list_elem_of_omap. unfold TableSpec.entry_of in He.
  destruct (lookup id) as [text|] eqn:Hl; [|done]. by simplify_eq/=.
Qed.

Lemma entries_ok lookup ids :
  ids_ok ids -> texts_ok lookup -> Forall ChunkSpec.entry_ok (TableSpec.entries lookup ids).
Proof.
  intros Hids Ht. apply Forall_forall. intros e [Hid Hl]%elem_of_entries. unfold ids_ok in Hids.
  rewrite Forall_forall in Hids. apply Ht in Hl. split; [by apply Hids|]. unfold int32_max, uint32_max in *. lia.
Qed.

Lemma entries_bytes_ok l : bytes_ok (concat (entry_bytes <$> l)).
Proof.
  apply bytes_ok_concat, Forall_fmap, Forall_forall. intros e _. unfold compose, entry_bytes, bytes_ok.
  rewrite !Forall_app. split_and!; [apply le_encode_ok..|apply string_bytes_ok].
Qed.

Lemma entries_bytes_size lookup ids :
  texts_ok lookup -> Z.of_nat (length ids) <= uint32_max ->
  Z.of_nat (length (concat (entry_bytes <$> TableSpec.entries lookup ids))) <= (8 + int32_max) * uint32_max.
Proof.
  intros Ht Hn. etrans.
  - apply (concat_length_le (8 + int32_max)), Forall_fmap, Forall_forall. intros e [_ Hl]%elem_of_entries.
    unfold compose, entry_bytes. rewrite !length_app, !le_encode_length, string_bytes_length. apply Ht in Hl. lia.
  - rewrite length_fmap. pose proof (TableSpec.entries_length lookup ids). unfold int32_max, uint32_max in *. lia.
Qed.

Lemma sort_unique_ids_ok l : ids_ok l -> ids_ok (sort_unique l).
Proof.
  unfold ids_ok. rewrite !Forall_forall. intros Hl x Hx. apply Hl. by rewrite elem_of_sort_unique in Hx.
Qed.
End EntrySpec.

(** ** Headers *)

Record header_ok (h : ChunkHeader) : Prop := {
  magic_ok : length (magic h) = 8%nat;
  version_ok : 0 <= version h <= uint32_max;
  body_size_ok : 0 <= body_size h <= size_max;
  record_count_ok : 0 <= record_count h <= uint32_max;
  string_count_ok : 0 <= string_count h <= uint32_max
}.

Lemma header_bytes_length h : header_ok h -> length (header_bytes h) = sizeof_ChunkHeader.
Proof. intros [Hm _ _ _ _]. unfold header_bytes. by rewrite !length_app, !le_encode_length, Hm. Qed.

(** The next field of a packed structure. *)
Lemma take_field n v rest : le_decode (take n (le_encode n v ++ rest)) = le_decode (le_encode n v).
Proof. by rewrite take_app_length' by (by rewrite le_encode_length). Qed.

Lemma drop_field k n v rest : drop (n + k) (le_encode n v ++ rest) = drop k rest.
Proof. rewrite <- drop_drop. by rewrite drop_app_length' by (by rewrite le_encode_length). Qed.

Lemma header_of_bytes_of h : header_ok h -> header_of_bytes (header_bytes h) = h.
Proof.
  intros [Hm Hv Hb Hr Hs]. destruct h as [m v b r s]. cbn [magic version body_size record_count string_count] in *.
  unfold header_of_bytes, header_bytes. cbn [magic version body_size record_count string_count].
  rewrite take_app_length' by done.
  assert (Hd : forall k x, drop (8 + k) (m ++ x) = drop k x).
  { intros k x. rewrite <- drop_drop. by rewrite drop_app_length' by done. }
  rewrite <- (app_nil_r (le_encode 4 s)).
  rewrite (Hd 0%nat), (Hd 4%nat), (Hd 12%nat), (Hd 16%nat), drop_0, (drop_field 0 4), drop_0.
  rewrite (drop_field 8 4), (drop_field 0 8), drop_0, (drop_field 12 4), (drop_field 4 8), (drop_field 0 4), drop_0.
  rewrite !take_field, !le_decode_encode by (unfold uint32_max, size_max in *; lia). done.
Qed.

Lemma header_split h compressed :
  header_ok h ->
  header_of_bytes (take sizeof_ChunkHeader (header_bytes h ++ compressed)) = h
  /\ drop sizeof_ChunkHeader (header_bytes h ++ compressed) = compressed
  /\ (sizeof_ChunkHeader <= length (header_bytes h ++ compressed))%nat.
Proof.
  intros Hh. pose proof (header_bytes_length h Hh) as Hl.
  rewrite take_app_length', drop_app_length', header_of_bytes_of, length_app, Hl by done. split_and!; [done..|lia].
Qed.

(** ** What a chunk says *)

Module ChunkMeaning.

(** A record with the entries of the tags it adds and removes. *)
Record Meaning := mkMeaning {
  meaning_sha256 : list Z;
  meaning_adds : list ChunkStringEntry;
  meaning_dels : list ChunkStringEntry
}.

(** What a reader of the chunk makes of a record: [None] for an index outside
    the string table. *)
Definition read_meaning (ss : list ChunkStringEntry) (r : ChunkRecord) : option Meaning :=
  a ← TableSpec.resolve ss (add_indices r);
  d ← TableSpec.resolve ss (del_indices r);
  Some (mkMeaning (record_sha256 r) a d).

Definition chunk_meaning (c : Chunk) : option (list Meaning) := mapM (read_meaning (strings c)) (chunk_records c).

(** What the writer was given: the tags without a definition dropped. *)
Definition given_meaning (lookup : TagLookup) (r : PendingRecord) : Meaning :=
  mkMeaning (pending_sha256 r) (TableSpec.entries lookup (add_tag_ids r)) (TableSpec.entries lookup (del_tag_ids r)).

Definition all_ids (records : list PendingRecord) : list Z := concat (ChunkSpec.record_ids <$> records).

Definition given_stats (lookup : TagLookup) (records : list PendingRecord) : ChunkStats :=
  let defined := Z.of_nat (length (TableSpec.entries lookup (all_ids records))) in
  mkStats (Z.of_nat (length records)) defined (Z.of_nat (length (all_ids records)) - defined).

Record pending_ok (r : PendingRecord) : Prop := {
  pending_sha_ok : length (pending_sha256 r) = SHA256_BYTES;
  pending_bytes_ok : bytes_ok (pending_sha256 r);
  pending_ids_ok : Forall (fun id => 0 <= id <= uint32_max) (ChunkSpec.record_ids r)
}.

(** What the 32-bit counts of the format can hold. *)
Record fits (lookup : TagLookup) (records : list PendingRecord) : Prop := {
  fits_records : Forall pending_ok records;
  fits_count : Z.of_nat (length records) <= uint32_max;
  fits_ids : Z.of_nat (length (all_ids records)) <= uint32_max;
  fits_texts : EntrySpec.texts_ok lookup
}.

Definition table (lookup : TagLookup) (records : list PendingRecord) : Table :=
  build_table lookup None (distinct_ids records).

Lemma distinct_ids_all records : distinct_ids records = sort_unique (all_ids records).
Proof. reflexivity. Qed.

Lemma record_ids_distinct records r :
  r ∈ records -> Forall (fun id => id ∈ distinct_ids records) (add_tag_ids r) /\ Forall (fun id => id ∈ distinct_ids records) (del_tag_ids r).
Proof.
  intros Hr. rewrite distinct_ids_all, !Forall_forall.
  assert (H : forall id, id ∈ ChunkSpec.record_ids r -> id ∈ sort_unique (all_ids records)).
  { intros id Hid. rewrite elem_of_sort_unique. unfold all_ids. rewrite list_elem_of_In, in_concat.
    exists (ChunkSpec.record_ids r). rewrite <- !list_elem_of_In. split; [|done]. by apply list_elem_of_fmap_2. }
  unfold ChunkSpec.record_ids in H. setoid_rewrite elem_of_app in H. split; intros id Hid; apply H; auto.
Qed.

Lemma bytes_ok_indices l : bytes_ok (concat (le_encode 4 <$> l)).
Proof. apply EntrySpec.bytes_ok_concat, Forall_fmap, Forall_forall. intros. apply le_encode_ok. Qed.

Lemma indices_bytes_length l : Z.of_nat (length (concat (le_encode 4 <$> l))) = 4 * Z.of_nat (length l).
Proof.
  induction l as [|i l IH]; [done|]. rewrite fmap_cons. cbn [concat length]. rewrite length_app, le_encode_length. lia.
Qed.

(** *** The parts of a body are well formed *)

Section body.
Context (lookup : TagLookup) (records : list PendingRecord) (Hfits : fits lookup records).
Context (m : gmap Z Z) (Hm : TableSpec.points m (TableSpec.entries lookup (distinct_ids records)) lookup (distinct_ids records)).

Lemma distinct_length : Z.of_nat (length (distinct_ids records)) <= uint32_max.
Proof. destruct Hfits. pose proof (EntrySpec.sort_unique_length (all_ids records)). rewrite distinct_ids_all. lia. Qed.

Lemma all_ids_ok : EntrySpec.ids_ok (all_ids records).
Proof.
  destruct Hfits as [Hrec _ _ _]. unfold all_ids. clear -Hrec. induction Hrec as [|r rs [_ _ Hr] Hrs IH]; [constructor|].
  rewrite fmap_cons. cbn [concat]. by apply Forall_app.
Qed.

Lemma chunk_entries_ok : Forall ChunkSpec.entry_ok (TableSpec.entries lookup (distinct_ids records)).
Proof.
  destruct Hfits. apply EntrySpec.entries_ok; [|done]. rewrite distinct_ids_all.
  apply EntrySpec.sort_unique_ids_ok, all_ids_ok.
Qed.

Lemma indices_length ids : (length (ChunkSpec.indices m ids) <= length ids)%nat.
Proof. unfold ChunkSpec.indices. induction ids as [|id ids IH]; [done|]. cbn. destruct (m !! id); cbn; lia. Qed.

Lemma ids_length r : r ∈ records -> Z.of_nat (length (add_tag_ids r) + length (del_tag_ids r)) <= uint32_max.
Proof.
  intros Hr. destruct Hfits as [_ _ Hids _]. apply list_elem_of_split in Hr as (l1 & l2 & Heq).
  unfold all_ids in Hids. rewrite Heq, fmap_app, concat_app, fmap_cons in Hids. cbn [concat] in Hids.
  unfold ChunkSpec.record_ids at 2 in Hids. rewrite !length_app in Hids. lia.
Qed.

Lemma encoded_ok : Forall ChunkSpec.chunk_record_ok (ChunkSpec.encoded m <$> records).
Proof.
  apply Forall_fmap, Forall_forall. intros r Hr. destruct (record_ids_distinct records r Hr) as [Ha Hd].
  destruct (TableSpec.points_resolve _ _ _ _ _ Hm Ha) as [_ Ha'].
  destruct (TableSpec.points_resolve _ _ _ _ _ Hm Hd) as [_ Hd'].
  pose proof (ids_length r Hr). pose proof (indices_length (add_tag_ids r)). pose proof (indices_length (del_tag_ids r)).
  destruct Hfits as [Hrec _ _ _]. rewrite Forall_forall in Hrec. destruct (Hrec r Hr).
  split; cbn; (done || lia).
Qed.

Lemma encoded_meaning :
  mapM (read_meaning (TableSpec.entries lookup (distinct_ids records))) (ChunkSpec.encoded m <$> records)
    = Some (given_meaning lookup <$> records).
Proof.
  apply mapM_Some_2, Forall2_fmap, Forall_Forall2_diag, Forall_forall. intros r Hr.
  destruct (record_ids_distinct records r Hr) as [Ha Hd].
  destruct (TableSpec.points_resolve _ _ _ _ _ Hm Ha) as [Ha' _].
  destruct (TableSpec.points_resolve _ _ _ _ _ Hm Hd) as [Hd' _].
  unfold read_meaning, ChunkSpec.encoded, ChunkSpec.indices. cbn [add_indices del_indices record_sha256].
  rewrite Ha'. cbn. by rewrite Hd'.
Qed.

Lemma mapped_length ids :
  Forall (fun id => id ∈ distinct_ids records) ids ->
  length (ChunkSpec.indices m ids) = length (TableSpec.entries lookup ids).
Proof.
  intros Hids. destruct (TableSpec.points_resolve _ _ _ _ _ Hm Hids) as [H _].
  apply length_mapM in H. done.
Qed.

Definition body_bytes : list Z :=
  concat (entry_bytes <$> TableSpec.entries lookup (distinct_ids records))
    ++ concat (ChunkSpec.chunk_record_bytes <$> (ChunkSpec.encoded m <$> records)).

Lemma body_bytes_ok : bytes_ok body_bytes.
Proof.
  unfold body_bytes. apply Forall_app. split; [apply EntrySpec.entries_bytes_ok|].
  apply EntrySpec.bytes_ok_concat, Forall_fmap, Forall_forall.
  intros r (r0 & -> & Hr)%list_elem_of_fmap. destruct Hfits as [Hrec _ _ _]. rewrite Forall_forall in Hrec.
    destruct (Hrec r0 Hr) as [_ Hb _]. unfold compose, ChunkSpec.chunk_record_bytes, record_bytes, bytes_ok.
    cbn [record_sha256 add_indices del_indices ChunkSpec.encoded]. rewrite !Forall_app.
    split_and!; [done|apply le_encode_ok..|apply bytes_ok_indices|apply bytes_ok_indices].
Qed.

Lemma body_bytes_size : Z.of_nat (length body_bytes) <= size_max.
Proof.
  unfold body_bytes. rewrite length_app.
  pose proof (EntrySpec.entries_bytes_size lookup (distinct_ids records) (fits_texts _ _ Hfits) distinct_length) as H1.
  assert (H2 : Z.of_nat (length (concat (ChunkSpec.chunk_record_bytes <$> (ChunkSpec.encoded m <$> records))))
    <= 40 * Z.of_nat (length records) + 4 * Z.of_nat (length (all_ids records))).
  { destruct Hfits as [Hrec _ _ _]. clear -Hrec. unfold all_ids. induction Hrec as [|r rs Hr Hrs IH]; [cbn; lia|].
    rewrite !fmap_cons. cbn [concat length]. rewrite !length_app. unfold ChunkSpec.chunk_record_bytes at 1, record_bytes.
    rewrite !length_app, !le_encode_length. destruct Hr as [Hs _ _]. cbn [ChunkSpec.encoded record_sha256 add_indices del_indices].
    pose proof (indices_bytes_length (ChunkSpec.indices m (add_tag_ids r))).
    pose proof (indices_bytes_length (ChunkSpec.indices m (del_tag_ids r))).
    pose proof (indices_length (add_tag_ids r)). pose proof (indices_length (del_tag_ids r)).
    unfold SHA256_BYTES in Hs. unfold ChunkSpec.record_ids at 1. rewrite length_app. lia. }
  destruct Hfits. unfold size_max, int32_max, uint32_max in *. lia.
Qed.
End body.
End ChunkMeaning.

Definition writer_of (path : string) (records : list PendingRecord) : ChunkWriter :=
  foldl (fun w r => addRecord (pending_sha256 r) (add_tag_ids r) (del_tag_ids r) w) (ChunkWriter_make path) records.

Lemma writer_of_ok path records : writer_of path records = mkChunkWriter path records false.
Proof.
  unfold writer_of, ChunkWriter_make. rewrite <- (app_nil_l records) at 2. generalize (@nil PendingRecord).
  induction records as [|[sha a d] rs IH]; intros l; [by rewrite app_nil_r|].
  cbn [foldl]. etrans; [apply (IH (l ++ [mkPending sha a d]))|]. by rewrite <- app_assoc.
Qed.

(** What the usage set gains: the ids of the string table. *)
Definition marked (lookup : TagLookup) (ids : list Z) (u : TagUsageSet) : TagUsageSet :=
  foldl (fun u id => mark id u) u (ptr_tag_id <$> TableSpec.entries lookup ids).

Section written.
Context `{z : Zlib}.
Context (lookup : TagLookup) (usage : option TagUsageSet) (path : string) (records : list PendingRecord).
Context (fs : gmap string (list Z)).
Context (Hfits : ChunkMeaning.fits lookup records).

Lemma table_ok :
  let t := build_table lookup usage (distinct_ids records) in
  table_strings t = TableSpec.entries lookup (distinct_ids records)
  /\ TableSpec.points (id_to_index t) (TableSpec.entries lookup (distinct_ids records)) lookup (distinct_ids records)
  /\ table_usage t = marked lookup (distinct_ids records) <$> usage.
Proof.
  intros t. destruct (TableSpec.foldl_table lookup usage (distinct_ids records)) as (Hs & Hp & Hu).
  - apply (StronglySorted_strict_NoDup Z.lt), sort_unique_sorted.
  - exact (ChunkMeaning.distinct_length lookup records Hfits).
  - rewrite Hs in Hp. done.
Qed.

Lemma given_stats_ok m :
  TableSpec.points m (TableSpec.entries lookup (distinct_ids records)) lookup (distinct_ids records) ->
  ChunkSpec.plus_stats m (ChunkMeaning.all_ids records) (mkStats (Z.of_nat (length records)) 0 0)
    = ChunkMeaning.given_stats lookup records.
Proof.
  intros Hm. unfold ChunkSpec.plus_stats, ChunkSpec.count_missing, ChunkSpec.count_mapped, ChunkMeaning.given_stats.
  rewrite (ChunkMeaning.mapped_length lookup records m Hm); [done|].
  apply Forall_forall. intros id Hid. by rewrite ChunkMeaning.distinct_ids_all, elem_of_sort_unique.
Qed.

(** The file [finish] writes, or the exception when zlib fails. *)
Lemma finish_ok :
  exists m, TableSpec.points m (TableSpec.entries lookup (distinct_ids records)) lookup (distinct_ids records)
  /\ let body := ChunkMeaning.body_bytes lookup records m in
     let header := mkHeader CHUNK_MAGIC CHUNK_FORMAT_VERSION (Z.of_nat (length body)) (Z.of_nat (length records))
       (Z.of_nat (length (TableSpec.entries lookup (distinct_ids records)))) in
     finish lookup usage (writer_of path records) fs =
       (mkChunkWriter path records true, marked lookup (distinct_ids records) <$> usage,
        match compress2 body with Some c => <[path := header_bytes header ++ c]> fs | None => fs end,
        match compress2 body with
        | Some _ => Ok (ChunkMeaning.given_stats lookup records)
        | None => Throw (runtime_error "zlib compress2 failed while writing a chunk")
        end).
Proof.
  destruct table_ok as (Hs & Hp & Hu). exists (id_to_index (build_table lookup usage (distinct_ids records))).
  split; [done|]. cbn zeta. rewrite writer_of_ok. unfold finish. cbn [m_finished m_path m_records].
  rewrite ChunkSpec.write_records_ok, Hs, Hu. fold (ChunkMeaning.all_ids records).
  rewrite given_stats_ok by done. unfold ChunkMeaning.body_bytes. rewrite <- (list_fmap_compose (ChunkSpec.encoded _)).
  unfold deflateBuffer. by destruct (compress2 _).
Qed.
End written.

(** ** The relations file *)

Module RelationsMeaning.

Definition ids_of (ps ss : list CollapsedRelation) : list Z := concat ((fun r => [crel_a r; crel_b r]) <$> (ps ++ ss)).

Record fits (lookup : TagLookup) (ps ss : list CollapsedRelation) : Prop := {
  fits_range : Forall (fun r => 0 <= crel_a r <= uint32_max /\ 0 <= crel_b r <= uint32_max) (ps ++ ss);
  fits_number : Z.of_nat (length (ids_of ps ss)) <= uint32_max;
  fits_tags : EntrySpec.texts_ok lookup
}.

(** A pair of texts; a pair with an undefined tag is no relation at all. *)
Definition given (lookup : TagLookup) (r : CollapsedRelation) : option (ChunkStringEntry * ChunkStringEntry * Z) :=
  a ← TableSpec.entry_of lookup (crel_a r);
  b ← TableSpec.entry_of lookup (crel_b r);
  Some (a, b, EventOp_value (crel_op r)).

Definition read (ss : list ChunkStringEntry) (r : RelationRecord) : option (ChunkStringEntry * ChunkStringEntry * Z) :=
  a ← ss !! Z.to_nat (a_index r);
  b ← ss !! Z.to_nat (b_index r);
  Some (a, b, record_op r).

Section encode.
Context (lookup : TagLookup) (ids : list Z) (m : gmap Z Z).
Context (Hm : TableSpec.points m (TableSpec.entries lookup ids) lookup ids).

Definition record_ok (r : RelationRecord) : Prop :=
  0 <= a_index r <= uint32_max /\ 0 <= b_index r <= uint32_max /\ 0 <= record_op r < 256.

(** One id: the map and the table together give its entry. *)
Lemma points_one id :
  id ∈ ids ->
  match m !! id with
  | Some i => 0 <= i <= uint32_max
      /\ exists e, TableSpec.entry_of lookup id = Some e /\ TableSpec.entries lookup ids !! Z.to_nat i = Some e
  | None => TableSpec.entry_of lookup id = None
  end.
Proof.
  intros Hid. specialize (Hm id). destruct (m !! id); [tauto|]. unfold TableSpec.entry_of. by rewrite Hm.
Qed.

Lemma encode_ok l :
  Forall (fun r => crel_a r ∈ ids /\ crel_b r ∈ ids) l ->
  let '(out, missing) := encode m l in
  mapM (read (TableSpec.entries lookup ids)) out = Some (omap (given lookup) l)
  /\ Forall record_ok out /\ (length out <= length l)%nat
  /\ missing = Z.of_nat (length l) - Z.of_nat (length out).
Proof.
  induction 1 as [|r l [Ha Hb] Hl IH]; [done|]. cbn [encode]. destruct (encode m l) as [out missing].
  destruct IH as (IH1 & IH2 & IH3 & IH4). pose proof (points_one _ Ha) as Hpa. pose proof (points_one _ Hb) as Hpb.
  cbn [omap list_omap]. unfold given at 1.
  assert (Hskip : mapM (read (TableSpec.entries lookup ids)) out = Some (omap (given lookup) l)
    /\ Forall record_ok out /\ (length out <= length (r :: l))%nat
    /\ missing + 1 = Z.of_nat (length (r :: l)) - Z.of_nat (length out)).
  { cbn [length]. split_and!; [done|done|lia|lia]. }
  destruct (m !! crel_a r) as [a|]; [|rewrite Hpa; exact Hskip].
  destruct Hpa as (Hai & ea & -> & Hea).
  destruct (m !! crel_b r) as [b|]; [|rewrite Hpb; exact Hskip].
  destruct Hpb as (Hbi & eb & -> & Heb). cbn [length]. split_and!.
  - assert (Hr : read (TableSpec.entries lookup ids) (mkRelationRecord a b (EventOp_value (crel_op r)))
      = Some (ea, eb, EventOp_value (crel_op r))) by (unfold read; cbn; by rewrite Hea, Heb).
    cbn [mapM]. rewrite Hr. cbn. by rewrite IH1.
  - constructor; [|done]. unfold record_ok. cbn. destruct (crel_op r); cbn; lia.
  - lia.
  - lia.
Qed.
End encode.

Lemma parses_relation r : record_ok r -> parses read_relation (relation_bytes r) r.
Proof.
  intros (Ha & Hb & Hop). destruct r as [a b o]. unfold read_relation, relation_bytes. cbn [a_index b_index record_op] in *.
  eapply parses_bind; [by apply ChunkSpec.parses_u32|]. eapply parses_bind; [by apply ChunkSpec.parses_u32|].
  apply (parses_last _ (fun op => mkRelationRecord a b op)). apply parses_takePod. lia.
Qed.

Lemma parses_relations l :
  Forall record_ok l -> parses (read_n (Z.to_nat (Z.of_nat (length l))) read_relation) (concat (relation_bytes <$> l)) l.
Proof.
  intros Hl. rewrite Nat2Z.id. rewrite <- (list_fmap_id l) at 3. apply parses_read_n.
  eapply Forall_impl; [exact Hl|]. intros r. apply parses_relation.
Qed.

Lemma parses_relations_body h ss ps sibs :
  string_count h = Z.of_nat (length ss) -> Forall ChunkSpec.entry_ok ss ->
  Forall record_ok ps -> Forall record_ok sibs ->
  Z.of_nat (length ps) <= uint32_max -> Z.of_nat (length sibs) <= uint32_max ->
  parses (read_relations_body h)
    (concat (entry_bytes <$> ss) ++ le_encode 4 (Z.of_nat (length ps)) ++ le_encode 4 (Z.of_nat (length sibs))
      ++ concat (relation_bytes <$> ps) ++ concat (relation_bytes <$> sibs))
    (mkRelationsFile ss ps sibs).
Proof.
  intros Hn Hss Hps Hsibs Hpl Hsl. unfold read_relations_body. rewrite Hn, Nat2Z.id.
  eapply parses_bind.
  { apply parses_read_n with (f := id). eapply Forall_impl; [exact Hss|]. intros e. apply ChunkSpec.parses_entry. }
  rewrite list_fmap_id.
  eapply parses_bind; [apply ChunkSpec.parses_u32; lia|]. eapply parses_bind; [apply ChunkSpec.parses_u32; lia|].
  eapply parses_bind; [by apply parses_relations|]. apply (parses_last _ (mkRelationsFile ss ps)).
  by apply parses_relations.
Qed.

(** *** The body *)

Section body.
Context (lookup : TagLookup) (ps ss : list CollapsedRelation) (Hfits : fits lookup ps ss).
Let ids := relation_ids ps ss.
Let table := TableSpec.entries lookup ids.

Lemma relation_ids_of : relation_ids ps ss = sort_unique (ids_of ps ss).
Proof. reflexivity. Qed.

Lemma relation_ids_ok : EntrySpec.ids_ok (relation_ids ps ss) /\ Z.of_nat (length (relation_ids ps ss)) <= uint32_max.
Proof.
  destruct Hfits as [Hrange Hnum _]. rewrite relation_ids_of. split.
  - apply EntrySpec.sort_unique_ids_ok. unfold ids_of. clear Hnum.
    revert Hrange. generalize (ps ++ ss). induction 1 as [|r l [Ha Hb] Hl IH]; [constructor|].
    rewrite fmap_cons. cbn [concat app]. constructor; [done|]. by constructor.
  - pose proof (EntrySpec.sort_unique_length (ids_of ps ss)). lia.
Qed.

Lemma endpoints_in l :
  (forall r, r ∈ l -> r ∈ ps ++ ss) -> Forall (fun r => crel_a r ∈ relation_ids ps ss /\ crel_b r ∈ relation_ids ps ss) l.
Proof.
  intros Hl. apply Forall_forall. intros r Hr%Hl. rewrite relation_ids_of, !elem_of_sort_unique.
  unfold ids_of. rewrite !list_elem_of_In, !in_concat.
  split; exists [crel_a r; crel_b r]; rewrite <- !list_elem_of_In; (split; [by apply list_elem_of_fmap_2'
    with (x := r)|set_solver]).
Qed.

Lemma number_of_relations : Z.of_nat (length (ps ++ ss)) <= uint32_max.
Proof.
  destruct Hfits as [_ Hnum _]. enough (length (ps ++ ss) <= length (ids_of ps ss))%nat by lia.
  unfold ids_of. generalize (ps ++ ss). intros l. induction l as [|r l IH]; [done|].
  rewrite fmap_cons. cbn [concat app length]. lia.
Qed.

Lemma relation_records_bytes l : bytes_ok (concat (relation_bytes <$> l)).
Proof.
  apply EntrySpec.bytes_ok_concat, Forall_fmap, Forall_forall. intros r _. unfold compose, relation_bytes, bytes_ok.
  rewrite !Forall_app. split_and!; apply le_encode_ok.
Qed.

Lemma relation_records_size l : Z.of_nat (length (concat (relation_bytes <$> l))) <= 9 * Z.of_nat (length l).
Proof.
  etrans; [apply (EntrySpec.concat_length_le 9)|by rewrite length_fmap].
  apply Forall_fmap, Forall_forall. intros r _. unfold compose, relation_bytes. rewrite !length_app, !le_encode_length. lia.
Qed.

Definition relations_body (eps ess : list RelationRecord) : list Z :=
  concat (entry_bytes <$> table) ++ le_encode 4 (Z.of_nat (length eps)) ++ le_encode 4 (Z.of_nat (length ess))
    ++ concat (relation_bytes <$> eps) ++ concat (relation_bytes <$> ess).

Lemma relations_body_ok eps ess : bytes_ok (relations_body eps ess).
Proof.
  unfold relations_body, bytes_ok. rewrite !Forall_app.
  split_and!; [apply EntrySpec.entries_bytes_ok|apply le_encode_ok..|apply relation_records_bytes|apply relation_records_bytes].
Qed.

Lemma relations_body_size eps ess :
  (length eps + length ess <= length (ps ++ ss))%nat ->
  8 <= Z.of_nat (length (relations_body eps ess)) <= size_max.
Proof.
  intros Hle. unfold relations_body. rewrite !length_app, !le_encode_length.
  pose proof (EntrySpec.entries_bytes_size lookup ids (fits_tags _ _ _ Hfits) (proj2 relation_ids_ok)) as H1.
  pose proof (relation_records_size eps). pose proof (relation_records_size ess). pose proof number_of_relations.
  unfold table, size_max, int32_max, uint32_max in *. lia.
Qed.
End body.
End RelationsMeaning.

(** ** Theorems *)

Lemma finish_reads_back (z : Zlib) (Hz : ZlibLaws z) (lookup : TagLookup) (usage : option TagUsageSet) (path : string)
    (records : list PendingRecord) (fs : gmap string (list Z)) (Hfits : ChunkMeaning.fits lookup records) :
  let '(w, usage', fs', r) := finish lookup usage (writer_of path records) fs in
  usage' = marked lookup (distinct_ids records) <$> usage /\ m_finished w = true /\
  match r with
  | Throw e => e = runtime_error "zlib compress2 failed while writing a chunk" /\ fs' = fs
  | Ok stats =>
      stats = ChunkMeaning.given_stats lookup records /\
      exists chunk, readChunk fs' path = Ok chunk
        /\ strings chunk = TableSpec.entries lookup (distinct_ids records)
        /\ ChunkMeaning.chunk_meaning chunk = Some (ChunkMeaning.given_meaning lookup <$> records)
  end.
Proof.
  destruct (finish_ok lookup usage path records fs Hfits) as (m & Hm & ->). cbn zeta.
  set (body := ChunkMeaning.body_bytes lookup records m). set (h := mkHeader _ _ _ _ _).
  split; [done|]. split; [done|]. destruct (compress2 body) as [c|] eqn:Hc; [|done]. split; [done|].
  pose proof (ChunkMeaning.body_bytes_size lookup records Hfits m) as Hsize. fold body in Hsize.
  assert (Hh : header_ok h).
  { pose proof (ChunkMeaning.distinct_length lookup records Hfits).
    pose proof (TableSpec.entries_length lookup (distinct_ids records)). destruct Hfits.
    split; cbn; unfold CHUNK_FORMAT_VERSION, uint32_max in *; (done || lia). }
  exists (mkChunk (TableSpec.entries lookup (distinct_ids records)) (ChunkSpec.encoded m <$> records)).
  split; [|split; [done|by apply ChunkMeaning.encoded_meaning]].
  destruct (header_split h c Hh) as (Hhd & Htl & Hlen).
  unfold readChunk. rewrite lookup_insert_eq. cbn [or_throw mbind result_bind].
  rewrite decide_False by lia. rewrite Hhd, Htl. cbn [magic version body_size h].
  rewrite bool_decide_eq_true_2 by done. cbn [negb]. rewrite Z.eqb_refl. cbn [negb].
  assert (Hbody : inflateBuffer c (Z.of_nat (length body)) = Ok body).
  { unfold inflateBuffer. destruct (Z.eqb_spec (Z.of_nat (length body)) 0) as [H0|H0]; [by destruct body|].
    rewrite (uncompress_compress2 body c) by (done || lia || by apply ChunkMeaning.body_bytes_ok).
    cbn. by rewrite Z.eqb_refl. }
  rewrite Hbody. cbn [mbind result_bind].
  assert (Hcount : record_count h = Z.of_nat (length (ChunkSpec.encoded m <$> records))) by (by rewrite length_fmap).
  pose proof (ChunkSpec.parses_chunk_body h _ _ eq_refl Hcount
    (ChunkMeaning.chunk_entries_ok lookup records Hfits) (ChunkMeaning.encoded_ok lookup records Hfits m Hm) [] []) as Hp.
  rewrite app_nil_r in Hp. cbn [app length] in Hp. unfold body, ChunkMeaning.body_bytes. by rewrite Hp.
Qed.

(** A chunk reads back as what was written: for any records and any zlib
    that keeps its contract, [finish] either throws because deflating failed
    and writes nothing, or leaves a file that [readChunk] accepts, whose string
    table holds the defined ids in ascending order and whose records, read
    through the table, are the given records in order with exactly their
    defined tags; the statistics count both kinds, and the usage set gains
    exactly the ids of the table. *)
Theorem chunk_roundtrip (z : Zlib) (Hz : ZlibLaws z) (lookup : TagLookup) (usage : option TagUsageSet) (path : string)
    (records : list PendingRecord) (fs : gmap string (list Z)) (Hfits : ChunkMeaning.fits lookup records) :
  let '(w, usage', fs', r) := finish lookup usage (writer_of path records) fs in
  usage' = marked lookup (distinct_ids records) <$> usage /\ m_finished w = true /\
  match r with
  | Throw e => e = runtime_error "zlib compress2 failed while writing a chunk" /\ fs' = fs
  | Ok stats =>
      stats = ChunkMeaning.given_stats lookup records /\
      exists chunk, readChunk fs' path = Ok chunk
        /\ strings chunk = TableSpec.entries lookup (distinct_ids records)
        /\ ChunkMeaning.chunk_meaning chunk = Some (ChunkMeaning.given_meaning lookup <$> records)
  end.
Proof. by apply finish_reads_back. Qed.

Lemma relations_read_back (z : Zlib) (Hz : ZlibLaws z) (lookup : TagLookup) (usage : option TagUsageSet) (path : string)
    (ps ss : list CollapsedRelation) (fs : gmap string (list Z)) (Hfits : RelationsMeaning.fits lookup ps ss) :
  let '(usage', fs', r) := writeRelationsFile fs path ps ss lookup usage in
  usage' = marked lookup (relation_ids ps ss) <$> usage /\
  match r with
  | Throw e => e = runtime_error "zlib compress2 failed while writing the relations file" /\ fs' = fs
  | Ok stats =>
      (exists file, readRelationsFile fs' path = Ok file
        /\ relation_strings file = TableSpec.entries lookup (relation_ids ps ss)
        /\ mapM (RelationsMeaning.read (relation_strings file)) (parents file) = Some (omap (RelationsMeaning.given lookup) ps)
        /\ mapM (RelationsMeaning.read (relation_strings file)) (siblings file) = Some (omap (RelationsMeaning.given lookup) ss)
        /\ stat_parents stats = Z.of_nat (length (parents file)) /\ stat_siblings stats = Z.of_nat (length (siblings file))
        /\ stat_missing stats = Z.of_nat (length (ps ++ ss)) - Z.of_nat (length (parents file ++ siblings file)))
      /\ readChunk fs' path = Throw (runtime_error ("Chunk " +:+ path +:+ " has the wrong magic"))
  end.
Proof.
  unfold writeRelationsFile. set (ids := relation_ids ps ss).
  destruct (RelationsMeaning.relation_ids_ok lookup ps ss Hfits) as [Hids Hn]. fold ids in Hids, Hn.
  destruct (TableSpec.foldl_table lookup usage ids) as (Hs & Hm & Hu);
    [apply (StronglySorted_strict_NoDup Z.lt), sort_unique_sorted|done|].
  set (t := build_table lookup usage ids) in *. rewrite Hs in Hm.
  pose proof (RelationsMeaning.encode_ok lookup ids _ Hm ps
    (RelationsMeaning.endpoints_in lookup ps ss Hfits ps ltac:(intros r Hr; apply elem_of_app; by left))) as Hp.
  pose proof (RelationsMeaning.encode_ok lookup ids _ Hm ss
    (RelationsMeaning.endpoints_in lookup ps ss Hfits ss ltac:(intros r Hr; apply elem_of_app; by right))) as Hq.
  destruct (encode (id_to_index t) ps) as [eps mp], (encode (id_to_index t) ss) as [ess ms].
  destruct Hp as (Hp1 & Hp2 & Hp3 & Hp4), Hq as (Hq1 & Hq2 & Hq3 & Hq4). rewrite Hs.
  change (concat _ ++ _) with (RelationsMeaning.relations_body lookup ps ss eps ess).
  set (body := RelationsMeaning.relations_body lookup ps ss eps ess).
  pose proof (RelationsMeaning.relations_body_size lookup ps ss Hfits eps ess ltac:(rewrite length_app; lia)) as Hsize.
  pose proof (RelationsMeaning.number_of_relations lookup ps ss Hfits) as Hnum. rewrite length_app in Hnum.
  fold body in Hsize. destruct (compress2 body) as [c|] eqn:Hc; [|done].
  set (h := mkHeader _ _ _ _ _). split; [done|].
  assert (Hh : header_ok h).
  { pose proof (TableSpec.entries_length lookup ids). split; cbn; unfold CHUNK_FORMAT_VERSION, uint32_max in *; (done || lia). }
  destruct (header_split h c Hh) as (Hhd & Htl & Hlen). split.
  2: { unfold readChunk. rewrite lookup_insert_eq. cbn [or_throw mbind result_bind].
       rewrite decide_False by lia. rewrite Hhd. by vm_compute. }
  exists (mkRelationsFile (TableSpec.entries lookup ids) eps ess). cbn [relation_strings parents siblings stat_parents stat_siblings stat_missing].
  split; [|rewrite !length_app; split_and!; (done || lia)].
  unfold readRelationsFile. rewrite lookup_insert_eq. cbn [or_throw mbind result_bind].
  rewrite decide_False by lia. rewrite Hhd, Htl. cbn [magic version body_size h].
  rewrite bool_decide_eq_true_2 by done. cbn [negb]. rewrite Z.eqb_refl. cbn [negb].
  rewrite (proj2 (Z.ltb_lt _ _)) by lia.
  rewrite (uncompress_compress2 body c) by (done || lia || apply RelationsMeaning.relations_body_ok).
  cbn [or_throw mbind result_bind]. rewrite Nat2Z.id, Nat.sub_diag. cbn [replicate]. rewrite app_nil_r.
  pose proof (RelationsMeaning.parses_relations_body h (TableSpec.entries lookup ids) eps ess eq_refl
    (EntrySpec.entries_ok lookup ids Hids (RelationsMeaning.fits_tags _ _ _ Hfits)) Hp2 Hq2 ltac:(lia) ltac:(lia) [] []) as Hr.
  rewrite app_nil_r in Hr. cbn [app length] in Hr.
  change (concat _ ++ _) with body in Hr. by rewrite Hr.
Qed.

(** The relations file reads back as what was written: the string table
    holds the defined endpoints in ascending order, and the parents and the
    siblings read through it are, in order, exactly the given relations with
    both tags defined; the others are counted as missing.  The file is not
    taken for a chunk. *)
Theorem relations_roundtrip (z : Zlib) (Hz : ZlibLaws z) (lookup : TagLookup) (usage : option TagUsageSet) (path : string)
    (ps ss : list CollapsedRelation) (fs : gmap string (list Z)) (Hfits : RelationsMeaning.fits lookup ps ss) :
  let '(usage', fs', r) := writeRelationsFile fs path ps ss lookup usage in
  usage' = marked lookup (relation_ids ps ss) <$> usage /\
  match r with
  | Throw e => e = runtime_error "zlib compress2 failed while writing the relations file" /\ fs' = fs
  | Ok stats =>
      (exists file, readRelationsFile fs' path = Ok file
        /\ relation_strings file = TableSpec.entries lookup (relation_ids ps ss)
        /\ mapM (RelationsMeaning.read (relation_strings file)) (parents file) = Some (omap (RelationsMeaning.given lookup) ps)
        /\ mapM (RelationsMeaning.read (relation_strings file)) (siblings file) = Some (omap (RelationsMeaning.given lookup) ss)
        /\ stat_parents stats = Z.of_nat (length (parents file)) /\ stat_siblings stats = Z.of_nat (length (siblings file))
        /\ stat_missing stats = Z.of_nat (length (ps ++ ss)) - Z.of_nat (length (parents file ++ siblings file)))
      /\ readChunk fs' path = Throw (runtime_error ("Chunk " +:+ path +:+ " has the wrong magic"))
  end.
Proof. by apply relations_read_back. Qed.

(** On any bytes at all, a reader that succeeds has stayed inside the body
    and what it returns is exactly what it read: the bytes it consumed are the
    encoding of the value, so no field is skipped, read twice or read past the
    end, and the counts are those of the header. *)
Theorem readers_consume_their_encoding (h : ChunkHeader) (body : list Z)
    (Hbody : bytes_ok body) (Hs : 0 <= string_count h) (Hr : 0 <= record_count h) :
  (forall chunk off, read_chunk_body h body 0%nat = Ok (chunk, off) ->
     (off <= length body)%nat
     /\ take off body = concat (entry_bytes <$> strings chunk)
          ++ concat ((fun r => record_bytes (record_sha256 r) (add_indices r) (del_indices r)) <$> chunk_records chunk)
     /\ Z.of_nat (length (strings chunk)) = string_count h /\ Z.of_nat (length (chunk_records chunk)) = record_count h)
  /\ (forall file off, read_relations_body h body 0%nat = Ok (file, off) ->
     (off <= length body)%nat
     /\ take off body = concat (entry_bytes <$> relation_strings file)
          ++ le_encode 4 (Z.of_nat (length (parents file))) ++ le_encode 4 (Z.of_nat (length (siblings file)))
          ++ concat (relation_bytes <$> parents file) ++ concat (relation_bytes <$> siblings file)
     /\ Z.of_nat (length (relation_strings file)) = string_count h).
Proof.
  assert (Htake : forall off enc, drop 0 body = enc ++ drop off body -> off = (0 + length enc)%nat -> take off body = enc).
  { intros off enc Hd ->. rewrite drop_0 in Hd. rewrite Hd at 1. by apply take_app_length. }
  split; intros x off H.
  - destruct (consumes_chunk_body h Hs Hr body 0%nat x off Hbody ltac:(lia) H) as (Ho & enc & (-> & H1 & H2) & Hd & Hl).
    split_and!; [done|by apply Htake|done|done].
  - destruct (consumes_relations_body h Hs body 0%nat x off Hbody ltac:(lia) H) as (Ho & enc & (-> & H1) & Hd & Hl).
    split_and!; [done|by apply Htake|done].
Qed.

(** ** Witnesses *)

Module Example_chunk.
(** A zlib that stores its input. *)
Definition stored : Zlib := {|
  compress2 body := Some body;
  uncompress c n := if decide (Z.of_nat (length c) <= n) then Some c else None
|}.

Lemma stored_laws : ZlibLaws stored.
Proof.
  split; cbn.
  - intros body c n _ Hc Hn _. simplify_eq. by rewrite decide_True.
  - intros c n b H. case_decide; by simplify_eq.
Qed.

Definition lookup (id : Z) : option string := if id =? 4 then None else Some "tag".
Definition records : list PendingRecord :=
  [mkPending (replicate 32 7) [9; 4] [5]; mkPending (replicate 32 8) [5; 9] []].

Lemma texts_ok : EntrySpec.texts_ok lookup.
Proof. intros id text H. unfold lookup in H. destruct (id =? 4); simplify_eq. unfold int32_max. cbn. lia. Qed.

Lemma fits_records : ChunkMeaning.fits lookup records.
Proof.
  split.
  - repeat constructor; cbn; unfold uint32_max; lia.
  - cbn. unfold uint32_max. lia.
  - vm_compute. discriminate.
  - exact texts_ok.
Qed.

Definition ps : list CollapsedRelation := [mkCollapsedRelation 9 5 Add; mkCollapsedRelation 4 5 Add].
Definition ss : list CollapsedRelation := [mkCollapsedRelation 5 9 Delete].

Lemma fits_relations : RelationsMeaning.fits lookup ps ss.
Proof.
  split.
  - repeat constructor; cbn; unfold uint32_max; lia.
  - vm_compute. discriminate.
  - exact texts_ok.
Qed.
End Example_chunk.

Lemma chunk_roundtrip_witness :
  let '(_, _, fs, r) := finish (z := Example_chunk.stored) Example_chunk.lookup None
    (writer_of "chunk-00000.idhanptr" Example_chunk.records) ∅ in
  r = Ok (mkStats 2 4 1)
  /\ exists chunk, readChunk (z := Example_chunk.stored) fs "chunk-00000.idhanptr" = Ok chunk
      /\ ChunkMeaning.chunk_meaning chunk = Some
           [ChunkMeaning.mkMeaning (replicate 32 7) [mkStringEntry 9 "tag"] [mkStringEntry 5 "tag"];
            ChunkMeaning.mkMeaning (replicate 32 8) [mkStringEntry 5 "tag"; mkStringEntry 9 "tag"] []].
Proof.
  pose proof (chunk_roundtrip Example_chunk.stored Example_chunk.stored_laws Example_chunk.lookup None
    "chunk-00000.idhanptr" Example_chunk.records ∅ Example_chunk.fits_records) as H.
  destruct (finish _ _ _ _) as [[[w u] fs] r] eqn:E.
  assert (Hr : snd (w, u, fs, r) = Ok (mkStats 2 4 1)) by (rewrite <- E; vm_compute; reflexivity).
  cbn in Hr. subst r.
  destruct H as (_ & _ & _ & chunk & Hread & _ & Hm). split; [reflexivity|]. exists chunk. split; [exact Hread|exact Hm].
Defined.

Lemma relations_roundtrip_witness :
  let '(_, fs, r) := writeRelationsFile (z := Example_chunk.stored) ∅ "relations.idhanptr" Example_chunk.ps
    Example_chunk.ss Example_chunk.lookup None in
  r = Ok (mkRelationsStats 1 1 1)
  /\ readChunk (z := Example_chunk.stored) fs "relations.idhanptr"
       = Throw (runtime_error "Chunk relations.idhanptr has the wrong magic").
Proof.
  pose proof (relations_roundtrip Example_chunk.stored Example_chunk.stored_laws Example_chunk.lookup None
    "relations.idhanptr" Example_chunk.ps Example_chunk.ss ∅ Example_chunk.fits_relations) as H.
  vm_compute in H |- *. split; [reflexivity|exact (proj2 (proj2 H))].
Defined.

Lemma readers_consume_their_encoding_witness :
  take 11 (entry_bytes (mkStringEntry 5 "tag") ++ [1; 2]) = concat (entry_bytes <$> [mkStringEntry 5 "tag"]) ++ [].
Proof.
  destruct (readers_consume_their_encoding (mkHeader CHUNK_MAGIC 2 11 0 1) (entry_bytes (mkStringEntry 5 "tag") ++ [1; 2])
    ltac:(repeat constructor) ltac:(cbn; lia) ltac:(cbn; lia)) as [Hc _].
  destruct (Hc (mkChunk [mkStringEntry 5 "tag"] []) 11%nat ltac:(vm_compute; reflexivity)) as (_ & Ht & _). exact Ht.
Defined.
