(* ===== verification/PtrStore.v ===== *)
(** * The definition store of the PTR: id-addressed sparse files

    [DefinitionStore.cpp] and [HexEncode.cpp] in the Hydrus importer's
    [ptr-core].  [hashes.bin] is a table of 32-byte slots indexed by hash id,
    [tags.idx] a table of (offset, length) slots indexed by tag id, and
    [tags.blob] holds the texts.  Many threads define tags at once: only the
    reservation of a blob range is under the lock.  The theorems show that in
    every interleaving the reader is a map from ids to the last text indexed
    for them. *)
From S2P Require Import Prelude StringView Bytes PtrEvents PtrChunk.
From Stdlib Require Import Ascii.
From Stdlib Require String.

(** ** Hexadecimal *)

Definition hexNibble (c : ascii) : option Z :=
  if (48 <=? code c) && (code c <=? 57) then Some (code c - 48)
  else if (97 <=? code c) && (code c <=? 102) then Some (code c - 97 + 10)
  else if (65 <=? code c) && (code c <=? 70) then Some (code c - 65 + 10)
  else None.

(** The loop of [decodeSha256Hex], two characters a step. *)
Fixpoint decode_pairs (hex : string) : option (list Z) :=
  match hex with
  | String c1 (String c2 hex) =>
      match hexNibble c1, hexNibble c2 with
      | Some high, Some low => out ← decode_pairs hex; Some (wrapu 8 (Z.lor (Z.shiftl high 4) low) :: out)
      | _, _ => None
      end
  | _ => Some []
  end.

Definition decodeSha256Hex (hex : string) : option (list Z) :=
  if negb (String.length hex =? SHA256_BYTES * 2)%nat then None else decode_pairs hex.

Definition DIGITS : string := "0123456789abcdef".
Definition digit_at (n : Z) : string :=
  match sview_get DIGITS (Z.to_nat n) with Some c => String c EmptyString | None => EmptyString end.

Fixpoint toHex (bytes : list Z) : string :=
  match bytes with
  | [] => EmptyString
  | byte :: bytes => digit_at (Z.land (Z.shiftr byte 4) 15) +:+ digit_at (Z.land byte 15) +:+ toHex bytes
  end.

(** ** Files written at an offset *)

(** [pwrite]: past the end the file is extended with zeros. *)
Definition writeAt (data : list Z) (offset : nat) (file : list Z) : list Z :=
  match data with
  | [] => file
  | _ =>
      let padded := file ++ replicate (offset - length file) 0 in
      take offset padded ++ data ++ drop (offset + length data) padded
  end.

Definition sizeof_TagIndexEntry : nat := 8.
Record TagIndexEntry := mkIndexEntry { entry_offset : Z; entry_length : Z }.

Definition index_bytes (e : TagIndexEntry) : list Z := le_encode 4 (entry_offset e) ++ le_encode 4 (entry_length e).
Definition index_of_bytes (l : list Z) : TagIndexEntry :=
  mkIndexEntry (le_decode (take 4 l)) (le_decode (take 4 (drop 4 l))).

(** ** The writer *)

Record DefinitionWriter := mkWriter {
  hashes_bin : list Z;
  tags_idx : list Z;
  tags_blob : list Z;
  m_blob_offset : Z;
  m_rejected_hashes : Z
}.

Definition DefinitionWriter_make : DefinitionWriter := mkWriter [] [] [] 0 0.

Definition writeHash (hash_id : Z) (sha256_hex : string) (w : DefinitionWriter) : DefinitionWriter * bool :=
  match decodeSha256Hex sha256_hex with
  | None => (mkWriter (hashes_bin w) (tags_idx w) (tags_blob w) (m_blob_offset w) (wrapu 64 (m_rejected_hashes w + 1)), false)
  | Some decoded =>
      (mkWriter (writeAt decoded (Z.to_nat hash_id * SHA256_BYTES) (hashes_bin w)) (tags_idx w) (tags_blob w)
         (m_blob_offset w) (m_rejected_hashes w), true)
  end.

(** [writeTag] in the three steps other threads can come between: reserving a
    range under the lock, writing the text, writing the index entry. *)
Definition reserve (tag : string) (w : DefinitionWriter) : result (Z * DefinitionWriter) :=
  let size := Z.of_nat (String.length tag) in
  if uint32_max <? m_blob_offset w + size then
    Throw (runtime_error "tags.blob exceeded 4 GB; TagIndexEntry offsets are 32-bit")
  else Ok (m_blob_offset w, mkWriter (hashes_bin w) (tags_idx w) (tags_blob w) (m_blob_offset w + size) (m_rejected_hashes w)).

Definition write_text (offset : Z) (tag : string) (w : DefinitionWriter) : DefinitionWriter :=
  mkWriter (hashes_bin w) (tags_idx w) (writeAt (string_bytes tag) (Z.to_nat offset) (tags_blob w)) (m_blob_offset w)
    (m_rejected_hashes w).

Definition write_index (tag_id offset : Z) (tag : string) (w : DefinitionWriter) : DefinitionWriter :=
  mkWriter (hashes_bin w)
    (writeAt (index_bytes (mkIndexEntry offset (Z.of_nat (String.length tag)))) (Z.to_nat tag_id * sizeof_TagIndexEntry)
       (tags_idx w))
    (tags_blob w) (m_blob_offset w) (m_rejected_hashes w).

Definition writeTag (tag_id : Z) (tag : string) (w : DefinitionWriter) : result DefinitionWriter :=
  if sempty tag then Ok w
  else
    '(offset, w) ← reserve tag w;
    Ok (write_index tag_id offset tag (write_text offset tag w)).

(** ** The reader *)

Record DefinitionReader := mkReader { m_hashes : list Z; m_tag_index : list Z; m_tag_blob : list Z }.

Definition DefinitionReader_make (w : DefinitionWriter) : DefinitionReader :=
  mkReader (hashes_bin w) (tags_idx w) (tags_blob w).

Definition reader_hash (r : DefinitionReader) (hash_id : Z) : option (list Z) :=
  let offset := (Z.to_nat hash_id * SHA256_BYTES)%nat in
  if (length (m_hashes r) <? offset + SHA256_BYTES)%nat then None
  else
    let slot := take SHA256_BYTES (drop offset (m_hashes r)) in
    if existsb (fun byte => negb (byte =? 0)) slot then Some slot else None.

Definition reader_tag (r : DefinitionReader) (tag_id : Z) : option string :=
  let offset := (Z.to_nat tag_id * sizeof_TagIndexEntry)%nat in
  if (length (m_tag_index r) <? offset + sizeof_TagIndexEntry)%nat then None
  else
    let entry := index_of_bytes (take sizeof_TagIndexEntry (drop offset (m_tag_index r))) in
    if entry_length entry =? 0 then None
    else if Z.of_nat (length (m_tag_blob r)) <? entry_offset entry + entry_length entry then None
    else Some (bytes_string (take (Z.to_nat (entry_length entry)) (drop (Z.to_nat (entry_offset entry)) (m_tag_blob r)))).

Definition slots (r : DefinitionReader) : nat := (length (m_tag_index r) / sizeof_TagIndexEntry)%nat.

Definition tagIdCapacity (r : DefinitionReader) : Z :=
  if uint32_max <? Z.of_nat (slots r) then uint32_max else Z.of_nat (slots r).

Definition countDefinedTags (r : DefinitionReader) : Z :=
  foldl (fun defined slot =>
      let entry := index_of_bytes (take sizeof_TagIndexEntry (drop (slot * sizeof_TagIndexEntry) (m_tag_index r))) in
      if negb (entry_length entry =? 0) then defined + 1 else defined)
    0 (seq 0 (slots r)).

(** The reader as the collapse and the writers of chunks use it. *)
Definition definitions_of (r : DefinitionReader) : Definitions := mkDefinitions (reader_hash r) (reader_tag r).

(** ** Concurrent writers *)

(** What a thread inside [writeTag] has done so far. *)
Inductive Phase := Reserved | TextWritten.
Record InFlight := mkInFlight { flight_id : Z; flight_text : string; flight_offset : Z; flight_phase : Phase }.

(** What a step makes visible: an indexed tag or a stored hash. *)
Inductive Event := Indexed (tag_id : Z) (text : string) | Hashed (hash_id : Z) (sha : list Z) | Silent.

Inductive step : DefinitionWriter * list InFlight -> Event -> DefinitionWriter * list InFlight -> Prop :=
| step_reserve w w' l tag_id tag offset :
    0 <= tag_id <= uint32_max -> sempty tag = false -> reserve tag w = Ok (offset, w') ->
    step (w, l) Silent (w', l ++ [mkInFlight tag_id tag offset Reserved])
| step_text w l1 l2 tag_id tag offset :
    step (w, l1 ++ mkInFlight tag_id tag offset Reserved :: l2) Silent
      (write_text offset tag w, l1 ++ mkInFlight tag_id tag offset TextWritten :: l2)
| step_index w l1 l2 tag_id tag offset :
    step (w, l1 ++ mkInFlight tag_id tag offset TextWritten :: l2) (Indexed tag_id tag)
      (write_index tag_id offset tag w, l1 ++ l2)
| step_hash w w' l hash_id hex sha :
    0 <= hash_id <= uint32_max -> decodeSha256Hex hex = Some sha -> writeHash hash_id hex w = (w', true) ->
    step (w, l) (Hashed hash_id sha) (w', l)
| step_reject w w' l hash_id hex :
    writeHash hash_id hex w = (w', false) -> step (w, l) Silent (w', l).

Inductive steps : DefinitionWriter * list InFlight -> list Event -> DefinitionWriter * list InFlight -> Prop :=
| steps_nil s : steps s [] s
| steps_snoc s tr s' e s'' : steps s tr s' -> step s' e s'' -> steps s (tr ++ [e]) s''.

(** ** Files as functions of the position *)

(** [n] bytes from [o]; what was never written reads as zero. *)
Definition peek (o n : nat) (f : list Z) : list Z := (fun i => default 0 (f !! i)) <$> seq o n.

Lemma peek_length o n f : length (peek o n f) = n.
Proof. unfold peek. by rewrite length_fmap, length_seq. Qed.

Lemma peek_slice o n f : (o + n <= length f)%nat -> take n (drop o f) = peek o n f.
Proof.
  revert o. induction n as [|n IH]; intros o Ho; [by rewrite take_0|].
  destruct (lookup_lt_ex f o ltac:(lia)) as [x Hx].
  rewrite (drop_S f x o Hx). cbn [take]. unfold peek. cbn [seq]. rewrite fmap_cons, Hx. cbn. f_equal.
  apply IH. lia.
Qed.

Lemma peek_past o n f : (length f <= o)%nat -> peek o n f = replicate n 0.
Proof.
  revert o. induction n as [|n IH]; intros o Ho; [done|]. unfold peek. cbn [seq replicate]. rewrite fmap_cons.
  rewrite lookup_ge_None_2 by done. cbn. f_equal. apply IH. lia.
Qed.

(** A slot of an aligned table is there whole or not at all. *)
Lemma peek_slot k id f :
  (0 < k)%nat -> (length f mod k = 0)%nat -> (length f < id * k + k)%nat -> peek (id * k) k f = replicate k 0.
Proof.
  intros Hk Hm Hlt. apply peek_past. pose proof (Nat.div_mod (length f) k ltac:(lia)) as Hd.
  assert (length f / k < id + 1)%nat by (apply Nat.Div0.div_lt_upper_bound; lia). nia.
Qed.

Lemma writeAt_length d o f : d <> [] -> length (writeAt d o f) = Nat.max (length f) (o + length d).
Proof.
  intros Hd. unfold writeAt. destruct d as [|x d]; [done|].
  rewrite !length_app, length_take, length_drop, length_app, length_replicate. lia.
Qed.

Lemma writeAt_lookup d o f i :
  default 0 (writeAt d o f !! i) =
    if decide (o <= i < o + length d)%nat then default 0 (d !! (i - o)%nat) else default 0 (f !! i).
Proof.
  unfold writeAt. destruct d as [|x d]; [rewrite decide_False by (cbn; lia); done|].
  set (d' := x :: d). set (p := f ++ replicate (o - length f) 0).
  assert (Hp : forall j, default 0 (p !! j) = default 0 (f !! j)).
  { intros j. unfold p. rewrite lookup_app. destruct (f !! j) eqn:Hj; [done|].
    destruct (replicate _ _ !! _) as [y|] eqn:Hr; [|done]. by apply lookup_replicate in Hr as [-> _]. }
  assert (Hlen : (o <= length p)%nat) by (unfold p; rewrite length_app, length_replicate; lia).
  assert (Ht : length (take o p) = o) by (rewrite length_take; lia).
  case_decide as Hi.
  - rewrite lookup_app_r, lookup_app_l by lia. by rewrite Ht.
  - destruct (decide (i < o)%nat).
    + rewrite lookup_app_l, lookup_take_lt by lia. apply Hp.
    + rewrite !lookup_app_r by lia. rewrite lookup_drop, Ht, <- Hp. f_equal. f_equal. lia.
Qed.

Lemma peek_ext o n f g :
  (forall i, (o <= i < o + n)%nat -> default 0 (f !! i) = default 0 (g !! i)) -> peek o n f = peek o n g.
Proof.
  intros H. unfold peek. apply list_fmap_ext. intros j i Hi. apply lookup_seq in Hi as [-> Hj]. apply H. lia.
Qed.

Lemma peek_all d : peek 0 (length d) d = d.
Proof. rewrite <- peek_slice by lia. rewrite drop_0. by apply take_ge. Qed.

Lemma peek_writeAt_same d o f : peek o (length d) (writeAt d o f) = d.
Proof.
  rewrite <- (peek_all d) at 3. apply list_eq. intros j. unfold peek. rewrite !list_lookup_fmap.
  destruct (decide (j < length d)%nat) as [Hj|Hj].
  - rewrite !lookup_seq_lt by done. cbn. rewrite writeAt_lookup, decide_True by lia. do 3 f_equal. lia.
  - rewrite !lookup_seq_ge by lia. done.
Qed.

Lemma peek_writeAt_other d o f o' n :
  (o' + n <= o \/ o + length d <= o')%nat -> peek o' n (writeAt d o f) = peek o' n f.
Proof. intros H. apply peek_ext. intros i Hi. rewrite writeAt_lookup, decide_False by lia. done. Qed.

(** Writing one slot of a table. *)
Lemma peek_write_slot k d f id id' :
  length d = k ->
  peek (id' * k) k (writeAt d (id * k) f) = if decide (id' = id) then d else peek (id' * k) k f.
Proof.
  intros Hd. case_decide as Heq; [subst; apply peek_writeAt_same|].
  apply peek_writeAt_other. destruct (decide (id' < id)%nat); nia.
Qed.

Lemma writeAt_aligned k d f id :
  (0 < k)%nat -> length d = k -> (length f mod k = 0)%nat -> (length (writeAt d (id * k) f) mod k = 0)%nat.
Proof.
  intros Hk Hd Hm. rewrite writeAt_length by (destruct d; [cbn in Hd; lia|done]). rewrite Hd.
  destruct (Nat.max_spec (length f) (id * k + k)) as [[_ ->]|[_ ->]]; [|done].
  replace (id * k + k)%nat with ((id + 1) * k)%nat by lia. apply Nat.Div0.mod_mul.
Qed.

(** ** The invariant of the writers *)

Definition abs_tags (tr : list Event) : gmap Z string :=
  foldl (fun m e => match e with Indexed id text => <[id := text]> m | _ => m end) ∅ tr.
Definition abs_hashes (tr : list Event) : gmap Z (list Z) :=
  foldl (fun m e => match e with Hashed id sha => <[id := sha]> m | _ => m end) ∅ tr.

(** [full] is the blob as it will be once every reserved range is written. *)
Definition region (full : list Z) (offset : Z) (text : string) : Prop :=
  0 <= offset /\ take (String.length text) (drop (Z.to_nat offset) full) = string_bytes text.

Definition filled (blob full : list Z) (offset : Z) (text : string) : Prop :=
  (Z.to_nat offset + String.length text <= length blob)%nat /\
  forall i, (Z.to_nat offset <= i < Z.to_nat offset + String.length text)%nat ->
    default 0 (blob !! i) = default 0 (full !! i).

(** The range of a thread under way. *)
Definition flight_ok (full blob : list Z) (f : InFlight) : Prop :=
  0 <= flight_id f <= uint32_max /\ sempty (flight_text f) = false /\ region full (flight_offset f) (flight_text f)
  /\ (flight_phase f = TextWritten -> filled blob full (flight_offset f) (flight_text f)).

Record inv (full : list Z) (tr : list Event) (w : DefinitionWriter) (l : list InFlight) : Prop := {
  inv_full : Z.of_nat (length full) = m_blob_offset w /\ m_blob_offset w <= uint32_max;
  inv_flights : Forall (flight_ok full (tags_blob w)) l;
  inv_aligned : (length (tags_idx w) mod sizeof_TagIndexEntry = 0)%nat
    /\ (length (hashes_bin w) mod SHA256_BYTES = 0)%nat;
  inv_tags : forall id, 0 <= id -> match abs_tags tr !! id with
    | Some text => sempty text = false /\ exists offset, region full offset text /\ filled (tags_blob w) full offset text
        /\ peek (Z.to_nat id * sizeof_TagIndexEntry) sizeof_TagIndexEntry (tags_idx w)
             = index_bytes (mkIndexEntry offset (Z.of_nat (String.length text)))
    | None => peek (Z.to_nat id * sizeof_TagIndexEntry) sizeof_TagIndexEntry (tags_idx w) = replicate sizeof_TagIndexEntry 0
    end;
  inv_hashes : forall id, 0 <= id -> peek (Z.to_nat id * SHA256_BYTES) SHA256_BYTES (hashes_bin w)
    = default (replicate SHA256_BYTES 0) (abs_hashes tr !! id);
  inv_ids : forall id, is_Some (abs_tags tr !! id) -> 0 <= id <= uint32_max
}.

Lemma region_length full offset text :
  region full offset text -> (String.length text > 0)%nat -> (Z.to_nat offset + String.length text <= length full)%nat.
Proof.
  intros [_ H] Hpos. apply (f_equal length) in H. rewrite length_take, length_drop, string_bytes_length in H. lia.
Qed.

Lemma sempty_length s : sempty s = false -> (String.length s > 0)%nat.
Proof. destruct s; cbn; [done|lia]. Qed.

(** More reservations keep every range. *)
Lemma region_app full more offset text : sempty text = false -> region full offset text -> region (full ++ more) offset text.
Proof.
  intros Ht Hr. pose proof (region_length _ _ _ Hr (sempty_length _ Ht)) as Hl. destruct Hr as [Ho H]. split; [done|].
  rewrite drop_app_le by lia. rewrite take_app_le by (rewrite length_drop; lia). done.
Qed.

Lemma filled_app blob full more offset text :
  sempty text = false -> region full offset text -> filled blob full offset text -> filled blob (full ++ more) offset text.
Proof.
  intros Ht Hr [Hl H]. pose proof (region_length _ _ _ Hr (sempty_length _ Ht)). split; [done|].
  intros i Hi. rewrite lookup_app_l by lia. by apply H.
Qed.

(** Writing a reserved range keeps every range already filled, and fills it. *)
Lemma region_peek full offset text :
  region full offset text -> sempty text = false ->
  forall i, (Z.to_nat offset <= i < Z.to_nat offset + String.length text)%nat ->
    default 0 (string_bytes text !! (i - Z.to_nat offset)%nat) = default 0 (full !! i).
Proof.
  intros [Ho H] _ i Hi. rewrite <- H. rewrite lookup_take_lt by lia. rewrite lookup_drop. f_equal. f_equal. lia.
Qed.

Lemma filled_write blob full offset text offset' text' :
  region full offset text -> sempty text = false -> filled blob full offset' text' ->
  filled (writeAt (string_bytes text) (Z.to_nat offset) blob) full offset' text'.
Proof.
  intros Hr Ht [Hl H]. split.
  - rewrite writeAt_length by (destruct text; done). lia.
  - intros i Hi. rewrite writeAt_lookup, string_bytes_length. case_decide; [by apply (region_peek _ _ text)|by apply H].
Qed.

Lemma filled_own blob full offset text :
  region full offset text -> sempty text = false ->
  filled (writeAt (string_bytes text) (Z.to_nat offset) blob) full offset text.
Proof.
  intros Hr Ht. split.
  - rewrite writeAt_length, string_bytes_length by (destruct text; done). lia.
  - intros i Hi. rewrite writeAt_lookup, string_bytes_length, decide_True by done. by apply (region_peek _ _ text).
Qed.

Lemma abs_tags_snoc tr e : abs_tags (tr ++ [e]) = match e with Indexed id text => <[id := text]> (abs_tags tr) | _ => abs_tags tr end.
Proof. unfold abs_tags. by rewrite foldl_app. Qed.
Lemma abs_hashes_snoc tr e : abs_hashes (tr ++ [e]) = match e with Hashed id sha => <[id := sha]> (abs_hashes tr) | _ => abs_hashes tr end.
Proof. unfold abs_hashes. by rewrite foldl_app. Qed.

(** Steps that touch neither table nor blob contents keep what is indexed. *)
Lemma inv_tags_mono full full' tr w w' :
  (forall offset text, sempty text = false -> region full offset text -> region full' offset text) ->
  (forall offset text, sempty text = false -> region full offset text -> filled (tags_blob w) full offset text ->
     filled (tags_blob w') full' offset text) ->
  tags_idx w' = tags_idx w ->
  forall l, inv full tr w l -> forall id, 0 <= id -> match abs_tags tr !! id with
    | Some text => sempty text = false /\ exists offset, region full' offset text /\ filled (tags_blob w') full' offset text
        /\ peek (Z.to_nat id * sizeof_TagIndexEntry) sizeof_TagIndexEntry (tags_idx w')
             = index_bytes (mkIndexEntry offset (Z.of_nat (String.length text)))
    | None => peek (Z.to_nat id * sizeof_TagIndexEntry) sizeof_TagIndexEntry (tags_idx w') = replicate sizeof_TagIndexEntry 0
    end.
Proof.
  intros Hreg Hfil Hidx l [_ _ _ Ht _ _] id Hid. rewrite Hidx. specialize (Ht id Hid).
  destruct (abs_tags tr !! id) as [text|]; [|done]. destruct Ht as (He & o & Hr & Hf & Hp).
  split; [done|]. exists o. auto.
Qed.

Lemma decode_pairs_ok n hex out :
  String.length hex = (n * 2)%nat -> decode_pairs hex = Some out -> length out = n /\ bytes_ok out.
Proof.
  revert hex out. induction n as [|n IH]; intros hex out Hl H.
  { destruct hex; [|discriminate]. cbn in H. simplify_eq. split; [done|constructor]. }
  destruct hex as [|c1 [|c2 hex]]; try (cbn in Hl; lia). cbn in H.
  destruct (hexNibble c1) as [h|]; [|done]. destruct (hexNibble c2) as [lo|]; [|done].
  destruct (decode_pairs hex) as [out'|] eqn:E; [|done]. cbn in H. simplify_eq.
  apply IH in E as [Hlen Hb]; [|cbn in Hl; lia]. split; [cbn; lia|]. constructor; [|done].
  apply is_byte_bounds. apply Z.mod_pos_bound. lia.
Qed.

Lemma decodeSha256Hex_ok hex out : decodeSha256Hex hex = Some out -> length out = SHA256_BYTES /\ bytes_ok out.
Proof.
  unfold decodeSha256Hex. destruct (Nat.eqb_spec (String.length hex) (SHA256_BYTES * 2)) as [Hl|]; [|done].
  cbn [negb]. by apply decode_pairs_ok.
Qed.

(** A change that keeps what is reserved and filled keeps the threads' ranges. *)
Lemma flight_ok_mono full full' blob blob' l :
  (forall offset text, sempty text = false -> region full offset text -> region full' offset text) ->
  (forall offset text, sempty text = false -> region full offset text -> filled blob full offset text ->
     filled blob' full' offset text) ->
  Forall (flight_ok full blob) l -> Forall (flight_ok full' blob') l.
Proof.
  intros Hreg Hfil Hl. eapply Forall_impl; [exact Hl|]. intros f (Q1 & Q2 & Q3 & Q4). split_and!; [lia|lia|done|by apply Hreg|].
  intros Hp. apply Hfil; auto.
Qed.

Lemma inv_reserve full tr w w' l tag_id tag offset :
  inv full tr w l -> 0 <= tag_id <= uint32_max -> sempty tag = false -> reserve tag w = Ok (offset, w') ->
  inv (full ++ string_bytes tag) tr w' (l ++ [mkInFlight tag_id tag offset Reserved]).
Proof.
  intros Hinv Hid Hne Hres. unfold reserve in Hres. destruct (uint32_max <? _) eqn:Hmax; [discriminate|]. simplify_eq.
  apply Z.ltb_ge in Hmax.
  assert (Hreg : forall o t, sempty t = false -> region full o t -> region (full ++ string_bytes tag) o t)
    by (intros; by apply region_app).
  assert (Hfil : forall o t, sempty t = false -> region full o t -> filled (tags_blob w) full o t ->
    filled (tags_blob w) (full ++ string_bytes tag) o t) by (intros; by apply filled_app).
  pose proof (inv_tags_mono full (full ++ string_bytes tag) tr w
    (mkWriter (hashes_bin w) (tags_idx w) (tags_blob w) (m_blob_offset w + Z.of_nat (String.length tag)) (m_rejected_hashes w))
    Hreg Hfil eq_refl l Hinv) as Htags.
  destruct Hinv as [[Hlen Hle] Hfl Hal _ Hh Hids]. split; [|apply Forall_app; split|done|exact Htags|exact Hh|exact Hids].
  - cbn. rewrite length_app, string_bytes_length. lia.
  - by apply (flight_ok_mono full _ (tags_blob w)).
  - constructor; [|constructor]. unfold flight_ok. cbn [flight_id flight_text flight_offset flight_phase]. split_and!; [lia|lia|done| |done]. split; [lia|].
    rewrite <- Hlen, Nat2Z.id, drop_app_length. rewrite <- string_bytes_length. by apply take_ge.
Qed.

Lemma inv_text full tr w l1 l2 tag_id tag offset :
  inv full tr w (l1 ++ mkInFlight tag_id tag offset Reserved :: l2) ->
  inv full tr (write_text offset tag w) (l1 ++ mkInFlight tag_id tag offset TextWritten :: l2).
Proof.
  intros Hinv. pose proof Hinv as [Hfull Hfl Hal _ Hh Hids]. apply Forall_app in Hfl as [Hf1 Hf2].
  apply Forall_cons in Hf2 as [(Hid & Hne & Hr & _) Hf2]. cbn in Hid, Hne, Hr.
  assert (Hfil : forall o t, sempty t = false -> region full o t -> filled (tags_blob w) full o t ->
    filled (tags_blob (write_text offset tag w)) full o t) by (intros; by apply filled_write).
  split; [done| |done| |done|done].
  - apply Forall_app. split; [by apply (flight_ok_mono full _ (tags_blob w)); auto|].
    constructor; [|by apply (flight_ok_mono full _ (tags_blob w)); auto].
    unfold flight_ok. cbn [flight_id flight_text flight_offset flight_phase]. split_and!; [lia|lia|done|done|]. intros _. by apply filled_own.
  - by apply (inv_tags_mono full full tr w _ ltac:(auto) Hfil eq_refl _ Hinv).
Qed.

Lemma inv_index full tr w l1 l2 tag_id tag offset :
  inv full tr w (l1 ++ mkInFlight tag_id tag offset TextWritten :: l2) ->
  inv full (tr ++ [Indexed tag_id tag]) (write_index tag_id offset tag w) (l1 ++ l2).
Proof.
  intros [Hfull Hfl [Ha1 Ha2] Ht Hh Hids]. apply Forall_app in Hfl as [Hf1 Hf2].
  apply Forall_cons in Hf2 as [(Hid & Hne & Hr & Hfi) Hf2]. cbn in Hid, Hne, Hr, Hfi. specialize (Hfi eq_refl).
  assert (Hd : length (index_bytes (mkIndexEntry offset (Z.of_nat (String.length tag)))) = sizeof_TagIndexEntry)
    by (unfold index_bytes; by rewrite length_app, !le_encode_length).
  split; [done|by apply Forall_app| | |by rewrite abs_hashes_snoc|].
  - split; [|done]. by apply writeAt_aligned; [unfold sizeof_TagIndexEntry; lia|..].
  - rewrite abs_tags_snoc. intros id Hid'. cbn [tags_idx write_index tags_blob].
    rewrite peek_write_slot by done. destruct (decide (id = tag_id)) as [->|Hneq].
    + rewrite lookup_insert_eq, decide_True by done. split; [done|]. by exists offset.
    + rewrite lookup_insert_ne, decide_False by lia. by apply Ht.
  - intros id. rewrite abs_tags_snoc. destruct (decide (id = tag_id)) as [->|Hneq]; [done|].
    rewrite lookup_insert_ne by done. apply Hids.
Qed.

Lemma inv_hash full tr w w' l hash_id hex sha :
  inv full tr w l -> 0 <= hash_id -> decodeSha256Hex hex = Some sha -> writeHash hash_id hex w = (w', true) ->
  inv full (tr ++ [Hashed hash_id sha]) w' l.
Proof.
  intros [Hfull Hfl [Ha1 Ha2] Ht Hh Hids] Hid Hdec Hw. unfold writeHash in Hw. rewrite Hdec in Hw. simplify_eq.
  destruct (decodeSha256Hex_ok _ _ Hdec) as [Hlen _]. split; [done|done| | | |by rewrite abs_tags_snoc].
  - split; [done|]. by apply writeAt_aligned; [unfold SHA256_BYTES; lia|..].
  - by rewrite abs_tags_snoc.
  - rewrite abs_hashes_snoc. intros id Hid'. cbn [hashes_bin]. rewrite peek_write_slot by done.
    destruct (decide (id = hash_id)) as [->|Hneq].
    + by rewrite lookup_insert_eq, decide_True.
    + rewrite lookup_insert_ne, decide_False by lia. by apply Hh.
Qed.

Lemma inv_silent full tr w l : inv full tr w l -> inv full (tr ++ [Silent]) w l.
Proof. intros [? ? ? ? ? ?]. split; [done|done|done|by rewrite abs_tags_snoc|by rewrite abs_hashes_snoc|by rewrite abs_tags_snoc]. Qed.

Lemma inv_reject full tr w w' l hash_id hex : inv full tr w l -> writeHash hash_id hex w = (w', false) -> inv full tr w' l.
Proof. intros [? ? ? ? ? ?] Hw. unfold writeHash in Hw. destruct (decodeSha256Hex _); simplify_eq. by split. Qed.

Lemma inv_step full tr w l e w' l' :
  inv full tr w l -> step (w, l) e (w', l') -> exists full', inv full' (tr ++ [e]) w' l'.
Proof.
  intros Hinv Hstep. inversion Hstep; subst.
  - eexists. by eapply inv_silent, inv_reserve.
  - eexists. by eapply inv_silent, inv_text.
  - eexists. by eapply inv_index.
  - eexists. eapply inv_hash; [done|lia|done|done].
  - eexists. by eapply inv_silent, inv_reject.
Qed.

Lemma inv_start : inv [] [] DefinitionWriter_make [].
Proof.
  split; [done|constructor|done| | |].
  - intros id Hid. change (abs_tags []) with (∅ : gmap Z string). rewrite lookup_empty.
    apply peek_past. apply Nat.le_0_l.
  - intros id Hid. change (abs_hashes []) with (∅ : gmap Z (list Z)). rewrite lookup_empty.
    apply peek_past. apply Nat.le_0_l.
  - intros id. change (abs_tags []) with (∅ : gmap Z string). rewrite lookup_empty. by intros [? ?].
Qed.

Lemma steps_inv tr w l : steps (DefinitionWriter_make, []) tr (w, l) -> exists full, inv full tr w l.
Proof.
  remember (DefinitionWriter_make, @nil InFlight) as s0. remember (w, l) as s1. intros H. revert w l Heqs1 Heqs0.
  induction H as [s|s tr [w1 l1] e s'' H IH Hs]; intros w l -> Hs0.
  - simplify_eq. eexists. exact inv_start.
  - destruct (IH w1 l1 eq_refl Hs0) as [full Hinv]. by eapply inv_step.
Qed.

(** ** What the reader reads *)

Lemma index_of_bytes_of o n :
  0 <= o <= uint32_max -> 0 <= n <= uint32_max -> index_of_bytes (index_bytes (mkIndexEntry o n)) = mkIndexEntry o n.
Proof.
  intros Ho Hn. unfold index_of_bytes, index_bytes. cbn [entry_offset entry_length].
  rewrite <- (app_nil_r (le_encode 4 n)), (drop_field 0 4), drop_0, !take_field.
  rewrite !le_decode_encode by (unfold uint32_max in *; lia). done.
Qed.

(** An aligned table's slot, or zeros. *)
Lemma slot_cases k id f :
  (0 < k)%nat -> (length f mod k = 0)%nat ->
  ((length f <? id * k + k)%nat = false /\ take k (drop (id * k) f) = peek (id * k) k f)
  \/ ((length f <? id * k + k)%nat = true /\ peek (id * k) k f = replicate k 0).
Proof.
  intros Hk Hm. destruct (Nat.ltb_spec (length f) (id * k + k)) as [Hlt|Hge].
  - right. split; [done|]. by apply peek_slot.
  - left. split; [done|]. by apply peek_slice.
Qed.

Lemma filled_slice blob full offset text :
  region full offset text -> sempty text = false -> filled blob full offset text ->
  take (String.length text) (drop (Z.to_nat offset) blob) = string_bytes text.
Proof.
  intros Hr Hne [Hl Hf]. pose proof (region_length _ _ _ Hr (sempty_length _ Hne)) as Hlen.
  destruct Hr as [Ho Hr]. rewrite <- Hr, !peek_slice by lia. apply peek_ext. intros i Hi. by apply Hf.
Qed.

Lemma reader_tag_ok full tr w l id :
  inv full tr w l -> 0 <= id -> reader_tag (DefinitionReader_make w) id = abs_tags tr !! id.
Proof.
  intros [[Hfull Hmax] _ [Ha _] Ht _ _] Hid. specialize (Ht id Hid). unfold reader_tag. cbn [m_tag_index m_tag_blob DefinitionReader_make].
  destruct (slot_cases sizeof_TagIndexEntry (Z.to_nat id) (tags_idx w) ltac:(unfold sizeof_TagIndexEntry; lia) Ha)
    as [[-> ->]|[-> Hz]].
  2: { destruct (abs_tags tr !! id) as [text|]; [|done]. destruct Ht as (Hne & o & Hr & Hf & Hp). exfalso.
       rewrite Hp in Hz. apply (f_equal index_of_bytes) in Hz.
       pose proof (region_length _ _ _ Hr (sempty_length _ Hne)). pose proof (sempty_length _ Hne). destruct Hr as [Ho _].
       rewrite index_of_bytes_of in Hz by lia. apply (f_equal entry_length) in Hz. cbn in Hz. lia. }
  destruct (abs_tags tr !! id) as [text|]; [|rewrite Ht; done].
  destruct Ht as (Hne & o & Hr & Hf & ->). pose proof (region_length _ _ _ Hr (sempty_length _ Hne)).
  pose proof (sempty_length _ Hne). pose proof (filled_slice _ _ _ _ Hr Hne Hf) as Hs. destruct Hr as [Ho _], Hf as [Hl _].
  rewrite index_of_bytes_of by lia. cbn [entry_offset entry_length].
  destruct (Z.eqb_spec (Z.of_nat (String.length text)) 0); [lia|].
  destruct (Z.ltb_spec (Z.of_nat (length (tags_blob w))) (o + Z.of_nat (String.length text))); [lia|].
  by rewrite Nat2Z.id, Hs, bytes_string_bytes.
Qed.

Definition nonzero (sha : list Z) : bool := existsb (fun byte => negb (byte =? 0)) sha.

Lemma reader_hash_ok full tr w l id :
  inv full tr w l -> 0 <= id ->
  reader_hash (DefinitionReader_make w) id
    = match abs_hashes tr !! id with Some sha => if nonzero sha then Some sha else None | None => None end.
Proof.
  intros [_ _ [_ Ha] _ Hh _] Hid. specialize (Hh id Hid). unfold reader_hash. cbn [m_hashes DefinitionReader_make].
  destruct (slot_cases SHA256_BYTES (Z.to_nat id) (hashes_bin w) ltac:(unfold SHA256_BYTES; lia) Ha) as [[-> ->]|[-> Hz]];
    rewrite Hh in *; destruct (abs_hashes tr !! id) as [sha|]; try done.
  cbn in Hz. subst sha. done.
Qed.

(** *** Counting *)

Lemma count_slots (f : nat -> bool) l a :
  foldl (fun defined slot => if f slot then defined + 1 else defined) a l
    = a + Z.of_nat (length (filter (fun slot => f slot = true) l)).
Proof.
  revert a. induction l as [|x l IH]; intros a; [cbn; lia|]. cbn [foldl]. rewrite IH, filter_cons.
  destruct (f x) eqn:Hx; case_decide; try congruence; cbn [length]; lia.
Qed.


(** A slot is non-empty exactly when a text is indexed for its id. *)
Lemma slot_defined full tr w l id :
  inv full tr w l -> 0 <= id ->
  negb (entry_length (index_of_bytes (peek (Z.to_nat id * sizeof_TagIndexEntry) sizeof_TagIndexEntry (tags_idx w))) =? 0) = true
    <-> is_Some (abs_tags tr !! id).
Proof.
  intros [[Hfull Hmax] _ _ Ht _ _] Hid. specialize (Ht id Hid). destruct (abs_tags tr !! id) as [text|].
  - destruct Ht as (Hne & o & Hr & _ & ->). pose proof (sempty_length _ Hne) as Hpos.
    pose proof (region_length _ _ _ Hr Hpos). destruct Hr as [Ho _]. rewrite index_of_bytes_of by lia.
    cbn [entry_length]. destruct (Z.eqb_spec (Z.of_nat (String.length text)) 0); [lia|]. split; [by eexists|done].
  - rewrite Ht. split; [done|by intros [? ?]].
Qed.

Lemma countDefinedTags_ok full tr w l :
  inv full tr w l -> countDefinedTags (DefinitionReader_make w) = Z.of_nat (size (abs_tags tr)).
Proof.
  intros Hinv. unfold countDefinedTags. rewrite count_slots, Z.add_0_l. f_equal.
  rewrite <- length_map_to_list, <- (length_fmap Z.of_nat), <- (length_fmap fst (map_to_list _)).
  assert (Hslots : forall i, (i < slots (DefinitionReader_make w))%nat ->
    take sizeof_TagIndexEntry (drop (i * sizeof_TagIndexEntry) (tags_idx w))
      = peek (i * sizeof_TagIndexEntry) sizeof_TagIndexEntry (tags_idx w)).
  { intros i Hi. apply peek_slice. unfold slots, sizeof_TagIndexEntry in *. cbn [m_tag_index DefinitionReader_make] in Hi.
    pose proof (Nat.Div0.mul_div_le (length (tags_idx w)) 8). lia. }
  apply Permutation_length, NoDup_Permutation.
  - apply NoDup_fmap_2; [apply _|]. apply NoDup_filter, NoDup_seq.
  - apply NoDup_fst_map_to_list.
  - intros id. rewrite !list_elem_of_fmap. split.
    + intros (i & -> & [Hd Hi%elem_of_seq]%list_elem_of_filter). cbn [m_tag_index DefinitionReader_make] in Hd.
      rewrite Hslots in Hd by lia. rewrite <- (Nat2Z.id i) in Hd.
      apply (slot_defined full tr w l) in Hd as [text Ht]; [|done|lia].
      exists (Z.of_nat i, text). split; [done|]. by apply elem_of_map_to_list.
    + intros ([id' text] & -> & Ht%elem_of_map_to_list). cbn [fst].
      assert (Hid : 0 <= id' <= uint32_max) by (eapply inv_ids; [done|by eexists]).
      pose proof (proj2 (slot_defined full tr w l id' Hinv ltac:(lia)) ltac:(by eexists)) as Hd.
      exists (Z.to_nat id'). split; [lia|]. apply list_elem_of_filter.
      assert (Hin : (Z.to_nat id' < slots (DefinitionReader_make w))%nat).
      { unfold slots. cbn [m_tag_index DefinitionReader_make].
        destruct (inv_aligned _ _ _ _ Hinv) as [Ha _].
        destruct (slot_cases sizeof_TagIndexEntry (Z.to_nat id') (tags_idx w) ltac:(unfold sizeof_TagIndexEntry; lia) Ha)
          as [[Hlt _]|[_ Hz]]; [|rewrite Hz in Hd; discriminate].
        apply Nat.ltb_ge in Hlt. unfold sizeof_TagIndexEntry in *. apply Nat.div_le_lower_bound; lia. }
      split; [|apply elem_of_seq; lia]. cbn [m_tag_index DefinitionReader_make]. by rewrite Hslots.
Qed.

(** ** Theorems *)

(** A call of [writeTag] with no other thread between its steps is a run. *)
Lemma writeTag_steps tag_id tag w w' l s tr :
  0 <= tag_id <= uint32_max -> sempty tag = false -> writeTag tag_id tag w = Ok w' ->
  steps s tr (w, l) -> steps s (((tr ++ [Silent]) ++ [Silent]) ++ [Indexed tag_id tag]) (w', l).
Proof.
  intros Hid Hne H Hs. unfold writeTag in H. rewrite Hne in H. bind_inv H.
  match goal with H : (let '(_, _) := ?p in _) = _ |- _ => destruct p as [offset w1] end. simplify_eq.
  rewrite <- (app_nil_r l). eapply steps_snoc; [|apply step_index].
  eapply steps_snoc; [|apply (step_text w1 l [])]. eapply steps_snoc; [exact Hs|]. by apply step_reserve.
Qed.

Lemma writeHash_steps hash_id hex sha w w' l s tr :
  0 <= hash_id <= uint32_max -> decodeSha256Hex hex = Some sha -> writeHash hash_id hex w = (w', true) ->
  steps s tr (w, l) -> steps s (tr ++ [Hashed hash_id sha]) (w', l).
Proof. intros Hid Hd Hw Hs. eapply steps_snoc; [exact Hs|]. by eapply step_hash. Qed.

(** The definition store linearises.  In every interleaving of any number
    of threads defining tags and hashes, at every moment, the reader is the
    map from a tag id to the text last indexed for it and from a hash id to the
    hash last stored for it (an all-zero hash reads as undefined); a range
    reserved by one thread is never written by another, and the count of
    defined tags is the number of ids with a text. *)
Theorem definitions_linearise (tr : list Event) (w : DefinitionWriter) (l : list InFlight)
    (Hrun : steps (DefinitionWriter_make, []) tr (w, l)) :
  let r := DefinitionReader_make w in
  (forall id, 0 <= id ->
     def_tag (definitions_of r) id = abs_tags tr !! id
     /\ def_hash (definitions_of r) id
        = match abs_hashes tr !! id with Some sha => if nonzero sha then Some sha else None | None => None end)
  /\ countDefinedTags r = Z.of_nat (size (abs_tags tr))
  /\ m_blob_offset w <= uint32_max.
Proof.
  destruct (steps_inv tr w l Hrun) as [full Hinv]. split_and!.
  - intros id Hid. split; [by apply (reader_tag_ok full tr w l)|by apply (reader_hash_ok full tr w l)].
  - by apply (countDefinedTags_ok full tr w l).
  - apply Hinv.
Qed.

Lemma hexNibble_hexDigit c : hexNibble c = hexDigit c.
Proof. destruct c as [[] [] [] [] [] [] [] []]; reflexivity. Qed.

(** The two loops, one over pairs and one over indices, agree. *)
Lemma decode_pairs_fromHex pre rest n index :
  String.length pre = (index * 2)%nat -> String.length rest = (n * 2)%nat ->
  decode_pairs rest = match fromHex_loop (pre +:+ rest) index n with inr d => Some d | inl _ => None end.
Proof.
  revert pre rest index. induction n as [|n IH]; intros pre rest index Hp Hr; [by destruct rest|].
  destruct rest as [|c1 [|c2 rest]]; try (cbn in Hr; lia). cbn [decode_pairs fromHex_loop].
  replace (index * 2)%nat with (String.length pre + 0)%nat by lia.
  replace (String.length pre + 0 + 1)%nat with (String.length pre + 1)%nat by lia.
  rewrite !sview_get_app. cbn [sview_get mbind option_bind]. rewrite !hexNibble_hexDigit.
  destruct (hexDigit c1) as [h|]; [|done]. destruct (hexDigit c2) as [lo|]; [|done].
  rewrite (IH (pre +:+ String c1 (String c2 EmptyString)) rest (S index)).
  - rewrite sapp_assoc. cbn [String.append]. by destruct (fromHex_loop _ _ _).
  - rewrite slength_app. cbn. lia.
  - cbn in Hr. lia.
Qed.

Lemma toHex_hex bytes : bytes_ok bytes -> toHex bytes = hex bytes.
Proof.
  induction 1 as [|b bytes Hb Hl IH]; [done|]. cbn [toHex hex]. rewrite IH.
  destruct (byte_nibbles b Hb) as (Hh & _ & _).
  assert (H15 : Z.land (Z.shiftr b 4) 15 = Z.shiftr b 4).
  { change 15 with (Z.ones 4). rewrite Z.land_ones by lia. apply Z.mod_small. lia. }
  rewrite H15. done.
Qed.

(** The importer's own hexadecimal routines are those of [SHA256]: the same
    texts are accepted, with the same bytes, in either letter case, and the
    same text is produced for a hash. *)
Theorem hex_routines_agree :
  (forall str, decodeSha256Hex str = match fromHex str with inr d => Some d | inl _ => None end)
  /\ (forall bytes, bytes_ok bytes -> toHex bytes = hex bytes).
Proof.
  split; [|apply toHex_hex]. intros str. unfold decodeSha256Hex, fromHex.
  destruct (Nat.eqb_spec (String.length str) (SHA256_BYTES * 2)) as [Heq|Hne].
  - rewrite decide_False by (intros Hn; apply Hn; exact Heq). cbn [negb].
    by rewrite (decode_pairs_fromHex EmptyString str SHA256_BYTES 0%nat eq_refl Heq).
  - by rewrite decide_True.
Qed.

(** ** Witness *)

Lemma definitions_linearise_witness :
  exists w, writeTag 7 "new" DefinitionWriter_make = Ok w
    /\ reader_tag (DefinitionReader_make (write_text 3 "old" (mkWriter (hashes_bin w) (tags_idx w) (tags_blob w) 6 0))) 7
       = Some "new".
Proof.
  eexists. split; [vm_compute; reflexivity|].
  pose proof (writeTag_steps 7 "new" DefinitionWriter_make _ [] (DefinitionWriter_make, []) []
    ltac:(unfold uint32_max; lia) eq_refl eq_refl (steps_nil _)) as Hrun.
  vm_compute in Hrun.
  match type of Hrun with steps _ _ (?w, _) =>
    pose proof (steps_snoc _ _ _ _ _ Hrun (step_reserve w _ [] 9 "old" 3 ltac:(unfold uint32_max; lia) eq_refl eq_refl)) as Hrun2
  end.
  pose proof (steps_snoc _ _ _ _ _ Hrun2 (step_text _ [] [] 9 "old" 3)) as Hrun3.
  destruct (definitions_linearise _ _ _ Hrun3) as [Hread _]. destruct (Hread 7 ltac:(lia)) as [Ht _].
  exact Ht.
Defined.
