(* ===== verification/PtrPool.v ===== *)
(** * The worker pool of the PTR stages: [ParallelFor.cpp]

    [parallelIndexed] runs a body once for every index, on several threads
    that claim indices from a shared counter and stop early when a body asks
    for it or throws.  A body is a state machine over the shared state, given
    by an interface ([Body]), and a schedule says which lane moves next, so
    the theorems hold for every interleaving; the relaxed loads of [stop] may
    miss a store, which the schedule also decides. *)
From S2P Require Import Prelude.

(** ** The model *)

Section pool.
Context {S L : Type}.

(** Where a lane is after a part of the body: at a point where other lanes may
    run, or at the end of the body with its answer or an exception. *)
Inductive Outcome := Continue (l : L) | Return (b : bool) | Raise (e : exn).

(** What the pool is given: how a body starts on an index (the flag is the
    answer of a poll it may make) and how it goes on. *)
Record Body := mkBody {
  begin : nat -> bool -> S -> S * Outcome;
  resume : L -> S -> S * Outcome
}.

Inductive Lane := Idle | Running (l : L) | Joined.

Record Pool := mkPool {
  next : nat;
  stop : bool;
  error : option exn;
  lanes : list Lane;
  shared : S
}.

(** One move: the lane, whether its load of [stop] sees an earlier store, and
    the answer of a poll. *)
Record Choice := mkChoice { lane : nat; sees_stop : bool; polled : bool }.

Definition settle (k : nat) (o : Outcome) (s : S) (p : Pool) : Pool :=
  match o with
  | Continue l => mkPool (next p) (stop p) (error p) (<[k := Running l]> (lanes p)) s
  | Return true => mkPool (next p) (stop p) (error p) (<[k := Idle]> (lanes p)) s
  | Return false => mkPool (next p) true (error p) (<[k := Idle]> (lanes p)) s
  | Raise e =>
      mkPool (next p) true (match error p with None => Some e | Some e' => Some e' end) (<[k := Joined]> (lanes p)) s
  end.

Definition claim (p : Pool) : Pool := mkPool (next p + 1) (stop p) (error p) (lanes p) (shared p).
Definition join (k : nat) (p : Pool) : Pool := mkPool (next p) (stop p) (error p) (<[k := Joined]> (lanes p)) (shared p).

Definition lane_step (count : nat) (body : Body) (c : Choice) (p : Pool) : Pool :=
  let k := lane c in
  match lanes p !! k with
  | Some Idle =>
      if stop p && sees_stop c then join k p
      else
        let index := next p in
        let p := claim p in
        if decide (count <= index)%nat then join k p
        else let '(s, o) := begin body index (polled c) (shared p) in settle k o s p
  | Some (Running l) => let '(s, o) := resume body l (shared p) in settle k o s p
  | Some Joined | None => p
  end.

Definition run (count : nat) (body : Body) (schedule : list Choice) (p : Pool) : Pool :=
  foldl (fun p c => lane_step count body c p) p schedule.

Definition defaultWorkerCount (hardware_concurrency : nat) : nat := Nat.max 1 hardware_concurrency.

Definition start (hardware_concurrency count threads : nat) (s : S) : Pool :=
  let requested := match threads with O => defaultWorkerCount hardware_concurrency | _ => threads end in
  mkPool 0 false None (replicate (Nat.min requested count) Idle) s.

Definition joined (p : Pool) : Prop := Forall (fun l => l = Joined) (lanes p).

(** What [parallelIndexed] returns or rethrows once the lanes have joined. *)
Definition answer (p : Pool) : result bool :=
  match error p with Some e => Throw e | None => Ok (negb (stop p)) end.

(** ** Every index is claimed once, in order *)

Lemma lane_step_next count body c p : (next p <= next (lane_step count body c p) <= next p + 1)%nat.
Proof.
  unfold lane_step. destruct (lanes p !! lane c) as [[|l|]|]; cbn; try lia.
  - destruct (_ && _); [cbn; lia|]. destruct (decide _); [cbn; lia|].
    destruct (begin _ _ _ _) as [s [l|[]|e]]; cbn; lia.
  - destruct (resume _ _ _) as [s [l'|[]|e]]; cbn; lia.
Qed.

Lemma lane_step_lanes count body c p : length (lanes (lane_step count body c p)) = length (lanes p).
Proof.
  unfold lane_step. destruct (lanes p !! lane c) as [[|l|]|]; try done.
  - destruct (_ && _); [by cbn; rewrite length_insert|]. destruct (decide _); [by cbn; rewrite length_insert|].
    destruct (begin _ _ _ _) as [s [l|[]|e]]; by cbn; rewrite length_insert.
  - destruct (resume _ _ _) as [s [l'|[]|e]]; by cbn; rewrite length_insert.
Qed.

(** An exception is kept and stops the pool. *)
Lemma lane_step_error count body c p :
  (is_Some (error p) -> stop p = true) -> is_Some (error (lane_step count body c p)) -> stop (lane_step count body c p) = true.
Proof.
  intros Hp. unfold lane_step. destruct (lanes p !! lane c) as [[|l|]|]; try done.
  - destruct (_ && _); [done|]. destruct (decide _); [done|].
    destruct (begin _ _ _ _) as [s [l|[]|e]]; cbn; auto.
  - destruct (resume _ _ _) as [s [l'|[]|e]]; cbn; auto.
Qed.

Lemma run_error count body schedule p :
  (is_Some (error p) -> stop p = true) -> is_Some (error (run count body schedule p)) -> stop (run count body schedule p) = true.
Proof.
  revert p. induction schedule as [|c cs IH]; intros p Hp; [exact Hp|]. apply IH. by apply lane_step_error.
Qed.

Lemma lane_step_stop count body c p : stop (lane_step count body c p) = false -> stop p = false.
Proof.
  unfold lane_step. destruct (lanes p !! lane c) as [[|l|]|]; try done.
  - destruct (_ && _); [done|]. destruct (decide _); [done|].
    destruct (begin _ _ _ _) as [s [l|[]|e]]; cbn; done.
  - destruct (resume _ _ _) as [s [l'|[]|e]]; cbn; done.
Qed.

(** *** A way to prove what a pool does

    An invariant of the shared state and the running bodies, in terms of the
    indices whose bodies did not ask to stop, kept by every move of a body that
    does not throw; [Raises] says what a body may throw while it holds. *)
Definition running (l : Lane) : option L := match l with Running x => Some x | _ => None end.
Definition bodies (p : Pool) : list L := omap running (lanes p).
Definition claimed (count : nat) (p : Pool) : nat := Nat.min (next p) count.

Context (count : nat) (body : Body) (Inv : list nat -> list L -> S -> Prop) (Raises : exn -> Prop).
Hypothesis Inv_perm : forall n l l' s, l ≡ₚ l' -> Inv n l s -> Inv n l' s.
Hypothesis Inv_begin : forall done n poll l s s' o,
  (n < count)%nat -> done `sublist_of` seq 0 n -> Inv done l s -> begin body n poll s = (s', o) ->
  match o with
  | Continue x => Inv (done ++ [n]) (x :: l) s'
  | Return true => Inv (done ++ [n]) l s'
  | Return false => Inv done l s'
  | Raise e => Raises e
  end.
Hypothesis Inv_resume : forall done x l s s' o, Inv done (x :: l) s -> resume body x s = (s', o) ->
  match o with Continue x' => Inv done (x' :: l) s' | Return _ => Inv done l s' | Raise e => Raises e end.

(** [done] with [n] claimed: a part of the claimed indices, all of them while
    the pool has not been stopped. *)
Definition part_of (n : nat) (stopped : bool) (done : list nat) : Prop :=
  done `sublist_of` seq 0 n /\ (stopped = false -> done = seq 0 n).

Definition good (p : Pool) : Prop :=
  (is_Some (error p) -> stop p = true)
  /\ match error p with
     | Some e => Raises e
     | None => exists done, Inv done (bodies p) (shared p) /\ part_of (claimed count p) (stop p) done
     end
  /\ (stop p = false -> Exists (fun l => l = Joined) (lanes p) -> (count <= next p)%nat).

Lemma bodies_insert k p old :
  lanes p !! k = Some old ->
  exists rest, bodies p ≡ₚ match running old with Some x => x :: rest | None => rest end
  /\ (forall l, omap running (<[k := Running l]> (lanes p)) ≡ₚ l :: rest)
  /\ (forall l', running l' = None -> omap running (<[k := l']> (lanes p)) ≡ₚ rest).
Proof.
  intros Hk. apply list_elem_of_split_length in Hk as (a & b & Heq & Hlen). unfold bodies. rewrite Heq.
  exists (omap running a ++ omap running b). subst k.
  assert (Hins : forall x, <[length a := x]> (a ++ old :: b) = a ++ x :: b).
  { intros x. by rewrite insert_app_r_alt, Nat.sub_diag by lia. }
  split_and!.
  - rewrite omap_app. cbn. destruct (running old); [by rewrite Permutation_middle|done].
  - intros l. rewrite Hins, omap_app. cbn. by rewrite Permutation_middle.
  - intros l' Hl'. rewrite Hins, omap_app. cbn. by rewrite Hl'.
Qed.

Lemma exists_insert (k : nat) (x : Lane) (l : list Lane) :
  x <> Joined -> Exists (fun y => y = Joined) (<[k := x]> l) -> Exists (fun y => y = Joined) l.
Proof.
  rewrite !Exists_exists. intros Hx (y & Hy & ->). exists Joined. split; [|done].
  apply list_elem_of_lookup in Hy as [i Hi]. apply list_elem_of_lookup. exists i.
  destruct (decide (i = k)) as [->|Hne]; [|by rewrite list_lookup_insert_ne in Hi].
  destruct (decide (k < length l)%nat); [|by rewrite list_insert_ge in Hi by lia].
  rewrite list_lookup_insert_eq in Hi by done. congruence.
Qed.

Lemma part_of_snoc n stopped done : part_of n stopped done -> part_of (n + 1) stopped (done ++ [n]).
Proof.
  intros [Hs Hd]. unfold part_of. rewrite seq_app. cbn. split; [by apply sublist_app|].
  intros Hst. by rewrite Hd.
Qed.

Lemma part_of_skip n stopped done : part_of n stopped done -> part_of (n + 1) true done.
Proof. intros [Hs Hd]. unfold part_of. rewrite seq_app. split; [by apply sublist_inserts_r|done]. Qed.

(** What a move does to the pool when a body has just moved: [rest] are the
    other running bodies. *)
Lemma settle_good k o s rest p :
  (is_Some (error p) -> stop p = true) ->
  (stop p = false -> Exists (fun l => l = Joined) (lanes p) -> (count <= next p)%nat) ->
  (forall l, omap running (<[k := Running l]> (lanes p)) ≡ₚ l :: rest) ->
  (forall l', running l' = None -> omap running (<[k := l']> (lanes p)) ≡ₚ rest) ->
  match error p with
  | Some e => Raises e
  | None => match o with
      | Continue x => exists done, Inv done (x :: rest) s /\ part_of (claimed count p) (stop p) done
      | Return true => exists done, Inv done rest s /\ part_of (claimed count p) (stop p) done
      | Return false => exists done, Inv done rest s /\ part_of (claimed count p) true done
      | Raise e => Raises e
      end
  end ->
  good (settle k o s p).
Proof.
  intros Herr Hj Hrun Hidle Hinv. destruct o as [x|[]|e]; cbn [settle]; (split; [cbn; done|]); split.
  - cbn [error]. destruct (error p); [done|]. destruct Hinv as (d & Hi & Hd). exists d. split; [|exact Hd].
    eapply Inv_perm; [symmetry; apply Hrun|exact Hi].
  - intros Hs He. apply Hj; [done|]. by apply (exists_insert k (Running x)).
  - cbn [error]. destruct (error p); [done|]. destruct Hinv as (d & Hi & Hd). exists d. split; [|exact Hd].
    eapply Inv_perm; [symmetry; by apply Hidle|exact Hi].
  - intros Hs He. apply Hj; [done|]. by apply (exists_insert k Idle).
  - cbn [error]. destruct (error p); [done|]. destruct Hinv as (d & Hi & Hd). exists d. split; [|exact Hd].
    eapply Inv_perm; [symmetry; by apply Hidle|exact Hi].
  - done.
  - cbn [error]. by destruct (error p).
  - done.
Qed.

Lemma join_good k rest p :
  (forall l', running l' = None -> omap running (<[k := l']> (lanes p)) ≡ₚ rest) -> bodies p ≡ₚ rest ->
  (stop p = false -> (count <= next p)%nat) -> good p -> good (join k p).
Proof.
  intros Hidle Hb Hc (Herr & Hinv & Hj). split; [exact Herr|]. split; [|intros Hs _; by apply Hc].
  cbn [join error]. destruct (error p); [done|]. destruct Hinv as (d & Hi & Hd). exists d. split; [|exact Hd].
  eapply Inv_perm; [|exact Hi]. rewrite Hb. symmetry. by apply Hidle.
Qed.

Lemma claim_good p : (count <= next p)%nat -> good p -> good (claim p).
Proof.
  intros Hge (Herr & Hinv & Hj). split; [exact Herr|]. split; [|intros _ _; cbn; lia].
  cbn [claim error]. destruct (error p); [done|]. destruct Hinv as (d & Hi & Hd). exists d. split; [exact Hi|].
  unfold claimed in *. cbn [claim next stop]. by rewrite Nat.min_r in * by lia.
Qed.

Lemma lane_step_good c p : good p -> good (lane_step count body c p).
Proof.
  intros Hgood. pose proof Hgood as (Herr & Hinv & Hj). unfold lane_step.
  destruct (lanes p !! lane c) as [[|l|]|] eqn:Hk; try done;
    destruct (bodies_insert _ p _ Hk) as (rest & Hb & Hrun & Hidle); cbn [running] in Hb.
  - destruct (stop p && sees_stop c) eqn:Hstop.
    { apply andb_true_iff in Hstop as [Hstop _]. apply (join_good _ rest); [done..| |done]. congruence. }
    destruct (decide (count <= next p)%nat) as [Hge|Hlt].
    { apply (join_good _ rest); [done..| |by apply claim_good]. cbn. lia. }
    destruct (begin body (next p) (polled c) (shared (claim p))) as [s o] eqn:Hbegin. cbn [claim shared] in Hbegin.
    apply (settle_good _ _ _ rest); cbn [claim stop error next lanes]; try done.
    { intros Hs He. specialize (Hj Hs He). lia. }
    destruct (error p) as [e|]; [done|]. destruct Hinv as (d & Hi & Hd).
    unfold claimed in *. cbn [claim next]. rewrite Nat.min_l in * by lia.
    pose proof (Inv_begin d (next p) (polled c) rest _ _ _ ltac:(lia) (proj1 Hd) (Inv_perm _ _ _ _ Hb Hi) Hbegin) as Hnext.
    destruct o as [x|[]|e]; [exists (d ++ [next p])..|exists d|done].
    + split; [done|by apply part_of_snoc].
    + split; [done|by apply part_of_snoc].
    + split; [done|by eapply part_of_skip].
  - destruct (resume body l (shared p)) as [s o] eqn:Hres. apply (settle_good _ _ _ rest); try done.
    destruct (error p) as [e|]; [done|]. destruct Hinv as (d & Hi & Hd).
    pose proof (Inv_resume d l rest _ _ _ (Inv_perm _ _ _ _ Hb Hi) Hres) as Hnext.
    destruct o as [x|[]|e]; [by exists d..| |done]. exists d. split; [done|]. destruct Hd as [Hd _]. by split.
Qed.

Lemma run_good schedule p : good p -> good (run count body schedule p).
Proof.
  revert p. induction schedule as [|c cs IH]; intros p Hp; [done|]. apply IH. by apply lane_step_good.
Qed.

Lemma joined_no_bodies p : joined p -> bodies p = [].
Proof.
  unfold joined, bodies. induction 1 as [|l ls -> Hl IH]; [done|]. exact IH.
Qed.

Lemma start_good hardware threads s : Inv [] [] s -> good (start hardware count threads s).
Proof.
  intros H0. split; [cbn; by intros [? ?]|]. split; [cbn [error start]|].
  - exists []. split; [|split; [apply sublist_nil_l|done]].
    assert (Hb : bodies (start hardware count threads s) = []); [|by rewrite Hb].
    unfold bodies, start. cbn [lanes].
    generalize (Nat.min (match threads with O => defaultWorkerCount hardware | _ => threads end) count).
    intros n. induction n as [|n IH]; [done|]. exact IH.
  - intros _ He. apply Exists_exists in He as (x & Hx & ->). apply elem_of_replicate in Hx as [? _]. done.
Qed.

Lemma run_lanes hardware threads s schedule :
  length (lanes (run count body schedule (start hardware count threads s)))
    = Nat.min (match threads with O => defaultWorkerCount hardware | _ => threads end) count.
Proof.
  unfold run. rewrite <- (length_replicate (Nat.min _ count) Idle).
  change (replicate _ Idle) with (lanes (start hardware count threads s)).
  generalize (start hardware count threads s). clear. induction schedule as [|c cs IH]; intros p; [done|].
  cbn [foldl]. rewrite IH. apply lane_step_lanes.
Qed.

(** A pool that joins has either thrown, or it holds the invariant for a part
    of the indices, all of them when it answers that every index ran. *)
Lemma run_all hardware threads s schedule :
  Inv [] [] s ->
  let p := run count body schedule (start hardware count threads s) in
  joined p ->
  match answer p with
  | Throw e => Raises e
  | Ok ran => exists done, Inv done [] (shared p) /\ done `sublist_of` seq 0 count
      /\ (ran = true -> done = seq 0 count /\ claimed count p = count)
  end.
Proof.
  intros H0 p Hjoin.
  destruct (run_good schedule _ (start_good hardware threads s H0)) as (_ & Hinv & Hj). fold p in Hinv, Hj.
  unfold answer. destruct (error p) as [e|]; [done|]. destruct Hinv as (d & Hi & Hsub & Hall).
  rewrite (joined_no_bodies p Hjoin) in Hi. exists d. split; [done|]. split.
  - etrans; [exact Hsub|]. unfold claimed. replace count with (Nat.min (next p) count + (count - Nat.min (next p) count))%nat at 2 by lia.
    rewrite seq_app. apply sublist_inserts_r. done.
  - intros Hran. assert (Hs : stop p = false) by (destruct (stop p); done). rewrite (Hall Hs).
    enough (claimed count p = count) as -> by done.
    unfold claimed. destruct (decide (count = 0)%nat) as [->|Hne]; [lia|].
    apply Nat.min_r, Hj; [done|]. pose proof (run_lanes hardware threads s schedule) as Hlanes. fold p in Hlanes.
    destruct (lanes p) as [|l ls] eqn:Hl.
    + cbn in Hlanes. unfold defaultWorkerCount in Hlanes. destruct threads; lia.
    + constructor. unfold joined in Hjoin. rewrite Hl in Hjoin. by apply Forall_cons in Hjoin as [-> _].
Qed.
End pool.

(** ** The pool ends *)

Section termination.
Context {Sh L : Type} (count : nat) (body : @Body Sh L) (cost : nat -> nat) (mu : L -> nat).
Hypothesis cost_positive : forall n, (0 < cost n)%nat.
Hypothesis begin_cost : forall n poll s s' l, begin body n poll s = (s', Continue l) -> (mu l + 1 < cost n)%nat.
Hypothesis resume_cost : forall l s s' l', resume body l s = (s', Continue l') -> (mu l' < mu l)%nat.

Definition weight (l : @Lane L) : nat := match l with Idle => 1 | Running l => mu l + 2 | Joined => 0 end.
Definition measure (p : @Pool Sh L) : nat :=
  list_sum (cost <$> seq (next p) (count - next p)) + list_sum (weight <$> lanes p).

(** The schedule only moves lanes that have not joined. *)
Fixpoint live (schedule : list Choice) (p : Pool) : Prop :=
  match schedule with
  | [] => True
  | c :: schedule => (exists l, lanes p !! lane c = Some l /\ l <> Joined) /\ live schedule (lane_step count body c p)
  end.

Lemma weight_insert k l old ls : ls !! k = Some old ->
  (list_sum (weight <$> <[k := l]> ls) + weight old = list_sum (weight <$> ls) + weight l)%nat.
Proof.
  intros Hk. apply list_elem_of_split_length in Hk as (a & b & -> & ->).
  rewrite insert_app_r_alt, Nat.sub_diag by lia. cbn [insert list_insert].
  rewrite !fmap_app, !fmap_cons, !list_sum_app. change (list_sum (?x :: ?y)) with (x + list_sum y)%nat. cbn. lia.
Qed.

Lemma claims_cost n : (n < count)%nat ->
  list_sum (cost <$> seq n (count - n)) = (cost n + list_sum (cost <$> seq (n + 1) (count - (n + 1))))%nat.
Proof.
  intros Hn. replace (count - n)%nat with (S (count - (n + 1)))%nat by lia. rewrite Nat.add_1_r. done.
Qed.

Definition outcome_weight (o : @Outcome L) : nat := match o with Continue l => mu l + 2 | Return _ => 1 | Raise _ => 0 end.

Lemma settle_measure k o s p old :
  lanes p !! k = Some old -> (measure (settle k o s p) + weight old = measure p + outcome_weight o)%nat.
Proof.
  intros Hk. unfold measure, outcome_weight. destruct o as [l|[]|e]; cbn [settle next lanes].
  - pose proof (weight_insert k (Running l) old _ Hk) as H. cbn [weight] in H. lia.
  - pose proof (weight_insert k Idle old _ Hk) as H. cbn [weight] in H. lia.
  - pose proof (weight_insert k Idle old _ Hk) as H. cbn [weight] in H. lia.
  - pose proof (weight_insert k Joined old _ Hk) as H. cbn [weight] in H. lia.
Qed.

Lemma join_measure k p old :
  lanes p !! k = Some old -> (measure (join k p) + weight old = measure p)%nat.
Proof.
  intros Hk. unfold measure. cbn [join next lanes]. pose proof (weight_insert k Joined old _ Hk) as H.
  cbn [weight] in H. lia.
Qed.

Lemma lane_step_measure c p l :
  lanes p !! lane c = Some l -> l <> Joined -> (measure (lane_step count body c p) < measure p)%nat.
Proof.
  intros Hk Hl. unfold lane_step. rewrite Hk. destruct l as [|l|]; [| |done].
  - destruct (stop p && sees_stop c).
    { pose proof (join_measure (lane c) p Idle Hk) as H. cbn [weight] in H. lia. }
    assert (Hclaim : lanes (claim p) !! lane c = Some Idle) by done.
    destruct (decide (count <= next p)%nat) as [Hge|Hlt].
    { pose proof (join_measure (lane c) (claim p) Idle Hclaim) as H. cbn [weight] in H.
      assert (Hm : measure (claim p) = measure p).
      { unfold measure, claim. cbn [next lanes]. by replace (count - next p)%nat with 0%nat by lia;
          replace (count - (next p + 1))%nat with 0%nat by lia. }
      lia. }
    assert (Hm : measure p = (cost (next p) + measure (claim p))%nat).
    { unfold measure, claim. cbn [next lanes]. rewrite claims_cost by lia. lia. }
    destruct (begin body (next p) (polled c) (shared (claim p))) as [s o] eqn:Hb.
    pose proof (settle_measure (lane c) o s (claim p) Idle Hclaim) as H. cbn [weight] in H.
    pose proof (cost_positive (next p)). destruct o as [x|b|e]; cbn [outcome_weight] in H; [|lia|lia].
    apply begin_cost in Hb. lia.
  - destruct (resume body l (shared p)) as [s o] eqn:Hr.
    pose proof (settle_measure (lane c) o s p (Running l) Hk) as H. cbn [weight] in H.
    destruct o as [x|b|e]; cbn [outcome_weight] in H; [|lia|lia]. apply resume_cost in Hr. lia.
Qed.

(** Every schedule that keeps moving is bounded, and as long as some lane has
    not joined there is a move. *)
Lemma live_bounded schedule p :
  live schedule p -> (length schedule + measure (run count body schedule p) <= measure p)%nat.
Proof.
  revert p. induction schedule as [|c cs IH]; intros p; [cbn; lia|]. cbn [live run foldl length].
  intros [(l & Hk & Hl) Hlive]. pose proof (lane_step_measure c p l Hk Hl). specialize (IH _ Hlive). unfold run in IH. lia.
Qed.

Lemma live_or_joined (p : @Pool Sh L) : joined p \/ exists k l, lanes p !! k = Some l /\ l <> Joined.
Proof.
  unfold joined. induction (lanes p) as [|l ls [IH|(k & x & Hk & Hx)]].
  - left. constructor.
  - destruct l; [right; by exists 0%nat, Idle|right; by exists 0%nat, (Running l)|left; by constructor].
  - right. by exists (Datatypes.S k), x.
Qed.

Lemma run_joins p sees polls : exists schedule,
  live schedule p /\ joined (run count body schedule p)
  /\ Forall (fun c => sees_stop c = sees /\ polled c = polls) schedule.
Proof.
  remember (measure p) as m eqn:Hm. assert (Hle : (measure p <= m)%nat) by lia. clear Hm.
  revert p Hle. induction m as [|m IH]; intros p Hle; (destruct (live_or_joined p) as [Hj|(k & l & Hk & Hl)];
    [exists []; split_and!; [done|done|constructor]|]).
  - pose proof (lane_step_measure (mkChoice k sees polls) p l Hk Hl). lia.
  - pose proof (lane_step_measure (mkChoice k sees polls) p l Hk Hl) as Hlt.
    destruct (IH (lane_step count body (mkChoice k sees polls) p) ltac:(lia)) as (cs & Hlive & Hjoin & Hall).
    exists (mkChoice k sees polls :: cs). split_and!; [split; [by exists l|done]|done|by constructor].
Qed.
End termination.

Lemma sublist_snoc_seq count done n : (n < count)%nat -> done `sublist_of` seq 0 n -> done ++ [n] `sublist_of` seq 0 count.
Proof.
  intros Hn Hd. replace count with (n + (1 + (count - n - 1)))%nat by lia. rewrite !seq_app.
  apply sublist_app; [done|]. cbn. apply sublist_skip, sublist_nil_l.
Qed.

(** ** A pool that is not stopped *)

Section unstopped.
Context {Sh L : Type} (count : nat) (body : @Body Sh L).
Hypothesis begin_runs : forall n s, snd (begin body n false s) <> Return false.
Hypothesis resume_runs : forall l s, snd (resume body l s) <> Return false.

Lemma settle_unstopped k o s (p : @Pool Sh L) :
  o <> Return false -> (stop p = true -> is_Some (error p)) ->
  stop (settle k o s p) = true -> is_Some (error (settle k o s p)).
Proof. intros Ho Hp. destruct o as [l|[]|e]; cbn; try done. intros _. by destruct (error p). Qed.

Lemma lane_step_unstopped c p :
  polled c = false -> (stop p = true -> is_Some (error p)) ->
  stop (lane_step count body c p) = true -> is_Some (error (lane_step count body c p)).
Proof.
  intros Hc Hp. unfold lane_step. rewrite Hc. destruct (lanes p !! lane c) as [[|l|]|]; try done.
  - destruct (_ && _); [done|]. destruct (decide _); [done|].
    pose proof (begin_runs (next p) (shared (claim p))) as Ho. destruct (begin _ _ _ _) as [s o].
    by apply settle_unstopped.
  - pose proof (resume_runs l (shared p)) as Ho. destruct (resume _ _ _) as [s o]. by apply settle_unstopped.
Qed.

(** Bodies that are not asked to stop, and do not ask themselves, either throw
    or all run. *)
Lemma run_unstopped schedule hardware threads s :
  Forall (fun c => polled c = false) schedule ->
  answer (run count body schedule (start hardware count threads s)) <> Ok false.
Proof.
  intros Hall. assert (H : forall p, (stop p = true -> is_Some (error p)) ->
    stop (run count body schedule p) = true -> is_Some (error (run count body schedule p))).
  { induction Hall as [|c cs Hc Hcs IH]; intros p Hp; [exact Hp|]. apply IH. by apply lane_step_unstopped. }
  specialize (H (start hardware count threads s) ltac:(done)). unfold answer.
  destruct (error _); [done|]. destruct (stop _); [|done]. destruct (H eq_refl). done.
Qed.
End unstopped.

(** ** Theorems *)

Section theorems.
Context {Sh L : Type}.

(** The body with a log of the indices it was started on. *)
Definition logged (body : @Body Sh L) : @Body (Sh * list nat) L :=
  mkBody
    (fun n poll s => let '(s', o) := begin body n poll (fst s) in ((s', snd s ++ [n]), o))
    (fun l s => let '(s', o) := resume body l (fst s) in ((s', snd s), o)).

Lemma settle_shared k o s (p : @Pool (Sh * list nat) L) : shared (settle k o s p) = s /\ next (settle k o s p) = next p.
Proof. by destruct o as [l|[]|e]. Qed.

Lemma logged_step count body c p :
  snd (shared p) = seq 0 (claimed count p) ->
  snd (shared (lane_step count (logged body) c p)) = seq 0 (claimed count (lane_step count (logged body) c p)).
Proof.
  intros H. unfold lane_step. destruct (lanes p !! lane c) as [[|l|]|]; try done.
  - destruct (_ && _); [done|]. destruct (decide _) as [Hge|Hlt].
    + cbn. rewrite H. unfold claimed. cbn. f_equal. lia.
    + cbn [begin logged claim shared]. destruct (begin body _ _ _) as [s o]. unfold claimed.
      destruct (settle_shared (lane c) o (s, snd (shared p) ++ [next p]) (claim p)) as [Hs Hn].
      unfold claim in *. rewrite Hs, Hn. cbn [snd next]. rewrite H. unfold claimed.
      rewrite Nat.min_l, Nat.min_l by lia. by rewrite seq_app.
  - cbn [resume logged]. destruct (resume body _ _) as [s o]. unfold claimed.
    destruct (settle_shared (lane c) o (s, snd (shared p)) p) as [Hs Hn]. rewrite Hs, Hn. cbn [snd]. exact H.
Qed.

Lemma logged_run count body schedule p :
  snd (shared p) = seq 0 (claimed count p) ->
  snd (shared (run count (logged body) schedule p)) = seq 0 (claimed count (run count (logged body) schedule p)).
Proof.
  revert p. induction schedule as [|c cs IH]; intros p H; [done|]. apply IH. by apply logged_step.
Qed.
End theorems.

(** [parallelIndexed] starts the body on the indices in order, each at most
    once, whatever the interleaving of its lanes, and when it answers that
    every index ran, all of them did, and no body is still running; an
    exception of a body is rethrown unless another was first. *)
Theorem parallelIndexed_runs_each_index_once {Sh L : Type} (body : @Body Sh L) (hardware count threads : nat)
    (s : Sh) (schedule : list Choice) :
  let p := run count (logged body) schedule (start hardware count threads (s, [])) in
  joined p ->
  exists m, (m <= count)%nat /\ snd (shared p) = seq 0 m
    /\ match answer p with
       | Ok true => m = count /\ bodies p = []
       | Ok false => stop p = true
       | Throw e => error p = Some e /\ stop p = true
       end.
Proof.
  intros p Hjoin. exists (claimed count p). split; [unfold claimed; lia|].
  assert (Hlog : snd (shared p) = seq 0 (claimed count p)) by (by apply logged_run).
  split; [exact Hlog|].
  assert (Hall : answer p = Ok true -> claimed count p = count).
  { intros Ha. pose proof (run_all count (logged body) (fun _ _ _ => True) (fun _ => True) ltac:(auto)
      ltac:(intros ? ? ? ? ? ? o ? ? ? ?; by destruct o as [?|[]|?]) ltac:(intros ? ? ? ? ? o ? ?; by destruct o as [?|[]|?])
      hardware threads (s, []) schedule I Hjoin) as H. fold p in H. rewrite Ha in H.
    destruct H as (d & _ & _ & H). by apply H. }
  assert (Herr : is_Some (error p) -> stop p = true) by (by apply run_error; intros [? ?]).
  unfold answer in *. destruct (error p) as [e|]; [eauto|]. destruct (stop p); cbn in *; [done|].
  split; [by apply Hall|by apply joined_no_bodies].
Qed.

(** The pool ends: with any bodies that take boundedly many moves, every
    schedule that keeps moving lanes is bounded, and one that joins them exists
    from any point of any run. *)
Theorem parallelIndexed_terminates {Sh L : Type} (body : @Body Sh L) (cost : nat -> nat) (mu : L -> nat)
    (hardware count threads : nat) (s : Sh)
    (Hpos : forall n, (0 < cost n)%nat)
    (Hbegin : forall n poll s s' l, begin body n poll s = (s', Continue l) -> (mu l + 1 < cost n)%nat)
    (Hresume : forall l s s' l', resume body l s = (s', Continue l') -> (mu l' < mu l)%nat) :
  let p := start hardware count threads s in
  (forall schedule, live count body schedule p -> (length schedule <= measure count cost mu p)%nat)
  /\ (forall before, exists after, joined (run count body (before ++ after) p)).
Proof.
  intros p. split.
  - intros schedule Hlive. pose proof (live_bounded count body cost mu Hpos Hbegin Hresume schedule p Hlive). lia.
  - intros before. destruct (run_joins count body cost mu Hpos Hbegin Hresume (run count body before p) true false)
      as (after & _ & Hj & _). exists after. unfold run in *. by rewrite foldl_app.
Qed.

(** *** Witnesses *)

Module Example_pool.
(** Each body takes two moves and adds its index to a sum; index 3 asks to stop. *)
Definition body : @Body nat nat := mkBody
  (fun n _ s => (s, Continue n)) (fun n s => ((s + n)%nat, Return (negb (n =? 3)%nat))).
Definition schedule : list Choice := (fun k => mkChoice (k mod 2) true false) <$> seq 0 20.
End Example_pool.

Lemma parallelIndexed_runs_each_index_once_witness :
  let p := run 3 (logged Example_pool.body) Example_pool.schedule (start 1 3 2 (0%nat, [])) in
  snd (shared p) = [0; 1; 2]%nat /\ fst (shared p) = 3%nat /\ answer p = Ok true.
Proof.
  destruct (parallelIndexed_runs_each_index_once Example_pool.body 1 3 2 0%nat Example_pool.schedule)
    as (m & Hm & Hlog & Hans); [unfold joined; vm_compute; repeat constructor|].
  split; [|split; vm_compute; reflexivity]. vm_compute in Hans |- *. reflexivity.
Defined.

Lemma parallelIndexed_terminates_witness :
  exists after, joined (run 3 Example_pool.body ([mkChoice 1 true false] ++ after) (start 1 3 2 0%nat)).
Proof.
  refine (proj2 (parallelIndexed_terminates Example_pool.body (fun _ => 2%nat) (fun _ => 0%nat) 1 3 2 0%nat _ _ _) _).
  - intros n. lia.
  - intros n poll s s' l _. lia.
  - intros l s s' l' H. discriminate H.
Defined.
