(* ===== verification/PtrCollapse.v ===== *)
(** * Collapsing every bucket into chunks: [FlattenCollapse.cpp]

    [collapseBuckets] in the Hydrus importer's [ptr-core]: workers of the pool
    collapse buckets and append the records to one shared batch; whoever fills
    the batch seals it into a chunk file with no lock held, so batches are
    being written while others fill.  The body of the pool is a state machine
    whose pauses are the points where another worker can come in between. *)
From S2P Require Import Prelude StringView Bytes PtrEvents PtrChunk PtrPool.
From Stdlib Require Import Ascii.
From Stdlib Require String.

(** ** Data *)

Record ChunkEntry := mkEntry { file : string; entry_records : Z; entry_mappings : Z }.

Record FlattenStats := mkFlattenStats {
  stats_events_scanned : Z;
  stats_mappings_after_collapse : Z;
  stats_events_collapsed : Z;
  stats_terminal_deletes : Z;
  stats_terminal_delete_records : Z;
  stats_skipped_files : Z;
  stats_skipped_missing_definitions : Z;
  stats_defined_tags : Z;
  stats_used_tags : Z
}.

Record CollapseResult := mkCollapseResult { chunks : list ChunkEntry; stats : FlattenStats; result_cancelled : bool }.

Record Batch := mkBatch { name : string; batch_records : list CollapsedRecord }.

(** [ChunkSink]'s members that change. *)
Record ChunkSink := mkSink {
  m_pending : list CollapsedRecord;
  m_next_index : nat;
  m_entries : list ChunkEntry;
  m_missing_definitions : Z
}.

(** The atomics of [collapseBuckets]. *)
Record Counters := mkCounters {
  records_flattened : Z;
  count_events_scanned : Z;
  count_mappings_after_collapse : Z;
  count_terminal_deletes : Z;
  count_terminal_delete_records : Z;
  buckets_done : Z
}.

(** Everything the workers share. *)
Record Shared := mkShared {
  sink : ChunkSink;
  counters : Counters;
  tag_usage : TagUsageSet;
  out_files : gmap string (list Z)
}.

(** A worker between two critical sections: appending the rest of a bucket's
    records, or sealing a batch with no lock held. *)
Inductive Work := Adding (rest : list CollapsedRecord) | Sealing (batch : Batch) (rest : list CollapsedRecord).

Definition chunk_name (index : nat) : string := "chunk-" +:+ pad_zeros 5 (to_string (Z.of_nat index)) +:+ ".idhanptr".

Definition takeBatch (s : ChunkSink) : Batch * ChunkSink :=
  (mkBatch (chunk_name (m_next_index s)) (m_pending s),
   mkSink [] (m_next_index s + 1) (m_entries s) (m_missing_definitions s)).

Definition as_pending (r : CollapsedRecord) : PendingRecord := mkPending (sha256 r) (adds r) (dels r).

Definition file_le (a b : ChunkEntry) : Prop := String.ltb (file b) (file a) = false.
#[local] Instance file_le_dec a b : Decision (file_le a b).
Proof. unfold file_le. apply _. Defined.

(** ** The workers *)

Section collapse.
Context `{z : Zlib}.
Context (work : gmap string (list Z)) (definitions : Definitions) (discard : bool) (max_records : nat).

Definition m_cap : nat := match max_records with O => 1%nat | n => n end.
Definition lookup : TagLookup := def_tag definitions.

(** [ChunkSink::seal], up to the lock: the chunk is written. *)
Definition write_batch (b : Batch) (s : Shared) : Shared * result ChunkStats :=
  let writer := foldl (fun w r => addRecord (sha256 r) (adds r) (dels r) w) (ChunkWriter_make (name b)) (batch_records b) in
  let '(_, usage, files, r) := finish lookup (Some (tag_usage s)) writer (out_files s) in
  (mkShared (sink s) (counters s) (default (tag_usage s) usage) files, r).

(** ... and under it: the entry is recorded. *)
Definition record_batch (b : Batch) (st : ChunkStats) (s : Shared) : Shared :=
  mkShared
    (mkSink (m_pending (sink s)) (m_next_index (sink s))
       (m_entries (sink s) ++ [mkEntry (name b) (Z.of_nat (length (batch_records b))) (mappings st)])
       (m_missing_definitions (sink s) + missing_definitions st))
    (counters s) (tag_usage s) (out_files s).

Definition seal (b : Batch) (s : Shared) : Shared * option exn :=
  let '(s, r) := write_batch b s in
  match r with Ok st => (record_batch b st s, None) | Throw e => (s, Some e) end.

(** The counters after a bucket with events. *)
Definition count_bucket (r : BucketCollapseResult) (c : Counters) : Counters :=
  mkCounters (records_flattened c + Z.of_nat (length (records r))) (count_events_scanned c + events_scanned r)
    (count_mappings_after_collapse c + mappings_after_collapse r) (count_terminal_deletes c + terminal_deletes r)
    (count_terminal_delete_records c + terminal_delete_records r) (buckets_done c).

Definition bucket_done (s : Shared) : Shared :=
  let c := counters s in
  mkShared (sink s)
    (mkCounters (records_flattened c) (count_events_scanned c) (count_mappings_after_collapse c) (count_terminal_deletes c)
       (count_terminal_delete_records c) (buckets_done c + 1))
    (tag_usage s) (out_files s).

(** The start of the body: the poll, the bucket, the counters. *)
Definition begin_bucket (bucket : nat) (cancelled : bool) (s : Shared) : Shared * @Outcome Work :=
  if cancelled then (s, Return false)
  else match collapseOneBucket work (Z.of_nat bucket) definitions discard with
  | Throw e => (s, Raise e)
  | Ok collapsed =>
      if 0 <? events_scanned collapsed then
        (mkShared (sink s) (count_bucket collapsed (counters s)) (tag_usage s) (out_files s),
         Continue (Adding (records collapsed)))
      else (bucket_done s, Return true)
  end.

(** [ChunkSink::add] one record at a time, and what follows it. *)
Definition resume_bucket (w : Work) (s : Shared) : Shared * @Outcome Work :=
  match w with
  | Adding [] => (bucket_done s, Return true)
  | Adding (record :: rest) =>
      let k := sink s in
      let k := mkSink (m_pending k ++ [record]) (m_next_index k) (m_entries k) (m_missing_definitions k) in
      if (length (m_pending k) <? m_cap)%nat then
        (mkShared k (counters s) (tag_usage s) (out_files s), Continue (Adding rest))
      else
        let '(batch, k) := takeBatch k in
        (mkShared k (counters s) (tag_usage s) (out_files s), Continue (Sealing batch rest))
  | Sealing batch rest =>
      let '(s, e) := seal batch s in
      match e with None => (s, Continue (Adding rest)) | Some e => (s, Raise e) end
  end.

Definition collapse_body : @Body Shared Work := mkBody begin_bucket resume_bucket.

Definition close (s : Shared) : Shared * option exn :=
  match m_pending (sink s) with
  | [] => (s, None)
  | _ =>
      let '(batch, k) := takeBatch (sink s) in
      seal batch (mkShared k (counters s) (tag_usage s) (out_files s))
  end.

Definition initial (usage : TagUsageSet) (out : gmap string (list Z)) : Shared :=
  mkShared (mkSink [] 0 [] 0) (mkCounters 0 0 0 0 0 0) usage out.

Definition result_of (ran : bool) (s : Shared) : CollapseResult :=
  let c := counters s in
  mkCollapseResult (merge_sort file_le (m_entries (sink s)))
    (mkFlattenStats (count_events_scanned c) (count_mappings_after_collapse c)
       (wrapu 64 (count_events_scanned c - count_mappings_after_collapse c)) (count_terminal_deletes c)
       (count_terminal_delete_records c) 0 (m_missing_definitions (sink s)) 0 0)
    (negb ran).

(** [collapseBuckets], for the interleaving the schedule gives, once the pool
    has joined. *)
Definition collapseBuckets (hardware threads : nat) (schedule : list Choice) (usage : TagUsageSet)
    (out : gmap string (list Z)) : Shared * result CollapseResult :=
  let count := Z.to_nat BUCKET_COUNT in
  let p := run count collapse_body schedule (start hardware count threads (initial usage out)) in
  match answer p with
  | Throw e => (shared p, Throw e)
  | Ok ran =>
      let '(s, e) := close (shared p) in
      (s, match e with Some e => Throw e | None => Ok (result_of ran s) end)
  end.
End collapse.

(** ** What the records of a bucket hold *)

Lemma filter_groups_length {A} (key : A -> Z) (l : list Z) (xs : list A) :
  NoDup l -> (list_sum ((fun k => length (filter (fun x => key x = k) xs)) <$> l) <= length xs)%nat.
Proof.
  intros Hnd. induction xs as [|x xs IH]; [clear Hnd; by induction l|].
  enough (Hc : (list_sum ((fun k => length (filter (fun x => key x = k) (x :: xs))) <$> l)
    <= list_sum ((fun k => length (filter (fun x => key x = k) xs)) <$> l) + 1)%nat) by (cbn [length]; lia).
  clear IH. assert (Hsame : forall l', key x ∉ l' ->
    list_sum ((fun k => length (filter (fun x => key x = k) (x :: xs))) <$> l')
      = list_sum ((fun k => length (filter (fun x => key x = k) xs)) <$> l')).
  { intros l' Hn. f_equal. apply list_fmap_ext. intros i k Hk. rewrite filter_cons_False; [done|].
    intros Hx. apply Hn. rewrite Hx. by eapply list_elem_of_lookup_2. }
  induction Hnd as [|k l Hk Hnd IH]; [cbn; lia|]. rewrite !fmap_cons.
  change (list_sum (?a :: ?b)) with (a + list_sum b)%nat. destruct (decide (key x = k)) as [<-|Hne].
  - rewrite (Hsame l Hk). rewrite filter_cons_True by done. cbn [length]. lia.
  - rewrite filter_cons_False by done. lia.
Qed.

Section outcome.
Context (d : Definitions) (discard : bool) (evs : list MappingEvent).

Lemma outcome_record r :
  r ∈ records (CollapseSpec.outcome d discard evs) ->
  exists h sha, def_hash d h = Some sha /\ r = CollapseSpec.record_of discard evs (h, sha).
Proof.
  unfold CollapseSpec.outcome. cbn [records]. intros ((h & sha) & -> & Hf)%list_elem_of_fmap.
  unfold CollapseSpec.files_of in Hf. apply list_elem_of_omap in Hf as (h' & _ & Hf).
  destruct (def_hash d h') as [sha'|] eqn:Hd; [|done]. simplify_eq/=. eauto.
Qed.

Lemma outcome_ids r t :
  r ∈ records (CollapseSpec.outcome d discard evs) -> t ∈ adds r ++ dels r -> exists e, e ∈ evs /\ tag_id e = t.
Proof.
  intros (h & sha & _ & ->)%outcome_record Ht. cbn [CollapseSpec.record_of adds dels fst] in Ht.
  assert (Hin : t ∈ CollapseSpec.tags_of evs h).
  { apply elem_of_app in Ht as [Ht|Ht]; [|destruct discard; [by apply elem_of_nil in Ht|]];
      by apply list_elem_of_filter in Ht as [_ Ht]. }
  unfold CollapseSpec.tags_of in Hin. rewrite elem_of_sort_unique, list_elem_of_fmap in Hin.
  destruct Hin as (e & -> & [_ He]%list_elem_of_filter). eauto.
Qed.

Lemma filter_split_length {A} (f : A -> bool) (l : list A) :
  (length (filter (fun x => f x = false) l) + length (filter (fun x => f x = true) l) = length l)%nat.
Proof.
  induction l as [|x l IH]; [done|]. rewrite !filter_cons. destruct (f x); repeat case_decide; try done; cbn [length]; lia.
Qed.

Lemma record_ids_length f :
  (length (adds (CollapseSpec.record_of discard evs f) ++ dels (CollapseSpec.record_of discard evs f))
    <= length (filter (fun e => hash_id e = fst f) evs))%nat.
Proof.
  cbn [CollapseSpec.record_of adds dels]. rewrite length_app.
  assert (Hk : (length (CollapseSpec.kept_tags evs (fst f)) + length (CollapseSpec.deleted_tags evs (fst f))
    = length (CollapseSpec.tags_of evs (fst f)))%nat) by apply filter_split_length.
  assert (Ht : (length (CollapseSpec.tags_of evs (fst f)) <= length (filter (fun e => hash_id e = fst f) evs))%nat).
  { unfold CollapseSpec.tags_of. etrans; [apply EntrySpec.sort_unique_length|]. by rewrite length_fmap. }
  destruct discard; cbn [length]; lia.
Qed.

(** A bucket's records carry at most one operation per event. *)
Lemma outcome_ids_length :
  (length (concat ((fun r => adds r ++ dels r) <$> records (CollapseSpec.outcome d discard evs))) <= length evs)%nat.
Proof.
  etrans; [|apply (filter_groups_length hash_id (sort_unique (hash_id <$> evs)));
    apply (StronglySorted_strict_NoDup Z.lt), sort_unique_sorted].
  unfold CollapseSpec.outcome. cbn [records]. unfold CollapseSpec.files_of.
  induction (sort_unique (hash_id <$> evs)) as [|h hs IH]; [cbn; lia|].
  rewrite fmap_cons. change (list_sum (?a :: ?b)) with (a + list_sum b)%nat. cbn [omap list_omap].
  destruct (def_hash d h) as [sha|]; cbn [fmap option_fmap option_map]; [|lia].
  rewrite !fmap_cons. cbn [concat]. rewrite length_app. pose proof (record_ids_length (h, sha)) as Hr. cbn [fst] in Hr.
  by apply Nat.add_le_mono.
Qed.

Lemma outcome_no_events : evs = [] -> CollapseSpec.outcome d discard evs = BucketCollapseResult_default.
Proof. by intros ->. Qed.

Lemma outcome_scanned : events_scanned (CollapseSpec.outcome d discard evs) = Z.of_nat (length evs).
Proof. done. Qed.
End outcome.

(** ** Chunk names *)

Lemma pad_zeros_digits w s t : fst (read_digits 0 (pad_zeros w s +:+ t)) = fst (read_digits 0 (s +:+ t)).
Proof.
  unfold pad_zeros. induction (w - String.length s)%nat as [|n IH]; [done|]. cbn [String.append].
  rewrite <- IH. set (rest := _ +:+ t).
  change (read_digits 0 (String "0" rest)) with (let '(v, n) := read_digits 0 rest in (v, S n)).
  by destruct (read_digits 0 rest).
Qed.

(** The number in a chunk's name. *)
Definition chunk_number (s : string) : Z := fst (read_digits 0 (sdrop 6 s)).

Lemma chunk_number_of n : chunk_number (chunk_name n) = Z.of_nat n.
Proof.
  unfold chunk_number, chunk_name. change (sdrop 6 ("chunk-" +:+ ?t)) with t.
  rewrite pad_zeros_digits. by rewrite read_digits_to_string by (done || lia).
Qed.

Lemma chunk_name_inj n m : chunk_name n = chunk_name m -> n = m.
Proof. intros H. apply (f_equal chunk_number) in H. rewrite !chunk_number_of in H. lia. Qed.

(** ** The invariant of the workers *)

Definition batches_of (l : list Work) : list Batch := omap (fun w => match w with Sealing b _ => Some b | _ => None end) l.
Definition work_records (w : Work) : list CollapsedRecord :=
  match w with Adding rest => rest | Sealing b rest => batch_records b ++ rest end.

Section invariant.
Context `{z : Zlib} (Hz : ZlibLaws z).
Context (work : gmap string (list Z)) (definitions : Definitions) (discard : bool) (max_records : nat).
Context (evs : nat -> list MappingEvent).
Let count := Z.to_nat BUCKET_COUNT.
Let lookup := lookup definitions.

(** What the stage is given: readable buckets of well-formed events, 32-byte
    hashes, and no more than the counts of the chunk format can hold. *)
Record given : Prop := {
  given_buckets : forall b, (b < count)%nat ->
    readBucket work (bucketPath (Z.of_nat b)) = Ok (evs b) /\ Forall event_ok (evs b);
  given_hashes : forall h sha, def_hash definitions h = Some sha -> length sha = SHA256_BYTES /\ bytes_ok sha;
  given_texts : EntrySpec.texts_ok lookup;
  given_cap : Z.of_nat (m_cap max_records) <= uint32_max;
  given_events : Z.of_nat (list_sum ((fun b => length (evs b)) <$> seq 0 count)) <= uint32_max
}.
Context (Hgiven : given).

Definition out (b : nat) : BucketCollapseResult := CollapseSpec.outcome definitions discard (evs b).

Definition records_of (done : list nat) : list CollapsedRecord := concat ((fun b => records (out b)) <$> done).

Lemma collapse_out b : (b < count)%nat -> collapseOneBucket work (Z.of_nat b) definitions discard = Ok (out b).
Proof.
  intros Hb. destruct (given_buckets Hgiven b Hb) as [Hr Hok]. unfold collapseOneBucket. rewrite Hr.
  cbn [mbind result_bind]. by apply CollapseSpec.collapse_events_ok.
Qed.

Lemma elem_of_records_of r done : r ∈ records_of done <-> exists b, b ∈ done /\ r ∈ records (out b).
Proof.
  unfold records_of. rewrite list_elem_of_In, in_concat. split.
  - intros (l & Hl & Hr). apply list_elem_of_In in Hl, Hr. apply list_elem_of_fmap in Hl as (b & -> & Hb). eauto.
  - intros (b & Hb & Hr). exists (records (out b)). rewrite <- !list_elem_of_In. split; [by apply (list_elem_of_fmap_2 (fun b => records (out b)))|done].
Qed.

Definition ids_of_records (rs : list CollapsedRecord) : list Z := concat ((fun r => adds r ++ dels r) <$> rs).

Lemma ids_of_records_app a b : ids_of_records (a ++ b) = ids_of_records a ++ ids_of_records b.
Proof. unfold ids_of_records. by rewrite fmap_app, concat_app. Qed.

Lemma ids_length_perm a b : a ≡ₚ b -> length (ids_of_records a) = length (ids_of_records b).
Proof.
  induction 1 as [|r a b H IH|r1 r2 a|a b c H1 IH1 H2 IH2]; [done| | |congruence];
    unfold ids_of_records in *; rewrite !fmap_cons; cbn [concat]; rewrite !length_app; lia.
Qed.

Lemma records_of_ids done :
  (length (ids_of_records (records_of done)) <= list_sum ((fun b => length (evs b)) <$> done))%nat.
Proof.
  induction done as [|b done IH]; [done|]. unfold records_of in *. rewrite !fmap_cons. cbn [concat].
  rewrite ids_of_records_app, length_app. change (list_sum (?a :: ?b)) with (a + list_sum b)%nat.
  apply Nat.add_le_mono; [apply outcome_ids_length|exact IH].
Qed.

Lemma sublist_sum (f : nat -> nat) a b : a `sublist_of` b -> (list_sum (f <$> a) <= list_sum (f <$> b))%nat.
Proof.
  induction 1 as [|x a b H IH|x a b H IH]; [done| |]; rewrite ?fmap_cons;
    change (list_sum (?x :: ?y)) with (x + list_sum y)%nat; lia.
Qed.

(** Any at most [m_cap] of the records make a chunk the format can hold. *)
Lemma batch_fits done rs others :
  done `sublist_of` seq 0 count -> rs ++ others ≡ₚ records_of done -> (length rs <= m_cap max_records)%nat ->
  ChunkMeaning.fits lookup (as_pending <$> rs).
Proof.
  intros Hdone Hperm Hlen. split.
  - apply Forall_fmap, Forall_forall. intros r Hr.
    assert (Hin : r ∈ records_of done) by (rewrite <- Hperm; apply elem_of_app; by left).
    apply elem_of_records_of in Hin as (b & Hb & Hrb).
    assert (Hbc : (b < count)%nat) by (apply sublist_submseteq in Hdone; pose proof (elem_of_submseteq _ _ _ Hb Hdone) as Hs; apply elem_of_seq in Hs; lia).
    destruct (given_buckets Hgiven b Hbc) as [_ Hok]. rewrite Forall_forall in Hok.
    destruct (outcome_record _ _ _ _ Hrb) as (h & sha & Hd & Heq).
    destruct (given_hashes Hgiven h sha Hd) as [Hl Hbytes]. split; [by subst r|by subst r|].
    apply Forall_forall. intros t Ht. destruct (outcome_ids _ _ _ _ _ Hrb Ht) as (e & He & <-). by apply (Hok e He).
  - rewrite length_fmap. pose proof (given_cap Hgiven). lia.
  - assert (Hids : ChunkMeaning.all_ids (as_pending <$> rs) = ids_of_records rs).
    { unfold ChunkMeaning.all_ids, ids_of_records. by rewrite <- list_fmap_compose. }
    rewrite Hids. pose proof (ids_length_perm _ _ Hperm) as Hl. rewrite ids_of_records_app, length_app in Hl.
    pose proof (records_of_ids done). pose proof (sublist_sum (fun b => length (evs b)) _ _ Hdone).
    pose proof (given_events Hgiven). lia.
  - apply (given_texts Hgiven).
Qed.

(** *** Sealing *)

Definition zlib_failed : exn := runtime_error "zlib compress2 failed while writing a chunk".

(** The chunk of a sealed batch is on disk and says what the batch says. *)
Definition sealed_ok (files : gmap string (list Z)) (bs : Batch * ChunkStats) : Prop :=
  let rs := as_pending <$> batch_records (fst bs) in
  snd bs = ChunkMeaning.given_stats lookup rs /\
  exists chunk, readChunk files (name (fst bs)) = Ok chunk
    /\ ChunkMeaning.chunk_meaning chunk = Some (ChunkMeaning.given_meaning lookup <$> rs).

Lemma batch_writer path rs :
  foldl (fun w r => addRecord (sha256 r) (adds r) (dels r) w) (ChunkWriter_make path) rs = writer_of path (as_pending <$> rs).
Proof.
  unfold writer_of. generalize (ChunkWriter_make path). induction rs as [|r rs IH]; intros w; [done|].
  rewrite fmap_cons. cbn [foldl]. by rewrite IH.
Qed.

Lemma finish_other usage w fs q : q <> m_path w -> snd (fst (finish lookup usage w fs)) !! q = fs !! q.
Proof.
  intros Hq. unfold finish. destruct (m_finished w); [done|]. destruct (write_records _ _ _) as [body st].
  destruct (deflateBuffer _); cbn [fst snd m_path]; [by rewrite lookup_insert_ne|done].
Qed.

Lemma readChunk_same fs fs' q : fs !! q = fs' !! q -> readChunk fs q = readChunk fs' q.
Proof. intros H. unfold readChunk. by rewrite H. Qed.

Lemma seal_ok b s others done s' e :
  done `sublist_of` seq 0 count -> batch_records b ++ others ≡ₚ records_of done ->
  (length (batch_records b) <= m_cap max_records)%nat ->
  seal definitions b s = (s', e) ->
  (forall bs, name (fst bs) <> name b -> sealed_ok (out_files s) bs -> sealed_ok (out_files s') bs)
  /\ counters s' = counters s
  /\ match e with
     | Some e => e = zlib_failed
     | None => exists st, sealed_ok (out_files s') (b, st)
         /\ sink s' = mkSink (m_pending (sink s)) (m_next_index (sink s))
              (m_entries (sink s) ++ [mkEntry (name b) (Z.of_nat (length (batch_records b))) (mappings st)])
              (m_missing_definitions (sink s) + missing_definitions st)
     end.
Proof.
  intros Hdone Hperm Hlen Hseal. unfold seal, write_batch in Hseal. rewrite batch_writer in Hseal.
  pose proof (finish_reads_back z Hz lookup (Some (tag_usage s)) (name b) (as_pending <$> batch_records b) (out_files s)
    (batch_fits done _ others Hdone Hperm Hlen)) as Hfin.
  assert (Hother : forall q, q <> name b -> snd (fst (finish lookup (Some (tag_usage s))
    (writer_of (name b) (as_pending <$> batch_records b)) (out_files s))) !! q = out_files s !! q).
  { intros q Hq. apply finish_other. by rewrite writer_of_ok. }
  fold lookup in Hseal. destruct (finish _ _ _ _) as [[[w u] fs'] r] eqn:E. cbn [fst snd] in Hother.
  assert (Hkeep : forall bs, name (fst bs) <> name b -> sealed_ok (out_files s) bs -> sealed_ok fs' bs).
  { intros bs Hne (H1 & chunk & H2 & H3). split; [done|]. exists chunk. split; [|done]. rewrite <- H2.
    apply readChunk_same. by apply Hother. }
  destruct Hfin as (_ & _ & Hr). destruct r as [st|err]; simplify_eq; cbn [out_files sink counters record_batch];
    (split; [exact Hkeep|split; [done|]]).
  - destruct Hr as (Hst & chunk & Hread & _ & Hmean). exists st. split; [|done]. split; [exact Hst|]. eauto.
  - by destruct Hr as [-> _].
Qed.

(** *** The invariant *)

Definition zsum {A} (f : A -> Z) (l : list A) : Z := foldr (fun x total => f x + total) 0 l.

Lemma zsum_app {A} (f : A -> Z) a b : zsum f (a ++ b) = zsum f a + zsum f b.
Proof. unfold zsum. induction a as [|x a IH]; [done|]. cbn [app foldr]. rewrite IH. lia. Qed.

Definition entry_of_sealed (bs : Batch * ChunkStats) : ChunkEntry :=
  mkEntry (name (fst bs)) (Z.of_nat (length (batch_records (fst bs)))) (mappings (snd bs)).

Definition counted (c : Counters) (done : list nat) : Prop :=
  records_flattened c = zsum (fun b => Z.of_nat (length (records (out b)))) done
  /\ count_events_scanned c = zsum (fun b => events_scanned (out b)) done
  /\ count_mappings_after_collapse c = zsum (fun b => mappings_after_collapse (out b)) done
  /\ count_terminal_deletes c = zsum (fun b => terminal_deletes (out b)) done
  /\ count_terminal_delete_records c = zsum (fun b => terminal_delete_records (out b)) done.

Record inv_at (sealed : list (Batch * ChunkStats)) (done : list nat) (ls : list Work) (s : Shared) : Prop := {
  inv_done : done `sublist_of` seq 0 count;
  inv_records : concat ((fun bs => batch_records (fst bs)) <$> sealed) ++ m_pending (sink s) ++ concat (work_records <$> ls)
    ≡ₚ records_of done;
  inv_entries : m_entries (sink s) = entry_of_sealed <$> sealed;
  inv_missing : m_missing_definitions (sink s) = zsum (fun bs => missing_definitions (snd bs)) sealed;
  inv_sizes : Forall (fun b => length (batch_records b) = m_cap max_records) ((fst <$> sealed) ++ batches_of ls);
  inv_names : name <$> ((fst <$> sealed) ++ batches_of ls) ≡ₚ chunk_name <$> seq 0 (m_next_index (sink s));
  inv_files : Forall (sealed_ok (out_files s)) sealed;
  inv_pending : (length (m_pending (sink s)) < m_cap max_records)%nat;
  inv_counts : counted (counters s) done
}.

Definition Inv (done : list nat) (ls : list Work) (s : Shared) : Prop := exists sealed, inv_at sealed done ls s.

Lemma cap_positive : (0 < m_cap max_records)%nat.
Proof. unfold m_cap. destruct max_records; lia. Qed.

Lemma Inv_start usage fs : Inv [] [] (initial usage fs).
Proof.
  exists []. split; cbn; try done; [apply sublist_nil_l|apply cap_positive].
Qed.

Lemma Inv_ls_perm done l l' s : l ≡ₚ l' -> Inv done l s -> Inv done l' s.
Proof.
  intros Hp (sealed & [H1 H2 H3 H4 H5 H6 H7 H8 H9]). exists sealed.
  assert (Hb : batches_of l ≡ₚ batches_of l') by (unfold batches_of; by rewrite Hp).
  split; try done.
  - assert (Hw : concat (work_records <$> l) ≡ₚ concat (work_records <$> l')).
    { clear -Hp. induction Hp as [|x a b Hp IH|x y a|a b c H1 IH1 H2 IH2]; [done| | |by etrans];
        rewrite !fmap_cons; cbn [concat].
      - by rewrite IH.
      - by rewrite !app_assoc, (Permutation_app_comm (work_records y)). }
    by rewrite <- Hw.
  - rewrite Forall_app in *. destruct H5 as [H5 H5']. split; [done|]. by rewrite <- Hb.
  - by rewrite <- Hb.
Qed.

Lemma records_of_snoc done n : records_of (done ++ [n]) = records_of done ++ records (out n).
Proof. unfold records_of. rewrite fmap_app, concat_app. cbn. by rewrite app_nil_r. Qed.

Lemma counted_snoc c done n :
  counted c done -> counted (count_bucket (out n) c) (done ++ [n]).
Proof.
  unfold counted, count_bucket. intros (H1 & H2 & H3 & H4 & H5). rewrite !zsum_app. cbn [zsum foldr].
  cbn [records_flattened count_events_scanned count_mappings_after_collapse count_terminal_deletes
    count_terminal_delete_records]. unfold zsum in *. lia.
Qed.

Lemma out_empty n : events_scanned (out n) <= 0 -> out n = BucketCollapseResult_default.
Proof.
  unfold out. rewrite outcome_scanned. intros H. apply outcome_no_events. destruct (evs n); [done|cbn in H; lia].
Qed.

Lemma Inv_begin_bucket done n poll l s s' o :
  (n < count)%nat -> done `sublist_of` seq 0 n -> Inv done l s ->
  begin (collapse_body work definitions discard max_records) n poll s = (s', o) ->
  match o with
  | Continue x => Inv (done ++ [n]) (x :: l) s'
  | Return true => Inv (done ++ [n]) l s'
  | Return false => Inv done l s'
  | Raise e => e = zlib_failed
  end.
Proof.
  intros Hn Hd (sealed & [H1 H2 H3 H4 H5 H6 H7 H8 H9]) Hb. cbn [begin collapse_body] in Hb. unfold begin_bucket in Hb.
  destruct poll; [simplify_eq; exists sealed; by split|]. rewrite collapse_out in Hb by done.
  pose proof (sublist_snoc_seq count done n Hn Hd) as Hdone. pose proof (counted_snoc _ _ n H9) as Hcount.
  destruct (Z.ltb_spec 0 (events_scanned (out n))) as [Hpos|Hzero]; simplify_eq; exists sealed; split; try done.
  - cbn [sink]. rewrite fmap_cons, records_of_snoc. cbn [concat work_records]. rewrite <- H2.
    rewrite <- !app_assoc. do 2 f_equiv. by rewrite (Permutation_app_comm (records (out n))).
  - cbn [sink bucket_done]. rewrite records_of_snoc, out_empty by done. cbn. by rewrite app_nil_r.
  - destruct H9 as (C1 & C2 & C3 & C4 & C5). unfold counted. rewrite !zsum_app. cbn [zsum foldr]. rewrite out_empty by done.
    cbn [counters bucket_done records_flattened count_events_scanned count_mappings_after_collapse count_terminal_deletes
      count_terminal_delete_records records events_scanned mappings_after_collapse terminal_deletes
      terminal_delete_records BucketCollapseResult_default length]. lia.
Qed.

Lemma names_distinct sealed b rest n :
  name <$> ((fst <$> sealed) ++ b :: rest) ≡ₚ chunk_name <$> seq 0 n ->
  Forall (fun bs : Batch * ChunkStats => name (fst bs) <> name b) sealed.
Proof.
  intros Hp. assert (Hnd : NoDup (name <$> ((fst <$> sealed) ++ b :: rest))).
  { rewrite Hp. apply NoDup_fmap_2; [intros x y; apply chunk_name_inj|apply NoDup_seq]. }
  rewrite fmap_app, fmap_cons in Hnd. apply NoDup_app in Hnd as (_ & Hd & _).
  apply Forall_forall. intros bs Hbs Heq. apply (Hd (name (fst bs))).
  - apply list_elem_of_fmap_2, list_elem_of_fmap_2. exact Hbs.
  - rewrite Heq. constructor.
Qed.

Lemma Inv_resume_adding done r rest l s s' o :
  Inv done (Adding (r :: rest) :: l) s ->
  resume_bucket definitions max_records (Adding (r :: rest)) s = (s', o) ->
  exists w, o = Continue w /\ Inv done (w :: l) s'.
Proof.
  intros (sealed & [H1 H2 H3 H4 H5 H6 H7 H8 H9]) Hr. cbn [resume_bucket m_pending] in Hr.
  rewrite fmap_cons in H2. cbn [concat work_records] in H2.
  destruct (Nat.ltb_spec (length (m_pending (sink s) ++ [r])) (m_cap max_records)) as [Hlt|Hge]; simplify_eq.
  - eexists. split; [done|]. exists sealed. split; try done. cbn [sink m_pending]. rewrite fmap_cons.
    cbn [concat work_records]. rewrite <- H2, <- !app_assoc. done.
  - rewrite length_app in Hge. cbn [length] in Hge.
    assert (Hlen : length (m_pending (sink s) ++ [r]) = m_cap max_records) by (rewrite length_app; cbn [length]; lia).
    cbn [takeBatch m_pending m_next_index m_entries m_missing_definitions] in Hr. simplify_eq.
    eexists. split; [done|]. exists sealed. split; try done; cbn [sink m_pending m_next_index].
    + rewrite fmap_cons. cbn [concat work_records batch_records app]. rewrite <- H2, <- !app_assoc. done.
    + cbn [batches_of omap list_omap]. rewrite Forall_app in *. destruct H5 as [H5 H5']. split; [done|].
      by constructor.
    + cbn [batches_of omap list_omap] in *. rewrite seq_app, !fmap_app in *. cbn [fmap list_fmap seq name].
      by rewrite <- Permutation_middle, H6, Permutation_cons_append.
    + cbn. apply cap_positive.
Qed.

Lemma Inv_resume_sealing done b rest l s s' o :
  Inv done (Sealing b rest :: l) s ->
  resume_bucket definitions max_records (Sealing b rest) s = (s', o) ->
  match o with Continue w => Inv done (w :: l) s' | Return _ => False | Raise e => e = zlib_failed end.
Proof.
  intros (sealed & [H1 H2 H3 H4 H5 H6 H7 H8 H9]) Hr. cbn [resume_bucket] in Hr.
  destruct (seal definitions b s) as [s1 e] eqn:Hseal.
  rewrite fmap_cons in H2. cbn [concat work_records] in H2. cbn [batches_of omap list_omap] in H5, H6.
  pose proof H5 as Hsizes. apply Forall_app in Hsizes as [_ Hsizes]. apply Forall_cons in Hsizes as [Hlen _].
  assert (Hperm : batch_records b ++ (concat ((fun bs => batch_records (fst bs)) <$> sealed) ++ m_pending (sink s)
    ++ rest ++ concat (work_records <$> l)) ≡ₚ records_of done).
  { rewrite <- H2, <- !app_assoc. rewrite (Permutation_app_swap_app (batch_records b)). apply Permutation_app_head, Permutation_app_swap_app. }
  destruct (seal_ok b s _ done s1 e H1 Hperm ltac:(lia) Hseal) as (Hkeep & Hcnt & Hres).
  destruct e as [e|]; simplify_eq; [done|]. destruct Hres as (st & Hok & Hsink). exists (sealed ++ [(b, st)]).
  split; try rewrite Hsink; cbn [m_pending m_entries m_missing_definitions m_next_index].
  - done.
  - rewrite fmap_app, concat_app, fmap_cons. cbn [fmap list_fmap concat work_records fst].
    rewrite app_nil_r, <- Hperm, <- !app_assoc. apply Permutation_app_swap_app.
  - rewrite H3, fmap_app. done.
  - rewrite H4, zsum_app. cbn. lia.
  - rewrite (fmap_app fst). cbn [fmap list_fmap fst batches_of omap list_omap]. by rewrite <- app_assoc.
  - rewrite (fmap_app fst). cbn [fmap list_fmap fst batches_of omap list_omap]. by rewrite <- app_assoc.
  - apply Forall_app. split; [|by constructor]. pose proof (names_distinct _ _ _ _ H6) as Hne.
    rewrite Forall_forall in *. intros bs Hbs. apply Hkeep; auto.
  - done.
  - by rewrite Hcnt.
Qed.

Lemma Inv_bucket_done done l s : Inv done (Adding [] :: l) s -> Inv done l (bucket_done s).
Proof. intros (sealed & [H1 H2 H3 H4 H5 H6 H7 H8 H9]). exists sealed. by split. Qed.

Lemma Inv_resume_bucket done w l s s' o :
  Inv done (w :: l) s -> resume (collapse_body work definitions discard max_records) w s = (s', o) ->
  match o with Continue w' => Inv done (w' :: l) s' | Return _ => Inv done l s' | Raise e => e = zlib_failed end.
Proof.
  cbn [resume collapse_body]. intros Hi Hr. destruct w as [[|r rest]|b rest].
  - cbn [resume_bucket] in Hr. simplify_eq. by apply Inv_bucket_done.
  - by destruct (Inv_resume_adding _ _ _ _ _ _ _ Hi Hr) as (w & -> & Hw).
  - pose proof (Inv_resume_sealing _ _ _ _ _ _ _ Hi Hr) as H. by destruct o as [w|x|e].
Qed.

(** *** After the pool *)

Lemma close_ok done s s' e :
  Inv done [] s -> close definitions s = (s', e) ->
  counters s' = counters s /\
  match e with
  | Some e => e = zlib_failed
  | None => exists sealed, concat ((fun bs => batch_records (fst bs)) <$> sealed) ≡ₚ records_of done
      /\ m_entries (sink s') = entry_of_sealed <$> sealed
      /\ m_missing_definitions (sink s') = zsum (fun bs => missing_definitions (snd bs)) sealed
      /\ Forall (fun bs => (0 < length (batch_records (fst bs)) <= m_cap max_records)%nat) sealed
      /\ (exists n, name <$> (fst <$> sealed) ≡ₚ chunk_name <$> seq 0 n) /\ Forall (sealed_ok (out_files s')) sealed
  end.
Proof.
  intros (sealed & [H1 H2 H3 H4 H5 H6 H7 H8 H9]) Hc. pose proof cap_positive as Hcap.
  cbn [fmap list_fmap concat batches_of omap list_omap] in H2, H5, H6. rewrite app_nil_r in H2, H5, H6.
  assert (Hsizes : Forall (fun bs : Batch * ChunkStats => (0 < length (batch_records (fst bs)) <= m_cap max_records)%nat) sealed).
  { apply (Forall_fmap fst (fun b => length (batch_records b) = m_cap max_records)) in H5.
    eapply Forall_impl; [exact H5|]. intros bs Hbs. cbn in Hbs. lia. }
  assert (Hnames : NoDup (chunk_name <$> seq 0 (m_next_index (sink s) + 1))).
  { apply NoDup_fmap_2; [intros x y; apply chunk_name_inj|apply NoDup_seq]. }
  rewrite seq_app, fmap_app in Hnames. cbn [seq fmap list_fmap] in Hnames. unfold close in Hc.
  destruct (m_pending (sink s)) as [|r rs] eqn:Hp.
  - simplify_eq. split; [done|]. exists sealed. rewrite app_nil_r in H2. split_and!; try done.
    by exists (m_next_index (sink s')).
  - cbn [takeBatch] in Hc.
    set (b := mkBatch (chunk_name (m_next_index (sink s))) (m_pending (sink s))) in *.
    set (s1 := mkShared _ _ _ _) in Hc.
    assert (Hperm : batch_records b ++ concat ((fun bs => batch_records (fst bs)) <$> sealed) ≡ₚ records_of done).
    { cbn [b batch_records]. rewrite Hp, <- H2. apply Permutation_app_comm. }
    assert (Hb : (0 < length (batch_records b) <= m_cap max_records)%nat) by (cbn [b batch_records]; rewrite Hp; cbn in *; lia).
    destruct (seal_ok b s1 _ done s' e H1 Hperm ltac:(lia) Hc) as (Hkeep & Hcnt & Hres). split; [done|].
    destruct e as [e|]; [done|]. destruct Hres as (st & Hok & Hsink).
    assert (Hperm' : name <$> (fst <$> (sealed ++ [(b, st)])) ≡ₚ chunk_name <$> seq 0 (m_next_index (sink s) + 1)).
    { rewrite seq_app, !fmap_app. cbn [seq fmap list_fmap fst name b]. by rewrite H6. }
    assert (Hnd : NoDup (name <$> (fst <$> (sealed ++ [(b, st)])))).
    { rewrite !fmap_app. cbn [fmap list_fmap fst name b]. by rewrite H6. }
    exists (sealed ++ [(b, st)]). rewrite Hsink. cbn [m_entries m_missing_definitions sink s1].
    split_and!; [| | | |by exists (m_next_index (sink s) + 1)%nat|].
    + rewrite fmap_app, concat_app. cbn [fmap list_fmap concat fst]. rewrite app_nil_r, <- Hperm. apply Permutation_app_comm.
    + by rewrite H3, fmap_app.
    + rewrite H4, zsum_app. cbn. lia.
    + apply Forall_app. split; [done|by constructor].
    + apply Forall_app. split; [|by constructor]. rewrite !fmap_app in Hnd. cbn [fmap list_fmap fst] in Hnd.
      apply NoDup_app in Hnd as (_ & Hnd & _). rewrite Forall_forall in *. intros bs Hbs. apply Hkeep; [|by apply H7].
      intros Heq. apply (Hnd (name (fst bs))); [by apply list_elem_of_fmap_2, list_elem_of_fmap_2|]. rewrite Heq. constructor.
Qed.

(** Each mapping written comes from an event of its own. *)
Lemma out_mappings b : 0 <= mappings_after_collapse (out b) <= events_scanned (out b).
Proof.
  unfold out. rewrite outcome_scanned. split.
  - unfold CollapseSpec.outcome, CollapseSpec.sum. cbn [mappings_after_collapse]. lia.
  - pose proof (outcome_ids_length definitions discard (evs b)) as H. etrans; [|apply Nat2Z.inj_le, H].
    unfold CollapseSpec.outcome, CollapseSpec.sum. cbn [mappings_after_collapse records].
    induction (CollapseSpec.record_of discard (evs b) <$> CollapseSpec.files_of definitions (evs b)) as [|r rs IH]; [done|].
    rewrite !fmap_cons. change (list_sum (?x :: ?y)) with (x + list_sum y)%nat. cbn [concat].
    rewrite !length_app. lia.
Qed.

Lemma mappings_le_events done :
  0 <= zsum (fun b => mappings_after_collapse (out b)) done <= zsum (fun b => events_scanned (out b)) done
  /\ zsum (fun b => events_scanned (out b)) done = Z.of_nat (list_sum ((fun b => length (evs b)) <$> done)).
Proof.
  induction done as [|b done IH]; [done|]. rewrite fmap_cons. change (list_sum (?x :: ?y)) with (x + list_sum y)%nat.
  cbn [zsum foldr]. fold (zsum (fun b => mappings_after_collapse (out b)) done). fold (zsum (fun b => events_scanned (out b)) done).
  pose proof (out_mappings b). pose proof (outcome_scanned definitions discard (evs b)). unfold out in *. lia.
Qed.
End invariant.

(** ** Theorems *)

#[local] Instance file_le_total : Total file_le.
Proof.
  intros a b. unfold file_le, String.ltb. rewrite (String.compare_antisym (file a)).
  destruct (String.compare (file b) (file a)); cbn; auto.
Qed.

(** A listed chunk and the records it holds, as a reader finds them. *)
Definition readable `{z : Zlib} (definitions : Definitions) (files : gmap string (list Z)) (e : ChunkEntry) (rs : list CollapsedRecord) : Prop :=
  entry_records e = Z.of_nat (length rs)
  /\ entry_mappings e = mappings (ChunkMeaning.given_stats (lookup definitions) (as_pending <$> rs))
  /\ exists chunk, readChunk files (file e) = Ok chunk
     /\ ChunkMeaning.chunk_meaning chunk = Some (ChunkMeaning.given_meaning (lookup definitions) <$> (as_pending <$> rs)).

(** The entry of a sealed batch with the records in it. *)
Definition part_of_sealed (bs : Batch * ChunkStats) : ChunkEntry * list CollapsedRecord :=
  (entry_of_sealed bs, batch_records (fst bs)).

Lemma sealed_readable `{z : Zlib} definitions fs bs :
  sealed_ok definitions fs bs -> readable definitions fs (entry_of_sealed bs) (batch_records (fst bs)).
Proof. destruct bs as [b st]. intros [Hs Hc]. cbn [fst snd] in *. split_and!; [done|by cbn; rewrite Hs|done]. Qed.

Lemma buckets_collapse (z : Zlib) (Hz : ZlibLaws z) (work : gmap string (list Z)) (definitions : Definitions)
    (discard : bool) (max_records : nat) (evs : nat -> list MappingEvent)
    (hardware threads : nat) (schedule : list Choice) (usage : TagUsageSet) (files : gmap string (list Z))
    (Hgiven : given work definitions max_records evs)
    (Hjoin : joined (run (Z.to_nat BUCKET_COUNT) (collapse_body work definitions discard max_records) schedule
       (start hardware (Z.to_nat BUCKET_COUNT) threads (initial usage files)))) :
  let '(s, r) := collapseBuckets work definitions discard max_records hardware threads schedule usage files in
  match r with
  | Throw e => e = zlib_failed
  | Ok res => exists (done : list nat) (parts : list (ChunkEntry * list CollapsedRecord)),
      done `sublist_of` seq 0 (Z.to_nat BUCKET_COUNT)
      /\ (result_cancelled res = false -> done = seq 0 (Z.to_nat BUCKET_COUNT))
      /\ chunks res ≡ₚ fst <$> parts
      /\ concat (snd <$> parts) ≡ₚ records_of definitions discard evs done
      /\ Forall (fun p => (0 < length (snd p) <= m_cap max_records)%nat /\ readable definitions (out_files s) (fst p) (snd p)) parts
      /\ (exists n, file <$> chunks res ≡ₚ chunk_name <$> seq 0 n) /\ Sorted file_le (chunks res)
      /\ stats_events_scanned (stats res) = Z.of_nat (list_sum ((fun b => length (evs b)) <$> done))
      /\ stats_mappings_after_collapse (stats res) = zsum (fun b => mappings_after_collapse (out definitions discard evs b)) done
      /\ stats_events_collapsed (stats res) = stats_events_scanned (stats res) - stats_mappings_after_collapse (stats res)
  end.
Proof.
  pose proof (run_all (Z.to_nat BUCKET_COUNT) (collapse_body work definitions discard max_records)
    (Inv definitions discard max_records evs) (fun e => e = zlib_failed)
    (Inv_ls_perm definitions discard max_records evs)
    (Inv_begin_bucket work definitions discard max_records evs Hgiven)
    (Inv_resume_bucket Hz work definitions discard max_records evs Hgiven)
    hardware threads _ schedule (Inv_start definitions discard max_records evs usage files) Hjoin) as Hrun.
  unfold collapseBuckets. destruct (answer _) as [ran|e]; [|done].
  destruct Hrun as (done & HInv & Hsub & Hran).
  destruct (close _ _) as [s e] eqn:Hclose.
  destruct (close_ok Hz work definitions discard max_records evs Hgiven _ _ _ _ HInv Hclose) as [Hcnt Hres].
  destruct e as [e|]; [done|]. destruct Hres as (sealed & Hrecs & Hentries & Hmiss & Hlens & Hnames & Hok).
  assert (Hchunks : chunks (result_of ran s) ≡ₚ entry_of_sealed <$> sealed) by (cbn; by rewrite merge_sort_Permutation, Hentries).
  pose proof HInv as (_ & [_ _ _ _ _ _ _ _ (_ & Hscan & Hmap & _ & _)]). rewrite <- Hcnt in Hscan, Hmap.
  destruct (mappings_le_events definitions discard evs done) as [Hle Hscanned].
  exists done, (part_of_sealed <$> sealed). split_and!.
  - exact Hsub.
  - intros Hc. apply Hran. by destruct ran.
  - rewrite Hchunks, <- list_fmap_compose. done.
  - rewrite <- Hrecs, <- list_fmap_compose. done.
  - apply Forall_fmap. rewrite Forall_forall in *. intros bs Hbs. split; [by apply Hlens|].
    by apply sealed_readable, Hok.
  - destruct Hnames as [n Hnames]. exists n. rewrite Hchunks, <- list_fmap_compose. by rewrite <- list_fmap_compose in Hnames.
  - apply (Sorted_merge_sort file_le).
  - cbn. by rewrite Hscan.
  - cbn. by rewrite Hmap.
  - cbn. rewrite Hscan, Hmap. unfold wrapu. apply Z.mod_small.
    pose proof (given_events _ _ _ _ Hgiven). pose proof (sublist_sum (fun b => length (evs b)) _ _ Hsub).
    unfold uint32_max in *. lia.
Qed.

(** Whatever the interleaving of the workers, a collapse either fails
    because zlib did, or lists chunks numbered from zero, none above the cap,
    each of which reads back, and whose records taken together are exactly the
    records of the buckets that were collapsed, each once; every bucket was
    collapsed unless the run reports that it was cancelled.  The counters are
    those of these buckets, and the difference of events and mappings does not
    wrap. *)
Theorem collapseBuckets_complete (z : Zlib) (Hz : ZlibLaws z) (work : gmap string (list Z)) (definitions : Definitions)
    (discard : bool) (max_records : nat) (evs : nat -> list MappingEvent)
    (hardware threads : nat) (schedule : list Choice) (usage : TagUsageSet) (files : gmap string (list Z))
    (Hgiven : given work definitions max_records evs)
    (Hjoin : joined (run (Z.to_nat BUCKET_COUNT) (collapse_body work definitions discard max_records) schedule
       (start hardware (Z.to_nat BUCKET_COUNT) threads (initial usage files)))) :
  let '(s, r) := collapseBuckets work definitions discard max_records hardware threads schedule usage files in
  match r with
  | Throw e => e = zlib_failed
  | Ok res => exists (done : list nat) (parts : list (ChunkEntry * list CollapsedRecord)),
      done `sublist_of` seq 0 (Z.to_nat BUCKET_COUNT)
      /\ (result_cancelled res = false -> done = seq 0 (Z.to_nat BUCKET_COUNT))
      /\ chunks res ≡ₚ fst <$> parts
      /\ concat (snd <$> parts) ≡ₚ records_of definitions discard evs done
      /\ Forall (fun p => (0 < length (snd p) <= m_cap max_records)%nat /\ readable definitions (out_files s) (fst p) (snd p)) parts
      /\ (exists n, file <$> chunks res ≡ₚ chunk_name <$> seq 0 n) /\ Sorted file_le (chunks res)
      /\ stats_events_scanned (stats res) = Z.of_nat (list_sum ((fun b => length (evs b)) <$> done))
      /\ stats_mappings_after_collapse (stats res) = zsum (fun b => mappings_after_collapse (out definitions discard evs b)) done
      /\ stats_events_collapsed (stats res) = stats_events_scanned (stats res) - stats_mappings_after_collapse (stats res)
  end.
Proof. by apply (buckets_collapse z Hz). Qed.

(** *** A collapse that is not cancelled succeeds *)

Section succeeds.
Context `{z : Zlib} (compresses : forall data, compress2 data <> None).
Context (work : gmap string (list Z)) (definitions : Definitions) (discard : bool) (max_records : nat).
Context (evs : nat -> list MappingEvent) (Hgiven : given work definitions max_records evs).

Lemma seal_succeeds b s : snd (seal definitions b s) = None.
Proof.
  unfold seal, write_batch. rewrite batch_writer, writer_of_ok. unfold finish. cbn [m_finished m_path m_records].
  destruct (write_records _ _ _) as [body stats]. unfold deflateBuffer. set (text := _ ++ body).
  pose proof (compresses text). by destruct (compress2 text).
Qed.

Lemma close_succeeds s : snd (close definitions s) = None.
Proof. unfold close. destruct (m_pending (sink s)); [done|]. apply seal_succeeds. Qed.

Lemma collapseBuckets_succeeds hardware threads schedule usage files :
  Forall (fun c => polled c = false) schedule ->
  joined (run (Z.to_nat BUCKET_COUNT) (collapse_body work definitions discard max_records) schedule
    (start hardware (Z.to_nat BUCKET_COUNT) threads (initial usage files))) ->
  exists res, snd (collapseBuckets work definitions discard max_records hardware threads schedule usage files) = Ok res
    /\ result_cancelled res = false.
Proof.
  intros Hpoll Hjoin. set (body := collapse_body work definitions discard max_records) in *.
  assert (Hresume : forall w s, match snd (resume_bucket definitions max_records w s) with
    Raise _ => False | Return b => b = true | Continue _ => True end).
  { intros [[|r rest]|b rest] s; cbn [resume_bucket]; [done| |].
    - destruct (length _ <? _)%nat; [done|]. by destruct (takeBatch _).
    - pose proof (seal_succeeds b s) as Hs. destruct (seal definitions b s) as [s' e]. cbn in Hs. by subst e. }
  assert (Hrun : forall n s, snd (begin body n false s) <> Return false).
  { intros n s. cbn. unfold begin_bucket. destruct (collapseOneBucket _ _ _ _); [|done]. by destruct (0 <? _). }
  assert (Hno : match answer (run (Z.to_nat BUCKET_COUNT) body schedule
    (start hardware (Z.to_nat BUCKET_COUNT) threads (initial usage files))) with Throw _ => False | Ok _ => True end).
  { unshelve epose proof (run_all (Z.to_nat BUCKET_COUNT) body (fun _ _ _ => True) (fun _ => False) _ _ _
      hardware threads (initial usage files) schedule I Hjoin) as Hno; [done| | |].
    - intros done n poll l s s' o Hn _ _ Hb. cbn in Hb. unfold begin_bucket in Hb.
      rewrite (collapse_out work definitions discard max_records evs Hgiven n Hn) in Hb. by repeat case_match; simplify_eq.
    - intros done w l s s' o _ Hr. specialize (Hresume w s). cbn in Hr. rewrite Hr in Hresume. by destruct o as [?|[]|?].
    - by destruct (answer _). }
  pose proof (run_unstopped (Z.to_nat BUCKET_COUNT) body Hrun
    ltac:(intros w s H; specialize (Hresume w s); cbn in H; by rewrite H in Hresume)
    schedule hardware threads (initial usage files) Hpoll) as Hran.
  unfold collapseBuckets. fold body. destruct (answer _) as [[]|e]; [|done|done].
  pose proof (close_succeeds (shared (run (Z.to_nat BUCKET_COUNT) body schedule
    (start hardware (Z.to_nat BUCKET_COUNT) threads (initial usage files))))) as Hclose.
  destruct (close _ _) as [s e]. cbn in Hclose. subst e. by eexists.
Qed.
End succeeds.

(** *** Moves of a bucket *)

(** Each record costs an append and at most one seal. *)
Definition bucket_cost `{z : Zlib} (work : gmap string (list Z)) (definitions : Definitions) (discard : bool) (b : nat) : nat :=
  match collapseOneBucket work (Z.of_nat b) definitions discard with Ok r => 2 * length (records r) + 2 | Throw _ => 1 end.
Definition work_cost (w : Work) : nat :=
  match w with Adding rest => 2 * length rest | Sealing _ rest => 2 * length rest + 1 end.

Section moves.
Context `{z : Zlib} (work : gmap string (list Z)) (definitions : Definitions) (discard : bool) (max_records : nat).
Notation body := (collapse_body work definitions discard max_records).

Lemma bucket_cost_positive n : (0 < bucket_cost work definitions discard n)%nat.
Proof. unfold bucket_cost. case_match; lia. Qed.

Lemma begin_bucket_cost n poll s s' l : begin body n poll s = (s', Continue l) ->
  (work_cost l + 1 < bucket_cost work definitions discard n)%nat.
Proof.
  intros H. cbn [begin collapse_body] in H. unfold begin_bucket, bucket_cost in *.
  repeat case_match; simplify_eq. cbn [work_cost]. lia.
Qed.

Lemma resume_bucket_cost l s s' l' : resume body l s = (s', Continue l') -> (work_cost l' < work_cost l)%nat.
Proof.
  intros H. cbn [resume collapse_body] in H. unfold resume_bucket in H.
  repeat case_match; simplify_eq; cbn [work_cost length]; lia.
Qed.
End moves.

(** No collapse gets stuck, whatever is on disk: schedules that keep moving
    workers are bounded by the records of the buckets, and from any point of
    any run the workers can be joined. *)
Theorem collapseBuckets_terminates (z : Zlib) (work : gmap string (list Z)) (definitions : Definitions) (discard : bool)
    (max_records hardware threads : nat) (usage : TagUsageSet) (files : gmap string (list Z)) :
  let count := Z.to_nat BUCKET_COUNT in
  let body := collapse_body work definitions discard max_records in
  let p := start hardware count threads (initial usage files) in
  (forall schedule, live count body schedule p ->
     (length schedule <= list_sum (bucket_cost work definitions discard <$> seq 0 count) + length (lanes p))%nat)
  /\ (forall before, exists after, joined (run count body (before ++ after) p)).
Proof.
  intros count body p.
  pose proof (bucket_cost_positive work definitions discard) as Hpos.
  pose proof (begin_bucket_cost work definitions discard max_records) as Hbegin.
  pose proof (resume_bucket_cost work definitions discard max_records) as Hresume.
  split.
  - intros schedule Hlive.
    pose proof (live_bounded count body _ _ Hpos Hbegin Hresume schedule p Hlive) as H. unfold measure at 2 in H.
    enough (list_sum (weight work_cost <$> lanes p) = length (lanes p)) by (cbn [next p start] in H; rewrite Nat.sub_0_r in H; lia).
    subst p. cbn [lanes start]. generalize (Nat.min (match threads with O => defaultWorkerCount hardware | _ => threads end) count).
    intros n. rewrite length_replicate. clear. induction n as [|n IH]; [done|]. exact (f_equal S IH).
  - intros before. destruct (run_joins count body _ _ Hpos Hbegin Hresume (run count body before p) true false)
      as (after & _ & Hj & _). exists after. unfold run in *. by rewrite foldl_app.
Qed.

(** ** Witness *)

Module Example_collapse.
(** Two files are known, in buckets 1 and 2, and each chunk holds one record. *)
Definition defs : Definitions := mkDefinitions
  (fun h => if h =? 4097 then Some (replicate 32 7) else if h =? 2 then Some (replicate 32 9) else None)
  (fun t => if t =? 9 then None else Some "tag").
Definition evs (b : nat) : list MappingEvent := of_bucket (Z.of_nat b) Example_bucket.evs.
Definition work : gmap string (list Z) := snd (flush (write_all Example_bucket.evs (BucketWriter_make 2, ∅))).

(** Two workers taking turns; the run is cancelled when bucket 3 is polled. *)
Definition schedule : list Choice :=
  (fun k => mkChoice (k mod 2) true (7 <? k)%nat) <$> seq 0 14.

Lemma ok : given work defs 1 evs.
Proof.
  split.
  - intros b Hb.
    assert (Hr : 0 <= Z.of_nat b < BUCKET_COUNT) by (split; [lia|]; apply Z2Nat.inj_lt; [lia|done|by rewrite Nat2Z.id]).
    split; [exact (spill_read 2 ∅ Example_bucket.evs (Z.of_nat b) Example_bucket.evs_ok Hr)|].
    apply CollapseSpec.Forall_filter_sub, Example_bucket.evs_ok.
  - intros h sha H. cbn in H. repeat case_match; simplify_eq; (split; [done|]); repeat constructor; lia.
  - intros id text H. unfold lookup in H. cbn in H. case_match; simplify_eq. unfold int32_max. cbn. lia.
  - cbn. unfold uint32_max. lia.
  - assert (Hsum : list_sum ((fun b => length (evs b)) <$> seq 0 (Z.to_nat BUCKET_COUNT)) = length Example_bucket.evs).
    { rewrite <- (buckets_partition Example_bucket.evs). unfold buckets, evs. by rewrite <- list_fmap_compose. }
    rewrite Hsum. cbn. unfold uint32_max. lia.
Qed.

Definition usage : TagUsageSet := TagUsageSet_make 100.
Notation outcome := (collapseBuckets (z := Example_chunk.stored) work defs false 1 1 2 schedule usage ∅).

Lemma buckets_joined : joined (run (Z.to_nat BUCKET_COUNT)
  (collapse_body (z := Example_chunk.stored) work defs false 1) schedule
  (start 1 (Z.to_nat BUCKET_COUNT) 2 (initial usage ∅))).
Proof.
  unfold joined.
  assert (Hlanes : lanes (run (Z.to_nat BUCKET_COUNT)
    (collapse_body (z := Example_chunk.stored) work defs false 1) schedule
    (start 1 (Z.to_nat BUCKET_COUNT) 2 (initial usage ∅))) = [Joined; Joined]) by (vm_compute; reflexivity).
  rewrite Hlanes. clear Hlanes. repeat constructor.
Qed.

Lemma listed : match snd outcome with
  | Ok res => (file <$> chunks res, stats_events_scanned (stats res)) = (["chunk-00000.idhanptr"; "chunk-00001.idhanptr"], 6)
  | Throw _ => False
  end.
Proof. vm_compute. reflexivity. Qed.
End Example_collapse.

Lemma collapseBuckets_complete_witness :
  match snd Example_collapse.outcome with
  | Throw _ => False
  | Ok res => file <$> chunks res = ["chunk-00000.idhanptr"; "chunk-00001.idhanptr"]
      /\ stats_events_scanned (stats res) = 6
      /\ exists parts, chunks res ≡ₚ fst <$> parts
         /\ Forall (fun p => readable (z := Example_chunk.stored) Example_collapse.defs (out_files (fst Example_collapse.outcome))
              (fst p) (snd p)) parts
  end.
Proof.
  pose proof (collapseBuckets_complete Example_chunk.stored Example_chunk.stored_laws Example_collapse.work
    Example_collapse.defs false 1 Example_collapse.evs 1 2 Example_collapse.schedule Example_collapse.usage ∅
    Example_collapse.ok) as H.
  specialize (H Example_collapse.buckets_joined).
  pose proof Example_collapse.listed as Hfiles.
  destruct (collapseBuckets Example_collapse.work _ _ _ _ _ _ _ _) as [s r]. cbn [fst snd] in *. destruct r as [res|e]; [|done].
  destruct H as (d & parts & _ & _ & Hparts & _ & Hread & _). injection Hfiles as Hnames Hscan.
  split_and!; [done|done|]. exists parts. split; [done|]. eapply Forall_impl; [exact Hread|]. by intros p [_ Hp].
Defined.
