(* ===== verification/PtrParse.v ===== *)
(** * PTR update files: [PTRFileParser.cpp]

    An update of the public tag repository is a zlib stream holding a JSON
    array.  [decompressToJson] drives zlib's [inflate] over a growing buffer;
    [parseUpdateJson] reads the array into one of three kinds of update.  zlib
    is the interface [Inflate], JSON the interface [Json]. *)
From S2P Require Import Prelude StringView Json.
From Stdlib Require Import Ascii.

(** ** Inflating *)

(** What [inflate] answers: [Z_OK], [Z_STREAM_END] or an error code. *)
Inductive InflateCode := Z_OK | Z_STREAM_END | Z_ERROR (code : Z).

(** [inflate] with so much room: the stream afterwards, the bytes produced. *)
Class Inflate := {
  stream : Type;
  inflateInit2 : list Z -> stream;
  inflate : stream -> nat -> stream * list Z * InflateCode
}.

(** zlib's contract: it never writes past the room it is given, answers
    [Z_OK] only when it made progress, which input and output bound, and what
    it produces in all does not depend on the room of each call. *)
Class InflateLaws (I : Inflate) := {
  remaining : stream -> nat;
  whole : stream -> option (list Z);
  inflate_room s n s' out r : inflate s n = (s', out, r) -> (length out <= n)%nat;
  inflate_progress s n s' out : (0 < n)%nat -> inflate s n = (s', out, Z_OK) -> (remaining s' < remaining s)%nat;
  inflate_whole s n s' out r : (0 < n)%nat -> inflate s n = (s', out, r) ->
    whole s = match r with
      | Z_OK => (fun rest => out ++ rest) <$> whole s'
      | Z_STREAM_END => Some out
      | Z_ERROR _ => None
      end
}.

Definition CHUNK_SIZE : nat := Pos.to_nat 65536.

(** The loop of [decompressToJson]: the capacity of the buffer and the bytes
    in it; the room is what is left, after growing a full buffer. *)
Fixpoint inflate_loop `{Inflate} (fuel : nat) (strm : stream) (capacity : nat) (decompressed : list Z) : result (list Z) :=
  match fuel with
  | O => Throw (logic_error "inflate_loop ran out of fuel")
  | S fuel =>
      let capacity := if (capacity - length decompressed =? 0)%nat then (capacity + CHUNK_SIZE)%nat else capacity in
      let '(strm, out, ret) := inflate strm (capacity - length decompressed) in
      let decompressed := decompressed ++ out in
      match ret with
      | Z_OK => inflate_loop fuel strm capacity decompressed
      | Z_STREAM_END => Ok decompressed
      | Z_ERROR _ => Throw (runtime_error "zlib decompression failed")
      end
  end.

(** What zlib is given: [avail_in] has 32 bits, so of 4 GiB and more it is the
    size modulo 4 GiB. *)
Definition zlib_input (data : list Z) : list Z := take (Z.to_nat (wrapu 32 (Z.of_nat (length data)))) data.

Section parser.
Context {J : Json} {I : Inflate}.

Definition decompressToJson (fuel : nat) (compressed_data : list Z) : result Value :=
  json_str ← inflate_loop fuel (inflateInit2 (zlib_input compressed_data)) CHUNK_SIZE [];
  match parse json_str with
  | inl parse_errors => Throw (runtime_error ("JSON parse error: " +:+ parse_errors))
  | inr root => Ok root
  end.

(** ** Constants *)

Definition SERIALISABLE_TYPE_CONTENT_UPDATE : Z := 34.
Definition SERIALISABLE_TYPE_DEFINITIONS_UPDATE : Z := 36.
Definition SERIALISABLE_TYPE_METADATA : Z := 37.
Definition CONTENT_TYPE_MAPPINGS : Z := 0.
Definition CONTENT_TYPE_TAG_SIBLINGS : Z := 1.
Definition CONTENT_TYPE_TAG_PARENTS : Z := 2.
Definition CONTENT_UPDATE_ADD : Z := 0.
Definition CONTENT_UPDATE_DELETE : Z := 1.
Definition DEFINITIONS_TYPE_HASHES : Z := 0.
Definition DEFINITIONS_TYPE_TAGS : Z := 1.

(** ** The updates *)

Inductive UpdateType := Unknown | Definitions_ | Content | Metadata.

Record DefinitionsUpdate := mkDefinitionsUpdate {
  hash_ids_to_hashes : gmap Z string;
  tag_ids_to_tags : gmap Z string
}.

Record ContentUpdateMapping := mkMapping { mapping_tag_id : Z; hash_ids : list Z }.

Record ContentUpdate := mkContentUpdate {
  mappings_add : list ContentUpdateMapping;
  tag_parents_add : list (Z * Z);
  tag_siblings_add : list (Z * Z);
  mappings_delete : list ContentUpdateMapping;
  tag_parents_delete : list (Z * Z);
  tag_siblings_delete : list (Z * Z)
}.

Record MetadataUpdateEntry := mkMetadataEntry { index : Z; hashes : list string; entry_begin : Z; entry_end : Z }.

(** [next_update_due] has no initialiser: [None] until it is assigned. *)
Record MetadataUpdate := mkMetadataUpdate { updates : list MetadataUpdateEntry; next_update_due : option Z }.

Inductive ParsedUpdate :=
| ParsedDefinitions (u : DefinitionsUpdate)
| ParsedContent (u : ContentUpdate)
| ParsedMetadata (u : MetadataUpdate).

(** [!v.isArray() || v.size() < n] *)
Definition shorter (v : Value) (n : nat) : bool := negb (isArray v) || (array_size v <? n)%nat.

(** ** The parser *)

Definition detectUpdateType (root : Value) : result UpdateType :=
  if shorter root 2 then Ok Unknown
  else
    serialisable_type ← asInt (element root 0);
    Ok (if serialisable_type =? SERIALISABLE_TYPE_DEFINITIONS_UPDATE then Definitions_
        else if serialisable_type =? SERIALISABLE_TYPE_CONTENT_UPDATE then Content
        else if serialisable_type =? SERIALISABLE_TYPE_METADATA then Metadata
        else Unknown).

(** [unordered_map::emplace]: an id already there keeps its value. *)
Definition emplace (k : Z) (x : string) (m : gmap Z string) : gmap Z string :=
  match m !! k with Some _ => m | None => <[k := x]> m end.

(** [std::erase( tag, '\0' )] *)
Fixpoint erase_nulls (s : string) : string :=
  match s with
  | EmptyString => EmptyString
  | String c s => if decide (c = zero) then erase_nulls s else String c (erase_nulls s)
  end.

Definition parse_hash_definition (result : DefinitionsUpdate) (def : Value) : Prelude.result DefinitionsUpdate :=
  if shorter def 2 then Ok result
  else
    hash_id ← asInt (element def 0);
    hash_hex ← asString (element def 1);
    Ok (mkDefinitionsUpdate (emplace hash_id hash_hex (hash_ids_to_hashes result)) (tag_ids_to_tags result)).

Definition parse_tag_definition (result : DefinitionsUpdate) (def : Value) : Prelude.result DefinitionsUpdate :=
  if shorter def 2 then Ok result
  else
    tag_id ← asInt (element def 0);
    tag ← asString (element def 1);
    Ok (mkDefinitionsUpdate (hash_ids_to_hashes result) (emplace tag_id (erase_nulls tag) (tag_ids_to_tags result))).

Definition parse_definitions_entry (result : DefinitionsUpdate) (entry : Value) : Prelude.result DefinitionsUpdate :=
  if shorter entry 2 then Ok result
  else
    definition_type ← asInt (element entry 0);
    let definitions := element entry 1 in
    if negb (isArray definitions) then Ok result
    else if definition_type =? DEFINITIONS_TYPE_HASHES then foldM parse_hash_definition result (elements definitions)
    else if definition_type =? DEFINITIONS_TYPE_TAGS then foldM parse_tag_definition result (elements definitions)
    else Ok result.

Definition parseDefinitionsUpdate (serialisable_info : Value) : result DefinitionsUpdate :=
  let result := mkDefinitionsUpdate ∅ ∅ in
  if negb (isArray serialisable_info) then Ok result
  else foldM parse_definitions_entry result (elements serialisable_info).

Definition add_mapping (is_delete : bool) (m : ContentUpdateMapping) (u : ContentUpdate) : ContentUpdate :=
  if is_delete then
    mkContentUpdate (mappings_add u) (tag_parents_add u) (tag_siblings_add u)
      (mappings_delete u ++ [m]) (tag_parents_delete u) (tag_siblings_delete u)
  else
    mkContentUpdate (mappings_add u ++ [m]) (tag_parents_add u) (tag_siblings_add u)
      (mappings_delete u) (tag_parents_delete u) (tag_siblings_delete u).

Definition add_parent (is_delete : bool) (p : Z * Z) (u : ContentUpdate) : ContentUpdate :=
  if is_delete then
    mkContentUpdate (mappings_add u) (tag_parents_add u) (tag_siblings_add u)
      (mappings_delete u) (tag_parents_delete u ++ [p]) (tag_siblings_delete u)
  else
    mkContentUpdate (mappings_add u) (tag_parents_add u ++ [p]) (tag_siblings_add u)
      (mappings_delete u) (tag_parents_delete u) (tag_siblings_delete u).

Definition add_sibling (is_delete : bool) (p : Z * Z) (u : ContentUpdate) : ContentUpdate :=
  if is_delete then
    mkContentUpdate (mappings_add u) (tag_parents_add u) (tag_siblings_add u)
      (mappings_delete u) (tag_parents_delete u) (tag_siblings_delete u ++ [p])
  else
    mkContentUpdate (mappings_add u) (tag_parents_add u) (tag_siblings_add u ++ [p])
      (mappings_delete u) (tag_parents_delete u) (tag_siblings_delete u).

(** A row of mappings: a tag and the files it is added to or removed from. *)
Definition parse_mapping_row (is_delete : bool) (result : ContentUpdate) (row : Value) : Prelude.result ContentUpdate :=
  if shorter row 2 then Ok result
  else
    tag_id ← asInt (element row 0);
    let hash_ids := element row 1 in
    ids ← (if isArray hash_ids then mapM asInt (elements hash_ids) else Ok []);
    Ok (add_mapping is_delete (mkMapping tag_id ids) result).

(** A row of a relation: a pair of tags. *)
Definition parse_pair_row (add : Z * Z -> ContentUpdate -> ContentUpdate) (result : ContentUpdate) (row : Value)
    : Prelude.result ContentUpdate :=
  if shorter row 2 then Ok result
  else
    a ← asInt (element row 0);
    b ← asInt (element row 1);
    Ok (add (a, b) result).

Definition parse_action (content_type : Z) (result : ContentUpdate) (action_entry : Value) : Prelude.result ContentUpdate :=
  if shorter action_entry 2 then Ok result
  else
    action ← asInt (element action_entry 0);
    if negb (action =? CONTENT_UPDATE_ADD) && negb (action =? CONTENT_UPDATE_DELETE) then Ok result
    else
      let is_delete := action =? CONTENT_UPDATE_DELETE in
      let data_rows := element action_entry 1 in
      if negb (isArray data_rows) then Ok result
      else if content_type =? CONTENT_TYPE_MAPPINGS then foldM (parse_mapping_row is_delete) result (elements data_rows)
      else if content_type =? CONTENT_TYPE_TAG_PARENTS then foldM (parse_pair_row (add_parent is_delete)) result (elements data_rows)
      else if content_type =? CONTENT_TYPE_TAG_SIBLINGS then foldM (parse_pair_row (add_sibling is_delete)) result (elements data_rows)
      else Ok result.

Definition parse_content_entry (result : ContentUpdate) (content_entry : Value) : Prelude.result ContentUpdate :=
  if shorter content_entry 2 then Ok result
  else
    content_type ← asInt (element content_entry 0);
    let actions_to_datas := element content_entry 1 in
    if negb (isArray actions_to_datas) then Ok result
    else foldM (parse_action content_type) result (elements actions_to_datas).

Definition parseContentUpdate (serialisable_info : Value) : result ContentUpdate :=
  let result := mkContentUpdate [] [] [] [] [] [] in
  if negb (isArray serialisable_info) then Ok result
  else foldM parse_content_entry result (elements serialisable_info).

(** The entry skipped for its hashes is named in a warning by its index, which
    is read first and may throw. *)
Definition parse_metadata_entry (result : list MetadataUpdateEntry) (entry : Value) : Prelude.result (list MetadataUpdateEntry) :=
  if shorter entry 4 then Ok result
  else
    let hashes := element entry 1 in
    index ← asInt (element entry 0);
    if negb (isArray hashes) then Ok result
    else
      hs ← mapM asString (elements hashes);
      b ← asInt64 (element entry 2);
      e ← asInt64 (element entry 3);
      Ok (result ++ [mkMetadataEntry index hs b e]).

Definition parseMetadataUpdate (serialisable_info : Value) : result MetadataUpdate :=
  if shorter serialisable_info 2 then Ok (mkMetadataUpdate [] None)
  else
    let updates_array := element serialisable_info 0 in
    due ← asInt64 (element serialisable_info 1);
    if negb (isArray updates_array) then Ok (mkMetadataUpdate [] (Some due))
    else
      us ← foldM parse_metadata_entry [] (elements updates_array);
      Ok (mkMetadataUpdate us (Some due)).

Definition parse_cache_entry (result : list MetadataUpdateEntry) (u : Value) : Prelude.result (list MetadataUpdateEntry) :=
  hashes ← member u "hashes";
  if negb (isArray hashes) then
    i ← get u "index" (of_int (-1));
    _ ← asInt i;
    Ok result
  else
    i ← member u "index";
    index ← asInt i;
    hs ← mapM asString (elements hashes);
    b ← member u "begin";
    b ← asInt64 b;
    e ← member u "end";
    e ← asInt64 e;
    Ok (result ++ [mkMetadataEntry index hs b e]).

Definition parseMetadataCacheJson (root : Value) : result MetadataUpdate :=
  updates_arr ← member root "updates";
  us ← (if isArray updates_arr then foldM parse_cache_entry [] (elements updates_arr) else Ok []);
  due ← get root "next_update_due" (of_int 0);
  due ← asInt64 due;
  Ok (mkMetadataUpdate us (Some due)).

Definition parseUpdateJson (root : Value) : result ParsedUpdate :=
  if shorter root 3 then Throw (runtime_error "Invalid update format: expected array of 3 elements")
  else
    serialisable_type ← asInt (element root 0);
    _ ← asInt (element root 1);
    let serialisable_info := element root 2 in
    if serialisable_type =? SERIALISABLE_TYPE_DEFINITIONS_UPDATE then ParsedDefinitions <$> parseDefinitionsUpdate serialisable_info
    else if serialisable_type =? SERIALISABLE_TYPE_CONTENT_UPDATE then ParsedContent <$> parseContentUpdate serialisable_info
    else if serialisable_type =? SERIALISABLE_TYPE_METADATA then ParsedMetadata <$> parseMetadataUpdate serialisable_info
    else Throw (runtime_error ("Unknown serialisable type: " +:+ to_string serialisable_type)).

Definition parseUpdateBytes (fuel : nat) (compressed_data : list Z) : result ParsedUpdate :=
  root ← decompressToJson fuel compressed_data;
  parseUpdateJson root.

(** Opening fails on a missing file; reading one succeeds. *)
Definition readFile (files : gmap string (list Z)) (path : string) : result (list Z) :=
  or_throw (runtime_error ("Failed to open file: " +:+ path)) (files !! path).

Definition parseUpdateFile (fuel : list Z -> nat) (files : gmap string (list Z)) (path : string) : result ParsedUpdate :=
  data ← readFile files path;
  parseUpdateBytes (fuel data) data.
End parser.

(** ** Inflating returns *)

Lemma zlib_input_whole data : Z.of_nat (length data) < 2 ^ 32 -> zlib_input data = data.
Proof. intros H. unfold zlib_input, wrapu. rewrite Z.mod_small by lia. by rewrite Nat2Z.id, firstn_all. Qed.

Section inflating.
Context {I : Inflate} {L : InflateLaws I}.

Lemma inflate_loop_whole fuel strm capacity decompressed :
  (remaining strm < fuel)%nat -> (length decompressed <= capacity)%nat ->
  inflate_loop fuel strm capacity decompressed =
    match whole strm with
    | Some rest => Ok (decompressed ++ rest)
    | None => Throw (runtime_error "zlib decompression failed")
    end.
Proof.
  revert strm capacity decompressed. induction fuel as [|fuel IH]; intros strm capacity decompressed Hfuel Hcap; [lia|].
  cbn [inflate_loop]. set (capacity' := if (_ =? 0)%nat then _ else _).
  assert (Hroom : (length decompressed < capacity')%nat).
  { unfold capacity'. assert (0 < CHUNK_SIZE)%nat by (unfold CHUNK_SIZE; lia). destruct (Nat.eqb_spec (capacity - length decompressed) 0); lia. }
  destruct (inflate strm (capacity' - length decompressed)) as [[strm' out] ret] eqn:Hinf.
  pose proof (inflate_room _ _ _ _ _ Hinf) as Hlen.
  assert (Hpos : (0 < capacity' - length decompressed)%nat) by lia.
  rewrite (inflate_whole _ _ _ _ _ Hpos Hinf). destruct ret; [|done|done].
  pose proof (inflate_progress _ _ _ _ Hpos Hinf). rewrite IH; [|lia|rewrite length_app; lia].
  destruct (whole strm'); [|done]. cbn. by rewrite app_assoc.
Qed.
End inflating.

(** ** Parsing is the same for values no observation tells apart *)

Section proper.
Context {J : Json} {L : JsonLaws J}.

Lemma foldM_same {B} (f : B -> Value -> result B) b l l' :
  (forall b x x', same x x' -> f b x = f b x') -> Forall2 same l l' -> foldM f b l = foldM f b l'.
Proof.
  intros Hf Hl. revert b. induction Hl as [|x x' l l' Hx Hl IH]; intros b; [done|]. cbn. rewrite (Hf b x x' Hx).
  destruct (f b x'); [apply IH|done].
Qed.

Lemma mapM_same {B} (f : Value -> result B) l l' :
  (forall x x', same x x' -> f x = f x') -> Forall2 same l l' -> mapM f l = mapM f l'.
Proof.
  intros Hf Hl. induction Hl as [|x x' l l' Hx Hl IH]; [done|]. cbn. by rewrite (Hf x x' Hx), IH.
Qed.

Lemma nth_same l l' i : Forall2 same l l' -> same (nth i l null) (nth i l' null).
Proof. intros Hl. revert i. induction Hl as [|x x' l l' Hx Hl IH]; intros [|i]; cbn; done. Qed.

#[export] Instance shorter_same : Proper (same ==> eq ==> eq) shorter.
Proof.
  intros v v' Hv n ? <-. unfold shorter, array_size. rewrite (same_isArray _ _ Hv).
  by rewrite (Forall2_length _ _ _ (same_elements _ _ Hv)).
Qed.

Lemma element_same v v' i : isArray v = true -> same v v' -> same (element v i) (element v' i).
Proof.
  intros Ha Hv. pose proof Ha as Ha'. rewrite (same_isArray _ _ Hv) in Ha'. rewrite !element_nth by done.
  by apply nth_same, same_elements.
Qed.

Lemma shorter_array v n : shorter v n = false -> isArray v = true /\ (n <= array_size v)%nat.
Proof.
  unfold shorter. intros H. apply orb_false_iff in H as [Ha Hn]. split; [by destruct (isArray v)|].
  by apply Nat.ltb_ge in Hn.
Qed.

(** The rows and blocks below start with the same test; past it, the parts of
    two such arrays are the same, and so is what accessors read of them. *)
Ltac same_array Hv :=
  rewrite (shorter_same _ _ Hv _ _ eq_refl);
  match goal with |- context [if shorter ?v' ?n then _ else _] =>
    let Hs := fresh "Hs" in
    destruct (shorter v' n) eqn:Hs; [reflexivity|];
    rewrite <- (shorter_same _ _ Hv _ _ eq_refl) in Hs; apply shorter_array in Hs as [Hs _];
    repeat match goal with |- context [element ?v ?i] =>
      match type of Hv with same v v' =>
        let He := fresh "He" in
        pose proof (element_same v v' i Hs Hv) as He;
        try rewrite (same_asInt _ _ He); try rewrite (same_asInt64 _ _ He); try rewrite (same_asString _ _ He);
        try rewrite (same_isArray _ _ He);
        generalize dependent (element v i); intros
      end end
  end.

Lemma parse_hash_definition_same u v v' : same v v' -> parse_hash_definition u v = parse_hash_definition u v'.
Proof. intros Hv. unfold parse_hash_definition. same_array Hv. reflexivity. Qed.

Lemma parse_tag_definition_same u v v' : same v v' -> parse_tag_definition u v = parse_tag_definition u v'.
Proof. intros Hv. unfold parse_tag_definition. same_array Hv. reflexivity. Qed.

Lemma parse_definitions_entry_same u v v' : same v v' -> parse_definitions_entry u v = parse_definitions_entry u v'.
Proof.
  intros Hv. unfold parse_definitions_entry. same_array Hv. destruct (asInt _) as [t|e]; [|done]. cbn.
  case_match; [done|]. case_match; [|case_match; [|done]].
  - apply foldM_same; [|by apply same_elements]. apply parse_hash_definition_same.
  - apply foldM_same; [|by apply same_elements]. apply parse_tag_definition_same.
Qed.

Lemma parseDefinitionsUpdate_same v v' : same v v' -> parseDefinitionsUpdate v = parseDefinitionsUpdate v'.
Proof.
  intros Hv. unfold parseDefinitionsUpdate. rewrite (same_isArray _ _ Hv). case_match; [done|].
  apply foldM_same; [|by apply same_elements]. apply parse_definitions_entry_same.
Qed.

Lemma parse_mapping_row_same d u v v' : same v v' -> parse_mapping_row d u v = parse_mapping_row d u v'.
Proof.
  intros Hv. unfold parse_mapping_row. same_array Hv. destruct (asInt _) as [t|e]; [|done]. cbn. case_match; [|done].
  erewrite mapM_same; [reflexivity| |by apply same_elements]. apply same_asInt.
Qed.

Lemma parse_pair_row_same add u v v' : same v v' -> parse_pair_row add u v = parse_pair_row add u v'.
Proof. intros Hv. unfold parse_pair_row. same_array Hv. reflexivity. Qed.

Lemma parse_action_same t u v v' : same v v' -> parse_action t u v = parse_action t u v'.
Proof.
  intros Hv. unfold parse_action. same_array Hv. destruct (asInt _) as [a|e]; [|done]. cbn.
  do 2 (case_match; [done|]). case_match; [|case_match; [|case_match; [|done]]];
    (apply foldM_same; [|by apply same_elements]).
  - apply parse_mapping_row_same.
  - apply parse_pair_row_same.
  - apply parse_pair_row_same.
Qed.

Lemma parse_content_entry_same u v v' : same v v' -> parse_content_entry u v = parse_content_entry u v'.
Proof.
  intros Hv. unfold parse_content_entry. same_array Hv. destruct (asInt _) as [t|e]; [|done]. cbn. case_match; [done|].
  apply foldM_same; [|by apply same_elements]. apply parse_action_same.
Qed.

Lemma parseContentUpdate_same v v' : same v v' -> parseContentUpdate v = parseContentUpdate v'.
Proof.
  intros Hv. unfold parseContentUpdate. rewrite (same_isArray _ _ Hv). case_match; [done|].
  apply foldM_same; [|by apply same_elements]. apply parse_content_entry_same.
Qed.

Lemma parse_metadata_entry_same u v v' : same v v' -> parse_metadata_entry u v = parse_metadata_entry u v'.
Proof.
  intros Hv. unfold parse_metadata_entry. same_array Hv. destruct (asInt _) as [t|e]; [|done]. cbn. case_match; [done|].
  erewrite mapM_same; [reflexivity| |by apply same_elements]. apply same_asString.
Qed.

Lemma parseMetadataUpdate_same v v' : same v v' -> parseMetadataUpdate v = parseMetadataUpdate v'.
Proof.
  intros Hv. unfold parseMetadataUpdate. same_array Hv. destruct (asInt64 _) as [t|e]; [|done]. cbn. case_match; [done|].
  erewrite foldM_same; [reflexivity| |by apply same_elements]. apply parse_metadata_entry_same.
Qed.

Lemma parseUpdateJson_same v v' : same v v' -> parseUpdateJson v = parseUpdateJson v'.
Proof.
  intros Hv. unfold parseUpdateJson. same_array Hv. destruct (asInt _) as [t|e]; [|done]. cbn.
  destruct (asInt _) as [ver|e]; [|done]. cbn.
  erewrite parseDefinitionsUpdate_same, parseContentUpdate_same, parseMetadataUpdate_same by done. reflexivity.
Qed.
End proper.

(** ** The format the parser reads

    Updates as the server of the repository writes them. *)
Module HydrusFormat.
Section format.
Context {J : Json}.

Definition definition (d : Z * string) : Value := array_of [of_int (fst d); of_string (snd d)].
Definition mapping (m : ContentUpdateMapping) : Value := array_of [of_int (mapping_tag_id m); array_of (of_int <$> hash_ids m)].
Definition pair (p : Z * Z) : Value := array_of [of_int (fst p); of_int (snd p)].

(** A block of a content update: a type, the rows added, the rows deleted. *)
Definition block {A} (row : A -> Value) (content_type : Z) (added deleted : list A) : Value :=
  array_of [of_int content_type;
    array_of [array_of [of_int CONTENT_UPDATE_ADD; array_of (row <$> added)];
              array_of [of_int CONTENT_UPDATE_DELETE; array_of (row <$> deleted)]]].

Definition update (serialisable_type version : Z) (info : Value) : Value :=
  array_of [of_int serialisable_type; of_int version; info].

Definition definitions (version : Z) (hs ts : list (Z * string)) : Value :=
  update SERIALISABLE_TYPE_DEFINITIONS_UPDATE version
    (array_of [array_of [of_int DEFINITIONS_TYPE_HASHES; array_of (definition <$> hs)];
               array_of [of_int DEFINITIONS_TYPE_TAGS; array_of (definition <$> ts)]]).

Definition content (version : Z) (u : ContentUpdate) : Value :=
  update SERIALISABLE_TYPE_CONTENT_UPDATE version
    (array_of [block mapping CONTENT_TYPE_MAPPINGS (mappings_add u) (mappings_delete u);
               block pair CONTENT_TYPE_TAG_PARENTS (tag_parents_add u) (tag_parents_delete u);
               block pair CONTENT_TYPE_TAG_SIBLINGS (tag_siblings_add u) (tag_siblings_delete u)]).

Definition metadata_entry (e : MetadataUpdateEntry) : Value :=
  array_of [of_int (index e); array_of (of_string <$> hashes e); of_int (entry_begin e); of_int (entry_end e)].

Definition metadata (version : Z) (us : list MetadataUpdateEntry) (due : Z) : Value :=
  update SERIALISABLE_TYPE_METADATA version (array_of [array_of (metadata_entry <$> us); of_int due]).

(** The same entries as the program caches them. *)
Definition cache_entry (e : MetadataUpdateEntry) : Value :=
  object_of [("index", of_int (index e)); ("hashes", array_of (of_string <$> hashes e));
             ("begin", of_int (entry_begin e)); ("end", of_int (entry_end e))].

Definition cache (us : list MetadataUpdateEntry) (due : Z) : Value :=
  object_of [("updates", array_of (cache_entry <$> us)); ("next_update_due", of_int due)].

Inductive Source :=
| Defs (hs ts : list (Z * string))
| Cont (u : ContentUpdate)
| Meta (us : list MetadataUpdateEntry) (due : Z).

Definition encode (version : Z) (s : Source) : Value :=
  match s with
  | Defs hs ts => definitions version hs ts
  | Cont u => content version u
  | Meta us due => metadata version us due
  end.
End format.

Definition in_int (n : Z) : Prop := int32_min <= n <= int32_max.
Definition in_int64 (n : Z) : Prop := int64_min <= n <= int64_max.
Definition definition_ok (d : Z * string) : Prop := in_int (fst d).
Definition mapping_ok (m : ContentUpdateMapping) : Prop := in_int (mapping_tag_id m) /\ Forall in_int (hash_ids m).
Definition pair_ok (p : Z * Z) : Prop := in_int (fst p) /\ in_int (snd p).
Definition entry_ok (e : MetadataUpdateEntry) : Prop := in_int (index e) /\ in_int64 (entry_begin e) /\ in_int64 (entry_end e).

Definition source_ok (s : Source) : Prop :=
  match s with
  | Defs hs ts => Forall definition_ok hs /\ Forall definition_ok ts
  | Cont u =>
      Forall mapping_ok (mappings_add u) /\ Forall mapping_ok (mappings_delete u)
      /\ Forall pair_ok (tag_parents_add u) /\ Forall pair_ok (tag_parents_delete u)
      /\ Forall pair_ok (tag_siblings_add u) /\ Forall pair_ok (tag_siblings_delete u)
  | Meta us due => Forall entry_ok us /\ in_int64 due
  end.

(** The first definition of an id, its null bytes dropped from a tag. *)
Definition first_definitions (f : string -> string) (l : list (Z * string)) : gmap Z string :=
  foldl (fun m d => emplace (fst d) (f (snd d)) m) ∅ l.

Definition meaning (s : Source) : ParsedUpdate :=
  match s with
  | Defs hs ts => ParsedDefinitions (mkDefinitionsUpdate (first_definitions id hs) (first_definitions erase_nulls ts))
  | Cont u => ParsedContent u
  | Meta us due => ParsedMetadata (mkMetadataUpdate us (Some due))
  end.

Section roundtrip.
Context {J : Json} {L : JsonLaws J}.

Lemma shorter_array_of l n : shorter (array_of l) n = (length l <? n)%nat.
Proof. unfold shorter. by rewrite isArray_array_of, size_array_of. Qed.

(** A loop over encoded rows, each of which it reads back. *)
Lemma foldM_rows {A B} (f : B -> Value -> result B) (g : B -> A -> B) (row : A -> Value) (P : A -> Prop) b l :
  (forall b x, P x -> f b (row x) = Ok (g b x)) -> Forall P l ->
  foldM f b (elements (array_of (row <$> l))) = Ok (foldl g b l).
Proof.
  intros Hf Hl. rewrite elements_array_of, foldM_fmap. apply foldM_pure. intros b' x Hx. apply Hf.
  by rewrite Forall_forall in Hl; apply Hl.
Qed.

Lemma mapM_ok {A B} (f : Value -> result B) (row : A -> Value) (g : A -> B) (P : A -> Prop) l :
  (forall x, P x -> f (row x) = Ok (g x)) -> Forall P l -> mapM f (row <$> l) = Ok (g <$> l).
Proof. intros Hf. induction 1 as [|x l Hx Hl IH]; [done|]. cbn. by rewrite Hf, IH by done. Qed.

Ltac read_array := rewrite ?shorter_array_of, ?element_array_of, ?isArray_array_of; cbn [length Nat.ltb Nat.leb nth negb].

Lemma parse_hash_definition_row u d : definition_ok d ->
  parse_hash_definition u (definition d) =
    Ok (mkDefinitionsUpdate (emplace (fst d) (snd d) (hash_ids_to_hashes u)) (tag_ids_to_tags u)).
Proof. intros Hd. unfold parse_hash_definition, definition. read_array. by rewrite asInt_of, asString_of. Qed.

Lemma parse_tag_definition_row u d : definition_ok d ->
  parse_tag_definition u (definition d) =
    Ok (mkDefinitionsUpdate (hash_ids_to_hashes u) (emplace (fst d) (erase_nulls (snd d)) (tag_ids_to_tags u))).
Proof. intros Hd. unfold parse_tag_definition, definition. read_array. by rewrite asInt_of, asString_of. Qed.

Lemma parse_mapping_row_row b u m : mapping_ok m -> parse_mapping_row b u (mapping m) = Ok (add_mapping b m u).
Proof.
  intros [Ht Hh]. unfold parse_mapping_row, mapping. read_array. rewrite asInt_of by done. cbn [mbind result_bind].
  read_array. rewrite elements_array_of, (mapM_ok asInt of_int id in_int) by (done || apply asInt_of). rewrite list_fmap_id.
  by destruct m.
Qed.

Lemma parse_pair_row_row add u p : pair_ok p -> parse_pair_row add u (pair p) = Ok (add p u).
Proof.
  intros [Ha Hb]. unfold parse_pair_row, pair. read_array. rewrite !asInt_of by done. by destruct p.
Qed.

Lemma small_int n : 0 <= n <= 37 -> in_int n.
Proof. unfold in_int, int32_min, int32_max. lia. Qed.

Definition action (is_delete : bool) : Z := if is_delete then CONTENT_UPDATE_DELETE else CONTENT_UPDATE_ADD.

(** The rows of one action, given what the content type does with them. *)
Lemma parse_action_rows {A} (rows : bool -> ContentUpdate -> Value -> result ContentUpdate) (row : A -> Value)
    (add : bool -> A -> ContentUpdate -> ContentUpdate) (P : A -> Prop) t d u l :
  (forall d u v, (if t =? CONTENT_TYPE_MAPPINGS then foldM (parse_mapping_row d) u (elements v)
     else if t =? CONTENT_TYPE_TAG_PARENTS then foldM (parse_pair_row (add_parent d)) u (elements v)
     else if t =? CONTENT_TYPE_TAG_SIBLINGS then foldM (parse_pair_row (add_sibling d)) u (elements v)
     else Ok u) = foldM (rows d) u (elements v)) ->
  (forall d u x, P x -> rows d u (row x) = Ok (add d x u)) -> Forall P l ->
  parse_action t u (array_of [of_int (action d); array_of (row <$> l)]) = Ok (foldl (fun u x => add d x u) u l).
Proof.
  intros Hrows Hadd Hl. unfold parse_action. read_array.
  rewrite asInt_of by (apply small_int; by destruct d). cbn [mbind result_bind].
  assert (Hd : (action d =? CONTENT_UPDATE_DELETE) = d) by by destruct d.
  assert (Hk : negb (action d =? CONTENT_UPDATE_ADD) && negb (action d =? CONTENT_UPDATE_DELETE) = false) by by destruct d.
  rewrite Hk, Hd. read_array. rewrite Hrows. apply (foldM_rows _ (fun u x => add d x u) row P); auto.
Qed.

Lemma parse_block {A} (rows : bool -> ContentUpdate -> Value -> result ContentUpdate) (row : A -> Value)
    (add : bool -> A -> ContentUpdate -> ContentUpdate) (P : A -> Prop) t u added deleted :
  (forall d u v, (if t =? CONTENT_TYPE_MAPPINGS then foldM (parse_mapping_row d) u (elements v)
     else if t =? CONTENT_TYPE_TAG_PARENTS then foldM (parse_pair_row (add_parent d)) u (elements v)
     else if t =? CONTENT_TYPE_TAG_SIBLINGS then foldM (parse_pair_row (add_sibling d)) u (elements v)
     else Ok u) = foldM (rows d) u (elements v)) ->
  (forall d u x, P x -> rows d u (row x) = Ok (add d x u)) ->
  0 <= t <= 37 -> Forall P added -> Forall P deleted ->
  parse_content_entry u (block row t added deleted) =
    Ok (foldl (fun u x => add true x u) (foldl (fun u x => add false x u) u added) deleted).
Proof.
  intros Hrows Hadd Ht Ha Hd. unfold parse_content_entry, block. read_array.
  rewrite asInt_of by by apply small_int. cbn [mbind result_bind]. read_array. rewrite elements_array_of. cbn [foldM].
  rewrite (parse_action_rows rows row add P t false _ _ Hrows Hadd Ha). cbn [mbind result_bind].
  by rewrite (parse_action_rows rows row add P t true _ _ Hrows Hadd Hd).
Qed.

(** The lists a block's rows are added to grow by these rows. *)
Ltac grow l := induction l as [|x l IH] using rev_ind; [by rewrite ?app_nil_r|]; rewrite foldl_app, IH; cbn; by rewrite ?app_assoc.

Lemma add_mappings u d l : foldl (fun u x => add_mapping d x u) u l =
  if d then mkContentUpdate (mappings_add u) (tag_parents_add u) (tag_siblings_add u)
      (mappings_delete u ++ l) (tag_parents_delete u) (tag_siblings_delete u)
  else mkContentUpdate (mappings_add u ++ l) (tag_parents_add u) (tag_siblings_add u)
      (mappings_delete u) (tag_parents_delete u) (tag_siblings_delete u).
Proof. destruct u, d; cbn; grow l. Qed.

Lemma add_parents u d l : foldl (fun u x => add_parent d x u) u l =
  if d then mkContentUpdate (mappings_add u) (tag_parents_add u) (tag_siblings_add u)
      (mappings_delete u) (tag_parents_delete u ++ l) (tag_siblings_delete u)
  else mkContentUpdate (mappings_add u) (tag_parents_add u ++ l) (tag_siblings_add u)
      (mappings_delete u) (tag_parents_delete u) (tag_siblings_delete u).
Proof. destruct u, d; cbn; grow l. Qed.

Lemma add_siblings u d l : foldl (fun u x => add_sibling d x u) u l =
  if d then mkContentUpdate (mappings_add u) (tag_parents_add u) (tag_siblings_add u)
      (mappings_delete u) (tag_parents_delete u) (tag_siblings_delete u ++ l)
  else mkContentUpdate (mappings_add u) (tag_parents_add u) (tag_siblings_add u ++ l)
      (mappings_delete u) (tag_parents_delete u) (tag_siblings_delete u).
Proof. destruct u, d; cbn; grow l. Qed.

Ltac small := apply small_int; split; vm_compute; discriminate.

(** The head of an update: its type and version. *)
Lemma parse_update t version info : in_int t -> in_int version ->
  parseUpdateJson (update t version info) =
    (if t =? SERIALISABLE_TYPE_DEFINITIONS_UPDATE then ParsedDefinitions <$> parseDefinitionsUpdate info
     else if t =? SERIALISABLE_TYPE_CONTENT_UPDATE then ParsedContent <$> parseContentUpdate info
     else if t =? SERIALISABLE_TYPE_METADATA then ParsedMetadata <$> parseMetadataUpdate info
     else Throw (runtime_error ("Unknown serialisable type: " +:+ to_string t))).
Proof.
  intros Ht Hv. unfold parseUpdateJson, update. read_array.
  rewrite !asInt_of by done. done.
Qed.

Lemma parse_content version u : in_int version -> source_ok (Cont u) ->
  parseUpdateJson (content version u) = Ok (ParsedContent u).
Proof.
  intros Hv (Hma & Hmd & Hpa & Hpd & Hsa & Hsd). unfold content. rewrite parse_update; [|small|done].
  cbn [Z.eqb Pos.eqb SERIALISABLE_TYPE_CONTENT_UPDATE SERIALISABLE_TYPE_DEFINITIONS_UPDATE].
  unfold parseContentUpdate. read_array. rewrite elements_array_of. cbn [foldM].
  rewrite (parse_block parse_mapping_row mapping add_mapping mapping_ok); [|done|apply parse_mapping_row_row|done..].
  cbn [mbind result_bind].
  rewrite (parse_block (fun d => parse_pair_row (add_parent d)) pair add_parent pair_ok);
    [|done|intros; by apply parse_pair_row_row|done..].
  cbn [mbind result_bind].
  rewrite (parse_block (fun d => parse_pair_row (add_sibling d)) pair add_sibling pair_ok);
    [|done|intros; by apply parse_pair_row_row|done..].
  rewrite !add_mappings, !add_parents, !add_siblings. by destruct u.
Qed.

Lemma fold_hashes u l :
  foldl (fun u d => mkDefinitionsUpdate (emplace (fst d) (snd d) (hash_ids_to_hashes u)) (tag_ids_to_tags u)) u l
    = mkDefinitionsUpdate (foldl (fun m d => emplace (fst d) (id (snd d)) m) (hash_ids_to_hashes u) l) (tag_ids_to_tags u).
Proof. revert u. induction l as [|d l IH]; intros [a b]; [done|]. cbn [foldl]. by rewrite IH. Qed.

Lemma fold_tags u l :
  foldl (fun u d => mkDefinitionsUpdate (hash_ids_to_hashes u) (emplace (fst d) (erase_nulls (snd d)) (tag_ids_to_tags u))) u l
    = mkDefinitionsUpdate (hash_ids_to_hashes u) (foldl (fun m d => emplace (fst d) (erase_nulls (snd d)) m) (tag_ids_to_tags u) l).
Proof. revert u. induction l as [|d l IH]; intros [a b]; [done|]. cbn [foldl]. by rewrite IH. Qed.

Lemma parse_definitions version hs ts : in_int version -> source_ok (Defs hs ts) ->
  parseUpdateJson (definitions version hs ts) =
    Ok (ParsedDefinitions (mkDefinitionsUpdate (first_definitions id hs) (first_definitions erase_nulls ts))).
Proof.
  intros Hv [Hh Ht]. unfold definitions. rewrite parse_update; [|small|done].
  cbn [Z.eqb Pos.eqb SERIALISABLE_TYPE_DEFINITIONS_UPDATE]. unfold parseDefinitionsUpdate. read_array.
  rewrite elements_array_of. cbn [foldM]. unfold parse_definitions_entry. read_array.
  rewrite ?asInt_of by small. cbn [mbind result_bind Z.eqb DEFINITIONS_TYPE_HASHES DEFINITIONS_TYPE_TAGS]. read_array.
  erewrite foldM_rows; [|apply parse_hash_definition_row|done]. cbn [mbind result_bind]. read_array.
  rewrite ?asInt_of by small. cbn [mbind result_bind Z.eqb DEFINITIONS_TYPE_HASHES DEFINITIONS_TYPE_TAGS]. read_array.
  erewrite foldM_rows; [|apply parse_tag_definition_row|done]. cbn [mbind result_bind].
  by rewrite fold_hashes, fold_tags.
Qed.

Lemma strings_ok l : mapM asString (of_string <$> l) = Ok l.
Proof. 
  rewrite (mapM_ok asString of_string id (fun _ => True)); [|intros; apply asString_of|by apply Forall_true].
  by rewrite list_fmap_id.
 Qed.

Lemma parse_metadata_entry_row u e : entry_ok e -> parse_metadata_entry u (metadata_entry e) = Ok (u ++ [e]).
Proof.
  intros (Hi & Hb & He). unfold parse_metadata_entry, metadata_entry. read_array. rewrite asInt_of by done.
  cbn [mbind result_bind]. read_array. rewrite elements_array_of, strings_ok. cbn [mbind result_bind].
  rewrite !asInt64_of by done. by destruct e.
Qed.

Lemma parse_metadata version us due : in_int version -> source_ok (Meta us due) ->
  parseUpdateJson (metadata version us due) = Ok (ParsedMetadata (mkMetadataUpdate us (Some due))).
Proof.
  intros Hv [Hus Hdue]. unfold metadata. rewrite parse_update; [|small|done].
  cbn [Z.eqb Pos.eqb SERIALISABLE_TYPE_METADATA SERIALISABLE_TYPE_CONTENT_UPDATE SERIALISABLE_TYPE_DEFINITIONS_UPDATE].
  unfold parseMetadataUpdate. read_array. rewrite asInt64_of by done. cbn [mbind result_bind]. read_array.
  erewrite foldM_rows; [|apply parse_metadata_entry_row|done]. by rewrite foldl_collect.
Qed.

Lemma parse_encode version s : in_int version -> source_ok s -> parseUpdateJson (encode version s) = Ok (meaning s).
Proof.
  intros Hv Hs. destruct s as [hs ts|u|us due]; [by apply parse_definitions|by apply parse_content|by apply parse_metadata].
Qed.


Lemma parse_cache_entry_row u e : entry_ok e -> parse_cache_entry u (cache_entry e) = Ok (u ++ [e]).
Proof.
  intros (Hi & Hb & He).
  assert (Hm : forall k x, (k, x) ∈ [("index", of_int (index e)); ("hashes", array_of (of_string <$> hashes e));
      ("begin", of_int (entry_begin e)); ("end", of_int (entry_end e))] -> member (cache_entry e) k = Ok x).
  { intros k x Hin. apply object_member; [|done]. by apply (bool_decide_eq_true_1 (NoDup _)). }
  unfold parse_cache_entry.
  rewrite (Hm "hashes" (array_of (of_string <$> hashes e))) by set_solver. cbn [mbind result_bind]. read_array.
  rewrite (Hm "index" (of_int (index e))) by set_solver. cbn [mbind result_bind].
  rewrite asInt_of by done. cbn [mbind result_bind]. rewrite elements_array_of, strings_ok. cbn [mbind result_bind].
  rewrite (Hm "begin" (of_int (entry_begin e))) by set_solver. cbn [mbind result_bind].
  rewrite asInt64_of by done. cbn [mbind result_bind].
  rewrite (Hm "end" (of_int (entry_end e))) by set_solver. cbn [mbind result_bind].
  rewrite asInt64_of by done. by destruct e.
Qed.

Lemma parse_cache us due : source_ok (Meta us due) ->
  parseMetadataCacheJson (cache us due) = Ok (mkMetadataUpdate us (Some due)).
Proof.
  intros [Hus Hdue].
  assert (Hm : forall k x, (k, x) ∈ [("updates", array_of (cache_entry <$> us)); ("next_update_due", of_int due)] ->
    member (cache us due) k = Ok x /\ isMember (cache us due) k = true).
  { intros k x Hin. apply object_member; [|done]. by apply (bool_decide_eq_true_1 (NoDup _)). }
  destruct (Hm "updates" (array_of (cache_entry <$> us))) as [Hu _]; [set_solver|].
  destruct (Hm "next_update_due" (of_int due)) as [Hd Hi]; [set_solver|].
  unfold parseMetadataCacheJson. rewrite Hu. cbn [mbind result_bind]. read_array.
  erewrite foldM_rows; [|apply parse_cache_entry_row|done]. rewrite foldl_collect. cbn [mbind result_bind app].
  rewrite get_member, Hi, Hd by apply isObject_object_of. cbn [mbind result_bind]. by rewrite asInt64_of.
Qed.
End roundtrip.
End HydrusFormat.

(** ** Exceptions carry a message *)

Section messages.
Context {J : Json} {L : JsonLaws J} {I : Inflate}.

Definition has_message {A} (r : result A) : Prop := match r with Ok _ => True | Throw e => exn_what e <> EmptyString end.

Lemma has_message_throw {A} (r : result A) e : has_message r -> r = Throw e -> exn_what e <> EmptyString.
Proof. by intros H ->. Qed.

Lemma has_message_bind {A B} (r : result A) (f : A -> result B) :
  has_message r -> (forall x, has_message (f x)) -> has_message (r ≫= f).
Proof. intros Hr Hf. destruct r as [x|e]; [apply Hf|exact Hr]. Qed.

Lemma has_message_fmap {A B} (r : result A) (f : A -> B) : has_message r -> has_message (f <$> r).
Proof. by destruct r. Qed.

Lemma has_message_foldM {A B} (f : B -> A -> result B) b l : (forall b x, has_message (f b x)) -> has_message (foldM f b l).
Proof. intros Hf. revert b. induction l as [|x l IH]; intros b; [done|]. cbn. apply has_message_bind; [apply Hf|apply IH]. Qed.

Lemma has_message_mapM {A B} (f : A -> result B) l : (forall x, has_message (f x)) -> has_message (mapM f l).
Proof.
  intros Hf. induction l as [|x l IH]; [done|]. cbn. apply has_message_bind; [apply Hf|]. intros y.
  by apply has_message_bind.
Qed.

Lemma has_message_asInt v : has_message (asInt v).
Proof. destruct (asInt v) eqn:H; [done|]. by apply asInt_message in H. Qed.
Lemma has_message_asInt64 v : has_message (asInt64 v).
Proof. destruct (asInt64 v) eqn:H; [done|]. by apply asInt64_message in H. Qed.
Lemma has_message_asString v : has_message (asString v).
Proof. destruct (asString v) eqn:H; [done|]. by apply asString_message in H. Qed.

Ltac message :=
  repeat first [ done | apply has_message_asInt | apply has_message_asInt64 | apply has_message_asString
    | apply has_message_foldM; intros | apply has_message_mapM; intros | apply has_message_fmap
    | apply has_message_bind; [|intros] | case_match ].

Lemma parseUpdateJson_message root : has_message (parseUpdateJson root).
Proof.
  unfold parseUpdateJson, parseDefinitionsUpdate, parseContentUpdate, parseMetadataUpdate, parse_definitions_entry,
    parse_content_entry, parse_metadata_entry, parse_hash_definition, parse_tag_definition, parse_action,
    parse_mapping_row, parse_pair_row.
  message.
Qed.

Lemma parseUpdateFile_message fuel files path : has_message (parseUpdateFile fuel files path).
Proof.
  unfold parseUpdateFile, parseUpdateBytes, decompressToJson, readFile.
  apply has_message_bind; [unfold or_throw; by case_match|]. intros data.
  apply has_message_bind; [|apply parseUpdateJson_message]. apply has_message_bind; [|intros; by case_match].
  generalize (inflateInit2 (zlib_input data)) as strm, CHUNK_SIZE as n, ([] : list Z) as out, (fuel data) as m.
  intros strm n out m. revert strm n out. induction m as [|m IH]; intros; [done|]. cbn. destruct (inflate _ _) as [[s o] [| |]]; [apply IH|done|done].
Qed.
End messages.

(** ** Theorems *)

(** C9: reading an update file always returns: its bytes inflate, whatever they
    are and however zlib splits its output, to what the stream holds in all, or
    the error says that zlib or the JSON reader failed.  The JSON of any
    definitions, content or metadata update, in the format of the repository,
    reads back as that update: every row in order with its sign, the first
    definition of an id, and tags without null bytes.  The bytes are all of the
    file below 4 GiB; of a larger one zlib is given as many as its size has
    beyond a multiple of 4 GiB. *)
Theorem parseUpdateBytes_reads {J : Json} (LJ : JsonLaws J) {I : Inflate} (LI : InflateLaws I) (fuel : nat) (data : list Z)
    (Hfuel : (remaining (inflateInit2 (zlib_input data)) < fuel)%nat) :
  (whole (inflateInit2 (zlib_input data)) = None -> parseUpdateBytes fuel data = Throw (runtime_error "zlib decompression failed"))
  /\ (forall text errors, whole (inflateInit2 (zlib_input data)) = Some text -> parse text = inl errors ->
       parseUpdateBytes fuel data = Throw (runtime_error ("JSON parse error: " +:+ errors)))
  /\ (forall text root version s, whole (inflateInit2 (zlib_input data)) = Some text -> parse text = inr root ->
       HydrusFormat.in_int version -> HydrusFormat.source_ok s -> same (HydrusFormat.encode version s) root ->
       parseUpdateBytes fuel data = Ok (HydrusFormat.meaning s))
  /\ (Z.of_nat (length data) < 2 ^ 32 -> zlib_input data = data).
Proof.
  unfold parseUpdateBytes, decompressToJson. rewrite inflate_loop_whole by (done || cbn; lia). cbn [app].
  split_and!.
  - by intros ->.
  - intros text errors -> Hparse. cbn [mbind result_bind]. by rewrite Hparse.
  - intros text root version s -> Hparse Hv Hs Hsame. cbn [mbind result_bind]. rewrite Hparse. cbn [mbind result_bind].
    rewrite <- (parseUpdateJson_same _ _ Hsame). by apply HydrusFormat.parse_encode.
  - apply zlib_input_whole.
Qed.

(** *** Witness *)

(** zlib without compression: each byte kept one higher and a zero to end
    with, read back one byte at a time. *)
Module Example_inflate.
Definition stored : Inflate := {|
  stream := list Z;
  inflateInit2 l := l;
  inflate s n :=
    match s, n with
    | [], _ => ([], [], Z_ERROR (-5))
    | b :: s', O => (s, [], Z_ERROR (-5))
    | b :: s', S _ => if bool_decide (s = [0]) then ([], [], Z_STREAM_END) else (s', [b - 1], Z_OK)
    end
|}.

Fixpoint contents (s : list Z) : option (list Z) :=
  match s with
  | [] => None
  | b :: s' => if bool_decide (s = [0]) then Some [] else (fun rest => b - 1 :: rest) <$> contents s'
  end.

#[export] Program Instance stored_laws : InflateLaws stored := {| remaining := length; whole := contents |}.
Next Obligation. intros [|b s] [|n] s' out r H; cbn in H; repeat case_match; simplify_eq; cbn; lia. Qed.
Next Obligation. intros [|b s] [|n] s' out Hn H; cbn in H; repeat case_match; simplify_eq; cbn; lia. Qed.
Next Obligation. intros [|b s] [|n] s' out r Hn H; cbn in H |- *; repeat case_match; simplify_eq; try done; lia. Qed.

Definition store (l : list Z) : list Z := ((fun b => b + 1) <$> l) ++ [0].

Definition update : ContentUpdate := mkContentUpdate [mkMapping 7 [1; 2]] [(7, 8)] [] [mkMapping 9 []] [] [(7, 9)].
Definition bytes : list Z := store (write (Json := Example_json.document) (HydrusFormat.content 1 update)).

Lemma bytes_short : (@remaining stored stored_laws (inflateInit2 (zlib_input bytes)) < 10)%nat.
Proof. change (length (zlib_input bytes) < 10)%nat. vm_compute. lia. Qed.

Lemma bytes_whole : @whole stored stored_laws (inflateInit2 (zlib_input bytes)) = Some (write (Json := Example_json.document) (HydrusFormat.content 1 update)).
Proof. change (contents (zlib_input bytes) = Some (write (Json := Example_json.document) (HydrusFormat.content 1 update))). vm_compute. reflexivity. Qed.

Lemma update_ok : HydrusFormat.source_ok (HydrusFormat.Cont update).
Proof. split_and!; repeat constructor; cbn; unfold int32_min, int32_max; lia. Qed.
End Example_inflate.

Lemma parseUpdateBytes_reads_witness :
  parseUpdateBytes (J := Example_json.document) (I := Example_inflate.stored) 10 Example_inflate.bytes
    = Ok (ParsedContent Example_inflate.update).
Proof.
  destruct (parse_write (JsonLaws := Example_json.document_laws) (HydrusFormat.content 1 Example_inflate.update) Logic.I)
    as (root & Hparse & Hsame).
  exact (proj1 (proj2 (proj2 (parseUpdateBytes_reads Example_json.document_laws Example_inflate.stored_laws 10 _ Example_inflate.bytes_short)))
    _ root 1 (HydrusFormat.Cont Example_inflate.update) Example_inflate.bytes_whole Hparse
    (HydrusFormat.small_int 1 ltac:(lia)) Example_inflate.update_ok Hsame).
Defined.
