(* ===== verification/PtrScan.v ===== *)
(** * Scanning the corpus: [FlattenScan.cpp]

    [scanCorpus] gives every update file of the corpus to the worker pool.  A
    worker parses its file and writes definitions to the store and events to
    the buckets with no lock of its own, so its body is a state machine whose
    pauses are the points where another worker can come in between: each
    definition and each event is a move (a tag is three, as in [PtrStore.v]).
    The relation events of a file are merged under a lock at the end. *)
From S2P Require Import Prelude StringView Json Bytes PtrEvents PtrStore PtrPool PtrParse.
From Stdlib Require Import Ascii.

(** ** Data *)

(** One update file to process: its name and the update it belongs to. *)
Record ScanWorkItem := mkItem { hash_hex : string; item_update_index : Z }.

Definition update_relation (update_index : Z) (op : EventOp) (p : Z * Z) : RelationEvent :=
  mkRelationEvent (wrapu 32 (fst p)) (wrapu 32 (snd p)) update_index (EventOp_value op) 0.

Definition appendRelations (out : list RelationEvent) (pairs : list (Z * Z)) (update_index : Z) (op : EventOp)
    : list RelationEvent :=
  out ++ (update_relation update_index op <$> pairs).

(** The events [spillMappings] writes, in order. *)
Definition mapping_events (mappings : list ContentUpdateMapping) (update_index : Z) (op : EventOp) : list MappingEvent :=
  concat ((fun m => (fun hash_id => mkEvent (wrapu 32 hash_id) (wrapu 32 (mapping_tag_id m)) update_index (EventOp_value op) 0)
    <$> hash_ids m) <$> mappings).

Record ScanResult := mkScanResult {
  first_update_index : Z;
  last_update_index : Z;
  result_events_written : Z;
  result_skipped_files : Z;
  rejected_hashes : Z;
  result_parents : list RelationEvent;
  result_siblings : list RelationEvent;
  scan_cancelled : bool
}.

(** What the callbacks are told when a file is done. *)
Record Report := mkReport {
  report_done : nat;
  report_total : nat;
  report_update : Z;
  report_events : Z;
  report_skipped : Z
}.

(** Everything the workers share. *)
Record Scan := mkScan {
  definitions : DefinitionWriter;
  spill : BucketWriter * gmap string (list Z);
  events_written : Z;
  skipped_files : Z;
  files_done : nat;
  parents : list RelationEvent;
  siblings : list RelationEvent;
  reports : list Report
}.

(** A worker between two accesses to what is shared. *)
Inductive ScanPhase :=
| Defining (hs ts : list (Z * string))
| Texting (tag_id : Z) (tag : string) (offset : Z) (ts : list (Z * string))
| Indexing (tag_id : Z) (tag : string) (offset : Z) (ts : list (Z * string))
| Spilling (events : list MappingEvent) (spilled : Z) (ps ss : list RelationEvent)
| Finishing (ps ss : list RelationEvent)
| Merging (done : nat) (ps ss : list RelationEvent).

Record ScanWork := mkScanWork { work_item : ScanWorkItem; phase : ScanPhase }.

Definition set_definitions (w : DefinitionWriter) (s : Scan) : Scan :=
  mkScan w (spill s) (events_written s) (skipped_files s) (files_done s) (parents s) (siblings s) (reports s).
Definition set_spill (b : BucketWriter * gmap string (list Z)) (s : Scan) : Scan :=
  mkScan (definitions s) b (events_written s) (skipped_files s) (files_done s) (parents s) (siblings s) (reports s).

(** ** The workers *)

Section scan.
Context {J : Json} {I : Inflate}.
(** The directory of update files, the fuel inflating each takes, and the
    order in which an [unordered_map] is visited. *)
Context (ptr_dir : gmap string (list Z)) (fuel : list Z -> nat) (iterate : gmap Z string -> list (Z * string)).
Context (items : list ScanWorkItem).

Definition item_path (item : ScanWorkItem) : string := hash_hex item +:+ ".ptrupdate".

Definition skip_file (s : Scan) : Scan :=
  mkScan (definitions s) (spill s) (events_written s) (skipped_files s + 1) (files_done s) (parents s) (siblings s) (reports s).

(** The start of the body: the poll, and what the file holds.  An exception
    without a message would be taken for a parsed file that is not there. *)
Definition begin_file (index : nat) (cancelled : bool) (s : Scan) : Scan * @Outcome ScanWork :=
  if cancelled then (s, Return false)
  else match items !! index with
  | None => (s, Raise (undefined_behaviour "index past the end of a vector"))
  | Some item =>
      let path := item_path item in
      let i := item_update_index item in
      let next := fun p => Continue (mkScanWork item p) in
      match ptr_dir !! path with
      | None => (skip_file s, next (Finishing [] []))
      | Some _ =>
          match parseUpdateFile fuel ptr_dir path with
          | Throw e =>
              if sempty (exn_what e) then (s, Raise (undefined_behaviour "an empty optional dereferenced"))
              else (skip_file s, next (Finishing [] []))
          | Ok (ParsedDefinitions defs) =>
              (s, next (Defining (iterate (hash_ids_to_hashes defs)) (iterate (tag_ids_to_tags defs))))
          | Ok (ParsedContent content) =>
              (s, next (Spilling
                (mapping_events (mappings_add content) i Add ++ mapping_events (mappings_delete content) i Delete) 0
                (appendRelations (appendRelations [] (tag_parents_add content) i Add) (tag_parents_delete content) i Delete)
                (appendRelations (appendRelations [] (tag_siblings_add content) i Add) (tag_siblings_delete content) i Delete)))
          | Ok (ParsedMetadata _) => (s, next (Finishing [] []))
          end
      end
  end.

Definition resume_file (w : ScanWork) (s : Scan) : Scan * @Outcome ScanWork :=
  let next := fun p => Continue (mkScanWork (work_item w) p) in
  match phase w with
  | Defining ((hash_id, hex) :: hs) ts =>
      (set_definitions (fst (writeHash (wrapu 32 hash_id) hex (definitions s))) s, next (Defining hs ts))
  | Defining [] ((tag_id, tag) :: ts) =>
      if sempty tag then (s, next (Defining [] ts))
      else match reserve tag (definitions s) with
      | Throw e => (s, Raise e)
      | Ok (offset, d) => (set_definitions d s, next (Texting (wrapu 32 tag_id) tag offset ts))
      end
  | Defining [] [] => (s, next (Finishing [] []))
  | Texting tag_id tag offset ts =>
      (set_definitions (write_text offset tag (definitions s)) s, next (Indexing tag_id tag offset ts))
  | Indexing tag_id tag offset ts =>
      (set_definitions (write_index tag_id offset tag (definitions s)) s, next (Defining [] ts))
  | Spilling (e :: es) spilled ps ss => (set_spill (write e (spill s)) s, next (Spilling es (spilled + 1) ps ss))
  | Spilling [] spilled ps ss =>
      (mkScan (definitions s) (spill s) (events_written s + spilled) (skipped_files s) (files_done s) (parents s)
         (siblings s) (reports s), next (Finishing ps ss))
  | Finishing ps ss =>
      (mkScan (definitions s) (spill s) (events_written s) (skipped_files s) (files_done s + 1) (parents s) (siblings s)
         (reports s), next (Merging (files_done s + 1) ps ss))
  | Merging done ps ss =>
      (mkScan (definitions s) (spill s) (events_written s) (skipped_files s) (files_done s) (parents s ++ ps)
         (siblings s ++ ss)
         (reports s ++ [mkReport done (length items) (item_update_index (work_item w)) (events_written s) (skipped_files s)]),
       Return true)
  end.

Definition scan_body : @Body Scan ScanWork := mkBody begin_file resume_file.
End scan.

(** ** The corpus *)

Definition index_le (a b : MetadataUpdateEntry) : Prop := index a <= index b.
#[local] Instance index_le_dec a b : Decision (index_le a b).
Proof. unfold index_le. apply _. Defined.

(** [std::ranges::sort] by the index; its order of equal indices is one the
    standard leaves open, and nothing below depends on it. *)
Definition sorted_updates (metadata : MetadataUpdate) : list MetadataUpdateEntry := merge_sort index_le (updates metadata).

Definition out_of_bounds (u : MetadataUpdateEntry) : bool := (index u <? 0) || (MAX_UPDATE_INDEX <? index u).

Definition index_error (u : MetadataUpdateEntry) : exn :=
  runtime_error ("Update index " +:+ to_string (index u) +:+ " is outside the range MappingEvent can represent (0.."
    +:+ to_string MAX_UPDATE_INDEX +:+ ")").

Definition items_of (u : MetadataUpdateEntry) : list ScanWorkItem :=
  (fun h => mkItem h (wrapu 16 (index u))) <$> hashes u.

Definition corpus_items (us : list MetadataUpdateEntry) : list ScanWorkItem := concat (items_of <$> us).

Definition initial_scan (d : DefinitionWriter) (b : BucketWriter * gmap string (list Z)) : Scan :=
  mkScan d b 0 0 0 [] [] [].

Section corpus.
Context {J : Json} {I : Inflate}.
Context (ptr_dir : gmap string (list Z)) (fuel : list Z -> nat) (iterate : gmap Z string -> list (Z * string)).

(** [scanCorpus] on a work directory, for the interleaving the schedule gives,
    once the pool has joined: what the work directory holds afterwards, and
    the result.  The writer of buckets flushes on every way out. *)
Definition scanCorpus (hardware threads buffer_events : nat) (schedule : list Choice) (metadata : MetadataUpdate)
    (store : DefinitionWriter) (work : gmap string (list Z)) : Scan * result ScanResult :=
  let us := sorted_updates metadata in
  let untouched := initial_scan store (BucketWriter_make buffer_events, work) in
  match us with
  | [] => (untouched, Ok (mkScanResult 0 0 0 0 0 [] [] false))
  | first :: _ =>
      match List.find out_of_bounds us with
      | Some u => (untouched, Throw (index_error u))
      | None =>
          let items := corpus_items us in
          let count := length items in
          let p := run count (scan_body ptr_dir fuel iterate items) schedule
            (start hardware count threads (initial_scan DefinitionWriter_make (BucketWriter_make buffer_events, work))) in
          let s := set_spill (flush (spill (shared p))) (shared p) in
          (s, match answer p with
              | Throw e => Throw e
              | Ok ran =>
                  Ok (mkScanResult (index first) (index (default first (last us))) (events_written s) (skipped_files s)
                        (m_rejected_hashes (definitions s)) (parents s) (siblings s) (negb ran))
              end)
      end
  end.
End corpus.

(** ** What the files contribute *)

Section contributions.
Context {J : Json} {I : Inflate}.
Context (ptr_dir : gmap string (list Z)) (fuel : list Z -> nat).

(** The update of an item; none when the file is missing or does not parse. *)
Definition update_of (item : ScanWorkItem) : option ParsedUpdate :=
  match parseUpdateFile fuel ptr_dir (item_path item) with Ok u => Some u | Throw _ => None end.

Definition content_of (item : ScanWorkItem) : option ContentUpdate :=
  match update_of item with Some (ParsedContent c) => Some c | _ => None end.

Definition definitions_in (item : ScanWorkItem) : DefinitionsUpdate :=
  match update_of item with Some (ParsedDefinitions d) => d | _ => mkDefinitionsUpdate ∅ ∅ end.

Definition item_events (item : ScanWorkItem) : list MappingEvent :=
  match content_of item with
  | Some c => mapping_events (mappings_add c) (item_update_index item) Add
              ++ mapping_events (mappings_delete c) (item_update_index item) Delete
  | None => []
  end.

Definition relations_of (added deleted : ContentUpdate -> list (Z * Z)) (item : ScanWorkItem) : list RelationEvent :=
  match content_of item with
  | Some c => (update_relation (item_update_index item) Add <$> added c)
              ++ (update_relation (item_update_index item) Delete <$> deleted c)
  | None => []
  end.

Definition item_parents : ScanWorkItem -> list RelationEvent := relations_of tag_parents_add tag_parents_delete.
Definition item_siblings : ScanWorkItem -> list RelationEvent := relations_of tag_siblings_add tag_siblings_delete.

(** The definitions the store takes: hashes that decode, tags with a text. *)
Definition valid_hashes (hs : list (Z * string)) : list (Z * list Z) :=
  omap (fun d => (fun sha => (wrapu 32 (fst d), sha)) <$> decodeSha256Hex (snd d)) hs.
Definition valid_tags (ts : list (Z * string)) : list (Z * string) :=
  omap (fun d => if sempty (snd d) then None else Some (wrapu 32 (fst d), snd d)) ts.
Definition rejects (hs : list (Z * string)) : list string :=
  omap (fun d => match decodeSha256Hex (snd d) with None => Some (snd d) | Some _ => None end) hs.

Definition item_hashes (item : ScanWorkItem) : list (Z * list Z) := valid_hashes (map_to_list (hash_ids_to_hashes (definitions_in item))).
Definition item_rejects (item : ScanWorkItem) : list string := rejects (map_to_list (hash_ids_to_hashes (definitions_in item))).
Definition item_tags (item : ScanWorkItem) : list (Z * string) := valid_tags (map_to_list (tag_ids_to_tags (definitions_in item))).
Definition item_skips (item : ScanWorkItem) : list unit := match update_of item with Some _ => [] | None => [tt] end.

(** What the files of some items contribute in all. *)
Definition total {A} (f : ScanWorkItem -> list A) (its : list ScanWorkItem) : list A := concat (f <$> its).
End contributions.

(** ** What a worker has left to contribute *)

Definition gather {A} (f : ScanWork -> list A) (ls : list ScanWork) : list A := concat (f <$> ls).
Definition after {A} (f : ScanWork -> list A) (o : @Outcome ScanWork) : list A := match o with Continue w => f w | _ => [] end.

Definition events_left (w : ScanWork) : list MappingEvent := match phase w with Spilling es _ _ _ => es | _ => [] end.
(** The events of the file not yet in the shared counter. *)
Definition uncounted (w : ScanWork) : list unit :=
  match phase w with Spilling es n _ _ => replicate (length es + Z.to_nat n) tt | _ => [] end.
Definition parents_left (w : ScanWork) : list RelationEvent :=
  match phase w with Spilling _ _ ps _ | Finishing ps _ | Merging _ ps _ => ps | _ => [] end.
Definition siblings_left (w : ScanWork) : list RelationEvent :=
  match phase w with Spilling _ _ _ ss | Finishing _ ss | Merging _ _ ss => ss | _ => [] end.
Definition hashes_left (w : ScanWork) : list (Z * list Z) := match phase w with Defining hs _ => valid_hashes hs | _ => [] end.
Definition rejects_left (w : ScanWork) : list string := match phase w with Defining hs _ => rejects hs | _ => [] end.
Definition tags_left (w : ScanWork) : list (Z * string) :=
  match phase w with
  | Defining _ ts => valid_tags ts
  | Texting id tag _ ts | Indexing id tag _ ts => (id, tag) :: valid_tags ts
  | _ => []
  end.
Definition flights_of (w : ScanWork) : list InFlight :=
  match phase w with
  | Texting id tag offset _ => [mkInFlight id tag offset Reserved]
  | Indexing id tag offset _ => [mkInFlight id tag offset TextWritten]
  | _ => []
  end.

(** A worker's own counter only grows. *)
Definition phase_ok (w : ScanWork) : Prop := match phase w with Spilling _ n _ _ => 0 <= n | _ => True end.

Lemma gather_perm {A} (f : ScanWork -> list A) l l' : l ≡ₚ l' -> gather f l ≡ₚ gather f l'.
Proof. intros H. unfold gather. by rewrite H. Qed.

Lemma gather_cons {A} (f : ScanWork -> list A) w l : gather f (w :: l) = f w ++ gather f l.
Proof. done. Qed.

(** ** The trace of the definition store *)

Definition indexed (tr : list Event) : list (Z * string) := omap (fun e => match e with Indexed id t => Some (id, t) | _ => None end) tr.
Definition hashed (tr : list Event) : list (Z * list Z) := omap (fun e => match e with Hashed id sha => Some (id, sha) | _ => None end) tr.

Lemma abs_tags_indexed tr id :
  match abs_tags tr !! id with
  | Some t => (id, t) ∈ indexed tr
  | None => forall t, (id, t) ∉ indexed tr
  end.
Proof.
  induction tr as [|e tr IH] using rev_ind; [cbn; rewrite lookup_empty; intros t; apply not_elem_of_nil|].
  rewrite abs_tags_snoc. unfold indexed in *. rewrite omap_app.
  destruct e as [id' t'|id' sha|]; cbn [omap list_omap]; [|by rewrite app_nil_r..].
  destruct (decide (id' = id)) as [->|Hne].
  - rewrite lookup_insert_eq. set_solver.
  - rewrite lookup_insert_ne by done. destruct (abs_tags tr !! id); set_solver.
Qed.

Lemma abs_hashes_hashed tr id :
  match abs_hashes tr !! id with
  | Some sha => (id, sha) ∈ hashed tr
  | None => forall sha, (id, sha) ∉ hashed tr
  end.
Proof.
  induction tr as [|e tr IH] using rev_ind; [cbn; rewrite lookup_empty; intros t; apply not_elem_of_nil|].
  rewrite abs_hashes_snoc. unfold hashed in *. rewrite omap_app.
  destruct e as [id' t'|id' sha|]; cbn [omap list_omap]; [by rewrite app_nil_r| |by rewrite app_nil_r].
  destruct (decide (id' = id)) as [->|Hne].
  - rewrite lookup_insert_eq. set_solver.
  - rewrite lookup_insert_ne by done. destruct (abs_hashes tr !! id); set_solver.
Qed.

(** ** The effect of one move *)

Definition blob_full : exn := runtime_error "tags.blob exceeded 4 GB; TagIndexEntry offsets are 32-bit".

(** Every way a worker goes on from a phase. *)
Ltac resume_cases w H :=
  destruct w as [item [[|[]] [|[]]|? ? ? ?|? ? ? ?|[|] ? ? ?|? ?|? ? ?]];
  cbv [resume_file phase work_item] in H; repeat case_match; simplify_eq;
  try match goal with R : _ = (_, Raise _) |- _ => idtac end.

Section moves.
Context {J : Json} {LJ : JsonLaws J} {I : Inflate}.
Context (ptr_dir : gmap string (list Z)) (fuel : list Z -> nat) (iterate : gmap Z string -> list (Z * string)).
Context (iterate_all : forall m, iterate m ≡ₚ map_to_list m).
Context (items : list ScanWorkItem).
Notation begin_item := (begin_file ptr_dir fuel iterate items).
Notation resume_item := (resume_file items).

Lemma resume_raises w s s' e : resume_item w s = (s', Raise e) -> e = blob_full.
Proof.
  intros H. resume_cases w H.
  match goal with R : reserve _ _ = Throw _ |- _ => unfold reserve in R; case_match; by simplify_eq end.
Qed.

Definition goes_on (o : @Outcome ScanWork) : Prop := match o with Raise _ => False | _ => True end.

Lemma resume_events w s s' o : resume_item w s = (s', o) -> goes_on o ->
  exists new, spill s' = write_all new (spill s) /\ events_left w = new ++ after events_left o.
Proof.
  intros H Ho. resume_cases w H; try done; try (exists []; by rewrite ?app_nil_r).
  match goal with |- exists new, spill (set_spill (write ?e _) _) = _ /\ _ => by exists [e] end.
Qed.

Lemma resume_counts w s s' o : resume_item w s = (s', o) -> goes_on o -> phase_ok w ->
  (exists n : nat, events_written s' = events_written s + Z.of_nat n
     /\ length (uncounted w) = (n + length (after uncounted o))%nat)
  /\ skipped_files s' = skipped_files s /\ (forall w', o = Continue w' -> phase_ok w').
Proof.
  intros H Ho Hw. resume_cases w H; try done; cbn [phase_ok phase] in Hw;
    (split; [|split; [done|intros w' Hw'; simplify_eq; cbn [phase_ok phase]; try done; lia]]); try (exists 0%nat; cbn; split; [lia|done]).
  - exists (Z.to_nat spilled). cbn. rewrite Z2Nat.id by done. split; [done|]. rewrite length_replicate. lia.
  - exists 0%nat. cbn. rewrite !length_replicate. split; lia.
Qed.

Lemma resume_relations w s s' o : resume_item w s = (s', o) -> goes_on o ->
  (exists new, parents s' = parents s ++ new /\ parents_left w = new ++ after parents_left o)
  /\ (exists new, siblings s' = siblings s ++ new /\ siblings_left w = new ++ after siblings_left o).
Proof.
  intros H Ho. resume_cases w H; try done; split; try (exists []; by rewrite ?app_nil_r);
    (eexists; split; [reflexivity|by rewrite app_nil_r]).
Qed.

Lemma wrapu32_range z : 0 <= wrapu 32 z <= uint32_max.
Proof. unfold wrapu, uint32_max. pose proof (Z.mod_pos_bound z (2 ^ 32)). lia. Qed.

(** A worker's flight is one of the store's, whatever the others do. *)
Lemma flight_split (fl rest : list InFlight) x : fl ≡ₚ x :: rest -> exists l1 l2, fl = l1 ++ x :: l2 /\ rest ≡ₚ l1 ++ l2.
Proof.
  intros H. assert (Hx : x ∈ fl) by (rewrite H; constructor).
  apply list_elem_of_split in Hx as (l1 & l2 & ->). exists l1, l2. split; [done|].
  rewrite <- Permutation_middle in H. symmetry. by apply Permutation_cons_inv in H.
Qed.

Lemma valid_hashes_cons d hs : valid_hashes (d :: hs) = valid_hashes [d] ++ valid_hashes hs.
Proof. unfold valid_hashes. cbn. by destruct (_ <$> _). Qed.

Lemma writeHash_effect id hex w fl s0 tr : steps s0 tr (w, fl) ->
  exists tr', steps s0 (tr ++ tr') (fst (writeHash (wrapu 32 id) hex w), fl)
    /\ indexed tr' = [] /\ hashed tr' = valid_hashes [(id, hex)].
Proof.
  intros Hs. unfold valid_hashes. cbn [omap list_omap fst snd]. destruct (decodeSha256Hex hex) as [sha|] eqn:Hd.
  - exists [Hashed (wrapu 32 id) sha]. split_and!; [|done|done].
    eapply steps_snoc; [exact Hs|]. apply (step_hash _ _ _ _ hex); [apply wrapu32_range|done|]. unfold writeHash. by rewrite Hd.
  - exists [Silent]. split_and!; [|done|done]. eapply steps_snoc; [exact Hs|]. apply (step_reject _ _ _ (wrapu 32 id) hex).
    unfold writeHash. by rewrite Hd.
Qed.

Lemma resume_definitions w s s' o s0 tr fl rest : resume_item w s = (s', o) -> goes_on o ->
  steps s0 tr (definitions s, fl) -> fl ≡ₚ flights_of w ++ rest ->
  exists tr' fl', steps s0 (tr ++ tr') (definitions s', fl') /\ fl' ≡ₚ after flights_of o ++ rest
    /\ tags_left w = indexed tr' ++ after tags_left o /\ hashes_left w = hashed tr' ++ after hashes_left o.
Proof.
  intros H Ho Hs Hfl. resume_cases w H; try done; cbn [flights_of phase app] in Hfl;
    cbn [after flights_of tags_left hashes_left phase definitions set_definitions];
    try (exists [], fl; rewrite app_nil_r; by split_and!).
  - exists [], fl. rewrite app_nil_r. split_and!; try done. unfold valid_tags. cbn.
    match goal with E : sempty _ = true |- _ => by rewrite E end.
  - eexists [Silent], (fl ++ [_]). split_and!; [|rewrite Hfl; by rewrite Permutation_app_comm| |done].
    + eapply steps_snoc; [exact Hs|]. apply step_reserve; [apply wrapu32_range|done..].
    + unfold valid_tags. cbn. match goal with E : sempty _ = false |- _ => by rewrite E end.
  - match goal with |- context [writeHash (wrapu 32 ?id) ?hex _] =>
      destruct (writeHash_effect id hex _ _ _ _ Hs) as (tr' & Hs' & Hi & Hh) end.
    exists tr', fl. rewrite Hi, Hh, valid_hashes_cons. by split_and!.
  - match goal with |- context [writeHash (wrapu 32 ?id) ?hex _] =>
      destruct (writeHash_effect id hex _ _ _ _ Hs) as (tr' & Hs' & Hi & Hh) end.
    exists tr', fl. rewrite Hi, Hh, valid_hashes_cons. by split_and!.
  - destruct (flight_split _ _ _ Hfl) as (l1 & l2 & -> & Hr).
    exists [Silent], (l1 ++ mkInFlight tag_id tag offset TextWritten :: l2). split_and!; [|by rewrite <- Permutation_middle, Hr|done|done].
    eapply steps_snoc; [exact Hs|]. apply step_text.
  - destruct (flight_split _ _ _ Hfl) as (l1 & l2 & -> & Hr).
    exists [Indexed tag_id tag], (l1 ++ l2). split_and!; [|by rewrite Hr|done|done].
    eapply steps_snoc; [exact Hs|]. apply step_index.
Qed.

Lemma writeHash_rejects id hex w :
  m_rejected_hashes (fst (writeHash id hex w)) mod 2 ^ 64
    = (m_rejected_hashes w + Z.of_nat (length (rejects [(id, hex)]))) mod 2 ^ 64.
Proof.
  unfold writeHash, rejects. cbn [omap list_omap snd]. destruct (decodeSha256Hex hex); cbn [fst m_rejected_hashes length Z.of_nat].
  - by rewrite Z.add_0_r.
  - unfold wrapu. by rewrite Z.mod_mod by lia.
Qed.

Lemma rejects_cons id id' hex hs : rejects ((id, hex) :: hs) = rejects [(id', hex)] ++ rejects hs.
Proof. unfold rejects. cbn. by destruct (decodeSha256Hex hex). Qed.

Lemma resume_rejects w s s' o : resume_item w s = (s', o) -> goes_on o ->
  exists new, m_rejected_hashes (definitions s') mod 2 ^ 64
      = (m_rejected_hashes (definitions s) + Z.of_nat (length new)) mod 2 ^ 64
    /\ rejects_left w = new ++ after rejects_left o.
Proof.
  intros H Ho. resume_cases w H; try done; try (exists []; cbn [length app Z.of_nat]; by rewrite Z.add_0_r).
  - exists []. cbn [length app Z.of_nat]. rewrite Z.add_0_r. split; [|done].
    match goal with R : reserve _ _ = Ok _ |- _ => unfold reserve in R; case_match; by simplify_eq end.
  - eexists. split; [apply writeHash_rejects|apply rejects_cons].
  - eexists. split; [apply writeHash_rejects|apply rejects_cons].
Qed.

Lemma omap_perm {A B} (f : A -> option B) l l' : l ≡ₚ l' -> omap f l ≡ₚ omap f l'.
Proof. intros H. by rewrite H. Qed.

(** What a worker starts with is what its file contributes. *)
Record starts (item : ScanWorkItem) (w : ScanWork) (s s' : Scan) : Prop := {
  starts_ok : phase_ok w;
  starts_flights : flights_of w = [];
  starts_events : events_left w = item_events ptr_dir fuel item;
  starts_uncounted : length (uncounted w) = length (item_events ptr_dir fuel item);
  starts_parents : parents_left w = item_parents ptr_dir fuel item;
  starts_siblings : siblings_left w = item_siblings ptr_dir fuel item;
  starts_hashes : hashes_left w ≡ₚ item_hashes ptr_dir fuel item;
  starts_rejects : rejects_left w ≡ₚ item_rejects ptr_dir fuel item;
  starts_tags : tags_left w ≡ₚ item_tags ptr_dir fuel item;
  starts_state : definitions s' = definitions s /\ spill s' = spill s /\ events_written s' = events_written s
    /\ parents s' = parents s /\ siblings s' = siblings s;
  starts_skips : skipped_files s' = skipped_files s + Z.of_nat (length (item_skips ptr_dir fuel item))
}.

(** The fields of [starts], given the update of the item. *)
Ltac starts_with Hup :=
  split;
  cbn [phase_ok phase flights_of events_left uncounted parents_left siblings_left hashes_left rejects_left tags_left skip_file
    definitions spill events_written parents siblings skipped_files];
  unfold item_events, item_parents, item_siblings, relations_of, item_hashes, item_rejects, item_tags, item_skips, content_of,
    definitions_in; rewrite ?Hup; try done.

Lemma begin_starts n poll s s' o item : items !! n = Some item -> begin_item n poll s = (s', o) ->
  (o = Return false /\ s' = s) \/ exists w, o = Continue w /\ starts item w s s'.
Proof.
  intros Hn H. unfold begin_file in H. destruct poll; [left; by simplify_eq|]. right. rewrite Hn in H.
  pose proof (parseUpdateFile_message fuel ptr_dir (item_path item)) as Hmsg.
  assert (Hup : update_of ptr_dir fuel item = match parseUpdateFile fuel ptr_dir (item_path item) with Ok u => Some u | Throw _ => None end)
    by done.
  assert (Hskip : update_of ptr_dir fuel item = None -> (s', o) = (skip_file s, Continue (mkScanWork item (Finishing [] []))) ->
    exists w, o = Continue w /\ starts item w s s').
  { intros Hnone Heq. simplify_eq. eexists. split; [done|]. starts_with Hnone; by rewrite ?map_to_list_empty. }
  destruct (ptr_dir !! item_path item) as [data|] eqn:Hfile.
  - destruct (parseUpdateFile fuel ptr_dir (item_path item)) as [[d|c|m]|e]; try (simplify_eq; eexists; split; [done|]).
    + starts_with Hup; try (by apply omap_perm, iterate_all). cbn. lia.
    + starts_with Hup; try (by rewrite map_to_list_empty); [rewrite length_replicate|cbn]; lia.
    + starts_with Hup; try (by rewrite map_to_list_empty). cbn. lia.
    + cbn [has_message] in Hmsg. destruct (exn_what e) as [|c msg]; [done|]. apply Hskip; [done|]. by rewrite <- H.
  - apply Hskip; [|by simplify_eq]. unfold update_of, parseUpdateFile, readFile. by rewrite Hfile.
Qed.
End moves.

(** ** The invariant of the scan *)

Section invariant.
Context {J : Json} {LJ : JsonLaws J} {I : Inflate}.
Context (ptr_dir : gmap string (list Z)) (fuel : list Z -> nat) (iterate : gmap Z string -> list (Z * string)).
Context (iterate_all : forall m, iterate m ≡ₚ map_to_list m).
Context (items : list ScanWorkItem) (buffer_events : nat) (work : gmap string (list Z)).
Notation in_all f its := (total (f ptr_dir fuel) its).

(** The items of some indices. *)
Definition picked (done : list nat) : list ScanWorkItem := omap (fun i => items !! i) done.

Record scan_inv (evs : list MappingEvent) (tr : list Event) (fl : list InFlight) (done : list nat) (ls : list ScanWork)
    (s : Scan) : Prop := {
  iv_spill : spill s = write_all evs (BucketWriter_make buffer_events, work);
  iv_events : evs ++ gather events_left ls ≡ₚ in_all item_events (picked done);
  iv_counts : events_written s + Z.of_nat (length (gather uncounted ls)) = Z.of_nat (length (in_all item_events (picked done)));
  iv_skips : skipped_files s = Z.of_nat (length (in_all item_skips (picked done)));
  iv_parents : parents s ++ gather parents_left ls ≡ₚ in_all item_parents (picked done);
  iv_siblings : siblings s ++ gather siblings_left ls ≡ₚ in_all item_siblings (picked done);
  iv_store : steps (DefinitionWriter_make, []) tr (definitions s, fl);
  iv_flights : fl ≡ₚ gather flights_of ls;
  iv_tags : indexed tr ++ gather tags_left ls ≡ₚ in_all item_tags (picked done);
  iv_hashes : hashed tr ++ gather hashes_left ls ≡ₚ in_all item_hashes (picked done);
  iv_rejects : (m_rejected_hashes (definitions s) + Z.of_nat (length (gather rejects_left ls))) mod 2 ^ 64
    = Z.of_nat (length (in_all item_rejects (picked done))) mod 2 ^ 64;
  iv_ok : Forall phase_ok ls
}.

Definition Inv_scan (done : list nat) (ls : list ScanWork) (s : Scan) : Prop := exists evs tr fl, scan_inv evs tr fl done ls s.

Lemma Inv_scan_start : Inv_scan [] [] (initial_scan DefinitionWriter_make (BucketWriter_make buffer_events, work)).
Proof. exists [], [], []. split; try done. constructor. Qed.

Lemma Inv_scan_perm done l l' s : l ≡ₚ l' -> Inv_scan done l s -> Inv_scan done l' s.
Proof.
  intros Hp (evs & tr & fl & [H1 H2 H3 H4 H5 H6 H7 H8 H9 H10 H11 H12]). exists evs, tr, fl.
  split; try done; try (by rewrite <- (gather_perm _ _ _ Hp)). by rewrite <- Hp.
Qed.

(** The works after a move, and what they have left. *)
Definition next_works (o : @Outcome ScanWork) (l : list ScanWork) : list ScanWork := match o with Continue w => w :: l | _ => l end.

Lemma gather_next {A} (f : ScanWork -> list A) o l : gather f (next_works o l) = after f o ++ gather f l.
Proof. by destruct o. Qed.

Lemma moved {A} (x new a rest t fw : list A) : x ++ fw ++ rest ≡ₚ t -> fw = new ++ a -> (x ++ new) ++ a ++ rest ≡ₚ t.
Proof. intros H ->. by rewrite <- H, <- !app_assoc. Qed.

Lemma write_all_app a b s : write_all (a ++ b) s = write_all b (write_all a s).
Proof. apply foldl_app. Qed.

Lemma indexed_app a b : indexed (a ++ b) = indexed a ++ indexed b.
Proof. apply omap_app. Qed.
Lemma hashed_app a b : hashed (a ++ b) = hashed a ++ hashed b.
Proof. apply omap_app. Qed.

Lemma Inv_scan_move done w l s s' o :
  Inv_scan done (w :: l) s -> resume_file items w s = (s', o) -> goes_on o -> Inv_scan done (next_works o l) s'.
Proof.
  intros (evs & tr & fl & [H1 H2 H3 H4 H5 H6 H7 H8 H9 H10 H11 H12]) H Ho.
  apply Forall_cons in H12 as [Hw H12].
  rewrite gather_cons in H2; rewrite gather_cons in H3; rewrite gather_cons in H5; rewrite gather_cons in H6;
    rewrite gather_cons in H8; rewrite gather_cons in H9; rewrite gather_cons in H10; rewrite gather_cons in H11.
  destruct (resume_events items _ _ _ _ H Ho) as (new & Hspill & Hev).
  destruct (resume_counts items _ _ _ _ H Ho Hw) as ((n & Hcount & Hunc) & Hskip & Hok).
  destruct (resume_relations items _ _ _ _ H Ho) as [(ps & Hps & Hpl) (ss & Hss & Hsl)].
  destruct (resume_definitions items _ _ _ _ _ _ _ _ H Ho H7 H8) as (tr' & fl' & Hsteps & Hfl & Htags & Hhashes).
  destruct (resume_rejects items _ _ _ _ H Ho) as (rj & Hrej & Hrl).
  exists (evs ++ new), (tr ++ tr'), fl'.
  split; rewrite ?gather_next, ?write_all_app, ?indexed_app, ?hashed_app, ?Hps, ?Hss; try (eapply moved; eassumption); try done.
  - by rewrite Hspill, H1.
  - rewrite Hcount, length_app. rewrite length_app, Hunc in H3. lia.
  - by rewrite Hskip.
  - rewrite length_app, Hrl, length_app in H11. rewrite <- H11, length_app, Z.add_mod, Hrej, <- Z.add_mod by lia. f_equal. lia.
  - destruct o as [w'|b|e]; [constructor; [by apply Hok|done]|done..].
Qed.

Lemma Inv_scan_resume done w l s s' o : Inv_scan done (w :: l) s -> resume_file items w s = (s', o) ->
  match o with Continue w' => Inv_scan done (w' :: l) s' | Return _ => Inv_scan done l s' | Raise e => e = blob_full end.
Proof.
  intros Hi H. destruct o as [w'|b|e]; [by apply (Inv_scan_move _ _ _ _ _ _ Hi H)..|]. by apply resume_raises in H.
Qed.

Lemma total_snoc {A} (f : ScanWorkItem -> list A) done item : total f (done ++ [item]) = total f done ++ f item.
Proof. unfold total. rewrite fmap_app, concat_app. cbn. by rewrite app_nil_r. Qed.

Lemma picked_snoc done n item : items !! n = Some item -> picked (done ++ [n]) = picked done ++ [item].
Proof. intros Hn. unfold picked. rewrite omap_app. cbn. by rewrite Hn. Qed.

Lemma mod_shift a b c m : a mod m = b mod m -> (a + c) mod m = (b + c) mod m.
Proof. intros H. by rewrite <- Zplus_mod_idemp_l, H, Zplus_mod_idemp_l. Qed.

(** A file whose contribution is still left adds as much on both sides. *)
Lemma joined_in {A} (x rest t fw new : list A) : x ++ rest ≡ₚ t -> fw ≡ₚ new -> x ++ fw ++ rest ≡ₚ t ++ new.
Proof. intros <- ->. by rewrite (Permutation_app_comm new), app_assoc. Qed.

Lemma Inv_scan_begin done n poll l s s' o :
  (n < length items)%nat -> done `sublist_of` seq 0 n -> Inv_scan done l s ->
  begin_file ptr_dir fuel iterate items n poll s = (s', o) ->
  match o with
  | Continue w => Inv_scan (done ++ [n]) (w :: l) s'
  | Return true => Inv_scan (done ++ [n]) l s'
  | Return false => Inv_scan done l s'
  | Raise e => e = blob_full
  end.
Proof.
  intros Hn _ Hi H. apply lookup_lt_ex in Hn as [item Hn].
  destruct (begin_starts ptr_dir fuel iterate iterate_all items n poll s s' o item Hn H) as [[-> ->]|(w & -> & Hs)]; [done|].
  destruct Hi as (evs & tr & fl & [H1 H2 H3 H4 H5 H6 H7 H8 H9 H10 H11 H12]).
  destruct Hs as [S1 S2 S3 S4 S5 S6 S7 S8 S9 (S10 & S11 & S12 & S13 & S14) S15].
  exists evs, tr, fl. rewrite <- S3 in S4.
  split; rewrite ?(picked_snoc _ _ _ Hn), ?total_snoc, ?gather_cons, ?S10, ?S11, ?S12, ?S13, ?S14; try done;
    try (apply joined_in; [done|]; by rewrite ?S3, ?S5, ?S6).
  - rewrite !length_app, S4, S3. lia.
  - rewrite S15, H4, length_app. lia.
  - by rewrite S2.
  - rewrite !length_app, S8, !Nat2Z.inj_add, <- (mod_shift _ _ _ _ H11). f_equal. lia.
  - by constructor.
Qed.
End invariant.

(** ** Well-formed events *)

Lemma mapping_events_ok ms i op : 0 <= i <= MAX_UPDATE_INDEX -> Forall event_ok (mapping_events ms i op).
Proof.
  intros Hi. unfold mapping_events. apply Forall_concat, Forall_fmap, Forall_true. intros m.
  apply Forall_fmap, Forall_true. intros h. cbn.
  split; cbn; try done; try apply wrapu32_range. destruct op; cbn; auto.
Qed.

Lemma update_relations_ok ps i op : Forall relation_ok (update_relation i op <$> ps).
Proof.
  apply Forall_fmap, Forall_true. intros p. split; cbn; try apply wrapu32_range. destruct op; cbn; auto.
Qed.

Section wellformed.
Context {J : Json} {I : Inflate} (ptr_dir : gmap string (list Z)) (fuel : list Z -> nat).

Lemma total_events_ok its : Forall (fun it => 0 <= item_update_index it <= MAX_UPDATE_INDEX) its ->
  Forall event_ok (total (item_events ptr_dir fuel) its).
Proof.
  intros H. apply Forall_concat, Forall_fmap. eapply Forall_impl; [exact H|]. intros it Hit. cbn. unfold item_events.
  case_match; [|constructor]. by apply Forall_app; split; apply mapping_events_ok.
Qed.

Lemma total_relations_ok (added deleted : ContentUpdate -> list (Z * Z)) its :
  Forall relation_ok (total (relations_of ptr_dir fuel added deleted) its).
Proof.
  apply Forall_concat, Forall_fmap, Forall_true. intros it. cbn. unfold relations_of.
  case_match; [|constructor]. apply Forall_app; split; apply update_relations_ok.
Qed.
End wellformed.

Lemma wrapu16_in_bounds u : out_of_bounds u = false -> wrapu 16 (index u) = index u /\ 0 <= index u <= MAX_UPDATE_INDEX.
Proof.
  unfold out_of_bounds. intros H. apply orb_false_iff in H as [H1 H2]. apply Z.ltb_ge in H1, H2.
  unfold MAX_UPDATE_INDEX, wrapu in *. split; [|done]. apply Z.mod_small. lia.
Qed.

Lemma corpus_items_ok us : Forall (fun u => out_of_bounds u = false) us ->
  Forall (fun it => 0 <= item_update_index it <= MAX_UPDATE_INDEX) (corpus_items us).
Proof.
  intros H. apply Forall_concat, Forall_fmap. eapply Forall_impl; [exact H|]. intros u Hu.
  apply wrapu16_in_bounds in Hu as [Hw Hu]. apply Forall_fmap, Forall_true. intros h. cbn. by rewrite Hw.
Qed.

Lemma corpus_items_perm us us' : us ≡ₚ us' -> corpus_items us ≡ₚ corpus_items us'.
Proof. intros H. unfold corpus_items. by rewrite H. Qed.

Lemma find_none_Forall {A} (f : A -> bool) l : List.find f l = None -> Forall (fun x => f x = false) l.
Proof. intros H. apply Forall_forall. intros x Hx. by apply (find_none f l H), list_elem_of_In. Qed.

Lemma omap_sublist {A B} (f : A -> option B) a b : a `sublist_of` b -> omap f a `sublist_of` omap f b.
Proof.
  induction 1 as [|x a b H IH|x a b H IH]; cbn; [done| |]; destruct (f x); [by constructor|done|by constructor|done].
Qed.

Lemma omap_seq_items {A} (l : list A) : omap (fun i => l !! i) (seq 0 (length l)) = l.
Proof.
  induction l as [|x l IH]; [done|]. cbn [length seq omap list_omap lookup list_lookup]. f_equal. rewrite <- IH at 2.
  rewrite <- fmap_S_seq. generalize (seq 0 (length l)) as k. intros k. induction k as [|i k IHk]; [done|].
  cbn. destruct (l !! i); [by f_equal|done].
Qed.

Lemma sorted_updates_perm metadata : sorted_updates metadata ≡ₚ updates metadata.
Proof. apply merge_sort_Permutation. Qed.

#[local] Instance index_le_total : Total index_le.
Proof. intros a b. unfold index_le. lia. Qed.
#[local] Instance index_le_trans : Transitive index_le.
Proof. intros a b c. unfold index_le. lia. Qed.

Lemma sorted_last {A} (R : relation A) `{!Reflexive R} l x y : StronglySorted R l -> x ∈ l -> last l = Some y -> R x y.
Proof.
  induction 1 as [|z l Hs IH Hz]; intros Hx Hl; [by apply not_elem_of_nil in Hx|].
  destruct l as [|w l]; [cbn in Hl; simplify_eq; by apply list_elem_of_singleton in Hx as ->|].
  rewrite last_cons_cons in Hl. apply elem_of_cons in Hx as [->|Hx]; [|by apply IH].
  rewrite Forall_forall in Hz. by apply Hz, last_Some_elem_of.
Qed.

Lemma sorted_updates_ends metadata first rest u :
  sorted_updates metadata = first :: rest -> u ∈ updates metadata ->
  index first <= index u <= index (default first (last (first :: rest))).
Proof.
  intros Heq Hu. pose proof (StronglySorted_merge_sort index_le (updates metadata)) as Hs.
  fold (sorted_updates metadata) in Hs. rewrite <- sorted_updates_perm, Heq in Hu. rewrite Heq in Hs. split.
  - apply StronglySorted_inv in Hs as [_ Hall]. rewrite Forall_forall in Hall.
    apply elem_of_cons in Hu as [->|Hu]; [done|by apply Hall].
  - destruct (last (first :: rest)) as [y|] eqn:Hl; [|by apply last_None in Hl].
    assert (Reflexive index_le) by (intros x; unfold index_le; lia).
    exact (sorted_last index_le _ u y Hs Hu Hl).
Qed.

(** ** Theorems *)

(** The definitions a store holds come from those of some items: a tag has one
    of the texts defined for it, and none only when there is none; so has a
    hash, save that one of all zeros reads as none. *)
Definition defined_by (d : Definitions) (tags : list (Z * string)) (hs : list (Z * list Z)) : Prop :=
  forall id, 0 <= id ->
    match def_tag d id with
    | Some t => (id, t) ∈ tags
    | None => forall t, (id, t) ∉ tags
    end
    /\ match def_hash d id with
       | Some sha => (id, sha) ∈ hs
       | None => forall sha, (id, sha) ∈ hs -> exists z, (id, z) ∈ hs /\ nonzero z = false
       end.

Lemma store_defined_by tr w : steps (DefinitionWriter_make, []) tr (w, []) ->
  defined_by (definitions_of (DefinitionReader_make w)) (indexed tr) (hashed tr).
Proof.
  intros Hs id Hid. destruct (steps_inv _ _ _ Hs) as [full Hinv]. cbn [def_tag def_hash definitions_of].
  rewrite (reader_tag_ok _ _ _ _ _ Hinv Hid), (reader_hash_ok _ _ _ _ _ Hinv Hid).
  pose proof (abs_tags_indexed tr id) as Ht. pose proof (abs_hashes_hashed tr id) as Hh. split; [done|].
  destruct (abs_hashes tr !! id) as [sha|].
  - destruct (nonzero sha) eqn:Hz; [done|]. intros sha' _. by exists sha.
  - intros sha Hin. by destruct (Hh sha).
Qed.

Lemma defined_by_perm d tags tags' hs hs' : tags ≡ₚ tags' -> hs ≡ₚ hs' -> defined_by d tags hs -> defined_by d tags' hs'.
Proof.
  intros Ht Hh H id Hid. destruct (H id Hid) as [H1 H2]. split.
  - destruct (def_tag d id); [by rewrite <- Ht|]. intros t. by rewrite <- Ht.
  - destruct (def_hash d id); [by rewrite <- Hh|]. setoid_rewrite <- Hh. exact H2.
Qed.

Section scanned.
Context {J : Json} {LJ : JsonLaws J} {I : Inflate}.
Context (ptr_dir : gmap string (list Z)) (fuel : list Z -> nat) (iterate : gmap Z string -> list (Z * string)).
Context (iterate_all : forall m, iterate m ≡ₚ map_to_list m).
Context (hardware threads buffer_events : nat) (schedule : list Choice) (work : gmap string (list Z)).

(** The pool of a scan, and what is known of it when its workers have joined. *)
Definition scan_pool (items : list ScanWorkItem) : Pool :=
  run (length items) (scan_body ptr_dir fuel iterate items) schedule
    (start hardware (length items) threads (initial_scan DefinitionWriter_make (BucketWriter_make buffer_events, work))).

(** What a scan of some items has done. *)
Definition scanned (its : list ScanWorkItem) (s : Scan) : Prop := exists evs tr,
  evs ≡ₚ total (item_events ptr_dir fuel) its
  /\ spill s = write_all evs (BucketWriter_make buffer_events, work)
  /\ steps (DefinitionWriter_make, []) tr (definitions s, [])
  /\ indexed tr ≡ₚ total (item_tags ptr_dir fuel) its /\ hashed tr ≡ₚ total (item_hashes ptr_dir fuel) its
  /\ parents s ≡ₚ total (item_parents ptr_dir fuel) its /\ siblings s ≡ₚ total (item_siblings ptr_dir fuel) its
  /\ events_written s = Z.of_nat (length (total (item_events ptr_dir fuel) its))
  /\ skipped_files s = Z.of_nat (length (total (item_skips ptr_dir fuel) its))
  /\ m_rejected_hashes (definitions s) mod 2 ^ 64 = wrapu 64 (Z.of_nat (length (total (item_rejects ptr_dir fuel) its))).

Lemma scan_pool_joined items : joined (scan_pool items) ->
  match answer (scan_pool items) with
  | Throw e => e = blob_full
  | Ok ran => exists its, its `sublist_of` items /\ (ran = true -> its = items) /\ scanned its (shared (scan_pool items))
  end.
Proof.
  intros Hjoin.
  pose proof (run_all (length items) (scan_body ptr_dir fuel iterate items)
    (Inv_scan ptr_dir fuel items buffer_events work) (fun e => e = blob_full)
    (Inv_scan_perm ptr_dir fuel items buffer_events work)
    (Inv_scan_begin ptr_dir fuel iterate iterate_all items buffer_events work)
    (Inv_scan_resume ptr_dir fuel items buffer_events work)
    hardware threads _ schedule (Inv_scan_start ptr_dir fuel items buffer_events work) Hjoin) as Hrun.
  fold (scan_pool items) in Hrun. destruct (answer (scan_pool items)) as [ran|e]; [|done].
  destruct Hrun as (done & (evs & tr & fl & [H1 H2 H3 H4 H5 H6 H7 H8 H9 H10 H11 _]) & Hsub & Hran).
  unfold gather in *. cbn [fmap list_fmap concat length] in *. rewrite app_nil_r in H2, H5, H6, H9, H10.
  apply symmetry, Permutation_nil in H8 as ->.
  exists (picked items done). split_and!.
  - rewrite <- (omap_seq_items items) at 2. by apply omap_sublist.
  - intros Hr. destruct (Hran Hr) as [-> _]. apply omap_seq_items.
  - exists evs, tr. rewrite Z.add_0_r in H3, H11. by split_and!.
Qed.

Lemma scanned_buckets its s :
  Forall (fun it => 0 <= item_update_index it <= MAX_UPDATE_INDEX) its -> scanned its s ->
  exists evs, Forall event_ok evs /\ evs ≡ₚ total (item_events ptr_dir fuel) its
    /\ forall b stale, 0 <= b < BUCKET_COUNT -> readBucket work (bucketPath b) = Ok stale ->
        readBucket (snd (flush (spill s))) (bucketPath b) = Ok (stale ++ of_bucket b evs).
Proof.
  intros Hits (evs & tr & Hevs & -> & _). assert (Hok : Forall event_ok evs) by (rewrite Hevs; by apply total_events_ok).
  exists evs. split_and!; [done|done|]. intros b stale Hb Hr.
  pose proof (spill_read buffer_events work evs b) as Hread. rewrite Hr in Hread. by apply Hread.
Qed.

Lemma scanned_definitions its s : scanned its s ->
  defined_by (definitions_of (DefinitionReader_make (definitions s)))
    (total (item_tags ptr_dir fuel) its) (total (item_hashes ptr_dir fuel) its).
Proof.
  intros (evs & tr & _ & _ & Hs & Ht & Hh & _). eapply defined_by_perm; [exact Ht|exact Hh|]. by apply store_defined_by.
Qed.
End scanned.

Lemma scan_reads {J : Json} (LJ : JsonLaws J) {I : Inflate}
    (ptr_dir : gmap string (list Z)) (fuel : list Z -> nat) (iterate : gmap Z string -> list (Z * string))
    (hardware threads buffer_events : nat) (schedule : list Choice) (metadata : MetadataUpdate)
    (store : DefinitionWriter) (work : gmap string (list Z))
    (Hiter : forall m, iterate m ≡ₚ map_to_list m)
    (Hjoin : joined (scan_pool ptr_dir fuel iterate hardware threads buffer_events schedule work
       (corpus_items (sorted_updates metadata)))) :
  let '(s, r) := scanCorpus ptr_dir fuel iterate hardware threads buffer_events schedule metadata store work in
  match r with
  | Throw e => (exists u, u ∈ updates metadata /\ out_of_bounds u = true /\ e = index_error u) \/ e = blob_full
  | Ok res => exists its evs,
      its ⊆+ corpus_items (updates metadata)
      /\ (scan_cancelled res = false -> its ≡ₚ corpus_items (updates metadata))
      /\ Forall (fun u => first_update_index res <= index u <= last_update_index res) (updates metadata)
      /\ 0 <= first_update_index res <= last_update_index res /\ last_update_index res <= MAX_UPDATE_INDEX
      /\ Forall event_ok evs /\ evs ≡ₚ total (item_events ptr_dir fuel) its
      /\ (forall b stale, 0 <= b < BUCKET_COUNT -> readBucket work (bucketPath b) = Ok stale ->
            readBucket (snd (spill s)) (bucketPath b) = Ok (stale ++ of_bucket b evs))
      /\ (updates metadata = [] -> definitions s = store)
      /\ (updates metadata <> [] ->
          defined_by (definitions_of (DefinitionReader_make (definitions s)))
            (total (item_tags ptr_dir fuel) its) (total (item_hashes ptr_dir fuel) its))
      /\ result_parents res ≡ₚ total (item_parents ptr_dir fuel) its
      /\ result_siblings res ≡ₚ total (item_siblings ptr_dir fuel) its
      /\ result_events_written res = Z.of_nat (length (total (item_events ptr_dir fuel) its))
      /\ result_skipped_files res = Z.of_nat (length (total (item_skips ptr_dir fuel) its))
      /\ rejected_hashes res mod 2 ^ 64 = wrapu 64 (Z.of_nat (length (total (item_rejects ptr_dir fuel) its)))
  end.
Proof.
  pose proof (sorted_updates_perm metadata) as Hperm. pose proof (sorted_updates_ends metadata) as Hends.
  unfold scanCorpus. destruct (sorted_updates metadata) as [|first rest] eqn:Hus.
  { symmetry in Hperm. apply Permutation_nil_r in Hperm. rewrite Hperm. exists [], []. split_and!; try done.
    intros b stale _ Hr. by rewrite app_nil_r. }
  assert (Hin : forall u, u ∈ first :: rest -> index first <= index u <= index (default first (last (first :: rest)))).
  { intros u Hu. apply (Hends first rest); [done|]. by rewrite <- Hperm. }
  assert (Hlast : default first (last (first :: rest)) ∈ first :: rest).
  { destruct (last (first :: rest)) as [y|] eqn:Hl; [by apply last_Some_elem_of|constructor]. }
  destruct (List.find out_of_bounds (first :: rest)) as [u|] eqn:Hfind.
  { left. apply find_some in Hfind as [Hu1 Hu]. exists u. by rewrite <- Hperm, list_elem_of_In. }
  apply find_none_Forall in Hfind. pose proof (proj1 (Forall_forall _ _) Hfind) as Hbounds. apply corpus_items_ok in Hfind.
  pose proof (scan_pool_joined ptr_dir fuel iterate Hiter hardware threads buffer_events schedule work _ Hjoin) as Hpool.
  fold (scan_pool ptr_dir fuel iterate hardware threads buffer_events schedule work (corpus_items (first :: rest))).
  set (p := scan_pool _ _ _ _ _ _ _ _ _) in *. destruct (answer p) as [ran|e]; [|by right].
  destruct Hpool as (its & Hsub & Hran & Hscan).
  assert (Hits : Forall (fun it => 0 <= item_update_index it <= MAX_UPDATE_INDEX) its).
  { rewrite Forall_forall in *. intros it Hit. apply Hfind. by eapply sublist_subseteq. }
  destruct (scanned_buckets ptr_dir fuel buffer_events work its (shared p) Hits Hscan) as (evs & Hok & Hevs & Hbuckets).
  exists its, evs.
  cbn [scan_cancelled first_update_index last_update_index result_parents result_siblings result_events_written
    result_skipped_files rejected_hashes set_spill spill definitions parents siblings events_written skipped_files].
  pose proof Hscan as (_ & _ & _ & _ & _ & _ & _ & Hp & Hs & He & Hk & Hr).
  rewrite <- (corpus_items_perm _ _ Hperm). split_and!; try done.
  - by apply sublist_submseteq.
  - intros Hc. destruct ran; [|done]. by rewrite Hran.
  - apply Forall_forall. intros u Hu. by eapply Hends.
  - apply (wrapu16_in_bounds first), Hbounds. constructor.
  - apply (Hin first). constructor.
  - apply (wrapu16_in_bounds (default first (last (first :: rest)))), Hbounds, Hlast.
  - intros Hnil. rewrite Hnil in Hperm. by apply Permutation_nil_r in Hperm.
  - intros _. by eapply scanned_definitions.
Qed.

(** The scan reads the corpus, in every interleaving of its workers: unless
    an update index is out of range or the tag texts pass 4 GB, some of the
    corpus' update files (all of them, each once, unless the run reports that
    it was cancelled) were processed, and then each bucket holds, after what it
    held before, exactly the events of these files that belong to it, the
    definition store defines the tags and hashes these files define and no
    others, the relation events are theirs, and the counters count them;
    missing and unreadable files are counted and contribute nothing. *)
Theorem scanCorpus_complete {J : Json} (LJ : JsonLaws J) {I : Inflate}
    (ptr_dir : gmap string (list Z)) (fuel : list Z -> nat) (iterate : gmap Z string -> list (Z * string))
    (hardware threads buffer_events : nat) (schedule : list Choice) (metadata : MetadataUpdate)
    (store : DefinitionWriter) (work : gmap string (list Z))
    (Hiter : forall m, iterate m ≡ₚ map_to_list m)
    (Hjoin : joined (scan_pool ptr_dir fuel iterate hardware threads buffer_events schedule work
       (corpus_items (sorted_updates metadata)))) :
  let '(s, r) := scanCorpus ptr_dir fuel iterate hardware threads buffer_events schedule metadata store work in
  match r with
  | Throw e => (exists u, u ∈ updates metadata /\ out_of_bounds u = true /\ e = index_error u) \/ e = blob_full
  | Ok res => exists its evs,
      its ⊆+ corpus_items (updates metadata)
      /\ (scan_cancelled res = false -> its ≡ₚ corpus_items (updates metadata))
      /\ Forall (fun u => first_update_index res <= index u <= last_update_index res) (updates metadata)
      /\ 0 <= first_update_index res <= last_update_index res /\ last_update_index res <= MAX_UPDATE_INDEX
      /\ Forall event_ok evs /\ evs ≡ₚ total (item_events ptr_dir fuel) its
      /\ (forall b stale, 0 <= b < BUCKET_COUNT -> readBucket work (bucketPath b) = Ok stale ->
            readBucket (snd (spill s)) (bucketPath b) = Ok (stale ++ of_bucket b evs))
      /\ (updates metadata = [] -> definitions s = store)
      /\ (updates metadata <> [] ->
          defined_by (definitions_of (DefinitionReader_make (definitions s)))
            (total (item_tags ptr_dir fuel) its) (total (item_hashes ptr_dir fuel) its))
      /\ result_parents res ≡ₚ total (item_parents ptr_dir fuel) its
      /\ result_siblings res ≡ₚ total (item_siblings ptr_dir fuel) its
      /\ result_events_written res = Z.of_nat (length (total (item_events ptr_dir fuel) its))
      /\ result_skipped_files res = Z.of_nat (length (total (item_skips ptr_dir fuel) its))
      /\ rejected_hashes res mod 2 ^ 64 = wrapu 64 (Z.of_nat (length (total (item_rejects ptr_dir fuel) its)))
  end.
Proof. by apply scan_reads. Qed.

(** ** A scan that is not cancelled succeeds *)

Section fits.
Context {J : Json} {LJ : JsonLaws J} {I : Inflate}.
Context (ptr_dir : gmap string (list Z)) (fuel : list Z -> nat) (iterate : gmap Z string -> list (Z * string)).
Context (iterate_all : forall m, iterate m ≡ₚ map_to_list m) (items : list ScanWorkItem).

(** The texts a worker has still to reserve room for. *)
Definition text_bytes (ts : list (Z * string)) : Z := Z.of_nat (list_sum ((fun t => String.length (snd t)) <$> ts)).
Definition texts_left (w : ScanWork) : list (Z * string) :=
  match phase w with Defining _ ts | Texting _ _ _ ts | Indexing _ _ _ ts => valid_tags ts | _ => [] end.

Definition Inv_texts (done : list nat) (ls : list ScanWork) (s : Scan) : Prop :=
  done `sublist_of` seq 0 (length items) /\
  m_blob_offset (definitions s) + text_bytes (gather texts_left ls)
    <= text_bytes (total (item_tags ptr_dir fuel) (picked items done)).

Lemma text_bytes_app a b : text_bytes (a ++ b) = text_bytes a + text_bytes b.
Proof. unfold text_bytes. rewrite fmap_app, list_sum_app. lia. Qed.

Lemma text_bytes_cons t ts : text_bytes (t :: ts) = Z.of_nat (String.length (snd t)) + text_bytes ts.
Proof. unfold text_bytes. rewrite fmap_cons. change (list_sum (?a :: ?b)) with (a + list_sum b)%nat. lia. Qed.

Lemma text_bytes_nonneg ts : 0 <= text_bytes ts.
Proof. unfold text_bytes. lia. Qed.

Lemma text_bytes_perm a b : a ≡ₚ b -> text_bytes a = text_bytes b.
Proof. induction 1; rewrite ?text_bytes_cons; lia. Qed.

Lemma text_bytes_picked done : done `sublist_of` seq 0 (length items) ->
  text_bytes (total (item_tags ptr_dir fuel) (picked items done)) <= text_bytes (total (item_tags ptr_dir fuel) items).
Proof.
  intros Hd. apply (omap_sublist (fun i => items !! i)) in Hd. rewrite omap_seq_items in Hd. fold (picked items done) in Hd.
  unfold total. induction Hd; rewrite ?fmap_cons; cbn [concat]; rewrite ?text_bytes_app;
    pose proof text_bytes_nonneg; try lia. pose proof (text_bytes_nonneg (item_tags ptr_dir fuel x)). lia.
Qed.

Lemma valid_tags_cons id t ts :
  valid_tags ((id, t) :: ts) = if sempty t then valid_tags ts else (wrapu 32 id, t) :: valid_tags ts.
Proof. unfold valid_tags. cbn [omap list_omap snd fst]. by destruct (sempty t). Qed.

(** A move reserves what it takes from what is left; it raises only when that
    does not fit. *)
Lemma resume_texts w s s' o : resume_file items w s = (s', o) ->
  match o with
  | Raise _ => uint32_max < m_blob_offset (definitions s) + text_bytes (texts_left w)
  | _ => m_blob_offset (definitions s') + text_bytes (after texts_left o) = m_blob_offset (definitions s) + text_bytes (texts_left w)
  end.
Proof.
  intros H. resume_cases w H; cbn [after texts_left phase]; rewrite ?valid_tags_cons; try done;
    repeat match goal with E : sempty _ = _ |- _ => rewrite E end; try done.
  all: try (unfold reserve in *; case_match; simplify_eq; rewrite text_bytes_cons;
    cbn [snd set_definitions definitions m_blob_offset]; pose proof (text_bytes_nonneg (valid_tags l)); lia).
  all: cbn [set_definitions definitions]; unfold writeHash; by case_match.
Qed.

Lemma started_texts w s s' item : starts ptr_dir fuel item w s s' -> text_bytes (texts_left w) = text_bytes (item_tags ptr_dir fuel item).
Proof.
  intros H. rewrite <- (text_bytes_perm _ _ (starts_tags _ _ _ _ _ _ H)). pose proof (starts_flights _ _ _ _ _ _ H) as Hf.
  unfold texts_left, tags_left, flights_of in *. by destruct (phase w).
Qed.

Context (Hfit : text_bytes (total (item_tags ptr_dir fuel) items) <= uint32_max).

Lemma Inv_texts_begin done n poll l s s' o :
  (n < length items)%nat -> done `sublist_of` seq 0 n -> Inv_texts done l s ->
  begin_file ptr_dir fuel iterate items n poll s = (s', o) ->
  match o with
  | Continue x => Inv_texts (done ++ [n]) (x :: l) s'
  | Return true => Inv_texts (done ++ [n]) l s'
  | Return false => Inv_texts done l s'
  | Raise e => False
  end.
Proof.
  intros Hn Hd HInv Hb. pose proof (sublist_snoc_seq (length items) done n Hn Hd) as Hsub.
  destruct (lookup_lt_is_Some_2 items n Hn) as [item Hi].
  destruct (begin_starts ptr_dir fuel iterate iterate_all items n poll s s' o item Hi Hb) as [[-> ->]|(w & -> & Hw)]; [done|].
  split; [exact Hsub|]. destruct HInv as [_ HInv]. rewrite (picked_snoc items done n item Hi), total_snoc, text_bytes_app, gather_cons, text_bytes_app.
  rewrite (started_texts _ _ _ _ Hw), (proj1 (starts_state _ _ _ _ _ _ Hw)). lia.
Qed.

Lemma Inv_texts_resume done x l s s' o : Inv_texts done (x :: l) s ->
  resume_file items x s = (s', o) ->
  match o with Continue x' => Inv_texts done (x' :: l) s' | Return _ => Inv_texts done l s' | Raise e => False end.
Proof.
  unfold Inv_texts. intros [Hd HInv] Hr. apply resume_texts in Hr. pose proof (text_bytes_picked done Hd).
  rewrite gather_cons, text_bytes_app in HInv. pose proof (text_bytes_nonneg (gather texts_left l)).
  destruct o as [x'|[]|e]; cbn [after] in Hr; try (split; [exact Hd|]); rewrite ?gather_cons, ?text_bytes_app; unfold text_bytes in *; cbn in *; lia.
Qed.

Lemma begin_file_runs n s : snd (begin_file ptr_dir fuel iterate items n false s) <> Return false.
Proof. unfold begin_file. repeat case_match; done. Qed.

Lemma resume_file_runs w s : snd (resume_file items w s) <> Return false.
Proof. destruct (resume_file items w s) as [s' o] eqn:H. cbn. intros ->. by resume_cases w H. Qed.

(** A scan whose texts fit and that no poll stops runs every file. *)
Lemma scan_answers hardware threads buffer_events schedule work :
  Forall (fun c => polled c = false) schedule ->
  joined (scan_pool ptr_dir fuel iterate hardware threads buffer_events schedule work items) ->
  answer (scan_pool ptr_dir fuel iterate hardware threads buffer_events schedule work items) = Ok true.
Proof.
  intros Hpoll Hjoin.
  assert (Hstart : Inv_texts [] [] (initial_scan DefinitionWriter_make (BucketWriter_make buffer_events, work))).
  { split; [apply sublist_nil_l|]. cbn. lia. }
  pose proof (run_all (length items) (scan_body ptr_dir fuel iterate items) Inv_texts (fun _ => False)
    ltac:(intros ? ? ? ? Hp [Hd H]; split; [done|by rewrite (text_bytes_perm _ _ (gather_perm texts_left _ _ (symmetry Hp)))])
    Inv_texts_begin Inv_texts_resume hardware threads _ schedule Hstart Hjoin) as Hrun.
  pose proof (run_unstopped (length items) (scan_body ptr_dir fuel iterate items) begin_file_runs resume_file_runs
    schedule hardware threads (initial_scan DefinitionWriter_make (BucketWriter_make buffer_events, work)) Hpoll) as Hran.
  unfold scan_pool in *.
  by destruct (answer _) as [[]|e].
Qed.
End fits.

Lemma scanCorpus_succeeds {J : Json} {LJ : JsonLaws J} {I : Inflate}
    (ptr_dir : gmap string (list Z)) (fuel : list Z -> nat) (iterate : gmap Z string -> list (Z * string))
    (hardware threads buffer_events : nat) (schedule : list Choice) (metadata : MetadataUpdate)
    (store : DefinitionWriter) (work : gmap string (list Z)) :
  (forall m, iterate m ≡ₚ map_to_list m) ->
  Forall (fun u => out_of_bounds u = false) (updates metadata) ->
  text_bytes (total (item_tags ptr_dir fuel) (corpus_items (updates metadata))) <= uint32_max ->
  Forall (fun c => polled c = false) schedule ->
  joined (scan_pool ptr_dir fuel iterate hardware threads buffer_events schedule work (corpus_items (sorted_updates metadata))) ->
  exists res, snd (scanCorpus ptr_dir fuel iterate hardware threads buffer_events schedule metadata store work) = Ok res
    /\ scan_cancelled res = false.
Proof.
  intros Hiter Hb Ht Hpoll Hjoin. pose proof (sorted_updates_perm metadata) as Hperm.
  assert (Htexts : text_bytes (total (item_tags ptr_dir fuel) (corpus_items (sorted_updates metadata))) <= uint32_max).
  { erewrite text_bytes_perm; [exact Ht|]. unfold total. by rewrite (corpus_items_perm _ _ Hperm). }
  pose proof (scan_answers ptr_dir fuel iterate Hiter _ Htexts hardware threads buffer_events schedule work Hpoll Hjoin) as Ha.
  unfold scanCorpus. destruct (sorted_updates metadata) as [|first rest]; [by eexists|].
  destruct (List.find out_of_bounds (first :: rest)) as [u|] eqn:Hfind.
  { apply find_some in Hfind as [Hu Hout]. rewrite Forall_forall in Hb. rewrite Hb in Hout; [done|].
    by rewrite <- Hperm, list_elem_of_In. }
  unfold scan_pool in Ha. rewrite Ha. by eexists.
Qed.

(** ** The scan ends *)

Section termination.
Context {J : Json} {I : Inflate}.
Context (ptr_dir : gmap string (list Z)) (fuel : list Z -> nat) (iterate : gmap Z string -> list (Z * string)).
Context (items : list ScanWorkItem).

(** The moves a worker has left in its file. *)
Definition moves_left (w : ScanWork) : nat :=
  match phase w with
  | Defining hs ts => length hs + 3 * length ts + 2
  | Texting _ _ _ ts => 3 * length ts + 4
  | Indexing _ _ _ ts => 3 * length ts + 3
  | Spilling es _ _ _ => length es + 2
  | Finishing _ _ => 1
  | Merging _ _ _ => 0
  end.

(** The moves of a file: those of the work it starts, whatever is shared. *)
Definition file_moves (n : nat) : nat :=
  match snd (begin_file ptr_dir fuel iterate items n false (initial_scan DefinitionWriter_make (BucketWriter_make 0, ∅))) with
  | Continue w => moves_left w + 2
  | _ => 1
  end.

Lemma begin_file_outcome n poll s s' :
  snd (begin_file ptr_dir fuel iterate items n poll s) = snd (begin_file ptr_dir fuel iterate items n poll s').
Proof.
  unfold begin_file. destruct poll; [done|]. destruct (items !! n) as [item|]; [|done].
  destruct (ptr_dir !! item_path item); [|done]. destruct (parseUpdateFile _ _ _) as [[d|c|m]|e]; try done. by destruct (sempty _).
Qed.

Lemma file_moves_positive n : (0 < file_moves n)%nat.
Proof. unfold file_moves. case_match; lia. Qed.

Lemma begin_file_moves n poll s s' w :
  begin_file ptr_dir fuel iterate items n poll s = (s', Continue w) -> (moves_left w + 1 < file_moves n)%nat.
Proof.
  intros H. destruct poll; [done|]. unfold file_moves.
  rewrite (begin_file_outcome n false _ s), H. cbn [snd]. lia.
Qed.

Lemma resume_file_moves w s s' w' :
  resume_file items w s = (s', Continue w') -> (moves_left w' < moves_left w)%nat.
Proof. intros H. resume_cases w H; unfold moves_left; cbn [phase length]; lia. Qed.
End termination.

(** The scan ends: schedules that keep moving workers are bounded by the
    definitions and events of the files, and from any point of any run the
    workers can be joined. *)
Theorem scanCorpus_terminates {J : Json} {I : Inflate}
    (ptr_dir : gmap string (list Z)) (fuel : list Z -> nat) (iterate : gmap Z string -> list (Z * string))
    (items : list ScanWorkItem) (hardware threads : nat) (s : Scan) :
  let count := length items in
  let body := scan_body ptr_dir fuel iterate items in
  let p := start hardware count threads s in
  (forall schedule, live count body schedule p ->
     (length schedule <= measure count (file_moves ptr_dir fuel iterate items) moves_left p)%nat)
  /\ (forall before, exists after, joined (run count body (before ++ after) p)).
Proof.
  intros count body p.
  pose proof (file_moves_positive ptr_dir fuel iterate items) as Hpos.
  assert (Hb : forall n poll s s' l, begin body n poll s = (s', Continue l) ->
    (moves_left l + 1 < file_moves ptr_dir fuel iterate items n)%nat) by exact (begin_file_moves ptr_dir fuel iterate items).
  assert (Hr : forall l s s' l', resume body l s = (s', Continue l') -> (moves_left l' < moves_left l)%nat)
    by exact (resume_file_moves items).
  split.
  - intros schedule Hlive. pose proof (live_bounded count body _ _ Hpos Hb Hr schedule p Hlive). lia.
  - intros before. destruct (run_joins count body _ _ Hpos Hb Hr (run count body before p) true false)
      as (after & _ & Hj & _). exists after. unfold run in *. by rewrite foldl_app.
Qed.

(** *** Witnesses *)

Module Example_scan.
Abbreviation doc := Example_json.document (only parsing).
#[local] Existing Instances Example_json.document Example_json.document_laws Example_inflate.stored.

(** A corpus of three files: definitions, content and one that is missing. *)
Definition file (v : Value) : list Z := Example_inflate.store (Json.write v).
Definition sha_hex : string := "abababababababababababababababababababababababababababababababab".
Definition content : ContentUpdate := mkContentUpdate [mkMapping 7 [4097; 2]] [(7, 8)] [] [mkMapping 7 [2]] [] [].
Definition ptr_dir : gmap string (list Z) :=
  <["d.ptrupdate" := file (HydrusFormat.definitions 1 [(4097, sha_hex)] [(7, "blue")])]>
  {["c.ptrupdate" := file (HydrusFormat.content 1 content)]}.
Definition metadata : MetadataUpdate :=
  mkMetadataUpdate [mkMetadataEntry 5 ["c"; "gone"] 0 0; mkMetadataEntry 3 ["d"] 0 0] None.
Definition fuel (data : list Z) : nat := S (length data).

(** Two workers taking turns. *)
Definition schedule : list Choice := (fun k => mkChoice (k mod 2) true false) <$> seq 0 32.
Abbreviation outcome := (scanCorpus ptr_dir fuel map_to_list 1 2 2 schedule metadata DefinitionWriter_make ∅) (only parsing).

Lemma files_joined : joined (scan_pool ptr_dir fuel map_to_list 1 2 2 schedule ∅ (corpus_items (sorted_updates metadata))).
Proof.
  unfold joined.
  assert (H : lanes (scan_pool ptr_dir fuel map_to_list 1 2 2 schedule ∅ (corpus_items (sorted_updates metadata))) = [Joined; Joined])
    by (vm_compute; reflexivity).
  rewrite H. repeat constructor.
Qed.

Lemma scan_ran : match snd outcome with Ok res => scan_cancelled res = false | Throw _ => False end.
Proof. vm_compute. reflexivity. Qed.

Lemma total_perm {A} (f : ScanWorkItem -> list A) its its' l : its ≡ₚ its' -> total f its' = l -> total f its ≡ₚ l.
Proof. intros H <-. unfold total. by rewrite H. Qed.

(** What the three files contribute. *)
Lemma contributions its : its ≡ₚ corpus_items (updates metadata) ->
  total (item_events ptr_dir fuel) its ≡ₚ [mkEvent 4097 7 5 0 0; mkEvent 2 7 5 0 0; mkEvent 2 7 5 1 0]
  /\ total (item_tags ptr_dir fuel) its ≡ₚ [(7, "blue")]
  /\ total (item_skips ptr_dir fuel) its ≡ₚ [tt].
Proof. intros H. split_and!; (eapply total_perm; [exact H|vm_compute; reflexivity]). Qed.
End Example_scan.

Lemma scanCorpus_complete_witness :
  let '(s, r) := scanCorpus (J := Example_json.document) (I := Example_inflate.stored) Example_scan.ptr_dir Example_scan.fuel
    map_to_list 1 2 2 Example_scan.schedule Example_scan.metadata DefinitionWriter_make ∅ in
  match r with
  | Throw _ => False
  | Ok res => result_events_written res = 3 /\ result_skipped_files res = 1
      /\ readBucket (snd (spill s)) (bucketPath 1) = Ok [mkEvent 4097 7 5 0 0]
      /\ def_tag (definitions_of (DefinitionReader_make (definitions s))) 7 = Some "blue"
  end.
Proof.
  pose proof (scanCorpus_complete Example_json.document_laws Example_scan.ptr_dir Example_scan.fuel map_to_list 1 2 2
    Example_scan.schedule Example_scan.metadata DefinitionWriter_make ∅ (fun m => reflexivity (map_to_list m))
    Example_scan.files_joined) as H.
  pose proof Example_scan.scan_ran as Hran.
  destruct (scanCorpus _ _ _ _ _ _ _ _ _ _) as [s [res|e]]; [|done]. cbn [snd] in Hran.
  destruct H as (its & evs & _ & Hall & _ & _ & _ & _ & Hevs & Hbuckets & _ & Hdefs & _ & _ & Hwritten & Hskipped & _).
  destruct (Example_scan.contributions its (Hall Hran)) as (Hev & Htags & Hskips).
  split_and!.
  - by rewrite Hwritten, (Permutation_length Hev).
  - by rewrite Hskipped, (Permutation_length Hskips).
  - rewrite (Hbuckets 1 [] ltac:(unfold BUCKET_COUNT; lia) eq_refl). f_equal. apply Permutation_singleton_r.
    unfold of_bucket. rewrite Hevs, Hev. done.
  - destruct (Hdefs ltac:(done) 7 ltac:(lia)) as [Ht _].
    destruct (def_tag _ 7) as [t|] eqn:Hd.
    + assert (Hin : (7, t) ∈ [(7, "blue")]) by (rewrite <- Htags; exact Ht). apply list_elem_of_singleton in Hin. by simplify_eq.
    + destruct (Ht "blue"). rewrite Htags. constructor.
Defined.
