(* ===== verification/PtrManifest.v ===== *)
(** * The manifest of a compacted directory: [Manifest.cpp]

    The index of a flatten run's output, a JSON file that the run writes last
    and an import reads first.  Every field but the chunk list is required on
    reading; a manifest of another format version is refused. *)
From S2P Require Import Prelude StringView Json PtrChunk PtrCollapse.

(** ** Data *)

Definition MANIFEST_FILENAME : string := "compact_manifest.json".

Record CompactManifest := mkManifest {
  format_version : Z;
  first_index : Z;
  last_index : Z;
  max_records_per_chunk : Z;
  discard_terminal_deletes : bool;
  manifest_chunks : list ChunkEntry;
  relations_file : string;
  manifest_stats : FlattenStats
}.

(** ** Writing and reading *)

Definition quoted (s : string) : string := String (Ascii.ascii_of_nat 34) s +:+ String (Ascii.ascii_of_nat 34) EmptyString.

Section manifest.
Context {J : Json}.

(** [require( json, key )]; 34 is the double quote. *)
Definition require (json : Value) (key : string) : result Value :=
  if negb (isObject json) || negb (isMember json key) then
    Throw (runtime_error ("Manifest is missing " +:+ quoted key +:+ "; the directory must be re-flattened"))
  else member json key.

Definition statsToJson (stats : FlattenStats) : Value :=
  object_of [("events_scanned", of_uint (stats_events_scanned stats));
    ("mappings_after_collapse", of_uint (stats_mappings_after_collapse stats));
    ("events_collapsed", of_uint (stats_events_collapsed stats));
    ("terminal_deletes", of_uint (stats_terminal_deletes stats));
    ("terminal_delete_records", of_uint (stats_terminal_delete_records stats));
    ("skipped_files", of_uint (stats_skipped_files stats));
    ("skipped_missing_definitions", of_uint (stats_skipped_missing_definitions stats));
    ("defined_tags", of_uint (stats_defined_tags stats));
    ("used_tags", of_uint (stats_used_tags stats))].

Definition statsFromJson (json : Value) : result FlattenStats :=
  events_scanned ← require json "events_scanned" ≫= asUInt64;
  mappings_after_collapse ← require json "mappings_after_collapse" ≫= asUInt64;
  events_collapsed ← require json "events_collapsed" ≫= asUInt64;
  terminal_deletes ← require json "terminal_deletes" ≫= asUInt64;
  terminal_delete_records ← require json "terminal_delete_records" ≫= asUInt64;
  skipped_files ← require json "skipped_files" ≫= asUInt64;
  skipped_missing_definitions ← require json "skipped_missing_definitions" ≫= asUInt64;
  defined_tags ← require json "defined_tags" ≫= asUInt64;
  used_tags ← require json "used_tags" ≫= asUInt64;
  Ok (mkFlattenStats events_scanned mappings_after_collapse events_collapsed terminal_deletes terminal_delete_records
        skipped_files skipped_missing_definitions defined_tags used_tags).

Definition chunk_to_json (chunk : ChunkEntry) : Value :=
  object_of [("file", of_string (file chunk)); ("records", of_uint (entry_records chunk));
    ("mappings", of_uint (entry_mappings chunk))].

Definition manifest_to_json (m : CompactManifest) : Value :=
  object_of [("format_version", of_uint (format_version m));
    ("first_update_index", of_int (first_index m));
    ("last_update_index", of_int (last_index m));
    ("max_records_per_chunk", of_uint (max_records_per_chunk m));
    ("discard_terminal_deletes", of_bool (discard_terminal_deletes m));
    ("relations_file", of_string (relations_file m));
    ("stats", statsToJson (manifest_stats m));
    ("chunks", array_of (chunk_to_json <$> manifest_chunks m))].

Definition writeManifest (dir : gmap string (list Z)) (m : CompactManifest) : gmap string (list Z) :=
  <[MANIFEST_FILENAME := write (manifest_to_json m)]> dir.

Definition read_chunk_entry (chunks : list ChunkEntry) (entry : Value) : result (list ChunkEntry) :=
  if negb (isObject entry) then Ok chunks
  else
    file ← get entry "file" (of_string "") ≫= asString;
    records ← get entry "records" (of_uint 0) ≫= asUInt64;
    mappings ← get entry "mappings" (of_uint 0) ≫= asUInt64;
    Ok (chunks ++ [mkEntry file records mappings]).

Definition read_chunks (chunks : Value) : result (list ChunkEntry) :=
  if isArray chunks then foldM read_chunk_entry [] (elements chunks) else Ok [].

Definition manifest_from_json (root : Value) : result CompactManifest :=
  format_version ← require root "format_version" ≫= asUInt;
  if negb (format_version =? CHUNK_FORMAT_VERSION) then
    Throw (runtime_error ("Manifest at " +:+ MANIFEST_FILENAME +:+ " is format version " +:+ to_string format_version +:+ ", this build writes and reads "
      +:+ to_string CHUNK_FORMAT_VERSION +:+ ". Re-flatten the corpus."))
  else
    first_update_index ← require root "first_update_index" ≫= asInt;
    last_update_index ← require root "last_update_index" ≫= asInt;
    max_records_per_chunk ← require root "max_records_per_chunk" ≫= asUInt64;
    discard ← require root "discard_terminal_deletes" ≫= asBool;
    relations_file ← require root "relations_file" ≫= asString;
    stats ← require root "stats" ≫= statsFromJson;
    entries ← member root "chunks" ≫= read_chunks;
    Ok (mkManifest format_version first_update_index last_update_index max_records_per_chunk discard entries relations_file stats).

Definition readManifest (dir : gmap string (list Z)) : result CompactManifest :=
  text ← or_throw (runtime_error ("No manifest at " +:+ MANIFEST_FILENAME)) (dir !! MANIFEST_FILENAME);
  match parse text with
  | inl errors => Throw (runtime_error ("Failed to parse manifest " +:+ MANIFEST_FILENAME +:+ ": " +:+ errors))
  | inr root => manifest_from_json root
  end.

Definition isCompactedDirectory (dir : gmap string (list Z)) : bool :=
  match dir !! MANIFEST_FILENAME with
  | None => false
  | Some _ => is_ok (readManifest dir)
  end.
End manifest.

(** ** What the text keeps *)

(** The integers fit their widths and the names are plain. *)
Definition is_uint64 (n : Z) : Prop := 0 <= n <= size_max.

Record stats_ok (s : FlattenStats) : Prop := {
  ok_events_scanned : is_uint64 (stats_events_scanned s);
  ok_mappings : is_uint64 (stats_mappings_after_collapse s);
  ok_collapsed : is_uint64 (stats_events_collapsed s);
  ok_terminal : is_uint64 (stats_terminal_deletes s);
  ok_terminal_records : is_uint64 (stats_terminal_delete_records s);
  ok_skipped : is_uint64 (stats_skipped_files s);
  ok_missing : is_uint64 (stats_skipped_missing_definitions s);
  ok_defined : is_uint64 (stats_defined_tags s);
  ok_used : is_uint64 (stats_used_tags s)
}.

Definition chunk_ok (c : ChunkEntry) : Prop := plain_ascii (file c) /\ is_uint64 (entry_records c) /\ is_uint64 (entry_mappings c).

Record manifest_ok (m : CompactManifest) : Prop := {
  ok_version : 0 <= format_version m <= uint32_max;
  ok_first : int32_min <= first_index m <= int32_max;
  ok_last : int32_min <= last_index m <= int32_max;
  ok_max : is_uint64 (max_records_per_chunk m);
  ok_chunks : Forall chunk_ok (manifest_chunks m);
  ok_relations : plain_ascii (relations_file m);
  ok_stats : stats_ok (manifest_stats m)
}.

Section reading.
Context {J : Json} {L : JsonLaws J}.

Lemma same_bind {A} (f : Value -> result A) (x y : result Value) :
  (forall v v', same v v' -> f v = f v') -> same_result same x y -> x ≫= f = y ≫= f.
Proof. intros Hf Hxy. destruct x, y; cbn in *; try done; [by apply Hf|by subst]. Qed.

Lemma require_same v v' k : same v v' -> same_result same (require v k) (require v' k).
Proof.
  intros Hv. unfold require. rewrite (same_isObject _ _ Hv), (same_isMember _ _ Hv k k eq_refl).
  case_match; [done|]. by apply same_member.
Qed.

Lemma required {A} (acc : Value -> result A) v v' k :
  (forall v v', same v v' -> acc v = acc v') -> same v v' -> require v k ≫= acc = require v' k ≫= acc.
Proof. intros Ha Hv. apply same_bind; [done|by apply require_same]. Qed.

Lemma statsFromJson_same v v' : same v v' -> statsFromJson v = statsFromJson v'.
Proof.
  intros Hv. unfold statsFromJson. rewrite !(required asUInt64 v v') by (done || apply same_asUInt64). done.
Qed.

Lemma read_chunk_entry_same l v v' : same v v' -> read_chunk_entry l v = read_chunk_entry l v'.
Proof.
  intros Hv. unfold read_chunk_entry. rewrite (same_isObject _ _ Hv). case_match; [done|].
  assert (Hget : forall {A} (acc : Value -> result A) k d, (forall v v', same v v' -> acc v = acc v') ->
    get v k d ≫= acc = get v' k d ≫= acc).
  { intros A acc k d Ha. apply same_bind; [done|]. by apply same_get. }
  rewrite (Hget _ asString), !(Hget _ asUInt64) by (apply same_asString || apply same_asUInt64). done.
Qed.

Lemma foldM_entries_same l xs ys : Forall2 same xs ys -> foldM read_chunk_entry l xs = foldM read_chunk_entry l ys.
Proof.
  intros H. revert l. induction H as [|x y xs ys Hx Hl IH]; intros l; [done|]. cbn.
  rewrite (read_chunk_entry_same l x y Hx). destruct (read_chunk_entry l y); [apply IH|done].
Qed.

Lemma read_chunks_same v v' : same v v' -> read_chunks v = read_chunks v'.
Proof.
  intros Hv. unfold read_chunks. rewrite (same_isArray _ _ Hv). case_match; [|done].
  by apply foldM_entries_same, same_elements.
Qed.

Lemma manifest_from_json_same v v' : same v v' -> manifest_from_json v = manifest_from_json v'.
Proof.
  intros Hv. unfold manifest_from_json.
  assert (Hc : member v "chunks" ≫= read_chunks = member v' "chunks" ≫= read_chunks).
  { apply same_bind; [apply read_chunks_same|by apply same_member]. }
  by rewrite Hc, (required asUInt v v' _ same_asUInt Hv), !(required asInt v v' _ same_asInt Hv),
    (required asUInt64 v v' _ same_asUInt64 Hv), (required asBool v v' _ same_asBool Hv),
    (required asString v v' _ same_asString Hv), (required statsFromJson v v' _ statsFromJson_same Hv).
Qed.

Lemma require_object l k x : NoDup (fst <$> l) -> (k, x) ∈ l -> require (object_of l) k = Ok x.
Proof.
  intros Hnd Hin. unfold require. destruct (object_member l k x Hnd Hin) as [-> ->].
  by rewrite isObject_object_of.
Qed.

Lemma get_object l k x d : NoDup (fst <$> l) -> (k, x) ∈ l -> get (object_of l) k d = Ok x.
Proof.
  intros Hnd Hin. rewrite get_member by apply isObject_object_of. by destruct (object_member l k x Hnd Hin) as [-> ->].
Qed.

Ltac distinct_keys := by apply (bool_decide_eq_true_1 (NoDup _)).
Ltac find_member := repeat constructor.

Lemma stats_roundtrip s : stats_ok s -> statsFromJson (statsToJson s) = Ok s.
Proof.
  intros []. unfold statsFromJson, statsToJson.
  repeat (erewrite require_object; [|distinct_keys|find_member]; cbn [mbind result_bind]; rewrite asUInt64_of by done;
    cbn [mbind result_bind]). by destruct s.
Qed.

Lemma read_chunk_entry_roundtrip l c : chunk_ok c -> read_chunk_entry l (chunk_to_json c) = Ok (l ++ [c]).
Proof.
  intros (_ & Hr & Hm). unfold read_chunk_entry, chunk_to_json. rewrite isObject_object_of. cbn [negb].
  repeat (erewrite get_object; [|distinct_keys|find_member]; cbn [mbind result_bind]; 
    rewrite ?asString_of, ?asUInt64_of by done; cbn [mbind result_bind]). by destruct c.
Qed.

Lemma read_chunks_roundtrip cs : Forall chunk_ok cs -> read_chunks (array_of (chunk_to_json <$> cs)) = Ok cs.
Proof.
  intros Hcs. unfold read_chunks. rewrite isArray_array_of, elements_array_of, foldM_fmap.
  rewrite (foldM_pure _ (fun l c => l ++ [c])).
  - by rewrite foldl_collect.
  - intros l c Hc. apply read_chunk_entry_roundtrip. rewrite Forall_forall in Hcs. by apply Hcs.
Qed.

Lemma manifest_requires m k x :
  (k, x) ∈ [("format_version", of_uint (format_version m)); ("first_update_index", of_int (first_index m));
    ("last_update_index", of_int (last_index m)); ("max_records_per_chunk", of_uint (max_records_per_chunk m));
    ("discard_terminal_deletes", of_bool (discard_terminal_deletes m)); ("relations_file", of_string (relations_file m));
    ("stats", statsToJson (manifest_stats m)); ("chunks", array_of (chunk_to_json <$> manifest_chunks m))] ->
  require (manifest_to_json m) k = Ok x.
Proof. intros Hin. unfold manifest_to_json. apply require_object; [distinct_keys|exact Hin]. Qed.

Lemma manifest_version m : 0 <= format_version m <= uint32_max -> format_version m <> CHUNK_FORMAT_VERSION ->
  exists what, manifest_from_json (manifest_to_json m) = Throw (runtime_error what).
Proof.
  intros Hv Hne. unfold manifest_from_json.
  rewrite (manifest_requires m "format_version" _ ltac:(find_member)). cbn [mbind result_bind]. rewrite asUInt_of by done.
  cbn [mbind result_bind]. apply Z.eqb_neq in Hne. rewrite Hne. by eexists.
Qed.

Lemma manifest_json_roundtrip m : manifest_ok m -> format_version m = CHUNK_FORMAT_VERSION ->
  manifest_from_json (manifest_to_json m) = Ok m.
Proof.
  intros [] Hv. unfold manifest_from_json.
  rewrite (manifest_requires m "format_version" _ ltac:(find_member)). cbn [mbind result_bind]. rewrite asUInt_of by done.
  cbn [mbind result_bind]. rewrite (proj2 (Z.eqb_eq _ _) Hv). cbn [negb].
  rewrite (manifest_requires m "first_update_index" _ ltac:(find_member)), (manifest_requires m "last_update_index" _ ltac:(find_member)),
    (manifest_requires m "max_records_per_chunk" _ ltac:(find_member)),
    (manifest_requires m "discard_terminal_deletes" _ ltac:(find_member)),
    (manifest_requires m "relations_file" _ ltac:(find_member)), (manifest_requires m "stats" _ ltac:(find_member)).
  cbn [mbind result_bind].
  rewrite !asInt_of, asUInt64_of, asBool_of, asString_of, stats_roundtrip by done. cbn [mbind result_bind].
  assert (Hc : member (manifest_to_json m) "chunks" = Ok (array_of (chunk_to_json <$> manifest_chunks m))).
  { unfold manifest_to_json. apply object_member; [distinct_keys|find_member]. }
  rewrite Hc. cbn [mbind result_bind]. rewrite read_chunks_roundtrip by done. by destruct m.
Qed.

Ltac plain := by apply (bool_decide_eq_true_1 (Forall plain_ascii _)).
Ltac all_printable :=
  repeat (apply List.Forall_cons;
    [first [apply printable_uint | apply printable_int | apply printable_bool | by apply printable_string | idtac]|]);
  try apply List.Forall_nil.

Lemma manifest_printable m : plain_ascii (relations_file m) -> Forall (fun c => plain_ascii (file c)) (manifest_chunks m) ->
  printable (manifest_to_json m).
Proof.
  intros Hr Hc. unfold manifest_to_json. apply printable_object_of; [plain|]. cbn [fmap list_fmap snd]. all_printable.
  - unfold statsToJson. apply printable_object_of; [plain|]. cbn [fmap list_fmap snd]. all_printable.
  - apply printable_array_of, Forall_fmap. eapply Forall_impl; [exact Hc|]. intros c Hp. unfold compose, chunk_to_json.
    apply printable_object_of; [plain|]. cbn [fmap list_fmap snd]. all_printable.
Qed.

Lemma readManifest_written dir m :
  plain_ascii (relations_file m) -> Forall (fun c => plain_ascii (file c)) (manifest_chunks m) ->
  readManifest (writeManifest dir m) = manifest_from_json (manifest_to_json m).
Proof.
  intros Hr Hc. unfold readManifest, writeManifest. rewrite lookup_insert_eq. cbn [or_throw mbind result_bind].
  destruct (parse_write (manifest_to_json m) (manifest_printable m Hr Hc)) as (v & -> & Hv).
  symmetry. by apply manifest_from_json_same.
Qed.

Lemma manifest_chunk_names m : manifest_ok m -> Forall (fun c => plain_ascii (file c)) (manifest_chunks m).
Proof. intros []. eapply Forall_impl; [eassumption|]. by intros c [Hc _]. Qed.

Lemma manifest_reads_back dir m : manifest_ok m -> format_version m = CHUNK_FORMAT_VERSION ->
  readManifest (writeManifest dir m) = Ok m.
Proof.
  intros Hm Hv. rewrite readManifest_written; [by apply manifest_json_roundtrip|apply Hm|by apply manifest_chunk_names].
Qed.
End reading.

(** ** Theorem *)

(** A manifest reads back as it was written, through its text, when it is of
    this build's version, and then the directory counts as compacted; one of
    any other version is refused, and the directory does not count.  A
    directory without a manifest never does. *)
Theorem manifest_roundtrip {J : Json} (L : JsonLaws J) (dir : gmap string (list Z)) (m : CompactManifest) (Hm : manifest_ok m) :
  (if decide (format_version m = CHUNK_FORMAT_VERSION) then
     readManifest (writeManifest dir m) = Ok m /\ isCompactedDirectory (writeManifest dir m) = true
   else
     (exists what, readManifest (writeManifest dir m) = Throw (runtime_error what))
     /\ isCompactedDirectory (writeManifest dir m) = false)
  /\ isCompactedDirectory (delete MANIFEST_FILENAME (writeManifest dir m)) = false.
Proof.
  assert (Hthere : writeManifest dir m !! MANIFEST_FILENAME = Some (write (manifest_to_json m))) by apply lookup_insert_eq.
  split; [|unfold isCompactedDirectory; by rewrite lookup_delete_eq].
  unfold isCompactedDirectory. rewrite Hthere. case_decide as Hv.
  - by rewrite manifest_reads_back.
  - rewrite readManifest_written by (apply Hm || by apply manifest_chunk_names).
    destruct (manifest_version m) as [what ->]; [apply Hm|done|]. split; [by exists what|done].
Qed.

(** *** Witness *)

Module Example_manifest.
Definition stats : FlattenStats := mkFlattenStats 6 3 3 1 1 0 2 5 4.
Definition manifest (version : Z) : CompactManifest :=
  mkManifest version 3 5 1000 false [mkEntry "chunk-00000.idhanptr" 2 3] "relations.idhanptr" stats.

Lemma manifest_is_ok : manifest_ok (manifest 2).
Proof.
  split; cbn; unfold is_uint64, uint32_max, int32_min, int32_max, size_max; try lia.
  - repeat constructor; cbn; unfold is_uint64, size_max; lia.
  - by apply (bool_decide_eq_true_1 (plain_ascii _)).
  - split; cbn; unfold is_uint64, size_max; lia.
Qed.
End Example_manifest.

Lemma manifest_roundtrip_witness :
  readManifest (J := Example_json.document) (writeManifest (J := Example_json.document) ∅ (Example_manifest.manifest 2))
    = Ok (Example_manifest.manifest 2).
Proof.
  exact (proj1 (proj1 (manifest_roundtrip Example_json.document_laws ∅ (Example_manifest.manifest 2) Example_manifest.manifest_is_ok))).
Defined.
