(* ===== verification/PtrRun.v ===== *)
(** * A flatten run, end to end: [RunFlatten.cpp]

    [runFlatten] loads the corpus' metadata, scans the update files into the
    work directory, collapses the buckets into chunks in a staging directory,
    writes the relations file beside them, and only then renames the output
    into place and writes the manifest.  The theorem composes the stages of
    the files before this one. *)
From S2P Require Import Prelude StringView Json Bytes PtrEvents PtrChunk PtrStore PtrPool PtrCollapse PtrParse PtrScan PtrManifest.
From Stdlib Require Import Ascii.

(** ** Data *)

Definition RELATIONS_FILENAME : string := "relations.idhanptr".

Record FlattenOutcome := mkOutcome {
  success : bool;
  cancelled : bool;
  message : string;
  manifest : CompactManifest
}.

Record FlattenOptions := mkOptions {
  option_max_records : nat;
  required_free_bytes : Z;
  scan_thread_count : nat;
  collapse_thread_count : nat;
  option_discard : bool
}.

(** What the run finds outside: the free space, the renames that fail, and
    whether the manifest can be opened for writing. *)
Record Environment := mkEnvironment {
  available : Z;
  rename_fails : string -> bool;
  manifest_unwritable : bool
}.

(** The work directory: what an earlier run may have left in it. *)
Record WorkDirectory := mkWork {
  work_store : DefinitionWriter;
  work_buckets : gmap string (list Z);
  work_staging : gmap string (list Z)
}.

Definition empty_work : WorkDirectory := mkWork DefinitionWriter_make ∅ ∅.

(** The interleaving of the workers of both stages. *)
Record Schedules := mkSchedules { hardware : nat; scan_schedule : list Choice; collapse_schedule : list Choice }.

(** [CompactManifest {}] *)
Definition manifest_default : CompactManifest :=
  mkManifest CHUNK_FORMAT_VERSION 0 0 0 false [] EmptyString (mkFlattenStats 0 0 0 0 0 0 0 0 0).

Definition DEFAULT_BUFFER_EVENTS : nat := Pos.to_nat 5461.

(** ** Publishing *)

Definition rename_failed (name : string) : exn :=
  runtime_error ("filesystem error: cannot rename: " +:+ name).

(** The renames of [publishStagedOutput], with the names moved so far: on a
    failure these are removed from the output directory again. *)
Fixpoint move_all (env : Environment) (staging out : gmap string (list Z)) (moved names : list string)
    : gmap string (list Z) * result unit :=
  match names with
  | [] => (out, Ok tt)
  | name :: names =>
      match staging !! name, rename_fails env name with
      | Some content, false => move_all env (delete name staging) (<[name := content]> out) (moved ++ [name]) names
      | _, _ => (foldl (fun o n => delete n o) out moved, Throw (rename_failed name))
      end
  end.

Definition published_names (m : CompactManifest) : list string :=
  (file <$> manifest_chunks m) ++ (if decide (relations_file m = EmptyString) then [] else [relations_file m]).

Definition publishStagedOutput (env : Environment) (staging out : gmap string (list Z)) (m : CompactManifest)
    : gmap string (list Z) * result unit := move_all env staging out [] (published_names m).

(** ** The run *)

Section run.
Context {J : Json} {I : Inflate} {zl : Zlib}.
Context (fuel : list Z -> nat) (iterate : gmap Z string -> list (Z * string)).

(** The cached metadata of the downloader, else the raw update. *)
Definition loadCorpusMetadata (dir : gmap string (list Z)) : result MetadataUpdate :=
  let not_found := Throw (runtime_error "No PTR metadata found. Run the download step first.") in
  let raw :=
    match dir !! "metadata.ptrupdate" with
    | None => not_found
    | Some _ =>
        match parseUpdateFile fuel dir "metadata.ptrupdate" with
        | Ok (ParsedMetadata metadata) => Ok metadata
        | Ok _ | Throw _ => not_found
        end
    end in
  match dir !! "ptr_metadata.json" with
  | None => raw
  | Some text =>
      match parse text with
      | inl _ => raw
      | inr root => parseMetadataCacheJson root
      end
  end.

(** The stages up to the publication: a message when the run was cancelled,
    else the staged files and the manifest. *)
Definition flatten_stages (ptr_dir : gmap string (list Z)) (work : WorkDirectory) (options : FlattenOptions)
    (schedules : Schedules) : result (string + gmap string (list Z) * CompactManifest) :=
  metadata ← loadCorpusMetadata ptr_dir;
  let '(s, r) := scanCorpus ptr_dir fuel iterate (hardware schedules) (scan_thread_count options) DEFAULT_BUFFER_EVENTS
    (scan_schedule schedules) metadata (work_store work) (work_buckets work) in
  scan ← r;
  if scan_cancelled scan then Ok (inl "Cancelled during scan")
  else
    let reader := DefinitionReader_make (PtrScan.definitions s) in
    let definitions := definitions_of reader in
    let '(c, r) := collapseBuckets (snd (spill s)) definitions (option_discard options) (option_max_records options)
      (hardware schedules) (collapse_thread_count options) (collapse_schedule schedules)
      (TagUsageSet_make (tagIdCapacity reader)) (work_staging work) in
    collapse ← r;
    if result_cancelled collapse then Ok (inl "Cancelled during collapse")
    else
      parents ← collapseRelations (result_parents scan);
      siblings ← collapseRelations (result_siblings scan);
      let '(usage, staging, r) := writeRelationsFile (out_files c) RELATIONS_FILENAME parents siblings
        (def_tag definitions) (Some (tag_usage c)) in
      relation_stats ← r;
      let stats := stats collapse in
      Ok (inr (staging,
        mkManifest CHUNK_FORMAT_VERSION (first_update_index scan) (last_update_index scan)
          (Z.of_nat (option_max_records options)) (option_discard options) (chunks collapse) RELATIONS_FILENAME
          (mkFlattenStats (stats_events_scanned stats) (stats_mappings_after_collapse stats) (stats_events_collapsed stats)
             (stats_terminal_deletes stats) (stats_terminal_delete_records stats) (result_skipped_files scan)
             (stats_skipped_missing_definitions stats + stat_missing relation_stats)
             (countDefinedTags reader) (usage_count (default (tag_usage c) usage))))).

Definition GiB : Z := 1024 * 1024 * 1024.

Definition success_message (options : FlattenOptions) (m : CompactManifest) : string :=
  let st := manifest_stats m in
  "Flattened " +:+ to_string (stats_events_scanned st) +:+ " events into "
  +:+ to_string (stats_mappings_after_collapse st) +:+ " mappings across "
  +:+ to_string (Z.of_nat (length (manifest_chunks m))) +:+ " chunks. " +:+ to_string (stats_terminal_deletes st)
  +:+ " terminal deletes " +:+ (if option_discard options then "discarded" else "kept") +:+ " across "
  +:+ to_string (stats_terminal_delete_records st) +:+ " records; "
  +:+ to_string (wrapu 64 (stats_defined_tags st - stats_used_tags st)) +:+ " of " +:+ to_string (stats_defined_tags st)
  +:+ " defined tags were unused".

(** The output directory afterwards, and the outcome.  The work directory is
    removed on every way out after the check of the free space. *)
Definition runFlatten (ptr_dir out_dir : gmap string (list Z)) (work : WorkDirectory) (options : FlattenOptions)
    (env : Environment) (schedules : Schedules) : gmap string (list Z) * FlattenOutcome :=
  if available env <? required_free_bytes options then
    (out_dir, mkOutcome false false
      ("Not enough free space: " +:+ to_string (available env / GiB) +:+ " GiB available, "
        +:+ to_string (required_free_bytes options / GiB) +:+ " GiB required") manifest_default)
  else
    match flatten_stages ptr_dir work options schedules with
    | Throw e => (out_dir, mkOutcome false false (exn_what e) manifest_default)
    | Ok (inl text) => (out_dir, mkOutcome false true text manifest_default)
    | Ok (inr (staging, m)) =>
        match publishStagedOutput env staging out_dir m with
        | (out, Throw e) => (out, mkOutcome false false (exn_what e) m)
        | (out, Ok _) =>
            if manifest_unwritable env then
              (out, mkOutcome false false ("Failed to open manifest " +:+ MANIFEST_FILENAME +:+ " for writing") m)
            else (writeManifest out m, mkOutcome true false (success_message options m) m)
        end
    end.
End run.

(** ** Publishing without faults *)

Definition no_faults (env : Environment) : Prop := (forall name, rename_fails env name = false) /\ manifest_unwritable env = false.

Lemma move_all_ok env staging out moved names :
  (forall name, rename_fails env name = false) -> NoDup names -> Forall (fun n => is_Some (staging !! n)) names ->
  exists out', move_all env staging out moved names = (out', Ok tt)
    /\ forall n, out' !! n = if decide (n ∈ names) then staging !! n else out !! n.
Proof.
  intros Hf. revert staging out moved. induction names as [|name names IH]; intros staging out moved Hnd Hs.
  { exists out. by split. }
  apply NoDup_cons in Hnd as [Hn Hnd]. apply Forall_cons in Hs as [[content Hc] Hs]. cbn [move_all]. rewrite Hc, Hf.
  destruct (IH (delete name staging) (<[name := content]> out) (moved ++ [name]) Hnd) as (out' & -> & Hout).
  { rewrite Forall_forall in *. intros n Hin. rewrite lookup_delete_ne; [by apply Hs|]. by intros ->. }
  exists out'. split; [done|]. intros n. rewrite Hout. destruct (decide (n = name)) as [->|Hne].
  - rewrite decide_False, decide_True by (done || constructor). by rewrite lookup_insert_eq.
  - rewrite lookup_delete_ne, lookup_insert_ne by done. destruct (decide (n ∈ names)).
    + by rewrite decide_True by (by constructor).
    + rewrite decide_False; [done|]. by intros [?|?]%elem_of_cons.
Qed.

(** *** The rollback *)

Lemma lookup_delete_all {A} (names : list string) (m : gmap string A) n :
  foldl (fun o n => delete n o) m names !! n = if decide (n ∈ names) then None else m !! n.
Proof.
  revert m. induction names as [|x names IH]; intros m; [done|]. cbn [foldl]. rewrite IH.
  destruct (decide (n ∈ names)) as [Hin|Hin]; [by rewrite decide_True by (by constructor)|].
  destruct (decide (n = x)) as [->|Hne].
  - by rewrite lookup_delete_eq, decide_True by (by constructor).
  - rewrite lookup_delete_ne, decide_False; [done| |done]. by intros [?|?]%elem_of_cons.
Qed.

Lemma move_on {A} (out out0 : gmap string A) moved name content :
  (forall n, n ∉ moved -> out !! n = out0 !! n) ->
  forall n, n ∉ moved ++ [name] -> <[name := content]> out !! n = out0 !! n.
Proof.
  intros Hout n Hn. rewrite elem_of_app, list_elem_of_singleton in Hn. rewrite lookup_insert_ne by naive_solver. apply Hout. naive_solver.
Qed.

(** What the renames leave, whether they all succeed or one fails. *)
Lemma move_all_outcome env staging out (out0 : gmap string (list Z)) moved names :
  (forall n, n ∉ moved -> out !! n = out0 !! n) ->
  let '(out', r) := move_all env staging out moved names in
  match r with
  | Ok _ => (forall n, n ∈ names -> is_Some (staging !! n))
      /\ forall n, out' !! n = if decide (n ∈ names) then staging !! n else out !! n
  | Throw e => exists k name, names !! k = Some name /\ e = rename_failed name
      /\ forall n, out' !! n = if decide (n ∈ moved ++ take k names) then None else out0 !! n
  end.
Proof.
  revert staging out moved. induction names as [|name names IH]; intros staging out moved Hout; cbn [move_all].
  { split; [|done]. by intros n Hn%not_elem_of_nil. }
  assert (Hfail : forall n, foldl (fun o n => delete n o) out moved !! n = if decide (n ∈ moved ++ []) then None else out0 !! n).
  { intros n. rewrite lookup_delete_all, app_nil_r. case_decide; [done|]. by apply Hout. }
  destruct (staging !! name) as [content|] eqn:Hs; [|by exists 0%nat, name].
  destruct (rename_fails env name); [by exists 0%nat, name|].
  specialize (IH (delete name staging) (<[name := content]> out) (moved ++ [name])).
  destruct (move_all _ _ _ _ _) as [out' [u|e]].
  - destruct IH as [Hsome IH]; [by apply move_on|]. assert (Hnot : name ∉ names).
    { intros Hin. destruct (Hsome name Hin) as [c Hc]. by rewrite lookup_delete_eq in Hc. }
    split.
    + intros n [->|Hn]%elem_of_cons; [by rewrite Hs|]. rewrite <- (lookup_delete_ne staging name n) by (by intros ->).
      by apply Hsome.
    + intros n. rewrite IH. destruct (decide (n = name)) as [->|Hne].
      * by rewrite decide_False, decide_True, lookup_insert_eq by (done || constructor).
      * rewrite lookup_delete_ne, lookup_insert_ne by done. apply decide_ext. rewrite elem_of_cons. naive_solver.
  - destruct IH as (k & nm & Hk & -> & IH); [by apply move_on|]. exists (S k), nm. split_and!; [done|done|]. intros n. rewrite IH.
    by rewrite <- app_assoc.
Qed.

(** Publishing either moves every file of the manifest into the output
    directory, or fails at the first name that cannot be renamed and then the
    names moved before it are gone from the directory, also where they had
    replaced a file; nothing else of the directory changes. *)
Theorem publishStagedOutput_all_or_none (env : Environment) (staging out : gmap string (list Z)) (m : CompactManifest) :
  let names := published_names m in
  let '(out', r) := publishStagedOutput env staging out m in
  match r with
  | Ok _ => forall n, out' !! n = if decide (n ∈ names) then staging !! n else out !! n
  | Throw e => exists k name, names !! k = Some name /\ e = rename_failed name
      /\ forall n, out' !! n = if decide (n ∈ take k names) then None else out !! n
  end.
Proof.
  pose proof (move_all_outcome env staging out out [] (published_names m) (fun _ _ => eq_refl)) as H.
  cbn zeta. unfold publishStagedOutput. destruct (move_all _ _ _ _ _) as [out' [u|e]]; [|done].
  apply H.
Qed.

(** ** What the corpus is *)

Section corpus.
Context {J : Json} {I : Inflate}.
Context (ptr_dir : gmap string (list Z)) (fuel : list Z -> nat) (metadata : MetadataUpdate).

Definition corpus : list ScanWorkItem := corpus_items (updates metadata).
Definition corpus_events : list MappingEvent := total (item_events ptr_dir fuel) corpus.
Definition corpus_tags : list (Z * string) := total (item_tags ptr_dir fuel) corpus.
Definition corpus_hashes : list (Z * list Z) := total (item_hashes ptr_dir fuel) corpus.
Definition corpus_parents : list RelationEvent := total (item_parents ptr_dir fuel) corpus.
Definition corpus_siblings : list RelationEvent := total (item_siblings ptr_dir fuel) corpus.

(** What the 32-bit counts of the output can hold. *)
Record corpus_fits : Prop := {
  fits_events : Z.of_nat (length corpus_events) <= uint32_max;
  fits_relations : 2 * Z.of_nat (length corpus_parents + length corpus_siblings) <= uint32_max;
  fits_tag_texts : Forall (fun t => Z.of_nat (String.length (snd t)) <= int32_max) corpus_tags
}.

(** What the collapse of all buckets makes of the corpus. *)
Definition corpus_records (d : Definitions) (discard : bool) : list CollapsedRecord :=
  concat ((fun b => records (CollapseSpec.outcome d discard (of_bucket (Z.of_nat b) corpus_events)))
    <$> seq 0 (Z.to_nat BUCKET_COUNT)).
End corpus.

(** ** The stages meet *)

Lemma def_hash_nonneg w h :
  def_hash (definitions_of (DefinitionReader_make w)) h = def_hash (definitions_of (DefinitionReader_make w)) (Z.max 0 h)
  /\ def_tag (definitions_of (DefinitionReader_make w)) h = def_tag (definitions_of (DefinitionReader_make w)) (Z.max 0 h).
Proof.
  cbn [def_hash def_tag definitions_of]. unfold reader_hash, reader_tag.
  assert (Hz : Z.to_nat (Z.max 0 h) = Z.to_nat h) by lia. by rewrite Hz.
Qed.

Lemma bucket_lengths evs :
  list_sum ((fun b => length (of_bucket (Z.of_nat b) evs)) <$> seq 0 (Z.to_nat BUCKET_COUNT)) = length evs.
Proof. etrans; [|apply buckets_partition]. unfold buckets. by rewrite <- list_fmap_compose. Qed.

Section meeting.
Context {J : Json} {LJ : JsonLaws J} {I : Inflate}.
Context (ptr_dir : gmap string (list Z)) (fuel : list Z -> nat) (metadata : MetadataUpdate).
Context (w : DefinitionWriter) (evs : list MappingEvent) (work : gmap string (list Z)) (max_records : nat).
Notation d := (definitions_of (DefinitionReader_make w)).
Context (Hfits : corpus_fits ptr_dir fuel metadata).
Context (Hdef : defined_by d (corpus_tags ptr_dir fuel metadata) (corpus_hashes ptr_dir fuel metadata)).
Context (Hevs : evs ≡ₚ corpus_events ptr_dir fuel metadata) (Hok : Forall event_ok evs).
Context (Hread : forall b, 0 <= b < BUCKET_COUNT -> readBucket work (bucketPath b) = Ok (of_bucket b evs)).
Context (Hcap : Z.of_nat (m_cap max_records) <= uint32_max).

Lemma corpus_hash_ok h sha : (h, sha) ∈ corpus_hashes ptr_dir fuel metadata -> length sha = SHA256_BYTES /\ bytes_ok sha.
Proof.
  unfold corpus_hashes, total. rewrite list_elem_of_In, in_concat. intros (l & Hl & Hin).
  apply list_elem_of_In, list_elem_of_fmap in Hl as (it & -> & _). apply list_elem_of_In in Hin.
  unfold item_hashes, valid_hashes in Hin. apply list_elem_of_omap in Hin as (x & _ & Hx).
  destruct (decodeSha256Hex (snd x)) as [out|] eqn:Hd; [|done]. simplify_eq/=. by apply decodeSha256Hex_ok in Hd.
Qed.

Lemma defined_texts : EntrySpec.texts_ok (def_tag d).
Proof.
  intros id text Ht. destruct (def_hash_nonneg w id) as [_ Heq]. rewrite Heq in Ht.
  destruct (Hdef (Z.max 0 id) ltac:(lia)) as [Htag _]. rewrite Ht in Htag.
  pose proof (fits_tag_texts _ _ _ Hfits) as Hall. rewrite Forall_forall in Hall. exact (Hall _ Htag).
Qed.

Lemma bucket_range b : (b < Z.to_nat BUCKET_COUNT)%nat -> 0 <= Z.of_nat b < BUCKET_COUNT.
Proof. intros Hb. split; [lia|]. apply Z2Nat.inj_lt; [lia|done|by rewrite Nat2Z.id]. Qed.

Lemma run_given : given work d max_records (fun b => of_bucket (Z.of_nat b) evs).
Proof.
  split.
  - intros b Hb. split; [by apply Hread, bucket_range|by apply CollapseSpec.Forall_filter_sub].
  - intros h sha Hh. destruct (def_hash_nonneg w h) as [Heq _]. rewrite Heq in Hh.
    destruct (Hdef (Z.max 0 h) ltac:(lia)) as [_ Hhash]. rewrite Hh in Hhash. by apply corpus_hash_ok in Hhash.
  - exact defined_texts.
  - exact Hcap.
  - rewrite bucket_lengths, Hevs. by apply Hfits.
Qed.

(** The records of the collapse are those of the corpus. *)
Lemma run_records discard :
  records_of d discard (fun b => of_bucket (Z.of_nat b) evs) (seq 0 (Z.to_nat BUCKET_COUNT))
    = corpus_records ptr_dir fuel metadata d discard.
Proof.
  unfold records_of, corpus_records, out. f_equal. apply list_fmap_ext. intros i b _. f_equal.
  apply outcome_perm. unfold of_bucket. by rewrite Hevs.
Qed.
End meeting.

(** *** Relations *)

Lemma span_while_length {A} (p : A -> bool) l : (length (fst (span_while p l)) + length (snd (span_while p l)) = length l)%nat.
Proof.
  induction l as [|x l IH]; [done|]. cbn. destruct (p x); [|done]. destruct (span_while p l). cbn in *. lia.
Qed.

Lemma relation_loop_length fuel l out : relation_loop fuel l = Ok out -> (length out <= length l)%nat.
Proof.
  revert l out. induction fuel as [|fuel IH]; intros [|e l] out H; cbn [relation_loop] in H; simplify_eq; try (cbn; lia).
  pose proof (span_while_length (fun x => (rel_a x =? rel_a e) && (rel_b x =? rel_b e)) (e :: l)) as Hlen.
  cbn [span_while] in Hlen, H. rewrite !Z.eqb_refl in Hlen, H. cbn [andb] in Hlen, H.
  destruct (span_while _ l) as [chain rest]. cbn [fst snd length] in Hlen. bind_inv H.
  match goal with E : relation_loop fuel rest = Ok ?a |- _ => apply IH in E end.
  destruct (collapseChain _); simplify_eq; cbn [length]; lia.
Qed.

Lemma collapseRelations_length evs out : collapseRelations evs = Ok out -> (length out <= length evs)%nat.
Proof.
  intros H. apply relation_loop_length in H. by rewrite (Permutation_length (merge_sort_Permutation relation_le evs)) in H.
Qed.

(** Collapsed in any order, relations state the same. *)
Lemma stated_perm evs evs' r : evs ≡ₚ evs' -> RelationSpec.stated evs r <-> RelationSpec.stated evs' r.
Proof.
  intros Hp. unfold RelationSpec.stated.
  rewrite (RelationSpec.final_op_sub evs evs') by (intros; by rewrite Hp). by setoid_rewrite Hp.
Qed.

Lemma relations_fit lookup p s p_evs s_evs :
  Forall relation_ok p_evs -> Forall relation_ok s_evs ->
  collapseRelations p_evs = Ok p -> collapseRelations s_evs = Ok s ->
  (forall r, r ∈ p <-> RelationSpec.stated p_evs r) -> (forall r, r ∈ s <-> RelationSpec.stated s_evs r) ->
  2 * Z.of_nat (length p_evs + length s_evs) <= uint32_max -> EntrySpec.texts_ok lookup ->
  RelationsMeaning.fits lookup p s.
Proof.
  intros Hp Hs Hcp Hcs Hsp Hss Hn Ht. split; [| |done].
  - apply Forall_forall. rewrite Forall_forall in Hp, Hs.
    assert (Hone : forall evs r, (forall e, e ∈ evs -> relation_ok e) -> RelationSpec.stated evs r ->
      0 <= crel_a r <= uint32_max /\ 0 <= crel_b r <= uint32_max).
    { intros evs r Hall [(e & He & <- & <-) _]. destruct (Hall e He). by split. }
    intros r [Hr|Hr]%elem_of_app; [apply Hsp in Hr|apply Hss in Hr]; eauto.
  - apply collapseRelations_length in Hcp, Hcs. unfold RelationsMeaning.ids_of.
    assert (Hlen : forall l : list CollapsedRelation, length (concat ((fun r => [crel_a r; crel_b r]) <$> l)) = (2 * length l)%nat).
    { induction l as [|r l IH]; [done|]. cbn in *. lia. }
    rewrite Hlen, length_app. lia.
Qed.

(** ** What the output says of the corpus *)

Section describes.
Context {J : Json} {I : Inflate} {zl : Zlib}.
Context (ptr_dir : gmap string (list Z)) (fuel : list Z -> nat) (metadata : MetadataUpdate).

(** The relations file at [path] holds the relations of the corpus: each pair
    that has events, once, in order, with the operation its history ends in, by
    the texts of its tags; a pair with an undefined tag is left out. *)
Definition holds_relations (d : Definitions) (files : gmap string (list Z)) (path : string) : Prop :=
  exists ps ss file,
    StronglySorted RelationSpec.before ps
    /\ (forall r, r ∈ ps <-> RelationSpec.stated (corpus_parents ptr_dir fuel metadata) r)
    /\ StronglySorted RelationSpec.before ss
    /\ (forall r, r ∈ ss <-> RelationSpec.stated (corpus_siblings ptr_dir fuel metadata) r)
    /\ readRelationsFile files path = Ok file
    /\ mapM (RelationsMeaning.read (relation_strings file)) (PtrChunk.parents file) = Some (omap (RelationsMeaning.given (def_tag d)) ps)
    /\ mapM (RelationsMeaning.read (relation_strings file)) (PtrChunk.siblings file) = Some (omap (RelationsMeaning.given (def_tag d)) ss).

(** The files a manifest lists hold the corpus: the records of its chunks are
    those of the corpus, each once, in chunks of at most the recorded size. *)
Definition describes (d : Definitions) (files : gmap string (list Z)) (m : CompactManifest) : Prop :=
  (exists parts : list (ChunkEntry * list CollapsedRecord),
     manifest_chunks m ≡ₚ fst <$> parts
     /\ concat (snd <$> parts) ≡ₚ corpus_records ptr_dir fuel metadata d (discard_terminal_deletes m)
     /\ Forall (fun p => (0 < length (snd p) <= m_cap (Z.to_nat (max_records_per_chunk m)))%nat
                         /\ readable d files (fst p) (snd p)) parts)
  /\ holds_relations d files (relations_file m).

Lemma readRelationsFile_same fs fs' q : fs !! q = fs' !! q -> readRelationsFile fs q = readRelationsFile fs' q.
Proof. unfold readRelationsFile. by intros ->. Qed.

(** ... and so do any files that agree with them on what is published. *)
Lemma describes_agree d files files' m :
  relations_file m <> EmptyString ->
  (forall n, n ∈ published_names m -> files' !! n = files !! n) -> describes d files m -> describes d files' m.
Proof.
  intros Hne Hagree [(parts & Hchunks & Hrecs & Hparts) Hrel]. unfold published_names in Hagree.
  rewrite decide_False in Hagree by done. split.
  - exists parts. split_and!; [done|done|]. rewrite Forall_forall in *. intros p Hp.
    destruct (Hparts p Hp) as [Hlen (Hn & Hm & chunk & Hread & Hmean)]. split; [done|]. split_and!; [done|done|].
    exists chunk. split; [|done]. rewrite <- Hread. apply readChunk_same, Hagree.
    apply elem_of_app. left. rewrite Hchunks. by apply list_elem_of_fmap_2, list_elem_of_fmap_2.
  - destruct Hrel as (ps & ss & f & Hps & Hp & Hss & Hs & Hread & Hrest). exists ps, ss, f. split_and!; try done; try apply Hrest.
    rewrite <- Hread. apply readRelationsFile_same, Hagree, elem_of_app. right. constructor.
Qed.
End describes.

(** *** Names *)

Lemma plain_ascii_app a b : plain_ascii a -> plain_ascii b -> plain_ascii (a +:+ b).
Proof.
  unfold plain_ascii. intros Ha Hb. induction a as [|c a IH]; [done|]. cbn in *.
  apply Forall_cons in Ha as [Hc Ha]. constructor; [done|]. by apply IH.
Qed.

Lemma digits_plain s : sforall is_digit s = true -> plain_ascii s.
Proof.
  unfold plain_ascii. induction s as [|c s IH]; [constructor|]. cbn. intros [Hc Hs]%andb_true_iff.
  constructor; [|by apply IH]. revert Hc. unfold is_digit, code, nat_of_ascii. intros [H1 H2]%andb_true_iff. lia.
Qed.

Lemma chunk_name_plain n : plain_ascii (chunk_name n).
Proof.
  unfold chunk_name. apply plain_ascii_app; [by apply (bool_decide_eq_true_1 (plain_ascii _))|].
  apply plain_ascii_app; [|by apply (bool_decide_eq_true_1 (plain_ascii _))].
  pose proof (digits_plain _ (to_string_digits (Z.of_nat n) ltac:(lia))) as Hd. unfold pad_zeros.
  generalize (5 - String.length (to_string (Z.of_nat n)))%nat as k. intros k. induction k as [|k IH]; [done|].
  constructor; [split; apply Nat.leb_le; reflexivity|done].
Qed.

Lemma chunk_name_ne n s : String.get 0 s <> Some "c"%char \/ String.get 1 s <> Some "h"%char -> chunk_name n <> s.
Proof. intros H <-. destruct H as [H|H]; by apply H. Qed.

Lemma names_of_chunks (cs : list ChunkEntry) n : file <$> cs ≡ₚ chunk_name <$> seq 0 n ->
  NoDup (file <$> cs) /\ Forall (fun c => exists k, file c = chunk_name k) cs.
Proof.
  intros Hp. split.
  - rewrite Hp. apply NoDup_fmap_2; [intros x y; apply chunk_name_inj|apply NoDup_seq].
  - apply Forall_forall. intros c Hc. apply (list_elem_of_fmap_2 file) in Hc. rewrite Hp in Hc.
    apply list_elem_of_fmap in Hc as (k & -> & _). by exists k.
Qed.

(** ** The stages, composed *)

Lemma writeRelationsFile_other `{zl : Zlib} fs path ps ss lookup usage q : q <> path ->
  snd (fst (writeRelationsFile fs path ps ss lookup usage)) !! q = fs !! q.
Proof.
  intros Hq. unfold writeRelationsFile. destruct (encode _ ps) as [eps mp], (encode _ ss) as [ess ms].
  destruct (compress2 _); [|done]. cbn [fst snd]. by rewrite lookup_insert_ne.
Qed.

(** The relations of two lists of events, collapsed and written, are in the file. *)
Lemma relations_written {zl : Zlib} (Hz : ZlibLaws zl) lookup usage p_evs s_evs ps ss fs path :
  Forall relation_ok p_evs -> Forall relation_ok s_evs ->
  2 * Z.of_nat (length p_evs + length s_evs) <= uint32_max -> EntrySpec.texts_ok lookup ->
  collapseRelations p_evs = Ok ps -> collapseRelations s_evs = Ok ss ->
  match writeRelationsFile fs path ps ss lookup usage with
  | (_, fs', Ok _) =>
      StronglySorted RelationSpec.before ps /\ (forall r, r ∈ ps <-> RelationSpec.stated p_evs r)
      /\ StronglySorted RelationSpec.before ss /\ (forall r, r ∈ ss <-> RelationSpec.stated s_evs r)
      /\ exists file, readRelationsFile fs' path = Ok file
         /\ mapM (RelationsMeaning.read (relation_strings file)) (PtrChunk.parents file) = Some (omap (RelationsMeaning.given lookup) ps)
         /\ mapM (RelationsMeaning.read (relation_strings file)) (PtrChunk.siblings file) = Some (omap (RelationsMeaning.given lookup) ss)
  | (_, _, Throw _) => True
  end.
Proof.
  intros Hp Hs Hn Ht Hcp Hcs. destruct (relations_final p_evs Hp) as (ps' & Hps & Hpsort & Hpst).
  destruct (relations_final s_evs Hs) as (ss' & Hss & Hssort & Hsst). rewrite Hcp in Hps. rewrite Hcs in Hss. simplify_eq.
  pose proof (relations_fit lookup ps' ss' p_evs s_evs Hp Hs Hcp Hcs Hpst Hsst Hn Ht) as Hfit.
  pose proof (relations_read_back zl Hz lookup usage path ps' ss' fs Hfit) as H.
  destruct (writeRelationsFile _ _ _ _ _ _) as [[u fs'] [st|e]]; [|done].
  destruct H as [_ [(file & Hread & _ & Hmp & Hms & _) _]]. split_and!; try done. by exists file.
Qed.

Section stages.
Context {J : Json} {LJ : JsonLaws J} {I : Inflate} {zl : Zlib} {Hz : ZlibLaws zl}.
Context (ptr_dir : gmap string (list Z)) (fuel : list Z -> nat) (iterate : gmap Z string -> list (Z * string)).
Context (Hiter : forall m, iterate m ≡ₚ map_to_list m).
Context (options : FlattenOptions) (schedules : Schedules) (metadata : MetadataUpdate).
Context (Hmeta : loadCorpusMetadata fuel ptr_dir = Ok metadata).
Context (Hfits : corpus_fits ptr_dir fuel metadata).
Context (Hcap : Z.of_nat (m_cap (option_max_records options)) <= uint32_max).

(** What the scan leaves, and the pool that collapses it. *)
Definition scan_state : Scan :=
  fst (scanCorpus ptr_dir fuel iterate (hardware schedules) (scan_thread_count options) DEFAULT_BUFFER_EVENTS
    (scan_schedule schedules) metadata DefinitionWriter_make ∅).

Definition run_definitions : Definitions := definitions_of (DefinitionReader_make (PtrScan.definitions scan_state)).

Definition run_pools_joined : Prop :=
  joined (scan_pool ptr_dir fuel iterate (hardware schedules) (scan_thread_count options) DEFAULT_BUFFER_EVENTS
    (scan_schedule schedules) ∅ (corpus_items (sorted_updates metadata)))
  /\ joined (run (Z.to_nat BUCKET_COUNT)
       (collapse_body (snd (spill scan_state)) run_definitions (option_discard options) (option_max_records options))
       (collapse_schedule schedules)
       (start (hardware schedules) (Z.to_nat BUCKET_COUNT) (collapse_thread_count options)
          (initial (TagUsageSet_make (tagIdCapacity (DefinitionReader_make (PtrScan.definitions scan_state)))) ∅))).
Context (Hjoined : run_pools_joined).

Record staged (staging : gmap string (list Z)) (m : CompactManifest) : Prop := {
  staged_defined : defined_by run_definitions (corpus_tags ptr_dir fuel metadata) (corpus_hashes ptr_dir fuel metadata);
  staged_describes : describes ptr_dir fuel metadata run_definitions staging m;
  staged_names : exists n, file <$> manifest_chunks m ≡ₚ chunk_name <$> seq 0 n;
  staged_relations : relations_file m = RELATIONS_FILENAME;
  staged_version : format_version m = CHUNK_FORMAT_VERSION;
  staged_options : discard_terminal_deletes m = option_discard options
    /\ max_records_per_chunk m = Z.of_nat (option_max_records options);
  staged_indices : 0 <= first_index m <= last_index m /\ last_index m <= MAX_UPDATE_INDEX
    /\ Forall (fun u => first_index m <= index u <= last_index m) (updates metadata);
  staged_counts : stats_events_scanned (manifest_stats m) = Z.of_nat (length (corpus_events ptr_dir fuel metadata))
}.

Lemma scan_staged res :
  snd (scanCorpus ptr_dir fuel iterate (hardware schedules) (scan_thread_count options) DEFAULT_BUFFER_EVENTS
    (scan_schedule schedules) metadata DefinitionWriter_make ∅) = Ok res ->
  scan_cancelled res = false ->
  exists evs, evs ≡ₚ corpus_events ptr_dir fuel metadata /\ Forall event_ok evs
    /\ (forall b, 0 <= b < BUCKET_COUNT -> readBucket (snd (spill scan_state)) (bucketPath b) = Ok (of_bucket b evs))
    /\ defined_by run_definitions (corpus_tags ptr_dir fuel metadata) (corpus_hashes ptr_dir fuel metadata)
    /\ result_parents res ≡ₚ corpus_parents ptr_dir fuel metadata
    /\ result_siblings res ≡ₚ corpus_siblings ptr_dir fuel metadata
    /\ 0 <= first_update_index res <= last_update_index res /\ last_update_index res <= MAX_UPDATE_INDEX
    /\ Forall (fun u => first_update_index res <= index u <= last_update_index res) (updates metadata).
Proof.
  intros Hres Hcan.
  pose proof (scan_reads LJ ptr_dir fuel iterate (hardware schedules) (scan_thread_count options) DEFAULT_BUFFER_EVENTS
    (scan_schedule schedules) metadata DefinitionWriter_make ∅ Hiter (proj1 Hjoined)) as H.
  unfold run_definitions, scan_state in *. destruct (scanCorpus _ _ _ _ _ _ _ _ _ _) as [s r]. cbn [fst snd] in *. subst r.
  destruct H as (its & evs & _ & Hall & Hidx & Hfl & Hmax & Hok & Hevs & Hb & Hnil & Hdef & Hp & Hs & _).
  specialize (Hall Hcan).
  assert (Htot : forall A (f : ScanWorkItem -> list A), total f its ≡ₚ total f (corpus metadata))
    by (intros A f; unfold total, corpus; by rewrite Hall).
  exists evs. split_and!; try done; try (by etrans; [eassumption|apply Htot]); try apply Hfl.
  - intros b Hr. by apply (Hb b []).
  - destruct (updates metadata) as [|u us] eqn:Hu.
    + rewrite (Hnil eq_refl). unfold corpus_tags, corpus_hashes, corpus. rewrite Hu.
      apply (store_defined_by [] DefinitionWriter_make). constructor.
    + eapply defined_by_perm; [apply Htot|apply Htot|]. by apply Hdef.
Qed.

(** Writing the relations file leaves the chunks readable. *)
Lemma readable_beside fs path ps ss lookup usage (parts : list (ChunkEntry * list CollapsedRecord)) (k : nat) d :
  (forall n, chunk_name n <> path) -> Forall (fun p => exists n, file (fst p) = chunk_name n) parts ->
  Forall (fun p => (0 < length (snd p) <= k)%nat /\ readable d fs (fst p) (snd p)) parts ->
  Forall (fun p => (0 < length (snd p) <= k)%nat
    /\ readable d (snd (fst (writeRelationsFile fs path ps ss lookup usage))) (fst p) (snd p)) parts.
Proof.
  intros Hne Hnames Hparts. rewrite Forall_forall in *. intros p Hp. destruct (Hnames p Hp) as [n Hn].
  destruct (Hparts p Hp) as [Hlen (H1 & H2 & chunk & Hread & Hmean)]. split; [done|]. split_and!; [done|done|].
  exists chunk. split; [|done]. rewrite <- Hread. apply readChunk_same, writeRelationsFile_other. rewrite Hn. apply Hne.
Qed.

Lemma relations_name_apart n : chunk_name n <> RELATIONS_FILENAME.
Proof. apply chunk_name_ne. by left. Qed.

Lemma corpus_relations_staged res : result_parents res ≡ₚ corpus_parents ptr_dir fuel metadata ->
  result_siblings res ≡ₚ corpus_siblings ptr_dir fuel metadata ->
  Forall relation_ok (result_parents res) /\ Forall relation_ok (result_siblings res)
  /\ 2 * Z.of_nat (length (result_parents res) + length (result_siblings res)) <= uint32_max.
Proof.
  intros Hp Hs. rewrite (Permutation_length Hp), (Permutation_length Hs).
  split; [rewrite Hp; apply total_relations_ok|]. split; [rewrite Hs; apply total_relations_ok|].
  exact (fits_relations _ _ _ Hfits).
Qed.

Lemma stages_staged staging m :
  flatten_stages fuel iterate ptr_dir empty_work options schedules = Ok (inr (staging, m)) -> staged staging m.
Proof.
  intros H. unfold flatten_stages in H. rewrite Hmeta in H. cbn [mbind result_bind work_store work_buckets work_staging empty_work] in H.
  pose proof scan_staged as Hscan. destruct (scanCorpus _ _ _ _ _ _ _ _ _ _) as [s r] eqn:Es.
  assert (Hst : scan_state = s) by (unfold scan_state; by rewrite Es). subst s. cbn [snd] in Hscan.
  destruct r as [res|e]; [|done]. cbn [mbind result_bind] in H. destruct (scan_cancelled res) eqn:Hcan; [done|].
  destruct (Hscan res eq_refl Hcan) as (evs & Hevs & Hok & Hread & Hdef & Hpar & Hsib & Hfl & Hmax & Hidx). clear Hscan.
  fold run_definitions in H.
  pose proof (run_given ptr_dir fuel metadata _ evs _ _ Hfits Hdef Hevs Hok Hread Hcap) as Hgiven.
  pose proof (buckets_collapse zl Hz _ _ (option_discard options) (option_max_records options) _ (hardware schedules)
    (collapse_thread_count options) (collapse_schedule schedules) _ ∅ Hgiven (proj2 Hjoined)) as Hcol.
  fold run_definitions in Hcol.
  destruct (collapseBuckets _ _ _ _ _ _ _ _ _) as [c r]. destruct r as [col|e]; [|done]. cbn [mbind result_bind] in H.
  destruct (result_cancelled col) eqn:Hcc; [done|].
  destruct Hcol as (done & parts & _ & Hdone & Hchunks & Hrecs & Hparts & [k Hnames] & _ & Hscanned & _).
  rewrite (Hdone eq_refl) in Hrecs, Hscanned.
  destruct (collapseRelations (result_parents res)) as [ps|e] eqn:Hcp; [|done]. cbn [mbind result_bind] in H.
  destruct (collapseRelations (result_siblings res)) as [ss|e] eqn:Hcs; [|done]. cbn [mbind result_bind] in H.
  destruct (corpus_relations_staged res Hpar Hsib) as (Hrp & Hrs & Hrn).
  pose proof (relations_written Hz (def_tag run_definitions) (Some (tag_usage c)) _ _ ps ss (out_files c) RELATIONS_FILENAME
    Hrp Hrs Hrn (given_texts _ _ _ _ Hgiven) Hcp Hcs) as Hrel.
  pose proof (readable_beside (out_files c) RELATIONS_FILENAME ps ss (def_tag run_definitions) (Some (tag_usage c)) parts
    (m_cap (option_max_records options)) run_definitions relations_name_apart) as Hbeside.
  destruct (writeRelationsFile _ _ _ _ _ _) as [[usage staging'] [st|e]]; [|done]. cbn [mbind result_bind fst snd] in H, Hbeside.
  simplify_eq. destruct (names_of_chunks _ _ Hnames) as [_ Hall].
  destruct Hrel as (Hps & Hpst & Hss & Hsst & rel & Hrread & Hrp' & Hrs').
  split; cbn [manifest_chunks relations_file format_version first_index last_index discard_terminal_deletes
    max_records_per_chunk manifest_stats stats_events_scanned]; try done; try (by exists k).
  - split; cbn [manifest_chunks relations_file discard_terminal_deletes max_records_per_chunk].
    + exists parts. split_and!; [done| |].
      * pose proof (run_records ptr_dir fuel metadata (PtrScan.definitions scan_state) evs Hevs (option_discard options)) as Hrr.
        fold run_definitions in Hrr. by rewrite Hrecs, Hrr.
      * rewrite Nat2Z.id. apply Hbeside; [|done]. apply (Forall_fmap fst (fun c => exists n, file c = chunk_name n)).
        by rewrite <- Hchunks.
    + exists ps, ss, rel. split_and!; try done.
      * intros r. rewrite Hpst. by apply stated_perm.
      * intros r. rewrite Hsst. by apply stated_perm.
  - by rewrite Hscanned, bucket_lengths, Hevs.
Qed.

(** *** The manifest of a run fits its text *)

Lemma corpus_records_ids d discard :
  Z.of_nat (length (ids_of_records (corpus_records ptr_dir fuel metadata d discard))) <= uint32_max.
Proof.
  pose proof (records_of_ids d discard (fun b => of_bucket (Z.of_nat b) (corpus_events ptr_dir fuel metadata))
    (seq 0 (Z.to_nat BUCKET_COUNT))) as H.
  cbv beta in H. rewrite bucket_lengths in H. pose proof (fits_events _ _ _ Hfits).
  change (records_of d discard _ _) with (corpus_records ptr_dir fuel metadata d discard) in H. lia.
Qed.

Lemma part_ids_length (parts : list (ChunkEntry * list CollapsedRecord)) p : p ∈ parts ->
  (length (ChunkMeaning.all_ids (as_pending <$> snd p)) <= length (ids_of_records (concat (snd <$> parts))))%nat.
Proof.
  intros Hp. apply list_elem_of_split in Hp as (a & b & ->).
  assert (Heq : ChunkMeaning.all_ids (as_pending <$> snd p) = ids_of_records (snd p)).
  { unfold ChunkMeaning.all_ids, ids_of_records. by rewrite <- list_fmap_compose. }
  rewrite Heq, fmap_app, fmap_cons, concat_app. cbn [concat]. rewrite !ids_of_records_app, !length_app. lia.
Qed.

Lemma staged_manifest_ok staging m : staged staging m -> stats_ok (manifest_stats m) -> manifest_ok m.
Proof.
  intros [_ [(parts & Hchunks & Hrecs & Hparts) _] [k Hnames] Hrel Hver [Hdis Hmax] (Hfirst & Hlast & _) _] Hstats.
  assert (Hm : Z.of_nat (option_max_records options) <= uint32_max) by (unfold m_cap in Hcap; destruct (option_max_records options); lia).
  split; try done.
  - rewrite Hver. unfold CHUNK_FORMAT_VERSION, uint32_max. lia.
  - unfold int32_min, int32_max, MAX_UPDATE_INDEX in *. lia.
  - unfold int32_min, int32_max, MAX_UPDATE_INDEX in *. lia.
  - rewrite Hmax. unfold is_uint64, uint32_max, size_max in *. lia.
  - destruct (names_of_chunks _ _ Hnames) as [_ Hall]. apply Forall_forall. intros c Hc. rewrite Forall_forall in Hall. rewrite Forall_forall in Hparts.
    destruct (Hall c Hc) as [n Hn]. split; [rewrite Hn; apply chunk_name_plain|].
    rewrite Hchunks in Hc. apply list_elem_of_fmap in Hc as (p & -> & Hp).
    destruct (Hparts p Hp) as [[_ Hlen] (Hr & Hmap & _)]. rewrite Hr, Hmap. cbn [ChunkMeaning.given_stats mappings].
    pose proof (part_ids_length parts p Hp) as Hids. rewrite (ids_length_perm _ _ Hrecs) in Hids.
    pose proof (corpus_records_ids run_definitions (discard_terminal_deletes m)).
    pose proof (TableSpec.entries_length (lookup run_definitions) (ChunkMeaning.all_ids (as_pending <$> snd p))).
    rewrite Hmax, Nat2Z.id in Hlen. unfold is_uint64, uint32_max, size_max in *. split; lia.
  - rewrite Hrel. by apply (bool_decide_eq_true_1 (plain_ascii _)).
Qed.

(** *** Publishing what was staged *)

Lemma staged_published staging m : staged staging m ->
  NoDup (published_names m) /\ Forall (fun n => is_Some (staging !! n)) (published_names m)
  /\ MANIFEST_FILENAME ∉ published_names m.
Proof.
  intros [_ [(parts & Hchunks & _ & Hparts) (ps & ss & f & _ & _ & _ & _ & Hread & _)] [k Hnames] Hrel _ _ _ _].
  destruct (names_of_chunks _ _ Hnames) as [Hnd Hall]. unfold published_names. rewrite Hrel in Hread |- *.
  rewrite decide_False by done.
  assert (Hapart : forall s, (forall n, chunk_name n <> s) -> s ∉ file <$> manifest_chunks m).
  { intros s Hs Hin. apply list_elem_of_fmap in Hin as (c & -> & Hc). rewrite Forall_forall in Hall.
    destruct (Hall c Hc) as [n Hn]. by apply (Hs n). }
  split_and!.
  - apply NoDup_app. split_and!; [done| |apply NoDup_singleton]. intros x Hx Hin. apply list_elem_of_singleton in Hin as ->.
    apply (Hapart RELATIONS_FILENAME); [apply relations_name_apart|done].
  - apply Forall_app. split.
    + rewrite Hchunks. apply Forall_fmap, Forall_fmap. eapply Forall_impl; [exact Hparts|].
      intros p [_ (_ & _ & chunk & Hr & _)]. unfold readChunk in Hr. cbn. by destruct (staging !! file (fst p)).
    + constructor; [|constructor]. unfold readRelationsFile in Hread. by destruct (staging !! RELATIONS_FILENAME).
  - intros [Hin|Hin]%elem_of_app; [|by apply list_elem_of_singleton in Hin].
    apply (Hapart MANIFEST_FILENAME); [|done]. intros n. apply chunk_name_ne. right. done.
Qed.

(** What is published describes the corpus, and reads back. *)
Lemma published staging m env out :
  no_faults env -> staged staging m ->
  exists out', publishStagedOutput env staging out m = (out', Ok tt)
    /\ describes ptr_dir fuel metadata run_definitions (writeManifest out' m) m
    /\ (stats_ok (manifest_stats m) -> readManifest (writeManifest out' m) = Ok m)
    /\ (forall n, n ∉ published_names m -> n <> MANIFEST_FILENAME -> writeManifest out' m !! n = out !! n).
Proof.
  intros [Hf _] Hst. destruct (staged_published staging m Hst) as (Hnd & Hsome & Hman).
  destruct (move_all_ok env staging out [] (published_names m) Hf Hnd Hsome) as (out' & Hmove & Hout).
  exists out'. split; [exact Hmove|]. split_and!.
  - apply (describes_agree ptr_dir fuel metadata run_definitions staging); [by rewrite (staged_relations _ _ Hst)| |apply Hst].
    intros n Hn. unfold writeManifest. rewrite lookup_insert_ne by (by intros <-). by rewrite Hout, decide_True.
  - intros Hstats. apply manifest_reads_back; [by apply (staged_manifest_ok staging)|by rewrite (staged_version _ _ Hst)].
  - intros n Hn Hne. unfold writeManifest. rewrite lookup_insert_ne by done. by rewrite Hout, decide_False.
Qed.

(** *** When nothing is in the way *)

Record unhindered : Prop := {
  free_indices : Forall (fun u => out_of_bounds u = false) (updates metadata);
  free_texts : text_bytes (corpus_tags ptr_dir fuel metadata) <= uint32_max;
  free_zlib : forall data, compress2 data <> None;
  free_scan : Forall (fun c => polled c = false) (scan_schedule schedules);
  free_collapse : Forall (fun c => polled c = false) (collapse_schedule schedules)
}.

Lemma writeRelationsFile_succeeds fs path ps ss lookup usage : (forall data, compress2 data <> None) ->
  exists st, snd (writeRelationsFile fs path ps ss lookup usage) = Ok st.
Proof.
  intros H. unfold writeRelationsFile. destruct (encode _ ps), (encode _ ss). set (body := _ ++ _).
  pose proof (H body). destruct (compress2 body); [by eexists|done].
Qed.

Lemma stages_succeed : unhindered -> exists staging m,
  flatten_stages fuel iterate ptr_dir empty_work options schedules = Ok (inr (staging, m)).
Proof.
  intros [Hidx Htexts Hcomp Hpoll Hpoll']. unfold flatten_stages. rewrite Hmeta.
  cbn [mbind result_bind work_store work_buckets work_staging empty_work].
  pose proof scan_staged as Hscan.
  destruct (scanCorpus_succeeds ptr_dir fuel iterate (hardware schedules) (scan_thread_count options) DEFAULT_BUFFER_EVENTS
    (scan_schedule schedules) metadata DefinitionWriter_make ∅ Hiter Hidx Htexts Hpoll (proj1 Hjoined)) as (res & Hres & Hcan).
  destruct (Hscan res Hres Hcan) as (evs & Hevs & Hok & Hread & Hdef & Hpar & Hsib & _). clear Hscan.
  destruct (scanCorpus _ _ _ _ _ _ _ _ _ _) as [s r] eqn:Es. assert (Hst : scan_state = s) by (unfold scan_state; by rewrite Es).
  subst s. cbn [snd] in Hres. subst r. cbn [mbind result_bind]. rewrite Hcan. fold run_definitions.
  pose proof (run_given ptr_dir fuel metadata _ evs _ _ Hfits Hdef Hevs Hok Hread Hcap) as Hgiven. fold run_definitions in Hgiven.
  destruct (collapseBuckets_succeeds Hcomp _ _ (option_discard options) _ _ Hgiven (hardware schedules)
    (collapse_thread_count options) (collapse_schedule schedules) _ ∅ Hpoll' (proj2 Hjoined)) as (col & Hcol & Hcc).
  destruct (collapseBuckets _ _ _ _ _ _ _ _ _) as [c r]. cbn [snd] in Hcol. subst r. cbn [mbind result_bind]. rewrite Hcc.
  destruct (corpus_relations_staged res Hpar Hsib) as (Hrp & Hrs & _).
  destruct (relations_final _ Hrp) as (ps & -> & _), (relations_final _ Hrs) as (ss & -> & _). cbn [mbind result_bind].
  destruct (writeRelationsFile_succeeds (out_files c) RELATIONS_FILENAME ps ss (def_tag run_definitions) (Some (tag_usage c)) Hcomp)
    as [st Hw].
  destruct (writeRelationsFile _ _ _ _ _ _) as [[usage staging] r]. cbn [snd] in Hw. subst r. cbn [mbind result_bind].
  by eexists _, _.
Qed.

Lemma run_succeeds env out : unhindered -> no_faults env -> required_free_bytes options <= available env ->
  success (snd (runFlatten fuel iterate ptr_dir out empty_work options env schedules)) = true.
Proof.
  intros Hfree Henv Hspace. destruct (stages_succeed Hfree) as (staging & m & Hst). unfold runFlatten.
  rewrite (proj2 (Z.ltb_ge _ _)), Hst by lia. pose proof (stages_staged staging m Hst) as Hstaged.
  destruct (published staging m env out Henv Hstaged) as (out' & -> & _). by rewrite (proj2 Henv).
Qed.
End stages.

(** Workers that are left to finish do. *)
Lemma pools_can_join {J : Json} {I : Inflate} {zl : Zlib} (ptr_dir : gmap string (list Z)) (fuel : list Z -> nat)
    (iterate : gmap Z string -> list (Z * string)) (options : FlattenOptions) (hw : nat) (metadata : MetadataUpdate) :
  exists schedules, hardware schedules = hw
    /\ Forall (fun c => polled c = false) (scan_schedule schedules)
    /\ Forall (fun c => polled c = false) (collapse_schedule schedules)
    /\ run_pools_joined ptr_dir fuel iterate options schedules metadata.
Proof.
  set (items := corpus_items (sorted_updates metadata)).
  destruct (run_joins (length items) (scan_body ptr_dir fuel iterate items) _ moves_left
    (file_moves_positive ptr_dir fuel iterate items) (begin_file_moves ptr_dir fuel iterate items) (resume_file_moves items)
    (start hw (length items) (scan_thread_count options)
      (initial_scan DefinitionWriter_make (BucketWriter_make DEFAULT_BUFFER_EVENTS, ∅))) true false) as (scan & _ & Hscan & Hsp).
  set (st := scan_state ptr_dir fuel iterate options (mkSchedules hw scan []) metadata).
  set (d := run_definitions ptr_dir fuel iterate options (mkSchedules hw scan []) metadata).
  destruct (run_joins (Z.to_nat BUCKET_COUNT)
    (collapse_body (snd (spill st)) d (option_discard options) (option_max_records options)) _ work_cost
    (bucket_cost_positive _ _ _) (begin_bucket_cost _ _ _ _) (resume_bucket_cost _ _ _ _)
    (start hw (Z.to_nat BUCKET_COUNT) (collapse_thread_count options)
      (initial (TagUsageSet_make (tagIdCapacity (DefinitionReader_make (PtrScan.definitions st)))) ∅)) true false)
    as (collapse & _ & Hcol & Hcp).
  exists (mkSchedules hw scan collapse). split_and!; [done| | |by split].
  - eapply Forall_impl; [exact Hsp|]. by intros c [_ H].
  - eapply Forall_impl; [exact Hcp|]. by intros c [_ H].
Qed.

(** ** Theorem *)

(** C7: a flatten run that starts with an empty work directory (nothing of an
    earlier, killed run in it), finds its metadata, whose counts and texts fit
    their fields and files, meets no fault while it publishes and whose workers
    are joined either fails or is cancelled and leaves the
    output directory as it found it, or succeeds and then the directory holds
    the corpus: the definitions it used are those of the definition files, the
    chunks its manifest lists hold the records the update history comes down
    to, each once, at most the configured number to a chunk, the relations file
    holds the relations, the manifest reads back as it was written, covers the
    indices of the corpus and records the options, and no other file of the
    directory is touched. *)
Theorem runFlatten_compacts_the_corpus {J : Json} {LJ : JsonLaws J} {I : Inflate} {zl : Zlib} {Hz : ZlibLaws zl}
    (ptr_dir out : gmap string (list Z)) (fuel : list Z -> nat) (iterate : gmap Z string -> list (Z * string))
    (work : WorkDirectory) (options : FlattenOptions) (env : Environment) (schedules : Schedules) (metadata : MetadataUpdate)
    (Hwork : work = empty_work)
    (Hiter : forall m, iterate m ≡ₚ map_to_list m)
    (Hmeta : loadCorpusMetadata fuel ptr_dir = Ok metadata)
    (Hfits : corpus_fits ptr_dir fuel metadata)
    (Hcap : Z.of_nat (m_cap (option_max_records options)) <= uint32_max)
    (Hjoined : run_pools_joined ptr_dir fuel iterate options schedules metadata)
    (Henv : no_faults env) :
  let '(out', o) := runFlatten fuel iterate ptr_dir out work options env schedules in
  let definitions := run_definitions ptr_dir fuel iterate options schedules metadata in
  let m := manifest o in
  if success o then
    defined_by definitions (corpus_tags ptr_dir fuel metadata) (corpus_hashes ptr_dir fuel metadata)
    /\ describes ptr_dir fuel metadata definitions out' m
    /\ (stats_ok (manifest_stats m) -> readManifest out' = Ok m)
    /\ Forall (fun u => first_index m <= index u <= last_index m) (updates metadata)
    /\ discard_terminal_deletes m = option_discard options
    /\ max_records_per_chunk m = Z.of_nat (option_max_records options)
    /\ stats_events_scanned (manifest_stats m) = Z.of_nat (length (corpus_events ptr_dir fuel metadata))
    /\ (forall n, n ∉ published_names m -> n <> MANIFEST_FILENAME -> out' !! n = out !! n)
  else out' = out.
Proof.
  subst work. pose proof (stages_staged (Hz := Hz) ptr_dir fuel iterate Hiter options schedules metadata Hmeta Hfits Hcap Hjoined) as Hstages.
  unfold runFlatten. destruct (_ <? _); [done|].
  destruct (flatten_stages fuel iterate ptr_dir empty_work options schedules) as [[text|[staging m]]|e]; [done| |done].
  pose proof (Hstages staging m eq_refl) as Hst. 
  destruct (published ptr_dir fuel iterate options schedules metadata Hfits Hcap staging m env out Henv Hst)
    as (out' & -> & Hdesc & Hreads & Hother).
  rewrite (proj2 Henv). cbn [success manifest]. destruct Hst as [Hdef _ _ _ _ [Hdis Hmax] (_ & _ & Hidx) Hcount].
  by split_and!.
Qed.

(** C8: a run succeeds when nothing is in its way: its work directory is empty
    (nothing of an earlier, killed run in it), there is room, the metadata is
    found and its indices are in range, the texts of the tags fit their file
    and the counts theirs, zlib compresses, nothing fails while publishing and
    nobody cancels.  It does so in every interleaving of its workers that joins
    them, and there are such interleavings. *)
Theorem runFlatten_succeeds {J : Json} {LJ : JsonLaws J} {I : Inflate} {zl : Zlib} {Hz : ZlibLaws zl}
    (ptr_dir out : gmap string (list Z)) (fuel : list Z -> nat) (iterate : gmap Z string -> list (Z * string))
    (work : WorkDirectory) (options : FlattenOptions) (env : Environment) (metadata : MetadataUpdate)
    (Hwork : work = empty_work)
    (Hiter : forall m, iterate m ≡ₚ map_to_list m)
    (Hmeta : loadCorpusMetadata fuel ptr_dir = Ok metadata)
    (Hfits : corpus_fits ptr_dir fuel metadata)
    (Hcap : Z.of_nat (m_cap (option_max_records options)) <= uint32_max)
    (Hidx : Forall (fun u => out_of_bounds u = false) (updates metadata))
    (Htexts : text_bytes (corpus_tags ptr_dir fuel metadata) <= uint32_max)
    (Hzlib : forall data, compress2 data <> None)
    (Hspace : required_free_bytes options <= available env)
    (Henv : no_faults env) :
  (forall schedules,
     Forall (fun c => polled c = false) (scan_schedule schedules) ->
     Forall (fun c => polled c = false) (collapse_schedule schedules) ->
     run_pools_joined ptr_dir fuel iterate options schedules metadata ->
     success (snd (runFlatten fuel iterate ptr_dir out work options env schedules)) = true)
  /\ (forall hw, exists schedules, hardware schedules = hw
     /\ Forall (fun c => polled c = false) (scan_schedule schedules)
     /\ Forall (fun c => polled c = false) (collapse_schedule schedules)
     /\ run_pools_joined ptr_dir fuel iterate options schedules metadata).
Proof.
  subst work. split; [|intros hw; apply pools_can_join].
  intros schedules Hs Hc Hj. by apply (run_succeeds (Hz := Hz) ptr_dir fuel iterate Hiter options schedules metadata).
Qed.

(** *** Witnesses *)

Module Example_run.
#[local] Existing Instances Example_json.document Example_json.document_laws Example_inflate.stored
  Example_chunk.stored Example_chunk.stored_laws.

(** The corpus of the scan's example, with its metadata beside it. *)
Definition ptr_dir : gmap string (list Z) :=
  <["metadata.ptrupdate" := Example_scan.file (HydrusFormat.metadata 1 (updates Example_scan.metadata) 77)]> Example_scan.ptr_dir.
Definition options : FlattenOptions := mkOptions 1 0 2 3 false.
Definition env : Environment := mkEnvironment 10 (fun _ => false) false.
Definition out : gmap string (list Z) := {["notes.txt" := [1; 2]]}.
Definition metadata : MetadataUpdate := mkMetadataUpdate (updates Example_scan.metadata) (Some 77).

Lemma found : loadCorpusMetadata Example_scan.fuel ptr_dir = Ok metadata.
Proof. vm_compute. reflexivity. Qed.

Lemma tags : corpus_tags ptr_dir Example_scan.fuel metadata = [(7, "blue")].
Proof. vm_compute. reflexivity. Qed.

Lemma small : corpus_fits ptr_dir Example_scan.fuel metadata.
Proof.
  assert (He : length (corpus_events ptr_dir Example_scan.fuel metadata) = 3%nat) by (vm_compute; reflexivity).
  assert (Hp : length (corpus_parents ptr_dir Example_scan.fuel metadata) = 1%nat) by (vm_compute; reflexivity).
  assert (Hs : length (corpus_siblings ptr_dir Example_scan.fuel metadata) = 0%nat) by (vm_compute; reflexivity).
  split; [rewrite He|rewrite Hp, Hs|rewrite tags]; [done|done|]. repeat constructor. cbn. unfold int32_max. lia.
Qed.

Lemma faultless : no_faults env.
Proof. by split. Qed.

Lemma in_range : Forall (fun u => out_of_bounds u = false) (updates metadata).
Proof. by repeat constructor. Qed.

Lemma texts_fit : text_bytes (corpus_tags ptr_dir Example_scan.fuel metadata) <= uint32_max.
Proof. by rewrite tags. Qed.

Lemma events : length (corpus_events ptr_dir Example_scan.fuel metadata) = 3%nat.
Proof. vm_compute. reflexivity. Qed.

(** Left to themselves, the workers of the example succeed. *)
Lemma run_ran schedules :
  Forall (fun c => polled c = false) (scan_schedule schedules) ->
  Forall (fun c => polled c = false) (collapse_schedule schedules) ->
  run_pools_joined ptr_dir Example_scan.fuel map_to_list options schedules metadata ->
  success (snd (runFlatten Example_scan.fuel map_to_list ptr_dir out empty_work options env schedules)) = true.
Proof.
  intros Hs Hc Hj. apply (run_succeeds ptr_dir Example_scan.fuel map_to_list (fun m => reflexivity (map_to_list m)) options
    schedules metadata found small ltac:(done) Hj); [|apply faultless|done].
  split; [apply in_range|apply texts_fit|done|done|done].
Qed.
End Example_run.

Lemma runFlatten_compacts_the_corpus_witness :
  exists schedules,
  let '(out', o) := runFlatten (J := Example_json.document) (I := Example_inflate.stored) (zl := Example_chunk.stored)
    Example_scan.fuel map_to_list Example_run.ptr_dir Example_run.out empty_work Example_run.options Example_run.env
    schedules in
  success o = true /\ stats_events_scanned (manifest_stats (manifest o)) = 3
  /\ describes (J := Example_json.document) (I := Example_inflate.stored) (zl := Example_chunk.stored)
       Example_run.ptr_dir Example_scan.fuel Example_run.metadata
       (run_definitions (J := Example_json.document) (I := Example_inflate.stored) Example_run.ptr_dir Example_scan.fuel
          map_to_list Example_run.options schedules Example_run.metadata) out' (manifest o).
Proof.
  destruct (pools_can_join (J := Example_json.document) (I := Example_inflate.stored) (zl := Example_chunk.stored)
    Example_run.ptr_dir Example_scan.fuel map_to_list Example_run.options 4 Example_run.metadata)
    as (schedules & _ & Hs & Hc & Hj). exists schedules.
  pose proof (runFlatten_compacts_the_corpus (LJ := Example_json.document_laws) (I := Example_inflate.stored)
    (Hz := Example_chunk.stored_laws) Example_run.ptr_dir
    Example_run.out Example_scan.fuel map_to_list empty_work Example_run.options Example_run.env schedules Example_run.metadata
    eq_refl (fun m => reflexivity (map_to_list m)) Example_run.found Example_run.small ltac:(done) Hj Example_run.faultless) as H.
  pose proof (Example_run.run_ran schedules Hs Hc Hj) as Hran.
  destruct (runFlatten _ _ _ _ _ _ _ _) as [out' o]. cbn [snd] in Hran. cbn zeta in H.
  rewrite Hran in H. destruct H as (_ & Hdesc & _ & _ & _ & _ & Hcount & _).
  split_and!; [done|by rewrite Hcount, Example_run.events|done].
Defined.

Lemma runFlatten_succeeds_witness :
  exists schedules, hardware schedules = 4%nat
    /\ success (snd (runFlatten (J := Example_json.document) (I := Example_inflate.stored) (zl := Example_chunk.stored)
         Example_scan.fuel map_to_list Example_run.ptr_dir Example_run.out empty_work Example_run.options Example_run.env
         schedules)) = true.
Proof.
  destruct (runFlatten_succeeds (LJ := Example_json.document_laws) (I := Example_inflate.stored)
    (Hz := Example_chunk.stored_laws) Example_run.ptr_dir
    Example_run.out Example_scan.fuel map_to_list empty_work Example_run.options Example_run.env Example_run.metadata
    eq_refl (fun m => reflexivity (map_to_list m)) Example_run.found Example_run.small ltac:(done) Example_run.in_range
    Example_run.texts_fit ltac:(done) ltac:(done) Example_run.faultless) as [Hran Hjoin].
  destruct (Hjoin 4%nat) as (schedules & Hhw & Hs & Hc & Hj). exists schedules. split; [done|]. by apply Hran.
Defined.
