(* ===== verification/LanePolicy.v ===== *)
(** * The pace of a downloader lane: [IDHANDownloader/src/http/LanePolicy.cpp]

    A lane is the queue of requests to one host.  Its policy decides when the
    next request may be sent: a steady cadence for a configured rate, widened
    and paused after failures, or until the deadline a [Retry-After] header
    names.  Clock readings are arguments of the operations, durations and time
    points count nanoseconds in 64-bit signed integers, and an overflow, which
    the standard leaves undefined, throws [undefined_behaviour]. *)
From S2P Require Import Prelude StringView.
From Stdlib Require Import Ascii SpecFloat.
From Stdlib Require String.

(** ** Checked 64-bit arithmetic *)

Definition overflow : exn := undefined_behaviour "signed integer overflow".
Definition checked (z : Z) : result Z := if (- 2 ^ 63 <=? z) && (z <=? int64_max) then Ok z else Throw overflow.

Definition second : Z := 1000000000.

(** ** Settings *)

Record RequestRate := mkRate { requests : Z; seconds : Z }.
Inductive HttpVersion := HTTP_1_1 | HTTP_2 | HTTP_3.

Record LaneSettings := mkSettings {
  rate : option RequestRate;
  bytes_per_second : Z;
  keep_alive : Z;
  error_backoff : Z;
  concurrency_setting : Z;
  http_version : option HttpVersion;
  group : option string
}.

Definition LaneSettings_default : LaneSettings := mkSettings None 0 30 30 0 None None.

(** [long double] is the 80-bit extended format: 64 bits of precision. *)
Definition long_double_of (z : Z) : spec_float := binary_normalize 64 16384 z 0 false.

(** Conversion to an integer truncates. *)
Definition truncate (x : spec_float) : option Z :=
  match x with
  | S754_zero _ => Some 0
  | S754_finite s m e =>
      let v := if 0 <=? e then Z.shiftl (Z.pos m) e else Z.shiftr (Z.pos m) (- e) in
      Some (if s then - v else v)
  | _ => None
  end.

Definition intervalFor (r : RequestRate) : result Z :=
  if (requests r =? 0) || (seconds r =? 0) then
    Throw (invalid_argument "Downloader request rates require positive requests and seconds")
  else
    let quotient := SFdiv 64 16384 (long_double_of (seconds r)) (long_double_of (requests r)) in
    match truncate (SFmul 64 16384 quotient (long_double_of second)) with
    | Some ns => interval ← checked ns; mret (Z.max interval 1)
    | None => Throw overflow
    end.

(** ** State *)

Record LanePolicy := mkPolicy {
  m_key : string;
  m_settings : LaneSettings;
  m_base_interval : Z;
  m_interval : Z;
  m_maximum_interval : Z;
  m_error_backoff : Z;
  m_next_request : Z;
  m_backoff_until : Z;
  m_consecutive_failures : Z;
  m_generation : Z;
  m_advertised : string
}.

Definition configure (settings : LaneSettings) (p : LanePolicy) : result LanePolicy :=
  interval ← match rate settings with Some r => intervalFor r | None => Ok 0 end;
  backoff ← checked (error_backoff settings * second);
  mret (mkPolicy (m_key p) settings interval interval (m_maximum_interval p) backoff 0 0 0
          (wrapu 64 (m_generation p + 1)) (m_advertised p)).

Definition hour : Z := 3600 * second.

Definition LanePolicy_make (key : string) (settings : LaneSettings) (maximum_interval : Z) : result LanePolicy :=
  if maximum_interval <=? 0 then Throw (invalid_argument "Downloader maximum request backoff must be positive")
  else configure settings (mkPolicy key LaneSettings_default 0 0 maximum_interval 0 0 0 0 0 "").

Definition generation (p : LanePolicy) : Z := m_generation p.
Definition nextSlot (p : LanePolicy) : Z := m_next_request p.
Definition settings (p : LanePolicy) : LaneSettings := m_settings p.
Definition throttled (p : LanePolicy) : bool := match rate (m_settings p) with Some _ => true | None => false end.

Definition concurrency (unthrottled_default throttled_default : Z) (p : LanePolicy) : Z :=
  if negb (concurrency_setting (m_settings p) =? 0) then concurrency_setting (m_settings p)
  else if throttled p then throttled_default else unthrottled_default.

(** A slot, or the time to wait for it. *)
Definition claim (now : Z) (p : LanePolicy) : result (LanePolicy * option Z) :=
  if now <? m_next_request p then
    wait ← checked (m_next_request p - now);
    mret (p, Some wait)
  else
    following ← checked (m_next_request p + m_interval p);
    next ← if now <? following then Ok following else checked (now + m_interval p);
    mret (mkPolicy (m_key p) (m_settings p) (m_base_interval p) (m_interval p) (m_maximum_interval p) (m_error_backoff p)
            next (m_backoff_until p) (m_consecutive_failures p) (m_generation p) (m_advertised p), None).

Definition widen (p : LanePolicy) : result LanePolicy :=
  widened ← if m_interval p =? 0 then Ok second else checked (m_interval p * 2);
  mret (mkPolicy (m_key p) (m_settings p) (m_base_interval p)
          (Z.min (m_maximum_interval p) (Z.max (m_base_interval p) widened)) (m_maximum_interval p) (m_error_backoff p)
          (m_next_request p) (m_backoff_until p)
          (if m_consecutive_failures p =? uint32_max then m_consecutive_failures p else m_consecutive_failures p + 1)
          (m_generation p) (m_advertised p)).

Definition openPause (now : Z) (p : LanePolicy) : result (LanePolicy * Z) :=
  if now <? m_backoff_until p then Ok (p, 0)
  else
    p ← widen p;
    mret (p, Z.max (m_interval p) (m_error_backoff p)).

Definition pause (cooldown now : Z) (p : LanePolicy) : result LanePolicy :=
  left ← checked (int64_max - now);
  deadline ← checked (now + Z.min cooldown left);
  let until := Z.max (m_backoff_until p) deadline in
  mret (mkPolicy (m_key p) (m_settings p) (m_base_interval p) (m_interval p) (m_maximum_interval p) (m_error_backoff p)
          (Z.max (m_next_request p) until) until (m_consecutive_failures p) (m_generation p) (m_advertised p)).

(** ** [Retry-After] *)

Definition trim (value : string) : string :=
  match find_first_not_of (String " " (char 9)) value with
  | None => EmptyString
  | Some first =>
      let last := default O (find_last_not_of (String " " (char 9)) value) in
      stake (last - first + 1) (sdrop first value)
  end.

(** [std::from_chars] to an unsigned 64-bit integer, all of the text or none. *)
Definition from_chars_all (value : string) : option Z :=
  let '(v, n) := read_digits 0 value in
  if (0 <? n)%nat && (n =? String.length value)%nat && (v <=? size_max) then Some v else None.

(** [std::tm], the fields the format sets. *)
Record Tm := mkTm { tm_year : Z; tm_mon : Z; tm_mday : Z; tm_hour : Z; tm_min : Z; tm_sec : Z }.
Definition Tm_zero : Tm := mkTm 0 0 0 0 0 0.

Fixpoint skip_ws (s : string) : string :=
  match s with String c s' => if isspace c then skip_ws s' else s | _ => s end.

(** [text], ignoring case. *)
Fixpoint expect (text s : string) : option string :=
  match text, s with
  | EmptyString, _ => Some s
  | String c text, String d s => if (tolower c =? tolower d)%char then expect text s else None
  | _, _ => None
  end.

Fixpoint expect_name (names : list (string * string)) (index : Z) (s : string) : option (Z * string) :=
  match names with
  | [] => None
  | (abbreviated, full) :: names =>
      match expect full s with
      | Some rest => Some (index, rest)
      | None =>
          match expect abbreviated s with
          | Some rest => Some (index, rest)
          | None => expect_name names (index + 1) s
          end
      end
  end.

Definition days : list (string * string) :=
  [("Sun", "Sunday"); ("Mon", "Monday"); ("Tue", "Tuesday"); ("Wed", "Wednesday"); ("Thu", "Thursday");
   ("Fri", "Friday"); ("Sat", "Saturday")].
Definition months : list (string * string) :=
  [("Jan", "January"); ("Feb", "February"); ("Mar", "March"); ("Apr", "April"); ("May", "May"); ("Jun", "June");
   ("Jul", "July"); ("Aug", "August"); ("Sep", "September"); ("Oct", "October"); ("Nov", "November"); ("Dec", "December")].

(** At most [len] digits, a value between [low] and [high]. *)
Fixpoint number_digits (len : nat) (acc : Z) (s : string) : Z * nat * string :=
  match len, s with
  | S len, String c s' =>
      if is_digit c then let '(v, n, rest) := number_digits len (acc * 10 + digit_value c) s' in (v, S n, rest)
      else (acc, O, s)
  | _, _ => (acc, O, s)
  end.

Definition expect_number (len : nat) (low high : Z) (s : string) : option (Z * string) :=
  let '(v, n, rest) := number_digits len 0 s in
  if (0 <? n)%nat && (low <=? v) && (v <=? high) then Some (v, rest) else None.

(** [std::get_time] with ["%a, %d %b %Y %H:%M:%S GMT"]; a space of the format
    takes any white space. *)
Definition get_time (s : string) : option (Tm * string) :=
  '(_, s) ← expect_name days 0 (skip_ws s);
  s ← expect "," s;
  '(day, s) ← expect_number 2 1 31 (skip_ws s);
  '(month, s) ← expect_name months 0 (skip_ws s);
  '(year, s) ← expect_number 4 0 9999 (skip_ws s);
  '(hour, s) ← expect_number 2 0 23 (skip_ws s);
  s ← expect ":" s;
  '(min, s) ← expect_number 2 0 59 s;
  s ← expect ":" s;
  '(sec, s) ← expect_number 2 0 60 s;
  s ← expect "GMT" (skip_ws s);
  mret (mkTm (year - 1900) month day hour min sec, s).

Definition leap (year : Z) : bool := ((year mod 4 =? 0) && negb (year mod 100 =? 0)) || (year mod 400 =? 0).
Definition days_before : list Z := [0; 31; 59; 90; 120; 151; 181; 212; 243; 273; 304; 334].
Definition tm_yday (t : Tm) : Z :=
  default 0 (days_before !! Z.to_nat (tm_mon t)) + (if leap (tm_year t + 1900) && (1 <? tm_mon t) then 1 else 0)
  + tm_mday t - 1.

(** POSIX's seconds since the Epoch. *)
Definition utcTime (t : Tm) : Z :=
  tm_sec t + tm_min t * 60 + tm_hour t * 3600 + tm_yday t * 86400 + (tm_year t - 70) * 31536000
  + ((tm_year t - 69) / 4) * 86400 - ((tm_year t - 1) / 100) * 86400 + ((tm_year t + 299) / 400) * 86400.

(** Seconds to wait, for a wall clock in nanoseconds. *)
Definition parseRetryAfter (value : string) (now : Z) : result (option Z) :=
  let value := trim value in
  match from_chars_all value with
  | Some seconds => Ok (Some (Z.min seconds int64_max))
  | None =>
      match get_time value with
      | None => Ok None
      | Some (date, rest) =>
          if negb (sempty (skip_ws rest)) then Ok None
          else
            let timestamp := utcTime date in
            if timestamp =? -1 then Ok None
            else
              retry_time ← checked (timestamp * second);
              if retry_time <=? now then Ok (Some 0)
              else
                left ← checked (retry_time - now);
                mret (Some ((left + second - 1) / second))
      end
  end.

(** ** Failures *)

Definition limited (retry_after : option string) (now wall_time : Z) (p : LanePolicy) : result (LanePolicy * Z) :=
  parsed ← match retry_after with Some value => parseRetryAfter value wall_time | None => Ok None end;
  '(p, cooldown) ← openPause now p;
  cooldown ← match parsed with
    | Some seconds =>
        bounded ← checked (Z.min seconds (int64_max / second) * second);
        mret (Z.max (m_base_interval p) bounded)
    | None => Ok cooldown
    end;
  p ← pause cooldown now p;
  left ← checked (m_backoff_until p - now);
  mret (p, left).

Definition failed (now : Z) (p : LanePolicy) : result LanePolicy :=
  '(p, cooldown) ← openPause now p;
  pause cooldown now p.

Definition advertised (headers : string) (p : LanePolicy) : LanePolicy :=
  mkPolicy (m_key p) (m_settings p) (m_base_interval p) (m_interval p) (m_maximum_interval p) (m_error_backoff p)
    (m_next_request p) (m_backoff_until p) (m_consecutive_failures p) (m_generation p) headers.

Definition reset (p : LanePolicy) : LanePolicy :=
  mkPolicy (m_key p) (m_settings p) (m_base_interval p) (m_base_interval p) (m_maximum_interval p) (m_error_backoff p)
    0 0 0 (wrapu 64 (m_generation p + 1)) (m_advertised p).

(** The policy's part of a snapshot. *)
Record LaneSnapshot := mkSnapshot {
  snapshot_key : string;
  snapshot_group : option string;
  rate_requests : Z;
  rate_seconds : Z;
  snapshot_throttled : bool;
  effective_interval : Z;
  remaining : Z;
  consecutive_failures : Z;
  backed_off : bool;
  snapshot_bytes_per_second : Z;
  advertised_limits : string
}.

Definition fill (now : Z) (p : LanePolicy) : result LaneSnapshot :=
  left ← checked (m_next_request p - now);
  mret (mkSnapshot (m_key p) (group (m_settings p))
          (match rate (m_settings p) with Some r => requests r | None => 0 end)
          (match rate (m_settings p) with Some r => seconds r | None => 0 end)
          (throttled p) (m_interval p) (Z.max 0 left) (m_consecutive_failures p)
          ((m_base_interval p <? m_interval p) || (0 <? m_consecutive_failures p))
          (bytes_per_second (m_settings p)) (m_advertised p)).

(** ** Runs of a policy

    What the transfers of a lane do to its policy between two
    reconfigurations, in the order the lock of the policy gives. *)
Inductive Call :=
| Claim (now : Z)
| Limited (retry_after : option string) (now wall_time : Z)
| Failed (now : Z)
| Advertised (headers : string).

(** A call and the slot it was given, if it was. *)
Definition call (c : Call) (p : LanePolicy) : result (LanePolicy * list Z) :=
  match c with
  | Claim now => '(p, wait) ← claim now p; mret (p, match wait with None => [now] | Some _ => [] end)
  | Limited retry_after now wall_time => '(p, _) ← limited retry_after now wall_time p; mret (p, [])
  | Failed now => p ← failed now p; mret (p, [])
  | Advertised headers => mret (advertised headers p, [])
  end.

Fixpoint calls (cs : list Call) (p : LanePolicy) : result (LanePolicy * list Z) :=
  match cs with
  | [] => mret (p, [])
  | c :: cs =>
      '(p, granted) ← call c p;
      '(p, rest) ← calls cs p;
      mret (p, granted ++ rest)
  end.

(** ** What a step changes *)

Lemma checked_ok z v : checked z = Ok v -> v = z /\ - 2 ^ 63 <= z <= int64_max.
Proof. unfold checked. intros H. case_match eqn:E; simplify_eq. lia. Qed.

Lemma checked_fits z : - 2 ^ 63 <= z <= int64_max -> checked z = Ok z.
Proof. intros H. unfold checked. rewrite (proj2 (Z.leb_le _ _)), (proj2 (Z.leb_le _ _)) by lia. done. Qed.

(** Takes apart a computation that returned. *)
Ltac bind_ok H :=
  unfold mret, result_ret in H; cbn [mbind result_bind] in H;
  repeat match type of H with
  | context [checked ?z] =>
      let E := fresh "E" in let v := fresh "v" in
      destruct (checked z) as [v|] eqn:E; [apply checked_ok in E as [-> E]|discriminate H];
      cbn [mbind result_bind] in H
  end.

Ltac fields := cbn [m_key m_settings m_base_interval m_interval m_maximum_interval m_error_backoff m_next_request
  m_backoff_until m_consecutive_failures m_generation m_advertised].

Definition slower (p : LanePolicy) : Prop := m_base_interval p <= m_interval p.

(** The kept part of a policy, and what only grows. *)
Record advances (p p' : LanePolicy) : Prop := {
  advances_base : m_base_interval p' = m_base_interval p;
  advances_maximum : m_maximum_interval p' = m_maximum_interval p;
  advances_backoff : m_error_backoff p' = m_error_backoff p;
  advances_generation : m_generation p' = m_generation p;
  advances_settings : m_settings p' = m_settings p;
  advances_next : m_next_request p <= m_next_request p';
  advances_until : m_backoff_until p <= m_backoff_until p';
  advances_slower : m_base_interval p <= m_maximum_interval p -> slower p -> slower p'
}.

(** A returned value. *)
Ltac ok_eq H := unfold mret, result_ret in H; simplify_eq.

Lemma advances_refl p : advances p p.
Proof. by split. Qed.

Lemma advances_trans p q r : advances p q -> advances q r -> advances p r.
Proof.
  intros [A1 A2 A3 A4 A5 A6 A7 A8] [B1 B2 B3 B4 B5 B6 B7 B8]. split; try congruence; try lia.
  intros Hm Hs. apply B8; [lia|auto].
Qed.

Lemma widen_advances p p' : widen p = Ok p' -> advances p p'
  /\ m_interval p' = Z.min (m_maximum_interval p) (Z.max (m_base_interval p) (if m_interval p =? 0 then second else m_interval p * 2))
  /\ m_next_request p' = m_next_request p /\ m_backoff_until p' = m_backoff_until p
  /\ m_consecutive_failures p'
     = (if m_consecutive_failures p =? uint32_max then m_consecutive_failures p else m_consecutive_failures p + 1).
Proof.
  unfold widen. intros H. destruct (m_interval p =? 0); cbn [mbind result_bind] in H; bind_ok H; simplify_eq;
    (split; [split; unfold slower; fields; try done; lia|done]).
Qed.

Lemma openPause_advances now p p' c : openPause now p = Ok (p', c) -> advances p p' /\ m_next_request p' = m_next_request p
  /\ m_backoff_until p' = m_backoff_until p.
Proof.
  unfold openPause. intros H. destruct (_ <? _); [simplify_eq; by split; [apply advances_refl|]|].
  destruct (widen p) as [q|] eqn:Hw; cbn [mbind result_bind] in H; [|done]. ok_eq H.
  by destruct (widen_advances _ _ Hw) as (Ha & _ & Hn & Hu & _).
Qed.

Lemma pause_advances cooldown now p p' : pause cooldown now p = Ok p' -> advances p p'
  /\ m_backoff_until p' = Z.max (m_backoff_until p) (now + Z.min cooldown (int64_max - now))
  /\ m_next_request p' = Z.max (m_next_request p) (m_backoff_until p')
  /\ m_interval p' = m_interval p /\ m_consecutive_failures p' = m_consecutive_failures p.
Proof.
  unfold pause. intros H. bind_ok H. simplify_eq. split; [|done]. split; fields; try done; lia.
Qed.

Lemma failed_advances now p p' : failed now p = Ok p' -> advances p p' /\ m_backoff_until p' <= m_next_request p'.
Proof.
  unfold failed. intros H. destruct (openPause now p) as [[q c]|] eqn:Ho; cbn [mbind result_bind] in H; [|done].
  destruct (openPause_advances _ _ _ _ Ho) as (Ha & Hn & Hu).
  destruct (pause_advances _ _ _ _ H) as (Ha' & Hu' & Hn' & _). split; [by eapply advances_trans|lia].
Qed.

Lemma limited_inv retry_after now wall p p' d : limited retry_after now wall p = Ok (p', d) ->
  exists parsed q c, match retry_after with Some v => parseRetryAfter v wall | None => Ok None end = Ok parsed
    /\ openPause now p = Ok (q, c)
    /\ pause (match parsed with
              | Some s => Z.max (m_base_interval p) (Z.min s (int64_max / second) * second)
              | None => c end) now q = Ok p'
    /\ d = m_backoff_until p' - now.
Proof.
  unfold limited. intros H. destruct (match retry_after with Some v => _ | None => _ end) as [parsed|]; [|done].
  cbn [mbind result_bind] in H. destruct (openPause now p) as [[q c]|] eqn:Ho; [|done]. cbn [mbind result_bind] in H.
  exists parsed, q, c. destruct (openPause_advances _ _ _ _ Ho) as ([Hb _ _ _ _ _ _ _] & _).
  destruct parsed as [s|]; bind_ok H; rewrite ?Hb in H; cbn [mbind result_bind mret result_ret] in H;
    (destruct (pause _ now q) as [r|] eqn:Hp; [|done]); cbn [mbind result_bind] in H; bind_ok H; simplify_eq; eauto.
Qed.

Lemma limited_advances retry_after now wall p p' d : limited retry_after now wall p = Ok (p', d) ->
  advances p p' /\ m_backoff_until p' <= m_next_request p' /\ d = m_backoff_until p' - now.
Proof.
  intros (parsed & q & c & _ & Ho & Hp & ->)%limited_inv.
  destruct (openPause_advances _ _ _ _ Ho) as (Ha & Hn & Hu).
  destruct (pause_advances _ _ _ _ Hp) as (Ha' & Hu' & Hn' & _). split_and!; [by eapply advances_trans|lia|done].
Qed.

Lemma claim_advances now p p' wait : 0 <= m_interval p -> claim now p = Ok (p', wait) ->
  advances p p' /\ match wait with
  | Some d => p' = p /\ d = m_next_request p - now /\ 0 < d
  | None => m_next_request p <= now <= m_next_request p' /\ m_next_request p + m_interval p <= m_next_request p'
  end.
Proof.
  intros Hi H. unfold claim in H. destruct (Z.ltb_spec now (m_next_request p)); bind_ok H; [simplify_eq|].
  - split; [apply advances_refl|]. split_and!; [done|done|lia].
  - destruct (Z.ltb_spec now (m_next_request p + m_interval p)); cbn [mbind result_bind] in H; bind_ok H; simplify_eq;
      (split; [split; fields; try done; lia|fields; lia]).
Qed.

(** ** The pace of the slots *)

Lemma call_advances c p p' granted : 0 <= m_base_interval p <= m_maximum_interval p -> slower p ->
  call c p = Ok (p', granted) -> advances p p' /\ match granted with
  | [] => True
  | g :: rest => rest = [] /\ m_next_request p <= g <= m_next_request p' /\ m_next_request p + m_base_interval p <= m_next_request p'
  end.
Proof.
  intros Hb Hs H. unfold slower in Hs. destruct c as [now|ra now wall|now|h]; cbn [call] in H.
  - destruct (claim now p) as [[q w]|] eqn:Hc; cbn [mbind result_bind] in H; [|done]. ok_eq H.
    destruct (claim_advances now p p' w ltac:(lia) Hc) as [Ha Hw]. split; [done|]. destruct w; [done|]. split; [done|lia].
  - destruct (limited ra now wall p) as [[q d]|] eqn:Hc; cbn [mbind result_bind] in H; [|done]. ok_eq H.
    by destruct (limited_advances _ _ _ _ _ _ Hc).
  - destruct (failed now p) as [q|] eqn:Hc; cbn [mbind result_bind] in H; [|done]. ok_eq H.
    by destruct (failed_advances _ _ _ Hc).
  - ok_eq H. split; [by split|done].
Qed.

(** Slot [i] comes at least [i] intervals after [from]. *)
Definition paced (interval from : Z) (granted : list Z) : Prop :=
  forall i g, granted !! i = Some g -> from + Z.of_nat i * interval <= g.

Lemma calls_paced cs p p' granted : 0 <= m_base_interval p <= m_maximum_interval p -> slower p ->
  calls cs p = Ok (p', granted) -> advances p p' /\ paced (m_base_interval p) (m_next_request p) granted.
Proof.
  revert p granted. induction cs as [|c cs IH]; intros p granted Hb Hs H; cbn [calls] in H.
  { ok_eq H. split; [apply advances_refl|]. by intros i g Hi. }
  destruct (call c p) as [[q gs]|] eqn:Hc; cbn [mbind result_bind] in H; [|done].
  destruct (calls cs q) as [[r rest]|] eqn:Hr; cbn [mbind result_bind] in H; [|done]. ok_eq H.
  destruct (call_advances c p q gs Hb Hs Hc) as [Ha Hg]. pose proof Ha as [A1 A2 _ _ _ A6 _ A8].
  destruct (IH q rest ltac:(rewrite A1, A2; done) (A8 ltac:(lia) Hs) Hr) as [Ha' Hp].
  split; [by eapply advances_trans|]. rewrite A1 in Hp. intros i g Hi. destruct gs as [|g0 gs]; cbn in Hi.
  - specialize (Hp i g Hi). lia.
  - destruct Hg as (-> & Hg0 & Hn). cbn in Hi. destruct i as [|i]; cbn in Hi; [simplify_eq; lia|].
    specialize (Hp i g Hi). lia.
Qed.

Lemma calls_app a b p : calls (a ++ b) p = '(p, granted) ← calls a p; '(p, rest) ← calls b p; mret (p, granted ++ rest).
Proof.
  revert p. induction a as [|c a IH]; intros p.
  - cbn. by destruct (calls b p) as [[q rest]|].
  - cbn [app calls]. destruct (call c p) as [[q gs]|]; [|done]. cbn [mbind result_bind]. rewrite IH.
    destruct (calls a q) as [[r rs]|]; [|done]. cbn [mbind result_bind mret result_ret].
    destruct (calls b r) as [[t ts]|]; [|done]. cbn. by rewrite app_assoc.
Qed.

(** After a slot, the next ones follow from it. *)
Lemma calls_paced_after cs p p' granted i g : 0 <= m_base_interval p <= m_maximum_interval p -> slower p ->
  calls cs p = Ok (p', granted) -> granted !! i = Some g ->
  paced (m_base_interval p) g (drop (S i) granted).
Proof.
  revert p granted i. induction cs as [|c cs IH]; intros p granted i Hb Hs H Hi; cbn [calls] in H.
  { ok_eq H. }
  destruct (call c p) as [[q gs]|] eqn:Hc; cbn [mbind result_bind] in H; [|done].
  destruct (calls cs q) as [[r rest]|] eqn:Hr; cbn [mbind result_bind] in H; [|done]. ok_eq H.
  destruct (call_advances c p q gs Hb Hs Hc) as [Ha Hg]. pose proof Ha as [A1 A2 _ _ _ A6 _ A8].
  assert (Hb' : 0 <= m_base_interval q <= m_maximum_interval q) by (rewrite A1, A2; done).
  assert (Hs' : slower q) by (apply A8; [lia|done]). rewrite <- A1. destruct gs as [|g0 gs]; cbn [app] in *.
  { by apply (IH q rest i Hb' Hs' Hr). }
  destruct Hg as (-> & Hg0 & Hn). cbn [app] in *. destruct i as [|i].
  - cbn in Hi. simplify_eq. destruct (calls_paced cs q p' rest Hb' Hs' Hr) as [_ Hp]. intros j h Hj. cbn in Hj.
    specialize (Hp j h Hj). lia.
  - by apply (IH q rest i Hb' Hs' Hr).
Qed.

(** Whatever failures come in between and however late the calls, a lane
    whose configured interval is not above the longest backoff never sends
    faster than its rate: the [j]-th slot after one given at [g] comes at least
    [j - 1] intervals after [g], so [n] slots take at least [n - 2] intervals. *)
Theorem claims_keep_the_rate (cs : list Call) (p p' : LanePolicy) (granted : list Z) (i j : nat) (g h : Z)
    (Hbase : 0 <= m_base_interval p <= m_maximum_interval p) (Hslow : m_base_interval p <= m_interval p)
    (Hrun : calls cs p = Ok (p', granted)) (Hi : granted !! i = Some g) (Hj : granted !! (i + S j)%nat = Some h) :
  g + Z.of_nat j * m_base_interval p <= h.
Proof.
  apply (calls_paced_after cs p p' granted i g Hbase Hslow Hrun Hi j h).
  rewrite lookup_drop. by replace (S i + j)%nat with (i + S j)%nat by lia.
Qed.

(** After [limited] no request is sent before the deadline it returns,
    whatever else happens to the lane; the deadline is at least the host's
    [Retry-After] (up to the end of the clock), and at least the interval and
    the configured backoff for a failure outside an open pause. *)
Theorem limited_holds_the_lane (retry_after : option string) (now wall d : Z) (cs : list Call)
    (p p1 p2 : LanePolicy) (granted : list Z) (parsed : option Z)
    (Hbase : 0 <= m_base_interval p <= m_maximum_interval p) (Hslow : m_base_interval p <= m_interval p)
    (Hparse : match retry_after with Some v => parseRetryAfter v wall | None => Ok None end = Ok parsed)
    (Hlimited : limited retry_after now wall p = Ok (p1, d))
    (Hrun : calls cs p1 = Ok (p2, granted)) :
  Forall (fun g => now + d <= g) granted
  /\ Z.min match parsed with
       | Some s => Z.max (m_base_interval p) (Z.min s (int64_max / second) * second)
       | None => if now <? m_backoff_until p then 0 else Z.max (m_interval p1) (m_error_backoff p)
       end (int64_max - now) <= d.
Proof.
  destruct (limited_advances _ _ _ _ _ _ Hlimited) as (Ha & Hn & ->).
  pose proof Ha as [A1 A2 _ _ _ _ _ A8]. split.
  - destruct (calls_paced cs p1 p2 granted ltac:(lia) (A8 ltac:(lia) Hslow) Hrun) as [_ Hp].
    apply Forall_lookup_2. intros i g Hi. specialize (Hp i g Hi). lia.
  - apply limited_inv in Hlimited as (parsed' & q & c & Hparse' & Ho & Hp & _).
    assert (parsed' = parsed) as -> by congruence.
    destruct (pause_advances _ _ _ _ Hp) as (_ & Hu & _ & Hint & _). rewrite Hu, Hint.
    assert (Hc : parsed = None -> c = if now <? m_backoff_until p then 0 else Z.max (m_interval q) (m_error_backoff p)).
    { intros _. unfold openPause in Ho. destruct (now <? m_backoff_until p); [ok_eq Ho; done|].
      destruct (widen p) as [w|] eqn:Hw; [|done]. cbn [mbind result_bind] in Ho. ok_eq Ho.
      by destruct (widen_advances _ _ Hw) as ([_ _ -> _ _ _ _ _] & _). }
    destruct parsed as [s|]; [lia|]. rewrite Hc by done. lia.
Qed.

(** *** Backing off *)

(** Failures, each after the pause the one before it opened. *)
Inductive fails_after_pauses : nat -> LanePolicy -> LanePolicy -> Prop :=
| fails_none p : fails_after_pauses 0 p p
| fails_one_more n now p q r :
    fails_after_pauses n p q -> m_backoff_until q <= now -> failed now q = Ok r -> fails_after_pauses (S n) p r.

Definition widened_interval (base maximum : Z) (n : nat) : Z :=
  match n with
  | O => base
  | S k => Z.min maximum (if base =? 0 then second * 2 ^ Z.of_nat k else base * 2 ^ Z.of_nat n)
  end.

Lemma failed_opens now p p' : failed now p = Ok p' -> m_backoff_until p <= now -> exists q, widen p = Ok q
  /\ m_interval p' = m_interval q /\ m_consecutive_failures p' = m_consecutive_failures q /\ advances p p'.
Proof.
  intros H Hu. pose proof (failed_advances _ _ _ H) as [Ha _]. unfold failed, openPause in H.
  rewrite (proj2 (Z.ltb_ge now _)) in H by done. destruct (widen p) as [q|]; [|done].
  cbn [mbind result_bind mret result_ret] in H. destruct (pause_advances _ _ _ _ H) as (_ & _ & _ & Hi & Hc). eauto.
Qed.

(** Each failure after a pause doubles the lane's interval, from one second
    when it has no rate and up to the longest backoff; one inside an open pause
    changes neither the interval nor the count of failures. *)
Theorem failures_widen_exponentially (n : nat) (p p' : LanePolicy)
    (Hbase : 0 <= m_base_interval p <= m_maximum_interval p) (Hmax : 0 < m_maximum_interval p)
    (Hfresh : m_interval p = m_base_interval p) (Hzero : m_consecutive_failures p = 0)
    (Hn : Z.of_nat n <= uint32_max) (Hrun : fails_after_pauses n p p') :
  m_interval p' = widened_interval (m_base_interval p) (m_maximum_interval p) n
  /\ m_consecutive_failures p' = Z.of_nat n
  /\ forall now r, now < m_backoff_until p' -> failed now p' = Ok r ->
     m_interval r = m_interval p' /\ m_consecutive_failures r = m_consecutive_failures p'.
Proof.
  enough (H : m_interval p' = widened_interval (m_base_interval p) (m_maximum_interval p) n
    /\ m_consecutive_failures p' = Z.of_nat n /\ advances p p').
  { destruct H as (H1 & H2 & _). split_and!; [done..|]. intros now r Hin Hf. unfold failed, openPause in Hf.
    rewrite (proj2 (Z.ltb_lt now _)) in Hf by done. cbn [mbind result_bind] in Hf.
    by destruct (pause_advances _ _ _ _ Hf) as (_ & _ & _ & Hi & Hc). }
  induction Hrun as [p|n now p q r Hrun IH Hu Hf]; [split_and!; [done|done|apply advances_refl]|].
  destruct (IH Hbase Hmax Hfresh Hzero ltac:(lia)) as (Hi & Hc & Ha).
  destruct (failed_opens now q r Hf Hu) as (w & Hw & Hir & Hcr & Har).
  destruct (widen_advances _ _ Hw) as (_ & Hiw & _ & _ & Hcw). destruct Ha as [A1 A2 A3 A4 A5 A6 A7 A8].
  split_and!; [| |by eapply advances_trans; [split; eassumption|]].
  - rewrite Hir, Hiw, A1, A2, Hi. clear -Hbase Hmax. destruct n as [|k]; cbn [widened_interval].
    + destruct (Z.eqb_spec (m_base_interval p) 0) as [->|Hne]; change (2 ^ Z.of_nat 0) with 1; change (2 ^ Z.of_nat 1) with 2;
        unfold second; lia.
    + rewrite !Nat2Z.inj_succ, !Z.pow_succ_r by lia. pose proof (Z.pow_pos_nonneg 2 (Z.of_nat k) ltac:(lia) ltac:(lia)).
      destruct (Z.eqb_spec (m_base_interval p) 0) as [->|Hne].
      * rewrite (proj2 (Z.eqb_neq _ 0)) by (unfold second; lia). unfold second. lia.
      * rewrite (proj2 (Z.eqb_neq _ 0)) by nia. nia.
  - rewrite Hcr, Hcw, Hc. rewrite (proj2 (Z.eqb_neq _ _)) by lia. lia.
Qed.

(** ** No overflow *)

Definition horizon : Z := 2 ^ 61.

Record in_range (p : LanePolicy) : Prop := {
  range_base : 0 <= m_base_interval p <= horizon;
  range_interval : 0 <= m_interval p <= horizon;
  range_maximum : 0 < m_maximum_interval p <= horizon;
  range_backoff : 0 <= m_error_backoff p <= horizon;
  range_next : 0 <= m_next_request p <= int64_max;
  range_until : 0 <= m_backoff_until p <= int64_max
}.

(** A clock reading within the horizon, and a [Retry-After] that can be read. *)
Definition readable_call (c : Call) : Prop :=
  match c with
  | Claim now | Failed now => 0 <= now <= horizon
  | Limited retry_after now wall =>
      0 <= now <= horizon /\ match retry_after with Some v => is_ok (parseRetryAfter v wall) = true | None => True end
  | Advertised _ => True
  end.

Lemma parseRetryAfter_nonneg value now s : parseRetryAfter value now = Ok (Some s) -> 0 <= s.
Proof.
  unfold parseRetryAfter. destruct (from_chars_all (trim value)) as [v|] eqn:Hf.
  - intros [= <-]. unfold from_chars_all in Hf. pose proof (read_digits_nonneg 0 (trim value) ltac:(lia)) as Hn.
    destruct (read_digits 0 (trim value)) as [v' n]. cbn in Hn. case_match; simplify_eq. unfold int64_max. lia.
  - destruct (get_time _) as [[t rest]|]; [|done]. destruct (negb _); [done|]. destruct (_ =? _); [done|].
    intros H. destruct (checked (utcTime t * second)) as [x|] eqn:E; [|done]. apply checked_ok in E as [-> E].
    cbn [mbind result_bind] in H. destruct (Z.leb_spec (utcTime t * second) now); [simplify_eq; lia|].
    bind_ok H. simplify_eq. apply Z.div_pos; unfold second in *; lia.
Qed.

Lemma widen_in_range p : in_range p -> exists q, widen p = Ok q /\ in_range q.
Proof.
  intros [H1 H2 H3 H4 H5 H6]. unfold widen, horizon in *.
  assert (Hw : exists w, (if m_interval p =? 0 then Ok second else checked (m_interval p * 2)) = Ok w /\ 0 <= w).
  { destruct (Z.eqb_spec (m_interval p) 0); [by exists second|]. exists (m_interval p * 2). split; [|lia].
    apply checked_fits. unfold int64_max. lia. }
  destruct Hw as (w & -> & Hw). eexists. split; [done|]. split; fields; unfold horizon; lia.
Qed.

Lemma openPause_in_range now p : in_range p -> exists q c, openPause now p = Ok (q, c) /\ in_range q /\ 0 <= c.
Proof.
  intros Hr. unfold openPause. destruct (now <? m_backoff_until p); [by eexists _, _|].
  destruct (widen_in_range p Hr) as (q & -> & Hq). eexists _, _. split; [done|]. split; [done|].
  destruct Hq. lia.
Qed.

Lemma pause_in_range cooldown now p : in_range p -> 0 <= now <= horizon -> 0 <= cooldown ->
  exists q, pause cooldown now p = Ok q /\ in_range q.
Proof.
  intros [H1 H2 H3 H4 H5 H6] Hn Hc. unfold pause, horizon in *.
  rewrite checked_fits by (unfold int64_max; lia). cbn [mbind result_bind].
  rewrite checked_fits by (unfold int64_max; lia). eexists. split; [done|]. split; fields; unfold horizon, int64_max in *; lia.
Qed.

Lemma call_in_range c p : in_range p -> readable_call c -> exists q gs, call c p = Ok (q, gs) /\ in_range q.
Proof.
  intros Hr Hc. destruct c as [now|ra now wall|now|h]; cbn [readable_call] in Hc; cbn [call].
  - unfold claim. pose proof Hr as [H1 H2 H3 H4 H5 H6]. unfold horizon in *.
    destruct (Z.ltb_spec now (m_next_request p)).
    { rewrite checked_fits by (unfold int64_max in *; lia). by eexists _, _. }
    rewrite (checked_fits (m_next_request p + m_interval p)), (checked_fits (now + m_interval p))
      by (unfold int64_max in *; lia). cbn [mbind result_bind].
    destruct (Z.ltb_spec now (m_next_request p + m_interval p)); cbn [mbind result_bind].
    all: (eexists _, _; split; [done|]; split; fields; unfold horizon, int64_max in *; lia).
  - destruct Hc as [Hn Hp]. unfold limited.
    assert (Hparse : exists parsed, match ra with Some v => parseRetryAfter v wall | None => Ok None end = Ok parsed
      /\ match parsed with Some s => 0 <= s | None => True end).
    { destruct ra as [v|]; [|by exists None]. destruct (parseRetryAfter v wall) as [[s|]|] eqn:E; [| |done].
      - eexists. split; [done|]. by eapply parseRetryAfter_nonneg.
      - by exists None. }
    destruct Hparse as (parsed & -> & Hs). cbn [mbind result_bind].
    destruct (openPause_in_range now p Hr) as (q & c & -> & Hq & Hc). cbn [mbind result_bind].
    assert (Hcool : exists c', match parsed with
      | Some s => bounded ← checked (Z.min s (int64_max / second) * second); mret (Z.max (m_base_interval q) bounded)
      | None => Ok c end = Ok c' /\ 0 <= c').
    { destruct parsed as [s|]; [|by exists c].
      assert (int64_max / second * second <= int64_max) by (unfold second; pose proof (Z.mul_div_le int64_max 1000000000); lia).
      assert (0 <= Z.min s (int64_max / second) * second <= int64_max).
      { assert (0 <= int64_max / second) by (apply Z.div_pos; unfold int64_max, second; lia). unfold second in *. nia. }
      rewrite checked_fits by (unfold int64_max in *; lia). eexists. split; [done|]. lia. }
    destruct Hcool as (c' & -> & Hc'). cbn [mbind result_bind].
    destruct (pause_in_range c' now q Hq Hn Hc') as (r & -> & Hr'). cbn [mbind result_bind]. pose proof Hr' as [_ _ _ _ _ Hu].
    rewrite checked_fits by (unfold horizon, int64_max in *; lia). by eexists _, _.
  - unfold failed. destruct (openPause_in_range now p Hr) as (q & c & -> & Hq & Hc'). cbn [mbind result_bind].
    destruct (pause_in_range c now q Hq Hc Hc') as (r & -> & Hr'). by eexists _, _.
  - eexists _, _. split; [done|]. by destruct Hr.
Qed.

(** For clock readings, intervals and backoffs below 2^61 ns (73 years) no
    call on a policy overflows, and the state stays within the clock's range,
    as long as every [Retry-After] can be read. *)
Theorem policy_never_overflows (cs : list Call) (p : LanePolicy) (Hp : in_range p) (Hcs : Forall readable_call cs) :
  exists p' granted, calls cs p = Ok (p', granted) /\ in_range p'.
Proof.
  revert p Hp. induction Hcs as [|c cs Hc Hcs IH]; intros p Hp; [by eexists _, _|]. cbn [calls].
  destruct (call_in_range c p Hp Hc) as (q & gs & -> & Hq). cbn [mbind result_bind].
  destruct (IH q Hq) as (r & rest & -> & Hr). by eexists _, _.
Qed.

(** The wait that [claim] returns is exact: asked again after it, with
    nothing in between, the lane grants the slot; asked earlier, it still does
    not. *)
Theorem claim_wait_is_exact (now later d : Z) (p p' : LanePolicy)
    (Hp : in_range p) (Hnow : 0 <= now <= horizon) (Hlater : now <= later <= horizon)
    (Hwait : claim now p = Ok (p', Some d)) :
  p' = p /\ 0 < d /\ exists q w, claim later p' = Ok (q, w) /\ (w = None <-> now + d <= later).
Proof.
  destruct (claim_advances now p p' (Some d) (proj1 (range_interval _ Hp)) Hwait) as (_ & -> & -> & Hd).
  split_and!; [done|done|]. destruct (call_in_range (Claim later) p Hp ltac:(cbn; lia)) as (q & gs & Hc & _).
  cbn [call] in Hc. destruct (claim later p) as [[q' w]|] eqn:Hw; [|done]. exists q', w. split; [done|].
  destruct (claim_advances later p q' w (proj1 (range_interval _ Hp)) Hw) as [_ Hw'].
  destruct w as [w|]; [destruct Hw' as (_ & -> & Hw')|destruct Hw' as [Hw' _]]; split; intros; try done; lia.
Qed.

(** ** Reading [Retry-After] *)

Module HttpDate.
Definition digit (d : Z) : ascii := ascii_of_N (Z.to_N (48 + d)).
Definition two (v : Z) (t : string) : string := String (digit (v / 10)) (String (digit (v mod 10)) t).
Definition four (v : Z) (t : string) : string :=
  String (digit (v / 1000)) (String (digit (v / 100 mod 10)) (two (v mod 100) t)).
Definition name (names : list (string * string)) (i : Z) : string := (default ("", "") (names !! Z.to_nat i)).1.

(** An HTTP date, RFC 9110's preferred form. *)
Definition format (weekday : Z) (t : Tm) : string :=
  name days weekday +:+ String "," (String " " (two (tm_mday t) (String " " (name months (tm_mon t) +:+ String " "
    (four (tm_year t + 1900) (String " " (two (tm_hour t) (String ":" (two (tm_min t) (String ":"
      (two (tm_sec t) " GMT"))))))))))).

Record valid (t : Tm) : Prop := {
  valid_year : 0 <= tm_year t + 1900 <= 9999;
  valid_mon : 0 <= tm_mon t < 12;
  valid_mday : 1 <= tm_mday t <= 31;
  valid_hour : 0 <= tm_hour t <= 23;
  valid_min : 0 <= tm_min t <= 59;
  valid_sec : 0 <= tm_sec t <= 60
}.

Lemma digit_ok d : 0 <= d < 10 -> is_digit (digit d) = true /\ digit_value (digit d) = d /\ isspace (digit d) = false.
Proof.
  intros H. assert (Hd : d ∈ [0;1;2;3;4;5;6;7;8;9]) by (rewrite !elem_of_cons; lia).
  repeat (apply elem_of_cons in Hd as [->|Hd]; [by vm_compute|]). by apply elem_of_nil in Hd.
Qed.

Lemma number_digits_step len acc d t : 0 <= d < 10 -> number_digits (S len) acc (String (digit d) t)
  = let '(v, n, rest) := number_digits len (acc * 10 + d) t in (v, S n, rest).
Proof. intros H. destruct (digit_ok d H) as (H1 & H2 & _). cbn [number_digits]. by rewrite H1, H2. Qed.

Lemma expect_two low high v t : 0 <= v < 100 -> low <= v <= high ->
  expect_number 2 low high (two v t) = Some (v, t).
Proof.
  intros Hv Hr. unfold expect_number, two. pose proof (Z.mod_pos_bound v 10 ltac:(lia)).
  assert (0 <= v / 10 < 10) by (split; [apply Z.div_pos|apply Z.div_lt_upper_bound]; lia).
  rewrite !number_digits_step by lia. cbn [number_digits]. rewrite Z.mul_0_l, Z.add_0_l.
  replace (v / 10 * 10 + v mod 10) with v by (pose proof (Z.div_mod v 10); lia).
  by rewrite (proj2 (Z.leb_le low v)), (proj2 (Z.leb_le v high)) by lia.
Qed.

Lemma expect_four v t : 0 <= v <= 9999 -> expect_number 4 0 9999 (four v t) = Some (v, t).
Proof.
  intros Hv. unfold expect_number, four, two.
  pose proof (Z.mod_pos_bound (v mod 100) 10 ltac:(lia)). pose proof (Z.mod_pos_bound (v / 100) 10 ltac:(lia)).
  pose proof (Z.mod_pos_bound v 100 ltac:(lia)).
  assert (0 <= v / 1000 < 10) by (split; [apply Z.div_pos|apply Z.div_lt_upper_bound]; lia).
  assert (0 <= v mod 100 / 10 < 10) by (split; [apply Z.div_pos|apply Z.div_lt_upper_bound]; lia).
  rewrite !number_digits_step by lia. cbn [number_digits].
  match goal with |- context [(?e <=? 9999)] => replace e with v end.
  { by rewrite (proj2 (Z.leb_le 0 v)), (proj2 (Z.leb_le v 9999)) by lia. }
  pose proof (Z.div_mod v 100 ltac:(lia)). pose proof (Z.div_mod (v mod 100) 10 ltac:(lia)).
  pose proof (Z.div_mod (v / 100) 10 ltac:(lia)). rewrite Z.div_div in * by lia. change (100 * 10) with 1000 in *. lia.
Qed.

Lemma skip_ws_two v t : 0 <= v < 100 -> skip_ws (two v t) = two v t.
Proof.
  intros Hv. assert (0 <= v / 10 < 10) by (split; [apply Z.div_pos|apply Z.div_lt_upper_bound]; lia).
  unfold two. cbn [skip_ws]. by destruct (digit_ok (v / 10)) as (_ & _ & ->).
Qed.

Lemma skip_ws_four v t : 0 <= v <= 9999 -> skip_ws (four v t) = four v t.
Proof.
  intros Hv. assert (0 <= v / 1000 < 10) by (split; [apply Z.div_pos|apply Z.div_lt_upper_bound]; lia).
  unfold four. cbn [skip_ws]. by destruct (digit_ok (v / 1000)) as (_ & _ & ->).
Qed.

Lemma skip_ws_space t : skip_ws (String " " t) = skip_ws t.
Proof. done. Qed.

(** The names are told apart by what follows them, a comma or a space. *)
Lemma expect_weekday i t : 0 <= i < 7 -> expect_name days 0 (skip_ws (name days i +:+ String "," t)) = Some (i, String "," t).
Proof.
  intros H. assert (Hi : i ∈ [0;1;2;3;4;5;6]) by (rewrite !elem_of_cons; lia).
  repeat (apply elem_of_cons in Hi as [->|Hi]; [reflexivity|]). by apply elem_of_nil in Hi.
Qed.

Lemma expect_month i t : 0 <= i < 12 -> expect_name months 0 (skip_ws (name months i +:+ String " " t)) = Some (i, String " " t).
Proof.
  intros H. assert (Hi : i ∈ [0;1;2;3;4;5;6;7;8;9;10;11]) by (rewrite !elem_of_cons; lia).
  repeat (apply elem_of_cons in Hi as [->|Hi]; [reflexivity|]). by apply elem_of_nil in Hi.
Qed.

Lemma get_time_format weekday t : 0 <= weekday < 7 -> valid t -> get_time (format weekday t) = Some (t, EmptyString).
Proof.
  intros Hw [Hy Hmo Hd Hh Hmi Hs]. unfold get_time, format.
  rewrite expect_weekday by done. cbn [mbind option_bind].
  change (expect "," (String "," ?x)) with (Some x). cbn [mbind option_bind].
  rewrite skip_ws_space, skip_ws_two, expect_two by lia. cbn [mbind option_bind].
  rewrite skip_ws_space, expect_month by done. cbn [mbind option_bind].
  rewrite skip_ws_space, skip_ws_four, expect_four by lia. cbn [mbind option_bind].
  rewrite skip_ws_space, skip_ws_two, expect_two by lia. cbn [mbind option_bind].
  change (expect ":" (String ":" ?x)) with (Some x). cbn [mbind option_bind].
  rewrite expect_two by lia. cbn [mbind option_bind].
  change (expect ":" (String ":" ?x)) with (Some x). cbn [mbind option_bind].
  rewrite expect_two by lia. cbn [mbind option_bind].
  change (expect "GMT" (skip_ws " GMT")) with (Some EmptyString). cbn [mbind option_bind].
  replace (tm_year t + 1900 - 1900) with (tm_year t) by lia. by destruct t.
Qed.
End HttpDate.

Lemma trim_id c x d : char_in (String " " (char 9)) c = false -> char_in (String " " (char 9)) d = false ->
  trim (String c x +:+ String d EmptyString) = String c x +:+ String d EmptyString.
Proof.
  intros Hc Hd. unfold trim, find_first_not_of, find_last_not_of. cbn [String.append sview_find_if]. rewrite Hc. cbn [negb].
  rewrite <- (sapp_cons c x (String d EmptyString)), find_last_if_app by (done || by rewrite Hd).
  unfold default, id. cbn [sdrop]. replace (String.length (String c x) - 0 + 1)%nat with (String.length (String c x +:+ String d EmptyString)).
  - apply stake_all.
  - rewrite slength_app. cbn. lia.
Qed.

Lemma trim_digits n : 0 <= n -> trim (to_string n) = to_string n.
Proof.
  intros Hn. pose proof (to_string_digits n Hn) as Hd. destruct (to_string_nonempty n Hn) as (c & s & Heq & Hc).
  rewrite Heq in *. cbn [sforall] in Hd. apply andb_true_iff in Hd as [_ Hd].
  assert (Hblank : forall c, is_digit c = true -> char_in (String " " (char 9)) c = false).
  { intros c' H. destruct c' as [[] [] [] [] [] [] [] []]; vm_compute in H |- *; congruence. }
  destruct (decide (s = EmptyString)) as [->|Hne].
  - unfold trim, find_first_not_of, find_last_not_of. cbn [sview_find_if sview_find_last_if]. by rewrite Hblank.
  - assert (Hs : exists x d, s = x +:+ String d EmptyString /\ is_digit d = true).
    { clear -Hd Hne. induction s as [|d s IH]; [done|]. cbn [sforall] in Hd. apply andb_true_iff in Hd as [H1 H2].
      destruct (decide (s = EmptyString)) as [->|Hn]; [by exists EmptyString, d|].
      destruct (IH H2 Hn) as (x & e & -> & He). by exists (String d x), e. }
    destruct Hs as (x & d & -> & Hdd). rewrite <- sapp_cons. by apply trim_id; apply Hblank.
Qed.

Lemma ends_in (s : string) x : s = x +:+ "T" -> exists x, s = x +:+ "T".
Proof. eauto. Qed.
Lemma ends_in_cons c s : (exists x, s = x +:+ "T") -> exists x, String c s = x +:+ "T".
Proof. intros [x ->]. by exists (String c x). Qed.
Lemma ends_in_app p s : (exists x, s = x +:+ "T") -> exists x, p +:+ s = x +:+ "T".
Proof. intros [x ->]. exists (p +:+ x). by rewrite sapp_assoc. Qed.

Lemma format_ends weekday t : 0 <= weekday < 7 ->
  exists c x, HttpDate.format weekday t = String c x +:+ "T" /\ is_digit c = false /\ char_in (String " " (char 9)) c = false.
Proof.
  intros Hw. unfold HttpDate.format, HttpDate.four, HttpDate.two. set (tail := String "," _).
  assert (Ht : exists x, tail = x +:+ "T").
  { unfold tail. repeat first [exact (ends_in " GMT" " GM" eq_refl)|apply ends_in_cons|apply ends_in_app]. }
  destruct Ht as [x ->].
  assert (Hname : exists c m, HttpDate.name days weekday = String c m /\ is_digit c = false
    /\ char_in (String " " (char 9)) c = false).
  { assert (Hi : weekday ∈ [0;1;2;3;4;5;6]) by (rewrite !elem_of_cons; lia).
    repeat (apply elem_of_cons in Hi as [->|Hi]; [by eexists _, _|]). by apply elem_of_nil in Hi. }
  destruct Hname as (c & m & -> & Hc & Hb). exists c, (m +:+ x). by rewrite <- sapp_cons, sapp_assoc.
Qed.

(** A [Retry-After] of seconds reads as that many seconds; an HTTP date
    reads as the least number of whole seconds after which it is reached, zero
    once it has passed, as long as it lies within the system clock's range. *)
Theorem retry_after_reads (n weekday now : Z) (t : Tm)
    (Hn : 0 <= n <= size_max) (Hw : 0 <= weekday < 7) (Ht : HttpDate.valid t) (Hnow : 0 <= now <= int64_max)
    (Hclock : 0 <= utcTime t * second <= int64_max) :
  parseRetryAfter (to_string n) now = Ok (Some (Z.min n int64_max))
  /\ exists k, parseRetryAfter (HttpDate.format weekday t) now = Ok (Some k)
     /\ 0 <= k /\ utcTime t * second <= now + k * second /\ (0 < k -> now + (k - 1) * second < utcTime t * second).
Proof.
  split.
  - unfold parseRetryAfter. rewrite trim_digits by lia. unfold from_chars_all.
    pose proof (read_digits_to_string n EmptyString ltac:(lia) eq_refl) as Hr. rewrite sapp_nil in Hr. rewrite Hr.
    destruct (to_string_nonempty n ltac:(lia)) as (c & s & Heq & _). rewrite Nat.eqb_refl, (proj2 (Z.leb_le _ _)) by lia.
    by rewrite Heq.
  - unfold parseRetryAfter. destruct (format_ends weekday t Hw) as (c & x & Heq & Hc & Hb).
    rewrite Heq, trim_id by done. unfold from_chars_all. cbn [String.append read_digits]. rewrite Hc. cbn [Nat.ltb Nat.leb andb].
    rewrite <- (sapp_cons c x "T"), <- Heq, HttpDate.get_time_format by done. cbn [skip_ws sempty negb].
    rewrite (proj2 (Z.eqb_neq _ _)) by (unfold second in *; lia). rewrite checked_fits by lia. cbn [mbind result_bind].
    destruct (Z.leb_spec (utcTime t * second) now) as [Hle|Hgt]; [exists 0; split_and!; [done|lia..]|].
    rewrite checked_fits by (unfold int64_max in *; lia). cbn [mbind result_bind]. eexists. split; [done|].
    unfold second in *. pose proof (Z.div_mod (utcTime t * 1000000000 - now + 1000000000 - 1) 1000000000 ltac:(lia)).
    pose proof (Z.mod_pos_bound (utcTime t * 1000000000 - now + 1000000000 - 1) 1000000000 ltac:(lia)). lia.
Qed.

(** ** Where the code does not do what it means to *)

(** A rate of one request in two hours: a failure, meant to slow the lane
    down, lets it send every hour, because the longest backoff also caps the
    configured interval. *)
Lemma failure_speeds_up_slow_lanes :
  exists p p', LanePolicy_make "example.com" (mkSettings (Some (mkRate 1 7200)) 0 30 30 0 None None) hour = Ok p
    /\ failed 0 p = Ok p' /\ m_interval p = 2 * hour /\ m_interval p' = hour.
Proof.
  eexists. eexists. split; [vm_compute; reflexivity|]. split; [vm_compute; reflexivity|]. by split.
Qed.

(** A date past the system clock's nanoseconds (the year 2262) overflows. *)
Lemma far_retry_after_overflows now :
  parseRetryAfter "Fri, 31 Dec 9999 23:59:59 GMT" now = Throw overflow.
Proof. vm_compute. reflexivity. Qed.

(** A number of seconds past 2^64 is not read at all. *)
Lemma huge_retry_after_ignored now : parseRetryAfter "99999999999999999999" now = Ok None.
Proof. reflexivity. Qed.

(** ** Witnesses *)

Ltac numbers := vm_compute; repeat split; discriminate.

Module Example_policy.
(** Two requests per second, ten seconds of backoff. *)
Definition settings : LaneSettings := mkSettings (Some (mkRate 2 1)) 0 30 10 0 None None.
Definition p : LanePolicy :=
  mkPolicy "example.com" settings 500000000 500000000 hour (10 * second) 0 0 0 1 "".

Definition at_ms (ms : Z) : Z := ms * 1000000.
Definition run : list Call :=
  [Claim (at_ms 0); Claim (at_ms 100); Claim (at_ms 900); Failed (at_ms 950); Claim (at_ms 1000); Claim (at_ms 11000)].

Lemma made : LanePolicy_make "example.com" settings hour = Ok p.
Proof. reflexivity. Qed.

Lemma p_in_range : in_range p.
Proof. split; numbers. Qed.
End Example_policy.

Lemma claims_keep_the_rate_witness :
  exists p' granted, calls Example_policy.run Example_policy.p = Ok (p', granted)
    /\ granted = Example_policy.at_ms <$> [0; 900; 11000] /\ Example_policy.at_ms 0 + 500000000 <= Example_policy.at_ms 11000.
Proof.
  eexists _, _. split; [vm_compute; reflexivity|]. split; [reflexivity|].
  refine (claims_keep_the_rate Example_policy.run Example_policy.p _ _ 0 1 _ _ _ _ eq_refl _ _);
    [numbers|numbers|reflexivity|reflexivity].
Defined.

Lemma limited_holds_the_lane_witness :
  exists p1 p2 granted, limited (Some "30") 0 0 Example_policy.p = Ok (p1, 30 * second)
    /\ calls [Claim (20 * second); Claim (31 * second)] p1 = Ok (p2, granted)
    /\ Forall (fun g => 0 + 30 * second <= g) granted /\ granted = [31 * second].
Proof.
  eexists _, _, _. split; [vm_compute; reflexivity|]. split; [vm_compute; reflexivity|]. split; [|reflexivity].
  refine (proj1 (limited_holds_the_lane (Some "30") 0 0 (30 * second) [Claim (20 * second); Claim (31 * second)]
    Example_policy.p _ _ _ (Some 30) _ _ eq_refl eq_refl eq_refl)); numbers.
Defined.

Lemma failures_widen_exponentially_witness :
  exists p', fails_after_pauses 2 Example_policy.p p' /\ m_interval p' = 4 * 500000000.
Proof.
  assert (H : exists p', fails_after_pauses 2 Example_policy.p p').
  { eexists. eapply (fails_one_more _ (20 * second)); [eapply (fails_one_more _ 0); [apply fails_none| |]| |];
      [| reflexivity| | reflexivity]; vm_compute; discriminate. }
  destruct H as [p' H]. exists p'. split; [exact H|].
  refine (eq_trans (proj1 (failures_widen_exponentially 2 Example_policy.p p' _ _ eq_refl eq_refl _ H)) _);
    [numbers|vm_compute; reflexivity|numbers|reflexivity].
Defined.

Lemma policy_never_overflows_witness :
  exists p' granted, calls Example_policy.run Example_policy.p = Ok (p', granted) /\ in_range p'.
Proof.
  refine (policy_never_overflows Example_policy.run Example_policy.p Example_policy.p_in_range _).
  unfold Example_policy.run. repeat constructor; cbn; unfold Example_policy.at_ms, horizon; lia.
Defined.

Lemma claim_wait_is_exact_witness :
  exists p', claim 0 Example_policy.p = Ok (p', None) /\ claim 100 p' = Ok (p', Some 499999900)
    /\ exists q w, claim 500000000 p' = Ok (q, w) /\ (w = None <-> 100 + 499999900 <= 500000000).
Proof.
  eexists. split; [reflexivity|]. split; [reflexivity|].
  match goal with |- exists q w, claim _ ?r = _ /\ _ =>
    refine (proj2 (proj2 (claim_wait_is_exact 100 500000000 499999900 r r _ _ _ eq_refl))) end.
  - split; numbers.
  - unfold horizon. lia.
  - unfold horizon. lia.
Defined.

Lemma retry_after_reads_witness :
  parseRetryAfter "120" 0 = Ok (Some 120)
  /\ exists k, parseRetryAfter "Sun, 06 Nov 1994 08:49:37 GMT" 784111770500000000 = Ok (Some k)
     /\ 0 <= k /\ 784111777 * second <= 784111770500000000 + k * second
     /\ (0 < k -> 784111770500000000 + (k - 1) * second < 784111777 * second).
Proof.
  refine (retry_after_reads 120 0 784111770500000000 (mkTm 94 10 6 8 49 37) _ _ _ _ _).
  - unfold size_max. lia.
  - lia.
  - split; cbn; lia.
  - unfold int64_max. lia.
  - vm_compute. split; discriminate.
Defined.
