(* ===== verification/Lane.v ===== *)
(** * Lanes of the downloader: [IDHANDownloader/src/http/Lane.cpp], [LaneShard.cpp]

    A lane queues the requests to one host, hands them to shards (curl
    multi-handles on IO threads) while its policy grants slots and its ceiling
    allows, and arms one wakeup timer when the policy says to wait.  Several
    threads use a lane at once; every critical section, posted task, timer and
    callback is a step of the relation [step], so the theorems hold for every
    interleaving.  What curl does with a transfer is left open: it ends at any
    time with any outcome. *)
From S2P Require Import Prelude LanePolicy.

(** ** Data *)

Record Config := mkConfig {
  max_shards : nat;
  shard_growth_threshold : nat;
  unthrottled_concurrency : nat;
  throttled_concurrency : nat
}.
Definition Config_default : Config := mkConfig 4 8 32 4.

Inductive TransferErrorCode := INVALID_REQUEST | INVALID_URL | TRANSPORT | TOO_LARGE | SINK | CANCELLED | SHUTDOWN.

(** What a callback is given: an error or a response with this status. *)
Inductive Outcome := Error (code : TransferErrorCode) | Response (status : Z).

(** A request: which one, its cancellation flag (shared between requests) and
    whether it streams into a sink. *)
Record Pending := mkPending { id : nat; cancellation : option nat; has_sink : bool }.

Record Gate := mkGate { armed : bool; deadline : Z; gate_generation : Z }.
Record DownloadSample := mkSample { bucket : Z; bytes : Z }.
Definition DownloadSample_default : DownloadSample := mkSample 0 0.

Record Lane := mkLane {
  m_policy : LanePolicy;
  m_config : Config;
  m_queue : list Pending;
  m_shards : list nat;
  m_in_flight : nat;
  m_last_enqueued : Z;
  m_gate : Gate;
  m_download_samples : list DownloadSample;
  m_stopped : bool
}.

Definition Lane_make (policy : LanePolicy) (config : Config) (now : Z) : Lane :=
  mkLane policy config [] [] 0 now (mkGate false 0 0) (replicate 10 DownloadSample_default) false.

(** A shard: what it was assigned, and the transfers curl works on. *)
Record LaneShard := mkShard { m_assigned : nat; m_active : list Pending }.

Inductive Task :=
| Attach (shard : nat)
| Start (shard : nat) (p : Pending)
| CancelShard (shard : nat) (flag : nat)
| ShutdownShard (shard : nat).

(** Calls into the host: a sink is aborted, a callback invoked. *)
Inductive Effect := SinkAborted (id : nat) | Called (id : nat) (o : Outcome).

(** The lane with its surroundings: every shard ever made, the tasks posted to
    IO threads, the deadlines of armed timers, threads about to pump, shards
    about to report a finished transfer, the flags of cancelled requests. *)
Record World := mkWorld {
  lane : Lane;
  shards : list LaneShard;
  tasks : list Task;
  timers : list Z;
  pumps : nat;
  finishing : list nat;
  cancelled : list nat;
  log : list Effect
}.

(** ** Updates *)

Definition set_policy (p : LanePolicy) (l : Lane) : Lane :=
  mkLane p (m_config l) (m_queue l) (m_shards l) (m_in_flight l) (m_last_enqueued l) (m_gate l) (m_download_samples l) (m_stopped l).
Definition set_queue (q : list Pending) (l : Lane) : Lane :=
  mkLane (m_policy l) (m_config l) q (m_shards l) (m_in_flight l) (m_last_enqueued l) (m_gate l) (m_download_samples l) (m_stopped l).
Definition set_shards (ks : list nat) (l : Lane) : Lane :=
  mkLane (m_policy l) (m_config l) (m_queue l) ks (m_in_flight l) (m_last_enqueued l) (m_gate l) (m_download_samples l) (m_stopped l).
Definition set_in_flight (n : nat) (l : Lane) : Lane :=
  mkLane (m_policy l) (m_config l) (m_queue l) (m_shards l) n (m_last_enqueued l) (m_gate l) (m_download_samples l) (m_stopped l).
Definition set_gate (g : Gate) (l : Lane) : Lane :=
  mkLane (m_policy l) (m_config l) (m_queue l) (m_shards l) (m_in_flight l) (m_last_enqueued l) g (m_download_samples l) (m_stopped l).

Definition set_lane (l : Lane) (w : World) : World :=
  mkWorld l (shards w) (tasks w) (timers w) (pumps w) (finishing w) (cancelled w) (log w).
Definition set_table (ss : list LaneShard) (w : World) : World :=
  mkWorld (lane w) ss (tasks w) (timers w) (pumps w) (finishing w) (cancelled w) (log w).
Definition post (t : Task) (w : World) : World :=
  mkWorld (lane w) (shards w) (tasks w ++ [t]) (timers w) (pumps w) (finishing w) (cancelled w) (log w).
Definition set_tasks (ts : list Task) (w : World) : World :=
  mkWorld (lane w) (shards w) ts (timers w) (pumps w) (finishing w) (cancelled w) (log w).
Definition set_timers (ts : list Z) (w : World) : World :=
  mkWorld (lane w) (shards w) (tasks w) ts (pumps w) (finishing w) (cancelled w) (log w).
Definition set_pumps (n : nat) (w : World) : World :=
  mkWorld (lane w) (shards w) (tasks w) (timers w) n (finishing w) (cancelled w) (log w).
Definition set_finishing (ks : list nat) (w : World) : World :=
  mkWorld (lane w) (shards w) (tasks w) (timers w) (pumps w) ks (cancelled w) (log w).
Definition emit (es : list Effect) (w : World) : World :=
  mkWorld (lane w) (shards w) (tasks w) (timers w) (pumps w) (finishing w) (cancelled w) (log w ++ es).

(** Failing a request aborts its sink first. *)
Definition answer (code : TransferErrorCode) (p : Pending) : list Effect :=
  (if has_sink p then [SinkAborted (id p)] else []) ++ [Called (id p) (Error code)].

(** ** The lane *)

Definition ceiling (l : Lane) : nat :=
  Z.to_nat (concurrency (Z.of_nat (unthrottled_concurrency (m_config l))) (Z.of_nat (throttled_concurrency (m_config l))) (m_policy l)).

(** [submit] up to its pump. *)
Definition submit (now : Z) (p : Pending) (w : World) : World :=
  let l := lane w in
  if m_stopped l then emit (answer SHUTDOWN p) w
  else
    set_pumps (S (pumps w))
      (set_lane (mkLane (m_policy l) (m_config l) (m_queue l ++ [p]) (m_shards l) (m_in_flight l) now (m_gate l)
                   (m_download_samples l) (m_stopped l)) w).

Definition has_flag (flag : nat) (p : Pending) : bool := bool_decide (cancellation p = Some flag).

(** [LanePool::cancel] sets the flag and cancels on the lane. *)
Definition cancel (flag : nat) (w : World) : World :=
  let l := lane w in
  let gone := filter (fun p => has_flag flag p = true) (m_queue l) in
  let w := mkWorld (set_queue (filter (fun p => has_flag flag p = false) (m_queue l)) l) (shards w)
             (tasks w ++ ((fun k => CancelShard k flag) <$> m_shards l)) (timers w) (pumps w) (finishing w)
             (flag :: cancelled w) (log w) in
  emit (concat (answer CANCELLED <$> gone)) w.

Definition wake (w : World) : World := set_pumps (S (pumps w)) w.

(** [onTransferFinished] up to its pump, with the count of the shard that
    called it. *)
Definition onTransferFinished (shard : nat) (w : World) : World :=
  let l := lane w in
  let w := set_table (alter (fun s => mkShard (m_assigned s - 1) (m_active s)) shard (shards w)) w in
  set_pumps (S (pumps w)) (set_lane (set_in_flight (m_in_flight l - 1) l) w).

Definition add_shard (w : World) : World :=
  let k := length (shards w) in
  let w := post (Attach k) (set_table (shards w ++ [mkShard 0 []]) w) in
  set_lane (set_shards (m_shards (lane w) ++ [k]) (lane w)) w.

Definition growIfNeeded (w : World) : World :=
  let l := lane w in
  match m_shards l with
  | [] => add_shard w
  | _ =>
      if throttled (m_policy l) || (max_shards (m_config l) <=? length (m_shards l))%nat then w
      else if (m_in_flight l + length (m_queue l) <=? length (m_shards l) * shard_growth_threshold (m_config l))%nat then w
      else add_shard w
  end.

Definition inFlight (w : World) (k : nat) : nat := default O (m_assigned <$> shards w !! k).

(** The first of the least loaded shards. *)
Definition pickShard (w : World) : option nat :=
  match m_shards (lane w) with
  | [] => None
  | first :: rest => Some (foldl (fun best k => if (inFlight w k <? inFlight w best)%nat then k else best) first rest)
  end.

(** [arm] reads the clock again. *)
Definition arm (now wait : Z) (w : World) : World :=
  let l := lane w in
  let until := now + wait in
  let current := generation (m_policy l) in
  if armed (m_gate l) && (gate_generation (m_gate l) =? current) && (deadline (m_gate l) <=? until) then w
  else set_timers (timers w ++ [until]) (set_lane (set_gate (mkGate true until current) l) w).

(** A request leaves the queue for a shard. *)
Definition dispatch (shard : nat) (p : Pending) (rest : list Pending) (w : World) : World :=
  let l := lane w in
  let w := set_lane (set_in_flight (S (m_in_flight l)) (set_queue rest l)) w in
  let w := set_table (alter (fun s => mkShard (S (m_assigned s)) (m_active s)) shard (shards w)) w in
  post (Start shard p) w.

(** The loop of [pump], for the readings [clock] gives. *)
Fixpoint pump_loop (fuel : nat) (clock : nat -> Z) (i : nat) (w : World) : result World :=
  match fuel with
  | O => Ok w
  | S fuel =>
      let l := lane w in
      match m_queue l with
      | [] => Ok w
      | p :: rest =>
          if m_stopped l || (ceiling l <=? m_in_flight l)%nat then Ok w
          else
            '(policy, wait) ← claim (clock i) (m_policy l);
            match wait with
            | Some d => Ok (arm (clock (S i)) d w)
            | None =>
                let w := growIfNeeded (set_lane (set_policy policy l) w) in
                match pickShard w with
                | None => Ok w
                | Some k => pump_loop fuel clock (S (S i)) (dispatch k p rest w)
                end
            end
      end
  end.

Definition pump (clock : nat -> Z) (w : World) : result World :=
  pump_loop (S (length (m_queue (lane w)))) clock 0 w.

(** The body of a timer, up to its pump. *)
Definition timerExpired (d : Z) (w : World) : World :=
  let l := lane w in
  if negb (armed (m_gate l)) || negb (deadline (m_gate l) =? d) then w
  else set_pumps (S (pumps w)) (set_lane (set_gate (mkGate false (deadline (m_gate l)) (gate_generation (m_gate l))) l) w).

Definition retirable (keep_alive now : Z) (l : Lane) : bool :=
  match m_queue l with
  | [] => (m_in_flight l =? 0)%nat && (keep_alive <=? now - m_last_enqueued l)
  | _ => false
  end.

Definition shutdown (w : World) : World :=
  let l := lane w in
  if m_stopped l then w
  else
    let w := mkWorld (mkLane (m_policy l) (m_config l) [] [] (m_in_flight l) (m_last_enqueued l) (m_gate l)
                        (m_download_samples l) true) (shards w)
               (tasks w ++ (ShutdownShard <$> m_shards l)) (timers w) (pumps w) (finishing w) (cancelled w) (log w) in
    emit (concat (answer SHUTDOWN <$> m_queue l)) w.

(** ** The download rate *)

Definition add_bytes (timestamp n : Z) (s : DownloadSample) : DownloadSample :=
  let s := if negb (bucket s =? timestamp) then mkSample timestamp 0 else s in
  mkSample (bucket s) (wrapu 64 (bytes s + n)).

Definition record_bytes (n now : Z) (samples : list DownloadSample) : list DownloadSample :=
  let b := Z.quot (now / 1000000) 100 in
  alter (add_bytes (b * 100 * 1000000) n) (Z.to_nat (wrapu 64 b mod 10)) samples.

Definition onBytesReceived (n now : Z) (l : Lane) : Lane :=
  mkLane (m_policy l) (m_config l) (m_queue l) (m_shards l) (m_in_flight l) (m_last_enqueued l) (m_gate l)
    (record_bytes n now (m_download_samples l)) (m_stopped l).

Definition recent (now : Z) (s : DownloadSample) : bool := (bucket s <=? now) && (now - bucket s <? second).

(** The lane's part of a snapshot. *)
Record LaneStats := mkStats { in_flight : nat; stat_queued : nat; stat_shards : nat; download_bytes_per_second : Z }.
Definition fill (now : Z) (l : Lane) : LaneStats :=
  mkStats (m_in_flight l) (length (m_queue l)) (length (m_shards l))
    (foldl (fun total s => if recent now s then wrapu 64 (total + bytes s) else total) 0 (m_download_samples l)).

(** ** Shards *)

(** [LaneShard::start]; [accepted] says whether curl took the transfer. *)
Definition start_transfer (accepted : bool) (shard : nat) (p : Pending) (w : World) : World :=
  if match cancellation p with Some flag => bool_decide (flag ∈ cancelled w) | None => false end then
    set_finishing (finishing w ++ [shard]) (emit (answer CANCELLED p) w)
  else if accepted then
    set_table (alter (fun s => mkShard (m_assigned s) (m_active s ++ [p])) shard (shards w)) w
  else set_finishing (finishing w ++ [shard]) (emit (answer TRANSPORT p) w).

Definition active_on (w : World) (shard : nat) : list Pending :=
  match shards w !! shard with Some s => m_active s | None => [] end.

(** [LaneShard::finish] for the [i]-th active transfer, up to its report to the
    lane; [aborts] whether it aborted the sink. *)
Definition finish_transfer (o : Outcome) (aborts : bool) (shard i : nat) (w : World) : World :=
  match active_on w shard !! i with
  | None => w
  | Some p =>
      let w := set_table (alter (fun s => mkShard (m_assigned s) (delete i (m_active s))) shard (shards w)) w in
      set_finishing (finishing w ++ [shard])
        (emit ((if has_sink p && aborts then [SinkAborted (id p)] else []) ++ [Called (id p) o]) w)
  end.

(** [LaneShard::cancel], the same for each transfer with the flag. *)
Definition cancel_transfers (flag shard : nat) (w : World) : World :=
  let active := active_on w shard in
  let gone := filter (fun p => has_flag flag p = true) active in
  let w := set_table (alter (fun s => mkShard (m_assigned s) (filter (fun p => has_flag flag p = false) (m_active s)))
                        shard (shards w)) w in
  set_finishing (finishing w ++ replicate (length gone) shard) (emit (concat (answer CANCELLED <$> gone)) w).

(** [LaneShard::shutdown], also what its destructor does. *)
Definition shutdown_shard (shard : nat) (w : World) : World :=
  let active := active_on w shard in
  let w := set_table (alter (fun s => mkShard (m_assigned s - length active) []) shard (shards w)) w in
  emit (concat (answer SHUTDOWN <$> active)) w.

Definition run_task (accepted : bool) (t : Task) (w : World) : World :=
  match t with
  | Attach _ => w
  | Start k p => start_transfer accepted k p w
  | CancelShard k flag => cancel_transfers flag k w
  | ShutdownShard k => shutdown_shard k w
  end.

(** ** Steps

    [given] are the requests submitted so far; a request's callback must be
    called once for each time it was. *)
Inductive step : list nat * World -> list nat * World -> Prop :=
| step_submit given now p w : step (given, w) (given ++ [id p], submit now p w)
| step_cancel given flag w : step (given, w) (given, cancel flag w)
| step_wake given w : step (given, w) (given, wake w)
| step_pump given clock w w' n :
    pumps w = S n -> pump clock (set_pumps n w) = Ok w' -> step (given, w) (given, w')
| step_timer given d w before after :
    timers w = before ++ d :: after -> step (given, w) (given, timerExpired d (set_timers (before ++ after) w))
| step_task given accepted t w before after :
    tasks w = before ++ t :: after -> step (given, w) (given, run_task accepted t (set_tasks (before ++ after) w))
| step_finish given o aborts shard i w : step (given, w) (given, finish_transfer o aborts shard i w)
| step_report given shard w before after :
    finishing w = before ++ shard :: after ->
    step (given, w) (given, onTransferFinished shard (set_finishing (before ++ after) w))
| step_policy given c p granted w :
    call c (m_policy (lane w)) = Ok (p, granted) -> granted = [] ->
    step (given, w) (given, set_lane (set_policy p (lane w)) w)
| step_reset given w : step (given, w) (given, set_lane (set_policy (reset (m_policy (lane w))) (lane w)) w)
| step_bytes given n now w : step (given, w) (given, set_lane (onBytesReceived n now (lane w)) w)
| step_shutdown given w : step (given, w) (given, shutdown w)
| step_release given shard w :
    m_stopped (lane w) = true -> Forall (fun t => match t with Start k _ => k <> shard | _ => True end) (tasks w) ->
    step (given, w) (given, shutdown_shard shard w).

Definition World_make (policy : LanePolicy) (config : Config) (now : Z) : World :=
  mkWorld (Lane_make policy config now) [] [] [] 0 [] [] [].

Inductive reachable (policy : LanePolicy) (config : Config) : list nat -> World -> Prop :=
| reach_make now : reachable policy config [] (World_make policy config now)
| reach_step given w given' w' :
    reachable policy config given w -> step (given, w) (given', w') -> reachable policy config given' w'.

(** ** Where the requests are

    Sums of a weight over requests: the constant 1 counts them, [is_request x] counts
    the submissions of request [x]. *)
Definition weigh (f : Pending -> nat) (l : list Pending) : nat := list_sum (f <$> l).
Definition is_request (x : nat) (p : Pending) : nat := if decide (id p = x) then 1 else 0.
Definition one (_ : Pending) : nat := 1.

Definition started (t : Task) : option Pending := match t with Start _ p => Some p | _ => None end.
Definition called (e : Effect) : option nat := match e with Called x _ => Some x | _ => None end.
Definition occurrences (x : nat) (l : list nat) : nat := length (filter (fun y => y = x) l).

Definition queued (f : Pending -> nat) (w : World) : nat := weigh f (m_queue (lane w)).
Definition posted (f : Pending -> nat) (w : World) : nat := weigh f (omap started (tasks w)).
Definition working (f : Pending -> nat) (w : World) : nat := list_sum ((fun s => weigh f (m_active s)) <$> shards w).
Definition calls_of (x : nat) (es : list Effect) : nat := occurrences x (omap called es).

Lemma weigh_app f a b : weigh f (a ++ b) = (weigh f a + weigh f b)%nat.
Proof. unfold weigh. by rewrite fmap_app, list_sum_app. Qed.

Lemma weigh_cons f p l : weigh f (p :: l) = (f p + weigh f l)%nat.
Proof. done. Qed.

Lemma weigh_nil f : weigh f [] = 0%nat.
Proof. done. Qed.

Lemma weigh_one l : weigh one l = length l.
Proof. induction l as [|p l IH]; [done|]. rewrite weigh_cons, IH. done. Qed.

Lemma weigh_split f (flag : Pending -> bool) l :
  (weigh f (filter (fun p => flag p = true) l) + weigh f (filter (fun p => flag p = false) l) = weigh f l)%nat.
Proof.
  induction l as [|p l IH]; [done|]. rewrite !filter_cons, weigh_cons.
  destruct (flag p); repeat case_decide; try done; rewrite weigh_cons; lia.
Qed.

Lemma weigh_delete f l i p : l !! i = Some p -> (weigh f (delete i l) + f p = weigh f l)%nat.
Proof.
  intros Hi. rewrite delete_take_drop, weigh_app. rewrite <- (take_drop_middle l i p Hi) at 3. rewrite weigh_app, weigh_cons. lia.
Qed.

Lemma occurrences_app x a b : occurrences x (a ++ b) = (occurrences x a + occurrences x b)%nat.
Proof. unfold occurrences. by rewrite filter_app, length_app. Qed.

Lemma calls_of_app x a b : calls_of x (a ++ b) = (calls_of x a + calls_of x b)%nat.
Proof. unfold calls_of. by rewrite omap_app, occurrences_app. Qed.

Lemma calls_of_called x y o : calls_of x [Called y o] = if decide (y = x) then 1%nat else 0%nat.
Proof. unfold calls_of, occurrences. cbn. by destruct (decide (y = x)). Qed.

Lemma calls_of_answer x code p : calls_of x (answer code p) = is_request x p.
Proof.
  unfold answer, is_request. rewrite calls_of_app, calls_of_called. by destruct (has_sink p).
Qed.

Lemma calls_of_answers x code ps : calls_of x (concat (answer code <$> ps)) = weigh (is_request x) ps.
Proof.
  induction ps as [|p ps IH]; [done|]. rewrite fmap_cons, weigh_cons. cbn [concat].
  rewrite calls_of_app, calls_of_answer. by rewrite IH.
Qed.

(** Changing one shard. *)
Lemma sum_alter (f : LaneShard -> nat) g k (ss : list LaneShard) s : ss !! k = Some s ->
  (list_sum (f <$> alter g k ss) + f s = list_sum (f <$> ss) + f (g s))%nat.
Proof.
  intros Hk. apply list_elem_of_split_length in Hk as (a & b & -> & ->).
  rewrite alter_app_r_alt, Nat.sub_diag by lia. cbn [alter list_alter].
  rewrite !fmap_app, !fmap_cons, !list_sum_app. change (list_sum (?x :: ?y)) with (x + list_sum y)%nat. lia.
Qed.

Lemma sum_alter_same (f : LaneShard -> nat) g k (ss : list LaneShard) :
  (forall s, f (g s) = f s) -> list_sum (f <$> alter g k ss) = list_sum (f <$> ss).
Proof.
  intros Hg. destruct (ss !! k) as [s|] eqn:Hk; [pose proof (sum_alter f g k ss s Hk); rewrite Hg in *; lia|].
  assert (Hout : alter g k ss = ss); [|by rewrite Hout].
  revert k Hk. induction ss as [|s ss IH]; intros [|k] Hk; try done. cbn in *. by rewrite IH.
Qed.

(** ** The policy's settings never change in a step *)

Lemma claim_settings now p p' wait : claim now p = Ok (p', wait) -> m_settings p' = m_settings p.
Proof.
  unfold claim. intros H. destruct (now <? m_next_request p); bind_ok H; [by simplify_eq|].
  destruct (now <? _); cbn [mbind result_bind] in H; bind_ok H; by simplify_eq.
Qed.

Lemma call_settings c p p' granted : call c p = Ok (p', granted) -> m_settings p' = m_settings p.
Proof.
  destruct c as [now|ra now wall|now|h]; cbn [call]; intros H.
  - destruct (claim now p) as [[q w]|] eqn:Hc; cbn [mbind result_bind] in H; [|done]. ok_eq H. by eapply claim_settings.
  - destruct (limited ra now wall p) as [[q d]|] eqn:Hc; cbn [mbind result_bind] in H; [|done]. ok_eq H.
    apply limited_advances in Hc as [Ha _]. apply Ha.
  - destruct (failed now p) as [q|] eqn:Hc; cbn [mbind result_bind] in H; [|done]. ok_eq H.
    apply failed_advances in Hc as [Ha _]. apply Ha.
  - ok_eq H. done.
Qed.

Lemma ceiling_settings l l' : m_settings (m_policy l') = m_settings (m_policy l) -> m_config l' = m_config l ->
  ceiling l' = ceiling l.
Proof. intros H1 H2. unfold ceiling, concurrency, throttled. by rewrite H1, H2. Qed.

(** ** What a pump does *)

(** Shards in use exist. *)
Record in_table (w : World) : Prop := {
  table_shards : Forall (fun k => (k < length (shards w))%nat) (m_shards (lane w));
  table_tasks : Forall (fun t => match t with Start k _ => (k < length (shards w))%nat | _ => True end) (tasks w)
}.

Definition gate_pending (w : World) : Prop := armed (m_gate (lane w)) = true -> deadline (m_gate (lane w)) ∈ timers w.

Definition live_task (t : Task) : bool := match t with ShutdownShard _ => false | _ => true end.
Definition shards_live (w : World) : Prop := Forall (fun t => live_task t = true) (tasks w).

(** [moved] left the queue for the shards. *)
Record pumped (moved : list Pending) (w w' : World) : Prop := {
  pumped_queue : m_queue (lane w) = moved ++ m_queue (lane w');
  pumped_posted : omap started (tasks w') = omap started (tasks w) ++ moved;
  pumped_working : forall f, working f w' = working f w;
  pumped_log : log w' = log w;
  pumped_finishing : finishing w' = finishing w;
  pumped_pumps : pumps w' = pumps w;
  pumped_stopped : m_stopped (lane w') = m_stopped (lane w);
  pumped_in_flight : m_in_flight (lane w') = (m_in_flight (lane w) + length moved)%nat;
  pumped_ceiling : ceiling (lane w') = ceiling (lane w);
  pumped_bound : (m_in_flight (lane w) <= ceiling (lane w) -> m_in_flight (lane w') <= ceiling (lane w))%nat;
  pumped_table : in_table w -> in_table w';
  pumped_gate : gate_pending w -> gate_pending w';
  pumped_live : shards_live w -> shards_live w'
}.

Lemma pumped_refl w : pumped [] w w.
Proof. split; rewrite ?app_nil_r; try done; cbn; lia. Qed.

Lemma pumped_trans a b w1 w2 w3 : pumped a w1 w2 -> pumped b w2 w3 -> pumped (a ++ b) w1 w3.
Proof.
  intros [A1 A2 A3 A4 A5 A6 A7 A8 A9 A10 A11 A12 A13] [B1 B2 B3 B4 B5 B6 B7 B8 B9 B10 B11 B12 B13].
  split; try congruence; auto.
  - by rewrite A1, B1, app_assoc.
  - by rewrite B2, A2, app_assoc.
  - rewrite B8, A8, length_app. lia.
  - rewrite A9 in B10. auto.
Qed.

Lemma add_shard_pumped w : pumped [] w (add_shard w) /\ length (shards (add_shard w)) = S (length (shards w))
  /\ m_shards (lane (add_shard w)) = m_shards (lane w) ++ [length (shards w)].
Proof.
  split; [|split; [cbn; rewrite length_app; cbn; lia|done]].
  split; cbn; try done.
  - by rewrite omap_app.
  - intros f. unfold working. cbn. rewrite fmap_app, list_sum_app. cbn. lia.
  - intros [H1 H2]. split; cbn; rewrite length_app; cbn.
    + apply Forall_app. split; [eapply Forall_impl; [exact H1|]; intros; cbn in *; lia|constructor; [lia|done]].
    + apply Forall_app. split; [|by constructor]. eapply Forall_impl; [exact H2|]. intros [] ?; cbn in *; done || lia.
  - intros Hl. apply Forall_app. by split; [|constructor].
Qed.

Lemma growIfNeeded_pumped w : pumped [] w (growIfNeeded w) /\ m_shards (lane (growIfNeeded w)) <> []
  /\ m_queue (lane (growIfNeeded w)) = m_queue (lane w).
Proof.
  destruct (add_shard_pumped w) as (Ha & _ & Hs).
  assert (Hadd : pumped [] w (add_shard w) /\ m_shards (lane (add_shard w)) <> [] /\ m_queue (lane (add_shard w)) = m_queue (lane w)).
  { split; [done|]. split; [rewrite Hs; by destruct (m_shards (lane w))|done]. }
  unfold growIfNeeded. destruct (m_shards (lane w)) as [|k ks] eqn:Hk; [done|].
  assert (Hsame : pumped [] w w /\ m_shards (lane w) <> [] /\ m_queue (lane w) = m_queue (lane w)).
  { split; [apply pumped_refl|]. by rewrite Hk. }
  destruct (_ || _); [done|]. by destruct (_ <=? _)%nat.
Qed.

Lemma pickShard_in w : m_shards (lane w) <> [] -> exists k, pickShard w = Some k /\ k ∈ m_shards (lane w).
Proof.
  intros Hne. unfold pickShard. destruct (m_shards (lane w)) as [|k ks]; [done|]. eexists. split; [done|]. clear Hne.
  assert (H : forall best, foldl (fun best k => if (inFlight w k <? inFlight w best)%nat then k else best) best ks ∈ best :: ks).
  { induction ks as [|j ks IH]; intros best; [cbn; constructor|]. cbn [foldl]. specialize (IH (if (inFlight w j <? inFlight w best)%nat then j else best)).
    apply elem_of_cons in IH as [->|IH].
    - destruct (_ <? _)%nat; rewrite !elem_of_cons; auto.
    - rewrite !elem_of_cons. auto. }
  apply H.
Qed.

Lemma dispatch_pumped k p rest w : m_queue (lane w) = p :: rest -> k ∈ m_shards (lane w) ->
  (m_in_flight (lane w) < ceiling (lane w))%nat -> pumped [p] w (dispatch k p rest w).
Proof.
  intros Hq Hk Hc. split; cbn; try done.
  - by rewrite omap_app.
  - intros f. unfold working. cbn. by rewrite sum_alter_same.
  - lia.
  - intros [H1 H2]. split; cbn; rewrite length_alter; [done|]. apply Forall_app. split; [done|].
    constructor; [|done]. rewrite Forall_forall in H1. by apply H1.
  - intros Hl. apply Forall_app. by split; [|constructor].
Qed.

Lemma arm_pumped now wait w : gate_pending w -> pumped [] w (arm now wait w)
  /\ armed (m_gate (lane (arm now wait w))) = true /\ m_queue (lane (arm now wait w)) = m_queue (lane w).
Proof.
  intros Hg. unfold arm. destruct (_ && _) eqn:E.
  - apply andb_true_iff in E as [E _]. apply andb_true_iff in E as [E _]. split; [apply pumped_refl|done].
  - split; [|done]. split; cbn; rewrite ?app_nil_r; try done; try lia.
    { by intros [? ?]. }
    intros _ _. cbn. apply elem_of_app. right. by apply list_elem_of_singleton.
Qed.

(** Why a pump ends. *)
Definition settled (w : World) : Prop :=
  m_stopped (lane w) = true \/ m_queue (lane w) = [] \/ (ceiling (lane w) <= m_in_flight (lane w))%nat
  \/ armed (m_gate (lane w)) = true.

Lemma pump_loop_spec fuel clock i w w' : (length (m_queue (lane w)) < fuel)%nat -> gate_pending w ->
  pump_loop fuel clock i w = Ok w' -> exists moved, pumped moved w w' /\ settled w'.
Proof.
  revert i w. induction fuel as [|fuel IH]; intros i w Hf Hg H; [lia|]. cbn [pump_loop] in H.
  destruct (m_queue (lane w)) as [|p rest] eqn:Hq.
  { simplify_eq. exists []. split; [apply pumped_refl|]. by right; left. }
  destruct (m_stopped (lane w) || (ceiling (lane w) <=? m_in_flight (lane w))%nat) eqn:Hstop.
  { simplify_eq. exists []. split; [apply pumped_refl|]. apply orb_true_iff in Hstop as [Hs|Hs]; [by left|].
    right. right. left. by apply Nat.leb_le. }
  apply orb_false_iff in Hstop as [_ Hlt]. apply Nat.leb_gt in Hlt.
  destruct (claim (clock i) (m_policy (lane w))) as [[policy wait]|] eqn:Hc; cbn [mbind result_bind] in H; [|done].
  destruct wait as [d|].
  { simplify_eq. destruct (arm_pumped (clock (S i)) d w Hg) as (Ha & Harm & _). exists []. split; [done|]. by do 3 right. }
  set (w1 := set_lane (set_policy policy (lane w)) w) in *.
  assert (H1 : pumped [] w w1).
  { assert (Hceil : ceiling (lane w1) = ceiling (lane w)) by (apply ceiling_settings; [by eapply claim_settings|done]).
    split; cbn; rewrite ?app_nil_r; try done; by intros [? ?]. }
  destruct (growIfNeeded_pumped w1) as (H2 & Hne & Hq2). set (w2 := growIfNeeded w1) in *.
  pose proof (pumped_trans _ _ _ _ _ H1 H2) as H12. cbn [app] in H12.
  destruct (pickShard_in w2 Hne) as (k & Hk & Hin). rewrite Hk in H.
  assert (Hq' : m_queue (lane w2) = p :: rest) by (by rewrite Hq2).
  assert (Hlt' : (m_in_flight (lane w2) < ceiling (lane w2))%nat).
  { rewrite (pumped_in_flight _ _ _ H12), (pumped_ceiling _ _ _ H12). cbn. lia. }
  pose proof (dispatch_pumped k p rest w2 Hq' Hin Hlt') as H3.
  pose proof (pumped_trans _ _ _ _ _ H12 H3) as H123. cbn [app] in H123.
  destruct (IH (S (S i)) (dispatch k p rest w2)) as (moved & Hm & Hset); [cbn in *; lia|by apply (pumped_gate _ _ _ H123)|done|].
  exists (p :: moved). split; [|done]. by apply (pumped_trans _ _ _ _ _ H123 Hm).
Qed.

(** ** The invariant *)

Ltac world := unfold queued, posted, working;
  cbn [lane shards tasks timers pumps finishing cancelled log set_lane set_table post set_tasks set_timers
    set_pumps set_finishing emit m_policy m_config m_queue m_shards m_in_flight m_last_enqueued m_gate
    m_download_samples m_stopped set_policy set_queue set_shards set_in_flight set_gate].

Record consistent (given : list nat) (w : World) : Prop := {
  consistent_placed : forall x, occurrences x given
    = (queued (is_request x) w + posted (is_request x) w + working (is_request x) w + calls_of x (log w))%nat;
  consistent_count : m_stopped (lane w) = false ->
    m_in_flight (lane w) = (posted one w + working one w + length (finishing w))%nat;
  consistent_bound : (m_in_flight (lane w) <= ceiling (lane w))%nat;
  consistent_awake : settled w \/ (0 < pumps w)%nat;
  consistent_gate : gate_pending w;
  consistent_table : in_table w;
  consistent_stopped : m_stopped (lane w) = true -> m_queue (lane w) = [];
  consistent_live : m_stopped (lane w) = false -> shards_live w
}.

Lemma consistent_make policy config now : consistent [] (World_make policy config now).
Proof.
  split; cbn; try done; try lia; [by left; right; left|by constructor].
Qed.

Lemma occurrences_snoc x given p : occurrences x (given ++ [id p]) = (occurrences x given + is_request x p)%nat.
Proof.
  rewrite occurrences_app. f_equal. unfold occurrences, is_request. rewrite filter_cons. by destruct (decide _).
Qed.

(** A step that leaves the lane alone but moves requests towards their calls. *)
Lemma consistent_same_lane given w w' :
  consistent given w -> lane w' = lane w -> timers w' = timers w -> (pumps w <= pumps w')%nat -> in_table w' ->
  (forall x, posted (is_request x) w' + working (is_request x) w' + calls_of x (log w')
     = posted (is_request x) w + working (is_request x) w + calls_of x (log w))%nat ->
  (m_stopped (lane w) = false ->
     posted one w' + working one w' + length (finishing w') = posted one w + working one w + length (finishing w))%nat ->
  (shards_live w -> shards_live w') ->
  consistent given w'.
Proof.
  intros [I1 I2 I3 I4 I5 I6 I7 I8] Hl Ht Hp Htab Hx Hone Hlive.
  split; unfold settled, gate_pending, queued in *; rewrite ?Hl, ?Ht; try done.
  - intros x. rewrite I1. specialize (Hx x). lia.
  - intros Hs. rewrite (I2 Hs). by rewrite Hone.
  - destruct I4; [by left|right; lia].
  - intros Hs. by apply Hlive, I8.
Qed.

Lemma submit_consistent given now p w : consistent given w -> consistent (given ++ [id p]) (submit now p w).
Proof.
  intros [I1 I2 I3 I4 I5 I6 I7 I8]. unfold submit. destruct (m_stopped (lane w)) eqn:Hs.
  - split; try done; [|cbn; by rewrite Hs|by destruct I6|by intros _; apply I7|cbn; by rewrite Hs].
    intros x. rewrite occurrences_snoc, I1. world. rewrite calls_of_app, calls_of_answer. lia.
  - split; world; try done; [|right; world; lia|by destruct I6].
    intros x. rewrite occurrences_snoc, I1. world. rewrite weigh_app, weigh_cons, weigh_nil. lia.
Qed.

Lemma cancel_consistent given flag w : consistent given w -> consistent given (cancel flag w).
Proof.
  intros [I1 I2 I3 I4 I5 I6 I7 I8]. unfold cancel.
  assert (Hst : omap started (tasks w ++ ((fun k => CancelShard k flag) <$> m_shards (lane w))) = omap started (tasks w)).
  { rewrite omap_app. rewrite <- (app_nil_r (omap started (tasks w))) at 2. f_equal. by induction (m_shards (lane w)). }
  split; world; try done.
  - intros x. rewrite I1. world. rewrite calls_of_app, calls_of_answers. rewrite Hst.
    rewrite <- (weigh_split (is_request x) (has_flag flag) (m_queue (lane w))). lia.
  - intros Hs. rewrite (I2 Hs). world. by rewrite Hst.
  - destruct I4 as [[H|[H|H]]|H]; [left; by left| |left; by right; right|by right].
    left. right. left. cbn. by rewrite H.
  - destruct I6 as [H1 H2]. split; world; [done|]. apply Forall_app. split; [done|]. by apply Forall_fmap, Forall_true.
  - intros Hs. by rewrite (I7 Hs).
  - intros Hs. apply Forall_app. split; [by apply I8|]. by apply Forall_fmap, Forall_true.
Qed.

Lemma set_policy_consistent given p w : m_settings p = m_settings (m_policy (lane w)) -> consistent given w ->
  consistent given (set_lane (set_policy p (lane w)) w).
Proof.
  intros Hp [I1 I2 I3 I4 I5 I6 I7 I8].
  assert (Hc : ceiling (set_policy p (lane w)) = ceiling (lane w)) by by apply ceiling_settings.
  split; unfold settled in *; cbn [lane set_lane]; rewrite ?Hc; try done. by destruct I6.
Qed.

Lemma pump_consistent given clock w w' n : pumps w = S n -> pump clock (set_pumps n w) = Ok w' ->
  consistent given w -> consistent given w'.
Proof.
  intros Hn Hpump [I1 I2 I3 I4 I5 I6 I7 I8]. unfold pump in Hpump.
  destruct (pump_loop_spec _ clock 0 (set_pumps n w) w' (Nat.lt_succ_diag_r _) I5 Hpump) as (moved & [P1 P2 P3 P4 P5 P6 P7 P8 P9 P10 P11 P12 P13] & Hset).
  cbn in P1, P2, P4, P5, P7, P8, P9. assert (P3' : forall f, working f w' = working f w) by exact P3. clear P3. rename P3' into P3. split.
  - intros x. rewrite I1, P3, P4. unfold queued, posted. rewrite P1, P2, !weigh_app. lia.
  - rewrite P7. intros Hs. rewrite P8, P3, P5, (I2 Hs). unfold posted. rewrite P2, weigh_app, !weigh_one. lia.
  - rewrite P9. by apply P10.
  - by left.
  - by apply P12.
  - apply P11. by destruct I6.
  - rewrite P7. intros Hs. specialize (I7 Hs). rewrite I7 in P1. by destruct moved.
  - rewrite P7. intros Hs. by apply P13, I8.
Qed.

Lemma timer_consistent given d w before after : timers w = before ++ d :: after ->
  consistent given w -> consistent given (timerExpired d (set_timers (before ++ after) w)).
Proof.
  intros Ht [I1 I2 I3 I4 I5 I6 I7 I8]. unfold timerExpired. cbn [lane set_timers].
  destruct (negb (armed (m_gate (lane w))) || negb (deadline (m_gate (lane w)) =? d)) eqn:E.
  - split; try done; [|by destruct I6]. intros Ha. cbn in *. apply orb_true_iff in E as [E|E]; [by rewrite Ha in E|].
    apply negb_true_iff, Z.eqb_neq in E. specialize (I5 Ha). rewrite Ht in I5.
    rewrite elem_of_app, elem_of_cons in I5. rewrite elem_of_app. naive_solver.
  - split; world; try done; [by right; lia|by destruct I6].
Qed.

Lemma report_consistent given shard w before after : finishing w = before ++ shard :: after ->
  consistent given w -> consistent given (onTransferFinished shard (set_finishing (before ++ after) w)).
Proof.
  intros Hf [I1 I2 I3 I4 I5 I6 I7 I8]. unfold onTransferFinished.
  assert (Hwork : forall f, list_sum ((fun s => weigh f (m_active s)) <$> alter (fun s => mkShard (m_assigned s - 1) (m_active s)) shard (shards w))
    = working f w) by (intros f; by apply sum_alter_same).
  split; unfold settled, gate_pending in *; world; try done.
  - intros x. rewrite I1. world. rewrite Hwork. unfold working. lia.
  - intros Hs. rewrite (I2 Hs), Hf, !length_app. world. rewrite Hwork. unfold working. cbn [length]. lia.
  - change (ceiling (set_in_flight (m_in_flight (lane w) - 1) (lane w))) with (ceiling (lane w)). lia.
  - right. lia.
  - destruct I6 as [H1 H2]. split; world; by rewrite length_alter.
Qed.

Lemma shutdown_consistent given w : consistent given w -> consistent given (shutdown w).
Proof.
  intros HI. pose proof HI as [I1 I2 I3 I4 I5 I6 I7 I8]. unfold shutdown. destruct (m_stopped (lane w)) eqn:Hs; [done|].
  assert (Hst : omap started (tasks w ++ (ShutdownShard <$> m_shards (lane w))) = omap started (tasks w)).
  { rewrite omap_app. rewrite <- (app_nil_r (omap started (tasks w))) at 2. f_equal. by induction (m_shards (lane w)). }
  split; world; try done.
  - intros x. rewrite I1. world. rewrite calls_of_app, calls_of_answers. rewrite Hst, weigh_nil. lia.
  - left. by left.
  - destruct I6 as [H1 H2]. split; world; [done|]. apply Forall_app. split; [done|]. by apply Forall_fmap, Forall_true.
Qed.

(** *** Tasks and shards *)

Lemma omap_taken {A B} (f : A -> option B) (before after : list A) (t : A) :
  omap f (before ++ t :: after) = omap f before ++ match f t with Some b => b :: omap f after | None => omap f after end.
Proof. rewrite omap_app. cbn. by destruct (f t). Qed.

Lemma taken_table w before t after : tasks w = before ++ t :: after -> in_table w ->
  in_table (set_tasks (before ++ after) w)
  /\ match t with Start k _ => (k < length (shards w))%nat | _ => True end.
Proof.
  intros Ht [H1 H2]. rewrite Ht, Forall_app, Forall_cons in H2. destruct H2 as (H2 & H3 & H4).
  split; [|done]. split; [done|]. cbn. by apply Forall_app.
Qed.

Lemma taken_live w before t after : tasks w = before ++ t :: after -> shards_live w ->
  shards_live (set_tasks (before ++ after) w) /\ live_task t = true.
Proof.
  unfold shards_live. intros Ht H. rewrite Ht, Forall_app, Forall_cons in H. destruct H as (H2 & H3 & H4).
  split; [|done]. cbn. by apply Forall_app.
Qed.

(** The sum over the shards when one's transfers change. *)
Lemma working_alter f g k w :
  let ss := alter g k (shards w) in
  (list_sum ((fun s => weigh f (m_active s)) <$> ss) + weigh f (active_on w k)
   = working f w + match shards w !! k with Some s => weigh f (m_active (g s)) | None => 0 end)%nat.
Proof.
  intros ss. unfold active_on, working, ss. destruct (shards w !! k) as [s|] eqn:Hk.
  - pose proof (sum_alter (fun s => weigh f (m_active s)) g k (shards w) s Hk). cbv beta in *. lia.
  - assert (Hout : alter g k (shards w) = shards w); [|rewrite Hout, weigh_nil; lia].
    clear ss. revert k Hk. induction (shards w) as [|s' ss IH]; intros [|k] Hk; try done. cbn in *. by rewrite IH.
Qed.

Lemma in_table_alter g k w w' : lane w' = lane w -> tasks w' = tasks w -> shards w' = alter g k (shards w) ->
  in_table w -> in_table w'.
Proof. intros Hl Ht Hs [H1 H2]. split; rewrite ?Hl, ?Ht, Hs; by rewrite length_alter. Qed.

Lemma cancel_transfers_consistent given flag k w : consistent given w -> consistent given (cancel_transfers flag k w).
Proof.
  intros HI. set (g := fun s => mkShard (m_assigned s) (filter (fun p => has_flag flag p = false) (m_active s))).
  assert (Hw : forall f, (list_sum ((fun s => weigh f (m_active s)) <$> alter g k (shards w))
    + weigh f (filter (fun p => has_flag flag p = true) (active_on w k)) = working f w)%nat).
  { intros f. pose proof (working_alter f g k w) as H. cbn zeta in H. unfold active_on in *.
    destruct (shards w !! k) as [s|]; [|rewrite weigh_nil in *; lia].
    pose proof (weigh_split f (has_flag flag) (m_active s)).
    change (m_active (g s)) with (filter (fun p => has_flag flag p = false) (m_active s)) in H. lia. }
  unfold cancel_transfers. fold g. apply (consistent_same_lane given w); try done.
  - apply (in_table_alter g k w); try done. apply HI.
  - intros x. specialize (Hw (is_request x)). world. rewrite calls_of_app, calls_of_answers. unfold working in Hw. lia.
  - intros _. specialize (Hw one). world. rewrite length_app, length_replicate. rewrite weigh_one in Hw. unfold working in Hw. lia.
Qed.

Lemma shutdown_shard_consistent given k w : m_stopped (lane w) = true -> consistent given w ->
  consistent given (shutdown_shard k w).
Proof.
  intros Hs HI. set (g := fun s => mkShard (m_assigned s - length (active_on w k)) []).
  unfold shutdown_shard. fold g. apply (consistent_same_lane given w); try done.
  - apply (in_table_alter g k w); try done. apply HI.
  - intros x. pose proof (working_alter (is_request x) g k w) as H. cbn zeta in H.
    assert (H0 : match shards w !! k with Some s => weigh (is_request x) (m_active (g s)) | None => 0%nat end = 0%nat)
      by (by destruct (shards w !! k)).
    rewrite H0 in H. world. rewrite calls_of_app, calls_of_answers. unfold working in H. lia.
  - intros Hf. congruence.
Qed.

Lemma finish_transfer_consistent given o aborts k i w : consistent given w -> consistent given (finish_transfer o aborts k i w).
Proof.
  intros HI. unfold finish_transfer. destruct (active_on w k !! i) as [p|] eqn:Hi; [|done].
  set (g := fun s => mkShard (m_assigned s) (delete i (m_active s))).
  assert (Hw : forall f, (list_sum ((fun s => weigh f (m_active s)) <$> alter g k (shards w)) + f p = working f w)%nat).
  { intros f. pose proof (working_alter f g k w) as H. cbn zeta in H. unfold active_on in *.
    destruct (shards w !! k) as [s|]; [|done]. pose proof (weigh_delete f (m_active s) i p Hi).
    change (m_active (g s)) with (delete i (m_active s)) in H. lia. }
  apply (consistent_same_lane given w); try done.
  - apply (in_table_alter g k w); try done. apply HI.
  - intros x. specialize (Hw (is_request x)). world. rewrite !calls_of_app, calls_of_called. unfold working in Hw.
    change (is_request x p) with (if decide (id p = x) then 1 else 0)%nat in Hw. destruct (has_sink p && aborts); cbn; lia.
  - intros _. specialize (Hw one). world. rewrite length_app. change (one p) with 1%nat in Hw. unfold working in Hw. cbn [length]. lia.
Qed.

Lemma start_transfer_consistent given accepted k p w before after :
  tasks w = before ++ Start k p :: after -> consistent given w ->
  consistent given (start_transfer accepted k p (set_tasks (before ++ after) w)).
Proof.
  intros Ht HI. pose proof (taken_table _ _ _ _ Ht (consistent_table _ _ HI)) as [Htab Hk].
  assert (Hposted : forall f, (weigh f (omap started (before ++ after)) + f p = posted f w)%nat).
  { intros f. unfold posted. rewrite Ht, omap_taken, omap_app. cbn [started]. rewrite !weigh_app, weigh_cons. lia. }
  unfold posted in Hposted.
  assert (Hfail : forall code, consistent given
    (set_finishing (finishing (set_tasks (before ++ after) w) ++ [k]) (emit (answer code p) (set_tasks (before ++ after) w)))).
  { intros code. apply (consistent_same_lane given w); try done; [by destruct Htab| | |].
    - intros x. specialize (Hposted (is_request x)). world. rewrite calls_of_app, calls_of_answer. lia.
    - intros _. specialize (Hposted one). world. rewrite length_app. change (one p) with 1%nat in Hposted. cbn [length]. lia.
    - intros Hl. by apply (taken_live _ _ _ _ Ht Hl). }
  unfold start_transfer. destruct (match cancellation p with Some _ => _ | None => _ end); [apply Hfail|].
  destruct accepted; [|apply Hfail].
  set (g := fun s => mkShard (m_assigned s) (m_active s ++ [p])).
  assert (Hw : forall f, (list_sum ((fun s => weigh f (m_active s)) <$> alter g k (shards w)) = working f w + f p)%nat).
  { intros f. pose proof (working_alter f g k w) as H. cbn zeta in H. unfold active_on in *.
    destruct (lookup_lt_is_Some_2 (shards w) k Hk) as [s Hs]. rewrite Hs in H.
    change (m_active (g s)) with (m_active s ++ [p]) in H. rewrite weigh_app, weigh_cons, weigh_nil in H. lia. }
  apply (consistent_same_lane given w); try done.
  - by apply (in_table_alter g k (set_tasks (before ++ after) w)).
  - intros x. specialize (Hposted (is_request x)). specialize (Hw (is_request x)). world. unfold working in Hw. lia.
  - intros _. specialize (Hposted one). specialize (Hw one). world. unfold working in Hw. lia.
  - intros Hl. by apply (taken_live _ _ _ _ Ht Hl).
Qed.

Lemma drop_task_consistent given t w before after :
  tasks w = before ++ t :: after -> started t = None -> consistent given w -> consistent given (set_tasks (before ++ after) w).
Proof.
  intros Ht Hn HI.
  assert (Hposted : forall f, weigh f (omap started (before ++ after)) = posted f w).
  { intros f. unfold posted. by rewrite Ht, omap_taken, omap_app, Hn. }
  apply (consistent_same_lane given w); try done.
  - by apply (taken_table _ _ _ _ Ht), HI.
  - intros x. world. rewrite Hposted. unfold posted. lia.
  - intros _. world. rewrite Hposted. unfold posted. lia.
  - intros Hl. by apply (taken_live _ _ _ _ Ht Hl).
Qed.

Lemma run_task_consistent given accepted t w before after :
  tasks w = before ++ t :: after -> consistent given w ->
  consistent given (run_task accepted t (set_tasks (before ++ after) w)).
Proof.
  intros Ht HI. destruct t as [k|k p|k flag|k]; cbn [run_task].
  - by eapply drop_task_consistent.
  - by apply start_transfer_consistent.
  - apply cancel_transfers_consistent. by eapply drop_task_consistent.
  - apply shutdown_shard_consistent; [|by eapply drop_task_consistent]. cbn.
    destruct (m_stopped (lane w)) eqn:Hs; [done|].
    by destruct (taken_live _ _ _ _ Ht (consistent_live _ _ HI Hs)).
Qed.

Lemma step_consistent given w given' w' : step (given, w) (given', w') -> consistent given w -> consistent given' w'.
Proof.
  intros Hstep HI. inversion Hstep; subst.
  - by apply submit_consistent.
  - by apply cancel_consistent.
  - destruct HI as [I1 I2 I3 I4 I5 I6 I7 I8]. split; try done; [right; cbn; lia|by destruct I6].
  - by eapply pump_consistent.
  - by eapply timer_consistent.
  - by apply run_task_consistent.
  - by apply finish_transfer_consistent.
  - by apply report_consistent.
  - apply set_policy_consistent; [by eapply call_settings|done].
  - by apply set_policy_consistent.
  - destruct HI as [I1 I2 I3 I4 I5 I6 I7 I8]. split; try done. by destruct I6.
  - by apply shutdown_consistent.
  - by apply shutdown_shard_consistent.
Qed.

Lemma reachable_consistent policy config given w : reachable policy config given w -> consistent given w.
Proof. induction 1 as [now|given w given' w' Hr IH Hs]; [apply consistent_make|by eapply step_consistent]. Qed.

(** ** Theorems *)

(** Every transfer that was handed out has come to rest. *)
Definition idle (w : World) : Prop :=
  m_queue (lane w) = [] /\ omap started (tasks w) = [] /\ Forall (fun s => m_active s = []) (shards w).

Lemma idle_weights f w : idle w -> queued f w = 0%nat /\ posted f w = 0%nat /\ working f w = 0%nat.
Proof.
  intros (Hq & Ht & Ha). unfold queued, posted, working. rewrite Hq, Ht. split_and!; [done..|].
  induction Ha as [|s ss Hs Ha IH]; [done|]. rewrite fmap_cons. change (list_sum (?x :: ?y)) with (x + list_sum y)%nat.
  by rewrite Hs, IH.
Qed.

(** C10: whatever the interleaving of submissions, cancellations, timers, IO
    threads and shutdown, a request's callback is never invoked more often than
    the request was submitted, and once the lane is idle it has been invoked
    exactly that often. *)
Theorem requests_answered_once (policy : LanePolicy) (config : Config) (given : list nat) (w : World) (x : nat)
    (Hreach : reachable policy config given w) :
  (calls_of x (log w) <= occurrences x given)%nat
  /\ (idle w -> calls_of x (log w) = occurrences x given).
Proof.
  pose proof (consistent_placed _ _ (reachable_consistent _ _ _ _ Hreach) x) as H. split; [lia|].
  intros Hi. destruct (idle_weights (is_request x) w Hi) as (H1 & H2 & H3). lia.
Qed.

(** C11: a running lane never has more transfers under way than its ceiling, and
    it never stalls: while requests wait, either it is at the ceiling with that
    many transfers still to report, or a wakeup timer is pending, or a thread
    is about to pump. *)
Theorem lane_never_stalls (policy : LanePolicy) (config : Config) (given : list nat) (w : World)
    (Hreach : reachable policy config given w) (Hrunning : m_stopped (lane w) = false) :
  (posted one w + working one w + length (finishing w) <= ceiling (lane w))%nat
  /\ (m_queue (lane w) <> [] ->
      (posted one w + working one w + length (finishing w) = ceiling (lane w))%nat
      \/ (armed (m_gate (lane w)) = true /\ deadline (m_gate (lane w)) ∈ timers w)
      \/ (0 < pumps w)%nat).
Proof.
  destruct (reachable_consistent _ _ _ _ Hreach) as [I1 I2 I3 I4 I5 I6 I7 I8]. specialize (I2 Hrunning). split; [lia|].
  intros Hq. destruct I4 as [[H|[H|[H|H]]]|H]; [congruence|done|left; lia|right; left; by split; [|apply I5]|by right; right].
Qed.

Lemma pump_loop_total fuel clock i w : in_range (m_policy (lane w)) -> (forall n, 0 <= clock n <= horizon) ->
  exists w', pump_loop fuel clock i w = Ok w'.
Proof.
  intros Hr Hc. revert i w Hr. induction fuel as [|fuel IH]; intros i w Hr; [by eexists|]. cbn [pump_loop].
  destruct (m_queue (lane w)) as [|p rest]; [by eexists|]. destruct (_ || _); [by eexists|].
  destruct (call_in_range (Claim (clock i)) (m_policy (lane w)) Hr (Hc i)) as (q & gs & Hq & Hrq).
  cbn [call] in Hq. destruct (claim (clock i) (m_policy (lane w))) as [[policy wait]|]; [|done].
  cbn [mbind result_bind] in *. ok_eq Hq. destruct wait as [d|]; [by eexists|].
  destruct (pickShard _) as [k|]; [|by eexists]. apply IH. cbn. unfold growIfNeeded.
  destruct (m_shards _); [done|]. destruct (_ || _); [done|]. by destruct (_ <=? _)%nat.
Qed.

(** A pump returns, hands the oldest requests to the shards in the order
    they were submitted, each once, and stops only when nothing waits, the
    ceiling is reached, the lane is stopped, or a wakeup is armed. *)
Theorem pump_settles (policy : LanePolicy) (config : Config) (given : list nat) (w : World) (clock : nat -> Z)
    (Hreach : reachable policy config given w) (Hrange : in_range (m_policy (lane w)))
    (Hclock : forall n, 0 <= clock n <= horizon) :
  exists w' moved, pump clock w = Ok w'
    /\ m_queue (lane w) = moved ++ m_queue (lane w')
    /\ omap started (tasks w') = omap started (tasks w) ++ moved
    /\ m_in_flight (lane w') = (m_in_flight (lane w) + length moved)%nat
    /\ settled w'.
Proof.
  destruct (pump_loop_total (S (length (m_queue (lane w)))) clock 0 w Hrange Hclock) as [w' Hw'].
  pose proof (consistent_gate _ _ (reachable_consistent _ _ _ _ Hreach)) as Hg.
  destruct (pump_loop_spec _ clock 0 w w' (Nat.lt_succ_diag_r _) Hg Hw') as (moved & [P1 P2 _ _ _ _ _ P8 _ _ _ _ _] & Hs).
  by exists w', moved.
Qed.

(** *** The download rate *)

Definition receive (events : list (Z * Z)) : list DownloadSample :=
  foldl (fun samples e => record_bytes e.2 e.1 samples) (replicate 10 DownloadSample_default) events.

(** The tenth of a second a time falls into. *)
Definition tenth (t : Z) : Z := t / 100000000.

Definition recently_received (now : Z) (events : list (Z * Z)) : Z :=
  foldr (fun e total => (if now - tenth e.1 * 100000000 <? second then e.2 else 0) + total) 0 events.

Definition rate_of (now : Z) (samples : list DownloadSample) : Z :=
  foldr (fun s total => (if recent now s then bytes s else 0) + total) 0 samples.

Lemma fill_rate now samples :
  foldl (fun total s => if recent now s then wrapu 64 (total + bytes s) else total) 0 samples = wrapu 64 (rate_of now samples).
Proof.
  assert (H : forall acc, wrapu 64 acc = acc ->
    foldl (fun total s => if recent now s then wrapu 64 (total + bytes s) else total) acc samples = wrapu 64 (acc + rate_of now samples)).
  { induction samples as [|s ss IH]; intros acc Ha; cbn [foldl rate_of foldr]; [by rewrite Z.add_0_r|].
    fold (rate_of now ss). destruct (recent now s).
    - rewrite IH by (unfold wrapu; by rewrite Z.mod_mod). unfold wrapu. rewrite Z.add_mod_idemp_l by done. f_equal. lia.
    - rewrite IH by done. by rewrite Z.add_0_l. }
  by rewrite H.
Qed.

(** A slot holds nothing, or a tenth that belongs in it. *)
Definition slot_ok (last : Z) (i : nat) (s : DownloadSample) : Prop :=
  bytes s = 0 \/ exists b, bucket s = b * 100000000 /\ b mod 10 = Z.of_nat i /\ b <= tenth last.

Lemma record_bytes_eq n now samples : 0 <= now <= int64_max ->
  record_bytes n now samples = alter (add_bytes (tenth now * 100000000) n) (Z.to_nat (tenth now mod 10)) samples.
Proof.
  intros Hn. unfold record_bytes, tenth. rewrite Z.quot_div_nonneg, Z.div_div by (lia || (apply Z.div_pos; lia)).
  change (1000000 * 100) with 100000000. unfold wrapu. rewrite (Z.mod_small (now / 100000000) (2 ^ 64)).
  - f_equal. f_equal. lia.
  - split; [apply Z.div_pos; lia|]. eapply Z.le_lt_trans; [apply (Z.div_le_upper_bound _ _ now); lia|].
    unfold int64_max in *. lia.
Qed.

Lemma rate_alter now g k samples s : samples !! k = Some s ->
  rate_of now (alter g k samples) + (if recent now s then bytes s else 0)
    = rate_of now samples + (if recent now (g s) then bytes (g s) else 0).
Proof.
  revert k. induction samples as [|s' ss IH]; intros [|k] Hk; try done.
  - cbn in Hk. simplify_eq. cbn. lia.
  - specialize (IH k Hk). cbn [alter list_alter rate_of foldr] in *. fold (rate_of now ss). fold (rate_of now (alter g k ss)). lia.
Qed.

(** Receiving [n] bytes at [t], none of it late. *)
Lemma receive_step last t n now samples :
  length samples = 10%nat -> 0 <= last <= t -> t <= now -> now <= int64_max ->
  (forall i s, samples !! i = Some s -> slot_ok last i s) ->
  length (record_bytes n t samples) = 10%nat
  /\ (forall i s, record_bytes n t samples !! i = Some s -> slot_ok t i s)
  /\ (rate_of now (record_bytes n t samples)
      - (rate_of now samples + (if now - tenth t * 100000000 <? second then n else 0))) mod 2 ^ 64 = 0.
Proof.
  intros Hlen Hlast Hnow Hmax Hok. rewrite record_bytes_eq by (unfold int64_max in *; lia).
  pose proof (Z.mod_pos_bound (tenth t) 10 ltac:(lia)) as Hm. assert (Hmono : tenth last <= tenth t) by (apply Z.div_le_mono; lia).
  destruct (lookup_lt_is_Some_2 samples (Z.to_nat (tenth t mod 10)) ltac:(lia)) as [s Hs].
  pose proof (Hok _ _ Hs) as Hslot. split_and!.
  - by rewrite length_alter.
  - intros i s' Hi. destruct (decide (Z.to_nat (tenth t mod 10) = i)) as [<-|Hne].
    + rewrite list_lookup_alter_eq, Hs in Hi. cbn in Hi. simplify_eq. right. exists (tenth t).
      split; [|split; [lia|lia]]. unfold add_bytes. destruct (Z.eqb_spec (bucket s) (tenth t * 100000000)); cbn; lia.
    + rewrite list_lookup_alter_ne in Hi by done. destruct (Hok i s' Hi) as [H|(b & H1 & H2 & H3)]; [by left|].
      right. exists b. split_and!; [done|done|lia].
  - pose proof (rate_alter now (add_bytes (tenth t * 100000000) n) _ _ _ Hs) as H.
    assert (Htt : tenth t * 100000000 <= t) by (unfold tenth; pose proof (Z.mul_div_le t 100000000); lia).
    assert (Hdiff : exists k, (if recent now (add_bytes (tenth t * 100000000) n s) then bytes (add_bytes (tenth t * 100000000) n s) else 0)
      - (if recent now s then bytes s else 0) - (if now - tenth t * 100000000 <? second then n else 0) = k * 2 ^ 64).
    { unfold add_bytes. destruct (Z.eqb_spec (bucket s) (tenth t * 100000000)) as [Hb|Hb]; cbn [negb].
      - unfold recent. cbn [bucket bytes]. rewrite Hb, (proj2 (Z.leb_le _ _)) by lia. cbn [andb].
        destruct (_ <? second); [|by exists 0]. exists (- ((bytes s + n) / 2 ^ 64)). unfold wrapu.
        pose proof (Z.div_mod (bytes s + n) (2 ^ 64) ltac:(lia)). lia.
      - assert (Hold : (if recent now s then bytes s else 0) = 0).
        { destruct Hslot as [H0|(b & H1 & H2 & H3)]; [by destruct (recent now s)|]. unfold recent.
          assert (b <> tenth t) by (intros ->; by rewrite H1 in Hb).
          assert (b <= tenth t - 10).
          { pose proof (Z.div_mod b 10 ltac:(lia)). pose proof (Z.div_mod (tenth t) 10 ltac:(lia)). lia. }
          destruct (Z.ltb_spec (now - bucket s) second); [unfold second in *; lia|]. by rewrite andb_false_r. }
        rewrite Hold. unfold recent. cbn [bucket bytes]. rewrite (proj2 (Z.leb_le _ _)) by lia. cbn [andb].
        destruct (_ <? second); [|by exists 0]. exists (- ((0 + n) / 2 ^ 64)). unfold wrapu.
        pose proof (Z.div_mod (0 + n) (2 ^ 64) ltac:(lia)). lia. }
    destruct Hdiff as [k Hk]. replace (_ - _) with (k * 2 ^ 64) by lia. by apply Z.mod_mul.
Qed.

Fixpoint in_order (last : Z) (events : list (Z * Z)) : Prop :=
  match events with [] => True | e :: events => last <= e.1 /\ in_order e.1 events end.

Lemma receive_spec events now samples last :
  length samples = 10%nat -> 0 <= last -> in_order last events -> Forall (fun e => e.1 <= now) events -> last <= now -> now <= int64_max ->
  (forall i s, samples !! i = Some s -> slot_ok last i s) ->
  (rate_of now (foldl (fun samples e => record_bytes e.2 e.1 samples) samples events)
    - (rate_of now samples + recently_received now events)) mod 2 ^ 64 = 0.
Proof.
  revert samples last. induction events as [|e events IH]; intros samples last Hlen Hl Hord Hnow Hlast Hmax Hok.
  { cbn [foldl recently_received foldr]. by replace (_ - _) with 0 by lia. }
  destruct Hord as [He Hord]. apply Forall_cons in Hnow as [Hen Hnow].
  destruct (receive_step last e.1 e.2 now samples Hlen ltac:(lia) ltac:(lia) Hmax Hok) as (Hlen' & Hok' & Hrate).
  specialize (IH _ e.1 Hlen' ltac:(lia) Hord Hnow Hen Hmax Hok'). cbn [foldl recently_received foldr].
  fold (recently_received now events). apply Z.mod_divide in IH as [x Hx]; [|done]. apply Z.mod_divide in Hrate as [y Hy]; [|done].
  apply Z.mod_divide; [done|]. exists (x + y). lia.
Qed.

(** The rate shown for a lane is the number of bytes received in the tenths
    of a second that began within the last second: ten slots are enough, none
    is overwritten while it still counts. *)
Theorem download_rate_is_exact (events : list (Z * Z)) (now : Z) (l : Lane)
    (Horder : in_order 0 events) (Hnow : Forall (fun e => e.1 <= now) events) (Hmax : 0 <= now <= int64_max)
    (Hsamples : m_download_samples l = receive events) :
  download_bytes_per_second (fill now l) = wrapu 64 (recently_received now events).
Proof.
  cbn [fill download_bytes_per_second]. rewrite Hsamples, fill_rate.
  assert (Hslots : forall i s, replicate 10 DownloadSample_default !! i = Some s -> slot_ok 0 i s).
  { intros i s Hi. left. by apply lookup_replicate in Hi as [-> _]. }
  pose proof (receive_spec events now (replicate 10 DownloadSample_default) 0 eq_refl ltac:(done) Horder Hnow
    ltac:(lia) ltac:(lia) Hslots) as H.
  fold (receive events) in H. assert (Hzero : rate_of now (replicate 10 DownloadSample_default) = 0).
  { cbn. by destruct (recent now DownloadSample_default). }
  rewrite Hzero in H. apply Z.mod_divide in H as [x Hx]; [|done].
  unfold wrapu. replace (rate_of now (receive events)) with (recently_received now events + x * 2 ^ 64) by lia.
  by apply Z.mod_add.
Qed.

(** ** Witnesses *)

Module Example_lane.
Definition policy : LanePolicy := Example_policy.p.
Definition clock (i : nat) : Z := Example_policy.at_ms (Z.min 1000 (Z.of_nat i * 100)).
Definition request (n : nat) : Pending := mkPending n (Some 7%nat) true.

Definition w1 : World := submit 0 (request 1) (World_make policy Config_default 0).
Definition w2 : World := submit 0 (request 2) w1.
(** The first request is handed out, the second has to wait. *)
Definition w3 : World := match pump clock (set_pumps 1 w2) with Ok w => w | Throw _ => w2 end.

Lemma reached : reachable policy Config_default [1; 2]%nat w3.
Proof.
  eapply reach_step; [eapply (reach_step _ _ [1%nat] w1); [eapply (reach_step _ _ [] (World_make policy Config_default 0));
    [apply reach_make|exact (step_submit [] 0 (request 1) _)]|exact (step_submit [1%nat] 0 (request 2) w1)]|].
  apply (step_pump _ clock _ _ 1); vm_compute; reflexivity.
Qed.

(** Cancelled: the waiting request at once, the other by its shard. *)
Definition w4 : World := cancel 7 w3.
Definition w5 : World := run_task true (Start 0 (request 1)) (set_tasks [Attach 0; CancelShard 0 7] w4).

Lemma reached_end : reachable policy Config_default [1; 2]%nat w5.
Proof.
  eapply reach_step; [eapply reach_step; [apply reached|apply (step_cancel _ 7)]|].
  by apply (step_task _ true (Start 0 (request 1)) w4 [Attach 0] [CancelShard 0 7]).
Qed.
End Example_lane.

Lemma requests_answered_once_witness :
  calls_of 1 (log Example_lane.w5) = 1%nat /\ calls_of 2 (log Example_lane.w5) = 1%nat.
Proof.
  assert (Hi : idle Example_lane.w5) by (split_and!; [reflexivity|reflexivity|repeat constructor]).
  split.
  - exact (proj2 (requests_answered_once _ _ _ _ 1 Example_lane.reached_end) Hi).
  - exact (proj2 (requests_answered_once _ _ _ _ 2 Example_lane.reached_end) Hi).
Defined.

Lemma lane_never_stalls_witness :
  m_queue (lane Example_lane.w3) = [Example_lane.request 2]
  /\ (posted one Example_lane.w3 + working one Example_lane.w3 + length (finishing Example_lane.w3)
      <= ceiling (lane Example_lane.w3))%nat
  /\ armed (m_gate (lane Example_lane.w3)) = true.
Proof.
  split; [vm_compute; reflexivity|]. split; [|vm_compute; reflexivity].
  exact (proj1 (lane_never_stalls _ _ _ _ Example_lane.reached eq_refl)).
Defined.

Lemma pump_settles_witness :
  exists w' moved, pump Example_lane.clock Example_lane.w3 = Ok w'
    /\ m_queue (lane Example_lane.w3) = moved ++ m_queue (lane w')
    /\ omap started (tasks w') = omap started (tasks Example_lane.w3) ++ moved
    /\ m_in_flight (lane w') = (m_in_flight (lane Example_lane.w3) + length moved)%nat /\ settled w'.
Proof.
  refine (pump_settles _ _ _ Example_lane.w3 Example_lane.clock Example_lane.reached _ _).
  - split; vm_compute; repeat split; discriminate.
  - intros n. unfold Example_lane.clock, Example_policy.at_ms, horizon. lia.
Defined.

Lemma download_rate_is_exact_witness :
  let events := [(50000000, 100); (950000000, 200); (1040000000, 300)] in
  let l := foldl (fun l e => onBytesReceived e.2 e.1 l) (Lane_make Example_policy.p Config_default 0) events in
  download_bytes_per_second (fill 1050000000 l) = 500.
Proof.
  intros events l.
  rewrite (download_rate_is_exact events 1050000000 l); [reflexivity| | | |reflexivity].
  - cbn. lia.
  - repeat constructor; cbn; lia.
  - unfold int64_max. lia.
Defined.
