(* ===== verification/Drain.v ===== *)
(** * The drain registry: waiting for admitted work to end

    [DrainRegistry.cpp] of the runtime.  A registry counts the registrations
    that have not been released; after admission is closed the last release
    posts a baton on which a drain waits.  A release takes its decision under
    the mutex and posts after leaving it, so the two are separate steps and
    other threads run in between. *)
From stdpp Require Import relations.
From S2P Require Import Prelude.

(** [WorkRegistration::State]; [posted] is the baton. *)
Record State := mkState { count : Z; closed : bool; posted : bool }.

(** A [WorkRegistration] object: whether it still holds the state. *)
Record Registry := mkRegistry {
  state : State;
  objects : gmap nat bool;
  (* threads that left [release] or [close] with [finished] and have not posted *)
  finishing : nat
}.

Definition Registry_make : Registry := mkRegistry (mkState 0 false false) ∅ 0.

(** ** Critical sections *)

(** The locked part of [release]: the new state and [finished]. *)
Definition release_locked (s : State) : State * bool :=
  let count := wrapu 64 (count s - 1) in
  (mkState count (closed s) (posted s), closed s && (count =? 0)).

Definition close_locked (s : State) : State * bool := (mkState (count s) true (posted s), count s =? 0).

Definition admit_locked (s : State) : State * bool :=
  if closed s then (s, false) else (mkState (wrapu 64 (count s + 1)) (closed s) (posted s), true).

Definition child_locked (s : State) : State := mkState (wrapu 64 (count s + 1)) (closed s) (posted s).

(** ** Members *)

Definition finish (finished : bool) (n : nat) : nat := if finished then S n else n.

(** [DrainRegistry::admit], its registration stored in the object [id]. *)
Definition admit_work (id : nat) (r : Registry) : Registry :=
  match admit_locked (state r) with
  | (s, true) => mkRegistry s (<[id := true]> (objects r)) (finishing r)
  | (s, false) => mkRegistry s (objects r) (finishing r)
  end.

(** [WorkRegistration::child]; [logic_error] from a moved-from parent. *)
Definition child (parent id : nat) (r : Registry) : result Registry :=
  if default false (objects r !! parent) then
    Ok (mkRegistry (child_locked (state r)) (<[id := true]> (objects r)) (finishing r))
  else Throw (logic_error "Cannot register a child of moved-from work").

(** What the destructor and an assignment do to the state an object holds. *)
Definition drop_state (id : nat) (r : Registry) : Registry :=
  if default false (objects r !! id) then
    let '(s, finished) := release_locked (state r) in
    mkRegistry s (<[id := false]> (objects r)) (finish finished (finishing r))
  else r.

(** [~WorkRegistration] *)
Definition destroy (id : nat) (r : Registry) : Registry :=
  let r := drop_state id r in mkRegistry (state r) (delete id (objects r)) (finishing r).

(** The move constructor, into a new object. *)
Definition move_new (from id : nat) (r : Registry) : Registry :=
  mkRegistry (state r) (<[from := false]> (<[id := default false (objects r !! from)]> (objects r))) (finishing r).

(** [operator=( WorkRegistration&& )] *)
Definition move_assign (from id : nat) (r : Registry) : Registry :=
  if (from =? id)%nat then r
  else
    let r := drop_state id r in
    mkRegistry (state r) (<[from := false]> (<[id := default false (objects r !! from)]> (objects r))) (finishing r).

(** [closeAdmission], also the first half of [drain]. *)
Definition closeAdmission (r : Registry) : Registry :=
  let '(s, finished) := close_locked (state r) in mkRegistry s (objects r) (finish finished (finishing r)).

(** [drained.post()] by one of the threads that found the work finished. *)
Definition post (r : Registry) : Registry :=
  match finishing r with
  | O => r
  | S n => mkRegistry (mkState (count (state r)) (closed (state r)) true) (objects r) n
  end.

Definition outstanding (r : Registry) : Z := count (state r).

(** A waiter of [drain] resumes once the baton is posted. *)
Definition drained (r : Registry) : bool := closed (state r) && posted (state r).

(** ** Interleavings *)

(** Objects are created where there is none and used while they exist; fewer
    than 2^64 exist at a time. *)
Inductive step : Registry -> Registry -> Prop :=
| step_admit id r : objects r !! id = None -> Z.of_nat (size (objects r)) < size_max -> step r (admit_work id r)
| step_child parent id r r' : objects r !! id = None -> Z.of_nat (size (objects r)) < size_max -> child parent id r = Ok r' -> step r r'
| step_destroy id r : is_Some (objects r !! id) -> step r (destroy id r)
| step_move_new from id r : is_Some (objects r !! from) -> objects r !! id = None -> Z.of_nat (size (objects r)) < size_max -> step r (move_new from id r)
| step_move_assign from id r : is_Some (objects r !! from) -> is_Some (objects r !! id) -> step r (move_assign from id r)
| step_close r : step r (closeAdmission r)
| step_post r : step r (post r).

Definition reachable : Registry -> Prop := rtc step Registry_make.

(** The objects that hold the state. *)
Definition live (m : gmap nat bool) : gmap nat bool := filter (fun e => snd e = true) m.
Definition live_count (r : Registry) : Z := Z.of_nat (size (live (objects r))).

Lemma live_insert_true id m : live (<[id := true]> m) = <[id := true]> (live m).
Proof. by apply map_filter_insert_True. Qed.

Lemma live_insert_false id m : live (<[id := false]> m) = delete id (live m).
Proof. unfold live. rewrite map_filter_insert_False by done. by rewrite map_filter_delete. Qed.

Lemma live_lookup id m : live m !! id = if default false (m !! id) then Some true else None.
Proof. unfold live. rewrite map_lookup_filter. destruct (m !! id) as [[]|]; done. Qed.

Lemma live_size_le m : (size (live m) <= size m)%nat.
Proof. apply map_subseteq_size, map_filter_subseteq. Qed.

Lemma size_live_insert id m : default false (m !! id) = false -> size (live (<[id := true]> m)) = S (size (live m)).
Proof. intros H. rewrite live_insert_true, map_size_insert_None; [done|]. by rewrite live_lookup, H. Qed.

Lemma size_live_drop id m : default false (m !! id) = true -> size (live m) = S (size (live (<[id := false]> m))).
Proof.
  intros H. rewrite live_insert_false. assert (Hl : live m !! id = Some true) by by rewrite live_lookup, H.
  rewrite map_size_delete_Some by by exists true. pose proof (map_size_non_empty_iff (live m)) as Hne.
  destruct (size (live m)); [|cbn; lia]. exfalso. apply Hne; [|done]. intros He. by rewrite He in Hl.
Qed.

Lemma live_delete_dead id m : default false (m !! id) = false -> live (delete id m) = live m.
Proof.
  intros H. unfold live. rewrite map_filter_delete. apply delete_id. change (live m !! id = None). by rewrite live_lookup, H.
Qed.

(** ** The invariant *)

Record inv (r : Registry) : Prop := {
  inv_count : count (state r) = live_count r;
  inv_bound : live_count r <= size_max;
  inv_posted : posted (state r) = true \/ (0 < finishing r)%nat -> closed (state r) = true /\ live_count r = 0;
  inv_no_lost : closed (state r) = true -> live_count r = 0 -> posted (state r) = true \/ (0 < finishing r)%nat
}.

Lemma inv_make : inv Registry_make.
Proof. split; cbn; try done. by intros [|]; [|lia]. Qed.

(** Releasing one of the live objects. *)
Lemma inv_drop id r : inv r -> inv (drop_state id r).
Proof.
  intros [H1 H2 H3 H4]. unfold drop_state. destruct (default false (objects r !! id)) eqn:Hl; [|by split].
  pose proof (size_live_drop id _ Hl) as Hs. unfold live_count, release_locked in *. rewrite H1, Hs in *.
  assert (Hw : wrapu 64 (Z.of_nat (S (size (live (<[id:=false]> (objects r))))) - 1) = Z.of_nat (size (live (<[id:=false]> (objects r))))).
  { unfold wrapu, size_max in *. rewrite Z.mod_small; lia. }
  rewrite Hw. set (n := size (live (<[id:=false]> (objects r)))) in *.
  assert (Hbusy : ~ (posted (state r) = true \/ (0 < finishing r)%nat)) by (intros H; destruct (H3 H); lia).
  split; unfold live_count; cbn [state objects finishing count closed posted]; fold n; [done|lia| |].
  - intros [Hp|Hp]; [by destruct Hbusy; left|]. unfold finish in Hp. destruct (closed (state r)) eqn:Hc; cbn [andb] in Hp.
    + destruct (Z.eqb_spec (Z.of_nat n) 0); [done|]. by destruct Hbusy; right.
    + by destruct Hbusy; right.
  - intros Hc Hz. right. rewrite Hc, Hz. cbn. lia.
Qed.

Lemma drop_state_dead id r : default false (objects (drop_state id r) !! id) = false.
Proof.
  unfold drop_state. destruct (default false (objects r !! id)) eqn:Hl; [|done]. destruct (release_locked (state r)).
  cbn. by rewrite lookup_insert_eq.
Qed.

(** Objects that change without the set of live ones growing or shrinking. *)
Lemma inv_objects r m : inv r -> size (live m) = size (live (objects r)) -> inv (mkRegistry (state r) m (finishing r)).
Proof. intros [H1 H2 H3 H4] Hs. unfold live_count in *. split; unfold live_count; cbn [state objects finishing]; rewrite ?Hs; done. Qed.

Lemma inv_grow r m s : inv r -> size (live m) = S (size (live (objects r))) -> Z.of_nat (size (live m)) <= size_max ->
  s = mkState (wrapu 64 (count (state r) + 1)) (closed (state r)) (posted (state r)) ->
  (closed (state r) = true -> 0 < live_count r) -> inv (mkRegistry s m (finishing r)).
Proof.
  intros [H1 H2 H3 H4] Hs Hb -> Hc. unfold live_count in *.
  assert (Hidle : ~ (posted (state r) = true \/ (0 < finishing r)%nat)).
  { intros H. destruct (H3 H) as [Hcl Hz]. specialize (Hc Hcl). lia. }
  split; unfold live_count; cbn [state objects finishing count closed posted]; try done.
  - rewrite H1, Hs in *. unfold wrapu, size_max in *. rewrite Z.mod_small; lia.
  - intros Hcl Hz. lia.
Qed.

Lemma size_live_move from id m : default false (m !! id) = false -> is_Some (m !! from) -> from <> id ->
  size (live (<[from := false]> (<[id := default false (m !! from)]> m))) = size (live m).
Proof.
  intros Hid [b Hb] Hne. rewrite Hb. cbn [default]. destruct b.
  - assert (Hin : default false (<[id := true]> m !! from) = true) by by rewrite lookup_insert_ne, Hb.
    pose proof (size_live_drop from _ Hin). pose proof (size_live_insert id m Hid). cbn. lia.
  - cbn. rewrite live_insert_false, delete_id; [|by rewrite live_lookup, lookup_insert_ne, Hb].
    rewrite live_insert_false, delete_id; [done|]. by rewrite live_lookup, Hid.
Qed.

Lemma drain_inv_step r r' : inv r -> step r r' -> inv r'.
Proof.
  intros Hinv Hstep. destruct Hstep as [id r Hn Hsz|parent id r r' Hn Hsz Hc|id r Hid|from id r Hf Hn Hsz|from id r Hf Hid|r|r].
  - unfold admit_work, admit_locked. destruct (closed (state r)) eqn:Hcl; [by apply inv_objects|].
    assert (Hg : size (live (<[id := true]> (objects r))) = S (size (live (objects r)))) by (apply size_live_insert; by rewrite Hn).
    eapply inv_grow; [done|done| |by rewrite Hcl|congruence]. rewrite Hg. pose proof (live_size_le (objects r)). lia.
  - unfold child in Hc. destruct (default false (objects r !! parent)) eqn:Hp; [|done]. injection Hc as <-.
    assert (Hg : size (live (<[id := true]> (objects r))) = S (size (live (objects r)))) by (apply size_live_insert; by rewrite Hn).
    eapply inv_grow; [done|done| |done|].
    + rewrite Hg. pose proof (live_size_le (objects r)). lia.
    + intros _. unfold live_count. rewrite (size_live_drop parent) by done. lia.
  - unfold destroy. apply inv_objects; [by apply inv_drop|]. by rewrite live_delete_dead by apply drop_state_dead.
  - apply inv_objects; [done|]. apply size_live_move; [by rewrite Hn|done|]. intros ->. destruct Hf. congruence.
  - unfold move_assign. destruct (Nat.eqb_spec from id) as [|Hne]; [done|]. apply inv_objects; [by apply inv_drop|].
    apply size_live_move; [apply drop_state_dead| |done]. unfold drop_state. destruct (default false _); [|done].
    destruct (release_locked _). cbn. by rewrite lookup_insert_ne.
  - destruct Hinv as [H1 H2 H3 H4]. unfold closeAdmission, close_locked. split; unfold live_count in *; cbn [state objects finishing count closed posted]; try done.
    + rewrite H1. unfold finish. destruct (Z.eqb_spec (Z.of_nat (size (live (objects r)))) 0); [by intros _; split|].
      intros H. split; [done|]. apply H3. exact H.
    + intros _ Hz. right. rewrite H1, Hz. cbn. lia.
  - unfold post. destruct (finishing r) as [|n] eqn:Hf; [done|]. destruct Hinv as [H1 H2 H3 H4].
    split; unfold live_count in *; cbn [state objects finishing count closed posted]; try done.
    + intros _. apply H3. right. lia.
    + intros _ _. by left.
Qed.

Lemma reachable_inv r : reachable r -> inv r.
Proof.
  unfold reachable. intros H. assert (Hgen : forall a b, rtc step a b -> inv a -> inv b).
  { induction 1 as [a|a b c Hab _ IH]; [done|]. intros Ha. apply IH. by eapply drain_inv_step. }
  by apply (Hgen Registry_make), inv_make.
Qed.

(** Once drained, always drained: no step admits work again. *)
Lemma drained_step r r' : inv r -> drained r = true -> step r r' -> drained r' = true.
Proof.
  unfold drained. rewrite !andb_true_iff. intros Hinv [Hc Hp] Hstep.
  assert (Hz : live_count r = 0) by (apply (inv_posted _ Hinv); by left).
  destruct Hstep as [id r Hn Hsz|parent id r r' Hn Hsz Hch|id r Hid|from id r Hf Hn Hsz|from id r Hf Hid|r|r].
  - unfold admit_work, admit_locked. by rewrite Hc.
  - unfold child in Hch. destruct (default _ _); [|done]. by injection Hch as <-.
  - unfold destroy, drop_state. by destruct (default false (objects r !! id)).
  - done.
  - unfold move_assign, drop_state. destruct (from =? id)%nat; [done|]. by destruct (default false (objects r !! id)).
  - done.
  - unfold post. by destruct (finishing r).
Qed.

(** ** What a drain promises *)

(** C17: however admissions, children, moves, releases, closes and posts of any
    number of threads interleave, a drain that resumes finds no registration
    left, and none is ever admitted afterwards. *)
Theorem drain_waits_for_all_work r r' : reachable r -> drained r = true -> rtc step r r' ->
  outstanding r = 0 /\ live_count r = 0 /\ drained r' = true /\ live_count r' = 0.
Proof.
  intros Hr Hd Hsteps. pose proof (reachable_inv r Hr) as Hinv.
  assert (Hz : forall r, inv r -> drained r = true -> live_count r = 0).
  { intros x Hx [_ Hp]%andb_true_iff. apply (inv_posted _ Hx). by left. }
  unfold outstanding. rewrite (inv_count _ Hinv). split_and!; try by apply Hz.
  - induction Hsteps as [|a b c Hab _ IH]; [done|]. apply IH; [by eapply rtc_r|by eapply drained_step|by eapply drain_inv_step].
  - induction Hsteps as [|a b c Hab _ IH]; [by apply Hz|].
    apply IH; [by eapply rtc_r|by eapply drained_step|by eapply drain_inv_step].
Qed.

(** No wake-up is lost: once admission is closed and the last registration
    is gone, the baton is posted, at the latest when the thread that saw the
    work finished runs its next step. *)
Theorem drain_is_woken r : reachable r -> closed (state r) = true -> live_count r = 0 ->
  drained r = true \/ (0 < finishing r)%nat /\ drained (post r) = true.
Proof.
  intros Hr Hc Hz. pose proof (reachable_inv r Hr) as Hinv. unfold drained. rewrite Hc.
  destruct (inv_no_lost _ Hinv Hc Hz) as [Hp|Hf]; [by left; rewrite Hp|right]. split; [done|]. unfold post.
  destruct (finishing r); [lia|]. cbn. by rewrite Hc.
Qed.

(** ** Witnesses *)

Definition sample_closed : Registry := destroy 0 (closeAdmission (admit_work 0 Registry_make)).

Lemma sample_reachable : reachable sample_closed.
Proof.
  unfold reachable, sample_closed. eapply rtc_l; [by apply (step_admit 0)|]. eapply rtc_l; [apply step_close|].
  eapply rtc_l; [|apply rtc_refl]. apply step_destroy. by eexists.
Qed.

Lemma drain_waits_for_all_work_witness : live_count (admit_work 1 (post sample_closed)) = 0.
Proof.
  refine (proj2 (proj2 (proj2 (drain_waits_for_all_work (post sample_closed) (admit_work 1 (post sample_closed)) _ _ _)))).
  - eapply rtc_r; [apply sample_reachable|apply step_post].
  - reflexivity.
  - eapply rtc_l; [by apply (step_admit 1)|apply rtc_refl].
Defined.

Lemma drain_is_woken_witness : drained sample_closed = true \/ (0 < finishing sample_closed)%nat /\ drained (post sample_closed) = true.
Proof. apply (drain_is_woken sample_closed); [apply sample_reachable|reflexivity|reflexivity]. Defined.
