(* ===== verification/HttpParams.v ===== *)
(** * Request parameters

    [RequestParameters.hpp], [RequestParameters.cpp] and the query half of
    [ParameterRules.cpp] of [IDHANHttp]: splitting and decoding a query string,
    reading a parameter as a string, a Boolean or an integer of a given width,
    and the names a route does not declare.

    Percent decoding is folly's and UTF-8 validation simdjson's: [UriCodec]. *)
From S2P Require Import Prelude StringView.
From Stdlib Require Import Ascii.
From Stdlib Require String.

(** [folly::tryUriUnescape] in its two modes and [simdjson::validate_utf8]. *)
Class UriCodec := {
  unescape_query : string -> option string;
  unescape_path : string -> option string;
  validate_utf8 : string -> bool
}.

Record ParseError := mkParseError { field : string; message : string }.

(** [std::expected] with a [ParseError]. *)
Definition expected (A : Type) : Type := ParseError + A.

#[export] Instance expected_ret : MRet expected := fun A => inr.
#[export] Instance expected_bind : MBind expected := fun A B f m => match m with inl e => inl e | inr a => f a end.

Definition nul : ascii := ascii_of_nat 0.

(** ** The parameters of a request *)

(** [m_values], in the order of the request. *)
Definition RequestParameters : Type := list (string * string).

Definition append (parameters : RequestParameters) (name value : string) : RequestParameters := parameters ++ [(name, value)].

Section query.
Context {U : UriCodec}.

Definition decode (encoded : string) : expected string :=
  match unescape_query encoded with
  | None => inl (mkParseError "query" "has an invalid percent escape")
  | Some decoded =>
      match find_char nul decoded with
      | Some _ => inl (mkParseError "query" "must not contain NUL")
      | None => inr decoded
      end
  end.

(** The text of [field] after its separator. *)
Definition after (separator : option nat) (field : string) : string :=
  match separator with Some i => sdrop (i + 1) field | None => EmptyString end.

(** The loop of [parseQuery]; [query] is the text from [start] on. *)
Fixpoint parseQuery_loop (fuel : nat) (query : string) (parameters : RequestParameters) : expected RequestParameters :=
  match fuel with
  | O => inr parameters
  | S fuel =>
      if sempty query then inr parameters
      else
        let end_ := find_char "&" query in
        let field := sprefix end_ query in
        if sempty field then parseQuery_loop fuel (after end_ query) parameters
        else
          let separator := find_char "=" field in
          name ← decode (sprefix separator field);
          value ← decode (after separator field);
          let parameters := append parameters name value in
          match end_ with
          | None => inr parameters
          | Some _ => parseQuery_loop fuel (after end_ query) parameters
          end
  end.

Definition parseQuery (query : string) : expected RequestParameters := parseQuery_loop (S (String.length query)) query [].
End query.

(** ** Reading a parameter *)

(** The types handlers ask for: an integer type is its signedness and width. *)
Inductive ParameterType := TString | TBool | TInt (signed : bool) (width : Z).
Inductive ParameterValue := VString (s : string) | VBool (b : bool) | VInt (z : Z).

Definition int_min (signed : bool) (width : Z) : Z := if signed then - 2 ^ (width - 1) else 0.
Definition int_max (signed : bool) (width : Z) : Z := if signed then 2 ^ (width - 1) - 1 else 2 ^ width - 1.

(** [std::from_chars] over all of the text: a minus sign only for a signed
    type, then digits, and a value the type holds. *)
Definition from_chars_integer (signed : bool) (width : Z) (text : string) : option Z :=
  let '(negative, rest) :=
    match text with
    | String c rest => if signed && (c =? "-")%char then (true, rest) else (false, text)
    | EmptyString => (false, text)
    end in
  let '(magnitude, taken) := read_digits 0 rest in
  let value := if negative : bool then - magnitude else magnitude in
  if (0 <? taken)%nat && (taken =? String.length rest)%nat
     && (int_min signed width <=? value) && (value <=? int_max signed width) then Some value else None.

Definition parseParameter (T : ParameterType) (name text : string) : expected ParameterValue :=
  match T with
  | TString => inr (VString text)
  | TBool =>
      if String.eqb text "true" || String.eqb text "1" then inr (VBool true)
      else if String.eqb text "false" || String.eqb text "0" then inr (VBool false)
      else inl (mkParseError name "must be true, false, 1, or 0")
  | TInt signed width =>
      match from_chars_integer signed width text with
      | Some value => inr (VInt value)
      | None => inl (mkParseError name "must be a valid value")
      end
  end.

(** The shared loop of [scalar] and [optional]: the one value of the name. *)
Fixpoint single (name : string) (parameters : RequestParameters) (result : option string) : expected (option string) :=
  match parameters with
  | [] => inr result
  | (key, value) :: parameters =>
      if negb (String.eqb key name) then single name parameters result
      else match result with
      | Some _ => inl (mkParseError name "must not be repeated")
      | None => single name parameters (Some value)
      end
  end.

Definition scalar (T : ParameterType) (name : string) (parameters : RequestParameters) : expected ParameterValue :=
  result ← single name parameters None;
  match result with
  | None => inl (mkParseError name "is required")
  | Some text => parseParameter T name text
  end.

Definition optional (T : ParameterType) (name : string) (parameters : RequestParameters) : expected (option ParameterValue) :=
  result ← single name parameters None;
  match result with
  | None => inr None
  | Some text => parsed ← parseParameter T name text; inr (Some parsed)
  end.

Fixpoint vector (T : ParameterType) (name : string) (parameters : RequestParameters) : expected (list ParameterValue) :=
  match parameters with
  | [] => inr []
  | (key, value) :: parameters =>
      if negb (String.eqb key name) then vector T name parameters
      else
        parsed ← parseParameter T name value;
        result ← vector T name parameters;
        inr (parsed :: result)
  end.

(** ** Names a route does not declare *)

Definition unknownQueryParameters (parameters : RequestParameters) (allowed : list string) : list string :=
  foldl (fun unknown parameter =>
    let name := fst parameter in
    if bool_decide (name ∈ allowed) then unknown else if bool_decide (name ∈ unknown) then unknown else unknown ++ [name])
    [] parameters.

Inductive UnknownParameterPolicy := warn | reject.

Section diagnostics.
(* [fmt::format( "{:?}", name )] *)
Context (escaped : string -> string).

Definition unknown_message (names : list string) (location : string) : string :=
  let fields := foldl (fun fields name => (if sempty fields then fields else fields +:+ ", ") +:+ escaped name) EmptyString names in
  "Unknown " +:+ location +:+ " parameters: " +:+ fields.

(** A rejection; the warning the code logs otherwise is not modelled. *)
Definition handleUnknownParameters (names : list string) (location : string) (policy : UnknownParameterPolicy) : option string :=
  match names, policy with
  | [], _ | _, warn => None
  | names, reject => Some (unknown_message names location)
  end.
End diagnostics.

(** [pointerSegment], RFC 6901. *)
Fixpoint pointerSegment (name : string) : string :=
  match name with
  | EmptyString => EmptyString
  | String c name =>
      (if (c =? "~")%char then "~0" else if (c =? "/")%char then "~1" else String c EmptyString) +:+ pointerSegment name
  end.

(** *** JSON objects *)

(** A parsed document as [simdjson::dom] shows it: the fields of an object in
    the order of the text. *)
Inductive element := Object (fields : list (string * element)) | Array (items : list element) | Scalar.

Definition at_key (name : string) (fields : list (string * element)) : option element :=
  snd <$> List.find (fun f => String.eqb (fst f) name) fields.

Record JsonParameterObject := mkJsonObject { path : list string; names : list string }.

Fixpoint unknownJsonObjectParameters (e : element) (remaining allowed : list string) (pointer : string) : list string :=
  match remaining with
  | [] =>
      match e with
      | Object fields =>
          omap (fun f => if bool_decide (fst f ∈ allowed) then None else Some (pointer +:+ "/" +:+ pointerSegment (fst f))) fields
      | _ => []
      end
  | segment :: remaining =>
      if String.eqb segment "*" then
        match e with
        | Array items =>
            concat (imap (fun index item => unknownJsonObjectParameters item remaining allowed (pointer +:+ "/" +:+ pretty index)) items)
        | _ => []
        end
      else
        match e with
        | Object fields =>
            match at_key segment fields with
            | Some nested => unknownJsonObjectParameters nested remaining allowed (pointer +:+ "/" +:+ pointerSegment segment)
            | None => []
            end
        | _ => []
        end
  end.

Definition unknownJsonParameters (document : element) (declarations : list JsonParameterObject) : list string :=
  foldl (fun unknown declaration =>
    foldl (fun unknown name => if bool_decide (name ∈ unknown) then unknown else unknown ++ [name])
      unknown (unknownJsonObjectParameters document (path declaration) (names declaration) EmptyString))
    [] declarations.

(** ** Query strings *)

Definition separators_free (s : string) : bool :=
  sforall (fun c => negb ("&" =? c)%char && negb ("=" =? c)%char) s.

Lemma separators_free_amp s : separators_free s = true -> sforall (fun c => negb ("&" =? c)%char) s = true.
Proof. apply sforall_impl. by intros c [H _]%andb_true_iff. Qed.

Lemma separators_free_equals s : separators_free s = true -> sforall (fun c => negb ("=" =? c)%char) s = true.
Proof. apply sforall_impl. by intros c [_ H]%andb_true_iff. Qed.

Lemma find_char_skip c a b : sforall (fun d => negb (c =? d)%char) a = true ->
  find_char c (a +:+ String c b) = Some (String.length a).
Proof. intros Ha. unfold find_char. rewrite find_if_app by done. cbn. rewrite Ascii.eqb_refl. cbn. f_equal. lia. Qed.

Lemma sdrop_skip a c b : sdrop (String.length a + 1) (a +:+ String c b) = b.
Proof. by rewrite sdrop_app. Qed.

Section rendering.
Context {U : UriCodec}.

(** An encoder that [tryUriUnescape] undoes and that leaves no separator. *)
Context (escape : string -> string).
Context (unescape_escape : forall s, unescape_query (escape s) = Some s).
Context (escape_separators : forall s, separators_free (escape s) = true).

Definition render_field (parameter : string * string) : string := escape (fst parameter) +:+ "=" +:+ escape (snd parameter).

Fixpoint render_query (parameters : RequestParameters) : string :=
  match parameters with
  | [] => EmptyString
  | [parameter] => render_field parameter
  | parameter :: parameters => render_field parameter +:+ "&" +:+ render_query parameters
  end.

Definition nul_free (parameter : string * string) : Prop :=
  find_char nul (fst parameter) = None /\ find_char nul (snd parameter) = None.

Lemma decode_escape s : find_char nul s = None -> decode (escape s) = inr s.
Proof. intros H. unfold decode. by rewrite unescape_escape, H. Qed.

Lemma render_field_split parameter :
  find_char "=" (render_field parameter) = Some (String.length (escape (fst parameter))).
Proof. apply find_char_skip, separators_free_equals, escape_separators. Qed.

Lemma render_field_amp parameter : sforall (fun c => negb ("&" =? c)%char) (render_field parameter) = true.
Proof. unfold render_field. rewrite !sforall_app. by rewrite !(separators_free_amp (escape _)) by apply escape_separators. Qed.

Lemma render_field_nonempty parameter : sempty (render_field parameter) = false.
Proof. unfold render_field. by destruct (escape (fst parameter)). Qed.

(** A field into its name and value. *)
Lemma field_parts parameter :
  sprefix (find_char "=" (render_field parameter)) (render_field parameter) = escape (fst parameter)
  /\ after (find_char "=" (render_field parameter)) (render_field parameter) = escape (snd parameter).
Proof.
  rewrite render_field_split. cbn [sprefix after]. unfold render_field. rewrite stake_app.
  change ("=" +:+ escape (snd parameter)) with (String "=" (escape (snd parameter))). by rewrite sdrop_skip.
Qed.

Lemma parseQuery_last fuel parameter before : nul_free parameter ->
  parseQuery_loop (S fuel) (render_field parameter) before = inr (before ++ [parameter]).
Proof.
  intros [Hn Hv]. cbn [parseQuery_loop]. rewrite render_field_nonempty.
  assert (Hend : find_char "&" (render_field parameter) = None) by apply find_if_none, render_field_amp.
  rewrite Hend. cbn [sprefix]. rewrite render_field_nonempty. destruct (field_parts parameter) as [-> ->].
  rewrite !decode_escape by done. by destruct parameter.
Qed.

Lemma parseQuery_next fuel parameter rest before : nul_free parameter ->
  parseQuery_loop (S fuel) (render_field parameter +:+ String "&" rest) before
  = parseQuery_loop fuel rest (before ++ [parameter]).
Proof.
  intros [Hn Hv]. cbn [parseQuery_loop].
  assert (Hemp : sempty (render_field parameter +:+ String "&" rest) = false).
  { pose proof (render_field_nonempty parameter) as H. by destruct (render_field parameter). }
  rewrite Hemp, find_char_skip by apply render_field_amp. cbn [sprefix]. rewrite stake_app, render_field_nonempty.
  destruct (field_parts parameter) as [-> ->]. rewrite !decode_escape by done. cbn [after]. rewrite sdrop_skip.
  by destruct parameter.
Qed.

Lemma parseQuery_loop_render fuel parameters before : Forall nul_free parameters ->
  (length parameters < fuel)%nat ->
  parseQuery_loop fuel (render_query parameters) before = inr (before ++ parameters).
Proof.
  revert parameters before. induction fuel as [|fuel IH]; intros parameters before Hall Hlen; [lia|].
  destruct Hall as [|parameter parameters Hp Hall]; [by rewrite app_nil_r|]. destruct parameters as [|next parameters].
  - cbn [render_query]. by apply parseQuery_last.
  - change (render_query (parameter :: next :: parameters))
      with (render_field parameter +:+ String "&" (render_query (next :: parameters))).
    rewrite parseQuery_next, IH by (done || (cbn in *; lia)). by rewrite <- app_assoc.
Qed.

Lemma render_query_length parameters : (length parameters <= String.length (render_query parameters))%nat.
Proof.
  induction parameters as [|parameter parameters IH]; [done|]. destruct parameters as [|next parameters].
  - cbn. pose proof (render_field_nonempty parameter). destruct (render_field parameter); [done|cbn; lia].
  - change (render_query (parameter :: next :: parameters))
      with (render_field parameter +:+ String "&" (render_query (next :: parameters))).
    rewrite slength_app. cbn [String.length length] in *. lia.
Qed.

(** A query string a client encodes is read back as the same names and
    values in the same order, repetitions and empty strings included. *)
Theorem parseQuery_roundtrip parameters : Forall nul_free parameters ->
  parseQuery (render_query parameters) = inr parameters.
Proof.
  intros Hall. unfold parseQuery. rewrite parseQuery_loop_render; [done|done|].
  pose proof (render_query_length parameters). lia.
Qed.
End rendering.

(** ** Typed parameters *)

Definition values_of (name : string) (parameters : RequestParameters) : list string :=
  snd <$> List.filter (fun p => String.eqb (fst p) name) parameters.

Lemma values_of_cons name key value parameters :
  values_of name ((key, value) :: parameters)
  = if String.eqb key name then value :: values_of name parameters else values_of name parameters.
Proof. unfold values_of. cbn. by destruct (String.eqb key name). Qed.

Lemma single_values name parameters result : single name parameters result =
  match result, values_of name parameters with
  | _, [] => inr result
  | None, [value] => inr (Some value)
  | _, _ => inl (mkParseError name "must not be repeated")
  end.
Proof.
  revert result. induction parameters as [|[key value] parameters IH]; intros result; [by destruct result|].
  rewrite values_of_cons. cbn [single]. destruct (String.eqb key name); cbn [negb]; [|apply IH].
  destruct result as [previous|]; [done|]. rewrite IH. by destruct (values_of name parameters) as [|? [|? ?]].
Qed.

(** A handler that asks for one value gets it exactly when the request
    gives it once and it can be read; a missing one is an error or absent, a
    repeated one always an error; asking for all gives every occurrence in
    order or the error of the first that cannot be read. *)
Theorem accessors_count_occurrences T name parameters :
  scalar T name parameters = match values_of name parameters with
    | [] => inl (mkParseError name "is required")
    | [text] => parseParameter T name text
    | _ => inl (mkParseError name "must not be repeated")
    end
  /\ optional T name parameters = match values_of name parameters with
    | [] => inr None
    | [text] => parsed ← parseParameter T name text; inr (Some parsed)
    | _ => inl (mkParseError name "must not be repeated")
    end
  /\ vector T name parameters = foldr (fun text rest => parsed ← parseParameter T name text; result ← rest; inr (parsed :: result))
      (inr []) (values_of name parameters).
Proof.
  unfold scalar, optional. rewrite single_values. split_and!; [by destruct (values_of name parameters) as [|? [|? ?]]..|].
  induction parameters as [|[key value] parameters IH]; [done|]. rewrite values_of_cons. cbn [vector].
  destruct (String.eqb key name); cbn [negb]; [cbn [foldr]; by rewrite IH|done].
Qed.

(** A minus sign where a signed type has one. *)
Lemma to_string_negative z : z < 0 -> to_string z = String "-" (to_string (- z)).
Proof. by destruct z. Qed.

(** An integer parameter accepts exactly the values its type holds: every
    one of them is read back from its decimal text, and no text gives a value
    outside the type. *)
Theorem integer_parameters_fit signed width name : 1 < width ->
  (forall z, int_min signed width <= z <= int_max signed width ->
     parseParameter (TInt signed width) name (to_string z) = inr (VInt z))
  /\ (forall text z, parseParameter (TInt signed width) name text = inr (VInt z) -> int_min signed width <= z <= int_max signed width).
Proof.
  intros Hw. unfold parseParameter, from_chars_integer. split.
  - intros z Hz. destruct (Z.ltb_spec z 0) as [Hneg|Hpos].
    + destruct signed; [|cbn in Hz; lia]. rewrite to_string_negative by done. cbn [andb Ascii.eqb Bool.eqb].
      rewrite <- (sapp_nil (to_string (- z))) at 1. rewrite read_digits_to_string by (done || lia).
      rewrite Nat.eqb_refl. destruct (to_string_nonempty (- z) ltac:(lia)) as (c & s & -> & _). cbn [String.length Nat.ltb Nat.leb andb].
      rewrite Z.opp_involutive, !(proj2 (Z.leb_le _ _)) by lia. done.
    + pose proof (read_digits_to_string z EmptyString Hpos eq_refl) as Hr. rewrite sapp_nil in Hr.
      destruct (to_string_nonempty z Hpos) as (c & s & Hs & Hc). rewrite Hs in *.
      destruct (digit_not_special c Hc) as (_ & -> & _). rewrite andb_false_r, Hr, Nat.eqb_refl.
      cbn [String.length Nat.ltb Nat.leb andb]. rewrite !(proj2 (Z.leb_le _ _)) by lia. done.
  - intros text z. destruct (match text with EmptyString => _ | String _ _ => _ end) as [negative rest].
    destruct (read_digits 0 rest) as [m n]. destruct (_ && _) eqn:H; [|done]. intros [= <-]. lia.
Qed.

(** ** Undeclared names *)

(** Collecting what is not there yet. *)
Definition collect (seen l : list string) : list string :=
  foldl (fun seen x => if bool_decide (x ∈ seen) then seen else seen ++ [x]) seen l.

Lemma elem_of_collect x seen l : x ∈ collect seen l <-> x ∈ seen \/ x ∈ l.
Proof.
  unfold collect. revert seen. induction l as [|y l IH]; intros seen; cbn [foldl]; [set_solver|]. rewrite IH.
  case_bool_decide; set_solver.
Qed.

Lemma NoDup_collect seen l : NoDup seen -> NoDup (collect seen l).
Proof.
  unfold collect. revert seen. induction l as [|y l IH]; intros seen Hs; cbn [foldl]; [done|]. apply IH.
  case_bool_decide; [done|]. apply NoDup_app. split_and!; [done|set_solver|apply NoDup_singleton].
Qed.

Lemma unknownQueryParameters_collect parameters allowed :
  unknownQueryParameters parameters allowed = collect [] (filter (.∉ allowed) (fst <$> parameters)).
Proof.
  unfold unknownQueryParameters.
  enough (H : forall seen, foldl (fun unknown parameter => let name := fst parameter in
      if bool_decide (name ∈ allowed) then unknown else if bool_decide (name ∈ unknown) then unknown else unknown ++ [name]) seen parameters
    = collect seen (filter (.∉ allowed) (fst <$> parameters))) by apply H.
  induction parameters as [|[name value] parameters IH]; intros seen; [done|].
  rewrite fmap_cons, filter_cons. cbn [foldl fst]. cbv zeta. rewrite IH. destruct (decide (name ∉ allowed)) as [Hn|Hn].
  - by rewrite (bool_decide_eq_false_2 (name ∈ allowed)) by done.
  - rewrite bool_decide_eq_true_2; [done|]. by destruct (decide (name ∈ allowed)).
Qed.

(** The objects a declaration's path reaches in a document, with the path of
    names and indices taken. *)
Inductive selected : list string -> element -> list string -> element -> Prop :=
| selected_here e : selected [] e [] e
| selected_item remaining items index item segments e :
    items !! index = Some item -> selected remaining item segments e ->
    selected ("*" :: remaining) (Array items) (pretty index :: segments) e
| selected_key key remaining fields nested segments e :
    key <> "*" -> at_key key fields = Some nested -> selected remaining nested segments e ->
    selected (key :: remaining) (Object fields) (key :: segments) e.

Fixpoint render_pointer (segments : list string) : string :=
  match segments with [] => EmptyString | s :: segments => "/" +:+ pointerSegment s +:+ render_pointer segments end.

Lemma pointerSegment_digits s : sforall is_digit s = true -> pointerSegment s = s.
Proof.
  induction s as [|c s IH]; [done|]. cbn [sforall pointerSegment]. intros [Hc Hs]%andb_true_iff. rewrite IH by done.
  by destruct c as [[][][][][][][][]].
Qed.

Lemma pointerSegment_pretty (n : nat) : pointerSegment (pretty n) = pretty n.
Proof. apply pointerSegment_digits. unfold pretty, pretty_nat. apply sforall_digits_pretty. Qed.

Lemma elem_of_concat (ls : list (list string)) x : x ∈ concat ls <-> exists l, l ∈ ls /\ x ∈ l.
Proof.
  rewrite list_elem_of_In, in_concat. split; intros (l & Hl & Hx); exists l; by rewrite ?list_elem_of_In in *.
Qed.

Lemma elem_of_concat_imap {A} (f : nat -> A -> list string) l x :
  x ∈ concat (imap f l) <-> exists i a, l !! i = Some a /\ x ∈ f i a.
Proof.
  rewrite elem_of_concat. split.
  - intros (y & Hy & Hx). apply elem_of_lookup_imap in Hy as (i & a & -> & Ha). by exists i, a.
  - intros (i & a & Ha & Hx). exists (f i a). split; [|done]. apply elem_of_lookup_imap.
    by exists i, a.
Qed.

Lemma unknownJsonObjectParameters_spec e remaining allowed pointer u :
  u ∈ unknownJsonObjectParameters e remaining allowed pointer <->
  exists segments fields name value, selected remaining e segments (Object fields) /\ (name, value) ∈ fields
    /\ name ∉ allowed /\ u = pointer +:+ render_pointer (segments ++ [name]).
Proof.
  revert e pointer. induction remaining as [|segment remaining IH]; intros e pointer; cbn [unknownJsonObjectParameters].
  - split.
    + destruct e as [fields| |]; [|by intros ?%not_elem_of_nil..]. intros ([name value] & Hin & Hu)%list_elem_of_omap.
      cbn [fst] in Hu. case_bool_decide as Hn; [done|]. injection Hu as <-. exists [], fields, name, value.
      split_and!; [constructor|done|done|]. cbn [app render_pointer]. by rewrite sapp_nil.
    + intros (segments & fields & name & value & Hsel & Hin & Hn & ->). inversion Hsel; subst. apply list_elem_of_omap.
      exists (name, value). split; [done|]. cbn [fst]. rewrite bool_decide_eq_false_2 by done. cbn [app render_pointer].
      by rewrite sapp_nil.
  - destruct (String.eqb_spec segment "*") as [->|Hs].
    + split.
      * destruct e as [|items|]; [by intros ?%not_elem_of_nil| |by intros ?%not_elem_of_nil].
        rewrite elem_of_concat_imap. intros (i & item & Hi & Hu).
        apply IH in Hu as (segments & fields & name & value & Hsel & Hin & Hn & ->).
        exists (pretty i :: segments), fields, name, value. split_and!; [by econstructor|done|done|].
        cbn [app render_pointer]. rewrite pointerSegment_pretty. by rewrite !sapp_assoc.
      * intros (segments & fields & name & value & Hsel & Hin & Hn & ->).
        inversion Hsel as [|? items i item segments' e' Hi Hsel'|]; subst; [|done]. apply elem_of_concat_imap. exists i, item.
        split; [done|]. apply IH. exists segments', fields, name, value. split_and!; try done.
        cbn [app render_pointer]. rewrite pointerSegment_pretty. by rewrite !sapp_assoc.
    + split.
      * destruct e as [fields0| |]; [|by intros ?%not_elem_of_nil..]. destruct (at_key segment fields0) as [nested|] eqn:Hk;
          [|by intros ?%not_elem_of_nil]. intros (segments & fields & name & value & Hsel & Hin & Hn & ->)%IH.
        exists (segment :: segments), fields, name, value. split_and!; [by econstructor|done|done|].
        cbn [app render_pointer]. by rewrite !sapp_assoc.
      * intros (segments & fields & name & value & Hsel & Hin & Hn & ->).
        inversion Hsel as [|? ? ? ? ? ? ? ? E|key ? fields0 nested segments' e' ? Hk Hsel']; subst; [done|]. rewrite Hk. apply IH.
        exists segments', fields, name, value. split_and!; try done. cbn [app render_pointer]. by rewrite !sapp_assoc.
Qed.

Lemma unknownJsonParameters_collect document declarations seen :
  foldl (fun unknown declaration =>
    foldl (fun unknown name => if bool_decide (name ∈ unknown) then unknown else unknown ++ [name])
      unknown (unknownJsonObjectParameters document (path declaration) (names declaration) EmptyString)) seen declarations
  = collect seen (concat ((fun d => unknownJsonObjectParameters document (path d) (names d) EmptyString) <$> declarations)).
Proof.
  revert seen. induction declarations as [|d declarations IH]; intros seen; [done|]. cbn [foldl]. rewrite IH, fmap_cons.
  unfold collect. cbn [concat]. by rewrite foldl_app.
Qed.

(** The diagnostics of a JSON body are exactly the fields that a declared
    object has and its declaration does not name, each reported once, as the
    JSON pointer of its place in the document; objects no declaration reaches
    are not looked at. *)
Theorem unknownJsonParameters_spec document declarations :
  NoDup (unknownJsonParameters document declarations)
  /\ forall pointer, pointer ∈ unknownJsonParameters document declarations <->
     exists declaration segments fields name value,
       declaration ∈ declarations /\ selected (path declaration) document segments (Object fields)
       /\ (name, value) ∈ fields /\ name ∉ names declaration /\ pointer = render_pointer (segments ++ [name]).
Proof.
  unfold unknownJsonParameters. rewrite unknownJsonParameters_collect. split; [apply NoDup_collect, NoDup_nil_2|].
  intros pointer. rewrite elem_of_collect, elem_of_concat. split.
  - intros [?%not_elem_of_nil|(l & Hl & Hp)]; [done|].
    apply list_elem_of_fmap in Hl as (d & -> & Hd).
    apply unknownJsonObjectParameters_spec in Hp as (segments & fields & name & value & Hs & Hin & Hn & ->).
    by exists d, segments, fields, name, value.
  - intros (d & segments & fields & name & value & Hd & Hs & Hin & Hn & ->). right.
    eexists. split; [apply list_elem_of_fmap; by exists d|].
    apply unknownJsonObjectParameters_spec. by exists segments, fields, name, value.
Qed.

(** RFC 6901's two escapes, undone. *)
Fixpoint unescape_segment (s : string) : string :=
  match s with
  | String c (String d s' as rest) =>
      if (c =? "~")%char && (d =? "0")%char then String "~" (unescape_segment s')
      else if (c =? "~")%char && (d =? "1")%char then String "/" (unescape_segment s')
      else String c (unescape_segment rest)
  | _ => s
  end.

Lemma unescape_plain c s : (c =? "~")%char = false -> unescape_segment (String c s) = String c (unescape_segment s).
Proof. intros Hc. destruct s as [|d s]; [done|]. change (unescape_segment (String c (String d s))) with
  (if (c =? "~")%char && (d =? "0")%char then String "~" (unescape_segment s)
   else if (c =? "~")%char && (d =? "1")%char then String "/" (unescape_segment s)
   else String c (unescape_segment (String d s))). by rewrite Hc. Qed.

(** An undeclared name can be read back from its diagnostic: the escaped
    segment has no slash and unescapes to the name. *)
Theorem pointerSegment_roundtrip name :
  unescape_segment (pointerSegment name) = name /\ sforall (fun c => negb ("/" =? c)%char) (pointerSegment name) = true.
Proof.
  induction name as [|c name [IH1 IH2]]; [done|]. cbn [pointerSegment]. destruct (Ascii.eqb_spec c "~") as [->|Ht].
  - rewrite sforall_app, IH2. split; [|done]. change (String "~" (unescape_segment (pointerSegment name)) = String "~" name). by rewrite IH1.
  - destruct (Ascii.eqb_spec c "/") as [->|Hs].
    + rewrite sforall_app, IH2. split; [|done]. change (String "/" (unescape_segment (pointerSegment name)) = String "/" name). by rewrite IH1.
    + change (String c EmptyString +:+ pointerSegment name) with (String c (pointerSegment name)).
      rewrite unescape_plain, IH1 by by apply Ascii.eqb_neq. split; [done|]. cbn [sforall]. rewrite IH2.
      destruct (Ascii.eqb_spec "/" c) as [<-|]; done.
Qed.

(** ** Witnesses *)

(** A concrete codec: every character as [%XX]. *)
Definition percent_character (c : ascii) : string :=
  String "%" (hex_character (code c / 16) +:+ hex_character (code c mod 16)).

Fixpoint percent_encode (s : string) : string :=
  match s with EmptyString => EmptyString | String c s => percent_character c +:+ percent_encode s end.

Fixpoint percent_decode (s : string) : option string :=
  match s with
  | EmptyString => Some EmptyString
  | String "%" (String high (String low s)) =>
      h ← hexDigit high; l ← hexDigit low; String (ascii_of_N (Z.to_N (16 * h + l))) <$> percent_decode s
  | String "%" _ => None
  | String c s => String c <$> percent_decode s
  end.

#[export] Instance percent_codec : UriCodec :=
  {| unescape_query := percent_decode; unescape_path := percent_decode; validate_utf8 := fun _ => true |}.

Lemma percent_decode_character c s : percent_decode (percent_character c +:+ s) = String c <$> percent_decode s.
Proof. by destruct c as [[][][][][][][][]]. Qed.

Lemma percent_decode_encode s : percent_decode (percent_encode s) = Some s.
Proof.
  induction s as [|c s IH]; [done|]. change (percent_encode (String c s)) with (percent_character c +:+ percent_encode s).
  by rewrite percent_decode_character, IH.
Qed.

Lemma percent_encode_free (p : ascii -> bool) s : p "%"%char = true -> sforall p "0123456789abcdef" = true ->
  sforall p (percent_encode s) = true.
Proof.
  intros Hp Hd. induction s as [|c s IH]; [done|]. change (percent_encode (String c s)) with (percent_character c +:+ percent_encode s).
  rewrite sforall_app, IH, andb_true_r. cbn in Hd. repeat (apply andb_true_iff in Hd as [? Hd]).
  destruct c as [[][][][][][][][]]; cbn; rewrite ?Hp; repeat (apply andb_true_iff; split); done.
Qed.

Definition sample_parameters : RequestParameters := [("id", "7"); ("tag", "a=b&c"); ("id", "")].

Lemma parseQuery_roundtrip_witness : parseQuery (render_query percent_encode sample_parameters) = inr sample_parameters.
Proof.
  refine (parseQuery_roundtrip percent_encode percent_decode_encode _ sample_parameters _); [|by repeat constructor].
  intros s. by apply percent_encode_free.
Defined.

Lemma integer_parameters_fit_witness : parseParameter (TInt true 8) "n" (to_string (-128)) = inr (VInt (-128)).
Proof. refine (proj1 (integer_parameters_fit true 8 "n" _) (-128) _); done. Defined.
