(* ===== verification/Cookies.v ===== *)
(** * Cookies and headers of the downloader

    [IDHANDownloader/src/http/HttpMessage.cpp] (headers, methods and the parsing
    of Set-Cookie), [src/cookies/CookieStore.cpp] (the cookies of a session and
    those kept between sessions) with the hosts of [src/URLUtils.hpp], and what
    [LanePool.cpp] does with them around an exchange.  Times are nanoseconds in
    64 bits, as in [LanePolicy.v].  The URL parser ada and [curl_getdate] are not
    under src/: they are arguments. *)
From S2P Require Import Prelude StringView HttpParams LanePolicy.
From Stdlib Require Import Ascii.
From Stdlib Require String.

(** ** Text *)

Definition is_blank (c : ascii) : bool := (code c =? 32) || (code c =? 9).
Definition is_line_space (c : ascii) : bool := is_blank c || (code c =? 13) || (code c =? 10).

Fixpoint trim_front (s : string) : string :=
  match s with String c s' => if is_blank c then trim_front s' else s | EmptyString => EmptyString end.
Fixpoint trim_back (s : string) : string :=
  match s with
  | EmptyString => EmptyString
  | String c s => match trim_back s with EmptyString => if is_line_space c then EmptyString else String c EmptyString | t => String c t end
  end.

(** [trimmed] *)
Definition trim_header (text : string) : string := trim_back (trim_front text).
Definition lowered : string -> string := smap tolower.

Definition headerNamesEqual (a b : string) : bool := String.eqb (lowered a) (lowered b).

Definition isMarkupContentType (content_type : string) : bool :=
  let type := lowered (trim_header (sprefix (find_char ";" content_type) content_type)) in
  String.eqb type "text/html" || String.eqb type "application/xhtml+xml".

Definition HTTP_BODY_LOG_LIMIT : Z := 2048.

(** The loop of [describeBody]. *)
Fixpoint collapse (body collapsed : string) (pending_space : bool) : string :=
  match body with
  | EmptyString => collapsed
  | String c body =>
      if isspace c then collapse body collapsed (negb (sempty collapsed))
      else collapse body ((if pending_space then collapsed +:+ " " else collapsed) +:+ String c EmptyString) false
  end.
Definition describeBody (body : string) (bytes : Z) : string :=
  if bytes =? 0 then "<empty>"
  else if (HTTP_BODY_LOG_LIMIT <? bytes) || (Z.of_nat (String.length body) <? bytes) then "<" +:+ to_string bytes +:+ " bytes>"
  else collapse body EmptyString false.

Inductive HttpMethod := GET | POST | HEAD | PUT | DELETE | OPTIONS | PATCH.
Definition toupper (c : ascii) : ascii := if (97 <=? code c) && (code c <=? 122) then ascii_of_N (N_of_ascii c - 32) else c.
Definition parseHttpMethod (method : string) : option HttpMethod :=
  let upper := smap toupper method in
  if String.eqb upper "GET" then Some GET else if String.eqb upper "POST" then Some POST else if String.eqb upper "HEAD" then Some HEAD
  else if String.eqb upper "PUT" then Some PUT else if String.eqb upper "DELETE" then Some DELETE else if String.eqb upper "OPTIONS" then Some OPTIONS
  else if String.eqb upper "PATCH" then Some PATCH else None.
Definition httpMethodName (m : HttpMethod) : string :=
  match m with GET => "GET" | POST => "POST" | HEAD => "HEAD" | PUT => "PUT" | DELETE => "DELETE" | OPTIONS => "OPTIONS" | PATCH => "PATCH" end.

(** ** Headers *)

Definition HttpHeaders : Type := list (string * string).
Definition header_add (name value : string) (h : HttpHeaders) : HttpHeaders := h ++ [(name, value)].
Definition header_erase (name : string) (h : HttpHeaders) : HttpHeaders := filter (fun e => headerNamesEqual (fst e) name = false) h.
Definition header_set (name value : string) (h : HttpHeaders) : HttpHeaders := header_add name value (header_erase name h).
Definition header_contains (name : string) (h : HttpHeaders) : bool := existsb (fun e => headerNamesEqual (fst e) name) h.
Definition header_get (name : string) (h : HttpHeaders) : string :=
  match filter (fun e => headerNamesEqual (fst e) name = true) h with (_, v) :: _ => v | [] => EmptyString end.
Definition header_all (name : string) (h : HttpHeaders) : list string := snd <$> filter (fun e => headerNamesEqual (fst e) name = true) h.

Definition separators : string := String (ascii_of_nat 34) "(),/:;<=>?@[\]{}".
Definition isValidHttpHeaderName (name : string) : bool :=
  negb (sempty name) && sforall (fun c => negb ((code c <=? 32) || (127 <=? code c)) && negb (char_in separators c)) name.
Definition isValidHttpHeaderValue (value : string) : bool :=
  sforall (fun c => (code c =? 9) || negb ((code c <? 32) || (code c =? 127))) value.

(** ** Set-Cookie *)

Record SetCookie := mkSetCookie {
  sc_name : string; sc_value : string; sc_domain : string; sc_path : string; sc_secure : bool; sc_http_only : bool;
  sc_expires : option Z; sc_max_age : option Z }.

Section dates.
(** [curl_getdate]: the seconds a date names, or -1. *)
Context (curl_getdate : string -> Z).

(** [std::from_chars] of a 64-bit integer; it may stop before the end. *)
Definition from_chars_prefix (text : string) : option Z :=
  let '(negative, rest) := match text with String c rest => if (c =? "-")%char then (true, rest) else (false, text) | EmptyString => (false, text) end in
  let '(magnitude, taken) := read_digits 0 rest in
  let value := if negative : bool then - magnitude else magnitude in
  if (0 <? taken)%nat && (- 2 ^ 63 <=? value) && (value <=? int64_max) then Some value else None.

(** The text up to its first NUL, as [c_str] passes it. *)
Definition c_str (s : string) : string := sprefix (find_char nul s) s.

(** One attribute. *)
Definition set_attribute (attribute : string) (c : SetCookie) : result SetCookie :=
  let separator := find_char "=" attribute in
  let name := trim_header (sprefix separator attribute) in
  let value := match separator with None => EmptyString | Some i => trim_header (sdrop (S i) attribute) end in
  if headerNamesEqual name "domain" then Ok (mkSetCookie (sc_name c) (sc_value c) value (sc_path c) (sc_secure c) (sc_http_only c) (sc_expires c) (sc_max_age c))
  else if headerNamesEqual name "path" then Ok (mkSetCookie (sc_name c) (sc_value c) (sc_domain c) value (sc_secure c) (sc_http_only c) (sc_expires c) (sc_max_age c))
  else if headerNamesEqual name "secure" then Ok (mkSetCookie (sc_name c) (sc_value c) (sc_domain c) (sc_path c) true (sc_http_only c) (sc_expires c) (sc_max_age c))
  else if headerNamesEqual name "httponly" then Ok (mkSetCookie (sc_name c) (sc_value c) (sc_domain c) (sc_path c) (sc_secure c) true (sc_expires c) (sc_max_age c))
  else if headerNamesEqual name "max-age" then
    match from_chars_prefix value with
    | Some seconds => Ok (mkSetCookie (sc_name c) (sc_value c) (sc_domain c) (sc_path c) (sc_secure c) (sc_http_only c) (sc_expires c) (Some seconds))
    | None => Ok c
    end
  else if headerNamesEqual name "expires" then
    let parsed := curl_getdate (c_str value) in
    if parsed =? -1 then Ok c
    else t ← checked (parsed * second); Ok (mkSetCookie (sc_name c) (sc_value c) (sc_domain c) (sc_path c) (sc_secure c) (sc_http_only c) (Some t) (sc_max_age c))
  else Ok c.

(** The loop over the attributes; each turn takes a character at least. *)
Fixpoint attributes (fuel : nat) (remainder : string) (c : SetCookie) : result SetCookie :=
  match fuel with
  | O => Ok c
  | S fuel =>
      if sempty remainder then Ok c
      else
        let attribute_end := find_char ";" remainder in
        let attribute := trim_header (sprefix attribute_end remainder) in
        let remainder := match attribute_end with None => EmptyString | Some i => sdrop (S i) remainder end in
        if sempty attribute then attributes fuel remainder c else c ← set_attribute attribute c; attributes fuel remainder c
  end.

Definition parseSetCookie (header : string) : result (option SetCookie) :=
  let pair_end := find_char ";" header in
  let pair := trim_header (sprefix pair_end header) in
  match find_char "=" pair with
  | None => Ok None
  | Some separator =>
      let name := trim_header (stake separator pair) in
      let value := trim_header (sdrop (S separator) pair) in
      if sempty name then Ok None
      else
        let remainder := match pair_end with None => EmptyString | Some i => sdrop (S i) header end in
        c ← attributes (String.length remainder) remainder (mkSetCookie name value EmptyString EmptyString false false None None);
        Ok (Some c)
  end.

(** ** Cookies *)

Record Cookie := mkCookie { name : string; value : string; domain : string; path : string; secure : bool; host_only : bool; expires : option Z }.

Definition sameIdentity (a b : Cookie) : bool := String.eqb (name a) (name b) && String.eqb (domain a) (domain b) && String.eqb (path a) (path b).

Definition ends_with (suffix s : string) : bool :=
  (String.length suffix <=? String.length s)%nat && String.eqb (sdrop (String.length s - String.length suffix) s) suffix.

(** [detail::isSubdomainOf] *)
Definition isSubdomainOf (host domain : string) : bool :=
  if (String.length host <=? String.length domain)%nat then false
  else if negb (ends_with domain host) then false
  else bool_decide (sview_get host (String.length host - String.length domain - 1) = Some "."%char).

(** [detail::normalizeHost]: [find_first_of] looks for any of the characters. *)
Definition normalizeHost (host : string) : result string :=
  host ← match find_first_of "://" host with
         | Some i => if (String.length host <? i + 3)%nat then Throw (out_of_range "basic_string::substr") else Ok (sdrop (i + 3) host)
         | None => Ok host
         end;
  Ok (lowered host).

Definition cookieDomainMatches (host domain : string) (host_only : bool) : bool :=
  if String.eqb host domain then true else if host_only then false else isSubdomainOf host domain.

Definition cookiePathMatches (request_path cookie_path : string) : bool :=
  if sempty cookie_path || String.eqb cookie_path "/" then true
  else if negb (starts_with cookie_path request_path) then false
  else if (String.length request_path =? String.length cookie_path)%nat then true
  else bool_decide (sview_get cookie_path (String.length cookie_path - 1) = Some "/"%char)
       || bool_decide (sview_get request_path (String.length cookie_path) = Some "/"%char).

Definition defaultCookiePath (request_path : string) : string :=
  let slash := find_last_of "/" request_path in
  if sempty request_path || negb (starts_with "/" request_path) || bool_decide (slash = Some O) then "/" else sprefix slash request_path.

Definition expired (c : Cookie) (now : Z) : bool := match expires c with Some e => e <=? now | None => false end.

Definition cookie_matches (c : Cookie) (host request_path : string) (is_secure : bool) (now : Z) : bool :=
  if expired c now then false
  else if secure c && negb is_secure then false
  else if negb (cookieDomainMatches host (domain c) (host_only c)) then false
  else cookiePathMatches request_path (path c).

Fixpoint upsert (cookies : list Cookie) (c : Cookie) : list Cookie :=
  match cookies with [] => [c] | held :: l => if sameIdentity held c then c :: l else held :: upsert l c end.

Definition is_named (name' domain' path' : string) (held : Cookie) : bool :=
  String.eqb (name held) name' && String.eqb (domain held) domain' && String.eqb (path held) path'.
Definition remove_cookie (name' domain' path' : string) (cookies : list Cookie) : list Cookie :=
  filter (fun held => is_named name' domain' path' held = false) cookies.

Definition appendMatching (cookies : list Cookie) (host request_path : string) (is_secure : bool) (now : Z) (out : list Cookie) : list Cookie :=
  out ++ filter (fun c => cookie_matches c host request_path is_secure now = true) cookies.

(** What the store asks of the persistence it was given, if any. *)
Inductive persistence_call := Prune | Upsert (c : Cookie) | Erase (name domain path : string).
Record CookieStore := mkStore { m_cookies : list Cookie; m_persistence : bool; calls : list persistence_call }.
Definition CookieStore_make (persistence : bool) : CookieStore := mkStore [] persistence [].

Definition persist (c : persistence_call) (s : CookieStore) : CookieStore :=
  if m_persistence s then mkStore (m_cookies s) true (calls s ++ [c]) else s.
Definition set_cookies (l : list Cookie) (s : CookieStore) : CookieStore := mkStore l (m_persistence s) (calls s).

(** A cookie with an expiry. *)
Definition with_expiry (e : option Z) (c : Cookie) : Cookie := mkCookie (name c) (value c) (domain c) (path c) (secure c) (host_only c) e.

(** [load], when [loadAll] answers [loaded]: all have an expiry. *)
Definition store_load (loaded : list (Cookie * Z)) (now : Z) (s : CookieStore) : CookieStore :=
  if negb (m_persistence s) then s
  else
    let s := persist Prune s in
    set_cookies (foldl (fun l '(c, e) => if e <=? now then l else upsert l (with_expiry (Some e) c))
      (m_cookies s) loaded) s.

Definition store_set (c : Cookie) (s : CookieStore) : CookieStore :=
  match expires c with None => s | Some _ => persist (Upsert c) (set_cookies (upsert (m_cookies s) c) s) end.
Definition store_erase (name' domain' path' : string) (s : CookieStore) : CookieStore :=
  persist (Erase name' domain' path') (set_cookies (remove_cookie name' domain' path' (m_cookies s)) s).

(** ** Requests and responses *)

Record RequestTarget := mkTarget { host : string; target_path : string; target_secure : bool }.
Record ParsedUrl := mkUrl { hostname : string; pathname : string; protocol : string }.

(** [ada::parse] *)
Context (parse_url : string -> option ParsedUrl).

Definition targetFor (url : string) : result (option RequestTarget) :=
  match parse_url url with
  | None => Ok None
  | Some u =>
      let p := if sempty (pathname u) then "/" else pathname u in
      h ← normalizeHost (hostname u); Ok (Some (mkTarget h p (String.eqb (protocol u) "https:")))
  end.

(** [std::ranges::stable_sort], the longest path first. *)
Fixpoint insert_by_path (c : Cookie) (l : list Cookie) : list Cookie :=
  match l with
  | [] => [c]
  | d :: l' => if (String.length (path d) <? String.length (path c))%nat then c :: l else d :: insert_by_path c l'
  end.
Definition sort_by_path (l : list Cookie) : list Cookie := foldl (fun acc c => insert_by_path c acc) [] l.

Fixpoint cookie_value (l : list Cookie) (text : string) : string :=
  match l with
  | [] => text
  | c :: l => cookie_value l ((if sempty text then text else text +:+ "; ") +:+ name c +:+ "=" +:+ value c)
  end.

(** The cookies sent to a target. *)
Definition matched_cookies (overlay : list Cookie) (s : CookieStore) (now : Z) (t : RequestTarget) : list Cookie :=
  let session := appendMatching overlay (host t) (target_path t) (target_secure t) now [] in
  let kept := appendMatching (m_cookies s) (host t) (target_path t) (target_secure t) now [] in
  session ++ filter (fun c => existsb (fun held => String.eqb (name held) (name c)) session = false) kept.

Definition applyRequestCookies (url : string) (overlay : list Cookie) (s : CookieStore) (headers : HttpHeaders) (now : Z) : result HttpHeaders :=
  target ← targetFor url;
  match target with
  | None => Ok headers
  | Some t =>
      let matched := matched_cookies overlay s now t in
      if bool_decide (matched = []) then Ok headers else Ok (header_set "Cookie" (cookie_value (sort_by_path matched) EmptyString) headers)
  end.

Record ResponseCookies := mkCollected { persistent : list Cookie; session : list Cookie; removed : list Cookie }.

(** One Set-Cookie header. *)
Definition collect_one (t : RequestTarget) (now : Z) (r : ResponseCookies) (header : string) : result ResponseCookies :=
  parsed ← parseSetCookie header;
  match parsed with
  | None => Ok r
  | Some p =>
      own ← (if sempty (sc_domain p) then Ok (Some (host t, true))
             else
               let d := if starts_with "." (sc_domain p) then sdrop 1 (sc_domain p) else sc_domain p in
               d ← normalizeHost d; Ok (if cookieDomainMatches (host t) d false then Some (d, false) else None));
      match own with
      | None => Ok r
      | Some (d, only) =>
          let c := mkCookie (sc_name p) (sc_value p) d (if sempty (sc_path p) then defaultCookiePath (target_path t) else sc_path p) (sc_secure p) only None in
          let remove_it := Ok (mkCollected (persistent r) (session r) (removed r ++ [c])) in
          let keep_it e := Ok (mkCollected (persistent r ++ [with_expiry (Some e) c]) (session r) (removed r)) in
          match sc_max_age p, sc_expires p with
          | Some a, _ => if a <=? 0 then remove_it else ns ← checked (a * second); e ← checked (now + ns); keep_it e
          | None, Some e => if e <=? now then remove_it else keep_it e
          | None, None => Ok (mkCollected (persistent r) (session r ++ [c]) (removed r))
          end
      end
  end.

Definition collectResponseCookies (url : string) (headers : HttpHeaders) (now : Z) : result ResponseCookies :=
  target ← targetFor url;
  match target with
  | None => Ok (mkCollected [] [] [])
  | Some t => foldM (collect_one t now) (mkCollected [] [] []) (header_all "set-cookie" headers)
  end.

(** What [LanePool::complete] does with them. *)
Definition take_collected (r : ResponseCookies) (overlay : list Cookie) (s : CookieStore) : list Cookie * CookieStore :=
  let s := foldl (fun s c => store_set c s) s (persistent r) in
  let overlay := foldl upsert overlay (session r) in
  foldl (fun '(o, s) c => (remove_cookie (name c) (domain c) (path c) o, store_erase (name c) (domain c) (path c) s)) (overlay, s) (removed r).

(** What [LanePool::dispatch] does to the headers of a request. *)
Definition request_headers (url : string) (overlay : list Cookie) (s : CookieStore) (headers : HttpHeaders) (now : Z) : result HttpHeaders :=
  applyRequestCookies url overlay s (header_erase "cookie" headers) now.

(** A session: the responses it has had, in order. *)
Record exchange := mkExchange { e_url : string; e_headers : HttpHeaders; e_now : Z }.
Fixpoint run_session (overlay : list Cookie) (s : CookieStore) (l : list exchange) : result (list Cookie * CookieStore) :=
  match l with
  | [] => Ok (overlay, s)
  | x :: l =>
      r ← collectResponseCookies (e_url x) (e_headers x) (e_now x);
      let '(overlay, s) := take_collected r overlay s in run_session overlay s l
  end.

(** ** Suffixes and paths *)


Lemma ends_with_spec suffix s : ends_with suffix s = true <-> exists pre, s = pre +:+ suffix.
Proof.
  unfold ends_with. rewrite andb_true_iff, Nat.leb_le, String.eqb_eq. split.
  - intros [_ H]. exists (stake (String.length s - String.length suffix) s). rewrite <- H at 2. by rewrite stake_sdrop.
  - intros (pre & ->). rewrite slength_app. split; [lia|]. replace (_ + _ - _)%nat with (String.length pre) by lia. apply sdrop_app_exact.
Qed.

Lemma sview_get_last pre c s : sview_get (pre +:+ s) (String.length pre - 1) = Some c -> pre <> EmptyString -> exists p, pre = p +:+ String c EmptyString.
Proof.
  induction pre as [|d pre IH]; [done|]. intros H _. destruct pre as [|e pre].
  - cbn in H. injection H as ->. by exists EmptyString.
  - destruct IH as (p & Hp); [|done|].
    + cbn in H. cbn. rewrite Nat.sub_0_r. exact H.
    + exists (String d p). by rewrite sapp_cons, <- Hp.
Qed.

Lemma sview_get_snoc p c s : sview_get ((p +:+ String c EmptyString) +:+ s) (String.length p) = Some c.
Proof. rewrite sapp_assoc. rewrite <- (Nat.add_0_r (String.length p)). by rewrite sview_get_app. Qed.

Lemma isSubdomainOf_spec h d : isSubdomainOf h d = true <-> exists pre, h = pre +:+ "." +:+ d.
Proof.
  unfold isSubdomainOf. split.
  - destruct (Nat.leb_spec (String.length h) (String.length d)) as [|Hlt]; [done|]. destruct (ends_with d h) eqn:E; [|done]. cbn [negb].
    apply ends_with_spec in E as (pre & ->). rewrite slength_app in *. rewrite bool_decide_eq_true. replace (_ + _ - _ - 1)%nat with (String.length pre - 1)%nat by lia.
    intros H. apply sview_get_last in H as (p & ->); [|intros ->; cbn in Hlt; lia]. exists p. by rewrite sapp_assoc.
  - intros (pre & ->). rewrite !slength_app. cbn [String.length]. destruct (Nat.leb_spec (String.length pre + (1 + String.length d)) (String.length d)); [lia|].
    assert (E : ends_with d (pre +:+ "." +:+ d) = true) by (apply ends_with_spec; exists (pre +:+ "."); by rewrite sapp_assoc).
    rewrite E. cbn [negb]. rewrite bool_decide_eq_true. replace (String.length pre + (1 + String.length d) - String.length d - 1)%nat with (String.length pre) by lia.
    rewrite <- (Nat.add_0_r (String.length pre)). by rewrite sview_get_app.
Qed.

Lemma cookieDomainMatches_spec h d only : cookieDomainMatches h d only = true <-> h = d \/ (only = false /\ exists pre, h = pre +:+ "." +:+ d).
Proof.
  unfold cookieDomainMatches. destruct (String.eqb_spec h d) as [->|Hne]; [split; [by left|done]|]. destruct only.
  - split; [done|]. intros [H|[H _]]; done.
  - rewrite isSubdomainOf_spec. split; [by right|]. intros [H|[_ H]]; done.
Qed.

(** The requests a cookie of a path is for. *)
Definition path_covers (p r : string) : Prop :=
  p = EmptyString \/ p = "/" \/ r = p \/ exists rest, r = p +:+ rest /\ ((exists q, p = q +:+ "/") \/ exists more, rest = String "/" more).

Lemma starts_with_spec pre s : starts_with pre s = true <-> exists rest, s = pre +:+ rest.
Proof.
  split; [|intros (rest & ->); apply starts_with_app]. revert s. induction pre as [|a pre IH]; intros s; [by exists s|]. destruct s as [|b s]; [done|]. cbn.
  rewrite andb_true_iff. intros [E H]. apply Ascii.eqb_eq in E as <-. destruct (IH s H) as (rest & ->). by exists rest.
Qed.

Lemma cookiePathMatches_spec r p : cookiePathMatches r p = true <-> path_covers p r.
Proof.
  unfold cookiePathMatches, path_covers. destruct p as [|a p]; [cbn; split; [by left|done]|]. cbn [sempty orb]. destruct (String.eqb_spec (String a p) "/") as [E|Hne]; [split; auto|].
  destruct (starts_with (String a p) r) eqn:Es; cbn [negb].
  - apply starts_with_spec in Es as (rest & ->). rewrite slength_app. destruct (Nat.eqb_spec (String.length (String a p) + String.length rest) (String.length (String a p))) as [Hl|Hl].
    + assert (rest = EmptyString) as -> by (destruct rest; [done|cbn in Hl; lia]). rewrite sapp_nil. split; auto.
    + rewrite orb_true_iff, !bool_decide_eq_true. rewrite <- (Nat.add_0_r (String.length (String a p))) at 2. rewrite sview_get_app. split.
      * intros [H|H]; right; right; right; exists rest; (split; [done|]); [left|right].
        -- apply (sview_get_last _ _ EmptyString); [by rewrite sapp_nil|done].
        -- destruct rest as [|b rest]; [done|]. injection H as ->. by exists rest.
      * intros [H|[H|[H|(rest' & H & Hor)]]]; [done|done| |].
        -- assert (Hlen := f_equal String.length H). rewrite slength_app in Hlen. lia.
        -- assert (rest' = rest) as -> by (assert (Hs := f_equal (sdrop (String.length (String a p))) H); by rewrite !sdrop_app_exact in Hs).
           destruct Hor as [(q & Hq)|(more & ->)]; [left|by right]. rewrite Hq, slength_app. cbn [String.length]. rewrite Nat.add_sub.
           rewrite <- (sapp_nil (q +:+ "/")). apply sview_get_snoc.
  - split; [done|]. intros [H|[H|[H|(rest & H & _)]]]; [done|done|..].
    + rewrite H in Es. assert (H' := starts_with_app (String a p) EmptyString). rewrite sapp_nil in H'. congruence.
    + rewrite H, starts_with_app in Es. done.
Qed.

(** ** Which cookies a request gets *)

(** A cookie is for a target at a time. *)
Definition belongs (c : Cookie) (t : RequestTarget) (now : Z) : Prop :=
  (forall e, expires c = Some e -> now < e) /\ (secure c = true -> target_secure t = true)
  /\ (host t = domain c \/ (host_only c = false /\ exists pre, host t = pre +:+ "." +:+ domain c)) /\ path_covers (path c) (target_path t).

Lemma cookie_matches_spec c t now : cookie_matches c (host t) (target_path t) (target_secure t) now = true <-> belongs c t now.
Proof.
  unfold cookie_matches, belongs, expired. rewrite <- cookieDomainMatches_spec, <- cookiePathMatches_spec.
  assert (Hexp : (match expires c with Some e => e <=? now | None => false end) = false <-> (forall e, expires c = Some e -> now < e)).
  { destruct (expires c) as [e|]; [|done]. rewrite Z.leb_gt. split; [by intros H e' [= <-]|auto]. }
  rewrite <- Hexp. destruct (match expires c with Some e => e <=? now | None => false end); [split; [done|by intros [H _]]|].
  assert (Hsec : secure c && negb (target_secure t) = false <-> (secure c = true -> target_secure t = true)) by (destruct (secure c), (target_secure t); naive_solver).
  rewrite <- Hsec. destruct (secure c && negb (target_secure t)); [split; [done|by intros (_ & H & _)]|].
  destruct (cookieDomainMatches _ _ _); cbn [negb]; [|split; [done|by intros (_ & _ & H & _)]]. split; [by intros H|by intros (_ & _ & _ & H)].
Qed.

Lemma insert_perm c l : insert_by_path c l ≡ₚ c :: l.
Proof. induction l as [|d l IH]; cbn [insert_by_path]; [done|]. destruct (String.length (path d) <? String.length (path c))%nat; [done|]. rewrite IH. apply perm_swap. Qed.

Definition longer (a b : Cookie) : Prop := (String.length (path b) <= String.length (path a))%nat.

Lemma insert_sorted c l : StronglySorted longer l -> StronglySorted longer (insert_by_path c l).
Proof.
  induction l as [|d l IH]; intros H; cbn [insert_by_path]; [by repeat constructor|]. inversion H as [|? ? H1 H2]; subst.
  destruct (Nat.ltb_spec (String.length (path d)) (String.length (path c))) as [Hlt|Hge].
  - constructor; [done|]. constructor; [unfold longer; lia|]. rewrite Forall_forall in *. intros x Hx. specialize (H2 x Hx). unfold longer in *. lia.
  - constructor; [by apply IH|]. rewrite Forall_forall in *. intros x Hx. rewrite insert_perm, elem_of_cons in Hx. destruct Hx as [->|Hx]; [done|by apply H2].
Qed.

Lemma insert_stable n c l : StronglySorted longer l ->
  filter (fun x => String.length (path x) = n) (insert_by_path c l) = filter (fun x => String.length (path x) = n) (l ++ [c]).
Proof.
  induction l as [|d l IH]; intros H; cbn [insert_by_path app]; [done|]. inversion H as [|? ? H1 H2]; subst.
  destruct (Nat.ltb_spec (String.length (path d)) (String.length (path c))) as [Hlt|Hge].
  - rewrite !filter_cons, !filter_app, !filter_cons, !filter_nil. destruct (decide (String.length (path c) = n)) as [Hc|Hc].
    + rewrite !decide_False by lia. assert (Hl : filter (fun x => String.length (path x) = n) l = []).
      { apply list_filter_none. rewrite Forall_forall in *. intros x Hx. specialize (H2 x Hx). unfold longer in H2. lia. }
      by rewrite Hl.
    + by rewrite !app_nil_r.
  - rewrite !filter_cons. by rewrite IH.
Qed.

Lemma sort_spec l : sort_by_path l ≡ₚ l /\ StronglySorted longer (sort_by_path l)
  /\ forall n, filter (fun x => String.length (path x) = n) (sort_by_path l) = filter (fun x => String.length (path x) = n) l.
Proof.
  unfold sort_by_path. assert (G : forall l acc, StronglySorted longer acc ->
    foldl (fun acc c => insert_by_path c acc) acc l ≡ₚ acc ++ l /\ StronglySorted longer (foldl (fun acc c => insert_by_path c acc) acc l)
    /\ forall n, filter (fun x => String.length (path x) = n) (foldl (fun acc c => insert_by_path c acc) acc l) = filter (fun x => String.length (path x) = n) (acc ++ l));
    [|by apply (G l []); constructor].
  clear l. induction l as [|c l IH]; intros acc Hs; cbn [foldl]; [by rewrite app_nil_r|]. destruct (IH (insert_by_path c acc)) as (P & S & F); [by apply insert_sorted|].
  split; [|split; [done|]].
  - rewrite P, insert_perm. apply Permutation_middle.
  - intros n. rewrite F, filter_app, insert_stable by done. rewrite (cons_middle c acc l), app_assoc. by rewrite !filter_app.
Qed.

(** The text of a Cookie header. *)
Definition cookie_pair (c : Cookie) : string := name c +:+ "=" +:+ value c.
Lemma cookie_value_spec l : cookie_value l EmptyString = sjoin "; " (cookie_pair <$> l).
Proof.
  assert (G : forall l text, sempty text = false -> cookie_value l text = foldl (fun acc t => acc +:+ "; " +:+ t) text (cookie_pair <$> l)).
  { clear l. induction l as [|c l IH]; intros text Ht; cbn [cookie_value fmap list_fmap foldl]; [done|]. rewrite Ht. rewrite IH by (by destruct text).
    by rewrite sapp_assoc. }
  destruct l as [|c l]; [done|]. cbn [cookie_value fmap list_fmap sjoin sempty]. apply G. unfold cookie_pair. by destruct (name c).
Qed.

(** ** The cookies that are kept *)

Definition identity (c : Cookie) : string * string * string := (name c, domain c, path c).

Lemma sameIdentity_spec a b : sameIdentity a b = true <-> identity a = identity b.
Proof. unfold sameIdentity, identity. rewrite !andb_true_iff, !String.eqb_eq. split; [by intros [[-> ->] ->]|by intros [= -> -> ->]]. Qed.

Lemma is_named_spec n d p c : is_named n d p c = true <-> identity c = (n, d, p).
Proof. unfold is_named, identity. rewrite !andb_true_iff, !String.eqb_eq. split; [by intros [[-> ->] ->]|by intros [= -> -> ->]]. Qed.

(** What a list of cookies says of each identity. *)
Definition cookie_map (l : list Cookie) : gmap (string * string * string) Cookie := list_to_map ((fun c => (identity c, c)) <$> l).

Lemma keys_fmap l : ((fun c => (identity c, c)) <$> l).*1 = identity <$> l.
Proof. rewrite <- list_fmap_compose. done. Qed.

Lemma cookie_map_cons c l : cookie_map (c :: l) = <[identity c := c]> (cookie_map l).
Proof. done. Qed.

Lemma cookie_map_none l k : k ∉ identity <$> l -> cookie_map l !! k = None.
Proof. intros H. apply not_elem_of_list_to_map_1. by rewrite keys_fmap. Qed.

Lemma upsert_spec l c : NoDup (identity <$> l) ->
  NoDup (identity <$> upsert l c) /\ cookie_map (upsert l c) = <[identity c := c]> (cookie_map l) /\ (forall x, x ∈ upsert l c -> x = c \/ x ∈ l)
  /\ (identity <$> upsert l c) ⊆ identity c :: (identity <$> l).
Proof.
  induction l as [|h l IH]; cbn [upsert fmap list_fmap].
  - intros _. split; [apply NoDup_singleton|]. split; [done|]. split; [|done]. intros x. rewrite list_elem_of_singleton. by left.
  - intros Hn. apply NoDup_cons in Hn as [Hni Hn]. destruct (sameIdentity h c) eqn:E.
    + apply sameIdentity_spec in E. cbn [fmap list_fmap]. rewrite <- E. split; [by constructor|]. split; [|split; [|by intros x; rewrite !elem_of_cons; tauto]].
      * rewrite (cookie_map_cons c), (cookie_map_cons h), <- E. by rewrite insert_insert_eq.
      * intros x. rewrite !elem_of_cons. tauto.
    + assert (Hne : identity h <> identity c) by (intros H; apply sameIdentity_spec in H; congruence). destruct (IH Hn) as (N & M & I & S). cbn [fmap list_fmap].
      split; [constructor; [intros H; apply S in H; rewrite elem_of_cons in H; by destruct H|done]|].
      split; [|split; [|intros x; specialize (S x); rewrite !elem_of_cons in *; tauto]].
      * rewrite (cookie_map_cons h (upsert l c)), (cookie_map_cons h l), M. by apply insert_insert_ne.
      * intros x. rewrite !elem_of_cons. intros [->|H]; [tauto|]. apply I in H. tauto.
Qed.

Lemma remove_cookie_spec n d p l : NoDup (identity <$> l) ->
  NoDup (identity <$> remove_cookie n d p l) /\ cookie_map (remove_cookie n d p l) = delete (n, d, p) (cookie_map l) /\ (forall x, x ∈ remove_cookie n d p l -> x ∈ l)
  /\ (identity <$> remove_cookie n d p l) ⊆ (identity <$> l).
Proof.
  unfold remove_cookie. induction l as [|h l IH]; cbn [fmap list_fmap].
  - intros _. split; [apply NoDup_nil_2|]. split; [symmetry; by apply delete_id|]. done.
  - intros Hn. apply NoDup_cons in Hn as [Hni Hn]. destruct (IH Hn) as (N & M & I & S). rewrite filter_cons. destruct (is_named n d p h) eqn:E.
    + rewrite decide_False by done. apply is_named_spec in E. split; [done|]. split; [|split; [|intros x; specialize (S x); rewrite !elem_of_cons; tauto]].
      * rewrite M, cookie_map_cons, E. by rewrite delete_insert_eq.
      * intros x H. rewrite elem_of_cons. right. by apply I.
    + rewrite decide_True by done. assert (Hne : identity h <> (n, d, p)) by (intros H; apply is_named_spec in H; congruence). cbn [fmap list_fmap].
      split; [constructor; [intros H; by apply S in H|done]|]. split; [|split; [|intros x; specialize (S x); rewrite !elem_of_cons; tauto]].
      * rewrite (cookie_map_cons h (filter _ l)), (cookie_map_cons h l), M. symmetry. by apply delete_insert_ne.
      * intros x. rewrite !elem_of_cons. intros [->|H]; [by left|right; by apply I].
Qed.

(** The operations on a store, and what they do to a map of its cookies. *)
Inductive store_op := Load (loaded : list (Cookie * Z)) (now : Z) | Set_cookie (c : Cookie) | Erase_cookie (name domain path : string).
Definition do_op (s : CookieStore) (o : store_op) : CookieStore :=
  match o with Load l now => store_load l now s | Set_cookie c => store_set c s | Erase_cookie n d p => store_erase n d p s end.
Definition map_op (persistence : bool) (m : gmap (string * string * string) Cookie) (o : store_op) : gmap (string * string * string) Cookie :=
  match o with
  | Load l now => if persistence then foldl (fun m '(c, e) => if e <=? now then m else <[identity c := with_expiry (Some e) c]> m) m l else m
  | Set_cookie c => if expires c then <[identity c := c]> m else m
  | Erase_cookie n d p => delete (n, d, p) m
  end.
(** The calls an operation makes to the persistence. *)
Definition op_calls (o : store_op) : list persistence_call :=
  match o with Load _ _ => [Prune] | Set_cookie c => if expires c then [Upsert c] else [] | Erase_cookie n d p => [Erase n d p] end.

Lemma persist_same c s : m_cookies (persist c s) = m_cookies s /\ m_persistence (persist c s) = m_persistence s
  /\ calls (persist c s) = calls s ++ (if m_persistence s then [c] else []).
Proof. unfold persist. destruct s as [l [] k]; cbn; by rewrite ?app_nil_r. Qed.

(** C31: a cookie store is a map from the identity of a cookie, its name, domain and path, to the cookie: no identity is held twice, set replaces the cookie of that identity and takes none without an expiry, erase removes it, loading adds what has not expired, and the persistence is told of each change once and in order. *)
Theorem store_refines_map persistence ops :
  let s := foldl do_op (CookieStore_make persistence) ops in
  NoDup (identity <$> m_cookies s) /\ cookie_map (m_cookies s) = foldl (map_op persistence) ∅ ops
  /\ calls s = (if persistence then mjoin (op_calls <$> ops) else []).
Proof.
  cbn zeta. assert (G : forall s m, m_persistence s = persistence -> NoDup (identity <$> m_cookies s) -> cookie_map (m_cookies s) = m ->
    NoDup (identity <$> m_cookies (foldl do_op s ops)) /\ cookie_map (m_cookies (foldl do_op s ops)) = foldl (map_op persistence) m ops
    /\ calls (foldl do_op s ops) = calls s ++ (if persistence then mjoin (op_calls <$> ops) else [])).
  2:{ by apply (G (CookieStore_make persistence) ∅); [|constructor|]. }
  induction ops as [|o ops IH]; intros s m Hp Hn Hm; cbn [foldl fmap list_fmap mjoin list_join]; [split; [done|]; split; [done|]; by destruct persistence; rewrite app_nil_r|].
  assert (Hstep : m_persistence (do_op s o) = persistence /\ NoDup (identity <$> m_cookies (do_op s o)) /\ cookie_map (m_cookies (do_op s o)) = map_op persistence m o
    /\ calls (do_op s o) = calls s ++ (if persistence then op_calls o else [])).
  { destruct o as [l now|c|n d p]; cbn [do_op map_op op_calls].
    - unfold store_load. rewrite Hp. destruct persistence; cbn [negb]; [|by rewrite app_nil_r]. unfold set_cookies; cbn [m_persistence m_cookies calls].
      destruct (persist_same Prune s) as (E1 & E2 & E3). rewrite E1, E2, E3, Hp. split; [done|]. revert m Hn Hm. generalize (m_cookies s) as k.
      induction l as [|[c e] l IHl]; intros k m Hn Hm; cbn [foldl]; [done|]. destruct (e <=? now); [by apply IHl|].
      destruct (upsert_spec k (with_expiry (Some e) c) Hn) as (N & M & _ & _). apply IHl; [done|]. rewrite M, Hm. done.
    - unfold store_set. destruct (expires c) as [e|] eqn:Ee; [|destruct persistence; by rewrite app_nil_r].
      destruct (persist_same (Upsert c) (set_cookies (upsert (m_cookies s) c) s)) as (E1 & E2 & E3). rewrite E1, E2, E3. cbn [set_cookies m_cookies m_persistence calls]. rewrite Hp.
      destruct (upsert_spec (m_cookies s) c Hn) as (N & M & _ & _). split; [done|]. split; [done|]. split; [by rewrite M, Hm|done].
    - unfold store_erase. destruct (persist_same (Erase n d p) (set_cookies (remove_cookie n d p (m_cookies s)) s)) as (E1 & E2 & E3). rewrite E1, E2, E3.
      cbn [set_cookies m_cookies m_persistence calls]. rewrite Hp. destruct (remove_cookie_spec n d p (m_cookies s) Hn) as (N & M & _ & _).
      split; [done|]. split; [done|]. split; [by rewrite M, Hm|done]. }
  destruct Hstep as (H1 & H2 & H3 & H4). destruct (IH (do_op s o) (map_op persistence m o) H1 H2 H3) as (R1 & R2 & R3). split; [done|]. split; [done|].
  rewrite R3, H4, <- app_assoc. by destruct persistence.
Qed.

(** ** Requests *)

Lemma elem_matched o s now t c : c ∈ matched_cookies o s now t <->
  (c ∈ o /\ belongs c t now) \/ (c ∈ m_cookies s /\ belongs c t now /\ ~ exists d, d ∈ o /\ belongs d t now /\ name d = name c).
Proof.
  unfold matched_cookies, appendMatching. cbn [app]. rewrite elem_of_app, !list_elem_of_filter, !cookie_matches_spec.
  assert (Hs : existsb (fun held => String.eqb (name held) (name c)) (filter (fun c => cookie_matches c (host t) (target_path t) (target_secure t) now = true) o) = false
    <-> ~ exists d, d ∈ o /\ belongs d t now /\ name d = name c).
  { rewrite <- not_true_iff_false, existsb_exists. f_equiv. split.
    - intros (d & Hd & E). rewrite <- list_elem_of_In, list_elem_of_filter, cookie_matches_spec in Hd. apply String.eqb_eq in E. exists d. tauto.
    - intros (d & Hd & Hb & E). exists d. rewrite <- list_elem_of_In, list_elem_of_filter, cookie_matches_spec. split; [done|]. by apply String.eqb_eq. }
  rewrite Hs. tauto.
Qed.

(** C30: a request is sent the cookies that are for it and no others: the session's cookies and those of the store whose name no such session cookie has, each only before its expiry, over https when it is secure, to its own host or a subdomain of its domain, and under its path; longer paths come first, cookies of equal length stay in order, and the Cookie header is their pairs, replacing any the request had. *)
Theorem request_sends_matching_cookies url o s headers now t h : targetFor url = Ok (Some t) -> applyRequestCookies url o s headers now = Ok h ->
  exists sent, (forall c, c ∈ sent <-> (c ∈ o /\ belongs c t now) \/ (c ∈ m_cookies s /\ belongs c t now /\ ~ exists d, d ∈ o /\ belongs d t now /\ name d = name c))
    /\ StronglySorted longer sent /\ (forall n, filter (fun x => String.length (path x) = n) sent = filter (fun x => String.length (path x) = n) (matched_cookies o s now t))
    /\ h = (if bool_decide (sent = []) then headers else header_erase "Cookie" headers ++ [("Cookie", sjoin "; " (cookie_pair <$> sent))]).
Proof.
  intros Ht. unfold applyRequestCookies. rewrite Ht. cbn [mbind result_bind]. destruct (sort_spec (matched_cookies o s now t)) as (P & S & F).
  intros H. exists (sort_by_path (matched_cookies o s now t)). split; [intros c; by rewrite P, elem_matched|]. split; [done|]. split; [done|].
  assert (Hn : sort_by_path (matched_cookies o s now t) = [] <-> matched_cookies o s now t = []).
  { split; intros E; [rewrite E in P; by apply Permutation_nil in P|by rewrite E]. }
  rewrite (bool_decide_ext _ _ Hn). destruct (bool_decide _); injection H as <-; [done|]. by rewrite cookie_value_spec.
Qed.

(** ** What a Set-Cookie header says *)













(** ** Where cookies come from *)












(** ** Set-Cookie reads back *)

(** Text that stands in a header as it is. *)
Definition clean (s : string) : Prop := trim_front s = s /\ trim_back s = s /\ sforall (fun c => negb (Ascii.eqb ";" c)) s = true.

Definition attribute_list (date : string) (c : SetCookie) : list string :=
  (if sempty (sc_domain c) then [] else ["Domain=" +:+ sc_domain c]) ++ (if sempty (sc_path c) then [] else ["Path=" +:+ sc_path c])
  ++ match sc_max_age c with Some n => ["Max-Age=" +:+ to_string n] | None => [] end ++ (if sc_expires c then ["Expires=" +:+ date] else [])
  ++ (if sc_secure c then ["Secure"] else []) ++ (if sc_http_only c then ["HttpOnly"] else []).
Fixpoint render_attributes (l : list string) : string := match l with [] => EmptyString | a :: l => "; " +:+ a +:+ render_attributes l end.
Definition render_set_cookie (date : string) (c : SetCookie) : string := sc_name c +:+ "=" +:+ sc_value c +:+ render_attributes (attribute_list date c).

Lemma trim_front_length s : (String.length (trim_front s) <= String.length s)%nat.
Proof. induction s as [|c s IH]; cbn [trim_front]; [done|]. destruct (is_blank c); cbn [String.length]; lia. Qed.

Lemma trim_front_app s t : trim_front s = s -> s <> EmptyString -> trim_front (s +:+ t) = s +:+ t.
Proof.
  destruct s as [|c s]; [done|]. intros H _. rewrite sapp_cons. cbn [trim_front] in *. destruct (is_blank c); [|done].
  assert (Hl := trim_front_length s). rewrite H in Hl. cbn in Hl. lia.
Qed.

Lemma trim_back_app s t : trim_back t = t -> t <> EmptyString -> trim_back (s +:+ t) = s +:+ t.
Proof. intros Ht Hne. induction s as [|c s IH]; [done|]. rewrite sapp_cons. cbn [trim_back]. rewrite IH. destruct (s +:+ t) eqn:E; [|done]. destruct s; cbn in E; congruence. Qed.

Lemma trim_back_equals v : trim_back v = v -> trim_back ("=" +:+ v) = "=" +:+ v.
Proof. intros H. change ("=" +:+ v) with (String "=" v). cbn [trim_back]. rewrite H. by destruct v. Qed.

Lemma clean_trimmed s : clean s -> trim_header s = s.
Proof. intros (H1 & H2 & _). unfold trim_header. by rewrite H1. Qed.

Lemma trim_header_blank s : trim_header (" " +:+ s) = trim_header s.
Proof. done. Qed.

Lemma from_chars_prefix_to_string n : - 2 ^ 63 <= n <= int64_max -> from_chars_prefix (to_string n) = Some n.
Proof.
  intros Hn. assert (Hpos : forall m, 0 <= m -> read_digits 0 (to_string m) = (m, String.length (to_string m)) /\ (0 < String.length (to_string m))%nat).
  { intros m Hm. assert (H := read_digits_to_string m EmptyString Hm eq_refl). rewrite sapp_nil in H. split; [done|].
    destruct (to_string_nonempty m Hm) as (c & s & -> & _). cbn. lia. }
  unfold from_chars_prefix. destruct (decide (0 <= n)) as [H0|H0].
  - destruct (to_string_nonempty n H0) as (c & s & E & Hd). destruct (Hpos n H0) as [Hr Hl]. rewrite E in *. destruct (digit_not_special c Hd) as (_ & -> & _).
    rewrite Hr. destruct (Nat.ltb_spec 0 (String.length (String c s))); [|lia]. cbn [andb]. destruct (Z.leb_spec (- 2 ^ 63) n); [|lia]. by destruct (Z.leb_spec n int64_max); [|lia].
  - assert (E : to_string n = String "-" (to_string (- n))) by (destruct n; [lia|lia|done]). rewrite E. destruct (Hpos (- n)) as [Hr Hl]; [lia|]. change (("-" =? "-")%char) with true. cbv iota. rewrite Hr.
    destruct (Nat.ltb_spec 0 (String.length (to_string (- n)))); [|lia]. cbn [andb]. rewrite Z.opp_involutive. destruct (Z.leb_spec (- 2 ^ 63) n); [|lia].
    by destruct (Z.leb_spec n int64_max); [|lia].
Qed.

(** An attribute that stands as it is in a header. *)
Definition attribute_ok (a : string) : Prop := trim_header a = a /\ a <> EmptyString /\ sforall (fun c => negb (Ascii.eqb ";" c)) a = true.

Lemma attributes_list l : forall fuel a c, (String.length (" " +:+ a +:+ render_attributes l) <= fuel)%nat -> Forall attribute_ok (a :: l) ->
  attributes fuel (" " +:+ a +:+ render_attributes l) c = foldM (fun c a => set_attribute a c) c (a :: l).
Proof.
  induction l as [|b l IH]; intros fuel a c Hf Ha; inversion Ha as [|? ? (Ht & Hne & Hs) Hl]; subst; cbn [render_attributes] in *;
    (destruct fuel as [|fuel]; [cbn in Hf; lia|]); cbn [attributes sempty].
  - rewrite sapp_nil in *. change (sempty (" " +:+ a)) with false. cbv iota.
    assert (E : find_char ";" (" " +:+ a) = None) by (apply find_if_none; exact Hs). rewrite E. cbn [sprefix]. rewrite trim_header_blank, Ht.
    destruct a as [|x a]; [done|]. cbn [sempty foldM]. destruct (set_attribute _ c); [|done]. cbn [mbind result_bind]. by destruct fuel.
  - change (sempty (" " +:+ a +:+ "; " +:+ b +:+ render_attributes l)) with false. cbv iota.
    assert (E : find_char ";" (" " +:+ a +:+ "; " +:+ b +:+ render_attributes l) = Some (S (String.length a))).
    { rewrite <- sapp_assoc. unfold find_char. rewrite find_if_app by exact Hs. cbn. by rewrite Nat.add_0_r. }
    rewrite E. cbn [sprefix]. assert (E1 : stake (S (String.length a)) (" " +:+ a +:+ "; " +:+ b +:+ render_attributes l) = " " +:+ a).
    { rewrite <- sapp_assoc. apply (stake_app (" " +:+ a)). }
    assert (E2 : sdrop (S (S (String.length a))) (" " +:+ a +:+ "; " +:+ b +:+ render_attributes l) = " " +:+ b +:+ render_attributes l).
    { rewrite <- sapp_assoc. replace (S (S (String.length a))) with (String.length (" " +:+ a) + 1)%nat by (cbn; lia). by rewrite sdrop_app. }
    rewrite E1, E2, trim_header_blank, Ht. destruct a as [|x a]; [done|]. cbn [sempty]. change (foldM (fun c a => set_attribute a c) c (String x a :: b :: l))
      with (c ← set_attribute (String x a) c; foldM (fun c a => set_attribute a c) c (b :: l)).
    destruct (set_attribute (String x a) c) as [c'|]; [|done]. cbn [mbind result_bind]. apply IH; [|done]. rewrite !slength_app in *. cbn [String.length] in *. lia.
Qed.

Definition with_attributes (c : SetCookie) (d p : string) (s h : bool) (e a : option Z) : SetCookie := mkSetCookie (sc_name c) (sc_value c) d p s h e a.

Lemma attribute_prefix p v : clean v -> v <> EmptyString -> trim_front p = p -> p <> EmptyString -> sforall (fun c => negb (Ascii.eqb ";" c)) p = true -> attribute_ok (p +:+ v).
Proof.
  intros (H1 & H2 & H3) Hne Hp Hpn Hs. split; [unfold trim_header; rewrite trim_front_app by done; by apply trim_back_app|]. split; [by destruct p|]. by rewrite sforall_app, Hs, H3.
Qed.

Lemma clean_number n : clean (to_string n) /\ to_string n <> EmptyString.
Proof.
  assert (Hd : forall s, sforall is_digit s = true -> trim_back s = s /\ sforall (fun c => negb (Ascii.eqb ";" c)) s = true).
  { induction s as [|c s IH]; [done|]. cbn [trim_back sforall]. intros [Hc Hs]%andb_true_iff. destruct (IH Hs) as [-> ->]. destruct (digit_not_special c Hc) as (H1 & _).
    assert (Hx : is_line_space c = false /\ Ascii.eqb ";" c = false).
    { unfold is_digit in Hc. unfold is_line_space, is_blank. split; [lia|]. destruct (Ascii.eqb_spec ";" c) as [<-|]; [done|done]. }
    destruct Hx as [Hx1 ->]. rewrite Hx1. by destruct s. }
  assert (Hpos : forall m, 0 <= m -> clean (to_string m) /\ to_string m <> EmptyString).
  { intros m Hm. destruct (Hd (to_string m) (to_string_digits m Hm)) as [H1 H2]. destruct (to_string_nonempty m Hm) as (c & s & E & Hc). rewrite E in *. split; [|done]. split; [|done].
    cbn [trim_front]. unfold is_digit in Hc. unfold is_blank. destruct ((code c =? 32) || (code c =? 9)) eqn:Eb; [lia|done]. }
  destruct (decide (0 <= n)); [by apply Hpos|]. assert (E : to_string n = "-" +:+ to_string (- n)) by (destruct n; [lia|lia|done]). destruct (Hpos (- n)) as [(C1 & C2 & C3) Hne]; [lia|].
  rewrite E. split; [|done]. split; [done|]. split; [by apply trim_back_app|]. by rewrite sforall_app, C3.
Qed.

(** The known attributes. *)
Lemma set_domain d c : clean d -> set_attribute ("Domain=" +:+ d) c = Ok (with_attributes c d (sc_path c) (sc_secure c) (sc_http_only c) (sc_expires c) (sc_max_age c)).
Proof.
  intros Hd. unfold set_attribute. assert (E : find_char "=" ("Domain=" +:+ d) = Some 6%nat) by done. rewrite E. cbn [sprefix].
  change (stake 6 ("Domain=" +:+ d)) with "Domain". change (sdrop 7 ("Domain=" +:+ d)) with d. by rewrite (clean_trimmed d).
Qed.
Lemma set_path p c : clean p -> set_attribute ("Path=" +:+ p) c = Ok (with_attributes c (sc_domain c) p (sc_secure c) (sc_http_only c) (sc_expires c) (sc_max_age c)).
Proof.
  intros Hp. unfold set_attribute. assert (E : find_char "=" ("Path=" +:+ p) = Some 4%nat) by done. rewrite E. cbn [sprefix].
  change (stake 4 ("Path=" +:+ p)) with "Path". change (sdrop 5 ("Path=" +:+ p)) with p. by rewrite (clean_trimmed p).
Qed.
Lemma set_max_age n c : - 2 ^ 63 <= n <= int64_max -> set_attribute ("Max-Age=" +:+ to_string n) c
  = Ok (with_attributes c (sc_domain c) (sc_path c) (sc_secure c) (sc_http_only c) (sc_expires c) (Some n)).
Proof.
  intros Hn. unfold set_attribute. assert (E : find_char "=" ("Max-Age=" +:+ to_string n) = Some 7%nat) by done. rewrite E. cbn [sprefix].
  change (stake 7 ("Max-Age=" +:+ to_string n)) with "Max-Age". change (sdrop 8 ("Max-Age=" +:+ to_string n)) with (to_string n).
  rewrite (clean_trimmed (to_string n)) by apply clean_number. rewrite from_chars_prefix_to_string by done. done.
Qed.
Lemma set_expires date sec c : clean date -> sforall (fun c => negb (Ascii.eqb nul c)) date = true -> curl_getdate date = sec -> sec <> -1 -> - 2 ^ 63 <= sec * second <= int64_max ->
  set_attribute ("Expires=" +:+ date) c = Ok (with_attributes c (sc_domain c) (sc_path c) (sc_secure c) (sc_http_only c) (Some (sec * second)) (sc_max_age c)).
Proof.
  intros Hd Hn Hs Hm Hr. unfold set_attribute. assert (E : find_char "=" ("Expires=" +:+ date) = Some 7%nat) by done. rewrite E. cbn [sprefix].
  change (stake 7 ("Expires=" +:+ date)) with "Expires". change (sdrop 8 ("Expires=" +:+ date)) with date. rewrite (clean_trimmed date) by done.
  assert (Ec : c_str date = date) by (unfold c_str, find_char; by rewrite (proj1 (find_if_none _ _) Hn)). rewrite Ec, Hs.
  change (trim_header "Expires") with "Expires". cbn [headerNamesEqual]. destruct (Z.eqb_spec sec (-1)); [done|].
  assert (Eck : checked (sec * second) = Ok (sec * second)).
  { unfold checked. destruct (Z.leb_spec (- 2 ^ 63) (sec * second)); [|lia]. by destruct (Z.leb_spec (sec * second) int64_max); [|lia]. }
  rewrite Eck. done.
Qed.
Lemma set_secure c : set_attribute "Secure" c = Ok (with_attributes c (sc_domain c) (sc_path c) true (sc_http_only c) (sc_expires c) (sc_max_age c)).
Proof. done. Qed.
Lemma set_http_only c : set_attribute "HttpOnly" c = Ok (with_attributes c (sc_domain c) (sc_path c) (sc_secure c) true (sc_expires c) (sc_max_age c)).
Proof. done. Qed.

(** What a cookie needs to stand in a header, with the date of its expiry. *)
Record readable (date : string) (c : SetCookie) : Prop := {
  name_ok : clean (sc_name c) /\ sc_name c <> EmptyString /\ sforall (fun c => negb (Ascii.eqb "=" c)) (sc_name c) = true;
  value_ok : clean (sc_value c);
  domain_ok : clean (sc_domain c);
  path_ok : clean (sc_path c);
  age_ok : forall n, sc_max_age c = Some n -> - 2 ^ 63 <= n <= int64_max;
  date_ok : forall e, sc_expires c = Some e -> clean date /\ date <> EmptyString /\ sforall (fun c => negb (Ascii.eqb nul c)) date = true
    /\ exists sec, curl_getdate date = sec /\ sec <> -1 /\ e = sec * second /\ - 2 ^ 63 <= e <= int64_max }.

Lemma read_attributes date c : readable date c ->
  foldM (fun c a => set_attribute a c) (mkSetCookie (sc_name c) (sc_value c) EmptyString EmptyString false false None None) (attribute_list date c) = Ok c.
Proof.
  intros [_ _ Hd Hp Ha He]. destruct c as [n v d p s h e a]. cbn [sc_name sc_value sc_domain sc_path sc_secure sc_http_only sc_expires sc_max_age] in *.
  unfold attribute_list. cbn [sc_name sc_value sc_domain sc_path sc_secure sc_http_only sc_expires sc_max_age].
  rewrite foldM_app. assert (E1 : foldM (fun c a => set_attribute a c) (mkSetCookie n v EmptyString EmptyString false false None None) (if sempty d then [] else ["Domain=" +:+ d])
    = Ok (mkSetCookie n v d EmptyString false false None None)) by (destruct d as [|x d]; [done|]; cbn [sempty foldM]; by rewrite set_domain).
  rewrite E1. cbn [mbind result_bind]. rewrite foldM_app.
  assert (E2 : foldM (fun c a => set_attribute a c) (mkSetCookie n v d EmptyString false false None None) (if sempty p then [] else ["Path=" +:+ p])
    = Ok (mkSetCookie n v d p false false None None)) by (destruct p as [|x p]; [done|]; cbn [sempty foldM]; by rewrite set_path).
  rewrite E2. cbn [mbind result_bind]. rewrite foldM_app.
  assert (E3 : foldM (fun c a => set_attribute a c) (mkSetCookie n v d p false false None None) match a with Some n => ["Max-Age=" +:+ to_string n] | None => [] end
    = Ok (mkSetCookie n v d p false false None a)) by (destruct a as [m|]; [|done]; cbn [foldM]; by rewrite set_max_age by by apply Ha).
  rewrite E3. cbn [mbind result_bind]. rewrite foldM_app.
  assert (E4 : foldM (fun c a => set_attribute a c) (mkSetCookie n v d p false false None a) (if e then ["Expires=" +:+ date] else [])
    = Ok (mkSetCookie n v d p false false e a)).
  { destruct e as [x|]; [|done]. cbn [foldM]. destruct (He x eq_refl) as (H1 & H2 & H3 & sec & H4 & H5 & -> & H6). by rewrite (set_expires date sec). }
  rewrite E4. cbn [mbind result_bind]. by destruct s, h.
Qed.

Lemma attributes_ok date c : readable date c -> Forall attribute_ok (attribute_list date c).
Proof.
  intros [_ _ Hd Hp Ha He]. unfold attribute_list. repeat (apply Forall_app; split).
  - destruct (sc_domain c) eqn:E; [by constructor|]. cbn [sempty]. constructor; [|done]. by apply attribute_prefix.
  - destruct (sc_path c) eqn:E; [by constructor|]. cbn [sempty]. constructor; [|done]. by apply attribute_prefix.
  - destruct (sc_max_age c) as [m|]; [|by constructor]. constructor; [|done]. destruct (clean_number m). by apply attribute_prefix.
  - destruct (sc_expires c) as [x|]; [|by constructor]. constructor; [|done]. destruct (He x eq_refl) as (H1 & H2 & _). by apply attribute_prefix.
  - destruct (sc_secure c); by repeat constructor.
  - destruct (sc_http_only c); by repeat constructor.
Qed.

(** A Set-Cookie header reads back as what it was made of: the pair of name and value and each attribute the cookie has, whatever the value holds beyond separators and surrounding space, a Max-Age over the whole range of 64 bits and an expiry as the seconds its date names. *)
Theorem set_cookie_reads_back date c : readable date c -> parseSetCookie (render_set_cookie date c) = Ok (Some c).
Proof.
  intros Hr. assert (Hn := name_ok _ _ Hr). destruct Hn as ((N1 & N2 & N3) & Nne & Neq). destruct (value_ok _ _ Hr) as (V1 & V2 & V3).
  set (pair := sc_name c +:+ "=" +:+ sc_value c).
  assert (Hpair : trim_header pair = pair).
  { unfold trim_header, pair. rewrite trim_front_app by done. apply trim_back_app; [by apply trim_back_equals|done]. }
  assert (Hsemi : sforall (fun c => negb (Ascii.eqb ";" c)) pair = true) by (unfold pair; rewrite !sforall_app, N3, V3; done).
  assert (Hfind : find_char "=" pair = Some (String.length (sc_name c))).
  { unfold find_char, pair. rewrite find_if_app by done. cbn. by rewrite Nat.add_0_r. }
  assert (Hname : trim_header (stake (String.length (sc_name c)) pair) = sc_name c) by (unfold pair; rewrite stake_app; by apply clean_trimmed).
  assert (Hvalue : trim_header (sdrop (S (String.length (sc_name c))) pair) = sc_value c).
  { unfold pair. replace (S (String.length (sc_name c))) with (String.length (sc_name c) + 1)%nat by lia. rewrite sdrop_app. cbn [sdrop]. by apply clean_trimmed. }
  assert (Hne : sempty (sc_name c) = false) by by destruct (sc_name c).
  unfold parseSetCookie, render_set_cookie. assert (Epair : sc_name c +:+ "=" +:+ sc_value c +:+ render_attributes (attribute_list date c) = pair +:+ render_attributes (attribute_list date c))
    by (unfold pair; by rewrite !sapp_assoc). rewrite Epair.
  assert (Hok := attributes_ok date c Hr). assert (Hread := read_attributes date c Hr). destruct (attribute_list date c) as [|a l]; cbn [render_attributes].
  - rewrite sapp_nil. assert (E : find_char ";" pair = None) by by apply find_if_none. rewrite E. cbn [sprefix]. rewrite Hpair, Hfind, Hname, Hvalue, Hne.
    cbn [attributes String.length mbind result_bind]. cbn [foldM] in Hread. injection Hread as <-. done.
  - assert (E : find_char ";" (pair +:+ "; " +:+ a +:+ render_attributes l) = Some (String.length pair)).
    { unfold find_char. rewrite find_if_app by done. cbn. by rewrite Nat.add_0_r. }
    rewrite E. cbn [sprefix]. rewrite stake_app, Hpair, Hfind, Hname, Hvalue, Hne.
    replace (S (String.length pair)) with (String.length pair + 1)%nat by lia. rewrite sdrop_app.
    change (sdrop 1 ("; " +:+ a +:+ render_attributes l)) with (" " +:+ a +:+ render_attributes l). rewrite attributes_list by done. by rewrite Hread.
Qed.
End dates.

(** ** Runs *)

Module CookieExample.

Definition far : string := "Fri, 31 Dec 9999 23:59:59 GMT".
Definition getdate (s : string) : Z := if String.eqb s far then 253402300799 else if String.eqb s "Thu, 01 Jan 1970 00:01:00 GMT" then 60 else -1.
Definition parse (url : string) : option ParsedUrl :=
  if String.eqb url "https://www.example.com/a/b" then Some (mkUrl "www.example.com" "/a/b" "https:")
  else if String.eqb url "https://example.com/a/c" then Some (mkUrl "example.com" "/a/c" "https:")
  else if String.eqb url "http://example.com/a/c" then Some (mkUrl "example.com" "/a/c" "http:")
  else if String.eqb url "https://evil.com/" then Some (mkUrl "evil.com" "/" "https:")
  else if String.eqb url "https://bank.com/" then Some (mkUrl "bank.com" "/" "https:")
  else if String.eqb url "http://[2001:db8::1]/" then Some (mkUrl "[2001:db8::1]" "/" "http:")
  else if String.eqb url "http://[fe80:db8::1]/" then Some (mkUrl "[fe80:db8::1]" "/" "http:")
  else None.

Definition answered (url : string) (cookies : list string) : exchange := mkExchange url ((fun c => ("Set-Cookie", c)) <$> cookies) 0.
(** The headers of a request after some responses. *)
Definition then_asked (l : list exchange) (url : string) : result HttpHeaders :=
  '(o, s) ← run_session getdate parse [] (CookieStore_make true) l; request_headers parse url o s [] 1.

Definition login := [answered "https://www.example.com/a/b" ["id=7; Domain=.Example.com; Path=/a; Secure; Max-Age=60"; "own=1"; "deep=2; Path=/a/b/c"]].

(** One cookie goes to the whole domain over https, one to its own host. *)
Lemma login_run : then_asked login "https://example.com/a/c" = Ok [("Cookie", "id=7")]
  /\ then_asked login "http://example.com/a/c" = Ok [] /\ then_asked login "https://www.example.com/a/b" = Ok [("Cookie", "own=1; id=7")].
Proof. repeat split; vm_compute; reflexivity. Qed.


Definition id_cookie : Cookie := mkCookie "id" "7" "example.com" "/" true false None.
Lemma request_sends_matching_cookies_witness : exists h, applyRequestCookies parse "https://example.com/a/c" [id_cookie] (CookieStore_make true) [] 1 = Ok h
  /\ exists sent, (id_cookie ∈ sent) /\ StronglySorted longer sent.
Proof.
  destruct (applyRequestCookies parse "https://example.com/a/c" [id_cookie] (CookieStore_make true) [] 1) as [h|e] eqn:E; [|exfalso; revert E; vm_compute; discriminate].
  exists h. split; [done|].
  destruct (request_sends_matching_cookies parse "https://example.com/a/c" [id_cookie] (CookieStore_make true) [] 1 (mkTarget "example.com" "/a/c" true) h) as (sent & Hs & Hl & _);
    [vm_compute; reflexivity|exact E|]. exists sent. split; [|done]. apply Hs. left. split; [rewrite list_elem_of_singleton; done|].
  apply cookie_matches_spec. vm_compute. reflexivity.
Defined.

Definition token : SetCookie := mkSetCookie "token" "a=b c" "example.com" EmptyString true false (Some (60 * second)) (Some (-5)).
Lemma set_cookie_reads_back_witness :
  parseSetCookie getdate "token=a=b c; Domain=example.com; Max-Age=-5; Expires=Thu, 01 Jan 1970 00:01:00 GMT; Secure" = Ok (Some token).
Proof.
  apply (set_cookie_reads_back getdate "Thu, 01 Jan 1970 00:01:00 GMT" token). split; try (by repeat split).
  - intros n [= <-]. split; vm_compute; congruence.
  - intros e [= <-]. split; [done|]. split; [done|]. split; [done|]. exists 60. split; [done|]. split; [done|]. split; [done|]. split; vm_compute; congruence.
Defined.

(** An expiry beyond the year 2262 overflows. *)
Lemma far_expiry_overflows : collectResponseCookies getdate parse "https://example.com/a/c" [("Set-Cookie", "id=1; expires=Fri, 31 Dec 9999 23:59:59 GMT")] 0 = Throw overflow
  /\ collectResponseCookies getdate parse "https://example.com/a/c" [("Set-Cookie", "id=1; Max-Age=9999999999")] 0 = Throw overflow.
Proof. split; vm_compute; reflexivity. Qed.

(** A domain that ends in a colon throws, and no cookie of the response is taken. *)
Lemma colon_in_domain_throws : collectResponseCookies getdate parse "https://example.com/a/c" [("Set-Cookie", "a=1"); ("Set-Cookie", "id=1; Domain=x:")] 0
  = Throw (out_of_range "basic_string::substr").
Proof. vm_compute. reflexivity. Qed.

(** Two IPv6 hosts that agree from the second group on share their cookies. *)
Lemma ipv6_hosts_share_cookies : then_asked [answered "http://[2001:db8::1]/" ["id=1"]] "http://[fe80:db8::1]/" = Ok [("Cookie", "id=1")].
Proof. vm_compute. reflexivity. Qed.

(** A whole top-level domain can be named. *)
Lemma top_level_domain_is_taken : then_asked [answered "https://evil.com/" ["id=1; Domain=com"]] "https://bank.com/" = Ok [("Cookie", "id=1")].
Proof. vm_compute. reflexivity. Qed.

(** A response that removes a cookie and sets it again leaves it removed. *)
Lemma later_set_is_removed : then_asked [answered "https://bank.com/" ["id=; Max-Age=0"; "id=1; Max-Age=60"]] "https://bank.com/" = Ok [].
Proof. vm_compute. reflexivity. Qed.

(** A kept cookie set after a session cookie of the same identity is not sent. *)
Lemma session_cookie_hides_its_successor :
  then_asked [answered "https://bank.com/" ["id=old"]; answered "https://bank.com/" ["id=new; Max-Age=60"]] "https://bank.com/" = Ok [("Cookie", "id=old")].
Proof. vm_compute. reflexivity. Qed.
End CookieExample.
