(* ===== verification/LanePool.v ===== *)
(** * Exchanges of the downloader: [IDHANDownloader/src/http/LanePool.cpp]

    The pool finds the lane of each request by its host, follows redirects,
    retries what was rate limited, and keeps the policies and lanes.  A step is
    one call of the pool: a request sent, a hop handed to its lane, the answer of
    a lane ([Lane.v] answers each hop once), a cancellation, a sweep.  Between
    [laneFor] and the lane's [submit] a hop is in hand, and other calls may come
    between.  The policies are those of [LanePolicy.v], the cookies those of
    [Cookies.v]; the URL parser ada is an argument, and so are clock readings and
    what the lanes answer to [retirable].  Fields of a request that are only
    passed on, and log lines, are left out.  An exception ends a run: nothing
    catches it on the threads of the pool. *)
From S2P Require Import Prelude StringView LanePolicy HttpParams Cookies.
From Stdlib Require Import Ascii.
From Stdlib Require String.

Inductive TransferErrorCode := INVALID_REQUEST | INVALID_URL | TRANSPORT | TOO_LARGE | SINK | CANCELLED | SHUTDOWN.
#[export] Instance TransferErrorCode_eq_dec : EqDecision TransferErrorCode.
Proof. solve_decision. Defined.

Record TransferOptions := mkOptions {
  o_http_version : option HttpVersion; follow_redirects : bool; max_redirects : Z; max_response_bytes : Z; timeout_ms : Z; user_agent : string; o_bytes_per_second : Z }.
Definition TransferOptions_default : TransferOptions := mkOptions None true 10 0 0 EmptyString 0.

Record TransferRequest := mkRequest {
  method : HttpMethod; url : string; headers : HttpHeaders; body : string; options : TransferOptions;
  cookies : option nat (* the overlay, when there are an overlay and a store *);
  cancellation : option nat; sink : bool }.

Record TransferResponse := mkResponse { status : Z; response_url : string; response_headers : HttpHeaders; response_sink : bool }.

Record Exchange := mkExchange { request : TransferRequest; hops : list (string * Z); redirects : Z }.

(** Where an exchange stands. *)
Inductive standing := In_hand (key : string) (lane : nat) (hop : TransferRequest) | Waiting (key : string) | Ended.

Inductive outcome := Failed_with (code : TransferErrorCode) | Answered (r : TransferResponse) (hops : list (string * Z)).

Inductive effect :=
  | Submitted (i lane : nat) (hop : TransferRequest) | Called (i : nat) (o : outcome) | SinkAborted (i : nat)
  | Published (key : string) | LaneShutdown (lane : nat) | LaneWoken (lane : nat) | LaneCancelled (lane flag : nat).

Record Config := mkConfig {
  default_rate : RequestRate; c_http_version : HttpVersion; c_user_agent : string; c_max_response_bytes : Z; c_timeout_ms : Z; observer : bool }.

Record LanePool := mkPool {
  m_policies : gmap string LanePolicy;
  m_lanes : gmap string nat; lanes_made : nat;
  m_stopped : bool; m_sweep_armed : bool;
  exchanges : list (Exchange * standing);
  overlays : list (list Cookie); store : CookieStore;
  flags : list nat; (* the cancellations that are set *)
  effects : list effect }.

Definition LanePool_make (overlays : list (list Cookie)) (store : CookieStore) : LanePool :=
  mkPool ∅ ∅ 0 false true [] overlays store [] [].

Definition set_policies (m : gmap string LanePolicy) (w : LanePool) : LanePool :=
  mkPool m (m_lanes w) (lanes_made w) (m_stopped w) (m_sweep_armed w) (exchanges w) (overlays w) (store w) (flags w) (effects w).
Definition set_lanes (m : gmap string nat) (n : nat) (w : LanePool) : LanePool :=
  mkPool (m_policies w) m n (m_stopped w) (m_sweep_armed w) (exchanges w) (overlays w) (store w) (flags w) (effects w).
Definition set_stopped (stopped armed : bool) (w : LanePool) : LanePool :=
  mkPool (m_policies w) (m_lanes w) (lanes_made w) stopped armed (exchanges w) (overlays w) (store w) (flags w) (effects w).
Definition set_exchanges (l : list (Exchange * standing)) (w : LanePool) : LanePool :=
  mkPool (m_policies w) (m_lanes w) (lanes_made w) (m_stopped w) (m_sweep_armed w) l (overlays w) (store w) (flags w) (effects w).
Definition set_jars (o : list (list Cookie)) (s : CookieStore) (w : LanePool) : LanePool :=
  mkPool (m_policies w) (m_lanes w) (lanes_made w) (m_stopped w) (m_sweep_armed w) (exchanges w) o s (flags w) (effects w).
Definition set_flag (f : nat) (w : LanePool) : LanePool :=
  mkPool (m_policies w) (m_lanes w) (lanes_made w) (m_stopped w) (m_sweep_armed w) (exchanges w) (overlays w) (store w) (f :: flags w) (effects w).
Definition emit (l : list effect) (w : LanePool) : LanePool :=
  mkPool (m_policies w) (m_lanes w) (lanes_made w) (m_stopped w) (m_sweep_armed w) (exchanges w) (overlays w) (store w) (flags w) (effects w ++ l).

Definition lane_list (w : LanePool) : list (string * nat) := map_to_list (m_lanes w).
Definition policy_keys (w : LanePool) : list string := fst <$> (map_to_list (m_policies w) : list (string * LanePolicy)).

Definition isRedirect (status : Z) : bool := (status =? 301) || (status =? 302) || (status =? 303) || (status =? 307) || (status =? 308).

Definition isSensitiveHeader (name : string) : bool :=
  let name := lowered name in
  String.eqb name "authorization" || String.eqb name "proxy-authorization" || String.eqb name "cookie" || String.eqb name "set-cookie" || String.eqb name "x-api-key".

Definition isThrottleHeader (name : string) : bool :=
  let lowered_name := lowered name in
  if String.eqb lowered_name "retry-after" then true else contains "ratelimit" lowered_name || contains "rate-limit" lowered_name.

Section pool.
Context (getdate : string -> Z) (parse_url : string -> option ParsedUrl) (get_host : string -> string) (resolve : option string -> string -> option string).
Context (config : Config) (resolver : option (string -> LaneSettings)).

(** The settings of a host. *)
Definition settings_for (h : string) : LaneSettings := match resolver with Some f => f h | None => LaneSettings_default end.

Definition keyFor (h : string) : string := match group (settings_for h) with Some g => "group:" +:+ g | None => h end.

Definition laneKeyForUrl (u : string) : result string :=
  match parse_url u with None => Ok EmptyString | Some p => h ← normalizeHost (hostname p); Ok (keyFor h) end.

(** [laneFor]: the lane, if the pool has not stopped. *)
Definition laneFor (key h : string) (w : LanePool) : result (option nat * LanePool) :=
  if m_stopped w then Ok (None, w)
  else match m_lanes w !! key with
  | Some l => Ok (Some l, w)
  | None =>
      w ← match m_policies w !! key with
          | Some _ => Ok w
          | None =>
              let s := settings_for h in
              let s := if bool_decide (rate s = None) && bool_decide (group s = None) && bool_decide (resolver = None)
                       then mkSettings (Some (default_rate config)) (bytes_per_second s) (keep_alive s) (error_backoff s) (concurrency_setting s) (http_version s) (group s) else s in
              p ← LanePolicy_make key s hour;
              Ok (set_policies (<[key := p]> (m_policies w)) w)
          end;
      Ok (Some (lanes_made w), set_lanes (<[key := lanes_made w]> (m_lanes w)) (S (lanes_made w)) w)
  end.

Definition sameOrigin (a b : string) : bool :=
  match parse_url a, parse_url b with Some x, Some y => String.eqb (protocol x) (protocol y) && String.eqb (get_host a) (get_host b) | _, _ => false end.

(** [publish], to the observer. *)
Definition publish (key : string) (now : Z) (w : LanePool) : result LanePool :=
  if negb (observer config) then Ok w
  else match m_policies w !! key with
  | None => Ok w
  | Some p => _ ← LanePolicy.fill now p; Ok (emit [Published key] w)
  end.

(** [reportThrottleHeaders], what the policy is told. *)
Fixpoint reported_headers (h : HttpHeaders) (reported : string) : string :=
  match h with
  | [] => reported
  | (n, v) :: h =>
      if isThrottleHeader n then reported_headers h ((if sempty reported then reported else reported +:+ ", ") +:+ n +:+ "=" +:+ v) else reported_headers h reported
  end.
Definition with_policy (key : string) (p : option LanePolicy) (w : LanePool) : LanePool :=
  match p with Some p => set_policies (<[key := p]> (m_policies w)) w | None => w end.
Definition policyFor (key : string) (w : LanePool) : option LanePolicy := m_policies w !! key.
Definition reportThrottleHeaders (key : string) (h : HttpHeaders) (w : LanePool) : LanePool :=
  let reported := reported_headers h EmptyString in
  if sempty reported then w else with_policy key (advertised reported <$> policyFor key w) w.

Definition set_standing (i : nat) (x : Exchange) (s : standing) (w : LanePool) : LanePool := set_exchanges (<[i := (x, s)]> (exchanges w)) w.
(** The callback of the exchange, and the sink before it. *)
Definition end_exchange (i : nat) (x : Exchange) (o : outcome) (w : LanePool) : LanePool :=
  set_standing i x Ended (emit ((if sink (request x) then [SinkAborted i] else []) ++ [Called i o]) w).

Definition set_request (r : TransferRequest) (x : Exchange) : Exchange := mkExchange r (hops x) (redirects x).
Definition with_sink (b : bool) (r : TransferRequest) : TransferRequest := mkRequest (method r) (url r) (headers r) (body r) (options r) (cookies r) (cancellation r) b.
Definition with_options (o : TransferOptions) (r : TransferRequest) : TransferRequest := mkRequest (method r) (url r) (headers r) (body r) o (cookies r) (cancellation r) (sink r).
Definition with_headers (h : HttpHeaders) (r : TransferRequest) : TransferRequest := mkRequest (method r) (url r) h (body r) (options r) (cookies r) (cancellation r) (sink r).

(** [dispatch], up to the lane's [submit]. *)
Definition dispatch (i : nat) (x : Exchange) (wall : Z) (w : LanePool) : result LanePool :=
  let r := request x in
  if (match cancellation r with Some f => bool_decide (f ∈ flags w) | None => false end) then Ok (end_exchange i x (Failed_with CANCELLED) w)
  else match parse_url (url r) with
  | None => Ok (end_exchange i x (Failed_with INVALID_URL) w)
  | Some u =>
      if negb (String.eqb (protocol u) "http:") && negb (String.eqb (protocol u) "https:") then Ok (end_exchange i x (Failed_with INVALID_URL) w)
      else
        h ← normalizeHost (hostname u);
        '(lane, w) ← laneFor (keyFor h) h w;
        match lane with
        | None => Ok (end_exchange i x (Failed_with SHUTDOWN) w)
        | Some lane =>
            let s := settings_for h in
            let o := options r in
            let o := mkOptions (Some (match http_version s with Some v => v | None => c_http_version config end)) (follow_redirects o) (max_redirects o)
                       (if max_response_bytes o =? 0 then c_max_response_bytes config else max_response_bytes o) (c_timeout_ms config) (c_user_agent config) (bytes_per_second s) in
            let r := with_options o r in
            hop ← match cookies r with
                  | Some jar => hs ← request_headers parse_url (url r) (default [] (overlays w !! jar)) (store w) (headers r) wall; Ok (with_headers hs r)
                  | None => Ok r
                  end;
            Ok (set_standing i (set_request (with_sink false r) x) (In_hand (keyFor h) lane hop) w)
        end
  end.

(** The request after a redirect. *)
Definition redirected (st : Z) (r : TransferRequest) : TransferRequest :=
  if (st =? 301) || (st =? 302) || (st =? 303) then
    mkRequest (match method r with HEAD => HEAD | _ => GET end) (url r) (header_erase "content-length" (header_erase "content-type" (headers r))) EmptyString
      (options r) (cookies r) (cancellation r) (sink r)
  else r.

(** The headers that may leave the origin: each sensitive name is erased. *)
Definition strip_sensitive (h : HttpHeaders) : HttpHeaders :=
  foldl (fun h name => header_erase name h) h (filter (fun n => isSensitiveHeader n = true) (fst <$> h)).

(** [complete] for a response, after cookies, throttling and the policy. *)
Definition follow (i : nat) (x : Exchange) (r : TransferResponse) (wall : Z) (w : LanePool) : result LanePool :=
  let location := header_get "location" (response_headers r) in
  let follows := follow_redirects (options (request x)) && isRedirect (status r) && negb (sempty location) && (redirects x <? max_redirects (options (request x))) in
  let base := match parse_url (response_url r) with Some _ => Some (response_url r) | None => None end in
  match (if follows then resolve base location else None) with
  | None => Ok (end_exchange i (mkExchange (request x) [] (redirects x)) (Answered r (hops x)) w)
  | Some target =>
      let q := redirected (status r) (request x) in
      let q := if sameOrigin (response_url r) target then q else with_headers (strip_sensitive (headers q)) q in
      let q := mkRequest (method q) target (headers q) (body q) (options q) (cookies q) (cancellation q) (sink q) in
      dispatch i (mkExchange q (hops x ++ [(response_url r, status r)]) (redirects x + 1)) wall w
  end.

(** What a response does to the policy; whether it was rate limited. *)
Definition judge (key : string) (r : TransferResponse) (now wall : Z) (w : LanePool) : result LanePool :=
  w ← match policyFor key w with
      | Some p =>
          if status r =? 429 then
            '(p, _) ← limited (if header_contains "retry-after" (response_headers r) then Some (header_get "retry-after" (response_headers r)) else None) now wall p;
            Ok (with_policy key (Some p) w)
          else if (400 <=? status r) && negb (status r =? 404) then p ← failed now p; Ok (with_policy key (Some p) w)
          else Ok w
      | None => Ok w
      end;
  if bool_decide (is_Some (policyFor key w)) && ((status r =? 429) || ((400 <=? status r) && negb (status r =? 404))) then publish key now w else Ok w.

Definition take_cookies (x : Exchange) (r : TransferResponse) (wall : Z) (w : LanePool) : result LanePool :=
  match cookies (request x) with
  | Some jar =>
      c ← collectResponseCookies getdate parse_url (response_url r) (response_headers r) wall;
      let '(o, s) := take_collected c (default [] (overlays w !! jar)) (store w) in
      Ok (set_jars (<[jar := o]> (overlays w)) s w)
  | None => Ok w
  end.

(** [complete] *)
Definition complete (i : nat) (x : Exchange) (key : string) (res : TransferErrorCode + TransferResponse) (now wall : Z) (w : LanePool) : result LanePool :=
  match res with
  | inl code =>
      w ← match policyFor key w with
          | Some p => if bool_decide (code = CANCELLED) || bool_decide (code = SHUTDOWN) then Ok w else p ← failed now p; publish key now (with_policy key (Some p) w)
          | None => Ok w
          end;
      Ok (set_standing i x Ended (emit [Called i (Failed_with code)] w))
  | inr r =>
      let x := set_request (with_sink (response_sink r) (request x)) x in
      w ← take_cookies x r wall w;
      let w := reportThrottleHeaders key (response_headers r) w in
      w ← judge key r now wall w;
      if status r =? 429 then dispatch i x wall w else follow i x r wall w
  end.

(** ** Calls of the pool *)

Inductive event :=
  | Send (r : TransferRequest) (wall : Z)
  | Submit (i : nat) (now : Z) (* the lane's [submit] and the [publish] after it *)
  | Answer (i : nat) (res : TransferErrorCode + TransferResponse) (now wall : Z)
  | Cancel (flag : nat) | ResetBackoff (key : string) (now : Z) | ResetAllBackoff (now : Z)
  | Sweep (retirable : string -> bool) (now : Z) | Shutdown.

(** [publish] of several keys. *)
Definition publish_all (keys : list string) (now : Z) (w : LanePool) : result LanePool := foldM (fun w key => publish key now w) w keys.

Definition sweep (retirable : string -> bool) (now : Z) (w : LanePool) : result LanePool :=
  if m_stopped w then Ok (set_stopped true false w)
  else
    let lanes := lane_list w in
    let gone := filter (fun kl : string * nat => retirable (fst kl) = true) lanes in
    let w := set_stopped false false w in
    let w := set_lanes (filter (fun kl : string * nat => retirable (fst kl) = false) (m_lanes w)) (lanes_made w) w in
    w ← publish_all (fst <$> lanes) now (emit ((fun kl : string * nat => LaneShutdown (snd kl)) <$> gone) w);
    Ok (set_stopped (m_stopped w) true w).

(** [none] when the event cannot happen. *)
Definition step (w : LanePool) (ev : event) : option (result LanePool) :=
  match ev with
  | Send r wall => let x := mkExchange r [] 0 in Some (dispatch (length (exchanges w)) x wall (set_exchanges (exchanges w ++ [(x, Ended)]) w))
  | Submit i now =>
      match exchanges w !! i with
      | Some (x, In_hand key lane hop) => Some (publish key now (set_standing i x (Waiting key) (emit [Submitted i lane hop] w)))
      | _ => None
      end
  | Answer i res now wall => match exchanges w !! i with Some (x, Waiting key) => Some (complete i x key res now wall w) | _ => None end
  | Cancel flag => Some (Ok (emit ((fun kl : string * nat => LaneCancelled (snd kl) flag) <$> lane_list w) (set_flag flag w)))
  | ResetBackoff key now =>
      match m_policies w !! key with
      | None => Some (Ok w)
      | Some p =>
          let w := set_policies (<[key := LanePolicy.reset p]> (m_policies w)) w in
          Some (publish key now (emit (match m_lanes w !! key with Some l => [LaneWoken l] | None => [] end) w))
      end
  | ResetAllBackoff now =>
      let w := set_policies (LanePolicy.reset <$> m_policies w) w in
      Some (publish_all (policy_keys w) now (emit ((fun kl : string * nat => LaneWoken (snd kl)) <$> lane_list w) w))
  | Sweep retirable now => if m_sweep_armed w then Some (sweep retirable now w) else None
  | Shutdown =>
      if m_stopped w then Some (Ok w)
      else Some (Ok (emit ((fun kl : string * nat => LaneShutdown (snd kl)) <$> lane_list w) (set_lanes ∅ (lanes_made w) (set_stopped true (m_sweep_armed w) w))))
  end.

Fixpoint run (w : LanePool) (evs : list event) : option (result LanePool) :=
  match evs with
  | [] => Some (Ok w)
  | ev :: evs => r ← step w ev; match r with Ok w => run w evs | Throw e => Some (Throw e) end
  end.

(** ** What the parts do *)

(** A change that moves no exchange and calls nobody. *)
Definition silent (e : effect) : Prop := match e with Submitted _ _ _ | Called _ _ => False | _ => True end.
Definition quiet (w w' : LanePool) : Prop := exchanges w' = exchanges w /\ exists l, effects w' = effects w ++ l /\ Forall silent l.

Lemma quiet_refl w : quiet w w.
Proof. split; [done|]. exists []. by rewrite app_nil_r. Qed.

Lemma quiet_trans w1 w2 w3 : quiet w1 w2 -> quiet w2 w3 -> quiet w1 w3.
Proof.
  intros [E1 (l1 & F1 & S1)] [E2 (l2 & F2 & S2)]. split; [congruence|]. exists (l1 ++ l2). split; [by rewrite F2, F1, app_assoc|]. by apply Forall_app.
Qed.

Lemma quiet_same w w' : exchanges w' = exchanges w -> effects w' = effects w -> quiet w w'.
Proof. intros H1 H2. split; [done|]. exists []. by rewrite app_nil_r. Qed.

Lemma quiet_emit w l : Forall silent l -> quiet w (emit l w).
Proof. intros H. split; [done|]. by exists l. Qed.

Lemma quiet_publish key now w w' : publish key now w = Ok w' -> quiet w w'.
Proof.
  unfold publish. destruct (negb (observer config)); [intros [= <-]; apply quiet_refl|]. destruct (m_policies w !! key); [|intros [= <-]; apply quiet_refl].
  destruct (LanePolicy.fill now l); [|done]. intros [= <-]. apply quiet_emit. by repeat constructor.
Qed.

Lemma quiet_publish_all keys now : forall w w', publish_all keys now w = Ok w' -> quiet w w'.
Proof.
  unfold publish_all. induction keys as [|k keys IH]; intros w w'; cbn [foldM]; [intros [= <-]; apply quiet_refl|].
  destruct (publish k now w) as [w1|] eqn:E; [|done]. cbn [mbind result_bind]. intros H. eapply quiet_trans; [by eapply quiet_publish|by apply IH].
Qed.

Lemma quiet_policy key p w : quiet w (with_policy key p w).
Proof. destruct p; [by apply quiet_same|apply quiet_refl]. Qed.

Lemma quiet_judge key r now wall w w' : judge key r now wall w = Ok w' -> quiet w w'.
Proof.
  unfold judge. set (m := match policyFor key w with Some _ => _ | None => _ end). assert (Hm : forall w1, m = Ok w1 -> quiet w w1).
  { subst m. intros w1. destruct (policyFor key w) as [p|]; [|intros [= <-]; apply quiet_refl]. destruct (status r =? 429).
    - destruct (limited _ now wall p) as [[p' z]|]; [|done]. intros [= <-]. by apply quiet_same.
    - destruct (_ && _); [|intros [= <-]; apply quiet_refl]. destruct (failed now p) as [p'|]; [|done]. intros [= <-]. by apply quiet_same. }
  destruct m as [w1|] eqn:E; [|done]. cbn [mbind result_bind]. specialize (Hm w1 eq_refl). clear E. case_match; intros H'; [eapply quiet_trans; [exact Hm|by eapply quiet_publish]|].
  by injection H' as <-.
Qed.

Lemma quiet_cookies x r wall w w' : take_cookies x r wall w = Ok w' -> quiet w w'.
Proof.
  unfold take_cookies. destruct (cookies (request x)) as [jar|]; [|intros [= <-]; apply quiet_refl]. destruct (collectResponseCookies _ _ _ _ _) as [c|]; [|done].
  cbn [mbind result_bind]. destruct (take_collected _ _ _) as [o s]. intros [= <-]. by apply quiet_same.
Qed.

Lemma quiet_report key h w : quiet w (reportThrottleHeaders key h w).
Proof. unfold reportThrottleHeaders. destruct (sempty _); [apply quiet_refl|apply quiet_policy]. Qed.

Lemma quiet_lane key h w l w' : laneFor key h w = Ok (l, w') -> quiet w w'.
Proof.
  unfold laneFor. destruct (m_stopped w); [intros [= <- <-]; apply quiet_refl|]. destruct (m_lanes w !! key); [intros [= <- <-]; apply quiet_refl|].
  destruct (m_policies w !! key); cbn [mbind result_bind].
  - intros [= <- <-]. by apply quiet_same.
  - destruct (LanePolicy_make _ _ _) as [p|]; [|done]. cbn [mbind result_bind]. intros [= <- <-]. by apply quiet_same.
Qed.

(** The requests that differ only in what the pool sets for each hop. *)
Definition same_request (r r' : TransferRequest) : Prop :=
  method r' = method r /\ url r' = url r /\ body r' = body r /\ follow_redirects (options r') = follow_redirects (options r)
  /\ max_redirects (options r') = max_redirects (options r) /\ cookies r' = cookies r /\ cancellation r' = cancellation r.

(** The headers of a hop are those of the request, and the Cookie header. *)
Definition hop_headers (r : TransferRequest) (hop : TransferRequest) : Prop :=
  forall e, e ∈ headers hop -> e ∈ headers r \/ (is_Some (cookies r) /\ headerNamesEqual (fst e) "cookie" = true).

Lemma dispatch_spec i x wall w w' : dispatch i x wall w = Ok w' -> exists w1, quiet w w1 /\
  ((exists code, w' = end_exchange i x (Failed_with code) w1)
   \/ exists r key lane hop, w' = set_standing i (set_request r x) (In_hand key lane hop) w1 /\ is_Some (parse_url (url (request x)))
        /\ same_request (request x) r /\ headers r = headers (request x) /\ same_request (request x) hop /\ hop_headers (request x) hop /\ sink r = false).
Proof.
  unfold dispatch. destruct (match cancellation (request x) with Some f => _ | None => _ end); [intros [= <-]; exists w; split; [apply quiet_refl|]; left; by eexists|].
  destruct (parse_url (url (request x))) as [u|] eqn:Eu; [|intros [= <-]; exists w; split; [apply quiet_refl|]; left; by eexists].
  destruct (_ && _); [intros [= <-]; exists w; split; [apply quiet_refl|]; left; by eexists|].
  destruct (normalizeHost (hostname u)) as [h|]; [|done]. cbn [mbind result_bind]. destruct (laneFor (keyFor h) h w) as [[lane w1]|] eqn:El; [|done]. cbn [mbind result_bind].
  assert (Hq := quiet_lane _ _ _ _ _ El). destruct lane as [lane|]; [|intros [= <-]; exists w1; split; [done|]; left; by eexists].
  set (r := with_options _ (request x)). cbv zeta. intros H. exists w1. split; [done|]. right.
  assert (Hr : same_request (request x) r) by repeat split.
  destruct (cookies r) as [jar|] eqn:Ec.
  - destruct (request_headers parse_url (url r) _ _ (headers r) wall) as [hs|] eqn:Eh; [|done]. cbn [mbind result_bind] in H. injection H as <-.
    exists (with_sink false r), (keyFor h), lane, (with_headers hs r). split; [done|]. split; [done|]. split; [by repeat split|]. split; [done|]. split; [by repeat split|]. split; [|done].
    intros e He. cbn [headers with_headers] in He. unfold request_headers, applyRequestCookies in Eh.
    assert (Hk : is_Some (cookies (request x))) by (change (cookies (request x)) with (cookies r); rewrite Ec; by eexists).
    destruct (targetFor parse_url (url r)) as [[t|]|] eqn:Et; [| |done]; cbn [mbind result_bind] in Eh.
    + destruct (bool_decide _); injection Eh as <-.
      * left. unfold header_erase in He. by apply list_elem_of_filter in He as [_ He].
      * unfold header_set, header_add in He. rewrite elem_of_app, list_elem_of_singleton in He. destruct He as [He| ->]; [left|right; split; [done|]; vm_compute; reflexivity].
        unfold header_erase in He. rewrite !list_elem_of_filter in He. tauto.
    + injection Eh as <-. left. unfold header_erase in He. by apply list_elem_of_filter in He as [_ He].
  - injection H as <-. exists (with_sink false r), (keyFor h), lane, r. split; [done|]. split; [done|]. split; [by repeat split|]. split; [done|]. split; [done|]. split; [|done].
    intros e He. by left.
Qed.

Lemma strip_elem h e : e ∈ strip_sensitive h -> e ∈ h /\ isSensitiveHeader (fst e) = false.
Proof.
  unfold strip_sensitive. intros He.
  assert (G : forall names h, e ∈ foldl (fun h name => header_erase name h) h names -> e ∈ h /\ Forall (fun n => headerNamesEqual (fst e) n = false) names).
  { clear. induction names as [|n names IH]; intros h; cbn [foldl]; [by split; [|constructor]|]. intros H. apply IH in H as [H1 H2]. unfold header_erase in H1.
    rewrite list_elem_of_filter in H1. destruct H1 as [H1 H3]. split; [done|]. by constructor. }
  apply G in He as [He Hn]. split; [done|]. destruct (isSensitiveHeader (fst e)) eqn:E; [|done]. rewrite Forall_forall in Hn.
  specialize (Hn (fst e)). rewrite list_elem_of_filter in Hn. assert (Hf : headerNamesEqual (fst e) (fst e) = false) by (apply Hn; split; [done|by apply list_elem_of_fmap_2]).
  unfold headerNamesEqual in Hf. by rewrite String.eqb_refl in Hf.
Qed.

(** ** What a run keeps *)

(** The requests sent, and how often a lane answered 429 for an exchange. *)
Definition sends (evs : list event) : list TransferRequest := omap (fun ev => match ev with Send r _ => Some r | _ => None end) evs.
Definition retry (i : nat) (ev : event) : Z := match ev with Answer j (inr r) _ _ => if bool_decide (i = j) && (status r =? 429) then 1 else 0 | _ => 0 end.
Fixpoint retries (i : nat) (evs : list event) : Z := match evs with [] => 0 | ev :: evs => retry i ev + retries i evs end.

Definition concerns (e : effect) : option nat := match e with Submitted i _ _ => Some i | Called i _ => Some i | _ => None end.
Definition called (i : nat) (e : effect) : bool := match e with Called j _ => bool_decide (i = j) | _ => false end.
Definition submitted (i : nat) (e : effect) : bool := match e with Submitted j _ _ => bool_decide (i = j) | _ => false end.
Definition times (f : effect -> bool) (l : list effect) : Z := Z.of_nat (length (filter (fun e => f e = true) l)).

Definition ended (s : standing) : bool := match s with Ended => true | _ => false end.
Definition in_hand (s : standing) : Z := match s with In_hand _ _ _ => 1 | _ => 0 end.

(** The URL is the one asked for or of its origin. *)
Definition stays (r0 : TransferRequest) (u : string) : Prop := u = url r0 \/ sameOrigin (url r0) u = true.
(** The sensitive headers are the caller's, and are at home. *)
Definition at_home (r0 : TransferRequest) (e : string * string) (u : string) : Prop := e ∈ headers r0 /\ stays r0 u.
Definition secrets (r0 r : TransferRequest) : Prop := forall e, e ∈ headers r -> isSensitiveHeader (fst e) = true -> at_home r0 e (url r).
Definition hop_secrets (r0 hop : TransferRequest) : Prop := forall e, e ∈ headers hop -> isSensitiveHeader (fst e) = true ->
  ~ (is_Some (cookies r0) /\ headerNamesEqual (fst e) "cookie" = true) -> at_home r0 e (url hop).

Definition limit (r : TransferRequest) : Z := Z.max 0 (max_redirects (options r)).

(** An exchange before [dispatch], and one that stands somewhere. *)
Record history (ok : Prop) (i : nat) (fx : list effect) (r0 : TransferRequest) : Prop := {
  h_submitted : forall lane hop, Submitted i lane hop ∈ fx -> ok -> hop_secrets r0 hop;
  h_answered : forall r hs, Called i (Answered r hs) ∈ fx -> Z.of_nat (length hs) <= limit r0 }.

Record moving (pre : list event) (ok : Prop) (i : nat) (fx : list effect) (r0 : TransferRequest) (x : Exchange) : Prop := {
  v_limit : max_redirects (options (request x)) = max_redirects (options r0);
  v_cookies : cookies (request x) = cookies r0;
  v_redirects : 0 <= redirects x <= limit r0;
  v_hops : Z.of_nat (length (hops x)) = redirects x;
  v_secrets : ok -> secrets r0 (request x);
  v_calls : times (called i) fx = 0;
  v_history : history ok i fx r0 }.

Record tracked (pre : list event) (ok : Prop) (i : nat) (fx : list effect) (r0 : TransferRequest) (x : Exchange) (s : standing) : Prop := {
  t_moving : ended s = false -> moving pre ok i fx r0 x;
  t_ended : ended s = true -> times (called i) fx = 1;
  t_redirects : 0 <= redirects x <= limit r0;
  t_submissions : times (submitted i) fx + in_hand s <= 1 + redirects x + retries i pre;
  t_hop : forall key lane hop, s = In_hand key lane hop -> ok -> hop_secrets r0 hop;
  t_history : history ok i fx r0 }.

(** Every exchange but the one in work is tracked. *)
Record good_but (o : option nat) (pre : list event) (ok : Prop) (w : LanePool) : Prop := {
  g_length : length (exchanges w) = length (sends pre);
  g_tracked : forall i x s r0, Some i <> o -> exchanges w !! i = Some (x, s) -> sends pre !! i = Some r0 -> tracked pre ok i (effects w) r0 x s;
  g_concerns : forall e i, e ∈ effects w -> concerns e = Some i -> (i < length (exchanges w))%nat }.
Definition good := good_but None.

(** *** Counting *)

Lemma times_concat f l l' : times f (l ++ l') = times f l + times f l'.
Proof. unfold times. rewrite filter_app, length_app. lia. Qed.

Lemma times_zero f l : (forall e, e ∈ l -> f e = false) -> times f l = 0.
Proof.
  intros H. unfold times. replace (filter _ l) with (@nil effect); [done|]. symmetry. induction l as [|e l IH]; [done|].
  rewrite filter_cons_False; [apply IH; intros e' He; apply H; by apply elem_of_cons; right|]. rewrite H by (apply elem_of_cons; by left). done.
Qed.

Lemma times_concerns i l : (forall e, e ∈ l -> concerns e <> Some i) -> times (called i) l = 0 /\ times (submitted i) l = 0.
Proof.
  intros H. split; apply times_zero; intros e He; specialize (H e He); destruct e; try done; cbn [called submitted]; apply bool_decide_eq_false_2; intros ->; by apply H.
Qed.

Lemma silent_concerns l i : Forall silent l -> forall e, e ∈ l -> concerns e <> Some i.
Proof. intros H e He. rewrite Forall_forall in H. specialize (H e He). by destruct e. Qed.

Lemma retry_nonneg i ev : 0 <= retry i ev.
Proof. unfold retry. destruct ev; try lia. destruct res; [lia|]. destruct (_ && _); lia. Qed.

Lemma retries_snoc i pre ev : retries i (pre ++ [ev]) = retries i pre + retry i ev.
Proof. induction pre as [|e pre IH]; cbn [retries app]; [lia|]. rewrite IH. lia. Qed.

Lemma retries_nonneg i pre : 0 <= retries i pre.
Proof. induction pre as [|e pre IH]; cbn [retries]; [lia|]. pose proof (retry_nonneg i e). lia. Qed.

Lemma sends_snoc pre ev : sends (pre ++ [ev]) = sends pre ++ sends [ev].
Proof. unfold sends. by rewrite omap_app. Qed.

(** *** Frames *)

Lemma history_frame (ok ok' : Prop) i fx l r0 : (ok' -> ok) -> (forall e, e ∈ l -> concerns e <> Some i) -> history ok i fx r0 -> history ok' i (fx ++ l) r0.
Proof.
  intros Hok Hl [H1 H2]. split.
  - intros lane hop H Ho. apply elem_of_app in H as [H|H]; [by apply (H1 lane hop); [|apply Hok]|]. by apply Hl in H.
  - intros r hs H. apply elem_of_app in H as [H|H]; [by apply (H2 r hs)|]. by apply Hl in H.
Qed.

Lemma moving_frame pre pre' (ok ok' : Prop) i fx l r0 x : (ok' -> ok) -> (forall e, e ∈ l -> concerns e <> Some i) -> moving pre ok i fx r0 x -> moving pre' ok' i (fx ++ l) r0 x.
Proof.
  intros Hok Hl []. constructor; try done; [by intros Ho; apply v_secrets0, Hok| |by eapply history_frame]. rewrite times_concat. destruct (times_concerns i l Hl). lia.
Qed.

Lemma tracked_next pre ev (ok ok' : Prop) i fx r0 x s : (ok' -> ok) -> tracked pre ok i fx r0 x s -> tracked (pre ++ [ev]) ok' i fx r0 x s.
Proof.
  intros Hok []. assert (Hn : forall e, e ∈ @nil effect -> concerns e <> Some i) by (intros e He; by apply elem_of_nil in He). constructor; try done.
  - intros H. rewrite <- (app_nil_r fx). eapply moving_frame; [done|done|by apply t_moving0].
  - rewrite retries_snoc. pose proof (retry_nonneg i ev). lia.
  - intros key lane hop H Ho. by apply (t_hop0 key lane hop); [|apply Hok].
  - rewrite <- (app_nil_r fx). by eapply history_frame.
Qed.

Lemma tracked_other pre ok i fx l r0 x s : (forall e, e ∈ l -> concerns e <> Some i) -> tracked pre ok i fx r0 x s -> tracked pre ok i (fx ++ l) r0 x s.
Proof.
  intros Hn []. destruct (times_concerns i l Hn) as [Hc Hs]. constructor; try done.
  - intros H. eapply moving_frame; [done|done|by apply t_moving0].
  - intros H. rewrite times_concat. rewrite (t_ended0 H). lia.
  - rewrite times_concat. lia.
  - by eapply history_frame.
Qed.

(** A call that sends nothing leaves the rest as it was. *)
Lemma good_next (pre : list event) ev (ok ok' : Prop) o (w : LanePool) : (ok' -> ok) -> sends [ev] = [] -> good pre ok w -> good_but o (pre ++ [ev]) ok' w.
Proof.
  intros Hok Hs [H1 H2 H3]. constructor; [by rewrite sends_snoc, Hs, app_nil_r| |done]. intros i x s r0 _ Hi Hr. rewrite sends_snoc, Hs, app_nil_r in Hr.
  eapply tracked_next; [done|by eapply H2].
Qed.

Lemma good_quiet o pre ok (w w' : LanePool) : quiet w w' -> good_but o pre ok w -> good_but o pre ok w'.
Proof.
  intros [He (l & Hl & Hs)] [H1 H2 H3]. constructor.
  - by rewrite He.
  - intros i x s r0 Ho Hi Hr. rewrite He in Hi. rewrite Hl. apply tracked_other; [by intros e; apply silent_concerns|by eapply H2].
  - intros e i Hin Hc. rewrite He. rewrite Hl in Hin. apply elem_of_app in Hin as [Hin|Hin]; [by eapply H3|]. by apply (silent_concerns _ i Hs) in Hin.
Qed.

(** One exchange moves. *)
Lemma good_moved pre ok i (w w' : LanePool) x s l r0 :
  good_but (Some i) pre ok w -> (i < length (exchanges w))%nat -> sends pre !! i = Some r0 -> exchanges w' = <[i := (x, s)]> (exchanges w) -> effects w' = effects w ++ l ->
  (forall e j, e ∈ l -> concerns e = Some j -> j = i) -> tracked pre ok i (effects w') r0 x s -> good pre ok w'.
Proof.
  intros [H1 H2 H3] Hi Hr Hx Hf Hl Ht. constructor.
  - by rewrite Hx, length_insert.
  - intros j x' s' r' _ Hj Hr'. rewrite Hx in Hj. destruct (decide (j = i)) as [->|Hne].
    + rewrite list_lookup_insert_eq in Hj by done. injection Hj as <- <-. replace r' with r0 by congruence. done.
    + rewrite list_lookup_insert_ne in Hj by done. rewrite Hf. apply tracked_other; [intros e He Hc; by apply Hne, (Hl e j)|]. apply H2; [congruence|done|done].
  - intros e j He Hc. rewrite Hx, length_insert. rewrite Hf in He. apply elem_of_app in He as [He|He]; [by eapply H3|]. by rewrite (Hl e j He Hc).
Qed.

(** *** The operations *)

Lemma times_one f e : times f [e] = if f e then 1 else 0.
Proof. unfold times. rewrite filter_cons, filter_nil. destruct (f e); [by rewrite decide_True by done|by rewrite decide_False by done]. Qed.

Lemma hop_at_home (ok : Prop) r0 r hop : cookies r = cookies r0 -> secrets r0 r -> same_request r hop -> hop_headers r hop -> hop_secrets r0 hop.
Proof.
  intros Hc Hs Hr Hh e He Hn Hk. destruct (Hh e He) as [H|[H1 H2]]; [|by rewrite Hc in H1; destruct Hk]. destruct Hr as (_ & -> & _). by apply Hs.
Qed.

(** The exchange in work ends, calling its callback. *)
Lemma end_good pre ok i (w w' : LanePool) x x' o l r0 :
  good_but (Some i) pre ok w -> (i < length (exchanges w))%nat -> sends pre !! i = Some r0 -> moving pre ok i (effects w) r0 x -> redirects x' = redirects x ->
  times (submitted i) (effects w) <= 1 + redirects x + retries i pre -> (forall r hs, o = Answered r hs -> hs = hops x) ->
  Forall silent l -> exchanges w' = <[i := (x', Ended)]> (exchanges w) -> effects w' = effects w ++ l ++ [Called i o] -> good pre ok w'.
Proof.
  intros Hg Hi Hr Hm Hx Hs Ho Hl Hw Hf. assert (Hn := silent_concerns l i Hl). destruct (times_concerns i l Hn) as [Hc1 Hs1].
  eapply good_moved; [exact Hg|done|done|exact Hw|exact Hf| |].
  - intros e j He Hc. apply elem_of_app in He as [He|He]; [by apply (silent_concerns l j Hl) in He|]. apply list_elem_of_singleton in He as ->. cbn [concerns] in Hc. congruence.
  - rewrite Hf. destruct Hm as []. constructor.
    + done.
    + intros _. rewrite !times_concat, times_one. cbn [called]. rewrite bool_decide_eq_true_2 by done. lia.
    + by rewrite Hx.
    + rewrite !times_concat, times_one. cbn [submitted in_hand]. lia.
    + done.
    + destruct v_history0 as [A B]. constructor.
      * intros lane hop H. apply (A lane). apply elem_of_app in H as [H|H]; [done|]. apply elem_of_app in H as [H|H]; [by apply (silent_concerns l i Hl) in H|]. by apply list_elem_of_singleton in H.
      * intros r hs H. apply elem_of_app in H as [H|H]; [by apply (B r)|]. apply elem_of_app in H as [H|H]; [by apply (silent_concerns l i Hl) in H|].
        apply list_elem_of_singleton in H. injection H as Hoo. rewrite (Ho r hs (eq_sym Hoo)). lia.
Qed.

Lemma end_exchange_good pre ok i (w : LanePool) x x' o r0 :
  good_but (Some i) pre ok w -> (i < length (exchanges w))%nat -> sends pre !! i = Some r0 -> moving pre ok i (effects w) r0 x -> redirects x' = redirects x ->
  times (submitted i) (effects w) <= 1 + redirects x + retries i pre -> (forall r hs, o = Answered r hs -> hs = hops x) -> good pre ok (end_exchange i x' o w).
Proof. intros. eapply (end_good pre ok i w _ x x' o (if sink (request x') then [SinkAborted i] else []) r0); try done. destruct (sink _); by repeat constructor. Qed.

Lemma moving_quiet pre ok i (w w' : LanePool) r0 x : quiet w w' -> moving pre ok i (effects w) r0 x -> moving pre ok i (effects w') r0 x.
Proof. intros [_ (l & -> & Hl)]. apply moving_frame; [done|]. by intros e; apply silent_concerns. Qed.

Lemma quiet_submitted i w w' : quiet w w' -> times (submitted i) (effects w') = times (submitted i) (effects w).
Proof. intros [_ (l & -> & Hl)]. rewrite times_concat. destruct (times_concerns i l) as [_ ->]; [by intros e; apply silent_concerns|lia]. Qed.

Lemma dispatch_good pre ok i x wall (w w' : LanePool) r0 :
  good_but (Some i) pre ok w -> (i < length (exchanges w))%nat -> sends pre !! i = Some r0 -> moving pre ok i (effects w) r0 x ->
  times (submitted i) (effects w) + 1 <= 1 + redirects x + retries i pre -> dispatch i x wall w = Ok w' -> good pre ok w'.
Proof.
  intros Hg Hi Hr Hm Hs Hd. destruct (dispatch_spec i x wall w w' Hd) as (w1 & Hq & Hw). assert (Hg1 := good_quiet _ _ _ _ _ Hq Hg). assert (Hm1 := moving_quiet _ _ _ _ _ _ _ Hq Hm).
  assert (Hi1 : (i < length (exchanges w1))%nat) by by rewrite (proj1 Hq). assert (Hs1 := quiet_submitted i _ _ Hq).
  destruct Hw as [(code & ->)|(r & key & lane & hop & -> & Hp & Hr1 & Hr2 & Hh1 & Hh2 & Hsk)]; [by eapply end_exchange_good; try done; lia|].
  eapply (good_moved pre ok i w1 _ _ _ [] r0); [done|done|done|reflexivity|by rewrite app_nil_r|intros e j He; by apply elem_of_nil in He|].
  change (effects (set_standing _ _ _ w1)) with (effects w1). destruct Hm1 as []. constructor; try done.
  - intros _. constructor; try done.
    + change (request (set_request r x)) with r. destruct Hr1 as (_ & _ & _ & _ & -> & _). done.
    + change (request (set_request r x)) with r. destruct Hr1 as (_ & _ & _ & _ & _ & -> & _). done.
    + change (request (set_request r x)) with r. intros Ho e He Hn. rewrite Hr2 in He. destruct (v_secrets0 Ho e He Hn) as [H1 H2]. split; [done|]. destruct Hr1 as (_ & -> & _). done.
  - change (redirects (set_request r x)) with (redirects x). cbn [in_hand]. lia.
  - intros key' lane' hop' [= -> -> ->] Ho. by eapply (hop_at_home ok); [exact v_cookies0|by apply v_secrets0| |].
Qed.

Lemma sameOrigin_trans a b c : sameOrigin a b = true -> sameOrigin b c = true -> sameOrigin a c = true.
Proof.
  unfold sameOrigin. destruct (parse_url a), (parse_url b), (parse_url c); try done. rewrite !andb_true_iff, !String.eqb_eq. intros [-> ->] [-> ->]. done.
Qed.

Lemma stays_trans r0 a b : stays r0 a -> sameOrigin a b = true -> stays r0 b.
Proof. intros [->|H] Hb; right; [done|by eapply sameOrigin_trans]. Qed.

Lemma redirected_headers st r e : e ∈ headers (redirected st r) -> e ∈ headers r.
Proof.
  unfold redirected. destruct (_ || _); [|done]. cbn [headers]. unfold header_erase. rewrite !list_elem_of_filter. tauto.
Qed.

Lemma redirected_same st r : url (redirected st r) = url r /\ options (redirected st r) = options r /\ cookies (redirected st r) = cookies r.
Proof. unfold redirected. by destruct (_ || _). Qed.

(** The request of the hop after a redirect. *)
Lemma follow_secrets r0 r st resp target h : secrets r0 r -> sameOrigin (url r) resp = true ->
  h = headers (if sameOrigin resp target then redirected st r else with_headers (strip_sensitive (headers (redirected st r))) (redirected st r)) ->
  forall e, e ∈ h -> isSensitiveHeader (fst e) = true -> at_home r0 e target.
Proof.
  intros Hs Hr -> e He Hn. destruct (sameOrigin resp target) eqn:E.
  - apply redirected_headers in He. destruct (Hs e He Hn) as [H1 H2]. split; [done|]. eapply stays_trans; [exact H2|by eapply sameOrigin_trans].
  - cbn [headers with_headers] in He. apply strip_elem in He as [_ He]. congruence.
Qed.

Lemma follow_good pre (ok : Prop) i x r wall (w w' : LanePool) r0 :
  (ok -> sameOrigin (url (request x)) (response_url r) = true) ->
  good_but (Some i) pre ok w -> (i < length (exchanges w))%nat -> sends pre !! i = Some r0 -> moving pre ok i (effects w) r0 x ->
  times (submitted i) (effects w) <= 1 + redirects x + retries i pre -> follow i x r wall w = Ok w' -> good pre ok w'.
Proof.
  intros Ho Hg Hi Hr Hm Hs. unfold follow.
  set (follows := _ && _ && _ && _). cbv zeta. destruct (if follows then _ else None) as [target|] eqn:Et.
  - assert (Hf : redirects x < max_redirects (options (request x))) by (subst follows; destruct (redirects x <? _) eqn:E; [lia|by rewrite andb_false_r in Et]). clear Et.
    set (q := if sameOrigin _ _ then _ else _). intros Hd. destruct (redirected_same (status r) (request x)) as (E1 & E2 & E3). destruct Hm as [].
    assert (Eq : options q = options (request x) /\ cookies q = cookies (request x)) by (subst q; destruct (sameOrigin (response_url r) target); by split).
    destruct Eq as [Eo Ec]. eapply (dispatch_good pre ok i _ wall w w' r0); [done|done|done| | |exact Hd].
    + constructor; cbn [request options cookies redirects hops]; [by rewrite Eo|by rewrite Ec| | | |done|done].
      * rewrite v_limit0 in Hf. unfold limit in *. lia.
      * rewrite length_app. cbn [length]. lia.
      * intros H e He Hn. cbn [headers url] in *. eapply follow_secrets; [by apply v_secrets0|by apply Ho|reflexivity| |done]. exact He.
    + cbn [redirects]. lia.
  - intros H. apply Ok_inj in H as <-. eapply end_exchange_good; try done. by intros r' hs [= <- <-].
Qed.

Lemma complete_good pre (ok : Prop) i x key res now wall (w w' : LanePool) r0 :
  match res with inr r => ok -> sameOrigin (url (request x)) (response_url r) = true | inl _ => True end ->
  good_but (Some i) pre ok w -> (i < length (exchanges w))%nat -> sends pre !! i = Some r0 -> moving pre ok i (effects w) r0 x ->
  times (submitted i) (effects w) + match res with inr r => if status r =? 429 then 1 else 0 | _ => 0 end <= 1 + redirects x + retries i pre ->
  complete i x key res now wall w = Ok w' -> good pre ok w'.
Proof.
  intros Ho Hg Hi Hr Hm Hs. unfold complete. destruct res as [code|r].
  - set (m := match policyFor key w with Some _ => _ | None => _ end). assert (Hq : forall w1, m = Ok w1 -> quiet w w1).
    { subst m. intros w1. destruct (policyFor key w) as [p|]; [|intros [= <-]; apply quiet_refl]. destruct (_ || _); [intros [= <-]; apply quiet_refl|].
      destruct (failed now p) as [p'|]; [|done]. cbn [mbind result_bind]. intros H. eapply quiet_trans; [by apply quiet_policy|by eapply quiet_publish]. }
    destruct m as [w1|]; [|done]. cbn [mbind result_bind]. specialize (Hq w1 eq_refl). intros H. apply Ok_inj in H as <-.
    eapply (end_good pre ok i w1 _ x x (Failed_with code) [] r0); try done; [by eapply good_quiet|by rewrite (proj1 Hq)|by eapply moving_quiet|rewrite (quiet_submitted i _ _ Hq); lia].
  - set (x1 := set_request _ x). cbv zeta. destruct (take_cookies x1 r wall w) as [w1|] eqn:E1; [|done]. cbn [mbind result_bind].
    destruct (judge key r now wall _) as [w2|] eqn:E2; [|done]. cbn [mbind result_bind].
    assert (Hq : quiet w w2) by (eapply quiet_trans; [by eapply quiet_cookies|]; eapply quiet_trans; [apply quiet_report|by eapply quiet_judge]).
    assert (Hm1 : moving pre ok i (effects w2) r0 x1) by (apply (moving_quiet _ _ _ _ _ _ _ Hq) in Hm; destruct Hm; by constructor).
    assert (Hg2 := good_quiet _ _ _ _ _ Hq Hg). assert (Hi2 : (i < length (exchanges w2))%nat) by by rewrite (proj1 Hq). assert (Hs2 := quiet_submitted i _ _ Hq).
    change (redirects x) with (redirects x1) in Hs. destruct (status r =? 429).
    + intros Hd. eapply (dispatch_good pre ok i x1 wall w2 w' r0); try done. lia.
    + intros Hd. eapply (follow_good pre ok i x1 r wall w2 w' r0); try done. lia.
Qed.

(** The lane answers with a URL of the origin it was asked for: it follows no redirect itself. *)
Definition honest (w : LanePool) (ev : event) : Prop :=
  match ev with Answer i (inr r) _ _ => match exchanges w !! i with Some (x, _) => sameOrigin (url (request x)) (response_url r) = true | None => True end | _ => True end.

Lemma good_lookup pre ok (w : LanePool) i y : good pre ok w -> exchanges w !! i = Some y -> exists r0, sends pre !! i = Some r0 /\ (i < length (exchanges w))%nat.
Proof.
  intros Hg Hi. assert (Hl := lookup_lt_Some _ _ _ Hi). assert (Hl' := Hl). rewrite (g_length _ _ _ _ Hg) in Hl'. apply lookup_lt_is_Some in Hl' as [r0 Hr]. by exists r0.
Qed.

Lemma quiet_then l w w0 : exchanges w0 = exchanges w -> effects w0 = effects w -> Forall silent l -> quiet w (emit l w0).
Proof. intros H1 H2 Hl. apply (quiet_trans w w0); [by apply quiet_same|by apply quiet_emit]. Qed.

Lemma silent_fmap {A} (f : A -> effect) l : (forall a, silent (f a)) -> Forall silent (f <$> l).
Proof. intros H. apply Forall_fmap, Forall_forall. intros a _. apply H. Qed.

Lemma quiet_sweep retirable now w w' : sweep retirable now w = Ok w' -> quiet w w'.
Proof.
  unfold sweep. destruct (m_stopped w); [intros [= <-]; by apply quiet_same|]. cbv zeta. destruct (publish_all _ now _) as [w1|] eqn:E; [|done]. cbn [mbind result_bind].
  intros [= <-]. apply quiet_publish_all in E. eapply quiet_trans; [|eapply quiet_trans; [exact E|by apply quiet_same]].
  apply quiet_then; [done|done|]. by apply silent_fmap.
Qed.

Lemma step_quiet w ev w' : match ev with Send _ _ | Submit _ _ | Answer _ _ _ _ => False | _ => True end -> step w ev = Some (Ok w') -> quiet w w'.
Proof.
  destruct ev as [| | |flag|key now|now|retirable now|]; try done; intros _; cbn [step].
  - intros [= <-]. apply quiet_then; [done|done|]. by apply silent_fmap.
  - destruct (m_policies w !! key) as [p|]; [|intros [= <-]; apply quiet_refl]. cbv zeta. intros H. apply (inj Some), quiet_publish in H.
    eapply quiet_trans; [|exact H]. apply quiet_then; [done|done|]. case_match; by repeat constructor.
  - cbv zeta. intros H. apply (inj Some), quiet_publish_all in H. eapply quiet_trans; [|exact H]. apply quiet_then; [done|done|]. by apply silent_fmap.
  - destruct (m_sweep_armed w); [|done]. intros H. apply (inj Some) in H. by eapply quiet_sweep.
  - destruct (m_stopped w); [intros [= <-]; apply quiet_refl|]. intros [= <-]. apply quiet_then; [done|done|]. by apply silent_fmap.
Qed.

Lemma good_step pre ok ev (w w' : LanePool) : good pre ok w -> step w ev = Some (Ok w') -> good (pre ++ [ev]) (ok /\ honest w ev) w'.
Proof.
  intros Hg Hst. set (ok' := ok /\ honest w ev). assert (Hok : ok' -> ok) by by intros [].
  destruct ev as [r wall|i now|i res now wall|flag|key now|now|retirable now|];
    try (eapply good_quiet; [refine (step_quiet _ _ _ _ Hst); exact I|by apply (good_next pre _ ok ok')]).
  - cbn [step] in Hst. apply (inj Some) in Hst. set (x := mkExchange r [] 0) in *. set (w1 := set_exchanges _ w) in Hst. set (n := length (exchanges w)) in *.
    destruct Hg as [H1 H2 H3]. assert (Hno : forall e, e ∈ effects w -> concerns e <> Some n) by (intros e He Hc; specialize (H3 e n He Hc); subst n; lia).
    assert (Hs : sends (pre ++ [Send r wall]) !! n = Some r) by (rewrite sends_snoc; subst n; rewrite H1; by apply list_lookup_middle).
    destruct (times_concerns n _ Hno) as [Hc Hsub]. eapply (dispatch_good _ ok' n x wall w1 w' r); [| |exact Hs| | |exact Hst].
    + constructor.
      * rewrite sends_snoc. subst w1. cbn [exchanges set_exchanges]. rewrite !length_app, H1. done.
      * intros i y s r0 Hi Hy Hr0. assert (Hlt : (i < n)%nat).
        { apply lookup_lt_Some in Hy. subst w1. cbn [exchanges set_exchanges] in Hy. rewrite length_app in Hy. cbn [length] in Hy. assert (i <> n) by congruence. subst n. lia. }
        subst w1. cbn [exchanges set_exchanges effects] in *. rewrite lookup_app_l in Hy by done. rewrite sends_snoc, lookup_app_l in Hr0 by (rewrite <- H1; done).
        eapply tracked_next; [done|]. by apply H2.
      * intros e i He Hci. subst w1. cbn [exchanges set_exchanges effects] in *. rewrite length_app. specialize (H3 e i He Hci). lia.
    + subst w1. cbn [exchanges set_exchanges]. rewrite length_app. cbn [length]. subst n. lia.
    + constructor; try done; cbn [redirects hops x]; [unfold limit; lia| |].
      * intros _ e He _. split; [done|]. by left.
      * constructor; [intros lane hop H|intros r' hs H]; by apply Hno in H.
    + change (effects w1) with (effects w). cbn [redirects x]. pose proof (retries_nonneg n (pre ++ [Send r wall])). lia.
  - cbn [step] in Hst. destruct (exchanges w !! i) as [[x s]|] eqn:Ei; [|done]. destruct s as [key lane hop| |]; try done. apply (inj Some), quiet_publish in Hst.
    destruct (good_lookup _ _ _ _ _ Hg Ei) as (r0 & Hr0 & Hi). assert (Hn := good_next pre (Submit i now) ok ok' (Some i) w Hok eq_refl Hg).
    assert (Ht : tracked (pre ++ [Submit i now]) ok' i (effects w) r0 x (In_hand key lane hop)) by (eapply tracked_next; [done|by apply (g_tracked _ _ _ _ Hg)]).
    eapply good_quiet; [exact Hst|]. eapply (good_moved _ ok' i w _ x (Waiting key) [Submitted i lane hop] r0); [done|done|by rewrite sends_snoc, app_nil_r|done|done| |].
    + intros e j He. apply list_elem_of_singleton in He as ->. cbn [concerns]. congruence.
    + change (effects (set_standing _ _ _ _)) with (effects w ++ [Submitted i lane hop]). destruct Ht as []. destruct (t_moving0 eq_refl) as [].
      assert (Hh : history ok' i (effects w ++ [Submitted i lane hop]) r0).
      { destruct t_history0 as [A B]. constructor.
        - intros lane' hop' H Ho. apply elem_of_app in H as [H|H]; [by apply (A lane')|]. apply list_elem_of_singleton in H as [= -> ->]. by apply (t_hop0 key lane hop).
        - intros r' hs H. apply elem_of_app in H as [H|H]; [by apply (B r')|]. by apply list_elem_of_singleton in H. }
      constructor; try done.
      * intros _. constructor; try done. rewrite times_concat, times_one. cbn [called]. lia.
      * rewrite times_concat, times_one. cbn [submitted in_hand] in *. rewrite bool_decide_eq_true_2 by done. lia.
  - cbn [step] in Hst. destruct (exchanges w !! i) as [[x s]|] eqn:Ei; [|done]. destruct s as [|key|]; try done. apply (inj Some) in Hst.
    destruct (good_lookup _ _ _ _ _ Hg Ei) as (r0 & Hr0 & Hi). set (ev := Answer i res now wall) in *. assert (Hn := good_next pre ev ok ok' (Some i) w Hok eq_refl Hg).
    assert (Ht : tracked pre ok i (effects w) r0 x (Waiting key)) by by apply (g_tracked _ _ _ _ Hg).
    assert (Hm : moving (pre ++ [ev]) ok' i (effects w) r0 x) by (destruct (tracked_next pre ev ok ok' i _ _ _ _ Hok Ht) as []; auto).
    eapply (complete_good _ ok' i x key res now wall w w' r0); [|done|done|by rewrite sends_snoc, app_nil_r|done| |exact Hst].
    + destruct res as [code|r]; [done|]. intros [_ Hh]. cbn [honest ev] in Hh. by rewrite Ei in Hh.
    + destruct Ht as []. rewrite retries_snoc. subst ev. cbn [retry in_hand] in *. destruct res as [code|r]; [lia|]. rewrite bool_decide_eq_true_2 by done. cbn [andb]. destruct (status r =? 429); lia.
Qed.

(** *** Runs *)

Fixpoint honest_run (w : LanePool) (evs : list event) : Prop :=
  match evs with [] => True | ev :: evs => honest w ev /\ match step w ev with Some (Ok w) => honest_run w evs | _ => True end end.

Lemma good_weaken pre (ok ok' : Prop) (w : LanePool) : (ok' -> ok) -> good pre ok w -> good pre ok' w.
Proof.
  intros Hok [H1 H2 H3]. constructor; [done| |done]. intros i x s r0 Hi Hx Hr. specialize (H2 i x s r0 Hi Hx Hr).
  assert (Hn : forall e, e ∈ @nil effect -> concerns e <> Some i) by (intros e He; by apply elem_of_nil in He). destruct H2 as []. constructor; try done.
  - intros H. rewrite <- (app_nil_r (effects w)). eapply moving_frame; [exact Hok|exact Hn|by apply t_moving0].
  - intros key lane hop H Ho. eapply t_hop0; [done|by apply Hok].
  - rewrite <- (app_nil_r (effects w)). by eapply history_frame.
Qed.

Lemma good_run evs : forall pre ok (w w' : LanePool), good pre ok w -> run w evs = Some (Ok w') -> good (pre ++ evs) (ok /\ honest_run w evs) w'.
Proof.
  induction evs as [|ev evs IH]; intros pre ok w w' Hg; cbn [run honest_run].
  - intros [= <-]. rewrite app_nil_r. eapply good_weaken; [|exact Hg]. tauto.
  - destruct (step w ev) as [[w1|]|] eqn:Es; cbn [mbind option_bind]; [|done|done]. intros Hr. rewrite (app_assoc pre [ev] evs : pre ++ ev :: evs = _).
    eapply good_weaken; [|by eapply IH; [eapply good_step|]]. tauto.
Qed.

Lemma good_start o s : good [] True (LanePool_make o s).
Proof. constructor; [done| |]; [by intros i x st r0 _ H|]. intros e i H. by apply elem_of_nil in H. Qed.

Lemma run_is_good o s evs w : run (LanePool_make o s) evs = Some (Ok w) -> good evs (True /\ honest_run (LanePool_make o s) evs) w.
Proof. exact (good_run evs [] True _ w (good_start o s)). Qed.

(** C27: The callback of every request sent is called once when its exchange has ended and not before, whatever the order of lane answers, cancellations,
    sweeps and the shutdown, and there is no callback without a request. *)
Theorem exchanges_answered_once o s evs w : run (LanePool_make o s) evs = Some (Ok w) ->
  length (exchanges w) = length (sends evs)
  /\ (forall i x st, exchanges w !! i = Some (x, st) -> times (called i) (effects w) = if ended st then 1 else 0)
  /\ (forall i out, Called i out ∈ effects w -> (i < length (sends evs))%nat).
Proof.
  intros Hr. assert (Hg := run_is_good _ _ _ _ Hr). split; [by apply (g_length _ _ _ _ Hg)|]. split.
  - intros i x st Hi. destruct (good_lookup _ _ _ _ _ Hg Hi) as (r0 & Hr0 & _). assert (Ht : tracked evs _ i (effects w) r0 x st) by (by apply (g_tracked _ _ _ _ Hg)).
    destruct (ended st) eqn:E; [by apply Ht|]. by destruct (t_moving _ _ _ _ _ _ _ Ht E).
  - intros i out H. rewrite <- (g_length _ _ _ _ Hg). by apply (g_concerns _ _ _ _ Hg _ i H).
Qed.

(** C26: A redirect to another origin carries no credentials of the caller: a header named Authorization, Proxy-Authorization, Cookie, Set-Cookie or X-Api-Key
    in a hop given to a lane is one the caller set on this request, and the hop goes to the URL asked for or to its origin; the Cookie header is excepted
    when the pool writes it itself for each hop.  The lanes are assumed not to follow redirects themselves. *)
Theorem credentials_stay_at_their_origin o s evs w i lane hop e : run (LanePool_make o s) evs = Some (Ok w) -> honest_run (LanePool_make o s) evs ->
  Submitted i lane hop ∈ effects w -> e ∈ headers hop -> isSensitiveHeader (fst e) = true ->
  exists r0, sends evs !! i = Some r0 /\ (at_home r0 e (url hop) \/ is_Some (cookies r0) /\ headerNamesEqual (fst e) "cookie" = true).
Proof.
  intros Hr Hh Hs He Hn. assert (Hg := run_is_good _ _ _ _ Hr). assert (Hi := g_concerns _ _ _ _ Hg _ i Hs eq_refl). apply lookup_lt_is_Some in Hi as [[x st] Hi].
  destruct (good_lookup _ _ _ _ _ Hg Hi) as (r0 & Hr0 & _). assert (Ht : tracked evs _ i (effects w) r0 x st) by (by apply (g_tracked _ _ _ _ Hg)).
  exists r0. split; [done|]. destruct (decide (is_Some (cookies r0) /\ headerNamesEqual (fst e) "cookie" = true)) as [Hk|Hk]; [by right|left].
  eapply (h_submitted _ _ _ _ (t_history _ _ _ _ _ _ _ Ht)); [exact Hs|by split|done|done|done].
Qed.

(** C28: A request goes to a lane at most once more than it may be redirected, not counting the retries after an answer 429, and the answer given to the
    caller lists at most that many hops. *)
Theorem redirects_are_bounded o s evs w i x st r0 : run (LanePool_make o s) evs = Some (Ok w) -> exchanges w !! i = Some (x, st) -> sends evs !! i = Some r0 ->
  redirects x <= limit r0 /\ times (submitted i) (effects w) <= 1 + limit r0 + retries i evs
  /\ (forall r hs, Called i (Answered r hs) ∈ effects w -> Z.of_nat (length hs) <= limit r0).
Proof.
  intros Hr Hi Hr0. assert (Hg := run_is_good _ _ _ _ Hr). assert (Ht : tracked evs _ i (effects w) r0 x st) by (by apply (g_tracked _ _ _ _ Hg)).
  destruct Ht as []. split; [lia|]. split; [|intros r hs H; by eapply (h_answered _ _ _ _ t_history0)]. destruct st; cbn [in_hand] in *; lia.
Qed.
End pool.

(** ** Runs *)

Module PoolExample.

Definition parse (u : string) : option ParsedUrl :=
  if String.eqb u "https://a.example/x" then Some (mkUrl "a.example" "/x" "https:")
  else if String.eqb u "https://a.example/y" then Some (mkUrl "a.example" "/y" "https:")
  else if String.eqb u "https://b.example/z" then Some (mkUrl "b.example" "/z" "https:") else None.
Definition host (u : string) : string := match parse u with Some p => hostname p | None => EmptyString end.
Definition resolve (base : option string) (u : string) : option string := match parse u with Some _ => Some u | None => None end.
Definition config : Config := mkConfig (mkRate 1 1) HTTP_2 "IDHAN" 0 0 true.
Definition jars : list (list Cookie) := [].
Definition run := run (fun _ => -1) parse host resolve config None.
Definition start := LanePool_make jars (CookieStore_make true).

Definition asked : TransferRequest :=
  mkRequest POST "https://a.example/x" [("Authorization", "secret"); ("Accept", "*"); ("Content-Type", "text/plain")] "body" TransferOptions_default None None false.
Definition answer (st : Z) (u : string) (h : HttpHeaders) : TransferErrorCode + TransferResponse := inr (mkResponse st u h false).

(** Rate limited once, redirected within the origin and then out of it. *)
Definition wandering : list event :=
  [Send asked 0; Submit 0 0; Answer 0 (answer 429 "https://a.example/x" []) 0 0; Submit 0 0;
   Answer 0 (answer 302 "https://a.example/x" [("Location", "https://a.example/y")]) 0 0; Submit 0 0;
   Answer 0 (answer 307 "https://a.example/y" [("Location", "https://b.example/z")]) 0 0; Submit 0 0;
   Answer 0 (answer 200 "https://b.example/z" []) 0 0].

Definition sent (w : LanePool) : list (string * HttpHeaders * HttpMethod) :=
  omap (fun e => match e with Submitted _ _ r => Some (url r, headers r, method r) | _ => None end) (effects w).
Definition outcomes (w : LanePool) : list outcome := omap (fun e => match e with Called _ o => Some o | _ => None end) (effects w).

Lemma wandering_run : exists w, run start wandering = Some (Ok w)
  /\ sent w = [("https://a.example/x", headers asked, POST); ("https://a.example/x", headers asked, POST);
               ("https://a.example/y", [("Authorization", "secret"); ("Accept", "*")], GET); ("https://b.example/z", [("Accept", "*")], GET)]
  /\ outcomes w = [Answered (mkResponse 200 "https://b.example/z" [] false) [("https://a.example/x", 302); ("https://a.example/y", 307)]].
Proof.
  destruct (run start wandering) as [[w|]|] eqn:E; [|exfalso; revert E; vm_compute; discriminate..]. exists w. split; [done|].
  revert E. vm_compute. intros [= <-]. by split.
Qed.

Lemma exchanges_answered_once_witness : exists w, run start wandering = Some (Ok w) /\ length (exchanges w) = 1%nat.
Proof.
  destruct (run start wandering) as [[w|]|] eqn:E; [|exfalso; revert E; vm_compute; discriminate..]. exists w. split; [done|].
  destruct (exchanges_answered_once _ _ _ _ _ _ _ _ _ _ E) as [H _]. exact H.
Defined.

Lemma redirects_are_bounded_witness : exists w, run start wandering = Some (Ok w) /\ times (submitted 0) (effects w) <= 1 + 10 + 1.
Proof.
  destruct (run start wandering) as [[w|]|] eqn:E; [|exfalso; revert E; vm_compute; discriminate..]. exists w. split; [done|].
  destruct (exchanges w !! 0%nat) as [[x st]|] eqn:Ei; [|exfalso; revert E Ei; vm_compute; intros [= <-]; discriminate].
  destruct (redirects_are_bounded _ _ _ _ _ _ _ _ _ _ 0 x st asked E Ei eq_refl) as (_ & H & _). exact H.
Defined.

Lemma credentials_stay_at_their_origin_witness : exists w hop, run start wandering = Some (Ok w) /\ Submitted 0 0 hop ∈ effects w /\ ("Authorization", "secret") ∈ headers hop
  /\ exists r0, sends wandering !! 0%nat = Some r0.
Proof.
  destruct (run start wandering) as [[w|]|] eqn:E; [|exfalso; revert E; vm_compute; discriminate..].
  destruct (effects w !! 0%nat) as [e|] eqn:Ei; [|exfalso; revert E Ei; vm_compute; intros [= <-]; discriminate].
  destruct e as [i l hop| | | | | |]; try (exfalso; revert E Ei; vm_compute; intros [= <-]; discriminate).
  assert (Hil : i = 0%nat /\ l = 0%nat /\ ("Authorization", "secret") ∈ headers hop) by (revert E Ei; vm_compute; intros [= <-] [= <- <- <-]; repeat constructor).
  destruct Hil as (-> & -> & He). apply list_elem_of_lookup_2 in Ei. exists w, hop. split; [done|]. split; [done|]. split; [done|].
  destruct (credentials_stay_at_their_origin _ _ _ _ _ _ _ _ _ _ 0 0 hop ("Authorization", "secret") E) as (r0 & Hr0 & _); [vm_compute; tauto|done|done|done|]. by exists r0.
Defined.

(** A sweep between [laneFor] and the lane's [submit] shuts the lane down: the request is handed to it all the same, and fails. *)
Definition swept : list event := [Send asked 0; Sweep (fun _ => true) 0; Submit 0 0].

Lemma submitted_to_a_retired_lane : exists w hop, run start swept = Some (Ok w) /\ LaneShutdown 0 ∈ take 1 (effects w) /\ Submitted 0 0 hop ∈ drop 1 (effects w) /\ m_stopped w = false.
Proof.
  destruct (run start swept) as [[w|]|] eqn:E; [|exfalso; revert E; vm_compute; discriminate..]. revert E. vm_compute. intros [= <-].
  eexists _, _. split; [reflexivity|]. split; [by left|]. split; [|done]. right. by left.
Qed.
End PoolExample.
