(* ===== verification/HttpRoutes.v ===== *)
(** * Routes

    [RouteRegistry.cpp] and [RouteSpec.hpp] of [IDHANHttp]: paths split into
    decoded segments, the checks of [RouteRegistry::add], and the choice of a
    route for a method and a path.  Handlers and validations that only later
    stages call are values of the types [V] and [I]. *)
From S2P Require Import Prelude StringView HttpParams.
From Stdlib Require Import Ascii.
From Stdlib Require String.

(** ** Data *)

(** [proxygen::HTTPMethod] *)
Inductive HTTPMethod := GET | POST | OPTIONS | DELETE | HEAD | CONNECT | CONNECT_UDP | PUT | TRACE | PATCH | SUB | PUB | UNSUB.

#[export] Instance HTTPMethod_eq_dec : EqDecision HTTPMethod.
Proof. solve_decision. Defined.

(** [validate]: whether the capture is accepted. *)
Record PathParameter := mkPathParameter { name : string; validate : string -> bool }.

Record ParameterRules := mkRules { query : list string; json : list JsonParameterObject; unknown : UnknownParameterPolicy }.

Record RouteMetadata (V : Type) := mkMetadata {
  method : HTTPMethod;
  path : string;
  path_parameters : list PathParameter;
  before_body : list V;
  parameters : option ParameterRules
}.
Arguments mkMetadata {V}.
Arguments method {V}.
Arguments path {V}.
Arguments path_parameters {V}.
Arguments before_body {V}.
Arguments parameters {V}.

Record RouteDefinition (V I : Type) := mkRoute { metadata : RouteMetadata V; invoke : I }.
Arguments mkRoute {V I}.
Arguments metadata {V I}.
Arguments invoke {V I}.

Inductive Status := found | not_found | method_not_allowed | invalid_parameter.

Record RouteMatch := mkMatch {
  status : Status;
  route_id : option nat;
  captured : RequestParameters;
  allowed_methods : list HTTPMethod
}.

Record RouteRegistry (V I : Type) := mkRegistry { m_routes : list (RouteDefinition V I); m_sealed : bool }.
Arguments mkRegistry {V I}.
Arguments m_routes {V I}.
Arguments m_sealed {V I}.

(** ** Paths *)

Section routes.
Context {U : UriCodec}.

Definition prohibited : string := String nul "/\".

Definition decodeSegment (encoded : string) : expected string :=
  match unescape_path encoded with
  | None => inl (mkParseError "path" "has an invalid percent escape")
  | Some decoded =>
      match find_first_of prohibited decoded with
      | Some _ => inl (mkParseError "path" "contains a prohibited encoded character")
      | None =>
          if validate_utf8 decoded then inr decoded else inl (mkParseError "path" "is not valid UTF-8")
      end
  end.

(** The loop of [splitPath]; [rest] is the path from [start] on. *)
Fixpoint splitPath_loop (fuel : nat) (rest : string) (segments : list string) : expected (list string) :=
  match fuel with
  | O => inr segments
  | S fuel =>
      let end_ := find_char "/" rest in
      segment ← decodeSegment (sprefix end_ rest);
      let segments := segments ++ [segment] in
      match end_ with
      | None => inr segments
      | Some _ => splitPath_loop fuel (after end_ rest) segments
      end
  end.

Definition splitPath (path : string) : expected (list string) :=
  match path with
  | String "/" rest => splitPath_loop (S (String.length rest)) rest []
  | _ => inl (mkParseError "path" "must begin with a slash")
  end.

Definition isParameter (segment : string) : bool :=
  (2 <? String.length segment)%nat
  && match sview_get segment 0 with Some c => (c =? "{")%char | None => false end
  && match sview_get segment (String.length segment - 1) with Some c => (c =? "}")%char | None => false end.

Definition isCatchAll (segment : string) : bool :=
  isParameter segment && match sview_get segment 1 with Some c => (c =? "*")%char | None => false end.

Definition parameterName (segment : string) : string :=
  let start := if isCatchAll segment then 2%nat else 1%nat in
  stake (String.length segment - start - 1) (sdrop start segment).

Definition supportsMethod {V} (m : RouteMetadata V) (wanted : HTTPMethod) : bool :=
  bool_decide (method m = wanted) || (bool_decide (wanted = HEAD) && bool_decide (method m = GET)).

(** ** Registration *)

(** The loop of [validateParameters] over the segments from one on; [index]
    counts the parameters seen. *)
Fixpoint validateParameters_loop (path : string) (declared : list PathParameter) (segments : list string) (index : nat) : result unit :=
  match segments with
  | [] =>
      if (index =? length declared)%nat then Ok tt
      else Throw (invalid_argument ("Route path " +:+ path +:+ " declares more parameters than it has segments"))
  | segment :: segments =>
      if negb (isParameter segment) then validateParameters_loop path declared segments index
      else if isCatchAll segment && match segments with [] => false | _ => true end then
        Throw (invalid_argument ("Route path " +:+ path +:+ " has a catch-all before its last segment"))
      else
        match declared !! index with
        | None => Throw (invalid_argument ("Route path " +:+ path +:+ " has no declared parameter for {" +:+ parameterName segment +:+ "}"))
        | Some parameter =>
            if negb (String.eqb (name parameter) (parameterName segment)) then
              Throw (invalid_argument ("Route path " +:+ path +:+ " declares parameter '" +:+ name parameter +:+ "' where {"
                +:+ parameterName segment +:+ "} appears"))
            else validateParameters_loop path declared segments (S index)
        end
  end.

Definition validateParameters {V} (m : RouteMetadata V) : result unit :=
  match splitPath (path m) with
  | inl _ => Throw (invalid_argument ("Route path " +:+ path m +:+ " is not a valid path"))
  | inr segments => validateParameters_loop (path m) (path_parameters m) segments 0
  end.

Definition same_registration {V} (a b : RouteMetadata V) : bool :=
  bool_decide (method a = method b) && String.eqb (path a) (path b).

Definition add {V I} (registry : RouteRegistry V I) (definition : RouteDefinition V I) : result (RouteRegistry V I) :=
  if m_sealed registry then Throw (logic_error "Cannot add a route after the registry is sealed")
  else
    _ ← validateParameters (metadata definition);
    if existsb (fun existing => same_registration (metadata existing) (metadata definition)) (m_routes registry) then
      Throw (invalid_argument "Duplicate HTTP route registration")
    else Ok (mkRegistry (m_routes registry ++ [definition]) (m_sealed registry)).

Definition seal {V I} (registry : RouteRegistry V I) : RouteRegistry V I := mkRegistry (m_routes registry) true.

(** ** Matching *)

Record Candidate := mkCandidate { candidate_route : nat; candidate_literals : nat; candidate_parameters : RequestParameters }.

(** The locals of the loop over a route's segments. *)
Record Progress := mkProgress {
  path_matches : bool;
  parameters_valid : bool;
  literal_segments : nat;
  parameter_index : nat;
  found_parameters : RequestParameters
}.

Definition Progress_start : Progress := mkProgress true true 0 0 [].

(** A slash goes before a segment unless nothing has been written yet. *)
Definition join_rest (segments : list string) : string :=
  foldl (fun rest segment => (if sempty rest then rest else rest +:+ "/") +:+ segment) EmptyString segments.

(** One turn of the loop; [requested] is the request from this segment on. *)
Definition match_segment (declared : list PathParameter) (pattern actual : string) (requested : list string) (p : Progress) : Progress :=
  if negb (isParameter pattern) then
    mkProgress (path_matches p && String.eqb pattern actual) (parameters_valid p) (S (literal_segments p)) (parameter_index p) (found_parameters p)
  else
    match declared !! parameter_index p with
    | None => mkProgress false (parameters_valid p) (literal_segments p) (parameter_index p) (found_parameters p)
    | Some parameter =>
        let next valid found := mkProgress (path_matches p) valid (literal_segments p) (S (parameter_index p)) found in
        if negb (String.eqb (name parameter) (parameterName pattern)) then next false (found_parameters p)
        else
          let value := if isCatchAll pattern then join_rest requested else actual in
          if validate parameter value then next (parameters_valid p) (append (found_parameters p) (name parameter) value)
          else next false (found_parameters p)
    end.

Fixpoint match_segments (declared : list PathParameter) (patterns requested : list string) (p : Progress) : Progress :=
  match patterns, requested with
  | pattern :: patterns, actual :: rest =>
      match_segments declared patterns rest (match_segment declared pattern actual requested p)
  | _, _ => p
  end.

Definition has_catch_all (segments : list string) : bool :=
  match last segments with Some segment => isCatchAll segment | None => false end.

Inductive Inspected := Skipped | Rejected | Matched (candidate : Candidate).

(** The body of the loop over the routes. *)
Definition inspect {V} (requested : list string) (route_index : nat) (m : RouteMetadata V) : Inspected :=
  match splitPath (path m) with
  | inl _ => Skipped
  | inr route_segments =>
      if (if has_catch_all route_segments then (length requested <? length route_segments)%nat
          else negb (length requested =? length route_segments)%nat) then Skipped
      else
        let p := match_segments (path_parameters m) route_segments requested Progress_start in
        if negb (path_matches p) then Skipped
        else if negb (parameters_valid p) then Rejected
        else Matched (mkCandidate route_index (literal_segments p) (found_parameters p))
  end.

Definition candidates_of (inspected : list Inspected) : list Candidate :=
  omap (fun i => match i with Matched c => Some c | _ => None end) inspected.

Definition most_literal (candidates : list Candidate) : nat := foldr (fun c most => Nat.max (candidate_literals c) most) O candidates.

(** [method_rank], for a route that supports the method. *)
Definition rank {V} (m : RouteMetadata V) (wanted : HTTPMethod) : nat := if bool_decide (method m = wanted) then 2 else 1.

Record Selection := mkSelection { selected : option Candidate; selected_rank : nat; refused : list HTTPMethod }.

(** The loop over the candidates. *)
Definition select {V I} (routes : list (RouteDefinition V I)) (wanted : HTTPMethod) (most : nat) (s : Selection) (c : Candidate) : Selection :=
  if negb (candidate_literals c =? most)%nat then s
  else
    match routes !! candidate_route c with
    | None => s
    | Some route =>
        if negb (supportsMethod (metadata route) wanted) then
          mkSelection (selected s) (selected_rank s) (refused s ++ [method (metadata route)])
        else
          let r := rank (metadata route) wanted in
          if match selected s with Some _ => (r <=? selected_rank s)%nat | None => false end then s
          else mkSelection (Some c) r (refused s)
    end.

(** [RouteRegistry::match] *)
Definition match_route {V I} (registry : RouteRegistry V I) (wanted : HTTPMethod) (path : string) : RouteMatch :=
  match splitPath path with
  | inl _ => mkMatch invalid_parameter None [] []
  | inr requested =>
      let inspected := imap (fun i route => inspect requested i (metadata route)) (m_routes registry) in
      let invalid := existsb (fun i => match i with Rejected => true | _ => false end) inspected in
      let known_path := existsb (fun i => match i with Skipped => false | _ => true end) inspected in
      match candidates_of inspected with
      | [] =>
          let status := if invalid then invalid_parameter else not_found in
          mkMatch (if known_path && negb invalid then method_not_allowed else status) None [] []
      | candidates =>
          let s := foldl (select (m_routes registry) wanted (most_literal candidates)) (mkSelection None 0 []) candidates in
          match selected s with
          | Some c => mkMatch found (Some (candidate_route c)) (candidate_parameters c) (refused s)
          | None => mkMatch method_not_allowed None [] (refused s)
          end
      end
  end.
End routes.

(** ** What a route accepts *)

(** The segments of a pattern against its declared parameters. *)
Inductive well_formed : list string -> list PathParameter -> Prop :=
| wf_end : well_formed [] []
| wf_literal s segments ps : isParameter s = false -> well_formed segments ps -> well_formed (s :: segments) ps
| wf_parameter s p segments ps : isParameter s = true -> (isCatchAll s = true -> segments = []) ->
    name p = parameterName s -> well_formed segments ps -> well_formed (s :: segments) (p :: ps).

Lemma isCatchAll_isParameter s : isCatchAll s = true -> isParameter s = true.
Proof. unfold isCatchAll. by intros [H _]%andb_true_iff. Qed.

Lemma drop_cons_lookup {A} (l : list A) i x : l !! i = Some x -> drop i l = x :: drop (S i) l.
Proof. intros H. by rewrite (drop_S l x i). Qed.

Lemma well_formed_cons s segments ps : well_formed (s :: segments) ps <->
  if isParameter s then
    match ps with
    | p :: ps => (isCatchAll s = true -> segments = []) /\ name p = parameterName s /\ well_formed segments ps
    | [] => False
    end
  else well_formed segments ps.
Proof.
  split.
  - inversion 1; simplify_eq; by repeat case_match.
  - destruct (isParameter s) eqn:Hp; [|by apply wf_literal]. destruct ps as [|p ps]; [done|]. intros (Hc & Hn & Hw). by constructor.
Qed.

Lemma well_formed_nil ps : well_formed [] ps <-> ps = [].
Proof. split; [by inversion 1|]. intros ->. constructor. Qed.

Lemma validateParameters_loop_ok path declared segments index : (index <= length declared)%nat ->
  validateParameters_loop path declared segments index = Ok tt <-> well_formed segments (drop index declared).
Proof.
  revert index. induction segments as [|s segments IH]; intros index Hi; cbn [validateParameters_loop].
  - rewrite well_formed_nil. destruct (Nat.eqb_spec index (length declared)) as [->|Hne].
    + by rewrite drop_all.
    + split; [done|]. intros E. apply (f_equal length) in E. rewrite length_drop in E. cbn in E. lia.
  - rewrite well_formed_cons. destruct (isParameter s); cbn [negb]; [|by apply IH].
    destruct (declared !! index) as [p|] eqn:Hd.
    + rewrite (drop_cons_lookup _ _ _ Hd). pose proof (lookup_lt_Some _ _ _ Hd) as Hlt.
      destruct (isCatchAll s && _) eqn:Hc.
      { split; [done|]. intros (Hall & _). apply andb_true_iff in Hc as [Hc Hn]. by rewrite Hall in Hn. }
      destruct (String.eqb_spec (name p) (parameterName s)) as [Hn|Hn]; cbn [negb]; [|split; [done|by intros (_ & ? & _)]].
      rewrite IH by lia. split; [|by intros (_ & _ & H)]. intros H. split_and!; try done. intros Hca. rewrite Hca in Hc.
      by destruct segments.
    + apply lookup_ge_None in Hd. rewrite drop_ge by lia. split; [by destruct (_ && _)|done].
Qed.

Section registered.
Context {U : UriCodec} {V I : Type}.

Definition wf_route (m : RouteMetadata V) : Prop :=
  exists segments, splitPath (path m) = inr segments /\ well_formed segments (path_parameters m).

Lemma validateParameters_ok (m : RouteMetadata V) : validateParameters m = Ok tt <-> wf_route m.
Proof.
  unfold validateParameters, wf_route. destruct (splitPath (path m)) as [e|segments].
  - split; [done|]. by intros (? & ? & _).
  - rewrite validateParameters_loop_ok by lia. rewrite drop_0. split; [by exists segments|]. by intros (? & [= ->] & H).
Qed.

(** What registration accepts, in the order given. *)
Definition accepted (routes : list (RouteDefinition V I)) : Prop :=
  Forall (fun r => wf_route (metadata r)) routes
  /\ forall i j a b, routes !! i = Some a -> routes !! j = Some b -> method (metadata a) = method (metadata b) ->
       path (metadata a) = path (metadata b) -> i = j.

Lemma same_registration_spec (a b : RouteMetadata V) :
  same_registration a b = true <-> method a = method b /\ path a = path b.
Proof. unfold same_registration. by rewrite andb_true_iff, bool_decide_eq_true, String.eqb_eq. Qed.

Lemma accepted_snoc routes (d : RouteDefinition V I) : accepted routes -> wf_route (metadata d) ->
  existsb (fun r => same_registration (metadata r) (metadata d)) routes = false -> accepted (routes ++ [d]).
Proof.
  intros [Hwf Hdup] Hd Hno. split; [by apply Forall_app; split; [|constructor]|].
  assert (Hnew : forall i a, routes !! i = Some a -> method (metadata a) = method (metadata d) -> path (metadata a) <> path (metadata d)).
  { intros i a Ha Hm Hpa. enough (existsb (fun r => same_registration (metadata r) (metadata d)) routes = true) by congruence.
    apply existsb_exists. exists a. split; [by apply list_elem_of_In, list_elem_of_lookup_2 with i|]. by apply same_registration_spec. }
  intros i j a b [Ha|[Hla Ha]]%lookup_app_Some [Hb|[Hlb Hb]]%lookup_app_Some Hm Hp.
  - by eapply Hdup.
  - apply list_lookup_singleton_Some in Hb as [_ <-]. by edestruct Hnew.
  - apply list_lookup_singleton_Some in Ha as [_ <-]. by edestruct (Hnew j b).
  - apply list_lookup_singleton_Some in Ha as [Ha _], Hb as [Hb _]. lia.
Qed.

Lemma add_accepted (registry registry' : RouteRegistry V I) d : add registry d = Ok registry' -> accepted (m_routes registry) ->
  m_routes registry' = m_routes registry ++ [d] /\ m_sealed registry' = false /\ accepted (m_routes registry').
Proof.
  unfold add. destruct (m_sealed registry) eqn:Hs; [done|]. destruct (validateParameters (metadata d)) as [[]|] eqn:Hv; [|done].
  cbn [mbind result_bind]. destruct (existsb _ _) eqn:Hex; [done|]. intros [= <-] Ha. split_and!; [done|done|].
  apply accepted_snoc; [done|by apply validateParameters_ok|done].
Qed.

Lemma add_all_accepted (definitions : list (RouteDefinition V I)) registry :
  foldM add (mkRegistry [] false) definitions = Ok registry ->
  m_routes registry = definitions /\ accepted definitions.
Proof.
  assert (H : forall ds r, accepted (m_routes r) -> foldM add r ds = Ok registry ->
    m_routes registry = m_routes r ++ ds /\ accepted (m_routes r ++ ds)).
  { induction ds as [|d ds IH]; intros r Hr; cbn [foldM].
    - unfold mret, result_ret. intros [= <-]. by rewrite app_nil_r.
    - destruct (add r d) as [r'|] eqn:Hd; [|done]. cbn [mbind result_bind]. intros Hf.
      destruct (add_accepted _ _ _ Hd Hr) as (Hroutes & _ & Ha). destruct (IH _ Ha Hf) as [H1 H2].
      rewrite Hroutes, <- app_assoc in *. done. }
  intros Hf. apply (H definitions (mkRegistry [] false)); [|done]. split; [constructor|]. intros i j a b Ha. done.
Qed.

(** C40: a registry never holds an ill-formed route: whatever is added, in
    whatever order, every route it ends up with has a path that can be split,
    declares exactly the parameters its path names, in order, has a catch-all
    only in its last segment, and shares its method and path with no other. *)
Theorem registered_routes_are_well_formed (definitions : list (RouteDefinition V I)) registry :
  foldM add (mkRegistry [] false) definitions = Ok registry ->
  m_routes registry = definitions /\ accepted definitions.
Proof. apply add_all_accepted. Qed.
End registered.

(** ** What a route captures *)

Fixpoint literals_agree (patterns requested : list string) : bool :=
  match patterns, requested with
  | pattern :: patterns, actual :: requested =>
      (isParameter pattern || String.eqb pattern actual) && literals_agree patterns requested
  | _, _ => true
  end.

(** A catch-all takes the rest of the request; nothing else does. *)
Definition fits (patterns requested : list string) : bool :=
  (if has_catch_all patterns then (length patterns <=? length requested)%nat else (length requested =? length patterns)%nat)
  && literals_agree patterns requested.

Definition literal_count (patterns : list string) : nat := length (List.filter (fun s => negb (isParameter s)) patterns).

(** The captures, when every one is accepted. *)
Fixpoint capture (patterns : list string) (declared : list PathParameter) (requested : list string) : option RequestParameters :=
  match patterns, requested with
  | pattern :: patterns, actual :: rest =>
      if isParameter pattern then
        match declared with
        | parameter :: declared =>
            let value := if isCatchAll pattern then join_rest requested else actual in
            if validate parameter value then cons (name parameter, value) <$> capture patterns declared rest else None
        | [] => None
        end
      else capture patterns declared rest
  | _, _ => Some []
  end.

Lemma match_segments_spec declared patterns requested p :
  well_formed patterns (drop (parameter_index p) declared) -> (length patterns <= length requested)%nat ->
  let p' := match_segments declared patterns requested p in
  path_matches p' = path_matches p && literals_agree patterns requested
  /\ parameters_valid p' = parameters_valid p && bool_decide (is_Some (capture patterns (drop (parameter_index p) declared) requested))
  /\ literal_segments p' = (literal_segments p + literal_count patterns)%nat
  /\ (forall caps, capture patterns (drop (parameter_index p) declared) requested = Some caps ->
       found_parameters p' = found_parameters p ++ caps).
Proof.
  revert requested p. induction patterns as [|s patterns IH]; intros requested p Hwf Hlen.
  { cbn. split_and!; [by destruct (path_matches p)|by destruct (parameters_valid p)|lia|]. intros caps [= <-]. by rewrite app_nil_r. }
  destruct requested as [|actual rest]; [cbn in Hlen; lia|]. cbn [match_segments literals_agree capture].
  apply well_formed_cons in Hwf. unfold literal_count. cbn [List.filter]. fold (literal_count patterns).
  assert (Hrest : (length patterns <= length rest)%nat) by (cbn in Hlen; lia).
  unfold match_segment. destruct (isParameter s) eqn:Hp; cbn [negb orb andb].
  - destruct (drop (parameter_index p) declared) as [|parameter ps] eqn:Hd; [done|]. destruct Hwf as (_ & Hn & Hwf).
    assert (Hl : declared !! parameter_index p = Some parameter).
    { rewrite <- (Nat.add_0_r (parameter_index p)), <- lookup_drop, Hd. done. }
    assert (Hd' : drop (S (parameter_index p)) declared = ps).
    { rewrite (drop_cons_lookup _ _ _ Hl) in Hd. by injection Hd. }
    rewrite Hl, Hn, String.eqb_refl. cbn [negb]. set (value := if isCatchAll s then _ else _).
    destruct (validate parameter value).
    + match goal with |- context [match_segments declared patterns rest ?q] => destruct (IH rest q) as (H1 & H2 & H3 & H4) end;
        cbn [parameter_index path_matches parameters_valid literal_segments found_parameters] in *; [by rewrite Hd'|done|].
      rewrite Hd' in *. split_and!; try done.
      * rewrite H2. destruct (capture patterns ps rest); done.
      * intros caps. intros (caps' & Hc & ->)%fmap_Some. rewrite (H4 caps' Hc). unfold append. by rewrite <- app_assoc.
    + match goal with |- context [match_segments declared patterns rest ?q] => destruct (IH rest q) as (H1 & H2 & H3 & H4) end;
        cbn [parameter_index path_matches parameters_valid literal_segments found_parameters] in *; [by rewrite Hd'|done|].
      rewrite Hd' in *. split_and!; try done. rewrite H2. by destruct (parameters_valid p).
  - match goal with |- context [match_segments declared patterns rest ?q] => destruct (IH rest q) as (H1 & H2 & H3 & H4) end;
      cbn [parameter_index path_matches parameters_valid literal_segments found_parameters] in *; [done|done|].
    split_and!; try done; [by rewrite H1, andb_assoc|]. rewrite H3. cbn. unfold literal_count. lia.
Qed.

Section inspected.
Context {U : UriCodec} {V : Type}.
Implicit Types m : RouteMetadata V.

Lemma has_catch_all_cons s segments : has_catch_all (s :: segments) = match segments with [] => isCatchAll s | _ => has_catch_all segments end.
Proof. unfold has_catch_all. by destruct segments. Qed.

(** A route's match as one equation. *)
Lemma inspect_spec requested i m segments : splitPath (path m) = inr segments -> well_formed segments (path_parameters m) ->
  inspect requested i m =
    if fits segments requested then
      match capture segments (path_parameters m) requested with
      | Some caps => Matched (mkCandidate i (literal_count segments) caps)
      | None => Rejected
      end
    else Skipped.
Proof.
  intros Hs Hwf. unfold inspect, fits. rewrite Hs.
  assert (Hlen : (if has_catch_all segments then (length requested <? length segments)%nat
      else negb (length requested =? length segments)%nat)
    = negb (if has_catch_all segments then (length segments <=? length requested)%nat else (length requested =? length segments)%nat)).
  { destruct (has_catch_all segments); [apply Nat.ltb_antisym|done]. }
  rewrite Hlen.
  remember (if has_catch_all segments then (length segments <=? length requested)%nat else (length requested =? length segments)%nat)
    as enough eqn:Hfit. destruct enough; cbn [negb andb]; [|done]. symmetry in Hfit.
  assert (Hle : (length segments <= length requested)%nat).
  { destruct (has_catch_all segments); [by apply Nat.leb_le in Hfit|apply Nat.eqb_eq in Hfit; lia]. }
  destruct (match_segments_spec (path_parameters m) segments requested Progress_start) as (H1 & H2 & H3 & H4); [done|done|].
  cbn [Progress_start path_matches parameters_valid literal_segments found_parameters parameter_index drop andb app] in *.
  rewrite drop_0 in *. cbv zeta. rewrite H1, H2, H3. destruct (literals_agree segments requested); cbn [negb]; [|done].
  destruct (capture segments (path_parameters m) requested) as [caps|]; [|done].
  by rewrite bool_decide_eq_true_2, (H4 caps) by done.
Qed.
End inspected.

(** ** The choice between candidates *)

Section selection.
Context {V I : Type} (routes : list (RouteDefinition V I)) (wanted : HTTPMethod) (most : nat).

(** The loop's state after the candidates [cs]. *)
Record select_inv (cs : list Candidate) (s : Selection) : Prop := {
  sel_some : forall c, selected s = Some c -> c ∈ cs /\ candidate_literals c = most
    /\ exists route, routes !! candidate_route c = Some route /\ supportsMethod (metadata route) wanted = true
       /\ selected_rank s = rank (metadata route) wanted;
  sel_best : forall c route, c ∈ cs -> candidate_literals c = most -> routes !! candidate_route c = Some route ->
    supportsMethod (metadata route) wanted = true -> selected s <> None /\ (rank (metadata route) wanted <= selected_rank s)%nat;
  sel_refused : forall c route, c ∈ cs -> candidate_literals c = most -> routes !! candidate_route c = Some route ->
    supportsMethod (metadata route) wanted = false -> method (metadata route) ∈ refused s
}.

Lemma select_inv_step cs s c : select_inv cs s -> select_inv (cs ++ [c]) (select routes wanted most s c).
Proof.
  intros [H1 H2 H3]. unfold select.
  assert (Hold : forall c', c' ∈ cs ++ [c] -> c' ∈ cs \/ c' = c) by set_solver.
  destruct (Nat.eqb_spec (candidate_literals c) most) as [Hm|Hm]; cbn [negb].
  2:{ split.
      - intros c' Hc'. destruct (H1 c' Hc') as (Hin & Hr). split; [set_solver|done].
      - intros c' r [Hin| ->]%Hold ? ?; [by eapply H2|congruence].
      - intros c' r [Hin| ->]%Hold ? ?; [by eapply H3|congruence]. }
  destruct (routes !! candidate_route c) as [route|] eqn:Hr.
  2:{ split.
      - intros c' Hc'. destruct (H1 c' Hc') as (Hin & Hx). split; [set_solver|done].
      - intros c' r [Hin| ->]%Hold ? ?; [by eapply H2|congruence].
      - intros c' r [Hin| ->]%Hold ? ?; [by eapply H3|congruence]. }
  destruct (supportsMethod (metadata route) wanted) eqn:Hsup; cbn [negb].
  2:{ split; cbn [selected selected_rank refused].
      - intros c' Hc'. destruct (H1 c' Hc') as (Hin & Hx). split; [set_solver|done].
      - intros c' r [Hin| ->]%Hold ? Hr' Hs; [by eapply H2|congruence].
      - intros c' r [Hin| ->]%Hold ? Hr' Hs; [apply elem_of_app; left; by eapply H3|].
        rewrite Hr in Hr'. injection Hr' as <-. set_solver. }
  destruct (match selected s with Some _ => (rank (metadata route) wanted <=? selected_rank s)%nat | None => false end) eqn:Hkeep.
  - destruct (selected s) as [best|] eqn:Hsel; [|done]. apply Nat.leb_le in Hkeep. split.
    + intros c' Hc'. rewrite Hsel in Hc'. destruct (H1 c' Hc') as (Hin & Hx). split; [set_solver|done].
    + intros c' r [Hin| ->]%Hold ? Hr' Hs; [rewrite Hsel; by eapply H2|]. rewrite Hsel, Hr in *. injection Hr' as <-. done.
    + intros c' r [Hin| ->]%Hold ? Hr' Hs; [by eapply H3|congruence].
  - split; cbn [selected selected_rank refused].
    + intros c' [= <-]. split; [set_solver|]. split; [done|]. by exists route.
    + intros c' r [Hin| ->]%Hold Hlit Hr' Hs.
      * destruct (H2 c' r Hin Hlit Hr' Hs) as [Hn Hle]. split; [done|]. destruct (selected s); [|done]. apply Nat.leb_gt in Hkeep. lia.
      * rewrite Hr in Hr'. injection Hr' as <-. done.
    + intros c' r [Hin| ->]%Hold ? Hr' Hs; [by eapply H3|congruence].
Qed.

Lemma select_inv_all cs : select_inv cs (foldl (select routes wanted most) (mkSelection None 0 []) cs).
Proof.
  induction cs as [|c cs IH] using rev_ind; [by split; [done|intros ? ? ?%not_elem_of_nil|intros ? ? ?%not_elem_of_nil]|].
  rewrite foldl_snoc. by apply select_inv_step.
Qed.
End selection.

Lemma most_literal_le c cs : c ∈ cs -> (candidate_literals c <= most_literal cs)%nat.
Proof. unfold most_literal. induction 1 as [c cs|c c' cs _ IH]; cbn; lia. Qed.

Lemma most_literal_reached cs : cs <> [] -> exists c, c ∈ cs /\ candidate_literals c = most_literal cs.
Proof.
  induction cs as [|c cs IH]; [done|]. intros _.
  change (most_literal (c :: cs)) with (Nat.max (candidate_literals c) (most_literal cs)). destruct cs as [|c' cs].
  - exists c. split; [by constructor|]. cbn. lia.
  - destruct (IH ltac:(done)) as (b & Hb & Hl). destruct (Nat.le_ge_cases (candidate_literals c) (most_literal (c' :: cs))).
    + exists b. split; [by constructor|]. lia.
    + exists c. split; [by constructor|]. lia.
Qed.

(** ** The route that is chosen *)

Section chosen.
Context {U : UriCodec} {V I : Type} (routes : list (RouteDefinition V I)).
Context (Hwf : Forall (fun r => wf_route (metadata r)) routes).

(** Route [id] has the shape of the request. *)
Definition shaped (requested : list string) (id : nat) : Prop :=
  exists route segments, routes !! id = Some route /\ splitPath (path (metadata route)) = inr segments /\ fits segments requested = true.

(** ... and accepts its captures; [literals] of its segments are literal. *)
Definition binds (requested : list string) (id : nat) (route : RouteDefinition V I) (caps : RequestParameters) (literals : nat) : Prop :=
  routes !! id = Some route /\ exists segments, splitPath (path (metadata route)) = inr segments /\ fits segments requested = true
    /\ capture segments (path_parameters (metadata route)) requested = Some caps /\ literals = literal_count segments.

Definition inspected (requested : list string) : list Inspected := imap (fun i route => inspect requested i (metadata route)) routes.

Lemma inspected_lookup requested x : x ∈ inspected requested <-> exists id route, routes !! id = Some route /\ inspect requested id (metadata route) = x.
Proof.
  unfold inspected. rewrite elem_of_lookup_imap. split; [intros (i & r & -> & H)|intros (i & r & H & <-)]; by exists i, r.
Qed.

Lemma inspect_route requested id route : routes !! id = Some route -> exists segments,
  splitPath (path (metadata route)) = inr segments
  /\ inspect requested id (metadata route) =
    if fits segments requested then
      match capture segments (path_parameters (metadata route)) requested with
      | Some caps => Matched (mkCandidate id (literal_count segments) caps)
      | None => Rejected
      end
    else Skipped.
Proof.
  intros Hr. rewrite Forall_lookup in Hwf. destruct (Hwf _ _ Hr) as (segments & Hs & Hw). exists segments. split; [done|].
  by apply inspect_spec.
Qed.

Lemma elem_of_candidates requested c : c ∈ candidates_of (inspected requested) <->
  exists route, binds requested (candidate_route c) route (candidate_parameters c) (candidate_literals c).
Proof.
  unfold candidates_of. rewrite list_elem_of_omap. split.
  - intros (x & (id & route & Hr & Hx)%inspected_lookup & Hc). destruct x as [| |c']; try done. injection Hc as ->.
    destruct (inspect_route requested id route Hr) as (segments & Hs & Heq). rewrite Hx in Heq.
    destruct (fits segments requested) eqn:Hf; [|done]. destruct (capture _ _ _) as [caps|] eqn:Hcap; [|done]. injection Heq as ->.
    exists route. split; [done|]. by exists segments.
  - intros (route & Hr & segments & Hs & Hf & Hcap & Hl). destruct (inspect_route requested _ route Hr) as (segments' & Hs' & Heq).
    assert (segments' = segments) as -> by congruence. rewrite Hf, Hcap, <- Hl in Heq. exists (Matched c). split; [|done].
    apply inspected_lookup. exists (candidate_route c), route. split; [done|]. by destruct c.
Qed.

Lemma inspected_shaped requested :
  existsb (fun i => match i with Skipped => false | _ => true end) (inspected requested) = true <-> exists id, shaped requested id.
Proof.
  rewrite existsb_exists. split.
  - intros (x & Hin%list_elem_of_In & Hx). apply inspected_lookup in Hin as (id & route & Hr & <-). exists id.
    destruct (inspect_route requested id route Hr) as (segments & Hs & Heq). rewrite Heq in Hx. exists route, segments.
    by destruct (fits segments requested).
  - intros (id & route & segments & Hr & Hs & Hf). destruct (inspect_route requested id route Hr) as (segments' & Hs' & Heq).
    assert (segments' = segments) as -> by congruence. exists (inspect requested id (metadata route)).
    rewrite <- list_elem_of_In. split; [apply inspected_lookup; by exists id, route|]. rewrite Heq, Hf. by destruct (capture _ _ _).
Qed.

Lemma inspected_rejected requested : candidates_of (inspected requested) = [] ->
  existsb (fun i => match i with Rejected => true | _ => false end) (inspected requested)
  = existsb (fun i => match i with Skipped => false | _ => true end) (inspected requested).
Proof.
  induction (inspected requested) as [|[| |c] l IH]; cbn; try done.
Qed.

(** The most literal routes among those that accept a request. *)
Definition best (requested : list string) (id : nat) (route : RouteDefinition V I) (caps : RequestParameters) (literals : nat) : Prop :=
  binds requested id route caps literals /\ forall id' route' caps' literals', binds requested id' route' caps' literals' -> (literals' <= literals)%nat.

(** What a match must be. *)
Definition match_ok (wanted : HTTPMethod) (requested : list string) (m : RouteMatch) : Prop :=
  match status m with
  | found => exists id route literals, route_id m = Some id /\ best requested id route (captured m) literals
      /\ supportsMethod (metadata route) wanted = true
      /\ (forall id' route' caps' literals', best requested id' route' caps' literals' -> method (metadata route') = wanted -> method (metadata route) = wanted)
  | method_not_allowed => (exists id route caps literals, best requested id route caps literals)
      /\ forall id route caps literals, best requested id route caps literals ->
           supportsMethod (metadata route) wanted = false /\ method (metadata route) ∈ allowed_methods m
  | invalid_parameter => (exists id, shaped requested id) /\ forall id route caps literals, ~ binds requested id route caps literals
  | not_found => forall id, ~ shaped requested id
  end.

Lemma best_candidate requested c route : candidates_of (inspected requested) <> [] ->
  binds requested (candidate_route c) route (candidate_parameters c) (candidate_literals c) ->
  candidate_literals c = most_literal (candidates_of (inspected requested)) ->
  best requested (candidate_route c) route (candidate_parameters c) (candidate_literals c).
Proof.
  intros Hne Hb Hl. split; [done|]. intros id' route' caps' l' Hb'. rewrite Hl.
  apply (most_literal_le (mkCandidate id' l' caps')), elem_of_candidates. by exists route'.
Qed.

Lemma best_literals requested id route caps literals : best requested id route caps literals ->
  mkCandidate id literals caps ∈ candidates_of (inspected requested)
  /\ literals = most_literal (candidates_of (inspected requested)).
Proof.
  intros [Hb Hmax]. assert (Hin : mkCandidate id literals caps ∈ candidates_of (inspected requested)).
  { apply elem_of_candidates. by exists route. }
  split; [done|]. destruct (most_literal_reached (candidates_of (inspected requested))) as (c & Hc & Hl).
  { intros H. rewrite H in Hin. by apply not_elem_of_nil in Hin. }
  pose proof (most_literal_le _ _ Hin) as Hle. cbn in Hle. apply elem_of_candidates in Hc as (route' & Hc).
  specialize (Hmax _ _ _ _ Hc). lia.
Qed.

Lemma rank_exact (m m' : RouteMetadata V) wanted : (rank m' wanted <= rank m wanted)%nat -> method m' = wanted -> method m = wanted.
Proof. unfold rank. intros Hle Hm. rewrite (bool_decide_eq_true_2 (method m' = wanted)) in Hle by done. case_bool_decide; [done|lia]. Qed.

Lemma match_route_ok registry wanted path requested : m_routes registry = routes -> splitPath path = inr requested ->
  match_ok wanted requested (match_route registry wanted path).
Proof.
  intros Hroutes Hs. unfold match_route. rewrite Hs, Hroutes. fold (inspected requested). cbv zeta.
  pose proof (elem_of_candidates requested) as Hcand. pose proof (inspected_rejected requested) as Hrej.
  destruct (candidates_of (inspected requested)) as [|c0 cs] eqn:Hcs.
  - rewrite Hrej by done. destruct (existsb (fun i => match i with Skipped => false | _ => true end) _) eqn:Hk; cbn [andb negb].
    + unfold match_ok. cbn [status]. split; [by apply inspected_shaped|]. intros id route caps literals Hb.
      apply (not_elem_of_nil (mkCandidate id literals caps)), Hcand. by exists route.
    + unfold match_ok. cbn [status]. intros id Hsh. apply not_true_iff_false in Hk. apply Hk, inspected_shaped. by exists id.
  - rewrite <- Hcs in *. assert (Hne : candidates_of (inspected requested) <> []) by (by rewrite Hcs).
    pose proof (select_inv_all routes wanted (most_literal (candidates_of (inspected requested))) (candidates_of (inspected requested))) as [H1 H2 H3].
    set (s := foldl _ _ _) in *. unfold match_ok. destruct (selected s) as [c|] eqn:Hsel; cbn [status route_id captured allowed_methods].
    + destruct (H1 c eq_refl) as (Hin & Hl & route & Hr & Hsup & Hrank). apply Hcand in Hin as (route' & Hb).
      assert (route' = route) as -> by (destruct Hb as [Hb _]; congruence).
      exists (candidate_route c), route, (candidate_literals c). split_and!; [done|by apply best_candidate|done|].
      intros id' r' caps' l' Hbest Hm. destruct (best_literals _ _ _ _ _ Hbest) as [Hin' Hl']. destruct Hbest as [[Hr' _] _].
      destruct (H2 _ r' Hin') as [_ Hle]; [done|done|unfold supportsMethod; by rewrite bool_decide_eq_true_2|].
      rewrite Hrank in Hle. by eapply rank_exact.
    + split.
      * destruct (most_literal_reached _ Hne) as (c & Hc & Hl). apply Hcand in Hc as (route & Hb).
        exists (candidate_route c), route, (candidate_parameters c), (candidate_literals c). by apply best_candidate.
      * intros id route caps literals Hbest. destruct (best_literals _ _ _ _ _ Hbest) as [Hin Hl]. destruct Hbest as [[Hr _] _].
        destruct (supportsMethod (metadata route) wanted) eqn:Hsup.
        -- destruct (H2 _ route Hin) as [Hn _]; done.
        -- split; [done|]. by apply (H3 _ route Hin).
Qed.
End chosen.

Section matching.
Context {U : UriCodec} {V I : Type} (definitions : list (RouteDefinition V I)) (registry : RouteRegistry V I).
Context (Hadd : foldM add (mkRegistry [] false) definitions = Ok registry).

Lemma registry_match wanted path requested : splitPath path = inr requested ->
  match_ok definitions wanted requested (match_route registry wanted path).
Proof. destruct (add_all_accepted _ _ Hadd) as [Hr [Hwf _]]. by apply match_route_ok. Qed.

(** C13: for every path that can be decoded, the registry answers with a route
    only if the route accepts the path and the method, no accepting route has
    more literal segments, and an exact method is preferred to GET standing in
    for HEAD; it answers method_not_allowed (405) exactly when the most literal
    accepting routes all refuse the method, and names them; invalid_parameter
    (400) when some route has the shape of the path but none accepts its
    captures; and not_found (404) when none has the shape.  A path that cannot
    be decoded is an invalid parameter. *)
Theorem match_selects_most_literal wanted path :
  match splitPath path with
  | inr requested => match_ok definitions wanted requested (match_route registry wanted path)
  | inl _ => match_route registry wanted path = mkMatch invalid_parameter None [] []
  end.
Proof. destruct (splitPath path) as [e|requested] eqn:E; [|by apply registry_match]. unfold match_route. by rewrite E. Qed.

Lemma filter_literals_all segments : literal_count segments = length segments <-> Forall (fun s => isParameter s = false) segments.
Proof.
  unfold literal_count. induction segments as [|s segments IH]; [by split|]. cbn [List.filter].
  pose proof (List.filter_length_le (fun s => negb (isParameter s)) segments).
  rewrite Forall_cons, <- IH. destruct (isParameter s); cbn [negb length].
  - split; [lia|by intros [? _]].
  - split; [intros [= Hl]; done|intros [_ Hf]; by f_equal].
Qed.

Lemma literals_agree_literal segments requested : Forall (fun s => isParameter s = false) segments ->
  length segments = length requested -> literals_agree segments requested = true <-> segments = requested.
Proof.
  intros Hlit. revert requested. induction Hlit as [|s segments Hs Hlit IH]; intros [|r requested] Hl; try done.
  cbn [literals_agree]. rewrite Hs. cbn [orb]. rewrite andb_true_iff, String.eqb_eq, IH by (cbn in Hl; lia). split; [by intros [-> ->]|].
  by intros [= -> ->].
Qed.

Lemma capture_literal segments declared requested : Forall (fun s => isParameter s = false) segments ->
  capture segments declared requested = Some [].
Proof.
  intros Hlit. revert requested. induction Hlit as [|s segments Hs Hlit IH]; intros [|r requested]; try done.
  cbn [capture]. rewrite Hs. apply IH.
Qed.

Lemma has_catch_all_literal segments : Forall (fun s => isParameter s = false) segments -> has_catch_all segments = false.
Proof.
  intros Hlit. unfold has_catch_all. destruct (last segments) as [s|] eqn:Hl; [|done].
  apply last_Some_elem_of in Hl. rewrite Forall_forall in Hlit. specialize (Hlit s Hl). unfold isCatchAll. by rewrite Hlit.
Qed.

(** A route that fits has at most as many literals as the request segments;
    only one that is the request itself has that many. *)
Lemma fits_literals segments requested : fits segments requested = true ->
  (literal_count segments <= length requested)%nat
  /\ (literal_count segments = length requested -> segments = requested).
Proof.
  unfold fits. intros [Hlen Hag]%andb_true_iff.
  pose proof (List.filter_length_le (fun s => negb (isParameter s)) segments) as Hle. fold (literal_count segments) in Hle.
  assert (Hls : (length segments <= length requested)%nat).
  { destruct (has_catch_all segments); [by apply Nat.leb_le in Hlen|apply Nat.eqb_eq in Hlen; lia]. }
  split; [lia|]. intros Heq. apply literals_agree_literal; [apply filter_literals_all; lia|lia|done].
Qed.

(** A route without parameters is always reachable: whatever else is
    registered and in whatever order, its own path and method find it, and no
    parameter or catch-all route takes the request from it. *)
Theorem literal_routes_are_reachable id route segments : definitions !! id = Some route ->
  splitPath (path (metadata route)) = inr segments -> Forall (fun s => isParameter s = false) segments ->
  (forall id' route', definitions !! id' = Some route' -> method (metadata route') = method (metadata route) ->
     splitPath (path (metadata route')) = inr segments -> id' = id) ->
  let m := match_route registry (method (metadata route)) (path (metadata route)) in
  status m = found /\ route_id m = Some id /\ captured m = [].
Proof.
  intros Hr Hs Hlit Huniq m. pose proof (registry_match (method (metadata route)) _ _ Hs) as Hok. fold m in Hok.
  assert (Hfit : fits segments segments = true).
  { unfold fits. rewrite has_catch_all_literal, Nat.eqb_refl by done. by apply literals_agree_literal. }
  assert (Hbest : best definitions segments id route [] (length segments)).
  { split.
    - split; [done|]. exists segments. split_and!; [done|done|by apply capture_literal|]. symmetry. by apply filter_literals_all.
    - intros id' route' caps' l' (_ & segments' & _ & Hf & _ & ->). by apply fits_literals in Hf as [? _]. }
  assert (Hself : supportsMethod (metadata route) (method (metadata route)) = true).
  { unfold supportsMethod. by rewrite bool_decide_eq_true_2. }
  unfold match_ok in Hok. destruct (status m) eqn:Hst.
  - destruct Hok as (id' & route' & l' & Hid & Hb' & _ & Hexact). specialize (Hexact _ _ _ _ Hbest eq_refl).
    destruct Hb' as [[Hr' (segments' & Hs' & Hf' & Hc' & ->)] Hmax]. destruct Hbest as [Hb _].
    pose proof (Hmax _ _ _ _ Hb) as Hge. apply fits_literals in Hf' as [Hle Heq].
    specialize (Heq ltac:(lia)). subst segments'. rewrite (Huniq _ _ Hr' Hexact Hs') in Hid. split_and!; [done|done|].
    rewrite capture_literal in Hc' by done. by injection Hc'.
  - destruct (Hok id). by exists route, segments.
  - destruct Hok as [_ Hall]. destruct (Hall _ _ _ _ Hbest) as [Hno _]. congruence.
  - destruct Hok as [_ Hno]. destruct Hbest as [Hb _]. by destruct (Hno _ _ _ _ Hb).
Qed.
End matching.

(** A catch-all loses the empty segments it starts with. *)
Lemma join_rest_leading_empty segments : join_rest (EmptyString :: segments) = join_rest segments.
Proof. done. Qed.

(** ** Witnesses *)

Definition sample_routes : list (RouteDefinition unit unit) :=
  [mkRoute (mkMetadata GET "/tags/{id}" [mkPathParameter "id" (fun s => negb (sempty s))] [] None) tt;
   mkRoute (mkMetadata GET "/tags/all" [] [] None) tt;
   mkRoute (mkMetadata GET "/files/{*rest}" [mkPathParameter "rest" (fun _ => true)] [] None) tt].

Definition sample_registry : RouteRegistry unit unit := mkRegistry sample_routes false.

Lemma registered_routes_are_well_formed_witness : m_routes sample_registry = sample_routes.
Proof. exact (proj1 (registered_routes_are_well_formed sample_routes sample_registry eq_refl)). Defined.

Lemma match_selects_most_literal_witness :
  match_ok sample_routes HEAD ["files"; "a"; "b"] (match_route sample_registry HEAD "/files/a/b").
Proof. exact (match_selects_most_literal sample_routes sample_registry eq_refl HEAD "/files/a/b"). Defined.

Lemma literal_routes_are_reachable_witness :
  route_id (match_route sample_registry GET "/tags/all") = Some 1%nat.
Proof.
  refine (proj1 (proj2 (literal_routes_are_reachable sample_routes sample_registry eq_refl 1
    (mkRoute (mkMetadata GET "/tags/all" [] [] None) tt) ["tags"; "all"] eq_refl eq_refl _ _))); [by repeat constructor|].
  intros [|[|[|id]]] route'; cbn; try done; by intros [= <-].
Defined.
