(* ===== verification/HttpServer.v ===== *)
(** * The HTTP server: from a request's headers to its response

    [HTTPServer.cpp], [UploadPipeline.cpp], [Response.cpp], [Middleware.cpp]
    and the rest of [RouteRegistry.cpp] (dispatch, validation) of [IDHANHttp].
    A request passes, in this order, through header checks, query parsing,
    routing, preflight, validations, admission, the reading of its body and the
    handler; anything it fails answers it instead.

    Handlers and validations are functions that return or throw; the transport
    delivers the body as events; files are written by [pwrite]. *)
From S2P Require Import Prelude StringView HttpParams HttpRoutes Drain.
From Stdlib Require Import Ascii.
From Stdlib Require String.

(** ** Exceptions *)

(** [proxygen::coro::HTTPError], [std::exception] and anything else. *)
Inductive Thrown := HTTPError (what : string) | StdException (what : string) | Nonstandard.
Inductive Outcome (A : Type) := Returned (a : A) | Threw (t : Thrown).
Arguments Returned {A}.
Arguments Threw {A}.

#[export] Instance Outcome_ret : MRet Outcome := @Returned.
#[export] Instance Outcome_bind : MBind Outcome := fun A B f m => match m with Returned a => f a | Threw t => Threw t end.

(** ** Uploads *)

(** What the rest of the program gets: the body in memory or in a file. *)
Inductive RequestBody := Memory (bytes : list Z) | TemporaryUpload (content : list Z) (size : Z) (hash : list Z).

(** [m_buffer]'s chain, the file's content once there is one, and the bytes the
    digest has been given. *)
Record UploadPipeline := mkUpload {
  m_buffer : list (list Z);
  m_file : option (list Z);
  m_digest : list Z;
  m_size : Z;
  m_finished : bool
}.

Definition UploadPipeline_make : UploadPipeline := mkUpload [] None [] 0 false.

Definition request_memory_limit : Z := 8 * 1024 * 1024.

Section upload.
(* [createUploadFile]; [folly::pwriteFull], which returns how much it wrote or
   a negative number; the hash of all bytes given to the hasher *)
Context (createUploadFile : Outcome unit) (pwrite : Z -> list Z -> Z) (sha256 : list Z -> list Z).

(** One buffer of the chain that [write] walks. *)
Definition write_bytes (bytes : list Z) (u : UploadPipeline) : Outcome UploadPipeline :=
  match m_file u with
  | None => Threw (StdException "Writing temporary upload")
  | Some content =>
      if int64_max - m_size u <? Z.of_nat (length bytes) then Threw (StdException "Temporary upload exceeds file offset range")
      else
        let written := pwrite (m_size u) bytes in
        if written <? 0 then Threw (StdException "Writing temporary upload")
        else if negb (written =? Z.of_nat (length bytes)) then Threw (StdException "Short temporary upload write")
        else Returned (mkUpload (m_buffer u) (Some (content ++ bytes)) (m_digest u ++ bytes) (m_size u + Z.of_nat (length bytes)) (m_finished u))
  end.

Fixpoint write (chain : list (list Z)) (u : UploadPipeline) : Outcome UploadPipeline :=
  match chain with
  | [] => Returned u
  | bytes :: chain => u ← write_bytes bytes u; write chain u
  end.

(** [append]; a null chunk is [None]. *)
Definition append_chunk (chunk : option (list (list Z))) (u : UploadPipeline) : Outcome UploadPipeline :=
  if m_finished u then Threw (StdException "Upload already completed")
  else
    match chunk with
    | None => Returned u
    | Some chain =>
        match m_file u with
        | Some _ => write chain u
        | None =>
            if Z.of_nat (length (concat chain)) <=? request_memory_limit - Z.of_nat (length (concat (m_buffer u))) then
              Returned (mkUpload (m_buffer u ++ chain) None (m_digest u) (m_size u) (m_finished u))
            else
              _ ← createUploadFile;
              let buffered := m_buffer u in
              u ← write buffered (mkUpload [] (Some []) (m_digest u) (m_size u) (m_finished u));
              write chain u
        end
    end.

Definition finish_upload (u : UploadPipeline) : Outcome (UploadPipeline * RequestBody) :=
  if m_finished u then Threw (StdException "Upload already completed")
  else
    Returned (match m_file u with
    | None => (mkUpload [] None (m_digest u) (m_size u) true, Memory (concat (m_buffer u)))
    | Some content => (mkUpload (m_buffer u) None (m_digest u) (m_size u) true, TemporaryUpload content (m_size u) (sha256 (m_digest u)))
    end).

(** ** Responses *)

(** A body: none, a buffer, or a source that frames itself. *)
Inductive Body := Empty | Buffer (text : string) | Source (source : nat).

Record Response := mkResponse { status_code : Z; headers : gmap string string; body : Body }.

Definition Response_make : Response := mkResponse 200 {[ "Server" := "IDHAN" ]} Empty.

Definition Response_error (status : Z) (text : string) : Response :=
  mkResponse status (<["Content-Type" := "text/plain; charset=utf-8"]> {[ "Server" := "IDHAN" ]}) (Buffer text).

Definition set_header (name value : string) (r : Response) : Response :=
  mkResponse (status_code r) (<[name := value]> (headers r)) (body r).

Definition addCorsHeaders (r : Response) : Response :=
  set_header "Access-Control-Max-Age" "86400"
    (set_header "Access-Control-Allow-Headers" "*" (set_header "Access-Control-Allow-Origin" "*" r)).

(** What goes to the transport: the response, and the body unless suppressed. *)
Definition makeResponseSource (r : Response) (suppress_body : bool) : Response :=
  match body r with
  | Source _ => r
  | _ =>
      let r := addCorsHeaders r in
      if suppress_body then mkResponse (status_code r) (headers r) Empty else r
  end.

Definition rejectRequest (r : Response) (http1 head : bool) : Response :=
  makeResponseSource (if http1 then set_header "Connection" "close" r else r) head.

Definition methodToString (m : HTTPMethod) : string :=
  match m with
  | GET => "GET" | POST => "POST" | OPTIONS => "OPTIONS" | DELETE => "DELETE" | HEAD => "HEAD" | CONNECT => "CONNECT"
  | CONNECT_UDP => "CONNECT-UDP" | PUT => "PUT" | TRACE => "TRACE" | PATCH => "PATCH" | SUB => "SUB" | PUB => "PUB" | UNSUB => "UNSUB"
  end.

Definition allowHeader (methods : list HTTPMethod) : string :=
  foldl (fun allow m => (if sempty allow then allow else allow +:+ ", ") +:+ methodToString m) EmptyString methods.

Definition combineParameters (query path : RequestParameters) : RequestParameters :=
  foldl (fun all p => append all (fst p) (snd p)) query path.

Definition routeError (m : RouteMatch) : Response :=
  match status m with
  | not_found => Response_error 404 "Not found"
  | invalid_parameter => Response_error 400 "Invalid route parameter"
  | _ => set_header "Allow" (allowHeader (allowed_methods m)) (Response_error 405 "Method not allowed")
  end.

Definition preflightResponse (m : RouteMatch) : Response :=
  match status m with
  | not_found => Response_error 404 "Not found"
  | _ =>
      let r := set_header "Access-Control-Allow-Methods" (allowHeader (allowed_methods m ++ [OPTIONS])) Response_make in
      mkResponse 204 (headers r) Empty
  end.

(** ** Requests *)

(** The header event: missing headers or a failed read are [None] for the
    whole message. *)
Record Message := mkMessage {
  m_method : option HTTPMethod;
  http_major : Z;
  has_header : string -> bool;
  query_string : string;
  request_path : string;
  headers_eom : bool
}.

(** [HTTPBodyEvent]: a piece of the body, something else, or a read that throws. *)
Inductive BodyEvent := Piece (chunk : option (list (list Z))) (eom : bool) | Other (eom : bool) | Fails (t : Thrown).

(** [RequestContext], what a handler sees of it. *)
Record RequestContext := mkContext {
  id : Z;
  message : Message;
  request_parameters : RequestParameters;
  request_body : RequestBody;
  parameter_rules : option ParameterRules
}.

Definition Handler : Type := RequestContext -> Outcome Response.
Definition Validation : Type := Message -> RequestParameters -> Outcome (option Response).
Definition Routes : Type := RouteRegistry Validation Handler.

Section requests.
Context {U : UriCodec} (escaped : string -> string).

(** The loop over [before_body]. *)
Fixpoint run_validations (validations : list Validation) (m : Message) (parameters : RequestParameters) : Outcome (option Response) :=
  match validations with
  | [] => Returned None
  | validate :: validations =>
      rejection ← validate m parameters;
      match rejection with
      | Some r => Returned (Some r)
      | None => run_validations validations m parameters
      end
  end.

Definition validateRequest (metadata : RouteMetadata Validation) (m : Message) (request : RequestParameters) : Outcome (option Response) :=
  rejection ← run_validations (before_body metadata) m request;
  match rejection with
  | Some r => Returned (Some r)
  | None =>
      match parameters metadata with
      | None => Returned None
      | Some rules =>
          let allowed := query rules ++ (name <$> path_parameters metadata) in
          Returned (Response_error 400 <$>
            handleUnknownParameters escaped (unknownQueryParameters request allowed) "query" (unknown rules))
      end
  end.

(** [RouteRegistry::dispatch], of a match that was found. *)
Definition dispatch (routes : Routes) (m : RouteMatch) (context : RequestContext) : Outcome Response :=
  match status m with
  | invalid_parameter => Returned (Response_error 400 "Invalid route parameter")
  | method_not_allowed => Returned (Response_error 405 "Method not allowed")
  | _ =>
      match status m, route ← route_id m; m_routes routes !! route with
      | found, Some route =>
          invoke route (mkContext (id context) (message context) (request_parameters context) (request_body context) (parameters (metadata route)))
      | _, _ => Returned (Response_error 404 "Not found")
      end
  end.

(** The loop that reads the body; the read after the last event throws. *)
Fixpoint read_body (events : list BodyEvent) (end_of_message : bool) (u : UploadPipeline) : Outcome UploadPipeline :=
  if end_of_message then Returned u
  else match events with
  | [] => Threw (HTTPError "the stream ended")
  | Fails t :: _ => Threw t
  | Other eom :: events => read_body events eom u
  | Piece chunk eom :: events => u ← append_chunk chunk u; read_body events eom u
  end.

(** The context handlers were given: what the theorems watch. *)
Record Sent := mkSent { response : Response; invoked : option (nat * RequestContext) }.

Definition error_response (method_name path : string) (t : Thrown) : Response :=
  match t with
  | HTTPError what => Response_error 400 ("malformed request body for " +:+ method_name +:+ " " +:+ path +:+ ": " +:+ what)
  | StdException what => Response_error 500 ("Internal server error: " +:+ "unhandled exception in " +:+ method_name +:+ " " +:+ path +:+ ": " +:+ what)
  | Nonstandard => Response_error 500 "Internal server error (Nonstandard exception)"
  end.

Definition readBodyAndDispatch (routes : Routes) (m : RouteMatch) (context : RequestContext) (events : list BodyEvent)
    (end_of_message : bool) : Sent :=
  let msg := message context in
  let head := bool_decide (m_method msg = Some HEAD) in
  let method_name := match m_method msg with Some method => methodToString method | None => "?" end in
  match u ← read_body events end_of_message UploadPipeline_make; finish_upload u with
  | Threw t => mkSent (makeResponseSource (error_response method_name (request_path msg) t) head) None
  | Returned (_, body) =>
      let context := mkContext (id context) msg (request_parameters context) body (parameter_rules context) in
      let invoked := match status m, route_id m with found, Some route => Some (route, context) | _, _ => None end in
      match dispatch routes m context with
      | Returned r => mkSent (makeResponseSource r head) invoked
      | Threw t => mkSent (makeResponseSource (error_response method_name (request_path msg) t) head) invoked
      end
  end.

(** ** The server *)

(** The routes, the registry of admitted work and the next request's number. *)
Record Server := mkServer { m_routes_of : Routes; m_drain : Registry; m_next_request_id : Z }.

Definition reject (s : Server) (r : Response) (http1 head : bool) : Server * Sent := (s, mkSent (rejectRequest r http1 head) None).

(** [HTTPServer::handleRequest].  [work] is the registration object of this
    request, released when its context ends. *)
Definition handleRequest (work : nat) (request : option Message) (events : list BodyEvent) (s : Server) : Server * Sent :=
  match request with
  | None => reject s (Response_error 400 "Malformed request") true false
  | Some msg =>
      let http1 := http_major msg <? 2 in
      match m_method msg with
      | None => reject s (Response_error 400 "Malformed request") http1 false
      | Some method =>
          let head := bool_decide (method = HEAD) in
          if has_header msg "Expect" then reject s (Response_error 417 "Expectations are not supported") http1 head
          else
            match parseQuery (query_string msg) with
            | inl _ => reject s (Response_error 400 "Invalid query parameters") http1 head
            | inr query =>
                let m := match_route (m_routes_of s) method (request_path msg) in
                if bool_decide (method = OPTIONS) && has_header msg "Origin" then reject s (preflightResponse m) http1 head
                else
                  match status m, route ← route_id m; m_routes (m_routes_of s) !! route with
                  | found, Some route =>
                      let request_parameters := combineParameters query (captured m) in
                      let rejection :=
                        match validateRequest (metadata route) msg request_parameters with
                        | Returned rejection => rejection
                        | Threw (HTTPError what | StdException what) =>
                            Some (Response_error 500 ("unhandled exception validating " +:+ methodToString method +:+ " " +:+ request_path msg +:+ ": " +:+ what))
                        | Threw Nonstandard =>
                            Some (Response_error 500 ("unhandled non-standard exception validating " +:+ methodToString method +:+ " " +:+ request_path msg))
                        end in
                      match rejection with
                      | Some r => reject s r http1 head
                      | None =>
                          if closed (state (m_drain s)) then reject s (Response_error 503 "Server is shutting down") http1 head
                          else
                            let context := mkContext (m_next_request_id s) msg request_parameters (Memory []) None in
                            let s := mkServer (m_routes_of s) (admit_work work (m_drain s)) (wrapu 64 (m_next_request_id s + 1)) in
                            let sent := readBodyAndDispatch (m_routes_of s) m context events (headers_eom msg) in
                            (mkServer (m_routes_of s) (destroy work (m_drain s)) (m_next_request_id s), sent)
                      end
                  | _, _ => reject s (routeError m) http1 head
                  end
            end
      end
  end.

(** ** Middleware *)

Definition NextHandler : Type := RequestContext -> Outcome Response.
Definition Middleware : Type := RequestContext -> NextHandler -> Outcome Response.

(** [MiddlewareChain::invoke]: the loop wraps [next] from the last one on. *)
Definition MiddlewareChain_invoke (chain : list Middleware) (context : RequestContext) (next : NextHandler) : Outcome Response :=
  foldl (fun next middleware => fun request => middleware request next) next (rev chain) context.
End requests.
End upload.

(** ** Uploads *)

Section uploads.
Context (createUploadFile : Outcome unit) (pwrite : Z -> list Z -> Z) (sha256 : list Z -> list Z).
Local Notation write := (write pwrite).
Local Notation append_chunk := (append_chunk createUploadFile pwrite).

Definition chunk_bytes (chunk : option (list (list Z))) : list Z := match chunk with Some chain => concat chain | None => [] end.

(** What the pipeline holds: a bounded buffer, or a file that is all of it. *)
Definition upload_ok (received : list Z) (u : UploadPipeline) : Prop :=
  m_finished u = false /\
  match m_file u with
  | None => concat (m_buffer u) = received /\ m_digest u = [] /\ m_size u = 0 /\ Z.of_nat (length received) <= request_memory_limit
  | Some content => content = received /\ m_digest u = received /\ m_size u = Z.of_nat (length received) /\ m_buffer u = []
      /\ request_memory_limit < Z.of_nat (length received)
  end.

Lemma write_file chain u u' content : m_file u = Some content -> write chain u = Returned u' ->
  m_file u' = Some (content ++ concat chain) /\ m_digest u' = m_digest u ++ concat chain
  /\ m_size u' = m_size u + Z.of_nat (length (concat chain)) /\ m_buffer u' = m_buffer u /\ m_finished u' = m_finished u.
Proof.
  revert u content. induction chain as [|bytes chain IH]; intros u content Hf; cbn [HttpServer.write concat].
  - intros [= <-]. rewrite !app_nil_r. split_and!; [done|done|cbn; lia|done|done].
  - unfold write_bytes. rewrite Hf. destruct (_ <? _); [done|]. destruct (_ <? 0); [done|]. destruct (negb _); [done|].
    cbn [mbind Outcome_bind]. intros (H1 & H2 & H3 & H4 & H5)%(IH _ (content ++ bytes)); [|done]. cbn [m_digest m_size m_buffer m_finished] in *.
    rewrite H1, H2, H3, H4, H5, <- !app_assoc, length_app. split_and!; try done. lia.
Qed.

Lemma append_chunk_ok received chunk u u' : upload_ok received u -> append_chunk chunk u = Returned u' ->
  upload_ok (received ++ chunk_bytes chunk) u'.
Proof.
  intros [Hn Hu]. unfold HttpServer.append_chunk. rewrite Hn. destruct chunk as [chain|]; cbn [chunk_bytes].
  2:{ intros [= <-]. rewrite app_nil_r. by split. }
  destruct (m_file u) as [content|] eqn:Hf.
  - destruct Hu as (-> & Hd & Hs & Hb & Hl). intros (H1 & H2 & H3 & H4 & H5)%(write_file _ _ _ received); [|done].
    split; [congruence|]. rewrite H1, H2, H3, H4, Hd, Hs, Hb, length_app. split_and!; done || lia.
  - destruct Hu as (Hc & Hd & Hs & Hl). rewrite Hc. destruct (Z.leb_spec (Z.of_nat (length (concat chain))) (request_memory_limit - Z.of_nat (length received))).
    + intros [= <-]. split; [done|]. cbn [m_file m_buffer m_digest m_size]. rewrite concat_app, Hc, length_app. split_and!; try done. lia.
    + destruct createUploadFile as [[]|]; [|done]. cbn [mbind Outcome_bind].
      destruct (write (m_buffer u) _) as [u1|] eqn:Hw; [|done]. cbn [mbind Outcome_bind]. intros Hw2.
      apply (write_file _ _ _ []) in Hw as (H1 & H2 & H3 & H4 & H5); [|done]. cbn [m_digest m_size m_buffer m_finished app] in *.
      apply (write_file _ _ _ _ H1) in Hw2 as (G1 & G2 & G3 & G4 & G5). rewrite Hc in *. split; [congruence|].
      rewrite G1, G2, G3, G4, H2, H3, H4, Hd, Hs, length_app. split_and!; done || lia.
Qed.

Lemma read_body_ok events eom received u u' : upload_ok received u -> read_body createUploadFile pwrite events eom u = Returned u' ->
  exists rest, upload_ok (received ++ rest) u'.
Proof.
  revert eom received u. induction events as [|[chunk eom'|eom'|t] events IH]; intros eom received u Hu; cbn [read_body];
    (destruct eom; [intros [= <-]; exists []; by rewrite app_nil_r|]); try done.
  - destruct (append_chunk chunk u) as [u1|] eqn:Ha; [|done]. cbn [mbind Outcome_bind]. intros Hr.
    destruct (IH _ _ _ (append_chunk_ok _ _ _ _ Hu Ha) Hr) as [rest Hrest]. rewrite <- app_assoc in Hrest. by eexists.
  - intros Hr. by apply (IH _ _ _ Hu Hr).
Qed.

(** *** A disk that works *)

Context (Hcreate : createUploadFile = Returned tt) (Hpwrite : forall offset bytes, pwrite offset bytes = Z.of_nat (length bytes)).

Lemma write_succeeds chain u content : m_file u = Some content -> 0 <= m_size u ->
  m_size u + Z.of_nat (length (concat chain)) <= int64_max -> exists u', write chain u = Returned u'.
Proof.
  revert u content. induction chain as [|bytes chain IH]; intros u content Hf Hs Hl; cbn [HttpServer.write]; [by eexists|].
  cbn [concat] in Hl. rewrite length_app in Hl. unfold write_bytes. rewrite Hf, Hpwrite.
  rewrite (proj2 (Z.ltb_ge (int64_max - _) _)) by lia. rewrite (proj2 (Z.ltb_ge _ 0)), Z.eqb_refl by lia. cbn [negb mbind Outcome_bind].
  eapply IH; cbn [m_file m_size]; [done|lia|lia].
Qed.

Lemma append_chunk_succeeds received chunk u : upload_ok received u ->
  Z.of_nat (length (received ++ chunk_bytes chunk)) <= int64_max -> exists u', append_chunk chunk u = Returned u'.
Proof.
  intros [Hn Hu] Hl. unfold HttpServer.append_chunk. rewrite Hn. destruct chunk as [chain|]; [|by eexists]. cbn [chunk_bytes] in Hl.
  rewrite length_app in Hl. destruct (m_file u) as [content|] eqn:Hf.
  - destruct Hu as (-> & _ & Hs & _). apply (write_succeeds _ _ received); [done|lia|lia].
  - destruct Hu as (Hc & Hd & Hs & _). destruct (_ <=? _); [by eexists|]. rewrite Hcreate. cbn [mbind Outcome_bind].
    destruct (write_succeeds (m_buffer u) (mkUpload [] (Some []) (m_digest u) (m_size u) false) []) as [u1 Hw];
      cbn [m_file m_size]; [done|lia|rewrite Hc; lia|]. rewrite Hw. cbn [mbind Outcome_bind].
    apply (write_file _ _ _ []) in Hw as (H1 & _ & H3 & _); [|done]. cbn [m_size] in H3. rewrite Hc in H3.
    eapply write_succeeds; [done|lia|lia].
Qed.

Definition event_bytes (event : BodyEvent) : list Z := match event with Piece chunk _ => chunk_bytes chunk | _ => [] end.
Definition event_eom (event : BodyEvent) : bool := match event with Piece _ eom | Other eom => eom | Fails _ => false end.

(** Events up to the end of a message that arrives whole. *)
Inductive arrives : list BodyEvent -> bool -> Prop :=
| arrives_end events : arrives events true
| arrives_next event events : (forall t, event <> Fails t) -> arrives events (event_eom event) -> arrives (event :: events) false.

(** The bytes of a message: what comes before its end. *)
Fixpoint message_bytes (events : list BodyEvent) (eom : bool) : list Z :=
  if eom then [] else match events with [] => [] | event :: events => event_bytes event ++ message_bytes events (event_eom event) end.

Lemma read_body_succeeds events eom received u : arrives events eom -> upload_ok received u ->
  Z.of_nat (length (received ++ message_bytes events eom)) <= int64_max ->
  exists u', read_body createUploadFile pwrite events eom u = Returned u' /\ upload_ok (received ++ message_bytes events eom) u'.
Proof.
  intros Ha. revert received u. induction Ha as [events|event events Hf Ha IH]; intros received u Hu Hl.
  { exists u. split; [by destruct events|]. replace (message_bytes events true) with (@nil Z) by by destruct events.
    by rewrite app_nil_r. }
  cbn [message_bytes read_body] in *. destruct event as [chunk eom|eom|t]; cbn [event_bytes event_eom] in *; [| |by destruct (Hf t)].
  - destruct (append_chunk_succeeds received chunk u Hu) as [u1 Hw]; [rewrite !length_app in *; lia|]. rewrite Hw. cbn [mbind Outcome_bind].
    rewrite app_assoc in *. eapply IH; [by eapply append_chunk_ok|done].
  - by apply IH.
Qed.

(** A body that arrives whole is handed on complete and in order, however
    the transport cuts it into pieces: in memory while it is at most the limit,
    otherwise in a file with its length and the hash of all of it. *)
Theorem upload_keeps_the_body events eom : arrives events eom -> Z.of_nat (length (message_bytes events eom)) <= int64_max ->
  let bytes := message_bytes events eom in
  snd <$> (match u ← read_body createUploadFile pwrite events eom UploadPipeline_make; finish_upload sha256 u with
           | Returned r => Some r | Threw _ => None end)
  = Some (if Z.of_nat (length bytes) <=? request_memory_limit then Memory bytes
          else TemporaryUpload bytes (Z.of_nat (length bytes)) (sha256 bytes)).
Proof.
  intros Ha Hl bytes. destruct (read_body_succeeds events eom [] UploadPipeline_make Ha) as (u & Hr & Hn & Hu); [by split|done|].
  rewrite Hr. cbn [mbind Outcome_bind app] in *. unfold finish_upload. rewrite Hn. fold bytes in Hu.
  destruct (m_file u) as [content|]; cbn [snd fmap option_fmap option_map].
  - destruct Hu as (-> & -> & -> & _ & Hb). by rewrite (proj2 (Z.leb_gt _ _)).
  - destruct Hu as (-> & _ & _ & Hb). by rewrite (proj2 (Z.leb_le _ _)).
Qed.
End uploads.

(** ** Requests *)

Section served.
Context {U : UriCodec} (createUploadFile : Outcome unit) (pwrite : Z -> list Z -> Z) (sha256 : list Z -> list Z) (escaped : string -> string).
Local Notation handleRequest := (handleRequest createUploadFile pwrite sha256 escaped).
Local Notation readBodyAndDispatch := (readBodyAndDispatch createUploadFile pwrite sha256).
Local Notation validateRequest := (validateRequest escaped).

(** Everything a handler may rely on when it runs. *)
Record permitted (s : Server) (request : option Message) (events : list BodyEvent) (route : nat) (context : RequestContext) : Prop := {
  permitted_message : request = Some (message context);
  permitted_expect : has_header (message context) "Expect" = false;
  permitted_route : exists method query,
    m_method (message context) = Some method /\ parseQuery (query_string (message context)) = inr query
    /\ (method = OPTIONS -> has_header (message context) "Origin" = false)
    /\ let m := match_route (m_routes_of s) method (request_path (message context)) in
       status m = found /\ route_id m = Some route
       /\ request_parameters context = combineParameters query (captured m);
  permitted_validated : exists definition, m_routes (m_routes_of s) !! route = Some definition
    /\ validateRequest (metadata definition) (message context) (request_parameters context) = Returned None;
  permitted_admitted : closed (state (m_drain s)) = false;
  permitted_body : exists u, (u ← read_body createUploadFile pwrite events (headers_eom (message context)) UploadPipeline_make;
                              finish_upload sha256 u) = Returned (u, request_body context)
}.

Lemma readBodyAndDispatch_invoked routes m context events eom route context' :
  invoked (readBodyAndDispatch routes m context events eom) = Some (route, context') ->
  status m = found /\ route_id m = Some route /\ message context' = message context
  /\ request_parameters context' = request_parameters context
  /\ exists u, (u ← read_body createUploadFile pwrite events eom UploadPipeline_make; finish_upload sha256 u)
               = Returned (u, request_body context').
Proof.
  unfold HttpServer.readBodyAndDispatch. cbv zeta. destruct (mbind _ _) as [[u bytes]|t] eqn:Hb; [|done].
  assert (H : forall r, invoked r = match status m, route_id m with
      | found, Some route => Some (route, mkContext (id context) (message context) (request_parameters context) bytes (parameter_rules context))
      | _, _ => None end -> invoked r = Some (route, context') ->
    status m = found /\ route_id m = Some route /\ message context' = message context
    /\ request_parameters context' = request_parameters context
    /\ exists u0, Returned (u, bytes) = Returned (u0, request_body context')).
  { intros r -> Hr. destruct (status m); try done. destruct (route_id m) as [i|]; [|done]. injection Hr as -> <-. cbn.
    split_and!; try done. by exists u. }
  destruct (dispatch routes m _); apply H; done.
Qed.

(** C12: a handler runs only for a request whose headers are well formed, that
    matched the handler's route and is not a preflight, whose parameters are
    its query's followed by its path's, that every validation accepted, that
    was admitted, and whose body arrived complete. *)
Theorem handlers_run_only_when_permitted work request events s route context :
  invoked (snd (handleRequest work request events s)) = Some (route, context) ->
  permitted s request events route context.
Proof.
  unfold HttpServer.handleRequest. destruct request as [msg|]; [|done]. cbv zeta. destruct (m_method msg) as [method|] eqn:Hm; [|done].
  destruct (has_header msg "Expect") eqn:He; [done|]. destruct (parseQuery (query_string msg)) as [e|query] eqn:Hq; [done|].
  destruct (bool_decide (method = OPTIONS) && has_header msg "Origin") eqn:Hp; [done|].
  set (m := match_route (m_routes_of s) method (request_path msg)). destruct (status m) eqn:Hst; try done.
  destruct (i ← route_id m; m_routes (m_routes_of s) !! i) as [definition|] eqn:Hr; [|done].
  destruct (route_id m) as [i|] eqn:Hid; [|done]. cbn [mbind option_bind] in Hr.
  destruct (validateRequest _ _ _) as [[r|]|[w|w|]] eqn:Hv; try done.
  destruct (closed (state (m_drain s))) eqn:Hc; [done|]. cbn [snd]. intros Hinv.
  apply readBodyAndDispatch_invoked in Hinv as (_ & Hroute & Hmsg & Hpar & Hbody). rewrite Hid in Hroute. injection Hroute as <-.
  cbn [message request_parameters] in *. split; rewrite ?Hmsg, ?Hpar; try done.
  - exists method, query. split_and!; try done. intros ->. by rewrite bool_decide_eq_true_2 in Hp.
  - by exists definition.
Qed.

(** Responses that frame themselves keep their headers as the handler set them. *)
Definition cors_or_source (head : bool) (r : Response) : Prop :=
  (exists source, body r = Source source)
  \/ headers r !! "Access-Control-Allow-Origin" = Some "*" /\ (head = true -> body r = Empty).

Lemma makeResponseSource_cors r head : cors_or_source head (makeResponseSource r head).
Proof.
  unfold makeResponseSource, cors_or_source. destruct (body r) as [|text|source] eqn:Hb; [| |left; by exists source]; right;
    (split; [|by intros ->]); unfold addCorsHeaders, set_header; destruct head; cbn [headers];
    by rewrite !lookup_insert_ne, lookup_insert_eq by done.
Qed.

Lemma readBodyAndDispatch_cors routes m context events eom :
  cors_or_source (bool_decide (m_method (message context) = Some HEAD)) (response (readBodyAndDispatch routes m context events eom)).
Proof.
  unfold HttpServer.readBodyAndDispatch. cbv zeta. destruct (mbind _ _) as [[u bytes]|t]; [|apply makeResponseSource_cors].
  destruct (dispatch routes m _); apply makeResponseSource_cors.
Qed.

(** Every response the server sends that is not streamed by a source
    carries the cross-origin header, and the answer to a HEAD request has no
    body, whether it comes from a handler, an error or a rejection. *)
Theorem responses_carry_cors work msg method events s : m_method msg = Some method ->
  cors_or_source (bool_decide (method = HEAD)) (response (snd (handleRequest work (Some msg) events s))).
Proof.
  intros Hm. unfold HttpServer.handleRequest, reject, rejectRequest. rewrite Hm. cbv zeta.
  destruct (has_header msg "Expect"); [apply makeResponseSource_cors|].
  destruct (parseQuery (query_string msg)) as [e|query]; [apply makeResponseSource_cors|].
  destruct (_ && _); [apply makeResponseSource_cors|]. set (m := match_route _ _ _).
  destruct (status m); try apply makeResponseSource_cors.
  destruct (i ← route_id m; m_routes (m_routes_of s) !! i) as [definition|]; [|apply makeResponseSource_cors].
  destruct (validateRequest _ _ _) as [[r|]|[w|w|]]; try apply makeResponseSource_cors.
  destruct (closed (state (m_drain s))); [apply makeResponseSource_cors|]. cbn [snd].
  pose proof (readBodyAndDispatch_cors (m_routes_of s) m (mkContext (m_next_request_id s) msg (combineParameters query (captured m)) (Memory []) None)
    events (headers_eom msg)) as H. cbn [message] in H. rewrite Hm in H.
  by replace (bool_decide (method = HEAD)) with (bool_decide (Some method = Some HEAD)) by (apply bool_decide_ext; naive_solver).
Qed.

Lemma admit_destroy work r : inv r -> objects r !! work = None -> closed (state r) = false -> Z.of_nat (size (objects r)) < size_max ->
  destroy work (admit_work work r) = r.
Proof.
  intros Hinv Hn Hc Hs. unfold admit_work, admit_locked. rewrite Hc. unfold destroy, drop_state. cbn [objects].
  rewrite lookup_insert_eq. unfold release_locked.
  cbn [default from_option Datatypes.id andb finish state closed count posted objects finishing]. cbv zeta. rewrite insert_insert_eq, delete_insert_id by done.
  pose proof (inv_count _ Hinv) as Hcount. unfold live_count in Hcount. pose proof (live_size_le (objects r)) as Hle.
  replace (wrapu 64 (wrapu 64 (count (state r) + 1) - 1)) with (count (state r)).
  - destruct r as [[c cl p] o f]. cbn in *. by subst cl.
  - unfold wrapu, size_max in *. rewrite Zminus_mod_idemp_l, Z.mod_small; lia.
Qed.

(** A request leaves the registry of admitted work as it found it, so a
    drain never waits for a request that has been answered, and is never told
    that work is done while one is being served. *)
Theorem requests_release_their_work work request events s : reachable (m_drain s) -> objects (m_drain s) !! work = None ->
  Z.of_nat (size (objects (m_drain s))) < size_max ->
  m_drain (fst (handleRequest work request events s)) = m_drain s
  /\ m_routes_of (fst (handleRequest work request events s)) = m_routes_of s.
Proof.
  intros Hreach Hn Hsize. unfold HttpServer.handleRequest, reject. destruct request as [msg|]; [|done]. cbv zeta.
  destruct (m_method msg) as [method|]; [|done]. destruct (has_header msg "Expect"); [done|].
  destruct (parseQuery (query_string msg)) as [e|query]; [done|]. destruct (_ && _); [done|]. set (m := match_route _ _ _).
  destruct (status m); try done. destruct (i ← route_id m; m_routes (m_routes_of s) !! i) as [definition|]; [|done].
  destruct (validateRequest _ _ _) as [[r|]|[w|w|]]; try done. destruct (closed (state (m_drain s))) eqn:Hc; [done|]. cbn.
  split; [|done]. apply admit_destroy; [by apply reachable_inv|done|done|done].
Qed.
End served.

(** ** Parameters *)

Lemma combineParameters_app query path : combineParameters query path = query ++ path.
Proof.
  revert query. induction path as [|[name value] path IH]; intros query; [by rewrite app_nil_r|].
  unfold combineParameters in *. cbn [foldl fst snd]. rewrite IH. unfold append. by rewrite <- app_assoc.
Qed.

Lemma values_of_app name p q : values_of name (p ++ q) = values_of name p ++ values_of name q.
Proof. unfold values_of. by rewrite List.filter_app, fmap_app. Qed.

Lemma values_of_in name p : name ∈ fst <$> p -> exists v l, values_of name p = v :: l.
Proof.
  induction p as [|[key value] p IH]; [by intros ?%not_elem_of_nil|]. rewrite fmap_cons, values_of_cons. cbn [fst].
  intros [->|Hin]%elem_of_cons; [rewrite String.eqb_refl; by eexists _, _|]. destruct (String.eqb key name); [by eexists _, _|]. by apply IH.
Qed.

(** A query string cannot replace what the path says: a parameter that the
    route captures and the query repeats is an error for every handler that
    reads it as one value. *)
Theorem queries_cannot_shadow_paths T name query path : name ∈ fst <$> path -> name ∈ fst <$> query ->
  scalar T name (combineParameters query path) = inl (mkParseError name "must not be repeated")
  /\ optional T name (combineParameters query path) = inl (mkParseError name "must not be repeated").
Proof.
  intros Hp Hq. unfold scalar, optional. rewrite single_values, combineParameters_app, values_of_app.
  destruct (values_of_in _ _ Hp) as (v & l & ->), (values_of_in _ _ Hq) as (v' & l' & ->). cbn. by destruct l'.
Qed.

(** The first middleware is the outermost. *)
Lemma MiddlewareChain_invoke_cons m chain context next :
  MiddlewareChain_invoke (m :: chain) context next = m context (fun request => MiddlewareChain_invoke chain request next).
Proof. unfold MiddlewareChain_invoke. cbn [rev]. by rewrite foldl_app. Qed.

(** An upload that is still being received never holds more than the limit
    in memory, however much of it has arrived and whether or not the disk
    works. *)
Theorem upload_memory_is_bounded createUploadFile pwrite events eom u :
  read_body createUploadFile pwrite events eom UploadPipeline_make = Returned u ->
  Z.of_nat (length (concat (m_buffer u))) <= request_memory_limit.
Proof.
  intros Hr. destruct (read_body_ok createUploadFile pwrite events eom [] UploadPipeline_make u) as (rest & _ & Hu); [by split|done|].
  destruct (m_file u) as [content|].
  - destruct Hu as (_ & _ & _ & -> & _). done.
  - by destruct Hu as (-> & _ & _ & Hl).
Qed.

(** ** Witnesses *)

Definition sample_handler : Handler := fun context => Returned (mkResponse 200 ∅ (Buffer (pretty (length (request_parameters context))))).
Definition sample_server_routes : Routes :=
  HttpRoutes.mkRegistry [mkRoute (mkMetadata GET "/tags/{id}" [mkPathParameter "id" (fun _ => true)] [] None) sample_handler] true.
Definition sample_server : Server := mkServer sample_server_routes Registry_make 1.
Definition sample_message : Message := mkMessage (Some GET) 1 (fun _ => false) "verbose=1" "/tags/7" false.
Definition sample_events : list BodyEvent := [Piece (Some [[1; 2]; [3]]) false; Other false; Piece None true].
Definition sample_disk (offset : Z) (bytes : list Z) : Z := Z.of_nat (length bytes).

Lemma upload_keeps_the_body_witness :
  snd <$> (match u ← read_body (Returned tt) sample_disk sample_events false UploadPipeline_make; finish_upload (fun b => b) u with
           | Returned r => Some r | Threw _ => None end) = Some (Memory [1; 2; 3]).
Proof.
  refine (upload_keeps_the_body (Returned tt) sample_disk (fun b => b) eq_refl (fun _ _ => eq_refl) sample_events false _ _); [|done].
  repeat (apply arrives_next; [done|]). apply arrives_end.
Defined.

Lemma upload_memory_is_bounded_witness :
  Z.of_nat (length (concat (m_buffer (mkUpload [[1; 2]; [3]] None [] 0 false)))) <= request_memory_limit.
Proof. refine (upload_memory_is_bounded (Returned tt) sample_disk sample_events false _ _). reflexivity. Defined.

Lemma handlers_run_only_when_permitted_witness :
  permitted (Returned tt) sample_disk (fun b => b) (fun s => s) sample_server (Some sample_message) sample_events 0
    (mkContext 1 sample_message [("verbose", "1"); ("id", "7")] (Memory [1; 2; 3]) None).
Proof. apply (handlers_run_only_when_permitted _ _ _ _ 5). vm_compute. reflexivity. Defined.

Lemma responses_carry_cors_witness :
  cors_or_source false (response (snd (handleRequest (Returned tt) sample_disk (fun b => b) (fun s => s) 5 (Some sample_message) sample_events sample_server))).
Proof. apply (responses_carry_cors (Returned tt) sample_disk (fun b => b) (fun s => s) 5 sample_message GET sample_events sample_server eq_refl). Defined.

Lemma requests_release_their_work_witness :
  m_drain (fst (handleRequest (Returned tt) sample_disk (fun b => b) (fun s => s) 5 (Some sample_message) sample_events sample_server)) = Registry_make.
Proof.
  refine (proj1 (requests_release_their_work (Returned tt) sample_disk (fun b => b) (fun s => s) 5 (Some sample_message) sample_events sample_server _ _ _));
    [apply rtc_refl|done|done].
Defined.

Lemma queries_cannot_shadow_paths_witness :
  scalar TString "id" (combineParameters [("id", "1")] [("id", "7")]) = inl (mkParseError "id" "must not be repeated").
Proof. refine (proj1 (queries_cannot_shadow_paths TString "id" _ _ _ _)); constructor. Defined.
