(* ===== verification/HttpEvents.v ===== *)
(** * Server-sent events: the hub of [IDHANHttp]

    [SSEEventHub.cpp] and [SSEBodySource.cpp].  Publishers post snapshots under
    a type and an entity; each subscriber has a queue in which a pending update
    is overwritten by a newer one of the same type and entity; the consumer of
    a subscription takes events one at a time and otherwise waits on a baton.

    Every member function that touches shared state does so in one critical
    section of the hub's mutex, so an execution is a sequence of [Call]s; a
    consumer's [next] is one [poll] per pass of its loop.  The theorems compare
    the hub with a specification that keeps, for each subscriber, a view: the
    last data of each key. *)
From S2P Require Import Prelude StringView.
From Stdlib Require Import Ascii.

(** ** Data *)

(** [ValidatedJson]: text that simdjson has accepted. *)
Record ValidatedJson := mkJson { m_text : string }.

#[export] Instance ValidatedJson_eq_dec : EqDecision ValidatedJson.
Proof. solve_decision. Defined.

(** simdjson: the message of a text it does not accept. *)
Class Simdjson := dom_error : string -> option string.

Definition ValidatedJson_parse `{Simdjson} (text : string) : option ValidatedJson :=
  match dom_error text with None => Some (mkJson text) | Some _ => None end.

Inductive Kind := Snapshot | Update | Keepalive | Shutdown.

#[export] Instance Kind_eq_dec : EqDecision Kind.
Proof. solve_decision. Defined.

Record SSEEvent := mkSSEEvent {
  kind : Kind;
  event_type : string;
  entity : string;
  data : option ValidatedJson;
  sequence : Z;
  timestamp : Z
}.

Record SSEInitialEvent := mkInitial { initial_type : string; initial_entity : string; initial_data : ValidatedJson }.

(** [readable] is the baton: posted or not. *)
Record SSESubscriber := mkSubscriber {
  types : list string;
  pending : list SSEEvent;
  closed : bool;
  readable : bool
}.

(** A subscription: whether it still has its hub, and whether its consumer is
    suspended on the baton. *)
Record SSESubscription := mkSubscription { m_hub : bool; awaiting : bool }.

Record SSEEventHub := mkHub {
  m_subscribers : list nat;
  m_snapshots : gmap string ValidatedJson;
  m_sequence : Z;
  m_shutdown : bool
}.

(** The hub, the subscribers it shares with their subscriptions, and what the
    consumers have been given so far. *)
Record World := mkWorld {
  hub : SSEEventHub;
  heap : gmap nat SSESubscriber;
  subscriptions : gmap nat SSESubscription;
  delivered : list (nat * SSEEvent)
}.

Definition SSEEventHub_make : SSEEventHub := mkHub [] ∅ 0 false.
Definition World_make : World := mkWorld SSEEventHub_make ∅ ∅ [].

(** ** Operations *)

Definition ends_with (suffix s : string) : bool :=
  (String.length suffix <=? String.length s)%nat && String.eqb (sdrop (String.length s - String.length suffix) s) suffix.

Definition selects (type selector : string) : bool :=
  String.eqb selector type
  || (ends_with ".*" selector && starts_with (stake (String.length selector - 1) selector) type).

Definition matchesType (types : list string) (type : string) : bool :=
  match types with [] => true | _ => existsb (selects type) types end.

Definition unit_separator : ascii := ascii_of_nat 31.

Definition snapshotKey (type entity : string) : string := type +:+ String unit_separator entity.

(** A stored key back into its type and entity. *)
Definition key_type (key : string) : string := sprefix (find_char unit_separator key) key.
Definition key_entity (key : string) : string :=
  match find_char unit_separator key with Some separator => sdrop (separator + 1) key | None => EmptyString end.

Definition next_sequence (h : SSEEventHub) : Z := wrapu 64 (m_sequence h + 1).

(** The pending update of the same type and entity is overwritten where it
    stands, else the event is appended. *)
Definition same_update (type ent : string) (event : SSEEvent) : bool :=
  match kind event with Update => String.eqb (entity event) ent && String.eqb (event_type event) type | _ => false end.

Fixpoint coalesce (new : SSEEvent) (pending : list SSEEvent) : list SSEEvent :=
  match pending with
  | [] => [new]
  | event :: rest =>
      if same_update (event_type new) (entity new) event then new :: rest else event :: coalesce new rest
  end.

Definition post_update (new : SSEEvent) (s : SSESubscriber) : SSESubscriber :=
  if closed s then s
  else if negb (matchesType (types s) (event_type new)) then s
  else mkSubscriber (types s) (coalesce new (pending s)) (closed s) true.

(** The loops over [m_subscribers]; each subscriber has its own clock reading. *)
Definition broadcast (post : nat -> SSESubscriber -> SSESubscriber) (ids : list nat) (heap : gmap nat SSESubscriber)
    : gmap nat SSESubscriber := foldl (fun heap id => alter (post id) id heap) heap ids.

Section hub.
Context {S : Simdjson}.

(** The order in which an [unordered_map] is walked. *)
Context (iterate : gmap string ValidatedJson -> list (string * ValidatedJson)).

Definition set_hub (h : SSEEventHub) (w : World) : World := mkWorld h (heap w) (subscriptions w) (delivered w).
Definition set_heap (m : gmap nat SSESubscriber) (w : World) : World := mkWorld (hub w) m (subscriptions w) (delivered w).

Definition snapshot_complete : string := "stream.snapshot.complete".

(** The events a new subscriber starts with, as type, entity and data. *)
Definition stored_events (h : SSEEventHub) (types : list string) : list (string * string * ValidatedJson) :=
  omap (fun e => let type := key_type (fst e) in
    if matchesType types type then Some (type, key_entity (fst e), snd e) else None) (iterate (m_snapshots h)).

Definition opening (h : SSEEventHub) (types : list string) (initial_events : list SSEInitialEvent) (include_stored_snapshots : bool)
    : list (string * string * ValidatedJson) :=
  (if include_stored_snapshots then stored_events h types else [])
  ++ ((fun i => (initial_type i, initial_entity i, initial_data i)) <$> initial_events)
  ++ (if include_stored_snapshots then
        match ValidatedJson_parse "{}" with Some marker => [(snapshot_complete, EmptyString, marker)] | None => [] end
      else []).

Definition subscribeEvents (id : nat) (types : list string) (initial_events : list SSEInitialEvent)
    (include_stored_snapshots : bool) (clock : nat -> Z) (w : World) : World :=
  let h := hub w in
  if m_shutdown h then
    mkWorld h
      (<[id := mkSubscriber types [mkSSEEvent Shutdown EmptyString EmptyString None (m_sequence h) (clock 0%nat)] true true]> (heap w))
      (<[id := mkSubscription true false]> (subscriptions w)) (delivered w)
  else
    let pending := imap (fun i e => mkSSEEvent Snapshot (fst (fst e)) (snd (fst e)) (Some (snd e)) (m_sequence h) (clock i))
      (opening h types initial_events include_stored_snapshots) in
    mkWorld (mkHub (m_subscribers h ++ [id]) (m_snapshots h) (m_sequence h) (m_shutdown h))
      (<[id := mkSubscriber types pending false false]> (heap w))
      (<[id := mkSubscription true false]> (subscriptions w)) (delivered w).

Definition subscribe (id : nat) (types : list string) (initial_snapshots : list ValidatedJson) : bool -> (nat -> Z) -> World -> World :=
  subscribeEvents id types (mkInitial EmptyString EmptyString <$> initial_snapshots).

Definition publish (type ent : string) (snapshot : ValidatedJson) (retain_snapshot : bool) (clock : nat -> Z) (w : World) : World :=
  let h := hub w in
  let key := snapshotKey type ent in
  let snapshots := if retain_snapshot then <[key := snapshot]> (m_snapshots h) else delete key (m_snapshots h) in
  let sequence := next_sequence h in
  set_heap
    (broadcast (fun id => post_update (mkSSEEvent Update type ent (Some snapshot) sequence (clock id))) (m_subscribers h) (heap w))
    (set_hub (mkHub (m_subscribers h) snapshots sequence (m_shutdown h)) w).

Definition remove (type ent : string) (removal : option ValidatedJson) (clock : nat -> Z) (w : World) : World :=
  let h := hub w in
  let sequence := next_sequence h in
  set_heap
    (broadcast (fun id => post_update (mkSSEEvent Update type ent removal sequence (clock id))) (m_subscribers h) (heap w))
    (set_hub (mkHub (m_subscribers h) (delete (snapshotKey type ent) (m_snapshots h)) sequence (m_shutdown h)) w).

(** The one-argument forms leave the type empty. *)
Definition publish_untyped (ent : string) (snapshot : ValidatedJson) : (nat -> Z) -> World -> World :=
  publish EmptyString ent snapshot true.
Definition remove_untyped (ent : string) (removal : option ValidatedJson) : (nat -> Z) -> World -> World :=
  remove EmptyString ent removal.

Definition heartbeat (clock : nat -> Z) (w : World) : World :=
  let h := hub w in
  let sequence := next_sequence h in
  set_heap
    (broadcast (fun id s =>
       if closed s || negb (match pending s with [] => true | _ => false end) then s
       else mkSubscriber (types s) (pending s ++ [mkSSEEvent Keepalive EmptyString EmptyString None sequence (clock id)]) (closed s) true)
       (m_subscribers h) (heap w))
    (set_hub (mkHub (m_subscribers h) (m_snapshots h) sequence (m_shutdown h)) w).

Definition shutdown (clock : nat -> Z) (w : World) : World :=
  let h := hub w in
  if m_shutdown h then w
  else
    let sequence := next_sequence h in
    set_heap
      (broadcast (fun id s =>
         if closed s then s
         else mkSubscriber (types s) (pending s ++ [mkSSEEvent Shutdown EmptyString EmptyString None sequence (clock id)]) true true)
         (m_subscribers h) (heap w))
      (set_hub (mkHub (m_subscribers h) (m_snapshots h) sequence true) w).

(** [SSESubscription::close], also what its destructor does. *)
Definition close (id : nat) (w : World) : World :=
  match subscriptions w !! id, heap w !! id with
  | Some subscription, Some s =>
      if m_hub subscription then
        let h := hub w in
        mkWorld (mkHub (List.filter (fun other => negb (other =? id)%nat) (m_subscribers h)) (m_snapshots h) (m_sequence h) (m_shutdown h))
          (<[id := mkSubscriber (types s) (pending s) true true]> (heap w))
          (<[id := mkSubscription false (awaiting subscription)]> (subscriptions w)) (delivered w)
      else w
  | _, _ => w
  end.

Inductive Polled := Event (event : SSEEvent) | Finished | Suspended.

(** One pass of the loop of [SSESubscription::next], when its consumer may
    run: it is not suspended, or the baton has been posted. *)
Definition poll (id : nat) (w : World) : World * Polled :=
  match subscriptions w !! id, heap w !! id with
  | Some subscription, Some s =>
      let resumed awaiting := <[id := mkSubscription (m_hub subscription) awaiting]> (subscriptions w) in
      if negb (m_hub subscription) then (mkWorld (hub w) (heap w) (resumed false) (delivered w), Finished)
      else match pending s with
      | event :: rest =>
          (mkWorld (hub w) (<[id := mkSubscriber (types s) rest (closed s) (readable s)]> (heap w)) (resumed false)
             (delivered w ++ [(id, event)]), Event event)
      | [] =>
          if closed s then (mkWorld (hub w) (heap w) (resumed false) (delivered w), Finished)
          else (mkWorld (hub w) (<[id := mkSubscriber (types s) [] (closed s) false]> (heap w)) (resumed true) (delivered w), Suspended)
      end
  | _, _ => (w, Finished)
  end.

Definition may_run (id : nat) (w : World) : bool :=
  match subscriptions w !! id, heap w !! id with
  | Some subscription, Some s => negb (awaiting subscription) || readable s
  | _, _ => false
  end.

(** ** Executions *)

Inductive Call :=
| Subscribes (id : nat) (types : list string) (initial_events : list SSEInitialEvent) (include_stored_snapshots : bool)
| Publishes (type ent : string) (snapshot : ValidatedJson) (retain_snapshot : bool)
| Removes (type ent : string) (removal : option ValidatedJson)
| Heartbeats
| ShutsDown
| Closes (id : nat)
| Polls (id : nat).

Definition perform (c : Call) (clock : nat -> Z) (w : World) : World :=
  match c with
  | Subscribes id types initial include => match heap w !! id with
      | Some _ => w
      | None => subscribeEvents id types initial include clock w
      end
  | Publishes type ent snapshot retain => publish type ent snapshot retain clock w
  | Removes type ent removal => remove type ent removal clock w
  | Heartbeats => heartbeat clock w
  | ShutsDown => shutdown clock w
  | Closes id => close id w
  | Polls id => if may_run id w then fst (poll id w) else w
  end.

Definition execute (calls : list (Call * (nat -> Z))) (w : World) : World :=
  foldl (fun w c => perform (fst c) (snd c) w) w calls.
End hub.

(** ** The specification *)

Module EventSpec.
Definition Key : Type := string * string.
Definition key_of (e : SSEEvent) : Key := (event_type e, entity e).

(** What a client makes of an event: the last data of its key. *)
Definition apply_event (view : gmap Key (option ValidatedJson)) (e : SSEEvent) : gmap Key (option ValidatedJson) :=
  match kind e with Snapshot | Update => <[key_of e := data e]> view | Keepalive | Shutdown => view end.

Definition view_of (es : list SSEEvent) : gmap Key (option ValidatedJson) := foldl apply_event ∅ es.

(** A subscriber as the specification sees it. *)
Record View := mkView {
  v_types : list string;
  v_open : bool;
  v_last : gmap Key (option ValidatedJson)
}.

Record Spec := mkSpec {
  stored : gmap Key ValidatedJson;
  views : gmap nat View;
  is_shutdown : bool
}.

Definition Spec_make : Spec := mkSpec ∅ ∅ false.

Definition see (k : Key) (d : option ValidatedJson) (v : View) : View :=
  if v_open v && matchesType (v_types v) (fst k) then mkView (v_types v) (v_open v) (<[k := d]> (v_last v)) else v.

Definition shut (v : View) : View := mkView (v_types v) false (v_last v).

Definition opening_view `{Simdjson} (st : gmap Key ValidatedJson) (types : list string) (initial : list SSEInitialEvent)
    (include : bool) : gmap Key (option ValidatedJson) :=
  let v := if include then Some <$> filter (fun e => matchesType types (fst (fst e)) = true) st else ∅ in
  let v := foldl (fun v i => <[(initial_type i, initial_entity i) := Some (initial_data i)]> v) v initial in
  match include, ValidatedJson_parse "{}" with
  | true, Some marker => <[(snapshot_complete, EmptyString) := Some marker]> v
  | _, _ => v
  end.

Definition perform `{Simdjson} (c : Call) (s : Spec) : Spec :=
  match c with
  | Subscribes id types initial include =>
      match views s !! id with
      | Some _ => s
      | None =>
          let v := if is_shutdown s then mkView types false ∅
            else mkView types true (opening_view (stored s) types initial include) in
          mkSpec (stored s) (<[id := v]> (views s)) (is_shutdown s)
      end
  | Publishes type ent snapshot retain =>
      mkSpec (if retain then <[(type, ent) := snapshot]> (stored s) else delete (type, ent) (stored s))
        (see (type, ent) (Some snapshot) <$> views s) (is_shutdown s)
  | Removes type ent removal =>
      mkSpec (delete (type, ent) (stored s)) (see (type, ent) removal <$> views s) (is_shutdown s)
  | ShutsDown => mkSpec (stored s) (shut <$> views s) true
  | Closes id => mkSpec (stored s) (alter shut id (views s)) (is_shutdown s)
  | Heartbeats | Polls _ => s
  end.

Definition execute `{Simdjson} (calls : list Call) (s : Spec) : Spec := foldl (fun s c => perform c s) s calls.

(** Types that can be told from their entity in a stored key. *)
Definition plain_type (type : string) : Prop := find_char unit_separator type = None.
Definition plain_call (c : Call) : Prop :=
  match c with Publishes type _ _ _ | Removes type _ _ => plain_type type | _ => True end.
End EventSpec.
Import EventSpec.

Definition delivered_to (id : nat) (log : list (nat * SSEEvent)) : list SSEEvent :=
  omap (fun e => if (fst e =? id)%nat then Some (snd e) else None) log.

(** *** Queues *)

Definition update_key (e : SSEEvent) : option Key := match kind e with Update => Some (key_of e) | _ => None end.

(** Snapshots come first, and no two updates have the same key. *)
Record queue_ok (snaps rest : list SSEEvent) : Prop := {
  queue_snaps : Forall (fun e => kind e = Snapshot) snaps;
  queue_rest : Forall (fun e => kind e <> Snapshot) rest;
  queue_keys : NoDup (omap update_key rest)
}.

Lemma snaps_no_keys snaps : Forall (fun e => kind e = Snapshot) snaps -> omap update_key snaps = [].
Proof.
  induction 1 as [|e snaps He Hs IH]; [done|]. cbn [omap list_omap].
  assert (update_key e = None) as -> by (unfold update_key; by rewrite He). done.
Qed.

Lemma same_update_spec type ent e : same_update type ent e = true <-> update_key e = Some (type, ent).
Proof.
  unfold same_update, update_key, key_of. destruct (kind e); try done. rewrite andb_true_iff, !String.eqb_eq.
  split; [by intros [-> ->]|]. intros H. by injection H as -> ->.
Qed.

Lemma apply_event_away k d v e : kind e <> Snapshot -> update_key e <> Some k ->
  apply_event (<[k := d]> v) e = <[k := d]> (apply_event v e).
Proof.
  unfold apply_event, update_key. intros Hk Hu. destruct (kind e); try done. apply insert_insert_ne. congruence.
Qed.

Lemma apply_events_away k d v rest :
  Forall (fun e => kind e <> Snapshot) rest -> k ∉ omap update_key rest ->
  foldl apply_event (<[k := d]> v) rest = <[k := d]> (foldl apply_event v rest).
Proof.
  intros Hall. revert v. induction Hall as [|e rest He Hall IH]; intros v Hk; [done|]. cbn [foldl].
  rewrite apply_event_away; [apply IH|done|].
  - intros Hin. apply Hk. cbn [omap list_omap]. destruct (update_key e); [by constructor|done].
  - intros Heq. apply Hk. cbn [omap list_omap]. rewrite Heq. constructor.
Qed.

Section coalescing.
Context (new : SSEEvent) (Hnew : kind new = Update).

Lemma new_key : update_key new = Some (key_of new).
Proof. unfold update_key. by rewrite Hnew. Qed.

Lemma coalesce_snaps snaps rest : Forall (fun e => kind e = Snapshot) snaps ->
  coalesce new (snaps ++ rest) = snaps ++ coalesce new rest.
Proof.
  induction 1 as [|e snaps He Hs IH]; [done|]. cbn [app coalesce]. unfold same_update. rewrite He. by rewrite IH.
Qed.

Lemma coalesce_keys rest k : k ∈ omap update_key (coalesce new rest) <-> k = key_of new \/ k ∈ omap update_key rest.
Proof.
  induction rest as [|e rest IH]; cbn [coalesce].
  - cbn [omap list_omap]. rewrite new_key, list_elem_of_singleton. set_solver.
  - destruct (same_update _ _ e) eqn:Hs.
    + apply same_update_spec in Hs. cbn [omap list_omap]. rewrite new_key, Hs. set_solver.
    + cbn [omap list_omap]. destruct (update_key e); set_solver.
Qed.

Lemma coalesce_ok snaps rest : queue_ok snaps rest -> queue_ok snaps (coalesce new rest).
Proof.
  intros [Hs Hr Hk]. split; [done| |].
  - induction Hr as [|e rest He Hr IH]; cbn [coalesce]; [by repeat constructor; rewrite Hnew|].
    cbn [omap list_omap] in Hk. destruct (same_update _ _ e); constructor; try done; [by rewrite Hnew|].
    apply IH. destruct (update_key e); [by apply NoDup_cons in Hk as [_ Hk]|done].
  - induction rest as [|e rest IH]; cbn [coalesce].
    + cbn [omap list_omap]. rewrite new_key. apply NoDup_singleton.
    + apply Forall_cons in Hr as [_ Hr]. cbn [omap list_omap] in Hk. destruct (same_update _ _ e) eqn:Hsame.
      * apply same_update_spec in Hsame. cbn [omap list_omap]. by rewrite Hsame in Hk; rewrite new_key.
      * cbn [omap list_omap]. destruct (update_key e) as [k|] eqn:Hu; [|by apply IH]. apply NoDup_cons in Hk as [Hn Hk].
        constructor; [|by apply IH]. rewrite coalesce_keys. intros [->|Hin]; [|done].
        enough (same_update (event_type new) (entity new) e = true) by congruence. by apply same_update_spec.
Qed.

(** What matters to a client is the last data of each key. *)
Lemma coalesce_view v rest : Forall (fun e => kind e <> Snapshot) rest -> NoDup (omap update_key rest) ->
  foldl apply_event v (coalesce new rest) = <[key_of new := data new]> (foldl apply_event v rest).
Proof.
  intros Hall. revert v. induction Hall as [|e rest He Hall IH]; intros v Hk; cbn [coalesce foldl].
  { unfold apply_event. by rewrite Hnew. }
  cbn [omap list_omap] in Hk. destruct (same_update _ _ e) eqn:Hs; cbn [foldl].
  - apply same_update_spec in Hs. rewrite Hs in Hk. apply NoDup_cons in Hk as [Hn _].
    assert (Ha : apply_event v new = <[key_of new := data new]> (apply_event v e)).
    { unfold apply_event, update_key in *. rewrite Hnew. destruct (kind e); try done.
      assert (Hke : key_of e = key_of new) by (unfold key_of in *; congruence). by rewrite Hke, insert_insert_eq. }
    rewrite Ha. by apply apply_events_away.
  - apply IH. destruct (update_key e); [by apply NoDup_cons in Hk as [_ Hk]|done].
Qed.
End coalescing.

(** *** The loops over the subscribers *)

Lemma broadcast_lookup post ids heap id : NoDup ids ->
  broadcast post ids heap !! id = if decide (id ∈ ids) then post id <$> heap !! id else heap !! id.
Proof.
  unfold broadcast. intros Hnd. revert heap. induction Hnd as [|x ids Hx Hnd IH]; intros heap; [done|].
  cbn [foldl]. rewrite IH. destruct (decide (id = x)) as [->|Hne].
  - rewrite decide_False by done. rewrite decide_True by constructor. by rewrite lookup_alter_eq.
  - rewrite lookup_alter_ne by done. destruct (decide (id ∈ ids)).
    + by rewrite decide_True by (by constructor).
    + rewrite decide_False; [done|]. by intros [?|?]%elem_of_cons.
Qed.

(** *** Stored keys *)

Lemma find_separator type ent : plain_type type -> find_char unit_separator (snapshotKey type ent) = Some (String.length type).
Proof.
  unfold plain_type, find_char, snapshotKey. intros H. apply find_if_none in H. rewrite find_if_app by done.
  cbn [sview_find_if]. rewrite Ascii.eqb_refl. cbn. f_equal. lia.
Qed.

Lemma key_type_snapshotKey type ent : plain_type type -> key_type (snapshotKey type ent) = type.
Proof. intros H. unfold key_type. rewrite find_separator by done. apply stake_app. Qed.

Lemma key_entity_snapshotKey type ent : plain_type type -> key_entity (snapshotKey type ent) = ent.
Proof.
  intros H. unfold key_entity. rewrite find_separator by done. unfold snapshotKey.
  rewrite sdrop_app. by destruct ent.
Qed.

Lemma snapshotKey_inj t e t' e' : plain_type t -> plain_type t' -> snapshotKey t e = snapshotKey t' e' -> (t, e) = (t', e').
Proof.
  intros Ht Ht' H. f_equal.
  - by rewrite <- (key_type_snapshotKey t e), H, key_type_snapshotKey.
  - by rewrite <- (key_entity_snapshotKey t e), H, key_entity_snapshotKey.
Qed.

(** ** The hub implements the specification *)

Record stored_rel (m : gmap string ValidatedJson) (st : gmap Key ValidatedJson) : Prop := {
  rel_plain : forall t e j, st !! (t, e) = Some j -> plain_type t;
  rel_stored : forall k j, m !! k = Some j <-> exists t e, k = snapshotKey t e /\ st !! (t, e) = Some j
}.

Lemma stored_rel_insert m st t e j : plain_type t -> stored_rel m st ->
  stored_rel (<[snapshotKey t e := j]> m) (<[(t, e) := j]> st).
Proof.
  intros Ht [Hp Hs]. split.
  - intros t' e' j' [[[= <- <-] _]|[_ H]]%lookup_insert_Some; [done|by eapply Hp].
  - intros k j'. rewrite lookup_insert_Some, Hs. split.
    + intros [[<- <-]|[Hne (t' & e' & -> & H)]]; [exists t, e; by rewrite lookup_insert_eq|].
      exists t', e'. split; [done|]. rewrite lookup_insert_ne; [done|]. intros [= -> ->]. done.
    + intros (t' & e' & -> & [[[= <- <-] <-]|[Hne H]]%lookup_insert_Some); [by left|]. right.
      split; [|by exists t', e']. intros Heq. apply snapshotKey_inj in Heq; [done|done|by eapply Hp].
Qed.

Lemma stored_rel_delete m st t e : plain_type t -> stored_rel m st ->
  stored_rel (delete (snapshotKey t e) m) (delete (t, e) st).
Proof.
  intros Ht [Hp Hs]. split.
  - intros t' e' j' [_ H]%lookup_delete_Some. by eapply Hp.
  - intros k j'. rewrite lookup_delete_Some, Hs. split.
    + intros [Hne (t' & e' & -> & H)]. exists t', e'. split; [done|]. rewrite lookup_delete_ne; [done|]. by intros [= -> ->].
    + intros (t' & e' & -> & [Hne H]%lookup_delete_Some). split; [|by exists t', e'].
      intros Heq. apply snapshotKey_inj in Heq; [done|done|by eapply Hp].
Qed.

(** *** The opening of a subscription *)

Lemma foldl_insert_lookup {A} (l : list (Key * A)) (m : gmap Key A) k x : NoDup (fst <$> l) ->
  foldl (fun m e => <[fst e := snd e]> m) m l !! k = Some x <-> (k, x) ∈ l \/ (k ∉ fst <$> l /\ m !! k = Some x).
Proof.
  revert m. induction l as [|[k' y] l IH]; intros m; cbn [foldl fst snd].
  { intros _. split; [intros H; right; split; [apply not_elem_of_nil|done]|]. by intros [H%not_elem_of_nil|[_ H]]. }
  rewrite fmap_cons. cbn [fst]. intros [Hn Hnd]%NoDup_cons. rewrite IH by done. rewrite elem_of_cons, not_elem_of_cons.
  split.
  - intros [H|[Hk [[<- <-]|[Hne H]]%lookup_insert_Some]]; [by left; right|by left; left|right]. by split_and!.
  - intros [[[= -> ->]|H]|[[Hne Hk] H]]; [|by left|].
    + right. split; [done|]. apply lookup_insert_eq.
    + right. split; [done|]. by rewrite lookup_insert_ne.
Qed.

Definition opened (e : string * string * ValidatedJson) : Key * option ValidatedJson := (fst e, Some (snd e)).
Definition put (v : gmap Key (option ValidatedJson)) (e : string * string * ValidatedJson) : gmap Key (option ValidatedJson) :=
  <[fst e := Some (snd e)]> v.

Lemma opening_events_view (f : nat -> string * string * ValidatedJson -> SSEEvent) v l :
  (forall i e, kind (f i e) = Snapshot /\ key_of (f i e) = fst e /\ data (f i e) = Some (snd e)) ->
  foldl apply_event v (imap f l) = foldl put v l.
Proof.
  revert f v. induction l as [|e l IH]; intros f v Hf; [done|]. rewrite imap_cons. cbn [foldl].
  rewrite (IH (f ∘ S)) by (intros i e'; apply Hf). f_equal. unfold apply_event. destruct (Hf 0%nat e) as (-> & -> & ->). done.
Qed.

Lemma foldl_put v l : foldl put v l = foldl (fun m e => <[fst e := snd e]> m) v (opened <$> l).
Proof. revert v. induction l as [|e l IH]; intros v; [done|]. apply IH. Qed.

Section related.
Context {S : Simdjson} (iterate : gmap string ValidatedJson -> list (string * ValidatedJson)).
Context (Hiter : forall m, iterate m ≡ₚ map_to_list m).

Lemma elem_of_stored_events h st types t e j : stored_rel (m_snapshots h) st ->
  (t, e, j) ∈ stored_events iterate h types <-> matchesType types t = true /\ st !! (t, e) = Some j.
Proof.
  intros [Hp Hs]. unfold stored_events. rewrite list_elem_of_omap. split.
  - intros ([k j'] & Hin & H). cbn [fst snd] in H. rewrite Hiter, elem_of_map_to_list in Hin.
    apply Hs in Hin as (t' & e' & -> & Hst). rewrite key_type_snapshotKey, key_entity_snapshotKey in H by (by eapply Hp).
    destruct (matchesType types t') eqn:Hm; [|done]. by injection H as <- <- <-.
  - intros [Hm Hst]. exists (snapshotKey t e, j). rewrite Hiter, elem_of_map_to_list. cbn [fst snd].
    rewrite key_type_snapshotKey, key_entity_snapshotKey, Hm by (by eapply Hp). split; [|done]. apply Hs. by exists t, e.
Qed.

Lemma stored_events_NoDup h st types : stored_rel (m_snapshots h) st -> NoDup (fst <$> (opened <$> stored_events iterate h types)).
Proof.
  intros [Hp Hs]. unfold stored_events.
  assert (Hk : Forall (fun x => exists t e, fst x = snapshotKey t e /\ plain_type t) (iterate (m_snapshots h))).
  { apply Forall_forall. intros [k j]. rewrite Hiter, elem_of_map_to_list, Hs. intros (t & e & -> & Hst).
    exists t, e. split; [done|]. by eapply Hp. }
  assert (Hnd : NoDup (fst <$> iterate (m_snapshots h))) by (rewrite Hiter; apply NoDup_fst_map_to_list).
  revert Hnd. induction Hk as [|[k j] l (t & e & Hx & Ht) Hk IH]; [constructor|]. cbn [fst] in Hx. subst k.
  rewrite fmap_cons. cbn [fst omap list_omap snd]. intros [Hn Hnd]%NoDup_cons.
  rewrite key_type_snapshotKey, key_entity_snapshotKey by done. destruct (matchesType types t); [|by apply IH].
  rewrite !fmap_cons. cbn [opened fst]. constructor; [|by apply IH]. intros Hin.
  apply list_elem_of_fmap in Hin as (y & Hy & Hin). apply list_elem_of_fmap in Hin as (x & -> & Hin).
  apply list_elem_of_omap in Hin as ([k' j'] & Hin & H). rewrite Forall_forall in Hk.
  destruct (Hk _ Hin) as (t' & e' & Heq & Ht'). cbn [fst snd] in *. subst k'.
  rewrite key_type_snapshotKey, key_entity_snapshotKey in H by done. destruct (matchesType types t'); [|done].
  injection H as <-. cbn in Hy. injection Hy as <- <-. apply Hn. by apply (list_elem_of_fmap_2 fst) in Hin.
Qed.

Lemma stored_events_view h st types : stored_rel (m_snapshots h) st ->
  foldl put ∅ (stored_events iterate h types) = Some <$> filter (fun e => matchesType types (fst (fst e)) = true) st.
Proof.
  intros Hrel. rewrite foldl_put. apply map_eq. intros [t e]. apply option_eq. intros d.
  rewrite foldl_insert_lookup by (by eapply stored_events_NoDup). rewrite lookup_fmap, fmap_Some. split.
  - intros [Hin|[_ H]]; [|done]. apply list_elem_of_fmap in Hin as ([[t' e'] j] & Heq & Hin). injection Heq as <- <- ->.
    apply (elem_of_stored_events _ _ _ _ _ _ Hrel) in Hin as [Hm Hst]. exists j. split; [|done].
    by apply map_lookup_filter_Some.
  - intros (j & [Hst Hm]%map_lookup_filter_Some & ->). left. apply list_elem_of_fmap. exists (t, e, j). split; [done|].
    by apply (elem_of_stored_events _ _ _ _ _ _ Hrel).
Qed.

(** A subscription opens on the view of the specification. *)
Lemma opening_ok h st types initial include : stored_rel (m_snapshots h) st ->
  foldl put ∅ (opening iterate h types initial include) = opening_view st types initial include.
Proof.
  intros Hrel. unfold opening, opening_view. rewrite !foldl_app.
  assert (Hinit : forall v, foldl put v ((fun i => (initial_type i, initial_entity i, initial_data i)) <$> initial)
    = foldl (fun v i => <[(initial_type i, initial_entity i) := Some (initial_data i)]> v) v initial).
  { induction initial as [|i initial IH]; intros v; [done|]. apply IH. }
  rewrite Hinit. destruct include; [|done]. rewrite (stored_events_view h st types Hrel).
  by destruct (ValidatedJson_parse "{}").
Qed.

(** One subscriber and its view; a consumer that waits for the baton has
    nothing to take. *)
Record sub_rel (w : World) (id : nat) (s : SSESubscriber) (sub : SSESubscription) (v : View) : Prop := {
  sub_types : types s = v_types v;
  sub_open : closed s = negb (v_open v);
  sub_queue : exists snaps rest, pending s = snaps ++ rest /\ queue_ok snaps rest;
  sub_view : view_of (delivered_to id (delivered w) ++ pending s) = v_last v;
  sub_listed : closed s = false -> id ∈ m_subscribers (hub w);
  sub_detached : m_hub sub = false -> closed s = true;
  sub_awake : awaiting sub = true -> readable s = false -> pending s = [] /\ closed s = false
}.

Definition subscriber_rel (w : World) (sp : Spec) (id : nat) : Prop :=
  match heap w !! id, subscriptions w !! id, views sp !! id with
  | Some s, Some sub, Some v => sub_rel w id s sub v
  | None, None, None => delivered_to id (delivered w) = []
  | _, _, _ => False
  end.

Record related (w : World) (sp : Spec) : Prop := {
  rel_shutdown : m_shutdown (hub w) = is_shutdown sp;
  rel_snapshots : stored_rel (m_snapshots (hub w)) (stored sp);
  rel_distinct : NoDup (m_subscribers (hub w));
  rel_known : forall id, id ∈ m_subscribers (hub w) -> is_Some (heap w !! id);
  rel_closed : is_shutdown sp = true -> map_Forall (fun _ v => v_open v = false) (views sp);
  rel_subscribers : forall id, subscriber_rel w sp id
}.

Lemma related_make : related World_make Spec_make.
Proof.
  split; [done| |apply NoDup_nil_2|by intros id ?%not_elem_of_nil|done|intros id; unfold subscriber_rel; cbn; by rewrite !lookup_empty].
  split; [intros ? ? ? H; done|]. intros k j. split; [done|]. by intros (? & ? & _ & H).
Qed.

(** A loop over the subscribers that leaves closed ones alone reaches all. *)
Lemma broadcast_all w sp post id : related w sp -> (forall s, closed s = true -> post id s = s) ->
  broadcast post (m_subscribers (hub w)) (heap w) !! id = post id <$> heap w !! id.
Proof.
  intros [_ _ Hnd _ _ Hsub] Hclosed. rewrite broadcast_lookup by done. case_decide as Hin; [done|].
  specialize (Hsub id). unfold subscriber_rel in Hsub. destruct (heap w !! id) as [s|]; [|done].
  destruct (subscriptions w !! id) as [sub|]; [|done]. destruct (views sp !! id) as [v|]; [|done]. cbn. f_equal. symmetry.
  apply Hclosed. destruct (closed s) eqn:Hc; [done|]. by destruct Hin; eapply sub_listed.
Qed.

(** ... so it is enough to look at what it does to one. *)
Lemma related_broadcast w sp post f h' sp' :
  related w sp -> m_subscribers h' = m_subscribers (hub w) -> m_shutdown h' = is_shutdown sp' ->
  stored_rel (m_snapshots h') (stored sp') -> views sp' = f <$> views sp ->
  (is_shutdown sp' = true -> is_shutdown sp = true \/ forall v, v_open (f v) = false) ->
  (forall v, v_open v = false -> v_open (f v) = false) ->
  (forall id s, closed s = true -> post id s = s) ->
  (forall id s sub v, sub_rel w id s sub v -> sub_rel w id (post id s) sub (f v)) ->
  related (set_heap (broadcast post (m_subscribers (hub w)) (heap w)) (set_hub h' w)) sp'.
Proof.
  intros Hrel Hids Hshut Hst Hviews Hoff Hstays Hclosed Hone.
  split; [done|done|cbn; rewrite Hids; apply Hrel| | |]; cbn [hub heap set_heap set_hub].
  - intros id Hin. rewrite Hids in Hin. rewrite (broadcast_all w sp post id Hrel (Hclosed id)).
    destruct (rel_known _ _ Hrel id Hin) as [s ->]. by eexists.
  - intros Hs i v. rewrite Hviews, lookup_fmap. intros (v' & Hv & ->)%fmap_Some.
    destruct (Hoff Hs) as [Hs'|Hf]; [|apply Hf]. by apply Hstays, (rel_closed _ _ Hrel Hs' i).
  - intros id. pose proof (rel_subscribers _ _ Hrel id) as Hsub. unfold subscriber_rel in *.
  cbn [heap set_heap set_hub subscriptions]. rewrite (broadcast_all w sp post id Hrel (Hclosed id)), Hviews, lookup_fmap.
  destruct (heap w !! id) as [s|], (subscriptions w !! id) as [sub|], (views sp !! id) as [v|]; try done. cbn.
  destruct (Hone id s sub v Hsub) as [H1 H2 H3 H4 H5 H6 H7]. split; try done. cbn. by rewrite Hids.
Qed.

Lemma see_closed k d v : v_open v = false -> v_open (see k d v) = false.
Proof. intros H. unfold see. by rewrite H. Qed.

Lemma post_update_closed new s : closed s = true -> post_update new s = s.
Proof. unfold post_update. by intros ->. Qed.

Lemma sub_rel_update w id s sub v new : kind new = Update -> sub_rel w id s sub v ->
  sub_rel w id (post_update new s) sub (see (key_of new) (data new) v).
Proof.
  intros Hnew Hrel. pose proof Hrel as [H1 H2 (snaps & rest & Hp & Hq) H4 H5 H6 H7]. unfold post_update, see. rewrite H2.
  destruct (v_open v) eqn:Hopen; cbn [negb andb]; [|exact Hrel].
  rewrite H1. change (fst (key_of new)) with (event_type new).
  destruct (matchesType (v_types v) (event_type new)); cbn [negb]; [|exact Hrel].
  split; cbn [types closed pending readable v_types v_open v_last]; try done.
  - exists snaps, (coalesce new rest). rewrite Hp. split; [by apply (coalesce_snaps new _ _ (queue_snaps _ _ Hq))|by apply coalesce_ok].
  - unfold view_of in *. rewrite Hp in *. rewrite coalesce_snaps by apply Hq. rewrite app_assoc, foldl_app in *.
    rewrite coalesce_view by (done || apply Hq). by rewrite H4.
  - intros Hd. by apply H5.
  - intros Hd. specialize (H6 Hd). by rewrite H2 in H6.
Qed.

Lemma queue_ok_append snaps rest e : kind e <> Snapshot -> update_key e = None -> queue_ok snaps rest -> queue_ok snaps (rest ++ [e]).
Proof.
  intros Hk Hu [H1 H2 H3]. split; [done|by apply Forall_app; split; [|repeat constructor]|].
  rewrite omap_app. cbn. by rewrite Hu, app_nil_r.
Qed.

Lemma view_append es e : update_key e = None -> kind e <> Snapshot -> view_of (es ++ [e]) = view_of es.
Proof.
  intros Hu Hk. unfold view_of. rewrite foldl_app. cbn. unfold apply_event, update_key in *. by destruct (kind e).
Qed.

(** Appending an event no client sees. *)
Lemma sub_rel_append w id s sub v e shuts : kind e <> Snapshot -> update_key e = None -> closed s = false ->
  sub_rel w id s sub v ->
  sub_rel w id (mkSubscriber (types s) (pending s ++ [e]) shuts true) sub (if shuts : bool then shut v else v).
Proof.
  intros Hk Hu Hc [H1 H2 (snaps & rest & Hp & Hq) H4 H5 H6 H7].
  split; cbn [types closed pending readable]; try done.
  - by destruct shuts.
  - destruct shuts; [done|]. by rewrite <- H2.
  - exists snaps, (rest ++ [e]). rewrite Hp, app_assoc. split; [done|]. by apply queue_ok_append.
  - rewrite app_assoc, view_append by done. by destruct shuts.
  - intros _. by apply H5.
  - intros Hd. specialize (H6 Hd). congruence.
Qed.

Lemma shut_closed v : v_open v = false -> shut v = v.
Proof. unfold shut. destruct v; cbn. by intros ->. Qed.

Lemma publish_related w sp type ent j retain clock : plain_type type -> related w sp ->
  related (publish type ent j retain clock w) (perform (Publishes type ent j retain) sp).
Proof.
  intros Ht Hrel. unfold publish. cbn [perform].
  apply (related_broadcast w sp _ (see (type, ent) (Some j))); try done.
  - apply Hrel.
  - cbn. destruct retain; [by apply stored_rel_insert, Hrel|by apply stored_rel_delete, Hrel].
  - by left.
  - intros v. apply see_closed.
  - intros id s. apply post_update_closed.
  - intros id s sub v Hs. by apply (sub_rel_update w id s sub v (mkSSEEvent Update type ent (Some j) _ (clock id))).
Qed.

Lemma remove_related w sp type ent removal clock : plain_type type -> related w sp ->
  related (remove type ent removal clock w) (perform (Removes type ent removal) sp).
Proof.
  intros Ht Hrel. unfold remove. cbn [perform].
  apply (related_broadcast w sp _ (see (type, ent) removal)); try done.
  - apply Hrel.
  - cbn. by apply stored_rel_delete, Hrel.
  - by left.
  - intros v. apply see_closed.
  - intros id s. apply post_update_closed.
  - intros id s sub v Hs. by apply (sub_rel_update w id s sub v (mkSSEEvent Update type ent removal _ (clock id))).
Qed.

Lemma heartbeat_related w sp clock : related w sp -> related (heartbeat clock w) sp.
Proof.
  intros Hrel. unfold heartbeat. apply (related_broadcast w sp _ id); try (by apply Hrel); try done.
  - by rewrite map_fmap_id.
  - by left.
  - intros id s. by intros ->.
  - intros id s sub v Hs. destruct (closed s) eqn:Hc; [done|]. destruct (pending s) as [|e es] eqn:Hp; cbn [orb negb]; [|done].
    pose proof (sub_rel_append w id s sub v (mkSSEEvent Keepalive EmptyString EmptyString None (next_sequence (hub w)) (clock id))
      false ltac:(done) eq_refl Hc Hs) as H. by rewrite Hp in H.
Qed.

Lemma shutdown_related w sp clock : related w sp -> related (shutdown clock w) (perform ShutsDown sp).
Proof.
  intros Hrel. unfold shutdown. cbn [perform]. destruct (m_shutdown (hub w)) eqn:Hs.
  - rewrite (rel_shutdown _ _ Hrel) in Hs. replace (mkSpec _ _ _) with sp; [done|]. destruct sp as [st vs b]. cbn in *.
    subst b. f_equal. symmetry. rewrite <- (map_fmap_id vs) at 2. apply map_fmap_ext. intros i v Hv.
    apply shut_closed. by apply (rel_closed _ _ Hrel eq_refl i).
  - apply (related_broadcast w sp _ shut); try done; [apply Hrel|by right| |].
    + intros id s. by intros ->.
    + intros id s sub v Hv. destruct (closed s) eqn:Hc.
      * rewrite shut_closed; [done|]. rewrite (sub_open _ _ _ _ _ Hv) in Hc. by destruct (v_open v).
      * by apply (sub_rel_append w id s sub v (mkSSEEvent Shutdown _ _ _ _ _) true).
Qed.
(** What changes one subscriber only. *)
Lemma related_one w sp w' sp' id : related w sp ->
  m_shutdown (hub w') = is_shutdown sp' -> is_shutdown sp' = is_shutdown sp ->
  stored_rel (m_snapshots (hub w')) (stored sp') ->
  NoDup (m_subscribers (hub w')) -> is_Some (heap w' !! id) ->
  (is_shutdown sp' = true -> forall v, views sp' !! id = Some v -> v_open v = false) ->
  (forall other, other <> id -> (other ∈ m_subscribers (hub w') <-> other ∈ m_subscribers (hub w))
    /\ heap w' !! other = heap w !! other /\ subscriptions w' !! other = subscriptions w !! other
    /\ views sp' !! other = views sp !! other /\ delivered_to other (delivered w') = delivered_to other (delivered w)) ->
  subscriber_rel w' sp' id -> related w' sp'.
Proof.
  intros Hrel Hsh Hsp Hst Hnd Hid Hoff Hother Hone. split; [done|done|done| | |].
  - intros other Hin. destruct (decide (other = id)) as [->|Hne]; [done|]. destruct (Hother other Hne) as (Hl & -> & _).
    by apply (rel_known _ _ Hrel), Hl.
  - intros Hs other v Hv. destruct (decide (other = id)) as [->|Hne]; [by eapply Hoff|].
    destruct (Hother other Hne) as (_ & _ & _ & Hvs & _). rewrite Hvs in Hv. rewrite Hsp in Hs.
    by apply (rel_closed _ _ Hrel Hs other).
  - intros other. destruct (decide (other = id)) as [->|Hne]; [done|]. destruct (Hother other Hne) as (Hl & H1 & H2 & H3 & H4).
    pose proof (rel_subscribers _ _ Hrel other) as Hsub. unfold subscriber_rel in *. rewrite H1, H2, H3, H4.
    destruct (heap w !! other) as [s|], (subscriptions w !! other) as [sub|], (views sp !! other) as [v|]; try done.
    destruct Hsub as [? ? ? ? ? ? ?]. split; try done; [by rewrite H4|]. intros Hc. by apply Hl; auto.
Qed.

Lemma subscriber_none w sp id : related w sp -> heap w !! id = None ->
  views sp !! id = None /\ delivered_to id (delivered w) = [] /\ id ∉ m_subscribers (hub w).
Proof.
  intros Hrel Hh. pose proof (rel_subscribers _ _ Hrel id) as Hsub. unfold subscriber_rel in Hsub. rewrite Hh in Hsub.
  destruct (subscriptions w !! id), (views sp !! id); try done. split_and!; [done|done|]. intros Hin.
  destruct (rel_known _ _ Hrel id Hin) as [? ?]. congruence.
Qed.

Lemma subscriber_some w sp id s : related w sp -> heap w !! id = Some s ->
  exists sub v, subscriptions w !! id = Some sub /\ views sp !! id = Some v /\ sub_rel w id s sub v.
Proof.
  intros Hrel Hh. pose proof (rel_subscribers _ _ Hrel id) as Hsub. unfold subscriber_rel in Hsub. rewrite Hh in Hsub.
  destruct (subscriptions w !! id) as [sub|], (views sp !! id) as [v|]; try done. by exists sub, v.
Qed.

Lemma subscribe_related w sp id tys initial include clock : related w sp ->
  related (HttpEvents.perform iterate (Subscribes id tys initial include) clock w) (perform (Subscribes id tys initial include) sp).
Proof.
  intros Hrel. cbn [HttpEvents.perform perform]. destruct (heap w !! id) as [s|] eqn:Hh.
  { destruct (subscriber_some _ _ _ _ Hrel Hh) as (sub & v & _ & -> & _). done. }
  destruct (subscriber_none _ _ _ Hrel Hh) as (Hv & Hd & Hn). rewrite Hv. unfold subscribeEvents.
  rewrite (rel_shutdown _ _ Hrel). destruct (is_shutdown sp) eqn:Hs.
  - apply (related_one w sp _ _ id); cbn [hub heap subscriptions delivered stored views is_shutdown]; try done; try apply Hrel.
    + by rewrite (rel_shutdown _ _ Hrel).
    + by rewrite lookup_insert_eq.
    + intros _ v. rewrite lookup_insert_eq. by intros [= <-].
    + intros other Hne. by rewrite !lookup_insert_ne by done.
    + unfold subscriber_rel. cbn [heap subscriptions views]. rewrite !lookup_insert_eq.
      split; cbn [types closed pending readable m_hub awaiting v_types v_open v_last delivered hub]; try done.
      * exists [], [mkSSEEvent Shutdown EmptyString EmptyString None (m_sequence (hub w)) (clock 0%nat)]. split; [done|].
        split; [done|by repeat constructor|constructor].
      * by rewrite Hd.
  - apply (related_one w sp _ _ id); cbn [hub heap subscriptions delivered stored views is_shutdown m_subscribers m_shutdown m_snapshots]; try done; try apply Hrel.
    + apply NoDup_app. split_and!; [apply Hrel|intros x Hx ->%list_elem_of_singleton; done|apply NoDup_singleton].
    + by rewrite lookup_insert_eq.
    + intros other Hne. rewrite !lookup_insert_ne by done. rewrite elem_of_app, list_elem_of_singleton. by intuition.
    + unfold subscriber_rel. cbn [heap subscriptions views]. rewrite !lookup_insert_eq.
      split; cbn [types closed pending readable m_hub awaiting v_types v_open v_last delivered hub]; try done.
      * eexists _, []. split; [by rewrite app_nil_r|]. split; [|done|constructor].
        apply Forall_forall. intros e He. apply elem_of_lookup_imap in He as (i & x & -> & _). done.
      * rewrite Hd. cbn [app]. unfold view_of. rewrite opening_events_view by by intros i [[? ?] ?].
        apply opening_ok, Hrel.
      * intros _. set_solver.
Qed.

Lemma close_related w sp id : related w sp -> related (close id w) (perform (Closes id) sp).
Proof.
  intros Hrel. unfold close. cbn [perform]. destruct (heap w !! id) as [s|] eqn:Hh.
  - destruct (subscriber_some _ _ _ _ Hrel Hh) as (sub & v & Hsub & Hv & Hone). rewrite Hsub. destruct (m_hub sub) eqn:Hm.
    + apply (related_one w sp _ _ id); cbn [hub heap subscriptions delivered stored views is_shutdown m_subscribers m_shutdown m_snapshots]; try done; try apply Hrel.
      * apply NoDup_ListNoDup, List.NoDup_filter, NoDup_ListNoDup, Hrel.
      * by rewrite lookup_insert_eq.
      * intros _ v'. rewrite lookup_alter_eq, Hv. by intros [= <-].
      * intros other Hne. rewrite !lookup_insert_ne, lookup_alter_ne by done. split_and!; try done.
        rewrite !list_elem_of_In, List.filter_In, <- list_elem_of_In. rewrite negb_true_iff, Nat.eqb_neq. by intuition.
      * unfold subscriber_rel. cbn [heap subscriptions views]. rewrite !lookup_insert_eq, lookup_alter_eq, Hv. cbn.
        destruct Hone as [? ? ? ? ? ? ?]. by split.
    + replace (mkSpec _ _ _) with sp; [done|]. destruct sp as [st vs b]. cbn in *. f_equal. symmetry.
      apply alter_id. intros v' Hv'. apply shut_closed. pose proof (sub_detached _ _ _ _ _ Hone Hm) as Hc.
      rewrite (sub_open _ _ _ _ _ Hone) in Hc. assert (v' = v) as -> by congruence. by destruct (v_open v).
  - destruct (subscriber_none _ _ _ Hrel Hh) as (Hv & _). replace (mkSpec _ _ _) with sp; [by destruct (subscriptions w !! id)|].
    destruct sp as [st vs b]. cbn in *. f_equal. symmetry. apply alter_id. intros v' Hv'. congruence.
Qed.

Lemma delivered_to_app id l l' : delivered_to id (l ++ l') = delivered_to id l ++ delivered_to id l'.
Proof. apply omap_app. Qed.

Lemma delivered_to_one id other e : delivered_to id [(other, e)] = if (other =? id)%nat then [e] else [].
Proof. unfold delivered_to. cbn. by destruct (other =? id)%nat. Qed.

(** Taking the first event of a queue leaves its shape. *)
Lemma queue_ok_tail snaps rest e es : snaps ++ rest = e :: es -> queue_ok snaps rest ->
  exists snaps' rest', es = snaps' ++ rest' /\ queue_ok snaps' rest'.
Proof.
  intros Heq [Hs Hr Hk]. destruct snaps as [|x snaps].
  - cbn in Heq. subst rest. exists [], es. split; [done|]. apply Forall_cons in Hr as [_ Hr]. split; [done|done|].
    cbn [omap list_omap] in Hk. destruct (update_key e); [by apply NoDup_cons in Hk as [_ Hk]|done].
  - injection Heq as -> <-. exists snaps, rest. split; [done|]. by apply Forall_cons in Hs as [_ Hs].
Qed.

(** A poll changes neither the hub nor what the consumer has been promised. *)
Lemma poll_related w sp id : related w sp -> related (fst (poll id w)) sp.
Proof.
  intros Hrel. unfold poll. destruct (heap w !! id) as [s|] eqn:Hh; [|by destruct (subscriptions w !! id)].
  destruct (subscriber_some _ _ _ _ Hrel Hh) as (sub & v & Hsub & Hv & Hone). rewrite Hsub.
  pose proof Hone as [H1 H2 (snaps & rest & Hp & Hq) H4 H5 H6 H7].
  assert (Hgen : forall s' aw log, closed s' = closed s -> types s' = types s ->
    (exists snaps rest, pending s' = snaps ++ rest /\ queue_ok snaps rest) ->
    (forall other, other <> id -> delivered_to other log = []) ->
    pending s = delivered_to id log ++ pending s' ->
    (aw = true -> readable s' = false -> pending s' = [] /\ closed s' = false) ->
    related (mkWorld (hub w) (<[id := s']> (heap w)) (<[id := mkSubscription (m_hub sub) aw]> (subscriptions w)) (delivered w ++ log)) sp).
  { intros s' aw log Hc Ht Hq' Hl Hpend Hw. apply (related_one w sp _ _ id); cbn [hub heap subscriptions delivered]; try done; try apply Hrel.
    - by rewrite lookup_insert_eq.
    - intros Hs v' Hv'. by apply (rel_closed _ _ Hrel Hs id).
    - intros other Hne. rewrite !lookup_insert_ne, delivered_to_app, Hl, app_nil_r by done. done.
    - unfold subscriber_rel. cbn [heap subscriptions]. rewrite !lookup_insert_eq, Hv. split; cbn [hub delivered m_hub awaiting]; try congruence; try done.
      + rewrite delivered_to_app, <- app_assoc, <- Hpend. done.
      + rewrite Hc. apply H5.
      + rewrite Hc. apply H6. }
  destruct (negb (m_hub sub)) eqn:Hm; cbn [fst].
  { rewrite <- (insert_id (heap w) id s), <- (app_nil_r (delivered w)) by done. apply Hgen; try done. by exists snaps, rest. }
  destruct (pending s) as [|e es] eqn:Hpe; cbn [fst].
  - destruct (closed s) eqn:Hc; cbn [fst].
    + rewrite <- (insert_id (heap w) id s), <- (app_nil_r (delivered w)) by done. apply Hgen; try done. rewrite Hpe. by exists snaps, rest.
    + rewrite <- (app_nil_r (delivered w)). apply Hgen; try done; cbn. by exists snaps, rest.
  - apply Hgen; cbn [closed types pending readable]; try done.
    + symmetry in Hp. by eapply queue_ok_tail.
    + intros other Hne. rewrite delivered_to_one. by destruct (Nat.eqb_spec id other).
    + by rewrite delivered_to_one, Nat.eqb_refl.
Qed.

Lemma perform_related w sp c clock : plain_call c -> related w sp ->
  related (HttpEvents.perform iterate c clock w) (perform c sp).
Proof.
  destruct c as [id tys initial include|type ent j retain|type ent removal| | |id|id]; intros Hp Hrel.
  - by apply subscribe_related.
  - by apply publish_related.
  - by apply remove_related.
  - by apply heartbeat_related.
  - by apply shutdown_related.
  - by apply close_related.
  - cbn [HttpEvents.perform perform]. destruct (may_run id w); [by apply poll_related|done].
Qed.

Lemma execute_related calls w sp : Forall (fun c => plain_call (fst c)) calls -> related w sp ->
  related (HttpEvents.execute iterate calls w) (execute (fst <$> calls) sp).
Proof.
  intros Hc. revert w sp. induction Hc as [|[c clock] calls Hp Hc IH]; intros w sp Hrel; [done|].
  rewrite fmap_cons. cbn [HttpEvents.execute execute foldl fst snd]. apply IH, perform_related; done.
Qed.

(** A consumer with something to take, or with nothing to wait for, may run. *)
Lemma may_run_pending w sp id s : related w sp -> heap w !! id = Some s -> pending s <> [] \/ closed s = true ->
  may_run id w = true.
Proof.
  intros Hrel Hh Hp. destruct (subscriber_some _ _ _ _ Hrel Hh) as (sub & v & Hsub & _ & Hone). unfold may_run.
  rewrite Hsub, Hh. destruct (awaiting sub) eqn:Ha, (readable s) eqn:Hr; try done.
  destruct (sub_awake _ _ _ _ _ Hone Ha Hr) as [Hnil Hc]. destruct Hp; congruence.
Qed.

Lemma poll_next w id s sub e es : heap w !! id = Some s -> subscriptions w !! id = Some sub -> m_hub sub = true ->
  pending s = e :: es ->
  poll id w = (mkWorld (hub w) (<[id := mkSubscriber (types s) es (closed s) (readable s)]> (heap w))
    (<[id := mkSubscription true false]> (subscriptions w)) (delivered w ++ [(id, e)]), Event e).
Proof. intros Hh Hs Hm Hp. unfold poll. by rewrite Hs, Hh, Hm, Hp. Qed.

Lemma drain_pending n clock w sp id s sub : related w sp -> heap w !! id = Some s -> subscriptions w !! id = Some sub ->
  m_hub sub = true -> (length (pending s) <= n)%nat ->
  delivered_to id (delivered (HttpEvents.execute iterate (repeat (Polls id, clock) n) w))
  = delivered_to id (delivered w) ++ pending s.
Proof.
  revert w s sub. induction n as [|n IH]; intros w s sub Hrel Hh Hs Hm Hn.
  { destruct (pending s); [by rewrite app_nil_r|cbn in Hn; lia]. }
  change (HttpEvents.execute iterate (repeat (Polls id, clock) (Datatypes.S n)) w)
    with (HttpEvents.execute iterate (repeat (Polls id, clock) n) (HttpEvents.perform iterate (Polls id) clock w)).
  assert (Hrel' : related (HttpEvents.perform iterate (Polls id) clock w) sp) by (by apply (perform_related _ sp (Polls id))).
  cbn [HttpEvents.perform] in *. destruct (pending s) as [|e es] eqn:Hp.
  - destruct (may_run id w); [|rewrite (IH w s sub) by (try done; rewrite Hp; cbn; lia); by rewrite Hp].
    unfold poll in *. rewrite Hs, Hh, Hm, Hp in *. cbn [negb] in *. destruct (closed s); cbn [fst] in *.
    + rewrite (IH _ s (mkSubscription true false)); try done; cbn; try (rewrite Hp; cbn; lia); [by rewrite Hp|by rewrite lookup_insert_eq].
    + rewrite (IH _ (mkSubscriber (types s) [] false false) (mkSubscription true true)); try done; cbn; try lia; by rewrite lookup_insert_eq.
  - rewrite (may_run_pending w sp id s) in * by (try done; left; congruence). rewrite (poll_next w id s sub e es) in * by done.
    cbn [fst] in *. rewrite (IH _ (mkSubscriber (types s) es (closed s) (readable s)) (mkSubscription true false)); try done;
      cbn [heap subscriptions pending delivered]; try (by rewrite lookup_insert_eq); [|cbn in Hn; lia].
    rewrite delivered_to_app, delivered_to_one, Nat.eqb_refl, <- app_assoc. done.
Qed.
End related.

(** ** What the hub promises *)

(** Whatever the specification keeps is what a subscriber of it was told. *)
Definition keeps_stored (id : nat) (sp : Spec) : Prop :=
  forall v, views sp !! id = Some v -> v_open v = true ->
  forall t e j, stored sp !! (t, e) = Some j -> matchesType (v_types v) t = true -> (t, e) <> (snapshot_complete, EmptyString) ->
  v_last v !! (t, e) = Some (Some j).

(** The subscriber asks for the stored snapshots and brings none of its own. *)
Definition opens_on_stored (id : nat) (c : Call) : Prop :=
  match c with Subscribes other _ initial include => other = id -> initial = [] /\ include = true | _ => True end.

Section keeps.
Context {S : Simdjson}.

Lemma see_lookup_eq k d v : v_open v = true -> matchesType (v_types v) (fst k) = true -> v_last (see k d v) !! k = Some d.
Proof. intros Ho Hm. unfold see. rewrite Ho, Hm. cbn. apply lookup_insert_eq. Qed.

Lemma see_lookup_ne k k' d v : k <> k' -> v_last (see k d v) !! k' = v_last v !! k'.
Proof. intros Hne. unfold see. destruct (_ && _); [|done]. cbn. by apply lookup_insert_ne. Qed.

Lemma see_open k d v : v_open (see k d v) = v_open v /\ v_types (see k d v) = v_types v.
Proof. unfold see. by destruct (_ && _). Qed.

Lemma opening_view_stored st tys t e j : st !! (t, e) = Some j -> matchesType tys t = true ->
  (t, e) <> (snapshot_complete, EmptyString) -> opening_view st tys [] true !! (t, e) = Some (Some j).
Proof.
  intros Hst Hm Hne. unfold opening_view. cbn [foldl].
  assert (Hf : (Some <$> filter (fun e => matchesType tys (fst (fst e)) = true) st) !! (t, e) = Some (Some j)).
  { rewrite lookup_fmap, fmap_Some. exists j. split; [by apply map_lookup_filter_Some|done]. }
  destruct (ValidatedJson_parse "{}"); [|done]. by rewrite lookup_insert_ne.
Qed.

(** A snapshot stored under one key and seen by every view of its type. *)
Lemma keeps_stored_update id sp k d st' :
  (forall k' j, st' !! k' = Some j -> k' = k /\ d = Some j \/ k' <> k /\ stored sp !! k' = Some j) ->
  keeps_stored id sp -> keeps_stored id (mkSpec st' (see k d <$> views sp) (is_shutdown sp)).
Proof.
  intros Hst Hk v. cbn [views stored]. rewrite lookup_fmap. intros (v' & Hv & ->)%fmap_Some Hopen t e j Hj Hm Hne.
  destruct (see_open k d v') as [Ho Ht]. rewrite Ho in *. rewrite Ht in *.
  destruct (Hst _ _ Hj) as [[<- ->]|[Hk' Hj']].
  - by apply see_lookup_eq.
  - rewrite see_lookup_ne by congruence. by apply (Hk v').
Qed.

Lemma keeps_stored_perform id c sp : opens_on_stored id c -> keeps_stored id sp -> keeps_stored id (perform c sp).
Proof.
  intros Hc Hk. destruct c as [other tys initial include|type ent j retain|type ent removal| | |other|other]; cbn [perform]; try done.
  - destruct (views sp !! other) as [v|] eqn:Hv; [done|]. intros v'. cbn [views stored].
    intros [[<- <-]|[Hne Hv']]%lookup_insert_Some; [|by apply Hk]. destruct (Hc eq_refl) as [-> ->].
    destruct (is_shutdown sp); [done|]. intros _ t e j Hj Hm Hne. by apply opening_view_stored.
  - apply keeps_stored_update; [|done]. intros k' j'. destruct retain.
    + intros [[<- ->]|[Hne Hl]]%lookup_insert_Some; [by left|right]. by split.
    + intros [Hne Hl]%lookup_delete_Some. right. by split.
  - apply keeps_stored_update; [|done]. intros k' j' [Hne Hl]%lookup_delete_Some. right. by split.
  - intros v. cbn [views]. rewrite lookup_fmap. intros (v' & _ & ->)%fmap_Some. done.
  - intros v. cbn [views stored]. destruct (decide (id = other)) as [->|Hne].
    + rewrite lookup_alter_eq. intros (v' & _ & ->)%fmap_Some. done.
    + rewrite lookup_alter_ne by done. apply Hk.
Qed.

Lemma keeps_stored_execute id calls sp : Forall (opens_on_stored id) calls -> keeps_stored id sp -> keeps_stored id (execute calls sp).
Proof.
  intros Hc. revert sp. induction Hc as [|c calls Hc Hcs IH]; intros sp Hk; [done|]. cbn. by apply IH, keeps_stored_perform.
Qed.
End keeps.


Section theorems.
Context {S : Simdjson} (iterate : gmap string ValidatedJson -> list (string * ValidatedJson)).
Context (Hiter : forall m, iterate m ≡ₚ map_to_list m).

Lemma reachable_related calls : Forall (fun c => plain_call (fst c)) calls ->
  related (HttpEvents.execute iterate calls World_make) (execute (fst <$> calls) Spec_make).
Proof. intros Hc. apply execute_related; [done|done|apply related_make]. Qed.

Lemma snapshots_lookup m st t e : stored_rel m st -> plain_type t -> m !! snapshotKey t e = st !! (t, e).
Proof.
  intros Hrel Ht. apply option_eq. intros j. rewrite (rel_stored _ _ Hrel). split.
  - intros (t' & e' & Heq & Hst). apply snapshotKey_inj in Heq as [= -> ->]; [done|done|by eapply rel_plain].
  - intros Hst. by exists t, e.
Qed.

(** C14: whatever sequence of calls reaches the hub, each subscriber's view of
    what it has been given and what waits in its queue, the last data of each
    type and entity, is the view the specification computes without queues,
    coalescing or batons; it is closed exactly when the specification says so,
    and the retained snapshots are the specification's. *)
Theorem hub_refines_views calls : Forall (fun c => plain_call (fst c)) calls ->
  let w := HttpEvents.execute iterate calls World_make in
  let sp := execute (fst <$> calls) Spec_make in
  (forall t e, plain_type t -> m_snapshots (hub w) !! snapshotKey t e = stored sp !! (t, e)) /\
  (forall id, match heap w !! id, views sp !! id with
    | Some s, Some v => types s = v_types v /\ closed s = negb (v_open v)
        /\ view_of (delivered_to id (delivered w) ++ pending s) = v_last v
    | None, None => delivered_to id (delivered w) = []
    | _, _ => False
    end).
Proof.
  intros Hc w sp. pose proof (reachable_related calls Hc) as Hrel. split.
  - intros t e Ht. apply snapshots_lookup; [apply Hrel|done].
  - intros id. pose proof (rel_subscribers _ _ Hrel id) as Hsub. fold w sp in Hsub. unfold subscriber_rel in Hsub.
    destruct (heap w !! id) as [s|], (subscriptions w !! id) as [sub|], (views sp !! id) as [v|]; try done.
    by destruct Hsub as [? ? ? ? ? ? ?].
Qed.

(** In every state the hub reaches, no two updates that wait for a
    subscriber have the same type and entity, so its queue is bounded by the
    keys in use, and a consumer with an event to take or a closed subscription
    is never left waiting on its baton. *)
Theorem queues_coalesce_and_wake calls id s : Forall (fun c => plain_call (fst c)) calls ->
  let w := HttpEvents.execute iterate calls World_make in
  heap w !! id = Some s ->
  NoDup (omap update_key (pending s)) /\ (pending s <> [] \/ closed s = true -> may_run id w = true).
Proof.
  intros Hc w Hh. pose proof (reachable_related calls Hc) as Hrel. split; [|intros Hp; by eapply may_run_pending].
  destruct (subscriber_some _ _ _ _ Hrel Hh) as (sub & v & _ & _ & [_ _ (snaps & rest & -> & Hq) _ _ _ _]).
  rewrite omap_app, snaps_no_keys by apply Hq. apply Hq.
Qed.

(** C15: a client that subscribes with the stored snapshots and then only reads
    ends up, after as many reads as events wait for it, with the last retained
    snapshot of every entity whose type it selected, however the publications
    before and after it subscribed were coalesced. *)
Theorem retained_snapshots_reach_the_client calls id s sub n clock t e j :
  Forall (fun c => plain_call (fst c)) calls -> Forall (fun c => opens_on_stored id (fst c)) calls ->
  let w := HttpEvents.execute iterate calls World_make in
  heap w !! id = Some s -> subscriptions w !! id = Some sub -> m_hub sub = true -> closed s = false ->
  (length (pending s) <= n)%nat ->
  plain_type t -> m_snapshots (hub w) !! snapshotKey t e = Some j -> matchesType (types s) t = true -> t <> snapshot_complete ->
  view_of (delivered_to id (delivered (HttpEvents.execute iterate (repeat (Polls id, clock) n) w))) !! (t, e) = Some (Some j).
Proof.
  intros Hc Ho w Hh Hs Hm Hopen Hn Ht Hst Hsel Hne. pose proof (reachable_related calls Hc) as Hrel.
  rewrite (drain_pending iterate Hiter n clock w _ id s sub Hrel) by done.
  destruct (subscriber_some _ _ _ _ Hrel Hh) as (sub' & v & Hs' & Hv & [H1 H2 _ H4 _ _ _]).
  fold w in H4. rewrite H4.
  assert (Hk : keeps_stored id (execute (fst <$> calls) Spec_make)).
  { apply keeps_stored_execute; [|by intros v']. by apply Forall_fmap. }
  apply (Hk v Hv); [by rewrite H2 in Hopen; destruct (v_open v)| |by rewrite <- H1|congruence].
  by rewrite <- (snapshots_lookup (m_snapshots (hub w))) by (done || apply Hrel).
Qed.
End theorems.

(** ** Witnesses *)

Definition sample_json (text : string) : ValidatedJson := mkJson text.
Definition sample_calls : list (Call * (nat -> Z)) :=
  (fun c => (c, fun _ => 7)) <$>
  [Publishes "jobs.state" "a" (sample_json "1") true; Subscribes 0 ["jobs.*"] [] true; Polls 0;
   Publishes "jobs.state" "b" (sample_json "2") true; Publishes "tags" "a" (sample_json "3") true;
   Publishes "jobs.state" "b" (sample_json "4") true; Heartbeats].

Lemma hub_refines_views_witness :
  let w := HttpEvents.execute (S := fun _ => None) map_to_list sample_calls World_make in
  m_snapshots (hub w) !! snapshotKey "jobs.state" "b"
  = stored (execute (H := fun _ => None) (fst <$> sample_calls) Spec_make) !! ("jobs.state", "b").
Proof.
  apply (hub_refines_views (S := fun _ => None) map_to_list); [done| |done]. by repeat constructor.
Defined.

Lemma queues_coalesce_and_wake_witness :
  may_run 0 (HttpEvents.execute (S := fun _ => None) map_to_list sample_calls World_make) = true.
Proof.
  unshelve eapply (queues_coalesce_and_wake (S := fun _ => None) map_to_list); [|done|by repeat constructor|vm_compute; reflexivity|by left].
Defined.

Lemma retained_snapshots_reach_the_client_witness :
  view_of (delivered_to 0 (delivered (HttpEvents.execute (S := fun _ => None) map_to_list (repeat (Polls 0, fun _ => 9) 3)
    (HttpEvents.execute (S := fun _ => None) map_to_list sample_calls World_make)))) !! ("jobs.state", "b")
  = Some (Some (sample_json "4")).
Proof.
  unshelve eapply (retained_snapshots_reach_the_client (S := fun _ => None) map_to_list);
    [| |done|by repeat constructor|by repeat constructor|vm_compute; reflexivity|vm_compute; reflexivity|done|done|cbn; lia|done|vm_compute; reflexivity|done|done].
Defined.
