(* ===== verification/HttpStream.v ===== *)
(** * Event streams: from a subscription's events to the browser

    [SSEBodySource.cpp] of [IDHANHttp] writes the events of a subscription as
    server-sent event frames; [createSSEStream] of the web client
    ([IDHANWeb/src/api/client.ts]) reads them from the chunks of the response.
    Text is bytes on both sides: the characters the reader looks for are ASCII
    and UTF-8 never uses their bytes for anything else. *)
From S2P Require Import Prelude StringView HttpEvents.
From Stdlib Require Import Ascii.
From Stdlib Require String.

Definition newline : ascii := ascii_of_nat 10.
Definition carriage_return : ascii := ascii_of_nat 13.
Definition nl : string := String newline EmptyString.

(** ** Writing *)

Definition encodeSSEFrame (event : string) (timestamp : Z) (type data : string) : string :=
  "event: " +:+ event +:+ nl +:+ "timestamp: " +:+ to_string timestamp +:+ nl +:+ "type: " +:+ type +:+ nl +:+ "data: " +:+ data +:+ nl +:+ nl.

Definition data_text (d : option ValidatedJson) : string := match d with Some json => m_text json | None => EmptyString end.

Definition encodeEvent (event : SSEEvent) : string :=
  match kind event with
  | Keepalive => ": keepalive" +:+ nl +:+ nl
  | Shutdown => encodeSSEFrame "shutdown" (timestamp event) EmptyString EmptyString
  | Snapshot => encodeSSEFrame "snapshot" (timestamp event) (event_type event) (data_text (data event))
  | Update => encodeSSEFrame "update" (timestamp event) (event_type event) (data_text (data event))
  end.

(** [m_initial], [m_finished] and [m_stopped]. *)
Record SSEBodySource := mkSource { m_initial : bool; m_finished : bool; m_stopped : bool }.

Definition SSEBodySource_make : SSEBodySource := mkSource true false false.

Definition retry_preamble : string := "retry: 3000" +:+ nl +:+ nl.

(** The data of [downloader.debug] is rendered when it is sent. *)
Definition rendered (render : option ValidatedJson) (event : SSEEvent) : SSEEvent :=
  match render, kind event with
  | Some json, (Snapshot | Update) =>
      if String.eqb (event_type event) "downloader.debug" then
        mkSSEEvent (kind event) (event_type event) (entity event) (Some json) (sequence event) (timestamp event)
      else event
  | _, _ => event
  end.

(** [readBodyEvent]: [next] is what the subscription gives, [render] what
    [m_render] gives if there is one; the result is the chunk and its end mark. *)
Definition readBodyEvent (next : option SSEEvent) (render : option ValidatedJson) (s : SSEBodySource) : SSEBodySource * (option string * bool) :=
  if m_stopped s || m_finished s then (s, (None, true))
  else
    let payload := if m_initial s then retry_preamble else EmptyString in
    match next with
    | None => (mkSource false true (m_stopped s), (if sempty payload then None else Some payload, true))
    | Some event =>
        let eom := match kind event with Shutdown => true | _ => false end in
        (mkSource false eom (m_stopped s), (Some (payload +:+ encodeEvent (rendered render event)), eom))
    end.

(** [stopReading], once. *)
Definition stopReading (s : SSEBodySource) : SSEBodySource := mkSource (m_initial s) (m_finished s) true.

(** The transport reads until a chunk is marked as the last. *)
Fixpoint stream (nexts : list (option SSEEvent * option ValidatedJson)) (s : SSEBodySource) : list string :=
  match nexts with
  | [] => []
  | (next, render) :: nexts =>
      match readBodyEvent next render s with
      | (_, (chunk, true)) => option_list chunk
      | (s, (chunk, false)) => option_list chunk ++ stream nexts s
      end
  end.

(** ** Reading *)

(** An event as the client's handler gets it: name, data, time stamp, type. *)
Record ClientEvent := mkClientEvent { client_name : string; client_data : string; client_timestamp : option Z; client_type : string }.

Record Reader := mkReader {
  buffered : string;
  eventName : string;
  r_data : list string;
  r_timestamp : option Z;
  r_type : string;
  received : list ClientEvent
}.

Definition Reader_make : Reader := mkReader EmptyString "message" [] None EmptyString [].

Section reader.
(* [Number], when it is finite *)
Context (Number : string -> option Z).

Definition dispatch (r : Reader) : Reader :=
  mkReader (buffered r) "message" [] None EmptyString
    (match r_data r with
     | [] => received r
     | _ => received r ++ [mkClientEvent (eventName r) (sjoin nl (r_data r)) (r_timestamp r) (r_type r)]
     end).

Definition drop_space (s : string) : string := match s with String " " rest => rest | _ => s end.

Definition consumeLine (line : string) (r : Reader) : Reader :=
  if sempty line then dispatch r
  else if starts_with ":" line then r
  else
    let separator := find_char ":" line in
    let field := sprefix separator line in
    let value := match separator with Some i => drop_space (sdrop (i + 1) line) | None => EmptyString end in
    let r := if String.eqb field "event" then mkReader (buffered r) value (r_data r) (r_timestamp r) (r_type r) (received r) else r in
    let r := if String.eqb field "type" then mkReader (buffered r) (eventName r) (r_data r) (r_timestamp r) value (received r) else r in
    let r := if String.eqb field "data" then mkReader (buffered r) (eventName r) (r_data r ++ [value]) (r_timestamp r) (r_type r) (received r) else r in
    if String.eqb field "timestamp" then mkReader (buffered r) (eventName r) (r_data r) (Number value) (r_type r) (received r) else r.

Definition set_buffered (s : string) (r : Reader) : Reader :=
  mkReader s (eventName r) (r_data r) (r_timestamp r) (r_type r) (received r).

(** The inner loop over complete lines; each turn shortens [buffered]. *)
Fixpoint consume_lines (fuel : nat) (r : Reader) : Reader :=
  match fuel with
  | O => r
  | S fuel =>
      match find_char newline (buffered r) with
      | None => r
      | Some i => consume_lines fuel (set_buffered (sdrop (i + 1) (buffered r)) (consumeLine (stake i (buffered r)) r))
      end
  end.

Definition without_cr (s : string) : string := sfilter (fun c => negb (carriage_return =? c)%char) s.

(** One value of the response's reader. *)
Definition feed (r : Reader) (chunk : string) : Reader :=
  let r := set_buffered (buffered r +:+ without_cr chunk) r in consume_lines (S (String.length (buffered r))) r.

Definition read_stream (chunks : list string) : Reader := foldl feed Reader_make chunks.
End reader.

(** ** Chunks do not matter *)

Fixpoint sfoldl {A} (f : A -> ascii -> A) (a : A) (s : string) : A :=
  match s with EmptyString => a | String c s => sfoldl f (f a c) s end.

Lemma sfoldl_app {A} (f : A -> ascii -> A) a s t : sfoldl f a (s +:+ t) = sfoldl f (sfoldl f a s) t.
Proof. revert a. induction s as [|c s IH]; intros a; [done|]. rewrite sapp_cons. apply IH. Qed.

Section reading.
Context (Number : string -> option Z).
Local Notation consumeLine := (consumeLine Number).
Local Notation feed := (feed Number).

(** The reader, a character at a time. *)
Definition read_character (r : Reader) (c : ascii) : Reader :=
  if (carriage_return =? c)%char then r
  else if (newline =? c)%char then set_buffered EmptyString (consumeLine (buffered r) r)
  else set_buffered (buffered r +:+ String c EmptyString) r.

Definition line_free (s : string) : bool := sforall (fun c => negb (newline =? c)%char) s.

Lemma set_buffered_twice s t r : set_buffered s (set_buffered t r) = set_buffered s r.
Proof. done. Qed.

Lemma set_buffered_id r : set_buffered (buffered r) r = r.
Proof. by destruct r. Qed.

Lemma consumeLine_buffered line s r : consumeLine line (set_buffered s r) = set_buffered s (consumeLine line r).
Proof.
  unfold HttpStream.consumeLine. destruct (sempty line); [done|]. destruct (starts_with ":" line); [done|]. cbv zeta.
  set (field := sprefix _ _). by destruct (String.eqb field "event"), (String.eqb field "type"), (String.eqb field "data"), (String.eqb field "timestamp").
Qed.

Lemma set_buffered_consumeLine line s r : set_buffered s (consumeLine line r) = consumeLine line (set_buffered s r).
Proof. by rewrite consumeLine_buffered. Qed.

Lemma find_newline_app a b : line_free a = true -> find_char newline (a +:+ String newline b) = Some (String.length a).
Proof.
  intros Ha. unfold find_char. rewrite find_if_app by done. cbn [sview_find_if]. rewrite Ascii.eqb_refl.
  cbn [fmap option_fmap option_map]. by rewrite Nat.add_0_r.
Qed.

Lemma line_free_snoc a c : line_free a = true -> (newline =? c)%char = false -> line_free (a +:+ String c EmptyString) = true.
Proof. unfold line_free. intros Ha Hc. rewrite sforall_app, Ha. cbn. by rewrite Hc. Qed.

(** The lines of a text that begins in the middle of one. *)
Lemma consume_lines_characters text fuel r : line_free (buffered r) = true -> (String.length text < fuel)%nat ->
  without_cr text = text ->
  consume_lines Number fuel (set_buffered (buffered r +:+ text) r) = sfoldl read_character r text.
Proof.
  revert fuel r. induction text as [|c text IH]; intros [|fuel] r Hb Hf Hcr; cbn [String.length] in Hf; try lia.
  { rewrite sapp_nil, set_buffered_id. cbn [consume_lines sfoldl]. apply find_if_none in Hb. unfold find_char. by rewrite Hb. }
  assert (Hc : (carriage_return =? c)%char = false /\ without_cr text = text).
  { unfold without_cr in *. cbn [sfilter] in Hcr. destruct (carriage_return =? c)%char; cbn [negb] in Hcr.
    - exfalso. assert (Hl : forall s, (String.length (sfilter (fun c => negb (carriage_return =? c)%char) s) <= String.length s)%nat).
      { induction s as [|d s IHs]; [done|]. cbn. destruct (negb _); cbn; lia. }
      specialize (Hl text). rewrite Hcr in Hl. cbn in Hl. lia.
    - by injection Hcr. }
  destruct Hc as [Hc Hcr']. cbn [sfoldl]. unfold read_character at 2. rewrite Hc. destruct (Ascii.eqb_spec newline c) as [<-|Hn].
  - cbn [consume_lines]. cbn [buffered set_buffered]. rewrite find_newline_app by done. rewrite stake_app, sdrop_app. cbn [sdrop].
    set (r' := set_buffered EmptyString (consumeLine (buffered r) r)). rewrite <- (IH fuel r') by (done || lia). f_equal.
    unfold r'. cbn [buffered]. rewrite consumeLine_buffered, !set_buffered_twice. done.
  - assert (Hn' : (newline =? c)%char = false) by by apply Ascii.eqb_neq.
    rewrite <- (IH (S fuel) (set_buffered (buffered r +:+ String c EmptyString) r)); [|by apply line_free_snoc|lia|done].
    rewrite set_buffered_twice. cbn [buffered set_buffered]. by rewrite sapp_assoc.
Qed.

Lemma without_cr_idem s : without_cr (without_cr s) = without_cr s.
Proof.
  unfold without_cr. induction s as [|c s IH]; [done|]. cbn. destruct (negb _) eqn:Hc; [|done]. cbn. by rewrite Hc, IH.
Qed.

Lemma sfoldl_without_cr r s : sfoldl read_character r (without_cr s) = sfoldl read_character r s.
Proof.
  revert r. unfold without_cr. induction s as [|c s IH]; intros r; [done|]. cbn [sfilter sfoldl].
  destruct (carriage_return =? c)%char eqn:Hc; cbn [negb sfoldl]; [|apply IH].
  assert (Hskip : read_character r c = r) by (unfold read_character; by rewrite Hc). rewrite Hskip. apply IH.
Qed.

Lemma read_character_line_free r c : line_free (buffered r) = true -> line_free (buffered (read_character r c)) = true.
Proof.
  intros Hr. unfold read_character. destruct (carriage_return =? c)%char; [done|]. destruct (newline =? c)%char eqn:Hc; [done|].
  by apply line_free_snoc.
Qed.

Lemma sfoldl_line_free s r : line_free (buffered r) = true -> line_free (buffered (sfoldl read_character r s)) = true.
Proof. revert r. induction s as [|c s IH]; intros r Hr; [done|]. by apply IH, read_character_line_free. Qed.

Lemma feed_characters chunk r : line_free (buffered r) = true -> feed r chunk = sfoldl read_character r chunk.
Proof.
  intros Hr. unfold HttpStream.feed. cbn [buffered set_buffered].
  rewrite consume_lines_characters; [apply sfoldl_without_cr|done|rewrite slength_app; lia|apply without_cr_idem].
Qed.

Fixpoint sconcat (chunks : list string) : string := match chunks with [] => EmptyString | c :: chunks => c +:+ sconcat chunks end.

Lemma foldl_feed chunks r : line_free (buffered r) = true -> foldl feed r chunks = sfoldl read_character r (sconcat chunks).
Proof.
  revert r. induction chunks as [|chunk chunks IH]; intros r Hr; [done|]. cbn [foldl sconcat].
  rewrite sfoldl_app, <- (feed_characters chunk r) by done. apply IH. rewrite feed_characters by done. by apply sfoldl_line_free.
Qed.

(** What is read depends on the text, not on how it is cut. *)
Lemma read_stream_text chunks : read_stream Number chunks = sfoldl read_character Reader_make (sconcat chunks).
Proof. by apply foldl_feed. Qed.

(** *** Frames *)

Definition plain_text (s : string) : bool := sforall (fun c => negb (newline =? c)%char && negb (carriage_return =? c)%char) s.

Lemma sfoldl_plain s r : plain_text s = true -> sfoldl read_character r s = set_buffered (buffered r +:+ s) r.
Proof.
  revert r. induction s as [|c s IH]; intros r; cbn [sfoldl plain_text sforall]; [by rewrite sapp_nil, set_buffered_id|].
  intros [[Hn Hc]%andb_true_iff Hs]%andb_true_iff. rewrite IH by done. unfold read_character.
  apply negb_true_iff in Hn, Hc. rewrite Hn, Hc. cbn [buffered set_buffered]. by rewrite sapp_assoc.
Qed.

(** A reader between lines takes a whole line. *)
Lemma sfoldl_line line rest r : plain_text line = true -> buffered r = EmptyString ->
  sfoldl read_character r (line +:+ String newline rest) = sfoldl read_character (consumeLine line r) rest
  /\ buffered (consumeLine line r) = EmptyString.
Proof.
  intros Hl Hr.
  assert (Hb : consumeLine line r = set_buffered EmptyString (consumeLine line r)).
  { rewrite <- consumeLine_buffered. f_equal. destruct r. cbn in Hr. by subst. }
  split; [|by rewrite Hb]. rewrite sfoldl_app, (sfoldl_plain line r) by done. rewrite Hr. cbn [String.append sfoldl]. f_equal.
  change (read_character (set_buffered line r) newline) with (set_buffered EmptyString (consumeLine line (set_buffered line r))).
  by rewrite consumeLine_buffered, set_buffered_twice, <- Hb.
Qed.

Lemma plain_text_app a b : plain_text (a +:+ b) = plain_text a && plain_text b.
Proof. apply sforall_app. Qed.

Lemma line_event value r : consumeLine ("event: " +:+ value) r = mkReader (buffered r) value (r_data r) (r_timestamp r) (r_type r) (received r).
Proof. done. Qed.
Lemma line_timestamp value r : consumeLine ("timestamp: " +:+ value) r = mkReader (buffered r) (eventName r) (r_data r) (Number value) (r_type r) (received r).
Proof. done. Qed.
Lemma line_type value r : consumeLine ("type: " +:+ value) r = mkReader (buffered r) (eventName r) (r_data r) (r_timestamp r) value (received r).
Proof. done. Qed.
Lemma line_data value r : consumeLine ("data: " +:+ value) r = mkReader (buffered r) (eventName r) (r_data r ++ [value]) (r_timestamp r) (r_type r) (received r).
Proof. done. Qed.

(** A reader that has collected nothing since the last blank line. *)
Definition between (es : list ClientEvent) : Reader := mkReader EmptyString "message" [] None EmptyString es.

Lemma sfoldl_field pre value rest r : plain_text pre = true -> plain_text value = true -> buffered r = EmptyString ->
  sfoldl read_character r (pre +:+ value +:+ nl +:+ rest) = sfoldl read_character (consumeLine (pre +:+ value) r) rest.
Proof.
  intros Hp Hv Hr. rewrite <- sapp_assoc. change (nl +:+ rest) with (String newline rest).
  apply sfoldl_line; [|done]. by rewrite plain_text_app, Hp, Hv.
Qed.

Lemma sfoldl_blank rest r : buffered r = EmptyString -> sfoldl read_character r (nl +:+ rest) = sfoldl read_character (dispatch r) rest.
Proof. intros Hr. change (nl +:+ rest) with (EmptyString +:+ String newline rest). by apply sfoldl_line. Qed.

Lemma read_frame event t type data rest es :
  plain_text event = true -> plain_text type = true -> plain_text data = true -> plain_text (to_string t) = true ->
  sfoldl read_character (between es) (encodeSSEFrame event t type data +:+ rest)
  = sfoldl read_character (between (es ++ [mkClientEvent event data (Number (to_string t)) type])) rest.
Proof.
  intros He Ht Hd Hn. unfold encodeSSEFrame. rewrite !sapp_assoc. rewrite sfoldl_field, line_event by done.
  rewrite sfoldl_field, line_timestamp by done. rewrite sfoldl_field, line_type by done. rewrite sfoldl_field, line_data by done.
  by rewrite sfoldl_blank.
Qed.

Lemma to_string_plain t : plain_text (to_string t) = true.
Proof.
  assert (Hdig : forall s, sforall is_digit s = true -> plain_text s = true).
  { intros s. apply sforall_impl. by intros [[][][][][][][][]]. }
  destruct (Z.ltb_spec t 0) as [Hneg|Hpos]; [|by apply Hdig, to_string_digits].
  replace (to_string t) with (String "-" (to_string (- t))) by by destruct t.
  change (plain_text (to_string (- t)) = true). apply Hdig, to_string_digits. lia.
Qed.

(** *** Whole streams *)

(** What a client should see of an event: a keepalive is invisible. *)
Definition seen (event : SSEEvent) : list ClientEvent :=
  match kind event with
  | Keepalive => []
  | Shutdown => [mkClientEvent "shutdown" EmptyString (Number (to_string (timestamp event))) EmptyString]
  | Snapshot => [mkClientEvent "snapshot" (data_text (data event)) (Number (to_string (timestamp event))) (event_type event)]
  | Update => [mkClientEvent "update" (data_text (data event)) (Number (to_string (timestamp event))) (event_type event)]
  end.

(** One line of text in the event's type and in its data. *)
Definition one_line (event : SSEEvent) : Prop := plain_text (event_type event) = true /\ plain_text (data_text (data event)) = true.

Lemma read_event event rest es : one_line event ->
  sfoldl read_character (between es) (encodeEvent event +:+ rest) = sfoldl read_character (between (es ++ seen event)) rest.
Proof.
  intros [Ht Hd]. unfold encodeEvent, seen. pose proof (to_string_plain (timestamp event)).
  destruct (kind event); [by apply read_frame|by apply read_frame| |by apply read_frame].
  rewrite app_nil_r, sapp_assoc, sapp_assoc.
  change (": keepalive" +:+ nl +:+ nl +:+ rest) with (": keepalive" +:+ String newline (nl +:+ rest)).
  rewrite (proj1 (sfoldl_line ": keepalive" (nl +:+ rest) (between es) eq_refl eq_refl)).
  change (consumeLine ": keepalive" (between es)) with (between es). by rewrite sfoldl_blank.
Qed.

Lemma read_retry rest es : sfoldl read_character (between es) (retry_preamble +:+ rest) = sfoldl read_character (between es) rest.
Proof.
  unfold retry_preamble. rewrite sapp_assoc, sapp_assoc.
  change ("retry: 3000" +:+ nl +:+ nl +:+ rest) with ("retry: 3000" +:+ String newline (nl +:+ rest)).
  rewrite (proj1 (sfoldl_line "retry: 3000" (nl +:+ rest) (between es) eq_refl eq_refl)).
  change (consumeLine "retry: 3000" (between es)) with (between es). by rewrite sfoldl_blank.
Qed.

(** The events a body source sends: up to the first shutdown or the end of the
    subscription. *)
Fixpoint sent (nexts : list (option SSEEvent * option ValidatedJson)) : list SSEEvent :=
  match nexts with
  | (Some event, render) :: nexts =>
      rendered render event :: match kind event with Shutdown => [] | _ => sent nexts end
  | _ => []
  end.

Lemma rendered_kind render event : kind (rendered render event) = kind event.
Proof. unfold rendered. destruct render, (kind event) eqn:Hk; try done; by destruct (String.eqb _ _). Qed.

Definition preamble (initial : bool) : string := if initial then retry_preamble else EmptyString.

Lemma read_preamble initial rest es : sfoldl read_character (between es) (preamble initial +:+ rest) = sfoldl read_character (between es) rest.
Proof. destruct initial; [apply read_retry|done]. Qed.

Lemma readBodyEvent_next event render s : m_stopped s = false -> m_finished s = false ->
  readBodyEvent (Some event) render s =
    (mkSource false (bool_decide (kind event = Shutdown)) false,
     (Some (preamble (m_initial s) +:+ encodeEvent (rendered render event)), bool_decide (kind event = Shutdown))).
Proof. intros Hs Hf. unfold readBodyEvent. rewrite Hs, Hf. cbn [orb]. by destruct (kind event). Qed.

Lemma sconcat_chunk chunk rest : sconcat (option_list (Some chunk) ++ rest) = chunk +:+ sconcat rest.
Proof. done. Qed.

Lemma sconcat_last chunk : sconcat (option_list (Some chunk)) = chunk +:+ EmptyString.
Proof. done. Qed.

Lemma read_sent nexts s es : m_stopped s = false -> m_finished s = false -> Forall one_line (sent nexts) ->
  sfoldl read_character (between es) (sconcat (stream nexts s)) = between (es ++ concat (seen <$> sent nexts)).
Proof.
  revert s es. induction nexts as [|[[event|] render] nexts IH]; intros s es Hs Hf Hall; [by rewrite app_nil_r| |].
  - cbn [stream sent] in *. apply Forall_cons in Hall as [He Hall]. rewrite readBodyEvent_next, fmap_cons by done. cbn [concat].
    case_bool_decide as Hk.
    + rewrite Hk, sconcat_last, sapp_assoc, read_preamble, read_event by done. cbn [sfoldl concat fmap list_fmap].
      by rewrite app_nil_r.
    + replace (match kind event with Shutdown => [] | _ => sent nexts end) with (sent nexts) in * by by destruct (kind event).
      rewrite sconcat_chunk, sapp_assoc, read_preamble, read_event by done.
      rewrite IH by done. by rewrite app_assoc.
  - cbn [stream]. unfold readBodyEvent. rewrite Hs, Hf. cbn [orb sent concat fmap list_fmap]. rewrite app_nil_r.
    destruct (m_initial s); [|done]. cbn [sempty retry_preamble]. change (sempty retry_preamble) with false. cbv iota.
    by rewrite sconcat_last, read_retry.
Qed.

(** Whatever way the network cuts the body of a stream, the browser's
    reader hands its client exactly the events that were sent, in order, with
    their name, data, type and time stamp, up to the shutdown that ends the
    stream; keepalives and the retry line are not seen.  Types and data are one
    line each, which is what the writers of the program produce. *)
Theorem event_streams_are_read_back nexts chunks : Forall one_line (sent nexts) ->
  sconcat chunks = sconcat (stream nexts SSEBodySource_make) ->
  received (read_stream Number chunks) = concat (seen <$> sent nexts).
Proof.
  intros Hall Hcut. rewrite read_stream_text, Hcut. change Reader_make with (between []).
  by rewrite read_sent.
Qed.

(** A line feed in the data of a frame cuts it: the rest is another line. *)
Lemma newline_cuts_data :
  let event := mkSSEEvent Update "t" "e" (Some (mkJson ("{" +:+ nl +:+ "}"))) 1 7 in
  received (read_stream Number [encodeEvent event]) = [mkClientEvent "update" "{" (Number "7") "t"].
Proof. reflexivity. Qed.
End reading.

(** ** Witness *)

Definition sample_nexts : list (option SSEEvent * option ValidatedJson) :=
  [(Some (mkSSEEvent Snapshot "jobs" "1" (Some (mkJson "{}")) 0 7), None);
   (Some (mkSSEEvent Keepalive EmptyString EmptyString None 1 8), None);
   (Some (mkSSEEvent Shutdown EmptyString EmptyString None 2 9), None)].

Lemma event_streams_are_read_back_witness :
  received (read_stream (fun s => Some (Z.of_nat (String.length s)))
    [retry_preamble; encodeSSEFrame "snapshot" 7 "jobs" "{}" +:+ ": keepa"; "live" +:+ nl; nl +:+ encodeSSEFrame "shutdown" 9 EmptyString EmptyString])
  = [mkClientEvent "snapshot" "{}" (Some 1) "jobs"; mkClientEvent "shutdown" EmptyString (Some 1) EmptyString].
Proof.
  apply (event_streams_are_read_back (fun s => Some (Z.of_nat (String.length s))) sample_nexts); [|vm_compute; reflexivity].
  repeat constructor.
Defined.
