(* ===== verification/HttpRange.v ===== *)
(** * Files over HTTP: ranges, validators and the body that is streamed

    [FileResponse.cpp], [helpers/parseByteRange.hpp] and [FileBodySource.cpp]
    of [IDHANHttp].  [FileResponse::create] decides the status, headers and
    byte slice of a file's response from the request's conditional and range
    headers; the body source then reads the slice a chunk at a time, however
    the file changes in between.

    Headers are proxygen's: a request gives [getSingleOrEmpty], a response is
    the map of the names [set].  [parseHTTPDateTime] is a parameter. *)
From S2P Require Import Prelude StringView.
From Stdlib Require Import Ascii.

(** ** Ranges *)

Inductive RangeOutcome := none | satisfiable | unsatisfiable.
Record RangeResult := mkRange { outcome : RangeOutcome; range_begin : Z; range_end : Z }.

Definition no_range : RangeResult := mkRange none 0 0.

(** [std::from_chars] into an unsigned 64-bit integer: the value and how many
    characters it took; [None] for any error code. *)
Definition from_chars (text : string) : option (Z * nat) :=
  let '(value, taken) := read_digits 0 text in
  if (0 <? taken)%nat && (value <=? size_max) then Some (value, taken) else None.

Definition bytes_prefix : string := "bytes=".

Definition parseRange (header : string) (size : Z) : RangeResult :=
  if negb (starts_with bytes_prefix header) then no_range
  else
    let spec := sdrop (String.length bytes_prefix) header in
    match find_char "," spec with
    | Some _ => no_range
    | None =>
        match find_char "-" spec with
        | None | Some O => no_range
        | Some dash =>
            match from_chars (stake dash spec) with
            | None => no_range
            | Some (begin, _) =>
                let end_text := sdrop (dash + 1) spec in
                let last := if size =? 0 then 0 else size - 1 in
                match (if sempty end_text then Some last else fst <$> from_chars end_text) with
                | None => no_range
                | Some end_ =>
                    if (size =? 0) || (size <=? begin) then mkRange unsatisfiable 0 0
                    else if end_ <? begin then no_range
                    else mkRange satisfiable begin (Z.min end_ (size - 1))
                end
            end
        end
    end.

(** *** The header-only parser *)

Record ByteRange := mkByteRange { offset : Z; length : Z }.
Inductive ByteRangeError := Invalid | Unsatisfiable.

Definition integer (text : string) : option Z :=
  if sempty text then None
  else match from_chars text with
  | Some (value, taken) => if (taken =? String.length text)%nat then Some value else None
  | None => None
  end.

Definition parseByteRange (header : string) (size : Z) : ByteRangeError + ByteRange :=
  if negb (starts_with "bytes=" header) then inl Invalid
  else
    let spec := sdrop 6 header in
    match find_char "-" spec with
    | None => inl Invalid
    | Some O =>
        match integer (sdrop 1 spec) with
        | None => inl Invalid
        | Some suffix =>
            if suffix =? 0 then inl Unsatisfiable
            else let len := Z.min suffix size in inr (mkByteRange (size - len) len)
        end
    | Some dash =>
        let end_text := sdrop (dash + 1) spec in
        match integer (stake dash spec) with
        | None => inl Invalid
        | Some first =>
            match (if sempty end_text then Some size_max
                   else match integer end_text with
                   | Some parsed => if parsed <? first then None else Some parsed
                   | None => None
                   end) with
            | None => inl Invalid
            | Some last =>
                if size <=? first then inl Unsatisfiable
                else let end_ := Z.min last (size - 1) in inr (mkByteRange first (end_ - first + 1))
            end
        end
    end.

(** ** Entity tags *)

Definition dquote : string := char 34.
Definition quoteEtag (etag : string) : string := dquote +:+ etag +:+ dquote.

Fixpoint drop_spaces (s : string) : string :=
  match s with String c s' => if (c =? " ")%char then drop_spaces s' else s | EmptyString => s end.

Fixpoint drop_last_spaces (s : string) : string :=
  match s with
  | EmptyString => EmptyString
  | String c s' =>
      match drop_last_spaces s' with
      | EmptyString => if (c =? " ")%char then EmptyString else String c EmptyString
      | rest => String c rest
      end
  end.

Definition clean_candidate (candidate : string) : string :=
  let candidate := drop_last_spaces (drop_spaces candidate) in
  if starts_with "W/" candidate then sdrop 2 candidate else candidate.

(** The loop over the list; what is left of the header gets shorter. *)
Fixpoint etagListMatches_loop (fuel : nat) (header quoted_etag : string) : bool :=
  match fuel with
  | O => false
  | S fuel =>
      if sempty header then false
      else if String.eqb (clean_candidate (sprefix (find_char "," header) header)) quoted_etag then true
      else match find_char "," header with
      | Some end_ => etagListMatches_loop fuel (sdrop (end_ + 1) header) quoted_etag
      | None => false
      end
  end.

Definition etagListMatches (header quoted_etag : string) : bool :=
  if sempty header then false
  else if String.eqb header "*" then true
  else etagListMatches_loop (S (String.length header)) header quoted_etag.

(** ** Dates *)

(** [gmtime_r]: the civil date of a day count, and the time of day. *)
Definition civil_of_days (days : Z) : Z * Z * Z :=
  let z := days + 719468 in
  let era := z / 146097 in
  let doe := z - era * 146097 in
  let yoe := (doe - doe / 1460 + doe / 36524 - doe / 146096) / 365 in
  let doy := doe - (365 * yoe + yoe / 4 - yoe / 100) in
  let mp := (5 * doy + 2) / 153 in
  let day := doy - (153 * mp + 2) / 5 + 1 in
  let month := if mp <? 10 then mp + 3 else mp - 9 in
  (yoe + era * 400 + (if month <=? 2 then 1 else 0), month, day).

Definition two_digits (n : Z) : string := if n <? 10 then "0" +:+ to_string n else to_string n.
Definition day_name (n : Z) : string :=
  default EmptyString (["Sun"; "Mon"; "Tue"; "Wed"; "Thu"; "Fri"; "Sat"] !! Z.to_nat n).
Definition month_name (n : Z) : string :=
  default EmptyString (["Jan"; "Feb"; "Mar"; "Apr"; "May"; "Jun"; "Jul"; "Aug"; "Sep"; "Oct"; "Nov"; "Dec"] !! Z.to_nat (n - 1)).

(** A [system_clock] time in nanoseconds, to whole seconds towards zero. *)
Definition whole_seconds (time : Z) : Z := Z.quot time (10 ^ 9).

Definition formatHttpDate (time : Z) : string :=
  let seconds := whole_seconds time in
  let days := seconds / 86400 in
  let rest := seconds mod 86400 in
  let '(year, month, day) := civil_of_days days in
  day_name ((days + 4) mod 7) +:+ ", " +:+ two_digits day +:+ " " +:+ month_name month +:+ " " +:+ to_string year +:+ " "
  +:+ two_digits (rest / 3600) +:+ ":" +:+ two_digits (rest / 60 mod 60) +:+ ":" +:+ two_digits (rest mod 60) +:+ " GMT".

(** ** The response *)

Record FileMetadata := mkMetadata {
  size : Z;
  modified : Z;
  etag : string;
  content_type : string;
  filename : string;
  immutable : bool;
  attachment : bool
}.

(** [method_head], and [getSingleOrEmpty]. *)
Record Request := mkRequest { is_head : bool; header : string -> string }.

Inductive Body := NoBody | FileBody (offset length : Z).
Record Response := mkResponse { status : Z; headers : gmap string string; body : Body }.

Definition default_cache_max_age : Z := 3600.
Definition immutable_cache_max_age : Z := 3600 * 24 * 365.

Definition common_headers (m : FileMetadata) : gmap string string :=
  let h := <["Server" := "IDHAN"]> ∅ in
  let h := <["ETag" := quoteEtag (etag m)]> h in
  let h := <["Last-Modified" := formatHttpDate (modified m)]> h in
  let h := <["Accept-Ranges" := "bytes"]> h in
  let h := <["Cache-Control" := "private, " +:+ (if immutable m then "immutable, " else EmptyString) +:+ "max-age="
    +:+ to_string (if immutable m then immutable_cache_max_age else default_cache_max_age)]> h in
  if sempty (filename m) then h
  else <["Content-Disposition" := (if attachment m then "attachment" else "inline") +:+ "; filename=" +:+ dquote
    +:+ filename m +:+ dquote]> h.

Section create.
Context (parseHTTPDateTime : string -> option Z).

Definition not_modified (request : Request) (m : FileMetadata) : bool :=
  let if_none_match := header request "If-None-Match" in
  if negb (sempty if_none_match) then etagListMatches if_none_match (quoteEtag (etag m))
  else
    let if_modified_since := header request "If-Modified-Since" in
    if sempty if_modified_since then false
    else match parseHTTPDateTime if_modified_since with
    | Some parsed => whole_seconds (modified m) <=? parsed
    | None => false
    end.

Definition modified_after (request : Request) (m : FileMetadata) : bool :=
  let if_unmodified_since := header request "If-Unmodified-Since" in
  sempty (header request "If-Match") && negb (sempty if_unmodified_since)
  && match parseHTTPDateTime if_unmodified_since with
     | Some parsed => parsed <? whole_seconds (modified m)
     | None => false
     end.

(** The range the request asks for and is entitled to. *)
Definition requested_range (request : Request) (m : FileMetadata) : RangeResult :=
  let range_header := header request "Range" in
  if sempty range_header then no_range
  else
    let if_range := header request "If-Range" in
    if sempty if_range || String.eqb if_range (quoteEtag (etag m)) then parseRange range_header (size m) else no_range.

Definition content_range (begin end_ size : Z) : string :=
  "bytes " +:+ to_string begin +:+ "-" +:+ to_string end_ +:+ "/" +:+ to_string size.

(** [FileResponse::create] *)
Definition create (request : Request) (m : FileMetadata) : Response :=
  let response_headers := common_headers m in
  let if_match := header request "If-Match" in
  if negb (sempty if_match) && negb (etagListMatches if_match (quoteEtag (etag m))) then
    mkResponse 412 response_headers NoBody
  else if not_modified request m then mkResponse 304 response_headers NoBody
  else if modified_after request m then mkResponse 412 response_headers NoBody
  else
    let range := requested_range request m in
    match outcome range with
    | unsatisfiable => mkResponse 416 (<["Content-Range" := "bytes */" +:+ to_string (size m)]> response_headers) NoBody
    | found =>
        let ranged := match found with satisfiable => true | _ => false end in
        let begin := if ranged then range_begin range else 0 in
        let end_ := if ranged then range_end range else if size m =? 0 then 0 else size m - 1 in
        let len := if size m =? 0 then 0 else end_ - begin + 1 in
        let response_headers := <["Content-Type" := content_type m]> response_headers in
        let response_headers := <["Content-Length" := to_string len]> response_headers in
        let response_headers :=
          if ranged then <["Content-Range" := content_range begin end_ (size m)]> response_headers else response_headers in
        mkResponse (if ranged then 206 else 200) response_headers (if is_head request then NoBody else FileBody begin len)
    end.
End create.

(** ** The body source *)

Record FileBodySource := mkSource { m_offset : Z; m_remaining : Z; m_stopped : bool }.

Definition read_chunk_size : Z := 256 * 1024.

(** What [readChunk] finds: [None] for a failed call; [folly::preadFull] gives
    all there is up to [want]. *)
Definition readChunk (file : option (list Z)) (offset want : Z) : option (list Z) :=
  (fun bytes => take (Z.to_nat want) (drop (Z.to_nat offset) bytes)) <$> file.

Inductive BodyEvent := Chunk (data : list Z) (eom : bool) | Error.

(** [readBodyEvent], with the file as it is when the read happens. *)
Definition readBodyEvent (max : Z) (file : option (list Z)) (source : FileBodySource) : FileBodySource * BodyEvent :=
  if m_stopped source || (m_remaining source =? 0) then (source, Chunk [] true)
  else
    let want := Z.min (Z.min max read_chunk_size) (m_remaining source) in
    match readChunk file (m_offset source) want with
    | None | Some [] => (source, Error)
    | Some data =>
        let read := Z.of_nat (List.length data) in
        let remaining := m_remaining source - read in
        (mkSource (m_offset source + read) remaining (m_stopped source), Chunk data (remaining =? 0))
    end.

Definition stopReading (source : FileBodySource) : FileBodySource := mkSource (m_offset source) (m_remaining source) true.

Inductive Served := Finished | Failed | Reading.

(** The transport reads until the end of the message or an error. *)
Fixpoint serve (reads : list (Z * option (list Z))) (source : FileBodySource) : list Z * Served :=
  match reads with
  | [] => ([], Reading)
  | (max, file) :: reads =>
      match readBodyEvent max file source with
      | (_, Error) => ([], Failed)
      | (_, Chunk data true) => (data, Finished)
      | (source, Chunk data false) => let '(rest, served) := serve reads source in (data ++ rest, served)
      end
  end.

(** ** Numbers and separators *)

Lemma from_chars_to_string z t : 0 <= z <= size_max -> sforall (fun c => negb (is_digit c)) (stake 1 t) = true ->
  from_chars (to_string z +:+ t) = Some (z, String.length (to_string z)).
Proof.
  intros Hz Ht. unfold from_chars. rewrite read_digits_to_string by (done || lia).
  destruct (to_string_nonempty z ltac:(lia)) as (c & s & -> & _). cbn [String.length Nat.ltb Nat.leb andb].
  by rewrite (proj2 (Z.leb_le _ _)) by lia.
Qed.

Lemma from_chars_number z : 0 <= z <= size_max -> from_chars (to_string z) = Some (z, String.length (to_string z)).
Proof. intros Hz. rewrite <- (sapp_nil (to_string z)) at 1. by apply from_chars_to_string. Qed.

Lemma from_chars_bounds text v n : from_chars text = Some (v, n) -> 0 <= v <= size_max.
Proof.
  unfold from_chars. pose proof (read_digits_nonneg 0 text ltac:(lia)) as Hn. destruct (read_digits 0 text) as [w m].
  cbn in Hn. destruct (0 <? m)%nat, (w <=? size_max) eqn:Hw; try done. intros [= <- <-]. lia.
Qed.

Lemma read_digits_whole acc text : snd (read_digits acc text) = String.length text -> sforall is_digit text = true.
Proof.
  revert acc. induction text as [|c text IH]; intros acc; [done|]. cbn [read_digits String.length sforall].
  destruct (is_digit c); [|done]. specialize (IH (10 * acc + digit_value c)).
  destruct (read_digits _ text) as [v n]. cbn in *. intros [= ->]. by apply IH.
Qed.

(** [integer] is [from_chars] of a text that is all digits. *)
Lemma integer_some text v : integer text = Some v ->
  from_chars text = Some (v, String.length text) /\ sforall is_digit text = true.
Proof.
  unfold integer. destruct (sempty text); [done|]. destruct (from_chars text) as [[w n]|] eqn:Hf; [|done].
  destruct (Nat.eqb_spec n (String.length text)) as [->|]; [|done]. intros [= ->]. split; [done|].
  unfold from_chars in Hf. destruct (read_digits 0 text) as [w n] eqn:Hr. destruct (_ && _); [|done]. injection Hf as -> ->.
  apply read_digits_whole with 0. by rewrite Hr.
Qed.

Lemma digits_free (c : ascii) text : is_digit c = false -> sforall is_digit text = true ->
  sforall (fun d => negb (c =? d)%char) text = true.
Proof.
  intros Hc. apply sforall_impl. intros d Hd. destruct (Ascii.eqb_spec c d) as [->|]; [congruence|done].
Qed.

Lemma find_char_after c a b : sforall (fun d => negb (c =? d)%char) a = true ->
  find_char c (a +:+ String c b) = Some (String.length a).
Proof. intros Ha. unfold find_char. rewrite find_if_app by done. cbn. rewrite Ascii.eqb_refl. cbn. f_equal. lia. Qed.

Lemma sdrop_after a c b : sdrop (String.length a + 1) (a +:+ String c b) = b.
Proof. by rewrite sdrop_app. Qed.

Lemma find_char_split c s i : find_char c s = Some i ->
  exists a b, s = a +:+ String c b /\ i = String.length a /\ stake i s = a /\ sdrop (i + 1) s = b.
Proof.
  intros H. apply find_if_some in H as (a & d & b & -> & <- & Hd & _). apply Ascii.eqb_eq in Hd as <-.
  exists a, b. by rewrite stake_app, sdrop_after.
Qed.

(** ** What [parseRange] makes of a range *)

(** The header of a range, and what the policy says about it. *)
Definition range_header (first : Z) (last : option Z) : string :=
  bytes_prefix +:+ to_string first +:+ "-" +:+ match last with Some l => to_string l | None => EmptyString end.

Definition range_policy (first : Z) (last : option Z) (size : Z) : RangeResult :=
  if size <=? first then mkRange unsatisfiable 0 0
  else match last with
  | Some l => if l <? first then no_range else mkRange satisfiable first (Z.min l (size - 1))
  | None => mkRange satisfiable first (size - 1)
  end.

Lemma parseRange_prefixed spec size : parseRange (bytes_prefix +:+ spec) size =
  match find_char "," spec with
  | Some _ => no_range
  | None => match find_char "-" spec with
    | None | Some O => no_range
    | Some dash => match from_chars (stake dash spec) with
      | None => no_range
      | Some (begin, _) =>
          let end_text := sdrop (dash + 1) spec in
          let last := if size =? 0 then 0 else size - 1 in
          match (if sempty end_text then Some last else fst <$> from_chars end_text) with
          | None => no_range
          | Some end_ =>
              if (size =? 0) || (size <=? begin) then mkRange unsatisfiable 0 0
              else if end_ <? begin then no_range
              else mkRange satisfiable begin (Z.min end_ (size - 1))
          end
      end
    end
  end.
Proof. unfold parseRange. by rewrite starts_with_app, sdrop_app_exact. Qed.

Lemma starts_with_prefixed pre s : starts_with pre s = true -> s = pre +:+ sdrop (String.length pre) s.
Proof.
  revert s. induction pre as [|c pre IH]; intros [|d s]; try done. cbn [starts_with].
  intros [Hc Hs]%andb_true_iff. apply Ascii.eqb_eq in Hc as ->. rewrite sapp_cons. cbn [String.length sdrop]. by rewrite <- IH.
Qed.

(** Every header of the form [bytes=N-] or [bytes=N-M] with 64-bit numbers
    gets the documented answer: unsatisfiable from the end of the file on,
    ignored when [M < N], and otherwise the slice cut off at the end of the
    file. *)
Theorem parseRange_reads first last size :
  0 <= first <= size_max -> (forall l, last = Some l -> 0 <= l <= size_max) -> 0 <= size <= size_max ->
  parseRange (range_header first last) size = range_policy first last size.
Proof.
  intros Hf Hl Hs. unfold range_header. rewrite parseRange_prefixed. set (tail := match last with Some _ => _ | None => _ end).
  assert (Htail : sforall is_digit tail = true).
  { unfold tail. destruct last as [l|]; [|done]. apply to_string_digits. specialize (Hl l eq_refl). lia. }
  pose proof (to_string_digits first ltac:(lia)) as Hd.
  change ("-" +:+ tail) with (String "-" tail).
  assert (Hcomma : find_char "," (to_string first +:+ String "-" tail) = None).
  { apply find_if_none. rewrite sforall_app. cbn. by rewrite !(digits_free ","). }
  rewrite Hcomma, find_char_after by by apply (digits_free "-").
  destruct (to_string_nonempty first ltac:(lia)) as (c & s & Hcs & _).
  destruct (String.length (to_string first)) as [|n] eqn:Hlen; [by rewrite Hcs in Hlen|]. rewrite <- Hlen.
  rewrite stake_app, from_chars_number, sdrop_after by done. cbv beta iota zeta. unfold range_policy, tail.
  destruct last as [l|].
  - specialize (Hl l eq_refl). rewrite from_chars_number by done.
    destruct (to_string_nonempty l ltac:(lia)) as (c' & s' & -> & _). cbn [sempty fmap option_fmap option_map fst].
    destruct (Z.eqb_spec size 0), (Z.leb_spec size first); cbn [orb]; try done; lia.
  - cbn [sempty]. destruct (Z.eqb_spec size 0) as [->|]; cbn [orb].
    + by rewrite (proj2 (Z.leb_le _ _)) by lia.
    + destruct (Z.leb_spec size first); [done|]. rewrite (proj2 (Z.ltb_ge _ _)) by lia. by rewrite Z.min_id.
Qed.

(** Whatever the header, a satisfiable range lies inside the file. *)
Lemma parseRange_in_file header size : outcome (parseRange header size) = satisfiable ->
  0 <= range_begin (parseRange header size) <= range_end (parseRange header size)
  /\ range_end (parseRange header size) < size.
Proof.
  unfold parseRange. destruct (negb _); [done|]. destruct (find_char ","); [done|].
  destruct (find_char "-") as [[|dash]|]; try done. destruct (from_chars _) as [[begin n]|] eqn:Hf; [|done].
  apply from_chars_bounds in Hf. cbv zeta. destruct (if sempty _ then _ else _) as [end_|]; [|done].
  destruct (Z.eqb_spec size 0), (Z.leb_spec size begin); cbn [orb]; try done.
  destruct (Z.ltb_spec end_ begin); [done|]. cbn. lia.
Qed.

(** ** The two parsers *)

Definition is_suffix (header : string) : bool :=
  match find_char "-" (sdrop (String.length bytes_prefix) header) with Some O => true | _ => false end.

(** Where the strict, header-only parser finds a slice or an unsatisfiable
    range of the form [N-] or [N-M], the parser of the file responses finds
    the same one; it treats every suffix range as absent. *)
Theorem range_parsers_agree header size : 0 <= size <= size_max ->
  if is_suffix header then parseRange header size = no_range
  else match parseByteRange header size with
  | inr r => parseRange header size = mkRange satisfiable (offset r) (offset r + length r - 1)
  | inl Unsatisfiable => parseRange header size = mkRange unsatisfiable 0 0
  | inl Invalid => True
  end.
Proof.
  intros Hsize. unfold parseByteRange. destruct (starts_with "bytes=" header) eqn:Hpre; cbn [negb];
    [|unfold parseRange; change bytes_prefix with "bytes="; rewrite Hpre; by destruct (is_suffix header)].
  apply starts_with_prefixed in Hpre. unfold is_suffix. change (String.length bytes_prefix) with 6%nat in *.
  change (String.length "bytes=") with 6%nat in Hpre. set (spec := sdrop 6 header) in *. clearbody spec. subst header.
  change "bytes=" with bytes_prefix. rewrite parseRange_prefixed.
  destruct (find_char "-" spec) as [[|dash]|] eqn:Hdash; [by destruct (find_char "," spec)| |done].
  destruct (find_char_split _ _ _ Hdash) as (a & b & Hspec & _ & Hta & Hdb). rewrite Hta, Hdb.
  destruct (integer a) as [first|] eqn:Ha; [|done]. apply integer_some in Ha as [Ha Hda].
  assert (Hcomma : sforall is_digit b = true -> find_char "," spec = None).
  { intros Hb. apply find_if_none. rewrite Hspec, sforall_app. cbn. by rewrite !(digits_free ","). }
  rewrite Ha. cbv zeta. pose proof (from_chars_bounds _ _ _ Ha) as Hfirst. destruct (sempty b) eqn:Hb.
  - destruct b; [|done]. rewrite Hcomma by done. destruct (Z.leb_spec size first).
    + by rewrite orb_true_r.
    + destruct (Z.eqb_spec size 0); [lia|]. cbn [orb offset length]. rewrite (proj2 (Z.ltb_ge _ _)) by lia.
      rewrite Z.min_id. unfold size_max in *. f_equal. lia.
  - destruct (integer b) as [last|] eqn:Hi; [|done]. apply integer_some in Hi as [Hi Hdb']. rewrite Hcomma, Hi by done.
    cbn [fmap option_fmap option_map fst]. destruct (Z.ltb_spec last first) as [|Hge]; [done|].
    destruct (Z.leb_spec size first); [by rewrite orb_true_r|]. destruct (Z.eqb_spec size 0); [lia|]. cbn [orb offset length].
    f_equal. lia.
Qed.

(** ** Entity tags in a list *)

(** A list of tags the way a client writes it, weak ones marked. *)
Definition written_tag (tag : bool * string) : string :=
  (if fst tag then "W/" else EmptyString) +:+ quoteEtag (snd tag).

Fixpoint etag_header (tags : list (bool * string)) : string :=
  match tags with
  | [] => EmptyString
  | [tag] => written_tag tag
  | tag :: tags => written_tag tag +:+ ", " +:+ etag_header tags
  end.

(** No comma, which would end the list's element. *)
Definition comma_free (s : string) : bool := sforall (fun c => negb ("," =? c)%char) s.

Lemma written_tag_comma tag : comma_free (snd tag) = true -> comma_free (written_tag tag) = true.
Proof.
  intros H. unfold comma_free, written_tag, quoteEtag in *. rewrite !sforall_app, H. by destruct (fst tag).
Qed.

Lemma drop_last_spaces_quote s : drop_last_spaces (s +:+ dquote) = s +:+ dquote.
Proof.
  induction s as [|c s IH]; [done|]. rewrite sapp_cons. cbn [drop_last_spaces]. rewrite IH. by destruct s.
Qed.

Lemma clean_written_tag sp tag : sp = EmptyString \/ sp = " " -> clean_candidate (sp +:+ written_tag tag) = quoteEtag (snd tag).
Proof.
  intros Hsp. assert (Hd : drop_spaces (sp +:+ written_tag tag) = written_tag tag).
  { unfold written_tag, quoteEtag, dquote, char. by destruct Hsp as [->| ->], (fst tag). }
  unfold clean_candidate. rewrite Hd. unfold written_tag, quoteEtag. rewrite <- !sapp_assoc, drop_last_spaces_quote.
  rewrite !sapp_assoc. by destruct (fst tag).
Qed.

Lemma quoteEtag_eqb a b : String.eqb (quoteEtag a) (quoteEtag b) = String.eqb a b.
Proof.
  apply eq_true_iff_eq. rewrite !String.eqb_eq. split; [|by intros ->]. unfold quoteEtag. intros H.
  apply (f_equal (sdrop 1)) in H. change (a +:+ dquote = b +:+ dquote) in H.
  assert (Hl : String.length a = String.length b) by (apply (f_equal String.length) in H; rewrite !slength_app in H; lia).
  rewrite <- (stake_app a dquote), H, Hl. apply stake_app.
Qed.

Lemma etagListMatches_loop_list fuel sp tags etag : sp = EmptyString \/ sp = " " -> tags <> [] ->
  Forall (fun tag => comma_free (snd tag) = true) tags -> (String.length (sp +:+ etag_header tags) < fuel)%nat ->
  etagListMatches_loop fuel (sp +:+ etag_header tags) (quoteEtag etag) = existsb (String.eqb etag) (snd <$> tags).
Proof.
  revert sp tags. induction fuel as [|fuel IH]; intros sp [|tag tags] Hsp Hne Hc Hlen; try done; [lia|].
  apply Forall_cons in Hc as [Htag Hc]. cbn [etagListMatches_loop].
  assert (Hcand : comma_free (sp +:+ written_tag tag) = true).
  { unfold comma_free. rewrite sforall_app. fold (comma_free (written_tag tag)). rewrite written_tag_comma by done.
    by destruct Hsp as [->| ->]. }
  assert (Hemp : forall t, sempty (sp +:+ written_tag tag +:+ t) = false).
  { intros t. unfold written_tag, quoteEtag, dquote, char. by destruct Hsp as [->| ->], (fst tag). }
  rewrite fmap_cons. cbn [existsb]. rewrite (String.eqb_sym etag (snd tag)), <- (quoteEtag_eqb (snd tag) etag).
  destruct tags as [|next tags].
  - cbn [etag_header]. rewrite <- (sapp_nil (written_tag tag)) at 1. rewrite Hemp.
    replace (find_char "," (sp +:+ written_tag tag)) with (@None nat) by (symmetry; by apply find_if_none).
    cbn [sprefix]. rewrite clean_written_tag by done. by destruct (String.eqb _ _).
  - change (etag_header (tag :: next :: tags)) with (written_tag tag +:+ ", " +:+ etag_header (next :: tags)) in *.
    rewrite Hemp. rewrite <- sapp_assoc in *.
    change ((sp +:+ written_tag tag) +:+ ", " +:+ etag_header (next :: tags))
      with ((sp +:+ written_tag tag) +:+ String "," (" " +:+ etag_header (next :: tags))) in *.
    rewrite find_char_after by done. cbn [sprefix]. rewrite stake_app, sdrop_after, clean_written_tag by done.
    destruct (String.eqb (quoteEtag (snd tag)) _); [done|]. cbn [orb]. apply IH; [by right|done|done|].
    rewrite slength_app in Hlen. cbn [String.length] in Hlen. lia.
Qed.

Lemma etag_header_shape tags : tags <> [] ->
  sempty (etag_header tags) = false /\ String.eqb (etag_header tags) "*" = false.
Proof.
  destruct tags as [|tag [|next tags]]; try done; intros _; cbn [etag_header]; unfold written_tag, quoteEtag, dquote, char;
    by destruct (fst tag).
Qed.

Lemma etagListMatches_header tags etag : tags <> [] -> Forall (fun tag => comma_free (snd tag) = true) tags ->
  etagListMatches (etag_header tags) (quoteEtag etag) = existsb (String.eqb etag) (snd <$> tags).
Proof.
  intros Hne Hc. unfold etagListMatches. destruct (etag_header_shape tags Hne) as [-> ->].
  apply (etagListMatches_loop_list _ EmptyString); [by left|done|done|cbn; lia].
Qed.

(** A header that lists entity tags, strong or weak, matches the file's tag
    exactly when the tag is one of them. *)
Theorem etagListMatches_list tags etag : tags <> [] -> Forall (fun tag => comma_free (snd tag) = true) tags ->
  etagListMatches (etag_header tags) (quoteEtag etag) = existsb (String.eqb etag) (snd <$> tags).
Proof. apply etagListMatches_header. Qed.

(** ** Reading the body *)

Definition slice (offset len : Z) (bytes : list Z) : list Z := take (Z.to_nat len) (drop (Z.to_nat offset) bytes).

Lemma serve_cons max file reads source :
  serve ((max, file) :: reads) source
  = match readBodyEvent max file source with
    | (_, Error) => ([], Failed)
    | (_, Chunk data true) => (data, Finished)
    | (source', Chunk data false) => (data ++ fst (serve reads source'), snd (serve reads source'))
    end.
Proof.
  cbn [serve]. destruct (readBodyEvent max file source) as [source' [data [|]|]]; try done. by destruct (serve reads source').
Qed.

(** A read of a source with bytes to go: an error, or a non-empty chunk. *)
Lemma readBodyEvent_cases max file source : m_stopped source = false -> 0 < m_remaining source ->
  readBodyEvent max file source = (source, Error)
  \/ exists data, data <> [] /\ Z.of_nat (List.length data) <= m_remaining source
     /\ readChunk file (m_offset source) (Z.min (Z.min max read_chunk_size) (m_remaining source)) = Some data
     /\ readBodyEvent max file source
        = (mkSource (m_offset source + Z.of_nat (List.length data)) (m_remaining source - Z.of_nat (List.length data)) false,
           Chunk data (m_remaining source - Z.of_nat (List.length data) =? 0)).
Proof.
  intros Hs Hr. unfold readBodyEvent. rewrite Hs, (proj2 (Z.eqb_neq _ _)) by lia. cbn [orb]. cbv zeta.
  destruct (readChunk _ _ _) as [[|b data]|] eqn:Hread; [by left| |by left]. right. exists (b :: data).
  split_and!; try done. unfold readChunk in Hread. apply fmap_Some in Hread as (bytes & _ & ->).
  rewrite length_take. unfold read_chunk_size. lia.
Qed.

(** A response that ends normally has delivered exactly the announced
    number of bytes, whatever happens to the file while it is read. *)
Theorem finished_body_has_its_length reads source : m_stopped source = false -> 0 < m_remaining source ->
  snd (serve reads source) = Finished -> Z.of_nat (List.length (fst (serve reads source))) = m_remaining source.
Proof.
  revert source. induction reads as [|[max file] reads IH]; intros source Hs Hr; [done|]. rewrite serve_cons.
  destruct (readBodyEvent_cases max file source Hs Hr) as [->|(data & Hne & Hlen & _ & ->)]; [done|].
  destruct (Z.eqb_spec (m_remaining source - Z.of_nat (List.length data)) 0); cbn [fst snd]; [lia|].
  intros Hfin. rewrite length_app, Nat2Z.inj_add, IH; cbn [m_stopped m_remaining]; [lia|done|lia|done].
Qed.

Lemma readChunk_slice bytes offset want :
  readChunk (Some bytes) offset want = Some (slice offset want bytes).
Proof. done. Qed.

Lemma slice_length offset len bytes : 0 <= offset -> 0 <= len -> offset + len <= Z.of_nat (List.length bytes) ->
  Z.of_nat (List.length (slice offset len bytes)) = len.
Proof. intros Ho Hl Hb. unfold slice. rewrite length_take, length_drop. lia. Qed.

Lemma slice_split offset n len bytes : 0 <= offset -> 0 <= n <= len ->
  slice offset len bytes = slice offset n bytes ++ slice (offset + n) (len - n) bytes.
Proof.
  intros Ho Hn. unfold slice. replace (Z.to_nat (offset + n)) with (Z.to_nat offset + Z.to_nat n)%nat by lia.
  rewrite <- drop_drop. replace (Z.to_nat len) with (Z.to_nat n + Z.to_nat (len - n))%nat by lia.
  by rewrite take_take_drop.
Qed.

(** On a file that stays as it is, enough reads deliver the slice. *)
Lemma serve_slice reads bytes source : m_stopped source = false -> 0 <= m_offset source -> 0 < m_remaining source ->
  m_offset source + m_remaining source <= Z.of_nat (List.length bytes) ->
  Forall (fun read => 0 < fst read /\ snd read = Some bytes) reads -> m_remaining source <= Z.of_nat (List.length reads) ->
  serve reads source = (slice (m_offset source) (m_remaining source) bytes, Finished).
Proof.
  revert source. induction reads as [|[max file] reads IH]; intros source Hs Ho Hr Hb Hall Hn; [cbn in Hn; lia|].
  apply Forall_cons in Hall as [[Hmax Hfile] Hall]. cbn [fst snd] in *. subst file. rewrite serve_cons.
  set (want := Z.min (Z.min max read_chunk_size) (m_remaining source)).
  assert (Hwant : 0 < want <= m_remaining source) by (unfold want, read_chunk_size; lia).
  assert (Hl : Z.of_nat (List.length (slice (m_offset source) want bytes)) = want) by (apply slice_length; lia).
  assert (Hread : readBodyEvent max (Some bytes) source
    = (mkSource (m_offset source + want) (m_remaining source - want) false,
       Chunk (slice (m_offset source) want bytes) (m_remaining source - want =? 0))).
  { unfold readBodyEvent. rewrite Hs, (proj2 (Z.eqb_neq _ _)) by lia. cbn [orb]. fold want. cbv zeta.
    rewrite readChunk_slice, Hl.
    destruct (slice (m_offset source) want bytes); [cbn in Hl; lia|done]. }
  rewrite Hread. destruct (Z.eqb_spec (m_remaining source - want) 0).
  - f_equal. f_equal. lia.
  - rewrite IH; cbn [m_stopped m_offset m_remaining fst snd]; try done; cbn [List.length] in Hn; try lia.
    by rewrite <- slice_split by lia.
Qed.

(** ** Whole responses *)

Section responses.
Context (parseHTTPDateTime : string -> option Z).
Local Notation create := (create parseHTTPDateTime).

(** The slice of a full or partial response, and its announcement. *)
Lemma requested_slice request m : 0 <= size m ->
  outcome (requested_range request m) = satisfiable ->
  0 <= range_begin (requested_range request m) <= range_end (requested_range request m)
  /\ range_end (requested_range request m) < size m.
Proof.
  intros Hs. unfold requested_range. destruct (sempty _); [done|]. destruct (_ || _); [|done]. by apply parseRange_in_file.
Qed.

(** What a response promises: a body is a slice of the file, announced by the
    length and, if partial, by the range. *)
Definition announces (m : FileMetadata) (r : Response) (offset len : Z) : Prop :=
  headers r !! "Content-Length" = Some (to_string len)
  /\ (status r = 200 /\ offset = 0 /\ len = size m
      \/ status r = 206 /\ 0 < len /\ headers r !! "Content-Range" = Some (content_range offset (offset + len - 1) (size m)))
  /\ 0 <= offset /\ 0 <= len /\ offset + len <= size m.

Lemma create_body request m : 0 <= size m ->
  match body (create request m) with
  | NoBody => is_head request = true \/ status (create request m) ∈ [304; 412; 416]
  | FileBody offset len => announces m (create request m) offset len
  end.
Proof.
  intros Hs. unfold HttpRange.create. cbv zeta. destruct (_ && _); [right; cbn; set_solver|].
  destruct (not_modified _ request m); [right; cbn; set_solver|].
  destruct (modified_after _ request m); [right; cbn; set_solver|].
  pose proof (requested_slice request m Hs) as Hr. destruct (outcome (requested_range request m)) eqn:Ho.
  - destruct (is_head request); cbn [body]; [by left|]. unfold announces. cbn [status headers].
    rewrite lookup_insert_eq. destruct (Z.eqb_spec (size m) 0); split_and!; done || lia.
  - specialize (Hr eq_refl). destruct (is_head request); cbn [body]; [by left|]. unfold announces. cbn [status headers].
    rewrite (proj2 (Z.eqb_neq _ _)) by lia. rewrite lookup_insert_ne, !lookup_insert_eq by done. split_and!; try lia; [done|].
    right. split_and!; [done|lia|]. do 2 f_equal. lia.
  - right. cbn. set_solver.
Qed.

(** C16: a GET of a file that keeps its size is answered, once its conditions
    hold, by the announced slice and nothing else: [Content-Length] is the
    length of what the body source delivers, a 200 delivers the whole file, and
    a 206 the bytes its [Content-Range] names. *)
Theorem file_response_streams_its_slice request m bytes reads :
  size m = Z.of_nat (List.length bytes) -> is_head request = false ->
  Forall (fun read => 0 < fst read /\ snd read = Some bytes) reads -> 1 <= Z.of_nat (List.length reads) ->
  size m <= Z.of_nat (List.length reads) ->
  match body (create request m) with
  | NoBody => status (create request m) ∈ [304; 412; 416]
  | FileBody offset len =>
      announces m (create request m) offset len
      /\ serve reads (mkSource offset len false) = (slice offset len bytes, Finished)
      /\ (status (create request m) = 200 -> slice offset len bytes = bytes)
  end.
Proof.
  intros Hsize Hget Hall Hone Hn. pose proof (create_body request m ltac:(lia)) as H.
  destruct (body (create request m)) as [|offset len]; [destruct H as [H|H]; [congruence|done]|].
  split_and!; [done| |].
  - destruct H as (_ & _ & Ho & Hl & Hb). destruct (decide (len = 0)) as [->|Hne].
    + destruct reads as [|[max file] reads]; [cbn in Hone; lia|]. by unfold slice.
    + apply serve_slice; cbn; try done; lia.
  - intros H200. destruct H as (_ & [(_ & -> & ->)|(H206 & _)] & _); [|congruence].
    unfold slice. rewrite drop_0. apply take_ge. lia.
Qed.

(** A client that revalidates with the tag it was given gets 304 and no
    body, whatever else it sends that its conditions allow; one that asks for
    another version to be current gets 412. *)
Theorem validators_are_honoured request m tags :
  Forall (fun tag => comma_free (snd tag) = true) tags -> tags <> [] ->
  (header request "If-Match" = EmptyString -> header request "If-None-Match" = etag_header tags ->
     existsb (String.eqb (etag m)) (snd <$> tags) = true ->
     create request m = mkResponse 304 (common_headers m) NoBody)
  /\ (header request "If-Match" = etag_header tags -> existsb (String.eqb (etag m)) (snd <$> tags) = false ->
     create request m = mkResponse 412 (common_headers m) NoBody).
Proof.
  intros Ht Hne. pose proof (etagListMatches_header tags (etag m) Hne Ht) as Hm.
  destruct (etag_header_shape tags Hne) as [Hemp _].
  split.
  - intros Hno Hnm Hin. unfold HttpRange.create. rewrite Hno. cbn [sempty negb andb]. unfold not_modified.
    rewrite Hnm, Hemp, Hm, Hin. done.
  - intros Hif Hin. unfold HttpRange.create. rewrite Hif, Hemp, Hm, Hin. done.
Qed.
End responses.

(** ** Witnesses *)

Definition sample_metadata : FileMetadata := mkMetadata 5 (1763426580 * 10 ^ 9) "v1" "image/png" EmptyString true false.
Definition sample_request : Request :=
  mkRequest false (fun name => if String.eqb name "Range" then "bytes=1-3" else EmptyString).
Definition sample_tags : list (bool * string) := [(true, "v0"); (false, "v1")].
Definition revalidating_request : Request :=
  mkRequest false (fun name => if String.eqb name "If-None-Match" then etag_header sample_tags else EmptyString).

Lemma parseRange_reads_witness : parseRange (range_header 2 (Some 9)) 5 = mkRange satisfiable 2 4.
Proof. refine (parseRange_reads 2 (Some 9) 5 _ _ _); [done| |done]. by intros l [= <-]. Defined.

Lemma range_parsers_agree_witness : parseRange "bytes=2-9" 5 = mkRange satisfiable 2 4.
Proof. by apply (range_parsers_agree "bytes=2-9" 5). Defined.

Lemma etagListMatches_list_witness : etagListMatches (etag_header sample_tags) (quoteEtag "v1") = true.
Proof. refine (etagListMatches_list sample_tags "v1" _ _); [done|by repeat constructor]. Defined.

Lemma finished_body_has_its_length_witness :
  Z.of_nat (List.length (fst (serve [(2, Some [1; 2; 3]); (8, Some [9; 9; 9; 9])] (mkSource 0 3 false)))) = 3.
Proof. refine (finished_body_has_its_length _ (mkSource 0 3 false) _ _ _); done. Defined.

Lemma file_response_streams_its_slice_witness :
  serve (repeat (2, Some [10; 11; 12; 13; 14]) 5) (mkSource 1 3 false) = ([11; 12; 13], Finished).
Proof.
  refine (proj1 (proj2 (file_response_streams_its_slice (fun _ => None) sample_request sample_metadata
    [10; 11; 12; 13; 14] (repeat (2, Some [10; 11; 12; 13; 14]) 5) _ _ _ _ _))); try done. by repeat constructor.
Defined.

Lemma validators_are_honoured_witness :
  create (fun _ => None) revalidating_request sample_metadata = mkResponse 304 (common_headers sample_metadata) NoBody.
Proof.
  refine (proj1 (validators_are_honoured (fun _ => None) revalidating_request sample_metadata sample_tags _ _) _ _ _);
    try done. by repeat constructor.
Defined.
