(* ===== verification/JobEvents.v ===== *)
(** * The status events of background jobs

    [IDHANServer/src/jobs]: [JobTaskStatus.cpp], [JobProgress.hpp] and
    [JobEventHub.cpp].  Jobs change their status on many threads; each change
    is followed, in a critical section of its own, by a notification that
    only marks the job dirty.  One publisher thread takes the dirty set, reads
    each status piece by piece without the hub's lock while the job goes on
    changing it, and publishes what it read to the event hub of [HttpEvents.v].

    The world is the job hub, the statuses, the progress objects they point to,
    the threads that have changed something and not yet notified, and the event
    hub; one [step] is one critical section, one read of the publisher, or one
    atomic access.  A progress object holds its own mutex around a change and
    the notification, so its change-then-notify is coarser in the code than the
    two steps it has here. *)
From stdpp Require Import sorting.
From S2P Require Import Prelude Json StringView HttpEvents.

(** ** Statuses *)

Record source_location := mkLocation { file_name : string; line : Z; column : Z }.

(** One reading of the two clocks, in nanoseconds since their epochs. *)
Record Clock := mkClock { steady_now : Z; system_now : Z }.

(** [duration_cast] truncates; the default time point is the epoch itself. *)
Definition epochSeconds (clock : Clock) (point : Z) : option Z :=
  if point =? 0 then None
  else
    let elapsed := steady_now clock - point in
    let time := system_now clock - elapsed in
    Some (Z.quot time 1000000000).

Section jobs.
Context {J : Json} {S : Simdjson}.

(** [Json::writeString] with an empty indentation. *)
Context (writeString : Value -> string).

(** The order in which the event hub walks its [unordered_map]. *)
Context (iterate : gmap string ValidatedJson -> list (string * ValidatedJson)).

(** A progress object, as its [snapshot()] shows it, and the job its callback
    notifies. *)
Record JobProgress := mkProgress { progress_state : Value; progress_on_change : option Z }.

(** The callback of a status captures the hub and the job's id; [m_progress]
    is a pointer. *)
Record JobTaskStatus := mkStatus {
  m_response : option Value;
  m_progress : option nat;
  m_on_change : bool;
  m_done : bool;
  m_failed : bool;
  m_error_message : string;
  m_start_time : Z;
  m_completion_time : Z;
  m_cleanup_requested : bool;
  m_id : Z;
  m_continuous : bool;
  m_function_name : string;
  m_location : source_location
}.

(** What [queueJob] makes of the status of a new coroutine. *)
Definition JobTaskStatus_make (id : Z) (continuous : bool) (name : string) (loc : source_location) : JobTaskStatus :=
  mkStatus None None false false false EmptyString 0 0 false id continuous name loc.

Definition set_response (response : Value) (st : JobTaskStatus) : JobTaskStatus :=
  mkStatus (Some response) (m_progress st) (m_on_change st) (m_done st) (m_failed st) (m_error_message st) (m_start_time st)
    (m_completion_time st) (m_cleanup_requested st) (m_id st) (m_continuous st) (m_function_name st) (m_location st).

Definition set_progress (progress : nat) (st : JobTaskStatus) : JobTaskStatus :=
  mkStatus (m_response st) (Some progress) (m_on_change st) (m_done st) (m_failed st) (m_error_message st) (m_start_time st)
    (m_completion_time st) (m_cleanup_requested st) (m_id st) (m_continuous st) (m_function_name st) (m_location st).

Definition setChangeCallback (st : JobTaskStatus) : JobTaskStatus :=
  mkStatus (m_response st) (m_progress st) true (m_done st) (m_failed st) (m_error_message st) (m_start_time st)
    (m_completion_time st) (m_cleanup_requested st) (m_id st) (m_continuous st) (m_function_name st) (m_location st).

(** [JobContext::run], the first time. *)
Definition set_start (now : Z) (st : JobTaskStatus) : JobTaskStatus :=
  mkStatus (m_response st) (m_progress st) (m_on_change st) (m_done st) (m_failed st) (m_error_message st) now
    (m_completion_time st) (m_cleanup_requested st) (m_id st) (m_continuous st) (m_function_name st) (m_location st).

(** [JobTaskPromise::unhandled_exception]. *)
Definition unhandled_exception (what : option string) (st : JobTaskStatus) : JobTaskStatus :=
  mkStatus (m_response st) (m_progress st) (m_on_change st) (m_done st) true (default "Unknown exception" what) (m_start_time st)
    (m_completion_time st) (m_cleanup_requested st) (m_id st) (m_continuous st) (m_function_name st) (m_location st).

(** [JobFinalAwaiter::await_suspend]: the completion time is read only by a
    reader that has seen [m_done], stored last with release order. *)
Definition set_done (now : Z) (st : JobTaskStatus) : JobTaskStatus :=
  mkStatus (m_response st) (m_progress st) (m_on_change st) true (m_failed st) (m_error_message st) (m_start_time st)
    now (m_cleanup_requested st) (m_id st) (m_continuous st) (m_function_name st) (m_location st).

Definition request_cleanup (st : JobTaskStatus) : JobTaskStatus :=
  mkStatus (m_response st) (m_progress st) (m_on_change st) (m_done st) (m_failed st) (m_error_message st) (m_start_time st)
    (m_completion_time st) true (m_id st) (m_continuous st) (m_function_name st) (m_location st).

(** *** The snapshot, read by read

    A snapshot under construction: how many of its reads are done, what the
    read of [m_done] gave, and the members so far. *)
Record Snapshot := mkSnapshot { reads_done : nat; seen_done : bool; members : Value }.

Definition location_text (loc : source_location) : string :=
  file_name loc +:+ ":" +:+ to_string (line loc) +:+ ":" +:+ to_string (column loc).

Definition set_optional (key : string) (member : option Value) (v : Value) : Value :=
  match member with Some x => set_member key x v | None => v end.

Definition snapshot_start : Snapshot := mkSnapshot 0 false empty_object.

(** A null value that is given a member becomes an object.  First, the fields
    fixed before the job was queued, and [m_start_time]. *)
Definition put_fixed (clock : Clock) (st : JobTaskStatus) (v : Value) : Value :=
  let v := set_member "job_id" (of_uint (m_id st)) v in
  let v := set_member "job_name" (of_string (m_function_name st)) v in
  let v := set_member "continuous" (of_bool (m_continuous st)) v in
  let v := set_member "location" (of_string (location_text (m_location st))) v in
  set_optional "start_time" (of_int <$> epochSeconds clock (m_start_time st)) v.

(** After the load of [m_done], what is read only of a finished job. *)
Definition put_outcome (clock : Clock) (done : bool) (st : JobTaskStatus) (v : Value) : Value :=
  let v := set_member "status"
    (of_string (if negb done then "running" else if m_failed st then "failed" else "completed")) v in
  if done then
    let v := set_optional "end_time" (of_int <$> epochSeconds clock (m_completion_time st)) v in
    if m_failed st then set_member "error" (of_string (m_error_message st)) v else v
  else v.

Definition snapshot_read (clock : Clock) (progress : option Value) (st : JobTaskStatus) (s : Snapshot) : Snapshot :=
  match reads_done s with
  | 0%nat => mkSnapshot 1 (seen_done s) (put_fixed clock st (members s))
  | 1%nat => mkSnapshot 2 (m_done st) (set_member "completed" (of_bool (m_done st)) (members s))
  | 2%nat => mkSnapshot 3 (seen_done s) (put_outcome clock (seen_done s) st (members s))
  | 3%nat => mkSnapshot 4 (seen_done s) (set_optional "progress" progress (members s))
  | 4%nat => mkSnapshot 5 (seen_done s) (set_optional "response" (m_response st) (members s))
  | _ => s
  end.

Definition snapshot_reads : nat := 5.

(** The first [n] reads of one status, the clock being read each time. *)
Fixpoint reads (clock : nat -> Clock) (progress : option Value) (st : JobTaskStatus) (n : nat) : Snapshot :=
  match n with
  | O => snapshot_start
  | Datatypes.S n => snapshot_read (clock n) progress st (reads clock progress st n)
  end.

(** [JobTaskStatus::snapshot], of a status nobody changes meanwhile. *)
Definition snapshot (clock : nat -> Clock) (progress : option Value) (st : JobTaskStatus) : Value :=
  members (reads clock progress st snapshot_reads).

(** ** The hub and its publisher *)

Inductive Notifier := StatusChanged (id : Z) | ProgressChanged (progress : nat).

(** Where the publisher is: waiting for a dirty job, in the 100 ms it lets
    changes gather, at the head of its loop over the ids it took, reading, or
    about to publish. *)
Inductive Publisher :=
| Waiting
| Gathering
| Looping (ids : list Z)
| Reading (id : Z) (s : Snapshot) (ids : list Z)
| Publishing (id : Z) (s : Snapshot) (encoded : ValidatedJson) (ids : list Z).

(** [published] records the snapshot whose encoding was published last. *)
Record Jobs := mkJobs {
  m_jobs : gset Z;
  m_dirty : gset Z;
  m_publisher : Publisher;
  statuses : gmap Z JobTaskStatus;
  progresses : gmap nat JobProgress;
  notifying : list Notifier;
  events : World;
  published : gmap Z Snapshot
}.

Definition Jobs_make (w : World) : Jobs := mkJobs ∅ ∅ Waiting ∅ ∅ [] w ∅.

Definition set_statuses (m : gmap Z JobTaskStatus) (notifying : list Notifier) (w : Jobs) : Jobs :=
  mkJobs (m_jobs w) (m_dirty w) (m_publisher w) m (progresses w) notifying (events w) (published w).
Definition set_progresses (m : gmap nat JobProgress) (notifying : list Notifier) (w : Jobs) : Jobs :=
  mkJobs (m_jobs w) (m_dirty w) (m_publisher w) (statuses w) m notifying (events w) (published w).
Definition set_publisher (p : Publisher) (dirty : gset Z) (w : Jobs) : Jobs :=
  mkJobs (m_jobs w) dirty p (statuses w) (progresses w) (notifying w) (events w) (published w).
Definition set_events (e : World) (w : Jobs) : Jobs :=
  mkJobs (m_jobs w) (m_dirty w) (m_publisher w) (statuses w) (progresses w) (notifying w) e (published w).

(** The encoding [eventJson] makes; [None] is the exception of [value()]. *)
Definition eventJson (v : Value) : option ValidatedJson := ValidatedJson_parse (writeString v).

Definition job_type : string := "job.status".
Definition job_key (id : Z) : string := snapshotKey job_type (to_string id).

Definition changed (id : Z) (w : Jobs) : Jobs :=
  if decide (id ∈ m_jobs w) then set_publisher (m_publisher w) ({[id]} ∪ m_dirty w) w else w.

Definition add (st : JobTaskStatus) (w : Jobs) : Jobs :=
  mkJobs ({[m_id st]} ∪ m_jobs w) ({[m_id st]} ∪ m_dirty w) (m_publisher w) (<[m_id st := setChangeCallback st]> (statuses w))
    (progresses w) (notifying w) (events w) (published w).

Definition removal_payload (id : Z) : Value :=
  set_member "removed" (of_bool true) (set_member "job_id" (of_uint id) empty_object).

Definition remove (id : Z) (removal : ValidatedJson) (clock : nat -> Z) (w : Jobs) : Jobs :=
  mkJobs (m_jobs w ∖ {[id]}) (m_dirty w ∖ {[id]}) (m_publisher w) (statuses w) (progresses w) (notifying w)
    (HttpEvents.remove job_type (to_string id) (Some removal) clock (events w)) (delete id (published w)).

(** [notifyChanged] of a status, [changed] of a progress. *)
Definition notify (n : Notifier) (w : Jobs) : Jobs :=
  match n with
  | StatusChanged id => match statuses w !! id with
      | Some st => if m_on_change st then changed id w else w
      | None => w
      end
  | ProgressChanged p => match progresses w !! p with
      | Some progress => match progress_on_change progress with Some id => changed id w | None => w end
      | None => w
      end
  end.

(** A change of a status, by a thread that will notify. *)
Definition write (f : JobTaskStatus -> JobTaskStatus) (id : Z) (w : Jobs) : Jobs :=
  set_statuses (alter f id (statuses w)) (StatusChanged id :: notifying w) w.

(** A change that is not announced. *)
Definition write_quietly (f : JobTaskStatus -> JobTaskStatus) (id : Z) (w : Jobs) : Jobs :=
  set_statuses (alter f id (statuses w)) (notifying w) w.

(** [setProgress]: the callback moves to the progress object and the status
    points to it in one critical section. *)
Definition setProgress (progress : nat) (id : Z) (w : Jobs) : Jobs :=
  write (set_progress progress) id
    (set_progresses (alter (fun p => mkProgress (progress_state p) (Some id)) progress (progresses w)) (notifying w) w).

Definition progress_changes (progress : nat) (v : Value) (w : Jobs) : Jobs :=
  set_progresses (alter (fun p => mkProgress v (progress_on_change p)) progress (progresses w))
    (ProgressChanged progress :: notifying w) w.

Definition progressSnapshot (w : Jobs) (st : JobTaskStatus) : option Value :=
  p ← m_progress st; progress_state <$> progresses w !! p.

(** One step of [run]; [None] while it waits. *)
Definition publisher_step (clock : Clock) (event_clock : nat -> Z) (w : Jobs) : option Jobs :=
  match m_publisher w with
  | Waiting => if decide (m_dirty w = ∅) then None else Some (set_publisher Gathering (m_dirty w) w)
  | Gathering => Some (set_publisher (Looping (merge_sort Z.le (base.elements (m_dirty w)))) ∅ w)
  | Looping [] => Some (set_publisher Waiting (m_dirty w) w)
  | Looping (id :: ids) =>
      Some (set_publisher (if decide (id ∈ m_jobs w) then Reading id snapshot_start ids else Looping ids) (m_dirty w) w)
  | Reading id s ids =>
      if decide (reads_done s = snapshot_reads) then
        Some (set_publisher (match eventJson (members s) with
          | Some encoded => Publishing id s encoded ids
          | None => Looping ids
          end) (m_dirty w) w)
      else match statuses w !! id with
        | Some st => Some (set_publisher (Reading id (snapshot_read clock (progressSnapshot w st) st s) ids) (m_dirty w) w)
        | None => Some (set_publisher (Looping ids) (m_dirty w) w)
        end
  | Publishing id s encoded ids =>
      if decide (id ∈ m_jobs w) then
        Some (mkJobs (m_jobs w) (m_dirty w) (Looping ids) (statuses w) (progresses w) (notifying w)
          (publish job_type (to_string id) encoded true event_clock (events w)) (<[id := s]> (published w)))
      else Some (set_publisher (Looping ids) (m_dirty w) w)
  end.

(** ** Interleavings *)

Definition active (w : Jobs) (id : Z) : Prop := exists st, statuses w !! id = Some st /\ m_done st = false.

(** The calls of the rest of the server to the event hub. *)
Definition other_call (c : Call) : Prop :=
  match c with
  | Publishes type _ _ _ | Removes type _ _ => EventSpec.plain_type type /\ type <> job_type
  | _ => True
  end.

(** Who takes a step: the thread that queues a job, the pool that resumes it,
    its coroutine, a reader of its result, the cleanup; or the rest. *)
Inductive Label :=
| Queues (id : Z) | Resumes (id : Z) | Coroutine (id : Z) | Wants_cleanup (id : Z) | Cleans_up (id : Z) | Elsewhere.

(** Ids come from a counter, so none is used twice.  A job's coroutine sets
    its response and progress, fails and finishes while it runs; a progress
    object serves one job, and is not changed once that job has finished: the
    two that jobs write themselves are written by the coroutine, and
    [BackgroundJob] refuses changes from [finish] on. *)
Inductive step : Label -> Jobs -> Jobs -> Prop :=
| step_add w id continuous name loc : statuses w !! id = None -> 0 <= id ->
    step (Queues id) w (add (JobTaskStatus_make id continuous name loc) w)
| step_start w id now st : statuses w !! id = Some st -> m_done st = false -> m_start_time st = 0 ->
    step (Resumes id) w (write (set_start now) id w)
| step_response w id response : active w id -> step (Coroutine id) w (write (set_response response) id w)
| step_new_progress w progress v : progresses w !! progress = None ->
    step Elsewhere w (set_progresses (<[progress := mkProgress v None]> (progresses w)) (notifying w) w)
| step_progress w id progress p : active w id -> progresses w !! progress = Some p ->
    progress_on_change p = None \/ progress_on_change p = Some id -> step (Coroutine id) w (setProgress progress id w)
| step_progress_changes w progress p v : progresses w !! progress = Some p ->
    (forall id, progress_on_change p = Some id -> active w id) -> step Elsewhere w (progress_changes progress v w)
| step_fails w id what : active w id -> step (Coroutine id) w (write_quietly (unhandled_exception what) id w)
| step_done w id now : active w id -> step (Coroutine id) w (write (set_done now) id w)
| step_request_cleanup w id : step (Wants_cleanup id) w (write_quietly request_cleanup id w)
| step_notify w n rest : notifying w ≡ₚ n :: rest -> step Elsewhere w (notify n (set_statuses (statuses w) rest w))
| step_remove w id removal clock : eventJson (removal_payload id) = Some removal -> 0 <= id ->
    step (Cleans_up id) w (remove id removal clock w)
| step_publisher w w' clock event_clock : publisher_step clock event_clock w = Some w' -> step Elsewhere w w'
| step_other w c clock : other_call c -> step Elsewhere w (set_events (perform iterate c clock (events w)) w).

(** The event hub holds no job before the first one is added. *)
Definition no_jobs (e : World) : Prop := forall id, 0 <= id -> m_snapshots (hub e) !! job_key id = None.

Inductive reachable : Jobs -> Prop :=
| reachable_make e : no_jobs e -> reachable (Jobs_make e)
| reachable_step l w w' : reachable w -> step l w w' -> reachable w'.
End jobs.

(** ** What a reader can tell apart

    Two states of a job between which no read distinguishes: the error is not
    read before the job is done. *)
Section theorems.
Context {J : Json} {S : Simdjson} (writeString : Value -> string).
Context (iterate : gmap string ValidatedJson -> list (string * ValidatedJson)).

Notation step := (step writeString iterate).
Notation reachable := (reachable writeString iterate).
Notation publisher_step := (publisher_step writeString).
Notation eventJson := (eventJson writeString).

Definition JobView : Type := option Value * JobTaskStatus.

Record same_view (v v' : JobView) : Prop := {
  same_progress : fst v = fst v';
  same_id : m_id (snd v) = m_id (snd v');
  same_continuous : m_continuous (snd v) = m_continuous (snd v');
  same_name : m_function_name (snd v) = m_function_name (snd v');
  same_location : m_location (snd v) = m_location (snd v');
  same_start : m_start_time (snd v) = m_start_time (snd v');
  same_done : m_done (snd v) = m_done (snd v');
  same_response : m_response (snd v) = m_response (snd v');
  same_outcome : m_done (snd v) = true ->
    m_failed (snd v) = m_failed (snd v') /\ m_error_message (snd v) = m_error_message (snd v')
    /\ m_completion_time (snd v) = m_completion_time (snd v')
}.

#[local] Instance same_view_equivalence : Equivalence same_view.
Proof.
  split.
  - by intros v.
  - intros v v' [H1 H2 H3 H4 H5 H6 H7 H8 H9]. split; try done. intros Hd. rewrite <- H7 in Hd. by destruct (H9 Hd) as (-> & -> & ->).
  - intros v1 v2 v3 [H1 H2 H3 H4 H5 H6 H7 H8 H9] [K1 K2 K3 K4 K5 K6 K7 K8 K9]. split; try (by etrans).
    intros Hd. destruct (H9 Hd) as (-> & -> & ->). apply K9. by rewrite <- H7.
Qed.

Definition view (w : Jobs) (id : Z) : option JobView :=
  (fun st => (progressSnapshot w st, st)) <$> statuses w !! id.

(** [s] is what reading the job's status as it is now would have given. *)
Definition current (w : Jobs) (id : Z) (s : Snapshot) : Prop :=
  exists v clock, view w id = Some v /\ s = reads clock (fst v) (snd v) (reads_done s).

Lemma reads_done_reads clock progress st n : (n <= snapshot_reads)%nat -> reads_done (reads clock progress st n) = n.
Proof.
  unfold snapshot_reads. induction n as [|n IH]; intros Hn; [done|]. cbn [reads]. unfold snapshot_read. rewrite IH by lia.
  destruct n as [|[|[|[|[|n]]]]]; try done. lia.
Qed.

Lemma seen_done_reads clock progress st n : (n <= snapshot_reads)%nat ->
  seen_done (reads clock progress st n) = if (2 <=? n)%nat then m_done st else false.
Proof.
  unfold snapshot_reads. intros Hn. destruct n as [|[|[|[|[|[|n]]]]]]; [done|done|done|done|done|done|lia].
Qed.

Lemma reads_ext clock clock' v v' n :
  (n <= snapshot_reads)%nat -> same_view v v' -> (forall i, (i < n)%nat -> clock i = clock' i) ->
  reads clock (fst v) (snd v) n = reads clock' (fst v') (snd v') n.
Proof.
  intros Hn Hv. induction n as [|n IH]; intros Hc; [done|]. cbn [reads].
  pose proof (reads_done_reads clock' (fst v') (snd v') n ltac:(lia)) as Hr.
  pose proof (seen_done_reads clock' (fst v') (snd v') n ltac:(lia)) as Hs.
  rewrite IH, (Hc n) by (lia || (intros; apply Hc; lia)).
  destruct Hv as [Hp Hi Hk Hname Hl Hst Hd Hrs Ho]. unfold snapshot_read. rewrite Hr.
  destruct n as [|[|[|[|[|n]]]]]; unfold put_fixed, put_outcome; rewrite ?Hp, ?Hi, ?Hk, ?Hname, ?Hl, ?Hst, ?Hd, ?Hrs; try done.
  cbn [Nat.leb] in Hs. rewrite Hs. destruct (m_done (snd v')) eqn:Hd'; [|done]. by destruct (Ho Hd) as (-> & -> & ->).
Qed.

(** The relation of two worlds on one job. *)
Definition looks_same (w w' : Jobs) (id : Z) : Prop := option_Forall2 same_view (view w id) (view w' id).

Lemma current_looks w w' id s : looks_same w w' id -> (reads_done s <= snapshot_reads)%nat -> current w id s -> current w' id s.
Proof.
  intros Hl Hn (v & clock & Hv & Hs). unfold looks_same in Hl. rewrite Hv in Hl. inversion Hl as [? v' Hvv Heq|]; subst.
  exists v', clock. split; [done|]. rewrite Hs at 1. by apply reads_ext.
Qed.

Lemma current_start w id : is_Some (statuses w !! id) -> current w id snapshot_start.
Proof. intros [st Hst]. exists (progressSnapshot w st, st), (fun _ => mkClock 0 0). unfold view. by rewrite Hst. Qed.

(** One more read of a status that has not changed meanwhile. *)
Lemma reads_more clocks clock progress st st' n : (n < snapshot_reads)%nat -> same_view (progress, st) (progress, st') ->
  exists clocks', snapshot_read clock progress st' (reads clocks progress st n) = reads clocks' progress st (Datatypes.S n).
Proof.
  intros Hn Hv. set (clocks' := fun i => if (i =? n)%nat then clock else clocks i). exists clocks'.
  etrans; [|symmetry; apply (reads_ext clocks' clocks' (progress, st) (progress, st') (Datatypes.S n)); [lia|done|done]].
  cbn [reads fst snd].
  replace (clocks' n) with clock by (unfold clocks'; by rewrite Nat.eqb_refl). f_equal.
  apply (reads_ext clocks clocks' (_, st) (_, st')); [lia|done|]. intros i Hi. unfold clocks'. by destruct (Nat.eqb_spec i n); [lia|].
Qed.

Lemma current_read w id st s clock : statuses w !! id = Some st -> (reads_done s < snapshot_reads)%nat -> current w id s ->
  current w id (snapshot_read clock (progressSnapshot w st) st s).
Proof.
  intros Hst Hn (v & clocks & Hv & Hs). unfold view in Hv. rewrite Hst in Hv. injection Hv as <-. cbn [fst snd] in Hs.
  destruct (reads_more clocks clock (progressSnapshot w st) st st (reads_done s) Hn) as [clocks' Heq]; [done|].
  rewrite <- Hs in Heq. exists (progressSnapshot w st, st), clocks'. split; [unfold view; by rewrite Hst|]. cbn [fst snd].
  rewrite Heq, reads_done_reads; [done|lia].
Qed.

(** [s] is what reading the status as it is now would have given, but for a
    start time read before the job had started. *)
Definition agrees (w : Jobs) (id : Z) (s : Snapshot) : Prop :=
  exists v clock start, view w id = Some v /\ s = reads clock (fst v) (set_start start (snd v)) (reads_done s).

Lemma set_start_same st : set_start (m_start_time st) st = st.
Proof. by destruct st. Qed.

Lemma current_agrees w id s : current w id s -> agrees w id s.
Proof. intros (v & clock & Hv & Hs). exists v, clock, (m_start_time (snd v)). by rewrite set_start_same. Qed.

Lemma agrees_done w id s : agrees w id s -> (reads_done s <= snapshot_reads)%nat -> seen_done s = true ->
  exists st, statuses w !! id = Some st /\ m_done st = true.
Proof.
  intros (v & clock & start & Hv & Hs) Hn Hd. unfold view in Hv. apply fmap_Some in Hv as (st & Hst & ->). exists st. split; [done|].
  rewrite Hs, seen_done_reads in Hd by done. by destruct (2 <=? _)%nat.
Qed.

Lemma agrees_looks w w' id s : looks_same w w' id -> (reads_done s <= snapshot_reads)%nat -> agrees w id s -> agrees w' id s.
Proof.
  intros Hl Hn (v & clock & start & Hv & Hs). unfold looks_same in Hl. rewrite Hv in Hl. inversion Hl as [? v' Hvv Heq|]; subst.
  exists v', clock, start. split; [done|]. rewrite Hs at 1. apply (reads_ext clock clock (_, _) (_, _)); [done| |done].
  destruct Hvv as [H1 H2 H3 H4 H5 H6 H7 H8 H9]. by split.
Qed.

(** After the first read, the start time is not read again. *)
Lemma snapshot_read_start clock progress st start s : (1 <= reads_done s)%nat ->
  snapshot_read clock progress (set_start start st) s = snapshot_read clock progress st s.
Proof. unfold snapshot_read. destruct (reads_done s) as [|[|[|[|[|n]]]]]; intros; try done. lia. Qed.

Lemma agrees_read w id st s clock : statuses w !! id = Some st -> (1 <= reads_done s < snapshot_reads)%nat -> agrees w id s ->
  agrees w id (snapshot_read clock (progressSnapshot w st) st s).
Proof.
  intros Hst Hn (v & clocks & start & Hv & Hs). unfold view in Hv. rewrite Hst in Hv. injection Hv as <-. cbn [fst snd] in Hs.
  destruct (reads_more clocks clock (progressSnapshot w st) (set_start start st) (set_start start st) (reads_done s)) as [clocks' Heq];
    [lia|done|].
  rewrite <- Hs, snapshot_read_start in Heq by lia. exists (progressSnapshot w st, st), clocks', start.
  split; [unfold view; by rewrite Hst|]. cbn [fst snd]. rewrite Heq, reads_done_reads; [done|lia].
Qed.

(** What never changes once a job is queued. *)
Definition fixed (st : JobTaskStatus) : Z * bool * string * source_location * bool :=
  (m_id st, m_continuous st, m_function_name st, m_location st, m_on_change st).

(** The first read is of these and the start time only. *)
Lemma reads_first clock progress st progress' st' : fixed st' = fixed st ->
  reads clock progress st 1 = reads clock progress' (set_start (m_start_time st) st') 1.
Proof. unfold fixed. intros [= H1 H2 H3 H4 H5]. cbn. unfold put_fixed. cbn -[location_text set_optional]. congruence. Qed.

Lemma agrees_fixed w w' id st st' s : statuses w !! id = Some st -> statuses w' !! id = Some st' -> fixed st' = fixed st ->
  (reads_done s <= 1)%nat -> agrees w id s -> agrees w' id s.
Proof.
  intros Hst Hst' Hf Hn (v & clock & start & Hv & Hs). unfold view in Hv. rewrite Hst in Hv. injection Hv as <-.
  exists (progressSnapshot w' st', st'), clock, start. split; [unfold view; by rewrite Hst'|]. rewrite Hs at 1. cbn [fst snd].
  destruct (reads_done s) as [|[|]]; [done| |lia].
  rewrite (reads_first clock _ (set_start start st) (progressSnapshot w' st') (set_start start st')); [done|exact Hf].
Qed.

Lemma snapshot_read_done clock progress st s : (reads_done s < snapshot_reads)%nat ->
  reads_done (snapshot_read clock progress st s) = Datatypes.S (reads_done s).
Proof. unfold snapshot_reads, snapshot_read. destruct (reads_done s) as [|[|[|[|[|n]]]]]; intros; try done. lia. Qed.

(** ** The invariant *)

Definition batch (p : Publisher) : list Z :=
  match p with Waiting | Gathering => [] | Looping ids | Reading _ _ ids | Publishing _ _ _ ids => ids end.

(** The snapshot that is being made, and of which job. *)
Definition flight (p : Publisher) : option (Z * Snapshot) :=
  match p with Reading id s _ | Publishing id s _ _ => Some (id, s) | _ => None end.

Definition flight_of (p : Publisher) (id : Z) : option Snapshot :=
  match flight p with Some (other, s) => if decide (other = id) then Some s else None | None => None end.

(** The publisher will look at the job again. *)
Definition urgent (w : Jobs) (id : Z) : Prop :=
  id ∈ m_dirty w \/ id ∈ batch (m_publisher w) \/ StatusChanged id ∈ notifying w
  \/ exists p progress, progresses w !! p = Some progress /\ progress_on_change progress = Some id
       /\ ProgressChanged p ∈ notifying w.

(** What was published last is the status as it is now, or the status cannot
    be encoded. *)
Definition settled (w : Jobs) (id : Z) : Prop :=
  exists s, reads_done s = snapshot_reads /\ current w id s /\ (eventJson (members s) = None \/ published w !! id = Some s).

Definition covered (w : Jobs) (id : Z) : Prop :=
  urgent w id \/ match flight_of (m_publisher w) id with Some s => current w id s | None => settled w id end.

(** A snapshot that has seen the job done is final, but for its start time. *)
Record final (w : Jobs) (id : Z) (s : Snapshot) : Prop := {
  final_reads : (reads_done s <= snapshot_reads)%nat;
  final_agrees : (reads_done s <= 1)%nat \/ seen_done s = true -> agrees w id s
}.

Record inv (w : Jobs) : Prop := {
  inv_status : forall id, id ∈ m_jobs w -> exists st, statuses w !! id = Some st /\ m_on_change st = true;
  inv_progress : forall id st p, statuses w !! id = Some st -> m_progress st = Some p ->
    exists progress, progresses w !! p = Some progress /\ progress_on_change progress = Some id;
  inv_ids : forall id st, statuses w !! id = Some st -> 0 <= id /\ m_id st = id;
  inv_covered : forall id, id ∈ m_jobs w -> covered w id;
  inv_flight : forall id s, flight (m_publisher w) = Some (id, s) -> final w id s /\ is_Some (statuses w !! id);
  inv_publishing : forall id s encoded ids, m_publisher w = Publishing id s encoded ids ->
    reads_done s = snapshot_reads /\ eventJson (members s) = Some encoded;
  inv_published : forall id s, published w !! id = Some s ->
    id ∈ m_jobs w /\ final w id s /\ reads_done s = snapshot_reads /\ is_Some (eventJson (members s));
  inv_stored : forall id, 0 <= id ->
    m_snapshots (hub (events w)) !! job_key id = (published w !! id) ≫= (fun s => eventJson (members s))
}.

(** *** Changes by the jobs *)

(** What a change by a job may do, for every job it is seen by: nothing to
    tell apart, or a change of a job that runs, to be looked at again. *)
Record job_change (w w' : Jobs) : Prop := {
  change_jobs : m_jobs w' = m_jobs w;
  change_publisher : m_publisher w' = m_publisher w;
  change_events : events w' = events w;
  change_published : published w' = published w;
  change_dirty : m_dirty w' = m_dirty w;
  change_notifying : notifying w ⊆ notifying w';
  change_callbacks : forall p progress id, progresses w !! p = Some progress -> progress_on_change progress = Some id ->
    exists progress', progresses w' !! p = Some progress' /\ progress_on_change progress' = Some id;
  change_status : forall id st, statuses w !! id = Some st -> exists st', statuses w' !! id = Some st' /\ fixed st' = fixed st;
  change_ids : forall id st', statuses w' !! id = Some st' -> exists st, statuses w !! id = Some st /\ fixed st' = fixed st;
  change_progress : forall id st' p, statuses w' !! id = Some st' -> m_progress st' = Some p ->
    exists progress, progresses w' !! p = Some progress /\ progress_on_change progress = Some id;
  change_views : forall id, looks_same w w' id \/ active w id /\ urgent w' id
}.

Lemma change_urgent w w' id : job_change w w' -> urgent w id -> urgent w' id.
Proof.
  intros Hc. unfold urgent. rewrite (change_dirty _ _ Hc), (change_publisher _ _ Hc).
  intros [?|[?|[?|(p & progress & Hp & Hid & Hn)]]]; [by left|by right; left| |].
  - right. right. left. by apply (change_notifying _ _ Hc).
  - right. right. right. destruct (change_callbacks _ _ Hc p progress id Hp Hid) as (progress' & Hp' & Hid').
    exists p, progress'. split; [done|]. split; [done|]. by apply (change_notifying _ _ Hc).
Qed.

Lemma change_final w w' id s : job_change w w' -> final w id s -> final w' id s.
Proof.
  intros Hc [Hn Hf]. split; [done|]. intros Hd. destruct (change_views _ _ Hc id) as [Hl|[(st & Hst & Ha) _]].
  - by eapply agrees_looks; [|done|apply Hf].
  - destruct Hd as [Hd|Hd].
    + destruct (change_status _ _ Hc id st Hst) as (st' & Hst' & Hfix). eapply agrees_fixed; [exact Hst|exact Hst'|done|done|]. apply Hf. by left.
    + destruct (agrees_done w id s (Hf (or_intror Hd)) Hn Hd) as (st' & Hst' & Hd'). congruence.
Qed.

Lemma flight_of_done w id s : inv w -> flight_of (m_publisher w) id = Some s -> (reads_done s <= snapshot_reads)%nat.
Proof.
  intros Hi. unfold flight_of. destruct (flight (m_publisher w)) as [[other s']|] eqn:Hf; [|done]. case_decide; [|done].
  intros [= <-]. by destruct (inv_flight w Hi _ _ Hf) as [[] _].
Qed.

Lemma change_covered w w' id : inv w -> job_change w w' -> covered w id -> covered w' id.
Proof.
  intros Hi Hc Hcov. destruct (change_views _ _ Hc id) as [Hl|[_ Hu]]; [|by left].
  destruct Hcov as [Hu|Hcov]; [left; by eapply change_urgent|]. right. rewrite (change_publisher _ _ Hc).
  destruct (flight_of (m_publisher w) id) as [s|] eqn:Hf.
  - eapply current_looks; [done| |done]. by eapply flight_of_done.
  - destruct Hcov as (s & Hs & Hcur & He). exists s. rewrite (change_published _ _ Hc). split; [done|]. split; [|done].
    eapply current_looks; [done| |done]. by rewrite Hs.
Qed.

Lemma inv_change w w' : inv w -> job_change w w' -> inv w'.
Proof.
  intros Hi Hc. split.
  - intros id. rewrite (change_jobs _ _ Hc). intros Hj. destruct (inv_status w Hi id Hj) as (st & Hst & Ho).
    destruct (change_status _ _ Hc id st Hst) as (st' & ? & [=]). exists st'. by split; [|congruence].
  - apply (change_progress _ _ Hc).
  - intros id st' Hst'. destruct (change_ids _ _ Hc id st' Hst') as (st & Hst & [= Heq]). destruct (inv_ids w Hi id st Hst). by rewrite Heq.
  - intros id. rewrite (change_jobs _ _ Hc). intros Hj. by apply (change_covered w); [..|apply inv_covered].
  - intros id s. rewrite (change_publisher _ _ Hc). intros Hf. destruct (inv_flight w Hi id s Hf) as [? [st Hst]].
    split; [by eapply change_final|]. destruct (change_status _ _ Hc id st Hst) as (st' & ? & ?). by exists st'.
  - rewrite (change_publisher _ _ Hc). apply (inv_publishing w Hi).
  - intros id s. rewrite (change_published _ _ Hc), (change_jobs _ _ Hc). intros Hp.
    destruct (inv_published w Hi id s Hp) as (? & ? & ? & ?). split; [done|]. split; [by eapply change_final|done].
  - rewrite (change_events _ _ Hc), (change_published _ _ Hc). apply (inv_stored w Hi).
Qed.

Lemma looks_same_refl w id : looks_same w w id.
Proof. unfold looks_same. destruct (view w id); by constructor. Qed.

(** The progress a status shows when only callbacks move. *)
Definition same_states (w w' : Jobs) : Prop := forall p, progress_state <$> progresses w' !! p = progress_state <$> progresses w !! p.

Lemma same_states_snapshot w w' st : same_states w w' -> progressSnapshot w' st = progressSnapshot w st.
Proof. intros Hs. unfold progressSnapshot. destruct (m_progress st) as [p|]; [apply Hs|done]. Qed.

Lemma looks_alter w w' f id0 id : statuses w' = alter f id0 (statuses w) -> same_states w w' ->
  (id = id0 -> forall st, statuses w !! id0 = Some st -> same_view (progressSnapshot w st, st) (progressSnapshot w' (f st), f st)) ->
  looks_same w w' id.
Proof.
  intros Hst Hs Hf. unfold looks_same, view. rewrite Hst. destruct (decide (id = id0)) as [->|Hne].
  - rewrite lookup_alter_eq. destruct (statuses w !! id0) as [st|]; cbn; constructor. by apply Hf.
  - rewrite lookup_alter_ne by done. destruct (statuses w !! id) as [st|]; cbn; constructor. by rewrite (same_states_snapshot w w').
Qed.

(** A field update of one status: its id, callback and progress stay. *)
Definition field_update (f : JobTaskStatus -> JobTaskStatus) : Prop :=
  forall st, fixed (f st) = fixed st /\ m_progress (f st) = m_progress st.

Lemma alter_some {A} (f : A -> A) id0 id (m : gmap Z A) x : m !! id = Some x ->
  exists x', alter f id0 m !! id = Some x' /\ (x' = x \/ id = id0 /\ x' = f x).
Proof.
  intros Hm. destruct (decide (id = id0)) as [->|Hne]; [rewrite lookup_alter_eq, Hm|rewrite lookup_alter_ne by done]; eauto.
Qed.

Lemma alter_some_inv {A} (f : A -> A) id0 id (m : gmap Z A) x' : alter f id0 m !! id = Some x' ->
  exists x, m !! id = Some x /\ (x' = x \/ id = id0 /\ x' = f x).
Proof.
  intros Hm. destruct (decide (id = id0)) as [->|Hne].
  - rewrite lookup_alter_eq in Hm. apply fmap_Some in Hm as (x & ? & ?). eauto.
  - rewrite lookup_alter_ne in Hm by done. eauto.
Qed.

Lemma field_change w f id0 notifying' : inv w -> field_update f -> notifying w ⊆ notifying' ->
  (active w id0 /\ StatusChanged id0 ∈ notifying'
   \/ forall st, statuses w !! id0 = Some st -> same_view (progressSnapshot w st, st) (progressSnapshot w st, f st)) ->
  job_change w (set_statuses (alter f id0 (statuses w)) notifying' w).
Proof.
  intros Hi Hf Hn Hv. split; try done; cbn [statuses progresses set_statuses].
  - intros p progress id Hp Hid. by exists progress.
  - intros id st Hst. destruct (alter_some f id0 id _ st Hst) as (st' & ? & [->|[_ ->]]); eexists; split; [done..|apply Hf].
  - intros id st' Hst. destruct (alter_some_inv f id0 id _ st' Hst) as (st & ? & [->|[_ ->]]); eexists; split; [done..|apply Hf].
  - intros id st' p Hst Hp. destruct (alter_some_inv f id0 id _ st' Hst) as (st & Hst' & [->|[_ ->]]); eapply (inv_progress w Hi); try done.
    by rewrite <- (proj2 (Hf st)).
  - intros id. destruct Hv as [[Ha Hu]|Hv].
    + destruct (decide (id = id0)) as [->|Hne]; [right; by split; [|right; right; left]|].
      left. by eapply looks_alter.
    + left. eapply looks_alter; [done..|]. intros -> st Hst. specialize (Hv st Hst). unfold progressSnapshot in *.
      cbn [progresses set_statuses]. by rewrite (proj2 (Hf st)).
Qed.

Lemma setProgress_change w id0 p0 progress : inv w -> active w id0 -> progresses w !! p0 = Some progress ->
  progress_on_change progress = None \/ progress_on_change progress = Some id0 -> job_change w (setProgress p0 id0 w).
Proof.
  intros Hi Ha Hp0 Hc.
  assert (Hm : forall p pr, progresses w !! p = Some pr -> exists pr', progresses (setProgress p0 id0 w) !! p = Some pr'
    /\ progress_state pr' = progress_state pr /\ forall id, progress_on_change pr = Some id -> progress_on_change pr' = Some id).
  { intros p pr Hp. cbn [setProgress write set_statuses set_progresses progresses]. destruct (decide (p = p0)) as [->|Hne].
    - rewrite lookup_alter_eq, Hp. eexists. split; [done|]. split; [done|]. intros id Hid. cbn.
      assert (pr = progress) as -> by congruence. destruct Hc; congruence.
    - rewrite lookup_alter_ne by done. by exists pr. }
  split; try done.
  - cbn. set_solver.
  - intros p pr id Hp Hid. destruct (Hm p pr Hp) as (pr' & ? & _ & ?). eauto.
  - intros id st Hst. destruct (alter_some (set_progress p0) id0 id _ st Hst) as (st' & ? & [->|[_ ->]]); eexists; by split; [|].
  - intros id st' Hst. destruct (alter_some_inv (set_progress p0) id0 id _ st' Hst) as (st & ? & [->|[_ ->]]); eexists; by split; [|].
  - intros id st' p Hst Hp. destruct (alter_some_inv (set_progress p0) id0 id _ st' Hst) as (st & Hst' & [->|[-> ->]]).
    + destruct (inv_progress w Hi id st p Hst' Hp) as (pr & Hpr & Hid). destruct (Hm p pr Hpr) as (pr' & ? & _ & ?). eauto.
    + injection Hp as <-. cbn [setProgress write set_statuses set_progresses progresses]. rewrite lookup_alter_eq, Hp0. eauto.
  - intros id. destruct (decide (id = id0)) as [->|Hne]; [right; split; [done|]; right; right; left; constructor|]. left.
    eapply looks_alter; [done| |done]. intros p. cbn [setProgress write set_statuses set_progresses progresses].
    destruct (decide (p = p0)) as [->|Hp]; [rewrite lookup_alter_eq|by rewrite lookup_alter_ne].
    by destruct (progresses w !! p0).
Qed.

Lemma progress_changes_change w p0 progress v : inv w -> progresses w !! p0 = Some progress ->
  (forall id, progress_on_change progress = Some id -> active w id) -> job_change w (progress_changes p0 v w).
Proof.
  intros Hi Hp0 Ha.
  assert (Hm : forall p pr, progresses w !! p = Some pr -> exists pr', progresses (progress_changes p0 v w) !! p = Some pr'
    /\ progress_on_change pr' = progress_on_change pr).
  { intros p pr Hp. cbn [progress_changes set_progresses progresses]. destruct (decide (p = p0)) as [->|Hne].
    - rewrite lookup_alter_eq, Hp. eexists. by split.
    - rewrite lookup_alter_ne by done. by exists pr. }
  split; try done.
  - cbn. set_solver.
  - intros p pr id Hp Hid. destruct (Hm p pr Hp) as (pr' & ? & ?). exists pr'. by split; [|congruence].
  - intros id st Hst. by exists st.
  - intros id st Hst. by exists st.
  - intros id st p Hst Hp. destruct (inv_progress w Hi id st p Hst Hp) as (pr & Hpr & Hid).
    destruct (Hm p pr Hpr) as (pr' & ? & ?). exists pr'. by split; [|congruence].
  - intros id. destruct (decide (progress_on_change progress = Some id)) as [Hid|Hid].
    + right. split; [by apply Ha|]. right. right. right. destruct (Hm p0 progress Hp0) as (pr' & ? & ?).
      exists p0, pr'. split; [done|]. split; [congruence|]. constructor.
    + left. unfold looks_same, view. cbn [progress_changes set_progresses statuses].
      destruct (statuses w !! id) as [st|] eqn:Hst; cbn; constructor.
      enough (progressSnapshot (progress_changes p0 v w) st = progressSnapshot w st) as -> by done.
      unfold progressSnapshot. destruct (m_progress st) as [p|] eqn:Hp; [|done]. cbn.
      rewrite lookup_alter_ne; [done|]. intros <-. destruct (inv_progress w Hi id st p0 Hst Hp) as (pr & ? & ?). congruence.
Qed.

Lemma new_progress_change w p0 v : inv w -> progresses w !! p0 = None ->
  job_change w (set_progresses (<[p0 := mkProgress v None]> (progresses w)) (notifying w) w).
Proof.
  intros Hi Hp0.
  assert (Hm : forall p pr, progresses w !! p = Some pr -> <[p0 := mkProgress v None]> (progresses w) !! p = Some pr).
  { intros p pr Hp. rewrite lookup_insert_ne; [done|]. by intros ->; congruence. }
  split; try done; cbn [set_progresses statuses progresses].
  - intros p pr id Hp Hid. exists pr. by split; [apply Hm|].
  - intros id st Hst. by exists st.
  - intros id st Hst. by exists st.
  - intros id st p Hst Hp. destruct (inv_progress w Hi id st p Hst Hp) as (pr & Hpr & Hid). exists pr. by split; [apply Hm|].
  - intros id. left. unfold looks_same, view. cbn [set_progresses statuses].
    destruct (statuses w !! id) as [st|] eqn:Hst; cbn; constructor.
    enough (progressSnapshot (set_progresses (<[p0 := mkProgress v None]> (progresses w)) (notifying w) w) st = progressSnapshot w st)
      as -> by done.
    unfold progressSnapshot. destruct (m_progress st) as [p|] eqn:Hp; [|done]. cbn.
    destruct (inv_progress w Hi id st p Hst Hp) as (pr & Hpr & _). by rewrite Hpr, (Hm p pr).
Qed.

(** *** Changes by the hub and its publisher *)

Definition same_jobs (w w' : Jobs) : Prop := statuses w' = statuses w /\ progresses w' = progresses w.

Lemma same_jobs_view w w' id : same_jobs w w' -> view w' id = view w id.
Proof. intros [H1 H2]. unfold view, progressSnapshot. by rewrite H1, H2. Qed.

Lemma same_jobs_current w w' id s : same_jobs w w' -> current w id s -> current w' id s.
Proof. intros Hs (v & clock & Hv & He). exists v, clock. by rewrite (same_jobs_view w w'). Qed.

Lemma same_jobs_final w w' id s : same_jobs w w' -> final w id s -> final w' id s.
Proof.
  intros Hs [Hn Hf]. split; [done|]. intros Hd. destruct (Hf Hd) as (v & clock & start & Hv & He). exists v, clock, start.
  by rewrite (same_jobs_view w w').
Qed.

Lemma same_jobs_settled w w' id : same_jobs w w' -> published w' !! id = published w !! id -> settled w id -> settled w' id.
Proof. intros Hs Hp (s & ? & ? & ?). exists s. rewrite Hp. split; [done|]. by split; [eapply same_jobs_current|]. Qed.

Lemma inv_notify w n rest : inv w -> notifying w ≡ₚ n :: rest -> inv (notify n (set_statuses (statuses w) rest w)).
Proof.
  intros Hi Hn.
  assert (Hcases : notify n (set_statuses (statuses w) rest w) = set_statuses (statuses w) rest w \/
    exists id, notify n (set_statuses (statuses w) rest w) = changed id (set_statuses (statuses w) rest w)).
  { destruct n as [id|p]; cbn; [destruct (statuses w !! id) as [st|]; [destruct (m_on_change st)|]|
      destruct (progresses w !! p) as [pr|]; [destruct (progress_on_change pr)|]]; eauto. }
  set (w' := notify n (set_statuses (statuses w) rest w)) in *.
  assert (Hw : same_jobs w w' /\ m_jobs w' = m_jobs w /\ m_publisher w' = m_publisher w /\ notifying w' = rest /\ events w' = events w
    /\ published w' = published w /\ m_dirty w ⊆ m_dirty w').
  { unfold changed in Hcases. destruct Hcases as [->|[id ->]]; [by repeat split|]. case_decide; [|by repeat split].
    repeat split. cbn. set_solver. }
  destruct Hw as (Hs & Hj & Hpub & Hrest & He & Hp & Hd). destruct Hs as [Hs1 Hs2].
  split; rewrite ?Hs1, ?Hs2, ?Hj, ?Hpub, ?He, ?Hp; try apply Hi.
  - intros id Hid. unfold covered. rewrite Hpub. destruct (inv_covered w Hi id Hid) as [Hu|Hc].
    + left. unfold urgent in *. rewrite Hpub, Hs2, Hrest.
      destruct Hu as [Hu|[Hu|[Hu|(p & pr & Hpr & Hon & Hu)]]]; [left; by apply Hd|right; by left| |].
      * rewrite Hn in Hu. apply elem_of_cons in Hu as [Hu|Hu]; [|by right; right; left]. left. unfold w'. subst n.
        destruct (inv_status w Hi id Hid) as (st & Hst & Hon). cbn. rewrite Hst, Hon. unfold changed. cbn.
        rewrite decide_True by done. cbn. set_solver.
      * rewrite Hn in Hu. apply elem_of_cons in Hu as [Hu|Hu]; [|right; right; right; by exists p, pr]. left. unfold w'. subst n.
        cbn. rewrite Hpr, Hon. unfold changed. cbn. rewrite decide_True by done. cbn. set_solver.
    + right. destruct (flight_of (m_publisher w) id); [by eapply same_jobs_current|]. eapply same_jobs_settled; [done|by rewrite Hp|done].
  - intros id s Hf. destruct (inv_flight w Hi id s Hf). by split; [eapply same_jobs_final|].
  - intros id s Hps. destruct (inv_published w Hi id s Hps) as (? & ? & ? & ?). split; [done|]. split; [by eapply same_jobs_final|done].
Qed.

(** *** The event hub *)

Lemma plain_job_type : EventSpec.plain_type job_type.
Proof. reflexivity. Qed.

Lemma to_string_inj x y : 0 <= x -> 0 <= y -> to_string x = to_string y -> x = y.
Proof.
  intros Hx Hy H. pose proof (read_digits_to_string x EmptyString Hx eq_refl) as Hr.
  pose proof (read_digits_to_string y EmptyString Hy eq_refl) as Hr'. rewrite sapp_nil in *. congruence.
Qed.

Lemma job_key_inj x y : 0 <= x -> 0 <= y -> job_key x = job_key y -> x = y.
Proof. intros Hx Hy H. apply snapshotKey_inj in H; [|apply plain_job_type..]. injection H as H. by apply to_string_inj. Qed.

Lemma job_key_other type ent id : EventSpec.plain_type type -> type <> job_type -> snapshotKey type ent <> job_key id.
Proof. intros Hp Hne H. apply snapshotKey_inj in H; [|done|apply plain_job_type]. congruence. Qed.

Lemma other_stored c clock e id : other_call c ->
  m_snapshots (hub (perform iterate c clock e)) !! job_key id = m_snapshots (hub e) !! job_key id.
Proof.
  intros Hc. destruct c as [i tys init inc|type ent j retain|type ent removal| | |i|i]; cbn [perform].
  - destruct (heap e !! i); [done|]. unfold subscribeEvents. by destruct (m_shutdown (hub e)).
  - destruct Hc as [Hp Hne]. cbn. destruct retain; [rewrite lookup_insert_ne|rewrite lookup_delete_ne]; try done; by apply job_key_other.
  - destruct Hc as [Hp Hne]. cbn. rewrite lookup_delete_ne; [done|]. by apply job_key_other.
  - done.
  - unfold shutdown. by destruct (m_shutdown (hub e)).
  - unfold close. destruct (subscriptions e !! i) as [sub|], (heap e !! i) as [s|]; try done. by destruct (m_hub sub).
  - destruct (may_run i e); [|done]. unfold poll. destruct (subscriptions e !! i) as [sub|], (heap e !! i) as [s|]; try done.
    destruct (m_hub sub); [|done]. cbn. destruct (pending s); [|done]. by destruct (closed s).
Qed.

Lemma inv_add w id continuous name loc : inv w -> statuses w !! id = None -> 0 <= id ->
  inv (add (JobTaskStatus_make id continuous name loc) w).
Proof.
  intros Hi Hid H0. set (w' := add _ w).
  assert (Hst : forall other st, statuses w !! other = Some st -> statuses w' !! other = Some st).
  { intros other st H. cbn. rewrite lookup_insert_ne; [done|]. congruence. }
  assert (Hold : forall other st, statuses w' !! other = Some st -> other <> id -> statuses w !! other = Some st).
  { intros other st H Hne. cbn in H. by rewrite lookup_insert_ne in H by done. }
  assert (Hcur : forall other s, current w other s -> current w' other s).
  { intros other s (v & clock & Hv & Hs). exists v, clock. split; [|done]. unfold view in *.
    apply fmap_Some in Hv as (st & H & ->). by rewrite (Hst other st H). }
  assert (Hfin : forall other s, final w other s -> final w' other s).
  { intros other s [Hn Hf]. split; [done|]. intros Hd. destruct (Hf Hd) as (v & clock & start & Hv & Hs). exists v, clock, start.
    split; [|done]. unfold view in *. apply fmap_Some in Hv as (st & H & ->). by rewrite (Hst other st H). }
  split.
  - intros other Hj. destruct (decide (other = id)) as [->|Hne]; [cbn; rewrite lookup_insert_eq; by eexists|].
    destruct (inv_status w Hi other) as (st & ? & ?); [cbn in Hj; set_solver|]. exists st. by split; [apply Hst|].
  - intros other st p Ho Hp. destruct (decide (other = id)) as [->|Hne].
    + cbn in Ho. rewrite lookup_insert_eq in Ho. by injection Ho as <-.
    + eapply (inv_progress w Hi); [by apply Hold|done].
  - intros other st Ho. destruct (decide (other = id)) as [->|Hne]; [|apply (inv_ids w Hi); by apply Hold].
    cbn in Ho. rewrite lookup_insert_eq in Ho. by injection Ho as <-.
  - intros other Hj. unfold covered. destruct (decide (other = id)) as [->|Hne]; [left; left; cbn; set_solver|].
    destruct (inv_covered w Hi other) as [Hu|Hc]; [cbn in Hj; set_solver| |].
    + left. destruct Hu as [Hu|Hu]; [left; cbn; set_solver|by right].
    + right. change (m_publisher w') with (m_publisher w). destruct (flight_of (m_publisher w) other); [by apply Hcur|].
      destruct Hc as (s & ? & ? & ?). exists s. by split; [|split; [apply Hcur|]].
  - intros other s Hf. destruct (inv_flight w Hi other s Hf) as [? [st Ho]]. split; [by apply Hfin|]. exists st. by apply Hst.
  - apply (inv_publishing w Hi).
  - intros other s Hp. destruct (inv_published w Hi other s Hp) as (? & ? & ? & ?).
    split; [cbn; set_solver|]. by split; [apply Hfin|].
  - apply (inv_stored w Hi).
Qed.

Lemma inv_remove w id removal clock : inv w -> 0 <= id -> inv (remove id removal clock w).
Proof.
  intros Hi Hid. set (w' := remove id removal clock w). assert (Hs : same_jobs w w') by done.
  assert (Hp : forall other, other <> id -> published w' !! other = published w !! other).
  { intros other Hne. by apply lookup_delete_ne. }
  assert (Hgone : published w' !! id = None) by apply lookup_delete_eq.
  split; try apply Hi.
  - intros other Hj. apply (inv_status w Hi). cbn in Hj. set_solver.
  - intros other Hj. assert (other <> id /\ other ∈ m_jobs w) as [Hne Hj'] by (cbn in Hj; set_solver).
    unfold covered. change (m_publisher w') with (m_publisher w). destruct (inv_covered w Hi other Hj') as [Hu|Hc].
    + left. destruct Hu as [Hu|Hu]; [left; cbn; set_solver|by right].
    + right. destruct (flight_of (m_publisher w) other); [done|]. eapply same_jobs_settled; [done|by apply Hp|done].
  - intros other s Hf. destruct (inv_flight w Hi other s Hf). by split; [apply (same_jobs_final w)|].
  - intros other s Hps. destruct (decide (other = id)) as [->|Hne]; [congruence|].
    rewrite Hp in Hps by done. destruct (inv_published w Hi other s Hps) as (? & ? & ? & ?).
    split; [cbn; set_solver|]. by split; [apply (same_jobs_final w)|].
  - intros other Ho. destruct (decide (other = id)) as [->|Hne]; cbn [remove w' events published].
    + rewrite lookup_delete_eq. cbn. apply lookup_delete_eq.
    + rewrite lookup_delete_ne by done. cbn [HttpEvents.remove set_heap set_hub hub m_snapshots].
      rewrite lookup_delete_ne; [by apply (inv_stored w Hi)|]. intros H. by apply job_key_inj in H.
Qed.

(** Moves of the publisher that publish nothing. *)
Lemma inv_move w p dirty : inv w ->
  (forall id, id ∈ m_jobs w -> covered w id -> covered (set_publisher p dirty w) id) ->
  (forall id s, flight p = Some (id, s) -> final w id s /\ is_Some (statuses w !! id)) ->
  (forall id s encoded ids, p = Publishing id s encoded ids -> reads_done s = snapshot_reads /\ eventJson (members s) = Some encoded) ->
  inv (set_publisher p dirty w).
Proof.
  intros Hi Hc Hf He. assert (Hs : same_jobs w (set_publisher p dirty w)) by done. split; try apply Hi; try done.
  - intros id Hj. apply Hc; [done|]. by apply (inv_covered w Hi).
  - intros id s Hp. destruct (Hf id s Hp). by split; [apply (same_jobs_final w)|].
  - intros id s Hp. destruct (inv_published w Hi id s Hp) as (? & ? & ? & ?).
    split; [done|]. by split; [apply (same_jobs_final w)|].
Qed.

Lemma urgent_move w p dirty id : (id ∈ m_dirty w -> id ∈ dirty \/ id ∈ batch p) -> (id ∈ batch (m_publisher w) -> id ∈ batch p) ->
  urgent w id -> urgent (set_publisher p dirty w) id.
Proof.
  intros Hd Hb [Hu|[Hu|Hu]].
  - destruct (Hd Hu); [by left|by right; left].
  - right. left. by apply Hb.
  - by right; right.
Qed.

(** The same flight: only what waits has to be carried over. *)
Lemma covered_move w p dirty id : (urgent w id -> urgent (set_publisher p dirty w) id) ->
  (flight_of p id = flight_of (m_publisher w) id) -> covered w id -> covered (set_publisher p dirty w) id.
Proof.
  intros Hu Hf [Hc|Hc]; [left; by apply Hu|]. right. change (m_publisher (set_publisher p dirty w)) with p. rewrite Hf.
  by destruct (flight_of (m_publisher w) id).
Qed.

Lemma flight_of_none p id : flight p = None -> flight_of p id = None.
Proof. unfold flight_of. by intros ->. Qed.

Lemma flight_of_other p id other s : flight p = Some (other, s) -> id <> other -> flight_of p id = None.
Proof. unfold flight_of. intros -> H. by rewrite decide_False. Qed.

Lemma flight_of_same p id s : flight p = Some (id, s) -> flight_of p id = Some s.
Proof. unfold flight_of. intros ->. by rewrite decide_True. Qed.

Lemma final_start w id : is_Some (statuses w !! id) -> final w id snapshot_start.
Proof. intros H. split; [unfold snapshot_reads; cbn; lia|]. intros _. by apply current_agrees, current_start. Qed.

Lemma final_read w id st s clock : statuses w !! id = Some st -> (reads_done s < snapshot_reads)%nat ->
  final w id s -> final w id (snapshot_read clock (progressSnapshot w st) st s).
Proof.
  intros Hst Hn [_ Hf]. split; rewrite snapshot_read_done by done; [lia|]. intros Hd.
  destruct (reads_done s) as [|n] eqn:Hr.
  - destruct Hf as (v & clocks & start & Hv & Hs); [by left; lia|]. rewrite Hr in Hs. cbn [reads] in Hs. subst s.
    by apply current_agrees, current_read; [..|by apply current_start; eexists].
  - apply agrees_read; [done|rewrite Hr; lia|]. apply Hf. destruct n as [|n]; [by left; lia|]. right.
    destruct Hd as [Hd|Hd]; [lia|]. revert Hd. unfold snapshot_read. rewrite Hr. by destruct n as [|[|[|n]]].
Qed.

(** The publisher drops the job it had at hand, or takes another. *)
Lemma covered_drop w p dirty id other : other <> id -> (flight (m_publisher w) = None \/ exists s, flight (m_publisher w) = Some (id, s)) ->
  (flight p = None \/ exists s, flight p = Some (id, s)) ->
  (urgent w other -> urgent (set_publisher p dirty w) other) -> covered w other -> covered (set_publisher p dirty w) other.
Proof.
  intros Hne Hf Hf' Hu. apply covered_move; [done|].
  destruct Hf as [Hf|[s Hf]], Hf' as [Hf'|[s' Hf']]; rewrite ?(flight_of_none _ _ Hf), ?(flight_of_none _ _ Hf'),
    ?(flight_of_other _ _ _ _ Hf Hne), ?(flight_of_other _ _ _ _ Hf' Hne); done.
Qed.

Lemma inv_loop w id ids : inv w -> m_publisher w = Looping (id :: ids) ->
  inv (set_publisher (if decide (id ∈ m_jobs w) then Reading id snapshot_start ids else Looping ids) (m_dirty w) w).
Proof.
  intros Hi Hp.
  assert (Hu : forall p other, batch p = ids -> other <> id -> urgent w other -> urgent (set_publisher p (m_dirty w) w) other).
  { intros p other Hb Hne. apply urgent_move; [by left|]. rewrite Hb, Hp. cbn. set_solver. }
  case_decide as Hid; apply inv_move; try done.
  - intros other Hj Hc. destruct (decide (other = id)) as [->|Hne].
    + right. unfold flight_of. cbn. rewrite decide_True by done. destruct (inv_status w Hi id Hid) as (st & Hst & _).
      apply (same_jobs_current w); [done|]. by apply current_start; exists st.
    + apply (covered_drop w _ _ id); [done|rewrite Hp; by left|right; by eexists| |done]. by apply Hu.
  - intros other s [= <- <-]. destruct (inv_status w Hi id Hid) as (st & Hst & _). split; [|by exists st]. by apply final_start; exists st.
  - intros other Hj Hc. assert (other <> id) as Hne by congruence.
    apply (covered_drop w _ _ id); [done|rewrite Hp; by left|by left| |done]. by apply Hu.
Qed.

Lemma inv_reading w id s ids clock st : inv w -> m_publisher w = Reading id s ids -> reads_done s <> snapshot_reads ->
  statuses w !! id = Some st ->
  inv (set_publisher (Reading id (snapshot_read clock (progressSnapshot w st) st s) ids) (m_dirty w) w).
Proof.
  intros Hi Hp Hn Hst. destruct (inv_flight w Hi id s) as [Hfin _]; [by rewrite Hp|].
  assert (Hlt : (reads_done s < snapshot_reads)%nat) by (pose proof (final_reads _ _ _ Hfin); lia).
  assert (Hu : forall other, urgent w other -> urgent (set_publisher (Reading id (snapshot_read clock (progressSnapshot w st) st s) ids) (m_dirty w) w) other).
  { intros other. apply urgent_move; [by left|]. by rewrite Hp. }
  apply inv_move; [done| | |done].
  - intros other Hj Hc. destruct (decide (other = id)) as [->|Hne].
    + destruct Hc as [Hc|Hc]; [left; by apply Hu|]. right. unfold flight_of in *. rewrite Hp in Hc. cbn in Hc |- *.
      rewrite decide_True in Hc |- * by done. apply (same_jobs_current w); [done|]. by apply current_read.
    + apply (covered_drop w _ _ id); [done|rewrite Hp; right; by eexists|right; by eexists|by apply Hu|done].
  - intros other s' [= <- <-]. split; [|by exists st]. by apply final_read.
Qed.

Lemma inv_encode w id s ids : inv w -> m_publisher w = Reading id s ids -> reads_done s = snapshot_reads ->
  inv (set_publisher (match eventJson (members s) with Some encoded => Publishing id s encoded ids | None => Looping ids end) (m_dirty w) w).
Proof.
  intros Hi Hp Hn. destruct (inv_flight w Hi id s) as [Hfin Hst]; [by rewrite Hp|].
  assert (Hu : forall p other, batch p = ids -> urgent w other -> urgent (set_publisher p (m_dirty w) w) other).
  { intros p other Hb. apply urgent_move; [by left|]. by rewrite Hp, Hb. }
  destruct (eventJson (members s)) as [encoded|] eqn:He; apply inv_move; try done.
  - intros other Hj. apply covered_move; [by apply Hu|]. by rewrite Hp.
  - by intros other s' [= <- <-].
  - by intros other s' encoded' ids' [= <- <- <- <-].
  - intros other Hj Hc. destruct (decide (other = id)) as [->|Hne].
    + destruct Hc as [Hc|Hc]; [left; by apply Hu|]. right. unfold flight_of in *. rewrite Hp in Hc. cbn in Hc |- *.
      rewrite decide_True in Hc by done. exists s. split; [done|]. split; [by apply (same_jobs_current w)|by left].
    + apply (covered_drop w _ _ id); [done|rewrite Hp; right; by eexists|by left|by apply Hu|done].
Qed.

Lemma inv_publish w id s encoded ids clock : inv w -> m_publisher w = Publishing id s encoded ids -> id ∈ m_jobs w ->
  inv (mkJobs (m_jobs w) (m_dirty w) (Looping ids) (statuses w) (progresses w) (notifying w)
    (publish job_type (to_string id) encoded true clock (events w)) (<[id := s]> (published w))).
Proof.
  intros Hi Hp Hid. set (w' := mkJobs _ _ _ _ _ _ _ _). assert (Hs : same_jobs w w') by done.
  destruct (inv_flight w Hi id s) as [Hfin [st Hst]]; [by rewrite Hp|]. destruct (inv_publishing w Hi id s encoded ids Hp) as [Hn He].
  destruct (inv_ids w Hi id st Hst) as [H0 _].
  split; try apply Hi; try done.
  - intros other Hj. unfold covered. rewrite (flight_of_none (m_publisher w')) by done.
    destruct (inv_covered w Hi other Hj) as [Hc|Hc].
    + left. destruct Hc as [Hc|[Hc|Hc]]; [by left|right; left; by rewrite Hp in Hc|by right; right].
    + right. unfold flight_of in Hc. rewrite Hp in Hc. cbn [flight] in Hc. case_decide as Heq.
      * subst other. exists s. split; [done|]. split; [by apply (same_jobs_current w)|]. right. by apply lookup_insert_eq.
      * apply (same_jobs_settled w); [done| |done]. by apply lookup_insert_ne.
  - intros other s' Hps. cbn in Hps. apply lookup_insert_Some in Hps as [[<- <-]|[Hne Hps]].
    + split; [done|]. split; [by apply (same_jobs_final w)|]. split; [done|]. by exists encoded.
    + destruct (inv_published w Hi other s' Hps) as (? & ? & ? & ?). split; [done|]. by split; [apply (same_jobs_final w)|].
  - intros other Ho. cbn [w' events published publish set_heap set_hub hub m_snapshots].
    destruct (decide (other = id)) as [->|Hne].
    + rewrite !lookup_insert_eq. cbn. by rewrite He.
    + rewrite !lookup_insert_ne; [by apply (inv_stored w Hi)|done|]. intros H. by apply job_key_inj in H.
Qed.

Lemma inv_publisher w w' clock event_clock : inv w -> publisher_step clock event_clock w = Some w' -> inv w'.
Proof.
  intros Hi. unfold JobEvents.publisher_step. destruct (m_publisher w) as [| |[|id ids]|id s ids|id s encoded ids] eqn:Hp.
  - case_decide; [done|]. intros [= <-]. apply inv_move; try done. intros other _. apply covered_move; [|by rewrite Hp].
    apply urgent_move; [by left|by rewrite Hp].
  - intros [= <-]. apply inv_move; try done. intros other _. apply covered_move; [|by rewrite Hp].
    apply urgent_move; [|rewrite Hp; by intros ?%elem_of_nil]. intros Ho. right. cbn. by rewrite merge_sort_Permutation, elem_of_elements.
  - intros [= <-]. apply inv_move; try done. intros other _. apply covered_move; [|by rewrite Hp].
    apply urgent_move; [by left|by rewrite Hp].
  - intros [= <-]. by apply inv_loop.
  - destruct (inv_flight w Hi id s) as [_ [st Hst]]; [by rewrite Hp|]. case_decide; [intros [= <-]; by apply inv_encode|].
    rewrite Hst. intros [= <-]. by apply inv_reading.
  - case_decide as Hid; intros [= <-]; [by apply (inv_publish w id s encoded ids)|]. apply inv_move; try done. intros other Hj.
    apply (covered_drop w _ _ id); [congruence|rewrite Hp; right; by eexists|by left|].
    apply urgent_move; [by left|by rewrite Hp].
Qed.

(** *** Every step *)

Lemma jobs_inv_start e : no_jobs e -> inv (Jobs_make e).
Proof. intros He. by split. Qed.

Lemma notifying_more w n : notifying w ⊆ n :: notifying w.
Proof. set_solver. Qed.

Lemma job_inv_step l w w' : inv w -> step l w w' -> inv w'.
Proof.
  intros Hi Hstep. destruct Hstep.
  - by apply inv_add.
  - apply (inv_change w); [done|]. apply field_change; [done|done|apply notifying_more|]. left. split; [by exists st|constructor].
  - apply (inv_change w); [done|]. apply field_change; [done|done|apply notifying_more|]. left. by split; [|constructor].
  - apply (inv_change w); [done|]. by apply new_progress_change.
  - apply (inv_change w); [done|]. by eapply setProgress_change.
  - apply (inv_change w); [done|]. by eapply progress_changes_change.
  - apply (inv_change w); [done|]. apply field_change; [done|done|done|]. right. intros st Hst. split; try done. cbn.
    destruct H as (st' & Hst' & Hd). intros. congruence.
  - apply (inv_change w); [done|]. apply field_change; [done|done|apply notifying_more|]. left. by split; [|constructor].
  - apply (inv_change w); [done|]. apply field_change; [done|done|done|]. by right.
  - by apply inv_notify.
  - by apply inv_remove.
  - by eapply inv_publisher.
  - split; try apply Hi.
    + intros id s Hf. destruct (inv_flight w Hi id s Hf). by split; [apply (same_jobs_final w)|].
    + intros id s Hp. destruct (inv_published w Hi id s Hp) as (? & ? & ? & ?). split; [done|]. by split; [apply (same_jobs_final w)|].
    + intros other Ho. cbn [set_events events published]. rewrite other_stored by done. by apply (inv_stored w Hi).
Qed.

Lemma jobs_reachable_inv w : reachable w -> inv w.
Proof. induction 1; [by apply jobs_inv_start|by eapply job_inv_step]. Qed.

(** ** Settling

    The steps that only carry out what has been announced. *)
Inductive internal : Jobs -> Jobs -> Prop :=
| internal_notify w n rest : notifying w ≡ₚ n :: rest -> internal w (notify n (set_statuses (statuses w) rest w))
| internal_publisher w w' clock event_clock : publisher_step clock event_clock w = Some w' -> internal w w'.

Definition quiet (w : Jobs) : Prop := m_dirty w = ∅ /\ notifying w = [] /\ m_publisher w = Waiting.

Lemma internal_step w w' : internal w w' -> step Elsewhere w w'.
Proof. destruct 1; by econstructor. Qed.

(** What is left to do: 20 for a notification, 16 for a dirty job, 9 for a job
    the publisher has taken. *)
Definition publisher_work (w : Jobs) : nat :=
  match m_publisher w with
  | Waiting => if decide (m_dirty w = ∅) then 0 else 3
  | Gathering => if decide (m_dirty w = ∅) then 5 else 2
  | Looping ids => 4 + 9 * length ids
  | Reading _ s ids => 4 + 9 * length ids + (7 - reads_done s)
  | Publishing _ _ _ ids => 4 + 9 * length ids + 1
  end.

Definition work (w : Jobs) : nat := 20 * length (notifying w) + 16 * size (m_dirty w) + publisher_work w.

Lemma changed_work id w : (work (changed id w) <= work w + 19)%nat.
Proof.
  unfold changed. case_decide; [|lia]. unfold work, publisher_work. cbn [set_publisher m_publisher m_dirty notifying].
  assert (Hs : (size ({[id]} ∪ m_dirty w) <= 1 + size (m_dirty w))%nat).
  { rewrite size_union_alt, size_singleton. pose proof (subseteq_size (m_dirty w ∖ {[id]}) (m_dirty w)) as Hd. set_solver by lia. }
  destruct (m_publisher w); repeat case_decide; try lia; set_solver.
Qed.

Lemma notify_work n w : (work (notify n w) <= work w + 19)%nat.
Proof.
  destruct n as [id|p]; cbn [notify].
  - destruct (statuses w !! id) as [st|]; [|lia]. destruct (m_on_change st); [apply changed_work|lia].
  - destruct (progresses w !! p) as [pr|]; [|lia]. destruct (progress_on_change pr); [apply changed_work|lia].
Qed.

Lemma internal_work w w' : inv w -> internal w w' -> (work w' < work w)%nat.
Proof.
  intros Hi H. revert Hi. destruct H as [w0 n rest Hn|w0 w1 clock event_clock Hp]; intros Hi.
  - pose proof (notify_work n (set_statuses (statuses w0) rest w0)) as Hw. apply Permutation_length in Hn.
    generalize dependent (work (notify n (set_statuses (statuses w0) rest w0))). intros done_work Hw.
    unfold work, publisher_work in *. cbn [set_statuses notifying m_dirty m_publisher length] in *. lia.
  - unfold JobEvents.publisher_step in Hp. unfold work, publisher_work.
    destruct (m_publisher w0) as [| |[|id ids]|id s ids|id s encoded ids] eqn:Hpub.
    + case_decide as Hd; [done|]. injection Hp as <-. cbn. rewrite decide_False by done. lia.
    + injection Hp as <-. cbn. rewrite merge_sort_Permutation, size_empty. change (length (base.elements (m_dirty w0))) with (size (m_dirty w0)).
      case_decide as Hd; [rewrite Hd, size_empty; lia|]. assert (size (m_dirty w0) <> 0%nat) by (by rewrite size_non_empty_iff, leibniz_equiv_iff). lia.
    + injection Hp as <-. cbn. case_decide; lia.
    + injection Hp as <-. cbn. case_decide; cbn; lia.
    + destruct (inv_flight w0 Hi id s) as [[Hn _] [st Hst]]; [by rewrite Hpub|]. unfold snapshot_reads in *. case_decide as Hr.
      * injection Hp as <-. cbn. destruct (eventJson _); cbn; lia.
      * rewrite Hst in Hp. injection Hp as <-. cbn. rewrite snapshot_read_done by (unfold snapshot_reads; lia). lia.
    + case_decide; injection Hp as <-; cbn; lia.
Qed.

Lemma internal_progress w : inv w -> quiet w \/ exists w', internal w w'.
Proof.
  intros Hi. destruct (notifying w) as [|n rest] eqn:Hn; [|right; eexists; apply (internal_notify w n rest); by rewrite Hn].
  assert (Hp : m_publisher w = Waiting /\ m_dirty w = ∅ \/ is_Some (publisher_step (mkClock 0 0) (fun _ => 0) w)).
  { unfold JobEvents.publisher_step. destruct (m_publisher w) as [| |[|id ids]|id s ids|id s encoded ids]; try (right; by eexists).
    - case_decide; [by left|right; by eexists].
    - right. case_decide; [by eexists|]. destruct (statuses w !! id); by eexists.
    - right. case_decide; by eexists. }
  destruct Hp as [[Hp Hd]|[w' Hp]]; [left; by repeat split|]. right. exists w'. by eapply internal_publisher.
Qed.

Lemma settles_by n w : (work w < n)%nat -> inv w -> Acc (flip internal) w /\ exists w', rtc internal w w' /\ quiet w'.
Proof.
  revert w. induction n as [|n IH]; intros w Hn Hi; [lia|].
  assert (Hnext : forall w', internal w w' -> Acc (flip internal) w' /\ exists w'', rtc internal w' w'' /\ quiet w'').
  { intros w' Hw. apply IH; [pose proof (internal_work w w' Hi Hw); lia|]. by eapply job_inv_step, internal_step. }
  split; [constructor; intros w' Hw; by apply Hnext|].
  destruct (internal_progress w Hi) as [Hq|[w' Hw]]; [by exists w|].
  destruct (Hnext w' Hw) as [_ (w'' & Hr & Hq)]. exists w''. split; [by eapply rtc_l|done].
Qed.

(** ** What the members of a snapshot say *)

Section members.
Context {L : JsonLaws J}.

Lemma set_optional_object key x v : isObject v = true -> isObject (set_optional key x v) = true.
Proof. destruct x; [apply isObject_set|done]. Qed.

Lemma member_optional_ne key x v k : isObject v = true -> key <> k -> member (set_optional key x v) k = member v k.
Proof. intros Hv Hk. destruct x; [|done]. cbn. by rewrite member_set, decide_False. Qed.

Lemma isMember_optional_ne key x v k : isObject v = true -> key <> k -> isMember (set_optional key x v) k = isMember v k.
Proof. intros Hv Hk. destruct x; [|done]. cbn. by rewrite isMember_set, bool_decide_eq_false_2. Qed.

Lemma member_if_ne (b : bool) key x v k : isObject v = true -> key <> k -> member (if b then set_member key x v else v) k = member v k.
Proof. intros Hv Hk. destruct b; [|done]. by rewrite member_set, decide_False. Qed.

#[local] Hint Resolve isObject_empty isObject_set set_optional_object : core.

Definition status_text (st : JobTaskStatus) : string :=
  if negb (m_done st) then "running" else if m_failed st then "failed" else "completed".

(** What readers of a status rely on. *)
Record tells (v : Value) (st : JobTaskStatus) : Prop := {
  tells_id : member v "job_id" = Ok (of_uint (m_id st));
  tells_completed : member v "completed" = Ok (of_bool (m_done st));
  tells_status : member v "status" = Ok (of_string (status_text st));
  tells_error : isMember v "error" = m_done st && m_failed st;
  tells_message : m_done st && m_failed st = true -> member v "error" = Ok (of_string (m_error_message st))
}.

Ltac tell := repeat (done || lazymatch goal with
  | |- isObject (set_optional _ _ _) = true => apply set_optional_object
  | |- isObject (set_member _ _ _) = true => apply isObject_set
  | |- isObject empty_object = true => apply isObject_empty
  | |- context [member (set_optional ?k ?x ?v) ?k'] => rewrite (member_optional_ne k x v k')
  | |- context [isMember (set_optional ?k ?x ?v) ?k'] => rewrite (isMember_optional_ne k x v k')
  | |- context [member (set_member ?k ?x ?v) ?k'] => rewrite (member_set v k x k'); [cbn [decide]|]
  | |- context [isMember (set_member ?k ?x ?v) ?k'] => rewrite (isMember_set v k x k')
  | |- context [isMember empty_object ?k] => rewrite isMember_empty
  end).

Lemma put_fixed_members clock st : let v := put_fixed clock st empty_object in
  isObject v = true /\ member v "job_id" = Ok (of_uint (m_id st)) /\ isMember v "error" = false.
Proof. unfold put_fixed. split; [tell|]. split; tell. Qed.

Lemma put_outcome_members clock (d : bool) st v : isObject v = true -> isMember v "error" = false ->
  let v' := put_outcome clock d st v in
  isObject v' = true /\ member v' "job_id" = member v "job_id" /\ member v' "completed" = member v "completed"
  /\ member v' "status" = Ok (of_string (if negb d then "running" else if m_failed st then "failed" else "completed"))
  /\ isMember v' "error" = d && m_failed st
  /\ (d && m_failed st = true -> member v' "error" = Ok (of_string (m_error_message st))).
Proof.
  intros Hv He. unfold put_outcome. destruct d, (m_failed st); cbn [negb andb]; repeat split; intros; tell.
Qed.

Lemma snapshot_tells clock progress st : tells (snapshot clock progress st) st.
Proof.
  change (snapshot clock progress st) with (set_optional "response" (m_response st) (set_optional "progress" progress
    (put_outcome (clock 2%nat) (m_done st) st (set_member "completed" (of_bool (m_done st)) (put_fixed (clock 0%nat) st empty_object))))).
  destruct (put_fixed_members (clock 0%nat) st) as (Hv & Hid & He). set (v := put_fixed _ _ _) in *.
  set (w := set_member "completed" (of_bool (m_done st)) v).
  assert (Hw : isObject w = true) by (by apply isObject_set).
  assert (Hwe : isMember w "error" = false) by (unfold w; by rewrite isMember_set, He).
  assert (Hwi : member w "job_id" = member v "job_id") by (unfold w; by rewrite member_set).
  assert (Hwc : member w "completed" = Ok (of_bool (m_done st))) by (unfold w; by rewrite member_set).
  destruct (put_outcome_members (clock 2%nat) (m_done st) st w Hw Hwe) as (Hv' & Hid' & Hc' & Hs' & He' & Hm').
  set (v' := put_outcome _ _ _ _) in *.
  split; intros; tell; [by rewrite Hid', Hwi|by rewrite Hc'|by apply Hm'].
Qed.

(** A snapshot keeps what the load of [m_done] gave it. *)
Definition told (s : Snapshot) : Prop :=
  isObject (members s) = true /\ ((2 <= reads_done s)%nat -> member (members s) "completed" = Ok (of_bool (seen_done s))).

Lemma told_read clock progress st s : told s -> told (snapshot_read clock progress st s).
Proof.
  intros [Hv Hc]. unfold snapshot_read. destruct (reads_done s) as [|[|[|[|[|n]]]]] eqn:Hr; split; cbn [members reads_done seen_done]; try done.
  - unfold put_fixed. tell.
  - intros. lia.
  - tell.
  - intros _. tell.
  - unfold put_outcome. destruct (seen_done s), (m_failed st); tell.
  - intros _. rewrite <- Hc by lia. unfold put_outcome. destruct (seen_done s), (m_failed st); tell.
  - tell.
  - intros _. rewrite <- Hc by lia. tell.
  - tell.
  - intros _. rewrite <- Hc by lia. tell.
  - rewrite Hr. intros _. apply Hc. lia.
Qed.

Definition all_told (w : Jobs) : Prop :=
  (forall id s, flight (m_publisher w) = Some (id, s) -> told s) /\ (forall id s, published w !! id = Some s -> told s).

Lemma notify_hub n w : m_publisher (notify n w) = m_publisher w /\ published (notify n w) = published w.
Proof.
  destruct n as [id|p]; cbn [notify].
  - destruct (statuses w !! id) as [st|]; [|done]. destruct (m_on_change st); [|done]. unfold changed. by case_decide.
  - destruct (progresses w !! p) as [pr|]; [|done]. destruct (progress_on_change pr); [|done]. unfold changed. by case_decide.
Qed.

Lemma told_publisher w w' clock event_clock : all_told w -> publisher_step clock event_clock w = Some w' -> all_told w'.
Proof.
  intros [Hf Hp]. unfold JobEvents.publisher_step. destruct (m_publisher w) as [| |[|id ids]|id s ids|id s encoded ids] eqn:Hpub.
  - case_decide; [done|]. by intros [= <-].
  - by intros [= <-].
  - by intros [= <-].
  - intros [= <-]. split; [|done]. intros other s. cbn. case_decide; [|done]. intros [= <- <-]. split; [apply isObject_empty|cbn; lia].
  - specialize (Hf id s eq_refl). case_decide.
    + intros [= <-]. split; [|done]. intros other s'. cbn. destruct (eventJson _); [|done]. by intros [= <- <-].
    + destruct (statuses w !! id) as [st|]; intros [= <-]; [|done]. split; [|done]. intros other s' [= <- <-]. by apply told_read.
  - specialize (Hf id s eq_refl). case_decide; intros [= <-]; [|done]. split; [done|].
    intros other s'. cbn [published]. rewrite lookup_insert_Some. intros [[<- <-]|[_ H']]; [done|by eapply Hp].
Qed.

Lemma reachable_told w : reachable w -> all_told w.
Proof.
  induction 1 as [e He|l w w' Hr [Hf Hp] Hstep]; [by split|]. destruct Hstep; try by split.
  - destruct (notify_hub n (set_statuses (statuses w) rest w)) as [H1 H2]. split; rewrite ?H1, ?H2; done.
  - split; [done|]. intros other s. cbn [remove published]. rewrite lookup_delete_Some. intros [_ Hs]. by eapply Hp.
  - by eapply told_publisher.
Qed.
End members.

(** ** The theorems *)

(** C18: however the jobs' changes, their notifications and the publisher's
    reads interleave, and whatever else the server publishes, once nothing
    waits to be announced the event hub retains for each registered job the
    encoding of its status as it is now, so no change is lost although changes
    are coalesced and statuses are read while they change; a job that was
    removed has no retained event, even if it was being read at the time. *)
Theorem job_events_converge w : reachable w -> quiet w ->
  (forall id, id ∈ m_jobs w -> exists st clock, statuses w !! id = Some st /\
    let v := snapshot clock (progressSnapshot w st) st in
    is_Some (eventJson v) -> m_snapshots (hub (events w)) !! job_key id = eventJson v)
  /\ (forall id, 0 <= id -> id ∉ m_jobs w -> m_snapshots (hub (events w)) !! job_key id = None).
Proof.
  intros Hr (Hd & Hn & Hp). pose proof (jobs_reachable_inv w Hr) as Hi. split; intros id.
  - intros Hj. destruct (inv_covered w Hi id Hj) as [Hu|Hc].
    { unfold urgent in Hu. rewrite Hd, Hn, Hp in Hu. cbn in Hu. set_solver. }
    rewrite flight_of_none in Hc by by rewrite Hp. destruct Hc as (s & Hs & (v & clock & Hv & Heq) & Hpub).
    unfold view in Hv. apply fmap_Some in Hv as (st & Hst & ->). exists st, clock. split; [done|].
    rewrite Hs in Heq. cbn [fst snd] in Heq. unfold snapshot. rewrite <- Heq. intros [j Hj'].
    destruct (inv_ids w Hi id st Hst) as [H0 _]. rewrite (inv_stored w Hi) by done.
    destruct Hpub as [Hpub|Hpub]; [congruence|]. by rewrite Hpub.
  - intros H0 Hj. rewrite (inv_stored w Hi) by done. destruct (published w !! id) as [s|] eqn:Hps; [|done].
    by destruct (inv_published w Hi id s Hps).
Qed.

(** An event that says its job has completed is the last word, although
    the status is read piece by piece while other threads write it: every
    member but the start time is what it will stay, the status is [failed] and
    carries the error exactly when the job failed, and [completed] otherwise. *)
Theorem completed_events_are_final `{!JsonLaws J} w id j : reachable w -> 0 <= id ->
  m_snapshots (hub (events w)) !! job_key id = Some j ->
  exists v, eventJson v = Some j /\ (member v "completed" = Ok (of_bool true) ->
    exists st clock start, statuses w !! id = Some st /\ m_done st = true
      /\ v = snapshot clock (progressSnapshot w st) (set_start start st)
      /\ member v "status" = Ok (of_string (if m_failed st then "failed" else "completed"))
      /\ isMember v "error" = m_failed st
      /\ (m_failed st = true -> member v "error" = Ok (of_string (m_error_message st)))).
Proof.
  intros Hr H0 Hj. pose proof (jobs_reachable_inv w Hr) as Hi. rewrite (inv_stored w Hi) in Hj by done.
  destruct (published w !! id) as [s|] eqn:Hps; [|done]. destruct (inv_published w Hi id s Hps) as (_ & [Hn Hf] & Hs & _).
  exists (members s). split; [done|]. intros Hc. destruct (seen_done s) eqn:Hd.
  - destruct (agrees_done w id s (Hf (or_intror eq_refl)) Hn Hd) as (st & Hst & Hdone).
    destruct (Hf (or_intror eq_refl)) as (v & clock & start & Hv & Heq). unfold view in Hv. rewrite Hst in Hv. injection Hv as <-.
    rewrite Hs in Heq. cbn [fst snd] in Heq. assert (Hm : members s = snapshot clock (progressSnapshot w st) (set_start start st)).
    { unfold snapshot. by rewrite Heq. }
    exists st, clock, start. rewrite Hm. destruct (snapshot_tells clock (progressSnapshot w st) (set_start start st)) as [_ _ T3 T4 T5].
    unfold status_text in T3. cbn [set_start m_done m_failed m_error_message] in *. rewrite Hdone in *. by repeat split.
  - destruct (proj2 (reachable_told w Hr) id s Hps) as [_ Ht]. rewrite Hs, Hd, Hc in Ht. specialize (Ht ltac:(unfold snapshot_reads; lia)).
    injection Ht as Ht. pose proof (asBool_of true) as H1. rewrite Ht, asBool_of in H1. done.
Qed.

(** Carrying out what has been announced always comes to an end: from any
    state there is no infinite sequence of notifications and publisher steps,
    and some finite one reaches a state where nothing waits. *)
Theorem job_events_settle w : reachable w -> Acc (flip internal) w /\ exists w', rtc internal w w' /\ quiet w'.
Proof. intros Hr. apply (settles_by (Datatypes.S (work w))); [lia|by apply jobs_reachable_inv]. Qed.
End theorems.

(** ** Witnesses

    One job that starts, fails and finishes while the publisher reads it. *)
Module Example_jobs.
#[local] Existing Instance Example_json.document.
#[local] Instance simdjson : Simdjson := fun _ => None.

(** A writer that tells the values of the example apart. *)
Definition write_value (v : @Value Example_json.document) : string :=
  match v with GenNode _ l => to_string (Z.of_nat (length l)) | _ => EmptyString end.

Definition location : source_location := mkLocation "jobs.cpp" 10 2.

Inductive Move := Publisher_moves (n : nat) | Notifies | Starts | Fails | Finishes.

Definition publisher_move (w : Jobs) : Jobs := default w (publisher_step write_value (mkClock 5 7) (fun _ => 0) w).

Definition move (w : Jobs) (m : Move) : Jobs :=
  match m with
  | Publisher_moves n => Nat.iter n publisher_move w
  | Notifies => match notifying w with n :: rest => notify n (set_statuses (statuses w) rest w) | [] => w end
  | Starts => write (set_start 3) 1 w
  | Fails => write_quietly (unhandled_exception (Some "disk full")) 1 w
  | Finishes => write (set_done 4) 1 w
  end.

(** The moves of the job are steps while it runs. *)
Definition allowed (w : Jobs) (m : Move) : bool :=
  match m, statuses w !! 1 with
  | Starts, Some st => negb (m_done st) && (m_start_time st =? 0)
  | (Fails | Finishes), Some st => negb (m_done st)
  | (Starts | Fails | Finishes), None => false
  | _, _ => true
  end.

Definition added : Jobs := add (JobTaskStatus_make 1 false "scan" location) (Jobs_make World_make).

Fixpoint moves (w : Jobs) (ms : list Move) : option Jobs :=
  match ms with [] => Some w | m :: ms => if allowed w m then moves (move w m) ms else None end.

Lemma publisher_reachable n w : reachable write_value map_to_list w -> reachable write_value map_to_list (Nat.iter n publisher_move w).
Proof.
  intros Hw. induction n as [|n IH]; [done|]. cbn. unfold publisher_move at 1.
  destruct (publisher_step _ _ _ _) eqn:Hp; [|done]. eapply reachable_step; [exact IH|]. by eapply step_publisher.
Qed.

Lemma moves_reachable w ms w' : reachable write_value map_to_list w -> moves w ms = Some w' -> reachable write_value map_to_list w'.
Proof.
  revert w. induction ms as [|m ms IH]; intros w Hw; cbn [moves]; [by intros [= <-]|].
  destruct (allowed w m) eqn:Ha; [|done]. apply IH. destruct m; cbn [move]; [by apply publisher_reachable| | | |].
  - destruct (notifying w) as [|n rest] eqn:Hn; [done|]. eapply reachable_step; [exact Hw|]. apply step_notify. by rewrite Hn.
  - unfold allowed in Ha. destruct (statuses w !! 1) as [st|] eqn:Hst; [|done]. apply andb_true_iff in Ha as [Hd H0].
    eapply reachable_step; [exact Hw|]. eapply step_start; [exact Hst|by destruct (m_done st)|by apply Z.eqb_eq].
  - unfold allowed in Ha. destruct (statuses w !! 1) as [st|] eqn:Hst; [|done].
    eapply reachable_step; [exact Hw|]. apply step_fails. exists st. by destruct (m_done st).
  - unfold allowed in Ha. destruct (statuses w !! 1) as [st|] eqn:Hst; [|done].
    eapply reachable_step; [exact Hw|]. apply step_done. exists st. by destruct (m_done st).
Qed.

Lemma added_reachable : reachable write_value map_to_list added.
Proof. eapply reachable_step; [by apply (reachable_make _ _ World_make)|]. by apply step_add. Qed.

(** The job starts while its first event is being read, fails and finishes
    before that one is published, and is read again. *)
Definition schedule : list Move :=
  [Publisher_moves 4; Starts; Notifies; Publisher_moves 1; Fails; Finishes; Publisher_moves 6; Notifies; Publisher_moves 11].
Definition final_state : Jobs := default added (moves added schedule).

Lemma final_reachable : reachable write_value map_to_list final_state.
Proof.
  unfold final_state. destruct (moves added schedule) as [w|] eqn:Hm; [|apply added_reachable].
  by eapply moves_reachable, Hm; apply added_reachable.
Qed.
End Example_jobs.
Import Example_jobs.

Lemma job_events_converge_witness : exists st clock, statuses final_state !! 1 = Some st /\
  let v := snapshot (J := Example_json.document) clock (progressSnapshot final_state st) st in
  is_Some (eventJson (S := simdjson) write_value v) ->
  m_snapshots (hub (events final_state)) !! job_key 1 = eventJson (S := simdjson) write_value v.
Proof.
  apply (proj1 (job_events_converge (S := simdjson) write_value map_to_list final_state final_reachable
    (conj eq_refl (conj eq_refl eq_refl)))). vm_compute. reflexivity.
Defined.

Lemma completed_events_are_final_witness : exists v, eventJson (S := simdjson) write_value v = Some (mkJson "18") /\
  (member v "completed" = Ok (of_bool true) ->
  exists st clock start, statuses final_state !! 1 = Some st /\ m_done st = true
    /\ v = snapshot (J := Example_json.document) clock (progressSnapshot final_state st) (set_start start st)
    /\ member v "status" = Ok (of_string (if m_failed st then "failed" else "completed"))
    /\ isMember v "error" = m_failed st
    /\ (m_failed st = true -> member v "error" = Ok (of_string (m_error_message st)))).
Proof.
  pose proof Example_json.document_laws as laws.
  apply (completed_events_are_final (S := simdjson) write_value map_to_list final_state 1 (mkJson "18") final_reachable); [done|].
  vm_compute. reflexivity.
Defined.

Lemma job_events_settle_witness : Acc (flip (internal (S := simdjson) write_value)) added
  /\ exists w', rtc (internal (S := simdjson) write_value) added w' /\ quiet w'.
Proof. apply (job_events_settle (S := simdjson) write_value map_to_list added added_reachable). Defined.
