(* ===== verification/JobRuntime.v ===== *)
(** * The runtime that queues, runs and forgets background jobs

    [IDHANServer/src/jobs/JobContext.cpp], with the two status handlers of
    [httpapi/jobs.cpp], on top of the statuses and events of [JobEvents.v]: a
    queue that one runner thread moves into a pool, the map of known jobs, and
    a cleanup thread that forgets finished ones.

    The queue and the map share a mutex, which the cleanup holds for a whole
    pass; a pass is modelled job by job, since jobs go on changing their
    statuses meanwhile.  Coroutines are resumed by the pool once, and later by
    whatever they wait for, so their own steps are those of [JobEvents.v]. *)
From S2P Require Import Prelude Json StringView HttpEvents JobEvents.

(** One hour, in nanoseconds. *)
Definition job_retention_period : Z := 3600 * 1000000000.

Section runtime.
Context {J : Json} {S : Simdjson}.
Context (writeString : Value -> string).
Context (iterate : gmap string ValidatedJson -> list (string * ValidatedJson)).

(** ** State *)

(** Where the runner is: at the head of its loop, about to look into the queue
    because of a soft stop, inside [getNextJob], with a job to dispatch, or
    gone. *)
Inductive Runner := Checking | Checking_queue | Getting | Dispatching (id : Z) | Exited.

(** [m_contexts] is the map of jobs, [m_pool] the tasks the pool has not begun,
    [m_enqueuing] the threads inside [enqueue] between their two parts, and
    [m_cleaning] what is left of a pass that holds the mutex.  The rest is
    history: the ids pushed and popped in order, those resumed by the pool, and
    those whose completed status a client has read with cleanup. *)
Record JobRuntime := mkRuntime {
  world : Jobs;
  job_id_counter : Z;
  m_queue : list Z;
  m_contexts : gset Z;
  m_soft_stop : bool;
  m_hard_stop : bool;
  m_runner : Runner;
  m_pool : list Z;
  m_enqueuing : list Z;
  m_cleaning : option (list Z);
  pushed : list Z;
  popped : list Z;
  resumed : list Z;
  reported : gset Z
}.

Definition JobRuntime_make (e : World) : JobRuntime :=
  mkRuntime (Jobs_make e) 1 [] ∅ false false Checking [] [] None [] [] [] ∅.

Definition unlocked (r : JobRuntime) : bool := match m_cleaning r with None => true | Some _ => false end.

(** ** Operations *)

Definition set_world (w : Jobs) (r : JobRuntime) : JobRuntime :=
  mkRuntime w (job_id_counter r) (m_queue r) (m_contexts r) (m_soft_stop r) (m_hard_stop r) (m_runner r) (m_pool r)
    (m_enqueuing r) (m_cleaning r) (pushed r) (popped r) (resumed r) (reported r).

Definition set_runner (runner : Runner) (r : JobRuntime) : JobRuntime :=
  mkRuntime (world r) (job_id_counter r) (m_queue r) (m_contexts r) (m_soft_stop r) (m_hard_stop r) runner (m_pool r)
    (m_enqueuing r) (m_cleaning r) (pushed r) (popped r) (resumed r) (reported r).

(** [queueJob] up to [m_events->add]; the id is the counter's. *)
Definition queueJob (w : Jobs) (r : JobRuntime) : JobRuntime :=
  mkRuntime w (wrapu 64 (job_id_counter r + 1)) (m_queue r) (m_contexts r) (m_soft_stop r) (m_hard_stop r) (m_runner r) (m_pool r)
    (job_id_counter r :: m_enqueuing r) (m_cleaning r) (pushed r) (popped r) (resumed r) (reported r).

(** The critical section of [enqueue]. *)
Definition enqueue (id : Z) (enqueuing : list Z) (r : JobRuntime) : JobRuntime :=
  mkRuntime (world r) (job_id_counter r) (m_queue r ++ [id]) ({[id]} ∪ m_contexts r) (m_soft_stop r) (m_hard_stop r) (m_runner r)
    (m_pool r) enqueuing (m_cleaning r) (pushed r ++ [id]) (popped r) (resumed r) (reported r).

(** [getNextJob] once it has the mutex: [None] while it waits, else the job,
    if any. *)
Definition getNextJob (r : JobRuntime) : option (option Z * JobRuntime) :=
  match m_queue r with
  | [] => if m_hard_stop r || m_soft_stop r then Some (None, r) else None
  | id :: queue =>
      Some (Some id, mkRuntime (world r) (job_id_counter r) queue (m_contexts r) (m_soft_stop r) (m_hard_stop r) (m_runner r)
        (m_pool r) (m_enqueuing r) (m_cleaning r) (pushed r) (popped r ++ [id]) (resumed r) (reported r))
  end.

(** One step of [runner]. *)
Definition runner_step (r : JobRuntime) : option JobRuntime :=
  match m_runner r with
  | Checking =>
      Some (set_runner (if m_hard_stop r then Exited else if m_soft_stop r then Checking_queue else Getting) r)
  | Checking_queue =>
      if unlocked r then Some (set_runner (match m_queue r with [] => Exited | _ => Getting end) r) else None
  | Getting =>
      if unlocked r then
        '(job, r) ← getNextJob r;
        Some (set_runner (match job with Some id => Dispatching id | None => Checking end) r)
      else None
  | Dispatching id =>
      Some (mkRuntime (world r) (job_id_counter r) (m_queue r) (m_contexts r) (m_soft_stop r) (m_hard_stop r) Checking
        (m_pool r ++ [id]) (m_enqueuing r) (m_cleaning r) (pushed r) (popped r) (resumed r) (reported r))
  | Exited => None
  end.

(** A task of the pool: [JobContext::run] of a coroutine that has not begun
    stores the start time, notifies, and resumes it. *)
Definition run (id now : Z) (pool : list Z) (r : JobRuntime) : JobRuntime :=
  let w := match statuses (world r) !! id with
    | Some st => if m_start_time st =? 0 then write (set_start now) id (world r) else world r
    | None => world r
    end in
  mkRuntime w (job_id_counter r) (m_queue r) (m_contexts r) (m_soft_stop r) (m_hard_stop r) (m_runner r) pool (m_enqueuing r)
    (m_cleaning r) (pushed r) (popped r) (resumed r ++ [id]) (reported r).

(** The test of [cleanup] for one job of the map. *)
Definition forgettable (now : Z) (st : JobTaskStatus) : bool :=
  m_done st && (m_cleanup_requested st || (job_retention_period <=? now - m_completion_time st)).

Definition cleanup_job (id now : Z) (removal : ValidatedJson) (clock : nat -> Z) (rest : list Z) (r : JobRuntime) : JobRuntime :=
  let forget := match statuses (world r) !! id with Some st => forgettable now st | None => false end in
  mkRuntime (if forget then remove id removal clock (world r) else world r) (job_id_counter r) (m_queue r)
    (if forget then m_contexts r ∖ {[id]} else m_contexts r) (m_soft_stop r) (m_hard_stop r) (m_runner r) (m_pool r)
    (m_enqueuing r) (Some rest) (pushed r) (popped r) (resumed r) (reported r).

Definition set_cleaning (cleaning : option (list Z)) (r : JobRuntime) : JobRuntime :=
  mkRuntime (world r) (job_id_counter r) (m_queue r) (m_contexts r) (m_soft_stop r) (m_hard_stop r) (m_runner r) (m_pool r)
    (m_enqueuing r) cleaning (pushed r) (popped r) (resumed r) (reported r).

Definition requestStop (r : JobRuntime) : JobRuntime :=
  mkRuntime (world r) (job_id_counter r) (m_queue r) (m_contexts r) true (m_hard_stop r) (m_runner r) (m_pool r)
    (m_enqueuing r) (m_cleaning r) (pushed r) (popped r) (resumed r) (reported r).

Definition hard_stop (r : JobRuntime) : JobRuntime :=
  mkRuntime (world r) (job_id_counter r) (m_queue r) (m_contexts r) (m_soft_stop r) true (m_runner r) (m_pool r)
    (m_enqueuing r) (m_cleaning r) (pushed r) (popped r) (resumed r) (reported r).

(** *** The status handlers *)

Definition getJob (id : Z) (r : JobRuntime) : bool := bool_decide (id ∈ m_contexts r).

Definition missing_status (id : Z) : Value :=
  set_member "status" (of_string "not_found") (set_member "job_id" (of_uint id) empty_object).

(** [appendJobStatus]: what it renders, and the flag it may set. *)
Definition appendJobStatus (clock : nat -> Clock) (id : Z) (job : option JobTaskStatus) (cleanup_on_completion : bool) (w : Jobs)
    : result (Value * Jobs) :=
  match job with
  | None => Ok (missing_status id, w)
  | Some st =>
      let v := snapshot clock (progressSnapshot w st) st in
      completed ← (if cleanup_on_completion then c ← member v "completed"; asBool c else Ok false);
      Ok (v, if completed : bool then write_quietly request_cleanup id w else w)
  end.

(** [jobStatus]: the response's code and body, and the runtime afterwards. *)
Definition jobStatus (clock : nat -> Clock) (id : Z) (r : JobRuntime) : result (Z * string * JobRuntime) :=
  if getJob id r then
    '(v, w) ← appendJobStatus clock id (statuses (world r) !! id) true (world r);
    Ok (200, writeString v, set_world w r)
  else Ok (404, "Job " +:+ to_string id +:+ " not found", r).

(** ** Interleavings *)

(** A handler has got the job from the map, and reads it later; it may be the
    last to hold it. *)
Definition read_status (clock : nat -> Clock) (id : Z) (cleanup : bool) (r : JobRuntime) : JobRuntime :=
  match statuses (world r) !! id with
  | None => r
  | Some st => match appendJobStatus clock id (Some st) cleanup (world r) with
      | Ok (_, w) =>
          mkRuntime w (job_id_counter r) (m_queue r) (m_contexts r) (m_soft_stop r) (m_hard_stop r) (m_runner r) (m_pool r)
            (m_enqueuing r) (m_cleaning r) (pushed r) (popped r) (resumed r)
            (if cleanup && m_done st then {[id]} ∪ reported r else reported r)
      | Throw _ => r
      end
  end.

(** Coroutines take steps once the pool has resumed them. *)
Definition may_step (r : JobRuntime) (l : Label) : Prop :=
  match l with Coroutine id => id ∈ resumed r | Elsewhere => True | _ => False end.

Inductive runtime_step : JobRuntime -> JobRuntime -> Prop :=
| runtime_queue r w : job_id_counter r < size_max -> step writeString iterate (Queues (job_id_counter r)) (world r) w ->
    runtime_step r (queueJob w r)
| runtime_enqueue r id enqueuing : m_enqueuing r ≡ₚ id :: enqueuing -> unlocked r = true -> runtime_step r (enqueue id enqueuing r)
| runtime_runner r r' : runner_step r = Some r' -> runtime_step r r'
| runtime_run r id now pool : m_pool r ≡ₚ id :: pool -> runtime_step r (run id now pool r)
| runtime_jobs r l w : step writeString iterate l (world r) w -> may_step r l -> runtime_step r (set_world w r)
| runtime_read r clock id cleanup : id ∈ pushed r -> runtime_step r (read_status clock id cleanup r)
| runtime_cleanup r ids : unlocked r = true -> m_hard_stop r = false -> ids ≡ₚ base.elements (m_contexts r) ->
    runtime_step r (set_cleaning (Some ids) r)
| runtime_cleanup_job r id rest now removal clock : m_cleaning r = Some (id :: rest) ->
    eventJson writeString (removal_payload id) = Some removal -> runtime_step r (cleanup_job id now removal clock rest r)
| runtime_cleanup_end r : m_cleaning r = Some [] -> runtime_step r (set_cleaning None r)
| runtime_soft_stop r : runtime_step r (requestStop r)
| runtime_hard_stop r : runtime_step r (hard_stop r).

Inductive runs_to (e : World) : JobRuntime -> Prop :=
| runs_make : no_jobs e -> runs_to e (JobRuntime_make e)
| runs_step r r' : runs_to e r -> runtime_step r r' -> runs_to e r'.
End runtime.

(** ** What the steps of the jobs do to the statuses *)
Section theorems.
Context {J : Json} {L : JsonLaws J} {S : Simdjson} (writeString : Value -> string).
Context (iterate : gmap string ValidatedJson -> list (string * ValidatedJson)).

Notation step := (step writeString iterate).
Notation reachable := (reachable writeString iterate).
Notation runtime_step := (runtime_step writeString iterate).
Notation runs_to := (runs_to writeString iterate).

Lemma step_registered l w w' : step l w w' ->
  m_jobs w' = match l with Queues id => {[id]} ∪ m_jobs w | Cleans_up id => m_jobs w ∖ {[id]} | _ => m_jobs w end.
Proof.
  destruct 1 as [| | | | | | | | |w n rest| |w w' clock event_clock Hp|]; try done.
  - enough (H' : forall n w, m_jobs (notify n w) = m_jobs w) by by rewrite H'. clear. intros [id|p] w; cbn.
    + destruct (statuses w !! id) as [st|]; [|done]. destruct (m_on_change st); [|done]. unfold changed. by case_decide.
    + destruct (progresses w !! p) as [pr|]; [|done]. destruct (progress_on_change pr); [|done]. unfold changed. by case_decide.
  - revert Hp. unfold publisher_step. destruct (m_publisher w) as [| |[|id ids]|id s ids|id s encoded ids]; repeat case_match; by intros [= <-].
Qed.

(** How the status of one job may change in a step. *)
Record status_change (l : Label) (id : Z) (st st' : JobTaskStatus) : Prop := {
  status_done : m_done st' = m_done st \/ l = Coroutine id /\ m_done st = false;
  status_completion : m_done st = true -> m_completion_time st' = m_completion_time st;
  status_cleanup : m_cleanup_requested st' = m_cleanup_requested st \/ l = Wants_cleanup id
}.

Lemma notify_statuses n w : statuses (notify n w) = statuses w.
Proof.
  destruct n as [id|p]; cbn.
  - destruct (statuses w !! id) as [st|]; [|done]. destruct (m_on_change st); [|done]. unfold changed. by case_decide.
  - destruct (progresses w !! p) as [pr|]; [|done]. destruct (progress_on_change pr); [|done]. unfold changed. by case_decide.
Qed.

Lemma publisher_statuses w w' clock event_clock : publisher_step writeString clock event_clock w = Some w' -> statuses w' = statuses w.
Proof.
  unfold publisher_step. destruct (m_publisher w) as [| |[|id ids]|id s ids|id s encoded ids]; repeat case_match; by intros [= <-].
Qed.

Lemma unchanged l id st : status_change l id st st.
Proof. split; auto. Qed.

Lemma step_alter f id0 l (m : gmap Z JobTaskStatus) :
  (forall st, m !! id0 = Some st -> status_change l id0 st (f st)) ->
  forall id, option_Forall2 (status_change l id) (m !! id) (alter f id0 m !! id).
Proof.
  intros Hf id. destruct (decide (id = id0)) as [->|Hne]; [rewrite lookup_alter_eq|rewrite lookup_alter_ne by done].
  - destruct (m !! id0) as [st|]; constructor. by apply Hf.
  - destruct (m !! id); constructor. apply unchanged.
Qed.

Lemma step_status l w w' id : step l w w' ->
  option_Forall2 (status_change l id) (statuses w !! id) (statuses w' !! id)
  \/ l = Queues id /\ statuses w !! id = None
     /\ exists st, statuses w' !! id = Some st /\ m_done st = false /\ m_cleanup_requested st = false.
Proof.
  assert (Hsame : forall (m : gmap Z JobTaskStatus) l, option_Forall2 (status_change l id) (m !! id) (m !! id)).
  { intros m l'. destruct (m !! id); constructor. apply unchanged. }
  destruct 1 as [w id0 continuous name loc Hnone|w id0 now st Hst Hd Hs|w id0 response Ha| |w id0 p progress Ha Hp Hc| |
    w id0 what Ha|w id0 now Ha|w id0|w n rest Hn| |w w' clock event_clock Hp|]; try (by left).
  - cbn [add statuses JobTaskStatus_make m_id]. destruct (decide (id = id0)) as [->|Hne].
    + right. split; [done|]. split; [done|]. rewrite lookup_insert_eq. by eexists.
    + left. by rewrite lookup_insert_ne.
  - left. apply step_alter. intros st' Hst'. split; auto.
  - left. apply step_alter. intros st Hst. split; auto.
  - left. apply step_alter. intros st Hst. split; auto.
  - left. apply step_alter. intros st Hst. split; auto.
  - left. apply step_alter. destruct Ha as (st & Hst & Hd). intros st' Hst'. assert (st' = st) as -> by congruence.
    split; [by right|congruence|by left].
  - left. apply step_alter. intros st Hst. split; auto.
  - left. rewrite notify_statuses. apply Hsame.
  - left. rewrite (publisher_statuses _ _ _ _ Hp). apply Hsame.
Qed.

(** What reading a status leaves behind. *)
Lemma appendJobStatus_ok clock id st cleanup w : exists v,
  appendJobStatus clock id (Some st) cleanup w = Ok (v, if cleanup && m_done st then write_quietly request_cleanup id w else w)
  /\ v = snapshot clock (progressSnapshot w st) st.
Proof.
  eexists. split; [|done]. unfold appendJobStatus. destruct cleanup; [|done]. cbn [andb].
  destruct (snapshot_tells clock (progressSnapshot w st) st) as [_ -> _ _ _]. cbn. rewrite asBool_of. cbn. by destruct (m_done st).
Qed.

(** ** The invariant *)

Definition dispatching (r : JobRuntime) : list Z := match m_runner r with Dispatching id => [id] | _ => [] end.
Definition known (r : JobRuntime) : list Z := pushed r ++ m_enqueuing r.

Record runtime_inv (r : JobRuntime) : Prop := {
  ri_world : reachable (world r);
  ri_registered : m_jobs (world r) = m_contexts r ∪ list_to_set (m_enqueuing r);
  ri_counter : 1 <= job_id_counter r <= size_max;
  ri_ids : forall id, is_Some (statuses (world r) !! id) <-> id ∈ known r;
  ri_fresh : forall id, id ∈ known r -> 1 <= id < job_id_counter r;
  ri_nodup : NoDup (known r);
  ri_order : pushed r = popped r ++ m_queue r;
  ri_popped : popped r ≡ₚ dispatching r ++ m_pool r ++ resumed r;
  ri_unresumed : forall id st, statuses (world r) !! id = Some st -> id ∉ resumed r -> m_done st = false;
  ri_contexts : forall id, id ∈ m_contexts r -> id ∈ pushed r;
  ri_forgotten : forall id, id ∈ pushed r -> id ∉ m_contexts r -> exists st, statuses (world r) !! id = Some st /\ m_done st = true;
  ri_reported : forall id st, statuses (world r) !! id = Some st -> m_cleanup_requested st = true -> id ∈ reported r;
  ri_cleaning : forall ids, m_cleaning r = Some ids -> ids ⊆ pushed r
}.

Lemma runtime_inv_make e : no_jobs e -> runtime_inv (JobRuntime_make e).
Proof.
  intros He. split; try done; cbn.
  - by apply reachable_make.
  - intros id. rewrite lookup_empty. split; [by intros []|]. by intros ?%elem_of_nil.
  - by intros id ?%elem_of_nil.
  - constructor.
  - by intros id ?%elem_of_nil.
Qed.

(** A step of the jobs that queues and forgets none. *)
Lemma runtime_inv_world r l w : runtime_inv r -> step l (world r) w ->
  match l with Coroutine id | Resumes id => id ∈ resumed r | Wants_cleanup id => id ∈ reported r | Elsewhere => True | _ => False end ->
  runtime_inv (set_world w r).
Proof.
  intros Hi Hstep Hl. pose proof (step_registered _ _ _ Hstep) as Hreg.
  assert (Hst : forall id, option_Forall2 (status_change l id) (statuses (world r) !! id) (statuses w !! id)).
  { intros id. destruct (step_status _ _ _ id Hstep) as [H|[-> _]]; done. }
  split; cbn [set_world world]; try apply Hi.
  - by eapply reachable_step; [apply Hi|].
  - rewrite Hreg. etrans; [|apply (ri_registered r Hi)]. by destruct l.
  - intros id. rewrite <- (ri_ids r Hi id). specialize (Hst id). split; intros [st H]; rewrite H in Hst; inversion Hst; by eexists.
  - intros id st' Hst' Hr. specialize (Hst id). rewrite Hst' in Hst. inversion Hst as [st ? Hc Heq|]; subst.
    destruct (status_done _ _ _ _ Hc) as [->|[-> _]]; [|done]. by eapply (ri_unresumed r Hi).
  - intros id Hp Hc. destruct (ri_forgotten r Hi id Hp Hc) as (st & Hs & Hd). specialize (Hst id). rewrite Hs in Hst.
    inversion Hst as [? st' Hch Heq|]; subst. exists st'. split; [done|].
    destruct (status_done _ _ _ _ Hch) as [->|[_ Hd']]; congruence.
  - intros id st' Hst' Hr. specialize (Hst id). rewrite Hst' in Hst. inversion Hst as [st ? Hc Heq|]; subst.
    destruct (status_cleanup _ _ _ _ Hc) as [Heq'| ->]; [|done]. eapply (ri_reported r Hi); [done|congruence].
Qed.

Lemma step_queues id w w' : step (Queues id) w w' ->
  0 <= id /\ statuses w !! id = None /\ exists st, statuses w' = <[id := st]> (statuses w) /\ m_done st = false /\ m_cleanup_requested st = false.
Proof. intros Hstep. inversion Hstep; subst. cbn. by repeat split; try eexists. Qed.

Lemma runtime_inv_queue r w : runtime_inv r -> job_id_counter r < size_max -> step (Queues (job_id_counter r)) (world r) w ->
  runtime_inv (queueJob w r).
Proof.
  intros Hi Hc Hstep. destruct (step_queues _ _ _ Hstep) as (_ & Hnone & st & Hst & Hd & Hcl).
  pose proof (ri_counter r Hi) as Hcount.
  assert (Hnew : (job_id_counter r) ∉ known r) by (rewrite <- (ri_ids r Hi (job_id_counter r)), Hnone; by intros []).
  assert (Hwrap : wrapu 64 ((job_id_counter r) + 1) = (job_id_counter r) + 1) by (unfold wrapu, size_max in *; rewrite Z.mod_small; lia).
  assert (Hk : known (queueJob w r) ≡ₚ (job_id_counter r) :: known r) by (unfold known; cbn; by rewrite Permutation_middle).
  split; try apply Hi; cbn [queueJob world job_id_counter].
  - eapply reachable_step; [apply Hi|exact Hstep].
  - rewrite (step_registered _ _ _ Hstep), (ri_registered r Hi). cbn. set_solver.
  - rewrite Hwrap. lia.
  - intros other. rewrite Hst, Hk, elem_of_cons, <- (ri_ids r Hi other). destruct (decide (other = (job_id_counter r))) as [->|Hne].
    + rewrite lookup_insert_eq. split; [by left|by eexists].
    + rewrite lookup_insert_ne by done. split; [by right|by intros [?|?]].
  - intros other. rewrite Hk, elem_of_cons, Hwrap. intros [->|Ho]; [lia|]. pose proof (ri_fresh r Hi other Ho). lia.
  - rewrite Hk. constructor; [done|apply Hi].
  - intros other st'. rewrite Hst, lookup_insert_Some. intros [[<- <-]|[_ Ho]]; [done|]. by apply (ri_unresumed r Hi).
  - intros other Hp Hcx. destruct (ri_forgotten r Hi other Hp Hcx) as (st' & Ho & Hd'). exists st'. rewrite Hst.
    rewrite lookup_insert_ne; [done|]. congruence.
  - intros other st'. rewrite Hst, lookup_insert_Some. intros [[<- <-]|[_ Ho]]; [congruence|]. by apply (ri_reported r Hi).
Qed.

Lemma runtime_inv_enqueue r id enqueuing : runtime_inv r -> m_enqueuing r ≡ₚ id :: enqueuing -> runtime_inv (enqueue id enqueuing r).
Proof.
  intros Hi He.
  assert (Hk : known (enqueue id enqueuing r) ≡ₚ known r) by (unfold known; cbn; by rewrite He, <- app_assoc).
  split; try apply Hi; cbn [enqueue world m_contexts m_enqueuing pushed popped m_queue m_cleaning job_id_counter].
  - rewrite (ri_registered r Hi). assert (list_to_set (C := gset Z) (m_enqueuing r) = {[id]} ∪ list_to_set enqueuing) as ->.
    { rewrite <- list_to_set_cons. by apply list_to_set_perm_L. }
    set_solver.
  - intros other. rewrite Hk. apply (ri_ids r Hi).
  - intros other. rewrite Hk. apply (ri_fresh r Hi).
  - rewrite Hk. apply Hi.
  - rewrite (ri_order r Hi). by rewrite app_assoc.
  - intros other Ho. rewrite elem_of_app, list_elem_of_singleton. apply elem_of_union in Ho as [Ho|Ho].
    + right. by apply elem_of_singleton in Ho.
    + left. by apply (ri_contexts r Hi).
  - intros other Ho Hc. apply elem_of_app in Ho as [Ho|Ho]; [|apply list_elem_of_singleton in Ho; set_solver].
    apply (ri_forgotten r Hi); [done|set_solver].
  - intros ids Hids other Ho. apply elem_of_app. left. by eapply (ri_cleaning r Hi).
Qed.

Lemma getNextJob_some r job r' : getNextJob r = Some (job, r') ->
  r' = match m_queue r with
    | [] => r
    | id :: queue => mkRuntime (world r) (job_id_counter r) queue (m_contexts r) (m_soft_stop r) (m_hard_stop r) (m_runner r)
        (m_pool r) (m_enqueuing r) (m_cleaning r) (pushed r) (popped r ++ [id]) (resumed r) (reported r)
    end /\ job = head (m_queue r).
Proof. unfold getNextJob. destruct (m_queue r); [case_match|]; by intros [= <- <-]. Qed.

Lemma runtime_inv_runner r r' : runtime_inv r -> runner_step r = Some r' -> runtime_inv r'.
Proof.
  intros Hi. unfold runner_step.
  assert (Hquiet : forall runner, dispatching r = [] -> match runner with Dispatching _ => False | _ => True end -> runtime_inv (set_runner runner r)).
  { intros runner Hd Hr. split; try apply Hi. cbn. pose proof (ri_popped r Hi) as Hp. rewrite Hd in Hp. by destruct runner. }
  destruct (m_runner r) as [| | |id|] eqn:Hr.
  - intros [= <-]. apply Hquiet; [unfold dispatching; by rewrite Hr|]. by destruct (m_hard_stop r), (m_soft_stop r).
  - case_match; [|done]. intros [= <-]. apply Hquiet; [unfold dispatching; by rewrite Hr|]. by destruct (m_queue r).
  - case_match; [|done]. destruct (getNextJob r) as [[job r0]|] eqn:Hn; [|done]. cbn. intros [= <-].
    destruct (getNextJob_some _ _ _ Hn) as [-> ->]. destruct (m_queue r) as [|id queue] eqn:Hq; cbn [head hd_error].
    + apply Hquiet; [unfold dispatching; by rewrite Hr|done].
    + split; try apply Hi; cbn [set_runner pushed popped m_queue m_pool resumed].
      * rewrite (ri_order r Hi), Hq. by rewrite <- app_assoc.
      * pose proof (ri_popped r Hi) as Hp. unfold dispatching in *. rewrite Hr in Hp. cbn in *. by rewrite Hp, Permutation_app_comm.
  - intros [= <-]. split; try apply Hi. pose proof (ri_popped r Hi) as Hp. unfold dispatching in *. rewrite Hr in Hp. cbn in *.
    rewrite Hp, <- app_assoc. apply Permutation_middle.
  - done.
Qed.

Lemma runtime_inv_run r id now pool : runtime_inv r -> m_pool r ≡ₚ id :: pool -> runtime_inv (run id now pool r).
Proof.
  intros Hi Hp.
  assert (Hpop : popped r ≡ₚ dispatching r ++ pool ++ resumed r ++ [id]).
  { rewrite (ri_popped r Hi), Hp. apply Permutation_app_head. cbn. by rewrite (app_assoc pool), <- Permutation_cons_append. }
  assert (Hid : id ∈ popped r) by (rewrite Hpop, !elem_of_app; right; right; right; by apply list_elem_of_singleton).
  assert (Hk : id ∈ known r) by (unfold known; rewrite (ri_order r Hi), !elem_of_app; auto).
  assert (Hr : id ∉ resumed r).
  { pose proof (ri_nodup r Hi) as Hn. unfold known in Hn. rewrite (ri_order r Hi) in Hn.
    apply NoDup_app in Hn as [Hn _]. apply NoDup_app in Hn as [Hn _]. rewrite Hpop in Hn.
    apply NoDup_app in Hn as (_ & _ & Hn). apply NoDup_app in Hn as (_ & _ & Hn). apply NoDup_app in Hn as (_ & Hn & _).
    intros Hin. by apply (Hn id); [|apply list_elem_of_singleton]. }
  apply (ri_ids r Hi) in Hk as [st Hst]. pose proof (ri_unresumed r Hi id st Hst Hr) as Hd.
  set (r1 := mkRuntime (world r) (job_id_counter r) (m_queue r) (m_contexts r) (m_soft_stop r) (m_hard_stop r) (m_runner r) pool (m_enqueuing r)
    (m_cleaning r) (pushed r) (popped r) (resumed r ++ [id]) (reported r)).
  assert (H1 : runtime_inv r1).
  { split; try apply Hi; [done|]. cbn. intros other st' Ho Hres. apply (ri_unresumed r Hi other st' Ho). set_solver. }
  unfold run. rewrite Hst. destruct (Z.eqb_spec (m_start_time st) 0) as [H0|H0]; [|done].
  apply (runtime_inv_world r1 (Resumes id) (write (set_start now) id (world r)) H1).
  - by eapply step_start.
  - cbn. apply elem_of_app. right. by apply list_elem_of_singleton.
Qed.

Lemma runtime_inv_read r clock id cleanup : runtime_inv r -> runtime_inv (read_status clock id cleanup r).
Proof.
  intros Hi. unfold read_status. destruct (statuses (world r) !! id) as [st|] eqn:Hst; [|done].
  destruct (appendJobStatus_ok clock id st cleanup (world r)) as (v & -> & _). destruct (cleanup && m_done st); [|by split; apply Hi].
  set (r1 := mkRuntime (world r) (job_id_counter r) (m_queue r) (m_contexts r) (m_soft_stop r) (m_hard_stop r) (m_runner r) (m_pool r)
    (m_enqueuing r) (m_cleaning r) (pushed r) (popped r) (resumed r) ({[id]} ∪ reported r)).
  assert (H1 : runtime_inv r1).
  { split; try apply Hi. cbn. intros other st' Ho Hc. apply elem_of_union. right. by eapply (ri_reported r Hi). }
  apply (runtime_inv_world r1 (Wants_cleanup id) _ H1); [apply step_request_cleanup|cbn; set_solver].
Qed.

Lemma runtime_inv_cleanup_job r id now removal clock rest : runtime_inv r -> m_cleaning r = Some (id :: rest) ->
  eventJson writeString (removal_payload id) = Some removal -> runtime_inv (cleanup_job id now removal clock rest r).
Proof.
  intros Hi Hc Hrem. assert (Hids : forall ids, Some rest = Some ids -> ids ⊆ pushed r).
  { intros ids [= <-] other Ho. apply (ri_cleaning r Hi _ Hc). by right. }
  assert (Hid : id ∈ pushed r) by (apply (ri_cleaning r Hi _ Hc); by left).
  unfold cleanup_job. destruct (statuses (world r) !! id) as [st|] eqn:Hst; [|by split; try apply Hi].
  destruct (forgettable now st) eqn:Hf; [|by split; try apply Hi].
  assert (Hk : id ∈ known r) by (unfold known; apply elem_of_app; by left).
  assert (He : id ∉ m_enqueuing r).
  { pose proof (ri_nodup r Hi) as Hn. unfold known in Hn. apply NoDup_app in Hn as (_ & Hn & _). by apply Hn. }
  assert (Hstep : step (Cleans_up id) (world r) (remove id removal clock (world r))).
  { apply step_remove; [done|]. pose proof (ri_fresh r Hi id Hk). lia. }
  split; try apply Hi; cbn [world m_contexts m_enqueuing pushed m_cleaning].
  - eapply reachable_step; [apply Hi|exact Hstep].
  - rewrite (step_registered _ _ _ Hstep), (ri_registered r Hi). set_solver.
  - intros other Ho. apply (ri_contexts r Hi). set_solver.
  - intros other Ho Hcx. destruct (decide (other = id)) as [->|Hne].
    + exists st. split; [done|]. unfold forgettable in Hf. by destruct (m_done st).
    + apply (ri_forgotten r Hi); [done|]. set_solver.
  - done.
Qed.

Lemma runtime_inv_step r r' : runtime_inv r -> runtime_step r r' -> runtime_inv r'.
Proof.
  intros Hi Hstep. destruct Hstep.
  - by apply runtime_inv_queue.
  - by apply runtime_inv_enqueue.
  - by eapply runtime_inv_runner.
  - by apply runtime_inv_run.
  - eapply runtime_inv_world; [done|done|]. by destruct l.
  - by apply runtime_inv_read.
  - split; try apply Hi. cbn. intros ids' [= <-] other Ho. apply (ri_contexts r Hi). by rewrite H1, elem_of_elements in Ho.
  - by apply runtime_inv_cleanup_job.
  - split; try apply Hi. done.
  - by split; apply Hi.
  - by split; apply Hi.
Qed.

Lemma runs_inv e r : runs_to e r -> runtime_inv r.
Proof. induction 1; [by apply runtime_inv_make|by eapply runtime_inv_step]. Qed.

(** ** The theorems *)

(** Jobs leave the queue in the order they entered it, each once; every
    one that left is being dispatched, waits in the pool or has been resumed by
    it, and none is in two of these places or resumed twice. *)
Theorem jobs_run_once_in_order e r : runs_to e r ->
  pushed r = popped r ++ m_queue r /\ NoDup (pushed r) /\ popped r ≡ₚ dispatching r ++ m_pool r ++ resumed r
  /\ NoDup (dispatching r ++ m_pool r ++ resumed r).
Proof.
  intros Hr. apply runs_inv in Hr as Hi. pose proof (ri_nodup r Hi) as Hn. apply NoDup_app in Hn as [Hn _].
  split; [apply Hi|]. split; [done|]. split; [apply Hi|]. rewrite <- (ri_popped r Hi). rewrite (ri_order r Hi) in Hn.
  by apply NoDup_app in Hn as [? _].
Qed.

(** C19: a job that has been enqueued and has not finished is in the map, where
    requests find it, and its events are published; only the cleanup takes a job
    out of the map; and a pass of the cleanup that reads the time [now] takes out
    only the job it looks at, only when that has finished, and then only if a
    client that asked for the cleanup has read its completed status or the
    retention period has passed from the job's completion to [now]. *)
Theorem jobs_are_kept_until_read e r : runs_to e r ->
  (forall id st, id ∈ pushed r -> statuses (world r) !! id = Some st -> m_done st = false ->
     getJob id r = true /\ id ∈ m_jobs (world r))
  /\ (forall r' id, runtime_step r r' -> id ∈ m_contexts r -> id ∉ m_contexts r' ->
     exists rest now removal clock, m_cleaning r = Some (id :: rest) /\ r' = cleanup_job id now removal clock rest r)
  /\ (forall id id' now removal clock rest, id ∈ m_contexts r -> id ∉ m_contexts (cleanup_job id' now removal clock rest r) ->
     id' = id /\ exists st, statuses (world r) !! id = Some st /\ m_done st = true
       /\ (id ∈ reported r \/ job_retention_period <= now - m_completion_time st)).
Proof.
  intros Hr. apply runs_inv in Hr as Hi. split; [|split].
  - intros id st Hp Hst Hd. assert (Hc : id ∈ m_contexts r).
    { destruct (decide (id ∈ m_contexts r)) as [|Hc]; [done|]. destruct (ri_forgotten r Hi id Hp Hc) as (? & ? & ?). congruence. }
    split; [by apply bool_decide_eq_true|]. rewrite (ri_registered r Hi). set_solver.
  - intros r' id Hstep Hc Hc'. destruct Hstep as [| |r r' Hstep|r id0 now pool|r l w|r clock id0 cleanup| |r id0 rest now removal clock Hcl| | |];
      try done; cbn in Hc'.
    + set_solver.
    + destruct Hc'. enough (m_contexts r' = m_contexts r) as -> by done. unfold runner_step in Hstep.
      destruct (m_runner r); repeat case_match; simplify_eq; try done. destruct (getNextJob r) as [[job r0]|] eqn:Hn; [|done].
      injection Hstep as <-. destruct (getNextJob_some _ _ _ Hn) as [-> _]. by destruct (m_queue r).
    + destruct Hc'. unfold read_status. by repeat case_match.
    + enough (id = id0) as -> by by exists rest, now, removal, clock. destruct (decide (id = id0)); [done|]. case_match; set_solver.
  - intros id id0 now removal clock rest Hc Hc'. cbn in Hc'. destruct (statuses (world r) !! id0) as [st|] eqn:Hst; [|done].
    destruct (forgettable now st) eqn:Hf; [|done]. destruct (decide (id = id0)) as [->|Hne]; [|set_solver]. split; [done|]. exists st. split; [done|].
    unfold forgettable in Hf. apply andb_true_iff in Hf as [Hd Hf]. split; [done|]. apply orb_true_iff in Hf as [Hf|Hf]; [left; by eapply (ri_reported r Hi)|right; by apply Z.leb_le].
Qed.

(** A status request for a job in the map answers with the snapshot of its
    status and asks for its cleanup exactly when that says it has completed;
    for any other id it answers 404 and changes nothing. *)
Theorem status_requests_answer e r clock id : runs_to e r ->
  if getJob id r then
    exists st, statuses (world r) !! id = Some st /\
      let v := snapshot clock (progressSnapshot (world r) st) st in
      tells v st /\ jobStatus writeString clock id r
        = Ok (200, writeString v, set_world (if m_done st then write_quietly request_cleanup id (world r) else world r) r)
  else jobStatus writeString clock id r = Ok (404, "Job " +:+ to_string id +:+ " not found", r).
Proof.
  intros Hr. apply runs_inv in Hr as Hi. unfold jobStatus. destruct (getJob id r) eqn:Hg; [|done].
  apply bool_decide_eq_true in Hg. apply (ri_contexts r Hi) in Hg.
  assert (Hk : id ∈ known r) by (unfold known; apply elem_of_app; by left). apply (ri_ids r Hi) in Hk as [st Hst].
  exists st. split; [done|]. split; [apply snapshot_tells|]. rewrite Hst.
  destruct (appendJobStatus_ok clock id st true (world r)) as (v & -> & ->). done.
Qed.

(** *** The runner by itself *)

Definition runner_moves (n : nat) (r : JobRuntime) : JobRuntime := Nat.iter n (fun r => default r (runner_step r)) r.

Lemma runner_moves_add n m r : runner_moves (n + m) r = runner_moves n (runner_moves m r).
Proof. apply Nat.iter_add. Qed.

(** From inside [getNextJob], while the mutex is free and nothing is stopped hard. *)
Lemma runner_drains n r : length (m_queue r) = n -> m_runner r = Getting -> m_hard_stop r = false -> unlocked r = true ->
  exists k, let r' := runner_moves k r in
    m_queue r' = [] /\ m_pool r' = m_pool r ++ m_queue r /\ m_runner r' = if m_soft_stop r then Exited else Getting.
Proof.
  revert r. induction n as [|n IH]; intros r Hn Hr Hh Hu; destruct r as [w c q cx ss hs run pool enq cl pu po re rep]; cbn in *; subst run hs.
  - destruct q; [|done]. rewrite app_nil_r. destruct ss; [|by exists 0%nat].
    exists 3%nat. destruct cl; [done|]. by repeat split.
  - destruct q as [|id q]; [done|]. destruct cl; [done|]. injection Hn as Hn. destruct ss.
    + destruct q as [|id' q]; [exists 4%nat; by repeat split|].
      destruct (IH (mkRuntime w c (id' :: q) cx true false Getting (pool ++ [id]) enq None pu (po ++ [id]) re rep)) as (k & H1 & H2 & H3); try done.
      exists (k + 4)%nat. cbv zeta. rewrite runner_moves_add.
      match goal with |- context [runner_moves 4 ?r0] => change (runner_moves 4 r0) with (mkRuntime w c (id' :: q) cx true false Getting (pool ++ [id]) enq None pu (po ++ [id]) re rep) end.
      split; [exact H1|]. split; [|exact H3]. rewrite H2. cbn [m_pool m_queue]. by rewrite <- app_assoc.
    + destruct (IH (mkRuntime w c q cx false false Getting (pool ++ [id]) enq None pu (po ++ [id]) re rep)) as (k & H1 & H2 & H3); try done.
      exists (k + 3)%nat. cbv zeta. rewrite runner_moves_add.
      match goal with |- context [runner_moves 3 ?r0] => change (runner_moves 3 r0) with (mkRuntime w c q cx false false Getting (pool ++ [id]) enq None pu (po ++ [id]) re rep) end.
      split; [exact H1|]. split; [|exact H3]. rewrite H2. cbn [m_pool m_queue]. by rewrite <- app_assoc.
Qed.

Lemma runner_gets r : m_runner r <> Exited -> m_hard_stop r = false -> unlocked r = true -> m_queue r <> [] ->
  exists k, let r' := runner_moves k r in
    m_runner r' = Getting /\ m_hard_stop r' = false /\ unlocked r' = true /\ m_queue r' = m_queue r /\ m_soft_stop r' = m_soft_stop r
    /\ m_pool r' = m_pool r ++ dispatching r.
Proof.
  destruct r as [w c q cx ss hs run pool enq cl pu po re rep]. unfold dispatching. cbn. intros Hr -> Hu Hq.
  destruct cl; [done|]. destruct q as [|id q]; [done|]. destruct run as [| | |other|], ss; try done.
  - exists 2%nat. cbn. by rewrite app_nil_r.
  - exists 1%nat. cbn. by rewrite app_nil_r.
  - exists 1%nat. cbn. by rewrite app_nil_r.
  - exists 1%nat. cbn. by rewrite app_nil_r.
  - exists 0%nat. cbn. by rewrite app_nil_r.
  - exists 0%nat. cbn. by rewrite app_nil_r.
  - exists 3%nat. by cbn.
  - exists 2%nat. by cbn.
Qed.

(** Whatever waits in the queue when the runner gets to run for a while,
    it hands all of it to the pool, in order, also when a soft stop has been
    requested; only then does a soft stop make it exit. *)
Theorem runner_hands_over_the_queue r : m_runner r <> Exited -> m_hard_stop r = false -> unlocked r = true ->
  m_queue r <> [] -> exists k, let r' := runner_moves k r in
    m_queue r' = [] /\ m_pool r' = m_pool r ++ dispatching r ++ m_queue r /\ m_runner r' = if m_soft_stop r then Exited else Getting.
Proof.
  intros Hr Hh Hu Hq. destruct (runner_gets r Hr Hh Hu Hq) as (k & H1 & H2 & H3 & H4 & H5 & H6).
  destruct (runner_drains _ (runner_moves k r) eq_refl H1 H2 H3) as (k' & K1 & K2 & K3).
  exists (k' + k)%nat. cbv zeta. rewrite runner_moves_add. split; [done|]. rewrite K2, K3, H4, H5, H6. by rewrite <- app_assoc.
Qed.
End theorems.

(** ** Background services as jobs

    [BackgroundJob.cpp]: a service reports through a progress object, and its
    job's coroutine waits on a baton that [finish] posts. *)
Module Background.
Section background.
Context {J : Json}.

(** [posts] counts the posts of the baton; [changes] the notifications. *)
Record Progress := mkProgress {
  service : string;
  phase : string;
  message : string;
  processed_units : Z;
  failed_count : Z;
  last_error : string;
  terminal_error : option string;
  finished : bool;
  updated_at : Z;
  posts : nat;
  changes : nat
}.

Definition Progress_make (service : string) (now : Z) : Progress :=
  mkProgress service "starting" "Starting service" 0 0 EmptyString None false now 0 0.

Definition activity (new_phase new_message : string) (now : Z) (p : Progress) : Progress :=
  if finished p then p
  else mkProgress (service p) new_phase new_message (processed_units p) (failed_count p) (last_error p) (terminal_error p) (finished p)
    now (posts p) (Datatypes.S (changes p)).

Definition processed (count now : Z) (p : Progress) : Progress :=
  if finished p then p
  else mkProgress (service p) (phase p) (message p) (wrapu 64 (processed_units p + count)) (failed_count p) (last_error p)
    (terminal_error p) (finished p) now (posts p) (Datatypes.S (changes p)).

Definition recordFailure (new_message : string) (now : Z) (p : Progress) : Progress :=
  if finished p then p
  else mkProgress (service p) (phase p) (message p) (processed_units p) (wrapu 64 (failed_count p + 1)) new_message
    (terminal_error p) (finished p) now (posts p) (Datatypes.S (changes p)).

Definition finish (error : option string) (now : Z) (p : Progress) : Progress :=
  if finished p then p
  else mkProgress (service p) (match error with Some _ => "failed" | None => "stopped" end) (default "Service stopped" error)
    (processed_units p) (failed_count p) (last_error p) error true now (Datatypes.S (posts p)) (Datatypes.S (changes p)).

(** What the coroutine does once it is resumed; [None] while it waits. *)
Definition waitForStop (p : Progress) : option (result unit) :=
  if (posts p =? 0)%nat then None
  else Some (match terminal_error p with Some e => Throw (runtime_error e) | None => Ok tt end).

(** The status its end leaves the job in: [unhandled_exception], then the
    final awaiter. *)
Definition finish_job (outcome : result unit) (now : Z) (st : JobTaskStatus) : JobTaskStatus :=
  set_done now (match outcome with Throw e => unhandled_exception (Some (exn_what e)) st | Ok _ => st end).

Definition Progress_snapshot (p : Progress) : Value :=
  let v := set_member "kind" (of_string "background_service") empty_object in
  let v := set_member "service" (of_string (service p)) v in
  let v := set_member "phase" (of_string (phase p)) v in
  let v := set_member "message" (of_string (message p)) v in
  let v := set_member "processed_units" (of_uint (processed_units p)) v in
  let v := set_member "failed_count" (of_uint (failed_count p)) v in
  let v := set_member "updated_at" (of_int (Z.quot (updated_at p) 1000000000)) v in
  if String.eqb (last_error p) EmptyString then v else set_member "last_error" (of_string (last_error p)) v.

Inductive Report :=
| Activity (new_phase new_message : string)
| Processed (count : Z)
| Failure (new_message : string)
| Finish (error : option string).

Definition report (p : Progress) (r : Report * Z) : Progress :=
  match fst r with
  | Activity new_phase new_message => activity new_phase new_message (snd r) p
  | Processed count => processed count (snd r) p
  | Failure new_message => recordFailure new_message (snd r) p
  | Finish error => finish error (snd r) p
  end.

Definition reports (rs : list (Report * Z)) (p : Progress) : Progress := foldl report p rs.

Definition is_finish (r : Report * Z) : bool := match fst r with Finish _ => true | _ => false end.
Definition units (r : Report * Z) : Z := match fst r with Processed count => count | _ => 0 end.
Definition sum_units (rs : list (Report * Z)) : Z := foldr (fun r n => units r + n) 0 rs.

Lemma reports_finished rs p : finished p = true -> reports rs p = p.
Proof.
  intros Hp. induction rs as [|[r now] rs IH]; [done|]. cbn.
  destruct r; cbn; unfold activity, processed, recordFailure, finish; by rewrite Hp.
Qed.

Definition goes_on (p p' : Progress) (steps : nat) (n : Z) : Prop :=
  finished p' = false /\ posts p' = posts p /\ terminal_error p' = terminal_error p /\ changes p' = (changes p + steps)%nat
  /\ wrapu 64 (processed_units p') = wrapu 64 (processed_units p + n).

Lemma report_running r p : finished p = false -> is_finish r = false -> goes_on p (report p r) 1 (units r).
Proof.
  intros Hp Hr. destruct r as [r now], p as [sv ph ms pu fc le te f ua po ch]. cbn in Hp. subst f.
  destruct r; try done; unfold goes_on; cbn; rewrite ?Z.add_0_r, ?Nat.add_1_r; try done.
  repeat split. unfold wrapu. apply Z.mod_mod. lia.
Qed.

Lemma reports_running rs p : finished p = false -> Forall (fun r => is_finish r = false) rs ->
  goes_on p (reports rs p) (length rs) (sum_units rs).
Proof.
  intros Hp Hrs. revert p Hp. induction Hrs as [|r rs Hr Hrs IH]; intros p Hp.
  - unfold goes_on. cbn. by rewrite Nat.add_0_r, Z.add_0_r.
  - destruct (report_running r p Hp Hr) as (K1 & K2 & K3 & K4 & K5). destruct (IH (report p r) K1) as (H1 & H2 & H3 & H4 & H5).
    cbn [reports foldl length sum_units foldr]. fold (reports rs (report p r)) (sum_units rs). unfold goes_on.
    split; [done|]. split; [by rewrite H2|]. split; [by rewrite H3|]. split; [lia|]. rewrite H5. unfold wrapu in *.
    rewrite Z.add_assoc, <- Zplus_mod_idemp_l, K5, Zplus_mod_idemp_l. done.
Qed.

(** The first [finish] of a service decides how its job ends, once: the
    baton is posted one time, later reports and further calls of [finish]
    change nothing and notify nobody, and the job completes with the terminal
    error as its message if there is one; what had been processed before is
    counted, modulo 2^64. *)
Theorem background_jobs_finish_once before error now after name start done_at st :
  Forall (fun r => is_finish r = false) before ->
  let p := reports (before ++ (Finish error, now) :: after) (Progress_make name start) in
  p = reports (before ++ [(Finish error, now)]) (Progress_make name start)
  /\ posts p = 1%nat /\ changes p = Datatypes.S (length before)
  /\ phase p = match error with Some _ => "failed" | None => "stopped" end
  /\ wrapu 64 (processed_units p) = wrapu 64 (sum_units before)
  /\ exists outcome, waitForStop p = Some outcome /\ let st' := finish_job outcome done_at st in
     m_done st' = true /\ match error with
       | Some e => m_failed st' = true /\ m_error_message st' = e
       | None => m_failed st' = m_failed st
       end.
Proof.
  intros Hb p. destruct (reports_running before (Progress_make name start) eq_refl Hb) as (H1 & H2 & H3 & H4 & H5).
  assert (Hp : p = finish error now (reports before (Progress_make name start))).
  { unfold p, reports. rewrite foldl_app. cbn [foldl report fst snd]. apply reports_finished.
    unfold finish. by destruct (finished (foldl _ _ _)) eqn:E. }
  rewrite Hp. unfold reports in *. rewrite foldl_app. cbn [foldl report fst snd].
  set (q := foldl report (Progress_make name start) before) in *.
  unfold finish. rewrite H1. cbn [posts changes phase processed_units]. rewrite H2, H4.
  split; [done|]. split; [done|]. split; [done|]. split; [done|]. split; [exact H5|].
  unfold waitForStop. cbn. eexists. split; [done|]. by destruct error.
Qed.
End background.
End Background.

(** ** Witnesses *)

Module Example_runtime.
#[local] Existing Instance Example_json.document.
#[local] Existing Instance Example_jobs.simdjson.

(** One job, queued, dispatched and resumed; the hub's part is that of the
    example of [JobEvents.v]. *)
Definition queued : JobRuntime := enqueue 1 [] (queueJob Example_jobs.added (JobRuntime_make World_make)).

Lemma queued_runs : runs_to Example_jobs.write_value map_to_list World_make queued.
Proof.
  eapply runs_step; [eapply runs_step; [by apply runs_make|]|].
  - apply (runtime_queue _ _ (JobRuntime_make World_make)); [done|]. by apply step_add.
  - apply runtime_enqueue; [vm_compute; reflexivity|reflexivity].
Qed.

Definition running : JobRuntime := run 1 3 [] (runner_moves 3 queued).

Lemma moves_run n r : runs_to Example_jobs.write_value map_to_list World_make r ->
  runs_to Example_jobs.write_value map_to_list World_make (runner_moves n r).
Proof.
  intros Hr. induction n as [|n IH]; [done|]. change (runner_moves (Datatypes.S n) r) with
    (default (runner_moves n r) (runner_step (runner_moves n r))).
  destruct (runner_step (runner_moves n r)) as [r'|] eqn:Hs; [|done]. eapply runs_step; [exact IH|]. by apply runtime_runner.
Qed.

Lemma running_runs : runs_to Example_jobs.write_value map_to_list World_make running.
Proof.
  eapply runs_step; [apply (moves_run 3), queued_runs|]. apply runtime_run. reflexivity.
Qed.
End Example_runtime.
Import Example_runtime.

Lemma jobs_run_once_in_order_witness : pushed running = popped running ++ m_queue running.
Proof.
  apply (jobs_run_once_in_order (L := Example_json.document_laws) Example_jobs.write_value map_to_list World_make running running_runs).
Defined.

Lemma jobs_are_kept_until_read_witness : getJob 1 running = true.
Proof.
  apply (proj1 (jobs_are_kept_until_read (L := Example_json.document_laws) Example_jobs.write_value map_to_list
    World_make running running_runs) 1 (set_start 3 (setChangeCallback (JobTaskStatus_make 1 false "scan" Example_jobs.location)))).
  - left.
  - reflexivity.
  - reflexivity.
Defined.

Lemma status_requests_answer_witness :
  jobStatus Example_jobs.write_value (fun _ => mkClock 5 7) 2 running = Ok (404, "Job 2 not found", running).
Proof.
  exact (status_requests_answer (L := Example_json.document_laws) Example_jobs.write_value map_to_list World_make running
    (fun _ => mkClock 5 7) 2 running_runs).
Defined.

Lemma runner_hands_over_the_queue_witness : exists k, let r' := runner_moves k queued in
  m_queue r' = [] /\ m_pool r' = [1] /\ m_runner r' = Getting.
Proof. apply (runner_hands_over_the_queue queued); done. Defined.

Lemma background_jobs_finish_once_witness :
  let p := Background.reports ([(Background.Processed 3, 1); (Background.Failure "late", 2)]
    ++ (Background.Finish (Some "gone"), 3) :: [(Background.Finish None, 4)]) (Background.Progress_make "phash" 0) in
  Background.posts p = 1%nat.
Proof.
  refine (proj1 (proj2 (Background.background_jobs_finish_once (J := Example_json.document)
    [(Background.Processed 3, 1); (Background.Failure "late", 2)] (Some "gone") 3
    [(Background.Finish None, 4)] "phash" 0 9 (JobTaskStatus_make 1 true "phash" Example_jobs.location) _))).
  repeat constructor.
Defined.
