(* ===== verification/ScanFiles.v ===== *)
(** * Scanning a cluster: the files and what is done to one of them

    [IDHANServer/src/scanning]: [ScanDirectory.cpp], and the functions of
    [clusterScan.cpp] up to [scanFile], with [PathHelpers.cpp] and the options
    of [httpapi/clusterScan.cpp].

    A directory iterator is the listing it will walk: entries, then an end or
    an error.  [scanFile] and [preflightMissingFiles] ask the file system, the
    database and the media modules for everything they do, so they are programs
    of [Request]s in a free monad: their runs are all sequences of answers and
    exceptions the rest of the world may give. *)
From S2P Require Import Prelude StringView.

(** ** Paths *)

(** A path is its components, the last one being the file name. *)
Abbreviation path := (list string).

Fixpoint path_string (p : path) : string :=
  match p with [] => EmptyString | [c] => c | c :: p => c +:+ "/" +:+ path_string p end.

Definition filename (p : path) : string := default EmptyString (last p).

(** [path::extension]: from the last dot, unless the name starts with it. *)
Definition extension_at (name : string) : nat :=
  if (String.eqb name ".") || (String.eqb name "..") then String.length name
  else match find_last_of "." name with
    | Some (S dot) => S dot
    | _ => String.length name
    end.
Definition path_extension (p : path) : string := sdrop (extension_at (filename p)) (filename p).
Definition stem (p : path) : string := stake (extension_at (filename p)) (filename p).

Definition remove_leading_dot (s : string) : string := if starts_with "." s then sdrop 1 s else s.

Definition fileExtension (p : path) : string := remove_leading_dot (path_extension p).

(** The place of a file below the root of its cluster. *)
Definition getClusterRelativePath (sha256 : list Z) (extension : string) : path :=
  let extension := remove_leading_dot extension in
  let name := if String.eqb extension EmptyString then hex sha256 else hex sha256 +:+ "." +:+ extension in
  ["f" +:+ stake 2 (hex sha256); name].

(** ** Options *)

Inductive ScanMode := Disabled | MissingOnly | Always.

Record ScanOptions := mkOptions {
  read_only : bool;
  verify_hash : bool;
  adopt_orphans : bool;
  mime : ScanMode;
  metadata : ScanMode;
  stop_on_fail : bool;
  track_missing_files : bool;
  fix_extensions : bool;
  concurrency : Z
}.

Record ClusterScanParams := mkParams {
  p_read_only : bool;
  p_force_readonly : bool;
  p_verify_hash : bool;
  p_adopt_orphans : bool;
  scan_mime : bool;
  rescan_mime : bool;
  scan_metadata : bool;
  rescan_metadata : bool;
  p_stop_on_fail : bool;
  p_track_missing_files : bool;
  p_fix_extensions : bool;
  p_concurrency : Z
}.

Definition scanMode (scan_missing rescan : bool) : ScanMode :=
  if rescan then Always else if scan_missing then MissingOnly else Disabled.

Definition scanOptions (p : ClusterScanParams) : ScanOptions :=
  mkOptions (p_read_only p) (p_verify_hash p) (p_adopt_orphans p) (scanMode (scan_mime p) (rescan_mime p))
    (scanMode (scan_metadata p) (rescan_metadata p)) (p_stop_on_fail p) (p_track_missing_files p) (p_fix_extensions p) (p_concurrency p).

Record FileTimes := mkTimes { mtime : Z; btime : option Z }.

(** Nanoseconds since the epoch; [duration_cast] truncates. *)
Definition toMicroseconds (time_point : Z) : Z := Z.quot time_point 1000.

Record RecordFileState := mkState {
  record_id : Z;
  state_cluster : option Z;
  state_mime : option Z;
  state_extension : option string;
  best_extension : option string;
  state_size : option Z;
  mtime_us : option Z;
  btime_us : option Z;
  stored : bool;
  has_metadata : bool
}.

Record ScanPlan := mkPlan { detect_mime : bool; parse_metadata : bool; plan_verify_hash : bool }.

Definition needsScan (mode : ScanMode) (present : bool) : bool :=
  match mode with Always => true | Disabled => false | MissingOnly => negb present end.

Definition is_some {A} (o : option A) : bool := match o with Some _ => true | None => false end.

Definition planScan (options : ScanOptions) (state : option RecordFileState) : ScanPlan :=
  mkPlan (needsScan (mime options) (match state with Some s => is_some (state_mime s) | None => false end))
    (needsScan (metadata options) (match state with Some s => has_metadata s | None => false end))
    (verify_hash options || negb (is_some state)).

Definition fileInfoMatches (state : RecordFileState) (cluster_id size : Z) (mime_id : option Z) (extension : string) (times : FileTimes) : bool :=
  bool_decide (state_cluster state = Some cluster_id) && bool_decide (state_size state = Some size)
  && bool_decide (state_mime state = mime_id) && bool_decide (state_extension state = Some extension)
  && bool_decide (mtime_us state = Some (toMicroseconds (mtime times))) && bool_decide (btime_us state = toMicroseconds <$> btime times)
  && stored state.

(** ** Walking the files of a cluster *)

Record ScanCandidate := mkCandidate { c_path : path; c_size : Z }.
Record ScanFailure := mkFailure { f_path : path; f_message : string }.

(** What a directory iterator has ahead of it; [Breaks] is the error its
    construction or an increment ends with. *)
Inductive listing (A : Type) := Ended | Breaks (message : string) | Entry (a : A) (rest : listing A).
Arguments Ended {A}.
Arguments Breaks {A} message.
Arguments Entry {A} a rest.

Inductive FileKind := Regular | Directory | Other_kind.

#[export] Instance FileKind_eq_dec : EqDecision FileKind.
Proof. solve_decision. Defined.

(** The answers the entries give when they are asked; [inl] is an error. *)
Record FileEntry := mkFileEntry { entry_name : string; entry_status : string + FileKind; entry_size : string + Z }.
Record FolderEntry := mkFolder { folder_name : string; folder_status : string + FileKind; folder_files : listing FileEntry }.

Record ScanDirectory := mkDirectory {
  m_root : path;
  m_folders : listing FolderEntry;
  m_files : listing FileEntry;
  m_failure : option ScanFailure;
  m_advance_file : bool;
  m_advance_folder : bool
}.

(** An error leaves the end iterator. *)
Definition opened {A} (l : listing A) : listing A * option string :=
  match l with Breaks message => (Ended, Some message) | l => (l, None) end.

Definition ScanDirectory_make (root : path) (folders : listing FolderEntry) : ScanDirectory :=
  let '(folders, error) := opened folders in
  mkDirectory root folders Ended (mkFailure root <$> error) false false.

Definition increment {A} (l : listing A) : listing A * option string :=
  match l with Entry _ rest => opened rest | l => (l, None) end.

Definition folder_path (d : ScanDirectory) : path :=
  match m_folders d with Entry f _ => m_root d ++ [folder_name f] | _ => m_root d end.

Definition NextFile : Type := ScanFailure + option ScanCandidate.

(** The loop of [next], one turn per unit of fuel. *)
Fixpoint next_loop (fuel : nat) (d : ScanDirectory) : option (NextFile * ScanDirectory) :=
  match fuel with
  | O => None
  | S fuel =>
      let '(files, error) := if m_advance_file d then increment (m_files d) else (m_files d, None) in
      let d := mkDirectory (m_root d) (m_folders d) files (m_failure d) false (m_advance_folder d) in
      match error with
      | Some message => Some (inl (mkFailure (folder_path d) message), d)
      | None =>
          match files with
          | Entry entry _ =>
              let d := mkDirectory (m_root d) (m_folders d) files (m_failure d) true (m_advance_folder d) in
              let file := folder_path d ++ [entry_name entry] in
              if String.eqb (path_extension file) ".thumbnail" then next_loop fuel d
              else match entry_status entry with
                | inl message => Some (inl (mkFailure file message), d)
                | inr status =>
                    if decide (status = Regular) then
                      match entry_size entry with
                      | inl message => Some (inl (mkFailure file message), d)
                      | inr size => Some (inr (Some (mkCandidate file size)), d)
                      end
                    else next_loop fuel d
                end
          | _ =>
              let '(folders, error) := if m_advance_folder d then increment (m_folders d) else (m_folders d, None) in
              let d := mkDirectory (m_root d) folders files (m_failure d) (m_advance_file d) false in
              match error with
              | Some message => Some (inl (mkFailure (m_root d) message), d)
              | None =>
                  match folders with
                  | Entry folder _ =>
                      let d := mkDirectory (m_root d) folders files (m_failure d) (m_advance_file d) true in
                      if String.eqb (folder_name folder) "bad" then next_loop fuel d
                      else match folder_status folder with
                        | inl message => Some (inl (mkFailure (folder_path d) message), d)
                        | inr status =>
                            if decide (status = Directory) then
                              let '(files, error) := opened (folder_files folder) in
                              let d := mkDirectory (m_root d) folders files (m_failure d) (m_advance_file d) (m_advance_folder d) in
                              match error with
                              | Some message => Some (inl (mkFailure (folder_path d) message), d)
                              | None => next_loop fuel d
                              end
                            else next_loop fuel d
                        end
                  | _ => Some (inr None, d)
                  end
              end
          end
      end
  end.

Definition next (fuel : nat) (d : ScanDirectory) : option (NextFile * ScanDirectory) :=
  match m_failure d with
  | Some failure =>
      Some (inl failure, mkDirectory (m_root d) (m_folders d) (m_files d) None (m_advance_file d) (m_advance_folder d))
  | None => next_loop fuel d
  end.

(** ** The files of a cluster, once and in order

    The reference: what a walk over the two levels meets. *)
Definition file_outcome (root : path) (folder : string) (e : FileEntry) : list (ScanFailure + ScanCandidate) :=
  let file := root ++ [folder; entry_name e] in
  if String.eqb (path_extension file) ".thumbnail" then []
  else match entry_status e with
    | inl message => [inl (mkFailure file message)]
    | inr Regular => [match entry_size e with inl message => inl (mkFailure file message) | inr size => inr (mkCandidate file size) end]
    | inr _ => []
    end.

Fixpoint files_walk (root : path) (folder : string) (l : listing FileEntry) : list (ScanFailure + ScanCandidate) :=
  match l with
  | Ended => []
  | Breaks message => [inl (mkFailure (root ++ [folder]) message)]
  | Entry e rest => file_outcome root folder e ++ files_walk root folder rest
  end.

Definition folder_outcome (root : path) (f : FolderEntry) : list (ScanFailure + ScanCandidate) :=
  if String.eqb (folder_name f) "bad" then []
  else match folder_status f with
    | inl message => [inl (mkFailure (root ++ [folder_name f]) message)]
    | inr Directory => files_walk root (folder_name f) (folder_files f)
    | inr _ => []
    end.

Fixpoint walk (root : path) (l : listing FolderEntry) : list (ScanFailure + ScanCandidate) :=
  match l with
  | Ended => []
  | Breaks message => [inl (mkFailure root message)]
  | Entry f rest => folder_outcome root f ++ walk root rest
  end.

Fixpoint listing_length {A} (size : A -> nat) (l : listing A) : nat :=
  match l with Ended => 0 | Breaks _ => 1 | Entry a rest => 1 + size a + listing_length size rest end%nat.

Definition folder_size (f : FolderEntry) : nat := listing_length (fun _ => 0%nat) (folder_files f).

(** Enough turns for one call: one per entry, two more. *)
Definition walk_fuel (l : listing FolderEntry) : nat := (2 + listing_length folder_size l)%nat.

Definition after {A} (b : bool) (l : listing A) : listing A := if b then match l with Entry _ rest => rest | l => l end else l.

Definition current_folder (d : ScanDirectory) : string := match m_folders d with Entry f _ => folder_name f | _ => EmptyString end.

(** What is still to come. *)
Definition remaining (d : ScanDirectory) : list (ScanFailure + ScanCandidate) :=
  (match m_failure d with Some f => [inl f] | None => [] end)
  ++ files_walk (m_root d) (current_folder d) (after (m_advance_file d) (m_files d))
  ++ walk (m_root d) (after (m_advance_folder d) (m_folders d)).

Definition turns (d : ScanDirectory) : nat :=
  (listing_length (fun _ => 0%nat) (after (m_advance_file d) (m_files d))
  + listing_length folder_size (after (m_advance_folder d) (m_folders d)))%nat.

(** Errors never wait in an iterator, a set flag stands on an entry, and files
    belong to the folder the iterator stands on. *)
Definition is_entry {A} (l : listing A) : Prop := match l with Entry _ _ => True | _ => False end.
Definition is_breaks {A} (l : listing A) : Prop := match l with Breaks _ => True | _ => False end.

Record directory_ok (d : ScanDirectory) : Prop := {
  ok_files : ~ is_breaks (m_files d);
  ok_folders : ~ is_breaks (m_folders d);
  ok_advance_file : m_advance_file d = true -> is_entry (m_files d);
  ok_advance_folder : m_advance_folder d = true -> is_entry (m_folders d);
  ok_in_folder : is_entry (m_files d) -> m_advance_folder d = true
}.

Definition next_item (o : NextFile) : list (ScanFailure + ScanCandidate) :=
  match o with inl f => [inl f] | inr (Some c) => [inr c] | inr None => [] end.

Definition returns (fuel : nat) (d : ScanDirectory) : Prop := exists o d',
  next_loop fuel d = Some (o, d') /\ directory_ok d' /\ m_root d' = m_root d /\ (turns d' <= turns d)%nat
  /\ remaining d = next_item o ++ remaining d' /\ (o = inr None -> remaining d' = []) /\ m_failure d' = None.

(** A turn that passes over something, and one that returns. *)
Lemma returns_skip fuel fuel' d d' : next_loop fuel d = next_loop fuel' d' -> m_root d' = m_root d -> (turns d' <= turns d)%nat ->
  remaining d = remaining d' -> returns fuel' d' -> returns fuel d.
Proof.
  intros He Hr Ht Hrem (o & d'' & H1 & H2 & H3 & H4 & H5 & H6 & H7). exists o, d''. rewrite He, Hrem, <- Hr.
  split; [done|]. split; [done|]. split; [done|]. split; [lia|done].
Qed.

Lemma returns_item fuel d o d' : next_loop fuel d = Some (o, d') -> directory_ok d' -> m_root d' = m_root d -> (turns d' <= turns d)%nat ->
  remaining d = next_item o ++ remaining d' -> o <> inr None -> m_failure d' = None -> returns fuel d.
Proof. intros. exists o, d'. do 5 (split; [done|]). by split. Qed.

Lemma two_components (root : path) a b : (root ++ [a]) ++ [b] = root ++ [a; b].
Proof. by rewrite <- app_assoc. Qed.

Ltac turn := cbn [next_loop m_advance_file m_advance_folder m_root m_folders m_files m_failure folder_path opened increment].

Section turn.
Context (fuel : nat) (root : path).
Hypothesis IH : forall d, m_root d = root -> directory_ok d -> m_failure d = None -> (turns d < fuel)%nat -> returns fuel d.

(** A turn with nothing to advance and no file at hand. *)
Lemma turn_folders folders : ~ is_breaks folders -> (listing_length folder_size folders < Datatypes.S fuel)%nat ->
  returns (Datatypes.S fuel) (mkDirectory root folders Ended None false false).
Proof.
  intros Hb Ht. destruct folders as [|m|f rest]; [|done|].
  { eexists _, _. split; [reflexivity|]. by repeat split. }
  cbn [listing_length] in Ht. set (d := mkDirectory root (Entry f rest) Ended None false false).
  set (d1 := mkDirectory root (Entry f rest) Ended None false true). assert (H1 : directory_ok d1) by by split.
  assert (Hle : (turns d1 <= turns d)%nat) by (unfold turns; cbn [d d1 after m_advance_file m_files m_advance_folder m_folders listing_length]; lia).
  assert (Hlt : (turns d1 < fuel)%nat) by (unfold turns; cbn [d1 after m_advance_file m_files m_advance_folder m_folders listing_length]; lia).
  assert (Hrem : remaining d = folder_outcome root f ++ remaining d1) by done.
  assert (Hnext : returns fuel d1) by (by apply IH).
  unfold folder_outcome in Hrem. destruct (String.eqb (folder_name f) "bad") eqn:Hbad.
  { apply (returns_skip _ fuel d d1); [|done..]. unfold d. turn. by rewrite Hbad. }
  destruct (folder_status f) as [message|status] eqn:Hst.
  { eapply (returns_item _ d _ d1); [unfold d; turn; by rewrite Hbad, Hst|done..]. }
  destruct (decide (status = Directory)) as [Hs|Hs]; [subst status|].
  2:{ apply (returns_skip _ fuel d d1); [|done|done|by destruct status|done]. unfold d. turn. rewrite Hbad, Hst. by rewrite decide_False. }
  destruct (folder_files f) as [|message|e files] eqn:Hfiles.
  - apply (returns_skip _ fuel d d1); [|done..]. unfold d. turn. by rewrite Hbad, Hst, decide_True, Hfiles by done.
  - eapply (returns_item _ d _ d1); [unfold d; turn; by rewrite Hbad, Hst, decide_True, Hfiles by done|done..].
  - assert (Hsize : folder_size f = listing_length (fun _ => 0%nat) (Entry e files)) by (unfold folder_size; by rewrite Hfiles).
    rewrite Hsize in Ht.
    apply (returns_skip _ fuel d (mkDirectory root (Entry f rest) (Entry e files) None false true)); [|done| |done|].
    + unfold d. turn. by rewrite Hbad, Hst, decide_True, Hfiles by done.
    + unfold turns, d. cbn [after m_advance_file m_files m_advance_folder m_folders listing_length]. rewrite Hsize.
      cbn [listing_length]. lia.
    + apply IH; [done|by split|done|]. unfold turns. cbn [after m_advance_file m_files m_advance_folder m_folders]. lia.
Qed.

(** A turn with nothing to advance and a file at hand. *)
Lemma turn_file f rest e files : ~ is_breaks (Entry e files) -> let d := mkDirectory root (Entry f rest) (Entry e files) None false true in
  (turns d < Datatypes.S fuel)%nat -> returns (Datatypes.S fuel) d.
Proof.
  intros Hb d Ht. set (d1 := mkDirectory root (Entry f rest) (Entry e files) None true true).
  assert (H1 : directory_ok d1) by by split.
  assert (Hlt : (turns d1 < fuel)%nat).
  { unfold turns in *. cbn [d d1 after m_advance_file m_files m_advance_folder m_folders listing_length] in *. lia. }
  assert (Hle : (turns d1 <= turns d)%nat).
  { unfold turns. cbn [d d1 after m_advance_file m_files m_advance_folder m_folders listing_length]. lia. }
  assert (Hrem : remaining d = file_outcome root (folder_name f) e ++ remaining d1) by (unfold remaining; cbn; by rewrite <- app_assoc).
  assert (Hnext : returns fuel d1) by (by apply IH).
  unfold file_outcome in Hrem. destruct (String.eqb (path_extension (root ++ [folder_name f; entry_name e])) ".thumbnail") eqn:Hthumb.
  { apply (returns_skip _ fuel d d1); [|done..]. unfold d. turn. by rewrite two_components, Hthumb. }
  destruct (entry_status e) as [message|status] eqn:Hst.
  { eapply (returns_item _ d _ d1); [unfold d; turn; by rewrite two_components, Hthumb, Hst|done..]. }
  destruct (decide (status = Regular)) as [Hs|Hs]; [subst status|].
  - destruct (entry_size e) as [message|size] eqn:Hsize.
    + eapply (returns_item _ d _ d1).
      { unfold d. turn. rewrite two_components, Hthumb, Hst, decide_True, Hsize by done. reflexivity. }
      all: done.
    + eapply (returns_item _ d _ d1).
      { unfold d. turn. rewrite two_components, Hthumb, Hst, decide_True, Hsize by done. reflexivity. }
      all: done.
  - apply (returns_skip _ fuel d d1); [|done|done|by destruct status|done]. unfold d. turn.
    rewrite two_components, Hthumb, Hst. by rewrite decide_False.
Qed.

(** The flags are put down first. *)
Lemma turn_any d : m_root d = root -> directory_ok d -> m_failure d = None -> (turns d < Datatypes.S fuel)%nat -> returns (Datatypes.S fuel) d.
Proof.
  destruct d as [r folders files failure adv_file adv_folder]. cbn. intros -> Hok -> Ht.
  destruct Hok as [Hb1 Hb2 Ha1 Ha2 Hin]. cbn in Hb1, Hb2, Ha1, Ha2, Hin.
  assert (Hfolder : forall adv, ~ is_breaks folders -> (adv = true -> is_entry folders) ->
    (listing_length folder_size (after adv folders) < Datatypes.S fuel)%nat ->
    returns (Datatypes.S fuel) (mkDirectory root folders Ended None false adv)).
  { intros adv Hb Ha Hl. destruct adv; [|by apply turn_folders]. destruct folders as [|m|f rest]; [by destruct Ha|done|].
    destruct rest as [|m|f' rest].
    - eapply (returns_skip _ (Datatypes.S fuel)); [| | | |by apply (turn_folders Ended)]; done.
    - eapply returns_item; [reflexivity| | | | | |]; try done. unfold turns. cbn. lia.
    - eapply (returns_skip _ (Datatypes.S fuel)); [| | | |by apply (turn_folders (Entry f' rest))]; done. }
  assert (Hfile : forall files, ~ is_breaks files -> (is_entry files -> adv_folder = true) ->
    (turns (mkDirectory root folders files None false adv_folder) < Datatypes.S fuel)%nat ->
    returns (Datatypes.S fuel) (mkDirectory root folders files None false adv_folder)).
  { intros fs Hb Hi Hl. destruct fs as [|m|e fs]; [|done|].
    - by apply Hfolder.
    - rewrite (Hi I) in *. destruct folders as [|m|f rest]; [by destruct Ha2|done|]. by apply turn_file. }
  destruct adv_file; [|by apply Hfile]. destruct files as [|m|e files]; [by destruct Ha1|done|].
  rewrite (Hin I) in *. destruct files as [|m|e' files].
  - eapply (returns_skip _ (Datatypes.S fuel)); [| | | |by apply (Hfile Ended)]; done.
  - eapply returns_item; [reflexivity|..]; try done; [unfold turns; cbn; lia|].
    destruct folders as [|?|f rest]; [by destruct Ha2|done|]. done.
  - eapply (returns_skip _ (Datatypes.S fuel)); [| | | |by apply (Hfile (Entry e' files))]; done.
Qed.
End turn.

Lemma next_loop_returns fuel d : directory_ok d -> m_failure d = None -> (turns d < fuel)%nat -> returns fuel d.
Proof.
  intros Hok Hf Ht. remember (m_root d) as root eqn:Hr. revert d Hr Hok Hf Ht.
  induction fuel as [|fuel IH]; intros d Hr Hok Hf Ht; [lia|]. apply (turn_any fuel root); [|done..].
  intros d' Hr' Hok' Hf' Ht'. by apply IH.
Qed.

(** All outcomes up to the end, by calls of [next]. *)
Fixpoint collect (n fuel : nat) (d : ScanDirectory) : option (list (ScanFailure + ScanCandidate)) :=
  match n with
  | O => None
  | S n =>
      '(o, d) ← next fuel d;
      match o with
      | inr None => Some []
      | o => (fun l => next_item o ++ l) <$> collect n fuel d
      end
  end.

Lemma next_returns fuel d : directory_ok d -> (turns d < fuel)%nat -> exists o d',
  next fuel d = Some (o, d') /\ directory_ok d' /\ (turns d' <= turns d)%nat
  /\ remaining d = next_item o ++ remaining d' /\ (o = inr None -> remaining d' = []).
Proof.
  intros Hok Ht. unfold next. destruct (m_failure d) as [failure|] eqn:Hf.
  - eexists _, _. split; [reflexivity|]. split; [by destruct Hok; split|]. split; [done|]. split; [|done]. unfold remaining. by rewrite Hf.
  - destruct (next_loop_returns fuel d Hok Hf Ht) as (o & d' & H1 & H2 & _ & H4 & H5 & H6 & _). by exists o, d'.
Qed.

Lemma collect_remaining n fuel d : directory_ok d -> (turns d < fuel)%nat -> (length (remaining d) < n)%nat -> collect n fuel d = Some (remaining d).
Proof.
  revert d. induction n as [|n IH]; intros d Hok Ht Hn; [lia|]. cbn [collect].
  destruct (next_returns fuel d Hok Ht) as (o & d' & -> & Hok' & Ht' & Hrem & Hend). cbn [mbind option_bind].
  rewrite Hrem in *. destruct o as [f|[c|]]; cbn [next_item] in *.
  - rewrite IH by (done || lia || (cbn in Hn; lia)). done.
  - rewrite IH by (done || lia || (cbn in Hn; lia)). done.
  - by rewrite Hend.
Qed.

(** C23: the calls of [next] on a new scan directory return, for the folders of
    the cluster in order, each of their regular files once, in order, and each
    error in its place; folders named [bad], thumbnails and what is no regular
    file are passed over; then they report the end. *)
Theorem scan_directory_walks root folders :
  collect (S (length (walk root folders))) (walk_fuel folders) (ScanDirectory_make root folders) = Some (walk root folders).
Proof.
  assert (Hrem : remaining (ScanDirectory_make root folders) = walk root folders).
  { unfold remaining, ScanDirectory_make. destruct folders; cbn; done. }
  rewrite <- Hrem. apply collect_remaining; [| |lia].
  - unfold ScanDirectory_make. destruct folders; split; cbn; tauto || discriminate.
  - unfold walk_fuel, turns, ScanDirectory_make. destruct folders; cbn; lia.
Qed.

(** ** One file: the requests *)

Record MetadataError := mkMetadataError { e_status : Z; e_message : string }.

Record ClusterRecordFile := mkRecordFile { r_record : Z; r_hash : list Z; r_extension : string }.

(** What [std::filesystem::status] says. *)
Inductive Status := Missing | Status_error (message : string) | Is_regular | Is_other.

(** What is said to the progress of a scan, besides the stages of a file. *)
Inductive Telling := Set_phase (phase : string) | Checked_record | Record_failure (file : path) (message : string).

Section scan.
(** What a media module reads from a file. *)
Context {MetadataInfo : Type}.

Inductive Request : Type -> Type :=
| Verify : Request (option string)
| Find_record_file_state (hash : list Z) : Request (option RecordFileState)
| Open_cluster (id : Z) : Request (string + path)
| Ask_status (file : path) : Request Status
| Set_stage (stage : string) : Request unit
| Hash_file (file : path) : Request (list Z)
| Identify_mime (file : path) : Request Z
| Best_mime_extension (mime_id : Z) : Request (option string)
| Create_directories (directory : path) : Request (option string)
| Rename_no_replace (from to : path) : Request (option string)
| Get_file_times (file : path) : Request (option FileTimes)
| Ensure_record (hash : list Z) : Request (string + Z)
| Store_record_file_info (record cluster size : Z) (mime_id : option Z) (extension : string) (times : FileTimes) : Request unit
| Parse_record_metadata (record mime_id : Z) (file : path) : Request (MetadataError + MetadataInfo)
| Store_record_metadata (record : Z) (file : path) (info : MetadataInfo) : Request (option MetadataError)
| Cluster_record_files (after limit : Z) : Request (list ClusterRecordFile)
| Detach_missing_record_file (record : Z) : Request unit
| Tell (t : Telling) : Request unit.

(** Programs of requests. *)
Inductive prog (A : Type) : Type :=
| Return (a : A)
| Ask {X : Type} (r : Request X) (k : X -> prog A).
Arguments Return {A} a.
Arguments Ask {A X} r k.

Fixpoint bind {A B} (p : prog A) (f : A -> prog B) : prog B :=
  match p with Return a => f a | Ask r k => Ask r (fun x => bind (k x) f) end.

Record ScanError := mkScanError { message : string; cluster_unavailable : bool }.
Definition ScanResult : Type := ScanError + unit.

(** With early return of an error. *)
Definition scanM (A : Type) : Type := prog (ScanError + A).
Definition ask {X} (r : Request X) : scanM X := Ask r (fun x => Return (inr x)).
Definition fails {A} (message : string) (cluster_unavailable : bool) : scanM A := Return (inl (mkScanError message cluster_unavailable)).
#[local] Instance scan_ret : MRet scanM := fun A a => Return (inr a).
#[local] Instance scan_bind : MBind scanM := fun A B f m =>
  bind m (fun r => match r with inl e => Return (inl e) | inr a => f a end).

(** [access.verify()], an error of which makes the cluster unavailable. *)
Definition verify : scanM unit :=
  valid ← ask Verify;
  match valid with None => mret tt | Some e => fails e true end.

Definition parent_path (p : path) : path := removelast p.

Definition moveWithoutReplacing (from to : path) : scanM unit :=
  created ← ask (Create_directories (parent_path to));
  match created with
  | Some e => fails ("Cannot create " +:+ path_string (parent_path to) +:+ ": " +:+ e) false
  | None =>
      renamed ← ask (Rename_no_replace from to);
      match renamed with
      | Some e => fails ("Cannot move " +:+ path_string from +:+ " to " +:+ path_string to +:+ ": " +:+ e) false
      | None => mret tt
      end
  end.

Definition checkAssignedFile (state : RecordFileState) (cluster_id : Z) (hash : list Z) : scanM unit :=
  match state_cluster state with
  | None => mret tt
  | Some assigned_id =>
      if decide (assigned_id = cluster_id) then mret tt
      else
        assigned ← ask (Open_cluster assigned_id);
        match assigned with
        | inl e => fails e true
        | inr assigned_root =>
            let extension := default (default EmptyString (best_extension state)) (state_extension state) in
            let file := assigned_root ++ getClusterRelativePath hash extension in
            status ← ask (Ask_status file);
            match status with
            | Status_error e => fails ("Cannot inspect assigned file " +:+ path_string file +:+ ": " +:+ e) false
            | Is_regular =>
                fails ("Record " +:+ to_string (record_id state) +:+ " is already stored in cluster " +:+ to_string assigned_id) false
            | Missing | Is_other => mret tt
            end
        end
  end.

Definition mime_unknown : Z := 1.

(** *** Records without a file

    The pages of [preflightMissingFiles], at most [pages] of them; [None] when
    these are not enough.  [inl] is an error, [true] asks to stop. *)
Fixpoint preflight_page (cluster_id : Z) (root : path) (options : ScanOptions) (files : list ClusterRecordFile) (after_record_id : Z)
    (next_page : Z -> prog (option (string + bool))) : prog (option (string + bool)) :=
  match files with
  | [] => next_page after_record_id
  | f :: files =>
      let file := root ++ getClusterRelativePath (r_hash f) (r_extension f) in
      let go_on := preflight_page cluster_id root options files (r_record f) next_page in
      Ask (Ask_status file) (fun status =>
        match status with
        | Status_error e => Return (Some (inl ("Cannot inspect " +:+ path_string file +:+ ": " +:+ e)))
        | _ =>
            Ask (Tell Checked_record) (fun _ =>
              match status with
              | Is_regular => go_on
              | _ =>
                  Ask Verify (fun still_valid =>
                    match still_valid with
                    | Some e => Return (Some (inl e))
                    | None =>
                        Ask (Detach_missing_record_file (r_record f)) (fun _ =>
                          Ask (Tell (Record_failure file
                            ("Cluster " +:+ to_string cluster_id +:+ " is missing record " +:+ to_string (r_record f)))) (fun _ =>
                            if stop_on_fail options then Return (Some (inr true)) else go_on))
                    end)
              end)
        end)
  end.

Fixpoint preflight_pages (cluster_id : Z) (root : path) (options : ScanOptions) (pages : nat) (after_record_id : Z)
    : prog (option (string + bool)) :=
  match pages with
  | O => Return None
  | S pages =>
      Ask Verify (fun valid =>
        match valid with
        | Some e => Return (Some (inl e))
        | None =>
            Ask (Cluster_record_files after_record_id 1024) (fun files =>
              match files with
              | [] => Return (Some (inr false))
              | _ => preflight_page cluster_id root options files after_record_id (preflight_pages cluster_id root options pages)
              end)
        end)
  end.

Definition preflightMissingFiles (cluster_id : Z) (root : path) (options : ScanOptions) (pages : nat) : prog (option (string + bool)) :=
  if track_missing_files options then
    Ask (Tell (Set_phase "checking_missing_files")) (fun _ => preflight_pages cluster_id root options pages 0)
  else Return (Some (inr false)).

(** The stages of [scanFile], in order. *)
Definition check_hash (candidate : ScanCandidate) (hash : list Z) (plan : ScanPlan) : scanM unit :=
  if plan_verify_hash plan then
    _ ← ask (Set_stage "hashing");
    actual ← ask (Hash_file (c_path candidate));
    if decide (actual = hash) then mret tt
    else fails ("Filename does not match SHA-256: " +:+ path_string (c_path candidate)) false
  else mret tt.

Definition find_mime (candidate : ScanCandidate) (state : option RecordFileState) (plan : ScanPlan) : scanM (option Z) :=
  if detect_mime plan then
    _ ← ask (Set_stage "detecting_mime");
    detected ← ask (Identify_mime (c_path candidate));
    mret (if decide (detected = mime_unknown) then None else Some detected)
  else mret (s ← state; state_mime s).

Definition choose_extension (candidate : ScanCandidate) (state : option RecordFileState) (options : ScanOptions) (mime_id : option Z)
    : scanM string :=
  let extension := fileExtension (c_path candidate) in
  match mime_id with
  | Some m =>
      if fix_extensions options && negb (read_only options) then
        best ← match state with
          | Some s => if decide (state_mime s = mime_id) then mret (best_extension s) else ask (Best_mime_extension m)
          | None => ask (Best_mime_extension m)
          end;
        mret match best with Some (String _ _ as best) => best | _ => extension end
      else mret extension
  | None => mret extension
  end.

Definition move_file (candidate : ScanCandidate) (destination : path) : scanM path :=
  if decide (c_path candidate = destination) then mret (c_path candidate)
  else
    _ ← ask (Set_stage "moving_file");
    _ ← verify;
    _ ← moveWithoutReplacing (c_path candidate) destination;
    mret destination.

Definition update_database (cluster_id : Z) (candidate : ScanCandidate) (file : path) (hash : list Z) (state : option RecordFileState)
    (mime_id : option Z) (extension : string) (times : FileTimes) : scanM Z :=
  _ ← ask (Set_stage "updating_database");
  record ← match state with
    | Some s => mret (record_id s)
    | None =>
        created ← ask (Ensure_record hash);
        match created with inl e => fails e false | inr record => mret record end
    end;
  let size := c_size candidate in
  let unchanged := match state with Some s => fileInfoMatches s cluster_id size mime_id extension times | None => false end in
  _ ← (if unchanged then mret tt else ask (Store_record_file_info record cluster_id size mime_id extension times));
  mret record.

Definition metadata_error {A} (e : MetadataError) : scanM A := fails (e_message e) (e_status e =? 503).

Definition scan_metadata_of (record : Z) (file : path) (mime_id : option Z) (plan : ScanPlan) : scanM unit :=
  match mime_id with
  | None => mret tt
  | Some m =>
      if parse_metadata plan then
        _ ← ask (Set_stage "parsing_metadata");
        parsed ← ask (Parse_record_metadata record m file);
        match parsed with
        | inl e => metadata_error e
        | inr info =>
            _ ← ask (Set_stage "storing_metadata");
            stored ← ask (Store_record_metadata record file info);
            match stored with Some e => metadata_error e | None => mret tt end
        end
      else mret tt
  end.

Definition scanFile (cluster_id : Z) (root : path) (candidate : ScanCandidate) (options : ScanOptions) : scanM unit :=
  let file := path_string (c_path candidate) in
  if c_size candidate =? 0 then fails ("Empty file: " +:+ file) false
  else if int64_max <? c_size candidate then fails ("File is too large for the database: " +:+ file) false
  else match fromHex (stem (c_path candidate)) with
  | inl _ => fails ("Invalid hash in filename: " +:+ file) false
  | inr hash =>
      let canonical_path := root ++ getClusterRelativePath hash (fileExtension (c_path candidate)) in
      if read_only options && negb (bool_decide (c_path candidate = canonical_path)) then
        fails ("File is outside its hash directory: " +:+ file) false
      else
        _ ← verify;
        state ← ask (Find_record_file_state hash);
        if negb (is_some state) && negb (adopt_orphans options) then fails ("No record exists for " +:+ file) false
        else
          _ ← match state with Some s => checkAssignedFile s cluster_id hash | None => mret tt end;
          let plan := planScan options state in
          _ ← check_hash candidate hash plan;
          mime_id ← find_mime candidate state plan;
          extension ← choose_extension candidate state options mime_id;
          file ← move_file candidate (root ++ getClusterRelativePath hash extension);
          times ← ask (Get_file_times file);
          match times with
          | None => fails ("Cannot stat " +:+ path_string file) false
          | Some times =>
              _ ← verify;
              record ← update_database cluster_id candidate file hash state mime_id extension times;
              scan_metadata_of record file mime_id plan
          end
  end.
End scan.

Arguments Return {MetadataInfo A} a.
Arguments Ask {MetadataInfo A X} r k.

(** ** Runs of a program, and what holds along them *)
Section runs.
Context {MetadataInfo : Type}.
Notation Request := (@Request MetadataInfo).
Notation prog := (@prog MetadataInfo).
Notation scanM := (@scanM MetadataInfo).
#[local] Existing Instances scan_ret scan_bind.

Inductive event :=
| Asked {X : Type} (r : Request X) (x : X)
| Raised {X : Type} (r : Request X) (what : string).

(** Any answer may come, or an exception, which ends the program. *)
Inductive runs {A} : prog A -> list event -> result A -> Prop :=
| runs_return a : runs (Return a) [] (Ok a)
| runs_ask X (r : Request X) k x t o : runs (k x) t o -> runs (Ask r k) (Asked r x :: t) o
| runs_raise X (r : Request X) k what : runs (Ask r k) [Raised r what] (Throw (runtime_error what)).

(** What the answers so far have shown.  [f_verified]: the cluster was checked
    and nothing has been waited for since, but for bookkeeping and for creating
    the directory or the record that the check was made for. *)
Record Facts := mkFacts {
  f_verified : bool;
  f_state : option (option RecordFileState);
  f_hash : option (path * list Z);
  f_times : option FileTimes;
  f_record : option Z;
  f_moved : option path;
  f_status : option (path * Status);
  f_listed : list ClusterRecordFile
}.

Definition no_facts : Facts := mkFacts false None None None None None None [].

Definition set_verified (b : bool) (f : Facts) : Facts := 
  mkFacts b (f_state f) (f_hash f) (f_times f) (f_record f) (f_moved f) (f_status f) (f_listed f).

Definition note_answer {X} (f : Facts) (r : Request X) : X -> Facts :=
  match r in ScanFiles.Request X return X -> Facts with
  | Verify => fun valid => set_verified (negb (is_some valid)) f
  | Find_record_file_state _ => fun s => mkFacts false (Some s) (f_hash f) (f_times f) (f_record f) (f_moved f) (f_status f) (f_listed f)
  | Hash_file file => fun h => mkFacts false (f_state f) (Some (file, h)) (f_times f) (f_record f) (f_moved f) (f_status f) (f_listed f)
  | Get_file_times _ => fun t => mkFacts false (f_state f) (f_hash f) t (f_record f) (f_moved f) (f_status f) (f_listed f)
  | Ensure_record _ => fun r =>
      mkFacts (f_verified f) (f_state f) (f_hash f) (f_times f) (match r with inr record => Some record | inl _ => f_record f end) (f_moved f) (f_status f) (f_listed f)
  | Rename_no_replace _ to => fun e =>
      mkFacts false (f_state f) (f_hash f) (f_times f) (f_record f) (match e with None => Some to | Some _ => f_moved f end) (f_status f) (f_listed f)
  | Ask_status file => fun s => mkFacts false (f_state f) (f_hash f) (f_times f) (f_record f) (f_moved f) (Some (file, s)) (f_listed f)
  | Cluster_record_files _ _ => fun files => mkFacts false (f_state f) (f_hash f) (f_times f) (f_record f) (f_moved f) (f_status f) files
  | Set_stage _ | Create_directories _ | Tell _ => fun _ => f
  | _ => fun _ => set_verified false f
  end.

Definition note (f : Facts) (e : event) : Facts :=
  match e with Asked r x => note_answer f r x | Raised _ _ => f end.

Definition Demand : Type := Facts -> forall X, Request X -> Prop.

Definition demanded (P : Demand) (f : Facts) (e : event) : Prop :=
  match e with Asked r _ | Raised r _ => P f _ r end.

(** Every request of a trace meets the demand where it is made. *)
Fixpoint along (P : Demand) (f : Facts) (t : list event) : Prop :=
  match t with [] => True | e :: t => demanded P f e /\ along P (note f e) t end.

Fixpoint wp {A} (P : Demand) (f : Facts) (p : prog A) (Q : Facts -> A -> Prop) : Prop :=
  match p with Return a => Q f a | Ask r k => P f _ r /\ forall x, wp P (note_answer f r x) (k x) Q end.

Lemma wp_bind {A B} P (p : prog A) (g : A -> prog B) f Q : wp P f p (fun f a => wp P f (g a) Q) -> wp P f (bind p g) Q.
Proof. revert f. induction p as [a|X r k IH]; intros f; cbn; [done|]. intros [Hr Hk]. split; [done|]. intros x. by apply IH. Qed.

Lemma wp_runs {A} P (p : prog A) f Q t o : wp P f p Q -> runs p t o ->
  along P f t /\ forall a, o = Ok a -> Q (foldl note f t) a.
Proof.
  intros Hwp Hr. revert f Hwp. induction Hr as [a|X r k x t o Hr IH|X r k what]; intros f Hwp.
  - split; [done|]. by intros a' [= <-].
  - destruct Hwp as [Hd Hk]. destruct (IH _ (Hk x)) as [Ha Hq]. by split.
  - by destruct Hwp as [Hd _].
Qed.

(** For programs that may return an error. *)
Definition holds {A} (P : Demand) (f : Facts) (m : scanM A) (Q : Facts -> A -> Prop) : Prop :=
  wp P f m (fun f r => match r with inl _ => True | inr a => Q f a end).

Lemma holds_bind {A B} P f (m : scanM A) (g : A -> scanM B) Q :
  holds P f m (fun f a => holds P f (g a) Q) -> holds P f (m ≫= g) Q.
Proof.
  unfold holds. intros H. apply wp_bind. revert f H. induction m as [[e|a]|X r k IH]; intros f H; cbn in *; [done|done|].
  destruct H as [Hd Hk]. split; [done|]. intros x. by apply IH.
Qed.

Lemma holds_ask {X} (P : Demand) f (r : Request X) Q : P f X r -> (forall x, Q (note_answer f r x) x) -> holds P f (ask r) Q.
Proof. intros Hd Hq. by split. Qed.

Lemma holds_ret {A} P f (a : A) (Q : Facts -> A -> Prop) : Q f a -> holds P f (mret a) Q.
Proof. done. Qed.

Lemma holds_fails {A} P f e u (Q : Facts -> A -> Prop) : holds P f (fails e u) Q.
Proof. done. Qed.

Lemma holds_mono {A} P f (m : scanM A) (Q Q' : Facts -> A -> Prop) : holds P f m Q -> (forall f a, Q f a -> Q' f a) -> holds P f m Q'.
Proof.
  unfold holds. intros H HQ. revert f H. induction m as [[e|a]|X r k IH]; intros f H; cbn in *; [done|by apply HQ|].
  destruct H as [Hd Hk]. split; [done|]. intros x. by apply IH.
Qed.

(** ** What may be asked when *)

Section careful.
Context (cluster_id : Z) (root : path) (candidate : ScanCandidate) (options : ScanOptions).

(** The record, or the permission to adopt an orphan, and the hash of the
    content where it has to be checked. *)
Definition cleared (f : Facts) (hash : list Z) (state : option RecordFileState) : Prop :=
  fromHex (stem (c_path candidate)) = inr hash /\ f_state f = Some state /\ (state = None -> adopt_orphans options = true)
  /\ (plan_verify_hash (planScan options state) = true -> f_hash f = Some (c_path candidate, hash)).

Definition in_place (hash : list Z) (p : path) : Prop := exists extension, p = root ++ getClusterRelativePath hash extension.

Definition careful : Demand := fun f X r =>
  match r with
  | Create_directories directory =>
      f_verified f = true /\ read_only options = false
      /\ exists hash state to, cleared f hash state /\ in_place hash to /\ directory = parent_path to /\ c_path candidate <> to
  | Rename_no_replace from to =>
      f_verified f = true /\ read_only options = false /\ from = c_path candidate /\ from <> to
      /\ exists hash state, cleared f hash state /\ in_place hash to
  | Ensure_record h =>
      f_verified f = true /\ cleared f h None
  | Store_record_file_info record cluster size _ _ times =>
      f_verified f = true /\ cluster = cluster_id /\ size = c_size candidate /\ size <> 0 /\ size <= int64_max /\ f_times f = Some times
      /\ exists hash state, cleared f hash state /\ Some record = match state with Some s => Some (record_id s) | None => f_record f end
  | Parse_record_metadata record _ file | Store_record_metadata record file _ =>
      exists hash state, cleared f hash state /\ in_place hash file
        /\ parse_metadata (planScan options state) = true
        /\ Some record = match state with Some s => Some (record_id s) | None => f_record f end
  | _ => True
  end.

(** What later stages rely on does not go away. *)
Definition kept (f f' : Facts) : Prop :=
  f_state f' = f_state f /\ (is_Some (f_hash f) -> f_hash f' = f_hash f).

Lemma cleared_kept f f' hash state : f_state f' = f_state f -> f_hash f' = f_hash f -> cleared f hash state -> cleared f' hash state.
Proof. unfold cleared. by intros -> ->. Qed.

Hypothesis Hsize : c_size candidate <> 0.
Hypothesis Hbound : c_size candidate <= int64_max.

(** The facts the next stages start from. *)
Definition same_facts (f f' : Facts) : Prop := f_state f' = f_state f /\ f_hash f' = f_hash f.

Lemma verify_holds f (Q : Facts -> unit -> Prop) : Q (set_verified true f) tt -> holds careful f verify Q.
Proof. intros HQ. unfold verify. apply holds_bind, holds_ask; [done|]. intros [e|]; [apply holds_fails|]. by apply holds_ret. Qed.

Lemma checkAssignedFile_holds f s hash (Q : Facts -> unit -> Prop) :
  (forall f', same_facts f f' -> Q f' tt) -> holds careful f (checkAssignedFile s cluster_id hash) Q.
Proof.
  intros HQ. unfold checkAssignedFile. destruct (state_cluster s) as [id|]; [|by apply holds_ret, HQ].
  case_decide; [by apply holds_ret, HQ|]. apply holds_bind, holds_ask; [done|]. intros [e|assigned]; [apply holds_fails|].
  apply holds_bind, holds_ask; [done|]. intros []; try apply holds_fails; by apply holds_ret, HQ.
Qed.

Lemma check_hash_holds f hash state (Q : Facts -> unit -> Prop) :
  fromHex (stem (c_path candidate)) = inr hash -> f_state f = Some state -> (state = None -> adopt_orphans options = true) ->
  (forall f', cleared f' hash state -> Q f' tt) -> holds careful f (check_hash candidate hash (planScan options state)) Q.
Proof.
  intros Hh Hs Ha HQ. unfold check_hash. destruct (plan_verify_hash (planScan options state)) eqn:Hp.
  - apply holds_bind, holds_ask; [done|]. intros []. apply holds_bind, holds_ask; [done|]. intros actual.
    case_decide; [|apply holds_fails]. subst actual. apply holds_ret, HQ. by split.
  - apply holds_ret, HQ. split; [done|]. split; [done|]. split; [done|]. by rewrite Hp.
Qed.

Lemma find_mime_holds f state (Q : Facts -> option Z -> Prop) :
  (forall f' m, same_facts f f' -> Q f' m) -> holds careful f (find_mime candidate state (planScan options state)) Q.
Proof.
  intros HQ. unfold find_mime. destruct (detect_mime _); [|by apply holds_ret, HQ].
  apply holds_bind, holds_ask; [done|]. intros []. apply holds_bind, holds_ask; [done|]. intros m. by apply holds_ret, HQ.
Qed.

Lemma choose_extension_holds f state m (Q : Facts -> string -> Prop) :
  (forall f' e, same_facts f f' -> (read_only options = true -> e = fileExtension (c_path candidate)) -> Q f' e) ->
  holds careful f (choose_extension candidate state options m) Q.
Proof.
  intros HQ. unfold choose_extension. destruct m as [m|]; [|by apply holds_ret, HQ].
  destruct (fix_extensions options && negb (read_only options)) eqn:Hf; [|by apply holds_ret, HQ].
  apply holds_bind. apply andb_true_iff in Hf as [_ Hf].
  assert (Hbest : forall f' (best : option string), same_facts f f' ->
    holds careful f' (mret (match best with Some (String _ _ as best) => best | _ => fileExtension (c_path candidate) end)) Q).
  { intros f' best Hs. apply holds_ret, HQ; [done|]. intros Hr. by rewrite Hr in Hf. }
  assert (Hask : holds careful f (ask (Best_mime_extension m)) (fun f a => holds careful f
    (mret (match a with Some (String _ _ as best) => best | _ => fileExtension (c_path candidate) end)) Q)).
  { apply holds_ask; [done|]. intros best. by apply Hbest. }
  destruct state as [s|]; [|done]. case_decide; [|done]. apply holds_ret. by apply Hbest.
Qed.

Lemma move_file_holds f hash state destination (Q : Facts -> path -> Prop) :
  cleared f hash state -> in_place hash destination -> (read_only options = true -> c_path candidate = destination) ->
  (forall f', same_facts f f' -> Q f' destination) -> holds careful f (move_file candidate destination) Q.
Proof.
  intros Hc Hd Hr HQ. unfold move_file. case_decide as Heq; [rewrite Heq; by apply holds_ret, HQ|].
  assert (Hro : read_only options = false) by (destruct (read_only options); [by destruct Heq, Hr|done]).
  apply holds_bind, holds_ask; [done|]. intros []. apply holds_bind, verify_holds. apply holds_bind. unfold moveWithoutReplacing.
  apply holds_bind, holds_ask; [do 2 (split; [done|]); by exists hash, state, destination|]. intros [e|]; [apply holds_fails|].
  apply holds_bind, holds_ask; [do 4 (split; [done|]); by exists hash, state|]. intros [e|]; [apply holds_fails|].
  apply holds_ret, holds_ret, HQ. done.
Qed.

Lemma update_database_holds f file hash state m extension times (Q : Facts -> Z -> Prop) :
  cleared f hash state -> f_verified f = true -> f_times f = Some times ->
  (forall f' record, cleared f' hash state -> Some record = match state with Some s => Some (record_id s) | None => f_record f' end -> Q f' record) ->
  holds careful f (update_database cluster_id candidate file hash state m extension times) Q.
Proof.
  intros Hc Hv Ht HQ. unfold update_database. apply holds_bind, holds_ask; [done|]. intros []. apply holds_bind.
  assert (Hstore : forall f' record, cleared f' hash state -> f_verified f' = true -> f_times f' = Some times ->
    Some record = match state with Some s => Some (record_id s) | None => f_record f' end ->
    holds careful f' (_ ← (if match state with Some s => fileInfoMatches s cluster_id (c_size candidate) m extension times | None => false end
      then mret tt else ask (Store_record_file_info record cluster_id (c_size candidate) m extension times)); mret record) Q).
  { intros f' record Hc' Hv' Ht' Hr. apply holds_bind. destruct (match state with
      Some s => fileInfoMatches s cluster_id (c_size candidate) m extension times | None => false end);
      [apply holds_ret, holds_ret; by apply HQ|]. apply holds_ask; [do 6 (split; [done|]); by exists hash, state|]. intros []. apply holds_ret, HQ; [|done].
    by apply (cleared_kept f'). }
  destruct state as [s|]; [apply holds_ret; by apply Hstore|].
  apply holds_bind, holds_ask; [by split|]. intros [e|record]; [apply holds_fails|]. apply holds_ret. by apply Hstore.
Qed.

Lemma scan_metadata_holds f record file hash state m (Q : Facts -> unit -> Prop) :
  cleared f hash state -> in_place hash file -> Some record = match state with Some s => Some (record_id s) | None => f_record f end ->
  (forall f', cleared f' hash state -> Q f' tt) -> holds careful f (scan_metadata_of record file m (planScan options state)) Q.
Proof.
  intros Hc Hf Hr HQ. unfold scan_metadata_of. destruct m as [m|]; [|by apply holds_ret, HQ].
  destruct (parse_metadata (planScan options state)) eqn:Hp; [|by apply holds_ret, HQ].
  apply holds_bind, holds_ask; [done|]. intros []. apply holds_bind, holds_ask; [by exists hash, state|]. intros [e|info]; [apply holds_fails|].
  apply holds_bind, holds_ask; [done|]. intros []. apply holds_bind, holds_ask; [by exists hash, state|]. intros [e|]; [apply holds_fails|].
  by apply holds_ret, HQ.
Qed.
End careful.

Lemma scanFile_holds cluster_id root candidate options f :
  holds (careful cluster_id root candidate options) f (scanFile cluster_id root candidate options)
    (fun f _ => exists hash state, cleared candidate options f hash state).
Proof.
  unfold scanFile. destruct (Z.eqb_spec (c_size candidate) 0) as [|Hsize]; [apply holds_fails|].
  destruct (Z.ltb_spec int64_max (c_size candidate)) as [|Hbound]; [apply holds_fails|].
  destruct (fromHex (stem (c_path candidate))) as [e|hash] eqn:Hhash; [apply holds_fails|].
  destruct (read_only options && _) eqn:Hro; [apply holds_fails|].
  apply holds_bind, verify_holds. apply holds_bind, holds_ask; [done|]. intros state.
  destruct (negb (is_some state) && negb (adopt_orphans options)) eqn:Hadopt; [apply holds_fails|].
  assert (Ha : state = None -> adopt_orphans options = true) by (intros ->; by destruct (adopt_orphans options)).
  assert (Hread : forall e, (read_only options = true -> e = fileExtension (c_path candidate)) ->
    read_only options = true -> c_path candidate = root ++ getClusterRelativePath hash e).
  { intros e He Hr. rewrite (He Hr). rewrite Hr in Hro. cbn in Hro. apply negb_false_iff, bool_decide_eq_true in Hro. done. }
  set (f0 := note_answer _ _ _).
  assert (Hrest : forall f1, f_state f1 = Some state -> holds (careful cluster_id root candidate options) f1
    (_ ← check_hash candidate hash (planScan options state);
     mime_id ← find_mime candidate state (planScan options state);
     extension ← choose_extension candidate state options mime_id;
     file ← move_file candidate (root ++ getClusterRelativePath hash extension);
     times ← ask (Get_file_times file);
     match times with
     | None => fails ("Cannot stat " +:+ path_string file) false
     | Some times =>
         _ ← verify;
         record ← update_database cluster_id candidate file hash state mime_id extension times;
         scan_metadata_of record file mime_id (planScan options state)
     end) (fun f _ => exists hash state, cleared candidate options f hash state)).
  { intros f1 Hf1. apply holds_bind, (check_hash_holds _ _ _ _ _ hash state); [done..|]. intros f2 Hc.
    apply holds_bind, find_mime_holds. intros f3 m [H31 H32]. apply (cleared_kept _ _ _ f3) in Hc; [|done..].
    apply holds_bind, choose_extension_holds. intros f4 ext [H41 H42] Hext. apply (cleared_kept _ _ _ f4) in Hc; [|done..].
    apply holds_bind, (move_file_holds _ _ _ _ _ hash state); [done|by exists ext|by apply Hread|]. intros f5 [H51 H52].
    apply (cleared_kept _ _ _ f5) in Hc; [|done..].
    apply holds_bind, holds_ask; [done|]. intros [times|]; [|apply holds_fails].
    apply holds_bind, verify_holds. apply holds_bind, (update_database_holds _ _ _ _ Hsize Hbound _ _ hash state); [done..|].
    intros f6 record Hc' Hrec. apply (scan_metadata_holds _ _ _ _ _ _ _ hash state); [done|by exists ext|done|]. intros f7 Hc''. by exists hash, state. }
  apply holds_bind. destruct state as [s|].
  - apply checkAssignedFile_holds. intros f1 [H1 H2]. apply Hrest. by rewrite H1.
  - apply holds_ret. by apply Hrest.
Qed.

(** ** Records whose file is gone *)

Section preflight.
Context (cluster_id : Z) (root : path) (options : ScanOptions).

(** Only [Detach] changes anything, and only for a record of the page at hand
    whose file the last answer did not show as a regular file, the cluster
    having been checked after that. *)
Definition detaches_the_missing : Demand := fun f X r =>
  match r with
  | Detach_missing_record_file record =>
      f_verified f = true /\ exists file status, file ∈ f_listed f /\ r_record file = record
        /\ f_status f = Some (root ++ getClusterRelativePath (r_hash file) (r_extension file), status)
        /\ (status = Missing \/ status = Is_other)
  | Create_directories _ | Rename_no_replace _ _ | Ensure_record _ | Store_record_file_info _ _ _ _ _ _ | Store_record_metadata _ _ _ => False
  | _ => True
  end.

Lemma preflight_page_holds files after next_page f : files ⊆ f_listed f ->
  (forall f a, wp detaches_the_missing f (next_page a) (fun _ _ => True)) ->
  wp detaches_the_missing f (preflight_page cluster_id root options files after next_page) (fun _ _ => True).
Proof.
  intros Hf Hnext. revert after f Hf. induction files as [|file files IH]; intros after f Hf; [apply Hnext|].
  cbn [preflight_page]. split; [done|]. intros status.
  assert (Hrest : forall f', f_listed f' = f_listed f ->
    wp detaches_the_missing f' (preflight_page cluster_id root options files (r_record file) next_page) (fun _ _ => True)).
  { intros f' Hl. apply IH. rewrite Hl. intros x Hx. apply Hf. by right. }
  assert (Hdetach : status = Missing \/ status = Is_other -> wp detaches_the_missing
    (note_answer f (Ask_status (root ++ getClusterRelativePath (r_hash file) (r_extension file))) status)
    (Ask Verify (fun still_valid => match still_valid with
      | Some e => Return (Some (inl e))
      | None => Ask (Detach_missing_record_file (r_record file)) (fun _ =>
          Ask (Tell (Record_failure (root ++ getClusterRelativePath (r_hash file) (r_extension file))
            ("Cluster " +:+ to_string cluster_id +:+ " is missing record " +:+ to_string (r_record file)))) (fun _ =>
            if stop_on_fail options then Return (Some (inr true))
            else preflight_page cluster_id root options files (r_record file) next_page))
      end)) (fun _ _ => True)).
  { intros Hs. split; [done|]. intros [e|]; [done|]. split.
    - split; [done|]. exists file, status. split; [apply Hf; by left|done].
    - intros []. split; [done|]. intros []. destruct (stop_on_fail options); [done|]. by apply Hrest. }
  destruct status; [split; [done|intros []; by apply Hdetach; left]|done|split; [done|intros []; by apply Hrest]|
    split; [done|intros []; by apply Hdetach; right]].
Qed.

Lemma preflight_pages_holds pages after f :
  wp detaches_the_missing f (preflight_pages cluster_id root options pages after) (fun _ _ => True).
Proof.
  revert after f. induction pages as [|pages IH]; intros after f; [done|]. cbn [preflight_pages].
  split; [done|]. intros [e|]; [done|]. split; [done|]. intros [|file files]; [done|]. apply preflight_page_holds; [done|].
  intros f' a. apply IH.
Qed.

Lemma preflight_holds pages f : wp detaches_the_missing f (preflightMissingFiles cluster_id root options pages) (fun _ _ => True).
Proof. unfold preflightMissingFiles. destruct (track_missing_files options); [|done]. split; [done|]. intros []. apply preflight_pages_holds. Qed.
End preflight.
End runs.

(** The pages of a table whose records are numbered up to [last]: a page asked
    for after a record names records behind it. *)
Definition page_of (last : Z) {MetadataInfo} (e : @event MetadataInfo) : Prop :=
  match e with
  | Asked r x =>
      match r in Request X return X -> Prop with
      | Cluster_record_files after _ => fun files => forallb (fun f => (after <? r_record f) && (r_record f <=? last)) files = true
      | _ => fun _ => True
      end x
  | Raised _ _ => True
  end.

Section pages.
Context {MetadataInfo : Type} (cluster_id : Z) (root : path) (options : ScanOptions).

Lemma prog_runs_inv {A} (p : prog A) t (o : result A) : @runs MetadataInfo A p t o ->
  match p with
  | Return a => t = [] /\ o = Ok a
  | Ask r k => (exists x t', t = Asked r x :: t' /\ runs (k x) t' o) \/ (exists what, t = [Raised r what] /\ o = Throw (runtime_error what))
  end.
Proof. destruct 1; [done|left; by eexists _, _|right; by eexists]. Qed.

Lemma runs_ask_ok {A X} (r : @Request MetadataInfo X) k t (a : A) : runs (Ask r k) t (Ok a) ->
  exists x t', t = Asked r x :: t' /\ runs (k x) t' (Ok a).
Proof. intros H. by destruct (prog_runs_inv _ _ _ H) as [?|(what & _ & [=])]. Qed.

Lemma runs_return_ok {A} (a b : A) t : @runs MetadataInfo A (Return a) t (Ok b) -> t = [] /\ b = a.
Proof. intros H. by destruct (prog_runs_inv _ _ _ H) as [-> [= ->]]. Qed.

(** A page that is gone through without an end hands over to the next one. *)
Lemma preflight_page_hands_over files after next_page t :
  @runs MetadataInfo _ (preflight_page cluster_id root options files after next_page) t (Ok None) ->
  exists t', t' `suffix_of` t /\ runs (next_page (default after (r_record <$> last files))) t' (Ok None).
Proof.
  revert after t. induction files as [|f files IH]; intros after t; [by exists t|]. cbn [preflight_page]. intros H.
  assert (Hrest : forall t, runs (preflight_page cluster_id root options files (r_record f) next_page) t (Ok None) ->
    exists t', t' `suffix_of` t /\ runs (next_page (default after (r_record <$> last (f :: files)))) t' (Ok None)).
  { intros t0 H0. destruct (IH _ _ H0) as (t' & Hs & Hn). exists t'. split; [done|]. rewrite last_cons. by destruct (last files). }
  apply runs_ask_ok in H as (status & t1 & -> & H).
  assert (Hgone : forall t1, runs (Ask Verify (fun still_valid => match still_valid with
      | Some e => Return (Some (inl e))
      | None => Ask (Detach_missing_record_file (r_record f)) (fun _ => Ask (Tell (Record_failure (root ++ getClusterRelativePath (r_hash f) (r_extension f))
            ("Cluster " +:+ to_string cluster_id +:+ " is missing record " +:+ to_string (r_record f)))) (fun _ =>
            if stop_on_fail options then Return (Some (inr true)) else preflight_page cluster_id root options files (r_record f) next_page))
      end)) t1 (Ok None) -> exists t', t' `suffix_of` t1 /\ runs (next_page (default after (r_record <$> last (f :: files)))) t' (Ok None)).
  { intros t1' H1. apply runs_ask_ok in H1 as (valid & t2 & -> & H1). destruct valid; [by apply runs_return_ok in H1 as [_ ?]|].
    apply runs_ask_ok in H1 as ([] & t3 & -> & H1). apply runs_ask_ok in H1 as ([] & t4 & -> & H1).
    destruct (stop_on_fail options); [by apply runs_return_ok in H1 as [_ ?]|]. destruct (Hrest _ H1) as (t' & Hs & Hn).
    exists t'. split; [by do 3 apply suffix_cons_r|done]. }
  assert (Hcons : forall t', t' `suffix_of` t1 -> t' `suffix_of` Asked (Ask_status (root ++ getClusterRelativePath (r_hash f) (r_extension f))) status :: t1)
    by (intros; by apply suffix_cons_r).
  assert (Hgo : exists t', t' `suffix_of` t1 /\ runs (next_page (default after (r_record <$> last (f :: files)))) t' (Ok None)).
  { destruct status as [|e| |]; [|by apply runs_return_ok in H as [_ ?]| |]; apply runs_ask_ok in H as ([] & t2 & -> & H);
      [apply Hgone in H|apply Hrest in H|apply Hgone in H]; destruct H as (t' & Hs & Hn); exists t'; (split; [by apply suffix_cons_r|done]). }
  destruct Hgo as (t' & Hs & Hn). exists t'. by split; [apply Hcons|].
Qed.

Lemma preflight_pages_end last pages after t : @runs MetadataInfo _ (preflight_pages cluster_id root options pages after) t (Ok None) ->
  Forall (page_of last) t -> after <= last -> (pages <= Z.to_nat (last - after))%nat.
Proof.
  revert after t. induction pages as [|pages IH]; intros after t H Ht Ha; [lia|]. cbn [preflight_pages] in H.
  apply runs_ask_ok in H as (valid & t1 & -> & H). destruct valid; [by apply runs_return_ok in H as [_ ?]|].
  apply runs_ask_ok in H as (files & t2 & -> & H). apply Forall_cons in Ht as [_ Ht]. apply Forall_cons in Ht as [Hp Ht]. cbn in Hp.
  destruct files as [|f files]; [by apply runs_return_ok in H as [_ ?]|].
  apply preflight_page_hands_over in H as (t' & [t0 ->] & H). apply Forall_app in Ht as [_ Ht].
  destruct (last_is_Some (f :: files)) as [_ [g Hg]]; [done|]. rewrite Hg in H. cbn [default fmap option_fmap option_map] in H.
  apply (proj1 (forallb_forall _ _)) with (x := g) in Hp; [|by apply list_elem_of_In, last_Some_elem_of]. specialize (IH (r_record g) t' H Ht). lia.
Qed.
End pages.

(** C22: whatever the database, the file system and the modules answer, and
    whenever they throw, a scan of one file asks for changes only after the
    checks they need: a directory is created, a file moved, a record created
    and file information stored only right after the cluster was found to be
    the right one; nothing is moved in a read-only scan, and only the candidate
    is, to the place its hash names; every change concerns the record of the
    file's hash, or a new one if orphans may be adopted, and where the content
    has to be checked its hash was the one in the file's name; sizes are
    positive, fit the database, and are stored with the times read last.
    A scan that succeeds has passed these checks. *)
Theorem scan_changes_only_what_it_checked {MetadataInfo} cluster_id root candidate options t o :
  runs (scanFile (MetadataInfo := MetadataInfo) cluster_id root candidate options) t o ->
  along (careful cluster_id root candidate options) no_facts t
  /\ (o = Ok (inr tt) -> exists hash state, cleared candidate options (foldl note no_facts t) hash state).
Proof.
  intros Hr. destruct (wp_runs _ _ no_facts _ t o (scanFile_holds cluster_id root candidate options no_facts) Hr) as [Ha Hq].
  split; [done|]. intros Ho. exact (Hq _ Ho).
Qed.

(** The pass over the records of a cluster detaches a record only when the
    file of that record has just been asked for and is not there as a regular
    file, and the cluster was then found to be the right one, so an unmounted
    or exchanged disk detaches nothing; and it changes nothing else.  Where
    pages bring new records up to [last], it needs at most [last] of them. *)
Theorem preflight_detaches_only_missing_files {MetadataInfo} cluster_id root options pages t o :
  runs (preflightMissingFiles (MetadataInfo := MetadataInfo) cluster_id root options pages) t o ->
  along (detaches_the_missing root) no_facts t
  /\ forall last, 0 <= last -> Forall (page_of last) t -> (Z.to_nat last < pages)%nat -> o <> Ok None.
Proof.
  intros Hr. split; [apply (wp_runs _ _ no_facts _ t o (preflight_holds cluster_id root options pages no_facts) Hr)|].
  intros last Hl Ht Hp ->. unfold preflightMissingFiles in Hr. destruct (track_missing_files options); [|by apply runs_return_ok in Hr as [_ ?]].
  apply runs_ask_ok in Hr as ([] & t' & -> & Hr). apply Forall_cons in Ht as [_ Ht]. pose proof (preflight_pages_end cluster_id root options last _ _ _ Hr Ht Hl). lia.
Qed.

(** ** Witnesses *)

(** The run in which every request is answered by an oracle. *)
Fixpoint trace_of {MetadataInfo A} (oracle : forall X, @Request MetadataInfo X -> X) (p : prog A) : list event * A :=
  match p with
  | Return a => ([], a)
  | Ask r k => let x := oracle _ r in let '(t, a) := trace_of oracle (k x) in (Asked r x :: t, a)
  end.

Lemma runs_trace {MetadataInfo A} oracle (p : @prog MetadataInfo A) : runs p (fst (trace_of oracle p)) (Ok (snd (trace_of oracle p))).
Proof.
  induction p as [a|X r k IH]; [constructor|]. cbn. specialize (IH (oracle X r)).
  destruct (trace_of oracle (k (oracle X r))) as [t a]. by constructor.
Qed.

Module Example_scan.
Definition hash : list Z := repeat 171 32.

(** A file of a known record, outside the directory of its hash. *)
Definition candidate : ScanCandidate := mkCandidate ["/data"; "f00"; hex hash +:+ ".jpg"] 1000.
Definition options : ScanOptions := mkOptions false true false MissingOnly MissingOnly false false true 4.

Definition oracle X (r : @Request unit X) : X :=
  match r in Request X return X with
  | Verify => None
  | Find_record_file_state _ => Some (mkState 5 None None None None None None None false false)
  | Open_cluster _ => inl EmptyString
  | Ask_status _ => Missing
  | Set_stage _ => tt
  | Hash_file _ => hash
  | Identify_mime _ => 7
  | Best_mime_extension _ => Some "png"
  | Create_directories _ => None
  | Rename_no_replace _ _ => None
  | Get_file_times _ => Some (mkTimes 1000 None)
  | Ensure_record _ => inr 6
  | Store_record_file_info _ _ _ _ _ _ => tt
  | Parse_record_metadata _ _ _ => inr tt
  | Store_record_metadata _ _ _ => None
  | Cluster_record_files after _ => if after =? 0 then [mkRecordFile 5 hash "jpg"] else []
  | Detach_missing_record_file _ => tt
  | Tell _ => tt
  end.

Definition scan := trace_of oracle (scanFile 3 ["/data"] candidate options).

Definition moved (e : @event unit) : option (path * path) :=
  match e with
  | Asked r _ => match r with Rename_no_replace from to => Some (from, to) | _ => None end
  | Raised _ _ => None
  end.

Example scan_moves_once : omap moved (fst scan) = [(c_path candidate, ["/data"; "fab"; hex hash +:+ ".png"])] /\ snd scan = inr tt.
Proof. split; reflexivity. Qed.
End Example_scan.

Lemma scan_changes_only_what_it_checked_witness :
  along (careful 3 ["/data"] Example_scan.candidate Example_scan.options) no_facts (fst Example_scan.scan).
Proof.
  exact (proj1 (scan_changes_only_what_it_checked 3 ["/data"] Example_scan.candidate Example_scan.options
    (fst Example_scan.scan) (Ok (snd Example_scan.scan)) (runs_trace Example_scan.oracle _))).
Defined.

Lemma preflight_detaches_only_missing_files_witness :
  along (detaches_the_missing ["/data"]) no_facts (fst (trace_of Example_scan.oracle
    (preflightMissingFiles 3 ["/data"] (mkOptions true false false Disabled Disabled false true false 1) 7)))
  /\ snd (trace_of Example_scan.oracle (preflightMissingFiles 3 ["/data"] (mkOptions true false false Disabled Disabled false true false 1) 7)) <> None.
Proof.
  destruct (preflight_detaches_only_missing_files 3 ["/data"] (mkOptions true false false Disabled Disabled false true false 1) 7 _
    (Ok (snd (trace_of Example_scan.oracle (preflightMissingFiles 3 ["/data"]
      (mkOptions true false false Disabled Disabled false true false 1) 7)))) (runs_trace Example_scan.oracle _)) as [H1 H2].
  split; [exact H1|]. intros H. refine (H2 5 _ _ _ (f_equal Ok H)); [done| |cbn; lia].
  vm_compute; repeat constructor.
Defined.
