(* ===== verification/ClusterScan.v ===== *)
(** * Scanning a cluster: the coordinator, its workers and their progress

    [IDHANServer/src/scanning]: [ScanProgress.cpp] and the rest of
    [clusterScan.cpp], with the job of [httpapi/clusterScan.cpp].

    [scheduleFiles] walks the directory and starts a worker per file, at most
    [concurrency] at a time; workers run [scanFile] of [ScanFiles.v], one
    request after the other, set the stop flag, and hand their outcome back
    through a bounded queue.  The coordinator and each worker are state machines
    whose steps are the accesses to what they share; all interleavings are the
    runs of [scan_step], with every answer the environment may give. *)
From S2P Require Import Prelude StringView Json ScanFiles.

(** [path::lexically_relative] of a path on a base with the same root. *)
Fixpoint lexically_relative (p base : path) : path :=
  match p, base with
  | c :: p', b :: base' => if String.eqb c b then lexically_relative p' base' else repeat ".." (length base) ++ p
  | p, [] => match p with [] => ["."] | _ => p end
  | [], base => repeat ".." (length base)
  end.

(** ** Progress *)

Record FileTask := mkTask { task_path : string; stage : string }.

Record ScanProgress := mkScanProgress {
  m_phase : string;
  m_checked_records : Z;
  m_counted_files : Z;
  m_total_files : option Z;
  m_scheduled_files : Z;
  m_processed_files : Z;
  m_processed_bytes : Z;
  m_failed_count : Z;
  m_tasks : gmap Z FileTask;
  m_last_failure : option ScanFailure
}.

Definition ScanProgress_make : ScanProgress := mkScanProgress "verifying_cluster" 0 0 None 0 0 0 0 ∅ None.

Definition setPhase (phase : string) (p : ScanProgress) : ScanProgress :=
  mkScanProgress phase (m_checked_records p) (m_counted_files p) (m_total_files p) (m_scheduled_files p) (m_processed_files p)
    (m_processed_bytes p) (m_failed_count p) (if String.eqb phase "failed" then ∅ else m_tasks p) (m_last_failure p).

Definition checkedRecord (p : ScanProgress) : ScanProgress :=
  mkScanProgress (m_phase p) (wrapu 64 (m_checked_records p + 1)) (m_counted_files p) (m_total_files p) (m_scheduled_files p)
    (m_processed_files p) (m_processed_bytes p) (m_failed_count p) (m_tasks p) (m_last_failure p).

Definition countedFile (p : ScanProgress) : ScanProgress :=
  mkScanProgress (m_phase p) (m_checked_records p) (wrapu 64 (m_counted_files p + 1)) (m_total_files p) (m_scheduled_files p)
    (m_processed_files p) (m_processed_bytes p) (m_failed_count p) (m_tasks p) (m_last_failure p).

Definition finishCounting (complete : bool) (p : ScanProgress) : ScanProgress :=
  mkScanProgress (m_phase p) (m_checked_records p) (m_counted_files p) (if complete then Some (m_counted_files p) else m_total_files p)
    (m_scheduled_files p) (m_processed_files p) (m_processed_bytes p) (m_failed_count p) (m_tasks p) (m_last_failure p).

(** [emplace] keeps a task that is already there. *)
Definition beginFile (file : path) (p : ScanProgress) : Z * ScanProgress :=
  let task_id := wrapu 64 (m_scheduled_files p + 1) in
  (task_id,
   mkScanProgress (m_phase p) (m_checked_records p) (m_counted_files p) (Z.max task_id <$> m_total_files p) task_id (m_processed_files p)
     (m_processed_bytes p) (m_failed_count p)
     (match m_tasks p !! task_id with Some _ => m_tasks p | None => <[task_id := mkTask (path_string file) "checking_record"]> (m_tasks p) end)
     (m_last_failure p)).

Definition with_tasks (tasks : gmap Z FileTask) (p : ScanProgress) : ScanProgress :=
  mkScanProgress (m_phase p) (m_checked_records p) (m_counted_files p) (m_total_files p) (m_scheduled_files p) (m_processed_files p)
    (m_processed_bytes p) (m_failed_count p) tasks (m_last_failure p).

(** [at] throws when there is no such task. *)
Definition setStage (task_id : Z) (s : string) (p : ScanProgress) : result ScanProgress :=
  match m_tasks p !! task_id with
  | Some task => Ok (with_tasks (<[task_id := mkTask (task_path task) s]> (m_tasks p)) p)
  | None => Throw (out_of_range "map::at")
  end.

Definition finishFile (task_id bytes : Z) (p : ScanProgress) : ScanProgress :=
  mkScanProgress (m_phase p) (m_checked_records p) (m_counted_files p) (m_total_files p) (m_scheduled_files p)
    (wrapu 64 (m_processed_files p + 1)) (wrapu 64 (m_processed_bytes p + bytes)) (m_failed_count p) (delete task_id (m_tasks p))
    (m_last_failure p).

Definition progressFailure (file : path) (message : string) (p : ScanProgress) : ScanProgress :=
  mkScanProgress (m_phase p) (m_checked_records p) (m_counted_files p) (m_total_files p) (m_scheduled_files p) (m_processed_files p)
    (m_processed_bytes p) (wrapu 64 (m_failed_count p + 1)) (m_tasks p) (Some (mkFailure file message)).

Definition finishScan (stopped : bool) (p : ScanProgress) : ScanProgress :=
  mkScanProgress (if stopped then "stopped" else "completed") (m_checked_records p) (m_counted_files p)
    (if stopped then m_total_files p else Some (m_processed_files p)) (m_scheduled_files p) (m_processed_files p) (m_processed_bytes p)
    (m_failed_count p) (m_tasks p) (m_last_failure p).

Section snapshot.
Context {J : Json}.

(** The tasks in the order of the map. *)
Definition task_list (tasks : gmap Z FileTask) : list (Z * FileTask) :=
  omap (fun id => pair id <$> tasks !! id) (sort_ints (base.elements (dom tasks))).

Definition failure_json (f : ScanFailure) : Value :=
  set_member "error" (of_string (f_message f)) (set_member "path" (of_string (path_string (f_path f))) empty_object).

Definition task_json (task : Z * FileTask) : Value :=
  set_member "stage" (of_string (stage (snd task))) (set_member "path" (of_string (task_path (snd task)))
    (set_member "task_id" (of_uint (fst task)) empty_object)).

Definition put_totals (p : ScanProgress) (v : Value) : Value :=
  match m_total_files p with
  | Some total =>
      set_member "remaining_files" (of_uint (wrapu 64 (total - m_processed_files p))) (set_member "total_files" (of_uint total) v)
  | None => v
  end.

Definition put_last_failure (p : ScanProgress) (v : Value) : Value :=
  match m_last_failure p with Some f => set_member "last_failure" (failure_json f) v | None => v end.

Definition snapshot (p : ScanProgress) : Value :=
  set_member "tasks" (foldl append empty_array (task_json <$> task_list (m_tasks p)))
    (put_last_failure p (put_totals p
      (foldl (fun v kx => set_member (fst kx) (snd kx) v) empty_object [
        ("kind", of_string "cluster_scan");
        ("phase", of_string (m_phase p));
        ("checked_records", of_uint (m_checked_records p));
        ("counted_files", of_uint (m_counted_files p));
        ("processed_files", of_uint (m_processed_files p));
        ("processed_bytes", of_uint (m_processed_bytes p));
        ("failed_count", of_uint (m_failed_count p));
        ("active_files", of_uint (Z.of_nat (size (m_tasks p))))]))).
End snapshot.

(** ** Totals *)

Record ScanTotals := mkTotals { file_count : Z; byte_size : Z; failed_count : Z; failures : list ScanFailure }.

Definition ScanTotals_make : ScanTotals := mkTotals 0 0 0 [].

Definition recordFailure (file : path) (message : string) (w : ScanTotals * ScanProgress) : ScanTotals * ScanProgress :=
  let '(t, p) := w in
  (mkTotals (file_count t) (byte_size t) (wrapu 64 (failed_count t + 1))
     (if (length (failures t) <? 1000)%nat then failures t ++ [mkFailure file message] else failures t),
   progressFailure file message p).

(** ** Counting

    [turns] bounds the calls of [next]; [None] when they are not enough. *)
Fixpoint countFiles_loop (turns fuel : nat) (options : ScanOptions) (directory : ScanDirectory) (complete : bool)
    (w : ScanTotals * ScanProgress) : option (bool * (ScanTotals * ScanProgress)) :=
  match turns with
  | O => None
  | S turns =>
      '(candidate, directory) ← next fuel directory;
      match candidate with
      | inl f =>
          if stop_on_fail options then Some (false, recordFailure (f_path f) (f_message f) w)
          else countFiles_loop turns fuel options directory false w
      | inr None => Some (true, (fst w, finishCounting complete (snd w)))
      | inr (Some _) => countFiles_loop turns fuel options directory complete (fst w, countedFile (snd w))
      end
  end.

Definition countFiles (turns : nat) (root : path) (folders : listing FolderEntry) (options : ScanOptions) (w : ScanTotals * ScanProgress)
    : option (bool * (ScanTotals * ScanProgress)) :=
  countFiles_loop turns (walk_fuel folders) options (ScanDirectory_make root folders) true (fst w, setPhase "counting_files" (snd w)).

(** ** Coordinator and workers *)

Record ScanOutcome := mkOutcome { task_id : Z; outcome_candidate : ScanCandidate; outcome_result : ScanResult }.

Section schedule.
Context {MetadataInfo : Type}.
Context (cluster_id : Z) (root : path) (options : ScanOptions) (fuel : nat).

(** Where [scanOne] is: in [scanFile], before the phase is set, before the last
    stage, before [enqueue]. *)
Inductive WorkerState :=
| Scanning (p : @prog MetadataInfo ScanResult)
| Announcing (r : ScanResult)
| Finishing (r : ScanResult)
| Enqueuing (r : ScanResult).

Record Worker := mkWorker { w_candidate : ScanCandidate; w_state : WorkerState }.

(** Where [scheduleFiles] is.  After a stop the inner loop is left, or goes on
    to its condition. *)
Inductive After := Break | Continue.
Inductive Coordinator :=
| Filling
| Verifying
| Advancing
| Got (c : ScanCandidate)
| Starting (c : ScanCandidate)
| Storing_stop (k : After)
| Announcing_stop (k : After)
| Checking_active
| Dequeuing
| Finishing_file (o : ScanOutcome)
| Recording (o : ScanOutcome)
| Returned.

(** [m_terminated]: an exception left a worker, which ends the process.  The
    last three are history: the candidates started with their ids, the outcomes
    taken from the queue, the failures recorded. *)
Record Scan := mkScan {
  directory : ScanDirectory;
  exhausted : bool;
  active : Z;
  totals : ScanTotals;
  pc : Coordinator;
  workers : gmap Z Worker;
  completed : list ScanOutcome;
  stopped : bool;
  progress : ScanProgress;
  m_terminated : bool;
  started : list (Z * ScanCandidate);
  outcomes : list ScanOutcome;
  reported : list ScanFailure
}.

Definition set_pc (c : Coordinator) (s : Scan) : Scan :=
  mkScan (directory s) (exhausted s) (active s) (totals s) c (workers s) (completed s) (stopped s) (progress s) (m_terminated s)
    (started s) (outcomes s) (reported s).
Definition set_directory (d : ScanDirectory) (b : bool) (s : Scan) : Scan :=
  mkScan d b (active s) (totals s) (pc s) (workers s) (completed s) (stopped s) (progress s) (m_terminated s)
    (started s) (outcomes s) (reported s).
Definition set_workers (ws : gmap Z Worker) (s : Scan) : Scan :=
  mkScan (directory s) (exhausted s) (active s) (totals s) (pc s) ws (completed s) (stopped s) (progress s) (m_terminated s)
    (started s) (outcomes s) (reported s).
Definition set_stopped (s : Scan) : Scan :=
  mkScan (directory s) (exhausted s) (active s) (totals s) (pc s) (workers s) (completed s) true (progress s) (m_terminated s)
    (started s) (outcomes s) (reported s).
Definition set_scan_progress (p : ScanProgress) (s : Scan) : Scan :=
  mkScan (directory s) (exhausted s) (active s) (totals s) (pc s) (workers s) (completed s) (stopped s) p (m_terminated s)
    (started s) (outcomes s) (reported s).
Definition terminate (s : Scan) : Scan :=
  mkScan (directory s) (exhausted s) (active s) (totals s) (pc s) (workers s) (completed s) (stopped s) (progress s) true
    (started s) (outcomes s) (reported s).

Definition fail_scan (file : path) (message : string) (s : Scan) : Scan :=
  let '(t, p) := recordFailure file message (totals s, progress s) in
  mkScan (directory s) (exhausted s) (active s) t (pc s) (workers s) (completed s) (stopped s) p (m_terminated s)
    (started s) (outcomes s) (reported s ++ [mkFailure file message]).

Definition Scan_make (folders : listing FolderEntry) (w : ScanTotals * ScanProgress) : Scan :=
  mkScan (ScanDirectory_make root folders) false 0 (fst w) Filling ∅ [] false (snd w) false [] [] [].

(** [beginFile], [workers.add] and [++active]. *)
Definition start_file (c : ScanCandidate) (s : Scan) : Scan :=
  let '(id, p) := beginFile (lexically_relative (c_path c) root) (progress s) in
  mkScan (directory s) (exhausted s) (wrapu 64 (active s + 1)) (totals s) Filling
    (<[id := mkWorker c (Scanning (scanFile cluster_id root c options))]> (workers s)) (completed s) (stopped s) p (m_terminated s)
    (started s ++ [(id, c)]) (outcomes s) (reported s).

(** The outcome is in hand: [--active] and the totals. *)
Definition take_outcome (o : ScanOutcome) (rest : list ScanOutcome) (s : Scan) : Scan :=
  let t := totals s in
  mkScan (directory s) (exhausted s) (wrapu 64 (active s - 1))
    (mkTotals (wrapu 64 (file_count t + 1)) (wrapu 64 (byte_size t + c_size (outcome_candidate o))) (failed_count t) (failures t))
    (Finishing_file o) (workers s) rest (stopped s) (progress s) (m_terminated s) (started s) (outcomes s ++ [o]) (reported s).

(** One step of [scheduleFiles]; [valid] is what [access.verify()] answers if
    it is asked. *)
Definition coordinator_step (valid : option string) (s : Scan) : option Scan :=
  match pc s with
  | Filling => Some (set_pc (if negb (exhausted s) && negb (stopped s) && (active s <? concurrency options) then Verifying else Checking_active) s)
  | Verifying =>
      match valid with
      | Some e => Some (set_pc (Storing_stop Break) (fail_scan root e s))
      | None => Some (set_pc Advancing s)
      end
  | Advancing =>
      '(candidate, d) ← next fuel (directory s);
      match candidate with
      | inl f =>
          Some (set_pc (if stop_on_fail options then Storing_stop Continue else Filling)
            (fail_scan (f_path f) (f_message f) (set_directory d (exhausted s) s)))
      | inr None => Some (set_pc Checking_active (set_directory d true s))
      | inr (Some c) => Some (set_pc (Got c) (set_directory d (exhausted s) s))
      end
  | Got c => Some (set_pc (if stopped s then Checking_active else Starting c) s)
  | Starting c => Some (start_file c s)
  | Storing_stop k => Some (set_pc (Announcing_stop k) (set_stopped s))
  | Announcing_stop k =>
      Some (set_pc (match k with Break => Checking_active | Continue => Filling end) (set_scan_progress (setPhase "stopping" (progress s)) s))
  | Checking_active => Some (set_pc (if active s =? 0 then Returned else Dequeuing) s)
  | Dequeuing => match completed s with [] => None | o :: rest => Some (take_outcome o rest s) end
  | Finishing_file o =>
      Some (set_pc (match outcome_result o with inl _ => Recording o | inr _ => Filling end)
        (set_scan_progress (finishFile (task_id o) (c_size (outcome_candidate o)) (progress s)) s))
  | Recording o =>
      match outcome_result o with
      | inl e => Some (set_pc Filling (fail_scan (c_path (outcome_candidate o)) (message e) s))
      | inr _ => None
      end
  | Returned => None
  end.

(** [scanFile] has returned, or thrown a [std::exception] that became an
    error; the stop flag is stored at once. *)
Definition scan_returned (id : Z) (c : ScanCandidate) (r : ScanResult) (s : Scan) : Scan :=
  match r with
  | inl e =>
      if stop_on_fail options || cluster_unavailable e
      then set_stopped (set_workers (<[id := mkWorker c (Announcing r)]> (workers s)) s)
      else set_workers (<[id := mkWorker c (Finishing r)]> (workers s)) s
  | inr _ => set_workers (<[id := mkWorker c (Finishing r)]> (workers s)) s
  end.

(** A stage is set; the exception of [at] is caught inside [scanFile] and not
    around the last stage. *)
Definition stage_set (id : Z) (st : string) (go_on : Scan -> Scan) (throws : exn -> Scan -> Scan) (s : Scan) : Scan :=
  match setStage id st (progress s) with
  | Ok p => go_on (set_scan_progress p s)
  | Throw e => throws e s
  end.

Definition thrown (e : exn) : ScanResult := inl (mkScanError (exn_what e) false).

(** The steps of a worker that need no answer from outside. *)
Definition worker_step (id : Z) (s : Scan) : option Scan :=
  w ← workers s !! id;
  let c := w_candidate w in
  let go st s := set_workers (<[id := mkWorker c st]> (workers s)) s in
  match w_state w with
  | Scanning (Return r) => Some (scan_returned id c r s)
  | Scanning (Ask r k) =>
      match r in Request X return (X -> prog ScanResult) -> option Scan with
      | Set_stage st => fun k => Some (stage_set id st (go (Scanning (k tt))) (fun e => scan_returned id c (thrown e)) s)
      | _ => fun _ => None
      end k
  | Announcing r => Some (go (Finishing r) (set_scan_progress (setPhase "stopping" (progress s)) s))
  | Finishing r => Some (stage_set id "finishing" (go (Enqueuing r)) (fun _ => terminate) s)
  | Enqueuing r =>
      if (Z.of_nat (length (completed s)) <? concurrency options)
      then Some (mkScan (directory s) (exhausted s) (active s) (totals s) (pc s) (delete id (workers s))
        (completed s ++ [mkOutcome id c r]) (stopped s) (progress s) (m_terminated s) (started s) (outcomes s) (reported s))
      else None
  end.

Definition is_stage {X} (r : @Request MetadataInfo X) : bool := match r with Set_stage _ => true | _ => false end.

Inductive scan_step : Scan -> Scan -> Prop :=
| coordinator_moves valid s s' : coordinator_step valid s = Some s' -> scan_step s s'
| worker_moves id s s' : worker_step id s = Some s' -> scan_step s s'
| worker_answered id c X (r : Request X) k x s : workers s !! id = Some (mkWorker c (Scanning (Ask r k))) -> is_stage r = false ->
    scan_step s (set_workers (<[id := mkWorker c (Scanning (k x))]> (workers s)) s)
| worker_throws id c X (r : Request X) k what s : workers s !! id = Some (mkWorker c (Scanning (Ask r k))) -> is_stage r = false ->
    scan_step s (scan_returned id c (inl (mkScanError what false)) s).
End schedule.

(** ** A scan, and its job *)

(** What the pass over the records says to totals and progress. *)
Definition tell (t : Telling) (w : ScanTotals * ScanProgress) : ScanTotals * ScanProgress :=
  match t with
  | Set_phase phase => (fst w, setPhase phase (snd w))
  | Checked_record => (fst w, checkedRecord (snd w))
  | Record_failure file message => recordFailure file message w
  end.

Definition told {MetadataInfo} (w : ScanTotals * ScanProgress) (e : @event MetadataInfo) : ScanTotals * ScanProgress :=
  match e with
  | Asked r _ | Raised r _ => match r with Tell t => tell t w | _ => w end
  end.

(** The options a scan runs with: the flag stored with the cluster counts, and
    the concurrency is clamped. *)
Definition effective (readonly : bool) (o : ScanOptions) : ScanOptions :=
  mkOptions (read_only o || readonly) (verify_hash o) (adopt_orphans o) (mime o) (metadata o) (stop_on_fail o) (track_missing_files o)
    (fix_extensions o) (Z.max 1 (Z.min 64 (concurrency o))).

Section cluster.
Context {MetadataInfo : Type}.
Context (cluster_id : Z) (configured_path : path) (options : ScanOptions) (pages turns : nat).

(** The outcomes of [scanCluster]: how the cluster opened, what the directories
    hold when they are counted and when they are scanned, what is returned or
    thrown, and the progress then. *)
Inductive scanCluster (counted scanned : listing FolderEntry) (p0 : ScanProgress) :
    string + (path * bool) -> result ScanTotals -> ScanProgress -> Prop :=
| not_opened e :
    let w := recordFailure configured_path e (ScanTotals_make, p0) in
    scanCluster counted scanned p0 (inl e) (Ok (fst w)) (setPhase "stopped" (snd w))
| preflight_throws root ro t e :
    runs (preflightMissingFiles (MetadataInfo := MetadataInfo) cluster_id root (effective ro options) pages) t (Throw e) ->
    scanCluster counted scanned p0 (inr (root, ro)) (Throw e) (snd (foldl told (ScanTotals_make, p0) t))
| preflight_fails root ro t e :
    runs (preflightMissingFiles (MetadataInfo := MetadataInfo) cluster_id root (effective ro options) pages) t (Ok (Some (inl e))) ->
    let w := recordFailure configured_path e (foldl told (ScanTotals_make, p0) t) in
    scanCluster counted scanned p0 (inr (root, ro)) (Ok (fst w)) (setPhase "stopped" (snd w))
| preflight_stops root ro t :
    runs (preflightMissingFiles (MetadataInfo := MetadataInfo) cluster_id root (effective ro options) pages) t (Ok (Some (inr true))) ->
    let w := foldl told (ScanTotals_make, p0) t in
    scanCluster counted scanned p0 (inr (root, ro)) (Ok (fst w)) (setPhase "stopped" (snd w))
| counting_stops root ro t w :
    runs (preflightMissingFiles (MetadataInfo := MetadataInfo) cluster_id root (effective ro options) pages) t (Ok (Some (inr false))) ->
    countFiles turns root counted (effective ro options) (foldl told (ScanTotals_make, p0) t) = Some (false, w) ->
    scanCluster counted scanned p0 (inr (root, ro)) (Ok (fst w)) (setPhase "stopped" (snd w))
| scan_finishes root ro t w s :
    runs (preflightMissingFiles (MetadataInfo := MetadataInfo) cluster_id root (effective ro options) pages) t (Ok (Some (inr false))) ->
    countFiles turns root counted (effective ro options) (foldl told (ScanTotals_make, p0) t) = Some (true, w) ->
    rtc (@scan_step MetadataInfo cluster_id root (effective ro options) (walk_fuel scanned))
      (Scan_make root scanned (fst w, setPhase "scanning_files" (snd w))) s ->
    pc s = Returned -> workers s = ∅ ->
    scanCluster counted scanned p0 (inr (root, ro)) (Ok (totals s)) (finishScan (stopped s) (progress s)).
End cluster.

Section job.
Context {J : Json}.

(** The response of the job, and what it throws on. *)
Definition scan_response (cluster_id : Z) (t : ScanTotals) : Value :=
  foldl (fun v kx => set_member (fst kx) (snd kx) v) empty_object [
    ("cluster_id", of_int cluster_id);
    ("scanned_count", of_uint (file_count t));
    ("scanned_bytes", of_uint (byte_size t));
    ("failed_count", of_uint (failed_count t));
    ("failures", foldl append empty_array (failure_json <$> failures t))].

Definition scanClusterJob (cluster_id : Z) (r : result ScanTotals) (p : ScanProgress) : result Value * ScanProgress :=
  match r with
  | Ok t => (Ok (scan_response cluster_id t), p)
  | Throw e => (Throw e, setPhase "failed" p)
  end.
End job.

(** ** What a step of a worker does *)
Section proofs.
Context {MetadataInfo : Type}.
Context (cluster_id : Z) (root : path) (options : ScanOptions) (fuel : nat).
Notation Scan := (@Scan MetadataInfo).
Notation Worker := (@Worker MetadataInfo).
Notation WorkerState := (@WorkerState MetadataInfo).
Notation Request := (@Request MetadataInfo).
Notation scanFile := (@scanFile MetadataInfo cluster_id root).
Notation coordinator_step := (@coordinator_step MetadataInfo cluster_id root options fuel).
Notation worker_step := (@worker_step MetadataInfo options).
Notation scan_step := (@scan_step MetadataInfo cluster_id root options fuel).

(** What [scanFile] ended with, as [scanOne] sees it. *)
Definition ends_with (c : ScanCandidate) (r : ScanResult) : Prop :=
  exists t, runs (scanFile c options) t (Ok r)
    \/ exists what, runs (scanFile c options) t (Throw (runtime_error what)) /\ r = inl (mkScanError what false).

(** What is left of a run of [scanFile]. *)
Definition rest_of (c : ScanCandidate) (p : prog ScanResult) : Prop :=
  exists t, forall t' o, runs p t' o -> runs (scanFile c options) (t ++ t') o.

Definition stops (r : ScanResult) : bool :=
  match r with inl e => stop_on_fail options || cluster_unavailable e | inr _ => false end.

Definition result_in (st : WorkerState) : option ScanResult :=
  match st with Scanning _ => None | Announcing r | Finishing r | Enqueuing r => Some r end.

(** The moves of one worker; the flag says whether the scan is stopped. *)
Inductive worker_moves_to (c : ScanCandidate) : WorkerState -> bool -> WorkerState -> Prop :=
| answered X (r : Request X) k x : worker_moves_to c (Scanning (Ask r k)) false (Scanning (k x))
| returned r : worker_moves_to c (Scanning (Return r)) (stops r) (if stops r then Announcing r else Finishing r)
| threw X (r : Request X) k what (e := inl (mkScanError what false) : ScanResult) :
    worker_moves_to c (Scanning (Ask r k)) (stops e) (if stops e then Announcing e else Finishing e)
| announced r : worker_moves_to c (Announcing r) false (Finishing r)
| finished r : worker_moves_to c (Finishing r) false (Enqueuing r).

(** A progress with the same tasks and the same numbers. *)
Record same_counts (p p' : ScanProgress) : Prop := {
  same_total : m_total_files p' = m_total_files p;
  same_scheduled : m_scheduled_files p' = m_scheduled_files p;
  same_processed : m_processed_files p' = m_processed_files p;
  same_bytes : m_processed_bytes p' = m_processed_bytes p;
  same_failed : m_failed_count p' = m_failed_count p;
  same_tasks : forall id, is_Some (m_tasks p' !! id) <-> is_Some (m_tasks p !! id)
}.

Lemma same_counts_refl p : same_counts p p.
Proof. by split. Qed.

Lemma setPhase_same phase p : phase <> "failed" -> same_counts p (setPhase phase p).
Proof. intros H. split; try done. intros id. unfold setPhase. cbn. by rewrite (proj2 (String.eqb_neq _ _) H). Qed.

Lemma setStage_same id st p p' : setStage id st p = Ok p' -> same_counts p p'.
Proof.
  unfold setStage. destruct (m_tasks p !! id) as [task|] eqn:Ht; [|done]. intros [= <-]. split; try done. intros i. cbn.
  destruct (decide (i = id)) as [->|Hi]; [|by rewrite lookup_insert_ne]. by rewrite lookup_insert_eq, Ht.
Qed.

Lemma setStage_ok id st p : is_Some (m_tasks p !! id) -> exists p', setStage id st p = Ok p'.
Proof. intros [task Ht]. unfold setStage. rewrite Ht. by eexists. Qed.

(** Worker [id] moves to [st], the rest staying as it is but for the progress
    and the flag. *)
Definition moved_worker (id : Z) (w : Worker) (p : ScanProgress) (b : bool) (s : Scan) : Scan :=
  mkScan (directory s) (exhausted s) (active s) (totals s) (pc s) (<[id := w]> (workers s)) (completed s) (stopped s || b) p
    (m_terminated s) (started s) (outcomes s) (reported s).

Definition enqueued (id : Z) (o : ScanOutcome) (s : Scan) : Scan :=
  mkScan (directory s) (exhausted s) (active s) (totals s) (pc s) (delete id (workers s)) (completed s ++ [o]) (stopped s) (progress s)
    (m_terminated s) (started s) (outcomes s) (reported s).

Inductive worker_effect (s : Scan) : Scan -> Prop :=
| effect_moves id c st st' b p : workers s !! id = Some (mkWorker c st) -> worker_moves_to c st b st' -> same_counts (progress s) p ->
    worker_effect s (moved_worker id (mkWorker c st') p b s)
| effect_enqueues id c r : workers s !! id = Some (mkWorker c (Enqueuing r)) -> Z.of_nat (length (completed s)) < concurrency options ->
    worker_effect s (enqueued id (mkOutcome id c r) s).

Lemma scan_returned_moved id c r s :
  scan_returned options id c r s = moved_worker id (mkWorker c (if stops r then Announcing r else Finishing r)) (progress s) (stops r) s.
Proof.
  unfold scan_returned, moved_worker, stops. destruct r as [e|[]]; [|by rewrite orb_false_r].
  destruct (stop_on_fail options || cluster_unavailable e); [by rewrite orb_true_r|by rewrite orb_false_r].
Qed.

Lemma moved_same id w s : set_workers (<[id := w]> (workers s)) s = moved_worker id w (progress s) false s.
Proof. unfold moved_worker, set_workers. by rewrite orb_false_r. Qed.

(** Where every running worker has its task, a step is one of the coordinator
    or such a move. *)
Lemma scan_step_cases s s' : (forall id, is_Some (workers s !! id) -> is_Some (m_tasks (progress s) !! id)) ->
  scan_step s s' -> (exists valid, coordinator_step valid s = Some s') \/ worker_effect s s'.
Proof.
  intros Htask Hs. revert Htask.
  destruct Hs as [valid s1 s2 H|id s1 s2 H|id c X r k x s1 Hw Hr|id c X r k what s1 Hw Hr]; intros Htask; [left; by eexists|right..].
  - unfold ClusterScan.worker_step in H. destruct (workers s1 !! id) as [[c st]|] eqn:Hw; [|done]. cbn in H.
    assert (Hstage : forall stg, exists p, setStage id stg (progress s1) = Ok p) by (intros; apply setStage_ok, Htask; by rewrite Hw).
    assert (Hmove : forall st' p, worker_moves_to c st false st' -> same_counts (progress s1) p ->
      worker_effect s1 (set_workers (<[id := mkWorker c st']> (workers s1)) (set_scan_progress p s1))).
    { intros st' p Hm Hp. replace (set_workers _ _) with (moved_worker id (mkWorker c st') p false s1); [by eapply effect_moves|].
      unfold moved_worker, set_workers, set_scan_progress. cbn. by rewrite orb_false_r. }
    destruct st as [[r|X r k]|r|r|r].
    + injection H as <-. rewrite scan_returned_moved. by eapply effect_moves; [|constructor|apply same_counts_refl].
    + destruct r; try discriminate. injection H as <-. unfold stage_set. destruct (Hstage stage0) as [p Hp]. rewrite Hp.
      apply Hmove; [constructor|by eapply setStage_same].
    + injection H as <-. apply Hmove; [constructor|by apply setPhase_same].
    + injection H as <-. unfold stage_set. destruct (Hstage "finishing") as [p Hp]. rewrite Hp. apply Hmove; [constructor|by eapply setStage_same].
    + destruct (Z.ltb_spec (Z.of_nat (length (completed s1))) (concurrency options)); [|done]. injection H as <-. by apply effect_enqueues.
  - rewrite moved_same. eapply effect_moves; [done|constructor|apply same_counts_refl].
  - rewrite scan_returned_moved. eapply effect_moves; [done|constructor|apply same_counts_refl].
Qed.

(** ** The walk of the coordinator *)
Section run.
Context (folders : listing FolderEntry).
Hypothesis Hfuel : fuel = walk_fuel folders.

Notation W := (walk root folders).

Definition candidates (l : list (ScanFailure + ScanCandidate)) : list ScanCandidate :=
  omap (fun x => match x with inr c => Some c | inl _ => None end) l.
Definition traversal_failures (l : list (ScanFailure + ScanCandidate)) : list ScanFailure :=
  omap (fun x => match x with inl f => Some f | inr _ => None end) l.

Definition outcome_failure (o : ScanOutcome) : option ScanFailure :=
  match outcome_result o with inl e => Some (mkFailure (c_path (outcome_candidate o)) (message e)) | inr _ => None end.

(** What of the walk has been returned by [next]. *)
Definition seen (s : Scan) : list (ScanFailure + ScanCandidate) := take (length W - length (remaining (directory s))) W.

Definition in_hand (c : Coordinator) : list ScanCandidate := match c with Got c | Starting c => [c] | _ => [] end.
Definition filling (c : Coordinator) : bool := match c with Verifying | Advancing | Got _ | Starting _ => true | _ => false end.
Definition pending_failure (c : Coordinator) : list ScanFailure :=
  match c with Finishing_file o | Recording o => option_list (outcome_failure o) | _ => [] end.

Record walk_inv (s : Scan) : Prop := {
  walk_ok : directory_ok (directory s);
  walk_turns : (turns (directory s) < fuel)%nat;
  walk_seen : W = seen s ++ remaining (directory s);
  walk_started : exists dropped, candidates (seen s) = (started s).*2 ++ in_hand (pc s) ++ dropped
    /\ (dropped = [] \/ stopped s = true /\ filling (pc s) = false /\ length dropped = 1%nat);
  walk_reported : exists refused, reported s ++ pending_failure (pc s) ≡ₚ refused ++ traversal_failures (seen s) ++ omap outcome_failure (outcomes s)
    /\ (refused = [] \/ filling (pc s) = false /\ (stopped s = true \/ pc s = Storing_stop Break)
        /\ exists e, refused = [mkFailure root e]);
  walk_exhausted : exhausted s = true -> remaining (directory s) = [];
  walk_end : forall k, pc s = Announcing_stop k -> stopped s = true
}.

Lemma candidates_app l1 l2 : candidates (l1 ++ l2) = candidates l1 ++ candidates l2.
Proof. apply omap_app. Qed.
Lemma traversal_failures_app l1 l2 : traversal_failures (l1 ++ l2) = traversal_failures l1 ++ traversal_failures l2.
Proof. apply omap_app. Qed.

(** One call of [next]. *)
Lemma seen_next s d o : W = seen s ++ remaining (directory s) -> remaining (directory s) = next_item o ++ remaining d ->
  take (length W - length (remaining d)) W = seen s ++ next_item o.
Proof.
  intros Hw Hr. rewrite Hw at 2. rewrite Hr, app_assoc. rewrite take_app_length'; [done|].
  rewrite Hw, Hr. rewrite !length_app. lia.
Qed.

Lemma walk_inv_next s d o c b : walk_inv s -> directory_ok d -> (turns d <= turns (directory s))%nat ->
  remaining (directory s) = next_item o ++ remaining d -> (o = inr None -> remaining d = []) ->
  pc s = Advancing -> (b = true -> o = inr None) ->
  forall r, r = match o with inl f => [f] | inr _ => [] end ->
  match o with inr (Some x) => c = Got x | _ => in_hand c = [] end -> pending_failure c = [] -> c <> Storing_stop Break -> (forall k, c <> Announcing_stop k) ->
  forall t p, walk_inv (mkScan d b (active s) t c (workers s) (completed s) (stopped s) p (m_terminated s) (started s) (outcomes s) (reported s ++ r)).
Proof.
  intros [H1 H2 H3 H4 H5 H6 H7] Hd Ht Hr He Hpc Hb r -> Hc Hpend Hns Hna t p.
  pose proof (seen_next s d o H3 Hr) as Hseen.
  assert (Hs : seen (mkScan d b (active s) t c (workers s) (completed s) (stopped s) p (m_terminated s) (started s) (outcomes s)
    (reported s ++ match o with inl f => [f] | inr _ => [] end)) = seen s ++ next_item o) by done.
  rewrite Hpc in H4, H5. split; cbn; rewrite ?Hs.
  - done.
  - lia.
  - by rewrite <- app_assoc, <- Hr.
  - destruct H4 as (dropped & Hd4 & Hdr). assert (dropped = []) as -> by (by destruct Hdr as [?|(_ & ? & _)]). exists []. split; [|by left].
    rewrite candidates_app, Hd4, !app_nil_r. destruct o as [f|[x|]]; [|by rewrite Hc|]; by rewrite Hc, ?app_nil_r.
  - destruct H5 as (refused & Hp & Hre). assert (refused = []) as -> by (by destruct Hre as [?|(? & _)]). exists []. split; [|by left].
    rewrite Hpend, app_nil_r in *. rewrite app_nil_l, traversal_failures_app in *. rewrite Hp.
    destruct o as [f|[x|]]; cbn [next_item traversal_failures omap list_omap]; rewrite ?app_nil_r; [|done|done]. solve_Permutation.
  - intros ->. by apply He, Hb.
  - intros k ->. by destruct (Hna k).
Qed.

(** Steps that leave the directory alone. *)
Lemma walk_inv_keep s s' l : walk_inv s -> directory s' = directory s -> exhausted s' = exhausted s ->
  (started s').*2 ++ in_hand (pc s') = (started s).*2 ++ in_hand (pc s) ->
  reported s' ++ pending_failure (pc s') ≡ₚ l ++ reported s ++ pending_failure (pc s) ->
  omap outcome_failure (outcomes s') ≡ₚ l ++ omap outcome_failure (outcomes s) ->
  (stopped s = true -> stopped s' = true) ->
  (filling (pc s') = true -> filling (pc s) = true \/ stopped s = false /\ forall k, pc s <> Storing_stop k) ->
  (pc s = Storing_stop Break -> pc s' = Storing_stop Break \/ stopped s' = true) ->
  (forall k, pc s' = Announcing_stop k -> stopped s' = true) -> walk_inv s'.
Proof.
  intros [H1 H2 H3 H4 H5 H6 H7] Hd He Hst Hrep Hout Hstop Hfill Hbreak Hann.
  assert (Hs : seen s' = seen s) by (unfold seen; by rewrite Hd). split; rewrite ?Hs, ?Hd, ?He; try done.
  - destruct H4 as (dropped & Hc & Hdr). exists dropped. split; [by rewrite app_assoc, Hst, <- app_assoc|].
    destruct Hdr as [?|(Hsd & Hf & Hl)]; [by left|right]. split; [by apply Hstop|]. split; [|done].
    destruct (filling (pc s')); [|done]. destruct (Hfill eq_refl) as [?|[? _]]; congruence.
  - destruct H5 as (refused & Hp & Hre). exists refused. split.
    + rewrite Hrep, Hout, Hp. solve_Permutation.
    + destruct Hre as [?|(Hf & Hsd & He')]; [by left|right]. split.
      * destruct (filling (pc s')); [|done]. destruct (Hfill eq_refl) as [?|[? Hk]]; [congruence|].
        destruct Hsd as [?|Hsd]; [congruence|]. by destruct (Hk Break).
      * split; [|done]. destruct Hsd as [Hsd|Hsd]; [left; by apply Hstop|]. destruct (Hbreak Hsd); auto.
Qed.

Lemma walk_inv_worker s s' : walk_inv s -> worker_effect s s' -> walk_inv s'.
Proof.
  intros Hi H. revert Hi. destruct H as [id c st st' b p Hw Hm Hp|id c r Hw Hl]; intros Hi.
  - apply (walk_inv_keep s _ []); try done; cbn; [by intros ->|by left|by left|]. intros k Hk. by rewrite (walk_end _ Hi k Hk).
  - apply (walk_inv_keep s _ []); try done; cbn; [by left|by left|]. intros k Hk. by rewrite (walk_end _ Hi k Hk).
Qed.

Lemma walk_inv_refused s e t p : walk_inv s -> pc s = Verifying ->
  walk_inv (mkScan (directory s) (exhausted s) (active s) t (Storing_stop Break) (workers s) (completed s) (stopped s) p (m_terminated s)
    (started s) (outcomes s) (reported s ++ [mkFailure root e])).
Proof.
  intros [H1 H2 H3 H4 H5 H6 H7] Hpc. rewrite Hpc in *. split; cbn; try done.
  - destruct H4 as (dropped & Hc & Hdr). exists dropped. split; [done|]. destruct Hdr as [?|(_ & ? & _)]; [by left|done].
  - destruct H5 as (refused & Hp & Hre). destruct Hre as [->|(? & _)]; [|done]. exists [mkFailure root e]. split.
    + change (seen _) with (seen s). cbn in Hp. rewrite app_nil_r in *. rewrite Hp. solve_Permutation.
    + right. split; [done|]. split; [by right|]. by exists e.
Qed.

Lemma walk_inv_dropped s c : walk_inv s -> pc s = Got c -> stopped s = true -> walk_inv (set_pc Checking_active s).
Proof.
  intros [H1 H2 H3 H4 H5 H6 H7] Hpc Hsd. rewrite Hpc in *. split; cbn; try done.
  - destruct H4 as (dropped & Hc & Hdr). destruct Hdr as [->|(_ & ? & _)]; [|done]. exists [c]. split; [done|]. by right.
  - destruct H5 as (refused & Hp & Hre). exists refused. split; [done|]. destruct Hre as [?|(? & _)]; [by left|done].
Qed.

Lemma walk_inv_coordinator valid s s' : walk_inv s -> coordinator_step valid s = Some s' -> walk_inv s'.
Proof.
  intros Hi H. unfold ClusterScan.coordinator_step in H. destruct (pc s) as [| | |c|c|k|k| | |o|o|] eqn:Hpc; try done.
  - injection H as <-. destruct (negb (exhausted s) && negb (stopped s) && _) eqn:Hc; apply (walk_inv_keep s _ []); try done; cbn; rewrite ?Hpc; try done.
    right. split; [|done]. by destruct (stopped s), (exhausted s).
  - destruct valid as [e|]; injection H as <-; [exact (walk_inv_refused s e _ _ Hi Hpc)|].
    apply (walk_inv_keep s _ []); try done; cbn; rewrite ?Hpc; try done. by left.
  - destruct (next_returns fuel (directory s)) as (o & d & Hn & Hd & Ht & Hr & He); [by apply Hi|by apply Hi|].
    rewrite Hn in H. cbn [mbind option_bind] in H. destruct o as [f|[c|]]; injection H as <-.
    + unfold fail_scan. cbn. apply (walk_inv_next s d (inl f)); try done; destruct (stop_on_fail options); try done;
        try (intros He'; pose proof (walk_exhausted _ Hi He') as Hnil; rewrite Hnil in Hr; done); by destruct f.
    + pose proof (walk_inv_next s d (inr (Some c)) (Got c) (exhausted s) Hi Hd Ht Hr He Hpc) as Hx.
      specialize (Hx ltac:(intros He'; pose proof (walk_exhausted _ Hi He') as Hnil; rewrite Hnil in Hr; done) [] eq_refl eq_refl eq_refl).
      specialize (Hx ltac:(done) ltac:(done) (totals s) (progress s)). by rewrite app_nil_r in Hx.
    + pose proof (walk_inv_next s d (inr None) Checking_active true Hi Hd Ht Hr He Hpc) as Hx.
      specialize (Hx ltac:(done) [] eq_refl eq_refl eq_refl ltac:(done) ltac:(done) (totals s) (progress s)). by rewrite app_nil_r in Hx.
  - destruct (stopped s) eqn:Hsd; injection H as <-; [by apply (walk_inv_dropped s c)|].
    apply (walk_inv_keep s _ []); try done; cbn; rewrite ?Hpc; try done. by left.
  - injection H as <-. unfold start_file. cbn. apply (walk_inv_keep s _ []); try done; cbn; rewrite ?Hpc; try done.
    rewrite fmap_app, app_nil_r. done.
  - injection H as <-. apply (walk_inv_keep s _ []); try done; cbn; rewrite ?Hpc; try done. by right.
  - injection H as <-. pose proof (walk_end _ Hi k Hpc) as Hsd.
    destruct k; apply (walk_inv_keep s _ []); try done; cbn; rewrite ?Hpc; done.
  - injection H as <-. destruct (active s =? 0); apply (walk_inv_keep s _ []); try done; cbn; rewrite ?Hpc; done.
  - destruct (completed s) as [|o rest]; [done|]. injection H as <-.
    apply (walk_inv_keep s _ (option_list (outcome_failure o))); try done; cbn; rewrite ?Hpc; try done; cbn.
    + rewrite app_nil_r. solve_Permutation.
    + rewrite omap_app. cbn. destruct (outcome_failure o); cbn; [solve_Permutation|by rewrite app_nil_r].
  - injection H as <-. destruct (outcome_result o) as [e|[]] eqn:Ho; apply (walk_inv_keep s _ []); try done; cbn; rewrite ?Hpc; try done; cbn.
    by rewrite app_nil_r; unfold outcome_failure; rewrite Ho, app_nil_r.
  - destruct (outcome_result o) as [e|] eqn:Ho; [|done]. injection H as <-. unfold fail_scan. cbn.
    apply (walk_inv_keep s _ []); try done; cbn; rewrite ?Hpc; try done; cbn. by rewrite app_nil_r; unfold outcome_failure; rewrite Ho.
Qed.

Lemma walk_inv_make w : walk_inv (Scan_make root folders w).
Proof.
  assert (Hrem : remaining (ScanDirectory_make root folders) = W) by (unfold remaining, ScanDirectory_make; by destruct folders).
  assert (Hseen : seen (Scan_make root folders w) = []) by (unfold seen; cbn; rewrite Hrem, Nat.sub_diag; done).
  split; cbn; try done.
  - unfold ScanDirectory_make. destruct folders; split; cbn; tauto || discriminate.
  - rewrite Hfuel. unfold walk_fuel, turns, ScanDirectory_make. destruct folders; cbn; lia.
  - by rewrite Hseen, Hrem.
  - exists []. rewrite Hseen. split; [done|by left].
  - exists []. rewrite Hseen. split; [done|by left].
Qed.

(** ** Tasks, workers and outcomes *)
Hypothesis Hfiles : Z.of_nat (length W) < 2 ^ 64.
Hypothesis Hconcurrency : 1 <= concurrency options < 2 ^ 64.

Definition of_worker (x : Z * Worker) : Z * ScanCandidate := (x.1, w_candidate x.2).
Definition of_outcome (o : ScanOutcome) : Z * ScanCandidate := (task_id o, outcome_candidate o).

Definition finishing (c : Coordinator) : list ScanOutcome := match c with Finishing_file o => [o] | _ => [] end.

(** The files in work: with a worker, in the queue, or with the coordinator. *)
Definition in_work (s : Scan) (id : Z) : Prop := is_Some (workers s !! id) \/ id ∈ task_id <$> (completed s ++ finishing (pc s)).

Record task_inv (s : Scan) : Prop := {
  task_started : started s ≡ₚ (of_worker <$> map_to_list (workers s)) ++ (of_outcome <$> completed s) ++ (of_outcome <$> outcomes s);
  task_ids : (started s).*1 = seqZ 1 (Z.of_nat (length (started s)));
  task_scheduled : m_scheduled_files (progress s) = Z.of_nat (length (started s));
  task_tasks : forall id, is_Some (m_tasks (progress s) !! id) <-> in_work s id;
  task_processed : m_processed_files (progress s) + Z.of_nat (length (finishing (pc s))) = Z.of_nat (length (outcomes s));
  task_finishing : finishing (pc s) ⊆ outcomes s;
  task_active : active s = Z.of_nat (size (workers s)) + Z.of_nat (length (completed s));
  task_limit : active s <= concurrency options;
  task_filling : filling (pc s) = true -> active s < concurrency options;
  task_total : forall t, m_total_files (progress s) = Some t -> Z.of_nat (length (started s)) <= t < 2 ^ 64;
  task_alive : m_terminated s = false;
  task_returned : pc s = Returned -> active s = 0
}.

Lemma workers_replaced (ws : gmap Z Worker) id w w' : ws !! id = Some w -> w_candidate w' = w_candidate w ->
  of_worker <$> map_to_list (<[id := w']> ws) ≡ₚ of_worker <$> map_to_list ws.
Proof.
  intros Hw Hc. rewrite <- insert_delete_eq, map_to_list_insert by apply lookup_delete_eq. rewrite <- (map_to_list_delete ws id w Hw). cbn.
  unfold of_worker at 1 3. cbn. by rewrite Hc.
Qed.

Lemma started_length s : walk_inv s -> Z.of_nat (length (started s)) < 2 ^ 64.
Proof.
  intros Hw. destruct (walk_started _ Hw) as (dropped & Hc & _). apply (f_equal length) in Hc. rewrite !length_app, length_fmap in Hc.
  assert (length (candidates (seen s)) <= length W)%nat; [|lia].
  assert (Hseen : (length (seen s) <= length W)%nat) by (unfold seen; rewrite length_take; lia).
  etrans; [|apply Hseen]. unfold candidates. generalize (seen s). intros l. induction l as [|[f|c] l IH]; cbn; lia.
Qed.

(** Every file is in one place. *)
Lemma ids_NoDup s : task_inv s -> NoDup (((of_worker <$> map_to_list (workers s)) ++ (of_outcome <$> completed s) ++ (of_outcome <$> outcomes s)).*1).
Proof. intros Ht. rewrite <- (task_started _ Ht), (task_ids _ Ht). apply NoDup_seqZ. Qed.

Lemma elem_of_workers s id : is_Some (workers s !! id) <-> id ∈ (of_worker <$> map_to_list (workers s)).*1.
Proof.
  rewrite list_elem_of_fmap. split.
  - intros [w Hw]. exists (of_worker (id, w)). split; [done|]. by apply list_elem_of_fmap_2, elem_of_map_to_list.
  - intros ([i c] & -> & Hic). apply list_elem_of_fmap in Hic as ([i' w] & [= -> ->] & Hw). apply elem_of_map_to_list in Hw. by exists w.
Qed.

Lemma elem_of_ids (l : list ScanOutcome) id : id ∈ task_id <$> l <-> id ∈ (of_outcome <$> l).*1.
Proof. by rewrite <- list_fmap_compose. Qed.

Lemma in_work_started s id : task_inv s -> in_work s id -> 1 <= id <= Z.of_nat (length (started s)).
Proof.
  intros Ht Hid. assert (H : id ∈ (started s).*1); [|rewrite (task_ids _ Ht) in H; apply elem_of_seqZ in H; lia].
  rewrite (task_started _ Ht), !fmap_app, !elem_of_app. destruct Hid as [Hid|Hid]; [left; by apply elem_of_workers|].
  rewrite fmap_app, elem_of_app in Hid. destruct Hid as [Hid|Hid]; right; [left; by apply elem_of_ids|right].
  apply elem_of_ids. apply list_elem_of_fmap in Hid as (o & -> & Ho). apply list_elem_of_fmap_2. by apply (task_finishing _ Ht).
Qed.

(** An outcome that was taken is nowhere else. *)
Lemma outcome_elsewhere s o : task_inv s -> o ∈ outcomes s -> workers s !! task_id o = None /\ task_id o ∉ task_id <$> completed s.
Proof.
  intros Ht Ho. pose proof (ids_NoDup s Ht) as Hn. rewrite !fmap_app, !NoDup_app in Hn.
  assert (Hid : task_id o ∈ (of_outcome <$> outcomes s).*1) by (apply elem_of_ids; by apply list_elem_of_fmap_2). split.
  - apply eq_None_not_Some. intros Hw. apply elem_of_workers in Hw. destruct Hn as (_ & Hn & _). apply (Hn _ Hw), elem_of_app. by right.
  - intros Hc. destruct Hn as (_ & _ & _ & Hn & _). apply (Hn (task_id o)); [by apply elem_of_ids|done].
Qed.

Lemma task_inv_worker s s' : task_inv s -> worker_effect s s' -> task_inv s'.
Proof.
  intros Ht H. revert Ht. destruct H as [id c st st' b p Hw Hm Hp|id c r Hw Hl]; intros Ht; destruct Ht as [H1 H2 H3 H4 H5 H6 H7 H8 H9 H10 H11 H12].
  - destruct Hp. split; cbn; try congruence; try done.
    + rewrite workers_replaced; [done|done|done].
    + intros i. rewrite same_tasks0, H4. unfold in_work. cbn. destruct (decide (i = id)) as [->|Hi]; [|by rewrite lookup_insert_ne].
      rewrite lookup_insert_eq, Hw. naive_solver.
    + rewrite map_size_insert_Some by (by rewrite Hw). done.
    + intros t. rewrite same_total0. apply H10.
  - split; cbn; try congruence; try done.
    + rewrite H1. rewrite <- (map_to_list_delete (workers s) id _ Hw), fmap_app. cbn. solve_Permutation.
    + intros i. rewrite H4. unfold in_work. cbn. rewrite !fmap_app, !elem_of_app. destruct (decide (i = id)) as [->|Hi].
      * split; [|intros _; left; rewrite Hw; by eexists]. intros _. right. left. right. cbn. by left.
      * rewrite lookup_delete_ne by done. cbn. rewrite list_elem_of_singleton. naive_solver.
    + rewrite map_size_delete_Some by (by rewrite Hw). rewrite H7, length_app. cbn.
      assert (size (workers s) <> 0%nat); [|lia]. intros Hz. apply map_size_empty_inv in Hz. by rewrite Hz in Hw.
Qed.

Lemma task_inv_keep s s' : task_inv s ->
  workers s' = workers s -> completed s' = completed s -> outcomes s' = outcomes s -> started s' = started s -> active s' = active s ->
  m_terminated s' = m_terminated s ->
  m_total_files (progress s') = m_total_files (progress s) -> m_scheduled_files (progress s') = m_scheduled_files (progress s) ->
  m_processed_files (progress s') = m_processed_files (progress s) -> m_tasks (progress s') = m_tasks (progress s) ->
  finishing (pc s') = finishing (pc s) ->
  (filling (pc s') = true -> filling (pc s) = true \/ active s < concurrency options) -> (pc s' = Returned -> active s = 0) -> task_inv s'.
Proof.
  intros [H1 H2 H3 H4 H5 H6 H7 H8 H9 H10 H11 H12] Ew Ec Eo Es Ea Et E1 E2 E3 E4 Ef Hfill Hret.
  split; rewrite ?Ew, ?Ec, ?Eo, ?Es, ?Ea, ?Et, ?E1, ?E2, ?E3, ?E4, ?Ef; try done.
  - intros id. rewrite H4. unfold in_work. by rewrite Ew, Ec, Ef.
  - intros Hf. destruct (Hfill Hf); auto.
Qed.

(** A new file gets the next id, and its worker. *)
Lemma task_inv_start s c : task_inv s -> pc s = Starting c -> Z.of_nat (length (started s)) + 1 < 2 ^ 64 ->
  task_inv (start_file cluster_id root options c s).
Proof.
  intros Ht Hpc Hlen. pose proof (fun id => in_work_started s id Ht) as Hin.
  destruct Ht as [H1 H2 H3 H4 H5 H6 H7 H8 H9 H10 H11 H12]. rewrite Hpc in *.
  assert (Hid : wrapu 64 (m_scheduled_files (progress s) + 1) = Z.of_nat (length (started s)) + 1) by (rewrite H3; unfold wrapu; apply Z.mod_small; lia).
  set (n := Z.of_nat (length (started s)) + 1) in *.
  assert (Hno : ~ in_work s n) by (intros Hn; apply Hin in Hn; lia).
  assert (Hact : wrapu 64 (active s + 1) = active s + 1) by (unfold wrapu; apply Z.mod_small; specialize (H9 eq_refl); lia).
  assert (Hfree : workers s !! n = None) by (apply eq_None_not_Some; intros ?; apply Hno; by left).
  assert (Htask : m_tasks (progress s) !! n = None) by (apply eq_None_not_Some; intros ?; apply Hno; by apply H4).
  unfold start_file, beginFile. rewrite Hid, Hact, Htask. split; cbn; try done.
  - rewrite H1, map_to_list_insert by done. cbn. solve_Permutation.
  - rewrite fmap_app, H2, length_app. cbn. replace (Z.of_nat (length (started s) + 1)) with (Z.of_nat (length (started s)) + 1) by lia.
    rewrite seqZ_app by lia. f_equal. cbn. subst n. by rewrite Z.add_comm.
  - rewrite length_app. cbn. lia.
  - intros i. unfold in_work. cbn. destruct (decide (i = n)) as [->|Hi]; [rewrite !lookup_insert_eq; naive_solver|].
    rewrite !lookup_insert_ne by done. rewrite H4. unfold in_work. by rewrite Hpc.
  - by rewrite map_size_insert_None, H7 by done; lia.
  - specialize (H9 eq_refl). lia.
  - intros t Ht. destruct (m_total_files (progress s)) as [t0|] eqn:Htot; [|done]. injection Ht as <-. specialize (H10 t0 eq_refl).
    rewrite length_app. cbn. lia.
Qed.

(** An outcome leaves the queue, and its task ends. *)
Lemma task_inv_take s o rest : task_inv s -> pc s = Dequeuing -> completed s = o :: rest -> task_inv (take_outcome o rest s).
Proof.
  intros [H1 H2 H3 H4 H5 H6 H7 H8 H9 H10 H11 H12] Hpc Hc. rewrite Hpc, Hc in *. cbn [length] in H7.
  assert (Hact : wrapu 64 (active s - 1) = active s - 1) by (unfold wrapu; apply Z.mod_small; lia).
  unfold take_outcome. rewrite Hact. split; cbn; try done; try lia.
  - rewrite H1, fmap_app. cbn. solve_Permutation.
  - intros id. rewrite H4. unfold in_work. rewrite Hpc, Hc. cbn. rewrite app_nil_r, fmap_app, elem_of_app. cbn.
    rewrite elem_of_cons, list_elem_of_singleton. naive_solver.
  - rewrite length_app. cbn. cbn in H5. lia.
  - intros x Hx. apply list_elem_of_singleton in Hx as ->. apply elem_of_app. right. by apply list_elem_of_singleton.
Qed.

Lemma task_inv_finish s o c : task_inv s -> pc s = Finishing_file o -> finishing c = [] -> filling c = false -> c <> Returned ->
  Z.of_nat (length (started s)) < 2 ^ 64 ->
  task_inv (set_pc c (set_scan_progress (finishFile (task_id o) (c_size (outcome_candidate o)) (progress s)) s)).
Proof.
  intros Ht Hpc Hf Hc Hr Hlen. pose proof (task_finishing _ Ht) as Ho. rewrite Hpc in Ho.
  destruct (outcome_elsewhere s o Ht) as [Ho1 Ho2]; [apply Ho; by apply list_elem_of_singleton|].
  assert (Hle : (length (outcomes s) <= length (started s))%nat) by (rewrite (task_started _ Ht), !length_app, !length_fmap; lia).
  destruct Ht as [H1 H2 H3 H4 H5 H6 H7 H8 H9 H10 H11 H12]. rewrite Hpc in *. cbn [finishing length] in H5.
  split; cbn; rewrite ?Hf, ?Hc; try done.
  - intros id. unfold in_work. cbn. rewrite Hf, app_nil_r. destruct (decide (id = task_id o)) as [->|Hi].
    + rewrite lookup_delete_eq, Ho1. split; [by intros [? ?]|]. intros [[? ?]|?]; done.
    + rewrite lookup_delete_ne by done. rewrite H4. unfold in_work. rewrite Hpc. cbn. rewrite fmap_app, elem_of_app. cbn.
      rewrite list_elem_of_singleton. naive_solver.
  - unfold wrapu. rewrite Z.mod_small by lia. cbn. lia.
  - intros x Hx. by apply elem_of_nil in Hx.
Qed.

Lemma task_inv_coordinator valid s s' : walk_inv s' -> walk_inv s -> task_inv s -> coordinator_step valid s = Some s' -> task_inv s'.
Proof.
  intros Hw' Hw Ht H. pose proof (started_length s Hw) as Hlen. pose proof (started_length s' Hw') as Hlen'. pose proof (task_filling _ Ht) as Hfill.
  unfold ClusterScan.coordinator_step in H. destruct (pc s) as [| | |c|c|k|k| | |o|o|] eqn:Hpc; try done.
  - injection H as <-. destruct (negb (exhausted s) && negb (stopped s) && _) eqn:Hc; apply (task_inv_keep s); try done; cbn; rewrite ?Hpc; try done.
    right. apply andb_prop in Hc as [_ Hc]. by apply Z.ltb_lt.
  - destruct valid as [e|]; injection H as <-; apply (task_inv_keep s); try done; cbn; rewrite ?Hpc; try done. by left.
  - destruct (next fuel (directory s)) as [[[f|[c|]] d]|]; [..|done]; injection H as <-; unfold fail_scan; cbn;
      (apply (task_inv_keep s); try done; cbn; rewrite ?Hpc; try done; try (by left)); by destruct (stop_on_fail options).
  - destruct (stopped s); injection H as <-; apply (task_inv_keep s); try done; cbn; rewrite ?Hpc; try done. by left.
  - injection H as <-. apply task_inv_start; [done|done|]. revert Hlen'. unfold start_file. cbn. rewrite length_app. cbn. lia.
  - injection H as <-. apply (task_inv_keep s); try done; cbn; rewrite ?Hpc; done.
  - injection H as <-. apply (task_inv_keep s); try done; cbn [set_pc set_scan_progress progress pc]; rewrite ?Hpc; by destruct k.
  - destruct (Z.eqb_spec (active s) 0); injection H as <-; apply (task_inv_keep s); try done; cbn; rewrite ?Hpc; done.
  - destruct (completed s) as [|o rest] eqn:Hc; [done|]. injection H as <-. by apply task_inv_take.
  - injection H as <-. apply task_inv_finish; try done; by destruct (outcome_result o).
  - destruct (outcome_result o) as [e|] eqn:Ho; [|done]. injection H as <-. unfold fail_scan. cbn.
    apply (task_inv_keep s); try done; cbn; rewrite ?Hpc; done.
Qed.

(** A fresh progress: counted, nothing begun. *)
Definition ready (p : ScanProgress) : Prop :=
  m_scheduled_files p = 0 /\ m_processed_files p = 0 /\ m_tasks p = ∅ /\ forall t, m_total_files p = Some t -> 0 <= t < 2 ^ 64.

Lemma task_inv_make w : ready (snd w) -> task_inv (Scan_make root folders w).
Proof.
  intros (H1 & H2 & H3 & H4). split; cbn; try done.
  - intros id. rewrite H3, lookup_empty. unfold in_work. cbn. rewrite lookup_empty. split; [by intros [? ?]|].
    intros [[? ?]|Hi]; [done|by apply elem_of_nil in Hi].
  - by rewrite H2.
  - lia.
Qed.

(** ** Results, totals and the reason of a stop *)
Definition sizes (l : list ScanOutcome) : Z := foldr Z.add 0 ((fun o => c_size (outcome_candidate o)) <$> l).

(** The totals after some outcomes and failures. *)
Definition totals_after (t : ScanTotals) (l : list ScanOutcome) (fs : list ScanFailure) : ScanTotals :=
  mkTotals (wrapu 64 (file_count t + Z.of_nat (length l))) (wrapu 64 (byte_size t + sizes l))
    (wrapu 64 (failed_count t + Z.of_nat (length fs))) (take 1000 (failures t ++ fs)).

Definition settled (w : ScanTotals * ScanProgress) : Prop :=
  totals_after (fst w) [] [] = fst w /\ m_failed_count (snd w) = failed_count (fst w) /\ m_processed_bytes (snd w) = byte_size (fst w).

Definition worker_ok (w : Worker) : Prop :=
  match w_state w with Scanning p => rest_of (w_candidate w) p | Announcing r | Finishing r | Enqueuing r => ends_with (w_candidate w) r end.

Definition has_result (s : Scan) (r : ScanResult) : Prop :=
  (exists id w, workers s !! id = Some w /\ result_in (w_state w) = Some r) \/ exists o, o ∈ completed s ++ outcomes s /\ outcome_result o = r.

(** Why a scan is stopped: a result, a cluster that does not verify, or a
    directory that cannot be read when that is asked for. *)
Definition cause (s : Scan) : Prop :=
  (exists r, has_result s r /\ stops r = true) \/ (exists e, mkFailure root e ∈ reported s)
  \/ stop_on_fail options = true /\ traversal_failures (seen s) <> [].

Record result_inv (w : ScanTotals * ScanProgress) (s : Scan) : Prop := {
  result_totals : totals s = totals_after (fst w) (outcomes s) (reported s);
  result_failed : m_failed_count (progress s) = wrapu 64 (m_failed_count (snd w) + Z.of_nat (length (reported s)));
  result_bytes : exists left, outcomes s = left ++ finishing (pc s) /\ m_processed_bytes (progress s) = wrapu 64 (m_processed_bytes (snd w) + sizes left);
  result_workers : forall id wk, workers s !! id = Some wk -> worker_ok wk;
  result_outcomes : forall o, o ∈ completed s ++ outcomes s -> ends_with (outcome_candidate o) (outcome_result o);
  result_cause : stopped s = true \/ (exists k, pc s = Storing_stop k) -> cause s;
  result_through : pc s = Checking_active \/ pc s = Returned -> exhausted s = true \/ stopped s = true \/ concurrency options <= active s
}.

Lemma take_snoc {A} n (l : list A) x : take n (l ++ [x]) = if (length (take n l) <? n)%nat then take n l ++ [x] else take n l.
Proof.
  rewrite length_take. destruct (Nat.ltb_spec (Nat.min n (length l)) n).
  - rewrite !take_ge by (rewrite ?length_app; cbn; lia). done.
  - by rewrite take_app_le by lia.
Qed.

Lemma wrapu_add_l x y : wrapu 64 (wrapu 64 x + y) = wrapu 64 (x + y).
Proof. unfold wrapu. apply Zplus_mod_idemp_l. Qed.

Lemma sizes_app l1 l2 : sizes (l1 ++ l2) = sizes l1 + sizes l2.
Proof. unfold sizes. rewrite fmap_app, foldr_app. induction l1 as [|o l1 IH]; cbn; [done|]. rewrite IH. lia. Qed.

Lemma totals_after_failure t l fs file msg p : 
  fst (recordFailure file msg (totals_after t l fs, p)) = totals_after t l (fs ++ [mkFailure file msg]).
Proof.
  unfold recordFailure, totals_after. cbn [fst file_count byte_size failed_count failures]. f_equal.
  - rewrite wrapu_add_l, length_app. cbn. f_equal. lia.
  - rewrite app_assoc. by rewrite take_snoc.
Qed.

Lemma cause_keep s s' : (forall r, has_result s r -> has_result s' r) -> reported s ⊆ reported s' ->
  (traversal_failures (seen s) <> [] -> traversal_failures (seen s') <> []) -> cause s -> cause s'.
Proof. intros Hr Hf Ht [(r & H1 & H2)|[(e & He)|[H1 H2]]]; [left; by eauto|right; left; by eauto|right; right; by auto]. Qed.

Lemma worker_ok_moves c st b st' : worker_moves_to c st b st' -> worker_ok (mkWorker c st) -> worker_ok (mkWorker c st').
Proof.
  intros H. destruct H as [X r k x|r|X r k what e|r|r]; cbn; try done.
  - intros [t Ht]. exists (t ++ [Asked r x]). intros t' o H. rewrite <- app_assoc. apply Ht. by constructor.
  - intros [t Ht]. assert (ends_with c r) by (exists t; left; rewrite <- (app_nil_r t); apply Ht; constructor). unfold worker_ok. by destruct (stops r).
  - intros [t Ht]. assert (He : ends_with c e) by (exists (t ++ [Raised r what]); right; exists what; split; [apply Ht; constructor|done]).
    unfold worker_ok. by destruct (stop_on_fail options || false).
Qed.

Lemma result_moves c st b st' r : worker_moves_to c st b st' -> result_in st = Some r -> result_in st' = Some r.
Proof. intros H. by destruct H. Qed.

Lemma stop_result c st b st' : worker_moves_to c st b st' -> b = true -> exists r, result_in st' = Some r /\ stops r = true.
Proof.
  intros H. destruct H as [X r k x|r|X r k what e|r|r]; intros Hb; try done; rewrite Hb; [by exists r|by exists e].
Qed.

Lemma result_inv_worker w s s' : result_inv w s -> worker_effect s s' -> result_inv w s'.
Proof.
  intros Hi H. revert Hi. destruct H as [id c st st' b p Hw Hm Hp|id c r Hw Hl]; intros [H1 H2 H3 H4 H5 H6 H7].
  - destruct Hp as [_ _ _ Hb Hf _]. split; cbn; try done; [by rewrite Hf|by rewrite Hb| | |].
    + intros i wk. destruct (decide (i = id)) as [->|Hi]; [|rewrite lookup_insert_ne by done; apply H4]. rewrite lookup_insert_eq.
      intros [= <-]. by apply (worker_ok_moves c st b), (H4 id).
    + intros Hs. assert (Hkeep : cause s -> cause (moved_worker id (mkWorker c st') p b s)).
      { apply cause_keep; cbn; [|done|done]. intros r0 [(i & wk & Hi & Hr)|Ho]; [left|by right]. cbn.
        destruct (decide (i = id)) as [->|Hne]; [|exists i, wk; by rewrite lookup_insert_ne].
        exists id, (mkWorker c st'). rewrite lookup_insert_eq. split; [done|]. rewrite Hw in Hi. injection Hi as <-.
        by apply (result_moves c st b). }
      destruct b; [|apply Hkeep, H6; by rewrite orb_false_r in Hs]. destruct (stop_result c st _ st' Hm eq_refl) as (r0 & Hr & Hst).
      left. exists r0. split; [|done]. left. exists id, (mkWorker c st'). cbn. by rewrite lookup_insert_eq.
    + intros Hpc. destruct (H7 Hpc) as [?|[->|?]]; auto.
  - split; cbn; try done.
    + intros i wk. destruct (decide (i = id)) as [->|Hi]; [by rewrite lookup_delete_eq|rewrite lookup_delete_ne by done; apply H4].
    + intros o. rewrite !elem_of_app, list_elem_of_singleton. intros [[Ho| ->]|Ho]; [apply H5, elem_of_app; by left|apply (H4 id _ Hw)|apply H5, elem_of_app; by right].
    + intros Hs. apply (cause_keep s); [|done|done|by apply H6]. intros r0 [(i & wk & Hi & Hr)|(o & Ho & Hr)].
      * destruct (decide (i = id)) as [->|Hne]; [|left; exists i, wk; cbn; by rewrite lookup_delete_ne].
        right. exists (mkOutcome id c r). cbn. rewrite !elem_of_app, list_elem_of_singleton. rewrite Hw in Hi. injection Hi as <-.
        injection Hr as <-. auto.
      * right. exists o. cbn. rewrite !elem_of_app in *. naive_solver.
Qed.

(** A step that touches neither workers nor outcomes; [fs] are the failures it
    records. *)
Lemma result_inv_keep w s s' fs : result_inv w s ->
  workers s' = workers s -> completed s' = completed s -> outcomes s' = outcomes s -> finishing (pc s') = finishing (pc s) ->
  reported s' = reported s ++ fs -> totals s' = totals_after (fst w) (outcomes s) (reported s ++ fs) ->
  m_failed_count (progress s') = wrapu 64 (m_failed_count (snd w) + Z.of_nat (length (reported s ++ fs))) ->
  m_processed_bytes (progress s') = m_processed_bytes (progress s) ->
  (stopped s' = true \/ (exists k, pc s' = Storing_stop k) ->
    (stopped s = true \/ exists k, pc s = Storing_stop k) \/ (exists e, mkFailure root e ∈ fs) \/ stop_on_fail options = true /\ traversal_failures (seen s') <> []) ->
  (traversal_failures (seen s) <> [] -> traversal_failures (seen s') <> []) ->
  (pc s' = Checking_active \/ pc s' = Returned -> exhausted s' = true \/ stopped s' = true \/ concurrency options <= active s') -> result_inv w s'.
Proof.
  intros [H1 H2 H3 H4 H5 H6 H7] Ew Ec Eo Ef Er Et Eff Eb Hs Hseen Hpc.
  split; rewrite ?Ew, ?Ec, ?Eo, ?Er, ?Ef, ?Et, ?Eff, ?Eb; try done.
  intros Hs'. assert (Hhas : forall r, has_result s r -> has_result s' r) by (intros r; unfold has_result; by rewrite Ew, Ec, Eo).
  destruct (Hs Hs') as [H|[[e He]|H]].
  - apply (cause_keep s); [done|rewrite Er; by apply list_subseteq_app_l|done|by apply H6].
  - right. left. exists e. rewrite Er. apply elem_of_app. by right.
  - by right; right.
Qed.

Lemma failure_counts w s file msg : result_inv w s -> 
  totals (fail_scan file msg s) = totals_after (fst w) (outcomes s) (reported s ++ [mkFailure file msg])
  /\ m_failed_count (progress (fail_scan file msg s)) = wrapu 64 (m_failed_count (snd w) + Z.of_nat (length (reported s ++ [mkFailure file msg]))).
Proof.
  intros Hi. split.
  - rewrite <- (totals_after_failure _ _ _ _ _ (progress s)), <- (result_totals _ _ Hi). done.
  - unfold fail_scan. cbn. rewrite (result_failed _ _ Hi), wrapu_add_l, length_app. cbn. f_equal. lia.
Qed.

Lemma result_inv_take w s o rest : result_inv w s -> pc s = Dequeuing -> completed s = o :: rest -> result_inv w (take_outcome o rest s).
Proof.
  intros [H1 H2 H3 H4 H5 H6 H7] Hpc Hc. rewrite Hpc, Hc in *. unfold take_outcome. split; cbn; try done.
  - rewrite H1. unfold totals_after. cbn. rewrite !wrapu_add_l, sizes_app, length_app. cbn. f_equal; f_equal; lia.
  - destruct H3 as (left & Ho & Hb). exists left. cbn in Ho. rewrite app_nil_r in Ho. by rewrite Ho.
  - intros x. rewrite elem_of_app, elem_of_app, list_elem_of_singleton. intros Hx. apply H5. cbn. rewrite elem_of_cons, elem_of_app. naive_solver.
  - intros [Hs|[k [=]]]. apply (cause_keep s); [|done|done|by apply H6; left]. intros r [Hw|(x & Hx & Hr)]; [by left|right]. exists x. split; [|done]. cbn.
    rewrite Hc in Hx. cbn in Hx. rewrite elem_of_cons, elem_of_app in Hx. rewrite !elem_of_app, list_elem_of_singleton. naive_solver.
  - intros [[=]|[=]].
Qed.

Lemma result_inv_start w s c : result_inv w s -> task_inv s -> pc s = Starting c -> Z.of_nat (length (started s)) + 1 < 2 ^ 64 ->
  result_inv w (start_file cluster_id root options c s).
Proof.
  intros [H1 H2 H3 H4 H5 H6 H7] Ht Hpc Hlen. rewrite Hpc in *.
  assert (Hid : wrapu 64 (m_scheduled_files (progress s) + 1) = Z.of_nat (length (started s)) + 1)
    by (rewrite (task_scheduled _ Ht); unfold wrapu; apply Z.mod_small; lia).
  assert (Hfree : workers s !! (Z.of_nat (length (started s)) + 1) = None).
  { apply eq_None_not_Some. intros Hw. pose proof (in_work_started s _ Ht (or_introl Hw)). lia. }
  unfold start_file, beginFile. rewrite Hid. split; cbn; try done.
  - intros i wk. destruct (decide (i = Z.of_nat (length (started s)) + 1)) as [->|Hi]; [|rewrite lookup_insert_ne by done; apply H4].
    rewrite lookup_insert_eq. intros [= <-]. by exists [].
  - intros [Hs|[k [=]]]. apply (cause_keep s); [|done|done|by apply H6; left]. intros r [(i & wk & Hi & Hr)|Ho]; [left|by right].
    exists i, wk. split; [|done]. cbn. rewrite lookup_insert_ne; [done|]. intros <-. congruence.
  - intros [[=]|[=]].
Qed.

Lemma result_inv_finish w s o c : result_inv w s -> pc s = Finishing_file o -> (c = Filling \/ c = Recording o) ->
  result_inv w (set_pc c (set_scan_progress (finishFile (task_id o) (c_size (outcome_candidate o)) (progress s)) s)).
Proof.
  intros [H1 H2 H3 H4 H5 H6 H7] Hpc Hc. rewrite Hpc in *. split; cbn; try done.
  - destruct H3 as (left & Ho & Hb). exists (left ++ [o]). cbn in Ho. rewrite Ho. split; [by destruct Hc as [-> | ->]; cbn; rewrite app_nil_r|].
    rewrite Hb, wrapu_add_l, sizes_app. cbn. f_equal. lia.
  - intros [Hs|[k ->]]; [by apply H6; left|by destruct Hc].
  - by destruct Hc as [-> | ->]; intros [[=]|[=]].
Qed.

Lemma result_inv_coordinator w valid s s' : walk_inv s' -> walk_inv s -> task_inv s -> result_inv w s ->
  coordinator_step valid s = Some s' -> result_inv w s'.
Proof.
  intros Hw' Hw Ht Hi H. pose proof (started_length s' Hw') as Hlen'.
  assert (Hsame : totals s = totals_after (fst w) (outcomes s) (reported s ++ [])
    /\ m_failed_count (progress s) = wrapu 64 (m_failed_count (snd w) + Z.of_nat (length (reported s ++ [])))
    /\ reported s = reported s ++ []) by (rewrite app_nil_r; split; [apply Hi|split; [apply Hi|done]]).
  destruct Hsame as (Hs1 & Hs2 & Hs3). pose proof (failure_counts w s) as Hfc.
  unfold ClusterScan.coordinator_step in H. destruct (pc s) as [| | |c|c|k|k| | |o|o|] eqn:Hpc; try done.
  - injection H as <-. destruct (negb (exhausted s) && negb (stopped s) && _) eqn:Hc; apply (result_inv_keep w s _ []); try done; cbn; rewrite ?Hpc; try done.
    + intros [?|[k [=]]]. left. by left.
    + intros [[=]|[=]].
    + intros [?|[k [=]]]. left. by left.
    + intros _. apply andb_false_iff in Hc as [Hc|Hc]; [|apply Z.ltb_ge in Hc; auto]. destruct (exhausted s), (stopped s); auto.
  - destruct valid as [e|]; injection H as <-.
    + destruct (Hfc root e Hi) as [Hf1 Hf2]. apply (result_inv_keep w s _ [mkFailure root e]); try done; cbn; rewrite ?Hpc; try done.
      * intros _. right. left. exists e. by apply list_elem_of_singleton.
      * intros [[=]|[=]].
    + apply (result_inv_keep w s _ []); try done; cbn; rewrite ?Hpc; try done; [|intros [[=]|[=]]]. intros [?|[k [=]]]. left. by left.
  - destruct (next_returns fuel (directory s)) as (o & d & Hn & Hd & Htu & Hr & He); [by apply Hw|by apply Hw|].
    rewrite Hn in H. cbn [mbind option_bind] in H. pose proof (seen_next s d o (walk_seen _ Hw) Hr) as Hseen.
    destruct o as [f|[c|]]; injection H as <-.
    + destruct (Hfc (f_path f) (f_message f) Hi) as [Hf1 Hf2].
      assert (Hsf : traversal_failures (take (length W - length (remaining d)) W) <> []).
      { rewrite Hseen, traversal_failures_app. cbn. by destruct (traversal_failures (seen s)). }
      apply (result_inv_keep w s _ [mkFailure (f_path f) (f_message f)]); try done; cbn; rewrite ?Hpc; try done;
        destruct (stop_on_fail options); try done; [by right; right|intros [?|[k [=]]]; left; by left|intros [[=]|[=]]..].
    + apply (result_inv_keep w s _ []); try done; cbn; rewrite ?Hpc; try done.
      * intros [?|[k [=]]]. left. by left.
      * intros Hne. change (seen _) with (take (length W - length (remaining d)) W). rewrite Hseen, traversal_failures_app. by destruct (traversal_failures (seen s)).
      * intros [[=]|[=]].
    + apply (result_inv_keep w s _ []); try done; cbn; rewrite ?Hpc; try done.
      * intros [?|[k [=]]]. left. by left.
      * intros Hne. change (seen _) with (take (length W - length (remaining d)) W). rewrite Hseen, traversal_failures_app. by destruct (traversal_failures (seen s)).
      * auto.
  - destruct (stopped s) eqn:Hsd; injection H as <-; apply (result_inv_keep w s _ []); try done; cbn; rewrite ?Hpc; try done; auto.
    + intros [Hx|[k [=]]]. left. left. congruence.
    + intros [[=]|[=]].
  - injection H as <-. apply result_inv_start; try done. revert Hlen'. unfold start_file. cbn. rewrite length_app. cbn. lia.
  - injection H as <-. apply (result_inv_keep w s _ []); try done; cbn; rewrite ?Hpc; try done; eauto.
  - injection H as <-. pose proof (walk_end _ Hw k Hpc) as Hsd. destruct k; apply (result_inv_keep w s _ []); try done; cbn; rewrite ?Hpc; try done; auto.
  - injection H as <-. pose proof (result_through _ _ Hi (or_introl Hpc)) as Hth.
    destruct (active s =? 0); apply (result_inv_keep w s _ []); try done; cbn; rewrite ?Hpc; try done; auto; intros [?|[k [=]]]; auto.
  - destruct (completed s) as [|o rest] eqn:Hc; [done|]. injection H as <-. by apply result_inv_take.
  - injection H as <-. apply result_inv_finish; [done|done|]. destruct (outcome_result o); auto.
  - destruct (outcome_result o) as [e|] eqn:Ho; [|done]. injection H as <-.
    destruct (Hfc (c_path (outcome_candidate o)) (message e) Hi) as [Hf1 Hf2].
    apply (result_inv_keep w s _ [mkFailure (c_path (outcome_candidate o)) (message e)]); try done; cbn; rewrite ?Hpc; try done.
    + intros [?|[k [=]]]. left. by left.
    + intros [[=]|[=]].
Qed.

Lemma result_inv_make w : settled w -> (0 <= m_failed_count (snd w) < 2 ^ 64) -> (0 <= m_processed_bytes (snd w) < 2 ^ 64) -> result_inv w (Scan_make root folders w).
Proof.
  intros (H1 & H2 & H3) Hf Hb. split; cbn; try done.
  - unfold wrapu. rewrite Z.mod_small; lia.
  - exists []. split; [done|]. unfold wrapu. rewrite Z.mod_small; cbn; lia.
  - intros o Ho. by apply elem_of_nil in Ho.
  - intros [[=]|[k [=]]].
  - intros [[=]|[=]].
Qed.

(** ** Termination *)

Lemma scan_inv_step w s s' : walk_inv s /\ task_inv s /\ result_inv w s -> scan_step s s' -> walk_inv s' /\ task_inv s' /\ result_inv w s'.
Proof.
  intros (Hw & Ht & Hr) H. apply scan_step_cases in H as [[valid H]|H].
  - pose proof (walk_inv_coordinator valid s s' Hw H) as Hw'. split; [done|]. split; [by apply (task_inv_coordinator valid s)|by apply (result_inv_coordinator w valid s)].
  - split; [by apply (walk_inv_worker s)|]. split; [by apply (task_inv_worker s)|by apply (result_inv_worker w s)].
  - intros id Hid. apply (task_tasks _ Ht). by left.
Qed.

(** A scan may begin with these totals and this progress. *)
Definition fresh (w : ScanTotals * ScanProgress) : Prop :=
  ready (snd w) /\ settled w /\ 0 <= m_failed_count (snd w) < 2 ^ 64 /\ 0 <= m_processed_bytes (snd w) < 2 ^ 64.

Definition reachable (w : ScanTotals * ScanProgress) (s : Scan) : Prop := rtc scan_step (Scan_make root folders w) s.

Lemma scan_inv w s : fresh w -> reachable w s -> walk_inv s /\ task_inv s /\ result_inv w s.
Proof.
  intros (H1 & H2 & H3 & H4) H. assert (Hgen : forall a b, rtc scan_step a b -> walk_inv a /\ task_inv a /\ result_inv w a -> walk_inv b /\ task_inv b /\ result_inv w b).
  { intros a b Hab. induction Hab as [|a b c Hs _ IH]; [done|]. intros Hi. apply IH. by apply (scan_inv_step w a). }
  apply (Hgen _ _ H). split; [apply walk_inv_make|]. split; [by apply task_inv_make|by apply result_inv_make].
Qed.

(** The coordinator takes an outcome only when some file is in work, and
    records a failure only for an error. *)
Definition pc_inv (s : Scan) : Prop :=
  (pc s = Dequeuing -> active s <> 0) /\ forall o, pc s = Recording o -> is_Some (outcome_failure o).

Lemma pc_inv_step s s' : task_inv s -> pc_inv s -> scan_step s s' -> pc_inv s'.
Proof.
  intros Ht Hp H. apply scan_step_cases in H as [[valid H]|H]; [| |intros id Hid; apply (task_tasks _ Ht); by left].
  - clear Hp. unfold ClusterScan.coordinator_step in H. destruct (pc s) as [| | |c|c|k|k| | |o|o|] eqn:Hpc; try done.
    + injection H as <-. by destruct (negb (exhausted s) && negb (stopped s) && _); split.
    + destruct valid; injection H as <-; by split.
    + destruct (next fuel (directory s)) as [[[f|[c|]] d]|]; [..|done]; injection H as <-; destruct (stop_on_fail options); by split.
    + injection H as <-. destruct (stopped s); by split.
    + injection H as <-. unfold start_file. by split.
    + injection H as <-. by split.
    + injection H as <-. destruct k; by split.
    + injection H as <-. destruct (Z.eqb_spec (active s) 0); by split.
    + destruct (completed s) as [|o rest]; [done|]. injection H as <-. by split.
    + injection H as <-. destruct (outcome_result o) as [e|[]] eqn:Ho; split; cbn; try done. intros o' [= <-]. unfold outcome_failure. rewrite Ho. by eexists.
    + destruct (outcome_result o); [|done]. injection H as <-. by split.
  - by destruct H.
Qed.

Lemma pc_inv_reachable w s : fresh w -> reachable w s -> pc_inv s.
Proof.
  intros Hf H. assert (Hgen : forall a b, rtc scan_step a b -> walk_inv a /\ task_inv a /\ result_inv w a -> pc_inv a -> pc_inv b).
  { intros a b Hab. induction Hab as [|a b c Hs _ IH]; [done|]. intros Hi Hp. apply IH; [by apply (scan_inv_step w a)|].
    apply (pc_inv_step a); [apply Hi|done|done]. }
  apply (Hgen _ _ H); [by apply scan_inv; [|apply rtc_refl]|by split].
Qed.

(** The longest chain of requests of a program. *)
Fixpoint within (n : nat) {A} (p : @prog MetadataInfo A) : Prop :=
  match p with
  | Return _ => True
  | Ask r k => match n with O => False | S n => forall x, within n (k x) end
  end.

Lemma within_le n m {A} (p : @prog MetadataInfo A) : (n <= m)%nat -> within n p -> within m p.
Proof.
  intros Hle H. revert n m Hle H. induction p as [a|X r k IH]; intros n m Hle H; [by destruct m|]. destruct n as [|n]; [done|].
  destruct m as [|m]; [lia|]. intros x. apply (IH x n); [lia|apply H].
Qed.

#[local] Existing Instances scan_ret scan_bind.

Lemma within_bind n m {A B} (p : @scanM MetadataInfo A) (f : A -> scanM B) : within n p -> (forall a, within m (f a)) -> within (n + m) (p ≫= f).
Proof.
  intros Hp Hf. unfold mbind, scan_bind. revert n Hp. induction p as [[e|a]|X r k IH]; intros n Hp; cbn [bind].
  - by destruct (n + m)%nat.
  - apply (within_le m); [lia|apply Hf].
  - destruct n as [|n]; [done|]. intros x. apply (IH x n (Hp x)).
Qed.

Lemma within_ret n {A} (a : A) : within n (mret a : scanM A).
Proof. by destruct n. Qed.
Lemma within_fails n {A} m b : within n (fails m b : scanM A).
Proof. by destruct n. Qed.
Lemma within_ask n {X} (r : Request X) : within (S n) (ask r : scanM X).
Proof. intros x. by destruct n. Qed.
Lemma within_verify n : within (S n) (verify : scanM unit).
Proof. apply (within_bind 1 n); [apply within_ask|]. intros [e|]; [apply within_fails|apply within_ret]. Qed.

Create HintDb within.
#[local] Hint Resolve within_ret within_fails within_ask within_verify : within.

Lemma within_checkAssignedFile s id hash : within 2 (checkAssignedFile s id hash : scanM unit).
Proof.
  unfold checkAssignedFile. destruct (state_cluster s); [|apply within_ret]. case_decide; [apply within_ret|].
  apply (within_bind 1 1); [apply within_ask|]. intros [e|r]; [apply within_fails|]. apply (within_bind 1 0); [apply within_ask|].
  intros []; auto with within.
Qed.

Lemma within_check_hash c hash plan : within 2 (check_hash c hash plan : scanM unit).
Proof.
  unfold check_hash. destruct (plan_verify_hash plan); [|apply within_ret]. apply (within_bind 1 1); [apply within_ask|]. intros [].
  apply (within_bind 1 0); [apply within_ask|]. intros h. case_decide; auto with within.
Qed.

Lemma within_find_mime c s plan : within 2 (find_mime c s plan : scanM (option Z)).
Proof.
  unfold find_mime. destruct (detect_mime plan); [|apply within_ret]. apply (within_bind 1 1); [apply within_ask|]. intros [].
  apply (within_bind 1 0); [apply within_ask|]. auto with within.
Qed.

Lemma within_choose_extension c s m : within 1 (choose_extension c s options m : scanM string).
Proof.
  unfold choose_extension. destruct m as [m|]; [|apply within_ret]. destruct (fix_extensions options && _); [|apply within_ret].
  apply (within_bind 1 0); [|auto with within]. destruct s as [s|]; [case_decide|]; auto with within.
Qed.

Lemma within_move_file c p : within 4 (move_file c p : scanM path).
Proof.
  unfold move_file. case_decide; [apply within_ret|]. apply (within_bind 1 3); [apply within_ask|]. intros [].
  apply (within_bind 1 2); [apply within_verify|]. intros []. apply (within_bind 2 0); [|auto with within].
  unfold moveWithoutReplacing. apply (within_bind 1 1); [apply within_ask|]. intros [e|]; [apply within_fails|].
  apply (within_bind 1 0); [apply within_ask|]. intros []; auto with within.
Qed.

Lemma within_update_database c file hash s m ext times : within 3 (update_database cluster_id c file hash s m ext times : scanM Z).
Proof.
  unfold update_database. apply (within_bind 1 2); [apply within_ask|]. intros []. apply (within_bind 1 1).
  - destruct s as [s|]; [apply within_ret|]. apply (within_bind 1 0); [apply within_ask|]. intros []; auto with within.
  - intros record. apply (within_bind 1 0); [|auto with within]. by destruct (match s with Some s => _ | None => _ end); auto with within.
Qed.

Lemma within_scan_metadata record file m plan : within 4 (scan_metadata_of record file m plan : scanM unit).
Proof.
  unfold scan_metadata_of. destruct m as [m|]; [|apply within_ret]. destruct (parse_metadata plan); [|apply within_ret].
  apply (within_bind 1 3); [apply within_ask|]. intros []. apply (within_bind 1 2); [apply within_ask|]. intros [e|i]; [apply within_fails|].
  apply (within_bind 1 1); [apply within_ask|]. intros []. apply (within_bind 1 0); [apply within_ask|]. intros [e|]; unfold metadata_error; auto with within.
Qed.

(** A scan of a file makes at most 22 requests. *)
Lemma within_scanFile c : within 22 (scanFile c options).
Proof.
  unfold ScanFiles.scanFile. destruct (c_size c =? 0); [apply within_fails|]. destruct (int64_max <? c_size c); [apply within_fails|].
  destruct (fromHex (stem (c_path c))) as [e|hash]; [apply within_fails|]. destruct (read_only options && _); [apply within_fails|].
  apply (within_bind 1 21); [apply within_verify|]. intros []. apply (within_bind 1 20); [apply within_ask|]. intros s.
  destruct (negb (is_some s) && _); [apply within_fails|].
  apply (within_bind 2 18); [destruct s; [apply within_checkAssignedFile|apply within_ret]|]. intros [].
  apply (within_bind 2 16); [apply within_check_hash|]. intros []. apply (within_bind 2 14); [apply within_find_mime|]. intros m.
  apply (within_bind 1 13); [apply within_choose_extension|]. intros ext. apply (within_bind 4 9); [apply within_move_file|]. intros file.
  apply (within_bind 1 8); [apply within_ask|]. intros [times|]; [|apply within_fails].
  apply (within_bind 1 7); [apply within_verify|]. intros []. apply (within_bind 3 4); [apply within_update_database|]. intros record.
  apply within_scan_metadata.
Qed.

(** What is left to do: a file yet to come, a worker, an outcome, and the
    coordinator's way round its loops, weighed so that every step loses. *)
Definition pc_weight (c : Coordinator) : nat :=
  match c with
  | Returned | Dequeuing => 0
  | Checking_active => 1
  | Announcing_stop Break => 2
  | Storing_stop Break => 3
  | Advancing => 8
  | Verifying => 9
  | Filling => 10
  | Announcing_stop Continue | Recording _ => 11
  | Storing_stop Continue | Finishing_file _ => 12
  | Starting _ => 50
  | Got _ => 51
  end.

Definition weighs_worker (w : Worker) (n : nat) : Prop :=
  match w_state w with
  | Scanning p => exists m, within m p /\ n = (17 + m)%nat
  | Announcing _ => n = 16%nat
  | Finishing _ => n = 15%nat
  | Enqueuing _ => n = 14%nat
  end.

Definition to_come (s : Scan) : nat := if exhausted s then 0 else 60 * S (length (remaining (directory s))).

Definition weight (b : Z -> nat) (s : Scan) : nat :=
  (to_come s + sum_list_with (fun x => b x.1) (map_to_list (workers s)) + 13 * length (completed s) + pc_weight (pc s))%nat.

Definition weighs (s : Scan) (n : nat) : Prop :=
  exists b, (forall id w, workers s !! id = Some w -> weighs_worker w (b id)) /\ weight b s = n.

Notation budgets b ws := (sum_list_with (fun x => b x.1) (map_to_list ws)).

Lemma budgets_delete (b : Z -> nat) (ws : gmap Z Worker) id w : ws !! id = Some w -> budgets b ws = (b id + budgets b (delete id ws))%nat.
Proof. intros Hw. by rewrite <- (map_to_list_delete ws id w Hw). Qed.

Lemma budgets_ext (b b' : Z -> nat) (ws : gmap Z Worker) : (forall id, is_Some (ws !! id) -> b id = b' id) -> budgets b ws = budgets b' ws.
Proof.
  intros H. assert (Hl : forall l, (forall x, x ∈ l -> b x.1 = b' x.1) -> sum_list_with (fun x : Z * Worker => b x.1) l = sum_list_with (fun x => b' x.1) l).
  { induction l as [|x l IH]; intros Hx; [done|]. cbn. rewrite (Hx x), IH; [done| |by left]. intros y Hy. apply Hx. by right. }
  apply Hl. intros [id w] Hx. apply elem_of_map_to_list in Hx. apply H. by eexists.
Qed.

(** A worker set to a budget. *)
Definition with_budget (id : Z) (n : nat) (b : Z -> nat) (i : Z) : nat := if i =? id then n else b i.

Lemma budgets_insert (b : Z -> nat) (ws : gmap Z Worker) id w n :
  budgets (with_budget id n b) (<[id := w]> ws) = (n + budgets b (delete id ws))%nat.
Proof.
  rewrite (budgets_delete _ (<[id := w]> ws) id w) by apply lookup_insert_eq. unfold with_budget at 1. rewrite Z.eqb_refl. f_equal.
  rewrite delete_insert_eq. apply budgets_ext. intros i [x Hx]. unfold with_budget. destruct (Z.eqb_spec i id) as [->|]; [by rewrite lookup_delete_eq in Hx|done].
Qed.

Lemma worker_moves_lighter c st b st' n : worker_moves_to c st b st' -> weighs_worker (mkWorker c st) n ->
  exists n', (n' < n)%nat /\ weighs_worker (mkWorker c st') n'.
Proof.
  intros H. destruct H as [X r k x|r|X r k what e|r|r].
  - intros (m & Hm & ->). destruct m as [|m]; [done|]. exists (17 + m)%nat. split; [lia|]. by exists m.
  - intros (m & Hm & ->). unfold weighs_worker. destruct (stops r); [exists 16%nat|exists 15%nat]; (split; [lia|done]).
  - intros (m & Hm & ->). unfold weighs_worker. destruct (stops e); [exists 16%nat|exists 15%nat]; (split; [lia|done]).
  - intros ->. exists 15%nat. split; [lia|done].
  - intros ->. exists 14%nat. split; [lia|done].
Qed.

Lemma weighs_keep b n s s' : (forall id w, workers s !! id = Some w -> weighs_worker w (b id)) -> weight b s = n -> workers s' = workers s ->
  (to_come s' + 13 * length (completed s') + pc_weight (pc s') < to_come s + 13 * length (completed s) + pc_weight (pc s))%nat ->
  exists n', (n' < n)%nat /\ weighs s' n'.
Proof. intros Hb <- Hw Hl. exists (weight b s'). unfold weight. rewrite Hw. split; [lia|]. exists b. unfold weight. by rewrite Hw. Qed.

Lemma weighs_coordinator valid s s' n : walk_inv s -> task_inv s -> weighs s n -> coordinator_step valid s = Some s' -> Z.of_nat (length (started s')) < 2 ^ 64 ->
  exists n', (n' < n)%nat /\ weighs s' n'.
Proof.
  intros Hw Ht (b & Hb & Hn) H Hlen'. unfold ClusterScan.coordinator_step in H. destruct (pc s) as [| | |c|c|k|k| | |o|o|] eqn:Hpc; try done.
  - injection H as <-. apply (weighs_keep b n s); try done. rewrite Hpc. destruct (negb (exhausted s) && _ && _); cbn; unfold to_come; cbn; lia.
  - destruct valid as [e|]; injection H as <-; apply (weighs_keep b n s); try done; rewrite Hpc; unfold to_come; cbn; lia.
  - destruct (next_returns fuel (directory s)) as (o & d & Hx & Hd & Htu & Hr & He); [by apply Hw|by apply Hw|].
    rewrite Hx in H. cbn [mbind option_bind] in H. assert (Hex : o <> inr None -> exhausted s = false).
    { intros Ho. destruct (exhausted s) eqn:He'; [|done]. rewrite (walk_exhausted _ Hw He') in Hr. by destruct o as [f|[c|]]. }
    assert (Hlen : length (remaining (directory s)) = (length (next_item o) + length (remaining d))%nat) by (by rewrite Hr, length_app).
    destruct o as [f|[c|]]; injection H as <-; apply (weighs_keep b n s); try done; rewrite Hpc; unfold to_come; cbn in *; rewrite ?Hex, ?Hlen by done.
    + destruct (stop_on_fail options); cbn; lia.
    + lia.
    + destruct (exhausted s); lia.
  - injection H as <-. apply (weighs_keep b n s); try done. rewrite Hpc. unfold to_come. destruct (stopped s); cbn; lia.
  - injection H as <-. assert (Hid : wrapu 64 (m_scheduled_files (progress s) + 1) = Z.of_nat (length (started s)) + 1).
    { revert Hlen'. unfold start_file. cbn. rewrite length_app. cbn. intros. rewrite (task_scheduled _ Ht). unfold wrapu. apply Z.mod_small. lia. }
    assert (Hfree : workers s !! (Z.of_nat (length (started s)) + 1) = None).
    { apply eq_None_not_Some. intros Hi. pose proof (in_work_started s _ Ht (or_introl Hi)). lia. }
    set (id := Z.of_nat (length (started s)) + 1) in *. set (b' := with_budget id 39 b).
    exists (weight b' (start_file cluster_id root options c s)). split.
    + unfold weight, start_file, beginFile, to_come. rewrite Hid. cbn [workers directory exhausted completed pc]. subst b'. rewrite budgets_insert, delete_id by done.
      rewrite <- Hn. unfold weight, to_come. rewrite Hpc. cbn. lia.
    + exists b'. split; [|done]. unfold start_file, beginFile. rewrite Hid. cbn. intros i w. subst b'. unfold with_budget. destruct (Z.eqb_spec i id) as [->|Hi].
      * rewrite lookup_insert_eq. intros [= <-]. exists 22%nat. split; [apply within_scanFile|done].
      * rewrite lookup_insert_ne by done. apply Hb.
  - injection H as <-. apply (weighs_keep b n s); try done. rewrite Hpc. unfold to_come. destruct k; cbn; lia.
  - injection H as <-. apply (weighs_keep b n s); try done. rewrite Hpc. unfold to_come. destruct k; cbn; lia.
  - injection H as <-. apply (weighs_keep b n s); try done. rewrite Hpc. unfold to_come. destruct (active s =? 0); cbn; lia.
  - destruct (completed s) as [|o rest] eqn:Hc; [done|]. injection H as <-. apply (weighs_keep b n s); try done. rewrite Hpc, Hc. unfold to_come. cbn. lia.
  - injection H as <-. apply (weighs_keep b n s); try done. rewrite Hpc. unfold to_come. destruct (outcome_result o); cbn; lia.
  - destruct (outcome_result o); [|done]. injection H as <-. apply (weighs_keep b n s); try done. rewrite Hpc. unfold to_come, fail_scan. cbn. lia.
Qed.

Lemma weighs_worker_effect s s' n : weighs s n -> worker_effect s s' -> exists n', (n' < n)%nat /\ weighs s' n'.
Proof.
  intros (b & Hb & Hn) H. revert Hb Hn. destruct H as [id c st st' bo p Hw Hm Hp|id c r Hw Hl]; intros Hb Hn.
  - destruct (worker_moves_lighter c st bo st' _ Hm (Hb _ _ Hw)) as (m & Hlt & Hwm). set (b' := with_budget id m b).
    exists (weight b' (moved_worker id (mkWorker c st') p bo s)). split.
    + rewrite <- Hn. unfold weight, to_come. cbn [moved_worker workers directory exhausted completed pc]. subst b'. rewrite budgets_insert.
      rewrite (budgets_delete b (workers s) id _ Hw). lia.
    + exists b'. split; [|done]. cbn. intros i w. subst b'. unfold with_budget. destruct (Z.eqb_spec i id) as [->|Hi].
      * rewrite lookup_insert_eq. by intros [= <-].
      * rewrite lookup_insert_ne by done. apply Hb.
  - exists (weight b (enqueued id (mkOutcome id c r) s)). split.
    + rewrite <- Hn. unfold weight, to_come. cbn [enqueued workers directory exhausted completed pc]. rewrite (budgets_delete b (workers s) id _ Hw), length_app.
      pose proof (Hb _ _ Hw) as Hx. cbn in Hx. cbn [length]. lia.
    + exists b. split; [|done]. cbn. intros i w Hi. apply lookup_delete_Some in Hi as [_ Hi]. by apply Hb.
Qed.

Lemma weighs_step w s s' n : walk_inv s /\ task_inv s /\ result_inv w s -> weighs s n -> scan_step s s' -> exists n', (n' < n)%nat /\ weighs s' n'.
Proof.
  intros Hi Hn Hs. pose proof (scan_inv_step w s s' Hi Hs) as (Hw' & _ & _). destruct Hi as (Hw & Ht & _).
  apply scan_step_cases in Hs as [[valid H]|H]; [|by apply (weighs_worker_effect s)|intros id Hid; apply (task_tasks _ Ht); by left].
  apply (weighs_coordinator valid s); try done. by apply started_length.
Qed.

Lemma weighs_make w : weighs (Scan_make root folders w) (70 + 60 * length W).
Proof.
  assert (Hrem : remaining (ScanDirectory_make root folders) = W) by (unfold remaining, ScanDirectory_make; by destruct folders).
  exists (fun _ => 0%nat). split; [done|]. unfold weight, to_come. cbn [Scan_make exhausted directory workers completed pc]. rewrite Hrem.
  rewrite map_to_list_empty. cbn. lia.
Qed.

Lemma weighs_reachable w s : fresh w -> reachable w s -> exists n, weighs s n.
Proof.
  intros Hf H. assert (Hgen : forall a b, rtc scan_step a b -> walk_inv a /\ task_inv a /\ result_inv w a -> (exists n, weighs a n) -> exists n, weighs b n).
  { intros a b Hab. induction Hab as [|a b c Hs _ IH]; [done|]. intros Hi [n Hn]. apply IH; [by apply (scan_inv_step w a)|].
    destruct (weighs_step w a b n Hi Hn Hs) as (m & _ & Hm). by exists m. }
  apply (Hgen _ _ H); [by apply scan_inv; [|apply rtc_refl]|]. eexists. apply weighs_make.
Qed.

(** Every request has an answer. *)
Definition any_answer {X} (r : Request X) : X :=
  match r in ScanFiles.Request X return X with
  | Verify | Best_mime_extension _ | Create_directories _ | Rename_no_replace _ _ => None
  | Find_record_file_state _ | Get_file_times _ | Store_record_metadata _ _ _ => None
  | Open_cluster _ | Ensure_record _ => inl EmptyString
  | Parse_record_metadata _ _ _ => inl (mkMetadataError 0 EmptyString)
  | Ask_status _ => Missing
  | Set_stage _ | Store_record_file_info _ _ _ _ _ _ | Detach_missing_record_file _ | Tell _ => tt
  | Hash_file _ | Cluster_record_files _ _ => []
  | Identify_mime _ => 0
  end.

Lemma worker_can_move s id w : task_inv s -> workers s !! id = Some w -> Z.of_nat (length (completed s)) < concurrency options ->
  exists s', scan_step s s'.
Proof.
  intros Ht Hw Hroom. assert (Htask : is_Some (m_tasks (progress s) !! id)) by (apply (task_tasks _ Ht); left; by rewrite Hw).
  destruct w as [c [[r|X r k]|r|r|r]].
  - eexists. apply (worker_moves _ _ _ _ id). unfold ClusterScan.worker_step. rewrite Hw. reflexivity.
  - destruct (is_stage r) eqn:Hr; [|eexists; apply (worker_answered _ _ _ _ id c X r k (any_answer r)); done].
    destruct r; try done. eexists. apply (worker_moves _ _ _ _ id). unfold ClusterScan.worker_step. rewrite Hw. reflexivity.
  - eexists. apply (worker_moves _ _ _ _ id). unfold ClusterScan.worker_step. rewrite Hw. reflexivity.
  - eexists. apply (worker_moves _ _ _ _ id). unfold ClusterScan.worker_step. rewrite Hw. reflexivity.
  - eexists. apply (worker_moves _ _ _ _ id). unfold ClusterScan.worker_step. rewrite Hw. cbn. rewrite (proj2 (Z.ltb_lt _ _) Hroom). reflexivity.
Qed.

Lemma scan_moves s : walk_inv s -> task_inv s -> pc_inv s -> pc s = Returned \/ exists s', scan_step s s'.
Proof.
  intros Hw Ht Hp. destruct (coordinator_step None s) as [s'|] eqn:Hc; [right; exists s'; by apply (coordinator_moves _ _ _ _ None)|].
  unfold ClusterScan.coordinator_step in Hc. destruct (pc s) as [| | |c|c|k|k| | |o|o|] eqn:Hpc; try done; [| | |by left].
  - destruct (next_returns fuel (directory s)) as (o & d & Hx & _); [by apply Hw|by apply Hw|]. rewrite Hx in Hc. by destruct o as [f|[c|]].
  - right. destruct (completed s) as [|o rest] eqn:Hq; [|done]. pose proof (proj1 Hp Hpc) as Ha. pose proof (task_active _ Ht) as Hs. rewrite Hq in Hs.
    destruct (decide (workers s = ∅)) as [He|He]; [rewrite He, map_size_empty in Hs; by destruct Ha|].
    apply map_choose in He as (id & w & Hid). apply (worker_can_move s id w); [done|done|]. rewrite Hq. cbn. lia.
  - destruct (proj2 Hp o Hpc) as [f Hf]. unfold outcome_failure in Hf. by destruct (outcome_result o).
Qed.

Lemma returned_joined s : task_inv s -> pc s = Returned -> workers s = ∅ /\ completed s = [].
Proof.
  intros Ht Hpc. pose proof (task_returned _ Ht Hpc) as Ha. rewrite (task_active _ Ht) in Ha. split.
  - apply map_size_empty_inv. lia.
  - apply length_zero_iff_nil. lia.
Qed.

Lemma scan_ends w n s : fresh w -> reachable w s -> weighs s n ->
  Acc (flip scan_step) s /\ exists s', rtc scan_step s s' /\ pc s' = Returned /\ workers s' = ∅.
Proof.
  intros Hf. revert s. induction n as [n IH] using lt_wf_ind. intros s Hr Hn.
  pose proof (scan_inv w s Hf Hr) as Hi.
  assert (Hnext : forall s', scan_step s s' -> Acc (flip scan_step) s' /\ exists s'', rtc scan_step s' s'' /\ pc s'' = Returned /\ workers s'' = ∅).
  { intros s' Hs. destruct (weighs_step w s s' n Hi Hn Hs) as (m & Hm & Hm'). apply (IH m Hm); [|done]. by eapply rtc_r. }
  split; [constructor; intros s' Hs; by apply Hnext|]. destruct Hi as (Hw & Ht & _).
  destruct (scan_moves s Hw Ht (pc_inv_reachable w s Hf Hr)) as [Hpc|[s' Hs]].
  - exists s. split; [apply rtc_refl|]. split; [done|]. by apply returned_joined.
  - destruct (Hnext s' Hs) as [_ (s'' & H1 & H2)]. exists s''. split; [by eapply rtc_l|done].
Qed.

Lemma returned_complete w s : fresh w -> reachable w s -> pc s = Returned -> stopped s = false -> seen s = W.
Proof.
  intros Hf Hr Hpc Hs. destruct (scan_inv w s Hf Hr) as (Hw & Ht & Hres).
  destruct (result_through _ _ Hres (or_intror Hpc)) as [He|[He|He]]; [|congruence|].
  - pose proof (walk_seen _ Hw) as Hx. rewrite (walk_exhausted _ Hw He), app_nil_r in Hx. by rewrite <- Hx.
  - rewrite (task_returned _ Ht Hpc) in He. lia.
Qed.
End run.
End proofs.

(** ** Counting *)

(** The count over a walk. *)
Fixpoint count_walk (options : ScanOptions) (l : list (ScanFailure + ScanCandidate)) (complete : bool) (w : ScanTotals * ScanProgress)
    : bool * (ScanTotals * ScanProgress) :=
  match l with
  | [] => (true, (fst w, finishCounting complete (snd w)))
  | inl f :: l => if stop_on_fail options then (false, recordFailure (f_path f) (f_message f) w) else count_walk options l false w
  | inr _ :: l => count_walk options l complete (fst w, countedFile (snd w))
  end.

Lemma countFiles_loop_walk turns fuel options d complete w : directory_ok d -> (ScanFiles.turns d < fuel)%nat -> (length (remaining d) < turns)%nat ->
  countFiles_loop turns fuel options d complete w = Some (count_walk options (remaining d) complete w).
Proof.
  revert d complete w. induction turns as [|turns IH]; intros d complete w Hok Ht Hn; [lia|]. cbn [countFiles_loop].
  destruct (next_returns fuel d Hok Ht) as (o & d' & -> & Hok' & Ht' & Hrem & Hend). cbn [mbind option_bind].
  rewrite Hrem in *. rewrite length_app in Hn. destruct o as [f|[c|]]; cbn [next_item app count_walk length] in *.
  - destruct (stop_on_fail options); [done|]. apply IH; [done|lia|lia].
  - apply IH; [done|lia|lia].
  - by rewrite Hend.
Qed.

Lemma ScanDirectory_make_ok root folders : directory_ok (ScanDirectory_make root folders)
  /\ (turns (ScanDirectory_make root folders) < walk_fuel folders)%nat /\ remaining (ScanDirectory_make root folders) = walk root folders.
Proof.
  unfold ScanDirectory_make. split; [|split].
  - destruct folders; split; cbn; tauto || discriminate.
  - unfold walk_fuel, turns. destruct folders; cbn; lia.
  - unfold remaining. by destruct folders.
Qed.

Lemma countFiles_walk turns root folders options w : (length (walk root folders) < turns)%nat ->
  countFiles turns root folders options w = Some (count_walk options (walk root folders) true (fst w, setPhase "counting_files" (snd w))).
Proof.
  intros Hn. destruct (ScanDirectory_make_ok root folders) as (H1 & H2 & H3). unfold countFiles.
  rewrite countFiles_loop_walk by (rewrite ?H3; done). by rewrite H3.
Qed.

(** ** What a scan may begin with *)

(** Nothing of the files has been begun, and totals and progress agree. *)
Definition prepared (w : ScanTotals * ScanProgress) : Prop :=
  fresh w /\ file_count (fst w) = 0 /\ m_processed_bytes (snd w) = 0 /\ 0 <= m_counted_files (snd w) < 2 ^ 64.

Lemma wrapu_range n x : 0 <= n -> 0 <= wrapu n x < 2 ^ n.
Proof. intros Hn. unfold wrapu. apply Z.mod_pos_bound. lia. Qed.

Lemma settled_spec (t : ScanTotals) p : settled (t, p) <->
  ((0 <= file_count t < 2 ^ 64 /\ 0 <= byte_size t < 2 ^ 64 /\ 0 <= failed_count t < 2 ^ 64) /\ (length (failures t) <= 1000)%nat)
  /\ m_failed_count p = failed_count t /\ m_processed_bytes p = byte_size t.
Proof.
  unfold settled, totals_after. destruct t as [a b c l]. cbn. rewrite !Z.add_0_r, app_nil_r. split.
  - intros ([= H1 H2 H3 H4] & H5 & H6). split; [|done]. split.
    + rewrite <- H1, <- H2, <- H3. split; [|split]; by apply wrapu_range.
    + rewrite <- H4, length_take. lia.
  - intros (((H1 & H2 & H3) & H4) & H5 & H6). split; [|done]. unfold wrapu. rewrite !Z.mod_small by done. by rewrite take_ge by lia.
Qed.

Lemma prepared_spec t p : prepared (t, p) <->
  (m_scheduled_files p = 0 /\ m_processed_files p = 0 /\ m_tasks p = ∅ /\ forall n, m_total_files p = Some n -> 0 <= n < 2 ^ 64)
  /\ (((file_count t = 0 /\ byte_size t = 0 /\ 0 <= failed_count t < 2 ^ 64) /\ (length (failures t) <= 1000)%nat)
      /\ m_failed_count p = failed_count t) /\ m_processed_bytes p = 0 /\ 0 <= m_counted_files p < 2 ^ 64.
Proof.
  unfold prepared, fresh, ready. cbn [fst snd]. rewrite settled_spec. split.
  - intros ((H1 & H2 & H3 & H4) & Hz & H5 & H6). split; [done|]. split; [|done]. destruct H2 as (((Ha & Hb & Hc) & Hd) & He & Hf).
    split; [|done]. split; [|done]. split; [done|]. split; [congruence|done].
  - intros (H1 & (((Ha & Hb & Hc) & Hd) & He) & Hf & Hg). rewrite Ha, Hb, He, Hf. split; [|done]. split; [done|]. split; [|split; [done|lia]].
    split; [|done]. split; [|done]. split; [lia|]. split; [lia|done].
Qed.

Lemma prepared_failure file msg w : prepared w -> prepared (recordFailure file msg w).
Proof.
  destruct w as [t p]. unfold recordFailure. rewrite !prepared_spec. cbn -[Nat.ltb]. intros (H1 & (((Ha & Hb & Hc) & Hd) & He) & Hf & Hg).
  split; [done|]. split; [|done]. rewrite He. split; [|done]. split; [split; [done|split; [done|by apply wrapu_range]]|].
  destruct (Nat.ltb_spec (length (failures t)) 1000); [rewrite length_app; cbn; lia|done].
Qed.

Lemma prepared_phase phase w : prepared w -> prepared (fst w, setPhase phase (snd w)).
Proof.
  destruct w as [t p]. cbn [fst snd]. rewrite !prepared_spec. cbn. intros ((H1 & H2 & H3 & H4) & H5). split; [|done].
  split; [done|]. split; [done|]. split; [|done]. by destruct (String.eqb phase "failed").
Qed.

Lemma prepared_told {MetadataInfo} w (t : list (@event MetadataInfo)) : prepared w -> prepared (foldl told w t).
Proof.
  revert w. induction t as [|e t IH]; intros w Hw; [done|]. apply IH. assert (Ht : forall tl, prepared (tell tl w)).
  { intros [phase| |file msg]; cbn; [by apply prepared_phase| |by apply prepared_failure]. destruct w as [t0 p]. cbn. by rewrite !prepared_spec in *. }
  destruct e as [X r x|X r what]; destruct r; cbn; done || apply Ht.
Qed.

Lemma prepared_counted_file w : prepared w -> prepared (fst w, countedFile (snd w)).
Proof.
  destruct w as [t p]. cbn [fst snd]. rewrite !prepared_spec. cbn. intros (H1 & H2 & H3 & H4). split; [done|]. split; [done|]. split; [done|].
  by apply wrapu_range.
Qed.

Lemma prepared_finish complete w : prepared w -> prepared (fst w, finishCounting complete (snd w)).
Proof.
  destruct w as [t p]. cbn [fst snd]. rewrite !prepared_spec. cbn. intros ((H1 & H2 & H3 & H4) & H5 & H6 & H7).
  split; [|done]. split; [done|]. split; [done|]. split; [done|]. destruct complete; [by intros n [= <-]|done].
Qed.

Lemma prepared_count_loop n fuel options d complete w b w' :
  prepared w -> countFiles_loop n fuel options d complete w = Some (b, w') -> prepared w'.
Proof.
  revert d complete w. induction n as [|n IH]; intros d complete w Hw H; [done|]. cbn [countFiles_loop] in H.
  destruct (next fuel d) as [[[f|[c|]] d']|]; cbn [mbind option_bind] in H; [| | |done].
  - destruct (stop_on_fail options); [injection H as <- <-; by apply prepared_failure|by apply (IH _ _ _ Hw H)].
  - by apply (IH _ _ _ (prepared_counted_file w Hw) H).
  - injection H as <- <-. by apply prepared_finish.
Qed.

Lemma prepared_count n root folders options w b w' : prepared w -> countFiles n root folders options w = Some (b, w') -> prepared w'.
Proof. intros Hw. apply prepared_count_loop. by apply (prepared_phase "counting_files"). Qed.

Lemma prepared_make : prepared (ScanTotals_make, ScanProgress_make).
Proof. rewrite prepared_spec. cbn. repeat split; try done; lia. Qed.

(** ** Properties *)
Section properties.
Context {MetadataInfo : Type}.
Context (cluster_id : Z) (root : path) (options : ScanOptions) (folders : listing FolderEntry).

Notation reached := (@reachable MetadataInfo cluster_id root options (walk_fuel folders) folders).
Notation scan_step := (@scan_step MetadataInfo cluster_id root options (walk_fuel folders)).
Notation ends_with := (@ends_with MetadataInfo cluster_id root options).

(** C20: however the coordinator and its workers interleave and whatever the
    environment answers, a scan that has returned has started the candidates
    of the walk in order, each under an id of its own, all of them unless it was
    stopped, and has taken exactly one outcome of each file it started: what a
    run of [scanFile] on it ended with.  Totals count these outcomes, their
    bytes and the failures recorded; without a stop these are the errors of the
    walk and of the files, each once.  A stop has a reason. *)
Theorem scan_accounts_for_every_file w s :
  Z.of_nat (length (walk root folders)) < 2 ^ 64 -> 1 <= concurrency options < 2 ^ 64 -> fresh w -> reached w s -> pc s = Returned ->
  (exists rest, candidates (walk root folders) = (started s).*2 ++ rest /\ (stopped s = false -> rest = []))
  /\ started s ≡ₚ of_outcome <$> outcomes s /\ NoDup (started s).*1
  /\ (forall o, o ∈ outcomes s -> ends_with (outcome_candidate o) (outcome_result o))
  /\ totals s = totals_after (fst w) (outcomes s) (reported s)
  /\ (stopped s = false -> reported s ≡ₚ traversal_failures (walk root folders) ++ omap outcome_failure (outcomes s))
  /\ (stopped s = true -> (exists o, o ∈ outcomes s /\ stops options (outcome_result o) = true)
      \/ (exists e, mkFailure root e ∈ reported s) \/ stop_on_fail options = true /\ traversal_failures (walk root folders) <> []).
Proof.
  intros Hl Hc Hf Hr Hpc. destruct (scan_inv cluster_id root options _ folders eq_refl Hl Hc w s Hf Hr) as (Hw & Ht & Hres).
  destruct (returned_joined root options _ folders eq_refl s Ht Hpc) as [Hws Hq]. pose proof (task_started _ _ Ht) as Hst. rewrite Hws, Hq, map_to_list_empty in Hst. cbn in Hst.
  pose proof (returned_complete cluster_id root options _ folders eq_refl Hl Hc w s Hf Hr Hpc) as Hall.
  destruct (walk_started _ _ _ _ Hw) as (dropped & Hcand & Hdr). rewrite Hpc in Hcand. cbn in Hcand. pose proof (walk_seen _ _ _ _ Hw) as Hseen.
  split; [|split; [|split; [|split; [|split; [|split]]]]].
  - exists (dropped ++ candidates (remaining (directory s))). rewrite app_assoc, <- Hcand, <- candidates_app, <- Hseen. split; [done|].
    intros Hs. destruct Hdr as [->|[? _]]; [|congruence]. rewrite Hall in Hseen by done. rewrite <- (app_nil_r (walk root folders)) in Hseen at 1.
    apply app_inv_head in Hseen. by rewrite <- Hseen.
  - done.
  - rewrite (task_ids _ _ Ht). apply NoDup_seqZ.
  - intros o Ho. apply (result_outcomes _ _ _ _ _ _ Hres). apply elem_of_app. by right.
  - apply Hres.
  - intros Hs. destruct (walk_reported _ _ _ _ Hw) as (refused & Hp & Hre). rewrite Hpc, Hall in Hp by done. cbn in Hp. rewrite app_nil_r in Hp.
    destruct Hre as [->|(_ & [?|Hx] & _)]; [done|congruence|by rewrite Hpc in Hx].
  - intros Hs. destruct (result_cause _ _ _ _ _ _ Hres (or_introl Hs)) as [(r & [(id & wk & Hwk & _)|(o & Ho & Hor)] & Hst')|[He|[H1 H2]]].
    + by rewrite Hws in Hwk.
    + left. exists o. rewrite Hq in Ho. split; [done|]. by rewrite Hor.
    + by right; left.
    + right. right. split; [done|]. intros Hnil. apply H2. rewrite Hseen in Hnil. rewrite traversal_failures_app in Hnil. by apply app_nil in Hnil as [? _].
Qed.

(** At every point of a scan no more files are in work than the concurrency
    allows, a worker that hands its outcome over finds room in the queue, every
    file in work has its task, so that setting a stage never throws out of a
    worker, and where a total is known the remaining count does not wrap. *)
Theorem scan_keeps_its_limits w s :
  Z.of_nat (length (walk root folders)) < 2 ^ 64 -> 1 <= concurrency options < 2 ^ 64 -> fresh w -> reached w s ->
  Z.of_nat (size (workers s)) + Z.of_nat (length (completed s)) <= concurrency options
  /\ (forall id wk, workers s !! id = Some wk -> Z.of_nat (length (completed s)) < concurrency options /\ is_Some (m_tasks (progress s) !! id))
  /\ m_terminated s = false
  /\ forall total, m_total_files (progress s) = Some total ->
       0 <= m_processed_files (progress s) <= total /\ wrapu 64 (total - m_processed_files (progress s)) = total - m_processed_files (progress s).
Proof.
  intros Hl Hc Hf Hr. destruct (scan_inv cluster_id root options _ folders eq_refl Hl Hc w s Hf Hr) as (Hw & Ht & Hres).
  pose proof (task_limit _ _ Ht) as Hlim. rewrite (task_active _ _ Ht) in Hlim. split; [done|]. split; [|split; [apply Ht|]].
  - intros id wk Hid. split; [|apply (task_tasks _ _ Ht); left; by rewrite Hid].
    assert (size (workers s) <> 0%nat); [|lia]. intros Hz. apply map_size_empty_inv in Hz. by rewrite Hz in Hid.
  - intros total Htot. pose proof (task_total _ _ Ht total Htot) as Hb. pose proof (task_processed _ _ Ht) as Hp.
    assert (Hle : (length (outcomes s) <= length (started s))%nat) by (rewrite (task_started _ _ Ht), !length_app, !length_fmap; lia).
    assert (Hfin : (length (finishing (pc s)) <= length (outcomes s))%nat).
    { destruct (result_bytes _ _ _ _ _ _ Hres) as (left & Ho & _). rewrite Ho, length_app. lia. }
    split; [lia|]. unfold wrapu. apply Z.mod_small. lia.
Qed.

(** C21: from every point of every scan all ways on end, and the scan can return
    with all workers joined: there is no deadlock between the workers and the
    bounded queue. *)
Theorem scan_always_returns w s :
  Z.of_nat (length (walk root folders)) < 2 ^ 64 -> 1 <= concurrency options < 2 ^ 64 -> fresh w -> reached w s ->
  Acc (flip scan_step) s /\ (exists s', rtc scan_step s s' /\ pc s' = Returned /\ workers s' = ∅)
  /\ (pc s = Returned \/ exists s', scan_step s s').
Proof.
  intros Hl Hc Hf Hr. destruct (weighs_reachable cluster_id root options _ folders eq_refl Hl Hc w s Hf Hr) as [n Hn].
  destruct (scan_ends cluster_id root options _ folders eq_refl Hl Hc w n s Hf Hr Hn) as [Hacc Hend]. split; [done|]. split; [done|].
  destruct (scan_inv cluster_id root options _ folders eq_refl Hl Hc w s Hf Hr) as (Hw & Ht & _).
  apply (scan_moves cluster_id root options _ folders eq_refl Hc); [done..|]. by apply (pc_inv_reachable cluster_id root options _ folders eq_refl Hl Hc w).
Qed.
End properties.

(** What progress and totals say when a job has not thrown. *)
Definition reports (t : ScanTotals) (p : ScanProgress) : Prop :=
  m_tasks p = ∅ /\ m_failed_count p = failed_count t /\ m_processed_files p = file_count t /\ m_processed_bytes p = byte_size t.

Lemma prepared_reports w : prepared w -> reports (fst w) (setPhase "stopped" (snd w)).
Proof.
  destruct w as [t p]. rewrite prepared_spec. intros ((H1 & H2 & H3 & H4) & (((Ha & Hb & Hc) & Hd) & He) & Hf & Hg).
  split; cbn; [done|]. split; [done|]. split; congruence.
Qed.

Section ends.
Context {MetadataInfo : Type} {J : Json}.
Context (cluster_id : Z) (configured_path : path) (options : ScanOptions) (pages turns : nat) (counted scanned : listing FolderEntry).

Lemma effective_concurrency ro : 1 <= concurrency (effective ro options) < 2 ^ 64.
Proof. cbn. lia. Qed.

(** The scan of a prepared state, when it has returned. *)
Lemma scanned_reports root ro w s : Z.of_nat (length (walk root scanned)) < 2 ^ 64 -> prepared w ->
  rtc (@scan_step MetadataInfo cluster_id root (effective ro options) (walk_fuel scanned)) (Scan_make root scanned w) s ->
  pc s = Returned ->
  reports (totals s) (finishScan (stopped s) (progress s))
  /\ (stopped s = false -> file_count (totals s) = Z.of_nat (length (candidates (walk root scanned)))).
Proof.
  intros Hl (Hf & Hz1 & Hz2 & _) Hr Hpc. pose proof (effective_concurrency ro) as Hc. set (o := effective ro options) in *.
  destruct (scan_inv cluster_id root o _ scanned eq_refl Hl Hc w s Hf Hr) as (Hw & Ht & Hres).
  destruct (returned_joined root o _ scanned eq_refl s Ht Hpc) as [Hws Hq]. pose proof (task_started _ _ Ht) as Hst.
  rewrite Hws, Hq, map_to_list_empty in Hst. cbn in Hst.
  pose proof (started_length root _ scanned eq_refl Hl s Hw) as Hlen.
  assert (Hlo : length (started s) = length (outcomes s)) by (by rewrite Hst, length_fmap).
  pose proof Hf as ((Hr1 & Hr2 & Hr3 & Hr4) & (Hs1 & Hs2 & Hs3) & _).
  assert (Hcount : file_count (totals s) = Z.of_nat (length (outcomes s))).
  { rewrite (result_totals _ _ _ _ _ _ Hres). cbn. rewrite Hz1. unfold wrapu. apply Z.mod_small. lia. }
  assert (Hproc : m_processed_files (progress s) = Z.of_nat (length (outcomes s))).
  { pose proof (task_processed _ _ Ht) as Hp. rewrite Hpc in Hp. cbn in Hp. lia. }
  split; [split|].
  - apply map_empty. intros id. apply eq_None_not_Some. intros Hid. apply (task_tasks _ _ Ht) in Hid as [[x Hx]|Hid]; [by rewrite Hws in Hx|].
    rewrite Hq, Hpc in Hid. by apply elem_of_nil in Hid.
  - split; [cbn; rewrite (result_totals _ _ _ _ _ _ Hres); cbn; rewrite <- Hs2; apply Hres|]. split; [cbn; congruence|].
    destruct (result_bytes _ _ _ _ _ _ Hres) as (left & Ho & Hb). rewrite Hpc in Ho. cbn in Ho. rewrite app_nil_r in Ho. subst left.
    cbn. rewrite Hb, (result_totals _ _ _ _ _ _ Hres). cbn. by rewrite <- Hs3.
  - intros Hs. rewrite Hcount, <- Hlo. f_equal. destruct (walk_started _ _ _ _ Hw) as (dropped & Hcand & Hdr).
    rewrite (returned_complete cluster_id root o _ scanned eq_refl Hl Hc w s Hf Hr Hpc Hs) in Hcand. rewrite Hpc in Hcand. cbn in Hcand.
    destruct Hdr as [->|[? _]]; [|congruence]. rewrite Hcand, app_nil_r, length_fmap. done.
Qed.

(** When the job of a cluster scan ends, nothing is left running in its
    progress; it ends with phase [failed] exactly when it throws, and otherwise
    progress and response agree on the files, bytes and failures.  A completed
    scan has processed every candidate its walk found, and says so with a total
    equal to the processed count. *)
Theorem cluster_scan_reports access r p :
  (forall root ro, access = inr (root, ro) -> Z.of_nat (length (walk root scanned)) < 2 ^ 64) ->
  scanCluster (MetadataInfo := MetadataInfo) cluster_id configured_path options pages turns counted scanned ScanProgress_make access r p ->
  let '(response, p') := scanClusterJob cluster_id r p in
  match r with
  | Throw e => response = Throw e /\ m_phase p' = "failed" /\ m_tasks p' = ∅
  | Ok t => response = Ok (scan_response cluster_id t) /\ reports t p'
      /\ (m_phase p' = "stopped" \/ m_phase p' = "completed" /\ exists root ro, access = inr (root, ro)
            /\ m_total_files p' = Some (m_processed_files p') /\ m_processed_files p' = Z.of_nat (length (candidates (walk root scanned))))
  end.
Proof.
  intros Hl H. pose proof (fun t => prepared_told (MetadataInfo := MetadataInfo) _ t prepared_make) as Htold.
  destruct H as [e w|root ro t e Hp|root ro t e Hp w|root ro t Hp w|root ro t w Hp Hc|root ro t w s Hp Hc Hs Hpc Hw]; cbn [scanClusterJob].
  - split; [done|]. split; [|by left]. by apply prepared_reports, prepared_failure, prepared_make.
  - done.
  - split; [done|]. split; [|by left]. by apply prepared_reports, prepared_failure, Htold.
  - split; [done|]. split; [|by left]. by apply prepared_reports, Htold.
  - split; [done|]. split; [|by left]. apply prepared_reports. by apply (prepared_count _ _ _ _ _ _ _ (Htold t) Hc).
  - pose proof (prepared_count _ _ _ _ _ _ _ (Htold t) Hc) as Hprep. apply (prepared_phase "scanning_files") in Hprep.
    destruct (scanned_reports root ro _ s (Hl root ro eq_refl) Hprep Hs Hpc) as [Hrep Hall]. split; [done|]. split; [done|].
    destruct (stopped s) eqn:Hst; [by left|right]. split; [done|]. exists root, ro. split; [done|]. split; [done|].
    destruct Hrep as (_ & _ & Hpr & _). by rewrite Hpr, Hall.
Qed.

(** Given an answer of the database about the cluster and a run of the pass
    over its records, a scan comes to an end. *)
Lemma scanCluster_ends root ro (t : list (@event MetadataInfo)) o :
  Z.of_nat (length (walk root scanned)) < 2 ^ 64 -> (length (walk root counted) < turns)%nat ->
  runs (preflightMissingFiles cluster_id root (effective ro options) pages) t o -> o <> Ok None ->
  exists r p, scanCluster (MetadataInfo := MetadataInfo) cluster_id configured_path options pages turns counted scanned ScanProgress_make (inr (root, ro)) r p.
Proof.
  intros Hl Hn Hp Ho. destruct o as [[[e|[]]|]|e]; [| | |done|].
  - eexists _, _. by eapply preflight_fails.
  - eexists _, _. by eapply preflight_stops.
  - pose proof (countFiles_walk turns root counted (effective ro options) (foldl told (ScanTotals_make, ScanProgress_make) t) Hn) as Hc.
    destruct (count_walk _ _ _ _) as [[] w] eqn:Hcw; [|eexists _, _; by eapply counting_stops].
    pose proof (prepared_count _ _ _ _ _ _ _ (prepared_told _ t prepared_make) Hc) as Hprep. apply (prepared_phase "scanning_files") in Hprep as [Hf _].
    set (o := effective ro options) in *. pose proof (effective_concurrency ro) as Hco. fold o in Hco.
    assert (Hr : @reachable MetadataInfo cluster_id root o (walk_fuel scanned) scanned (fst w, setPhase "scanning_files" (snd w))
      (Scan_make root scanned (fst w, setPhase "scanning_files" (snd w)))) by apply rtc_refl.
    destruct (weighs_reachable cluster_id root o _ scanned eq_refl Hl Hco _ _ Hf Hr) as [n Hwn].
    destruct (scan_ends cluster_id root o _ scanned eq_refl Hl Hco _ n _ Hf Hr Hwn) as [_ (s & Hs & Hpc & Hws)].
    eexists _, _. by eapply scan_finishes.
  - eexists _, _. by eapply preflight_throws.
Qed.
End ends.

(** ** Witnesses

    A directory with two files, one of them with no hash for a name, and a
    folder that cannot be read. *)
Module Example_cluster.
Definition files : listing FileEntry :=
  Entry (mkFileEntry (hex Example_scan.hash +:+ ".jpg") (inr Regular) (inr 1000)) (Entry (mkFileEntry "notes.txt" (inr Regular) (inr 10)) Ended).
Definition folders : listing FolderEntry :=
  Entry (mkFolder "fab" (inr Directory) files) (Entry (mkFolder "f00" (inl "Permission denied") Ended) Ended).

Definition root : path := ["/data"].
Definition options : ScanOptions := mkOptions false true false MissingOnly MissingOnly false false true 2.

Section drive.
Context (o : ScanOptions) (fs : listing FolderEntry).
Notation scan_step := (@scan_step unit 3 root o (walk_fuel fs)).

(** A schedule: the coordinator when it can move, else the first worker. *)
Definition next_state (s : Scan) : Scan :=
  match coordinator_step 3 root o (walk_fuel fs) None s with
  | Some s' => s'
  | None =>
      match map_to_list (workers s) with
      | (id, w) :: _ =>
          match worker_step o id s with
          | Some s' => s'
          | None =>
              match w_state w with
              | Scanning (Ask r k) => set_workers (<[id := mkWorker (w_candidate w) (Scanning (k (Example_scan.oracle _ r)))]> (workers s)) s
              | _ => s
              end
          end
      | [] => s
      end
  end.

Fixpoint drive (n : nat) (s : Scan) : Scan := match n with O => s | S n => drive n (next_state s) end.

Lemma next_state_reached s : rtc scan_step s (next_state s).
Proof.
  unfold next_state. destruct (coordinator_step _ _ _ _ None s) as [s'|] eqn:Hc; [by apply rtc_once, (coordinator_moves _ _ _ _ None)|].
  destruct (map_to_list (workers s)) as [|[id w] l] eqn:Hl; [apply rtc_refl|].
  assert (Hw : workers s !! id = Some w) by (apply elem_of_map_to_list; rewrite Hl; by left).
  destruct (worker_step o id s) as [s'|] eqn:Hs; [by apply rtc_once, (worker_moves _ _ _ _ id)|].
  destruct w as [c [[r|X r k]|r|r|r]]; try apply rtc_refl. apply rtc_once, (worker_answered _ _ _ _ id c X r k (Example_scan.oracle X r)); [done|].
  unfold worker_step in Hs. rewrite Hw in Hs. by destruct r.
Qed.

Lemma drive_reached n s : rtc scan_step s (drive n s).
Proof. revert s. induction n as [|n IH]; intros s; [apply rtc_refl|]. etrans; [apply next_state_reached|apply IH]. Qed.
End drive.

Definition begin : ScanTotals * ScanProgress := (ScanTotals_make, ScanProgress_make).
Definition final : @Scan unit := drive options folders 100 (Scan_make root folders begin).

Example final_totals : totals final = mkTotals 2 1010 2 (failures (totals final)) /\ f_message <$> failures (totals final) =
  ["Invalid hash in filename: /data/fab/notes.txt"; "Permission denied"].
Proof. vm_compute. split; reflexivity. Qed.

Lemma begin_fresh : fresh begin.
Proof. apply prepared_make. Qed.
End Example_cluster.

Lemma scan_accounts_for_every_file_witness :
  totals Example_cluster.final = totals_after ScanTotals_make (outcomes Example_cluster.final) (reported Example_cluster.final)
  /\ length (outcomes Example_cluster.final) = 2%nat /\ stopped Example_cluster.final = false.
Proof.
  destruct (scan_accounts_for_every_file (MetadataInfo := unit) 3 Example_cluster.root Example_cluster.options Example_cluster.folders
    Example_cluster.begin Example_cluster.final) as (_ & _ & _ & _ & H & _).
  - vm_compute. reflexivity.
  - split; [|reflexivity]. intros H. discriminate H.
  - apply Example_cluster.begin_fresh.
  - apply (Example_cluster.drive_reached Example_cluster.options Example_cluster.folders 100).
  - vm_compute. reflexivity.
  - split; [exact H|]. vm_compute. split; reflexivity.
Defined.

Lemma scan_keeps_its_limits_witness : m_terminated (Example_cluster.drive Example_cluster.options Example_cluster.folders 20 (Scan_make Example_cluster.root Example_cluster.folders Example_cluster.begin)) = false.
Proof.
  refine (proj1 (proj2 (proj2 (scan_keeps_its_limits (MetadataInfo := unit) 3 Example_cluster.root Example_cluster.options Example_cluster.folders
    Example_cluster.begin (Example_cluster.drive Example_cluster.options Example_cluster.folders 20 (Scan_make Example_cluster.root Example_cluster.folders Example_cluster.begin)) _ _ _ _)))).
  - vm_compute. reflexivity.
  - split; [|reflexivity]. intros H. discriminate H.
  - apply Example_cluster.begin_fresh.
  - apply (Example_cluster.drive_reached Example_cluster.options Example_cluster.folders 20).
Defined.

Lemma scan_always_returns_witness :
  exists s', rtc (@scan_step unit 3 Example_cluster.root Example_cluster.options (walk_fuel Example_cluster.folders))
    (Scan_make Example_cluster.root Example_cluster.folders Example_cluster.begin) s' /\ pc s' = Returned /\ workers s' = ∅.
Proof.
  refine (proj1 (proj2 (scan_always_returns (MetadataInfo := unit) 3 Example_cluster.root Example_cluster.options Example_cluster.folders
    Example_cluster.begin (Scan_make Example_cluster.root Example_cluster.folders Example_cluster.begin) _ _ _ _))).
  - vm_compute. reflexivity.
  - split; [|reflexivity]. intros H. discriminate H.
  - apply Example_cluster.begin_fresh.
  - apply rtc_refl.
Defined.

Module Example_job.
Definition opts : ScanOptions := effective false Example_cluster.options.
Definition counted : ScanTotals * ScanProgress :=
  match countFiles 5 Example_cluster.root Example_cluster.folders opts Example_cluster.begin with Some (_, w) => w | None => Example_cluster.begin end.
Definition final : @Scan unit :=
  Example_cluster.drive opts Example_cluster.folders 100
    (Scan_make Example_cluster.root Example_cluster.folders (fst counted, setPhase "scanning_files" (snd counted))).

Lemma ends : scanCluster (MetadataInfo := unit) 3 ["/data"] Example_cluster.options 1 5 Example_cluster.folders Example_cluster.folders ScanProgress_make
  (inr (Example_cluster.root, false)) (Ok (totals final)) (finishScan (stopped final) (progress final)).
Proof.
  apply (scan_finishes _ _ _ _ _ _ _ _ Example_cluster.root false [] counted final).
  - exact (runs_return _).
  - vm_compute. reflexivity.
  - apply Example_cluster.drive_reached.
  - vm_compute. reflexivity.
  - vm_compute. reflexivity.
Qed.
End Example_job.

Lemma cluster_scan_reports_witness :
  reports (totals Example_job.final) (finishScan (stopped Example_job.final) (progress Example_job.final))
  /\ m_total_files (finishScan (stopped Example_job.final) (progress Example_job.final)) = Some 2.
Proof.
  split; [|vm_compute; reflexivity].
  refine (proj1 (proj2 (cluster_scan_reports (MetadataInfo := unit) (J := Example_json.document) 3 ["/data"] Example_cluster.options 1 5
    Example_cluster.folders Example_cluster.folders (inr (Example_cluster.root, false)) (Ok (totals Example_job.final)) _ _ Example_job.ends))).
  intros root ro [= <- <-]. vm_compute. reflexivity.
Defined.
