(* ===== verification/Mime.v ===== *)
(** * MIME detection

    [IDHANServer/src/mime]: the reader over memory or a file ([MimeReader.cpp]),
    the signatures and the scan for them ([signatures.cpp], [prescan.cpp]), and
    the parsers that tell variants of one type apart ([refineMime.cpp],
    [identifyMime.cpp]), with the table of [IDHAN/include/MimeIDs.hpp].

    Reading a file is asking the kernel, a parameter; offsets and lengths are
    natural numbers, since every sum the code forms is below the size of a file
    plus a few kilobytes. *)
From S2P Require Import Prelude Bytes StringView.

(** ** The reader *)

Definition min_read_size : nat := (32 * 1024)%nat.

Inductive Source := File (size : nat) | Memory (data : list Z).

Record MimeReader := mkReader { m_source : Source; m_window : list Z; m_window_offset : nat }.

Definition MimeReader_make (s : Source) : MimeReader := mkReader s [] 0.

Definition reader_size (r : MimeReader) : nat := match m_source r with Memory data => length data | File size => size end.

(** [string_view::find]. *)
Fixpoint find_sub (pattern l : list Z) : option nat :=
  if decide (take (length pattern) l = pattern) then Some 0%nat
  else match l with [] => None | _ :: l => S <$> find_sub pattern l end.

Section reader.
(** What the kernel reads from the descriptor at an offset; it may be less than
    was asked for. *)
Context (uring : nat -> nat -> result (list Z)).

(** [FileIOUring::read]. *)
Definition file_read (size offset len : nat) : result (list Z) :=
  if (size <? offset)%nat then Ok []
  else uring offset (if (size <? offset + len)%nat then (size - offset)%nat else len).

Definition at_ (r : MimeReader) (offset len : nat) : result (list Z * MimeReader) :=
  let total := reader_size r in
  if (total <=? offset)%nat then Ok ([], r)
  else
    let wanted := Nat.min len (total - offset) in
    match m_source r with
    | Memory data => Ok (take wanted (drop offset data), r)
    | File size =>
        let covered := (m_window_offset r <=? offset)%nat && (offset + wanted <=? m_window_offset r + length (m_window r))%nat in
        r ← (if covered then Ok r
             else window ← file_read size offset (Nat.max wanted min_read_size); Ok (mkReader (m_source r) window offset));
        let start := (offset - m_window_offset r)%nat in
        let available := Nat.min wanted (length (m_window r) - start) in
        Ok (take available (drop start (m_window r)), r)
    end.

Definition matchAt (r : MimeReader) (offset : nat) (pattern : list Z) : result (bool * MimeReader) :=
  match pattern with
  | [] => Ok (false, r)
  | _ =>
      '(data, r) ← at_ r offset (length pattern);
      Ok (if (length data <? length pattern)%nat then false else bool_decide (take (length pattern) data = pattern), r)
  end.

(** The loop of [find] from [pos]; a turn advances, so [last - pos] turns are
    enough.  A pattern longer than a read breaks the contract of [clamp]. *)
Fixpoint find_loop (fuel : nat) (r : MimeReader) (pattern : list Z) (last pos : nat) : result (option nat * MimeReader) :=
  match fuel with
  | O => Ok (None, r)
  | S fuel =>
      if (last <=? pos)%nat then Ok (None, r)
      else if (min_read_size <? length pattern)%nat then Throw (undefined_behaviour "clamp with its bounds crossed")
      else
        let span_len := (last - pos + length pattern - 1)%nat in
        '(chunk, r) ← at_ r pos (Nat.max (length pattern) (Nat.min span_len min_read_size));
        if (length chunk <? length pattern)%nat then Ok (None, r)
        else match find_sub pattern (take (Nat.min (length chunk) span_len) chunk) with
          | Some found => Ok (Some (pos + found)%nat, r)
          | None => find_loop fuel r pattern last (pos + (length chunk - (length pattern - 1)))
          end
  end.

Definition find (r : MimeReader) (pattern : list Z) (from limit : nat) : result (option nat * MimeReader) :=
  match pattern with
  | [] => Ok (None, r)
  | _ =>
      if (limit =? 0)%nat then Ok (None, r)
      else if (reader_size r <=? from)%nat then Ok (None, r)
      else
        let last := Nat.min (from + limit) (reader_size r) in
        find_loop (last - from) r pattern last from
  end.
End reader.

(** ** Identifiers *)

Definition INVALID : Z := 0.
Definition UNKNOWN : Z := 1.
Definition IMAGE_BLOCK : Z := 1000.
Definition IMAGE_JPEG : Z := 1000.
Definition IMAGE_PNG : Z := 1001.
Definition IMAGE_WEBP : Z := 1002.
Definition IMAGE_AVIF : Z := 1003.
Definition IMAGE_TIFF : Z := 1004.
Definition VIDEO_MP4 : Z := 2000.
Definition VIDEO_MPEG : Z := 2001.
Definition VIDEO_WEBM : Z := 2002.
Definition VIDEO_QUICKTIME : Z := 2003.
Definition ANIMATION_GIF : Z := 3000.
Definition ANIMATION_APNG : Z := 3001.
Definition APPLICATION_ZIP : Z := 5000.
Definition COMICBOOK_ZIP : Z := 5001.
Definition PIXIV_UGOIRA : Z := 5002.
Definition APPLICATION_PSD : Z := 6000.
Definition APPLICATION_CLIP : Z := 6001.
Definition FIRST_UNRESERVED : Z := 10000.

(** [SimpleMimeType], by its number. *)
Definition simpleType (mime_id : Z) : Z :=
  if (mime_id <? IMAGE_BLOCK) || (FIRST_UNRESERVED <=? mime_id) then 0 else mime_id / 1000.

Definition ALL_MIME_IDS : list Z :=
  [UNKNOWN; IMAGE_JPEG; IMAGE_PNG; IMAGE_WEBP; IMAGE_AVIF; IMAGE_TIFF; VIDEO_MP4; VIDEO_MPEG; VIDEO_WEBM; VIDEO_QUICKTIME;
   ANIMATION_GIF; ANIMATION_APNG; APPLICATION_ZIP; COMICBOOK_ZIP; PIXIV_UGOIRA; APPLICATION_PSD; APPLICATION_CLIP].

Definition mime_names : list (Z * string) :=
  [(UNKNOWN, "unknown/unknown"); (IMAGE_JPEG, "image/jpeg"); (IMAGE_PNG, "image/png"); (IMAGE_WEBP, "image/webp");
   (IMAGE_AVIF, "image/avif"); (IMAGE_TIFF, "image/tiff"); (VIDEO_MP4, "video/mp4"); (VIDEO_MPEG, "video/mpeg");
   (VIDEO_WEBM, "video/webm"); (VIDEO_QUICKTIME, "video/quicktime"); (ANIMATION_GIF, "image/gif"); (ANIMATION_APNG, "image/apng");
   (APPLICATION_ZIP, "application/zip"); (COMICBOOK_ZIP, "application/zip"); (PIXIV_UGOIRA, "application/zip");
   (APPLICATION_PSD, "application/psd"); (APPLICATION_CLIP, "application/x-clip-studio")].

Definition mime_extensions : list (Z * string) :=
  [(UNKNOWN, ""); (IMAGE_JPEG, "jpg"); (IMAGE_PNG, "png"); (IMAGE_WEBP, "webp"); (IMAGE_AVIF, "avif"); (IMAGE_TIFF, "tiff");
   (VIDEO_MP4, "mp4"); (VIDEO_MPEG, "mpeg"); (VIDEO_WEBM, "webm"); (VIDEO_QUICKTIME, "mov"); (ANIMATION_GIF, "gif");
   (ANIMATION_APNG, "png"); (APPLICATION_ZIP, "zip"); (COMICBOOK_ZIP, "cbz"); (PIXIV_UGOIRA, "zip"); (APPLICATION_PSD, "psd");
   (APPLICATION_CLIP, "clip")].

Definition map_find {A} (m : list (Z * A)) (id : Z) : option A := snd <$> list_find (fun x => fst x = id) m ≫= fun x => Some (snd x).

(** [at] throws when there is no such id. *)
Definition canonicalIDForName (name : string) : result Z :=
  foldM (fun canonical id =>
    n ← or_throw (out_of_range "unordered_map::at") (map_find mime_names id);
    Ok (if negb (String.eqb n name) then canonical
        else if (canonical =? INVALID) || (id <? canonical) then id else canonical)) INVALID ALL_MIME_IDS.

(** ** Signatures *)

Definition SCAN : Z := -1.

Record Rule := mkRule { offset : Z; limit : nat; patterns : list (list Z) }.
Record Signature := mkSignature { mime_id : Z; rules : list Rule }.

Definition at_offset (o : Z) (p : list (list Z)) : Rule := mkRule o 0 p.
Definition scan_within (l : nat) (p : list (list Z)) : Rule := mkRule SCAN l p.

Definition sv (s : string) : list Z := string_bytes s.

Definition png_magic : list Z := [137; 80; 78; 71; 13; 10; 26; 10].
Definition apng_rules : list Rule := [at_offset 0 [png_magic]; scan_within 512 [sv "acTL"]; scan_within 512 [sv "IDATx"]].
Definition png_rules : list Rule := [at_offset 0 [png_magic]].
Definition mov_rules : list Rule := [at_offset 4 [sv "ftyp"]; at_offset 8 [sv "qt  "]].
Definition mp4_brands : list (list Z) := [sv "isom"; sv "mp41"; sv "mp42"; sv "mp43"; sv "mp4a"; sv "MSNV"].
Definition mp4_rules : list Rule := [at_offset 4 [sv "ftyp"]; at_offset 8 mp4_brands].
Definition jpeg_rules : list Rule := [at_offset 0 [[255; 216; 255]]].
Definition gif_rules : list Rule := [at_offset 0 [sv "GIF87a"; sv "GIF89a"]].
Definition webp_rules : list Rule := [at_offset 0 [sv "RIFF"]; at_offset 8 [sv "WEBP"]].
Definition webm_rules : list Rule := [scan_within 2048 [sv "webm"]].
Definition zip_rules : list Rule := [at_offset 0 [[80; 75; 3; 4]]].
Definition psd_rules : list Rule := [at_offset 0 [sv "8BPS"]].
Definition clip_rules : list Rule := [at_offset 0 [sv "CSFCHUNK"]; scan_within 256 [24 :: sv "CHNKHead"]].
Definition tiff_rules : list Rule := [at_offset 0 [[73; 73; 42; 0]]].

Definition signatures : list Signature :=
  [mkSignature ANIMATION_APNG apng_rules; mkSignature IMAGE_PNG png_rules; mkSignature VIDEO_QUICKTIME mov_rules;
   mkSignature VIDEO_MP4 mp4_rules; mkSignature IMAGE_JPEG jpeg_rules; mkSignature ANIMATION_GIF gif_rules;
   mkSignature IMAGE_WEBP webp_rules; mkSignature VIDEO_WEBM webm_rules; mkSignature APPLICATION_ZIP zip_rules;
   mkSignature APPLICATION_PSD psd_rules; mkSignature APPLICATION_CLIP clip_rules; mkSignature IMAGE_TIFF tiff_rules].

Section prescan.
Context (uring : nat -> nat -> result (list Z)).

(** The patterns of a rule in order; the cursor behind the one that matched. *)
Fixpoint test_at (r : MimeReader) (o : nat) (ps : list (list Z)) : result (option nat * MimeReader) :=
  match ps with
  | [] => Ok (None, r)
  | p :: ps =>
      '(b, r) ← matchAt uring r o p;
      if b : bool then Ok (Some (o + length p)%nat, r) else test_at r o ps
  end.

Fixpoint test_scan (r : MimeReader) (cursor lim : nat) (ps : list (list Z)) : result (option nat * MimeReader) :=
  match ps with
  | [] => Ok (None, r)
  | p :: ps =>
      '(found, r) ← find uring r p cursor lim;
      match found with Some found => Ok (Some (found + length p)%nat, r) | None => test_scan r cursor lim ps end
  end.

Definition testRule (rule : Rule) (r : MimeReader) (cursor : nat) : result (option nat * MimeReader) :=
  if negb (offset rule =? SCAN) then test_at r (Z.to_nat (offset rule)) (patterns rule)
  else test_scan r cursor (limit rule) (patterns rule).

Fixpoint test_rules (rs : list Rule) (r : MimeReader) (cursor : nat) : result (bool * MimeReader) :=
  match rs with
  | [] => Ok (true, r)
  | rule :: rs =>
      '(cursor, r) ← testRule rule r cursor;
      match cursor with Some cursor => test_rules rs r cursor | None => Ok (false, r) end
  end.

Definition testSignature (s : Signature) (r : MimeReader) : result (bool * MimeReader) := test_rules (rules s) r 0.

Fixpoint prescan_loop (ss : list Signature) (r : MimeReader) : result Z :=
  match ss with
  | [] => Ok UNKNOWN
  | s :: ss =>
      '(b, r) ← testSignature s r;
      if b : bool then Ok (mime_id s) else prescan_loop ss r
  end.

Definition prescanMime (r : MimeReader) : result Z := prescan_loop signatures r.
End prescan.

(** ** Specialisation *)

Definition specializes (specialized base_id : Z) : bool :=
  match map_find mime_names specialized, map_find mime_names base_id with
  | Some specialized_name, Some base_name => String.eqb specialized_name base_name
  | _, _ => false
  end.

Section identify.
(** The parsers registered for a type; what one answers about an input and the
    name of its file, or its error. *)
Context {Input : Type} (getMimeParserFor : Z -> list (Input -> string -> string + Z)).

Fixpoint specialize_loop (parsers : list (Input -> string -> string + Z)) (base_id : Z) (input : Input) (filename : string) : Z :=
  match parsers with
  | [] => base_id
  | parser :: parsers =>
      match parser input filename with
      | inl _ => specialize_loop parsers base_id input filename
      | inr specialized =>
          if specialized =? base_id then specialize_loop parsers base_id input filename
          else if negb (specializes specialized base_id) then specialize_loop parsers base_id input filename
          else specialized
      end
  end.

Definition specializeMimeID (base_id : Z) (input : option Input) (filename : string) : Z :=
  match input with
  | None => base_id
  | Some input => specialize_loop (getMimeParserFor base_id) base_id input filename
  end.

(** [open] stages the input. *)
Definition specializeMimeIDForPath (base_id : Z) (open : string + Input) (filename : string) : Z :=
  match getMimeParserFor base_id with
  | [] => base_id
  | _ => match open with inl _ => base_id | inr input => specializeMimeID base_id (Some input) filename end
  end.

Definition identifyMime (bytes : list Z) (stage : string + option Input) (filename : string) : result Z :=
  mime_id ← prescanMime (fun _ _ => Throw (logic_error "not a file")) (MimeReader_make (Memory bytes));
  Ok (if mime_id =? UNKNOWN then mime_id
      else match stage with inr input => specializeMimeID mime_id input filename | inl _ => mime_id end).

(** A descriptor is duplicated for each reader; [None] when that fails. *)
Definition identifyMimeForFd (reader_fd : option (nat -> nat -> result (list Z))) (size : nat) (input_fd : option (string + Input))
    (filename : string) : result Z :=
  match reader_fd with
  | None => Ok UNKNOWN
  | Some uring =>
      mime_id ← prescanMime uring (MimeReader_make (File size));
      Ok (if mime_id =? UNKNOWN then mime_id
          else match input_fd with
            | None | Some (inl _) => mime_id
            | Some (inr input) => specializeMimeID mime_id (Some input) filename
            end)
  end.

(** [file] is the size and the descriptor, or the exception of opening it. *)
Definition identifyMimeForPath (file : result (nat * (nat -> nat -> result (list Z)))) (open : string + Input) (filename : string) : result Z :=
  '(size, uring) ← file;
  mime_id ← prescanMime uring (MimeReader_make (File size));
  Ok (specializeMimeIDForPath mime_id open filename).
End identify.

(** ** The reference: searching the contents *)

Definition matches_at (pattern l : list Z) (p : nat) : Prop := take (length pattern) (drop p l) = pattern.
#[export] Instance matches_at_dec pattern l p : Decision (matches_at pattern l p).
Proof. unfold matches_at. solve_decision. Defined.

(** The first of [n] positions from [from] where the pattern stands. *)
Fixpoint first_match (pattern l : list Z) (from n : nat) : option nat :=
  match n with
  | O => None
  | S n => if decide (matches_at pattern l from) then Some from else first_match pattern l (S from) n
  end.

Lemma first_match_add pattern l from a b :
  first_match pattern l from (a + b) = match first_match pattern l from a with Some p => Some p | None => first_match pattern l (from + a) b end.
Proof.
  revert from. induction a as [|a IH]; intros from; cbn; [by rewrite Nat.add_0_r|]. case_decide; [done|].
  by rewrite IH, Nat.add_succ_comm.
Qed.

Lemma first_match_none pattern l from n : (forall p, (from <= p < from + n)%nat -> ~ matches_at pattern l p) -> first_match pattern l from n = None.
Proof.
  revert from. induction n as [|n IH]; intros from H; [done|]. cbn. rewrite decide_False by (apply H; lia). apply IH. intros p Hp. apply H. lia.
Qed.

Lemma first_match_shift pattern l k pos from n : (forall p, (from <= p < from + n)%nat -> (p + length pattern <= k)%nat) ->
  first_match pattern (take k (drop pos l)) from n = (fun p => (p - pos)%nat) <$> first_match pattern l (pos + from) n.
Proof.
  revert from. induction n as [|n IH]; intros from H; [done|]. cbn [first_match].
  assert (Hiff : matches_at pattern (take k (drop pos l)) from <-> matches_at pattern l (pos + from)).
  { unfold matches_at. specialize (H from ltac:(lia)).
    by rewrite take_drop_commute, take_take, Nat.min_l, <- take_drop_commute, drop_drop by lia. }
  destruct (decide (matches_at pattern l (pos + from))) as [Hm|Hm].
  - rewrite decide_True by by apply Hiff. cbn. f_equal. lia.
  - rewrite decide_False by (by rewrite Hiff). rewrite IH by (intros p Hp; apply H; lia). by rewrite Nat.add_succ_r.
Qed.

(** A pattern stands only where there is room for it. *)
Lemma matches_at_room pattern l p : pattern <> [] -> matches_at pattern l p -> (p + length pattern <= length l)%nat.
Proof.
  intros Hp H. assert (length pattern <> 0%nat) by by destruct pattern. apply (f_equal length) in H. rewrite length_take, length_drop in H. lia.
Qed.

Lemma find_sub_first pattern l : pattern <> [] -> find_sub pattern l = first_match pattern l 0 (length l - (length pattern - 1)).
Proof.
  intros Hp. assert (Hn : length pattern <> 0%nat) by by destruct pattern. induction l as [|x l IH]; cbn [find_sub].
  - rewrite decide_False; [done|]. destruct pattern; done.
  - destruct (decide (take (length pattern) (x :: l) = pattern)) as [Hm|Hm].
    + assert (Hr : (length pattern <= length (x :: l))%nat) by (apply (matches_at_room pattern (x :: l) 0 Hp) in Hm; lia).
      destruct (length (x :: l) - (length pattern - 1))%nat eqn:E; [cbn [length] in *; lia|]. cbn. by rewrite decide_True.
    + rewrite IH. destruct (decide (length (x :: l) - (length pattern - 1) = 0)%nat) as [Hz|Hz].
      { rewrite Hz. replace (length l - (length pattern - 1))%nat with 0%nat by (cbn [length] in Hz; lia). done. }
      replace (length (x :: l) - (length pattern - 1))%nat with (S (length l - (length pattern - 1)))%nat by (cbn [length] in *; lia).
      cbn [first_match]. rewrite decide_False by done.
      generalize (length l - (length pattern - 1))%nat. intros n.
      assert (Hgen : forall from, S <$> first_match pattern l from n = first_match pattern (x :: l) (S from) n).
      { induction n as [|n IHn]; intros from; [done|]. cbn [first_match]. destruct (decide (matches_at pattern l from)) as [H|H].
        - by rewrite decide_True.
        - rewrite decide_False by done. apply IHn. }
      apply Hgen.
Qed.

(** ** The reader searches the contents *)
Section reader_proofs.
(** A kernel that reads what the file holds. *)
Context (uring : nat -> nat -> result (list Z)) (file : list Z).

Definition reads_file (s : Source) : Prop := match s with Memory _ => True | File _ => forall o l, uring o l = Ok (take l (drop o file)) end.

(** What a reader is about: a file up to the length it was opened with. *)
Definition content (s : Source) : list Z := match s with Memory data => data | File size => take size file end.

(** The window is a piece of it. *)
Definition window_ok (r : MimeReader) : Prop :=
  m_window r = take (length (m_window r)) (drop (m_window_offset r) (content (m_source r))).

Lemma file_read_content size o l : (forall o l, uring o l = Ok (take l (drop o file))) ->
  file_read uring size o l = Ok (take l (drop o (take size file))).
Proof.
  intros H. unfold file_read. destruct (Nat.ltb_spec size o).
  - f_equal. symmetry. apply nil_length_inv. rewrite length_take, length_drop, length_take. lia.
  - rewrite H. f_equal. rewrite skipn_firstn_comm, take_take. f_equal. destruct (Nat.ltb_spec size (o + l)); lia.
Qed.

(** Bytes taken past the end are those up to it. *)
Lemma take_to_end (l : list Z) n m : (length l <= m)%nat -> take (Nat.min n m) l = take n l.
Proof. intros H. destruct (decide (n <= m)%nat); [by rewrite Nat.min_l by lia|]. by rewrite !take_ge by lia. Qed.

Lemma at_content r o l : reads_file (m_source r) -> window_ok r ->
  exists r', at_ uring r o l = Ok (take l (drop o (content (m_source r))), r') /\ window_ok r' /\ m_source r' = m_source r.
Proof.
  intros Hr Hw. unfold at_. assert (Hlen : (length (drop o (content (m_source r))) <= reader_size r - o)%nat).
  { rewrite length_drop. unfold reader_size. destruct (m_source r); cbn; [rewrite length_take|]; lia. }
  destruct (Nat.leb_spec (reader_size r) o) as [Ho|Ho].
  { exists r. split; [|done]. do 2 f_equal. symmetry. apply nil_length_inv. rewrite length_take. lia. }
  destruct (m_source r) as [size|data] eqn:Hs.
  2:{ exists r. split; [|done]. do 2 f_equal. by apply take_to_end. }
  unfold window_ok in Hw. rewrite Hs in Hw. destruct ((m_window_offset r <=? o)%nat && _) eqn:Hc.
  - apply andb_prop in Hc as [Hc1 Hc2]. apply Nat.leb_le in Hc1, Hc2. exists r. cbn [mbind result_bind]. split; [|split; [|done]].
    + do 2 f_equal. rewrite Hw at 2. rewrite (skipn_firstn_comm (o - m_window_offset r) (length (m_window r))), drop_drop, take_take.
      replace (m_window_offset r + (o - m_window_offset r))%nat with o by lia. rewrite <- (take_to_end _ l (reader_size r - o)) by done. f_equal. lia.
    + unfold window_ok. by rewrite Hs.
  - rewrite (file_read_content size o _ Hr). cbn [mbind result_bind m_window m_window_offset m_source].
    exists (mkReader (File size) (take (Nat.max (Nat.min l (reader_size r - o)) min_read_size) (drop o (take size file))) o). split; [|split; [|done]].
    + do 2 f_equal. rewrite Nat.sub_diag, Nat.sub_0_r, drop_0. cbn [content]. rewrite take_take, length_take.
      rewrite <- (take_to_end _ l (reader_size r - o)) by done. cbn [content] in Hlen.
      set (D := drop o (take size file)) in *. destruct (decide (Nat.min l (reader_size r - o) <= length D)%nat); [f_equal; lia|].
      rewrite !take_ge by lia. done.
    + unfold window_ok. cbn [m_window m_window_offset m_source content]. rewrite length_take. symmetry. by apply take_to_end.
Qed.

(** *** Patterns *)

Lemma matchAt_content r o pattern : reads_file (m_source r) -> window_ok r ->
  exists r', matchAt uring r o pattern = Ok (bool_decide (pattern <> [] /\ matches_at pattern (content (m_source r)) o), r')
    /\ window_ok r' /\ m_source r' = m_source r.
Proof.
  intros Hr Hw. unfold matchAt. destruct pattern as [|x pattern].
  { exists r. by rewrite bool_decide_eq_false_2 by tauto. }
  set (p := x :: pattern). destruct (at_content r o (length p) Hr Hw) as (r' & -> & Hw' & Hs). exists r'. split; [|done].
  cbn [mbind result_bind]. do 2 f_equal. rewrite take_take, Nat.min_id. set (c := content (m_source r)).
  destruct (Nat.ltb_spec (length (take (length p) (drop o c))) (length p)) as [Hl|Hl].
  - symmetry. apply bool_decide_eq_false_2. intros [_ Hm]. unfold matches_at in Hm. rewrite Hm in Hl. lia.
  - apply bool_decide_ext. unfold matches_at. split; [by split|by intros [_ ?]].
Qed.

Lemma find_loop_content pattern last n r pos : pattern <> [] -> (length pattern <= min_read_size)%nat -> reads_file (m_source r) -> window_ok r ->
  (pos <= last)%nat -> (last - pos <= n)%nat ->
  exists r', find_loop uring n r pattern last pos = Ok (first_match pattern (content (m_source r)) pos (last - pos), r')
    /\ window_ok r' /\ m_source r' = m_source r.
Proof.
  intros Hp Hmax Hr Hw Hle Hn. assert (Hlen : length pattern <> 0%nat) by by destruct pattern.
  revert r pos Hr Hw Hle Hn. induction n as [|n IH]; intros r pos Hr Hw Hle Hn.
  { exists r. by replace (last - pos)%nat with 0%nat by lia. }
  cbn [find_loop]. destruct (Nat.leb_spec last pos) as [Hend|Hend].
  { exists r. by replace (last - pos)%nat with 0%nat by lia. }
  destruct (Nat.ltb_spec min_read_size (length pattern)); [lia|].
  set (k := Nat.max (length pattern) (Nat.min (last - pos + length pattern - 1) min_read_size)).
  destruct (at_content r pos k Hr Hw) as (r' & -> & Hw' & Hs). cbn [mbind result_bind].
  set (c := content (m_source r)) in *. set (chunk := take k (drop pos c)) in *.
  assert (Hchunk : (length chunk <= k)%nat) by (subst chunk; rewrite length_take; lia).
  assert (Hfull : (length chunk < k)%nat -> length chunk = (length c - pos)%nat) by (subst chunk; rewrite length_take, length_drop; lia).
  destruct (Nat.ltb_spec (length chunk) (length pattern)) as [Hshort|Hshort].
  { exists r'. split; [|done]. rewrite first_match_none; [done|]. intros p Hpos Hm. apply (matches_at_room _ _ _ Hp) in Hm. lia. }
  rewrite take_ge by lia. rewrite (find_sub_first pattern chunk Hp). set (m := (length chunk - (length pattern - 1))%nat).
  assert (Hshift : first_match pattern chunk 0 m = (fun p => (p - pos)%nat) <$> first_match pattern c pos m).
  { pose proof (first_match_shift pattern c k pos 0 m ltac:(lia)) as Hx. by rewrite Nat.add_0_r in Hx. }
  assert (Hsplit : first_match pattern c pos (last - pos) =
    match first_match pattern c pos m with Some p => Some p | None => first_match pattern c (pos + m) (last - pos - m) end).
  { rewrite <- first_match_add. f_equal. lia. }
  rewrite Hshift, Hsplit. destruct (first_match pattern c pos m) as [p|] eqn:Hm; cbn [fmap option_fmap option_map].
  - exists r'. split; [|done]. do 3 f_equal. assert (Hge : forall a b q, first_match pattern c a b = Some q -> (a <= q)%nat).
    { intros a b. revert a. induction b as [|b IHb]; intros a q; [done|]. cbn. case_decide; [by intros [= <-]|]. intros Hq. apply IHb in Hq. lia. }
    apply Hge in Hm. lia.
  - destruct (IH r' (pos + m)%nat) as (r'' & -> & Hw'' & Hs''); [by rewrite Hs|done|lia|lia|].
    exists r''. rewrite Hs'', Hs. split; [|done]. do 3 f_equal. lia.
Qed.

Lemma find_content r pattern from limit : (length pattern <= min_read_size)%nat -> reads_file (m_source r) -> window_ok r ->
  exists r', find uring r pattern from limit =
      Ok (if decide (pattern = []) then None
          else first_match pattern (content (m_source r)) from (Nat.min (from + limit) (reader_size r) - from), r')
    /\ window_ok r' /\ m_source r' = m_source r.
Proof.
  intros Hmax Hr Hw. unfold find. destruct pattern as [|x pattern]; [by exists r|]. rewrite decide_False by done.
  destruct (Nat.eqb_spec limit 0) as [->|Hl]; [exists r; by replace (Nat.min (from + 0) (reader_size r) - from)%nat with 0%nat by lia|].
  destruct (Nat.leb_spec (reader_size r) from) as [Hle|Hle]; [exists r; by replace (Nat.min (from + limit) (reader_size r) - from)%nat with 0%nat by lia|].
  apply find_loop_content; [done|done|done|done|lia|lia].
Qed.
End reader_proofs.

(** ** Signatures on contents *)

Fixpoint at_end (c : list Z) (o : nat) (ps : list (list Z)) : option nat :=
  match ps with
  | [] => None
  | p :: ps => if decide (p <> [] /\ matches_at p c o) then Some (o + length p)%nat else at_end c o ps
  end.

Fixpoint scan_end (c : list Z) (total cursor lim : nat) (ps : list (list Z)) : option nat :=
  match ps with
  | [] => None
  | p :: ps =>
      match (if decide (p = []) then None else first_match p c cursor (Nat.min (cursor + lim) total - cursor)) with
      | Some found => Some (found + length p)%nat
      | None => scan_end c total cursor lim ps
      end
  end.

Definition rule_end (c : list Z) (total : nat) (rule : Rule) (cursor : nat) : option nat :=
  if negb (offset rule =? SCAN) then at_end c (Z.to_nat (offset rule)) (patterns rule)
  else scan_end c total cursor (limit rule) (patterns rule).

Fixpoint rules_match (c : list Z) (total : nat) (rs : list Rule) (cursor : nat) : bool :=
  match rs with
  | [] => true
  | rule :: rs => match rule_end c total rule cursor with Some cursor => rules_match c total rs cursor | None => false end
  end.

(** The first signature whose rules match, each behind the one before. *)
Definition mime_of (c : list Z) (total : nat) : Z :=
  match list_find (fun s => rules_match c total (rules s) 0 = true) signatures with Some (_, s) => mime_id s | None => UNKNOWN end.

Definition patterns_fit (rs : list Rule) : Prop := Forall (fun rule => Forall (fun p => (length p <= min_read_size)%nat) (patterns rule)) rs.

Lemma signatures_fit : Forall (fun s => patterns_fit (rules s)) signatures.
Proof.
  assert (H : forallb (fun s => forallb (fun rule => forallb (fun p => (length p <=? 16)%nat) (patterns rule)) (rules s)) signatures = true)
    by (vm_compute; reflexivity).
  apply Forall_forall. intros s Hs. rewrite forallb_forall in H. apply list_elem_of_In in Hs. specialize (H s Hs).
  apply Forall_forall. intros rule Hr. rewrite forallb_forall in H. apply list_elem_of_In in Hr. specialize (H rule Hr).
  apply Forall_forall. intros p Hp. rewrite forallb_forall in H. apply list_elem_of_In in Hp. specialize (H p Hp).
  apply Nat.leb_le in H. unfold min_read_size. lia.
Qed.

Section prescan_proofs.
Context (uring : nat -> nat -> result (list Z)) (file : list Z).
Notation content := (content file).
Notation window_ok := (window_ok file).
Notation reads_file := (reads_file uring file).

(** A computation that reads on and answers [x]. *)
Definition reads {A} (s : Source) (m : result (A * MimeReader)) (x : A) : Prop :=
  exists r, m = Ok (x, r) /\ window_ok r /\ m_source r = s.

Lemma reads_bind {A B} s (m : result (A * MimeReader)) (x : A) (f : A * MimeReader -> result (B * MimeReader)) y :
  reads s m x -> (forall r, window_ok r -> m_source r = s -> reads s (f (x, r)) y) -> reads s (m ≫= f) y.
Proof. intros (r & -> & Hw & Hs) Hf. by apply Hf. Qed.

Lemma test_at_content s r o ps : reads_file s -> window_ok r -> m_source r = s -> reads s (test_at uring r o ps) (at_end (content s) o ps).
Proof.
  intros Hr. revert r. induction ps as [|p ps IH]; intros r Hw <-; [by exists r|]. cbn [test_at at_end].
  eapply reads_bind; [by apply matchAt_content|]. intros r' Hw' Hs'. cbn. rewrite bool_decide_decide. case_decide; [by exists r'|by apply IH].
Qed.

Lemma test_scan_content s r cursor lim ps : reads_file s -> window_ok r -> m_source r = s -> Forall (fun p => (length p <= min_read_size)%nat) ps ->
  reads s (test_scan uring r cursor lim ps) (scan_end (content s) (reader_size (MimeReader_make s)) cursor lim ps).
Proof.
  intros Hr. revert r. induction ps as [|p ps IH]; intros r Hw <- Hps; [by exists r|]. apply Forall_cons in Hps as [Hp Hps]. cbn [test_scan scan_end].
  eapply reads_bind; [by apply (find_content uring file)|]. intros r' Hw' Hs'. cbn [fst snd]. change (reader_size (MimeReader_make (m_source r))) with (reader_size r).
  destruct (if decide (p = []) then _ else _) as [found|]; [by exists r'|]. by apply IH.
Qed.

Lemma test_rules_content s rs r cursor : reads_file s -> window_ok r -> m_source r = s -> patterns_fit rs ->
  reads s (test_rules uring rs r cursor) (rules_match (content s) (reader_size (MimeReader_make s)) rs cursor).
Proof.
  intros Hr. revert r cursor. induction rs as [|rule rs IH]; intros r cursor Hw Hs Hps; [by exists r|]. apply Forall_cons in Hps as [Hp Hps].
  cbn [test_rules rules_match]. apply (reads_bind s _ (rule_end (content s) (reader_size (MimeReader_make s)) rule cursor)).
  - unfold testRule, rule_end. destruct (negb (offset rule =? SCAN)); [by apply test_at_content|by apply test_scan_content].
  - intros r' Hw' Hs'. destruct (rule_end _ _ _ _); [by apply IH|by exists r'].
Qed.

Lemma prescan_content s : reads_file s -> prescanMime uring (MimeReader_make s) = Ok (mime_of (content s) (reader_size (MimeReader_make s))).
Proof.
  intros Hr. unfold prescanMime, mime_of. pose proof signatures_fit as Hfit. revert Hfit. generalize signatures. intros ss Hfit.
  assert (Hgen : forall r, window_ok r -> m_source r = s -> prescan_loop uring ss r =
    Ok match list_find (fun x => rules_match (content s) (reader_size (MimeReader_make s)) (rules x) 0 = true) ss with Some (_, x) => mime_id x | None => UNKNOWN end).
  { induction ss as [|x ss IH]; intros r Hw Hs; [done|]. apply Forall_cons in Hfit as [Hx Hfit]. cbn [prescan_loop list_find].
    destruct (test_rules_content s (rules x) r 0 Hr Hw Hs Hx) as (r' & He & Hw' & Hs'). unfold testSignature. rewrite He. cbn [mbind result_bind].
    destruct (rules_match _ _ (rules x) 0) eqn:Hm; [by rewrite decide_True|]. rewrite decide_False by done. rewrite (IH Hfit r' Hw' Hs').
    by destruct (list_find _ ss) as [[i y]|]. }
  apply Hgen; done.
Qed.
End prescan_proofs.

(** ** Short reads *)
Section short_reads.
(** A kernel that reads a part of what was asked for. *)
Context (uring : nat -> nat -> result (list Z)) (file : list Z).
Notation content := (content file).
Notation window_ok := (window_ok file).

Definition reads_short (s : Source) : Prop :=
  match s with Memory _ => True | File _ => forall o l, exists k, (k <= l)%nat /\ uring o l = Ok (take k (drop o file)) end.

(** Each rule has one of its patterns where it may stand, behind the one before. *)
Fixpoint rules_hold (c : list Z) (rs : list Rule) (cursor : nat) : Prop :=
  match rs with
  | [] => True
  | rule :: rs => exists p o, p ∈ patterns rule /\ p <> [] /\ matches_at p c o
      /\ (if offset rule =? SCAN then (cursor <= o < cursor + limit rule)%nat else o = Z.to_nat (offset rule)) /\ rules_hold c rs (o + length p)
  end.

Lemma at_short r o l : reads_short (m_source r) -> window_ok r ->
  exists k r', (k <= l)%nat /\ at_ uring r o l = Ok (take k (drop o (content (m_source r))), r') /\ window_ok r' /\ m_source r' = m_source r.
Proof.
  intros Hr Hw. unfold at_. destruct (Nat.leb_spec (reader_size r) o) as [Ho|Ho]; [by exists 0%nat, r; split; [lia|]|]. unfold window_ok in *.
  destruct (m_source r) as [size|data] eqn:Hs; [|exists (Nat.min l (reader_size r - o)), r; split; [lia|]; by rewrite Hs].
  destruct ((m_window_offset r <=? o)%nat && _) eqn:Hc.
  - apply andb_prop in Hc as [Hc1 Hc2]. apply Nat.leb_le in Hc1, Hc2. cbn [mbind result_bind]. eexists (Nat.min _ (length (m_window r) - (o - m_window_offset r))), r.
    split; [|split; [|by rewrite Hs]]; [|do 2 f_equal; rewrite Hw at 2; rewrite (skipn_firstn_comm (o - m_window_offset r) (length (m_window r))), drop_drop, take_take;
      replace (m_window_offset r + (o - m_window_offset r))%nat with o by lia; f_equal]; lia.
  - assert (Hsz : reader_size r = size) by (unfold reader_size; by rewrite Hs). unfold file_read. destruct (Nat.ltb_spec size o); [lia|].
    set (n := if (size <? o + _)%nat then _ else _). destruct (Hr o n) as (k & Hk & ->). cbn [mbind result_bind m_window m_window_offset m_source].
    assert (Hn : (n <= size - o)%nat) by (subst n; destruct (Nat.ltb_spec size (o + Nat.max (Nat.min l (reader_size r - o)) min_read_size)); lia).
    assert (Hwin : take k (drop o file) = take k (drop o (take size file))) by (rewrite skipn_firstn_comm, take_take; f_equal; lia). rewrite Hwin.
    set (D := drop o (take size file)). eexists (Nat.min (Nat.min _ (length (take k D) - 0)) k), _. split; [|split; [rewrite Nat.sub_diag, drop_0, take_take; reflexivity|]]; [lia|].
    split; [|done]. cbn [m_window m_window_offset m_source Mime.content]. fold D. rewrite length_take. destruct (decide (k <= length D)%nat); [f_equal; lia|by rewrite !take_ge by lia].
Qed.

Lemma first_match_matches p l n : forall from i, first_match p l from n = Some i -> matches_at p l i.
Proof. induction n as [|n IH]; intros from i; cbn [first_match]; [done|]. case_decide; [by intros [= <-]|apply IH]. Qed.

(** What stands in a part stands in the whole. *)
Lemma matches_part p l k o i : p <> [] -> matches_at p (take k (drop o l)) i -> matches_at p l (o + i) /\ (i + length p <= k)%nat.
Proof.
  intros Hp H. assert (Hr := matches_at_room p _ i Hp H). rewrite length_take in Hr. assert (Hpos : (0 < length p)%nat) by (destruct p; cbn; [done|lia]). split; [|lia].
  unfold matches_at in *. rewrite skipn_firstn_comm, take_take, drop_drop in H. rewrite <- H at 2. f_equal. lia.
Qed.

Definition sound {A} (s : Source) (m : result (A * MimeReader)) (P : A -> Prop) : Prop := exists x r, m = Ok (x, r) /\ P x /\ window_ok r /\ m_source r = s.

Lemma sound_bind {A B} s (m : result (A * MimeReader)) (P : A -> Prop) (f : A * MimeReader -> result (B * MimeReader)) (Q : B -> Prop) :
  sound s m P -> (forall x r, P x -> window_ok r -> m_source r = s -> sound s (f (x, r)) Q) -> sound s (m ≫= f) Q.
Proof. intros (x & r & -> & Hx & Hw & Hs) Hf. by apply Hf. Qed.

Lemma matchAt_short r s o p : reads_short s -> window_ok r -> m_source r = s -> sound s (matchAt uring r o p) (fun b => b = true -> p <> [] /\ matches_at p (content s) o).
Proof.
  intros Hr Hw <-. unfold matchAt. destruct p as [|x p]; [by exists false, r|]. set (q := x :: p). destruct (at_short r o (length q) Hr Hw) as (k & r' & Hk & -> & Hw' & Hs).
  cbn [mbind result_bind]. eexists _, r'. split; [reflexivity|]. split; [|done]. destruct (Nat.ltb_spec (length (take k (drop o (content (m_source r))))) (length q)) as [Hl|Hl]; [done|].
  intros H%bool_decide_eq_true. split; [done|]. rewrite take_take in H. rewrite length_take in Hl. unfold matches_at. rewrite <- H at 2. f_equal. lia.
Qed.

Lemma find_loop_short s p last n : p <> [] -> (length p <= min_read_size)%nat -> reads_short s -> forall r pos, window_ok r -> m_source r = s ->
  sound s (find_loop uring n r p last pos) (fun o => forall i, o = Some i -> (pos <= i < last)%nat /\ matches_at p (content s) i).
Proof.
  intros Hp Hmax Hr. assert (Hpos : (0 < length p)%nat) by (destruct p; cbn; [done|lia]). induction n as [|n IH]; intros r pos Hw Hs; [by exists None, r|]. cbn [find_loop].
  destruct (Nat.leb_spec last pos); [by exists None, r|]. destruct (Nat.ltb_spec min_read_size (length p)); [lia|]. subst s.
  set (want := Nat.max _ _). destruct (at_short r pos want Hr Hw) as (k & r' & Hk & -> & Hw' & Hs). cbn [mbind result_bind].
  set (chunk := take k (drop pos (content (m_source r)))). destruct (length chunk <? length p)%nat; [by exists None, r'|].
  destruct (find_sub p _) as [found|] eqn:Hf.
  - exists (Some (pos + found)%nat), r'. split; [done|]. split; [|done]. intros i [= <-]. rewrite (find_sub_first p _ Hp) in Hf. 
    assert (Hm : matches_at p (take (Nat.min (length chunk) (last - pos + length p - 1)) chunk) found) by (by eapply first_match_matches).
    apply (matches_part p chunk _ 0 found Hp) in Hm as [Hm Hlen]. apply (matches_part p _ k pos found Hp) in Hm as [Hm _]. split; [lia|done].
  - destruct (IH r' (pos + (length chunk - (length p - 1)))%nat Hw' Hs) as (x & r'' & -> & Hx & Hw'' & Hs''). exists x, r''. split; [done|]. split; [|done].
    intros i Hi. destruct (Hx i Hi). split; [lia|done].
Qed.

Lemma find_short r s p from lim : (length p <= min_read_size)%nat -> reads_short s -> window_ok r -> m_source r = s ->
  sound s (find uring r p from lim) (fun o => forall i, o = Some i -> p <> [] /\ (from <= i < from + lim)%nat /\ matches_at p (content s) i).
Proof.
  intros Hmax Hr Hw Hs. unfold find. destruct p as [|x p]; [by exists None, r|]. destruct (lim =? 0)%nat; [by exists None, r|]. destruct (reader_size r <=? from)%nat; [by exists None, r|].
  destruct (find_loop_short s (x :: p) (Nat.min (from + lim) (reader_size r)) (Nat.min (from + lim) (reader_size r) - from) ltac:(done) Hmax Hr r from Hw Hs) as (o & r' & -> & Ho & Hw' & Hs').
  exists o, r'. split; [done|]. split; [|done]. intros i Hi. destruct (Ho i Hi). split; [done|]. split; [lia|done].
Qed.

Lemma test_rules_short s rs : reads_short s -> patterns_fit rs -> forall r cursor, window_ok r -> m_source r = s ->
  sound s (test_rules uring rs r cursor) (fun b => b = true -> rules_hold (content s) rs cursor).
Proof.
  intros Hr. induction rs as [|rule rs IH]; intros Hfit r cursor Hw Hs; [by exists true, r|]. apply Forall_cons in Hfit as [Hrule Hfit]. cbn [test_rules rules_hold].
  apply (sound_bind s _ (fun o => forall e, o = Some e -> exists p i, p ∈ patterns rule /\ p <> [] /\ matches_at p (content s) i
    /\ (if offset rule =? SCAN then (cursor <= i < cursor + limit rule)%nat else i = Z.to_nat (offset rule)) /\ e = (i + length p)%nat)).
  - unfold testRule. revert r Hw Hs Hrule. destruct (offset rule =? SCAN); cbn [negb]; induction (patterns rule) as [|p ps IHp]; intros r Hw Hs Hps; try (by exists None, r); apply Forall_cons in Hps as [Hp Hps]; cbn [test_scan test_at].
    + eapply sound_bind; [by apply (find_short r s p cursor (limit rule) Hp Hr)|]. intros [i|] r' Hi Hw' Hs'; cbn.
      * destruct (Hi i eq_refl) as (H1 & H2 & H3). eexists _, r'. split; [done|]. split; [|done]. intros e [= <-]. exists p, i. rewrite elem_of_cons. auto 10.
      * destruct (IHp r' Hw' Hs' Hps) as (x & r'' & -> & Hx & H). exists x, r''. split; [done|]. split; [|done]. intros e He. destruct (Hx e He) as (q & j & Hq & H'). exists q, j. rewrite elem_of_cons. auto 10.
    + eapply sound_bind; [by apply (matchAt_short r s (Z.to_nat (offset rule)) p Hr)|]. intros [] r' Hb Hw' Hs'; cbn.
      * destruct (Hb eq_refl) as (H1 & H2). eexists _, r'. split; [done|]. split; [|done]. intros e [= <-]. exists p, (Z.to_nat (offset rule)). rewrite elem_of_cons. auto 10.
      * destruct (IHp r' Hw' Hs' Hps) as (x & r'' & -> & Hx & H). exists x, r''. split; [done|]. split; [|done]. intros e He. destruct (Hx e He) as (q & j & Hq & H'). exists q, j. rewrite elem_of_cons. auto 10.
  - intros [e|] r' He Hw' Hs'; [|by exists false, r']. destruct (He e eq_refl) as (p & i & H1 & H2 & H3 & H4 & ->).
    destruct (IH Hfit r' (i + length p)%nat Hw' Hs') as (b & r'' & E & Hb & H). exists b, r''. split; [exact E|]. split; [|done]. intros ->. exists p, i. auto 10.
Qed.

Lemma prescan_short s : reads_short s -> exists id, prescanMime uring (MimeReader_make s) = Ok id
  /\ (id = UNKNOWN \/ exists x, x ∈ signatures /\ mime_id x = id /\ rules_hold (content s) (rules x) 0).
Proof.
  intros Hr. unfold prescanMime. pose proof signatures_fit as Hfit. revert Hfit. generalize signatures. intros ss Hfit.
  assert (Hgen : forall r, window_ok r -> m_source r = s -> exists id, prescan_loop uring ss r = Ok id /\ (id = UNKNOWN \/ exists x, x ∈ ss /\ mime_id x = id /\ rules_hold (content s) (rules x) 0)).
  { induction ss as [|x ss IH]; intros r Hw Hs; [by eexists; split; [done|left]|]. apply Forall_cons in Hfit as [Hx Hfit]. cbn [prescan_loop].
    destruct (test_rules_short s (rules x) Hr Hx r 0 Hw Hs) as (b & r' & E & Hb & Hw' & Hs'). unfold testSignature. rewrite E. cbn [mbind result_bind].
    destruct b; [eexists; split; [done|]; right; exists x; rewrite elem_of_cons; auto|]. destruct (IH Hfit r' Hw' Hs') as (id & -> & Hid). exists id. split; [done|].
    destruct Hid as [->|(y & Hy & H)]; [by left|right; exists y; rewrite elem_of_cons; auto]. }
  by apply Hgen.
Qed.
End short_reads.

(** ** Names *)

Lemma specialize_loop_name {Input} parsers base_id (input : Input) filename :
  specialize_loop parsers base_id input filename = base_id \/ specializes (specialize_loop parsers base_id input filename) base_id = true.
Proof.
  induction parsers as [|parser parsers IH]; [by left|]. cbn. destruct (parser input filename) as [e|sp]; [done|].
  destruct (Z.eqb_spec sp base_id); [done|]. destruct (specializes sp base_id) eqn:Hs; [by right|done].
Qed.

Definition same_name (a b : Z) : Prop := a = b \/ exists name, map_find mime_names a = Some name /\ map_find mime_names b = Some name.

Lemma specializes_name a b : specializes a b = true -> same_name a b.
Proof.
  unfold specializes. destruct (map_find mime_names a) as [x|] eqn:Ha; [|done]. destruct (map_find mime_names b) as [y|] eqn:Hb; [|done].
  intros ->%String.eqb_eq. right. by exists y.
Qed.

Lemma specializeMimeID_name {Input} (parsers : Z -> list (Input -> string -> string + Z)) base_id input filename :
  same_name (specializeMimeID parsers base_id input filename) base_id.
Proof.
  unfold specializeMimeID. destruct input as [input|]; [|by left].
  destruct (specialize_loop_name (parsers base_id) base_id input filename) as [H|H]; [left; by rewrite H|by apply specializes_name].
Qed.

Lemma canonical_least name ids : Forall (fun id => 0 < id /\ is_Some (map_find mime_names id)) ids ->
  forall c0, exists c, foldM (fun canonical id =>
    n ← or_throw (out_of_range "unordered_map::at") (map_find mime_names id);
    Ok (if negb (String.eqb n name) then canonical
        else if (canonical =? INVALID) || (id <? canonical) then id else canonical)) c0 ids = Ok c
  /\ (c = c0 \/ (c ∈ ids /\ map_find mime_names c = Some name))
  /\ (forall id, id ∈ ids -> map_find mime_names id = Some name -> c <> INVALID /\ c <= id) /\ (c0 <> INVALID -> c <> INVALID /\ c <= c0).
Proof.
  intros H. induction H as [|id ids [Hpos [n Hn]] _ IH]; intros c0.
  { exists c0. split; [done|]. split; [by left|]. split; [|done]. intros id Hid. by apply elem_of_nil in Hid. }
  cbn [foldM]. rewrite Hn. cbn [or_throw mbind result_bind].
  set (c1 := if negb (String.eqb n name) then c0 else if (c0 =? INVALID) || (id <? c0) then id else c0).
  assert (Hc1 : (c1 = c0 \/ (c1 = id /\ n = name)) /\ (n = name -> c1 <> INVALID /\ c1 <= id) /\ (c0 <> INVALID -> c1 <> INVALID /\ c1 <= c0)).
  { subst c1. unfold INVALID. destruct (String.eqb_spec n name) as [->|Hne]; cbn.
    - destruct (Z.eqb_spec c0 0), (Z.ltb_spec id c0); cbn; (split; [auto|split; intros; lia]).
    - split; [by left|]. split; [done|lia]. }
  destruct Hc1 as (H1 & H2 & H3). destruct (IH c1) as (c & -> & Hc & Hle & Hc0). exists c. split; [done|]. split; [|split].
  - destruct Hc as [->|[Hin Hname]]; [|right; split; [by right|done]]. destruct H1 as [->|[-> ->]]; [by left|right]. split; [by left|done].
  - intros i [->|Hi]%elem_of_cons Hin; [|by apply Hle]. rewrite Hn in Hin. injection Hin as ->. destruct (H2 eq_refl) as [Ha Hb].
    destruct (Hc0 Ha). split; [done|lia].
  - intros Hne. destruct (H3 Hne) as [Ha Hb]. destruct (Hc0 Ha). split; [done|lia].
Qed.

Lemma mime_table : Forall (fun id => 0 < id /\ is_Some (map_find mime_names id)) ALL_MIME_IDS.
Proof. unfold ALL_MIME_IDS. repeat (apply Forall_cons; split; [split; [done|by eexists]|]). by apply Forall_nil. Qed.

(** ** Properties *)

(** Searching a file through its window of 32 kilobytes, or a buffer in
    memory, finds the first place at or behind [from], and before the limit and
    the end, where the pattern stands, across all borders of reads; and reports
    nothing only when there is none.  The kernel may have fewer bytes than the
    file had when it was opened. *)
Theorem reader_finds_first_match uring file s pattern from limit :
  reads_file uring file s -> pattern <> [] -> (length pattern <= min_read_size)%nat ->
  exists o r, find uring (MimeReader_make s) pattern from limit = Ok (o, r) /\
    let bound := Nat.min (from + limit) (reader_size (MimeReader_make s)) in
    match o with
    | Some p => (from <= p < bound)%nat /\ matches_at pattern (content file s) p
        /\ forall q, (from <= q < p)%nat -> ~ matches_at pattern (content file s) q
    | None => forall q, (from <= q < bound)%nat -> ~ matches_at pattern (content file s) q
    end.
Proof.
  intros Hr Hp Hl. destruct (find_content uring file (MimeReader_make s) pattern from limit Hl Hr ltac:(done)) as (r & H & _ & _).
  rewrite decide_False in H by done. eexists _, r. split; [exact H|]. cbn zeta. change (m_source (MimeReader_make s)) with s.
  set (bound := Nat.min (from + limit) (reader_size (MimeReader_make s))). clear H. generalize (content file s). intros l.
  assert (Hgen : forall n a, match first_match pattern l a n with
    | Some p => (a <= p < a + n)%nat /\ matches_at pattern l p /\ forall q, (a <= q < p)%nat -> ~ matches_at pattern l q
    | None => forall q, (a <= q < a + n)%nat -> ~ matches_at pattern l q end).
  { induction n as [|n IH]; intros a; cbn; [lia|]. destruct (decide (matches_at pattern l a)) as [Hm|Hm]; [split; [lia|split; [done|lia]]|].
    specialize (IH (S a)). destruct (first_match pattern l (S a) n) as [p|].
    - destruct IH as (H1 & H2 & H3). split; [lia|]. split; [done|]. intros q Hq. destruct (decide (q = a)) as [->|]; [done|]. apply H3. lia.
    - intros q Hq. destruct (decide (q = a)) as [->|]; [done|]. apply IH. lia. }
  specialize (Hgen (bound - from)%nat from). destruct (first_match pattern l from (bound - from)) as [p|].
  - destruct Hgen as (H1 & H2 & H3). split; [lia|done].
  - intros q Hq. apply Hgen. lia.
Qed.

(** C39: a file is identified by its bytes alone: read in full by the kernel, it
    gets the type of the first signature whose rules its contents satisfy, each
    found behind the one before, [UNKNOWN] when there is none, and the same bytes
    in memory get the same type.  A kernel that reads less than it is asked for
    can make a file unknown or hide a signature, but the type it gets is one
    whose signature stands in the file.  No read or search goes wrong. *)
Theorem prescan_identifies_by_contents uring file size :
  ((forall o l, uring o l = Ok (take l (drop o file))) ->
   prescanMime uring (MimeReader_make (File size)) = Ok (mime_of (take size file) size)
   /\ (size = length file -> prescanMime uring (MimeReader_make (File size)) = prescanMime uring (MimeReader_make (Memory file))))
  /\ ((forall o l, exists k, (k <= l)%nat /\ uring o l = Ok (take k (drop o file))) ->
      exists id, prescanMime uring (MimeReader_make (File size)) = Ok id
        /\ (id = UNKNOWN \/ exists s, s ∈ signatures /\ mime_id s = id /\ rules_hold (take size file) (rules s) 0)).
Proof.
  split; [|exact (prescan_short uring file (File size))].
  intros Hr. assert (H1 := prescan_content uring file (File size) Hr). assert (H2 := prescan_content uring file (Memory file) I).
  split; [exact H1|]. intros ->. rewrite H1, H2. cbn [content reader_size MimeReader_make m_source]. by rewrite take_ge by lia.
Qed.

(** Whatever the parsers answer, the type a file ends up with reports the
    same MIME string as the type its signature gave, so a file without a
    signature stays unknown. *)
Theorem identified_type_keeps_its_name {Input} (parsers : Z -> list (Input -> string -> string + Z)) :
  (forall bytes stage filename id, identifyMime parsers bytes stage filename = Ok id -> exists base,
     prescanMime (fun _ _ => Throw (logic_error "not a file")) (MimeReader_make (Memory bytes)) = Ok base /\ same_name id base)
  /\ (forall uring size input_fd filename id, identifyMimeForFd parsers (Some uring) size input_fd filename = Ok id -> exists base,
     prescanMime uring (MimeReader_make (File size)) = Ok base /\ same_name id base)
  /\ (forall uring size open filename id, identifyMimeForPath parsers (Ok (size, uring)) open filename = Ok id -> exists base,
     prescanMime uring (MimeReader_make (File size)) = Ok base /\ same_name id base)
  /\ forall id, same_name id UNKNOWN -> id = UNKNOWN.
Proof.
  split; [|split; [|split]].
  - intros bytes stage filename id. unfold identifyMime. destruct (prescanMime (fun _ _ => Throw (logic_error "not a file")) (MimeReader_make (Memory bytes))) as [base|e]; [|done]. cbn. intros [= <-]. exists base. split; [done|].
    destruct (base =? UNKNOWN); [by left|]. destruct stage as [e|input]; [by left|apply specializeMimeID_name].
  - intros uring size input_fd filename id. unfold identifyMimeForFd. destruct (prescanMime uring (MimeReader_make (File size))) as [base|e]; [|done]. cbn. intros [= <-]. exists base.
    split; [done|]. destruct (base =? UNKNOWN); [by left|]. destruct input_fd as [[e|input]|]; [by left|apply (specializeMimeID_name parsers base (Some input))|by left].
  - intros uring size open filename id. unfold identifyMimeForPath. cbn -[prescanMime MimeReader_make]. destruct (prescanMime uring (MimeReader_make (File size))) as [base|e]; [|done]. cbn. intros [= <-]. exists base.
    split; [done|]. unfold specializeMimeIDForPath. destruct (parsers base); [by left|]. destruct open as [e|input]; [by left|].
    apply (specializeMimeID_name parsers base (Some input)).
  - intros id [->|(name & H1 & H2)]; [done|]. vm_compute in H2. injection H2 as <-. revert H1.
    unfold map_find. intros H1. destruct (list_find _ mime_names) as [[i [id' n]]|] eqn:E; [|done]. cbn in H1. injection H1 as ->.
    apply list_find_Some in E as (E & Hid & _). cbn in Hid. subst id'.
    assert (Ht : forallb (fun x => negb (String.eqb (snd x) "unknown/unknown") || (fst x =? UNKNOWN)) mime_names = true) by by vm_compute.
    rewrite forallb_forall in Ht. apply list_elem_of_lookup_2 in E. apply list_elem_of_In in E. specialize (Ht _ E). cbn in Ht.
    by apply Z.eqb_eq in Ht.
Qed.

(** A MIME string resolves to the least identifier declared with it, or to
    [INVALID] when none is, and looking the name of an identifier up never
    throws. *)
Theorem names_resolve_to_the_least_id name : exists c, canonicalIDForName name = Ok c
  /\ ((c = INVALID /\ forall id, id ∈ ALL_MIME_IDS -> map_find mime_names id <> Some name)
      \/ (c ∈ ALL_MIME_IDS /\ map_find mime_names c = Some name /\ forall id, id ∈ ALL_MIME_IDS -> map_find mime_names id = Some name -> c <= id)).
Proof.
  destruct (canonical_least name ALL_MIME_IDS mime_table INVALID) as (c & H & Hc & Hle & _). exists c. split; [exact H|].
  destruct Hc as [->|[Hin Hn]]; [left|right].
  - split; [reflexivity|]. intros id Hid Hx. exact (proj1 (Hle id Hid Hx) eq_refl).
  - split; [exact Hin|]. split; [exact Hn|]. intros id Hid Hx. exact (proj2 (Hle id Hid Hx)).
Qed.

(** ** The properties at concrete files *)
Module Example_mime.
Definition reads (file : list Z) (o l : nat) : result (list Z) := Ok (take l (drop o file)).
Definition png : list Z := png_magic ++ [0; 0; 0; 13] ++ sv "IHDR" ++ [0; 0; 0; 1] ++ sv "IDATx".

Lemma reader_finds_first_match_witness : exists r,
  find (reads png) (MimeReader_make (File 25)) (sv "IDAT") 8 512 = Ok (Some 20%nat, r).
Proof.
  destruct (reader_finds_first_match (reads png) png (File 25) (sv "IDAT") 8 512) as (o & r & H & _);
    [exact (fun o l => eq_refl)|done|apply Nat.leb_le; vm_compute; reflexivity|].
  exists r. rewrite H. vm_compute in H. by injection H as <- _.
Defined.

Lemma prescan_identifies_by_contents_witness :
  prescanMime (reads png) (MimeReader_make (File 25)) = Ok IMAGE_PNG.
Proof.
  destruct (prescan_identifies_by_contents (reads png) png 25) as [H _]. destruct (H (fun o l => eq_refl)) as [E _].
  rewrite E. by vm_compute.
Defined.

(** The scan for a doctype comes before the magic number of an archive: one
    whose first entry is named after its type is taken for a video. *)
Lemma archive_of_a_webm_is_a_video (e : nat -> nat -> result (list Z)) :
  prescanMime e (MimeReader_make (Memory ([80; 75; 3; 4] ++ sv "..clip.webm"))) = Ok VIDEO_WEBM.
Proof. by vm_compute. Qed.
End Example_mime.
