(* ===== verification/DbReactor.v ===== *)
(** * The database reactor

    [IDHANDb/src/DBReactor.cpp]: the table of watched connections with what is
    registered in the kernel, and the two flags that decide which worker runs
    the pump of a connection.  A request, the poller and the workers are
    threads, each atomic access or locked section is a step, and a run is any
    sequence of steps.

    [epoll_ctl] is a parameter.  A connection is a number, a watch an address
    of the heap of watches; a thread that hands a task to the executor goes on
    as the task. *)
From S2P Require Import Prelude.

Inductive SocketInterest := read_interest | write_interest | read_write_interest.
#[export] Instance SocketInterest_eq_dec : EqDecision SocketInterest.
Proof. solve_decision. Defined.

Definition EPOLLIN : Z := 1.
Definition EPOLLOUT : Z := 4.
Definition EPOLLRDHUP : Z := 8192.
Definition EPOLLONESHOT : Z := 1073741824.
Definition ENOENT : Z := 2.

Definition epollEvents (interest : SocketInterest) : Z :=
  let events := Z.lor EPOLLONESHOT EPOLLRDHUP in
  let events := if decide (interest = write_interest) then events else Z.lor events EPOLLIN in
  if decide (interest = read_interest) then events else Z.lor events EPOLLOUT.

Inductive Control := EPOLL_CTL_ADD | EPOLL_CTL_MOD | EPOLL_CTL_DEL.

Record Watch := mkWatch {
  connection : nat; socket : Z; interest : SocketInterest; scheduled : bool; pending : bool }.

(** A watch as it is made: no socket, nothing asked for. *)
Definition Watch_make (c : nat) : Watch := mkWatch c (-1) read_interest false false.

Definition set_socket (s : Z) (i : SocketInterest) (w : Watch) : Watch := mkWatch (connection w) s i (scheduled w) (pending w).
Definition set_scheduled (b : bool) (w : Watch) : Watch := mkWatch (connection w) (socket w) (interest w) b (pending w).
Definition set_pending (b : bool) (w : Watch) : Watch := mkWatch (connection w) (socket w) (interest w) (scheduled w) b.

(** Where a thread stands: in [request], before its store, its exchange, and
    the hand-over; then the task in the queue, at the head of its loop, before
    and in the pump, before the exchange that ends a round, before the store
    that releases the watch, and before the two exchanges behind it.  The
    executor swallows an exception of the pump: the task is then gone. *)
Inductive pc :=
  | Requesting | Scheduling | Adding
  | Queued | Looping | Before_pump | Pumping | After_pump | Releasing | Rechecking | Retaking
  | Finished | Failed.
#[export] Instance pc_eq_dec : EqDecision pc.
Proof. solve_decision. Defined.

(** A thread and the watch it works on. *)
Record Thread := mkThread { at_watch : nat; at_pc : pc }.

Section reactor.
Context {Kernel : Type} (epoll_ctl : Control -> Z -> Z -> nat -> Kernel -> option Z * Kernel).

Record DBReactor := mkReactor {
  m_watches : gmap nat nat;      (* connections to addresses *)
  objects : list Watch;          (* the watches ever made *)
  m_started : bool; m_stopping : bool;
  m_epoll : Kernel }.

Definition set_table (t : gmap nat nat) (o : list Watch) (r : DBReactor) : DBReactor :=
  mkReactor t o (m_started r) (m_stopping r) (m_epoll r).
Definition set_epoll (k : Kernel) (r : DBReactor) : DBReactor :=
  mkReactor (m_watches r) (objects r) (m_started r) (m_stopping r) k.
Definition set_objects (o : list Watch) (r : DBReactor) : DBReactor := set_table (m_watches r) o r.

Definition DBReactor_make (k : Kernel) : DBReactor := mkReactor ∅ [] false false k.
Definition start (r : DBReactor) : DBReactor := mkReactor (m_watches r) (objects r) true (m_stopping r) (m_epoll r).
(** The flag of [stop]. *)
Definition stop (r : DBReactor) : DBReactor := mkReactor (m_watches r) (objects r) (m_started r) true (m_epoll r).

(** ** The table of watches *)

Definition epollControl (op : Control) (s : Z) (events : Z) (c : nat) (r : DBReactor) : result unit * DBReactor :=
  match epoll_ctl op s events c (m_epoll r) with
  | (None, k) => (Ok tt, set_epoll k r)
  | (Some _, k) => (Throw (runtime_error "epoll_ctl for PostgreSQL socket failed"), set_epoll k r)
  end.

Definition findWatch (c : nat) (r : DBReactor) : option nat := m_watches r !! c.

(** [try_emplace]: the address of the watch, whether it is new, the table. *)
Definition emplace (c : nat) (r : DBReactor) : nat * bool * DBReactor :=
  match m_watches r !! c with
  | Some a => (a, false, r)
  | None => let a := length (objects r) in (a, true, set_table (<[c := a]> (m_watches r)) (objects r ++ [Watch_make c]) r)
  end.

Definition findOrCreateWatch (c : nat) (r : DBReactor) : nat * DBReactor := let '(a, _, r) := emplace c r in (a, r).

Definition removeWatch (c : nat) (r : DBReactor) : option nat * DBReactor :=
  match m_watches r !! c with
  | Some a => (Some a, set_table (delete c (m_watches r)) (objects r) r)
  | None => (None, r)
  end.

Definition registerWatch (c : nat) (s : Z) (i : SocketInterest) (r : DBReactor) : result unit * DBReactor :=
  let '(a, inserted, r) := emplace c r in
  match objects r !! a with
  | None => (Throw (undefined_behaviour "no such watch"), r)
  | Some w =>
      if (0 <=? socket w) && negb (socket w =? s) then (Throw (logic_error "Database connection socket changed"), r)
      else
        let unregistered := socket w <? 0 in
        let r := set_objects (<[a := set_socket s i w]> (objects r)) r in
        epollControl (if inserted || unregistered then EPOLL_CTL_ADD else EPOLL_CTL_MOD) s (epollEvents i) (connection w) r
  end.

Definition updateWatch (c : nat) (i : SocketInterest) (r : DBReactor) : result unit * DBReactor :=
  match m_watches r !! c ≫= fun a => pair a <$> objects r !! a with
  | Some (a, w) =>
      if socket w <? 0 then (Throw (logic_error "Rearming an unwatched database connection"), r)
      else
        let r := set_objects (<[a := set_socket (socket w) i w]> (objects r)) r in
        epollControl EPOLL_CTL_MOD (socket w) (epollEvents i) (connection w) r
  | None => (Throw (logic_error "Rearming an unwatched database connection"), r)
  end.

Definition watch (c : nat) (s : Z) (i : SocketInterest) (r : DBReactor) : result unit * DBReactor :=
  if s <? 0 then (Throw (invalid_argument "Invalid PostgreSQL reactor watch"), r)
  else if negb (m_started r) || m_stopping r then (Throw (logic_error "Database reactor is not running"), r)
  else registerWatch c s i r.

Definition rearm (c : nat) (i : SocketInterest) (r : DBReactor) : result unit * DBReactor := updateWatch c i r.

Definition unwatch (c : nat) (r : DBReactor) : result unit * DBReactor :=
  let '(found, r) := removeWatch c r in
  match found ≫= fun a => objects r !! a with
  | None => (Ok tt, r)
  | Some w =>
      if socket w <? 0 then (Ok tt, r)
      else match epoll_ctl EPOLL_CTL_DEL (socket w) 0 c (m_epoll r) with
        | (None, k) => (Ok tt, set_epoll k r)
        | (Some e, k) =>
            (if e =? ENOENT then Ok tt else Throw (runtime_error "Unable to remove PostgreSQL socket watch"), set_epoll k r)
        end
  end.

(** ** Requests and workers *)

Record World := mkWorld { reactor : DBReactor; threads : list Thread; m_workers : nat }.

Definition World_make (workers : nat) (k : Kernel) : World := mkWorld (start (DBReactor_make k)) [] workers.

Definition set_reactor (r : DBReactor) (w : World) : World := mkWorld r (threads w) (m_workers w).
Definition spawn (a : nat) (w : World) : World := mkWorld (reactor w) (threads w ++ [mkThread a Requesting]) (m_workers w).

(** [schedule], up to [request]. *)
Definition schedule (c : nat) (w : World) : World :=
  let '(a, r) := findOrCreateWatch c (reactor w) in spawn a (set_reactor r w).

(** [run] for one event of the kernel, up to [request]. *)
Definition poll (c : nat) (w : World) : World := match findWatch c (reactor w) with Some a => spawn a w | None => w end.

(** A thread of the executor is taken from the start of a task to its end. *)
Definition working (p : pc) : bool :=
  match p with Looping | Before_pump | Pumping | After_pump | Releasing | Rechecking | Retaking => true | _ => false end.
Definition active (w : World) : nat := length (List.filter (fun t => working (at_pc t)) (threads w)).

(** One access of a thread to the flags of its watch: the flags it leaves and
    where it stands then; [throws] tells how the pump ended. *)
Definition flag_step (p : pc) (free throws : bool) (w : Watch) : option (Watch * pc) :=
  match p with
  | Requesting => Some (set_pending true w, Scheduling)
  | Scheduling => Some (set_scheduled true w, if scheduled w then Finished else Adding)
  | Adding => Some (w, Queued)
  | Queued => if free then Some (w, Looping) else None
  | Looping => Some (set_pending false w, Before_pump)
  | Before_pump => Some (w, Pumping)
  | Pumping => Some (w, if throws then Failed else After_pump)
  | After_pump => Some (set_pending false w, if pending w then Looping else Releasing)
  | Releasing => Some (set_scheduled false w, Rechecking)
  | Rechecking => Some (set_pending false w, if pending w then Retaking else Finished)
  | Retaking => Some (set_scheduled true w, if scheduled w then Finished else Looping)
  | Finished | Failed => None
  end.

Definition move (i : nat) (throws : bool) (w : World) : option World :=
  t ← threads w !! i;
  o ← objects (reactor w) !! at_watch t;
  '(o, p) ← flag_step (at_pc t) (active w <? m_workers w)%nat throws o;
  Some (mkWorld (set_objects (<[at_watch t := o]> (objects (reactor w))) (reactor w))
                (<[i := mkThread (at_watch t) p]> (threads w)) (m_workers w)).

Inductive event :=
  | Schedule (c : nat) | Poll (c : nat) | Move (i : nat) (throws : bool)
  | Watch_socket (c : nat) (s : Z) (i : SocketInterest) | Rearm (c : nat) (i : SocketInterest) | Unwatch (c : nat) | Stop.

Definition step (w : World) (e : event) : option World :=
  match e with
  | Schedule c => Some (schedule c w)
  | Poll c => Some (poll c w)
  | Move i throws => move i throws w
  | Watch_socket c s i => Some (set_reactor (snd (watch c s i (reactor w))) w)
  | Rearm c i => Some (set_reactor (snd (rearm c i (reactor w))) w)
  | Unwatch c => Some (set_reactor (snd (unwatch c (reactor w))) w)
  | Stop => Some (set_reactor (stop (reactor w)) w)
  end.

Fixpoint run_events (w : World) (es : list event) : option World :=
  match es with [] => Some w | e :: es => w ← step w e; run_events w es end.

(** ** What is proved about *)

(** The threads that own the right to run the pump of their watch: [scheduled]
    says that there is one.  A pump that has not begun is [early]. *)
Definition early (p : pc) : bool := match p with Adding | Queued | Looping | Before_pump => true | _ => false end.
Definition late (p : pc) : bool := match p with Pumping | After_pump | Releasing => true | _ => false end.
Definition dead (p : pc) : bool := match p with Failed => true | _ => false end.
Definition holds (p : pc) : bool := early p || late p || dead p.

Definition on (a : nat) (f : pc -> bool) (t : Thread) : bool := (at_watch t =? a)%nat && f (at_pc t).

(** The watches with a request that no pump has followed yet. *)
Definition owe (w : World) (e : event) (owed : gset nat) : gset nat :=
  match e with
  | Move i _ => match threads w !! i with
      | Some t => match at_pc t with
          | Requesting => {[at_watch t]} ∪ owed
          | Before_pump => owed ∖ {[at_watch t]}
          | _ => owed end
      | None => owed end
  | _ => owed
  end.

(** A task that has released its watch takes the flag of a request that came
    after the next task began to pump. *)
Definition steals (w : World) (e : event) : bool :=
  match e with
  | Move i _ => match threads w !! i with
      | Some t => match at_pc t with Rechecking => true | _ => false end && existsb (on (at_watch t) late) (threads w)
      | None => false end
  | _ => false
  end.

(** What is owed at the end of a run, and that it has no such step. *)
Fixpoint owed_after (w : World) (es : list event) (g : gset nat) : gset nat :=
  match es with
  | [] => g
  | e :: es => match step w e with Some w' => owed_after w' es (owe w e g) | None => g end
  end.

Fixpoint steal_free (w : World) (es : list event) : bool :=
  match es with
  | [] => true
  | e :: es => negb (steals w e) && match step w e with Some w' => steal_free w' es | None => true end
  end.

(** ** Counting threads *)

Definition countb (f : Thread -> bool) (l : list Thread) : nat := length (List.filter f l).

Lemma countb_app f l1 l2 : countb f (l1 ++ l2) = (countb f l1 + countb f l2)%nat.
Proof. unfold countb. by rewrite List.filter_app, length_app. Qed.

Lemma countb_insert f l i t t' : l !! i = Some t ->
  (countb f (<[i := t']> l) + Nat.b2n (f t) = countb f l + Nat.b2n (f t'))%nat.
Proof.
  intros H. rewrite <- (take_drop_middle l i t H) at 2. rewrite insert_take_drop by by eapply lookup_lt_Some.
  rewrite !countb_app. unfold countb. cbn. destruct (f t), (f t'); cbn; lia.
Qed.

Lemma countb_pos f l : (0 < countb f l)%nat <-> exists i t, l !! i = Some t /\ f t = true.
Proof.
  unfold countb. split.
  - destruct (List.filter f l) as [|t l'] eqn:E; cbn; [lia|]. intros _. assert (Hin : In t (List.filter f l)) by (rewrite E; by left).
    apply List.filter_In in Hin as [Hin Hf]. apply list_elem_of_In, list_elem_of_lookup_1 in Hin as [i Hi]. eauto.
  - intros (i & t & Hi & Hf). apply list_elem_of_lookup_2, list_elem_of_In in Hi.
    assert (Hin : In t (List.filter f l)) by by apply List.filter_In. destruct (List.filter f l); [done|cbn; lia].
Qed.

Lemma countb_le1_unique f l i j t t' : (countb f l <= 1)%nat -> l !! i = Some t -> l !! j = Some t' ->
  f t = true -> f t' = true -> i = j.
Proof.
  intros Hc Hi Hj Ht Ht'. revert i j Hc Hi Hj. induction l as [|x l IH]; intros [|i] [|j] Hc Hi Hj; [done..| | | |].
  - done.
  - injection Hi as ->. assert (0 < countb f l)%nat by (apply countb_pos; eauto). unfold countb in *. cbn in Hc. rewrite Ht in Hc. cbn in Hc. lia.
  - injection Hj as ->. assert (0 < countb f l)%nat by (apply countb_pos; eauto). unfold countb in *. cbn in Hc. rewrite Ht' in Hc. cbn in Hc. lia.
  - f_equal. apply IH; [|done..]. unfold countb in *. cbn in Hc. destruct (f x); cbn in Hc; lia.
Qed.

Lemma countb_asking a b f : f Requesting = false -> countb (on a f) [mkThread b Requesting] = 0%nat.
Proof. intros H. unfold countb, on. cbn. rewrite H. by destruct (b =? a)%nat. Qed.

(** ** Owners *)

Definition holders (a : nat) (w : World) : nat := countb (on a holds) (threads w).

(** Every thread has its watch, and a watch is scheduled when one thread owns it. *)
Definition owned (w : World) : Prop :=
  Forall (fun t => (at_watch t < length (objects (reactor w)))%nat) (threads w)
  /\ forall a o, objects (reactor w) !! a = Some o -> holders a w = Nat.b2n (scheduled o).

(** What the events that move no thread do: they may add a thread that is about
    to ask, and fresh watches; flags stay. *)
Definition flags_kept (l l' : list Watch) : Prop :=
  (length l <= length l')%nat /\ forall a o', l' !! a = Some o' ->
    (exists o, l !! a = Some o /\ scheduled o' = scheduled o /\ pending o' = pending o /\ connection o' = connection o)
    \/ ((length l <= a)%nat /\ scheduled o' = false /\ pending o' = false).

Definition quiet (w w' : World) : Prop :=
  flags_kept (objects (reactor w)) (objects (reactor w'))
  /\ (threads w' = threads w \/ exists a, threads w' = threads w ++ [mkThread a Requesting] /\ (a < length (objects (reactor w')))%nat).

Lemma flags_kept_refl l : flags_kept l l.
Proof. split; [done|]. intros a o' H. left. by exists o'. Qed.

Lemma flags_kept_trans l1 l2 l3 : flags_kept l1 l2 -> flags_kept l2 l3 -> flags_kept l1 l3.
Proof.
  intros [H1 H1'] [H2 H2']. split; [lia|]. intros a o' H. destruct (H2' a o' H) as [(o & Ho & Hs & Hp & Hc)|(Hl & Hs & Hp)].
  - destruct (H1' a o Ho) as [(o0 & Ho0 & Hs0 & Hp0 & Hc0)|(Hl & Hs0 & Hp0)].
    + left. exists o0. split; [done|]. split; [congruence|]. split; congruence.
    + right. split; [done|]. split; congruence.
  - right. split; [lia|done].
Qed.

Lemma flags_kept_add l c : flags_kept l (l ++ [Watch_make c]).
Proof.
  split; [rewrite length_app; lia|]. intros a o' H. apply lookup_app_Some in H as [H|[Hl H]].
  - left. by exists o'.
  - right. split; [done|]. apply list_lookup_singleton_Some in H as [_ <-]. done.
Qed.

Lemma flags_kept_set l a o s i : l !! a = Some o -> flags_kept l (<[a := set_socket s i o]> l).
Proof.
  intros Ho. split; [by rewrite length_insert|]. intros b o' H. left. destruct (decide (a = b)) as [->|Hne].
  - rewrite list_lookup_insert_eq in H by by eapply lookup_lt_Some. injection H as <-. by exists o.
  - rewrite list_lookup_insert_ne in H by done. by exists o'.
Qed.

Lemma epollControl_objects op s ev c r : objects (snd (epollControl op s ev c r)) = objects r.
Proof. unfold epollControl. by destruct (epoll_ctl op s ev c (m_epoll r)) as [[e|] k]. Qed.

(** The addresses of the table are those of watches. *)
Definition table_ok (r : DBReactor) : Prop := forall c a, m_watches r !! c = Some a -> exists o, objects r !! a = Some o /\ connection o = c.

Lemma emplace_spec c r : table_ok r -> exists o, objects (snd (emplace c r)) !! fst (fst (emplace c r)) = Some o /\ connection o = c
  /\ flags_kept (objects r) (objects (snd (emplace c r))) /\ table_ok (snd (emplace c r))
  /\ m_watches (snd (emplace c r)) !! c = Some (fst (fst (emplace c r)))
  /\ (forall c' a, m_watches r !! c' = Some a -> m_watches (snd (emplace c r)) !! c' = Some a).
Proof.
  intros Ht. unfold emplace. destruct (m_watches r !! c) as [a|] eqn:E; cbn.
  - destruct (Ht c a E) as (o & Ho & Hc). exists o. split; [done|]. split; [done|]. split; [apply flags_kept_refl|]. split; [exact Ht|]. done.
  - exists (Watch_make c). split; [by apply list_lookup_middle|]. split; [done|]. split; [apply flags_kept_add|]. split; [|split].
    + intros c' a'. cbn. destruct (decide (c' = c)) as [->|Hne].
      * rewrite lookup_insert_eq. intros [= <-]. exists (Watch_make c). split; [by apply list_lookup_middle|done].
      * rewrite lookup_insert_ne by done. intros H. destruct (Ht c' a' H) as (o & Ho & Hc). exists o. split; [|done].
        by apply lookup_app_l_Some.
    + by rewrite lookup_insert_eq.
    + intros c' a'. destruct (decide (c' = c)) as [->|Hne]; [by rewrite E|]. by rewrite lookup_insert_ne by done.
Qed.

Lemma table_ok_set r a o s i : table_ok r -> objects r !! a = Some o -> table_ok (set_objects (<[a := set_socket s i o]> (objects r)) r).
Proof.
  intros Ht Ho c b Hb. cbn in Hb. destruct (Ht c b Hb) as (o' & Ho' & Hc). cbn. destruct (decide (a = b)) as [->|Hne].
  - exists (set_socket s i o). split; [by apply list_lookup_insert_eq; eapply lookup_lt_Some|]. cbn. congruence.
  - exists o'. by rewrite list_lookup_insert_ne.
Qed.

Lemma table_ok_epoll k r : table_ok r -> table_ok (set_epoll k r).
Proof. done. Qed.

Lemma epollControl_table op s ev c r : table_ok r -> table_ok (snd (epollControl op s ev c r)).
Proof. unfold epollControl. by destruct (epoll_ctl op s ev c (m_epoll r)) as [[e|] k]. Qed.

Lemma registerWatch_kept c s i r : table_ok r ->
  flags_kept (objects r) (objects (snd (registerWatch c s i r))) /\ table_ok (snd (registerWatch c s i r)).
Proof.
  intros Ht. destruct (emplace_spec c r Ht) as (o & Ho & _ & Hk & Ht' & _ & _). unfold registerWatch.
  destruct (emplace c r) as [[a ins] r'] eqn:E. cbn in Ho, Hk, Ht'. rewrite Ho.
  destruct ((0 <=? socket o) && negb (socket o =? s)); [done|]. rewrite epollControl_objects. split.
  - eapply flags_kept_trans; [exact Hk|]. cbn. by apply flags_kept_set.
  - apply epollControl_table. by apply table_ok_set.
Qed.

Lemma updateWatch_kept c i r : table_ok r ->
  flags_kept (objects r) (objects (snd (updateWatch c i r))) /\ table_ok (snd (updateWatch c i r)).
Proof.
  intros Ht. unfold updateWatch. destruct (m_watches r !! c) as [a|]; cbn; [|split; [apply flags_kept_refl|done]].
  destruct (objects r !! a) as [o|] eqn:Ho; cbn; [|split; [apply flags_kept_refl|done]].
  destruct (socket o <? 0); [split; [apply flags_kept_refl|done]|]. rewrite epollControl_objects. split; [by apply flags_kept_set|].
  apply epollControl_table. by apply table_ok_set.
Qed.

Lemma watch_kept c s i r : table_ok r -> flags_kept (objects r) (objects (snd (watch c s i r))) /\ table_ok (snd (watch c s i r)).
Proof.
  intros Ht. unfold watch. destruct (s <? 0); [split; [apply flags_kept_refl|done]|].
  destruct (negb (m_started r) || m_stopping r); [split; [apply flags_kept_refl|done]|]. by apply registerWatch_kept.
Qed.

Lemma unwatch_kept c r : table_ok r -> flags_kept (objects r) (objects (snd (unwatch c r))) /\ table_ok (snd (unwatch c r)).
Proof.
  intros Ht. unfold unwatch, removeWatch. destruct (m_watches r !! c) as [a|] eqn:E; cbn; [|split; [apply flags_kept_refl|done]].
  assert (Hd : table_ok (set_table (delete c (m_watches r)) (objects r) r)).
  { intros c' a' H. cbn in H. apply lookup_delete_Some in H as [_ H]. cbn. by apply Ht. }
  destruct (objects r !! a) as [o|]; cbn; [|split; [apply flags_kept_refl|done]].
  destruct (socket o <? 0); [split; [apply flags_kept_refl|done]|].
  destruct (epoll_ctl EPOLL_CTL_DEL (socket o) 0 c (m_epoll r)) as [[e|] k]; cbn; (split; [apply flags_kept_refl|done]).
Qed.

Definition moves_thread (e : event) : bool := match e with Move _ _ => true | _ => false end.

Lemma quiet_step w e w' : table_ok (reactor w) -> step w e = Some w' -> moves_thread e = false ->
  quiet w w' /\ table_ok (reactor w') /\ m_workers w' = m_workers w.
Proof.
  intros Ht H Hm. destruct e as [c|c|i throws|c s i|c i|c|]; [| |done| | | |]; cbn in H.
  - unfold schedule in H. injection H as <-. destruct (emplace_spec c (reactor w) Ht) as (o & Ho & _ & Hk & Ht' & _ & _).
    unfold findOrCreateWatch. destruct (emplace c (reactor w)) as [[a ins] r]. cbn in *. split; [|done]. split; [exact Hk|].
    right. exists a. split; [done|]. by eapply lookup_lt_Some.
  - unfold poll in H. injection H as <-. destruct (findWatch c (reactor w)) as [a|] eqn:E; [|split; [split; [apply flags_kept_refl|by left]|done]].
    destruct (Ht c a E) as (o & Ho & _). split; [|done]. split; [apply flags_kept_refl|]. right. exists a. split; [done|]. by eapply lookup_lt_Some.
  - injection H as <-. destruct (watch_kept c s i (reactor w) Ht). split; [|done]. split; [done|by left].
  - injection H as <-. destruct (updateWatch_kept c i (reactor w) Ht). split; [|done]. split; [done|by left].
  - injection H as <-. destruct (unwatch_kept c (reactor w) Ht). split; [|done]. split; [done|by left].
  - injection H as <-. split; [|done]. split; [apply flags_kept_refl|by left].
Qed.

Lemma move_inv i throws w w' : move i throws w = Some w' -> exists t o o' p,
  threads w !! i = Some t /\ objects (reactor w) !! at_watch t = Some o
  /\ flag_step (at_pc t) (active w <? m_workers w)%nat throws o = Some (o', p)
  /\ threads w' = <[i := mkThread (at_watch t) p]> (threads w) /\ objects (reactor w') = <[at_watch t := o']> (objects (reactor w))
  /\ m_watches (reactor w') = m_watches (reactor w) /\ connection o' = connection o /\ m_workers w' = m_workers w.
Proof.
  unfold move. intros H. destruct (threads w !! i) as [t|] eqn:Ht; [|done]. cbn in H. destruct (objects (reactor w) !! at_watch t) as [o|] eqn:Ho; [|done].
  cbn in H. destruct (flag_step _ _ _ o) as [[o' p]|] eqn:E; [|done]. cbn in H. injection H as <-.
  exists t, o, o', p. split; [done|]. split; [done|]. split; [done|]. cbn. split; [done|]. split; [done|]. split; [done|]. split; [|done].
  destruct (at_pc t); cbn in E; repeat case_match; simplify_eq; done.
Qed.

Lemma move_table i throws w w' : table_ok (reactor w) -> move i throws w = Some w' -> table_ok (reactor w').
Proof.
  intros Ht H. apply move_inv in H as (t & o & o' & p & _ & Ho & _ & _ & Hob & Hw & Hc & _). intros c a Ha. rewrite Hw in Ha.
  destruct (Ht c a Ha) as (x & Hx & Hcx). rewrite Hob. destruct (decide (at_watch t = a)) as [<-|Hne].
  - exists o'. split; [by apply list_lookup_insert_eq; eapply lookup_lt_Some|]. congruence.
  - exists x. by rewrite list_lookup_insert_ne.
Qed.

Lemma holders_move a i t p w w' : threads w !! i = Some t -> threads w' = <[i := mkThread (at_watch t) p]> (threads w) ->
  (holders a w' + Nat.b2n (on a holds t) = holders a w + Nat.b2n (on a holds (mkThread (at_watch t) p)))%nat.
Proof. intros Ht Hw. unfold holders. rewrite Hw. by apply countb_insert. Qed.

Lemma owned_step w e w' : table_ok (reactor w) -> owned w -> step w e = Some w' -> owned w'.
Proof.
  intros Hok [Hall Hown] H. destruct (moves_thread e) eqn:Em.
  - destruct e as [| |i throws| | | |]; try done. apply move_inv in H as (t & o & o' & p & Ht & Ho & Hs & Hth & Hob & _ & _ & _). split.
    + rewrite Hth, Hob. rewrite length_insert. apply Forall_insert; [done|]. cbn. by eapply lookup_lt_Some.
    + intros a x Hx. rewrite Hob in Hx. assert (Hm := holders_move a i t p w w' Ht Hth). unfold on in Hm. cbn in Hm.
      destruct (decide (a = at_watch t)) as [->|Hne].
      * rewrite list_lookup_insert_eq in Hx by by eapply lookup_lt_Some. injection Hx as <-. specialize (Hown _ o Ho).
        rewrite Nat.eqb_refl in Hm. cbn in Hm. destruct (at_pc t) eqn:Ep; cbn in Hs; repeat case_match; simplify_eq; cbn in *;
          rewrite ?Hown in Hm; repeat match goal with E : scheduled _ = _ |- _ => rewrite ?E in * end; cbn in *; try (destruct (scheduled o); cbn in *; lia); lia.
      * rewrite list_lookup_insert_ne in Hx by done. replace (at_watch t =? a)%nat with false in Hm by (symmetry; by apply Nat.eqb_neq).
        cbn in Hm. rewrite <- (Hown a x Hx). lia.
  - destruct (quiet_step w e w' Hok H Em) as ([[Hl Hf] Hth] & _ & _). split.
    + destruct Hth as [->|(a & -> & Ha)]; [|apply Forall_app; split; [|by repeat constructor]]; (eapply Forall_impl; [exact Hall|cbn; lia]).
    + intros a x Hx. assert (Hh : holders a w' = holders a w).
      { unfold holders. destruct Hth as [->|(b & -> & _)]; [done|]. rewrite countb_app, countb_asking by done. lia. }
      rewrite Hh. destruct (Hf a x Hx) as [(o & Ho & -> & _)|(Hla & -> & _)]; [by apply Hown|]. cbn.
      destruct (holders a w) as [|n] eqn:E; [done|exfalso]. assert (Hpos : (0 < holders a w)%nat) by lia. apply countb_pos in Hpos as (i & t & Ht & Hon).
      unfold on in Hon. apply andb_true_iff in Hon as [Ha _]. apply Nat.eqb_eq in Ha. rewrite Forall_forall in Hall.
      specialize (Hall t ltac:(by eapply list_elem_of_lookup_2)). lia.
Qed.

Lemma owned_make workers k : owned (World_make workers k) /\ table_ok (reactor (World_make workers k)).
Proof. split; [split; [constructor|]|]; [intros a o H|intros c a H]; done. Qed.

(** ** No request is lost *)

Definition some_at (a : nat) (f : pc -> bool) (w : World) : Prop := (0 < countb (on a f) (threads w))%nat.

Lemma some_at_ex a f w : some_at a f w <-> exists i t, threads w !! i = Some t /\ at_watch t = a /\ f (at_pc t) = true.
Proof.
  unfold some_at. rewrite countb_pos. unfold on. split; intros (i & t & Hi & H).
  - apply andb_true_iff in H as [H1 H2]. apply Nat.eqb_eq in H1. eauto 6.
  - destruct H as [<- H]. exists i, t. by rewrite Nat.eqb_refl.
Qed.

Definition is_pc (q p : pc) : bool := bool_decide (p = q).

(** Who answers a request of the watch [a] with its flag [pending]. *)
Definition answered (a : nat) (b : bool) (w : World) : Prop :=
  some_at a early w \/ some_at a dead w
  \/ (b = true /\ (some_at a late w \/ some_at a (is_pc Rechecking) w \/ some_at a (is_pc Scheduling) w))
  \/ (some_at a (is_pc Retaking) w /\ ~ some_at a late w).

Definition served (w : World) (g : gset nat) : Prop := forall a, a ∈ g -> exists o, objects (reactor w) !! a = Some o /\ answered a (pending o) w.

Lemma some_at_app a f w w' b : threads w' = threads w ++ [mkThread b Requesting] -> f Requesting = false ->
  some_at a f w' <-> some_at a f w.
Proof. intros H Hf. unfold some_at. by rewrite H, countb_app, countb_asking, Nat.add_0_r. Qed.

Lemma some_at_move a f i t p w w' : threads w !! i = Some t -> threads w' = <[i := mkThread (at_watch t) p]> (threads w) ->
  (some_at a f w' -> some_at a f w \/ (at_watch t = a /\ f p = true))
  /\ (some_at a f w -> some_at a f w' \/ (at_watch t = a /\ f (at_pc t) = true))
  /\ (at_watch t = a -> f p = true -> some_at a f w').
Proof.
  intros Ht Hw. unfold some_at. rewrite Hw. assert (H := countb_insert (on a f) (threads w) i t (mkThread (at_watch t) p) Ht).
  unfold on in *. cbn in *. split; [|split].
  - intros Hp. destruct (at_watch t =? a)%nat eqn:E; cbn in *; [|left; lia]. apply Nat.eqb_eq in E. destruct (f p); [by right|left]. cbn in H. lia.
  - intros Hp. destruct (at_watch t =? a)%nat eqn:E; cbn in *; [|left; lia]. apply Nat.eqb_eq in E. destruct (f (at_pc t)); [by right|left]. cbn in H. lia.
  - intros <- Hp. rewrite Nat.eqb_refl, Hp in H. cbn in H. destruct (f (at_pc t)); cbn in H; [|lia].
    apply countb_pos. exists i, (mkThread (at_watch t) p). split; [by apply list_lookup_insert_eq; eapply lookup_lt_Some|]. cbn. by rewrite Nat.eqb_refl, Hp.
Qed.

(** A second owner there is not. *)
Lemma one_holder a w i j t t' o : owned w -> objects (reactor w) !! a = Some o -> threads w !! i = Some t -> threads w !! j = Some t' ->
  at_watch t = a -> at_watch t' = a -> holds (at_pc t) = true -> holds (at_pc t') = true -> i = j.
Proof.
  intros [_ Hown] Ho Hi Hj Ha Ha' Hh Hh'. eapply (countb_le1_unique (on a holds) (threads w)); [|exact Hi|exact Hj|..].
  - fold (holders a w). rewrite (Hown a o Ho). destruct (scheduled o); cbn; lia.
  - unfold on. by rewrite Ha, Nat.eqb_refl, Hh.
  - unfold on. by rewrite Ha', Nat.eqb_refl, Hh'.
Qed.

Lemma holder_of_scheduled a w o : owned w -> objects (reactor w) !! a = Some o -> scheduled o = true ->
  some_at a early w \/ some_at a late w \/ some_at a dead w.
Proof.
  intros [_ Hown] Ho Hs. specialize (Hown a o Ho). rewrite Hs in Hown. cbn in Hown.
  assert (H : (0 < holders a w)%nat) by lia. apply countb_pos in H as (i & t & Hi & Hon). unfold on in Hon.
  apply andb_true_iff in Hon as [Ha Hh]. apply Nat.eqb_eq in Ha. unfold holds in Hh. rewrite !orb_true_iff in Hh.
  destruct Hh as [[Hh|Hh]|Hh]; [left|right; left|right; right]; apply some_at_ex; eauto.
Qed.

(** While one thread is the owner, the other places of owners are empty. *)
Lemma holder_excludes a w i t o f : owned w -> objects (reactor w) !! a = Some o -> threads w !! i = Some t -> at_watch t = a ->
  holds (at_pc t) = true -> (forall p, f p = true -> holds p = true) -> f (at_pc t) = false -> ~ some_at a f w.
Proof.
  intros Hown Ho Hi Ha Hh Hf Hn H. apply some_at_ex in H as (j & t' & Hj & Ha' & Hf'). 
  assert (i = j) as <- by exact (one_holder a w i j t t' o Hown Ho Hi Hj Ha Ha' Hh (Hf _ Hf')). rewrite Hi in Hj. injection Hj as <-. congruence.
Qed.

Lemma early_holds p : early p = true -> holds p = true.
Proof. by destruct p. Qed.
Lemma late_holds p : late p = true -> holds p = true.
Proof. by destruct p. Qed.
Lemma dead_holds p : dead p = true -> holds p = true.
Proof. by destruct p. Qed.

Lemma answered_quiet w w' a o o' : quiet w w' -> objects (reactor w) !! a = Some o -> objects (reactor w') !! a = Some o' ->
  pending o' = pending o -> answered a (pending o) w -> answered a (pending o') w'.
Proof.
  intros [_ Hth] Ho Ho' Hp Ha. rewrite Hp. destruct Hth as [Heq|(b & Heq & _)].
  - unfold answered, some_at in *. by rewrite Heq.
  - assert (Hs : forall f, f Requesting = false -> some_at a f w' <-> some_at a f w) by (intros f; by apply some_at_app with b).
    unfold answered in *. by rewrite !Hs by done.
Qed.

Lemma served_quiet w e w' g : table_ok (reactor w) -> served w g -> step w e = Some w' -> moves_thread e = false -> served w' (owe w e g).
Proof.
  intros Hok Hs H Hm a Ha. replace (owe w e g) with g in Ha by by destruct e. destruct (Hs a Ha) as (o & Ho & Hans).
  destruct (quiet_step w e w' Hok H Hm) as (Hq & _ & _). destruct Hq as [[Hl Hf] Hth] eqn:Eq. 
  destruct (lookup_lt_ex (objects (reactor w')) a) as [o' Ho']; [apply lookup_lt_Some in Ho; lia|].
  exists o'. split; [done|]. destruct (Hf a o' Ho') as [(x & Hx & _ & Hp & _)|(Hla & _)]; [|apply lookup_lt_Some in Ho; lia].
  rewrite Ho in Hx. injection Hx as <-. eapply (answered_quiet w w'); eauto.
Qed.

(** A move of a thread of one watch leaves the places of the others. *)
Lemma answered_elsewhere a i t p b w w' : threads w !! i = Some t -> threads w' = <[i := mkThread (at_watch t) p]> (threads w) ->
  at_watch t <> a -> answered a b w -> answered a b w'.
Proof.
  intros Ht Hth Hne. assert (Hs : forall f, some_at a f w' <-> some_at a f w).
  { intros f. destruct (some_at_move a f i t p w w' Ht Hth) as (H1 & H2 & _). split; [intros H; by destruct (H1 H) as [|[]]|intros H; by destruct (H2 H) as [|[]]]. }
  unfold answered. by rewrite !Hs.
Qed.

(** Which places may be left by a move from [p0] to [p]. *)
Lemma some_at_kept a f i t p w w' : threads w !! i = Some t -> threads w' = <[i := mkThread (at_watch t) p]> (threads w) ->
  f (at_pc t) = false \/ f p = true -> some_at a f w -> some_at a f w'.
Proof.
  intros Ht Hth Hf Hs. destruct (some_at_move a f i t p w w' Ht Hth) as (_ & H2 & H3). destruct (H2 Hs) as [|[Ha Hp]]; [done|].
  destruct Hf as [Hf|Hf]; [congruence|by apply H3].
Qed.

Lemma some_at_new a f i t p w w' : threads w !! i = Some t -> threads w' = <[i := mkThread (at_watch t) p]> (threads w) ->
  at_watch t = a -> f p = true -> some_at a f w'.
Proof. intros Ht Hth Ha Hf. by apply (some_at_move a f i t p w w' Ht Hth). Qed.

Lemma not_some_at_kept a f i t p w w' : threads w !! i = Some t -> threads w' = <[i := mkThread (at_watch t) p]> (threads w) ->
  f p = false -> ~ some_at a f w -> ~ some_at a f w'.
Proof. intros Ht Hth Hf Hn H. apply Hn. destruct (some_at_move a f i t p w w' Ht Hth) as (H1 & _ & _). destruct (H1 H) as [|[_ ?]]; [done|congruence]. Qed.

Section one_move.
Context (w w' : World) (i : nat) (t : Thread) (o o' : Watch) (p : pc).
Context (Hown : owned w) (Ht : threads w !! i = Some t) (Ho : objects (reactor w) !! at_watch t = Some o)
  (Hth : threads w' = <[i := mkThread (at_watch t) p]> (threads w)).
Notation a := (at_watch t).

Lemma answered_owner b : holds (at_pc t) = true -> early (at_pc t) = false -> dead (at_pc t) = false -> answered a b w -> b = true /\ late (at_pc t) = true.
Proof.
  intros Hh He Hd Hans. assert (Hl : late (at_pc t) = true) by (unfold holds in Hh; by rewrite He, Hd, orb_false_l, orb_false_r in Hh).
  destruct Hans as [H|[H|[[-> _]|[_ H]]]]; [..|done|].
  - exfalso. revert H. eapply (holder_excludes a w i t o early); eauto using early_holds.
  - exfalso. revert H. eapply (holder_excludes a w i t o dead); eauto using dead_holds.
  - exfalso. apply H. apply some_at_ex. eauto.
Qed.

Lemma answered_move free throws : flag_step (at_pc t) free throws o = Some (o', p) -> at_pc t <> Before_pump ->
  (at_pc t = Rechecking -> pending o = true -> ~ some_at a late w) ->
  answered a (pending o) w \/ at_pc t = Requesting -> answered a (pending o') w'.
Proof.
  intros Hs Hbp Hst Hans. destruct (decide (at_pc t = Requesting)) as [Ep|Hnr].
  { rewrite Ep in Hs. cbn in Hs. injection Hs as <- <-. right. right. left. split; [done|]. right. right. by eapply some_at_new. }
  destruct Hans as [Hans|]; [|done].
  destruct (at_pc t) eqn:Ep; cbn in Hs; try done.
  - (* Scheduling *) injection Hs as <- Hp. cbn. destruct (scheduled o) eqn:Esch; subst p.
    + destruct (holder_of_scheduled a w o Hown Ho Esch) as [H|[H|H]].
      * left. eapply some_at_kept; [exact Ht|exact Hth|by left; rewrite Ep|done].
      * destruct Hans as [H'|[H'|[[Hb _]|[_ H']]]]; [..|done].
        -- left. eapply some_at_kept; [exact Ht|exact Hth|by left; rewrite Ep|done].
        -- right. left. eapply some_at_kept; [exact Ht|exact Hth|by left; rewrite Ep|done].
        -- right. right. left. split; [done|]. left. eapply some_at_kept; [exact Ht|exact Hth|by left; rewrite Ep|done].
      * right. left. eapply some_at_kept; [exact Ht|exact Hth|by left; rewrite Ep|done].
    + left. by eapply some_at_new.
  - (* Adding *) injection Hs as <- <-. left. by eapply some_at_new.
  - (* Queued *) destruct free; [|done]. injection Hs as <- <-. left. by eapply some_at_new.
  - (* Looping *) injection Hs as <- <-. left. by eapply some_at_new.
  - (* Pumping *) injection Hs as <- Hp. destruct throws; subst p; [right; left; by eapply some_at_new|].
    destruct (answered_owner (pending o)) as [Hb _]; [by rewrite Ep..|done|]. rewrite Hb. right. right. left. split; [done|]. left. by eapply some_at_new.
  - (* After_pump *) destruct (answered_owner (pending o)) as [Hb _]; [by rewrite Ep..|done|]. rewrite Hb in Hs. injection Hs as <- <-.
    left. by eapply some_at_new.
  - (* Releasing *) injection Hs as <- <-. destruct (answered_owner (pending o)) as [Hb _]; [by rewrite Ep..|done|]. cbn. rewrite Hb.
    right. right. left. split; [done|]. right. left. by eapply some_at_new.
  - (* Rechecking *) injection Hs as <- Hp. cbn. destruct (pending o) eqn:Eb; subst p.
    + right. right. right. split; [by eapply some_at_new|]. eapply not_some_at_kept; [exact Ht|exact Hth|done|by apply Hst].
    + destruct Hans as [H|[H|[[Hb _]|[H Hl]]]]; [..|done|].
      * left. eapply some_at_kept; [exact Ht|exact Hth|by left; rewrite Ep|done].
      * right. left. eapply some_at_kept; [exact Ht|exact Hth|by left; rewrite Ep|done].
      * right. right. right. split; [eapply some_at_kept; [exact Ht|exact Hth|by left; rewrite Ep|done]|]. by eapply not_some_at_kept.
  - (* Retaking *) injection Hs as <- Hp. cbn. destruct (scheduled o) eqn:Esch; subst p; [|left; by eapply some_at_new].
    destruct (holder_of_scheduled a w o Hown Ho Esch) as [H|[H|H]].
    + left. eapply some_at_kept; [exact Ht|exact Hth|by left; rewrite Ep|done].
    + destruct Hans as [H'|[H'|[[Hb _]|[_ H']]]]; [..|done].
      * left. eapply some_at_kept; [exact Ht|exact Hth|by left; rewrite Ep|done].
      * right. left. eapply some_at_kept; [exact Ht|exact Hth|by left; rewrite Ep|done].
      * right. right. left. split; [done|]. left. eapply some_at_kept; [exact Ht|exact Hth|by left; rewrite Ep|done].
    + right. left. eapply some_at_kept; [exact Ht|exact Hth|by left; rewrite Ep|done].
Qed.
End one_move.

Lemma steals_late w i throws t : steals w (Move i throws) = false -> threads w !! i = Some t -> at_pc t = Rechecking -> ~ some_at (at_watch t) late w.
Proof.
  unfold steals. intros H Ht Hp. rewrite Ht, Hp in H. cbn in H. intros Hl. apply some_at_ex in Hl as (j & t' & Hj & Ha & Hf).
  apply not_true_iff_false in H. apply H. apply existsb_exists. exists t'. split; [by apply list_elem_of_In, list_elem_of_lookup_2 with j|].
  unfold on. by rewrite Ha, Nat.eqb_refl.
Qed.

Lemma served_step w e w' g : table_ok (reactor w) -> owned w -> served w g -> steals w e = false -> step w e = Some w' -> served w' (owe w e g).
Proof.
  intros Hok Hown Hs Hst H. destruct (moves_thread e) eqn:Em; [|by eapply served_quiet].
  destruct e as [| |i throws| | | |]; try done. assert (Hmv := H). cbn [step] in Hmv. apply move_inv in Hmv as (t & o & o' & p & Ht & Ho & Hfs & Hth & Hob & _ & _ & _).
  intros a Ha. cbn [owe] in Ha. rewrite Ht in Ha. destruct (decide (at_watch t = a)) as [<-|Hne].
  - exists o'. split; [rewrite Hob; by apply list_lookup_insert_eq; eapply lookup_lt_Some|].
    eapply (answered_move w w' i t o o' p Hown Ht Ho Hth); [exact Hfs|..].
    + intros Ep. rewrite Ep in Ha. set_solver.
    + intros Ep _. by eapply steals_late.
    + destruct (decide (at_pc t = Requesting)) as [|Hnr]; [by right|left].
      assert (Hg : at_watch t ∈ g) by (destruct (at_pc t); set_solver). destruct (Hs _ Hg) as (x & Hx & Hans). rewrite Ho in Hx. by injection Hx as <-.
  - assert (Hg : a ∈ g) by (destruct (at_pc t); set_solver). destruct (Hs a Hg) as (x & Hx & Hans). exists x.
    split; [rewrite Hob; by rewrite list_lookup_insert_ne|]. by eapply answered_elsewhere.
Qed.

Definition invariant (w : World) : Prop := table_ok (reactor w) /\ owned w.

Lemma invariant_step w e w' : invariant w -> step w e = Some w' -> invariant w' /\ m_workers w' = m_workers w.
Proof.
  intros [Hok Hown] H. assert (Hw := owned_step w e w' Hok Hown H). destruct (moves_thread e) eqn:Em.
  - destruct e as [| |i throws| | | |]; try done. assert (H' := H). apply move_inv in H' as (_ & _ & _ & _ & _ & _ & _ & _ & _ & _ & _ & Hm).
    split; [|done]. split; [by eapply move_table|done].
  - destruct (quiet_step w e w' Hok H Em) as (_ & Hok' & Hm). done.
Qed.

Lemma invariant_run es : forall w w', invariant w -> run_events w es = Some w' -> invariant w' /\ m_workers w' = m_workers w.
Proof.
  induction es as [|e es IH]; intros w w' Hi H; cbn in H; [by injection H as <-|].
  destruct (step w e) as [w1|] eqn:E; [|done]. cbn in H. destruct (invariant_step w e w1 Hi E) as [Hi1 Hm].
  destruct (IH w1 w' Hi1 H) as [Hi' Hm']. split; [done|congruence].
Qed.

Lemma invariant_make workers k : invariant (World_make workers k).
Proof. destruct (owned_make workers k). done. Qed.

Lemma served_run es : forall w w' g, invariant w -> served w g -> steal_free w es = true -> run_events w es = Some w' -> served w' (owed_after w es g).
Proof.
  induction es as [|e es IH]; intros w w' g Hi Hs Hf H; cbn in *; [by injection H as <-|].
  apply andb_true_iff in Hf as [Hst Hf]. apply negb_true_iff in Hst. destruct (step w e) as [w1|] eqn:E; [|done]. cbn in H.
  apply (IH w1); [by eapply invariant_step| |done..]. destruct Hi. by eapply served_step.
Qed.

(** With one worker no two tasks are on their way at once. *)
Lemma active_count w : active w = countb (fun t => working (at_pc t)) (threads w).
Proof. reflexivity. Qed.

Lemma active_step w e w' : table_ok (reactor w) -> step w e = Some w' -> (active w <= m_workers w)%nat -> (active w' <= m_workers w')%nat.
Proof.
  intros Hok H Ha. rewrite active_count in *. destruct (moves_thread e) eqn:Em.
  - destruct e as [| |i throws| | | |]; try done. apply move_inv in H as (t & o & o' & p & Ht & Ho & Hfs & Hth & _ & _ & _ & Hm).
    rewrite Hth, Hm. assert (Hc := countb_insert (fun t => working (at_pc t)) (threads w) i t (mkThread (at_watch t) p) Ht). cbn in Hc.
    destruct (active w <? m_workers w)%nat eqn:Efr; [apply Nat.ltb_lt in Efr; rewrite active_count in Efr|];
      destruct (at_pc t) eqn:Ep; cbn in Hfs; repeat case_match; simplify_eq; cbn in Hc; lia.
  - destruct (quiet_step w e w' Hok H Em) as ([_ Hth] & _ & Hm). rewrite Hm. destruct Hth as [->|(a & -> & _)]; [done|]. rewrite countb_app. cbn. lia.
Qed.

Lemma one_worker_steals_not w e : (active w <= 1)%nat -> steals w e = false.
Proof.
  intros Ha. destruct e as [| |i throws| | | |]; try done. cbn. destruct (threads w !! i) as [t|] eqn:Ht; [|done].
  destruct (at_pc t) eqn:Ep; try done. cbn. apply not_true_iff_false. intros H. apply existsb_exists in H as (t' & Hin & Hon).
  apply list_elem_of_In, list_elem_of_lookup_1 in Hin as [j Hj]. unfold on in Hon. apply andb_true_iff in Hon as [_ Hl].
  rewrite active_count in Ha. assert (i = j) as <-; [|rewrite Ht in Hj; injection Hj as <-; by rewrite Ep in Hl].
  eapply (countb_le1_unique (fun t => working (at_pc t))); [exact Ha|exact Ht|exact Hj|by rewrite Ep|by destruct (at_pc t')].
Qed.

Lemma one_worker_steal_free es : forall w, invariant w -> (active w <= m_workers w)%nat -> (m_workers w <= 1)%nat -> steal_free w es = true.
Proof.
  induction es as [|e es IH]; intros w Hi Ha Hm; [done|]. cbn. rewrite one_worker_steals_not by lia. cbn.
  destruct (step w e) as [w1|] eqn:E; [|done]. destruct (invariant_step w e w1 Hi E) as [Hi1 Hm1].
  apply IH; [done| |lia]. eapply active_step; [apply Hi|exact E|done].
Qed.

(** The last thing a thread does. *)
Definition ended (p : pc) : bool := match p with Finished => true | _ => false end.

(** Whoever answers is alive, unless a pump has thrown. *)
Lemma answered_alive a b w : answered a b w ->
  (exists i t, threads w !! i = Some t /\ at_watch t = a /\ at_pc t = Failed)
  \/ exists i t, threads w !! i = Some t /\ at_watch t = a /\ at_pc t <> Finished /\ at_pc t <> Failed.
Proof.
  intros H. assert (Hs : some_at a dead w \/ exists f, some_at a f w /\ f Finished = false /\ f Failed = false).
  { destruct H as [H|[H|[[_ [H|[H|H]]]|[H _]]]]; [right|by left|right..]; by eexists. }
  destruct Hs as [Hd|(f & Hf & Hn & Hn')].
  - left. apply some_at_ex in Hd as (i & t & Hi & Ha & Hp). exists i, t. split; [done|]. split; [done|]. by destruct (at_pc t).
  - right. apply some_at_ex in Hf as (i & t & Hi & Ha & Hp). exists i, t. split; [done|]. split; [done|]. destruct (at_pc t); split; congruence.
Qed.

(** ** A failed pump *)

Lemma dead_stays w e w' a : invariant w -> step w e = Some w' -> some_at a dead w -> some_at a dead w'.
Proof.
  intros [Hok Hown] H Hd. destruct (moves_thread e) eqn:Em.
  - destruct e as [| |i throws| | | |]; try done. apply move_inv in H as (t & o & o' & p & Ht & Ho & Hfs & Hth & _).
    eapply some_at_kept; [exact Ht|exact Hth| |done]. left. by destruct (at_pc t).
  - destruct (quiet_step w e w' Hok H Em) as ([_ Hth] & _ & _). destruct Hth as [Heq|(b & Heq & _)]; [by unfold some_at in *; rewrite Heq|].
    by apply (some_at_app a dead w w' b).
Qed.

Lemma dead_run es a : forall w w', invariant w -> run_events w es = Some w' -> some_at a dead w -> some_at a dead w' /\ invariant w'.
Proof.
  induction es as [|e es IH]; intros w w' Hi H Hd; cbn in H; [by injection H as <-|].
  destruct (step w e) as [w1|] eqn:E; [|done]. cbn in H. apply (IH w1); [by eapply invariant_step|done|]. by eapply dead_stays.
Qed.

Lemma dead_alone a w : invariant w -> some_at a dead w -> ~ some_at a early w /\ ~ some_at a late w.
Proof.
  intros [Hok Hown] Hd. apply some_at_ex in Hd as (i & t & Hi & <- & Hp). destruct (lookup_lt_ex (objects (reactor w)) (at_watch t)) as [o Ho].
  { destruct Hown as [Hall _]. rewrite Forall_forall in Hall. apply Hall. by eapply list_elem_of_lookup_2. }
  split; (eapply (holder_excludes (at_watch t) w i t o); [done|done|done|done|by apply dead_holds| |by destruct (at_pc t)]).
  - apply early_holds.
  - apply late_holds.
Qed.

(** ** The threads come to an end *)

Definition weight (p : pc) : nat :=
  match p with
  | Requesting => 17 | Scheduling => 9 | Adding => 8 | Queued => 7
  | Retaking => 7 | Looping => 6 | Before_pump => 5 | Pumping => 4 | After_pump => 3 | Releasing => 2 | Rechecking => 1
  | Finished | Failed => 0
  end.

Fixpoint total {A} (f : A -> nat) (l : list A) : nat := match l with [] => 0 | x :: l => f x + total f l end.

Definition work (w : World) : nat :=
  (total (fun t => weight (at_pc t)) (threads w) + total (fun o => if pending o then 7 else 0)%nat (objects (reactor w)))%nat.

Lemma total_insert {A} (f : A -> nat) l i x y : l !! i = Some x -> (total f (<[i := y]> l) + f x = total f l + f y)%nat.
Proof.
  revert i. induction l as [|z l IH]; intros [|i] H; [done..| |].
  - injection H as ->. cbn. lia.
  - specialize (IH i H). change (<[S i := y]> (z :: l)) with (z :: <[i := y]> l). cbn [total]. lia.
Qed.

Lemma work_decreases w i throws w' : move i throws w = Some w' -> (work w' < work w)%nat.
Proof.
  intros H. apply move_inv in H as (t & o & o' & p & Ht & Ho & Hfs & Hth & Hob & _). unfold work. rewrite Hth, Hob.
  assert (H1 := total_insert (fun t => weight (at_pc t)) (threads w) i t (mkThread (at_watch t) p) Ht).
  assert (H2 := total_insert (fun o => if pending o then 7 else 0)%nat (objects (reactor w)) _ o o' Ho). cbn in H1.
  destruct (pending o) eqn:Epd; destruct (at_pc t) eqn:Ep; cbn in Hfs; repeat case_match; simplify_eq; cbn in H1, H2; repeat match goal with E : pending o = _ |- _ => rewrite E in H2; clear E end; lia.
Qed.

Lemma moves_bounded es : forall w w', Forall (fun e => moves_thread e = true) es -> run_events w es = Some w' -> (length es + work w' <= work w)%nat.
Proof.
  induction es as [|e es IH]; intros w w' Ha H; cbn in *; [by injection H as <-|]. inversion Ha as [|? ? He Ha']; subst.
  destruct (step w e) as [w1|] eqn:E; [|done]. cbn in H. specialize (IH w1 w' Ha' H).
  destruct e as [| |i throws| | | |]; try done. apply work_decreases in E. lia.
Qed.

(** A thread that has not ended moves, or waits for a worker that can. *)
Lemma some_move w : invariant w -> (0 < m_workers w)%nat -> (forall i throws, move i throws w = None) ->
  Forall (fun t => at_pc t = Finished \/ at_pc t = Failed) (threads w).
Proof.
  intros [Hok [Hall _]] Hm Hn.
  assert (Hmv : forall i t, threads w !! i = Some t -> at_pc t = Finished \/ at_pc t = Failed \/ (at_pc t = Queued /\ (active w <? m_workers w)%nat = false)).
  { intros i t Hi. specialize (Hn i false). unfold move in Hn. rewrite Hi in Hn. cbn -[Nat.ltb] in Hn. rewrite Forall_forall in Hall.
    destruct (lookup_lt_ex (objects (reactor w)) (at_watch t)) as [o Ho]; [apply Hall; by eapply list_elem_of_lookup_2|]. rewrite Ho in Hn. cbn -[Nat.ltb] in Hn.
    revert Hn. destruct (active w <? m_workers w)%nat; intros Hn; destruct (at_pc t); cbn -[Nat.ltb] in Hn; try done; auto. }
  assert (Ha : active w = 0%nat).
  { rewrite active_count. destruct (countb _ (threads w)) as [|n] eqn:E; [done|exfalso].
    assert (Hpos : (0 < countb (fun t => working (at_pc t)) (threads w))%nat) by lia. apply countb_pos in Hpos as (i & t & Hi & Hw).
    destruct (Hmv i t Hi) as [Hp|[Hp|[Hp _]]]; by rewrite Hp in Hw. }
  apply Forall_lookup. intros i t Hi. destruct (Hmv i t Hi) as [|[|[_ Hb]]]; [by left|by right|]. apply Nat.ltb_ge in Hb. lia.
Qed.

(** ** The kernel's registrations *)

(** What [epoll_ctl] is documented to do, on the registrations of a kernel. *)
Record EpollLaws (registered : Kernel -> gmap Z (Z * nat)) : Prop := {
  ctl_add k s ev c : registered k !! s = None ->
    exists k', epoll_ctl EPOLL_CTL_ADD s ev c k = (None, k') /\ registered k' = <[s := (ev, c)]> (registered k);
  ctl_mod k s ev c : is_Some (registered k !! s) ->
    exists k', epoll_ctl EPOLL_CTL_MOD s ev c k = (None, k') /\ registered k' = <[s := (ev, c)]> (registered k);
  ctl_del k s ev c : is_Some (registered k !! s) ->
    exists k', epoll_ctl EPOLL_CTL_DEL s ev c k = (None, k') /\ registered k' = delete s (registered k) }.

Section kernel.
Context (registered : Kernel -> gmap Z (Z * nat)) (laws : EpollLaws registered).
(** The socket of a connection stays the same while it is watched. *)
Context (socket_of : nat -> Z) (Hinj : Inj (=) (=) socket_of) (Hsock : forall c, 0 <= socket_of c).

(** The kernel knows the connections of the table that have a socket, with the
    interest their watch has. *)
Definition follows (r : DBReactor) : Prop := table_ok r /\
  (forall c a o, m_watches r !! c = Some a -> objects r !! a = Some o -> socket o = -1 \/ socket o = socket_of c)
  /\ forall s e, registered (m_epoll r) !! s = Some e <->
    exists c a o, m_watches r !! c = Some a /\ objects r !! a = Some o /\ socket o = s /\ 0 <= s /\ e = (epollEvents (interest o), c).

Definition keeps_its_socket (e : event) : bool := match e with Watch_socket c s _ => s =? socket_of c | _ => true end.

Lemma follows_unregistered r c : follows r -> (forall a o, m_watches r !! c = Some a -> objects r !! a = Some o -> socket o = -1) ->
  registered (m_epoll r) !! socket_of c = None.
Proof.
  intros (Ht & Hs & Hk) Hc. apply eq_None_not_Some. intros [e He]. apply Hk in He as (c' & a & o & Ha & Ho & He & Hp & _).
  destruct (Hs c' a o Ha Ho) as [H|H]; [lia|]. rewrite H in He. apply Hinj in He as ->. specialize (Hc a o Ha Ho). lia.
Qed.

(** A change of the one watch of [c], and of the kernel's entry with it. *)
Lemma follows_update r c a o k i : follows r -> m_watches r !! c = Some a -> objects r !! a = Some o ->
  registered k = <[socket_of c := (epollEvents i, c)]> (registered (m_epoll r)) ->
  follows (set_epoll k (set_objects (<[a := set_socket (socket_of c) i o]> (objects r)) r)).
Proof.
  intros (Ht & Hs & Hk) Ha Ho Hr. assert (Hlt := lookup_lt_Some _ _ _ Ho).
  assert (Hsame : forall c', m_watches r !! c' = Some a -> c' = c).
  { intros c' H. destruct (Ht c' a H) as (x & Hx & Hc). destruct (Ht c a Ha) as (y & Hy & Hc'). congruence. }
  split; [apply table_ok_epoll; by apply table_ok_set|]. split.
  - intros c' b x Hb Hx. cbn in Hb, Hx. destruct (decide (a = b)) as [<-|Hne].
    + rewrite list_lookup_insert_eq in Hx by done. injection Hx as <-. right. cbn. by rewrite (Hsame c' Hb).
    + rewrite list_lookup_insert_ne in Hx by done. by apply Hs with b.
  - intros s e. cbn. rewrite Hr. destruct (decide (socket_of c = s)) as [<-|Hne].
    + rewrite lookup_insert_eq. split.
      * intros [= <-]. exists c, a, (set_socket (socket_of c) i o). by rewrite list_lookup_insert_eq.
      * intros (c' & b & x & Hb & Hx & Hxs & _ & ->). destruct (decide (a = b)) as [<-|Hneb].
        -- rewrite list_lookup_insert_eq in Hx by done. injection Hx as <-. by rewrite (Hsame c' Hb).
        -- rewrite list_lookup_insert_ne in Hx by done. destruct (Hs c' b x Hb Hx) as [H|H]; [assert (Hc := Hsock c); lia|].
           rewrite H in Hxs. apply Hinj in Hxs as ->. congruence.
    + rewrite lookup_insert_ne by done. rewrite Hk. split; intros (c' & b & x & Hb & Hx & Hxs & Hp & He).
      * exists c', b, x. destruct (decide (a = b)) as [<-|Hneb].
        -- exfalso. rewrite Ho in Hx. injection Hx as <-. rewrite (Hsame c' Hb) in *. destruct (Hs c a o Ha Ho); [lia|congruence].
        -- by rewrite list_lookup_insert_ne.
      * destruct (decide (a = b)) as [<-|Hneb].
        -- rewrite list_lookup_insert_eq in Hx by done. injection Hx as <-. by cbn in Hxs.
        -- rewrite list_lookup_insert_ne in Hx by done. by exists c', b, x.
Qed.

Lemma follows_emplace c r : follows r -> follows (snd (emplace c r)).
Proof.
  intros (Ht & Hs & Hk). assert (H := emplace_spec c r Ht). unfold emplace in *. destruct (m_watches r !! c) as [a|] eqn:E; cbn in *; [done|].
  destruct H as (_ & _ & _ & _ & Ht' & _ & _). split; [exact Ht'|].
  assert (Hold : forall c' b, m_watches r !! c' = Some b -> (b < length (objects r))%nat).
  { intros c' b Hb. destruct (Ht c' b Hb) as (x & Hx & _). by eapply lookup_lt_Some. }
  split.
  - intros c' b x Hb Hx. cbn in Hb, Hx. destruct (decide (c' = c)) as [->|Hne].
    + rewrite lookup_insert_eq in Hb. injection Hb as <-. rewrite list_lookup_middle in Hx by done. injection Hx as <-. by left.
    + rewrite lookup_insert_ne in Hb by done. rewrite lookup_app_l in Hx by by eapply Hold. by apply Hs with b.
  - intros s e. cbn. rewrite Hk. split; intros (c' & b & x & Hb & Hx & Hxs & Hp & He).
    + exists c', b, x. rewrite lookup_insert_ne by congruence. split; [done|]. by rewrite lookup_app_l by by eapply Hold.
    + destruct (decide (c' = c)) as [->|Hne].
      * rewrite lookup_insert_eq in Hb. injection Hb as <-. rewrite list_lookup_middle in Hx by done. injection Hx as <-. cbn in Hxs. lia.
      * rewrite lookup_insert_ne in Hb by done. rewrite lookup_app_l in Hx by by eapply Hold. by exists c', b, x.
Qed.

Lemma follows_running b b' r : follows r -> follows (mkReactor (m_watches r) (objects r) b b' (m_epoll r)).
Proof. done. Qed.

Lemma registerWatch_follows c i r : follows r -> exists r', registerWatch c (socket_of c) i r = (Ok tt, r') /\ follows r'.
Proof.
  intros Hf. assert (Hok : table_ok r) by apply Hf. destruct (emplace_spec c r Hok) as (o & Ho & Hc & _ & _ & Hw & _).
  assert (Hf' := follows_emplace c r Hf). unfold registerWatch.
  assert (Hins : fst (fst (emplace c r)) = fst (fst (emplace c r)) /\ (snd (fst (emplace c r)) = true -> socket o = -1)).
  { split; [done|]. unfold emplace in *. destruct (m_watches r !! c); cbn in *; [done|]. intros _. rewrite list_lookup_middle in Ho by done. by injection Ho as <-. }
  destruct (emplace c r) as [[a ins] r1]. cbn in *. rewrite Ho. destruct Hins as [_ Hins].
  assert (Hsc : socket o = -1 \/ socket o = socket_of c) by (eapply Hf'; eauto). assert (Hp := Hsock c).
  assert (Hneg : (0 <=? socket o) && negb (socket o =? socket_of c) = false).
  { destruct Hsc as [->| ->]; [done|]. by rewrite Z.eqb_refl, andb_false_r. }
  rewrite Hneg. unfold epollControl. cbn. rewrite Hc. destruct (decide (socket o = -1)) as [Hu|Hu].
  - assert (Hadd : ins || (socket o <? 0) = true) by (rewrite Hu; cbn; apply orb_true_r). rewrite Hadd.
    destruct (ctl_add registered laws (m_epoll r1) (socket_of c) (epollEvents i) c) as (k' & Hk & Hr).
    { apply follows_unregistered; [done|]. intros a' o' Ha' Ho'. congruence. }
    rewrite Hk. eexists. split; [done|]. by apply follows_update.
  - destruct Hsc as [|Hsc]; [done|]. assert (Hadd : ins || (socket o <? 0) = false).
    { destruct ins; [by specialize (Hins eq_refl)|]. cbn. apply Z.ltb_ge. lia. }
    rewrite Hadd. destruct (ctl_mod registered laws (m_epoll r1) (socket_of c) (epollEvents i) c) as (k' & Hk & Hr).
    { destruct Hf' as (_ & _ & Hkk). eexists. apply Hkk. exists c, a, o. split; [done|]. split; [done|]. split; [done|]. split; [lia|reflexivity]. }
    rewrite Hk. eexists. split; [done|]. by apply follows_update.
Qed.

Lemma updateWatch_follows c i r : follows r ->
  (exists r', updateWatch c i r = (Ok tt, r') /\ follows r')
  \/ (updateWatch c i r = (Throw (logic_error "Rearming an unwatched database connection"), r)
      /\ forall a o, m_watches r !! c = Some a -> objects r !! a = Some o -> socket o = -1).
Proof.
  intros Hf. assert (Hf0 := Hf). destruct Hf0 as (Ht & Hs & Hk). unfold updateWatch. destruct (m_watches r !! c) as [a|] eqn:Ha; [|by right].
  destruct (Ht c a Ha) as (o & Ho & Hc). cbn. rewrite Ho. cbn. destruct (Hs c a o Ha Ho) as [Hu|Hu].
  - right. rewrite Hu. cbn. split; [done|]. intros ? o' [= <-] Ho'. congruence.
  - left. assert (Hp := Hsock c). assert (Hneg : (socket o <? 0) = false) by (apply Z.ltb_ge; lia). rewrite Hneg. unfold epollControl. cbn.
    rewrite Hu, Hc. destruct (ctl_mod registered laws (m_epoll r) (socket_of c) (epollEvents i) c) as (k' & Hk' & Hr).
    { eexists. apply Hk. exists c, a, o. split; [done|]. split; [done|]. split; [done|]. split; [lia|reflexivity]. }
    rewrite Hk'. eexists. split; [done|]. by apply follows_update.
Qed.

Lemma unwatch_follows c r : follows r -> exists r', unwatch c r = (Ok tt, r') /\ follows r' /\ registered (m_epoll r') !! socket_of c = None.
Proof.
  intros Hf. assert (Hf0 := Hf). destruct Hf0 as (Ht & Hs & Hk). unfold unwatch, removeWatch. destruct (m_watches r !! c) as [a|] eqn:Ha; cbn.
  2:{ eexists. split; [done|]. split; [done|]. apply follows_unregistered; [done|]. intros a o. by rewrite Ha. }
  destruct (Ht c a Ha) as (o & Ho & Hc). rewrite Ho. cbn.
  assert (Ht' : table_ok (set_table (delete c (m_watches r)) (objects r) r)).
  { intros c' a' H. cbn in H. apply lookup_delete_Some in H as [_ H]. by apply Ht. }
  assert (Hs' : forall k c' b x, m_watches (set_epoll k (set_table (delete c (m_watches r)) (objects r) r)) !! c' = Some b -> objects r !! b = Some x -> socket x = -1 \/ socket x = socket_of c').
  { intros k c' b x Hb Hx. cbn in Hb. apply lookup_delete_Some in Hb as [_ Hb]. by apply Hs with b. }
  destruct (Hs c a o Ha Ho) as [Hu|Hu].
  - rewrite Hu. cbn. eexists. split; [done|].
    assert (Hn : registered (m_epoll r) !! socket_of c = None) by (apply follows_unregistered; [done|]; intros ? o' Hx Ho'; rewrite Ha in Hx; injection Hx as <-; congruence).
    split; [|done]. split; [done|]. split; [exact (Hs' (m_epoll r))|]. intros s e. cbn. rewrite Hk. split; intros (c' & b & x & Hb & Hx & Hxs & Hp & He).
    + exists c', b, x. rewrite lookup_delete_ne; [done|]. intros <-. rewrite Ha in Hb. injection Hb as <-. rewrite Ho in Hx. injection Hx as <-. lia.
    + apply lookup_delete_Some in Hb as [_ Hb]. by exists c', b, x.
  - assert (Hp := Hsock c). assert (Hneg : (socket o <? 0) = false) by (apply Z.ltb_ge; lia). rewrite Hneg, Hu.
    destruct (ctl_del registered laws (m_epoll r) (socket_of c) 0 c) as (k' & Hk' & Hr).
    { eexists. apply Hk. exists c, a, o. split; [done|]. split; [done|]. split; [done|]. split; [lia|reflexivity]. }
    rewrite Hk'. cbn. eexists. split; [done|]. split; [|cbn; by rewrite Hr, lookup_delete_eq]. split; [exact Ht'|]. split; [exact (Hs' k')|].
    intros s e. cbn. rewrite Hr, lookup_delete_Some, Hk. split.
    + intros [Hne (c' & b & x & Hb & Hx & Hxs & H)]. exists c', b, x. rewrite lookup_delete_ne; [done|]. intros <-. rewrite Ha in Hb. injection Hb as <-. congruence.
    + intros (c' & b & x & Hb & Hx & Hxs & H). apply lookup_delete_Some in Hb as [Hne Hb]. split; [|by exists c', b, x].
      intros <-. destruct (Hs c' b x Hb Hx) as [H'|H']; [lia|]. rewrite H' in Hxs. apply Hinj in Hxs. congruence.
Qed.

Lemma follows_flags r a o o' : follows r -> objects r !! a = Some o -> connection o' = connection o -> socket o' = socket o -> interest o' = interest o ->
  follows (set_objects (<[a := o']> (objects r)) r).
Proof.
  intros (Ht & Hs & Hk) Ho Hc Hso Hi. assert (Hlt := lookup_lt_Some _ _ _ Ho).
  assert (Hl : forall b x, <[a := o']> (objects r) !! b = Some x -> exists y, objects r !! b = Some y /\ connection x = connection y /\ socket x = socket y /\ interest x = interest y).
  { intros b x Hx. destruct (decide (a = b)) as [<-|Hne].
    - rewrite list_lookup_insert_eq in Hx by done. injection Hx as <-. by exists o.
    - rewrite list_lookup_insert_ne in Hx by done. by exists x. }
  assert (Hl' : forall b y, objects r !! b = Some y -> exists x, <[a := o']> (objects r) !! b = Some x /\ connection x = connection y /\ socket x = socket y /\ interest x = interest y).
  { intros b y Hy. destruct (decide (a = b)) as [<-|Hne].
    - rewrite list_lookup_insert_eq by done. rewrite Ho in Hy. injection Hy as <-. by exists o'.
    - rewrite list_lookup_insert_ne by done. by exists y. }
  split; [|split].
  - intros c b Hb. destruct (Ht c b Hb) as (y & Hy & Hcy). destruct (Hl' b y Hy) as (x & Hx & H1 & _). exists x. split; [done|]. congruence.
  - intros c b x Hb Hx. destruct (Hl b x Hx) as (y & Hy & _ & -> & _). by apply Hs with b.
  - intros s e. cbn. rewrite Hk. split; intros (c & b & x & Hb & Hx & <- & Hp & ->).
    + destruct (Hl' b x Hx) as (y & Hy & _ & H2 & H3). exists c, b, y. split; [done|]. split; [done|]. split; [done|]. split; [done|]. by rewrite H3.
    + destruct (Hl b x Hx) as (y & Hy & _ & H2 & H3). exists c, b, y. split; [done|]. split; [done|]. split; [done|]. split; [done|]. by rewrite H3.
Qed.

Lemma follows_step w e w' : follows (reactor w) -> keeps_its_socket e = true -> step w e = Some w' -> follows (reactor w').
Proof.
  intros Hf He H. destruct e as [c|c|i throws|c s i|c i|c|]; cbn in H, He; [..|injection H as <-; by apply follows_running].
  - injection H as <-. unfold schedule, findOrCreateWatch. assert (H := follows_emplace c _ Hf). by destruct (emplace c (reactor w)) as [[a ins] r].
  - injection H as <-. unfold poll. by destruct (findWatch c (reactor w)).
  - unfold move in H. destruct (threads w !! i) as [t|]; [|done]. cbn in H. destruct (objects (reactor w) !! at_watch t) as [o|] eqn:Ho; [|done].
    cbn in H. destruct (flag_step _ _ _ o) as [[o' p]|] eqn:E; [|done]. cbn in H. injection H as <-. cbn. eapply follows_flags; [done|exact Ho|..];
      destruct (at_pc t); cbn in E; repeat case_match; simplify_eq; done.
  - injection H as <-. apply Z.eqb_eq in He as ->. cbn. unfold watch. destruct (socket_of c <? 0); [done|]. destruct (negb (m_started _) || m_stopping _); [done|].
    destruct (registerWatch_follows c i _ Hf) as (r' & -> & Hf'). done.
  - injection H as <-. cbn. unfold rearm. destruct (updateWatch_follows c i _ Hf) as [(r' & -> & Hf')|[-> _]]; done.
  - injection H as <-. cbn. destruct (unwatch_follows c _ Hf) as (r' & -> & Hf' & _). done.
Qed.

Lemma follows_run es : forall w w', follows (reactor w) -> forallb keeps_its_socket es = true -> run_events w es = Some w' -> follows (reactor w').
Proof.
  induction es as [|e es IH]; intros w w' Hf Hk H; cbn in *; [by injection H as <-|]. apply andb_true_iff in Hk as [Hk1 Hk2].
  destruct (step w e) as [w1|] eqn:E; [|done]. cbn in H. apply (IH w1); [|done..]. by eapply follows_step.
Qed.

Lemma follows_make workers k : registered k = ∅ -> follows (reactor (World_make workers k)).
Proof. intros Hk. split; [done|]. split; [done|]. intros s e. cbn. rewrite Hk. split; [done|]. intros (c & a & o & H & _). done. Qed.
End kernel.

(** A connection has one watch until it is unwatched. *)
Definition unwatches (e : event) : bool := match e with Unwatch _ => true | _ => false end.
Definition one_watch (r : DBReactor) : Prop := forall a o, objects r !! a = Some o -> m_watches r !! connection o = Some a.

Lemma one_watch_emplace c r : one_watch r -> one_watch (snd (emplace c r)).
Proof.
  intros Hw. unfold emplace. destruct (m_watches r !! c) as [b|] eqn:E; [done|]. intros a o H. cbn in *. apply lookup_app_Some in H as [H|[Hl H]].
  - rewrite lookup_insert_ne; [by apply Hw|]. intros Hc. specialize (Hw a o H). congruence.
  - apply list_lookup_singleton_Some in H as [Ha <-]. cbn. rewrite lookup_insert_eq. f_equal. lia.
Qed.

Lemma one_watch_flags r a o o' : one_watch r -> objects r !! a = Some o -> connection o' = connection o -> one_watch (set_objects (<[a := o']> (objects r)) r).
Proof.
  intros Hw Ho Hc b x Hx. cbn in *. destruct (decide (a = b)) as [<-|Hne].
  - rewrite list_lookup_insert_eq in Hx by by eapply lookup_lt_Some. injection Hx as <-. rewrite Hc. by apply Hw.
  - rewrite list_lookup_insert_ne in Hx by done. by apply Hw.
Qed.

Lemma one_watch_epoll op s ev c r : one_watch r -> one_watch (snd (epollControl op s ev c r)).
Proof. unfold epollControl. by destruct (epoll_ctl op s ev c (m_epoll r)) as [[e|] k]. Qed.

Lemma one_watch_step w e w' : one_watch (reactor w) -> unwatches e = false -> step w e = Some w' -> one_watch (reactor w').
Proof.
  intros Hw Hu H. destruct e as [c|c|i throws|c s i|c i|c|]; cbn in H; [| | | | |done|injection H as <-; done].
  - injection H as <-. unfold schedule, findOrCreateWatch. assert (H := one_watch_emplace c _ Hw). by destruct (emplace c (reactor w)) as [[a ins] r].
  - injection H as <-. unfold poll. by destruct (findWatch c (reactor w)).
  - unfold move in H. destruct (threads w !! i) as [t|]; [|done]. cbn in H. destruct (objects (reactor w) !! at_watch t) as [o|] eqn:Ho; [|done].
    cbn in H. destruct (flag_step _ _ _ o) as [[o' p]|] eqn:E; [|done]. cbn in H. injection H as <-. cbn. eapply one_watch_flags; [done|exact Ho|].
    destruct (at_pc t); cbn in E; repeat case_match; simplify_eq; done.
  - injection H as <-. cbn. unfold watch. destruct (s <? 0); [done|]. destruct (negb (m_started _) || m_stopping _); [done|]. unfold registerWatch.
    assert (H := one_watch_emplace c _ Hw). destruct (emplace c (reactor w)) as [[a ins] r]. cbn in H. destruct (objects r !! a) as [o|] eqn:Ho; [|done].
    destruct ((0 <=? socket o) && negb (socket o =? s)); [done|]. apply one_watch_epoll. by eapply one_watch_flags.
  - injection H as <-. cbn. unfold rearm, updateWatch. destruct (m_watches (reactor w) !! c) as [a|]; [|done]. cbn.
    destruct (objects (reactor w) !! a) as [o|] eqn:Ho; [|done]. cbn. destruct (socket o <? 0); [done|]. apply one_watch_epoll. by eapply one_watch_flags.
Qed.

Lemma one_watch_run es : forall w w', one_watch (reactor w) -> forallb (fun e => negb (unwatches e)) es = true -> run_events w es = Some w' -> one_watch (reactor w').
Proof.
  induction es as [|e es IH]; intros w w' Hw Hu H; cbn in *; [by injection H as <-|]. apply andb_true_iff in Hu as [Hu1 Hu2].
  destruct (step w e) as [w1|] eqn:E; [|done]. cbn in H. apply (IH w1); [|done..]. eapply one_watch_step; [done| |exact E]. by apply negb_true_iff.
Qed.

(** ** Properties *)

(** C24: in every interleaving of requests, socket events and workers at most one
    thread is in the pump of a watch, and, as no connection is unwatched, in
    the pump of a connection. *)
Theorem pump_runs_alone workers k es w : run_events (World_make workers k) es = Some w ->
  forall i j t t', threads w !! i = Some t -> threads w !! j = Some t' -> at_pc t = Pumping -> at_pc t' = Pumping ->
    (at_watch t = at_watch t' -> i = j)
    /\ (forallb (fun e => negb (unwatches e)) es = true -> forall o o', objects (reactor w) !! at_watch t = Some o ->
        objects (reactor w) !! at_watch t' = Some o' -> connection o = connection o' -> i = j).
Proof.
  intros H i j t t' Hi Hj Hp Hp'. destruct (invariant_run es _ _ (invariant_make workers k) H) as [[_ Hown] _].
  assert (Hone : at_watch t = at_watch t' -> i = j).
  { intros Ha. destruct (lookup_lt_ex (objects (reactor w)) (at_watch t)) as [o Ho].
    { destruct Hown as [Hall _]. rewrite Forall_forall in Hall. apply Hall. by eapply list_elem_of_lookup_2. }
    by apply (one_holder (at_watch t) w i j t t' o); rewrite ?Hp, ?Hp'. }
  split; [exact Hone|]. intros Hu o o' Ho Ho' Hc. apply Hone. assert (Hw := one_watch_run es (World_make workers k) w ltac:(done) Hu H).
  assert (H1 := Hw _ _ Ho). assert (H2 := Hw _ _ Ho'). congruence.
Qed.

(** From every point of every run the threads that are on their way come to
    rest after finitely many moves, however these are chosen, and then each has
    returned or its pump has failed. *)
Theorem workers_come_to_rest workers k es w : run_events (World_make workers k) es = Some w -> (0 < workers)%nat ->
  (forall ms w', Forall (fun e => moves_thread e = true) ms -> run_events w ms = Some w' -> (length ms <= work w)%nat)
  /\ ((forall i throws, move i throws w = None) -> Forall (fun t => at_pc t = Finished \/ at_pc t = Failed) (threads w)).
Proof.
  intros H Hp. destruct (invariant_run es _ _ (invariant_make workers k) H) as [Hi Hm]. split.
  - intros ms w' Ha Hr. assert (Hb := moves_bounded ms w w' Ha Hr). lia.
  - intros Hn. apply some_move; [done| |done]. rewrite Hm. exact Hp.
Qed.

(** C25: no request is forgotten: with one worker thread, and with several as long
    as no task that has given its watch up takes the flag of a request made
    after the next task began, a request that no pump has followed is in the
    hands of a thread that has neither returned nor failed, unless a pump of its
    watch has thrown.  The threads come to rest after boundedly many moves,
    however these are chosen, and then each request was followed by a pump of
    its watch, or a pump of that watch has thrown. *)
Theorem requests_are_pumped workers k es w : run_events (World_make workers k) es = Some w -> (0 < workers)%nat ->
  (workers <= 1)%nat \/ steal_free (World_make workers k) es = true ->
  (forall a, a ∈ owed_after (World_make workers k) es ∅ ->
     (exists i t, threads w !! i = Some t /\ at_watch t = a /\ at_pc t = Failed)
     \/ exists i t, threads w !! i = Some t /\ at_watch t = a /\ at_pc t <> Finished /\ at_pc t <> Failed)
  /\ (forall ms w', Forall (fun e => moves_thread e = true) ms -> run_events w ms = Some w' -> (length ms <= work w)%nat)
  /\ ((forall i throws, move i throws w = None) -> forall a, a ∈ owed_after (World_make workers k) es ∅ ->
       exists i t, threads w !! i = Some t /\ at_watch t = a /\ at_pc t = Failed).
Proof.
  intros H Hw Hor. assert (Hsf : steal_free (World_make workers k) es = true).
  { destruct Hor as [Hw1|]; [|done]. apply one_worker_steal_free; [apply invariant_make|cbn; lia|exact Hw1]. }
  assert (Hs := served_run es _ w ∅ (invariant_make workers k) ltac:(intros a Ha; set_solver) Hsf H).
  assert (Hone : forall a, a ∈ owed_after (World_make workers k) es ∅ -> (exists i t, threads w !! i = Some t /\ at_watch t = a /\ at_pc t = Failed)
     \/ exists i t, threads w !! i = Some t /\ at_watch t = a /\ at_pc t <> Finished /\ at_pc t <> Failed).
  { intros a Ha. destruct (Hs a Ha) as (o & _ & Hans). by eapply answered_alive. }
  destruct (invariant_run es _ _ (invariant_make workers k) H) as [Hi Hm]. split; [exact Hone|]. split.
  - intros ms w' Ha Hr. assert (Hb := moves_bounded ms w w' Ha Hr). lia.
  - intros Hn a Ha. destruct (Hone a Ha) as [Hf|(i & t & Ht & _ & H1 & H2)]; [done|]. assert (Hall := some_move w Hi ltac:(rewrite Hm; exact Hw) Hn).
    rewrite Forall_lookup in Hall. by destruct (Hall i t Ht).
Qed.

(** Once a pump has thrown, no pump of that watch begins again, whatever is
    asked for: the connection stays as it was left. *)
Theorem failed_pump_is_final workers k es w i t es' w' : run_events (World_make workers k) es = Some w ->
  threads w !! i = Some t -> at_pc t = Failed -> run_events w es' = Some w' ->
  forall j t', threads w' !! j = Some t' -> at_watch t' = at_watch t ->
    at_pc t' ∈ [Requesting; Scheduling; Rechecking; Retaking; Finished; Failed].
Proof.
  intros H Hi Hp H' j t' Hj Ha. destruct (invariant_run es _ _ (invariant_make workers k) H) as [Hinv _].
  assert (Hd : some_at (at_watch t) dead w) by (apply some_at_ex; exists i, t; by rewrite Hp).
  destruct (dead_run es' _ w w' Hinv H' Hd) as [Hd' Hinv']. destruct (dead_alone _ w' Hinv' Hd') as [He Hl].
  assert (Hne : early (at_pc t') = false). { apply not_true_iff_false. intros Hx. apply He, some_at_ex. eauto. }
  assert (Hnl : late (at_pc t') = false). { apply not_true_iff_false. intros Hx. apply Hl, some_at_ex. eauto. }
  destruct (at_pc t'); try done; set_solver.
Qed.

(** As long as a connection keeps its socket and sockets are its own, the
    kernel has registered exactly the watched sockets, each with the interest
    of its watch, and neither watching nor unwatching fails. *)
Theorem epoll_follows_the_watches registered (laws : EpollLaws registered) socket_of workers k es w : Inj (=) (=) socket_of ->
  (forall c, 0 <= socket_of c) -> registered k = ∅ -> forallb (keeps_its_socket socket_of) es = true -> run_events (World_make workers k) es = Some w ->
  (forall s e, registered (m_epoll (reactor w)) !! s = Some e <->
    exists c a o, m_watches (reactor w) !! c = Some a /\ objects (reactor w) !! a = Some o /\ socket o = s /\ 0 <= s /\ e = (epollEvents (interest o), c))
  /\ (forall c i, m_started (reactor w) = true -> m_stopping (reactor w) = false -> fst (watch c (socket_of c) i (reactor w)) = Ok tt)
  /\ forall c, fst (unwatch c (reactor w)) = Ok tt.
Proof.
  intros Hinj Hsock Hk Hes H. assert (Hf := follows_run registered laws socket_of Hinj Hsock es _ w (follows_make registered socket_of workers k Hk) Hes H).
  split; [apply Hf|]. split.
  - intros c i Hs Hst. unfold watch. rewrite Hs, Hst. assert (Hc := Hsock c). assert (Hn : (socket_of c <? 0) = false) by (apply Z.ltb_ge; lia).
    rewrite Hn. cbn. by destruct (registerWatch_follows registered laws socket_of Hinj Hsock c i _ Hf) as (r' & -> & _).
  - intros c. by destruct (unwatch_follows registered laws socket_of Hinj Hsock c _ Hf) as (r' & -> & _).
Qed.
End reactor.

(** ** The properties at concrete runs *)
Module Example_reactor.
(** A kernel that keeps its registrations in a map. *)
Definition epoll (op : Control) (s ev : Z) (c : nat) (k : gmap Z (Z * nat)) : option Z * gmap Z (Z * nat) :=
  match op, k !! s with
  | EPOLL_CTL_ADD, Some _ => (Some 17, k)
  | EPOLL_CTL_ADD, None | EPOLL_CTL_MOD, Some _ => (None, <[s := (ev, c)]> k)
  | EPOLL_CTL_DEL, Some _ => (None, delete s k)
  | EPOLL_CTL_MOD, None | EPOLL_CTL_DEL, None => (Some ENOENT, k)
  end.

Lemma epoll_laws : EpollLaws epoll id.
Proof.
  split; intros k s ev c H; cbn in *.
  - rewrite H. by eexists.
  - destruct H as [x Hx]. rewrite Hx. by eexists.
  - destruct H as [x Hx]. rewrite Hx. by eexists.
Qed.

Definition kernel0 : gmap Z (Z * nat) := ∅.

Definition moves_of (i n : nat) : list event := replicate n (Move i false).
Definition after (workers : nat) (es : list event) : World :=
  default (World_make workers kernel0) (run_events epoll (World_make workers kernel0) es).

(** One connection: a request, its pump begins, a socket is watched. *)
Definition pumping : list event := Schedule 3 :: moves_of 0 6 ++ [Watch_socket 3 7 read_interest].

Lemma pump_runs_alone_witness :
  at_pc <$> threads (after 2 (pumping ++ Schedule 3 :: moves_of 1 2)) = [Pumping; Finished] /\
  forall i j t t', threads (after 2 pumping) !! i = Some t -> threads (after 2 pumping) !! j = Some t' -> at_pc t = Pumping -> at_pc t' = Pumping ->
    at_watch t = at_watch t' -> i = j.
Proof.
  split; [by vm_compute|]. intros i j t t' Hi Hj Hp Hp'.
  exact (proj1 (pump_runs_alone epoll 2 kernel0 pumping (after 2 pumping) ltac:(vm_compute; reflexivity) i j t t' Hi Hj Hp Hp')).
Defined.

Lemma workers_come_to_rest_witness :
  forall ms w', Forall (fun e => moves_thread e = true) ms -> run_events epoll (after 2 pumping) ms = Some w' -> (length ms <= 4)%nat.
Proof. exact (proj1 (workers_come_to_rest epoll 2 kernel0 pumping (after 2 pumping) ltac:(vm_compute; reflexivity) (le_S 1 1 (le_n 1)))). Defined.

Definition answering : list event := Schedule 3 :: moves_of 0 10.

Lemma run_answering : run_events epoll (World_make 2 kernel0) answering = Some (after 2 answering).
Proof. by vm_compute. Qed.

(** A request in the hands of a thread, before its pump. *)
Definition asked : list event := Schedule 3 :: moves_of 0 3.

Lemma requests_are_pumped_witness :
  ((exists i t, threads (after 2 asked) !! i = Some t /\ at_watch t = 0%nat /\ at_pc t = Failed)
   \/ exists i t, threads (after 2 asked) !! i = Some t /\ at_watch t = 0%nat /\ at_pc t <> Finished /\ at_pc t <> Failed)
  /\ (length (moves_of 0 3) <= work (after 2 asked))%nat.
Proof.
  assert (Hf : steal_free epoll (World_make 2 kernel0) asked = true) by by vm_compute.
  destruct (requests_are_pumped epoll 2 kernel0 asked (after 2 asked) ltac:(by vm_compute) (le_S 1 1 (le_n 1)) (or_intror Hf)) as (H1 & H2 & _). split.
  - apply H1. apply (bool_decide_unpack _). by vm_compute.
  - apply (H2 _ (after 2 (asked ++ moves_of 0 3))); [repeat constructor|by vm_compute].
Defined.

(** The pump of the only connection throws; a second request then does nothing. *)
Definition throwing : list event := Schedule 3 :: moves_of 0 6 ++ [Move 0 true].

Lemma failed_pump_is_final_witness : forall j t', threads (after 2 (throwing ++ Schedule 3 :: moves_of 1 2)) !! j = Some t' -> at_watch t' = 0%nat ->
  at_pc t' ∈ [Requesting; Scheduling; Rechecking; Retaking; Finished; Failed].
Proof.
  exact (failed_pump_is_final epoll 2 kernel0 throwing (after 2 throwing) 0 (mkThread 0 Failed) (Schedule 3 :: moves_of 1 2) _ ltac:(vm_compute; reflexivity) ltac:(vm_compute; reflexivity) ltac:(vm_compute; reflexivity) ltac:(vm_compute; reflexivity)).
Defined.

Lemma epoll_follows_the_watches_witness : fst (unwatch epoll 3 (reactor (after 2 pumping))) = Ok tt.
Proof.
  exact (proj2 (proj2 (epoll_follows_the_watches epoll id epoll_laws (fun c => Z.of_nat c + 4) 2 kernel0 pumping (after 2 pumping)
    ltac:(intros x y H; cbn in H; lia) ltac:(intros c; cbn; lia) ltac:(vm_compute; reflexivity) ltac:(vm_compute; reflexivity) ltac:(vm_compute; reflexivity))) 3%nat).
Defined.

(** Two workers: a first task has released the watch; a second request starts a
    second task, which begins to pump; a third request sets the flag and leaves
    it to that task; the first task now takes the flag, finds the watch taken
    and returns.  No pump follows the third request. *)
Definition losing : list event :=
  Schedule 3 :: moves_of 0 9 ++ Schedule 3 :: moves_of 1 6 ++ Schedule 3 :: moves_of 2 2 ++ moves_of 0 2 ++ moves_of 1 4.

Lemma wake_can_be_lost : run_events epoll (World_make 2 kernel0) losing = Some (after 2 losing)
  /\ at_pc <$> threads (after 2 losing) = [Finished; Finished; Finished]
  /\ owed_after epoll (World_make 2 kernel0) losing ∅ = {[0%nat]}.
Proof. split; [by vm_compute|]. split; by vm_compute. Qed.
End Example_reactor.
