(* ===== verification/DbCodec.v ===== *)
(** * Parameters and results of the database library

    [IDHANDb/include/idhan/db]: numbers in network order ([Network.hpp]), the
    codecs of parameters and columns ([detail/DBBindings-inl.hpp]) with the
    parameter lists that are given to libpq ([DBBindings.cpp]), typed rows
    ([detail/DBResult-inl.hpp]), the texts of errors ([DBError.cpp]), and the
    quoting of the search path ([SearchPath.hpp]).

    A codec is a class; [DBCodec<T>] of the code is its instance for [T].  A
    floating point number is its bit pattern.  What [std::span] leaves undefined
    throws.  [std::length_error] is a [logic_error] here, as it is in C++. *)
From S2P Require Import Prelude StringView Bytes.
From Stdlib Require Import Ascii.
From Stdlib Require String.

Definition INT_MAX : Z := 2147483647.

(** ** Network order *)

Definition byteswap (n : nat) (v : Z) : Z := le_decode (rev (le_encode n v)).

Inductive endian := little | big.

Definition networkOrder (source : endian) (n : nat) (value : Z) : Z :=
  match source with little => byteswap n value | big => value end.

Definition native : endian := little.

(** On the bits of a value of [n] bytes. *)
Definition encodeNetwork (n : nat) (bits : Z) : list Z := le_encode n (networkOrder native n bits).

Definition decodeNetwork (n : nat) (bytes : list Z) : result Z :=
  if negb (length bytes =? n)%nat then Throw (invalid_argument "Invalid network scalar length")
  else Ok (networkOrder native n (le_decode bytes)).

(** [bit_cast] to a signed number. *)
Definition as_signed (n : nat) (bits : Z) : Z := wraps (8 * Z.of_nat n) bits.
Definition as_bits (n : nat) (v : Z) : Z := wrapu (8 * Z.of_nat n) v.

(** ** Errors *)

(** [formatSqlForLog] *)
Fixpoint format_loop (output : string) (pending_space : bool) (sql : string) : string :=
  match sql with
  | EmptyString => output
  | String c sql =>
      if isspace c then format_loop output (negb (sempty output)) sql
      else
        let output := if pending_space then output +:+ " " else output in
        format_loop (output +:+ String c EmptyString) false sql
  end.

Definition formatSqlForLog (sql : string) : string := format_loop EmptyString false sql.

Definition formatDecodeError (message : string) (column expected actual : Z) (column_name sql : string) (row : option Z) : string :=
  let output := message +:+ ": column " +:+ to_string column in
  let output := if sempty column_name then output else output +:+ " (" +:+ column_name +:+ ")" in
  let output := output +:+ " (zero-based), expected OID " +:+ to_string expected +:+ ", actual OID " +:+ to_string actual in
  let output := match row with Some row => output +:+ "; row " +:+ to_string row +:+ " (zero-based)" | None => output end in
  if sempty sql then output else output +:+ "; SQL: " +:+ formatSqlForLog sql.

Record DBDecodeError := mkDecodeError { e_what : string; e_message : string; e_column : Z; e_expected_oid : Z; e_actual_oid : Z }.

Definition DBDecodeError_make (message : string) (column expected actual : Z) (column_name sql : string) (row : option Z) : DBDecodeError :=
  mkDecodeError (formatDecodeError message column expected actual column_name sql row) message column expected actual.

(** What decoding gives: a value, the exception that callers catch, another. *)
Inductive decoded (A : Type) := Value (a : A) | DecodeError (e : DBDecodeError) | Thrown (e : exn).
Arguments Value {A} a.
Arguments DecodeError {A} e.
Arguments Thrown {A} e.

#[export] Instance decoded_ret : MRet decoded := @Value.
#[export] Instance decoded_bind : MBind decoded := fun A B f m =>
  match m with Value a => f a | DecodeError e => DecodeError e | Thrown e => Thrown e end.

Definition lift {A} (m : result A) : decoded A := match m with Ok a => Value a | Throw e => Thrown e end.

Definition decodeError {A} (message : string) (oid : result Z) : decoded A :=
  oid ← lift oid; DecodeError (DBDecodeError_make message size_max oid oid "" "" None).

(** [std::span::first] and [subspan], which may not leave the bytes; a negative
    number is a size that no span has. *)
Definition span_first (n : Z) (bytes : list Z) : decoded (list Z) :=
  if (n <? 0) || (Z.of_nat (length bytes) <? n) then Thrown (undefined_behaviour "std::span::first past the end") else Value (take (Z.to_nat n) bytes).
Definition subspan (n : Z) (bytes : list Z) : decoded (list Z) :=
  if (n <? 0) || (Z.of_nat (length bytes) <? n) then Thrown (undefined_behaviour "std::span::subspan past the end") else Value (drop (Z.to_nat n) bytes).

(** ** Parameters *)

Inductive ResultFormat := text_format | binary_format.
#[export] Instance ResultFormat_eq_dec : EqDecision ResultFormat.
Proof. solve_decision. Defined.

Record DBParameter := mkParameter {
  p_oid : Z; p_format : ResultFormat; p_binary : option (list Z); p_text : option string; p_secret : bool }.

Definition binary_parameter (oid : Z) (bytes : list Z) : DBParameter := mkParameter oid binary_format (Some bytes) None false.
Definition null_parameter (oid : Z) : DBParameter := mkParameter oid binary_format None None false.

Definition NUL : ascii := Ascii.zero.
Definition has_nul (s : string) : bool := bool_decide (is_Some (find_char NUL s)).

Definition arrayOid (element : Z) : result Z :=
  if element =? 16 then Ok 1000
  else if element =? 17 then Ok 1001
  else if element =? 21 then Ok 1005
  else if element =? 23 then Ok 1007
  else if element =? 25 then Ok 1009
  else if element =? 20 then Ok 1016
  else if element =? 700 then Ok 1021
  else if element =? 701 then Ok 1022
  else Throw (invalid_argument "Unsupported PostgreSQL array element OID").

Definition checkLength (length : nat) : result unit :=
  if INT_MAX <? Z.of_nat length then Throw (logic_error "PostgreSQL parameter exceeds libpq length limit") else Ok tt.

Definition appendBytes (output bytes : list Z) : result (list Z) :=
  if INT_MAX - Z.of_nat (length output) <? Z.of_nat (length bytes) then Throw (logic_error "PostgreSQL array exceeds libpq length limit")
  else Ok (output ++ bytes).

Definition parameterBytes (p : DBParameter) : list Z :=
  match p_binary p, p_text p with
  | Some b, _ => b
  | None, Some t => string_bytes t
  | None, None => []
  end.

Definition hex_digit (n : Z) : string :=
  match String.get (Z.to_nat n) "0123456789abcdef" with Some c => String c EmptyString | None => EmptyString end.

Definition backslash : ascii := Ascii.ascii_of_nat 92.

(** One byte of a diagnostic. *)
Definition shown (textual : bool) (value : Z) : string :=
  if textual && (32 <=? value) && (value <? 127) && negb (value =? 92) && negb (value =? 34) then String (Ascii.ascii_of_N (Z.to_N value)) EmptyString
  else String backslash "x" +:+ hex_digit (Z.shiftr value 4) +:+ hex_digit (Z.land value 15).

Definition diagnostic (p : DBParameter) (max_bytes : nat) : string :=
  if p_secret p then "<redacted>"
  else match p_binary p, p_text p with
  | None, None => "NULL"
  | _, _ =>
      let bytes := parameterBytes p in
      let result := foldl (fun result value => result +:+ shown (bool_decide (is_Some (p_text p))) value) "" (take (Nat.min (length bytes) max_bytes) bytes) in
      if (max_bytes <? length bytes)%nat then result +:+ "..." else result
  end.

(** ** Codecs *)

Class DBCodec (T : Type) := {
  oid : result Z;
  encode : T -> result DBParameter;
  decode : list Z -> decoded T }.
Arguments oid T {_}.

#[export] Instance bool_codec : DBCodec bool := {
  oid := Ok 16;
  encode value := Ok (binary_parameter 16 [if value : bool then 1 else 0]);
  decode bytes :=
    match bytes with
    | [b] => if negb (b =? 0) && negb (b =? 1) then decodeError "Invalid BOOL value" (Ok 16) else Value (b =? 1)
    | _ => decodeError "Invalid BOOL length" (Ok 16)
    end }.

(** Numbers of [n] bytes: signed and unsigned integers, and the floating point
    numbers of that size. *)
Record sint (n : nat) := Sint { sint_value : Z }.
Record uint (n : nat) := Uint { uint_value : Z }.
Record floating (n : nat) := Floating { float_bits : Z }.
Arguments Sint {n} _.
Arguments Uint {n} _.
Arguments Floating {n} _.
Arguments sint_value {n} _.
Arguments uint_value {n} _.
Arguments float_bits {n} _.

Definition integer_oid (n : nat) : Z := match n with 2%nat => 21 | 4%nat => 23 | _ => 20 end.
Definition float_oid (n : nat) : Z := match n with 4%nat => 700 | _ => 701 end.

(** The part of [decode] for numbers, up to the bits. *)
Definition scalar_bits (n : nat) (o : Z) (bytes : list Z) : decoded Z :=
  if negb (length bytes =? n)%nat then decodeError "Invalid scalar length" (Ok o) else lift (decodeNetwork n bytes).

(** The greatest value of the signed type. *)
Definition signed_max (n : nat) : Z := 2 ^ (8 * Z.of_nat n - 1) - 1.

#[export] Instance sint_codec n : DBCodec (sint n) := {
  oid := Ok (integer_oid n);
  encode v := Ok (binary_parameter (integer_oid n) (encodeNetwork n (as_bits n (sint_value v))));
  decode bytes := bits ← scalar_bits n (integer_oid n) bytes; Value (Sint (as_signed n bits)) }.

#[export] Instance uint_codec n : DBCodec (uint n) := {
  oid := Ok (integer_oid n);
  encode v :=
    if signed_max n <? uint_value v then Throw (out_of_range "Unsigned parameter exceeds PostgreSQL signed range")
    else Ok (binary_parameter (integer_oid n) (encodeNetwork n (uint_value v)));
  decode bytes :=
    value ← scalar_bits n (integer_oid n) bytes;
    if signed_max n <? value then decodeError "Negative PostgreSQL integer requested as unsigned" (Ok (integer_oid n)) else Value (Uint value) }.

#[export] Instance float_codec n : DBCodec (floating n) := {
  oid := Ok (float_oid n);
  encode v := Ok (binary_parameter (float_oid n) (encodeNetwork n (float_bits v)));
  decode bytes := bits ← scalar_bits n (float_oid n) bytes; Value (Floating bits) }.

#[export] Instance text_codec : DBCodec string := {
  oid := Ok 25;
  encode text :=
    _ ← checkLength (String.length text);
    if has_nul text then Throw (invalid_argument "PostgreSQL text cannot contain NUL") else Ok (mkParameter 25 text_format None (Some text) false);
  decode bytes :=
    match bytes with
    | [] => Value EmptyString
    | _ => let value := bytes_string bytes in if has_nul value then decodeError "Invalid TEXT containing NUL" (Ok 25) else Value value
    end }.

(** [std::vector< std::byte >]. *)
Record bytea := Bytea { bytea_bytes : list Z }.

#[export] Instance bytea_codec : DBCodec bytea := {
  oid := Ok 17;
  encode v := _ ← checkLength (length (bytea_bytes v)); Ok (binary_parameter 17 (bytea_bytes v));
  decode bytes := Value (Bytea bytes) }.

(** [std::bitset< 64 >]. *)
Record bitset := Bitset { to_ullong : Z }.

#[export] Instance bitset_codec : DBCodec bitset := {
  oid := Ok 1560;
  encode value :=
    bytes ← appendBytes [] (encodeNetwork 4 64);
    bytes ← appendBytes bytes (encodeNetwork 8 (to_ullong value));
    Ok (binary_parameter 1560 bytes);
  decode bytes :=
    if negb (length bytes =? 12)%nat then decodeError "Invalid BIT(64) length" (Ok 1560)
    else
      head ← span_first 4 bytes;
      bit_length ← lift (decodeNetwork 4 head);
      if negb (as_signed 4 bit_length =? 64) then decodeError "Expected a 64-bit BIT value" (Ok 1560)
      else rest ← subspan 4 bytes; bits ← lift (decodeNetwork 8 rest); Value (Bitset bits) }.

(** Whether the C++ type is an optional, with its contents: what
    [OptionalValue] tells. *)
Class ElementType (T : Type) := {
  element_codec : DBCodec T;
  is_optional : bool;
  has_value : T -> bool;
  nullopt : decoded T }.

#[export] Instance option_codec {T} `{DBCodec T} : DBCodec (option T) := {
  oid := oid T;
  encode value := match value with Some v => encode v | None => o ← oid T; Ok (null_parameter o) end;
  decode bytes := v ← decode bytes; Value (Some v) }.

#[export] Instance plain_element {T} `{DBCodec T} : ElementType T | 10 := {
  element_codec := _; is_optional := false; has_value _ := true;
  nullopt := o ← lift (oid T); decodeError "NULL array element requested as non-optional" (arrayOid o) }.

#[export] Instance optional_element {T} `{DBCodec T} : ElementType (option T) | 1 := {
  element_codec := _; is_optional := true; has_value v := bool_decide (is_Some v); nullopt := Value None }.

Section vector.
Context {T : Type} {E : ElementType T}.
#[local] Existing Instance element_codec.

Definition array_oid : result Z := o ← oid T; arrayOid o.

(** One element behind [bytes]. *)
Definition encode_element (has_null : bool) (bytes : list Z) (stored : T) : result (list Z) :=
  encoded ← encode stored;
  if bool_decide (is_Some (p_binary encoded)) && bool_decide (is_Some (p_text encoded)) then Throw (invalid_argument "Array element has conflicting storage")
  else if bool_decide (is_Some (p_binary encoded)) && negb (bool_decide (p_format encoded = binary_format)) then
    Throw (invalid_argument "Array element binary format mismatch")
  else if bool_decide (is_Some (p_text encoded)) && (negb (bool_decide (p_format encoded = text_format)) || negb (p_oid encoded =? 25)) then
    Throw (invalid_argument "Array element requires a binary encoding")
  else if match p_text encoded with Some t => has_nul t | None => false end then Throw (invalid_argument "Array text element contains NUL")
  else
    let null := negb (bool_decide (is_Some (p_text encoded))) && negb (bool_decide (is_Some (p_binary encoded))) in
    if null && negb has_null then Throw (invalid_argument "Array codec returned unexpected NULL")
    else
      let data := parameterBytes encoded in
      _ ← checkLength (length data);
      o ← oid T;
      if negb (p_oid encoded =? o) then Throw (invalid_argument "Array element codec OID mismatch")
      else
        bytes ← appendBytes bytes (encodeNetwork 4 (as_bits 4 (if null then -1 else Z.of_nat (length data))));
        appendBytes bytes data.

Definition encode_vector (values : list T) : result DBParameter :=
  array ← array_oid;
  _ ← checkLength (length values);
  if (INT_MAX - 20) / 4 <? Z.of_nat (length values) then Throw (logic_error "Array too large")
  else
    bytes ← appendBytes [] (encodeNetwork 4 (match values with [] => 0 | _ => 1 end));
    let has_null := if is_optional then existsb (fun value => negb (has_value value)) values else false in
    bytes ← appendBytes bytes (encodeNetwork 4 (if has_null then 1 else 0));
    o ← oid T;
    bytes ← appendBytes bytes (encodeNetwork 4 o);
    bytes ← (match values with
             | [] => Ok bytes
             | _ => bytes ← appendBytes bytes (encodeNetwork 4 (Z.of_nat (length values))); appendBytes bytes (encodeNetwork 4 1)
             end);
    bytes ← foldM (encode_element has_null) bytes values;
    Ok (binary_parameter array bytes).

Definition takeInt (bytes : list Z) : decoded (Z * list Z) :=
  if (length bytes <? 4)%nat then decodeError "Truncated array header/length" array_oid
  else
    head ← span_first 4 bytes;
    bits ← lift (decodeNetwork 4 head);
    rest ← subspan 4 bytes;
    Value (as_signed 4 bits, rest).

Fixpoint decode_elements (has_null : Z) (count : nat) (bytes : list Z) (result : list T) : decoded (list T * list Z) :=
  match count with
  | O => Value (result, bytes)
  | S count =>
      '(len, bytes) ← takeInt bytes;
      if len =? -1 then
        if has_null =? 0 then decodeError "Array NULL flag missing" array_oid
        else value ← nullopt; decode_elements has_null count bytes (result ++ [value])
      else if (len <? 0) || (Z.of_nat (length bytes) <? len) then decodeError "Invalid array element length" array_oid
      else
        element ← span_first len bytes;
        value ← decode element;
        bytes ← subspan len bytes;
        decode_elements has_null count bytes (result ++ [value])
  end.

Definition decode_vector (bytes : list Z) : decoded (list T) :=
  '(dimensions, bytes) ← takeInt bytes;
  '(has_null, bytes) ← takeInt bytes;
  '(element_oid, bytes) ← takeInt bytes;
  if (dimensions <? 0) || (1 <? dimensions) then decodeError "Only one-dimensional arrays are supported" array_oid
  else if negb (has_null =? 0) && negb (has_null =? 1) then decodeError "Invalid array NULL flag" array_oid
  else
    o ← lift (oid T);
    if negb (as_bits 4 element_oid =? o) then decodeError "Array element OID mismatch" array_oid
    else
      '(result, bytes) ← (if dimensions =? 1 then
          '(count, bytes) ← takeInt bytes;
          '(lower, bytes) ← takeInt bytes;
          if (count <? 0) || (Z.of_nat (length bytes) / 4 <? count) then decodeError "Invalid array element count" array_oid
          else if negb (lower =? 1) then decodeError "Array lower bound must be one" array_oid
          else decode_elements has_null (Z.to_nat count) bytes []
        else Value ([], bytes));
      match bytes with [] => Value result | _ => decodeError "Trailing array data" array_oid end.
End vector.

#[export] Instance vector_codec {T} `{ElementType T} : DBCodec (list T) := {
  oid := array_oid; encode := encode_vector; decode := decode_vector }.

(** ** Lists of parameters *)

Record DBBindings := mkBindings { m_values : list DBParameter }.
Definition DBBindings_make : DBBindings := mkBindings [].

Definition append (value : DBParameter) (b : DBBindings) : result DBBindings :=
  if INT_MAX <=? Z.of_nat (length (m_values b)) then Throw (logic_error "Too many PostgreSQL parameters")
  else if p_oid value =? 0 then Throw (invalid_argument "A binding must specify its OID")
  else if bool_decide (is_Some (p_binary value)) && bool_decide (is_Some (p_text value)) then Throw (invalid_argument "Binding has both text and binary storage")
  else if bool_decide (is_Some (p_binary value)) && negb (bool_decide (p_format value = binary_format)) then Throw (invalid_argument "Binary binding format mismatch")
  else if bool_decide (is_Some (p_text value)) && negb (bool_decide (p_format value = text_format)) then Throw (invalid_argument "Text binding format mismatch")
  else if match p_text value with Some t => has_nul t | None => false end then Throw (invalid_argument "Text binding contains NUL")
  else _ ← checkLength (length (parameterBytes value)); Ok (mkBindings (m_values b ++ [value])).

Definition bind {T} `{DBCodec T} (value : T) (b : DBBindings) : result DBBindings := p ← encode value; append p b.

(** A [SecretParameter] *)
Definition bind_secret {T} `{DBCodec T} (value : T) (b : DBBindings) : result DBBindings :=
  p ← encode value; append (mkParameter (p_oid p) (p_format p) (p_binary p) (p_text p) true) b.

Definition oids (b : DBBindings) : list Z := p_oid <$> m_values b.
(** What the pointers point to; text with its terminator. *)
Definition pointers (b : DBBindings) : list (option (list Z)) :=
  (fun value => match p_text value with
    | Some t => Some (string_bytes t ++ [0])
    | None => match p_binary value with Some [] => Some [0] | Some data => Some data | None => None end
    end) <$> m_values b.
Definition lengths (b : DBBindings) : list Z := (fun value => Z.of_nat (length (parameterBytes value))) <$> m_values b.
Definition formats (b : DBBindings) : list Z := (fun value => match p_format value with text_format => 0 | binary_format => 1 end) <$> m_values b.

(** ** Typed rows *)

Inductive Status :=
  PGRES_EMPTY_QUERY | PGRES_COMMAND_OK | PGRES_TUPLES_OK | PGRES_COPY_OUT | PGRES_COPY_IN | PGRES_BAD_RESPONSE | PGRES_NONFATAL_ERROR
  | PGRES_FATAL_ERROR | PGRES_COPY_BOTH | PGRES_SINGLE_TUPLE | PGRES_PIPELINE_SYNC | PGRES_PIPELINE_ABORTED | PGRES_TUPLES_CHUNK.
#[export] Instance Status_eq_dec : EqDecision Status.
Proof. solve_decision. Defined.

(** A result, as libpq shows it. *)
Class PGResult (R : Type) := {
  PQresultStatus : R -> Status;
  PQnfields : R -> nat;
  PQntuples : R -> nat;
  PQfname : R -> nat -> option string;
  PQftype : R -> nat -> Z;
  PQfformat : R -> nat -> Z;
  PQgetisnull : R -> nat -> nat -> bool;
  PQgetvalue : R -> nat -> nat -> list Z }.

(** A column type: [T], or [std::optional<T>]; a row of them. *)
Record Column := mkColumn { column_type : Type; column_codec : DBCodec column_type; column_element : ElementType column_type }.
Definition column (T : Type) {C : DBCodec T} {E : ElementType T} : Column := mkColumn T C E.

Fixpoint row_type (cs : list Column) : Type := match cs with [] => unit | c :: cs => column_type c * row_type cs end.

Section rows.
Context {R : Type} {P : PGResult R}.

Definition validateColumn (result : R) (c : Column) (i : nat) : decoded unit :=
  let actual := PQftype result i in
  expected ← lift (@oid _ (column_codec c));
  if negb (actual =? expected) then DecodeError (DBDecodeError_make "Column OID mismatch" (Z.of_nat i) expected actual "" "" None)
  else if negb (PQfformat result i =? 1) then
    DecodeError (DBDecodeError_make "Typed rows require binary results" (Z.of_nat i) expected actual "" "" None)
  else Value tt.

Fixpoint validateColumns (result : R) (cs : list Column) (i : nat) : decoded unit :=
  match cs with [] => Value tt | c :: cs => _ ← validateColumn result c i; validateColumns result cs (S i) end.

Definition decodeColumn (result : R) (c : Column) (row i : nat) : decoded (column_type c) :=
  expected ← lift (@oid _ (column_codec c));
  let actual := PQftype result i in
  if PQgetisnull result row i then
    if @is_optional _ (column_element c) then @nullopt _ (column_element c)
    else DecodeError (DBDecodeError_make "NULL column requested as non-optional" (Z.of_nat i) expected actual "" "" None)
  else match @decode _ (column_codec c) (PQgetvalue result row i) with
  | DecodeError error => DecodeError (DBDecodeError_make (e_message error) (Z.of_nat i) expected actual "" "" None)
  | other => other
  end.

Fixpoint decodeRow (result : R) (cs : list Column) (row i : nat) : decoded (row_type cs) :=
  match cs with
  | [] => Value tt
  | c :: cs => v ← decodeColumn result c row i; vs ← decodeRow result cs row (S i); Value (v, vs)
  end.

(** [m_result], whose pointer may be null, and [m_sql]. *)
Record DBRows := mkRows { m_result : option R; m_sql : string }.

Definition contextualError (rows : DBRows) (error : DBDecodeError) (row : option Z) : DBDecodeError :=
  let number := wraps 32 (e_column error) in
  let name := match m_result rows with Some r => if number <? 0 then None else PQfname r (Z.to_nat number) | None => None end in
  DBDecodeError_make (e_message error) (e_column error) (e_expected_oid error) (e_actual_oid error) (default "" name) (m_sql rows) row.

Definition with_context {A} (rows : DBRows) (row : option Z) (m : decoded A) : decoded A :=
  match m with DecodeError e => DecodeError (contextualError rows e row) | other => other end.

Definition DBRows_make (cs : list Column) (result : option R) (sql : string) : decoded DBRows :=
  let rows := mkRows result sql in
  with_context rows None (match result with
    | None => DecodeError (DBDecodeError_make "Missing PostgreSQL result" 0 0 0 "" "" None)
    | Some r =>
        if negb (bool_decide (PQresultStatus r ∈ [PGRES_TUPLES_OK; PGRES_TUPLES_CHUNK; PGRES_SINGLE_TUPLE])) then
          DecodeError (DBDecodeError_make "Result does not contain rows" 0 0 0 "" "" None)
        else if (PQnfields r =? 0)%nat || negb (PQnfields r =? length cs)%nat then
          DecodeError (DBDecodeError_make "Column count mismatch or missing row description" 0 0 0 "" "" None)
        else _ ← validateColumns r cs 0; Value rows
    end).

Definition rows_size (rows : DBRows) : nat := match m_result rows with Some r => PQntuples r | None => 0 end.

Definition row (cs : list Column) (index : nat) (rows : DBRows) : decoded (row_type cs) :=
  if (rows_size rows <=? index)%nat then Thrown (out_of_range "PostgreSQL row index out of range")
  else match m_result rows with
  | Some r => with_context rows (Some (Z.of_nat index)) (decodeRow r cs index 0)
  | None => Thrown (undefined_behaviour "null result")
  end.

(** [operator*], [operator++] and [end] of the iterators: the rows of a loop. *)
Fixpoint iterate (cs : list Column) (rows : DBRows) (index count : nat) : decoded (list (row_type cs)) :=
  match count with
  | O => Value []
  | S count => v ← row cs index rows; vs ← iterate cs rows (S index) count; Value (v :: vs)
  end.
End rows.

(** ** The search path *)

Definition DEFAULT_SCHEMA : string := "idhan".
Definition EXTENSION_SCHEMA : string := "public".
Definition dquotation : ascii := Ascii.ascii_of_nat 34.

Fixpoint quote_loop (schema : string) : string :=
  match schema with
  | EmptyString => EmptyString
  | String c schema => if Ascii.eqb c dquotation then String dquotation (String c (quote_loop schema)) else String c (quote_loop schema)
  end.

Definition quoteSchemaIdentifier (schema : string) : result string :=
  if sempty schema || has_nul schema then Throw (invalid_argument "PostgreSQL schema must be a nonempty identifier without NUL bytes")
  else Ok (String dquotation (quote_loop schema) +:+ String dquotation EmptyString).

Definition makeSearchPath (schema extension_schema : string) : result string :=
  result ← quoteSchemaIdentifier schema;
  extensions ← quoteSchemaIdentifier extension_schema;
  Ok (if String.eqb schema extension_schema then result else result +:+ "," +:+ extensions).

(** [DBConfig], the fields that are checked. *)
Record DBConfig := mkConfig {
  host : string; port : Z; database : string; user : string; schema : string; extension_schema : string;
  connections : Z; transaction_connections : Z; diagnostic_value_bytes : Z }.

Definition DBConfig_defaults : DBConfig := mkConfig "localhost" 5432 "idhan-db" "idhan" DEFAULT_SCHEMA EXTENSION_SCHEMA 8 2 4096.

Definition validate (c : DBConfig) : result unit :=
  if sempty (host c) || sempty (database c) || sempty (user c) || sempty (schema c) then
    Throw (invalid_argument "PostgreSQL host, database, user, and schema must not be empty")
  else
    _ ← makeSearchPath (schema c) (extension_schema c);
    if port c =? 0 then Throw (invalid_argument "PostgreSQL port must be nonzero")
    else if (connections c =? 0) || (transaction_connections c =? 0) then
      Throw (invalid_argument "PostgreSQL normal and transaction pools require at least one connection")
    else if diagnostic_value_bytes c =? 0 then Throw (invalid_argument "PostgreSQL diagnostic limit must be nonzero")
    else Ok tt.

(** ** Numbers *)

Lemma bytes_ok_rev l : bytes_ok l -> bytes_ok (rev l).
Proof. apply List.Forall_rev. Qed.

Lemma byteswap_range n v : 0 <= byteswap n v < 256 ^ Z.of_nat n.
Proof.
  unfold byteswap. assert (H := le_decode_bounds (rev (le_encode n v))). rewrite length_rev, le_encode_length in H. apply H.
  apply bytes_ok_rev, le_encode_ok.
Qed.

Lemma byteswap_twice n v : 0 <= v < 256 ^ Z.of_nat n -> byteswap n (byteswap n v) = v.
Proof.
  intros Hv. unfold byteswap. assert (Hl : length (rev (le_encode n v)) = n) by by rewrite length_rev, le_encode_length.
  rewrite <- Hl at 1. rewrite le_encode_decode by (apply bytes_ok_rev, le_encode_ok). rewrite rev_involutive. by apply le_decode_encode.
Qed.

Lemma encodeNetwork_length n v : length (encodeNetwork n v) = n.
Proof. apply le_encode_length. Qed.

Lemma encodeNetwork_ok n v : bytes_ok (encodeNetwork n v).
Proof. apply le_encode_ok. Qed.

Lemma network_roundtrip n v : 0 <= v < 256 ^ Z.of_nat n -> decodeNetwork n (encodeNetwork n v) = Ok v.
Proof.
  intros Hv. unfold decodeNetwork. rewrite encodeNetwork_length, Nat.eqb_refl. cbn. f_equal. unfold encodeNetwork. cbn.
  rewrite le_decode_encode by apply byteswap_range. by apply byteswap_twice.
Qed.

(** The first byte is the most significant one. *)
Lemma encodeNetwork_big n v : encodeNetwork n v = rev (le_encode n v).
Proof.
  unfold encodeNetwork. cbn. unfold byteswap. rewrite <- (le_encode_length n v) at 1. rewrite <- length_rev.
  apply le_encode_decode, bytes_ok_rev, le_encode_ok.
Qed.

Lemma decodeNetwork_total n l : length l = n -> bytes_ok l -> exists v, decodeNetwork n l = Ok v /\ 0 <= v < 256 ^ Z.of_nat n.
Proof. intros <- Hl. unfold decodeNetwork. rewrite Nat.eqb_refl. cbn. eexists. split; [done|]. apply byteswap_range. Qed.

Lemma pow256 n : 256 ^ Z.of_nat n = 2 ^ (8 * Z.of_nat n).
Proof. change 256 with (2 ^ 8). rewrite <- Z.pow_mul_r by lia. done. Qed.

Lemma as_bits_range n v : 0 <= as_bits n v < 256 ^ Z.of_nat n.
Proof. unfold as_bits, wrapu. rewrite pow256. apply Z.mod_pos_bound. apply Z.pow_pos_nonneg; lia. Qed.

Lemma signed_bits n v : (0 < n)%nat -> - 2 ^ (8 * Z.of_nat n - 1) <= v < 2 ^ (8 * Z.of_nat n - 1) -> as_signed n (as_bits n v) = v.
Proof.
  intros Hn Hv. unfold as_signed, as_bits, wraps, wrapu. set (w := 8 * Z.of_nat n) in *.
  assert (Hw : 2 ^ w = 2 * 2 ^ (w - 1)) by (rewrite <- Z.pow_succ_r by lia; f_equal; lia).
  rewrite Z.add_mod_idemp_l by lia. rewrite Z.mod_small; lia.
Qed.

(** ** Reading back what was written *)

(** What may be written: values in the range of their type.  The parameter of a
    value is of the codec's type, in the one storage its format names, without
    a zero byte in text, and its bytes read back; only an absent optional is NULL. *)
Class CodecLaws (T : Type) {C : DBCodec T} {E : ElementType T} := {
  valid : T -> Prop;
  same_codec : element_codec = C;
  encode_spec v p : valid v -> encode v = Ok p ->
    oid T = Ok (p_oid p)
    /\ ((p_binary p = None /\ p_text p = None) \/ (p_format p = binary_format /\ p_text p = None /\ exists b, p_binary p = Some b)
        \/ (p_format p = text_format /\ p_binary p = None /\ p_oid p = 25 /\ exists t, p_text p = Some t /\ has_nul t = false))
    /\ bytes_ok (parameterBytes p)
    /\ (if has_value v then is_Some (p_binary p) \/ is_Some (p_text p) else p_binary p = None /\ p_text p = None)
    /\ (if has_value v then decode (parameterBytes p) = Value v else is_optional = true /\ nullopt = Value v) }.

Lemma span_first_fits n bytes : 0 <= n <= Z.of_nat (length bytes) -> span_first n bytes = Value (take (Z.to_nat n) bytes).
Proof. intros H. unfold span_first. destruct (Z.ltb_spec n 0), (Z.ltb_spec (Z.of_nat (length bytes)) n); try lia. done. Qed.

Lemma subspan_fits n bytes : 0 <= n <= Z.of_nat (length bytes) -> subspan n bytes = Value (drop (Z.to_nat n) bytes).
Proof. intros H. unfold subspan. destruct (Z.ltb_spec n 0), (Z.ltb_spec (Z.of_nat (length bytes)) n); try lia. done. Qed.

Lemma append_fits output bytes : Z.of_nat (length output) + Z.of_nat (length bytes) <= INT_MAX -> appendBytes output bytes = Ok (output ++ bytes).
Proof. intros H. unfold appendBytes. case_match eqn:E; [apply Z.ltb_lt in E; lia|done]. Qed.

Lemma append_inv output bytes l : appendBytes output bytes = Ok l -> l = output ++ bytes /\ Z.of_nat (length output) + Z.of_nat (length bytes) <= INT_MAX.
Proof. unfold appendBytes. case_match eqn:E; [done|]. apply Z.ltb_ge in E. intros [= <-]. split; [done|lia]. Qed.

Lemma scalar_bits_roundtrip n o v : 0 <= v < 256 ^ Z.of_nat n -> scalar_bits n o (encodeNetwork n v) = Value v.
Proof. intros Hv. unfold scalar_bits. rewrite encodeNetwork_length, Nat.eqb_refl. cbn. by rewrite network_roundtrip. Qed.

Ltac binary_case := split; [done|]; split; [right; left; by repeat eexists|].

#[export] Instance bool_laws : CodecLaws bool.
Proof.
  refine {| valid _ := True |}; [done|]. intros v p _ [= <-]. binary_case. split; [by destruct v; repeat constructor|].
  split; [left; by eexists|]. by destruct v.
Defined.

#[export] Instance sint_laws n : CodecLaws (sint (S n)).
Proof.
  refine {| valid v := - 2 ^ (8 * Z.of_nat (S n) - 1) <= sint_value v < 2 ^ (8 * Z.of_nat (S n) - 1) |}; [done|].
  intros [v] p Hv [= <-]. cbn [sint_value] in Hv. binary_case. split; [apply encodeNetwork_ok|]. split; [left; by eexists|].
  cbn [decode sint_codec has_value plain_element parameterBytes p_binary binary_parameter sint_value].
  rewrite scalar_bits_roundtrip by apply as_bits_range. cbn [mbind decoded_bind]. rewrite signed_bits; [done|lia|done].
Defined.

#[export] Instance uint_laws n : CodecLaws (uint (S n)).
Proof.
  refine {| valid v := 0 <= uint_value v |}; [done|]. intros [v] p Hv. cbn [uint_value] in Hv.
  cbn [encode uint_codec uint_value]. destruct (signed_max (S n) <? v) eqn:E; [done|]. intros [= <-]. apply Z.ltb_ge in E as E'.
  binary_case. split; [apply encodeNetwork_ok|]. split; [left; by eexists|].
  cbn [decode uint_codec has_value plain_element parameterBytes p_binary binary_parameter]. rewrite scalar_bits_roundtrip.
  - cbn [mbind decoded_bind]. by rewrite E.
  - unfold signed_max in E'. rewrite pow256. assert (2 ^ (8 * Z.of_nat (S n) - 1) < 2 ^ (8 * Z.of_nat (S n))) by (apply Z.pow_lt_mono_r; lia). lia.
Defined.

#[export] Instance float_laws n : CodecLaws (floating (S n)).
Proof.
  refine {| valid v := 0 <= float_bits v < 256 ^ Z.of_nat (S n) |}; [done|]. intros [v] p Hv [= <-]. cbn [float_bits] in Hv.
  binary_case. split; [apply encodeNetwork_ok|]. split; [left; by eexists|].
  cbn [decode float_codec has_value plain_element parameterBytes p_binary binary_parameter float_bits]. by rewrite scalar_bits_roundtrip.
Defined.

#[export] Instance text_laws : CodecLaws string.
Proof.
  refine {| valid _ := True |}; [done|]. intros v p _ H. cbn [encode text_codec] in H. destruct (checkLength (String.length v)); [|done].
  cbn [mbind result_bind] in H. destruct (has_nul v) eqn:Hn; [done|]. injection H as <-.
  split; [done|]. split; [right; right; split; [done|]; split; [done|]; split; [done|by exists v]|]. split; [apply string_bytes_ok|].
  split; [right; by eexists|]. cbn [decode text_codec has_value plain_element parameterBytes p_binary p_text].
  destruct v as [|c v]; [done|]. cbn [string_bytes]. change (code c :: string_bytes v) with (string_bytes (String c v)).
  by rewrite bytes_string_bytes, Hn.
Defined.

#[export] Instance bytea_laws : CodecLaws bytea.
Proof.
  refine {| valid v := bytes_ok (bytea_bytes v) |}; [done|]. intros [v] p Hv H. cbn [encode bytea_codec bytea_bytes] in *.
  destruct (checkLength (length v)); [|done]. injection H as <-. binary_case. split; [done|]. split; [left; by eexists|done].
Defined.

#[export] Instance bitset_laws : CodecLaws bitset.
Proof.
  refine {| valid v := 0 <= to_ullong v < 2 ^ 64 |}; [done|]. intros [v] p Hv H. cbn [encode bitset_codec to_ullong] in *.
  assert (Hd : decodeNetwork 4 (encodeNetwork 4 64) = Ok 64) by by apply network_roundtrip.
  assert (Hl := encodeNetwork_length 4 64). assert (Hok := encodeNetwork_ok 4 64).
  generalize dependent (encodeNetwork 4 64). intros hd H Hd Hl Hok.
  rewrite append_fits in H by (rewrite Hl; unfold INT_MAX; cbn; lia). cbn [mbind result_bind] in H. rewrite app_nil_l in H.
  rewrite append_fits in H by (rewrite encodeNetwork_length, Hl; unfold INT_MAX; lia). injection H as <-.
  binary_case. split; [cbn [parameterBytes p_binary binary_parameter]; apply Forall_app; split; [done|apply encodeNetwork_ok]|].
  split; [left; by eexists|].
  cbn [decode bitset_codec has_value plain_element parameterBytes p_binary binary_parameter].
  rewrite length_app, encodeNetwork_length, Hl. change (negb (4 + 8 =? 12)%nat) with false. cbv iota.
  rewrite span_first_fits, subspan_fits by (rewrite length_app, Hl; lia). cbn [mbind decoded_bind]. change (Z.to_nat 4) with 4%nat.
  rewrite take_app_length', drop_app_length' by done. rewrite Hd. cbn [lift mbind decoded_bind]. rewrite network_roundtrip by (cbn; lia). done.
Defined.

(** ** Arrays *)

Section vector_laws.
Context {T : Type} {C : DBCodec T} {E : ElementType T} {L : CodecLaws T}.
#[local] Existing Instance element_codec.

Lemma element_oid_same : @oid T element_codec = @oid T C.
Proof. by rewrite same_codec. Qed.

Lemma takeInt_encoded v rest : - 2 ^ 31 <= v < 2 ^ 31 -> takeInt (T := T) (encodeNetwork 4 (as_bits 4 v) ++ rest) = Value (v, rest).
Proof.
  intros Hv. unfold takeInt. rewrite length_app, encodeNetwork_length. change (4 + length rest <? 4)%nat with false. cbv iota.
  rewrite span_first_fits, subspan_fits by (rewrite length_app, encodeNetwork_length; lia). cbn [mbind decoded_bind]. change (Z.to_nat 4) with 4%nat.
  rewrite take_app_length', drop_app_length' by by rewrite encodeNetwork_length. rewrite network_roundtrip by apply as_bits_range.
  cbn [lift mbind decoded_bind]. by rewrite signed_bits by (cbn; lia).
Qed.

Lemma as_bits_small n v : 0 <= v < 256 ^ Z.of_nat n -> as_bits n v = v.
Proof. intros Hv. unfold as_bits, wrapu. rewrite pow256 in Hv. by apply Z.mod_small. Qed.

Lemma takeInt_small v rest : 0 <= v < 2 ^ 31 -> takeInt (T := T) (encodeNetwork 4 v ++ rest) = Value (v, rest).
Proof. intros Hv. rewrite <- (as_bits_small 4 v) at 1 by (cbn; lia). apply takeInt_encoded. lia. Qed.

(** What one element adds, and that the reader takes it off again. *)
Lemma encode_element_spec has_null bytes v out : valid v -> encode_element has_null bytes v = Ok out ->
  (has_null = false -> has_value v = true) ->
  exists chunk, out = bytes ++ chunk /\ bytes_ok chunk /\ (4 <= length chunk)%nat
  /\ forall flag count rest acc, (has_null = true -> (flag =? 0) = false) ->
     decode_elements flag (S count) (chunk ++ rest) acc = decode_elements flag count rest (acc ++ [v]).
Proof.
  intros Hv H Hnn. unfold encode_element in H. destruct (encode v) as [p|e] eqn:Ep; [|done]. cbn [mbind result_bind] in H.
  assert (Ep' : @encode T C v = Ok p) by (rewrite <- Ep; by rewrite same_codec).
  destruct (encode_spec v p Hv Ep') as (Ho & Hst & Hok & Hval & Hdec).
  assert (Hnull : has_value v = negb (negb (bool_decide (is_Some (p_text p))) && negb (bool_decide (is_Some (p_binary p))))).
  { destruct (has_value v); [destruct Hval as [Hb|Ht]|destruct Hval as [Hb Ht]].
    - by rewrite (bool_decide_eq_true_2 _ Hb), andb_false_r.
    - by rewrite (bool_decide_eq_true_2 _ Ht).
    - by rewrite Hb, Ht. }
  repeat match type of H with (if ?b then Throw _ else _) = _ => destruct b eqn:?; [done|] end.
  set (null := negb (bool_decide (is_Some (p_text p))) && negb (bool_decide (is_Some (p_binary p)))) in *.
  destruct (checkLength (length (parameterBytes p))) as [[]|] eqn:Hcl; [|done]. cbn [mbind result_bind] in H.
  rewrite element_oid_same, Ho in H. cbn [mbind result_bind] in H. rewrite Z.eqb_refl in H. cbn [negb] in H.
  unfold checkLength in Hcl. destruct (INT_MAX <? Z.of_nat (length (parameterBytes p))) eqn:Hlen; [done|]. apply Z.ltb_ge in Hlen. unfold INT_MAX in Hlen.
  destruct (appendBytes bytes _) as [b1|] eqn:E1; [|done]. cbn [mbind result_bind] in H. apply append_inv in E1 as [-> _]. apply append_inv in H as [-> _].
  rewrite <- app_assoc. eexists. split; [reflexivity|]. split; [apply Forall_app; split; [apply encodeNetwork_ok|done]|].
  split; [rewrite length_app, encodeNetwork_length; lia|]. intros flag count rest acc Hflag.
  cbn [decode_elements]. rewrite <- app_assoc. rewrite takeInt_encoded by (destruct null; lia). cbn [mbind decoded_bind].
  destruct (has_value v) eqn:Ev.
  - assert (Hn : null = false) by by destruct null. rewrite Hn.
    replace (Z.of_nat (length (parameterBytes p)) =? -1) with false by (symmetry; apply Z.eqb_neq; lia).
    replace (Z.of_nat (length (parameterBytes p)) <? 0) with false by (symmetry; apply Z.ltb_ge; lia).
    replace (Z.of_nat (length (parameterBytes p ++ rest)) <? Z.of_nat (length (parameterBytes p))) with false
      by (symmetry; apply Z.ltb_ge; rewrite length_app; lia).
    cbn [orb]. rewrite span_first_fits, subspan_fits by (rewrite length_app; lia). cbn [mbind decoded_bind].
    rewrite Nat2Z.id, take_app_length, drop_app_length. rewrite same_codec, Hdec. done.
  - assert (Hn : null = true) by by destruct null. rewrite Hn. change (-1 =? -1) with true. cbv iota.
    destruct has_null; [|by specialize (Hnn eq_refl)]. rewrite (Hflag eq_refl). destruct Hdec as [_ ->]. cbn [mbind decoded_bind].
    destruct Hval as [Hb Ht]. unfold parameterBytes. by rewrite Hb, Ht.
Qed.

Lemma encode_elements_spec has_null vs : forall bytes out, Forall valid vs -> foldM (encode_element has_null) bytes vs = Ok out ->
  (has_null = false -> Forall (fun v => has_value v = true) vs) ->
  exists chunks, out = bytes ++ chunks /\ bytes_ok chunks /\ (4 * length vs <= length chunks)%nat
  /\ forall flag acc, (has_null = true -> (flag =? 0) = false) -> decode_elements flag (length vs) chunks acc = Value (acc ++ vs, []).
Proof.
  induction vs as [|v vs IH]; intros bytes out Hv H Hnn; cbn [foldM] in H.
  - injection H as <-. exists []. rewrite app_nil_r. split; [done|]. split; [constructor|]. split; [done|]. intros flag acc _. cbn. by rewrite app_nil_r.
  - inversion Hv as [|? ? Hv1 Hv2]; subst. destruct (encode_element has_null bytes v) as [b1|] eqn:E1; [|done]. cbn [mbind result_bind] in H.
    destruct (encode_element_spec has_null bytes v b1 Hv1 E1) as (chunk & -> & Hc & Hl & Hd); [by intros Hn; specialize (Hnn Hn); inversion Hnn|].
    destruct (IH _ out Hv2 H) as (chunks & -> & Hcs & Hls & Hds); [by intros Hn; specialize (Hnn Hn); inversion Hnn|].
    exists (chunk ++ chunks). rewrite app_assoc. split; [done|]. split; [by apply Forall_app|]. split; [rewrite length_app; cbn [length]; lia|].
    intros flag acc Hf. cbn [length]. rewrite Hd by done. rewrite Hds by done. by rewrite <- app_assoc.
Qed.

Lemma encoded_elements has_null vs v : forall bytes out, foldM (encode_element has_null) bytes vs = Ok out -> v ∈ vs -> exists q, @encode T C v = Ok q.
Proof.
  induction vs as [|w vs IH]; intros bytes out H Hin; [by apply elem_of_nil in Hin|]. cbn [foldM] in H.
  destruct (encode_element has_null bytes w) as [b|] eqn:Ew; [|done]. cbn [mbind result_bind] in H.
  apply elem_of_cons in Hin as [->|Hin]; [|by eapply IH]. unfold encode_element in Ew. rewrite <- same_codec.
  destruct (@encode T element_codec w) as [q|]; [by exists q|done].
Qed.

Lemma arrayOid_small o a : arrayOid o = Ok a -> 0 <= o < 2 ^ 31.
Proof. unfold arrayOid. intros H. repeat match type of H with (if ?o =? ?n then _ else _) = _ => destruct (Z.eqb_spec o n) as [->|]; [lia|] end. done. Qed.

Lemma encode_vector_roundtrip vs p : Forall valid vs -> encode_vector vs = Ok p ->
  array_oid (T := T) = Ok (p_oid p) /\ p_format p = binary_format /\ p_text p = None /\ (exists b, p_binary p = Some b) /\ bytes_ok (parameterBytes p)
  /\ decode_vector (parameterBytes p) = Value vs.
Proof.
  intros Hv H. unfold encode_vector in H. destruct (array_oid (T := T)) as [array|] eqn:Ea; [|done]. cbn [mbind result_bind] in H.
  assert (Ho : exists o, @oid T element_codec = Ok o /\ arrayOid o = Ok array).
  { unfold array_oid in Ea. destruct (@oid T element_codec) as [o|]; [|done]. by exists o. }
  destruct Ho as (o & Ho & Hao). apply arrayOid_small in Hao as Hor.
  destruct (checkLength (length vs)) as [[]|]; [|done]. cbn [mbind result_bind] in H.
  destruct ((INT_MAX - 20) / 4 <? Z.of_nat (length vs)) eqn:Hbig; [done|]. apply Z.ltb_ge in Hbig. change ((INT_MAX - 20) / 4) with 536870906 in Hbig.
  set (has_null := if is_optional then existsb (fun value => negb (has_value value)) vs else false) in *.
  destruct (appendBytes [] _) as [b1|] eqn:E1; [|done]. cbn [mbind result_bind] in H. apply append_inv in E1 as [-> _]. rewrite app_nil_l in H.
  destruct (appendBytes _ (encodeNetwork 4 (if has_null then 1 else 0))) as [b2|] eqn:E2; [|done]. cbn [mbind result_bind] in H. apply append_inv in E2 as [-> _].
  rewrite Ho in H. cbn [mbind result_bind] in H.
  destruct (appendBytes _ (encodeNetwork 4 o)) as [b3|] eqn:E3; [|done]. cbn [mbind result_bind] in H. apply append_inv in E3 as [-> _].
  destruct (match vs with [] => _ | _ => _ end) as [b4|] eqn:E4; [|done]. cbn [mbind result_bind] in H.
  destruct (foldM (encode_element has_null) b4 vs) as [b5|] eqn:Ef; [|done]. injection H as <-.
  assert (Hnn : has_null = false -> Forall (fun v => has_value v = true) vs).
  { intros Hn. apply Forall_forall. intros v Hin. destruct (has_value v) eqn:Ehv; [done|exfalso].
    assert (Hopt : is_optional = true -> False).
    { intros Hopt. subst has_null. rewrite Hopt in Hn. apply not_true_iff_false in Hn. apply Hn. apply existsb_exists. exists v. split; [by apply list_elem_of_In|by rewrite Ehv]. }
    destruct (encoded_elements has_null vs v b4 b5 Ef Hin) as [q Hq].
    rewrite Forall_forall in Hv. destruct (encode_spec v q (Hv v Hin) Hq) as (_ & _ & _ & _ & Hd). rewrite Ehv in Hd. exact (Hopt (proj1 Hd)). }
  destruct (encode_elements_spec has_null vs b4 b5 Hv Ef Hnn) as (chunks & -> & Hcok & Hclen & Hdec).
  cbn [p_oid p_format p_text p_binary binary_parameter]. split; [done|]. split; [done|]. split; [done|]. split; [by eexists|].
  unfold parameterBytes. cbn [p_binary binary_parameter]. unfold decode_vector.
  assert (Hflag : forall rest, takeInt (T := T) (encodeNetwork 4 (if has_null then 1 else 0) ++ rest) = Value (if has_null then 1 else 0, rest))
    by (intros rest; apply takeInt_small; by destruct has_null).
  assert (Hfl : negb ((if has_null then 1 else 0) =? 0) && negb ((if has_null then 1 else 0) =? 1) = false) by by destruct has_null.
  assert (Hf0 : has_null = true -> ((if has_null then 1 else 0) =? 0) = false) by by intros ->.
  destruct vs as [|v vs].
  - apply Ok_inj in E4. subst b4. cbn [foldM] in Ef. apply Ok_inj in Ef. rewrite <- Ef. split; [repeat (apply Forall_app; split); apply encodeNetwork_ok|].
    rewrite <- !app_assoc. rewrite takeInt_small by done. cbn [mbind decoded_bind]. rewrite Hflag. cbn [mbind decoded_bind].
    rewrite <- (app_nil_r (encodeNetwork 4 o)). rewrite takeInt_small by done. cbn [mbind decoded_bind]. rewrite Hfl. cbn [orb].
    change ((0 <? 0) || (1 <? 0)) with false. cbv iota. rewrite Ho. cbn [lift mbind decoded_bind]. rewrite as_bits_small by (cbn; lia). by rewrite Z.eqb_refl.
  - destruct (appendBytes _ (encodeNetwork 4 (Z.of_nat (length (v :: vs))))) as [b6|] eqn:E6; [|done]. cbn [mbind result_bind] in E4.
    apply append_inv in E6 as [-> _]. apply append_inv in E4 as [-> _].
    split; [repeat (apply Forall_app; split); try apply encodeNetwork_ok; done|].
    rewrite <- !app_assoc. rewrite takeInt_small by done. cbn [mbind decoded_bind]. rewrite Hflag. cbn [mbind decoded_bind].
    rewrite takeInt_small by done. cbn [mbind decoded_bind]. rewrite Hfl. change ((1 <? 0) || (1 <? 1)) with false. cbv iota.
    rewrite Ho. cbn [lift mbind decoded_bind]. rewrite as_bits_small by (cbn; lia). rewrite Z.eqb_refl. cbn [negb]. change (1 =? 1) with true. cbv iota.
    rewrite takeInt_small by lia. cbn [mbind decoded_bind]. rewrite takeInt_small by done. cbn [mbind decoded_bind].
    replace (Z.of_nat (length (v :: vs)) <? 0) with false by (symmetry; apply Z.ltb_ge; lia).
    replace (Z.of_nat (length chunks) / 4 <? Z.of_nat (length (v :: vs))) with false
      by (symmetry; apply Z.ltb_ge; apply Z.div_le_lower_bound; [lia|]; apply Nat2Z.inj_le in Hclen; lia).
    cbn [orb]. change (negb (1 =? 1)) with false. cbv iota. rewrite Nat2Z.id, Hdec by done. done.
Qed.
End vector_laws.

#[export] Instance vector_laws_instance {T} {C : DBCodec T} {E : ElementType T} {L : CodecLaws T} : CodecLaws (list T).
Proof.
  refine {| valid := Forall valid |}; [done|]. intros vs p Hv H. cbn [encode vector_codec] in H.
  destruct (encode_vector_roundtrip vs p Hv H) as (H1 & H2 & H3 & H4 & H5 & H6). split; [done|].
  split; [by right; left|]. split; [done|]. destruct H4 as [b Hb]. split; [left; by exists b|done].
Defined.

#[export] Instance option_laws {T} {C : DBCodec T} (L : CodecLaws T (E := plain_element)) : CodecLaws (option T).
Proof.
  refine {| valid v := match v with Some v => valid v | None => True end |}; [done|]. intros [v|] p Hv H; cbn [encode option_codec] in H.
  - destruct (encode_spec v p Hv H) as (H1 & H2 & H3 & H4 & H5). split; [done|]. split; [done|]. split; [done|]. cbn in H4, H5. split; [done|].
    cbn [has_value optional_element decode option_codec]. cbn. by rewrite H5.
  - destruct (oid T) as [o|] eqn:Eo; [|done]. injection H as <-. split; [exact Eo|]. split; [by left|]. split; [constructor|]. by split.
Defined.

(** ** Decoding any bytes *)

(** An error that names one of the types. *)
Definition names (types : list Z) (e : DBDecodeError) : Prop := e_actual_oid e = e_expected_oid e /\ e_expected_oid e ∈ types.

(** Bytes from the server give a value in the range of its type, whose OID is
    [o], or an error that names one of [types]; nothing is read past the end. *)
Definition Safe (T : Type) {C : DBCodec T} (o : Z) (types : list Z) (ok : T -> Prop) : Prop :=
  oid T = Ok o /\ forall bytes, bytes_ok bytes ->
    match decode (T := T) bytes with Value v => ok v | DecodeError e => names types e | Thrown _ => False end.

Lemma names_one o message : names [o] (DBDecodeError_make message size_max o o "" "" None).
Proof. split; [done|]. cbn. rewrite elem_of_cons. by left. Qed.
#[local] Hint Resolve names_one : core.

Lemma scalar_bits_safe n o bytes : bytes_ok bytes ->
  (exists v, scalar_bits n o bytes = Value v /\ 0 <= v < 256 ^ Z.of_nat n) \/ (exists e, scalar_bits n o bytes = DecodeError e /\ names [o] e).
Proof.
  intros Hb. unfold scalar_bits. destruct (length bytes =? n)%nat eqn:E; cbn [negb]; [left|right; eexists; split; [done|apply names_one]].
  apply Nat.eqb_eq in E. destruct (decodeNetwork_total n bytes E Hb) as (v & -> & Hv). by exists v.
Qed.

Lemma bool_safe : Safe bool 16 [16] (fun _ => True).
Proof. split; [done|]. intros bytes _. cbn [decode bool_codec]. destruct bytes as [|b [|]]; try apply names_one. destruct (negb (b =? 0) && negb (b =? 1)); [apply names_one|done]. Qed.

Lemma as_signed_range n bits : (0 < n)%nat -> - 2 ^ (8 * Z.of_nat n - 1) <= as_signed n bits < 2 ^ (8 * Z.of_nat n - 1).
Proof.
  intros Hn. unfold as_signed, wraps. set (w := 8 * Z.of_nat n). assert (Hw : 2 ^ w = 2 * 2 ^ (w - 1)) by (rewrite <- Z.pow_succ_r by lia; f_equal; lia).
  assert (0 < 2 ^ (w - 1)) by (apply Z.pow_pos_nonneg; lia). assert (H1 := Z.mod_pos_bound (bits + 2 ^ (w - 1)) (2 ^ w)). lia.
Qed.

Lemma sint_safe n : Safe (sint (S n)) (integer_oid (S n)) [integer_oid (S n)] (fun v => - 2 ^ (8 * Z.of_nat (S n) - 1) <= sint_value v < 2 ^ (8 * Z.of_nat (S n) - 1)).
Proof.
  split; [done|]. intros bytes Hb. cbn [decode sint_codec].
  destruct (scalar_bits_safe (S n) (integer_oid (S n)) bytes Hb) as [(v & -> & _)|(e & -> & He)]; [|done]. cbn [mbind decoded_bind sint_value]. apply as_signed_range. lia.
Qed.

Lemma uint_safe n : Safe (uint (S n)) (integer_oid (S n)) [integer_oid (S n)] (fun v => 0 <= uint_value v <= signed_max (S n)).
Proof.
  split; [done|]. intros bytes Hb. cbn [decode uint_codec].
  destruct (scalar_bits_safe (S n) (integer_oid (S n)) bytes Hb) as [(v & -> & Hv)|(e & -> & He)]; [|done]. cbn [mbind decoded_bind].
  destruct (signed_max (S n) <? v) eqn:E; [apply names_one|]. apply Z.ltb_ge in E. cbn [uint_value]. lia.
Qed.

Lemma float_safe n : Safe (floating (S n)) (float_oid (S n)) [float_oid (S n)] (fun v => 0 <= float_bits v < 256 ^ Z.of_nat (S n)).
Proof.
  split; [done|]. intros bytes Hb. cbn [decode float_codec].
  destruct (scalar_bits_safe (S n) (float_oid (S n)) bytes Hb) as [(v & -> & Hv)|(e & -> & He)]; done.
Qed.

Lemma text_safe : Safe string 25 [25] (fun t => has_nul t = false).
Proof. split; [done|]. intros [|b bytes] _; [done|]. cbn [decode text_codec]. destruct (has_nul (bytes_string (b :: bytes))) eqn:E; [apply names_one|done]. Qed.

Lemma bytea_safe : Safe bytea 17 [17] (fun v => bytes_ok (bytea_bytes v)).
Proof. by split. Qed.

Lemma bitset_safe : Safe bitset 1560 [1560] (fun v => 0 <= to_ullong v < 2 ^ 64).
Proof.
  split; [done|]. intros bytes Hb. cbn [decode bitset_codec]. destruct (length bytes =? 12)%nat eqn:E; cbn [negb]; [|apply names_one]. apply Nat.eqb_eq in E.
  rewrite span_first_fits, subspan_fits by lia. cbn [mbind decoded_bind]. change (Z.to_nat 4) with 4%nat.
  destruct (decodeNetwork_total 4 (take 4 bytes)) as (v & -> & _); [rewrite length_take; lia|by apply Forall_take|]. cbn [lift mbind decoded_bind].
  destruct (as_signed 4 v =? 64); cbn [negb]; [|apply names_one].
  destruct (decodeNetwork_total 8 (drop 4 bytes)) as (u & -> & Hu); [rewrite length_drop; lia|by apply Forall_drop|]. cbn [lift mbind decoded_bind to_ullong].
  by change (2 ^ 64) with (256 ^ Z.of_nat 8).
Qed.

Section vector_safe.
Context {T : Type} {C : DBCodec T} {E : ElementType T} (ok : T -> Prop) (o a : Z) (types : list Z).
#[local] Existing Instance element_codec | 0.
Context (Ho : @oid T element_codec = Ok o) (Ha : arrayOid o = Ok a) (Hin : a ∈ types).
Context (Hsafe : forall bytes, bytes_ok bytes ->
  match @decode T element_codec bytes with Value v => ok v | DecodeError e => names types e | Thrown _ => False end).
Context (Hnull : match nullopt (T := T) with Value v => ok v | DecodeError e => names types e | Thrown _ => False end).

(** The shape of all the steps of the reader. *)
Definition fine {A} (P : A -> Prop) (m : decoded A) : Prop :=
  match m with Value v => P v | DecodeError e => names types e | Thrown _ => False end.

Lemma fine_bind {A B} (P : A -> Prop) (Q : B -> Prop) (m : decoded A) (f : A -> decoded B) : fine P m -> (forall x, P x -> fine Q (f x)) -> fine Q (x ← m; f x).
Proof. destruct m as [x|e|e]; cbn; [intros Hp H; by apply H|done|done]. Qed.

Lemma array_oid_ok : array_oid (T := T) = Ok a.
Proof. unfold array_oid. rewrite Ho. exact Ha. Qed.

Lemma array_error {A} (P : A -> Prop) message : fine P (decodeError message (array_oid (T := T))).
Proof. rewrite array_oid_ok. split; [done|exact Hin]. Qed.

Lemma takeInt_safe bytes : bytes_ok bytes -> fine (fun r => bytes_ok (snd r)) (takeInt (T := T) bytes).
Proof.
  intros Hb. unfold takeInt. destruct (length bytes <? 4)%nat eqn:El; [apply array_error|]. apply Nat.ltb_ge in El.
  rewrite span_first_fits, subspan_fits by lia. change (Z.to_nat 4) with 4%nat. cbn [mbind decoded_bind].
  destruct (decodeNetwork_total 4 (take 4 bytes)) as (v & -> & _); [rewrite length_take; lia|by apply Forall_take|]. cbn. by apply Forall_drop.
Qed.

Lemma decode_elements_safe flag count : forall bytes acc, bytes_ok bytes -> Forall ok acc ->
  fine (fun r => Forall ok (fst r) /\ bytes_ok (snd r)) (decode_elements (T := T) flag count bytes acc).
Proof.
  induction count as [|count IH]; intros bytes acc Hb Hacc; [by split|]. cbn [decode_elements].
  apply (fine_bind (fun r => bytes_ok (snd r))); [by apply takeInt_safe|]. intros [len rest] Hr. cbn [snd] in Hr.
  destruct (len =? -1).
  - destruct (flag =? 0); [apply array_error|]. apply (fine_bind ok); [exact Hnull|]. intros v Hv. apply IH; [done|]. apply Forall_app. by split; [|constructor].
  - destruct ((len <? 0) || (Z.of_nat (length rest) <? len)) eqn:El; [apply array_error|]. apply orb_false_iff in El as [El1 El2]. apply Z.ltb_ge in El1, El2.
    rewrite span_first_fits, subspan_fits by lia. cbn [mbind decoded_bind]. apply (fine_bind ok).
    + apply Hsafe. by apply Forall_take.
    + intros v Hv. apply IH; [by apply Forall_drop|]. apply Forall_app. by split; [|constructor].
Qed.

Lemma decode_vector_safe bytes : bytes_ok bytes -> fine (Forall ok) (decode_vector (T := T) bytes).
Proof.
  intros Hb. unfold decode_vector.
  apply (fine_bind (fun r => bytes_ok (snd r))); [by apply takeInt_safe|]. intros [dimensions b1] Hb1. cbn [snd] in Hb1.
  apply (fine_bind (fun r => bytes_ok (snd r))); [by apply takeInt_safe|]. intros [flag b2] Hb2. cbn [snd] in Hb2.
  apply (fine_bind (fun r => bytes_ok (snd r))); [by apply takeInt_safe|]. intros [eo b3] Hb3. cbn [snd] in Hb3.
  destruct ((dimensions <? 0) || (1 <? dimensions)); [apply array_error|].
  destruct (negb (flag =? 0) && negb (flag =? 1)); [apply array_error|]. rewrite Ho. cbn [lift mbind decoded_bind].
  destruct (negb (as_bits 4 eo =? o)); [apply array_error|].
  apply (fine_bind (fun r => Forall ok (fst r) /\ bytes_ok (snd r))).
  - destruct (dimensions =? 1); [|by split].
    apply (fine_bind (fun r => bytes_ok (snd r))); [by apply takeInt_safe|]. intros [count b4] Hb4. cbn [snd] in Hb4.
    apply (fine_bind (fun r => bytes_ok (snd r))); [by apply takeInt_safe|]. intros [lower b5] Hb5. cbn [snd] in Hb5.
    destruct ((count <? 0) || (Z.of_nat (length b5) / 4 <? count)); [apply array_error|]. destruct (negb (lower =? 1)); [apply array_error|].
    by apply decode_elements_safe.
  - intros [vs b6] [Hvs _]. cbn [fst] in Hvs. destruct b6; [exact Hvs|apply array_error].
Qed.
End vector_safe.

Lemma names_more types types' e : types ⊆ types' -> names types e -> names types' e.
Proof. intros H [H1 H2]. split; [done|]. by apply H. Qed.

Lemma vector_safe {T} {C : DBCodec T} ok o types a : Safe T o types ok -> arrayOid o = Ok a -> o ∈ types -> Safe (list T) a (a :: types) (Forall ok).
Proof.
  intros [Ho Hs] Ha Hin. split; [cbn [oid vector_codec]; unfold array_oid; cbn [element_codec plain_element]; by rewrite Ho|].
  intros bytes Hb. cbn [decode vector_codec]. assert (Hhead : a ∈ a :: types) by (rewrite elem_of_cons; by left). apply (decode_vector_safe ok o a); [exact Ho|exact Ha|exact Hhead| | |done].
  - intros l Hl. specialize (Hs l Hl). cbn [element_codec plain_element]. destruct (decode l) as [v|e|e]; [done| |done]. eapply names_more; [|exact Hs]. set_solver.
  - cbn [nullopt plain_element]. rewrite Ho. cbn [lift mbind decoded_bind]. rewrite Ha. by split.
Qed.

Lemma option_safe {T} {C : DBCodec T} ok o types : Safe T o types ok -> Safe (option T) o types (fun v => exists w, v = Some w /\ ok w).
Proof.
  intros [Ho Hs]. split; [exact Ho|]. intros bytes Hb. cbn [decode option_codec]. specialize (Hs bytes Hb).
  destruct (decode bytes) as [v|e|e]; cbn; [by exists v|done|done].
Qed.

Lemma optional_vector_safe {T} {C : DBCodec T} ok o types a : Safe T o types ok -> arrayOid o = Ok a -> o ∈ types ->
  Safe (list (option T)) a (a :: types) (Forall (fun v => match v with Some w => ok w | None => True end)).
Proof.
  intros [Ho Hs] Ha Hin. split; [cbn [oid vector_codec]; unfold array_oid; cbn [element_codec optional_element oid option_codec]; by rewrite Ho|].
  intros bytes Hb. cbn [decode vector_codec]. assert (Hhead : a ∈ a :: types) by (rewrite elem_of_cons; by left). apply (decode_vector_safe _ o a); [exact Ho|exact Ha|exact Hhead| |done|done].
  intros l Hl. cbn [decode element_codec optional_element option_codec]. specialize (Hs l Hl). destruct (decode l) as [v|e|e]; [done| |done].
  eapply names_more; [|exact Hs]. set_solver.
Qed.

(** ** The types of columns *)

(** The types that have a codec, by PostgreSQL's catalogue: numbers of two,
    four and eight bytes, the floating point numbers of four and eight, and the
    rest; what of them a column may be. *)
Inductive number_size := two_bytes | four_bytes | eight_bytes.
Inductive plain_type := bool_type | int_type (s : number_size) | unsigned_type (s : number_size) | float_type | double_type | text_type | bytea_type | bit64_type.
Inductive value_type := Single (t : plain_type) | Array (t : plain_type) | Array_of_optional (t : plain_type).
Record column_kind := mkKind { kind_optional : bool; kind_value : value_type }.

Definition size_of (s : number_size) : nat := match s with two_bytes => 2 | four_bytes => 4 | eight_bytes => 8 end.

Definition plain_cpp (t : plain_type) : Type :=
  match t with
  | bool_type => bool | int_type s => sint (size_of s) | unsigned_type s => uint (size_of s) | float_type => floating 4 | double_type => floating 8
  | text_type => string | bytea_type => bytea | bit64_type => bitset
  end.
#[export] Instance plain_codec t : DBCodec (plain_cpp t) :=
  match t with
  | bool_type => bool_codec | int_type s => sint_codec (size_of s) | unsigned_type s => uint_codec (size_of s) | float_type => float_codec 4 | double_type => float_codec 8
  | text_type => text_codec | bytea_type => bytea_codec | bit64_type => bitset_codec
  end.

Definition value_cpp (t : value_type) : Type :=
  match t with Single t => plain_cpp t | Array t => list (plain_cpp t) | Array_of_optional t => list (option (plain_cpp t)) end.
#[export] Instance value_codec t : DBCodec (value_cpp t) :=
  match t with
  | Single t => plain_codec t
  | Array t => @vector_codec (plain_cpp t) plain_element
  | Array_of_optional t => @vector_codec (option (plain_cpp t)) optional_element
  end.

Definition column_of (c : column_kind) : Column :=
  if kind_optional c then mkColumn (option (value_cpp (kind_value c))) option_codec optional_element
  else mkColumn (value_cpp (kind_value c)) (value_codec (kind_value c)) plain_element.

(** The OIDs of the catalogue; there is no codec for arrays of bit strings. *)
Definition plain_oid (t : plain_type) : Z :=
  match t with
  | bool_type => 16 | int_type two_bytes | unsigned_type two_bytes => 21 | int_type four_bytes | unsigned_type four_bytes => 23 | int_type eight_bytes | unsigned_type eight_bytes => 20
  | float_type => 700 | double_type => 701 | text_type => 25 | bytea_type => 17 | bit64_type => 1560
  end.
Definition plain_array_oid (t : plain_type) : option Z :=
  match t with
  | bool_type => Some 1000 | int_type two_bytes | unsigned_type two_bytes => Some 1005 | int_type four_bytes | unsigned_type four_bytes => Some 1007
  | int_type eight_bytes | unsigned_type eight_bytes => Some 1016 | float_type => Some 1021 | double_type => Some 1022 | text_type => Some 1009 | bytea_type => Some 1001 | bit64_type => None
  end.
Definition value_oid (t : value_type) : option Z :=
  match t with Single t => Some (plain_oid t) | Array t | Array_of_optional t => plain_array_oid t end.
(** The types an error may name: an element that does not decode names its own. *)
Definition value_names (t : value_type) : list Z :=
  match t with
  | Single t => [plain_oid t]
  | Array t | Array_of_optional t => match plain_array_oid t with Some o => [o; plain_oid t] | None => [] end
  end.

(** The values of a type: what fits its width, bytes, and text without a zero byte. *)
Definition plain_range (t : plain_type) : plain_cpp t -> Prop :=
  match t with
  | bool_type => fun _ => True
  | int_type s => fun v => - 2 ^ (8 * Z.of_nat (size_of s) - 1) <= sint_value v < 2 ^ (8 * Z.of_nat (size_of s) - 1)
  | unsigned_type s => fun v => 0 <= uint_value v < 2 ^ (8 * Z.of_nat (size_of s) - 1)
  | float_type => fun v => 0 <= float_bits v < 2 ^ 32
  | double_type => fun v => 0 <= float_bits v < 2 ^ 64
  | text_type => fun v => has_nul v = false
  | bytea_type => fun v => bytes_ok (bytea_bytes v)
  | bit64_type => fun v => 0 <= to_ullong v < 2 ^ 64
  end.
Definition optional_range {T} (ok : T -> Prop) (v : option T) : Prop := match v with Some v => ok v | None => True end.
Definition value_range (t : value_type) : value_cpp t -> Prop :=
  match t with
  | Single t => plain_range t
  | Array t => Forall (plain_range t)
  | Array_of_optional t => Forall (optional_range (plain_range t))
  end.
Definition column_range (c : column_kind) : column_type (column_of c) -> Prop :=
  match c with mkKind true t => optional_range (value_range t) | mkKind false t => value_range t end.

(** Laws for fewer values. *)
Definition laws_for {T} {C : DBCodec T} {E : ElementType T} (L : CodecLaws T) (ok : T -> Prop) (H : forall v, ok v -> valid v) : CodecLaws T :=
  {| valid := ok; same_codec := same_codec; encode_spec v p Hv := encode_spec v p (H v Hv) |}.

Lemma plain_laws t : exists L : @CodecLaws (plain_cpp t) (plain_codec t) plain_element, @valid _ _ _ L = plain_range t.
Proof.
  destruct t as [|s|s| | | | |].
  - by exists (laws_for bool_laws (plain_range bool_type) (fun _ _ => I)).
  - assert (H : forall n, exists L : @CodecLaws (sint (S n)) _ plain_element, @valid _ _ _ L = fun v => - 2 ^ (8 * Z.of_nat (S n) - 1) <= sint_value v < 2 ^ (8 * Z.of_nat (S n) - 1)) by (intros n; by exists (sint_laws n)).
    destruct s; [exact (H 1%nat)|exact (H 3%nat)|exact (H 7%nat)].
  - assert (H : forall n, exists L : @CodecLaws (uint (S n)) _ plain_element, @valid _ _ _ L = fun v => 0 <= uint_value v < 2 ^ (8 * Z.of_nat (S n) - 1))
      by (intros n; exists (laws_for (uint_laws n) (fun v => 0 <= uint_value v < 2 ^ (8 * Z.of_nat (S n) - 1)) (fun v H => proj1 H)); done).
    destruct s; [exact (H 1%nat)|exact (H 3%nat)|exact (H 7%nat)].
  - by exists (float_laws 3).
  - by exists (float_laws 7).
  - by exists (laws_for text_laws (plain_range text_type) (fun _ _ => I)).
  - by exists bytea_laws.
  - by exists bitset_laws.
Qed.

Lemma value_laws t : exists L : @CodecLaws (value_cpp t) (value_codec t) plain_element, @valid _ _ _ L = value_range t.
Proof.
  destruct t as [t|t|t]; destruct (plain_laws t) as [L HL].
  - by exists L.
  - exists (@vector_laws_instance _ _ _ L). cbn. by rewrite HL.
  - exists (@vector_laws_instance _ _ _ (option_laws L)). cbn. by rewrite HL.
Qed.

Lemma column_laws c : exists L : @CodecLaws (column_type (column_of c)) (column_codec (column_of c)) (column_element (column_of c)), @valid _ _ _ L = column_range c.
Proof. destruct c as [[] t]; destruct (value_laws t) as [L HL]; [exists (option_laws L); cbn; by rewrite HL|by exists L]. Qed.

Lemma safe_weaken {T} {C : DBCodec T} o types (ok ok' : T -> Prop) : (forall v, ok v -> ok' v) -> Safe T o types ok -> Safe T o types ok'.
Proof. intros H [Ho Hs]. split; [done|]. intros bytes Hb. specialize (Hs bytes Hb). destruct (decode bytes); auto. Qed.

Lemma plain_safe t : Safe (plain_cpp t) (plain_oid t) [plain_oid t] (plain_range t).
Proof.
  destruct t as [|s|s| | | | |]; [exact bool_safe| | |exact (float_safe 3)|exact (float_safe 7)|exact text_safe|exact bytea_safe|exact bitset_safe].
  - destruct s; [exact (sint_safe 1)|exact (sint_safe 3)|exact (sint_safe 7)].
  - destruct s; (eapply safe_weaken; [|first [exact (uint_safe 1)|exact (uint_safe 3)|exact (uint_safe 7)]]); intros v Hv; cbn [plain_range size_of]; unfold signed_max in Hv; lia.
Qed.

Lemma plain_array_codes t o : plain_array_oid t = Some o -> arrayOid (plain_oid t) = Ok o /\ plain_oid t ∈ [plain_oid t].
Proof. intros H. split; [|rewrite elem_of_cons; by left]. destruct t as [|[]|[]| | | | |]; cbn in H; congruence || (apply (inj Some) in H as <-; done). Qed.

(** ** Rows *)

Section row_laws.
Context {R : Type} {P : PGResult R}.

(** A cell of a column of type [o] holds a parameter. *)
Definition holds (r : R) (row i : nat) (p : DBParameter) : Prop :=
  PQftype r i = p_oid p /\ PQfformat r i = 1
  /\ PQgetisnull r row i = negb (bool_decide (is_Some (p_binary p)) || bool_decide (is_Some (p_text p)))
  /\ PQgetvalue r row i = parameterBytes p.

Lemma decodeColumn_holds r row i c v p (L : @CodecLaws (column_type c) (column_codec c) (column_element c)) :
  @valid _ _ _ L v -> @encode _ (column_codec c) v = Ok p -> holds r row i p -> decodeColumn r c row i = Value v /\ validateColumn r c i = Value tt.
Proof.
  intros Hv He (Ht & Hf & Hn & Hg). destruct (encode_spec v p Hv He) as (Ho & _ & _ & Hval & Hdec).
  unfold decodeColumn, validateColumn. rewrite Ho, Ht, Hf. cbn [lift mbind decoded_bind]. split; [|by rewrite Z.eqb_refl]. rewrite Hn, Hg.
  destruct (@has_value _ (column_element c) v).
  - replace (bool_decide (is_Some (p_binary p)) || bool_decide (is_Some (p_text p))) with true; [cbn [negb]; by rewrite Hdec|].
    symmetry. apply orb_true_iff. destruct Hval as [H|H]; [left|right]; by apply bool_decide_eq_true_2.
  - destruct Hval as [-> ->], Hdec as [-> ->]. done.
Qed.

(** The cells of a row hold the parameters its values were written as. *)
Fixpoint row_written (r : R) (row i : nat) (cs : list column_kind) : row_type (column_of <$> cs) -> Prop :=
  match cs return row_type (column_of <$> cs) -> Prop with
  | [] => fun _ => True
  | c :: cs => fun vs => column_range c (fst vs) /\ (exists p, @encode _ (column_codec (column_of c)) (fst vs) = Ok p /\ holds r row i p)
                         /\ row_written r row (S i) cs (snd vs)
  end.

Lemma decodeRow_written r row cs : forall i vs, row_written r row i cs vs ->
  decodeRow r (column_of <$> cs) row i = Value vs /\ validateColumns r (column_of <$> cs) i = Value tt.
Proof.
  induction cs as [|c cs IH]; intros i vs H; [by destruct vs|]. destruct vs as [v vs]. destruct H as (Hr & (p & He & Hp) & Hs). cbn [fst snd] in *.
  destruct (column_laws c) as [L HL]. rewrite <- HL in Hr. destruct (decodeColumn_holds r row i _ v p L Hr He Hp) as [H1 H2].
  destruct (IH (S i) vs Hs) as [H3 H4]. change (column_of <$> c :: cs) with (column_of c :: (column_of <$> cs)). cbn [decodeRow validateColumns]. rewrite H1, H2.
  cbn [mbind decoded_bind]. by rewrite H3, H4.
Qed.
End row_laws.

(** ** Texts *)

(** The words of a text. *)
Fixpoint split_words (word : string) (s : string) : list string :=
  match s with
  | EmptyString => if sempty word then [] else [word]
  | String c s => if isspace c then (if sempty word then [] else [word]) ++ split_words EmptyString s else split_words (word +:+ String c EmptyString) s
  end.
Definition words (s : string) : list string := split_words EmptyString s.

Lemma sempty_append a c : sempty (a +:+ String c EmptyString) = false.
Proof. by destruct a. Qed.

Lemma sjoin_snoc ws w : sjoin " " (ws ++ [w]) = if decide (ws = []) then w else sjoin " " ws +:+ " " +:+ w.
Proof.
  destruct ws as [|x ws]; [done|]. cbn [app sjoin]. rewrite decide_False by done. by rewrite foldl_app.
Qed.

Lemma sjoin_empty ws : Forall (fun w => sempty w = false) ws -> sempty (sjoin " " ws) = bool_decide (ws = []).
Proof.
  destruct ws as [|w ws] using rev_ind; [done|]. intros Hw. rewrite sjoin_snoc. apply Forall_app in Hw as [_ Hw]. inversion Hw as [|? ? H _]; subst.
  rewrite bool_decide_eq_false_2 by by destruct ws. case_decide; [done|]. destruct w; [done|]. destruct (sjoin " " ws); done.
Qed.

Lemma format_loop_words s : forall ws0 word, Forall (fun w => sempty w = false) ws0 ->
  format_loop (sjoin " " (ws0 ++ if sempty word then [] else [word])) (sempty word && negb (bool_decide (ws0 = []))) s
  = sjoin " " (ws0 ++ split_words word s).
Proof.
  induction s as [|c s IH]; intros ws0 word Hd; cbn [format_loop split_words]; [done|].
  destruct (isspace c) eqn:Ec.
  - destruct (sempty word) eqn:Ew.
    + rewrite app_nil_r, app_nil_l. specialize (IH ws0 EmptyString Hd). cbn [sempty] in IH. rewrite app_nil_r in IH. rewrite <- IH.
      rewrite sjoin_empty by done. done.
    + assert (Hd' : Forall (fun w => sempty w = false) (ws0 ++ [word])) by (apply Forall_app; split; [done|by constructor]).
      specialize (IH (ws0 ++ [word]) EmptyString Hd'). cbn [sempty] in IH. rewrite app_nil_r in IH. rewrite app_assoc, <- IH.
      rewrite sjoin_empty by done. done.
  - specialize (IH ws0 (word +:+ String c EmptyString) Hd). rewrite sempty_append in IH. cbn [andb] in IH. rewrite <- IH. f_equal.
    rewrite sjoin_snoc. destruct (sempty word) eqn:Ew; cbn [andb].
    + assert (word = EmptyString) as -> by by destruct word. rewrite app_nil_r. cbn [append].
      destruct (decide (ws0 = [])) as [->|Hne']; [done|]. rewrite bool_decide_eq_false_2 by done. cbn [negb]. by rewrite sapp_assoc.
    + rewrite sjoin_snoc. destruct (decide (ws0 = [])); [done|]. by rewrite !sapp_assoc.
Qed.

(** What PostgreSQL reads as a list of quoted identifiers. *)
Fixpoint read_quoted (s : string) : option (string * string) :=
  match s with
  | EmptyString => None
  | String c s =>
      if Ascii.eqb c dquotation then
        match s with
        | String c' s' => if Ascii.eqb c' dquotation then (fun '(i, r) => (String c i, r)) <$> read_quoted s' else Some (EmptyString, s)
        | EmptyString => Some (EmptyString, EmptyString)
        end
      else (fun '(i, r) => (String c i, r)) <$> read_quoted s
  end.

Fixpoint read_path (fuel : nat) (s : string) : option (list string) :=
  match fuel, s with
  | S fuel, String c s =>
      if Ascii.eqb c dquotation then
        '(i, r) ← read_quoted s;
        match r with
        | EmptyString => Some [i]
        | String c r => if Ascii.eqb c "," then cons i <$> read_path fuel r else None
        end
      else None
  | _, _ => None
  end.

Lemma read_quoted_double t : read_quoted (String dquotation (String dquotation t)) = (fun '(i, r) => (String dquotation i, r)) <$> read_quoted t.
Proof. reflexivity. Qed.

Lemma read_quoted_other c t : Ascii.eqb c dquotation = false -> read_quoted (String c t) = (fun '(i, r) => (String c i, r)) <$> read_quoted t.
Proof. intros H. cbn [read_quoted]. by rewrite H. Qed.

Lemma read_quoted_loop s rest : match rest with String c _ => Ascii.eqb c dquotation = false | EmptyString => True end ->
  read_quoted (quote_loop s +:+ String dquotation rest) = Some (s, rest).
Proof.
  intros Hr. induction s as [|c s IH].
  - cbn. destruct rest as [|c rest]; [done|]. by rewrite Hr.
  - cbn [quote_loop]. destruct (Ascii.eqb c dquotation) eqn:E.
    + apply Ascii.eqb_eq in E as ->. by rewrite !sapp_cons, read_quoted_double, IH.
    + by rewrite sapp_cons, read_quoted_other, IH.
Qed.

Lemma read_path_step fuel s rest : match rest with String c _ => Ascii.eqb c dquotation = false | EmptyString => True end ->
  read_path (S fuel) (String dquotation (quote_loop s +:+ String dquotation rest)) =
  match rest with EmptyString => Some [s] | String c r => if Ascii.eqb c "," then cons s <$> read_path fuel r else None end.
Proof. intros Hr. cbn [read_path]. change (Ascii.eqb dquotation dquotation) with true. cbv iota. by rewrite read_quoted_loop. Qed.

(** ** Lists of parameters *)

(** What [append] lets in. *)
Definition parameter_ok (p : DBParameter) : Prop :=
  p_oid p <> 0 /\ Z.of_nat (length (parameterBytes p)) <= INT_MAX
  /\ (is_Some (p_binary p) -> p_text p = None /\ p_format p = binary_format)
  /\ (forall t, p_text p = Some t -> p_format p = text_format /\ has_nul t = false).

Definition bindings_ok (b : DBBindings) : Prop := Forall parameter_ok (m_values b) /\ Z.of_nat (length (m_values b)) <= INT_MAX.

Lemma append_ok p b b' : bindings_ok b -> append p b = Ok b' -> bindings_ok b' /\ m_values b' = m_values b ++ [p].
Proof.
  intros [Hb Hl] H. unfold append in H. repeat match type of H with (if ?b then Throw _ else _) = _ => destruct b eqn:?; [done|] end.
  unfold checkLength in H. destruct (INT_MAX <? Z.of_nat (length (parameterBytes p))) eqn:El; [done|]. injection H as <-. apply Z.ltb_ge in El.
  split; [|done]. split; cbn [m_values].
  - apply Forall_app. split; [done|]. constructor; [|done]. split; [by apply Z.eqb_neq|]. split; [done|]. split.
    + intros Hs. rewrite (bool_decide_eq_true_2 _ Hs) in *. cbn [andb] in *. split.
      * destruct (p_text p) as [t|]; [|done]. exfalso. match goal with H : bool_decide (is_Some (Some t)) = false |- _ => apply bool_decide_eq_false in H; apply H; by eexists end.
      * destruct (decide (p_format p = binary_format)); [done|]. by rewrite bool_decide_eq_false_2 in * by done.
    + intros t Ht. rewrite Ht in *. rewrite (bool_decide_eq_true_2 (is_Some (Some t))) in * by by eexists. cbn [andb] in *. split; [|done].
      destruct (decide (p_format p = text_format)); [done|]. by rewrite bool_decide_eq_false_2 in * by done.
  - rewrite length_app. cbn [length]. match goal with H : (INT_MAX <=? _) = false |- _ => apply Z.leb_gt in H end. lia.
Qed.

(** ** Properties *)

(** C37: a row whose cells hold the parameters its values were written as reads
    back as those values, whatever the types of the columns: numbers of each
    width and sign, booleans, texts, byte strings, bit strings, arrays of them
    and arrays of optionals, each of them optional or not. *)
Theorem rows_read_back {R} {P : PGResult R} (cs : list column_kind) (r : R) sql index vs :
  row_written r index 0 cs vs -> cs <> [] -> PQresultStatus r = PGRES_TUPLES_OK -> PQnfields r = length cs -> (index < PQntuples r)%nat ->
  exists rows, DBRows_make (column_of <$> cs) (Some r) sql = Value rows /\ row (column_of <$> cs) index rows = Value vs.
Proof.
  intros Hs Hne Hst Hn Hi. destruct (decodeRow_written r index cs 0 vs Hs) as [Hd Hv]. exists (mkRows (Some r) sql). split.
  - unfold DBRows_make. rewrite Hst, Hn, bool_decide_eq_true_2 by set_solver. cbn [negb]. rewrite length_fmap, Nat.eqb_refl, Hv. by destruct cs.
  - unfold row, rows_size. cbn [m_result]. replace (PQntuples r <=? index)%nat with false by (symmetry; by apply Nat.leb_gt). by rewrite Hd.
Qed.

(** C38: whatever bytes a server sends, decoding them for a column of any type
    gives a value in the range of that type or an error that names the type's
    OID of the catalogue, or that of its elements; no read leaves the bytes and
    no other exception leaves the decoder. *)
Theorem decoding_is_safe t o : value_oid t = Some o ->
  Safe (value_cpp t) o (value_names t) (value_range t)
  /\ Safe (option (value_cpp t)) o (value_names t) (fun v => exists w, v = Some w /\ value_range t w).
Proof.
  intros Ho. assert (H : Safe (value_cpp t) o (value_names t) (value_range t)); [|split; [exact H|by apply option_safe]].
  destruct t as [t|t|t]; cbn [value_oid value_names] in *.
  - injection Ho as <-. apply plain_safe.
  - rewrite Ho. destruct (plain_array_codes t o Ho) as [Ha Hin]. by apply (vector_safe _ (plain_oid t)); [apply plain_safe|..].
  - rewrite Ho. destruct (plain_array_codes t o Ho) as [Ha Hin]. by apply (optional_vector_safe _ (plain_oid t)); [apply plain_safe|..].
Qed.

(** PostgreSQL reads the search path made of a schema and the schema of the
    extensions as just these names, whatever characters they have: quotes,
    commas and blanks do not end a name. *)
Theorem search_path_reads_back schema extension_schema path : makeSearchPath schema extension_schema = Ok path ->
  read_path 2 path = Some (if String.eqb schema extension_schema then [schema] else [schema; extension_schema]).
Proof.
  unfold makeSearchPath, quoteSchemaIdentifier. intros H.
  destruct (sempty schema || has_nul schema); [done|]. cbn [mbind result_bind] in H.
  destruct (sempty extension_schema || has_nul extension_schema); [done|]. cbn [mbind result_bind] in H. apply Ok_inj in H. subst path.
  destruct (String.eqb schema extension_schema).
  - rewrite !sapp_cons. exact (read_path_step 1 schema "" I).
  - rewrite !sapp_cons, !sapp_assoc, !sapp_cons.
    change (read_path 2 (String dquotation (quote_loop schema +:+ String dquotation
      (String "," (String dquotation (quote_loop extension_schema +:+ String dquotation ""))))) = Some [schema; extension_schema]).
    rewrite read_path_step by done. change (Ascii.eqb "," ",") with true. cbv iota. by rewrite read_path_step.
Qed.

(** SQL in a log line is its words with single blanks between them. *)
Theorem formatSqlForLog_words sql : formatSqlForLog sql = sjoin " " (words sql).
Proof. exact (format_loop_words sql [] EmptyString (Forall_nil_2 _)). Qed.

(** The parameters given to libpq are valid however they were bound: each has
    a type, fits the length and is stored in the one form its format names,
    without a zero byte in text; the four parallel lists have their number,
    and only NULL has no pointer. *)
Theorem bindings_are_valid ps b : foldM (fun b p => append p b) DBBindings_make ps = Ok b ->
  m_values b = ps /\ bindings_ok b /\ length (oids b) = length ps /\ length (pointers b) = length ps /\ length (lengths b) = length ps /\ length (formats b) = length ps
  /\ Forall (fun n => 0 <= n <= INT_MAX) (lengths b)
  /\ forall i p, ps !! i = Some p -> (pointers b !! i = Some None <-> p_binary p = None /\ p_text p = None).
Proof.
  intros H. assert (Hgen : forall b0, bindings_ok b0 -> foldM (fun b p => append p b) b0 ps = Ok b -> bindings_ok b /\ m_values b = m_values b0 ++ ps).
  { clear H. induction ps as [|p ps IH]; intros b0 Hb0 H; cbn [foldM] in H; [apply Ok_inj in H as <-; by rewrite app_nil_r|].
    destruct (append p b0) as [b1|] eqn:E; [|done]. cbn [mbind result_bind] in H. destruct (append_ok p b0 b1 Hb0 E) as [Hb1 Hm].
    destruct (IH b1 Hb1 H) as [Hb Hv]. split; [done|]. by rewrite Hv, Hm, <- app_assoc. }
  destruct (Hgen DBBindings_make) as [Hb Hv]; [split; [constructor|done]|done|]. cbn [m_values DBBindings_make app] in Hv.
  split; [done|]. split; [done|]. unfold oids, pointers, lengths, formats. rewrite !length_fmap, Hv. do 4 (split; [done|]). split.
  - apply Forall_fmap. destruct Hb as [Hb _]. rewrite Hv in Hb. eapply Forall_impl; [exact Hb|]. intros p (_ & Hl & _). cbn. lia.
  - intros i p Hi. rewrite list_lookup_fmap, Hi. cbn. destruct (p_text p), (p_binary p) as [[|]|]; split; try done; intros [? ?]; done.
Qed.

(** ** The properties at concrete values *)
Module Example_codec.
(** A result of one row, as lists of cells; a column is its type and name. *)
Record Cells := mkCells { header : list (Z * string); cells : list (option (list Z)) }.
#[export] Instance cells_result : PGResult Cells := {
  PQresultStatus _ := PGRES_TUPLES_OK;
  PQnfields r := length (header r);
  PQntuples _ := 1%nat;
  PQfname r i := snd <$> header r !! i;
  PQftype r i := default 0 (fst <$> header r !! i);
  PQfformat _ _ := 1;
  PQgetisnull r _ i := match cells r !! i with Some (Some _) => false | _ => true end;
  PQgetvalue r _ i := match cells r !! i with Some (Some l) => l | _ => [] end }.

Definition columns : list column_kind := [mkKind false (Single (int_type four_bytes)); mkKind true (Single text_type); mkKind false (Array_of_optional (int_type two_bytes)); mkKind false (Single bool_type)].
Definition cell (p : result DBParameter) : option (list Z) :=
  match p with Ok p => if bool_decide (p_binary p = None) && bool_decide (p_text p = None) then None else Some (parameterBytes p) | Throw _ => None end.
Definition numbers : list (option (sint 2)) := [Some (Sint 1); None; Some (Sint (-2))].
Definition values : row_type (column_of <$> columns) := (Sint (-7), (None, (numbers, (true, tt)))).
Definition one_row : Cells :=
  mkCells [(23, "id"); (25, "note"); (1005, "numbers"); (16, "kept")]
    [cell (encode (T := sint 4) (Sint (-7))); cell (encode (T := option string) None); cell (encode numbers); cell (encode true)].

Lemma one_row_written : row_written one_row 0 0 columns values.
Proof.
  split; [cbn; lia|]. split; [eexists; split; [reflexivity|]; repeat split|]. split; [done|]. split; [eexists; split; [reflexivity|]; repeat split|].
  split; [cbn; unfold numbers; repeat constructor; cbn; lia|]. split; [eexists; split; [vm_compute; reflexivity|]; repeat split|].
  split; [done|]. split; [eexists; split; [reflexivity|]; repeat split|done].
Qed.

Lemma rows_read_back_witness : exists rows, DBRows_make (column_of <$> columns) (Some one_row) "SELECT" = Value rows /\ row (column_of <$> columns) 0 rows = Value values.
Proof. exact (rows_read_back columns one_row "SELECT" 0 values one_row_written ltac:(done) eq_refl eq_refl (le_n 1)). Defined.

(** An array whose element claims more bytes than there are. *)
Lemma decoding_is_safe_witness :
  match decode (T := value_cpp (Array text_type)) [0;0;0;1; 0;0;0;0; 0;0;0;25; 0;0;0;1; 0;0;0;1; 0;0;0;9; 97] with
  | Value v => value_range (Array text_type) v | DecodeError e => names [1009; 25] e | Thrown _ => False end.
Proof. apply (decoding_is_safe (Array text_type) 1009 eq_refl). repeat constructor; lia. Defined.

Lemma search_path_reads_back_witness : read_path 2 (quote_loop "" +:+ String dquotation ("a,b" +:+ String dquotation ("," +:+ String dquotation ("public" +:+ String dquotation ""))))
  = Some ["a,b"; "public"].
Proof. apply (search_path_reads_back "a,b" "public"). vm_compute. reflexivity. Defined.

Lemma bindings_are_valid_witness : exists b, foldM (fun b p => append p b) DBBindings_make [mkParameter 25 text_format None (Some "x") false; null_parameter 23] = Ok b
  /\ pointers b = [Some [120; 0]; None].
Proof.
  eexists. split; [reflexivity|].
  destruct (bindings_are_valid [mkParameter 25 text_format None (Some "x") false; null_parameter 23] _ eq_refl) as [H _]. unfold pointers. rewrite H. vm_compute. reflexivity.
Defined.
End Example_codec.
