(* ===== verification/DbConnection.v ===== *)
(** * Operations and connections of the database library

    [IDHANDb/src/DBOperation.cpp] with the awaiter of [DBTask.cpp], and
    [DBConnection.cpp]: the handshake, and the pump that sends operations in a
    pipeline and hands each its results.  The locked sections of callers and of
    the pump are steps of one world, so a run is an interleaving; that a
    connection has one pump at a time is what [DbReactor.v] proves.

    libpq is a class: what its functions answer, and the state of a connection
    it keeps.  A continuation and an operation are numbers; times are given. *)
From S2P Require Import Prelude StringView Bytes DbCodec DbReactor.

(** ** Errors of queries *)

Record DBDiagnostics := mkDiagnostics {
  sqlstate : string; severity : string; d_message : string; detail : string; hint : string; context : string;
  d_schema : string; d_table : string; d_column : string; data_type : string; constraint : string; query_id : Z }.

(** The exceptions an operation ends with. *)
Inductive error :=
  | DBQueryError (d : DBDiagnostics) | DBConstraintError (d : DBDiagnostics) | DBQueryTimeout (d : DBDiagnostics)
  | DBOperationCancelled | other_error (e : exn).

(** The fields of an error, by libpq's codes (letters). *)
Class Libpq (R PGconn : Type) := {
  resultStatus : R -> Status;
  PQresultErrorField : R -> string -> option string;
  PQresultErrorMessage : R -> string;
  PQerrorMessage : PGconn -> string;
  PQsendQueryParams : string -> Z -> list Z -> list (option (list Z)) -> list Z -> list Z -> Z -> PGconn -> bool * PGconn;
  PQpipelineSync : PGconn -> bool * PGconn;
  PQflush : PGconn -> Z * PGconn;
  PQconsumeInput : PGconn -> bool * PGconn;
  PQisBusy : PGconn -> bool;
  PQgetResult : PGconn -> option R * PGconn;
  PQsocket : PGconn -> Z;
  PQconnectPoll : PGconn -> Z * PGconn;
  PQsetnonblocking : PGconn -> bool * PGconn;
  PQenterPipelineMode : PGconn -> bool * PGconn }.

Inductive OperationPhase := cold | op_queued | op_sent | streaming | synchronizing | op_completed | abandoned.
#[export] Instance OperationPhase_eq_dec : EqDecision OperationPhase.
Proof. solve_decision. Defined.

Inductive ConnectionState := cs_cold | connecting | configuring | connected | failed.
#[export] Instance ConnectionState_eq_dec : EqDecision ConnectionState.
Proof. solve_decision. Defined.

Inductive ConnectionRole := normal | transaction_role | management.
#[export] Instance ConnectionRole_eq_dec : EqDecision ConnectionRole.
Proof. solve_decision. Defined.

Section operation.
Context {R PGconn : Type} {L : Libpq R PGconn}.

Definition connectionError (conn : option PGconn) (operation : string) : exn :=
  runtime_error (operation +:+ ": " +:+ match conn with Some c => PQerrorMessage c | None => "libpq could not allocate a connection" end).

Definition diagnosticField (result : R) (field : string) : string := default "" (PQresultErrorField result field).

Definition queryError (result : R) (query : Z) : error :=
  let message := diagnosticField result "M" in
  let message := if sempty message then PQresultErrorMessage result else message in
  let d := mkDiagnostics (diagnosticField result "C") (diagnosticField result "V") message (diagnosticField result "D") (diagnosticField result "H")
    (diagnosticField result "W") (diagnosticField result "s") (diagnosticField result "t") (diagnosticField result "c") (diagnosticField result "d")
    (diagnosticField result "n") query in
  if String.eqb (sqlstate d) "57014" then DBQueryTimeout d
  else if starts_with "23" (sqlstate d) then DBConstraintError d
  else DBQueryError d.

(** ** Operations *)

Record DBOperation := mkOperation {
  m_id : Z; m_sql : string; m_bindings : DBBindings; m_format : Z;
  m_phase : OperationPhase; m_starter : bool; m_continuation : option nat;
  m_result : option R; m_error : option error;
  m_sent_at : option Z; m_first_result_at : option Z; m_completed_at : option Z;
  m_consumer_cancelled : bool }.

Definition DBOperation_make (id : Z) (sql : string) (bindings : DBBindings) (format : Z) : result DBOperation :=
  if sempty sql then Throw (invalid_argument "Database SQL cannot be empty")
  else Ok (mkOperation id sql bindings format cold false None None None None None None false).

Definition set_phase (p : OperationPhase) (o : DBOperation) : DBOperation :=
  mkOperation (m_id o) (m_sql o) (m_bindings o) (m_format o) p (m_starter o) (m_continuation o) (m_result o) (m_error o)
    (m_sent_at o) (m_first_result_at o) (m_completed_at o) (m_consumer_cancelled o).
Definition set_continuation (c : option nat) (o : DBOperation) : DBOperation :=
  mkOperation (m_id o) (m_sql o) (m_bindings o) (m_format o) (m_phase o) (m_starter o) c (m_result o) (m_error o)
    (m_sent_at o) (m_first_result_at o) (m_completed_at o) (m_consumer_cancelled o).
Definition set_outcome (r : option R) (e : option error) (o : DBOperation) : DBOperation :=
  mkOperation (m_id o) (m_sql o) (m_bindings o) (m_format o) (m_phase o) (m_starter o) (m_continuation o) r e
    (m_sent_at o) (m_first_result_at o) (m_completed_at o) (m_consumer_cancelled o).
Definition set_times (s f c : option Z) (o : DBOperation) : DBOperation :=
  mkOperation (m_id o) (m_sql o) (m_bindings o) (m_format o) (m_phase o) (m_starter o) (m_continuation o) (m_result o) (m_error o)
    s f c (m_consumer_cancelled o).
Definition set_cancelled (o : DBOperation) : DBOperation :=
  mkOperation (m_id o) (m_sql o) (m_bindings o) (m_format o) (m_phase o) (m_starter o) (m_continuation o) (m_result o) (m_error o)
    (m_sent_at o) (m_first_result_at o) (m_completed_at o) true.

Definition setStarter (o : DBOperation) : result DBOperation :=
  if decide (m_phase o = cold) then
    Ok (mkOperation (m_id o) (m_sql o) (m_bindings o) (m_format o) (m_phase o) true (m_continuation o) (m_result o) (m_error o)
          (m_sent_at o) (m_first_result_at o) (m_completed_at o) (m_consumer_cancelled o))
  else Throw (logic_error "Cannot alter a started database operation").

(** The locked part of [start]; whether the starter is then called. *)
Definition start_op (o : DBOperation) : result (DBOperation * bool) :=
  if decide (m_phase o = cold) then
    if m_starter o then Ok (set_phase op_queued o, true) else Throw (logic_error "Cold database operation has no pool starter")
  else Ok (o, false).

Definition markQueued (o : DBOperation) : result DBOperation :=
  if decide (m_phase o = op_queued) then Ok o
  else if decide (m_phase o = cold) then Ok (set_phase op_queued o)
  else Throw (logic_error "Database operation was queued more than once").

(** The calls of [send]. *)
Definition send_calls (o : DBOperation) (pipeline : bool) (c : PGconn) : bool * PGconn :=
  let oids := oids (m_bindings o) in
  let '(ok, c) := PQsendQueryParams (m_sql o) (wraps 32 (Z.of_nat (length oids))) oids (pointers (m_bindings o)) (lengths (m_bindings o))
                    (formats (m_bindings o)) (m_format o) c in
  if negb ok then (false, c) else if pipeline then PQpipelineSync c else (true, c).

(** Its locked part. *)
Definition mark_sent (now : Z) (o : DBOperation) : result DBOperation :=
  if decide (m_phase o = op_queued) then Ok (set_times (Some now) (m_first_result_at o) (m_completed_at o) (set_phase op_sent o))
  else Throw (logic_error "Sent database operation was not queued").

Definition in_flight (o : DBOperation) : bool := bool_decide (m_phase o = op_sent) || bool_decide (m_phase o = synchronizing).

Definition acceptResult (now : Z) (r : R) (o : DBOperation) : result DBOperation :=
  if negb (in_flight o) then Throw (logic_error "Result does not belong to a sent database operation")
  else if bool_decide (is_Some (m_result o)) then Throw (logic_error "Database operation returned more than one primary result")
  else Ok (set_phase synchronizing (set_times (m_sent_at o) (Some now) (m_completed_at o) (set_outcome (Some r) (m_error o) o))).

Definition acceptFailure (now : Z) (e : error) (o : DBOperation) : result DBOperation :=
  if negb (in_flight o) then Throw (logic_error "Error does not belong to a sent database operation")
  else Ok (set_phase synchronizing (set_times (m_sent_at o) (Some now) (m_completed_at o) (set_outcome (m_result o) (Some e) o))).

(** What the executor is given to resume. *)
Definition resume (c : option nat) : list nat := match c with Some c => [c] | None => [] end.

Definition complete (now : Z) (o : DBOperation) : result (DBOperation * list nat) :=
  if negb (in_flight o) then Throw (logic_error "Completed database operation was not sent")
  else Ok (set_continuation None (set_times (m_sent_at o) (m_first_result_at o) (Some now) (set_phase op_completed o)), resume (m_continuation o)).

Definition fail (e : error) (o : DBOperation) : result (DBOperation * list nat) :=
  if bool_decide (m_phase o = op_completed) || bool_decide (m_phase o = abandoned) then Throw (logic_error "Cannot fail a completed database operation")
  else Ok (set_continuation None (set_phase op_completed (set_outcome (m_result o) (Some e) o)), resume (m_continuation o)).

Inductive taken := Taken (r : R) | Raised (e : error).

Definition takeResult (o : DBOperation) : taken * DBOperation :=
  if m_consumer_cancelled o then (Raised DBOperationCancelled, o)
  else if negb (bool_decide (m_phase o = op_completed)) then (Raised (other_error (logic_error "Database result is not complete")), o)
  else match m_error o, m_result o with
  | Some e, _ => (Raised e, o)
  | None, None => (Raised (other_error (logic_error "Database operation completed without a result")), o)
  | None, Some r => (Taken r, set_outcome None None o)
  end.

Definition rethrowIfFailed (o : DBOperation) : option error :=
  if m_consumer_cancelled o then Some DBOperationCancelled
  else if negb (bool_decide (m_phase o = op_completed)) then Some (other_error (logic_error "Database operation is not complete"))
  else m_error o.

(** [Awaiter::await_resume] *)
Definition await_resume (o : DBOperation) : taken * DBOperation :=
  match rethrowIfFailed o with Some e => (Raised e, o) | None => takeResult o end.

Definition completed (o : DBOperation) : bool := bool_decide (m_phase o = op_completed) || m_consumer_cancelled o.
Definition needsSynchronization (o : DBOperation) : bool := bool_decide (m_phase o = synchronizing).
(** Times are nanoseconds, latencies milliseconds. *)
Definition firstResultLatency (o : DBOperation) : option Z := s ← m_sent_at o; f ← m_first_result_at o; Some (Z.quot (f - s) 1000000).
Definition completionLatency (o : DBOperation) : option Z := s ← m_sent_at o; c ← m_completed_at o; Some (Z.quot (c - s) 1000000).

Definition abandon (o : DBOperation) : DBOperation * list nat :=
  if bool_decide (m_phase o = op_completed) || bool_decide (m_phase o = abandoned) then (o, [])
  else
    let o' := if bool_decide (m_phase o = cold) || bool_decide (m_phase o = op_queued)
              then set_phase op_completed (set_outcome (m_result o) (Some DBOperationCancelled) o) else set_cancelled o in
    (set_continuation None o', resume (m_continuation o)).

Definition registerContinuation (c : nat) (o : DBOperation) : result (DBOperation * list nat) :=
  if bool_decide (is_Some (m_continuation o)) then Throw (logic_error "Database operation already has a consumer")
  else if completed o then Ok (o, [c]) else Ok (set_continuation (Some c) o, []).

Definition unregisterContinuation (o : DBOperation) : DBOperation := set_continuation None o.

(** ** The connection *)

Record DBConnection := mkConnection {
  state : ConnectionState; connected_posted : bool; connect_error : option exn; saw_startup_sync : bool;
  queued : list nat; inflight : list nat; sent : nat; drained : bool;
  armed : option SocketInterest (* the last interest given to the reactor *) }.

Definition DBConnection_make : DBConnection := mkConnection cs_cold false None false [] [] 0 true None.

Definition set_queues (q i : list nat) (s : nat) (d : bool) (c : DBConnection) : DBConnection :=
  mkConnection (state c) (connected_posted c) (connect_error c) (saw_startup_sync c) q i s d (armed c).
Definition set_armed (a : SocketInterest) (c : DBConnection) : DBConnection :=
  mkConnection (state c) (connected_posted c) (connect_error c) (saw_startup_sync c) (queued c) (inflight c) (sent c) (drained c) (Some a).

Definition getHead (c : DBConnection) : option nat := head (inflight c).
Definition pushInflight (i : nat) (c : DBConnection) : DBConnection := set_queues (queued c) (inflight c ++ [i]) (S (sent c)) (drained c) c.
(** The locked part of [retireHead]. *)
Definition retire_locked (c : DBConnection) : DBConnection :=
  match inflight c with [] => c | _ :: l => set_queues (queued c) l (sent c - 1) (drained c) c end.
Definition postDrainedIfIdle (c : DBConnection) : DBConnection :=
  match queued c, inflight c with [], [] => set_queues [] [] (sent c) true c | _, _ => c end.
Definition hasWork (c : DBConnection) : bool := match queued c, inflight c with [], [] => false | _, _ => true end.

(** The locked part of [enqueue]. *)
Definition push_queued (i : nat) (c : DBConnection) : DBConnection := set_queues (queued c ++ [i]) (inflight c) (sent c) false c.

Definition popDispatchable (use_pipeline : bool) (c : DBConnection) : option nat * DBConnection :=
  match queued c with
  | [] => (None, c)
  | i :: q => if negb use_pipeline && negb (bool_decide (inflight c = [])) then (None, c) else (Some i, set_queues q (inflight c) (sent c) (drained c) c)
  end.

Record ConnectionStats := mkStats { stat_queued : nat; stat_sent : nat; unfinished : nat; input_paused : bool }.
Definition stats (c : DBConnection) : ConnectionStats := mkStats (length (queued c)) (sent c) (length (queued c) + sent c) false (* nothing sets it *).

(** One look of [drainImpl]. *)
Definition fully_drained (c : DBConnection) : bool := negb (hasWork c).

(** ** The pump *)

Definition pump_operation_budget : nat := 64.

(** Where the pump stands: in the loop that sends, with the number of turns and
    the operation in its hands; in the loop that retrieves, with the number of
    turns, whether a delimiter was passed, and what [PQflush] said. *)
Inductive pump_pc :=
  | Resting
  | Dispatch (n : nat) | Inspect (n i : nat) | Skip (n : nat) | Send (n i : nat) | Mark (n i : nat) | Push (n i : nat)
  | Flush
  | Retrieve (k : nat) (advanced : bool) (flush : Z)
  | Got (k : nat) (advanced : bool) (flush : Z) (raw : option R) (head : option nat)
  | Complete (k : nat) (flush : Z) (i : nat) (last : bool) | Retire (k : nat) (flush : Z) (last : bool) | Post (k : nat) (flush : Z) (last : bool)
  | Rearming (flush : Z)
  | Crashed (e : exn).

Record World := mkWorld {
  ops : list DBOperation; conn : DBConnection; pg : PGconn; pump : pump_pc;
  starting : list nat; (* started, on their way to the queue *)
  marked : list nat;
  resumed : list nat }.

Definition set_ops (o : list DBOperation) (w : World) : World := mkWorld o (conn w) (pg w) (pump w) (starting w) (marked w) (resumed w).
Definition set_conn (c : DBConnection) (w : World) : World := mkWorld (ops w) c (pg w) (pump w) (starting w) (marked w) (resumed w).
Definition set_pg (c : PGconn) (w : World) : World := mkWorld (ops w) (conn w) c (pump w) (starting w) (marked w) (resumed w).
Definition set_pump (p : pump_pc) (w : World) : World := mkWorld (ops w) (conn w) (pg w) p (starting w) (marked w) (resumed w).
Definition set_calls (s m : list nat) (w : World) : World := mkWorld (ops w) (conn w) (pg w) (pump w) s m (resumed w).
Definition add_resumed (l : list nat) (w : World) : World :=
  mkWorld (ops w) (conn w) (pg w) (pump w) (starting w) (marked w) (resumed w ++ l).
Definition put_op (i : nat) (o : DBOperation) (w : World) : World := set_ops (<[i := o]> (ops w)) w.

Definition World_make (c : PGconn) : World := mkWorld [] DBConnection_make c Resting [] [] [].

(** A member of an operation that may throw, called by the pump. *)
Definition pump_calls (i : nat) (f : DBOperation -> result DBOperation) (next : pump_pc) (w : World) : option World :=
  o ← ops w !! i;
  match f o with Ok o => Some (set_pump next (put_op i o w)) | Throw e => Some (set_pump (Crashed e) w) end.

(** What one result means to the head of the ledger. *)
Definition take_in (pipeline : bool) (now : Z) (k : nat) (advanced : bool) (flush : Z) (raw : option R) (head : option nat) (w : World) : option World :=
  match raw with
  | None =>
      match head with
      | Some i =>
          o ← ops w !! i;
          if pipeline && needsSynchronization o && negb advanced then Some (set_pump (Retrieve (S k) true flush) w)
          else if negb pipeline then Some (set_pump (Complete k flush i true) w)
          else Some (set_pump (Rearming flush) w)
      | None => Some (set_pump (Rearming flush) w)
      end
  | Some r =>
      match head with
      | None => Some (set_pump (Crashed (runtime_error "PostgreSQL returned a result without an operation ledger entry")) w)
      | Some i =>
          if bool_decide (resultStatus r = PGRES_PIPELINE_SYNC) then Some (set_pump (Complete k flush i false) w)
          else if bool_decide (resultStatus r = PGRES_TUPLES_OK) || bool_decide (resultStatus r = PGRES_COMMAND_OK) then
            pump_calls i (acceptResult now r) (Retrieve (S k) false flush) w
          else o ← ops w !! i; pump_calls i (acceptFailure now (queryError r (m_id o))) (Retrieve (S k) false flush) w
      end
  end.

(** [pumpConnected], from one access to the next. *)
Definition pump_step (pipeline : bool) (now : Z) (w : World) : option World :=
  match pump w with
  | Resting | Crashed _ => None
  | Dispatch n =>
      if (n <? pump_operation_budget)%nat then
        match popDispatchable pipeline (conn w) with
        | (None, _) => Some (set_pump Flush w)
        | (Some i, c) => Some (set_pump (Inspect n i) (set_conn c w))
        end
      else Some (set_pump Flush w)
  | Inspect n i =>
      o ← ops w !! i;
      if bool_decide (m_phase o = op_completed) || bool_decide (m_phase o = abandoned) then Some (set_pump (Skip n) w) else Some (set_pump (Send n i) w)
  | Skip n => Some (set_pump (Dispatch (S n)) (set_conn (postDrainedIfIdle (conn w)) w))
  | Send n i =>
      o ← ops w !! i;
      match send_calls o pipeline (pg w) with
      | (true, c) => Some (set_pump (Mark n i) (set_pg c w))
      | (false, c) => Some (set_pump (Crashed (connectionError (Some c) "Could not send PostgreSQL operation")) (set_pg c w))
      end
  | Mark n i => pump_calls i (mark_sent now) (Push n i) w
  | Push n i => Some (set_pump (Dispatch (S n)) (set_conn (pushInflight i (conn w)) w))
  | Flush =>
      let '(flush, c) := PQflush (pg w) in
      if flush <? 0 then Some (set_pump (Crashed (connectionError (Some c) "Could not flush PostgreSQL operations")) (set_pg c w))
      else
        let '(ok, c) := PQconsumeInput c in
        if negb ok then Some (set_pump (Crashed (connectionError (Some c) "Could not read PostgreSQL operation results")) (set_pg c w))
        else Some (set_pump (if PQisBusy c then Rearming flush else Retrieve 0 false flush) (set_pg c w))
  | Retrieve k advanced flush =>
      if (k <? pump_operation_budget)%nat then
        let '(raw, c) := PQgetResult (pg w) in
        Some (set_pump (Got k advanced flush raw (getHead (conn w))) (set_pg c w))
      else Some (set_pump (Rearming flush) w)
  | Got k advanced flush raw head => take_in pipeline now k advanced flush raw head w
  | Complete k flush i last =>
      o ← ops w !! i;
      match complete now o with
      | Ok (o, l) => Some (add_resumed l (set_pump (Retire k flush last) (put_op i o w)))
      | Throw e => Some (set_pump (Crashed e) w)
      end
  | Retire k flush last => Some (set_pump (Post k flush last) (set_conn (retire_locked (conn w)) w))
  | Post k flush last =>
      Some (set_pump (if last : bool then Rearming flush else Retrieve (S k) false flush) (set_conn (postDrainedIfIdle (conn w)) w))
  | Rearming flush =>
      if negb (hasWork (conn w)) then Some (set_pump Resting w)
      else if PQsocket (pg w) <? 0 then Some (set_pump (Crashed (connectionError (Some (pg w)) "PostgreSQL connection has no socket")) w)
      else Some (set_pump Resting (set_conn (set_armed (if flush =? 0 then read_interest else read_write_interest) (conn w)) w))
  end.

(** ** The callers *)

Inductive call :=
  | Create (id : Z) (sql : string) (bindings : DBBindings) (format : Z) (* a task, with its starter; the process-wide counter gives [id] *)
  | Start (i : nat) | Mark_queued (i : nat) | Enqueue (i : nat) (* [await_suspend], [start] and [enqueue] *)
  | Register (i c : nat) | Unregister (i : nat) | Abandon (i : nat) | Await_resume (i : nat)
  | Begin_pump | Pump (now : Z).

Definition remove_one (i : nat) (l : list nat) : list nat := filter (fun j => j <> i) l.
#[global] Arguments remove_one : simpl never.

Definition step (pipeline : bool) (w : World) (c : call) : option World :=
  match c with
  | Create id sql bindings format =>
      match (o ← DBOperation_make id sql bindings format; setStarter o) with
      | Ok o => Some (set_ops (ops w ++ [o]) w)
      | Throw _ => Some w
      end
  | Start i =>
      o ← ops w !! i;
      match start_op o with
      | Ok (o, true) => Some (set_calls (starting w ++ [i]) (marked w) (put_op i o w))
      | _ => Some w
      end
  | Mark_queued i =>
      if bool_decide (i ∈ starting w) then
        o ← ops w !! i;
        match markQueued o with
        | Ok o => Some (set_calls (remove_one i (starting w)) (marked w ++ [i]) (put_op i o w))
        | Throw _ => Some (set_calls (remove_one i (starting w)) (marked w) w)
        end
      else None
  | Enqueue i =>
      if bool_decide (i ∈ marked w) then Some (set_calls (starting w) (remove_one i (marked w)) (set_conn (push_queued i (conn w)) w)) else None
  | Register i c =>
      o ← ops w !! i;
      match registerContinuation c o with Ok (o, l) => Some (add_resumed l (put_op i o w)) | Throw _ => Some w end
  | Unregister i => o ← ops w !! i; Some (put_op i (unregisterContinuation o) w)
  | Abandon i => o ← ops w !! i; let '(o, l) := abandon o in Some (add_resumed l (put_op i o w))
  | Await_resume i => o ← ops w !! i; Some (put_op i (snd (await_resume o)) w)
  | Begin_pump => match pump w with Resting => Some (set_pump (Dispatch 0) w) | _ => None end
  | Pump now => pump_step pipeline now w
  end.

Fixpoint run_calls (pipeline : bool) (w : World) (cs : list call) : option World :=
  match cs with [] => Some w | c :: cs => w ← step pipeline w c; run_calls pipeline w cs end.
End operation.

(** ** The handshake *)

Section handshake.
Context {R PGconn : Type} {L : Libpq R PGconn}.

Definition PGRES_POLLING_FAILED : Z := 0.
Definition PGRES_POLLING_READING : Z := 1.
Definition PGRES_POLLING_WRITING : Z := 2.
Definition PGRES_POLLING_OK : Z := 3.
Definition PGRES_POLLING_ACTIVE : Z := 4.

Definition startup_sql : string := "SELECT set_config('statement_timeout', $1, false), set_config('search_path', $2, false)".

(** How one call ends: it waits for the socket, has connected, or throws. *)
Inductive handshake_end := Waits (i : SocketInterest) | Has_connected | Throws (e : exn).

(** The loop over the results of the startup query; [fuel] bounds its turns. *)
Fixpoint read_startup (fuel : nat) (role : ConnectionRole) (saw_sync delimiter : bool) (c : PGconn) : option (result bool * PGconn) :=
  match fuel with
  | O => None
  | S fuel =>
      let '(raw, c) := PQgetResult c in
      match raw with
      | None =>
          if negb (bool_decide (role = management)) && negb saw_sync && negb delimiter then read_startup fuel role saw_sync true c
          else Some (Ok saw_sync, c)
      | Some r =>
          if bool_decide (resultStatus r = PGRES_PIPELINE_SYNC) then read_startup fuel role true delimiter c
          else if bool_decide (resultStatus r = PGRES_TUPLES_OK) || bool_decide (resultStatus r = PGRES_COMMAND_OK) then
            read_startup fuel role saw_sync delimiter c
          else Some (Throw (runtime_error ("PostgreSQL startup configuration failed: " +:+ PQresultErrorMessage r)), c)
      end
  end.

(** The calls that follow a successful [PQconnectPoll]. *)
Definition configure_session (role : ConnectionRole) (timeout search_path : string) (c : PGconn) : option exn * PGconn :=
  let '(ok, c) := PQsetnonblocking c in
  if negb ok then (Some (connectionError (Some c) "Could not enable PostgreSQL nonblocking mode"), c)
  else
    let '(ok, c) := if bool_decide (role = management) then (true, c) else PQenterPipelineMode c in
    if negb ok then (Some (connectionError (Some c) "Could not enter PostgreSQL pipeline mode"), c)
    else
      let '(ok, c) := PQsendQueryParams startup_sql 2 [] [Some (string_bytes timeout); Some (string_bytes search_path)] [0; 0] [0; 0] 0 c in
      if negb ok then (Some (connectionError (Some c) "Could not configure PostgreSQL connection"), c)
      else
        let '(ok, c) := if bool_decide (role = management) then (true, c) else PQpipelineSync c in
        if negb ok then (Some (connectionError (Some c) "Could not synchronize PostgreSQL startup configuration"), c) else (None, c).

(** From the flush on; the flag [saw_startup_sync] it leaves. *)
Definition await_configuration (fuel : nat) (role : ConnectionRole) (saw_sync : bool) (c : PGconn) : option (handshake_end * bool * PGconn) :=
  let '(flush, c) := PQflush c in
  if flush <? 0 then Some (Throws (connectionError (Some c) "Could not flush PostgreSQL startup configuration"), saw_sync, c)
  else
    let '(ok, c) := PQconsumeInput c in
    if negb ok then Some (Throws (connectionError (Some c) "Could not read PostgreSQL startup configuration"), saw_sync, c)
    else
      '(read, c) ← (if PQisBusy c then Some (Ok saw_sync, c) else read_startup fuel role saw_sync false c);
      match read with
      | Throw e => Some (Throws e, saw_sync, c)
      | Ok saw_sync =>
          if (if bool_decide (role = management) then negb (PQisBusy c) else saw_sync) then Some (Has_connected, saw_sync, c)
          else if PQsocket c <? 0 then Some (Throws (connectionError (Some c) "PostgreSQL connection has no socket"), saw_sync, c)
          else Some (Waits (if flush =? 0 then read_interest else read_write_interest), saw_sync, c)
      end.

Definition set_state (s : ConnectionState) (posted : bool) (e : option exn) (saw : bool) (c : DBConnection) : DBConnection :=
  mkConnection s posted e saw (queued c) (inflight c) (sent c) (drained c) (armed c).

(** What the end of a call, or the handler of its exceptions, writes. *)
Definition settle_handshake (e : handshake_end) (s : ConnectionState) (saw : bool) (c : DBConnection) : DBConnection :=
  match e with
  | Waits i => set_armed i (set_state s (connected_posted c) (connect_error c) saw c)
  | Has_connected => set_state connected true (connect_error c) saw c
  | Throws e => set_state failed true (Some e) saw c
  end.

(** [PQconnectStartParams] answers [make]. *)
Definition pumpHandshake (fuel : nat) (role : ConnectionRole) (make : option PGconn) (timeout search_path : string)
    (pg : option PGconn) (c : DBConnection) : option (DBConnection * option PGconn) :=
  let started := if bool_decide (state c = connecting) then match pg with None => make | Some p => Some p end else pg in
  match started with
  | None => Some (settle_handshake (Throws (connectionError None "Could not start PostgreSQL connection")) (state c) (saw_startup_sync c) c, None)
  | Some p =>
      if bool_decide (state c = connecting) then
        let '(status, p) := PQconnectPoll p in
        if (status =? PGRES_POLLING_READING) || (status =? PGRES_POLLING_WRITING) || (status =? PGRES_POLLING_ACTIVE) then
          Some (settle_handshake (if PQsocket p <? 0 then Throws (connectionError (Some p) "PostgreSQL connection has no socket")
                        else Waits (if status =? PGRES_POLLING_READING then read_interest
                                    else if status =? PGRES_POLLING_WRITING then write_interest else read_write_interest))
                  (state c) (saw_startup_sync c) c, Some p)
        else if status =? PGRES_POLLING_FAILED then
          Some (settle_handshake (Throws (connectionError (Some p) "PostgreSQL connection failed")) (state c) (saw_startup_sync c) c, Some p)
        else if negb (status =? PGRES_POLLING_OK) then
          Some (settle_handshake (Throws (runtime_error "Unexpected PostgreSQL connection poll state")) (state c) (saw_startup_sync c) c, Some p)
        else match configure_session role timeout search_path p with
        | (Some e, p) => Some (settle_handshake (Throws e) (state c) (saw_startup_sync c) c, Some p)
        | (None, p) => '(e, saw, p) ← await_configuration fuel role (saw_startup_sync c) p; Some (settle_handshake e configuring saw c, Some p)
        end
      else '(e, saw, p) ← await_configuration fuel role (saw_startup_sync c) p; Some (settle_handshake e (state c) saw c, Some p)
  end.

(** [connect], up to the wait: whether the connection is woken. *)
Definition connect_begin (c : DBConnection) : bool * DBConnection :=
  if bool_decide (state c = cs_cold) then (true, set_state connecting (connected_posted c) (connect_error c) (saw_startup_sync c) c) else (false, c).

(** [pump]: what runs in which state. *)
Inductive pump_action := Handshake | Connected | Nothing.
Definition pump_of (c : DBConnection) : pump_action :=
  match state c with connecting | configuring => Handshake | connected => Connected | cs_cold | failed => Nothing end.
End handshake.

(** ** The ledger *)

(** What libpq documents of a connection in pipeline mode: [wire] is what
    [PQgetResult] has still to give, in order; a query adds its one result and
    the delimiter behind it, a synchronisation point adds itself. *)
Section ledger.
Context {R PGconn : Type} {L : Libpq R PGconn}.
Notation World := (@World R PGconn).
Notation DBOperation := (@DBOperation R).

Record PipelineLaws (replies : string -> list (option (list Z)) -> Z -> R -> Prop) (wire : PGconn -> list (option R)) : Prop := {
  send_law sql n o p l f format c c' : PQsendQueryParams sql n o p l f format c = (true, c') ->
    exists r, replies sql p format r /\ resultStatus r <> PGRES_PIPELINE_SYNC /\ wire c' = wire c ++ [Some r; None];
  sync_law c c' : PQpipelineSync c = (true, c') -> exists s, resultStatus s = PGRES_PIPELINE_SYNC /\ wire c' = wire c ++ [Some s];
  flush_law c : wire (snd (PQflush c)) = wire c;
  consume_law c : wire (snd (PQconsumeInput c)) = wire c;
  get_law c : fst (PQgetResult c) = mjoin (head (wire c)) /\ wire (snd (PQgetResult c)) = tail (wire c) }.

Context (replies : string -> list (option (list Z)) -> Z -> R -> Prop) (wire : PGconn -> list (option R)) (laws : PipelineLaws replies wire).

Definition asks (o : DBOperation) (r : R) : Prop := replies (m_sql o) (pointers (m_bindings o)) (m_format o) r.
Definition succeeded (r : R) : Prop := resultStatus r = PGRES_TUPLES_OK \/ resultStatus r = PGRES_COMMAND_OK.

(** An operation has got the result of its own query. *)
Definition settled (o : DBOperation) : Prop := exists r, asks o r /\
  ((succeeded r /\ m_result o = Some r /\ m_error o = None) \/ (~ succeeded r /\ m_result o = None /\ m_error o = Some (queryError r (m_id o)))).

Definition untouched (o : DBOperation) : Prop := m_result o = None /\ m_error o = None.

Definition good (o : DBOperation) : Prop :=
  match m_phase o with
  | cold | op_queued | op_sent => untouched o
  | synchronizing => settled o
  | op_completed => settled o \/ (m_result o = None /\ m_error o = Some DBOperationCancelled) \/ untouched o
  | streaming | abandoned => False
  end.

(** What the wire still holds for an operation of the ledger. *)
Definition chunk (o : DBOperation) (ch : list (option R)) : Prop :=
  match m_phase o with
  | op_sent => exists r s, ch = [Some r; None; Some s] /\ asks o r /\ resultStatus r <> PGRES_PIPELINE_SYNC /\ resultStatus s = PGRES_PIPELINE_SYNC
  | synchronizing => exists s, resultStatus s = PGRES_PIPELINE_SYNC /\ (ch = [None; Some s] \/ ch = [Some s])
  | _ => False
  end.

Definition held (p : pump_pc (R := R)) : list nat := match p with Inspect _ i | Send _ i | Mark _ i | Push _ i => [i] | _ => [] end.
Definition placed (w : World) : list nat := starting w ++ marked w ++ queued (conn w) ++ held (pump w) ++ inflight (conn w).

Definition cancelled (o : DBOperation) : Prop := m_phase o = op_completed /\ m_error o = Some DBOperationCancelled.
Definition waiting (o : DBOperation) : Prop := m_phase o = op_queued \/ cancelled o.

(** How a pump may end early: libpq failed, or the operation in its hands was
    abandoned after the pump had looked at it. *)
Definition accounted (w : World) (e : exn) : Prop :=
  (exists c what, e = connectionError (Some c) what)
  \/ (e = logic_error "Sent database operation was not queued" /\ exists i o, ops w !! i = Some o /\ cancelled o).

(** The part of the ledger whose answers are still on the wire, what the pump
    has in its hands, and what it has sent but not entered. *)
Definition tracked (w : World) : list nat := match pump w with Complete _ _ _ _ | Retire _ _ _ => tail (inflight (conn w)) | _ => inflight (conn w) end.
Definition in_hand (p : pump_pc (R := R)) : list (option R) := match p with Got _ _ _ raw (Some _) => [raw] | _ => [] end.

Definition pump_ok (w : World) (extra : list (option R)) : Prop :=
  match pump w with
  | Inspect _ i | Send _ i => (exists o, ops w !! i = Some o /\ waiting o) /\ extra = []
  | Mark _ i => exists o r s, ops w !! i = Some o /\ waiting o /\ extra = [Some r; None; Some s] /\ asks o r
      /\ resultStatus r <> PGRES_PIPELINE_SYNC /\ resultStatus s = PGRES_PIPELINE_SYNC
  | Push _ i => exists o, ops w !! i = Some o /\ m_phase o = op_sent /\ chunk o extra
  | Got _ _ _ raw h => extra = [] /\ h = head (inflight (conn w)) /\ (h = None -> raw = None)
  | Complete _ _ i last => extra = [] /\ last = false /\ head (inflight (conn w)) = Some i /\ exists o, ops w !! i = Some o /\ m_phase o = synchronizing
  | Retire _ _ last => extra = [] /\ last = false /\ inflight (conn w) <> []
  | Post _ _ last => extra = [] /\ last = false
  | _ => extra = []
  end.

Definition ledger (w : World) : Prop :=
  match pump w with Crashed e => accounted w e | _ =>
    exists chs extra, Forall2 (fun i ch => exists o, ops w !! i = Some o /\ chunk o ch) (tracked w) chs
      /\ in_hand (pump w) ++ wire (pg w) = concat chs ++ extra /\ pump_ok w extra
  end.

Record invariant (w : World) : Prop := {
  all_good : Forall good (ops w);
  ids_ok : forall i o, ops w !! i = Some o -> m_starter o = true;
  placed_once : NoDup (placed w);
  placed_ok : forall i, i ∈ placed w -> exists o, ops w !! i = Some o /\ m_phase o <> cold;
  waiting_ok : forall i, i ∈ starting w ++ marked w ++ queued (conn w) -> exists o, ops w !! i = Some o /\ waiting o;
  sent_ok : sent (conn w) = length (inflight (conn w));
  ledger_ok : ledger w }.

(** ** Changes of one operation *)

Definition same_query (o o' : DBOperation) : Prop :=
  m_id o' = m_id o /\ m_sql o' = m_sql o /\ m_bindings o' = m_bindings o /\ m_format o' = m_format o /\ m_starter o' = m_starter o.

(** What callers may do to an operation that the connection knows. *)
Definition side_change (o o' : DBOperation) : Prop :=
  same_query o o' /\ good o' /\ (m_phase o = op_queued -> waiting o') /\ (cancelled o -> cancelled o')
  /\ (m_phase o = op_sent \/ m_phase o = synchronizing -> m_phase o' = m_phase o) /\ (m_phase o <> cold -> m_phase o' <> cold).

Lemma asks_same o o' r : same_query o o' -> asks o r -> asks o' r.
Proof. intros (_ & Hs & Hb & Hf & _) H. unfold asks. by rewrite Hs, Hb, Hf. Qed.

Lemma settled_same o o' : same_query o o' -> m_result o' = m_result o -> m_error o' = m_error o -> settled o -> settled o'.
Proof.
  intros Hq Hr He (r & Ha & H). exists r. split; [by eapply asks_same|]. rewrite Hr, He. destruct Hq as (-> & _). exact H.
Qed.

Lemma chunk_same o o' ch : same_query o o' -> m_phase o' = m_phase o -> chunk o ch -> chunk o' ch.
Proof.
  intros Hq Hp. unfold chunk. rewrite Hp. destruct (m_phase o); try done. intros (r & s & -> & Ha & H). exists r, s. split; [done|].
  split; [by eapply asks_same|done].
Qed.

Lemma chunk_phase o ch : chunk o ch -> m_phase o = op_sent \/ m_phase o = synchronizing.
Proof. unfold chunk. destruct (m_phase o); try done; auto. Qed.

Lemma lookup_put i j o (w : World) : ops (put_op i o w) !! j = if decide (i = j) then (if decide (i < length (ops w))%nat then Some o else None) else ops w !! j.
Proof.
  cbn. destruct (decide (i = j)) as [<-|Hne]; [|by rewrite list_lookup_insert_ne].
  case_decide; [by rewrite list_lookup_insert_eq|]. rewrite list_insert_ge by lia. apply lookup_ge_None. lia.
Qed.

(** An operation changed by a caller leaves the invariant. *)
Lemma invariant_side w i o o' : invariant w -> ops w !! i = Some o -> side_change o o' -> invariant (put_op i o' w).
Proof.
  intros [Hg Hid Hn Hp Hw Hs Hl] Hi (Hq & Hgo & Hwaitq & Hcan & Hsent & Hcold).
  assert (Hwait : waiting o -> waiting o') by (intros [H|H]; [by apply Hwaitq|by right; apply Hcan]). assert (Hlt := lookup_lt_Some _ _ _ Hi).
  assert (Hput : forall j x, ops w !! j = Some x -> exists y, ops (put_op i o' w) !! j = Some y /\ (y = x \/ (x = o /\ y = o'))).
  { intros j x Hx. rewrite lookup_put. destruct (decide (i = j)) as [<-|Hne]; [|by exists x; auto]. rewrite decide_True by done. exists o'. split; [done|right].
    split; [congruence|done]. }
  split.
  - by apply Forall_insert.
  - intros j x Hx. rewrite lookup_put in Hx. destruct (decide (i = j)) as [<-|Hne]; [|by eapply Hid]. rewrite decide_True in Hx by done. injection Hx as <-.
    destruct Hq as (_ & _ & _ & _ & ->). by eapply Hid.
  - exact Hn.
  - intros j Hj. destruct (Hp j Hj) as (x & Hx & Hc). destruct (Hput j x Hx) as (y & Hy & [->|[-> ->]]); eauto.
  - intros j Hj. destruct (Hw j Hj) as (x & Hx & Hc). destruct (Hput j x Hx) as (y & Hy & [->|[-> ->]]); eauto.
  - exact Hs.
  - unfold ledger in *. change (pump (put_op i o' w)) with (pump w). change (pg (put_op i o' w)) with (pg w). 
    assert (Hchunk : forall j x ch, ops w !! j = Some x -> chunk x ch -> exists y, ops (put_op i o' w) !! j = Some y /\ chunk y ch).
    { intros j x ch Hx Hc. destruct (Hput j x Hx) as (y & Hy & [->|[-> ->]]); [eauto|]. exists o'. split; [done|].
      eapply chunk_same; [done| |exact Hc]. apply Hsent. by eapply chunk_phase. }
    destruct (pump w) eqn:Ep; [..|destruct Hl as [Hl|(He & j & x & Hx & Hc)]; [by left|right; split; [done|]; destruct (Hput j x Hx) as (y & Hy & [->|[-> ->]]); eauto]]; destruct Hl as (chs & extra & Hf & Heq & Hok); exists chs, extra;
      (split; [eapply Forall2_impl; [exact Hf|]; cbn; intros j ch (x & Hx & Hc); by eapply Hchunk|]; split; [exact Heq|]);
      unfold pump_ok in *; change (pump (put_op i o' w)) with (pump w); change (conn (put_op i o' w)) with (conn w); rewrite Ep in *; try exact Hok.
    + destruct Hok as [(x & Hx & Hc) He]. split; [|done]. destruct (Hput _ x Hx) as (y & Hy & [->|[-> ->]]); eauto.
    + destruct Hok as [(x & Hx & Hc) He]. split; [|done]. destruct (Hput _ x Hx) as (y & Hy & [->|[-> ->]]); eauto.
    + destruct Hok as (x & r & s & Hx & Hc & He & Ha & H). destruct (Hput _ x Hx) as (y & Hy & [->|[-> ->]]); [by exists x, r, s|].
      exists o', r, s. split; [done|]. split; [by apply Hwait|]. split; [done|]. split; [by eapply asks_same|done].
    + destruct Hok as (x & Hx & Hph & Hc). destruct (Hput _ x Hx) as (y & Hy & [->|[-> ->]]); [by exists x|]. exists o'.
      assert (Hph' : m_phase o' = m_phase o) by (apply Hsent; by left). split; [done|]. split; [congruence|]. by eapply chunk_same.
    + destruct Hok as (He & Hla & Hh & x & Hx & Hph). split; [done|]. split; [done|]. split; [done|].
      destruct (Hput _ x Hx) as (y & Hy & [->|[-> ->]]); [by exists x|]. exists o'. split; [done|]. rewrite Hsent by by right. done.
Qed.

(** *** What each member does *)

Lemma good_outcome o o' : good o -> same_query o o' -> m_phase o' = m_phase o -> m_result o' = m_result o -> m_error o' = m_error o -> good o'.
Proof.
  intros Hg Hq Hp Hr He. unfold good in *. rewrite Hp. unfold untouched in *. destruct (m_phase o); try done; try (by rewrite Hr, He).
  - by eapply settled_same.
  - rewrite Hr, He. destruct Hg as [Hg|Hg]; [left; by eapply settled_same|by right].
Qed.

Lemma same_query_refl o : same_query o o.
Proof. done. Qed.

(** A change of the continuation alone. *)
Lemma side_continuation o c : good o -> side_change o (set_continuation c o).
Proof. intros Hg. split; [done|]. split; [exact Hg|]. split; [by left|done]. Qed.

Lemma side_refl o : good o -> side_change o o.
Proof. intros Hg. split; [done|]. split; [exact Hg|]. split; [by left|done]. Qed.

Lemma side_register o c o' l : good o -> registerContinuation c o = Ok (o', l) -> side_change o o'.
Proof.
  intros Hg. unfold registerContinuation. destruct (bool_decide (is_Some (m_continuation o))); [done|].
  destruct (completed o); intros H; injection H as <- <-; [by apply side_refl|by apply side_continuation].
Qed.

Lemma side_abandon o : good o -> side_change o (fst (abandon o)).
Proof.
  intros Hg. unfold abandon. destruct (bool_decide (m_phase o = op_completed) || bool_decide (m_phase o = abandoned)) eqn:E; [by apply side_refl|].
  apply orb_false_iff in E as [E1 E2]. apply bool_decide_eq_false in E1, E2. cbn [fst].
  destruct (bool_decide (m_phase o = cold) || bool_decide (m_phase o = op_queued)) eqn:E.
  - assert (Hu : untouched o) by (apply orb_true_iff in E as [E|E]; apply bool_decide_eq_true in E; unfold good in Hg; by rewrite E in Hg).
    destruct Hu as [Hr He]. split; [done|]. split; [unfold good; cbn; right; left; by rewrite Hr|]. split; [intros _; by right|]. split; [by intros [H _]|]. split; [|done].
    intros [H|H]; rewrite H in E; done.
  - split; [done|]. split; [exact Hg|]. split; [intros H; by rewrite H in E|]. split; [by intros [H _]|done].
Qed.

Lemma side_await o : good o -> side_change o (snd (await_resume o)).
Proof.
  intros Hg. unfold await_resume, rethrowIfFailed, takeResult. destruct (m_consumer_cancelled o); [by apply side_refl|].
  destruct (bool_decide (m_phase o = op_completed)) eqn:E; cbn [negb]; [|by apply side_refl]. apply bool_decide_eq_true in E.
  destruct (m_error o) eqn:Ee; [by apply side_refl|]. destruct (m_result o); [|by apply side_refl]. cbn [snd].
  split; [done|]. split; [unfold good; cbn; rewrite E; by right; right|]. split; [congruence|]. split; [by intros [_ H]; rewrite Ee in H|]. split; [|done]. intros [H|H]; congruence.
Qed.

Lemma side_mark (o o' : DBOperation) : good o -> m_phase o <> cold -> markQueued o = Ok o' -> o' = o /\ m_phase o = op_queued.
Proof. intros _ Hc. unfold markQueued. case_decide as H; [by intros [= <-]|]. by case_decide. Qed.

Lemma start_spec (o o' : DBOperation) b : start_op o = Ok (o', b) -> (b = false /\ o' = o) \/ (b = true /\ m_phase o = cold /\ o' = set_phase op_queued o).
Proof.
  unfold start_op. case_decide as H; [|intros [= <- <-]; by left]. destruct (m_starter o); [|done]. intros [= <- <-]. by right.
Qed.

Lemma invariant_resumed w l : invariant w -> invariant (add_resumed l w).
Proof. intros [H1 H2 H3 H4 H5 H6 H7]. by split. Qed.

(** ** The callers *)

Lemma placed_conn_lt w i : invariant w -> i ∈ placed w -> (i < length (ops w))%nat.
Proof. intros Hi H. destruct (placed_ok w Hi i H) as (o & Ho & _). by eapply lookup_lt_Some. Qed.

Lemma invariant_create w id sql bindings format o : invariant w -> (o ← DBOperation_make id sql bindings format; setStarter o) = Ok o -> invariant (set_ops (ops w ++ [o]) w).
Proof.
  intros Hi H. unfold DBOperation_make in H. destruct (sempty sql); [done|]. cbn [mbind result_bind] in H. unfold setStarter in H. cbn in H. injection H as <-.
  set (o := mkOperation _ _ _ _ _ _ _ _ _ _ _ _ _). destruct Hi as [Hg Hid Hn Hp Hw Hs Hl].
  assert (Hold : forall j x, ops w !! j = Some x -> (ops w ++ [o]) !! j = Some x) by (intros j x Hx; by apply lookup_app_l_Some).
  split; [..|exact Hs|].
  - apply Forall_app. split; [done|]. constructor; [|done]. done.
  - cbn. intros j x Hx. apply lookup_app_Some in Hx as [Hx|[_ Hx]]; [by eapply Hid|]. apply list_lookup_singleton_Some in Hx as [_ <-]. done.
  - exact Hn.
  - intros j Hj. destruct (Hp j Hj) as (x & Hx & Hc). exists x. split; [by apply Hold|done].
  - intros j Hj. destruct (Hw j Hj) as (x & Hx & Hc). exists x. split; [by apply Hold|done].
  - unfold ledger in *. cbn [pump set_ops]. destruct (pump w) eqn:Ep; [..|destruct Hl as [Hl|(He & j & x & Hx & Hc)]; [by left|right; split; [done|]; exists j, x; split; [by apply Hold|done]]]; destruct Hl as (chs & extra & Hf & Heq & Hok); exists chs, extra;
      (split; [eapply Forall2_impl; [exact Hf|]; cbn; intros j ch (x & Hx & Hc); exists x; split; [by apply Hold|done]|]; split; [exact Heq|]);
      unfold pump_ok in *; cbn [pump set_ops ops conn]; rewrite Ep in *; try exact Hok.
    + destruct Hok as [(x & Hx & Hc) He]. split; [exists x; split; [by apply Hold|done]|done].
    + destruct Hok as [(x & Hx & Hc) He]. split; [exists x; split; [by apply Hold|done]|done].
    + destruct Hok as (x & r & s & Hx & H). exists x, r, s. split; [by apply Hold|done].
    + destruct Hok as (x & Hx & H). exists x. split; [by apply Hold|done].
    + destruct Hok as (He & Hla & Hh & x & Hx & Hph). split; [done|]. split; [done|]. split; [done|]. exists x. split; [by apply Hold|done].
Qed.

(** The lists of started and marked operations change; [placed] keeps its elements. *)
Lemma invariant_calls w s m : invariant w -> (forall i, i ∈ s ++ m -> i ∈ starting w ++ marked w) -> NoDup (s ++ m) -> invariant (set_calls s m w).
Proof.
  intros [Hg Hid Hn Hp Hw Hs Hl] Hsub Hnd.
  assert (Hpl : forall i, i ∈ placed (set_calls s m w) -> i ∈ placed w).
  { unfold placed. cbn. intros i. rewrite !elem_of_app. specialize (Hsub i). rewrite !elem_of_app in Hsub. tauto. }
  split; [done|done| |..|done|done].
  - unfold placed in *. cbn. rewrite app_assoc. rewrite app_assoc in Hn. apply NoDup_app in Hn as (H1 & H2 & H3). apply NoDup_app. split; [done|]. split; [|done].
    intros i Hi. apply H2. by apply Hsub.
  - intros i Hi. by apply Hp, Hpl.
  - intros i Hi. apply Hw. cbn in Hi. rewrite !elem_of_app in Hi. specialize (Hsub i). rewrite !elem_of_app in *. tauto.
Qed.

Lemma remove_one_spec i j l : j ∈ remove_one i l <-> j <> i /\ j ∈ l.
Proof. unfold remove_one. by rewrite list_elem_of_filter. Qed.

Lemma remove_one_NoDup i l : NoDup l -> NoDup (remove_one i l).
Proof. apply NoDup_filter. Qed.

Lemma remove_one_perm i l : NoDup l -> i ∈ l -> l ≡ₚ i :: remove_one i l.
Proof.
  intros Hn Hi. apply NoDup_Permutation; [done|constructor; [by rewrite remove_one_spec; intros []|by apply remove_one_NoDup]|].
  intros j. rewrite elem_of_cons, remove_one_spec. destruct (decide (j = i)) as [->|]; tauto.
Qed.

(** A started operation is new to all lists. *)
Lemma invariant_start (w : World) i (o : DBOperation) : invariant w -> ops w !! i = Some o -> m_phase o = cold ->
  invariant (set_calls (starting w ++ [i]) (marked w) (put_op i (set_phase op_queued o) w)).
Proof.
  intros Hi Ho Hc. assert (Hlt := lookup_lt_Some _ _ _ Ho).
  assert (Hside : side_change o (set_phase op_queued o)).
  { split; [done|]. split.
    - destruct Hi as [Hg _ _ _ _ _ _]. rewrite Forall_lookup in Hg. specialize (Hg i o Ho). unfold good in *. rewrite Hc in Hg. exact Hg.
    - split; [congruence|]. split; [intros [H _]; congruence|]. split; [intros [H|H]; congruence|done]. }
  assert (Hn : i ∉ placed w) by (intros H; destruct (placed_ok w Hi i H) as (x & Hx & Hp); congruence).
  destruct (invariant_side w i o _ Hi Ho Hside) as [Hg Hid Hnd Hp Hw Hs Hl].
  split; [done|done| |..|done|done].
  - unfold placed in *. cbn in *. rewrite <- app_assoc. apply NoDup_app in Hnd as (H1 & H2 & H3). apply NoDup_app. split; [done|]. split.
    + intros j Hj. cbn. rewrite elem_of_cons. intros [->|Hj']; [|by apply (H2 j)]. apply Hn. rewrite elem_of_app. by left.
    + cbn. apply NoDup_cons. split; [|done]. intros H. apply Hn. rewrite elem_of_app. by right.
  - intros j Hj. unfold placed in Hj. cbn in Hj. rewrite <- app_assoc in Hj. rewrite elem_of_app in Hj. cbn in Hj. rewrite elem_of_cons in Hj.
    destruct (decide (j = i)) as [->|Hne]; [|apply (Hp j); unfold placed; cbn; rewrite elem_of_app; tauto].
    exists (set_phase op_queued o). split; [by apply list_lookup_insert_eq|done].
  - intros j Hj. cbn in Hj. rewrite <- app_assoc in Hj. rewrite elem_of_app in Hj. cbn in Hj. rewrite elem_of_cons in Hj.
    destruct (decide (j = i)) as [->|Hne]; [|apply (Hw j); cbn; rewrite elem_of_app; tauto].
    exists (set_phase op_queued o). split; [by apply list_lookup_insert_eq|by left].
Qed.

(** A change of the queues of the connection that moves an operation on. *)
Lemma invariant_enqueue (w : World) i : invariant w -> i ∈ marked w ->
  invariant (set_calls (starting w) (remove_one i (marked w)) (set_conn (push_queued i (conn w)) w)).
Proof.
  intros [Hg Hid Hn Hp Hw Hs Hl] Hi.
  assert (Hm : NoDup (marked w)) by (unfold placed in Hn; apply NoDup_app in Hn as (_ & _ & Hn); by apply NoDup_app in Hn as (Hn & _)).
  assert (Hpl : placed (set_calls (starting w) (remove_one i (marked w)) (set_conn (push_queued i (conn w)) w)) ≡ₚ placed w).
  { unfold placed. cbn. f_equiv. etransitivity; [|symmetry; apply Permutation_app_tail, (remove_one_perm i (marked w)); done].
    rewrite <- (app_assoc (queued (conn w))). cbn. rewrite (app_assoc (remove_one _ _) (queued _)), <- Permutation_middle. by rewrite <- (app_assoc _ (queued _)). }
  split; [done|done| |..|done|].
  - by rewrite Hpl.
  - intros j Hj. apply Hp. by rewrite <- Hpl.
  - intros j Hj. apply Hw. cbn in Hj. rewrite !elem_of_app in *. rewrite remove_one_spec, elem_of_cons, elem_of_nil in Hj. destruct (decide (j = i)) as [->|]; tauto.
  - unfold ledger in *. cbn. destruct (pump w) eqn:Ep; done.
Qed.

Lemma put_same (w : World) i o : ops w !! i = Some o -> put_op i o w = w.
Proof. intros H. unfold put_op, set_ops. rewrite list_insert_id by done. by destruct w. Qed.

Lemma invariant_mark (w : World) i o : invariant w -> ops w !! i = Some o -> i ∈ starting w -> forall w', step true w (Mark_queued i) = Some w' -> invariant w'.
Proof.
  intros Hi Ho Hs w'. cbn. rewrite bool_decide_eq_true_2 by done. rewrite Ho. cbn [mbind option_bind].
  assert (Hn : NoDup (starting w ++ marked w)).
  { assert (H := placed_once w Hi). unfold placed in H. rewrite app_assoc in H. by apply NoDup_app in H as (H & _). }
  assert (Hn' := Hn). apply NoDup_app in Hn' as (N1 & N2 & N3).
  destruct (markQueued o) as [o'|e] eqn:E; intros [= <-].
  - destruct (placed_ok w Hi i) as (x & Hx & Hc); [unfold placed; rewrite elem_of_app; by left|]. rewrite Ho in Hx. injection Hx as <-.
    assert (Hg : good o) by (destruct Hi as [Hg _ _ _ _ _ _]; rewrite Forall_lookup in Hg; by eapply Hg).
    destruct (side_mark o o' Hg Hc E) as [-> _]. rewrite put_same by done. apply invariant_calls; [done|..].
    + intros j. rewrite !elem_of_app, elem_of_cons, elem_of_nil, remove_one_spec. intros [H|[H|[->|[]]]]; tauto.
    + rewrite app_assoc, Permutation_app_comm. cbn. rewrite app_comm_cons, <- remove_one_perm by done. exact Hn.
  - apply invariant_calls; [done|..].
    + intros j. rewrite !elem_of_app, remove_one_spec. tauto.
    + apply NoDup_app. split; [by apply remove_one_NoDup|]. split; [|done]. intros j Hj. apply remove_one_spec in Hj as [_ Hj]. by apply N2.
Qed.

(** ** The pump *)

(** A move that changes no operation. *)
Lemma invariant_moves (w w' : World) l : invariant w -> ops w' = ops w -> placed w ≡ₚ l ++ placed w' ->
  (forall i, i ∈ starting w' ++ marked w' ++ queued (conn w') -> i ∈ starting w ++ marked w ++ queued (conn w)) ->
  sent (conn w') = length (inflight (conn w')) -> ledger w' -> invariant w'.
Proof.
  intros [Hg Hid Hn Hp Hw Hs Hl] Ho Hpl Hwait Hs' Hl'. split; rewrite ?Ho; try done.
  - rewrite Hpl in Hn. by apply NoDup_app in Hn as (_ & _ & Hn).
  - intros i Hi. apply Hp. rewrite Hpl, elem_of_app. by right.
  - intros i Hi. by apply Hw, Hwait.
Qed.

(** A move that changes the operation in the pump's hands. *)
Lemma invariant_moves_op (w w' : World) i o o' : invariant w -> ops w !! i = Some o -> ops w' = <[i := o']> (ops w) -> same_query o o' -> good o' ->
  m_phase o' <> cold -> i ∉ starting w ++ marked w ++ queued (conn w) -> placed w' = placed w ->
  starting w' = starting w -> marked w' = marked w -> queued (conn w') = queued (conn w) ->
  sent (conn w') = length (inflight (conn w')) -> ledger w' -> invariant w'.
Proof.
  intros [Hg Hid Hn Hp Hw Hs Hl] Hi Ho Hq Hgo Hc Hni Hpl E1 E2 E3 Hs' Hl'. assert (Hlt := lookup_lt_Some _ _ _ Hi).
  split; rewrite ?Ho, ?Hpl, ?E1, ?E2, ?E3; try done.
  - by apply Forall_insert.
  - intros j x Hx. destruct (decide (i = j)) as [<-|Hne]; [|rewrite list_lookup_insert_ne in Hx by done; by eapply Hid].
    rewrite list_lookup_insert_eq in Hx by done. injection Hx as <-. destruct Hq as (_ & _ & _ & _ & ->). by eapply Hid.
  - intros j Hj. destruct (decide (i = j)) as [<-|Hne]; [exists o'; split; [by apply list_lookup_insert_eq|done]|].
    rewrite list_lookup_insert_ne by done. by apply Hp.
  - intros j Hj. rewrite list_lookup_insert_ne by (intros ->; done). by apply Hw.
Qed.

(** The entries of the ledger do not see a change of another operation. *)
Lemma entries_other (l : list DBOperation) ids chs i o' : i ∉ ids -> Forall2 (fun j ch => exists o, l !! j = Some o /\ chunk o ch) ids chs ->
  Forall2 (fun j ch => exists o, <[i := o']> l !! j = Some o /\ chunk o ch) ids chs.
Proof.
  intros Hn H. induction H as [|j ch ids chs (o & Ho & Hc) H IH]; constructor.
  - exists o. rewrite elem_of_cons in Hn. rewrite list_lookup_insert_ne by (intros ->; apply Hn; by left). done.
  - apply IH. rewrite elem_of_cons in Hn. tauto.
Qed.

Lemma post_drained_same c : queued (postDrainedIfIdle c) = queued c /\ inflight (postDrainedIfIdle c) = inflight c /\ sent (postDrainedIfIdle c) = sent c.
Proof. unfold postDrainedIfIdle. destruct (queued c) eqn:Eq, (inflight c) eqn:Ei; cbn; rewrite ?Eq, ?Ei; done. Qed.

Lemma pop_spec (c : DBConnection) i c' : popDispatchable true c = (Some i, c') ->
  queued c = i :: queued c' /\ inflight c' = inflight c /\ sent c' = sent c.
Proof. unfold popDispatchable. cbn. destruct (queued c); [done|]. by intros [= -> <-]. Qed.

Lemma good_at (w : World) i o : invariant w -> ops w !! i = Some o -> good o.
Proof. intros [Hg _ _ _ _ _ _] H. rewrite Forall_lookup in Hg. by eapply Hg. Qed.

(** What the pump holds is in no queue of callers, and not in the ledger. *)
Lemma held_apart (w : World) i : invariant w -> held (pump w) = [i] -> i ∉ starting w ++ marked w ++ queued (conn w) /\ i ∉ inflight (conn w).
Proof.
  intros Hi Hh. assert (Hn := placed_once w Hi). unfold placed in Hn. rewrite Hh in Hn. cbn in Hn.
  rewrite (app_assoc (marked w)), (app_assoc (starting w)) in Hn.
  rewrite <- Permutation_middle in Hn. apply NoDup_cons in Hn as [Hn _]. rewrite elem_of_app in Hn. tauto.
Qed.

Lemma head_apart (w : World) i l : invariant w -> inflight (conn w) = i :: l -> i ∉ starting w ++ marked w ++ queued (conn w) /\ i ∉ l.
Proof.
  intros Hi Hh. assert (Hn := placed_once w Hi). unfold placed in Hn. rewrite Hh in Hn.
  rewrite !app_assoc in Hn. rewrite <- Permutation_middle in Hn. apply NoDup_cons in Hn as [Hn _]. rewrite !elem_of_app in *. tauto.
Qed.

(** The ledger at the place [p] of the pump. *)
Ltac open_ledger w Hi Hp chs extra Hf Hw Hok :=
  let Hl := fresh in assert (Hl := ledger_ok w Hi); unfold ledger, tracked, pump_ok in Hl; rewrite Hp in Hl; cbn [in_hand app] in Hl;
  destruct Hl as (chs & extra & Hf & Hw & Hok).
Ltac pump_at Hp := unfold placed; cbn [pump set_pump set_conn set_pg starting marked conn ops held app]; rewrite Hp; cbn [held app].

Lemma invariant_crash (w w' : World) e : invariant w -> ops w' = ops w -> conn w' = conn w -> starting w' = starting w -> marked w' = marked w ->
  pump w' = Crashed e -> accounted w e -> invariant w'.
Proof.
  intros Hi E1 E2 E3 E4 E5 Ha. apply (invariant_moves w w' (held (pump w))); [done|done|..].
  - unfold placed. rewrite E2, E3, E4, E5. cbn [held app]. rewrite !app_assoc. apply Permutation_app_tail.
    by rewrite (Permutation_app_comm _ (held _)), !app_assoc.
  - by rewrite E2, E3, E4.
  - rewrite E2. exact (sent_ok w Hi).
  - unfold ledger. rewrite E5. unfold accounted in *. by rewrite E1.
Qed.

Lemma step_dispatch (w w' : World) now n : invariant w -> pump w = Dispatch n -> pump_step true now w = Some w' -> invariant w'.
Proof.
  intros Hi Hp. unfold pump_step. rewrite Hp. open_ledger w Hi Hp chs extra Hf Hw He. subst extra.
  assert (Hflush : invariant (set_pump Flush w)).
  { apply (invariant_moves w _ []); [done|done|pump_at Hp; reflexivity|done|exact (sent_ok w Hi)|]. unfold ledger; cbn. by exists chs, []. }
  destruct (n <? pump_operation_budget)%nat; [|by intros [= <-]].
  destruct (popDispatchable true (conn w)) as [[i|] c] eqn:E; [|by intros [= <-]]. apply pop_spec in E as (Eq & Ei & Es). intros [= <-].
  assert (Hwait : exists o, ops w !! i = Some o /\ waiting o) by (apply (waiting_ok w Hi); rewrite Eq, !elem_of_app, elem_of_cons; tauto).
  apply (invariant_moves w _ []); [done|done|..].
  - pump_at Hp. rewrite Eq, Ei. cbn. by rewrite <- (Permutation_middle (queued c)).
  - cbn. rewrite Eq. intros j. rewrite !elem_of_app, elem_of_cons. tauto.
  - cbn. rewrite Ei, Es. exact (sent_ok w Hi).
  - unfold ledger; cbn. exists chs, []. unfold tracked; cbn. rewrite Ei. done.
Qed.

Lemma step_inspect (w w' : World) now n i : invariant w -> pump w = Inspect n i -> pump_step true now w = Some w' -> invariant w'.
Proof.
  intros Hi Hp. unfold pump_step. rewrite Hp. open_ledger w Hi Hp chs extra Hf Hw Hok. destruct Hok as [(o & Ho & Hwait) ->]. rewrite Ho. cbn [mbind option_bind].
  destruct (_ || _); intros [= <-].
  - apply (invariant_moves w _ [i]); [done|done|..|done|exact (sent_ok w Hi)|].
    + pump_at Hp. rewrite (app_assoc (marked w)), (app_assoc (starting w)), <- Permutation_middle. by rewrite <- !app_assoc.
    + unfold ledger; cbn. by exists chs, [].
  - apply (invariant_moves w _ []); [done|done|pump_at Hp; reflexivity|done|exact (sent_ok w Hi)|]. unfold ledger; cbn. exists chs, []. split; [done|]. split; [done|].
    split; [by exists o|done].
Qed.

Lemma step_skip (w w' : World) now n : invariant w -> pump w = Skip n -> pump_step true now w = Some w' -> invariant w'.
Proof.
  intros Hi Hp. unfold pump_step. rewrite Hp. open_ledger w Hi Hp chs extra Hf Hw He. subst extra. intros [= <-].
  destruct (post_drained_same (conn w)) as (Eq & Ei & Es).
  apply (invariant_moves w _ []); [done|done|..].
  - pump_at Hp. by rewrite Eq, Ei.
  - cbn. by rewrite Eq.
  - cbn. rewrite Es, Ei. exact (sent_ok w Hi).
  - unfold ledger; cbn. exists chs, []. unfold tracked; cbn. by rewrite Ei.
Qed.

Lemma send_wire o (c c' : PGconn) : send_calls o true c = (true, c') -> exists r s, asks o r /\ resultStatus r <> PGRES_PIPELINE_SYNC
  /\ resultStatus s = PGRES_PIPELINE_SYNC /\ wire c' = wire c ++ [Some r; None; Some s].
Proof.
  unfold send_calls. destruct (PQsendQueryParams _ _ _ _ _ _ _ c) as [ok c1] eqn:E1. destruct ok; [|done]. cbn [negb]. intros E2.
  destruct (send_law _ _ laws _ _ _ _ _ _ _ _ _ E1) as (r & Ha & Hr & W1). destruct (sync_law _ _ laws _ _ E2) as (s & Hs & W2).
  exists r, s. split; [exact Ha|]. split; [done|]. split; [done|]. by rewrite W2, W1, <- app_assoc.
Qed.

Lemma step_send (w w' : World) now n i : invariant w -> pump w = Send n i -> pump_step true now w = Some w' -> invariant w'.
Proof.
  intros Hi Hp. unfold pump_step. rewrite Hp. open_ledger w Hi Hp chs extra Hf Hw Hok. destruct Hok as [(o & Ho & Hwait) ->]. rewrite Ho. cbn [mbind option_bind].
  destruct (send_calls o true (pg w)) as [[] c] eqn:E; intros [= <-].
  - apply send_wire in E as (r & s & Ha & Hr & Hs & W).
    apply (invariant_moves w _ []); [done|done|pump_at Hp; reflexivity|done|exact (sent_ok w Hi)|]. unfold ledger; cbn. exists chs, [Some r; None; Some s].
    split; [done|]. split; [by rewrite W, Hw, app_nil_r|]. by exists o, r, s.
  - eapply (invariant_crash w); [done..|]. left. by eexists _, _.
Qed.

Lemma step_mark (w w' : World) now n i : invariant w -> pump w = Mark n i -> pump_step true now w = Some w' -> invariant w'.
Proof.
  intros Hi Hp. unfold pump_step. rewrite Hp. open_ledger w Hi Hp chs extra Hf Hw Hok.
  destruct Hok as (o & r & s & Ho & Hwait & -> & Ha & Hr & Hs). unfold pump_calls. rewrite Ho. cbn [mbind option_bind].
  destruct (held_apart w i Hi) as [Hnq Hni]; [by rewrite Hp|]. assert (Hlt := lookup_lt_Some _ _ _ Ho). unfold mark_sent.
  destruct (decide (m_phase o = op_queued)) as [Hph|Hph]; intros [= <-].
  - assert (Hg := good_at w i o Hi Ho). unfold good in Hg. rewrite Hph in Hg.
    eapply (invariant_moves_op w _ i o); [done|done|reflexivity|done|exact Hg|done|done| |done|done|done|exact (sent_ok w Hi)|].
    + pump_at Hp. reflexivity.
    + unfold ledger; cbn. exists chs, [Some r; None; Some s]. split; [by apply entries_other|]. split; [done|].
      eexists. split; [by apply list_lookup_insert_eq|]. split; [done|]. by exists r, s.
  - eapply (invariant_crash w); [done..|]. right. split; [done|]. exists i, o. split; [done|]. by destruct Hwait.
Qed.

Lemma step_push (w w' : World) now n i : invariant w -> pump w = Push n i -> pump_step true now w = Some w' -> invariant w'.
Proof.
  intros Hi Hp. unfold pump_step. rewrite Hp. open_ledger w Hi Hp chs extra Hf Hw Hok. destruct Hok as (o & Ho & Hph & Hc). intros [= <-].
  apply (invariant_moves w _ []); [done|done|..].
  - pump_at Hp. cbn. do 3 apply Permutation_app_head. apply (Permutation_app_comm [i]).
  - done.
  - cbn. rewrite length_app. cbn. rewrite (sent_ok w Hi). lia.
  - unfold ledger; cbn. exists (chs ++ [extra]), []. unfold tracked; cbn. split; [apply Forall2_app; [done|]; constructor; [by exists o|done]|].
    split; [|done]. by rewrite Hw, concat_app, app_nil_r; cbn; rewrite app_nil_r.
Qed.

Lemma step_flush (w w' : World) now : invariant w -> pump w = Flush -> pump_step true now w = Some w' -> invariant w'.
Proof.
  intros Hi Hp. unfold pump_step. rewrite Hp. open_ledger w Hi Hp chs extra Hf Hw He. subst extra.
  assert (W1 := flush_law _ _ laws (pg w)). destruct (PQflush (pg w)) as [flush c1]. cbn [snd] in W1.
  destruct (flush <? 0); [intros [= <-]; eapply (invariant_crash w); [done..|]; left; by eexists _, _|].
  assert (W2 := consume_law _ _ laws c1). destruct (PQconsumeInput c1) as [[] c2]; cbn [negb snd] in *;
    [|intros [= <-]; eapply (invariant_crash w); [done..|]; left; by eexists _, _].
  intros [= <-]. apply (invariant_moves w _ []); [done|done| |done|exact (sent_ok w Hi)|].
  - unfold placed. cbn. rewrite Hp. by destruct (PQisBusy c2).
  - unfold ledger, tracked, pump_ok; cbn. destruct (PQisBusy c2); exists chs, []; (split; [done|]; split; [by cbn; rewrite W2, W1|done]).
Qed.

(** What the wire starts with, when the ledger has a head. *)
Lemma chunk_head o ch : chunk o ch -> exists x ch', ch = x :: ch'.
Proof.
  unfold chunk. destruct (m_phase o); try done; [intros (r & s & -> & _)|intros (s & _ & [-> | ->])]; by eexists _, _.
Qed.

Lemma step_retrieve (w w' : World) now k advanced flush : invariant w -> pump w = Retrieve k advanced flush -> pump_step true now w = Some w' -> invariant w'.
Proof.
  intros Hi Hp. unfold pump_step. rewrite Hp. open_ledger w Hi Hp chs extra Hf Hw He. subst extra. rewrite app_nil_r in Hw.
  destruct (k <? pump_operation_budget)%nat.
  - assert (W := get_law _ _ laws (pg w)). destruct (PQgetResult (pg w)) as [raw c]. cbn [fst snd] in W. destruct W as [-> W]. intros [= <-].
    apply (invariant_moves w _ []); [done|done|pump_at Hp; reflexivity|done|exact (sent_ok w Hi)|].
    unfold ledger, tracked, pump_ok, getHead; cbn. exists chs, []. split; [done|]. rewrite app_nil_r, W.
    destruct (inflight (conn w)) as [|i l].
    + inversion Hf; subst. cbn in Hw. rewrite Hw. done.
    + inversion Hf as [|? ch ? chs' (o & Ho & Hc) Hf']; subst. apply chunk_head in Hc as (x & ch' & ->). rewrite Hw. cbn. done.
  - intros [= <-]. apply (invariant_moves w _ []); [done|done|pump_at Hp; reflexivity|done|exact (sent_ok w Hi)|].
    unfold ledger; cbn. exists chs, []. by rewrite app_nil_r.
Qed.

(** The head of the ledger, and what the wire holds for it. *)
Lemma ledger_head (l : list DBOperation) i ids chs :
  Forall2 (fun j ch => exists o, l !! j = Some o /\ chunk o ch) (i :: ids) chs ->
  exists o ch chs', chs = ch :: chs' /\ l !! i = Some o /\ chunk o ch /\ Forall2 (fun j ch => exists o, l !! j = Some o /\ chunk o ch) ids chs'.
Proof. intros H. inversion H as [|? ch ? chs' (o & Ho & Hc) H']; subst. by exists o, ch, chs'. Qed.

Lemma accept_phase o r now : m_phase o = op_sent -> untouched o ->
  acceptResult now r o = Ok (set_phase synchronizing (set_times (m_sent_at o) (Some now) (m_completed_at o) (set_outcome (Some r) (m_error o) o))).
Proof. intros Hp [Hr _]. unfold acceptResult, in_flight. by rewrite Hp, Hr. Qed.

Lemma succeeded_spec r : bool_decide (resultStatus r = PGRES_TUPLES_OK) || bool_decide (resultStatus r = PGRES_COMMAND_OK) = true <-> succeeded r.
Proof. unfold succeeded. by rewrite orb_true_iff, !bool_decide_eq_true. Qed.

(** The ledger after the head has taken one result in. *)
Lemma ledger_accept w i ids o o' chs' r s k flush advanced : pump w = Got k advanced flush (Some r) (Some i) -> inflight (conn w) = i :: ids -> i ∉ ids ->
  ops w !! i = Some o -> m_phase o' = synchronizing -> resultStatus s = PGRES_PIPELINE_SYNC ->
  Forall2 (fun j ch => exists o, ops w !! j = Some o /\ chunk o ch) ids chs' -> wire (pg w) = [None; Some s] ++ concat chs' ->
  ledger (set_pump (Retrieve (S k) false flush) (put_op i o' w)).
Proof.
  intros Hp Hin Hni Ho Hph Hs Hf Hw. assert (Hlt := lookup_lt_Some _ _ _ Ho).
  unfold ledger, tracked, pump_ok; cbn. exists ([None; Some s] :: chs'), []. rewrite Hin. split; [|by rewrite Hw, app_nil_r].
  constructor; [|by apply entries_other]. exists o'. split; [by apply list_lookup_insert_eq|]. unfold chunk. rewrite Hph. exists s. split; [done|by left].
Qed.

Lemma step_got (w w' : World) now k advanced flush raw h : invariant w -> pump w = Got k advanced flush raw h ->
  pump_step true now w = Some w' -> invariant w'.
Proof.
  intros Hi Hp. unfold pump_step. rewrite Hp. assert (Hl := ledger_ok w Hi); unfold ledger, tracked, pump_ok in Hl; rewrite Hp in Hl.
  destruct Hl as (chs & extra & Hf & Hw & -> & Hh & Hnone). rewrite app_nil_r in Hw.
  assert (Hquiet : forall p chs, held p = [] -> in_hand p = [] -> match p with Retrieve _ _ _ | Rearming _ => True | _ => False end ->
    Forall2 (fun i ch => exists o, ops w !! i = Some o /\ chunk o ch) (inflight (conn w)) chs -> wire (pg w) = concat chs -> invariant (set_pump p w)).
  { intros p chs' Hhp Hip Hpp Hf' Hw'. apply (invariant_moves w _ []); [done|done|pump_at Hp; by rewrite Hhp|done|exact (sent_ok w Hi)|].
    unfold ledger, tracked, pump_ok; cbn. destruct p; try done; exists chs', []; by rewrite app_nil_r. }
  destruct h as [i|].
  - destruct (inflight (conn w)) as [|i' ids] eqn:Hin; [done|]. injection Hh as <-.
    destruct (ledger_head _ _ _ _ Hf) as (o & ch & chs' & -> & Ho & Hc & Hf'). destruct (head_apart w i ids Hi Hin) as [Hnq Hni].
    assert (Hg := good_at w i o Hi Ho). cbn [in_hand app concat] in Hw.
    destruct raw as [r|].
    + unfold take_in. destruct (bool_decide (resultStatus r = PGRES_PIPELINE_SYNC)) eqn:Es.
      * apply bool_decide_eq_true in Es. intros [= <-].
        assert (Hph : m_phase o = synchronizing /\ wire (pg w) = concat chs').
        { unfold chunk in Hc. destruct (m_phase o); try done; [destruct Hc as (r' & s & -> & _ & Hr & _)|destruct Hc as (s & Hs & [-> | ->])];
            cbn in Hw; injection Hw as Hw; subst; done. }
        destruct Hph as [Hph Hw']. apply (invariant_moves w _ []); [done|done|pump_at Hp; reflexivity|done|exact (sent_ok w Hi)|].
        unfold ledger, tracked, pump_ok; cbn. rewrite Hin. exists chs', []. split; [done|]. split; [by rewrite app_nil_r|]. eauto 10.
      * apply bool_decide_eq_false in Es.
        assert (Hph : m_phase o = op_sent /\ asks o r /\ exists s, resultStatus s = PGRES_PIPELINE_SYNC /\ wire (pg w) = [None; Some s] ++ concat chs').
        { unfold chunk in Hc. destruct (m_phase o); try done; [destruct Hc as (r' & s & -> & Ha & Hr & Hs)|destruct Hc as (s & Hs & [-> | ->])];
            cbn in Hw; injection Hw as Hw; subst; try done. eauto. }
        destruct Hph as (Hph & Ha & s & Hs & Hw'). assert (Hu : untouched o) by (unfold good in Hg; by rewrite Hph in Hg). destruct Hu as [Hur Hue].
        unfold pump_calls. rewrite Ho. cbn [mbind option_bind]. destruct (bool_decide _ || bool_decide _) eqn:Eok.
        -- rewrite (accept_phase o r now Hph (conj Hur Hue)). intros [= <-]. apply succeeded_spec in Eok.
           eapply (invariant_moves_op w _ i o); [done|done|reflexivity|done| |done|done|pump_at Hp; reflexivity|done|done|done|exact (sent_ok w Hi)|].
           ++ unfold good. cbn. exists r. split; [exact Ha|]. left. done.
           ++ by eapply ledger_accept.
        -- unfold acceptFailure, in_flight. rewrite Hph. cbn [negb orb bool_decide decide]. rewrite bool_decide_eq_true_2 by done. cbn. intros [= <-].
           eapply (invariant_moves_op w _ i o); [done|done|reflexivity|done| |done|done|pump_at Hp; reflexivity|done|done|done|exact (sent_ok w Hi)|].
           ++ unfold good. cbn. exists r. split; [exact Ha|]. right. split; [|done]. by rewrite <- succeeded_spec, Eok.
           ++ by eapply ledger_accept.
    + assert (Hph : m_phase o = synchronizing /\ exists s, resultStatus s = PGRES_PIPELINE_SYNC /\ wire (pg w) = [Some s] ++ concat chs').
      { unfold chunk in Hc. destruct (m_phase o); try done; [destruct Hc as (r' & s & -> & _)|destruct Hc as (s & Hs & [-> | ->])];
          cbn in Hw; injection Hw as Hw; subst; try done. eauto. }
      destruct Hph as (Hph & s & Hs & Hw'). unfold take_in. rewrite Ho. cbn [mbind option_bind andb negb].
      assert (Hf2 : Forall2 (fun j ch => exists o, ops w !! j = Some o /\ chunk o ch) (i :: ids) ([Some s] :: chs')).
      { constructor; [|done]. exists o. split; [done|]. unfold chunk. rewrite Hph. exists s. split; [done|by right]. }
      destruct (needsSynchronization o && negb advanced); intros [= <-]; by eapply Hquiet.
  - rewrite (Hnone eq_refl) in *. unfold take_in. intros [= <-]. destruct (inflight (conn w)) eqn:Hin; [|done]. by eapply Hquiet.
Qed.

Lemma step_complete (w w' : World) now k flush i last : invariant w -> pump w = Complete k flush i last -> pump_step true now w = Some w' -> invariant w'.
Proof.
  intros Hi Hp. unfold pump_step. rewrite Hp. open_ledger w Hi Hp chs extra Hf Hw Hok. destruct Hok as (-> & -> & Hh & o & Ho & Hph).
  rewrite Ho. cbn [mbind option_bind]. assert (Hfl : in_flight o = true) by (unfold in_flight; by rewrite Hph). unfold complete. rewrite Hfl.
  cbn [negb]. intros [= <-]. apply invariant_resumed. destruct (inflight (conn w)) as [|i' ids] eqn:Hin; [done|]. injection Hh as ->.
  destruct (head_apart w i ids Hi Hin) as [Hnq Hni]. assert (Hg := good_at w i o Hi Ho). unfold good in Hg. rewrite Hph in Hg.
  eapply (invariant_moves_op w _ i o); [done|done|reflexivity|done| |done|done|pump_at Hp; reflexivity|done|done|done|exact (sent_ok w Hi)|].
  - unfold good; cbn. left. destruct Hg as (r & Ha & Hg). by exists r.
  - unfold ledger, tracked, pump_ok; cbn. rewrite Hin. exists chs, []. split; [by apply entries_other|]. done.
Qed.

Lemma step_retire (w w' : World) now k flush last : invariant w -> pump w = Retire k flush last -> pump_step true now w = Some w' -> invariant w'.
Proof.
  intros Hi Hp. unfold pump_step. rewrite Hp. open_ledger w Hi Hp chs extra Hf Hw Hok. destruct Hok as (-> & -> & Hh). intros [= <-].
  destruct (inflight (conn w)) as [|i ids] eqn:Hin; [done|]. cbn [tail] in Hf. assert (Hs := sent_ok w Hi). rewrite Hin in Hs. cbn in Hs.
  apply (invariant_moves w _ [i]); [done|done|..].
  - pump_at Hp. unfold retire_locked. rewrite Hin. cbn.
    by rewrite (app_assoc (marked w)), (app_assoc (starting w)), <- Permutation_middle, <- !app_assoc.
  - cbn. unfold retire_locked. rewrite Hin. done.
  - cbn. unfold retire_locked. rewrite Hin. cbn. lia.
  - unfold ledger, tracked, pump_ok; cbn. unfold retire_locked. rewrite Hin. cbn. by exists chs, [].
Qed.

Lemma step_post (w w' : World) now k flush last : invariant w -> pump w = Post k flush last -> pump_step true now w = Some w' -> invariant w'.
Proof.
  intros Hi Hp. unfold pump_step. rewrite Hp. open_ledger w Hi Hp chs extra Hf Hw Hok. destruct Hok as (-> & ->). intros [= <-].
  destruct (post_drained_same (conn w)) as (Eq & Ei & Es). apply (invariant_moves w _ []); [done|done|..].
  - pump_at Hp. by rewrite Eq, Ei.
  - cbn. by rewrite Eq.
  - cbn. rewrite Es, Ei. exact (sent_ok w Hi).
  - unfold ledger, tracked, pump_ok; cbn. rewrite Ei. by exists chs, [].
Qed.

Lemma step_rearming (w w' : World) now flush : invariant w -> pump w = Rearming flush -> pump_step true now w = Some w' -> invariant w'.
Proof.
  intros Hi Hp. unfold pump_step. rewrite Hp. open_ledger w Hi Hp chs extra Hf Hw He. subst extra.
  assert (Hrest : forall c, queued c = queued (conn w) -> inflight c = inflight (conn w) -> sent c = sent (conn w) -> invariant (set_pump Resting (set_conn c w))).
  { intros c Eq Ei Es. apply (invariant_moves w _ []); [done|done|pump_at Hp; by rewrite Eq, Ei|cbn; by rewrite Eq|cbn; rewrite Es, Ei; exact (sent_ok w Hi)|].
    unfold ledger, tracked, pump_ok; cbn. rewrite Ei. by exists chs, []. }
  destruct (negb (hasWork (conn w))); [intros [= <-]; by apply (Hrest (conn w))|].
  destruct (PQsocket (pg w) <? 0); intros [= <-]; [|by apply Hrest].
  eapply (invariant_crash w); [done..|]. left. by eexists _, _.
Qed.

Lemma invariant_pump (w w' : World) now : invariant w -> pump_step true now w = Some w' -> invariant w'.
Proof.
  intros Hi Hs. destruct (pump w) eqn:Hp; [unfold pump_step in Hs; by rewrite Hp in Hs|..|unfold pump_step in Hs; by rewrite Hp in Hs].
  - by eapply step_dispatch.
  - by eapply step_inspect.
  - by eapply step_skip.
  - by eapply step_send.
  - by eapply step_mark.
  - by eapply step_push.
  - by eapply step_flush.
  - by eapply step_retrieve.
  - by eapply step_got.
  - by eapply step_complete.
  - by eapply step_retire.
  - by eapply step_post.
  - by eapply step_rearming.
Qed.

Lemma invariant_begin (w : World) : invariant w -> pump w = Resting -> invariant (set_pump (Dispatch 0) w).
Proof.
  intros Hi Hp. open_ledger w Hi Hp chs extra Hf Hw He. subst extra.
  apply (invariant_moves w _ []); [done|done|pump_at Hp; reflexivity|done|exact (sent_ok w Hi)|]. unfold ledger, tracked, pump_ok; cbn. by exists chs, [].
Qed.

Lemma ledger_step (w w' : World) c : invariant w -> step true w c = Some w' -> invariant w'.
Proof.
  intros Hi. destruct c as [id sql b f|i|i|i|i k|i|i|i| |now].
  - cbn. destruct (o ← _; _) as [o|e] eqn:E; intros [= <-]; [|done]. by eapply invariant_create.
  - cbn. destruct (ops w !! i) as [o|] eqn:Ho; [|done]. cbn. destruct (start_op o) as [[o' b]|] eqn:E; [|by intros [= <-]].
    apply start_spec in E as [[-> ->]|(-> & Hc & ->)]; intros [= <-]; [done|]. by eapply invariant_start.
  - intros H. cbn in H. destruct (bool_decide (i ∈ starting w)) eqn:E; [|done]. apply bool_decide_eq_true in E.
    destruct (ops w !! i) as [o|] eqn:Ho; [|done]. eapply (invariant_mark w i o); [done..|]. cbn. rewrite bool_decide_eq_true_2, Ho by done. exact H.
  - cbn. destruct (bool_decide (i ∈ marked w)) eqn:E; [|done]. apply bool_decide_eq_true in E. intros [= <-]. by apply invariant_enqueue.
  - cbn. destruct (ops w !! i) as [o|] eqn:Ho; [|done]. cbn. destruct (registerContinuation k o) as [[o' l]|] eqn:E; intros [= <-]; [|done].
    apply invariant_resumed. eapply invariant_side; [done..|]. eapply side_register; [|done]. by eapply good_at.
  - cbn. destruct (ops w !! i) as [o|] eqn:Ho; [|done]. intros [= <-]. eapply invariant_side; [done..|]. apply side_continuation. by eapply good_at.
  - cbn. destruct (ops w !! i) as [o|] eqn:Ho; [|done]. cbn. assert (Hs := side_abandon o (good_at w i o Hi Ho)). destruct (abandon o) as [o' l].
    intros [= <-]. apply invariant_resumed. by eapply invariant_side.
  - cbn. destruct (ops w !! i) as [o|] eqn:Ho; [|done]. intros [= <-]. eapply invariant_side; [done..|]. apply side_await. by eapply good_at.
  - cbn. destruct (pump w) eqn:Hp; try done. intros [= <-]. by apply invariant_begin.
  - cbn. apply invariant_pump. exact Hi.
Qed.

Lemma ledger_run (w w' : World) cs : invariant w -> run_calls true w cs = Some w' -> invariant w'.
Proof.
  revert w. induction cs as [|c cs IH]; intros w Hi; cbn; [by intros [= <-]|]. destruct (step true w c) as [w1|] eqn:E; [|done].
  apply IH. by eapply ledger_step.
Qed.

Lemma ledger_make c : wire c = [] -> invariant (World_make c).
Proof.
  intros Hc. split; cbn; try done.
  - by constructor.
  - intros i Hi. by apply elem_of_nil in Hi.
  - intros i Hi. by apply elem_of_nil in Hi.
  - unfold ledger, tracked, pump_ok; cbn. exists [], []. by rewrite Hc.
Qed.

(** ** What an operation has been through *)

(** One step of an operation: only its consumer's giving up cancels it, and a
    completed operation has nothing to take only once it has been taken. *)
Record kept (c : call) (i : nat) (o o' : DBOperation) : Prop := {
  kept_consumer : m_consumer_cancelled o' = true -> m_consumer_cancelled o = true \/ c = Abandon i;
  kept_error : m_error o' = Some DBOperationCancelled -> m_error o = Some DBOperationCancelled \/ c = Abandon i;
  kept_outcome : m_phase o' = op_completed -> untouched o' ->
    (m_phase o = op_completed /\ untouched o) \/ (c = Await_resume i /\ exists r, fst (await_resume o) = Taken r) }.

Definition flown (w' : World) (i : nat) (o o' : DBOperation) : Prop := in_flight o' = true -> in_flight o = true \/ exists n, pump w' = Push n i.
Definition fresh_op (o : DBOperation) : Prop := m_phase o = cold /\ m_error o = None /\ m_consumer_cancelled o = false.

Lemma kept_refl c i o : kept c i o o.
Proof. split; auto. Qed.

Lemma flown_refl w' i o : flown w' i o o.
Proof. intros H. by left. Qed.

Lemma settled_touched o : settled o -> ~ untouched o.
Proof. intros (r & _ & [(_ & H & _)|(_ & _ & H)]) [H1 H2]; congruence. Qed.

Lemma queryError_not_cancelled r n : queryError r n <> DBOperationCancelled.
Proof. unfold queryError. by repeat case_match. Qed.

Lemma kept_abandon i o : kept (Abandon i) i o (fst (abandon o)) /\ forall w', flown w' i o (fst (abandon o)).
Proof.
  assert (Hf : in_flight (fst (abandon o)) = true -> in_flight o = true).
  { unfold abandon. destruct (_ || _); [done|]. cbn [fst]. by destruct (_ || _). }
  split; [|intros w' H; left; by apply Hf]. split; [by right|by right|]. unfold abandon. destruct (bool_decide (m_phase o = op_completed) || bool_decide (m_phase o = abandoned)) eqn:E; [by left|].
  cbn [fst]. destruct (bool_decide (m_phase o = cold) || bool_decide (m_phase o = op_queued)); [intros _ [_ H]; done|]. cbn. intros H. by rewrite H in E.
Qed.

Lemma kept_await i o : kept (Await_resume i) i o (snd (await_resume o)) /\ forall w', flown w' i o (snd (await_resume o)).
Proof.
  destruct (await_resume o) as [t o'] eqn:E. cbn [snd]. assert (H : o' = o \/ exists r, t = Taken r /\ o' = set_outcome None None o).
  { revert E. unfold await_resume, takeResult. destruct (rethrowIfFailed o); [intros [= _ <-]; by left|]. destruct (m_consumer_cancelled o); [intros [= _ <-]; by left|].
    destruct (negb _); [intros [= _ <-]; by left|]. destruct (m_error o), (m_result o); intros [= <- <-]; try (by left). right. by eexists. }
  destruct H as [->|(r & -> & ->)]; [split; [apply kept_refl|intros; apply flown_refl]|]. split; [|intros w' H; left; exact H].
  split; [by left|done|]. intros _ _. right. split; [done|]. exists r. by rewrite E.
Qed.

(** What a step of the pump does to an operation. *)
Lemma pump_kept (w w' : World) now i o' : invariant w -> pump_step true now w = Some w' -> ops w' !! i = Some o' ->
  exists o, ops w !! i = Some o /\ kept (Pump now) i o o' /\ flown w' i o o'.
Proof.
  intros Hi Hs Ho'.
  assert (Hsame : ops w' = ops w -> exists o, ops w !! i = Some o /\ kept (Pump now) i o o' /\ flown w' i o o').
  { intros E. rewrite E in Ho'. exists o'. split; [done|]. split; [apply kept_refl|apply flown_refl]. }
  assert (Hput : forall j x x', ops w !! j = Some x -> ops w' = <[j := x']> (ops w) -> kept (Pump now) j x x' /\ flown w' j x x' ->
    exists o, ops w !! i = Some o /\ kept (Pump now) i o o' /\ flown w' i o o').
  { intros j x x' Hx E H. rewrite E in Ho'. destruct (decide (j = i)) as [->|Hne]; [|rewrite list_lookup_insert_ne in Ho' by done; exists o'; split; [done|]; split; [apply kept_refl|apply flown_refl]].
    rewrite list_lookup_insert_eq in Ho' by (by eapply lookup_lt_Some). injection Ho' as <-. by exists x. }
  unfold pump_step in Hs. destruct (pump w) as [|n|n j|n|n j|n j|n j| |k a fl|k a fl raw h|k fl j la|k fl la|k fl la|fl|e] eqn:Hp; try done.
  - apply Hsame. revert Hs. destruct (_ <? _)%nat; [destruct (popDispatchable _ _) as [[j|] c]|]; by intros [= <-].
  - apply Hsame. revert Hs. destruct (ops w !! j); [|done]. cbn. destruct (_ || _); by intros [= <-].
  - apply Hsame. revert Hs. by intros [= <-].
  - apply Hsame. revert Hs. destruct (ops w !! j); [|done]. cbn. destruct (send_calls _ _ _) as [[] c]; by intros [= <-].
  - unfold pump_calls in Hs. destruct (ops w !! j) as [x|] eqn:Hx; [|done]. cbn in Hs. unfold mark_sent in Hs. case_decide as Hd; injection Hs as <-; [|by apply Hsame].
    eapply (Hput j x); [done|reflexivity|]. split; [split; [by left|by left|done]|]. intros _. right. by exists n.
  - apply Hsame. revert Hs. by intros [= <-].
  - apply Hsame. revert Hs. destruct (PQflush _) as [f c]. destruct (f <? 0); [by intros [= <-]|]. destruct (PQconsumeInput c) as [[] c2]; by intros [= <-].
  - apply Hsame. revert Hs. destruct (_ <? _)%nat; [destruct (PQgetResult _) as [raw c]|]; by intros [= <-].
  - unfold take_in in Hs. destruct raw as [r|], h as [j|]; try (apply Hsame; by injection Hs as <-).
    + destruct (bool_decide (resultStatus r = PGRES_PIPELINE_SYNC)); [apply Hsame; by injection Hs as <-|]. unfold pump_calls in Hs.
      destruct (_ || _); (destruct (ops w !! j) as [x|] eqn:Hx; [|done]); cbn [mbind option_bind] in Hs; [unfold acceptResult in Hs|unfold acceptFailure in Hs];
        (destruct (in_flight x) eqn:Hfl; cbn [negb] in Hs; [|injection Hs as <-; by apply Hsame]).
      * destruct (bool_decide (is_Some _)); injection Hs as <-; [by apply Hsame|]. eapply (Hput j x); [done|reflexivity|].
        split; [|intros _; by left]. split; [by left|by left|done].
      * injection Hs as <-. eapply (Hput j x); [done|reflexivity|]. split; [|intros _; by left]. split; [by left| |done].
        cbn. intros [= H]. by apply queryError_not_cancelled in H.
    + apply Hsame. revert Hs. destruct (ops w !! j); [|done]. cbn. destruct (_ && _); by intros [= <-].
  - open_ledger w Hi Hp chs extra Hf Hw Hok. destruct Hok as (-> & -> & Hh & x & Hx & Hph). rewrite Hx in Hs. cbn [mbind option_bind] in Hs.
    unfold complete, in_flight in Hs. rewrite Hph in Hs. cbn in Hs. injection Hs as <-. assert (Hg := good_at w j x Hi Hx). unfold good in Hg. rewrite Hph in Hg.
    eapply (Hput j x); [done|reflexivity|]. split; [|done]. split; [by left|by left|]. intros _ Hu. by destruct (settled_touched x Hg).
  - apply Hsame. revert Hs. by intros [= <-].
  - apply Hsame. revert Hs. by intros [= <-].
  - apply Hsame. revert Hs. destruct (negb (hasWork _)); [|destruct (_ <? 0)]; by intros [= <-].
Qed.

Lemma step_kept (w w' : World) c i o' : invariant w -> step true w c = Some w' -> ops w' !! i = Some o' ->
  (fresh_op o' /\ ops w !! i = None) \/ exists o, ops w !! i = Some o /\ kept c i o o' /\ flown w' i o o'.
Proof.
  intros Hi Hs Ho'.
  assert (Hsame : ops w' = ops w -> exists o, ops w !! i = Some o /\ kept c i o o' /\ flown w' i o o').
  { intros E. rewrite E in Ho'. exists o'. split; [done|]. split; [apply kept_refl|apply flown_refl]. }
  assert (Hput : forall j x x', ops w !! j = Some x -> ops w' = <[j := x']> (ops w) -> kept c j x x' /\ flown w' j x x' ->
    exists o, ops w !! i = Some o /\ kept c i o o' /\ flown w' i o o').
  { intros j x x' Hx E H. rewrite E in Ho'. destruct (decide (j = i)) as [->|Hne]; [|rewrite list_lookup_insert_ne in Ho' by done; exists o'; split; [done|]; split; [apply kept_refl|apply flown_refl]].
    rewrite list_lookup_insert_eq in Ho' by (by eapply lookup_lt_Some). injection Ho' as <-. by exists x. }
  destruct c as [id sql b f|j|j|j|j k|j|j|j| |now]; cbn [step] in Hs; [|right..].
  - unfold DBOperation_make in Hs. destruct (sempty sql); [right; apply Hsame; by injection Hs as <-|]. cbn in Hs. injection Hs as <-. cbn in Ho'.
    apply lookup_app_Some in Ho' as [Ho'|[Hge Ho']]; [right; exists o'; split; [done|]; split; [apply kept_refl|apply flown_refl]|].
    left. apply list_lookup_singleton_Some in Ho' as [_ <-]. split; [done|]. by apply lookup_ge_None.
  - destruct (ops w !! j) as [x|] eqn:Hx; [|done]. cbn in Hs. destruct (start_op x) as [[x' b]|] eqn:E; [|apply Hsame; by injection Hs as <-].
    apply start_spec in E as [[-> ->]|(-> & Hc & ->)]; injection Hs as <-; [by apply Hsame|].
    eapply (Hput j x); [done|reflexivity|]. split; [by split; [left|left|]|done].
  - destruct (bool_decide (j ∈ starting w)) eqn:E; [|done]. apply bool_decide_eq_true in E. destruct (ops w !! j) as [x|] eqn:Hx; [|done]. cbn [mbind option_bind] in Hs.
    destruct (markQueued x) as [x'|e] eqn:Em; injection Hs as <-; [|by apply Hsame].
    destruct (placed_ok w Hi j) as (y & Hy & Hc); [unfold placed; rewrite elem_of_app; by left|]. rewrite Hx in Hy. injection Hy as <-.
    destruct (side_mark x x' (good_at w j x Hi Hx) Hc Em) as [-> _]. eapply (Hput j x); [done|reflexivity|]. split; [apply kept_refl|apply flown_refl].
  - apply Hsame. revert Hs. destruct (bool_decide _); [|done]. by intros [= <-].
  - destruct (ops w !! j) as [x|] eqn:Hx; [|done]. cbn [mbind option_bind] in Hs. unfold registerContinuation in Hs.
    destruct (bool_decide _); [apply Hsame; by injection Hs as <-|]. destruct (completed x); injection Hs as <-; (eapply (Hput j x); [done|reflexivity|]); (split; [|intros H'; by left]); [apply kept_refl|].
    split; [by left|by left|]. intros H1 H2. by left.
  - destruct (ops w !! j) as [x|] eqn:Hx; [|done]. injection Hs as <-. eapply (Hput j x); [done|reflexivity|]. split; [|intros H'; by left].
    split; [by left|by left|]. intros H1 H2. by left.
  - destruct (ops w !! j) as [x|] eqn:Hx; [|done]. cbn [mbind option_bind] in Hs. destruct (kept_abandon j x) as [H1 H2].
    destruct (abandon x) as [x' l]. injection Hs as <-. eapply (Hput j x); [done|reflexivity|]. by split; [|apply H2].
  - destruct (ops w !! j) as [x|] eqn:Hx; [|done]. injection Hs as <-. destruct (kept_await j x) as [H1 H2]. eapply (Hput j x); [done|reflexivity|]. by split; [|apply H2].
  - apply Hsame. revert Hs. destruct (pump w); by intros [= <-].
  - by eapply pump_kept.
Qed.

(** A sent operation stays in the ledger, or in the hands of the pump on its way
    there, until it is completed. *)
Definition in_ledger (w : World) (i : nat) : Prop := i ∈ held (pump w) ++ inflight (conn w).
Definition retiring (w : World) : Prop :=
  match pump w with Retire _ _ _ => exists i o, head (inflight (conn w)) = Some i /\ ops w !! i = Some o /\ in_flight o = false | _ => True end.

Definition is_pump (c : call) : bool := match c with Pump _ => true | _ => false end.

Lemma caller_same pipeline (w w' : World) c : is_pump c = false -> step pipeline w c = Some w' ->
  inflight (conn w') = inflight (conn w) /\ (pump w' = pump w \/ (pump w = Resting /\ pump w' = Dispatch 0)).
Proof.
  destruct c as [id sql b f|i|i|i|i k|i|i|i| |now]; cbn [step is_pump]; intros Hp; try done.
  - destruct (o ← _; _); intros H; injection H as <-; by auto.
  - destruct (ops w !! i); [|done]. cbn. destruct (start_op _) as [[o' []]|]; intros [= <-]; by auto.
  - destruct (bool_decide _); [|done]. destruct (ops w !! i); [|done]. cbn. destruct (markQueued _); intros [= <-]; by auto.
  - destruct (bool_decide _); [|done]. intros [= <-]; by auto.
  - destruct (ops w !! i); [|done]. cbn. destruct (registerContinuation _ _) as [[o' l]|]; intros [= <-]; by auto.
  - destruct (ops w !! i); [|done]. intros [= <-]; by auto.
  - destruct (ops w !! i); [|done]. cbn. destruct (abandon _). intros [= <-]; by auto.
  - destruct (ops w !! i); [|done]. intros [= <-]; by auto.
  - destruct (pump w) eqn:E; try done. intros [= <-]. by auto.
Qed.

Lemma caller_keeps pipeline (w w' : World) c : is_pump c = false -> step pipeline w c = Some w' -> (length (ops w) <= length (ops w'))%nat.
Proof.
  assert (Hput : forall i o, length (ops (put_op i o w)) = length (ops w)) by (intros; apply length_insert).
  destruct c as [id sql b f|i|i|i|i k|i|i|i| |now]; cbn [step is_pump]; intros Hp; try done.
  - destruct (o ← _; _); intros H; injection H as <-; [|done]. cbn. rewrite length_app. lia.
  - destruct (ops w !! i); [|done]. cbn [mbind option_bind]. destruct (start_op _) as [[o' []]|]; intros [= <-]; [|done..]. cbn [ops set_calls]. by rewrite Hput.
  - destruct (bool_decide _); [|done]. destruct (ops w !! i); [|done]. cbn [mbind option_bind]. destruct (markQueued _); intros [= <-]; [|done]. cbn [ops set_calls]. by rewrite Hput.
  - destruct (bool_decide _); [|done]. by intros [= <-].
  - destruct (ops w !! i); [|done]. cbn [mbind option_bind]. destruct (registerContinuation _ _) as [[o' l]|]; intros [= <-]; [|done]. cbn [ops add_resumed]. by rewrite Hput.
  - destruct (ops w !! i); [|done]. intros [= <-]. by rewrite Hput.
  - destruct (ops w !! i); [|done]. cbn [mbind option_bind]. destruct (abandon _). intros [= <-]. cbn [ops add_resumed]. by rewrite Hput.
  - destruct (ops w !! i); [|done]. intros [= <-]. by rewrite Hput.
  - destruct (pump w) eqn:E; try done. by intros [= <-].
Qed.

(** A step loses an entry of the ledger only when its operation is through. *)
Lemma ledger_keeps (w w' : World) c i : invariant w -> retiring w -> step true w c = Some w' -> in_ledger w i ->
  in_ledger w' i \/ exists o, ops w !! i = Some o /\ in_flight o = false.
Proof.
  intros Hi Hr Hs Hin. unfold in_ledger in *. destruct (is_pump c) eqn:Ec.
  2:{ left. destruct (caller_same true w w' c Ec Hs) as [-> [-> |[Hp ->]]]; [done|]. by rewrite Hp in Hin. }
  destruct c as [ | | | | | | | | |now]; try done. cbn [step] in Hs. rewrite elem_of_app in *. assert (Hl := ledger_ok w Hi). unfold ledger, tracked, pump_ok in Hl.
  assert (Hquiet : forall P, held (pump w') = held (pump w) -> inflight (conn w') = inflight (conn w) -> (i ∈ held (pump w') \/ i ∈ inflight (conn w')) \/ P) by (intros P -> ->; by left).
  unfold pump_step in Hs. destruct (pump w) as [|n|n j|n|n j|n j|n j| |k a fl|k a fl raw h|k fl j la|k fl la|k fl la|fl|e] eqn:Hp; try done; destruct Hl as (chs & extra & Hf & Hw & Hok).
  - left. right. destruct Hin as [Hin|Hin]; [by apply elem_of_nil in Hin|]. revert Hs. destruct (_ <? _)%nat; [|by intros [= <-]].
    unfold popDispatchable. destruct (queued (conn w)); [by intros [= <-]|]. cbn. by intros [= <-].
  - destruct (ops w !! j) as [x|] eqn:Hx; [|done]. cbn [mbind option_bind] in Hs. destruct (bool_decide (m_phase x = op_completed) || bool_decide (m_phase x = abandoned)) eqn:E; injection Hs as <-; [|by left].
    destruct Hin as [Hin|Hin]; [|left; by right]. apply list_elem_of_singleton in Hin as ->. right. exists x. split; [done|]. unfold in_flight.
    apply orb_true_iff in E as [E|E]; apply bool_decide_eq_true in E; by rewrite E.
  - injection Hs as <-. apply Hquiet; [done|]. cbn. by destruct (post_drained_same (conn w)) as (_ & -> & _).
  - destruct Hok as [(x & Hx & Hwa) _]. rewrite Hx in Hs. cbn [mbind option_bind] in Hs. destruct (send_calls _ _ _) as [[] c]; injection Hs as <-; [by left|].
    destruct Hin as [Hin|Hin]; [|left; by right]. apply list_elem_of_singleton in Hin as ->. right. exists x. split; [done|]. unfold in_flight. destruct Hwa as [-> |[-> _]]; done.
  - destruct Hok as (x & r & s & Hx & Hwa & _). unfold pump_calls in Hs. rewrite Hx in Hs. cbn [mbind option_bind] in Hs. destruct (mark_sent _ _); injection Hs as <-; [by left|].
    destruct Hin as [Hin|Hin]; [|left; by right]. apply list_elem_of_singleton in Hin as ->. right. exists x. split; [done|]. unfold in_flight. destruct Hwa as [-> |[-> _]]; done.
  - injection Hs as <-. left. right. cbn. rewrite elem_of_app. destruct Hin as [Hin|Hin]; [by right|by left].
  - revert Hs. destruct (PQflush _) as [f c]. destruct (f <? 0); [intros [= <-]; by apply Hquiet|]. destruct (PQconsumeInput c) as [[] c2]; [|intros [= <-]; by apply Hquiet].
    intros [= <-]. apply Hquiet; [|done]. cbn. by destruct (PQisBusy c2).
  - revert Hs. destruct (_ <? _)%nat; [destruct (PQgetResult _) as [raw c]|]; intros [= <-]; by apply Hquiet.
  - revert Hs. unfold take_in, pump_calls. destruct raw as [r|], h as [j|]; try (intros [= <-]; by apply Hquiet).
    + destruct (bool_decide _); [intros [= <-]; by apply Hquiet|]. destruct (_ || _); (destruct (ops w !! j); [|done]); cbn [mbind option_bind];
        [destruct (acceptResult _ _ _)|destruct (acceptFailure _ _ _)]; intros [= <-]; by apply Hquiet.
    + destruct (ops w !! j); [|done]. cbn. destruct (_ && _); intros [= <-]; by apply Hquiet.
  - destruct (ops w !! j); [|done]. cbn [mbind option_bind] in Hs. destruct (complete _ _) as [[x' l]|]; injection Hs as <-; by apply Hquiet.
  - injection Hs as <-. unfold retiring in Hr. rewrite Hp in Hr. destruct Hr as (j & x & Hh & Hx & Hfl). cbn. unfold retire_locked.
    destruct (inflight (conn w)) as [|j' l]; [done|]. injection Hh as ->. destruct Hin as [Hin|Hin]; [by apply elem_of_nil in Hin|]. rewrite elem_of_cons in Hin.
    destruct Hin as [->|Hin]; [right; by exists x|left; by right].
  - injection Hs as <-. apply Hquiet; [by destruct la|]. cbn. by destruct (post_drained_same (conn w)) as (_ & -> & _).
  - revert Hs. destruct (negb (hasWork _)); [|destruct (_ <? 0)]; intros [= <-]; by apply Hquiet.
Qed.

Lemma retiring_step (w w' : World) c : invariant w -> retiring w -> step true w c = Some w' -> retiring w'.
Proof.
  intros Hi Hr Hs. unfold retiring in *. destruct (is_pump c) eqn:Ec.
  - destruct c as [ | | | | | | | | |now]; try done. cbn [step] in Hs. destruct (pump w') as [| | | | | | | | | | |k fl la| | |] eqn:Hp'; try done.
    assert (Hl := ledger_ok w Hi). unfold ledger, tracked, pump_ok in Hl. revert Hs. unfold pump_step.
    destruct (pump w) as [|n|n j|n|n j|n j|n j| |k' a fl'|k' a fl' raw h|k' fl' j la'|k' fl' la'|k' fl' la'|fl'|e] eqn:Hp; try done; try destruct Hl as (chs & extra & Hf & Hw & Hok).
    + destruct (_ <? _)%nat; [destruct (popDispatchable _ _) as [[j|] c]|]; intros [= <-]; by cbn in Hp'.
    + destruct (ops w !! j); [|done]. cbn. destruct (_ || _); intros [= <-]; by cbn in Hp'.
    + intros [= <-]; by cbn in Hp'.
    + destruct (ops w !! j); [|done]. cbn. destruct (send_calls _ _ _) as [[] c]; intros [= <-]; by cbn in Hp'.
    + unfold pump_calls. destruct (ops w !! j); [|done]. cbn. destruct (mark_sent _ _); intros [= <-]; by cbn in Hp'.
    + intros [= <-]; by cbn in Hp'.
    + destruct (PQflush _) as [f c]. destruct (f <? 0); [intros [= <-]; by cbn in Hp'|]. destruct (PQconsumeInput c) as [[] c2]; [|intros [= <-]; by cbn in Hp']. cbn. intros [= <-]. cbn in Hp'. by destruct (PQisBusy c2).
    + destruct (_ <? _)%nat; [destruct (PQgetResult _) as [raw c]|]; intros [= <-]; by cbn in Hp'.
    + unfold take_in, pump_calls. destruct raw as [r|], h as [j|]; try (intros [= <-]; by cbn in Hp').
      * destruct (bool_decide _); [intros [= <-]; by cbn in Hp'|]. destruct (_ || _); (destruct (ops w !! j); [|done]); cbn [mbind option_bind];
        [destruct (acceptResult _ _ _)|destruct (acceptFailure _ _ _)]; intros [= <-]; by cbn in Hp'.
      * destruct (ops w !! j); [|done]. cbn. destruct (_ && _); intros [= <-]; by cbn in Hp'.
    + destruct Hok as (_ & _ & Hh & x & Hx & Hph). rewrite Hx. cbn [mbind option_bind]. unfold complete, in_flight. rewrite Hph. cbn. intros [= <-]. cbn.
      exists j. eexists. split; [done|]. split; [apply list_lookup_insert_eq; by eapply lookup_lt_Some|]. done.
    + intros [= <-]; by cbn in Hp'.
    + intros [= <-]. cbn in Hp'. by destruct la'.
    + destruct (negb (hasWork _)); [|destruct (_ <? 0)]; intros [= <-]; by cbn in Hp'.
  - destruct (caller_same true w w' c Ec Hs) as [-> [-> |[Hp ->]]]; [|done]. destruct (pump w) eqn:Hp; try done. destruct Hr as (i & o & Hh & Ho & Hfl). exists i.
    destruct (ops w' !! i) as [o'|] eqn:Ho'.
    + destruct (step_kept w w' c i o' Hi Hs Ho') as [[_ H]|(o0 & H & _ & Hfly)]; [congruence|]. rewrite Ho in H. injection H as <-. exists o'. split; [done|]. split; [done|].
      destruct (in_flight o') eqn:E; [|done]. destruct (caller_same true w w' c Ec Hs) as [_ [Hp'|[Hp' _]]]; [|congruence]. destruct (Hfly E) as [H|[n H]]; congruence.
    + exfalso. apply lookup_lt_Some in Ho. apply lookup_ge_None in Ho'. assert (H := caller_keeps true w w' c Ec Hs). lia.
Qed.

(** A consumer has taken the result before. *)
Definition handed (c : PGconn) (cs : list call) (i : nat) : Prop :=
  exists before after w o r, cs = before ++ Await_resume i :: after /\ run_calls true (World_make c) before = Some w
    /\ ops w !! i = Some o /\ fst (await_resume o) = Taken r.

Record history (c : PGconn) (cs : list call) (w : World) : Prop := {
  past_consumer : forall i o, ops w !! i = Some o -> m_consumer_cancelled o = true -> Abandon i ∈ cs;
  past_error : forall i o, ops w !! i = Some o -> m_error o = Some DBOperationCancelled -> Abandon i ∈ cs;
  past_outcome : forall i o, ops w !! i = Some o -> m_phase o = op_completed -> untouched o -> handed c cs i;
  past_sent : forall i o, ops w !! i = Some o -> in_flight o = true -> in_ledger w i;
  past_retiring : retiring w }.

Lemma run_calls_snoc pipeline (w w' : World) cs x : run_calls pipeline w (cs ++ [x]) = Some w' ->
  exists w1, run_calls pipeline w cs = Some w1 /\ step pipeline w1 x = Some w'.
Proof.
  revert w. induction cs as [|y cs IH]; intros w; cbn [app run_calls].
  - destruct (step pipeline w x) as [w1|] eqn:E; [|done]. intros [= <-]. by exists w.
  - destruct (step pipeline w y) as [w1|]; [|done]. apply IH.
Qed.

Lemma handed_snoc c cs x i : handed c cs i -> handed c (cs ++ [x]) i.
Proof. intros (b & a & w & o & r & -> & H). exists b, (a ++ [x]), w, o, r. by rewrite <- app_assoc. Qed.

Lemma history_step c cs (w w' : World) x : run_calls true (World_make c) cs = Some w -> invariant w -> history c cs w -> step true w x = Some w' -> history c (cs ++ [x]) w'.
Proof.
  intros Hrun Hi [H1 H2 H3 H4 H5] Hs.
  assert (Hold : forall i o', ops w' !! i = Some o' -> fresh_op o' \/ exists o, ops w !! i = Some o /\ kept x i o o' /\ flown w' i o o')
    by (intros i o' Ho'; destruct (step_kept w w' x i o' Hi Hs Ho') as [[H _]|H]; [by left|by right]).
  split.
  - intros i o' Ho' Hc. rewrite elem_of_app, list_elem_of_singleton. destruct (Hold i o' Ho') as [(_ & _ & H)|(o & Ho & [K _ _] & _)]; [congruence|].
    destruct (K Hc) as [H| ->]; [left; by eapply H1|by right].
  - intros i o' Ho' Hc. rewrite elem_of_app, list_elem_of_singleton. destruct (Hold i o' Ho') as [(_ & H & _)|(o & Ho & [_ K _] & _)]; [congruence|].
    destruct (K Hc) as [H| ->]; [left; by eapply H2|by right].
  - intros i o' Ho' Hp Hu. destruct (Hold i o' Ho') as [(H & _)|(o & Ho & [_ _ K] & _)]; [congruence|].
    destruct (K Hp Hu) as [[A B]|[-> [r Hr]]]; [apply handed_snoc; by eapply H3|]. by exists cs, [], w, o, r.
  - intros i o' Ho' Hf. destruct (Hold i o' Ho') as [(H & _)|(o & Ho & _ & K)]; [unfold in_flight in Hf; by rewrite H in Hf|].
    destruct (K Hf) as [Hfo|[n Hn]]; [|unfold in_ledger; rewrite Hn; cbn; rewrite elem_of_cons; by left].
    destruct (ledger_keeps w w' x i Hi H5 Hs (H4 i o Ho Hfo)) as [H|(y & Hy & Hny)]; [done|congruence].
  - by eapply retiring_step.
Qed.

Lemma history_run c cs : wire c = [] -> forall w, run_calls true (World_make c) cs = Some w -> history c cs w.
Proof.
  intros Hc. induction cs as [|x cs IH] using rev_ind; intros w H.
  - injection H as <-. by split.
  - apply run_calls_snoc in H as (w1 & H1 & H2). eapply history_step; [done| |by apply IH|done]. eapply ledger_run; [|done]. by apply ledger_make.
Qed.

(** ** Answers *)

(** What a consumer that asks for its result may get, and why. *)
Definition outcome (c : PGconn) (cs : list call) (i : nat) (o : DBOperation) (t : taken) : Prop :=
  match t with
  | Taken r => m_phase o = op_completed /\ asks o r /\ succeeded r
  | Raised DBOperationCancelled => Abandon i ∈ cs
  | Raised (other_error e) =>
      (m_phase o <> op_completed /\ e = logic_error "Database operation is not complete")
      \/ (handed c cs i /\ e = logic_error "Database operation completed without a result")
  | Raised e => m_phase o = op_completed /\ exists r, asks o r /\ ~ succeeded r /\ e = queryError r (m_id o)
  end.

Lemma queryError_cases c cs i o r : m_phase o = op_completed -> asks o r -> ~ succeeded r -> outcome c cs i o (Raised (queryError r (m_id o))).
Proof.
  intros Hp Ha Hn. assert (H : exists r', asks o r' /\ ~ succeeded r' /\ queryError r (m_id o) = queryError r' (m_id o)) by (by exists r).
  assert (Hs : (exists d, queryError r (m_id o) = DBQueryError d) \/ (exists d, queryError r (m_id o) = DBConstraintError d) \/ exists d, queryError r (m_id o) = DBQueryTimeout d)
    by (unfold queryError; repeat case_match; eauto).
  destruct Hs as [[d E]|[[d E]|[d E]]]; rewrite E in *; by split.
Qed.

Lemma await_outcome c cs (w : World) i o : invariant w -> history c cs w -> ops w !! i = Some o ->
  outcome c cs i o (fst (await_resume o))
  /\ (m_phase o = op_completed -> Abandon i ∉ cs -> ~ handed c cs i ->
      exists r, asks o r /\ ((succeeded r /\ fst (await_resume o) = Taken r) \/ (~ succeeded r /\ fst (await_resume o) = Raised (queryError r (m_id o))))).
Proof.
  intros Hi [H1 H2 H3 _ _] Ho. specialize (H1 i o Ho). specialize (H2 i o Ho). specialize (H3 i o Ho). assert (Hg := good_at w i o Hi Ho).
  unfold await_resume, rethrowIfFailed, takeResult. destruct (m_consumer_cancelled o) eqn:Ec; [split; [by apply H1|]; intros _ Hn; by destruct (Hn (H1 eq_refl))|].
  destruct (bool_decide (m_phase o = op_completed)) eqn:E; cbn [negb].
  2:{ apply bool_decide_eq_false in E. split; [left; by split|done]. }
  apply bool_decide_eq_true in E. unfold good in Hg. rewrite E in Hg. specialize (H3 E).
  destruct Hg as [(r & Ha & [(Hs & Hr & He)|(Hn & Hr & He)])|[[Hr He]|[Hr He]]]; rewrite He, ?Hr; cbn [fst].
  - split; [done|]. intros _ _ _. exists r. auto.
  - split; [by apply queryError_cases|]. intros _ _ _. exists r. auto.
  - split; [by apply H2|]. intros _ Hn. by destruct (Hn (H2 He)).
  - assert (Hh : handed c cs i) by (by apply H3). split; [right; by split|]. by intros _ _ Hn.
Qed.

(** At rest, with nothing of the server left to read, no query is on its way. *)
Lemma all_through c cs (w : World) i o : invariant w -> history c cs w -> pump w = Resting -> wire (pg w) = [] -> ops w !! i = Some o -> in_flight o = false.
Proof.
  intros Hi Hh Hp Hw Ho. destruct (in_flight o) eqn:E; [|done]. assert (Hin := past_sent c cs w Hh i o Ho E). unfold in_ledger in Hin. rewrite Hp in Hin. cbn in Hin.
  open_ledger w Hi Hp chs extra Hf Hwi Hok. rewrite Hw in Hwi. subst extra. destruct (inflight (conn w)) as [|j l]; [by apply elem_of_nil in Hin|].
  apply ledger_head in Hf as (x & ch & chs' & -> & _ & Hc & _). apply chunk_head in Hc as (y & ch' & ->). done.
Qed.

(** C32: however callers and the pump interleave on a pipelined connection, what a query's consumer is given is the answer to that query: a result is a successful answer to its own text, parameters and format, a query error is made from the failed answer to them, a cancellation is raised only where the operation was abandoned, and the two logic errors only before it is completed and after its result has been taken.  No answer is lost: a completed operation that was neither abandoned nor taken yields its answer, a sent one stays in the ledger until it is completed, and when the pump rests and the server's answers have all been read, every sent operation is completed.  An operation stands in one queue at most, the count of sent operations is the length of the ledger, and a pump ends early only because libpq failed or the operation it was about to enter had been abandoned: no result ever lacks an entry of the ledger or comes twice. *)
Theorem answers_reach_their_query (c : PGconn) cs (w : World) : wire c = [] -> run_calls true (World_make c) cs = Some w ->
  (forall i o, ops w !! i = Some o -> outcome c cs i o (fst (await_resume o)))
  /\ (forall i o, ops w !! i = Some o -> m_phase o = op_completed -> Abandon i ∉ cs -> ~ handed c cs i ->
       exists r, asks o r /\ ((succeeded r /\ fst (await_resume o) = Taken r) \/ (~ succeeded r /\ fst (await_resume o) = Raised (queryError r (m_id o)))))
  /\ (forall i o, ops w !! i = Some o -> in_flight o = true -> i ∈ held (pump w) ++ inflight (conn w))
  /\ (pump w = Resting -> wire (pg w) = [] -> forall i o, ops w !! i = Some o -> in_flight o = false)
  /\ NoDup (placed w) /\ sent (conn w) = length (inflight (conn w))
  /\ (forall e, pump w = Crashed e -> accounted w e).
Proof.
  intros Hc Hr. assert (Hi := ledger_run _ _ _ (ledger_make c Hc) Hr). assert (Hh := history_run c cs Hc w Hr).
  split; [intros i o Ho; by apply (await_outcome c cs w)|]. split; [intros i o Ho; by apply (await_outcome c cs w)|].
  split; [exact (past_sent c cs w Hh)|]. split; [intros Hp Hw i o; by apply (all_through c cs w)|].
  split; [exact (placed_once w Hi)|]. split; [exact (sent_ok w Hi)|].
  intros e He. assert (Hl := ledger_ok w Hi). unfold ledger in Hl. by rewrite He in Hl.
Qed.

(** ** Every pump ends *)

(** The moves a pump has left at most. *)
Definition moves_left (p : pump_pc (R := R)) : nat :=
  let b := pump_operation_budget in
  let retrieving k := (5 * (b - k) + 2)%nat in
  let flushing := (retrieving 0 + 1)%nat in
  match p with
  | Resting | Crashed _ => 0
  | Dispatch n => 5 * (b - n) + 1 + flushing
  | Inspect n _ => 5 * (b - S n) + 5 + flushing | Send n _ => 5 * (b - S n) + 4 + flushing | Mark n _ => 5 * (b - S n) + 3 + flushing
  | Push n _ | Skip n => 5 * (b - S n) + 2 + flushing
  | Flush => flushing
  | Retrieve k _ _ => retrieving k
  | Got k _ _ _ _ => retrieving (S k) + 4 | Complete k _ _ _ => retrieving (S k) + 3 | Retire k _ _ => retrieving (S k) + 2 | Post k _ _ => retrieving (S k) + 1
  | Rearming _ => 1
  end.

Lemma take_in_moves pipeline now k advanced flush raw h (w w' : World) : take_in pipeline now k advanced flush raw h w = Some w' ->
  (moves_left (pump w') <= 5 * (pump_operation_budget - S k) + 5)%nat.
Proof.
  unfold take_in, pump_calls. destruct raw as [r|], h as [i|]; try (intros [= <-]; cbn [pump set_pump moves_left]; lia).
  - destruct (bool_decide (resultStatus r = PGRES_PIPELINE_SYNC)); [intros [= <-]; cbn [pump set_pump moves_left]; lia|].
    destruct (_ || _); (destruct (ops w !! i) as [o|]; [|done]); cbn [mbind option_bind];
      [destruct (acceptResult _ _ _)|destruct (acceptFailure _ _ _)]; intros [= <-]; cbn [pump set_pump put_op set_ops moves_left]; lia.
  - destruct (ops w !! i) as [o|]; [|done]. cbn [mbind option_bind].
    destruct (_ && _); [|destruct (negb pipeline)]; intros [= <-]; cbn [pump set_pump moves_left]; lia.
Qed.

Lemma pump_moves pipeline now (w w' : World) : pump_step pipeline now w = Some w' -> (moves_left (pump w') < moves_left (pump w))%nat.
Proof.
  unfold pump_step. destruct (pump w) eqn:Hp; try done.
  - destruct (Nat.ltb_spec n pump_operation_budget); [destruct (popDispatchable _ _) as [[j|] c]|]; intros [= <-]; cbn [pump set_pump set_conn moves_left]; lia.
  - destruct (ops w !! i) as [o|]; [|done]. cbn [mbind option_bind]. destruct (_ || _); intros [= <-]; cbn [pump set_pump moves_left]; lia.
  - intros [= <-]; cbn [pump set_pump set_conn moves_left]; lia.
  - destruct (ops w !! i) as [o|]; [|done]. cbn [mbind option_bind]. destruct (send_calls _ _ _) as [[] c]; intros [= <-]; cbn [pump set_pump moves_left]; lia.
  - unfold pump_calls. destruct (ops w !! i) as [o|]; [|done]. cbn [mbind option_bind]. destruct (mark_sent _ _); intros [= <-]; cbn [pump set_pump put_op set_ops moves_left]; lia.
  - intros [= <-]; cbn [pump set_pump set_conn moves_left]; lia.
  - destruct (PQflush _) as [f c]. destruct (f <? 0); [intros [= <-]; cbn [pump set_pump moves_left]; lia|].
    destruct (PQconsumeInput c) as [[] c2]; cbn [negb]; [|intros [= <-]; cbn [pump set_pump moves_left]; lia].
    destruct (PQisBusy c2); intros [= <-]; cbn [pump set_pump moves_left]; lia.
  - destruct (Nat.ltb_spec k pump_operation_budget); [destruct (PQgetResult _) as [raw c]|]; intros [= <-]; cbn [pump set_pump moves_left]; lia.
  - intros H. apply take_in_moves in H. cbn [moves_left]. lia.
  - destruct (ops w !! i) as [o|]; [|done]. cbn [mbind option_bind]. destruct (complete _ _) as [[o' l]|]; intros [= <-]; cbn [pump set_pump add_resumed put_op set_ops moves_left]; lia.
  - intros [= <-]; cbn [pump set_pump set_conn moves_left]; lia.
  - match goal with |- context [if ?b then Rearming _ else _] => destruct b end; intros [= <-]; cbn [pump set_pump set_conn moves_left]; lia.
  - destruct (negb (hasWork _)); [|destruct (_ <? 0)]; intros [= <-]; cbn [pump set_pump set_conn moves_left]; lia.
Qed.

Definition begins (c : call) : bool := match c with Begin_pump => true | _ => false end.

Lemma calls_keep_moves pipeline (w w' : World) c : begins c = false -> step pipeline w c = Some w' ->
  (moves_left (pump w') + (if is_pump c then 1 else 0) <= moves_left (pump w))%nat.
Proof.
  intros Hb. destruct c as [id sql b f|i|i|i|i k|i|i|i| |now]; cbn [is_pump]; try done.
  1-8: intros H; assert (pump w' = pump w) as ->; [|lia]; revert H; cbn.
  - by destruct (o ← _; _); intros [= <-].
  - destruct (ops w !! i); [|done]. cbn. by destruct (start_op _) as [[o' []]|]; intros [= <-].
  - destruct (bool_decide _); [|done]. destruct (ops w !! i); [|done]. cbn. by destruct (markQueued _); intros [= <-].
  - destruct (bool_decide _); [|done]. by intros [= <-].
  - destruct (ops w !! i); [|done]. cbn. by destruct (registerContinuation _ _) as [[o' l]|]; intros [= <-].
  - destruct (ops w !! i); [|done]. by intros [= <-].
  - destruct (ops w !! i); [|done]. cbn. destruct (abandon _). by intros [= <-].
  - destruct (ops w !! i); [|done]. by intros [= <-].
  - cbn. intros H. apply pump_moves in H. lia.
Qed.

(** A pump that has not ended can move. *)
Lemma pump_can_move (w : World) now : invariant w -> pump w <> Resting -> (forall e, pump w <> Crashed e) -> exists w', pump_step true now w = Some w'.
Proof.
  intros Hi Hr Hc. assert (Hl := ledger_ok w Hi). unfold ledger, pump_ok in Hl. unfold pump_step, pump_calls.
  destruct (pump w) as [|n|n i|n|n i|n i|n i| |k a fl|k a fl raw h|k fl i last|k fl last|k fl last|fl|e] eqn:Hp; try done; try (by eexists); try (by destruct (Hc e));
    destruct Hl as (chs & extra & Hf & Hw & Hok).
  - destruct (n <? pump_operation_budget)%nat; [destruct (popDispatchable _ _) as [[j|] c]|]; by eexists.
  - destruct Hok as [(o & -> & _) _]. cbn. destruct (_ || _); by eexists.
  - destruct Hok as [(o & -> & _) _]. cbn. destruct (send_calls _ _ _) as [[] c]; by eexists.
  - destruct Hok as (o & r & s & -> & _). cbn. destruct (mark_sent _ _); by eexists.
  - destruct (PQflush _) as [f c]. destruct (f <? 0); [by eexists|]. destruct (PQconsumeInput c) as [[] c2]; by eexists.
  - destruct (k <? pump_operation_budget)%nat; [destruct (PQgetResult _) as [raw c]|]; by eexists.
  - destruct Hok as (_ & Hh & _). unfold take_in, pump_calls. destruct h as [i|]; [|destruct raw; by eexists].
    assert (Ho : exists o, ops w !! i = Some o).
    { destruct (placed_ok w Hi i) as (o & Ho & _); [|by exists o]. unfold placed. rewrite !elem_of_app. do 4 right.
      destruct (inflight (conn w)); [done|]. injection Hh as ->. rewrite elem_of_cons. by left. }
    destruct Ho as (o & ->). cbn. destruct raw as [r|]; [|destruct (_ && _); by eexists].
    destruct (bool_decide (resultStatus r = PGRES_PIPELINE_SYNC)); [by eexists|]. destruct (_ || _); [destruct (acceptResult _ _ _)|destruct (acceptFailure _ _ _)]; by eexists.
  - destruct Hok as (_ & _ & _ & o & -> & _). cbn. destruct (complete _ _) as [[o' l]|]; by eexists.
  - destruct (negb (hasWork _)); [|destruct (_ <? 0)]; by eexists.
Qed.

Lemma run_moves pipeline cs : forall w w' : World, Forall (fun c => begins c = false) cs -> run_calls pipeline w cs = Some w' ->
  (moves_left (pump w') + length (filter (fun c => is_pump c = true) cs) <= moves_left (pump w))%nat.
Proof.
  induction cs as [|c cs IH]; intros w w' Hb; cbn [run_calls]; [intros [= <-]; cbn; lia|]. inversion Hb; subst.
  destruct (step pipeline w c) as [w1|] eqn:E; [|done]. cbn [mbind option_bind]. intros H. apply calls_keep_moves in E; [|done]. apply IH in H; [|done].
  rewrite filter_cons. destruct (is_pump c); [rewrite decide_True by done|rewrite decide_False by done]; cbn [length]; lia.
Qed.

(** C33: every pump ends: whatever callers do in between, in either mode of the connection, a pump makes at most 644 moves after it begins, and on a pipelined connection it is never stuck before it has come to rest or ended with an exception. *)
Theorem every_pump_ends (c : PGconn) cs (w : World) : wire c = [] -> run_calls true (World_make c) cs = Some w ->
  (forall pipeline cs' (w' : World), pump w = Dispatch 0 -> Forall (fun c => begins c = false) cs' -> run_calls pipeline w cs' = Some w' ->
    (length (filter (fun c => is_pump c = true) cs') <= 644)%nat)
  /\ (forall now, (exists w', step true w (Pump now) = Some w') <-> ~ (pump w = Resting \/ exists e, pump w = Crashed e)).
Proof.
  intros Hc Hr. assert (Hi := ledger_run _ _ _ (ledger_make c Hc) Hr). split.
  - intros pipeline cs' w' Hp Hb Hrun. apply run_moves in Hrun; [|done]. rewrite Hp in Hrun.
    change (moves_left (Dispatch 0)) with 644%nat in Hrun. lia.
  - intros now. cbn [step]. split.
    + intros (w' & Hw') [Hp|[e Hp]]; unfold pump_step in Hw'; by rewrite Hp in Hw'.
    + intros Hn. apply pump_can_move; [done|tauto|]. intros e He. apply Hn. right. by exists e.
Qed.

(** ** Consumers *)

(** How often [k] stands in a list, and in how many operations it waits. *)
Fixpoint times (k : nat) (l : list nat) : nat := match l with [] => 0 | j :: l => (if decide (j = k) then 1 else 0) + times k l end.
Definition waits (k : nat) (o : DBOperation) : nat := times k (resume (m_continuation o)).
Fixpoint slots_of (k : nat) (l : list DBOperation) : nat := match l with [] => 0 | o :: l => waits k o + slots_of k l end.

(** The registrations of [k] a run takes, and those it withdraws. *)
Definition accepts (k : nat) (w : World) (c : call) : nat :=
  match c with
  | Register i j => match ops w !! i with Some o => if bool_decide (is_Some (m_continuation o)) then 0 else times k [j] | None => 0 end
  | _ => 0
  end.
Definition withdraws (k : nat) (w : World) (c : call) : nat :=
  match c with Unregister i => match ops w !! i with Some o => waits k o | None => 0 end | _ => 0 end.
Fixpoint sum_run (f : World -> call -> nat) (pipeline : bool) (w : World) (cs : list call) : nat :=
  match cs with
  | [] => 0
  | c :: cs => f w c + match step pipeline w c with Some w' => sum_run f pipeline w' cs | None => 0 end
  end.

Lemma times_app k l1 l2 : times k (l1 ++ l2) = (times k l1 + times k l2)%nat.
Proof. induction l1 as [|j l IH]; [done|]. cbn. rewrite IH. lia. Qed.

Lemma slots_app k l1 l2 : slots_of k (l1 ++ l2) = (slots_of k l1 + slots_of k l2)%nat.
Proof. induction l1 as [|o l IH]; [done|]. cbn. rewrite IH. lia. Qed.

Lemma slots_insert k i o o' l : l !! i = Some o -> (slots_of k (<[i := o']> l) + waits k o = slots_of k l + waits k o')%nat.
Proof.
  revert i. induction l as [|x l IH]; intros [|i]; try done; [cbn; intros [= ->]; lia|].
  change (<[S i := o']> (x :: l)) with (x :: <[i := o']> l). intros H. apply IH in H. cbn [slots_of]. lia.
Qed.

Definition none_forgotten (w : World) : Prop := Forall (fun o => completed o = true -> m_continuation o = None) (ops w).

(** The books of one step: what [k] had and got is what it has. *)
Definition balanced (k : nat) (w w' : World) (a d : nat) : Prop :=
  (times k (resumed w') + slots_of k (ops w') + d = times k (resumed w) + slots_of k (ops w) + a)%nat.

Lemma put_balanced k (w : World) i o o' l a d : ops w !! i = Some o -> none_forgotten w ->
  (waits k o' + times k l + d = waits k o + a)%nat -> (completed o' = true -> m_continuation o' = None) ->
  none_forgotten (add_resumed l (put_op i o' w)) /\ balanced k w (add_resumed l (put_op i o' w)) a d.
Proof.
  intros Ho Hn Hk Hc. split; [by apply Forall_insert|]. unfold balanced; cbn. assert (H := slots_insert k i o o' _ Ho). rewrite times_app. lia.
Qed.

(** A member of the pump that leaves the continuation. *)
Lemma calls_balanced k (w w' : World) i f next : none_forgotten w -> pump_calls i f next w = Some w' ->
  (forall o o', f o = Ok o' -> m_continuation o' = m_continuation o /\ completed o' = completed o) ->
  none_forgotten w' /\ balanced k w w' 0 0.
Proof.
  intros Hn H Hf. unfold pump_calls in H. destruct (ops w !! i) as [o|] eqn:Ho; [|done]. cbn in H. destruct (f o) as [o'|e] eqn:E.
  - destruct (Hf o o' E) as [E1 E2]. injection H as <-. split.
    + apply Forall_insert; [done|]. rewrite E1, E2. unfold none_forgotten in Hn. rewrite Forall_lookup in Hn. by eapply Hn.
    + unfold balanced; cbn. assert (H := slots_insert k i o o' _ Ho). unfold waits in H. rewrite E1 in H. lia.
  - by injection H as <-.
Qed.

Lemma pump_balanced k pipeline now (w w' : World) : none_forgotten w -> pump_step pipeline now w = Some w' ->
  none_forgotten w' /\ balanced k w w' 0 0.
Proof.
  intros Hn. unfold pump_step. destruct (pump w) eqn:Hp; try done.
  - destruct (_ <? _)%nat; [destruct (popDispatchable _ _) as [[j|] c]|]; by intros [= <-].
  - destruct (ops w !! i); [|done]. cbn. destruct (_ || _); by intros [= <-].
  - by intros [= <-].
  - destruct (ops w !! i); [|done]. cbn. destruct (send_calls _ _ _) as [[] c]; by intros [= <-].
  - intros H. eapply calls_balanced; [done..|]. intros o o'. unfold mark_sent. case_decide as Hd; intros [= <-]. unfold completed; cbn. by rewrite Hd.
  - by intros [= <-].
  - destruct (PQflush _) as [f c]. destruct (f <? 0); [by intros [= <-]|]. destruct (PQconsumeInput c) as [[] c2]; by intros [= <-].
  - destruct (_ <? _)%nat; [destruct (PQgetResult _) as [raw c]|]; by intros [= <-].
  - unfold take_in. destruct raw as [r|], head as [i|]; try by intros [= <-].
    + destruct (bool_decide (resultStatus r = PGRES_PIPELINE_SYNC)); [by intros [= <-]|].
      assert (Hfl : forall o : DBOperation, in_flight o = true -> completed (set_phase synchronizing o) = completed o).
      { intros o H. unfold completed; cbn. apply orb_true_iff in H as [H|H]; apply bool_decide_eq_true in H; by rewrite H. }
      destruct (_ || _); [intros H; eapply calls_balanced; [done..|]|
        destruct (ops w !! i) as [x|]; [|done]; cbn [mbind option_bind]; intros H; eapply calls_balanced; [done..|]]; intros o o'.
      * unfold acceptResult. destruct (in_flight o) eqn:E; [|done]. cbn [negb]. destruct (bool_decide _); [done|]. intros H'. injection H' as <-. split; [done|]. by apply Hfl in E.
      * unfold acceptFailure. destruct (in_flight o) eqn:E; [|done]. cbn [negb]. intros H'. injection H' as <-. split; [done|]. by apply Hfl in E.
    + destruct (ops w !! i); [|done]. cbn. destruct (_ && _); [|destruct (negb pipeline)]; by intros [= <-].
  - destruct (ops w !! i) as [o|] eqn:Ho; [|done]. cbn. unfold complete. destruct (negb (in_flight o)); [by intros [= <-]|]. intros [= <-].
    split; [by apply Forall_insert|]. unfold balanced; cbn. rewrite times_app.
    match goal with |- context [<[i := ?o']> _] => assert (H := slots_insert k i o o' _ Ho); set (x := <[i := o']> _) in * end.
    change (times k (resume (m_continuation o))) with (waits k o). unfold waits in H at 2. cbn in H. lia.
  - by intros [= <-].
  - by intros [= <-].
  - destruct (negb (hasWork _)); [|destruct (_ <? 0)]; by intros [= <-].
Qed.

Lemma put_balanced0 k (w : World) i o o' a d : ops w !! i = Some o -> none_forgotten w ->
  (waits k o' + d = waits k o + a)%nat -> (completed o' = true -> m_continuation o' = None) ->
  none_forgotten (put_op i o' w) /\ balanced k w (put_op i o' w) a d.
Proof.
  intros Ho Hn Hk Hc. split; [by apply Forall_insert|]. unfold balanced; cbn. assert (H := slots_insert k i o o' _ Ho). lia.
Qed.

Lemma completed_queued (o : DBOperation) : m_phase o = cold -> completed (set_phase op_queued o) = completed o.
Proof. intros H. unfold completed; cbn. by rewrite H. Qed.

Lemma step_balanced k pipeline (w w' : World) c : none_forgotten w -> step pipeline w c = Some w' ->
  none_forgotten w' /\ balanced k w w' (accepts k w c) (withdraws k w c).
Proof.
  intros Hn. assert (Hat : forall i o, ops w !! i = Some o -> completed o = true -> m_continuation o = None)
    by (unfold none_forgotten in Hn; by rewrite Forall_lookup in Hn).
  destruct c as [id sql b f|i|i|i|i j|i|i|i| |now]; cbn [step accepts withdraws].
  - unfold DBOperation_make. destruct (sempty sql); [by intros [= <-]|]. cbn. intros [= <-]. split; [apply Forall_app; split; [done|]; by constructor|].
    unfold balanced; cbn. rewrite slots_app. cbn. lia.
  - destruct (ops w !! i) as [o|] eqn:Ho; [|done]. cbn. destruct (start_op o) as [[o' b]|] eqn:E; [|by intros [= <-]].
    apply start_spec in E as [[-> ->]|(-> & Hc & ->)]; intros [= <-]; [done|]. apply (put_balanced0 k w i o _ 0 0); [done..|].
    intros H. apply (Hat i o Ho). by rewrite <- (completed_queued o Hc).
  - destruct (bool_decide _); [|done]. destruct (ops w !! i) as [o|] eqn:Ho; [|done]. cbn. unfold markQueued.
    destruct (decide (m_phase o = op_queued)); [|destruct (decide (m_phase o = cold)) as [Hc|]]; intros [= <-]; [|  |done].
    + rewrite put_same by done. done.
    + apply (put_balanced0 k w i o _ 0 0); [done..|]. intros H. apply (Hat i o Ho). by rewrite <- (completed_queued o Hc).
  - destruct (bool_decide _); [|done]. by intros [= <-].
  - destruct (ops w !! i) as [o|] eqn:Ho; [|done]. cbn [mbind option_bind]. unfold registerContinuation.
    destruct (bool_decide (is_Some (m_continuation o))) eqn:E; [by intros [= <-]|]. apply bool_decide_eq_false, eq_None_not_Some in E.
    destruct (completed o) eqn:Ec; intros [= <-].
    + apply (put_balanced k w i o o [j] _ _); [done..|lia|by rewrite E].
    + apply (put_balanced k w i o _ [] _ _); [done..|unfold waits; rewrite E; cbn; lia|]. intros H. cbn in H. unfold completed in *; cbn in H. by rewrite H in Ec.
  - destruct (ops w !! i) as [o|] eqn:Ho; [|done]. intros [= <-]. apply (put_balanced0 k w i o _ 0 _); [done..|unfold waits at 1; cbn; lia|done].
  - destruct (ops w !! i) as [o|] eqn:Ho; [|done]. cbn [mbind option_bind]. unfold abandon.
    destruct (_ || _) eqn:E; intros [= <-].
    + apply (put_balanced k w i o o [] 0 0); [done..|cbn; lia|by apply (Hat i)].
    + apply (put_balanced k w i o _ _ 0 0); [done..|unfold waits; cbn; lia|done].
  - destruct (ops w !! i) as [o|] eqn:Ho; [|done]. intros [= <-].
    assert (Hs : m_continuation (snd (await_resume o)) = m_continuation o /\ completed (snd (await_resume o)) = completed o).
    { unfold await_resume, takeResult. destruct (rethrowIfFailed o); [done|]. destruct (m_consumer_cancelled o) eqn:E; [done|]. destruct (negb _); [done|].
      destruct (m_error o), (m_result o); done. }
    destruct Hs as [E1 E2]. apply (put_balanced0 k w i o _ 0 0); [done|done|unfold waits; by rewrite E1|rewrite E1, E2; by apply (Hat i)].
  - destruct (pump w); by intros [= <-].
  - by apply pump_balanced.
Qed.

Lemma run_balanced k pipeline cs : forall w w' : World, none_forgotten w -> run_calls pipeline w cs = Some w' ->
  none_forgotten w' /\ balanced k w w' (sum_run (accepts k) pipeline w cs) (sum_run (withdraws k) pipeline w cs).
Proof.
  induction cs as [|c cs IH]; intros w w' Hn; cbn [run_calls sum_run]; [intros [= <-]; done|].
  destruct (step pipeline w c) as [w1|] eqn:E; [|done]. cbn [mbind option_bind]. intros H. destruct (step_balanced k _ _ _ _ Hn E) as [Hn1 B1].
  destruct (IH w1 w' Hn1 H) as [Hn2 B2]. split; [done|]. unfold balanced in *. lia.
Qed.

(** C34: a consumer is resumed exactly once for each time it waits: after any calls in any order, in either mode of the connection, the times a continuation was given to the executor, the operations it waits in and the times it was withdrawn add up to the registrations that were taken, and no completed or abandoned operation still holds a consumer. *)
Theorem consumers_are_resumed_once k pipeline (c : PGconn) cs (w : World) : run_calls pipeline (World_make c) cs = Some w ->
  (times k (resumed w) + slots_of k (ops w) + sum_run (withdraws k) pipeline (World_make c) cs = sum_run (accepts k) pipeline (World_make c) cs)%nat
  /\ (forall i o, ops w !! i = Some o -> completed o = true -> m_continuation o = None).
Proof.
  intros H. destruct (run_balanced k pipeline cs (World_make c) w) as [Hn B]; [by constructor|done|]. split; [exact B|].
  unfold none_forgotten in Hn. by rewrite Forall_lookup in Hn.
Qed.

(** ** The handshake *)

(** Whoever waits for the connection is told once, and what it is told. *)
Definition handshake_ok (role : ConnectionRole) (c : DBConnection) : Prop :=
  match state c with
  | connected => connected_posted c = true /\ connect_error c = None /\ (role <> management -> saw_startup_sync c = true)
  | failed => connected_posted c = true /\ is_Some (connect_error c)
  | cs_cold | connecting | configuring => connected_posted c = false /\ connect_error c = None
  end.

Definition shaking (c : DBConnection) : Prop := state c = connecting \/ state c = configuring.

Lemma settle_ok role e s saw c : handshake_ok role c -> shaking c -> s = connecting \/ s = configuring ->
  (e = Has_connected -> role <> management -> saw = true) ->
  handshake_ok role (settle_handshake e s saw c) /\ (shaking (settle_handshake e s saw c) -> is_Some (armed (settle_handshake e s saw c))).
Proof.
  unfold handshake_ok, shaking. intros Hok Hs Hs' Hsaw. assert (Hp : connected_posted c = false /\ connect_error c = None) by (destruct Hs as [H|H]; by rewrite H in Hok).
  destruct Hp as [Hp He]. destruct e as [i| |e]; cbn; [destruct Hs' as [-> | ->]; by eauto|split; [by auto|by intros [|]]|split; [by eauto|by intros [|]]].
Qed.

Lemma await_connected fuel role saw (c : PGconn) e saw' c' : await_configuration fuel role saw c = Some (e, saw', c') ->
  e = Has_connected -> role <> management -> saw' = true.
Proof.
  unfold await_configuration. destruct (PQflush c) as [f c1]. destruct (f <? 0); [by intros [= <- _ _]|].
  destruct (PQconsumeInput c1) as [[] c2]; cbn [negb]; [|by intros [= <- _ _]].
  destruct (if PQisBusy c2 then _ else _) as [[[s|x] c3]|]; cbn [mbind option_bind]; [|by intros [= <- _ _]|done].
  destruct (if bool_decide (role = management) then _ else _) eqn:E.
  - intros [= <- <- _] _ Hr. by rewrite bool_decide_eq_false_2 in E by done.
  - destruct (PQsocket c3 <? 0); by intros [= <- _ _].
Qed.

Lemma read_startup_returns role fuel : forall saw delimiter (c : PGconn), (length (wire c) + (if delimiter : bool then 0 else 1) < fuel)%nat ->
  exists r, read_startup fuel role saw delimiter c = Some r.
Proof.
  induction fuel as [|fuel IH]; intros saw delimiter c Hf; [lia|]. cbn [read_startup].
  assert (W := get_law _ _ laws c). destruct (PQgetResult c) as [raw c1]. cbn [fst snd] in W. destruct W as [Hr W].
  assert (Hl : length (wire c1) = (length (wire c) - 1)%nat) by (rewrite W; destruct (wire c); cbn; lia).
  destruct raw as [r|].
  - assert (Hlt : (length (wire c1) < length (wire c))%nat) by (destruct (wire c); [done|cbn in *; lia]).
    destruct (bool_decide _); [apply IH; destruct delimiter; lia|]. destruct (_ || _); [apply IH; destruct delimiter; lia|by eexists].
  - destruct delimiter; [rewrite andb_false_r; by eexists|]. destruct (_ && _); [apply IH; lia|by eexists].
Qed.

Lemma await_returns fuel role saw (c : PGconn) : (length (wire c) + 1 < fuel)%nat -> exists r, await_configuration fuel role saw c = Some r.
Proof.
  intros Hf. unfold await_configuration. assert (W1 := flush_law _ _ laws c). destruct (PQflush c) as [f c1]. cbn [snd] in W1. destruct (f <? 0); [by eexists|].
  assert (W2 := consume_law _ _ laws c1). destruct (PQconsumeInput c1) as [[] c2]; cbn [negb snd] in *; [|by eexists].
  assert (Hr : exists r, (if PQisBusy c2 then Some (Ok saw, c2) else read_startup fuel role saw false c2) = Some r).
  { destruct (PQisBusy c2); [by eexists|]. apply read_startup_returns. rewrite W2, W1. lia. }
  destruct Hr as ([[s|x] c3] & ->); cbn [mbind option_bind]; [|by eexists].
  destruct (if bool_decide (role = management) then _ else _); [by eexists|]. destruct (PQsocket c3 <? 0); by eexists.
Qed.

(** A call of the handshake leaves a connection that still waits for its socket with an interest given to the reactor, or tells its callers once: connected, without an error and with the startup configuration confirmed by its synchronisation point where the connection is pipelined, or failed with the error; the queues stay as they are, and the loop over the startup results ends. *)
Theorem handshake_settles fuel role make timeout search_path (p : option PGconn) c : handshake_ok role c -> shaking c ->
  (forall c' p', pumpHandshake fuel role make timeout search_path p c = Some (c', p') ->
    handshake_ok role c' /\ (shaking c' -> is_Some (armed c')) /\ queued c' = queued c /\ inflight c' = inflight c)
  /\ (forall p0, p = Some p0 -> state c = configuring -> (length (wire p0) + 1 < fuel)%nat ->
        exists r, pumpHandshake fuel role make timeout search_path p c = Some r).
Proof.
  intros Hok Hs. split.
  - intros c' p'. unfold pumpHandshake.
    assert (Hend : forall e s saw (q : option PGconn), s = connecting \/ s = configuring -> (e = Has_connected -> role <> management -> saw = true) ->
      Some (settle_handshake e s saw c, q) = Some (c', p') ->
      handshake_ok role c' /\ (shaking c' -> is_Some (armed c')) /\ queued c' = queued c /\ inflight c' = inflight c).
    { intros e s saw q H1 H2 [= <- _]. destruct (settle_ok role e s saw c Hok Hs H1 H2) as [A B]. split; [done|]. split; [done|]. by destruct e. }
    destruct (if bool_decide (state c = connecting) then _ else p) as [p1|]; [|by apply Hend].
    assert (Hawait : forall s q, s = connecting \/ s = configuring ->
      ('(e, saw, p2) ← await_configuration fuel role (saw_startup_sync c) q; Some (settle_handshake e s saw c, Some p2)) = Some (c', p') ->
      handshake_ok role c' /\ (shaking c' -> is_Some (armed c')) /\ queued c' = queued c /\ inflight c' = inflight c).
    { intros s q H1. destruct (await_configuration fuel role (saw_startup_sync c) q) as [[[e saw] p2]|] eqn:E; [|done]. cbn [mbind option_bind].
      apply Hend; [done|]. by eapply await_connected. }
    destruct (bool_decide (state c = connecting)); [|by apply Hawait]. destruct (PQconnectPoll p1) as [status p2].
    destruct (_ || _ || _); [apply Hend; [done|by destruct (PQsocket p2 <? 0)]|]. destruct (status =? PGRES_POLLING_FAILED); [by apply Hend|].
    destruct (negb _); [by apply Hend|]. destruct (configure_session role timeout search_path p2) as [[e|] p3]; [by apply Hend|].
    apply Hawait. by right.
  - intros p0 -> Hc Hf. unfold pumpHandshake. rewrite !bool_decide_eq_false_2 by (by rewrite Hc).
    destruct (await_returns fuel role (saw_startup_sync c) p0 Hf) as ([[e saw] p2] & ->). by eexists.
Qed.
End ledger.

(** ** Runs *)

Module RunExample.

(** A server that answers every query at once: [Z] is the length of its text. *)
Definition answer (sql : string) : Status * Z := (if starts_with "bad" sql then PGRES_FATAL_ERROR else PGRES_TUPLES_OK, Z.of_nat (String.length sql)).
Definition Wire : Type := list (option (Status * Z)).

#[local] Instance libpq : Libpq (Status * Z) Wire := {
  resultStatus r := fst r;
  PQresultErrorField r f := if String.eqb f "C" then Some "42601" else None;
  PQresultErrorMessage _ := "syntax error";
  PQerrorMessage _ := "no error";
  PQsendQueryParams sql _ _ _ _ _ _ c := (true, c ++ [Some (answer sql); None]);
  PQpipelineSync c := (true, c ++ [Some (PGRES_PIPELINE_SYNC, 0)]);
  PQflush c := (0, c); PQconsumeInput c := (true, c); PQisBusy _ := false;
  PQgetResult c := (mjoin (head c), tail c);
  PQsocket _ := 7; PQconnectPoll c := (PGRES_POLLING_OK, c); PQsetnonblocking c := (true, c); PQenterPipelineMode c := (true, c) }.

Definition replies (sql : string) (_ : list (option (list Z))) (_ : Z) (r : Status * Z) : Prop := r = answer sql.
Definition wire (c : Wire) : Wire := c.

Lemma laws : PipelineLaws replies wire.
Proof.
  split.
  - intros sql n o p l f format c c' [= <-]. exists (answer sql). split; [done|]. split; [|done].
    change (fst (answer sql) <> PGRES_PIPELINE_SYNC). unfold answer. by destruct (starts_with "bad" sql).
  - intros c c' [= <-]. by exists (PGRES_PIPELINE_SYNC, 0).
  - done.
  - done.
  - done.
Qed.

(** One query after the other handed to the connection; a consumer each. *)
Definition hand_over (i : nat) (sql : string) : list call :=
  [Create (Z.of_nat i + 1) sql DBBindings_make 1; Start i; Register i (100 + i); Mark_queued i; Enqueue i].
Fixpoint pumps (n : nat) : list call := match n with O => [] | S n => Pump 5 :: pumps n end.

Definition two := hand_over 0 "SELECT 1" ++ hand_over 1 "bad" ++ Begin_pump :: pumps 33.

(** Both queries are sent in one pump, and each consumer gets its own answer. *)
Lemma two_run : exists w, run_calls true (World_make []) two = Some w /\ pump w = Resting /\ resumed w = [100; 101]%nat
  /\ map (fun o => fst (await_resume o)) (ops w) = [Taken (answer "SELECT 1"); Raised (queryError (answer "bad") 2)].
Proof. eexists. split; [vm_compute; reflexivity|]. done. Qed.

Lemma two_calls c : c ∈ two -> match c with Abandon _ | Await_resume _ => False | _ => True end.
Proof. revert c. apply Forall_forall. repeat constructor. Qed.

Lemma answers_reach_their_query_witness : exists w, run_calls true (World_make []) two = Some w /\ NoDup (placed w) /\ sent (conn w) = length (inflight (conn w))
  /\ (forall i o, ops w !! i = Some o -> in_flight o = false)
  /\ exists o r, ops w !! 0%nat = Some o /\ asks replies o r /\ ((succeeded r /\ fst (await_resume o) = Taken r) \/ (~ succeeded r /\ fst (await_resume o) = Raised (queryError r (m_id o)))).
Proof.
  destruct (run_calls true (World_make []) two) as [w|] eqn:E; [|exfalso; revert E; vm_compute; discriminate].
  exists w. split; [done|]. destruct (answers_reach_their_query replies wire laws [] two w eq_refl E) as (_ & Hgets & _ & Hall & H1 & H2 & _). split; [exact H1|]. split; [exact H2|].
  assert (Hw : pump w = Resting /\ pg w = [] /\ exists o, ops w !! 0%nat = Some o /\ m_phase o = op_completed)
    by (revert E; vm_compute; intros [= <-]; split; [done|]; split; [done|]; by eexists).
  destruct Hw as (Hp & Hw & o & Ho & Hph). split; [exact (Hall Hp Hw)|]. destruct (Hgets 0%nat o Ho Hph) as (r & Ha & Hr).
  - intros Hin. by apply two_calls in Hin.
  - intros (b & a & w1 & o1 & r1 & Heq & _). assert (Hin : Await_resume 0 ∈ two) by (rewrite Heq, elem_of_app; right; rewrite elem_of_cons; by left).
    by apply two_calls in Hin.
  - exists o, r. split; [exact Ho|]. split; [exact Ha|exact Hr].
Defined.

Definition begun := hand_over 0 "SELECT 1" ++ [Begin_pump].

Lemma every_pump_ends_witness : exists w, run_calls true (World_make []) begun = Some w /\ exists w', step true w (Pump 5) = Some w'.
Proof.
  destruct (run_calls true (World_make []) begun) as [w|] eqn:E; [|exfalso; revert E; vm_compute; discriminate].
  exists w. split; [done|]. destruct (every_pump_ends replies wire laws [] begun w eq_refl E) as (_ & H). apply H.
  revert E. vm_compute. intros [= <-] [H'|[e H']]; discriminate.
Defined.

Lemma consumers_are_resumed_once_witness : exists w, run_calls true (World_make []) two = Some w
  /\ (times 100 (resumed w) + slots_of 100 (ops w) + sum_run (withdraws 100) true (World_make []) two = sum_run (accepts 100) true (World_make []) two)%nat.
Proof.
  destruct (run_calls true (World_make []) two) as [w|] eqn:E; [|exfalso; revert E; vm_compute; discriminate].
  exists w. split; [done|]. by destruct (consumers_are_resumed_once 100 true [] two w E) as [H _].
Defined.

(** A consumer that gives its operation up after the pump looked at it ends the
    pump: the query is on the wire, and the operation is in no ledger. *)
Lemma abandoned_in_hand : exists w, run_calls true (World_make []) (hand_over 0 "SELECT 1" ++ [Begin_pump; Pump 5; Pump 5; Abandon 0; Pump 5; Pump 5]) = Some w
  /\ pump w = Crashed (logic_error "Sent database operation was not queued") /\ inflight (conn w) = [].
Proof. eexists. split; [vm_compute; reflexivity|]. done. Qed.

(** While the pump holds an operation, the connection looks drained. *)
Lemma drained_too_early : exists w, run_calls true (World_make []) (hand_over 0 "SELECT 1" ++ [Begin_pump; Pump 5]) = Some w
  /\ fully_drained (conn w) = true /\ exists o, ops w !! 0%nat = Some o /\ m_phase o = op_queued.
Proof. eexists. split; [vm_compute; reflexivity|]. split; [done|]. by eexists. Qed.

(** With 22 queries, one pump comes to rest with an answer read and not taken. *)
Fixpoint hand_over_all (n : nat) : list call := match n with O => [] | S n => hand_over_all n ++ hand_over n "SELECT 1" end.
Fixpoint drive (fuel : nat) (w : World) : World :=
  match fuel with O => w | S fuel => match step true w (Pump 5) with Some w => drive fuel w | None => w end end.

Lemma answers_left_behind : exists w, run_calls true (World_make []) (hand_over_all 22 ++ [Begin_pump]) = Some w
  /\ pump (drive 644 w) = Resting /\ inflight (conn (drive 644 w)) = [21]%nat /\ pg (drive 644 w) = [None; Some (PGRES_PIPELINE_SYNC, 0)] /\ armed (conn (drive 644 w)) = Some read_interest.
Proof. eexists. split; [vm_compute; reflexivity|]. repeat split; vm_compute; reflexivity. Qed.

(** The handshake over a socket that answers at once. *)
Definition fresh : DBConnection := snd (connect_begin DBConnection_make).

Lemma handshake_settles_witness : exists c' p', pumpHandshake 10 normal (Some []) "0" "public" None fresh = Some (c', p')
  /\ handshake_ok normal c' /\ state c' = connected.
Proof.
  destruct (pumpHandshake 10 normal (Some []) "0" "public" None fresh) as [[c' p']|] eqn:E; [|exfalso; revert E; vm_compute; discriminate].
  exists c', p'. split; [done|].
  destruct (handshake_settles replies wire laws 10 normal (Some []) "0" "public" None fresh) as [H _]; [done|by left|].
  split; [by apply (H c' p')|]. revert E. vm_compute. by intros [= <- _].
Defined.
End RunExample.
