(* ===== verification/DbPool.v ===== *)
(** * The pool and its transactions

    [IDHANDb/src/DBPool.cpp] and [DBTransaction.cpp]: the start of the pool, the
    choice of a connection for an operation, the leases of transaction
    connections, and a transaction from its BEGIN to its end.  Each step is one
    locked section or one answer of the database, so a run is an interleaving
    of the coroutines of all callers.

    A connection is its id.  The queue of leases is folly's [BoundedQueue]: first
    in, first out, and [try_enqueue] refuses when it is full.  What a connection
    does with an operation it is given is [DbConnection.v].  A query's task goes
    into the queue in the three locked sections of [DBOperation::start],
    [markQueued] and [enqueue]; a BEGIN or a final command, whose operation no
    one else has, is seen first when it is in the queue, and its step is that. *)
From S2P Require Import Prelude StringView DbCodec.

Inductive TransactionPhase := acquiring | active | finalizing | tx_completed.
#[export] Instance TransactionPhase_eq_dec : EqDecision TransactionPhase.
Proof. solve_decision. Defined.

(** ** The pool *)

Record DBPool := mkPool {
  m_config : DBConfig; m_reactor : bool;
  m_normal : list Z; m_transactions : list Z;
  m_available_transactions : option (list Z);
  m_next_tie : Z; m_starting : bool; m_started : bool; m_draining : bool }.

Definition DBPool_make (config : DBConfig) (reactor : bool) : DBPool := mkPool config reactor [] [] None 0 false false false.

Definition set_flags (starting started draining : bool) (p : DBPool) : DBPool :=
  mkPool (m_config p) (m_reactor p) (m_normal p) (m_transactions p) (m_available_transactions p) (m_next_tie p) starting started draining.
Definition set_leases (l : list Z) (p : DBPool) : DBPool :=
  mkPool (m_config p) (m_reactor p) (m_normal p) (m_transactions p) (Some l) (m_next_tie p) (m_starting p) (m_started p) (m_draining p).
Definition set_tie (t : Z) (p : DBPool) : DBPool :=
  mkPool (m_config p) (m_reactor p) (m_normal p) (m_transactions p) (m_available_transactions p) t (m_starting p) (m_started p) (m_draining p).

(** [start] up to its first await: the connections to connect. *)
Definition pool_start (p : DBPool) : result (DBPool * option (list Z * list Z)) :=
  if negb (m_reactor p) then Throw (invalid_argument "Database pool requires a reactor")
  else
    _ ← validate (m_config p);
    if m_started p then Ok (p, None)
    else if m_starting p then Throw (logic_error "Database pool startup is already in progress")
    else if m_draining p then Throw (logic_error "Cannot start a draining database pool")
    else
      let n := connections (m_config p) in
      Ok (set_flags true (m_started p) (m_draining p) p, Some (seqZ 1 n, seqZ (1 + n) (transaction_connections (m_config p)))).

(** The queue, with room for [room] leases. *)
Definition try_enqueue (room : nat) (c : Z) (q : list Z) : option (list Z) := if (length q <? room)%nat then Some (q ++ [c]) else None.

(** The queue left, and whether all went in. *)
Fixpoint fill (room : nat) (l q : list Z) : list Z * bool :=
  match l with
  | [] => (q, true)
  | c :: l => match try_enqueue room c q with Some q => fill room l q | None => (q, false) end
  end.

Definition lease_capacity (p : DBPool) : nat := Z.to_nat (wrapu 32 (Z.of_nat (length (m_transactions p)))).

(** [start] once all have connected. *)
Definition pool_started (normal transactions : list Z) (p : DBPool) : DBPool * option exn :=
  let p := mkPool (m_config p) (m_reactor p) normal transactions (Some []) (m_next_tie p) (m_starting p) (m_started p) (m_draining p) in
  let '(q, filled) := fill (lease_capacity p) transactions [] in
  if filled then (set_flags false true (m_draining p) (set_leases q p), None)
  else (set_leases q p, Some (logic_error "Could not initialize database transaction leases")).

Definition pool_start_failed (p : DBPool) : DBPool := set_flags false (m_started p) (m_draining p) p.

Definition SIZE_MAX : Z := 2 ^ 64 - 1.

(** The loop of [submit] from an offset on, [turns] of them left. *)
Fixpoint choose (turns : nat) (tie offset : Z) (unfinished : list Z) (minimum chosen : Z) : Z :=
  match turns with
  | O => chosen
  | S turns =>
      let index := (tie + offset) mod Z.of_nat (length unfinished) in
      let u := unfinished !!! Z.to_nat index in
      if u >=? minimum then choose turns tie (offset + 1) unfinished minimum chosen
      else choose turns tie (offset + 1) unfinished u index
  end.

(** [submit]: the connection that is given the operation, when its connections
    answer [unfinished]. *)
Definition pool_submit (unfinished : list Z) (p : DBPool) : result (Z * DBPool) :=
  let n := Z.of_nat (length (m_normal p)) in
  if negb (m_started p) || (n =? 0) || m_draining p then Throw (logic_error "Database pool is not accepting operations")
  else
    let chosen := choose (length (m_normal p)) (m_next_tie p) 0 unfinished SIZE_MAX (m_next_tie p mod n) in
    Ok (m_normal p !!! Z.to_nat chosen, set_tie ((chosen + 1) mod n) p).

(** [drain]: the connections to drain, in order. *)
Definition pool_drain (p : DBPool) : list Z * DBPool := (m_normal p ++ m_transactions p, set_flags (m_starting p) (m_started p) true p).

(** The locked part of [transaction]. *)
Definition admit_transaction (p : DBPool) : result unit :=
  match m_available_transactions p with
  | Some _ => if negb (m_started p) || m_draining p then Throw (logic_error "Database pool is not accepting transactions") else Ok tt
  | None => Throw (logic_error "Database pool is not accepting transactions")
  end.

(** ** Transactions *)

Record State := mkState { connection : option Z; release : bool; current_phase : TransactionPhase }.

(** Where a task stands on its way to the queue of its connection: made,
    started ([DBOperation::start]), or past [markQueued]. *)
Inductive task_stage := cold_task | started_task | marked_task.
#[export] Instance task_stage_eq_dec : EqDecision task_stage.
Proof. solve_decision. Defined.

(** What a connection is given, and the answers that end a lease or open it. *)
Inductive entry := Begin | Began (t : nat) | Refused | Query (t : nat) (sql : string) | Final (t : nat) (command : string) | Finished (t : nat) (ok : bool).

Record World := mkWorld {
  pool : DBPool;
  connecting : option (list Z * list Z);
  waiting : nat;                          (* [transaction], in [dequeue] *)
  beginning : list Z;                     (* leases whose BEGIN is under way *)
  txs : list State;
  handles : list (option nat);            (* the [DBTransaction] objects *)
  to_finish : list (nat * string);        (* [finalize], not yet run *)
  finishing : list nat;                   (* [finalize], awaiting its answer *)
  tasks : list (task_stage * nat * option Z * string); (* tasks that are not queued, with the connection they captured *)
  log : list (Z * entry);
  thrown : list exn }.

Definition World_make (config : DBConfig) (reactor : bool) : World := mkWorld (DBPool_make config reactor) None 0 [] [] [] [] [] [] [] [].

Definition set_pool (p : DBPool) (w : World) : World :=
  mkWorld p (connecting w) (waiting w) (beginning w) (txs w) (handles w) (to_finish w) (finishing w) (tasks w) (log w) (thrown w).
Definition set_connecting (c : option (list Z * list Z)) (w : World) : World :=
  mkWorld (pool w) c (waiting w) (beginning w) (txs w) (handles w) (to_finish w) (finishing w) (tasks w) (log w) (thrown w).
Definition set_begins (n : nat) (b : list Z) (w : World) : World :=
  mkWorld (pool w) (connecting w) n b (txs w) (handles w) (to_finish w) (finishing w) (tasks w) (log w) (thrown w).
Definition set_txs (t : list State) (h : list (option nat)) (w : World) : World :=
  mkWorld (pool w) (connecting w) (waiting w) (beginning w) t h (to_finish w) (finishing w) (tasks w) (log w) (thrown w).
Definition set_finals (t : list (nat * string)) (f : list nat) (w : World) : World :=
  mkWorld (pool w) (connecting w) (waiting w) (beginning w) (txs w) (handles w) t f (tasks w) (log w) (thrown w).
Definition add_task (t : task_stage * nat * option Z * string) (w : World) : World :=
  mkWorld (pool w) (connecting w) (waiting w) (beginning w) (txs w) (handles w) (to_finish w) (finishing w) (tasks w ++ [t]) (log w) (thrown w).
Definition set_tasks (t : list (task_stage * nat * option Z * string)) (w : World) : World :=
  mkWorld (pool w) (connecting w) (waiting w) (beginning w) (txs w) (handles w) (to_finish w) (finishing w) t (log w) (thrown w).
Definition enqueue (c : Z) (e : entry) (w : World) : World :=
  mkWorld (pool w) (connecting w) (waiting w) (beginning w) (txs w) (handles w) (to_finish w) (finishing w) (tasks w) (log w ++ [(c, e)]) (thrown w).
Definition throws (e : exn) (w : World) : World :=
  mkWorld (pool w) (connecting w) (waiting w) (beginning w) (txs w) (handles w) (to_finish w) (finishing w) (tasks w) (log w) (thrown w ++ [e]).

Definition throws_if (e : option exn) (w : World) : World := match e with Some e => throws e w | None => w end.

(** A lease goes back; [what] is said when the queue is full. *)
Definition return_lease (what : string) (c : Z) (w : World) : World * option exn :=
  match m_available_transactions (pool w) with
  | Some q =>
      match try_enqueue (lease_capacity (pool w)) c q with
      | Some q => (set_pool (set_leases q (pool w)) w, None)
      | None => (w, Some (logic_error what))
      end
  | None => (w, None)
  end.

Definition set_phase (t : nat) (s : State) (p : TransactionPhase) (w : World) : World :=
  set_txs (<[t := mkState (connection s) (release s) p]> (txs w)) (handles w) w.

(** [releaseLease], and what it throws. *)
Definition releaseLease (t : nat) (w : World) : World * option exn :=
  match txs w !! t with
  | Some s =>
      if decide (current_phase s = tx_completed) then (w, None)
      else
        let w := set_txs (<[t := mkState None false tx_completed]> (txs w)) (handles w) w in
        match connection s with Some c => if release s then return_lease "Database transaction lease was returned more than once" c w else (w, None) | None => (w, None) end
  | None => (w, None)
  end.

(** [queueRollback], for the state a handle refers to. *)
Definition queueRollback (h : option nat) (w : World) : World :=
  match h with
  | None => w
  | Some t =>
      match txs w !! t with
      | Some s => if decide (current_phase s = active) then set_finals (to_finish w ++ [(t, "ROLLBACK")]) (finishing w) (set_phase t s finalizing w) else w
      | None => w
      end
  end.

(** [commit] and [rollback], up to [finalize]. *)
Definition finish_with (command moved inactive : string) (h : option nat) (w : World) : World :=
  match h with
  | None => throws (logic_error moved) w
  | Some t =>
      match txs w !! t with
      | Some s =>
          if decide (current_phase s = active) then set_finals (to_finish w ++ [(t, command)]) (finishing w) (set_phase t s finalizing w)
          else throws (logic_error inactive) w
      | None => w
      end
  end.
Definition commit : option nat -> World -> World :=
  finish_with "COMMIT" "Cannot commit a moved-from database transaction" "Cannot commit a database transaction that is not active".
Definition rollback : option nat -> World -> World :=
  finish_with "ROLLBACK" "Cannot roll back a moved-from database transaction" "Cannot roll back a database transaction that is not active".

(** [query], which makes a cold task. *)
Definition query_task (sql : string) (h : option nat) (w : World) : World :=
  match h with
  | None => throws (logic_error "Cannot query a moved-from database transaction") w
  | Some t =>
      match txs w !! t with
      | Some s =>
          if decide (current_phase s = active) then
            if sempty sql then throws (invalid_argument "Database SQL cannot be empty") w else add_task (cold_task, t, connection s, sql) w
          else throws (logic_error "Cannot query a database transaction that is not active") w
      | None => w
      end
  end.

Definition phase (h : option nat) (w : World) : TransactionPhase :=
  match h with None => tx_completed | Some t => match txs w !! t with Some s => current_phase s | None => tx_completed end end.

(** One locked section of a task's way into the queue; a task that is not where
    the section finds it, one that was started before, say, stays. *)
Definition advance_task (from to : task_stage) (k : nat) (w : World) : option World :=
  '(g, t, c, sql) ← tasks w !! k;
  if decide (g = from) then Some (set_tasks (<[k := (to, t, c, sql)]> (tasks w)) w) else None.

(** ** Steps *)

Inductive event :=
  | Start | Connected | Connect_failed (e : exn) | Drain
  | Transaction | Take_lease | Begin_answered (k : nat) (ok : bool) (e : exn)
  | Query_by (h : nat) (sql : string) | Start_task (k : nat) | Mark_task (k : nat) | Push_task (k : nat) (* [start], [markQueued], the locked part of [enqueue] *)
  | Commit_by (h : nat) | Rollback_by (h : nat) | Destroy (h : nat) (* the destructor: the object is not used afterwards *) | Move_to (h : nat) | Move_assign (h g : nat)
  | Run_finalize (k : nat) | Final_answered (k : nat) (ok : bool) (e : exn).

Definition step (w : World) (ev : event) : option World :=
  match ev with
  | Start =>
      match pool_start (pool w) with
      | Ok (p, Some l) => Some (set_connecting (Some l) (set_pool p w))
      | Ok (p, None) => Some w
      | Throw e => Some (throws e w)
      end
  | Connected =>
      '(n, t) ← connecting w;
      let '(p, e) := pool_started n t (pool w) in Some (throws_if e (set_connecting None (set_pool p w)))
  | Connect_failed e => _ ← connecting w; Some (throws e (set_connecting None (set_pool (pool_start_failed (pool w)) w)))
  | Drain => Some (set_pool (snd (pool_drain (pool w))) w)
  | Transaction => match admit_transaction (pool w) with Ok _ => Some (set_begins (S (waiting w)) (beginning w) w) | Throw e => Some (throws e w) end
  | Take_lease =>
      match waiting w, m_available_transactions (pool w) with
      | S n, Some (c :: q) => Some (enqueue c Begin (set_begins n (beginning w ++ [c]) (set_pool (set_leases q (pool w)) w)))
      | _, _ => None
      end
  | Begin_answered k ok e =>
      c ← beginning w !! k;
      let w := set_begins (waiting w) (delete k (beginning w)) w in
      if ok : bool then
        let t := length (txs w) in
        Some (enqueue c (Began t) (set_txs (txs w ++ [mkState (Some c) true active]) (handles w ++ [Some t]) w))
      else
        let '(w, e') := return_lease "Could not return a failed database transaction lease" c (enqueue c Refused w) in
        Some (throws (default e e') w)
  | Query_by h sql => h ← handles w !! h; Some (query_task sql h w)
  | Start_task k => advance_task cold_task started_task k w
  | Mark_task k => advance_task started_task marked_task k w
  | Push_task k =>
      '(g, t, c, sql) ← tasks w !! k;
      if decide (g = marked_task) then c ← c; Some (enqueue c (Query t sql) (set_tasks (delete k (tasks w)) w)) else None
  | Commit_by h => h ← handles w !! h; Some (commit h w)
  | Rollback_by h => h ← handles w !! h; Some (rollback h w)
  | Destroy h => t ← handles w !! h; Some (set_txs (txs (queueRollback t w)) (<[h := None]> (handles w)) (queueRollback t w))
  | Move_to h => t ← handles w !! h; Some (set_txs (txs w) (<[h := None]> (handles w) ++ [t]) w)
  | Move_assign h g =>
      if decide (h = g) then Some w
      else
        t ← handles w !! h; s ← handles w !! g;
        let w := queueRollback t w in
        Some (set_txs (txs w) (<[g := None]> (<[h := s]> (handles w))) w)
  | Run_finalize k =>
      '(t, command) ← to_finish w !! k;
      s ← txs w !! t;
      c ← connection s;
      Some (enqueue c (Final t command) (set_finals (delete k (to_finish w)) (finishing w ++ [t]) w))
  | Final_answered k ok e =>
      t ← finishing w !! k;
      s ← txs w !! t;
      c ← connection s;
      let '(w, e') := releaseLease t (enqueue c (Finished t ok) (set_finals (to_finish w) (delete k (finishing w)) w)) in
      Some (throws_if (match e' with Some e' => Some e' | None => if ok : bool then None else Some e end) w)
  end.

Fixpoint run (w : World) (evs : list event) : option World :=
  match evs with [] => Some w | ev :: evs => w ← step w ev; run w evs end.

(** ** The session of a connection *)

(** Whether a connection stands in a transaction, by what it was given and
    what it answered; a query changes nothing. *)
Inductive session := Free | Opening | Open (t : nat) | Closing (t : nat).

Definition advance (st : session) (e : entry) : option session :=
  match st, e with
  | Free, Begin => Some Opening
  | Opening, Began t => Some (Open t)
  | Opening, Refused => Some Free
  | Open t, Final t' _ => if (t =? t')%nat then Some (Closing t) else None
  | Closing t, Finished t' _ => if (t =? t')%nat then Some Free else None
  | _, Query _ _ => Some st
  | _, _ => None
  end.

Fixpoint session_of (c : Z) (st : session) (l : list (Z * entry)) : option session :=
  match l with
  | [] => Some st
  | (c', e) :: l => if c' =? c then st ← advance st e; session_of c st l else session_of c st l
  end.

(** Every query the connection is given stands between the BEGIN and the end of
    its own transaction. *)
Fixpoint inside (c : Z) (st : session) (l : list (Z * entry)) : bool :=
  match l with
  | [] => true
  | (c', e) :: l =>
      if c' =? c then
        match e, st with Query t _, Open t' => (t =? t')%nat | Query _ _, _ => false | _, _ => true end
        && match advance st e with Some st => inside c st l | None => false end
      else inside c st l
  end.

(** The final commands of a transaction. *)
Fixpoint finals (t : nat) (l : list (Z * entry)) : nat :=
  match l with [] => 0 | (_, e) :: l => match e with Final t' _ => if (t' =? t)%nat then 1 else 0 | _ => 0 end + finals t l end.

(** Tasks reach the queue of their connection while their transaction is active. *)
Definition prompt (w : World) (ev : event) : bool :=
  match ev with
  | Push_task k => match tasks w !! k with Some (_, t, _, _) => match txs w !! t with Some s => bool_decide (current_phase s = active) | None => false end | None => true end
  | _ => true
  end.
Fixpoint prompt_run (w : World) (evs : list event) : bool :=
  match evs with [] => true | ev :: evs => prompt w ev && match step w ev with Some w => prompt_run w evs | None => true end end.

Lemma session_snoc c st l c' e : session_of c st (l ++ [(c', e)]) = (st ← session_of c st l; if c' =? c then advance st e else Some st).
Proof.
  revert st. induction l as [|[c1 e1] l IH]; intros st; cbn.
  - destruct (c' =? c); [|done]. by destruct (advance st e).
  - destruct (c1 =? c); [|apply IH]. destruct (advance st e1); [apply IH|done].
Qed.

Lemma inside_snoc c st l c' e : inside c st (l ++ [(c', e)]) =
  inside c st l && match session_of c st l with
  | Some st => if c' =? c then match e, st with Query t _, Open t' => (t =? t')%nat | Query _ _, _ => false | _, _ => true end
                              && bool_decide (is_Some (advance st e)) else true
  | None => true end.
Proof.
  revert st. induction l as [|[c1 e1] l IH]; intros st; cbn.
  - destruct (c' =? c); [|done]. f_equal. by destruct (advance st e).
  - destruct (c1 =? c); [|apply IH]. destruct (advance st e1); [rewrite IH; cbn; by rewrite andb_assoc|]. by rewrite !andb_false_r.
Qed.

Lemma finals_snoc t l c e : finals t (l ++ [(c, e)]) = (finals t l + match e with Final t' _ => if (t' =? t)%nat then 1 else 0 | _ => 0 end)%nat.
Proof. induction l as [|[c1 e1] l IH]; cbn; [lia|]. rewrite IH. lia. Qed.

(** ** Leases *)

Definition held (w : World) : list Z := omap connection (txs w).
Definition ending (w : World) : list nat := (fst <$> to_finish w) ++ finishing w.

(** Where a connection stands. *)
Definition stands (w : World) (c : Z) (st : session) : Prop :=
  match st with
  | Free => c ∉ beginning w /\ c ∉ held w
  | Opening => c ∈ beginning w
  | Open t => exists s, txs w !! t = Some s /\ connection s = Some c /\ (current_phase s = active \/ t ∈ fst <$> to_finish w)
  | Closing t => exists s, txs w !! t = Some s /\ connection s = Some c /\ t ∈ finishing w
  end.

Definition tx_ok (s : State) : Prop :=
  match current_phase s with
  | acquiring => False
  | active | finalizing => release s = true /\ is_Some (connection s)
  | tx_completed => connection s = None
  end.

Record invariant (w : World) : Prop := {
  pool_ok : match m_available_transactions (pool w) with
    | Some q => m_started (pool w) = true /\ connecting w = None /\ q ++ beginning w ++ held w ≡ₚ m_transactions (pool w)
    | None => m_started (pool w) = false /\ beginning w = [] /\ txs w = [] end;
  leases_ok : NoDup (m_transactions (pool w)) /\ lease_capacity (pool w) = length (m_transactions (pool w));
  connecting_ok : match connecting w with
    | Some (_, l) => m_starting (pool w) = true /\ NoDup l /\ Z.of_nat (length l) < 2 ^ 32 /\ m_available_transactions (pool w) = None
    | None => True end;
  config_ok : transaction_connections (m_config (pool w)) < 2 ^ 32;
  txs_ok : Forall tx_ok (txs w);
  ending_once : NoDup (ending w);
  ending_ok : forall t, t ∈ ending w <-> exists s, txs w !! t = Some s /\ current_phase s = finalizing;
  handles_ok : forall t s, txs w !! t = Some s -> current_phase s = active -> exists h, handles w !! h = Some (Some t);
  tasks_ok : forall g t c sql, (g, t, c, sql) ∈ tasks w -> exists s, txs w !! t = Some s /\ is_Some c /\ (current_phase s <> tx_completed -> c = connection s);
  sessions_ok : forall c, exists st, session_of c Free (log w) = Some st /\ stands w c st;
  finals_ok : forall t, (finals t (log w) <= 1)%nat
    /\ ((0 < finals t (log w))%nat -> t ∈ finishing w \/ exists s, txs w !! t = Some s /\ current_phase s = tx_completed) }.

Ltac fields := cbn [pool connecting waiting beginning txs handles to_finish finishing tasks log thrown set_pool set_connecting set_begins set_txs set_finals set_phase add_task set_tasks enqueue throws throws_if].

Lemma held_insert (l : list State) t s s' : l !! t = Some s ->
  omap connection (<[t := s']> l) ++ option_list (connection s) ≡ₚ omap connection l ++ option_list (connection s').
Proof.
  revert t. induction l as [|x l IH]; intros [|t] H; try done.
  - injection H as ->. change (<[0%nat := s']> (s :: l)) with (s' :: l). cbn. destruct (connection s), (connection s'); cbn; rewrite ?app_nil_r; try done.
    + by rewrite (Permutation_app_comm l' [z]) || rewrite <- !Permutation_cons_append; apply perm_swap.
    + by rewrite <- Permutation_cons_append.
    + by rewrite <- Permutation_cons_append.
  - change (<[S t := s']> (x :: l)) with (x :: <[t := s']> l). cbn. specialize (IH t H). destruct (connection x); cbn; [by rewrite IH|done].
Qed.

Lemma held_same (l : list State) t s s' : l !! t = Some s -> connection s' = connection s -> omap connection (<[t := s']> l) = omap connection l.
Proof.
  revert t. induction l as [|x l IH]; intros [|t] H Hc; try done.
  - injection H as ->. change (<[0%nat := s']> (s :: l)) with (s' :: l). cbn. by rewrite Hc.
  - change (<[S t := s']> (x :: l)) with (x :: <[t := s']> l). cbn. by rewrite (IH t).
Qed.

Lemma elem_held w c : c ∈ held w <-> exists t s, txs w !! t = Some s /\ connection s = Some c.
Proof.
  unfold held. rewrite list_elem_of_omap. split.
  - intros (s & Hs & Hc). apply list_elem_of_lookup in Hs as [t Ht]. by exists t, s.
  - intros (t & s & Hs & Hc). exists s. split; [by eapply list_elem_of_lookup_2|done].
Qed.

Lemma tx_at w t s : invariant w -> txs w !! t = Some s -> tx_ok s.
Proof. intros Hi H. assert (Hf := txs_ok w Hi). rewrite Forall_lookup in Hf. by eapply Hf. Qed.

(** A step that moves no lease and no transaction. *)
Lemma invariant_quiet w w' : invariant w ->
  (match m_available_transactions (pool w') with
    | Some q => m_started (pool w') = true /\ connecting w' = None /\ q ++ beginning w ++ held w ≡ₚ m_transactions (pool w')
    | None => m_started (pool w') = false /\ beginning w = [] /\ txs w = [] end) ->
  (NoDup (m_transactions (pool w')) /\ lease_capacity (pool w') = length (m_transactions (pool w'))) ->
  (match connecting w' with
    | Some (_, l) => m_starting (pool w') = true /\ NoDup l /\ Z.of_nat (length l) < 2 ^ 32 /\ m_available_transactions (pool w') = None
    | None => True end) ->
  m_config (pool w') = m_config (pool w) -> beginning w' = beginning w -> txs w' = txs w -> to_finish w' = to_finish w -> finishing w' = finishing w ->
  (forall t s, txs w !! t = Some s -> current_phase s = active -> exists h, handles w' !! h = Some (Some t)) ->
  (forall g t c sql, (g, t, c, sql) ∈ tasks w' -> exists s, txs w !! t = Some s /\ is_Some c /\ (current_phase s <> tx_completed -> c = connection s)) ->
  log w' = log w -> invariant w'.
Proof.
  intros Hi H1 H2 H3 E1 E2 E3 E4 E5 Hh Ht E6. destruct Hi as [I1 I2 I3 I4 I5 I6 I7 I8 I9 I10 I11].
  split; unfold held, ending in *; rewrite ?E1, ?E2, ?E3, ?E4, ?E5, ?E6; try done.
  - intros c. destruct (I10 c) as (st & Hs & Hst). exists st. split; [done|]. unfold stands, held in *. by rewrite E2, E3, E4, E5.
Qed.

Lemma invariant_throws w e : invariant w -> invariant (throws e w).
Proof. intros Hi. eapply (invariant_quiet w); try done; apply Hi. Qed.

Lemma invariant_throws_if w e : invariant w -> invariant (throws_if e w).
Proof. destruct e; [apply invariant_throws|done]. Qed.

(** Handles move, but no active transaction loses its own. *)
Lemma invariant_handles w h : invariant w -> (forall t s, txs w !! t = Some s -> current_phase s = active -> exists i, h !! i = Some (Some t)) ->
  invariant (set_txs (txs w) h w).
Proof. intros Hi Hh. eapply (invariant_quiet w); try done; apply Hi. Qed.

(** An active transaction begins its end. *)
Lemma invariant_finish w t s command : invariant w -> txs w !! t = Some s -> current_phase s = active ->
  invariant (set_finals (to_finish w ++ [(t, command)]) (finishing w) (set_phase t s finalizing w)).
Proof.
  intros Hi Hs Hp. assert (Hlt := lookup_lt_Some _ _ _ Hs). assert (Hok := tx_at w t s Hi Hs). assert (Hni : t ∉ ending w).
  { intros H. apply (ending_ok w Hi) in H as (s' & Hs' & Hp'). congruence. }
  destruct Hi as [I1 I2 I3 I4 I5 I6 I7 I8 I9 I10 I11].
  unfold set_phase. set (s' := mkState (connection s) (release s) finalizing).
  assert (Hother : forall t' x, <[t := s']> (txs w) !! t' = Some x -> (t' = t /\ x = s') \/ (t' <> t /\ txs w !! t' = Some x)).
  { intros t' x. destruct (decide (t = t')) as [<-|Hne]; [rewrite list_lookup_insert_eq by done; intros [= <-]; by left|rewrite list_lookup_insert_ne by done; by right]. }
  assert (Hkept : forall t' x, txs w !! t' = Some x -> exists y, <[t := s']> (txs w) !! t' = Some y /\ connection y = connection x /\ (t' <> t -> y = x)
    /\ (current_phase x = tx_completed <-> current_phase y = tx_completed)).
  { intros t' x Hx. destruct (decide (t = t')) as [<-|Hne]; [rewrite list_lookup_insert_eq by done; exists s'; rewrite Hs in Hx; injection Hx as <-; cbn; split; [done|]; split; [done|]; split; [done|]; by rewrite Hp|].
    rewrite list_lookup_insert_ne by done. by exists x. }
  split; unfold held, ending in *; fields; try done.
  - rewrite (held_same (txs w) t s s') by done. destruct (m_available_transactions (pool w)); [done|]. destruct I1 as (_ & _ & I1). by rewrite I1 in Hs.
  - apply Forall_insert; [done|]. unfold tx_ok in *. rewrite Hp in Hok. exact Hok.
  - rewrite fmap_app, <- app_assoc. cbn [fmap list_fmap fst app]. rewrite <- Permutation_middle. by constructor.
  - intros t'. rewrite fmap_app, <- app_assoc. cbn [fmap list_fmap fst app]. rewrite elem_of_app, elem_of_cons. setoid_rewrite elem_of_app in I7. split.
    + intros H. destruct (decide (t' = t)) as [->|Hne]; [exists s'; split; [by apply list_lookup_insert_eq|done]|].
      rewrite list_lookup_insert_ne by done. apply I7. tauto.
    + intros (x & Hx & Hpx). apply Hother in Hx as [[-> ->]|[Hne Hx]]; [tauto|]. assert (H : exists s, txs w !! t' = Some s /\ current_phase s = finalizing) by by exists x.
      apply I7 in H. tauto.
  - intros t' x Hx Hpx. apply Hother in Hx as [[-> ->]|[Hne Hx]]; [done|]. by eapply I8.
  - intros g' t' c sql Ht. destruct (I9 g' t' c sql Ht) as (x & Hx & Hc & Hcx). destruct (Hkept t' x Hx) as (y & Hy & E1 & _ & E3). exists y. split; [done|]. split; [done|].
    rewrite E1. intros H. apply Hcx. by rewrite E3.
  - intros c. destruct (I10 c) as (st & Hst & Hc). exists st. split; [done|]. unfold stands, held in *. fields. destruct st as [| |t'|t'].
    + rewrite (held_same (txs w) t s s') by done. exact Hc.
    + exact Hc.
    + destruct Hc as (x & Hx & Hcx & Hph). destruct (Hkept t' x Hx) as (y & Hy & E1 & E2 & _). exists y. split; [done|]. split; [congruence|].
      rewrite fmap_app, elem_of_app. cbn. rewrite elem_of_cons. destruct (decide (t' = t)) as [->|Hne]; [right; right; by left|]. rewrite E2 by done. tauto.
    + destruct Hc as (x & Hx & Hcx & Hph). destruct (Hkept t' x Hx) as (y & Hy & E1 & E2 & _). exists y. split; [done|]. split; [congruence|done].
  - intros t'. destruct (I11 t') as [F1 F2]. split; [done|]. intros H. apply F2 in H as [H|(x & Hx & Hpx)]; [by left|right].
    destruct (Hkept t' x Hx) as (y & Hy & _ & _ & E3). exists y. split; [done|]. by apply E3.
Qed.

(** ** Who holds what *)

Lemma leases_nodup w q : invariant w -> m_available_transactions (pool w) = Some q -> NoDup (q ++ beginning w ++ held w).
Proof. intros Hi Hq. assert (H := pool_ok w Hi). rewrite Hq in H. destruct H as (_ & _ & H). rewrite H. apply (leases_ok w Hi). Qed.

Lemma some_leases w : invariant w -> beginning w <> [] \/ txs w <> [] -> exists q, m_available_transactions (pool w) = Some q.
Proof. intros Hi H. assert (Hp := pool_ok w Hi). destruct (m_available_transactions (pool w)); [by eexists|]. destruct Hp as (_ & H1 & H2). by destruct H. Qed.

Lemma omap_unique (l : list State) t t' s s' c : NoDup (omap connection l) -> l !! t = Some s -> l !! t' = Some s' ->
  connection s = Some c -> connection s' = Some c -> t = t'.
Proof.
  assert (Hin : forall (l : list State) t s, l !! t = Some s -> connection s = Some c -> c ∈ omap connection l).
  { intros l' i x Hx Hc. apply list_elem_of_omap. exists x. split; [by eapply list_elem_of_lookup_2|done]. }
  revert t t'. induction l as [|x l IH]; intros [|t] [|t'] Hn H1 H2 Hc Hc'; try done; cbn in *.
  - injection H1 as ->. rewrite Hc in Hn. apply NoDup_cons in Hn as [Hn _]. destruct Hn. by eapply Hin.
  - injection H2 as ->. rewrite Hc' in Hn. apply NoDup_cons in Hn as [Hn _]. destruct Hn. by eapply Hin.
  - f_equal. apply (IH t t'); try done. destruct (connection x); [by apply NoDup_cons in Hn as [_ Hn]|done].
Qed.

Lemma holder_unique w t t' s s' c : invariant w -> txs w !! t = Some s -> txs w !! t' = Some s' -> connection s = Some c -> connection s' = Some c -> t = t'.
Proof.
  intros Hi H1 H2. destruct (some_leases w Hi) as [q Hq]; [right; by intros E; rewrite E in H1|].
  assert (Hn := leases_nodup w q Hi Hq). rewrite app_assoc in Hn. apply NoDup_app in Hn as (_ & _ & Hn). by eapply omap_unique.
Qed.

(** The session of a leased connection is the one of its holder. *)
Lemma session_begins w q c : invariant w -> m_available_transactions (pool w) = Some q -> c ∈ q -> session_of c Free (log w) = Some Free /\ stands w c Free.
Proof.
  intros Hi Hq Hc. destruct (sessions_ok w Hi c) as (st & Hs & Hst). assert (Hn := leases_nodup w q Hi Hq). apply NoDup_app in Hn as (_ & Hn & _).
  specialize (Hn c Hc). rewrite elem_of_app in Hn. destruct st as [| |t|t]; [done|by destruct Hn; left|..];
    destruct Hst as (s & Ht & Hcs & _); destruct Hn; right; rewrite elem_held; by exists t, s.
Qed.

Lemma session_opening w c : invariant w -> c ∈ beginning w -> session_of c Free (log w) = Some Opening /\ c ∉ held w.
Proof.
  intros Hi Hc. destruct (some_leases w Hi) as [q Hq]; [left; intros E; rewrite E in Hc; by apply elem_of_nil in Hc|].
  assert (Hn := leases_nodup w q Hi Hq). apply NoDup_app in Hn as (_ & _ & Hn). apply NoDup_app in Hn as (_ & Hn & _). specialize (Hn c Hc). split; [|done].
  destruct (sessions_ok w Hi c) as (st & Hs & Hst). destruct st as [| |t|t]; [by destruct Hst|done|..];
    destruct Hst as (s & Ht & Hcs & _); destruct Hn; rewrite elem_held; by exists t, s.
Qed.

Lemma session_held w t s c : invariant w -> txs w !! t = Some s -> connection s = Some c ->
  session_of c Free (log w) = Some (if decide (t ∈ finishing w) then Closing t else Open t) /\ c ∉ beginning w.
Proof.
  intros Hi Ht Hc. assert (Hh : c ∈ held w) by (rewrite elem_held; by exists t, s).
  assert (Hb : c ∉ beginning w) by (intros Hb; by destruct (session_opening w c Hi Hb)). split; [|done].
  destruct (sessions_ok w Hi c) as (st & Hs & Hst). destruct st as [| |t'|t']; [by destruct Hst|done|..]; destruct Hst as (s' & Ht' & Hc' & Hst);
    assert (t' = t) as -> by by eapply holder_unique.
  - rewrite Hs. case_decide as Hd; [|done]. destruct Hst as [Hst|Hst].
    + assert (He : t ∈ ending w) by (unfold ending; rewrite elem_of_app; by right). apply (ending_ok w Hi) in He as (x & Hx & Hp). congruence.
    + assert (Hn := ending_once w Hi). apply NoDup_app in Hn as (_ & Hn & _). by destruct (Hn t Hst).
  - rewrite Hs. by rewrite decide_True.
Qed.

(** A lease that is out finds room in the queue. *)
Lemma room_for_lease w q c : invariant w -> m_available_transactions (pool w) = Some q -> c ∈ beginning w ++ held w -> (length q < lease_capacity (pool w))%nat.
Proof.
  intros Hi Hq Hc. assert (Hp := pool_ok w Hi). rewrite Hq in Hp. destruct Hp as (_ & _ & Hp). destruct (leases_ok w Hi) as [_ ->].
  rewrite <- Hp, length_app. destruct (beginning w ++ held w); [by apply elem_of_nil in Hc|cbn; lia].
Qed.

(** ** Steps with an entry *)

Lemma invariant_take w n c q : invariant w -> m_available_transactions (pool w) = Some (c :: q) ->
  invariant (enqueue c Begin (set_begins n (beginning w ++ [c]) (set_pool (set_leases q (pool w)) w))).
Proof.
  intros Hi Hq. destruct (session_begins w _ c Hi Hq) as [Hs [Hb Hh]]; [rewrite elem_of_cons; by left|].
  destruct Hi as [I1 I2 I3 I4 I5 I6 I7 I8 I9 I10 I11]. rewrite Hq in I1. destruct I1 as (J1 & J2 & J3).
  split; fields; try done.
  - cbn [set_leases m_available_transactions m_started m_transactions]. split; [done|]. split; [done|]. rewrite <- J3. unfold held; fields. cbn [app].
    rewrite <- app_assoc. cbn [app]. rewrite (app_assoc q), <- Permutation_middle. by rewrite <- app_assoc.
  - by rewrite J2.
  - intros c'. rewrite session_snoc. destruct (Z.eqb_spec c c') as [<-|Hne].
    + rewrite Hs. exists Opening. split; [done|]. cbn. rewrite elem_of_app, elem_of_cons. tauto.
    + destruct (I10 c') as (st & -> & Hst). exists st. split; [done|]. unfold stands, held in *; fields. destruct st; try done.
      * rewrite elem_of_app, elem_of_cons, elem_of_nil. destruct Hst. split; [|done]. intros [?|[?|[]]]; congruence.
      * rewrite elem_of_app. by left.
  - intros t. rewrite finals_snoc, Nat.add_0_r. apply I11.
Qed.

Lemma invariant_begun w k c : invariant w -> beginning w !! k = Some c ->
  invariant (enqueue c (Began (length (txs w))) (set_txs (txs w ++ [mkState (Some c) true active]) (handles w ++ [Some (length (txs w))])
    (set_begins (waiting w) (delete k (beginning w)) w))).
Proof.
  intros Hi Hk. assert (Hb : c ∈ beginning w) by by eapply list_elem_of_lookup_2. destruct (session_opening w c Hi Hb) as [Hs Hh].
  assert (Hd : beginning w ≡ₚ c :: delete k (beginning w)) by by apply delete_Permutation.
  remember (delete k (beginning w)) as rest eqn:Er. clear Er Hk.
  destruct (some_leases w Hi) as [q Hq]; [left; intros E; rewrite E in Hb; by apply elem_of_nil in Hb|].
  assert (Hn := leases_nodup w q Hi Hq). apply NoDup_app in Hn as (_ & _ & Hn). apply NoDup_app in Hn as (Hn & _ & _). rewrite Hd in Hn. apply NoDup_cons in Hn as [Hnd _].
  destruct Hi as [I1 I2 I3 I4 I5 I6 I7 I8 I9 I10 I11]. rewrite Hq in I1. destruct I1 as (J1 & J2 & J3).
  set (s := mkState (Some c) true active). assert (Hl : (txs w ++ [s]) !! length (txs w) = Some s) by by rewrite lookup_app_r, Nat.sub_diag.
  assert (Hold : forall t x, txs w !! t = Some x -> (txs w ++ [s]) !! t = Some x) by (intros t x Hx; by apply lookup_app_l_Some).
  assert (Hinv : forall t x, (txs w ++ [s]) !! t = Some x -> txs w !! t = Some x \/ (t = length (txs w) /\ x = s)).
  { intros t x Hx. apply lookup_app_Some in Hx as [Hx|[Hle Hx]]; [by left|right]. apply list_lookup_singleton_Some in Hx as [Hx <-]. split; [lia|done]. }
  split; unfold held, ending in *; fields; try done.
  - rewrite Hq. split; [done|]. split; [done|]. rewrite <- J3, Hd, omap_app. cbn. apply Permutation_app_head.
    rewrite (app_assoc rest). by rewrite <- Permutation_cons_append.
  - apply Forall_app. split; [done|]. constructor; [|done]. split; [done|by eexists].
  - intros t. rewrite I7. split; intros (x & Hx & Hp); [exists x; split; [by apply Hold|done]|]. apply Hinv in Hx as [Hx|[-> ->]]; [by exists x|done].
  - intros t x Hx Hp. apply Hinv in Hx as [Hx|[-> ->]].
    + destruct (I8 t x Hx Hp) as [h Hh']. exists h. by apply lookup_app_l_Some.
    + exists (length (handles w)). by rewrite lookup_app_r, Nat.sub_diag.
  - intros g' t c' sql Ht. destruct (I9 g' t c' sql Ht) as (x & Hx & H). exists x. split; [by apply Hold|done].
  - intros c'. rewrite session_snoc. destruct (Z.eqb_spec c c') as [<-|Hne].
    + rewrite Hs. exists (Open (length (txs w))). split; [done|]. exists s. split; [done|]. split; [done|by left].
    + destruct (I10 c') as (st & -> & Hst). exists st. split; [done|]. unfold stands, held in *; fields. destruct st as [| |t|t].
      * rewrite omap_app, elem_of_app. cbn. rewrite elem_of_cons, elem_of_nil. rewrite Hd, elem_of_cons in Hst. split; [tauto|]. intros [?|[?|[]]]; [tauto|congruence].
      * rewrite Hd, elem_of_cons in Hst. destruct Hst; [congruence|done].
      * destruct Hst as (x & Hx & H). exists x. split; [by apply Hold|done].
      * destruct Hst as (x & Hx & H). exists x. split; [by apply Hold|done].
  - intros t. rewrite finals_snoc, Nat.add_0_r. destruct (I11 t) as [F1 F2]. split; [done|]. intros H. apply F2 in H as [H|(x & Hx & Hp)]; [by left|right].
    exists x. split; [by apply Hold|done].
Qed.

Lemma invariant_refused w k c q : invariant w -> beginning w !! k = Some c -> m_available_transactions (pool w) = Some q ->
  let w1 := set_begins (waiting w) (delete k (beginning w)) w in
  invariant (enqueue c Refused (set_pool (set_leases (q ++ [c]) (pool w)) w1)).
Proof.
  intros Hi Hk Hq. cbn zeta. assert (Hb : c ∈ beginning w) by by eapply list_elem_of_lookup_2. destruct (session_opening w c Hi Hb) as [Hs Hh].
  assert (Hd : beginning w ≡ₚ c :: delete k (beginning w)) by by apply delete_Permutation.
  remember (delete k (beginning w)) as rest eqn:Er. clear Er Hk.
  assert (Hn := leases_nodup w q Hi Hq). apply NoDup_app in Hn as (_ & _ & Hn). apply NoDup_app in Hn as (Hn & _ & _). rewrite Hd in Hn. apply NoDup_cons in Hn as [Hnd _].
  destruct Hi as [I1 I2 I3 I4 I5 I6 I7 I8 I9 I10 I11]. rewrite Hq in I1. destruct I1 as (J1 & J2 & J3).
  split; unfold held, ending in *; fields; try done.
  - cbn [set_leases m_available_transactions m_started m_transactions]. split; [done|]. split; [done|]. rewrite <- J3, Hd, <- app_assoc. done.
  - by rewrite J2.
  - intros c'. rewrite session_snoc. destruct (Z.eqb_spec c c') as [<-|Hne].
    + rewrite Hs. exists Free. split; [done|]. done.
    + destruct (I10 c') as (st & -> & Hst). exists st. split; [done|]. unfold stands, held in *; fields. destruct st as [| |t|t]; try done.
      * rewrite Hd, elem_of_cons in Hst. tauto.
      * rewrite Hd, elem_of_cons in Hst. destruct Hst; [congruence|done].
  - intros t. rewrite finals_snoc, Nat.add_0_r. apply I11.
Qed.

(** A query given to a connection leaves its session. *)
Lemma invariant_query w k g t c sql : invariant w -> tasks w !! k = Some (g, t, Some c, sql) ->
  invariant (enqueue c (Query t sql) (set_tasks (delete k (tasks w)) w)).
Proof.
  intros [I1 I2 I3 I4 I5 I6 I7 I8 I9 I10 I11] Hk. split; fields; try done.
  - intros g' t' c' sql' Ht. apply (I9 g' t' c' sql'). rewrite (delete_Permutation _ _ _ Hk), elem_of_cons. by right.
  - intros c'. rewrite session_snoc. destruct (I10 c') as (st & -> & Hst). exists st. split; [|done]. cbn. destruct (c =? c'); [|done]. by destruct st.
  - intros t'. rewrite finals_snoc, Nat.add_0_r. apply I11.
Qed.

Lemma invariant_finalize w k t command s c : invariant w -> to_finish w !! k = Some (t, command) -> txs w !! t = Some s -> connection s = Some c ->
  invariant (enqueue c (Final t command) (set_finals (delete k (to_finish w)) (finishing w ++ [t]) w)).
Proof.
  intros Hi Hk Ht Hc. destruct (session_held w t s c Hi Ht Hc) as [Hs Hb].
  assert (Hd : (fst <$> to_finish w) ≡ₚ t :: (fst <$> delete k (to_finish w))) by (rewrite (delete_Permutation _ _ _ Hk) at 1; done).
  remember (delete k (to_finish w)) as rest eqn:Er. clear Er Hk.
  assert (Hend := ending_once w Hi). unfold ending in Hend. rewrite Hd in Hend. cbn in Hend. apply NoDup_cons in Hend as [Hni Hend]. rewrite elem_of_app in Hni.
  rewrite decide_False in Hs by tauto.
  assert (Hel : forall t', t' ∈ (fst <$> rest) ++ finishing w ++ [t] <-> t' ∈ ending w).
  { intros t'. unfold ending. rewrite !elem_of_app. rewrite Hd. rewrite !elem_of_cons, elem_of_nil. tauto. }
  destruct Hi as [I1 I2 I3 I4 I5 I6 I7 I8 I9 I10 I11].
  split; fields; try done.
  - unfold ending; fields. rewrite app_assoc. apply NoDup_app. split; [done|]. split; [|by apply NoDup_singleton]. intros t' H1 H2. apply list_elem_of_singleton in H2 as ->.
    rewrite elem_of_app in H1. tauto.
  - intros t'. unfold ending; fields. rewrite Hel. apply I7.
  - intros c'. rewrite session_snoc. destruct (Z.eqb_spec c c') as [<-|Hne].
    + rewrite Hs. exists (Closing t). cbn. rewrite Nat.eqb_refl. split; [done|]. exists s. split; [done|]. split; [done|]. fields. rewrite elem_of_app, elem_of_cons. tauto.
    + destruct (I10 c') as (st & -> & Hst). exists st. split; [done|]. unfold stands in *; fields. destruct st as [| |t'|t']; try done.
      * destruct Hst as (x & Hx & Hcx & Hst). exists x. split; [done|]. split; [done|]. destruct Hst as [Hst|Hst]; [by left|right]. rewrite Hd, elem_of_cons in Hst.
        destruct Hst as [->|Hst]; [|done]. congruence.
      * destruct Hst as (x & Hx & Hcx & Hst). exists x. split; [done|]. split; [done|]. rewrite elem_of_app. by left.
  - intros t'. rewrite finals_snoc. destruct (I11 t') as [F1 F2]. destruct (Nat.eqb_spec t t') as [<-|Hne].
    + assert (H0 : finals t (log w) = 0%nat).
      { destruct (finals t (log w)) eqn:E; [done|]. destruct F2 as [H|(x & Hx & Hp)]; [lia|tauto|].
        assert (He : t ∈ ending w) by (rewrite <- Hel, !elem_of_app, elem_of_cons; tauto). apply I7 in He as (y & Hy & Hp'). congruence. }
      rewrite H0. split; [lia|]. intros _. left. rewrite elem_of_app, elem_of_cons. tauto.
    + rewrite Nat.add_0_r. split; [done|]. intros H. apply F2 in H as [H|H]; [left; rewrite elem_of_app; by left|by right].
Qed.

(** The last answer of a transaction returns its lease. *)
Lemma invariant_finished w k t s c q ok : invariant w -> finishing w !! k = Some t -> txs w !! t = Some s -> connection s = Some c ->
  m_available_transactions (pool w) = Some q ->
  invariant (mkWorld (set_leases (q ++ [c]) (pool w)) (connecting w) (waiting w) (beginning w) (<[t := mkState None false tx_completed]> (txs w)) (handles w)
    (to_finish w) (delete k (finishing w)) (tasks w) (log w ++ [(c, Finished t ok)]) (thrown w)).
Proof.
  intros Hi Hk Ht Hc Hq. assert (Hf : t ∈ finishing w) by by eapply list_elem_of_lookup_2. destruct (session_held w t s c Hi Ht Hc) as [Hs Hb].
  rewrite decide_True in Hs by done. assert (Hlt := lookup_lt_Some _ _ _ Ht).
  assert (Hd : finishing w ≡ₚ t :: delete k (finishing w)) by by apply delete_Permutation.
  remember (delete k (finishing w)) as rest eqn:Er. clear Er Hk.
  assert (Hn := leases_nodup w q Hi Hq). set (s' := mkState None false tx_completed).
  assert (Hh : held w ≡ₚ c :: omap connection (<[t := s']> (txs w))).
  { assert (H := held_insert (txs w) t s s' Ht). rewrite Hc in H. cbn in H. rewrite app_nil_r in H. unfold held. by rewrite <- H, <- Permutation_cons_append. }
  assert (Hend := ending_once w Hi). unfold ending in Hend. rewrite Hd in Hend. rewrite <- Permutation_middle in Hend. apply NoDup_cons in Hend as [Hni Hend].
  rewrite elem_of_app in Hni.
  assert (Hcn : c ∉ beginning w /\ c ∉ omap connection (<[t := s']> (txs w))).
  { split; [done|]. rewrite app_assoc in Hn. apply NoDup_app in Hn as (_ & _ & Hn). rewrite Hh in Hn. by apply NoDup_cons in Hn as [Hn _]. }
  assert (Hother : forall t' x, <[t := s']> (txs w) !! t' = Some x -> (t' = t /\ x = s') \/ (t' <> t /\ txs w !! t' = Some x)).
  { intros t' x. destruct (decide (t = t')) as [<-|Hne]; [rewrite list_lookup_insert_eq by done; intros [= <-]; by left|rewrite list_lookup_insert_ne by done; by right]. }
  destruct Hi as [I1 I2 I3 I4 I5 I6 I7 I8 I9 I10 I11]. rewrite Hq in I1. destruct I1 as (J1 & J2 & J3).
  assert (Hfin : current_phase s = finalizing) by (assert (H : t ∈ ending w) by (unfold ending; rewrite elem_of_app; by right); apply I7 in H as (x & Hx & Hp); congruence).
  split; fields; try done.
  - cbn [set_leases m_available_transactions m_started m_transactions]. split; [done|]. split; [done|]. rewrite <- J3, Hh, <- app_assoc. unfold held; fields. cbn.
    apply Permutation_app_head. by rewrite <- Permutation_middle.
  - by rewrite J2.
  - by apply Forall_insert.
  - intros t'. unfold ending; fields. rewrite elem_of_app. assert (I7' := I7 t'). unfold ending in I7'. rewrite elem_of_app, Hd, elem_of_cons in I7'. split.
    + intros H. destruct (decide (t' = t)) as [->|Hne]; [tauto|]. rewrite list_lookup_insert_ne by done. apply I7'. tauto.
    + intros (x & Hx & Hp). apply Hother in Hx as [[-> ->]|[Hne Hx]]; [done|]. assert (H : exists s, txs w !! t' = Some s /\ current_phase s = finalizing) by by exists x.
      apply I7' in H. tauto.
  - intros t' x Hx Hp. apply Hother in Hx as [[-> ->]|[Hne Hx]]; [done|by eapply I8].
  - intros g' t' c' sql Hin. destruct (I9 g' t' c' sql Hin) as (x & Hx & Hsome & Hcx). destruct (decide (t' = t)) as [->|Hne].
    + exists s'. split; [by apply list_lookup_insert_eq|]. done.
    + exists x. by rewrite list_lookup_insert_ne.
  - intros c'. rewrite session_snoc. destruct (Z.eqb_spec c c') as [<-|Hne].
    + rewrite Hs. exists Free. cbn. rewrite Nat.eqb_refl. split; [done|]. unfold held; fields. exact Hcn.
    + destruct (I10 c') as (st & -> & Hst). exists st. split; [done|]. unfold stands, held in *; fields. destruct st as [| |t'|t']; try done.
      * rewrite Hh, elem_of_cons in Hst. tauto.
      * destruct Hst as (x & Hx & Hcx & Hst). exists x. rewrite list_lookup_insert_ne; [done|]. intros <-. congruence.
      * destruct Hst as (x & Hx & Hcx & Hst). exists x. rewrite Hd, elem_of_cons in Hst. destruct (decide (t = t')) as [<-|Hnt]; [congruence|].
        rewrite list_lookup_insert_ne by done. split; [done|]. split; [done|]. destruct Hst; [congruence|done].
  - intros t'. rewrite finals_snoc, Nat.add_0_r. destruct (I11 t') as [F1 F2]. split; [done|]. intros H. destruct (decide (t' = t)) as [->|Hnt].
    + right. exists s'. split; [by apply list_lookup_insert_eq|done].
    + apply F2 in H as [H|(x & Hx & Hp)]; [left; rewrite Hd, elem_of_cons in H; by destruct H|right; exists x; by rewrite list_lookup_insert_ne].
Qed.

Lemma fill_all cap l : forall q, (length q + length l <= cap)%nat -> fill cap l q = (q ++ l, true).
Proof.
  induction l as [|c l IH]; intros q Hl; cbn [fill]; [by rewrite app_nil_r|]. cbn in Hl. unfold try_enqueue. destruct (Nat.ltb_spec (length q) cap); [|lia].
  rewrite IH by (rewrite length_app; cbn; lia). by rewrite <- app_assoc.
Qed.

Lemma pool_invariant_start w w' : invariant w -> step w Start = Some w' -> invariant w'.
Proof.
  intros Hi. cbn [step]. unfold pool_start. destruct (negb (m_reactor (pool w))); [intros [= <-]; by apply invariant_throws|].
  destruct (validate (m_config (pool w))) as [[]|e]; cbn [mbind result_bind]; [|intros [= <-]; by apply invariant_throws].
  destruct (m_started (pool w)) eqn:Es; [by intros [= <-]|]. destruct (m_starting (pool w)) eqn:Et; [intros [= <-]; by apply invariant_throws|].
  destruct (m_draining (pool w)); intros [= <-]; [by apply invariant_throws|].
  assert (Hp := pool_ok w Hi). assert (Hcf := config_ok w Hi).
  destruct (m_available_transactions (pool w)) eqn:Ea; [destruct Hp as (Hp & _); congruence|].
  eapply (invariant_quiet w); try done; fields; cbn [set_flags m_available_transactions m_started m_transactions m_starting m_config]; try by apply Hi.
  - rewrite Ea. split; [done|apply Hp].
  - rewrite Ea. split; [done|]. split; [apply NoDup_seqZ|]. rewrite length_seqZ. split; [lia|done].
Qed.

Lemma invariant_connected w w' : invariant w -> step w Connected = Some w' -> invariant w'.
Proof.
  intros Hi. cbn [step]. destruct (connecting w) as [[n l]|] eqn:Ec; [|done]. cbn [mbind option_bind]. assert (Hc := connecting_ok w Hi). rewrite Ec in Hc.
  destruct Hc as (H1 & H2 & H3 & H4). unfold pool_started.
  set (p := mkPool _ _ _ _ _ _ _ _ _). assert (Hcap : lease_capacity p = length l) by (unfold lease_capacity, wrapu; cbn [p m_transactions]; rewrite Z.mod_small by lia; lia).
  rewrite fill_all by (rewrite Hcap; cbn; lia). intros [= <-]. fields. assert (Hp := pool_ok w Hi). rewrite H4 in Hp. destruct Hp as (P1 & P2 & P3).
  eapply (invariant_quiet w); try done; fields; try by apply Hi.
  cbn [set_flags set_leases m_available_transactions m_started m_transactions p app]. split; [done|]. split; [done|].
  rewrite P2. unfold held. rewrite P3. cbn. by rewrite app_nil_r.
Qed.

Lemma invariant_connect_failed w w' e : invariant w -> step w (Connect_failed e) = Some w' -> invariant w'.
Proof.
  intros Hi. cbn [step]. destruct (connecting w) as [[n l]|] eqn:Ec; [|done]. cbn [mbind option_bind]. intros [= <-]. apply invariant_throws.
  assert (Hc := connecting_ok w Hi). rewrite Ec in Hc. destruct Hc as (H1 & H2 & H3 & H4). assert (Hp := pool_ok w Hi). rewrite H4 in Hp.
  eapply (invariant_quiet w); try done; fields; cbn [pool_start_failed set_flags m_available_transactions m_started m_transactions]; try by apply Hi.
  by rewrite H4.
Qed.

Lemma invariant_drain w : invariant w -> invariant (set_pool (snd (pool_drain (pool w))) w).
Proof. intros Hi. eapply (invariant_quiet w); try done; apply Hi. Qed.

Lemma invariant_waiting w n : invariant w -> invariant (set_begins n (beginning w) w).
Proof. intros Hi. eapply (invariant_quiet w); try done; apply Hi. Qed.

Lemma invariant_answered w w' k ok e : invariant w -> step w (Begin_answered k ok e) = Some w' -> invariant w'.
Proof.
  intros Hi. cbn [step]. destruct (beginning w !! k) as [c|] eqn:Hk; [|done]. cbn [mbind option_bind]. destruct ok.
  - intros [= <-]. by apply invariant_begun.
  - destruct (some_leases w Hi) as [q Hq]; [left; intros E; by rewrite E in Hk|]. unfold return_lease. cbn [enqueue set_begins pool]. rewrite Hq. unfold try_enqueue.
    assert (Hr : (length q < lease_capacity (pool w))%nat) by (eapply room_for_lease; [done..|]; rewrite elem_of_app; left; by eapply list_elem_of_lookup_2).
    destruct (Nat.ltb_spec (length q) (lease_capacity (pool w))); [|lia]. intros [= <-]. cbn [default]. apply invariant_throws.
    exact (invariant_refused w k c q Hi Hk Hq).
Qed.

Lemma invariant_last_answer w w' k ok e : invariant w -> step w (Final_answered k ok e) = Some w' -> invariant w'.
Proof.
  intros Hi. cbn [step]. destruct (finishing w !! k) as [t|] eqn:Hk; [|done]. cbn [mbind option_bind]. destruct (txs w !! t) as [s|] eqn:Ht; [|done].
  cbn [mbind option_bind]. destruct (connection s) as [c|] eqn:Hc; [|done]. cbn [mbind option_bind].
  destruct (some_leases w Hi) as [q Hq]; [right; intros E; by rewrite E in Ht|].
  assert (Hr : (length q < lease_capacity (pool w))%nat) by (eapply room_for_lease; [done..|]; rewrite elem_of_app, elem_held; right; by exists t, s).
  assert (Hfin : current_phase s = finalizing).
  { assert (H : t ∈ ending w) by (unfold ending; rewrite elem_of_app; right; by eapply list_elem_of_lookup_2). apply (ending_ok w Hi) in H as (x & Hx & Hp). congruence. }
  assert (Hrel : release s = true) by (assert (H := tx_at w t s Hi Ht); unfold tx_ok in H; rewrite Hfin in H; apply H).
  unfold releaseLease. fields. rewrite Ht. rewrite decide_False by congruence. rewrite Hc, Hrel. unfold return_lease. fields. rewrite Hq. unfold try_enqueue.
  destruct (Nat.ltb_spec (length q) (lease_capacity (pool w))); [|lia]. intros [= <-]. apply invariant_throws_if.
  exact (invariant_finished w k t s c q ok Hi Hk Ht Hc Hq).
Qed.

Lemma invariant_rollback w h : invariant w -> invariant (queueRollback h w).
Proof.
  intros Hi. unfold queueRollback. destruct h as [t|]; [|done]. destruct (txs w !! t) as [s|] eqn:Ht; [|done]. case_decide as Hp; [|done]. by apply invariant_finish.
Qed.

Lemma invariant_finish_with w command a b h : invariant w -> invariant (finish_with command a b h w).
Proof.
  intros Hi. unfold finish_with. destruct h as [t|]; [|by apply invariant_throws]. destruct (txs w !! t) as [s|] eqn:Ht; [|done].
  case_decide as Hp; [by apply invariant_finish|by apply invariant_throws].
Qed.

(** After the rollback its handle may go. *)
Lemma rolled_back w t t' s : txs (queueRollback (Some t) w) !! t' = Some s -> current_phase s = active -> t' <> t.
Proof.
  unfold queueRollback. destruct (txs w !! t) as [x|] eqn:Ht; [|intros H _ ->; congruence]. case_decide as Hp; [|intros H Ha ->; congruence].
  unfold set_phase. fields. intros H Ha ->. rewrite list_lookup_insert_eq in H by by eapply lookup_lt_Some. injection H as <-. done.
Qed.

Lemma rollback_handles w h : handles (queueRollback h w) = handles w.
Proof. unfold queueRollback. destruct h as [t|]; [|done]. destruct (txs w !! t); [|done]. by case_decide. Qed.

Lemma invariant_query_by w sql h : invariant w -> invariant (query_task sql h w).
Proof.
  intros Hi. unfold query_task. destruct h as [t|]; [|by apply invariant_throws]. destruct (txs w !! t) as [s|] eqn:Ht; [|done].
  case_decide as Hp; [|by apply invariant_throws]. destruct (sempty sql); [by apply invariant_throws|].
  eapply (invariant_quiet w); try done; fields; try by apply Hi. intros g' t' c sql'. rewrite elem_of_app, list_elem_of_singleton. intros [H|[= -> -> -> ->]]; [by eapply (tasks_ok w Hi)|].
  exists s. split; [done|]. split; [|done]. assert (Hok := tx_at w t s Hi Ht). unfold tx_ok in Hok. rewrite Hp in Hok. apply Hok.
Qed.

(** A task moves on. *)
Lemma invariant_advance w w' from to k : invariant w -> advance_task from to k w = Some w' -> invariant w'.
Proof.
  intros Hi. unfold advance_task. destruct (tasks w !! k) as [[[[g t] c] sql]|] eqn:Hk; [|done]. cbn [mbind option_bind]. case_decide; [|done]. intros [= <-].
  eapply (invariant_quiet w); try done; fields; try by apply Hi. intros g' t' c' sql' H'. apply list_elem_of_lookup in H' as [i Hi']. destruct (decide (k = i)) as [<-|Hne].
  - rewrite list_lookup_insert_eq in Hi' by by eapply lookup_lt_Some. injection Hi' as <- <- <- <-. eapply (tasks_ok w Hi). by eapply list_elem_of_lookup_2.
  - rewrite list_lookup_insert_ne in Hi' by done. eapply (tasks_ok w Hi). by eapply list_elem_of_lookup_2.
Qed.

Lemma invariant_destroy w h t : invariant w -> handles w !! h = Some t -> invariant (set_txs (txs (queueRollback t w)) (<[h := None]> (handles w)) (queueRollback t w)).
Proof.
  intros Hi Hh. assert (Hr := invariant_rollback w t Hi). apply invariant_handles; [done|]. intros t' s Ht' Hp.
  destruct (handles_ok _ Hr t' s Ht' Hp) as [i Hi']. rewrite rollback_handles in Hi'. exists i. destruct (decide (h = i)) as [<-|Hne]; [|by rewrite list_lookup_insert_ne].
  rewrite Hh in Hi'. injection Hi' as ->. by destruct (rolled_back w t' t' s Ht' Hp).
Qed.

Lemma invariant_move w h t : invariant w -> handles w !! h = Some t -> invariant (set_txs (txs w) (<[h := None]> (handles w) ++ [t]) w).
Proof.
  intros Hi Hh. apply invariant_handles; [done|]. intros t' s Ht' Hp. destruct (handles_ok w Hi t' s Ht' Hp) as [i Hi']. destruct (decide (h = i)) as [<-|Hne].
  - exists (length (handles w)). rewrite lookup_app_r by (rewrite length_insert; lia). rewrite length_insert, Nat.sub_diag. cbn. congruence.
  - exists i. apply lookup_app_l_Some. by rewrite list_lookup_insert_ne.
Qed.

Lemma invariant_move_assign w h g t s : invariant w -> h <> g -> handles w !! h = Some t -> handles w !! g = Some s ->
  invariant (set_txs (txs (queueRollback t w)) (<[g := None]> (<[h := s]> (handles w))) (queueRollback t w)).
Proof.
  intros Hi Hne Hh Hg. assert (Hr := invariant_rollback w t Hi). apply invariant_handles; [done|]. intros t' x Ht' Hp.
  destruct (handles_ok _ Hr t' x Ht' Hp) as [i Hi']. rewrite rollback_handles in Hi'. destruct (decide (i = g)) as [->|Hig].
  - exists h. rewrite list_lookup_insert_ne by done. rewrite list_lookup_insert_eq by by eapply lookup_lt_Some. congruence.
  - exists i. rewrite list_lookup_insert_ne by done. destruct (decide (h = i)) as [<-|Hhi]; [|by rewrite list_lookup_insert_ne].
    rewrite Hh in Hi'. injection Hi' as ->. by destruct (rolled_back w t' t' x Ht' Hp).
Qed.

Lemma pool_invariant_step w w' ev : invariant w -> step w ev = Some w' -> invariant w'.
Proof.
  intros Hi. destruct ev as [| |e| | | |k ok e|h sql|k|k|k|h|h|h|h|h g|k|k ok e]; try (by apply pool_invariant_start); try (by apply invariant_connected); try (by apply invariant_connect_failed);
    try (by apply invariant_answered); try (by apply invariant_last_answer); cbn [step].
  - intros [= <-]. by apply invariant_drain.
  - destruct (admit_transaction (pool w)); intros [= <-]; [by apply invariant_waiting|by apply invariant_throws].
  - destruct (waiting w) as [|n]; [done|]. destruct (m_available_transactions (pool w)) as [[|c q]|] eqn:Eq; [done| |done]. intros [= <-]. by apply invariant_take.
  - destruct (handles w !! h); [|done]. intros [= <-]. by apply invariant_query_by.
  - by apply invariant_advance.
  - by apply invariant_advance.
  - destruct (tasks w !! k) as [[[[g t] c] sql]|] eqn:Hk; [|done]. cbn [mbind option_bind]. case_decide; [|done]. destruct c as [c|]; [|done]. intros [= <-].
    exact (invariant_query w k g t c sql Hi Hk).
  - destruct (handles w !! h); [|done]. intros [= <-]. by apply invariant_finish_with.
  - destruct (handles w !! h); [|done]. intros [= <-]. by apply invariant_finish_with.
  - destruct (handles w !! h) eqn:Hh; [|done]. intros [= <-]. by apply invariant_destroy.
  - destruct (handles w !! h) eqn:Hh; [|done]. intros [= <-]. by apply invariant_move.
  - case_decide; [by intros [= <-]|]. destruct (handles w !! h) as [t|] eqn:Hh; [|done]. cbn [mbind option_bind]. destruct (handles w !! g) as [s|] eqn:Hg; [|done].
    intros [= <-]. rewrite rollback_handles. by apply invariant_move_assign.
  - destruct (to_finish w !! k) as [[t command]|] eqn:Hk; [|done]. cbn [mbind option_bind]. destruct (txs w !! t) as [s|] eqn:Ht; [|done]. cbn [mbind option_bind].
    destruct (connection s) as [c|] eqn:Hc; [|done]. intros [= <-]. by eapply invariant_finalize.
Qed.

Lemma pool_invariant_run w w' evs : invariant w -> run w evs = Some w' -> invariant w'.
Proof.
  revert w. induction evs as [|ev evs IH]; intros w Hi; cbn [run]; [by intros [= <-]|]. destruct (step w ev) as [w1|] eqn:E; [|done]. cbn [mbind option_bind].
  apply IH. by eapply pool_invariant_step.
Qed.

Lemma pool_invariant_make config reactor : transaction_connections config < 2 ^ 32 -> invariant (World_make config reactor).
Proof.
  intros Hc. split; try done.
  - split; [by constructor|done].
  - by constructor.
  - intros t. split; [intros H; by apply elem_of_nil in H|by intros (s & Hs & _)].
  - intros g t c sql H. by apply elem_of_nil in H.
  - intros c. exists Free. split; [done|]. split; intros H; by apply elem_of_nil in H.
  - intros t. cbn. split; lia.
Qed.

(** ** Leases and brackets *)

(** C35: leases are conserved: once the pool has started, the leases in the queue, those whose BEGIN is under way and those held by transactions are together the transaction connections, each once; no two transactions hold the same connection, a lease that is out finds room in the queue when it comes back, and when nothing is under way and every transaction object is gone or moved from, all leases are back in the queue. *)
Theorem leases_are_conserved config reactor evs w : transaction_connections config < 2 ^ 32 -> run (World_make config reactor) evs = Some w ->
  (forall q, m_available_transactions (pool w) = Some q -> q ++ beginning w ++ held w ≡ₚ m_transactions (pool w) /\ NoDup (q ++ beginning w ++ held w)
    /\ (beginning w ++ held w <> [] -> (length q < lease_capacity (pool w))%nat)
    /\ (beginning w = [] -> to_finish w = [] -> finishing w = [] -> Forall (fun h => h = None) (handles w) -> q ≡ₚ m_transactions (pool w)))
  /\ (forall t t' s s' c, txs w !! t = Some s -> txs w !! t' = Some s' -> connection s = Some c -> connection s' = Some c -> t = t').
Proof.
  intros Hc Hr. assert (Hi := pool_invariant_run _ _ _ (pool_invariant_make config reactor Hc) Hr). split; [|intros t t' s s' c; by apply holder_unique].
  intros q Hq. assert (Hn := leases_nodup w q Hi Hq). assert (Hp := pool_ok w Hi). rewrite Hq in Hp. destruct Hp as (_ & _ & Hp).
  split; [done|]. split; [done|]. split.
  - intros Hne. destruct (beginning w ++ held w) as [|c l] eqn:E; [done|]. eapply (room_for_lease w q c); [done..|]. rewrite E, elem_of_cons. by left.
  - intros Hb Ht Hf Hh. rewrite <- Hp, Hb. assert (Hheld : held w = []); [|by rewrite Hheld, !app_nil_r].
    destruct (held w) as [|c l] eqn:E; [done|]. assert (Hc' : c ∈ held w) by (rewrite E, elem_of_cons; by left). apply elem_held in Hc' as (t & s & Hts & Hcs).
    assert (Hok := tx_at w t s Hi Hts). unfold tx_ok in Hok. destruct (current_phase s) eqn:Eph; [done|..].
    + destruct (handles_ok w Hi t s Hts Eph) as [h Hh']. rewrite Forall_lookup in Hh. by apply Hh in Hh'.
    + assert (He : t ∈ ending w) by (apply (ending_ok w Hi); by exists s). unfold ending in He. rewrite Ht, Hf in He. by apply elem_of_nil in He.
    + congruence.
Qed.

Lemma rollback_log w h : log (queueRollback h w) = log w.
Proof. unfold queueRollback. destruct h as [t|]; [|done]. destruct (txs w !! t); [|done]. by case_decide. Qed.

Lemma return_log what c w : log (fst (return_lease what c w)) = log w.
Proof. unfold return_lease. destruct (m_available_transactions (pool w)); [|done]. by destruct (try_enqueue _ _ _). Qed.

Lemma release_log t w : log (fst (releaseLease t w)) = log w.
Proof.
  unfold releaseLease. destruct (txs w !! t) as [s|]; [|done]. case_decide; [done|]. destruct (connection s); [|done]. destruct (release s); [|done].
  by rewrite return_log.
Qed.

Lemma throws_if_log e w : log (throws_if e w) = log w.
Proof. by destruct e. Qed.

(** What one step adds to what the connections were given. *)
Lemma step_log w w' ev : step w ev = Some w' -> log w' = log w \/ exists c e, log w' = log w ++ [(c, e)]
  /\ forall t sql, e = Query t sql -> exists k g, ev = Push_task k /\ tasks w !! k = Some (g, t, Some c, sql).
Proof.
  assert (Hadv : forall from to k, advance_task from to k w = Some w' -> log w' = log w).
  { intros from to k. unfold advance_task. destruct (tasks w !! k) as [[[[g t] c] sql]|]; [|done]. cbn [mbind option_bind]. case_decide; [|done]. by intros [= <-]. }
  destruct ev as [| |e| | | |k ok e|h sql|k|k|k|h|h|h|h|h g|k|k ok e]; cbn [step].
  - destruct (pool_start (pool w)) as [[p [l|]]|e]; intros [= <-]; by left.
  - destruct (connecting w) as [[n l]|]; [|done]. cbn [mbind option_bind]. destruct (pool_started n l (pool w)) as [p e]. intros [= <-]. left. by rewrite throws_if_log.
  - destruct (connecting w); [|done]. intros [= <-]. by left.
  - intros [= <-]. by left.
  - destruct (admit_transaction (pool w)); intros [= <-]; by left.
  - destruct (waiting w); [done|]. destruct (m_available_transactions (pool w)) as [[|c q]|]; try done. intros [= <-]. right. by exists c, Begin.
  - destruct (beginning w !! k) as [c|]; [|done]. cbn [mbind option_bind]. destruct ok.
    + intros [= <-]. right. by eexists c, _.
    + destruct (return_lease _ _ _) as [w1 e'] eqn:E. intros [= <-]. right. exists c, Refused. split; [|done]. cbn [throws log].
      assert (H := return_log "Could not return a failed database transaction lease" c (enqueue c Refused (set_begins (waiting w) (delete k (beginning w)) w))).
      rewrite E in H. exact H.
  - destruct (handles w !! h) as [t|]; [|done]. intros [= <-]. left. unfold query_task. destruct t as [t|]; [|done]. destruct (txs w !! t); [|done]. case_decide; [|done]. by destruct (sempty sql).
  - intros H. left. by eapply Hadv.
  - intros H. left. by eapply Hadv.
  - destruct (tasks w !! k) as [[[[g t] c] sql]|] eqn:Hk; [|done]. cbn [mbind option_bind]. case_decide; [|done]. destruct c as [c|]; [|done]. intros [= <-]. right.
    exists c, (Query t sql). split; [done|]. intros t' sql' [= <- <-]. by exists k, g.
  - destruct (handles w !! h) as [t|]; [|done]. intros [= <-]. left. unfold commit, finish_with. destruct t as [t|]; [|done]. destruct (txs w !! t); [|done]. by case_decide.
  - destruct (handles w !! h) as [t|]; [|done]. intros [= <-]. left. unfold rollback, finish_with. destruct t as [t|]; [|done]. destruct (txs w !! t); [|done]. by case_decide.
  - destruct (handles w !! h) as [t|]; [|done]. intros [= <-]. left. apply rollback_log.
  - destruct (handles w !! h) as [t|]; [|done]. intros [= <-]. by left.
  - case_decide; [intros [= <-]; by left|]. destruct (handles w !! h) as [t|]; [|done]. cbn [mbind option_bind]. destruct (handles w !! g) as [s|]; [|done]. intros [= <-].
    left. apply rollback_log.
  - destruct (to_finish w !! k) as [[t command]|]; [|done]. cbn [mbind option_bind]. destruct (txs w !! t) as [s|]; [|done]. cbn [mbind option_bind].
    destruct (connection s) as [c|]; [|done]. intros [= <-]. right. by exists c, (Final t command).
  - destruct (finishing w !! k) as [t|]; [|done]. cbn [mbind option_bind]. destruct (txs w !! t) as [s|]; [|done]. cbn [mbind option_bind].
    destruct (connection s) as [c|]; [|done]. cbn [mbind option_bind]. destruct (releaseLease _ _) as [w1 e'] eqn:E. intros [= <-]. rewrite throws_if_log.
    assert (H := release_log t (enqueue c (Finished t ok) (set_finals (to_finish w) (delete k (finishing w)) w))). rewrite E in H. right. exists c, (Finished t ok). by split.
Qed.

Lemma prompt_step w w' ev c : invariant w -> prompt w ev = true -> step w ev = Some w' -> inside c Free (log w) = true -> inside c Free (log w') = true.
Proof.
  intros Hi Hp Hs Hc. assert (Hi' := pool_invariant_step w w' ev Hi Hs). destruct (step_log w w' ev Hs) as [->|(c' & e & Hl & Hq)]; [done|].
  rewrite Hl, inside_snoc, Hc. destruct (sessions_ok w' Hi' c) as (st' & Hst' & _). rewrite Hl, session_snoc in Hst'.
  destruct (session_of c Free (log w)) as [st|] eqn:Est; [|done]. cbn [mbind option_bind] in Hst'. destruct (Z.eqb_spec c' c) as [->|Hne]; [|done].
  rewrite Hst', bool_decide_eq_true_2, andb_true_r by by eexists. destruct e as [| | |t sql| |]; try done. destruct (Hq t sql eq_refl) as (k & g & -> & Hk).
  unfold prompt in Hp. rewrite Hk in Hp. destruct (tasks_ok w Hi g t (Some c) sql) as (s & Ht & _ & Hcs); [by eapply list_elem_of_lookup_2|].
  rewrite Ht in Hp. apply bool_decide_eq_true in Hp. destruct (session_held w t s c Hi Ht) as [Hses _]; [symmetry; apply Hcs; congruence|].
  rewrite decide_False in Hses; [rewrite Est in Hses; injection Hses as ->; cbn; apply Nat.eqb_refl|].
  intros Hf. assert (He : t ∈ ending w) by (unfold ending; rewrite elem_of_app; by right). apply (ending_ok w Hi) in He as (x & Hx & Hpx). congruence.
Qed.

Lemma prompt_runs evs c : forall w w', invariant w -> prompt_run w evs = true -> run w evs = Some w' -> inside c Free (log w) = true -> inside c Free (log w') = true.
Proof.
  induction evs as [|ev evs IH]; intros w w' Hi Hp; cbn [run]; [by intros [= <-]|]. destruct (step w ev) as [w1|] eqn:E; [|done]. cbn [mbind option_bind].
  cbn [prompt_run] in Hp. rewrite E in Hp. apply andb_true_iff in Hp as [Hp1 Hp2]. intros Hr Hc. eapply (IH w1); [by eapply pool_invariant_step|done..|]. by eapply prompt_step.
Qed.

(** C36: on every connection transactions stand one after the other: a BEGIN, its answer, one final command of that transaction and its answer come before the next BEGIN, no transaction is ended twice, and a connection in the queue of leases stands outside all of them; when tasks reach the queue of their connection while their transaction is active, each query stands between the BEGIN and the final command of its own transaction. *)
Theorem transactions_are_bracketed config reactor evs w : transaction_connections config < 2 ^ 32 -> run (World_make config reactor) evs = Some w ->
  (forall c, is_Some (session_of c Free (log w)))
  /\ (forall q c, m_available_transactions (pool w) = Some q -> c ∈ q -> session_of c Free (log w) = Some Free)
  /\ (forall t, (finals t (log w) <= 1)%nat)
  /\ (prompt_run (World_make config reactor) evs = true -> forall c, inside c Free (log w) = true).
Proof.
  intros Hc Hr. assert (H0 := pool_invariant_make config reactor Hc). assert (Hi := pool_invariant_run _ _ _ H0 Hr). split; [|split; [|split]].
  - intros c. destruct (sessions_ok w Hi c) as (st & -> & _). by eexists.
  - intros q c Hq Hin. by destruct (session_begins w q c Hi Hq Hin).
  - intros t. by destruct (finals_ok w Hi t).
  - intros Hp c. by eapply (prompt_runs evs c (World_make config reactor)).
Qed.

(** ** The choice of a connection *)

Section choice.
Context (tie : Z) (unfinished : list Z) (Hall : Forall (fun u => 0 <= u < SIZE_MAX) unfinished) (Hne : unfinished <> []).

(** The connection looked at with an offset, and its load. *)
Definition index (o : Z) : Z := (tie + o) mod Z.of_nat (length unfinished).
Definition load (o : Z) : Z := unfinished !!! Z.to_nat (index o).

Lemma index_range o : 0 <= index o < Z.of_nat (length unfinished).
Proof using Hne. apply Z.mod_pos_bound. clear Hall. destruct unfinished; [done|]. cbn. lia. Qed.

Lemma load_range o : 0 <= load o < SIZE_MAX.
Proof.
  rewrite Forall_lookup in Hall. apply (Hall (Z.to_nat (index o))). apply list_lookup_lookup_total_lt. assert (H := index_range o). lia.
Qed.

(** What the loop knows after [offset] turns. *)
Definition best (offset minimum chosen : Z) : Prop :=
  (offset = 0 /\ minimum = SIZE_MAX)
  \/ exists o, 0 <= o < offset /\ chosen = index o /\ minimum = load o /\ (forall o', 0 <= o' < offset -> load o <= load o') /\ (forall o', 0 <= o' < o -> load o < load o').

Lemma choose_best turns : forall offset minimum chosen, 0 <= offset -> best offset minimum chosen ->
  exists minimum', best (offset + Z.of_nat turns) minimum' (choose turns tie offset unfinished minimum chosen).
Proof.
  induction turns as [|turns IH]; intros offset minimum chosen Ho Hb; cbn [choose]; [exists minimum; by rewrite Z.add_0_r|].
  change ((tie + offset) mod Z.of_nat (length unfinished)) with (index offset). change (unfinished !!! Z.to_nat (index offset)) with (load offset).
  replace (offset + Z.of_nat (S turns)) with (offset + 1 + Z.of_nat turns) by lia. assert (Hl := load_range offset).
  destruct (Z.geb_spec (load offset) minimum) as [Hge|Hlt]; (apply IH; [lia|]).
  - destruct Hb as [[-> ->]|(o & Hoo & -> & -> & H1 & H2)]; [unfold SIZE_MAX in *; lia|]. right. exists o. split; [lia|]. split; [done|]. split; [done|]. split; [|done].
    intros o' Ho'. destruct (decide (o' = offset)) as [->|]; [lia|]. apply H1. lia.
  - right. exists offset. split; [lia|]. split; [done|]. split; [done|]. destruct Hb as [[-> ->]|(o & Hoo & -> & -> & H1 & H2)].
    + split; intros o' Ho'; [replace o' with 0 by lia|]; lia.
    + split; intros o' Ho'; [destruct (decide (o' = offset)) as [->|]; [lia|]|]; (assert (load o <= load o') by (apply H1; lia); lia).
Qed.
End choice.

(** An operation submitted to the pool goes to a connection with the fewest unfinished operations, and among those to the first one counted from the connection after the last choice; the next choice counts from behind it, so equally loaded connections take turns. *)
Theorem submit_chooses_least p unfinished c p' : length unfinished = length (m_normal p) -> Forall (fun u => 0 <= u < SIZE_MAX) unfinished ->
  pool_submit unfinished p = Ok (c, p') ->
  exists o, 0 <= o < Z.of_nat (length unfinished)
    /\ m_normal p !! Z.to_nat (index (m_next_tie p) unfinished o) = Some c
    /\ (forall u, u ∈ unfinished -> load (m_next_tie p) unfinished o <= u)
    /\ (forall o', 0 <= o' < o -> load (m_next_tie p) unfinished o < load (m_next_tie p) unfinished o')
    /\ m_next_tie p' = (index (m_next_tie p) unfinished o + 1) mod Z.of_nat (length unfinished) /\ m_started p = true /\ m_draining p = false.
Proof.
  intros Hl Hall. unfold pool_submit. destruct (negb (m_started p) || _ || m_draining p) eqn:E; [done|].
  apply orb_false_iff in E as [E E3]. apply orb_false_iff in E as [E1 E2]. apply Z.eqb_neq in E2. apply negb_false_iff in E1. intros H.
  assert (Hne : unfinished <> []) by (intros ->; cbn in Hl; rewrite <- Hl in E2; done).
  destruct (choose_best (m_next_tie p) unfinished Hall Hne (length (m_normal p)) 0 SIZE_MAX (m_next_tie p mod Z.of_nat (length (m_normal p)))) as (m & Hb); [lia|by left|].
  set (chosen := choose _ _ _ _ _ _) in *. injection H as <- <-. rewrite <- Hl in Hb. destruct Hb as [[Hz _]|(o & Ho & Hch & _ & H1 & H2)]; [rewrite <- Hl in E2; lia|].
  assert (Hi := index_range (m_next_tie p) unfinished Hne o). exists o. split; [lia|]. rewrite <- Hch in *. split; [|split; [|split; [|split; [|done]]]].
  - apply list_lookup_lookup_total_lt. lia.
  - intros u Hu. apply list_elem_of_lookup in Hu as [i Hi']. assert (Hlt := lookup_lt_Some _ _ _ Hi'). set (n := Z.of_nat (length unfinished)) in *.
    specialize (H1 ((Z.of_nat i - m_next_tie p) mod n)). etransitivity; [apply H1; apply Z.mod_pos_bound; lia|]. apply Z.eq_le_incl. unfold load, index. fold n.
    rewrite Zplus_mod_idemp_r. replace (m_next_tie p + (Z.of_nat i - m_next_tie p)) with (Z.of_nat i) by lia. rewrite Z.mod_small by lia. rewrite Nat2Z.id.
    by apply list_lookup_total_correct.
  - exact H2.
  - cbn. by rewrite Hl.
Qed.

(** ** Runs *)

Module PoolExample.

Definition lost : exn := runtime_error "connection lost".
Definition opened := [Start; Connected; Transaction; Take_lease; Begin_answered 0 true lost].
Definition one := opened ++ [Query_by 0 "SELECT 1"; Start_task 0; Mark_task 0; Push_task 0; Commit_by 0; Destroy 0; Run_finalize 0; Final_answered 0 true lost].

(** A committed transaction: its object is destroyed while the COMMIT is under
    way, and no second command follows. *)
Lemma one_run : exists w, run (World_make DBConfig_defaults true) one = Some w
  /\ log w = [(9, Begin); (9, Began 0); (9, Query 0 "SELECT 1"); (9, Final 0 "COMMIT"); (9, Finished 0 true)]
  /\ m_available_transactions (pool w) = Some [10; 9] /\ thrown w = [].
Proof. eexists. split; [vm_compute; reflexivity|]. done. Qed.

Lemma leases_are_conserved_witness : exists w, run (World_make DBConfig_defaults true) one = Some w
  /\ exists q, m_available_transactions (pool w) = Some q /\ q ≡ₚ m_transactions (pool w).
Proof.
  destruct (run (World_make DBConfig_defaults true) one) as [w|] eqn:E; [|exfalso; revert E; vm_compute; discriminate].
  exists w. split; [done|]. destruct (leases_are_conserved DBConfig_defaults true one w) as [H _]; [vm_compute; reflexivity|exact E|].
  exists [10; 9]. assert (Hq : m_available_transactions (pool w) = Some [10; 9]) by (revert E; vm_compute; intros [= <-]; reflexivity).
  split; [done|]. destruct (H _ Hq) as (_ & _ & _ & H4). apply H4; revert E; vm_compute; intros [= <-]; try reflexivity. by repeat constructor.
Defined.

Lemma transactions_are_bracketed_witness : exists w, run (World_make DBConfig_defaults true) one = Some w
  /\ inside 9 Free (log w) = true /\ (finals 0 (log w) <= 1)%nat.
Proof.
  destruct (run (World_make DBConfig_defaults true) one) as [w|] eqn:E; [|exfalso; revert E; vm_compute; discriminate].
  exists w. split; [done|]. destruct (transactions_are_bracketed DBConfig_defaults true one w) as (_ & _ & H3 & H4); [vm_compute; reflexivity|exact E|].
  split; [apply H4; vm_compute; reflexivity|apply H3].
Defined.

(** A task made by an active transaction and started after its COMMIT runs on
    the connection of whoever holds the lease by then. *)
Definition late := opened ++ [Query_by 0 "DELETE FROM t"; Commit_by 0; Run_finalize 0; Final_answered 0 true lost;
  Transaction; Take_lease; Begin_answered 0 true lost; Transaction; Take_lease; Begin_answered 0 true lost; Start_task 0; Mark_task 0; Push_task 0].
Lemma late_query_joins_another_transaction : exists w, run (World_make DBConfig_defaults true) late = Some w
  /\ session_of 9 Free (log w) = Some (Open 2) /\ last (log w) = Some (9, Query 0 "DELETE FROM t") /\ inside 9 Free (log w) = false.
Proof. eexists. split; [vm_compute; reflexivity|]. done. Qed.

(** A COMMIT slips in between the start of a task and its way into the queue. *)
Definition overtaken := opened ++ [Query_by 0 "DELETE FROM t"; Start_task 0; Mark_task 0; Commit_by 0; Run_finalize 0; Push_task 0].
Lemma commit_overtakes_a_started_task : exists w, run (World_make DBConfig_defaults true) overtaken = Some w
  /\ log w = [(9, Begin); (9, Began 0); (9, Final 0 "COMMIT"); (9, Query 0 "DELETE FROM t")] /\ inside 9 Free (log w) = false.
Proof. eexists. split; [vm_compute; reflexivity|]. done. Qed.

(** A failed BEGIN returns its lease. *)
Lemma refused_run : exists w, run (World_make DBConfig_defaults true) [Start; Connected; Transaction; Take_lease; Begin_answered 0 false lost] = Some w
  /\ m_available_transactions (pool w) = Some [10; 9] /\ thrown w = [lost] /\ handles w = [].
Proof. eexists. split; [vm_compute; reflexivity|]. done. Qed.

Definition ready : DBPool := mkPool DBConfig_defaults true [1; 2; 3] [] (Some []) 2 false true false.

Lemma submit_chooses_least_witness : exists c p', pool_submit [4; 4; 5] ready = Ok (c, p') /\ c = 1
  /\ exists o, 0 <= o < 3 /\ load 2 [4; 4; 5] o <= 4.
Proof.
  destruct (pool_submit [4; 4; 5] ready) as [[c p']|e] eqn:E; [|exfalso; revert E; vm_compute; discriminate].
  exists c, p'. split; [done|]. split; [revert E; vm_compute; by intros [= <- _]|].
  destruct (submit_chooses_least ready [4; 4; 5] c p') as (o & Ho & _ & H & _); [done|by repeat (constructor; [split; vm_compute; congruence|])|exact E|].
  exists o. split; [exact Ho|]. apply H. rewrite elem_of_cons. by left.
Defined.
End PoolExample.
